(* ===== verification/_CoqProject ===== *)
-Q . S2P
Prelude.v
JsMap.v
RouterFeed.v
PollWaiters.v
JsString.v
Identifiers.v
Address.v
BoundedCache.v
AuthenticatedHttp.v
PollCursor.v
RouterPoll.v
Json.v
FormGrammar.v
AnswerFormats.v
Validation.v
CollectivePart.v
ReceivedRequest.v
Operation.v
OperationRuns.v
OperationResults.v
SignedMessages.v
Hosts.v
RouterSend.v
SealedBody.v
SealedBodyLaws.v
SealedBodyRuns.v
RecordSchemas.v
Records.v
OuterBody.v
Certificates.v
StoredHistory.v
HistoryChain.v
StoreDatabase.v
StoreQueues.v
StoreRecords.v
StoreAnchors.v
EndpointStore.v
StoreVotes.v
StoreScopes.v
StoreLedger.v
StoreOutbox.v
StoreLocks.v
StoreRecovery.v
StoreHistory.v
StoreGrowth.v
HostTables.v
StoreFirewall.v
HostLaws.v
HostChecks.v
HostOrder.v
HostRuns.v
EngineRuntime.v
EngineInvariants.v
HistoryBuild.v
Outbox.v
Send.v
EngineQuiet.v
RecoveryState.v
SendLaws.v
Certification.v
CatchUp.v
Reanchor.v
Startup.v
Recovery.v
RouterWorker.v
RouterWorkerLaws.v
RouterWorkerRuns.v
Engine.v
EngineStore.v
RecoverySteps.v
RecoveryRuns.v
RecoveryTrials.v
CertificationSafety.v
CertificationSteps.v
CertificationRecords.v
SendSteps.v
StartupLaws.v
Restarts.v
CertificationRuns.v
Agreement.v
