(* ===== verification/Prelude.v ===== *)
(** * Social Harness (MoltZap): a verification library of its core logic

    Agents of an organisation exchange posts in conversations whose members
    agree, without a central server they trust, on one chain of records.  An
    agent's daemon (packages/client) holds an endpoint: an engine that orders
    and certifies posts with the other members' endpoints, a durable store,
    and a collective layer that asks members questions and gathers their
    answers.  Messages travel over a volatile Router (packages/router) as
    signed, sealed envelopes (packages/identity).  This library models the
    decisions of these parts as executable definitions and proves what each
    promises.

    ** Conventions

    An [Effect<A, E>] that cannot be interrupted or suspended midway is a
    function to [Exit E A], or to [option A] where the code has one untyped
    error; state is an argument and a result.  The engine, which can be
    interrupted anywhere, has a monad of its own (EngineRuntime).  A JavaScript
    [Map] is JsMap's association list, a SQL table a finite map or a list of
    rows (StoreDatabase), a [Deferred] or another shared object an index into
    a heap of such objects.  Third-party code is an argument: the classes
    [Base64Url], [HostJson], [Jose], [Sha256], [JoseEncryption],
    [CursorPrimitives] hold what the code calls, and classes named [...Laws]
    what it relies on, each with a concrete instance (Hosts, SealedBodyLaws,
    SealedBodyRuns) on which every property with hypotheses is applied.
    A text is its bytes and a finite double its exact rational.

    ** Parts

    A file holds the Module of its name, and some hold smaller ones beside it,
    named in brackets below.

    Shared: JsMap (Map), JsString (strings, and regular expressions by
    derivatives), Identifiers (identifiers.ts of identity and client), Json
    (encoding/exact.ts, records/values.ts; [CanonicalJson], [ClientJson]: both
    canonical-json.ts), BoundedCache (bounded-cache.ts).

    Router (packages/router/src/router): RouterFeed (feed.ts) keeps the
    bounded ordered feed, PollWaiters (poll-waiters.ts) the held polls,
    PollCursor (poll-cursor.ts) seals a continuation, RouterPoll (poll.ts)
    reads the feed through both, RouterSend (send.ts) admits a verified
    message and wakes the waiters.

    Identity (packages/identity/src): AuthenticatedHttp
    (authenticated-http.ts) the replay defence and card resolution,
    SignedMessages (agent-card.ts, signed-message.ts, agent-key.ts) the two
    JWS artifacts, SealedBody (sealed-body.ts) encryption to every recipient;
    SealedBodyLaws ([SealedBodySizes]) and SealedBodyRuns prove its sizes, its
    round trip and its single plaintext.

    Records (packages/client/src/communication/records): RecordSchemas
    (schemas.ts, values.ts), Records (encoding/codec.ts, verification.ts),
    OuterBody (packets between members and their envelopes), Certificates
    (why two certificates cannot disagree; [RecordRuns]: a concrete history).

    Endpoint store (communication/store): StoreDatabase (tables and
    transactions), StoreQueues ([StoreRows]), StoreRecords, StoreAnchors (one
    file of src each), EndpointStore (its operations as one type and the
    states a history reaches; [StoreReads], and [StoreRuns], which runs one),
    StoredHistory and HistoryChain (reading a history back,
    conversations/history/stored.ts).  StoreRecovery and StoreHistory are the
    reads of reads.ts: the snapshot a start recovers from, and the frozen pages
    of a management read.  StoreVotes, StoreScopes, StoreLedger, StoreOutbox,
    StoreLocks and StoreGrowth prove invariants of histories.  HostTables adds
    the tables kept for the runtime ([StoreInbox]: inbox.ts) and StoreFirewall
    (firewall.ts) their operations; HostLaws ([HostStore]: all operations of a
    store as one type) shows what every one of them keeps, HostChecks when a
    check is admitted ([HostPosts]: which posts bind), HostOrder what the
    runtime is shown ([InboxPages]: how it is read), and HostRuns runs a
    history.

    Engine (communication/conversations): Address (address.ts; [SendErrors]:
    errors.ts), EngineRuntime (runtime/index.ts; [Fences]:
    recovery/barrier.ts), HistoryBuild (history/build.ts, message.ts), Outbox
    (outbox.ts), Send (send.ts), Certification (certification/), Startup
    (startup.ts) and Engine (index.ts: the start of a process and the daemon's
    operations).  EngineInvariants ([EngineLogic]: the judgement the proofs
    use) has the shape of the engine's state, EngineQuiet ([EngineKeeps]) what
    a computation leaves alone, CertificationSafety the invariant of folds,
    locks and signatures.  CertificationSteps, CertificationRecords, SendSteps
    and Restarts ([EngineSteps]) show that every operation keeps it,
    StartupLaws and Restarts that a start over the database of a process that
    died does, wherever it died.  CertificationRuns has the theorems on
    histories of operations and crashes, Agreement what the engines of a
    conversation's members decide together, SendLaws what a send leaves.
    Certification calls the store's transactions on the modelled database,
    signs with SignedMessages and Records, and sends through Outbox.  What a
    phase starts in another is a class: certification runs against
    [EnginePhases], which Send implements, and sending against
    [RecoveryPhase]; the proofs about one anchor take it to be quiet
    ([QuietRecovery]): to complete no re-anchor.

    Recovery of a Router discontinuity (communication/conversations):
    RecoveryState (the runs of recovery/index.ts; [ReanchorVotes]:
    reanchor/votes.ts), CatchUp (recovery/catch-up.ts), Reanchor
    (reanchor/index.ts; [EmptyRestart]: reanchor/empty.ts) and Recovery
    (recovery/index.ts; [Successor]: recovery/successor.ts).  EngineStore says
    when a computation of the engine reaches its database and its signatures
    by store operations and permitted signatures alone ([DurableRuns]);
    RecoverySteps shows it of the recovery, RecoveryRuns of the whole engine,
    with the theorems, which RecoveryTrials applies to a concrete trial of two
    members.

    Router worker (communication/router): RouterWorker (index.ts, outage.ts,
    types.ts) has polls, sends and recoveries as processes over three gates,
    and the machine that interleaves and interrupts them.  RouterWorkerLaws is
    the law of what may happen and a rely-guarantee judgement under which
    every process keeps it; RouterWorkerRuns shows it of every run, with a
    concrete run.

    Collectives (communication/collectives): FormGrammar (part/grammar.ts),
    AnswerFormats (answer-formats.ts), Validation (validation.ts),
    CollectivePart (part/index.ts), ReceivedRequest (received-request.ts,
    shared-answers.ts; [RequestSends]: request-sends.ts), Operation
    (operation.ts: one definition per uninterrupted stretch), OperationRuns
    and OperationResults (the interleavings of those stretches).

    ** What the theorems show

    Router: the feed refines a log of which it keeps a suffix, polling loses
    nothing and stays within its limits, a retried send answers as the first, a
    nonce is accepted again only once a claim since read the clock past its
    validity, a cursor serves its caller alone, waiters are bounded and no
    wake-up is lost but by an interrupted send.
    Agreement: two certified actions share more than a third of the members as
    signers of both.  While at most a third are faulty, the action hashes in
    circulation do not collide, and no re-anchor completes and no empty
    conversation is restarted, an endpoint signs one action per predecessor
    through any interruptions, crashes and restarts, and so the conversation
    does not fork under that anchor.  An endpoint's store keeps one vote
    per head and anchor and never both a successor and a re-anchor; the certified records
    are one gapless chain, each delivered once; a recovered history is one
    chain, and two with one head are one unless the bytes of two of their
    records collide.  Recovery: in an endpoint's whole life, re-anchors
    included, it votes for one re-anchor of an anchor to a Router instance, and
    for one continuation of a position, a successor or a re-anchor; so while
    at most a third of the members are faulty, two completed re-anchors of one
    anchor for one instance are one, two quorums of stored votes that extend
    one record under one anchor are for one action, and no such quorum exists
    where a re-anchor that leaves that record and anchor completes.
    Router worker: every state change and every call of every interleaving is
    one of an abstract worker's; an attached worker's cursor covers every
    message it passed; before it is active the engine was recovered, and a
    restarted Router is recovered as one; no schedule blocks or goes on for
    ever; a send transmits six times at most.  Identity: sealed bodies open to what was
    sealed, with the exact reported size, and two openings of one body yield
    one plaintext unless their salted plaintexts collide.  Outbox: an
    envelope goes out once in initial mode.  Collectives: an operation ends
    once unless a firewall's bind holds it, where a theorem exhibits that it can
    end twice; an all_gather's members
    build one result, forms and parts round-trip, answers are validated
    exactly.  A send binds its intent, leaves nothing, or, when its commit is
    unconfirmed, says that the outcome is unknown; it keeps its caller's hold
    exactly when it binds; a management read hands out one frozen history, to
    its end while the host can draw new continuations.  Firewall: a check
    is admitted only on the evidence it began with, a post binds only with an
    admitted check, items are shown in the order they were queued, each after
    its predecessors were decided, and the inbox's pages lose none.

    ** Bounds and fuel

    Machine widths are explicit where code relies on them: the 2^53 - 1 range
    of integers in schemas, byte limits of bodies, feeds and results.  Fuel
    appears where the code loops: the draining of the outbox is bounded by
    the envelopes it may send, and a drain that would send more does not end;
    an activation is bounded by the fences it waits behind one after another.
    Every other loop of the code is structural recursion on a list it consumes.
    The JSON reader of Hosts has fuel for every input of its length.

    ** Not modelled

    Disk, SQLite and network faults (a store operation commits or refuses; the
    bind of a send alone may also come out unconfirmed, as [failBind] reads it),
    the delays between attempts and clocks (a reading is an argument), logs,
    spans, trace markers and metrics; jose, canonicalize, Effect and
    PostgreSQL, whose results are arguments; the HTTP, RPC and MCP glue, the
    daemon, its launcher, the host adapters and the repository's scripts,
    which carry no rules of the protocol.  The firewall's tables, queue and
    commits are modelled (StoreFirewall), the evaluation of a check, its
    policy files and its audit are not: a verdict is an answer of a language
    model, and which operations follow it is what the tables' theorems bound.
    Of HTTP signatures AuthenticatedHttp takes the verification of one request
    as an argument.  The tasks and retries that recovery forks each run in one
    piece, while in the code an ingress may come between their steps: between
    the staging of a candidate and the signature of the vote for it, for one.
    What is shown of votes and re-anchors rests on the guards of the store's
    transactions.  A catch-up that becomes ready and the end of a recovery
    are modelled as the code has them, without a theorem that they come about:
    that depends on which members answer. *)
From stdpp Require Export base tactics option list numbers strings gmap fin_maps sets.
From stdpp Require Export list_numbers sorting.

(** ** Effects

    The program is written against the Effect library: an [Effect<A, E>]
    ends in an [Exit], a success carrying an [A] or a typed failure carrying
    an [E].  State that the code keeps in a [Ref] or a captured [Map] is an
    explicit argument and result of each definition. *)
Inductive Exit (E A : Type) : Type :=
  | Succeed (a : A)
  | Fail_ (e : E).
Arguments Succeed {E A} a.
Arguments Fail_ {E A} e.

Global Instance exit_eq_dec {E A} `{EqDecision E, EqDecision A} :
  EqDecision (Exit E A).
Proof. solve_decision. Defined.

Global Instance exit_ret {E} : MRet (Exit E) := fun _ a => Succeed a.
Global Instance exit_bind {E} : MBind (Exit E) := fun _ _ k m =>
  match m with Succeed a => k a | Fail_ e => Fail_ e end.
Global Instance exit_fmap {E} : FMap (Exit E) := fun _ _ f m =>
  match m with Succeed a => Succeed (f a) | Fail_ e => Fail_ e end.

Global Instance succeed_inj {E A} : Inj (=) (=) (@Succeed E A).
Proof. by intros ? ? [=]. Qed.

(** [Effect.mapError]. *)
Definition map_error {E E' A} (f : E -> E') (m : Exit E A) : Exit E' A :=
  match m with Succeed a => Succeed a | Fail_ e => Fail_ (f e) end.

(** [Effect.forEach] with sequential concurrency: the first failure ends it. *)
Fixpoint for_each {E A B} (f : A -> Exit E B) (l : list A) : Exit E (list B) :=
  match l with
  | [] => Succeed []
  | x :: l' => y ← f x; ys ← for_each f l'; Succeed (y :: ys)
  end.

(** [Either.match] / [Option.fromNullable] style view of an exit. *)
Definition exit_option {E A} (m : Exit E A) : option A :=
  match m with Succeed a => Some a | Fail_ _ => None end.

Lemma bind_succeed {E A B} (m : Exit E A) (k : A -> Exit E B) b :
  m ≫= k = Succeed b <-> exists a, m = Succeed a /\ k a = Succeed b.
Proof. unfold mbind, exit_bind. destruct m; naive_solver. Qed.

Lemma map_error_succeed {E E' A} (f : E -> E') (m : Exit E A) a :
  map_error f m = Succeed a <-> m = Succeed a.
Proof. destruct m; simpl; naive_solver. Qed.

Lemma for_each_succeed {E A B} (f : A -> Exit E B) l ys :
  for_each f l = Succeed ys <-> Forall2 (fun x y => f x = Succeed y) l ys.
Proof.
  revert ys; induction l as [|x l IH]; intros ys; simpl.
  - split; [by intros [= <-]; constructor | by inversion 1].
  - rewrite bind_succeed; setoid_rewrite bind_succeed; setoid_rewrite IH.
    split; [intros (y & ? & zs & ? & [= <-]); by constructor|].
    inversion 1; naive_solver.
Qed.

(** ** Proof automation *)

(** Case analysis on every [match]/[decide] of the goal or the context,
    closing contradictory branches as it goes. *)
Ltac break :=
  repeat (first [case_decide | case_bool_decide | case_match]; simplify_eq/=).

Create HintDb sharness discriminated.
Create Rewrite HintDb sharness_rw.
#[export] Hint Resolve Forall_nil_2 NoDup_nil_2 : sharness.

(** ** Sums of measured lists *)

(** The sum of a [Z]-valued measure over a list. *)
Definition zsum {A} (f : A -> Z) (l : list A) : Z :=
  foldr (fun a acc => f a + acc)%Z 0%Z l.

Arguments zsum : simpl never.

Lemma zsum_nil {A} (f : A -> Z) : zsum f [] = 0%Z.
Proof. done. Qed.
Lemma zsum_cons {A} (f : A -> Z) x l : zsum f (x :: l) = (f x + zsum f l)%Z.
Proof. done. Qed.
Lemma zsum_app {A} (f : A -> Z) l k : zsum f (l ++ k) = (zsum f l + zsum f k)%Z.
Proof. induction l as [|x l IH]; simpl; rewrite ?zsum_cons; [done | lia]. Qed.
Lemma zsum_nonneg {A} (f : A -> Z) l :
  Forall (fun x => 0 <= f x)%Z l -> (0 <= zsum f l)%Z.
Proof. induction 1; rewrite ?zsum_cons; [done | lia]. Qed.
#[export] Hint Rewrite @zsum_nil @zsum_cons @zsum_app : sharness_rw.

(** ** List facts shared by the components *)

Lemma drop_head {A} n (l : list A) x l' :
  drop n l = x :: l' -> drop (S n) l = l' /\ l !! n = Some x.
Proof.
  intros H. split.
  - replace (S n) with (n + 1) by lia. by rewrite <- drop_drop, H.
  - by rewrite <- (Nat.add_0_r n), <- lookup_drop, H.
Qed.

Lemma head_app_some {A} (l k : list A) x :
  head l = Some x -> head (l ++ k) = Some x.
Proof. by destruct l. Qed.

Lemma list_filter_id {A} (P : A -> Prop) `{forall x, Decision (P x)} l :
  Forall P l -> filter P l = l.
Proof.
  induction 1 as [|x l Hx _ IH]; [done|].
  rewrite filter_cons, decide_True by done. by rewrite IH.
Qed.

Lemma filter_none {A} (P : A -> Prop) `{forall x, Decision (P x)} (l : list A) :
  (forall x, x ∈ l -> ~ P x) -> filter P l = [].
Proof.
  induction l as [|x l IH]; intros Hl; [done|].
  rewrite filter_cons, decide_False by (apply Hl; by left). apply IH. set_solver.
Qed.

Lemma filter_iff {A} (P Q : A -> Prop) `{forall x, Decision (P x), forall x, Decision (Q x)} (l : list A) :
  (forall x, x ∈ l -> (P x <-> Q x)) -> filter P l = filter Q l.
Proof.
  induction l as [|x l IH]; intros Hl; [done|].
  rewrite !filter_cons, (IH ltac:(set_solver)).
  destruct (Hl x) as [H1 H2]; [by left|]. by repeat case_decide; auto; tauto.
Qed.
