(* ===== verification/JsMap.v ===== *)
(** JsMap: the JavaScript [Map], a map that iterates in insertion order.

    The language's [Map] is used throughout the program both as a plain
    dictionary and for its iteration order (the first key of a cache is its
    least recently used).  The model is the association list of its entries
    in iteration order: [set] of a present key replaces the value in place,
    [set] of an absent key appends, [delete] removes.  No two entries share
    a key ([jm_wf]), which every operation preserves. *)
From S2P Require Import Prelude.

Section js_map.
Context {K : Type} {Keq : EqDecision K} {V : Type}.

(** [map.get(key)]. *)
Fixpoint jm_get (m : list (K * V)) (k : K) : option V :=
  match m with
  | [] => None
  | (k', v) :: m' => if decide (k' = k) then Some v else jm_get m' k
  end.

(** [map.has(key)]. *)
Definition jm_has (m : list (K * V)) (k : K) : bool :=
  match jm_get m k with Some _ => true | None => false end.

(** [map.set(key, value)]. *)
Fixpoint jm_set (m : list (K * V)) (k : K) (v : V) : list (K * V) :=
  match m with
  | [] => [(k, v)]
  | (k', v') :: m' =>
      if decide (k' = k) then (k', v) :: m' else (k', v') :: jm_set m' k v
  end.

(** [map.delete(key)]. *)
Fixpoint jm_delete (m : list (K * V)) (k : K) : list (K * V) :=
  match m with
  | [] => []
  | (k', v') :: m' =>
      if decide (k' = k) then m' else (k', v') :: jm_delete m' k
  end.

Definition jm_keys (m : list (K * V)) : list K := m.*1.

Lemma jm_keys_cons k v m : jm_keys ((k, v) :: m) = k :: jm_keys m.
Proof. done. Qed.

(** Entries have distinct keys. *)
Definition jm_wf (m : list (K * V)) : Prop := NoDup (jm_keys m).

Lemma jm_get_some_elem m k v : jm_get m k = Some v -> (k, v) ∈ m.
Proof.
  induction m as [|[k' v'] m IH]; simpl; [done|].
  case_decide; intros; simplify_eq; set_solver.
Qed.

Lemma jm_get_none m k : jm_get m k = None <-> k ∉ jm_keys m.
Proof.
  unfold jm_keys; induction m as [|[k' v'] m IH]; simpl; [set_solver|].
  case_decide; set_solver.
Qed.

Lemma jm_get_is_some m k : is_Some (jm_get m k) <-> k ∈ jm_keys m.
Proof.
  rewrite <- not_eq_None_Some, jm_get_none.
  destruct (decide (k ∈ jm_keys m)); naive_solver.
Qed.

Lemma jm_get_elem m k v : jm_wf m -> (jm_get m k = Some v <-> (k, v) ∈ m).
Proof.
  intros Hwf. split; [apply jm_get_some_elem|].
  unfold jm_wf, jm_keys in *.
  induction m as [|[k' v'] m IH]; simpl in *; [set_solver|].
  apply NoDup_cons in Hwf as [Hni Hwf]. intros Hin.
  apply elem_of_cons in Hin as [[= -> ->]|Hin]; [by rewrite decide_True|].
  rewrite decide_False; [auto|]. intros ->. apply Hni.
  apply list_elem_of_fmap. by exists (k, v).
Qed.

Lemma jm_set_keys m k v :
  jm_keys (jm_set m k v) =
    if decide (k ∈ jm_keys m) then jm_keys m else jm_keys m ++ [k].
Proof.
  induction m as [|[k' v'] m IH].
  - unfold jm_keys. simpl. done.
  - cbn [jm_set]. rewrite jm_keys_cons.
    destruct (decide (k' = k)) as [->|Hk]; rewrite jm_keys_cons.
    + rewrite decide_True; [done | set_solver].
    + rewrite IH. destruct (decide (k ∈ jm_keys m)).
      * rewrite decide_True by set_solver. done.
      * rewrite decide_False by set_solver. done.
Qed.

Lemma jm_set_wf m k v : jm_wf m -> jm_wf (jm_set m k v).
Proof.
  unfold jm_wf. rewrite jm_set_keys. case_decide; [done|]. intros.
  apply NoDup_app. split_and!; [done | set_solver | apply NoDup_singleton].
Qed.

Lemma jm_get_set_eq m k v : jm_get (jm_set m k v) k = Some v.
Proof.
  induction m as [|[k' v'] m IH]; simpl; [by rewrite decide_True|].
  case_decide; simpl; [by rewrite decide_True | by rewrite decide_False].
Qed.

Lemma jm_get_set_ne m k k' v : k <> k' -> jm_get (jm_set m k v) k' = jm_get m k'.
Proof.
  intros Hne. induction m as [|[k0 v0] m IH]; simpl; [by rewrite decide_False|].
  case_decide; subst; simpl; [by rewrite !decide_False|].
  case_decide; done.
Qed.

Lemma jm_get_set m k k' v :
  jm_get (jm_set m k v) k' = if decide (k = k') then Some v else jm_get m k'.
Proof. case_decide; subst; [apply jm_get_set_eq | by apply jm_get_set_ne]. Qed.

(** Setting an absent key appends its entry: the newest comes last. *)
Lemma jm_set_fresh m k v : jm_get m k = None -> jm_set m k v = m ++ [(k, v)].
Proof.
  induction m as [|[k' v'] m IH]; simpl; [done|].
  case_decide; [done|]. intros Hg. by rewrite IH.
Qed.

Lemma jm_set_same m k v : jm_get m k = Some v -> jm_set m k v = m.
Proof.
  induction m as [|[k' v'] m IH]; simpl; [done|].
  case_decide as Hk; subst; [by intros [= ->]|]. intros Hv. by rewrite IH.
Qed.

Lemma jm_delete_filter m k :
  jm_wf m -> jm_delete m k = filter (fun p => p.1 <> k) m.
Proof.
  unfold jm_wf, jm_keys. induction m as [|[k' v'] m IH]; simpl; [done|].
  intros [Hni Hwf]%NoDup_cons. rewrite filter_cons. simpl.
  destruct (decide (k' = k)) as [->|Hne].
  - rewrite decide_False by naive_solver. symmetry.
    apply list_filter_id, Forall_forall. intros p Hin Heq.
    apply Hni, list_elem_of_fmap. by exists p.
  - rewrite decide_True by done. by rewrite IH.
Qed.

Lemma jm_delete_keys m k :
  jm_wf m -> jm_keys (jm_delete m k) = filter (fun k' => k' <> k) (jm_keys m).
Proof.
  intros Hwf. rewrite (jm_delete_filter _ _ Hwf). clear Hwf.
  induction m as [|[k' v'] m IH]; [done|].
  rewrite jm_keys_cons, !filter_cons.
  destruct (decide (k' = k)).
  - rewrite !decide_False by naive_solver. done.
  - rewrite !decide_True by done. by rewrite jm_keys_cons, IH.
Qed.

Lemma jm_delete_wf m k : jm_wf m -> jm_wf (jm_delete m k).
Proof.
  intros Hwf. unfold jm_wf. rewrite jm_delete_keys by done.
  by apply NoDup_filter.
Qed.

Lemma jm_get_delete_eq m k : jm_wf m -> jm_get (jm_delete m k) k = None.
Proof.
  intros Hwf. apply jm_get_none. rewrite jm_delete_keys by done.
  rewrite list_elem_of_filter. naive_solver.
Qed.

Lemma jm_get_delete_ne m k k' : k <> k' -> jm_get (jm_delete m k) k' = jm_get m k'.
Proof.
  intros Hne. induction m as [|[k0 v0] m IH]; simpl; [done|].
  case_decide; subst; simpl; [by rewrite decide_False|].
  case_decide; done.
Qed.

Lemma jm_get_delete m k k' : jm_wf m ->
  jm_get (jm_delete m k) k' = if decide (k = k') then None else jm_get m k'.
Proof.
  intros. case_decide; subst; [by apply jm_get_delete_eq | by apply jm_get_delete_ne].
Qed.

Lemma jm_delete_absent m k : jm_get m k = None -> jm_delete m k = m.
Proof.
  induction m as [|[k' v'] m IH]; simpl; [done|].
  case_decide; [done|]. intros Hg. by rewrite IH.
Qed.

Lemma jm_length_delete m k :
  length (jm_delete m k) = length m - (if jm_has m k then 1 else 0).
Proof.
  unfold jm_has. induction m as [|[k' v'] m IH]; simpl; [done|].
  case_decide; simpl; [lia|]. rewrite IH.
  destruct (jm_get m k) eqn:Hg; [|lia].
  destruct m; [done | simpl; lia].
Qed.

Lemma jm_has_true m k : jm_has m k = true <-> k ∈ jm_keys m.
Proof.
  rewrite <- jm_get_is_some. unfold jm_has. destruct (jm_get m k); naive_solver.
Qed.

Lemma jm_wf_nil : jm_wf [].
Proof. apply NoDup_nil_2. Qed.
End js_map.

#[export] Hint Resolve jm_wf_nil jm_set_wf jm_delete_wf : sharness.
#[export] Hint Rewrite @jm_get_set_eq : sharness_rw.
