(* ===== verification/RouterFeed.v ===== *)
(** RouterFeed: the volatile, globally ordered feed of the Router process
    (packages/router/src/router/feed.ts).

    One [FeedState] is the content of the [Ref] a feed owns; [modifyFeed] is
    the atomic update [accept] runs on it.  A [FeedEntry] object is allocated
    once, by the append that gives it its order, so the object identity the
    eviction loop tests ([===]) is equality of orders ([same_entry]). *)
From S2P Require Import Prelude.
Local Open Scope Z_scope.
From Stdlib Require Import Ascii.

Module Feed.

Abbreviation AgentId := string.
Abbreviation MessageId := string.
Abbreviation RouterInstanceId := string.
Abbreviation SignedMessageDigest := string.

(** The closed send outcome of contract.ts. *)
Inductive RouterSendResult :=
  | Accepted (routerInstanceId : RouterInstanceId)
             (signedMessageDigest : SignedMessageDigest)
  | RouterRestarted (routerInstanceId : RouterInstanceId)
  | MessageInvalid
  | IdempotencyConflict
  | RetryIdentityUnknown.

Inductive SendMode := Initial | Retry.

Definition maximumPrivateOrder : Z := 2 ^ 128 - 1.

(** [LiveSignedMessage] is opaque to the feed. *)
Section feed.
Context {LiveSignedMessage : Type}.

Record FeedEntry := mkEntry {
  order : Z;
  signedMessage : LiveSignedMessage;
  encodedMessageJcs : string;
  encodedByteLength : Z;
  recipients : gset AgentId;
  senderAgentId : AgentId;
  messageId : MessageId;
  signedMessageDigest : SignedMessageDigest;
}.

Record FeedCandidate := mkCandidate {
  c_mode : SendMode;
  c_signedMessage : LiveSignedMessage;
  c_encodedMessageJcs : string;
  c_encodedByteLength : Z;
  c_recipients : gset AgentId;
  c_senderAgentId : AgentId;
  c_messageId : MessageId;
  c_signedMessageDigest : SignedMessageDigest;
}.

Record FeedState := mkState {
  entries : list FeedEntry;
  retryIndex : gmap string FeedEntry;
  retainedBytes : Z;
  tailOrder : Z;
  greatestEvictedOrder : Z;
}.

(** The view one poll scan reads. *)
Record FeedSnapshot := mkSnapshot {
  s_entries : list FeedEntry;
  s_tailOrder : Z;
  s_greatestEvictedOrder : Z;
}.

Record RouterFeedInput := mkInput {
  routerInstanceId : RouterInstanceId;
  retainedMessageCapacity : Z;
  retainedMessageByteCapacity : Z;
}.

Inductive FeedAcceptResult :=
  | Result (result : RouterSendResult)
           (acceptedRecipients : option (gset AgentId))
  | Overloaded.

(** [entriesAfter]: the entries with a greater private order. *)
Definition entriesAfter (snapshot : FeedSnapshot) (after : Z) : list FeedEntry :=
  filter (fun entry => after < order entry) (s_entries snapshot).

(** [retryKey]: sender and message id, separated by U+0000. *)
Definition retryKey (sender : AgentId) (mid : MessageId) : string :=
  String.append sender (String "000"%char mid).

Definition makeInitialState (tail : Z) : FeedState :=
  mkState [] ∅ 0 tail tail.

Definition acceptedResult (rid : RouterInstanceId) (entry : FeedEntry) :
    RouterSendResult :=
  Accepted rid (signedMessageDigest entry).

Definition retryResult (rid : RouterInstanceId) (candidate : FeedCandidate)
    (index : gmap string FeedEntry) (key : string) : FeedAcceptResult :=
  match index !! key with
  | None => Result RetryIdentityUnknown None
  | Some retained =>
      if decide (encodedMessageJcs retained <> c_encodedMessageJcs candidate)
      then Result IdempotencyConflict None
      else Result (acceptedResult rid retained) None
  end.

Definition same_entry (e1 e2 : FeedEntry) : Prop := order e1 = order e2.

Definition entryKey (e : FeedEntry) : string :=
  retryKey (senderAgentId e) (messageId e).

(** The [while] loop of [evictUntilWithinBounds]: each round shifts the
    oldest entry off, until both bounds hold or the list is empty.  The
    index loses the entry's key only when it still holds that entry. *)
Fixpoint evictUntilWithinBounds (countCapacity byteCapacity : Z)
    (es : list FeedEntry) (index : gmap string FeedEntry) (bytes : Z)
    (evicted : option Z) :
    list FeedEntry * gmap string FeedEntry * Z * option Z :=
  if decide (countCapacity < Z.of_nat (length es) \/ byteCapacity < bytes)
  then
    match es with
    | [] => (es, index, bytes, evicted)
    | e :: rest =>
        let key := entryKey e in
        let index' :=
          match index !! key with
          | Some held =>
              if decide (order held = order e) then delete key index else index
          | None => index
          end in
        evictUntilWithinBounds countCapacity byteCapacity rest index'
          (bytes - encodedByteLength e) (Some (order e))
    end
  else (es, index, bytes, evicted).

Definition entryOf (candidate : FeedCandidate) (o : Z) : FeedEntry :=
  mkEntry o (c_signedMessage candidate) (c_encodedMessageJcs candidate)
    (c_encodedByteLength candidate) (c_recipients candidate)
    (c_senderAgentId candidate) (c_messageId candidate)
    (c_signedMessageDigest candidate).

Definition appendCandidate (current : FeedState) (candidate : FeedCandidate)
    (key : string) (input : RouterFeedInput) : FeedAcceptResult * FeedState :=
  let entry := entryOf candidate (tailOrder current + 1) in
  let '(es, index, bytes, evicted) :=
    evictUntilWithinBounds (retainedMessageCapacity input)
      (retainedMessageByteCapacity input)
      (entries current ++ [entry])
      (<[key := entry]> (retryIndex current))
      (retainedBytes current + c_encodedByteLength candidate) None in
  (Result (acceptedResult (routerInstanceId input) entry)
     (Some (recipients entry)),
   mkState es index bytes (order entry)
     (default (greatestEvictedOrder current) evicted)).

Definition modifyFeed (current : FeedState) (candidate : FeedCandidate)
    (input : RouterFeedInput) : FeedAcceptResult * FeedState :=
  let key := retryKey (c_senderAgentId candidate) (c_messageId candidate) in
  match c_mode candidate with
  | Retry =>
      (retryResult (routerInstanceId input) candidate (retryIndex current) key,
       current)
  | Initial =>
      match retryIndex current !! key with
      | Some _ => (Result IdempotencyConflict None, current)
      | None =>
          if decide (tailOrder current = maximumPrivateOrder)
          then (Overloaded, current)
          else appendCandidate current candidate key input
      end
  end.

(** [feed.snapshot] and [feed.freshAppendReady]. *)
Definition snapshot (st : FeedState) : FeedSnapshot :=
  mkSnapshot (entries st) (tailOrder st) (greatestEvictedOrder st).

Definition freshAppendReady (st : FeedState) : bool :=
  bool_decide (tailOrder st < maximumPrivateOrder).

(** [makeRouterFeed] and [makeRouterFeedAtOrder]. *)
Inductive FeedOrderOutOfRangeError := feedOrderOutOfRange.

Definition makeRouterFeed : FeedState := makeInitialState 0.

Definition makeRouterFeedAtOrder (initialTailOrder : Z) :
    Exit FeedOrderOutOfRangeError FeedState :=
  if decide (initialTailOrder < 0 \/ maximumPrivateOrder < initialTailOrder)
  then Fail_ feedOrderOutOfRange
  else Succeed (makeInitialState initialTailOrder).

(** Every sequence of [accept] calls on one feed. *)
Definition runFeed (input : RouterFeedInput) (st : FeedState)
    (cs : list FeedCandidate) : FeedState :=
  foldl (fun s c => (modifyFeed s c input).2) st cs.

End feed.
Arguments FeedEntry : clear implicits.
Arguments FeedCandidate : clear implicits.
Arguments FeedState : clear implicits.
Arguments FeedSnapshot : clear implicits.

(** ** The feed invariant *)
Section invariant.
Context {M : Type}.
Implicit Types (e : FeedEntry M) (es : list (FeedEntry M)) (st : FeedState M)
  (c : FeedCandidate M) (idx : gmap string (FeedEntry M)).

(** Entries carry consecutive orders, starting just after [base]. *)
Definition contiguous (base : Z) es : Prop :=
  forall i e, es !! i = Some e -> order e = base + 1 + Z.of_nat i.

(** The index maps each key to the one retained entry that has it. *)
Definition indexed idx es : Prop :=
  forall k e, idx !! k = Some e <-> e ∈ es /\ entryKey e = k.

Definition within (input : RouterFeedInput) es (bytes : Z) : Prop :=
  Z.of_nat (length es) <= retainedMessageCapacity input /\
  bytes <= retainedMessageByteCapacity input.

Record feed_ok (input : RouterFeedInput) st : Prop := {
  ok_contiguous : contiguous (greatestEvictedOrder st) (entries st);
  ok_tail : tailOrder st = greatestEvictedOrder st + Z.of_nat (length (entries st));
  ok_range : 0 <= greatestEvictedOrder st /\ tailOrder st <= maximumPrivateOrder;
  ok_sizes : Forall (fun e => 0 <= encodedByteLength e) (entries st);
  ok_bytes : retainedBytes st = zsum encodedByteLength (entries st);
  ok_index : indexed (retryIndex st) (entries st);
  ok_within : within input (entries st) (retainedBytes st);
}.

Lemma contiguous_cons base e es :
  contiguous base (e :: es) <-> order e = base + 1 /\ contiguous (base + 1) es.
Proof.
  split.
  - intros H. split; [specialize (H 0%nat e eq_refl); lia|].
    intros i e' Hi. specialize (H (S i) e' Hi). lia.
  - intros [He H] [|i] e' Hi; simpl in Hi; [simplify_eq; lia|].
    specialize (H _ _ Hi). lia.
Qed.

Lemma contiguous_snoc base es e :
  contiguous base es -> order e = base + 1 + Z.of_nat (length es) ->
  contiguous base (es ++ [e]).
Proof.
  intros H He i e' Hi. apply lookup_app_Some in Hi as [Hi|[Hle Hi]]; [auto|].
  destruct (i - length es)%nat as [|k] eqn:Hk; simpl in Hi; [simplify_eq; lia|done].
Qed.

Lemma contiguous_drop base es n : (n <= length es)%nat ->
  contiguous base es -> contiguous (base + Z.of_nat n) (drop n es).
Proof.
  intros Hn H i e Hi. rewrite lookup_drop in Hi. specialize (H _ _ Hi). lia.
Qed.

Lemma contiguous_inj base es e1 e2 :
  contiguous base es -> e1 ∈ es -> e2 ∈ es -> order e1 = order e2 -> e1 = e2.
Proof.
  intros H [i Hi]%list_elem_of_lookup [j Hj]%list_elem_of_lookup Heq.
  pose proof (H _ _ Hi). pose proof (H _ _ Hj).
  assert (i = j) as -> by lia. congruence.
Qed.

(** Removing the oldest entry from both the list and the index keeps the
    index exact. *)
Lemma indexed_evict base idx e es :
  contiguous base (e :: es) -> indexed idx (e :: es) ->
  indexed
    (match idx !! entryKey e with
     | Some held =>
         if decide (order held = order e) then delete (entryKey e) idx else idx
     | None => idx
     end) es.
Proof.
  unfold indexed. intros Hc Hi.
  assert (Hsome : idx !! entryKey e = Some e) by (apply Hi; set_solver).
  rewrite Hsome, decide_True by done.
  intros k e'. rewrite lookup_delete_Some, Hi.
  split.
  - intros [Hne [Hin Hk]]. split; [|done]. set_solver.
  - intros [Hin Hk]. split; [|set_solver]. intros Hke.
    assert (idx !! entryKey e = Some e') by (apply Hi; set_solver).
    assert (e' = e) by congruence. subst e'.
    apply contiguous_cons in Hc as [Ho Hc].
    apply list_elem_of_lookup in Hin as [i Hin]. specialize (Hc _ _ Hin). lia.
Qed.

(** The result of an eviction, from the oldest entry on: the first [n]
    entries leave, and no shorter prefix would do. *)
Record evicts (input : RouterFeedInput) es (n : nat) : Prop := {
  ev_le : (n <= length es)%nat;
  ev_fits : within input (drop n es) (zsum encodedByteLength (drop n es));
  ev_least : forall m, (m < n)%nat ->
    ~ within input (drop m es) (zsum encodedByteLength (drop m es));
}.

Definition capacities_ok (input : RouterFeedInput) : Prop :=
  0 <= retainedMessageCapacity input /\ 0 <= retainedMessageByteCapacity input.

Lemma evict_spec input es base idx bytes ev :
  capacities_ok input ->
  contiguous base es -> indexed idx es -> bytes = zsum encodedByteLength es ->
  exists n idx',
    evictUntilWithinBounds (retainedMessageCapacity input)
      (retainedMessageByteCapacity input) es idx bytes ev
    = (drop n es, idx', zsum encodedByteLength (drop n es),
       if decide (n = 0%nat) then ev else Some (base + Z.of_nat n)) /\
    evicts input es n /\ indexed idx' (drop n es).
Proof.
  intros [Hcap1 Hcap2].
  revert base idx bytes ev. induction es as [|e es IH];
    intros base idx bytes ev Hc Hi ->; simpl.
  - exists 0%nat, idx. rewrite decide_False by (rewrite ?zsum_nil; simpl; lia).
    split_and!; [done| |done]. split; simpl; [lia| |lia]. split; rewrite ?zsum_nil; simpl; lia.
  - case_decide as Hover.
    + apply contiguous_cons in Hc as Hc'. destruct Hc' as [Ho Hc'].
      destruct (IH (base + 1) _ (zsum encodedByteLength es) (Some (order e)) Hc'
        (indexed_evict _ _ _ _ Hc Hi) eq_refl)
        as (n & idx' & Heq & [Hle Hfits Hleast] & Hi').
      rewrite zsum_cons in Hover |- *.
      replace (encodedByteLength e + zsum encodedByteLength es
        - encodedByteLength e) with (zsum encodedByteLength es) by lia.
      rewrite Heq. exists (S n), idx'. split_and!; [| |done].
      * f_equal. case_decide; simpl; subst; f_equal; lia.
      * split; simpl; [lia|done|]. intros [|m] Hm; [|apply Hleast; lia].
        unfold within. simpl. rewrite zsum_cons. lia.
    + exists 0%nat, idx. split_and!; [done| |done].
      split; [lia| |lia]. unfold within. simpl in *. lia.
Qed.

Lemma indexed_insert idx es e :
  indexed idx es -> idx !! entryKey e = None ->
  indexed (<[entryKey e := e]> idx) (es ++ [e]).
Proof.
  unfold indexed. intros Hi Hnone k e'. rewrite lookup_insert_Some, Hi, elem_of_app, list_elem_of_singleton.
  split.
  - intros [[<- <-]|[Hne [Hin Hk]]]; auto.
  - intros [[Hin| ->] Hk]; [right|left; done]. split; [|done].
    intros Heq. assert (idx !! entryKey e = Some e') by (apply Hi; naive_solver).
    congruence.
Qed.

(** [appendCandidate] in closed form. *)
Lemma append_spec input st c :
  capacities_ok input -> feed_ok input st ->
  retryIndex st !! retryKey (c_senderAgentId c) (c_messageId c) = None ->
  let e := entryOf c (tailOrder st + 1) in
  exists n idx,
    appendCandidate st c (retryKey (c_senderAgentId c) (c_messageId c)) input
    = (Result (acceptedResult (routerInstanceId input) e) (Some (c_recipients c)),
       mkState (drop n (entries st ++ [e])) idx
         (zsum encodedByteLength (drop n (entries st ++ [e]))) (tailOrder st + 1)
         (greatestEvictedOrder st + Z.of_nat n)) /\
    evicts input (entries st ++ [e]) n /\ indexed idx (drop n (entries st ++ [e])).
Proof.
  intros Hcap [Hc Ht Hr Hs Hb Hi Hw] Hnone e.
  destruct (evict_spec input (entries st ++ [e]) (greatestEvictedOrder st)
    (<[entryKey e := e]> (retryIndex st))
    (retainedBytes st + c_encodedByteLength c) None Hcap)
    as (n & idx & Heq & Hev & Hidx).
  - apply contiguous_snoc; [done|]. simpl. lia.
  - by apply indexed_insert.
  - rewrite zsum_app, zsum_cons, zsum_nil. simpl. lia.
  - exists n, idx. split; [|done]. unfold appendCandidate. fold e.
    change (retryKey (c_senderAgentId c) (c_messageId c)) with (entryKey e).
    rewrite Heq. simpl. f_equal. f_equal. case_decide; simpl; lia.
Qed.

Lemma modify_ok input st c :
  capacities_ok input -> 0 <= c_encodedByteLength c ->
  feed_ok input st -> feed_ok input (modifyFeed st c input).2.
Proof.
  intros Hcap Hc0 Hok. unfold modifyFeed.
  destruct (c_mode c); [|done].
  destruct (retryIndex st !! _) eqn:Hnone; [done|].
  case_decide as Hmax; [done|].
  destruct (append_spec input st c Hcap Hok Hnone)
    as (n & idx & -> & [Hle Hfits _] & Hidx).
  destruct Hok as [Hc Ht Hr Hs Hb Hi Hw].
  rewrite length_app in Hle; simpl in Hle.
  split; simpl; try done.
  - apply contiguous_drop; [rewrite length_app; simpl; lia|].
    apply contiguous_snoc; [done|]. simpl. lia.
  - rewrite length_drop, length_app. simpl. lia.
  - lia.
  - apply Forall_drop, Forall_app. split; [done|]. by constructor.
Qed.

Lemma initial_ok input tail :
  capacities_ok input -> 0 <= tail <= maximumPrivateOrder ->
  feed_ok input (makeInitialState tail).
Proof.
  intros [? ?] ?. split; simpl; try done; try lia.
  intros k e. rewrite lookup_empty. set_solver.
Qed.

Lemma run_ok input st cs :
  capacities_ok input -> Forall (fun c => 0 <= c_encodedByteLength c) cs ->
  feed_ok input st -> feed_ok input (runFeed input st cs).
Proof.
  intros Hcap Hcs. revert st. induction Hcs as [|c cs Hc _ IH]; intros st Hok;
    simpl; [done|]. apply IH. by apply modify_ok.
Qed.

End invariant.
#[export] Hint Resolve modify_ok initial_ok run_ok : sharness.

(** What an update can add, whatever the state it runs on. *)
Section entries.
Context {M : Type}.
Implicit Types (e : FeedEntry M) (es : list (FeedEntry M)) (st : FeedState M).

Lemma evict_subset cc bc es idx bytes ev e :
  e ∈ (evictUntilWithinBounds cc bc es idx bytes ev).1.1.1 -> e ∈ es.
Proof.
  revert idx bytes ev. induction es as [|x es IH]; intros idx bytes ev; simpl.
  - by case_decide.
  - case_decide; [|done]. intros He. right. by eapply IH.
Qed.

Lemma modify_entries input st c e :
  e ∈ entries (modifyFeed st c input).2 -> e ∈ entries st \/ e = entryOf c (tailOrder st + 1).
Proof.
  unfold modifyFeed. destruct (c_mode c); [|by left].
  destruct (retryIndex st !! _); [by left|]. case_decide; [by left|].
  unfold appendCandidate.
  match goal with |- context [evictUntilWithinBounds ?a ?b ?es ?i ?n ?o] =>
    pose proof (fun e => evict_subset a b es i n o e) as Hsub;
    destruct (evictUntilWithinBounds a b es i n o) as [[[es' idx] bytes] ev] end.
  simpl in *. intros [He| ->%list_elem_of_singleton]%Hsub%elem_of_app; auto.
Qed.

(** An initial candidate the feed accepts is appended for its recipients. *)
Lemma initial_accepted input st (c : FeedCandidate M) rid digest recipients st' :
  c_mode c = Initial ->
  modifyFeed st c input = (Result (Accepted rid digest) recipients, st') ->
  rid = routerInstanceId input /\ digest = c_signedMessageDigest c /\
  recipients = Some (c_recipients c) /\ tailOrder st' = tailOrder st + 1.
Proof.
  intros Hm. unfold modifyFeed. rewrite Hm.
  destruct (retryIndex st !! _); [done|]. case_decide; [done|].
  unfold appendCandidate. destruct (evictUntilWithinBounds _ _ _ _ _ _) as [[[es idx] b] ev].
  by intros [= <- <- <- <-].
Qed.

End entries.

(** ** The abstract log a feed implements

    The Router promises one append-only order.  [acceptedLog] is that order:
    every entry the feed ever appended, oldest first. *)
Section log.
Context {M : Type}.
Implicit Types (e : FeedEntry M) (es log : list (FeedEntry M))
  (st : FeedState M) (c : FeedCandidate M).

Definition appended (r : FeedAcceptResult) st c : list (FeedEntry M) :=
  match r with
  | Result _ (Some _) => [entryOf c (tailOrder st + 1)]
  | _ => []
  end.

Fixpoint acceptedLog (input : RouterFeedInput) st (cs : list (FeedCandidate M)) :
    list (FeedEntry M) :=
  match cs with
  | [] => []
  | c :: cs' =>
      let (r, st') := modifyFeed st c input in
      appended r st c ++ acceptedLog input st' cs'
  end.

(** A feed state represents a log over a consumed prefix [base]: it holds
    the longest suffix of the log that its bounds admit. *)
Record represents (input : RouterFeedInput) (base : Z) log st : Prop := {
  rep_ok : feed_ok input st;
  rep_log : contiguous base log;
  rep_sizes : Forall (fun e => 0 <= encodedByteLength e) log;
  rep_tail : tailOrder st = base + Z.of_nat (length log);
  rep_suffix : exists k, entries st = drop k log /\
    greatestEvictedOrder st = base + Z.of_nat k /\ evicts input log k;
}.

Lemma within_drop_app input log e m :
  Forall (fun e => 0 <= encodedByteLength e) (log ++ [e]) -> (m <= length log)%nat ->
  within input (drop m (log ++ [e])) (zsum encodedByteLength (drop m (log ++ [e]))) ->
  within input (drop m log) (zsum encodedByteLength (drop m log)).
Proof.
  intros Hs Hm. rewrite drop_app_le by done.
  apply Forall_app in Hs as [_ Hs]. rewrite Forall_singleton in Hs.
  unfold within. rewrite zsum_app, zsum_cons, zsum_nil, length_app. simpl. lia.
Qed.

Lemma evicts_app input log e k n :
  Forall (fun e => 0 <= encodedByteLength e) (log ++ [e]) ->
  evicts input log k -> evicts input (drop k log ++ [e]) n ->
  evicts input (log ++ [e]) (k + n).
Proof.
  intros Hs [Hk Hkf Hkl] [Hn Hnf Hnl].
  rewrite length_app, length_drop in Hn. simpl in Hn.
  assert (Hd : forall m, drop (k + m) (log ++ [e]) = drop m (drop k log ++ [e])).
  { intros m. rewrite <- drop_drop. by rewrite drop_app_le. }
  split.
  - rewrite length_app. simpl. lia.
  - by rewrite Hd.
  - intros m Hm Hw. destruct (decide (m < k)%nat).
    + apply (Hkl m); [done|]. eapply within_drop_app; eauto. lia.
    + apply (Hnl (m - k)%nat); [lia|]. rewrite <- Hd.
      by replace (k + (m - k))%nat with m by lia.
Qed.

Lemma modify_represents input base log st c :
  capacities_ok input -> 0 <= c_encodedByteLength c ->
  represents input base log st ->
  represents input base (log ++ appended (modifyFeed st c input).1 st c)
    (modifyFeed st c input).2.
Proof.
  intros Hcap Hc0 Hrep.
  assert (Hok' := modify_ok input st c Hcap Hc0 (rep_ok _ _ _ _ Hrep)).
  revert Hok'. unfold modifyFeed, retryResult.
  destruct (c_mode c); [|break; simpl; by rewrite app_nil_r].
  destruct (retryIndex st !! _) eqn:Hnone; [simpl; by rewrite app_nil_r|].
  case_decide; [simpl; by rewrite app_nil_r|].
  destruct Hrep as [Hok Hlog Hsz Htail (k & He & Hg & Hev)].
  destruct (append_spec input st c Hcap Hok Hnone)
    as (n & idx & -> & Hev' & Hidx). simpl. intros Hok'.
  assert (Hsz' : Forall (fun e => 0 <= encodedByteLength e)
    (log ++ [entryOf c (tailOrder st + 1)])).
  { apply Forall_app. split; [done|]. by constructor. }
  rewrite He in Hev'. split; simpl; try done.
  - apply contiguous_snoc; [done|]. simpl. lia.
  - rewrite length_app. simpl. lia.
  - exists (k + n)%nat. split_and!; [|lia|by apply evicts_app].
    destruct Hev as [Hk _ _]. rewrite He, <- drop_drop. by rewrite (drop_app_le log).
Qed.

Lemma run_represents input base log st cs :
  capacities_ok input -> Forall (fun c => 0 <= c_encodedByteLength c) cs ->
  represents input base log st ->
  represents input base (log ++ acceptedLog input st cs) (runFeed input st cs).
Proof.
  intros Hcap Hcs. revert log st.
  induction Hcs as [|c cs Hc _ IH]; intros log st Hrep; simpl.
  - by rewrite app_nil_r.
  - pose proof (modify_represents input base log st c Hcap Hc Hrep) as Hrep'.
    destruct (modifyFeed st c input) as [r st']; simpl in *.
    rewrite app_assoc. by apply IH.
Qed.

Lemma initial_represents input base :
  capacities_ok input -> 0 <= base <= maximumPrivateOrder ->
  represents input base [] (makeInitialState base).
Proof.
  intros. split; simpl; try done; try lia; [by apply initial_ok|].
  exists 0%nat. split_and!; [done|simpl; lia|]. split; simpl; [lia| |lia].
  destruct H. split; rewrite ?zsum_nil; simpl; lia.
Qed.

Lemma runFeed_app input st cs cs' :
  runFeed input st (cs ++ cs') = runFeed input (runFeed input st cs) cs'.
Proof. apply foldl_app. Qed.

Lemma acceptedLog_app input st cs cs' :
  acceptedLog input st (cs ++ cs') =
    acceptedLog input st cs ++ acceptedLog input (runFeed input st cs) cs'.
Proof.
  revert st. induction cs as [|c cs IH]; intros st; simpl; [done|].
  destruct (modifyFeed st c input) as [r st'] eqn:Hm; simpl.
  by rewrite IH, <- app_assoc.
Qed.

End log.

(** ** Keys name their sender and message *)

(** Identifiers never contain the separator U+0000. *)
Fixpoint nul_free (s : string) : bool :=
  match s with
  | EmptyString => true
  | String a s' => negb (Ascii.eqb a "000"%char) && nul_free s'
  end.

Lemma retryKey_inj s1 s2 m1 m2 :
  nul_free s1 -> nul_free s2 ->
  retryKey s1 m1 = retryKey s2 m2 -> s1 = s2 /\ m1 = m2.
Proof.
  unfold retryKey. revert s2.
  induction s1 as [|a s1 IH]; intros [|b s2]; simpl; intros H1 H2 Heq;
    simplify_eq/=; try done.
  - apply andb_True in H1 as [H1 H1']. apply andb_True in H2 as [_ H2'].
    destruct (IH s2) as [-> ->]; done.
Qed.

(** ** Properties of the feed *)
Section properties.
Context {M : Type}.
Implicit Types (e : FeedEntry M) (st : FeedState M) (c : FeedCandidate M).

(** C1: refinement of one append-only order.  After any sequence of [accept]
    calls, the feed holds exactly the longest suffix of the log of accepted
    messages that the count and byte bounds admit, its tail order counts the
    log, and log entries carry the consecutive orders after the initial one.  *)
Theorem feed_refines_log input base (cs : list (FeedCandidate M)) :
  capacities_ok input -> 0 <= base <= maximumPrivateOrder ->
  Forall (fun c => 0 <= c_encodedByteLength c) cs ->
  let st := runFeed input (makeInitialState base) cs in
  let log := acceptedLog input (makeInitialState base) cs in
  contiguous base log /\ tailOrder st = base + Z.of_nat (length log) /\
  exists k, entries st = drop k log /\
    greatestEvictedOrder st = base + Z.of_nat k /\ evicts input log k.
Proof.
  intros Hcap Hb Hcs st log.
  destruct (run_represents input base [] (makeInitialState base) cs Hcap Hcs
    (initial_represents _ _ Hcap Hb)) as [_ Hlog _ Htail Hsuf].
  done.
Qed.

(** C29: the order never equivocates.  An entry seen in any snapshot and an
    entry seen in any later snapshot under the same private order are the
    same entry, however many messages were accepted or evicted in between. *)
Theorem feed_non_equivocation input base (cs cs' : list (FeedCandidate M)) e e' :
  capacities_ok input -> 0 <= base <= maximumPrivateOrder ->
  Forall (fun c => 0 <= c_encodedByteLength c) (cs ++ cs') ->
  e ∈ s_entries (snapshot (runFeed input (makeInitialState base) cs)) ->
  e' ∈ s_entries (snapshot (runFeed input (makeInitialState base) (cs ++ cs'))) ->
  order e = order e' -> e = e'.
Proof.
  intros Hcap Hb Hcs He He' Ho.
  apply Forall_app in Hcs as Hcs'. destruct Hcs' as [Hcs1 _].
  destruct (run_represents input base [] _ cs Hcap Hcs1
    (initial_represents _ _ Hcap Hb)) as [_ _ _ _ (k & Hk & _)].
  destruct (run_represents input base [] _ (cs ++ cs') Hcap Hcs
    (initial_represents _ _ Hcap Hb)) as [_ Hlog _ _ (k' & Hk' & _)].
  simpl in *. rewrite Hk in He. rewrite Hk' in He'. rewrite acceptedLog_app in *.
  eapply contiguous_inj; [exact Hlog| | |done].
  - apply elem_of_app. left. eapply elem_of_subseteq; [apply subseteq_drop|]. done.
  - eapply elem_of_subseteq; [apply subseteq_drop|]. done.
Qed.

(** a retry never changes the feed, and its answer is decided by the
    retained message with the same sender and message id: the same encoded
    bytes give back the original acceptance, other bytes a conflict, and no
    such message an unknown retry identity. *)
Theorem retry_outcome input st c :
  feed_ok input st -> c_mode c = Retry ->
  nul_free (c_senderAgentId c) ->
  (forall e, e ∈ entries st -> nul_free (senderAgentId e)) ->
  exists r, modifyFeed st c input = (Result r None, st) /\
    ((r = RetryIdentityUnknown /\
      forall e, e ∈ entries st ->
        (senderAgentId e, messageId e) <> (c_senderAgentId c, c_messageId c)) \/
     exists e, e ∈ entries st /\
       senderAgentId e = c_senderAgentId c /\ messageId e = c_messageId c /\
       ((encodedMessageJcs e = c_encodedMessageJcs c /\
         r = Accepted (routerInstanceId input) (signedMessageDigest e)) \/
        (encodedMessageJcs e <> c_encodedMessageJcs c /\ r = IdempotencyConflict))).
Proof.
  intros Hok Hm Hn Hns. unfold modifyFeed, retryResult. rewrite Hm.
  pose proof (ok_index _ _ Hok) as Hi.
  destruct (retryIndex st !! _) as [e|] eqn:Hl.
  - apply Hi in Hl as [Hin Hk]. unfold entryKey in Hk.
    apply retryKey_inj in Hk as [Hs Hmid]; [|by apply Hns|done].
    case_decide; (eexists; split; [done|]; right; exists e; naive_solver).
  - eexists. split; [done|]. left. split; [done|]. intros e Hin [= Hs Hmid].
    assert (retryIndex st !! entryKey e = Some e) by (by apply Hi).
    unfold entryKey in *. congruence.
Qed.

(** an initial send of a fresh identity is appended at the next order and
    retained, provided the message itself fits the byte bound and the feed
    retains at least one message; the tail advances by exactly one. *)
Theorem initial_accept_retained input st c :
  capacities_ok input -> feed_ok input st -> c_mode c = Initial ->
  retryIndex st !! retryKey (c_senderAgentId c) (c_messageId c) = None ->
  tailOrder st < maximumPrivateOrder ->
  1 <= retainedMessageCapacity input ->
  0 <= c_encodedByteLength c <= retainedMessageByteCapacity input ->
  let e := entryOf c (tailOrder st + 1) in
  let r := (modifyFeed st c input).1 in
  let st' := (modifyFeed st c input).2 in
  r = Result (Accepted (routerInstanceId input) (c_signedMessageDigest c))
        (Some (c_recipients c)) /\
  tailOrder st' = tailOrder st + 1 /\ e ∈ entries st' /\
  retryIndex st' !! entryKey e = Some e.
Proof.
  intros Hcap Hok Hm Hnone Ht Hone Hsize e. unfold modifyFeed.
  rewrite Hm, Hnone, decide_False by lia.
  destruct (append_spec input st c Hcap Hok Hnone)
    as (n & idx & -> & [Hle Hf Hleast] & Hidx). fold e in Hle, Hf, Hleast, Hidx |- *.
  assert (Hn : (n <= length (entries st))%nat).
  { destruct (decide (n <= length (entries st))%nat); [done|].
    exfalso. apply (Hleast (length (entries st))); [lia|].
    rewrite drop_app_le, drop_all by lia. unfold within.
    simpl. rewrite zsum_cons, zsum_nil. simpl. lia. }
  assert (Hin : e ∈ drop n (entries st ++ [e])).
  { rewrite drop_app_le by done. set_solver. }
  split_and!; [done..|]. simpl. by apply Hidx.
Qed.
End properties.

(** *** Witnesses on a two-message feed *)
Section witnesses.
Definition input2 : RouterFeedInput := mkInput "rti_A" 2 100.
Definition msg (mode : SendMode) (mid : string) (jcs : string) (n : Z) :
    FeedCandidate unit :=
  mkCandidate mode tt jcs n {["agt_b"]} "agt_a" mid (String.append "smd_" jcs).
Definition sends : list (FeedCandidate unit) :=
  [msg Initial "m1" "x" 60; msg Initial "m2" "y" 30; msg Initial "m3" "z" 40].

Lemma feed_refines_log_witness :
  let st := runFeed input2 (makeInitialState 0) sends in
  contiguous 0 (acceptedLog input2 (makeInitialState 0) sends) /\
  (order <$> entries st) = [2; 3] /\ greatestEvictedOrder st = 1.
Proof.
  split; [|by vm_compute].
  apply (feed_refines_log input2 0 sends).
  - split; vm_compute; discriminate.
  - split; vm_compute; discriminate.
  - repeat constructor; vm_compute; discriminate.
Defined.

Lemma feed_non_equivocation_witness :
  entryOf (msg Initial "m2" "y" 30) 2 = entryOf (msg Initial "m2" "y" 30) 2.
Proof.
  apply (feed_non_equivocation input2 0 (take 2 sends) (drop 2 sends)).
  - split; vm_compute; discriminate.
  - split; vm_compute; discriminate.
  - repeat constructor; vm_compute; discriminate.
  - apply list_elem_of_In. vm_compute. tauto.
  - apply list_elem_of_In. vm_compute. tauto.
  - reflexivity.
Defined.

Lemma feed2_ok : feed_ok input2 (runFeed input2 (makeInitialState 0) sends).
Proof.
  apply run_ok.
  - split; vm_compute; discriminate.
  - repeat constructor; vm_compute; discriminate.
  - apply initial_ok; split; vm_compute; discriminate.
Qed.

Lemma retry_outcome_witness :
  exists r, modifyFeed (runFeed input2 (makeInitialState 0) sends)
    (msg Retry "m3" "z" 40) input2
    = (Result r None, runFeed input2 (makeInitialState 0) sends).
Proof.
  destruct (retry_outcome input2 (runFeed input2 (makeInitialState 0) sends)
    (msg Retry "m3" "z" 40)) as (r & Hr & _).
  - apply feed2_ok.
  - reflexivity.
  - exact I.
  - intros e He. apply list_elem_of_In in He. vm_compute in He.
    destruct He as [<-|[<-|[]]]; exact I.
  - exists r. exact Hr.
Defined.

Lemma initial_accept_retained_witness :
  let st := runFeed input2 (makeInitialState 0) sends in
  entryOf (msg Initial "m4" "w" 10) 4
    ∈ entries (modifyFeed st (msg Initial "m4" "w" 10) input2).2.
Proof.
  destruct (initial_accept_retained input2
    (runFeed input2 (makeInitialState 0) sends) (msg Initial "m4" "w" 10))
    as (_ & _ & Hin & _); [..|exact Hin].
  - split; vm_compute; discriminate.
  - apply feed2_ok.
  - reflexivity.
  - vm_compute. reflexivity.
  - vm_compute. reflexivity.
  - vm_compute. discriminate.
  - split; vm_compute; discriminate.
Defined.
End witnesses.
End Feed.
