(* ===== verification/PollWaiters.v ===== *)
(** PollWaiters: the bounded set of held polls of the Router process
    (packages/router/src/router/poll-waiters.ts).

    [waiters] is the content of the module's [Ref].  A [Deferred] is named by
    the number of the [Deferred.make] that created it, so the object identity
    [removeWaiter] tests is equality of names.  A held poll runs
    [awaitBegin], then either finds its data ready, or is signalled, or is
    interrupted (its hold timed out); each way it ends with [awaitEnd], the
    [Effect.ensuring] finalizer.  [waiting] remembers which awaits have begun
    and not ended: it is the set of running fibers, not state of the code.

    A send's notification is not one step: it detaches the waiters, and then
    completes the [Deferred]s concurrently, and the request that runs it may be
    interrupted at any point.  [step] is the relation of the held polls and
    the sends' notifications, each taken apart so. *)
From S2P Require Import Prelude JsMap.

Module PollWaiters.

Abbreviation AgentId := string.
Abbreviation Waiter := nat.
Abbreviation Waiters := (list (AgentId * Waiter)).

Inductive HeldPollCapacityError := heldPollCapacity.

Definition removeWaiter (waiters : Waiters) (agentId : AgentId)
    (deferred : Waiter) : Waiters :=
  match jm_get waiters agentId with
  | Some held => if decide (held = deferred) then jm_delete waiters agentId else waiters
  | None => waiters
  end.

Definition registerWaiter (waiters : Waiters) (capacity : nat)
    (agentId : AgentId) (deferred : Waiter) : bool * Waiters :=
  if jm_has waiters agentId || bool_decide (capacity <= length waiters)
  then (false, waiters)
  else (true, jm_set waiters agentId deferred).

(** The [for] loop of [detachWaiters] over the recipients. *)
Fixpoint detachWaiters (waiters : Waiters) (recipients : list AgentId) :
    list Waiter * Waiters :=
  match recipients with
  | [] => ([], waiters)
  | agentId :: rest =>
      match jm_get waiters agentId with
      | Some deferred =>
          let '(found, next) := detachWaiters (jm_delete waiters agentId) rest in
          (deferred :: found, next)
      | None => detachWaiters waiters rest
      end
  end.

Record WaitState := mkWait {
  waiters : Waiters;
  made : nat;                    (* Deferred.make calls so far *)
  fulfilled : gset Waiter;       (* completed Deferreds *)
  waiting : gmap Waiter AgentId; (* running awaits *)
}.

Definition activeCount (st : WaitState) : nat := length (waiters st).

(** [makePollWaiters]. *)
Definition makePollWaiters : WaitState := mkWait [] 0 ∅ ∅.

(** [awaitRegisteredWaiter] up to the registration. *)
Definition awaitBegin (st : WaitState) (capacity : nat) (agentId : AgentId) :
    Exit HeldPollCapacityError Waiter * WaitState :=
  let deferred := made st in
  let '(registered, next) := registerWaiter (waiters st) capacity agentId deferred in
  if registered
  then (Succeed deferred,
        mkWait next (S (made st)) (fulfilled st) (<[deferred := agentId]> (waiting st)))
  else (Fail_ heldPollCapacity,
        mkWait next (S (made st)) (fulfilled st) (waiting st)).

(** The finalizer of [awaitRegisteredWaiter]. *)
Definition awaitEnd (st : WaitState) (agentId : AgentId) (deferred : Waiter) :
    WaitState :=
  mkWait (removeWaiter (waiters st) agentId deferred) (made st) (fulfilled st)
    (delete deferred (waiting st)).

(** [notifyWaiters] run to its end with nothing in between: detach every
    recipient's waiter, then complete each.  The code may be interleaved and
    interrupted between the two, and between two completions: [step] below
    takes it apart. *)
Definition notifyWaiters (st : WaitState) (recipients : list AgentId) : WaitState :=
  let '(found, next) := detachWaiters (waiters st) recipients in
  mkWait next (made st) (fulfilled st ∪ list_to_set found) (waiting st).

(** ** The held polls among the sends *)

(** A send that accepted a message has its recipients' waiters to detach, then
    the detached [Deferred]s to complete, in any order ([Effect.forEach]
    with a concurrency). *)
Inductive Sending :=
  | ToDetach (recipients : list AgentId)
  | ToComplete (pending : gset Waiter).

(** The polls, with what the fibers around them know: the awaits that passed
    their readiness check and sleep on their [Deferred], those with a message
    in the feed addressed to their agent past their order (what
    [addressedDataIsReady] answers), the sends under way, and the awaits
    whose send was interrupted. *)
Record Held := mkHeld {
  polls : WaitState;
  asleep : gset Waiter;
  addressed : gset Waiter;
  sendings : gmap nat Sending;
  unsignalled : gset Waiter;
}.

Definition makeHeld : Held := mkHeld makePollWaiters ∅ ∅ ∅ ∅.

Definition awaitsOf (st : WaitState) (recipients : list AgentId) : gset Waiter :=
  dom (filter (fun '(_, agentId) => agentId ∈ recipients) (waiting st)).

(** The awaits a send still has to signal. *)
Definition concerned (st : WaitState) (sending : Sending) : gset Waiter :=
  match sending with
  | ToDetach recipients => awaitsOf st recipients
  | ToComplete pending => pending
  end.

(** Completing one [Deferred]. *)
Definition completeOne (st : WaitState) (deferred : Waiter) : WaitState :=
  mkWait (waiters st) (made st) ({[deferred]} ∪ fulfilled st) (waiting st).

(** The await's fiber is interrupted between its registration and the
    [ensuring]: nothing removes its waiter. *)
Definition awaitCut (st : WaitState) (deferred : Waiter) : WaitState :=
  mkWait (waiters st) (made st) (fulfilled st) (delete deferred (waiting st)).

Definition detach (st : WaitState) (recipients : list AgentId) : WaitState :=
  mkWait (detachWaiters (waiters st) recipients).2 (made st) (fulfilled st) (waiting st).

(** Every interleaving of held polls and sends.  An await registers
    ([step_begin]; a message may have been accepted since its scan), asks
    whether data is ready and sleeps if none is ([step_sleep]), and ends at any
    moment: its data was ready, its [Deferred] completed, or its hold timed
    out.  A send accepts its message ([step_accept]), detaches
    ([step_detach]), completes one [Deferred] at a time, and is over, or
    interrupted before ([step_leave]). *)
Inductive step (capacity : nat) : Held -> Held -> Prop :=
  | step_begin w sl ad se un agentId (ready : bool) :
      step capacity (mkHeld w sl ad se un)
        (mkHeld (awaitBegin w capacity agentId).2 sl
           (if ready then {[made w]} ∪ ad else ad) se un)
  | step_sleep w sl ad se un deferred :
      is_Some (waiting w !! deferred) -> deferred ∉ ad ->
      step capacity (mkHeld w sl ad se un) (mkHeld w ({[deferred]} ∪ sl) ad se un)
  | step_end w sl ad se un agentId deferred :
      waiting w !! deferred = Some agentId ->
      step capacity (mkHeld w sl ad se un) (mkHeld (awaitEnd w agentId deferred) sl ad se un)
  | step_cut w sl ad se un deferred :
      is_Some (waiting w !! deferred) -> deferred ∉ sl ->
      step capacity (mkHeld w sl ad se un) (mkHeld (awaitCut w deferred) sl ad se un)
  | step_accept w sl ad se un send recipients :
      se !! send = None ->
      step capacity (mkHeld w sl ad se un)
        (mkHeld w sl (awaitsOf w recipients ∪ ad) (<[send := ToDetach recipients]> se) un)
  | step_detach w sl ad se un send recipients :
      se !! send = Some (ToDetach recipients) ->
      step capacity (mkHeld w sl ad se un)
        (mkHeld (detach w recipients) sl ad
           (<[send := ToComplete (list_to_set (detachWaiters (waiters w) recipients).1)]> se) un)
  | step_complete w sl ad se un send pending deferred :
      se !! send = Some (ToComplete pending) -> deferred ∈ pending ->
      step capacity (mkHeld w sl ad se un)
        (mkHeld (completeOne w deferred) sl ad
           (<[send := ToComplete (pending ∖ {[deferred]})]> se) un)
  | step_leave w sl ad se un send sending :
      se !! send = Some sending ->
      step capacity (mkHeld w sl ad se un)
        (mkHeld w sl ad (delete send se) (concerned w sending ∪ un)).

(** ** Invariant *)

(** The [Deferred] of an await is completed, or a send under way still has to
    complete it, or its send was interrupted. *)
Definition signalled (st : Held) (deferred : Waiter) : Prop :=
  deferred ∈ fulfilled (polls st) \/ deferred ∈ unsignalled st \/
  exists send pending, sendings st !! send = Some (ToComplete pending) /\ deferred ∈ pending.

(** The same, of an await a send under way may yet have to detach. *)
Definition called (st : Held) (deferred : Waiter) : Prop :=
  deferred ∈ fulfilled (polls st) \/ deferred ∈ unsignalled st \/
  exists send sending, sendings st !! send = Some sending /\
    deferred ∈ concerned (polls st) sending.

(** A running await is registered or signalled; one that sleeps although a
    message was addressed to it is called. *)
Record wait_ok (capacity : nat) (st : Held) : Prop := {
  w_wf : jm_wf (waiters (polls st));
  w_bound : length (waiters (polls st)) <= capacity;
  w_awake : forall a d, waiting (polls st) !! d = Some a ->
    jm_get (waiters (polls st)) a = Some d \/ signalled st d;
  w_called : forall d, is_Some (waiting (polls st) !! d) -> d ∈ asleep st ->
    d ∈ addressed st -> called st d;
  w_made : forall d, is_Some (waiting (polls st) !! d) \/ d ∈ asleep st -> d < made (polls st);
}.

Lemma decide_elem_cons {B} (a r : AgentId) rs (x y : B) :
  (if decide (a ∈ r :: rs) then x else y) =
    if decide (r = a) then x else if decide (a ∈ rs) then x else y.
Proof.
  destruct (decide (r = a)) as [->|Hne]; [by rewrite decide_True by (by left)|].
  destruct (decide (a ∈ rs)); [by rewrite decide_True by (by right)|].
  rewrite decide_False; [done|]. intros [->|?]%elem_of_cons; done.
Qed.

Lemma detach_spec ws rs : jm_wf ws ->
  jm_wf (detachWaiters ws rs).2 /\
  length (detachWaiters ws rs).2 <= length ws /\
  (forall a, jm_get (detachWaiters ws rs).2 a =
     if decide (a ∈ rs) then None else jm_get ws a) /\
  (forall d, d ∈ (detachWaiters ws rs).1 <->
     exists a, a ∈ rs /\ jm_get ws a = Some d).
Proof.
  revert ws; induction rs as [|r rs IH]; intros ws Hwf; cbn [detachWaiters].
  - split_and!; [done|done| |set_solver].
    intros a. by rewrite decide_False by set_solver.
  - destruct (jm_get ws r) as [d0|] eqn:Hr.
    + destruct (IH (jm_delete ws r)) as (H1 & H2 & H3 & H4); [auto with sharness|].
      destruct (detachWaiters (jm_delete ws r) rs) as [found next]; cbn in *.
      rewrite jm_length_delete in H2. split_and!; [done|lia| |].
      * intros a. rewrite H3, jm_get_delete, decide_elem_cons by done.
        by destruct (decide (a ∈ rs)), (decide (r = a)).
      * intros d. rewrite elem_of_cons, H4. setoid_rewrite jm_get_delete; [|done].
        split.
        -- intros [->|(a & Ha & Hd)]; [set_solver|]. case_decide; set_solver.
        -- intros (a & Ha & Hd). destruct (decide (r = a)) as [->|]; [naive_solver|].
           right. exists a. rewrite decide_False by done. set_solver.
    + destruct (IH ws Hwf) as (H1 & H2 & H3 & H4). split_and!; [done|lia| |].
      * intros a. rewrite H3, decide_elem_cons.
        destruct (decide (r = a)) as [->|]; [|done]. rewrite Hr. by case_decide.
      * intros d. rewrite H4. set_solver.
Qed.

Lemma removeWaiter_get ws a d a' : jm_wf ws ->
  jm_get (removeWaiter ws a d) a' =
    if decide (a = a' /\ jm_get ws a = Some d) then None else jm_get ws a'.
Proof.
  intros Hwf. unfold removeWaiter. destruct (jm_get ws a) as [h|] eqn:Ha.
  - destruct (decide (h = d)) as [->|].
    + rewrite jm_get_delete by done. repeat case_decide; naive_solver.
    + rewrite decide_False by naive_solver. done.
  - by rewrite decide_False by naive_solver.
Qed.

Lemma removeWaiter_wf ws a d : jm_wf ws ->
  jm_wf (removeWaiter ws a d) /\ length (removeWaiter ws a d) <= length ws.
Proof.
  intros. unfold removeWaiter. break; auto with sharness.
  split; [auto with sharness|]. rewrite jm_length_delete. lia.
Qed.

Lemma register_get ws cap a d ws' : registerWaiter ws cap a d = (true, ws') ->
  jm_get ws a = None /\ length ws < cap /\ ws' = ws ++ [(a, d)].
Proof.
  unfold registerWaiter, jm_has. destruct (jm_get ws a) eqn:Ha; [done|].
  case_bool_decide; [done|]. intros [= <-]. rewrite jm_set_fresh by done.
  split_and!; [done|lia|done].
Qed.

Lemma awaitsOf_spec st rs d :
  d ∈ awaitsOf st rs <-> exists a, waiting st !! d = Some a /\ a ∈ rs.
Proof.
  unfold awaitsOf. rewrite elem_of_dom. split.
  - intros [a Ha%map_lookup_filter_Some]. by exists a.
  - intros (a & Ha & Hin). exists a. by apply map_lookup_filter_Some.
Qed.

(** What a step leaves of the polls keeps an await called. *)
Lemma concerned_kept w w' x d a : waiting w' !! d = Some a -> waiting w !! d = Some a ->
  d ∈ concerned w x -> d ∈ concerned w' x.
Proof.
  intros Hw' Hw. destruct x; [|done]. cbn. rewrite !awaitsOf_spec.
  intros (a' & Ha & Hin). exists a'. split; [congruence|done].
Qed.

(** Steps that only touch the polls and the awaits' own sets. *)
Lemma polls_ok cap w w' sl sl' ad ad' se un :
  wait_ok cap (mkHeld w sl ad se un) ->
  jm_wf (waiters w') -> length (waiters w') <= cap ->
  (forall a d, waiting w' !! d = Some a -> waiting w !! d = Some a \/
     jm_get (waiters w') a = Some d /\ d ∉ sl') ->
  (forall a d, waiting w' !! d = Some a -> waiting w !! d = Some a ->
     jm_get (waiters w) a = Some d -> jm_get (waiters w') a = Some d) ->
  (forall d, d ∈ sl' -> d ∈ ad' -> d ∈ sl /\ d ∈ ad) ->
  fulfilled w ⊆ fulfilled w' ->
  (forall d, is_Some (waiting w' !! d) \/ d ∈ sl' -> d < made w') ->
  wait_ok cap (mkHeld w' sl' ad' se un).
Proof.
  intros [_ _ Haw Hca _] Hwf Hb Hold Hreg Hsl Hful Hmade. split; cbn in *; [done..| | |done].
  - intros a d Hw. destruct (Hold _ _ Hw) as [Hw0|[? _]]; [|by left].
    destruct (Haw _ _ Hw0) as [Hg|[Hf|Hs]]; [left; eauto|right; left; cbn in *; set_solver|].
    right; right; exact Hs.
  - intros d [a Hw] Hasl Had. destruct (Hsl _ Hasl Had) as [Hasl0 Had0].
    destruct (Hold _ _ Hw) as [Hw0|[_ ?]]; [|done].
    destruct (Hca d) as [Hf|[Hu|(s & x & Hs & Hx)]]; [eauto|done|done|..]; cbn in *.
    + left. cbn. set_solver.
    + right. by left.
    + right. right. exists s, x. split; [done|]. by eapply concerned_kept.
Qed.

Lemma begin_ok cap w sl ad se un a (ready : bool) :
  wait_ok cap (mkHeld w sl ad se un) ->
  wait_ok cap (mkHeld (awaitBegin w cap a).2 sl (if ready then {[made w]} ∪ ad else ad) se un).
Proof.
  intros Hok. pose proof Hok as [Hwf Hb _ _ Hm]. cbn in *.
  assert (Hsl : forall d, d ∈ sl -> d ∈ (if ready then {[made w]} ∪ ad else ad) -> d ∈ sl /\ d ∈ ad).
  { intros d Hd. specialize (Hm d (or_intror Hd)). destruct ready; [|done].
    rewrite elem_of_union, elem_of_singleton. intros [->|]; [lia|done]. }
  unfold awaitBegin. destruct (registerWaiter _ _ _ _) as [[] ws'] eqn:Hreg; cbn.
  - apply register_get in Hreg as (Hn & Hl & ->).
    rewrite <- jm_set_fresh by done. eapply polls_ok; [done|cbn..|done|done|cbn].
    + auto with sharness.
    + rewrite jm_set_fresh, length_app by done. simpl. lia.
    + intros a' d'. rewrite lookup_insert_Some, jm_get_set.
      intros [[<- <-]|[_ ?]]; [right; rewrite decide_True by done|by left].
      split; [done|]. intros Hd. specialize (Hm _ (or_intror Hd)). lia.
    + intros a' d' _ _ Hg. rewrite jm_get_set, decide_False; [done|]. intros ->. congruence.
    + intros d [[->|[_ ?]]%lookup_insert_is_Some|?]; [lia| |];
        (assert (d < made w) by (apply Hm; auto); lia).
  - revert Hreg. unfold registerWaiter. destruct (_ || _); intros [= <-].
    eapply polls_ok; [done|cbn..|done|done|cbn]; [done|done|by left|done|].
    intros d Hd. specialize (Hm d Hd). lia.
Qed.

Lemma end_ok cap w sl ad se un a d : waiting w !! d = Some a ->
  wait_ok cap (mkHeld w sl ad se un) -> wait_ok cap (mkHeld (awaitEnd w a d) sl ad se un).
Proof.
  intros Hd Hok. pose proof Hok as [Hwf Hb _ _ Hm]. cbn in *.
  destruct (removeWaiter_wf (waiters w) a d Hwf) as [Hwf' Hl].
  eapply polls_ok; [done|cbn..|done|done|cbn]; [done|lia| | |].
  - intros a' d' [_ ?]%lookup_delete_Some. by left.
  - intros a' d' [Hne _]%lookup_delete_Some _ Hg. rewrite removeWaiter_get by done.
    rewrite decide_False; [done|]. intros [-> ?]. congruence.
  - intros d' [[x [_ Hs]%lookup_delete_Some]|Hs]; apply Hm; [left; by exists x|by right].
Qed.

Lemma cut_ok cap w sl ad se un d :
  wait_ok cap (mkHeld w sl ad se un) -> wait_ok cap (mkHeld (awaitCut w d) sl ad se un).
Proof.
  intros Hok. pose proof Hok as [Hwf Hb _ _ Hm]. cbn in *.
  eapply polls_ok; [done|cbn..|done|done|cbn]; [done|done| |done|].
  - intros a' d' [_ ?]%lookup_delete_Some. by left.
  - intros d' [[x [_ Hs]%lookup_delete_Some]|Hs]; apply Hm; [left; by exists x|by right].
Qed.

Lemma sleep_ok cap w sl ad se un d : is_Some (waiting w !! d) -> d ∉ ad ->
  wait_ok cap (mkHeld w sl ad se un) -> wait_ok cap (mkHeld w ({[d]} ∪ sl) ad se un).
Proof.
  intros Hw Hd Hok. pose proof Hok as [Hwf Hb _ _ Hm]. cbn in *.
  eapply polls_ok; [done|cbn..]; [done|done|by left|done|set_solver|done|].
  intros d' [?|[->%elem_of_singleton|?]%elem_of_union]; apply Hm; auto.
Qed.

Lemma accept_ok cap w sl ad se un s rs : se !! s = None ->
  wait_ok cap (mkHeld w sl ad se un) ->
  wait_ok cap (mkHeld w sl (awaitsOf w rs ∪ ad) (<[s := ToDetach rs]> se) un).
Proof.
  intros Hs [Hwf Hb Haw Hca Hm]. split; cbn in *; [done..| | |done].
  - intros a d Hw. destruct (Haw _ _ Hw) as [?|[?|[?|(s' & p & Hs' & ?)]]];
      [by left|right; by left|right; right; by left|].
    right; right; right. exists s', p. split; [|done]. cbn in *. by simplify_map_eq.
  - intros d Hw Hasl [Hd|Hd]%elem_of_union.
    + right; right. exists s, (ToDetach rs). cbn. by rewrite lookup_insert_eq.
    + destruct (Hca d Hw Hasl Hd) as [?|[?|(s' & x & Hs' & ?)]]; [by left|right; by left|].
      right; right. exists s', x. split; [|done]. cbn in *. by simplify_map_eq.
Qed.

Lemma detach_ok cap w sl ad se un s rs : se !! s = Some (ToDetach rs) ->
  wait_ok cap (mkHeld w sl ad se un) ->
  wait_ok cap (mkHeld (detach w rs) sl ad
    (<[s := ToComplete (list_to_set (detachWaiters (waiters w) rs).1)]> se) un).
Proof.
  intros Hs [Hwf Hb Haw Hca Hm]. cbn in *.
  destruct (detach_spec (waiters w) rs Hwf) as (H1 & H2 & H3 & H4).
  set (found := (detachWaiters (waiters w) rs).1) in *.
  set (st' := mkHeld _ _ _ _ _).
  assert (Hfound : forall d, d ∈ found -> signalled st' d).
  { intros d Hd. right; right. exists s, (list_to_set found). cbn.
    rewrite lookup_insert_eq. split; [done|]. by apply elem_of_list_to_set. }
  assert (Hkeep : forall d, signalled (mkHeld w sl ad se un) d -> signalled st' d).
  { intros d [?|[?|(s' & p & Hs' & ?)]]; [by left|right; by left|].
    right; right. exists s', p. split; [|done]. cbn in *.
    rewrite lookup_insert_ne; [done|]. intros ->. congruence. }
  assert (Hweak : forall d, signalled st' d -> called st' d).
  { intros d [?|[?|(s' & p & Hs' & ?)]]; [by left|right; by left|].
    right; right. by exists s', (ToComplete p). }
  split; cbn; [done|lia| | |done].
  - intros a d Hw. rewrite H3. destruct (Haw _ _ Hw) as [Hg|Hsig]; [|right; by apply Hkeep].
    case_decide; [|by left]. right. apply Hfound, H4. by exists a.
  - intros d Hw Hasl Had. destruct (Hca d Hw Hasl Had) as [?|[?|(s' & x & Hs' & Hx)]];
      [by left|right; by left|]. cbn in *.
    destruct (decide (s' = s)) as [->|Hne].
    + simplify_eq. cbn in Hx. apply awaitsOf_spec in Hx as (a & Ha & Hin). apply Hweak.
      destruct (Haw _ _ Ha) as [Hg|Hsig]; [|by apply Hkeep]. apply Hfound, H4. by exists a.
    + right; right. exists s', x. cbn. rewrite lookup_insert_ne by done. by destruct x.
Qed.

Lemma completeOne_ok cap w sl ad se un s p d : se !! s = Some (ToComplete p) -> d ∈ p ->
  wait_ok cap (mkHeld w sl ad se un) ->
  wait_ok cap (mkHeld (completeOne w d) sl ad (<[s := ToComplete (p ∖ {[d]})]> se) un).
Proof.
  intros Hs Hin [Hwf Hb Haw Hca Hm]. split; cbn in *; [done..| | |done].
  - intros a d' Hw. destruct (Haw _ _ Hw) as [?|[?|[?|(s' & p' & Hs' & Hp)]]];
      [by left|right; left; cbn in *; set_solver|right; right; by left|]. right.
    destruct (decide (d' = d)) as [->|Hd]; [left; cbn; set_solver|].
    right; right. cbn in *. destruct (decide (s' = s)) as [->|].
    + simplify_eq. exists s, (p ∖ {[d]}). rewrite lookup_insert_eq. set_solver.
    + exists s', p'. by rewrite lookup_insert_ne.
  - intros d' Hw Hasl Had. destruct (Hca d' Hw Hasl Had) as [?|[?|(s' & x & Hs' & Hx)]];
      [left; cbn in *; set_solver|right; by left|].
    destruct (decide (d' = d)) as [->|Hd]; [left; cbn; set_solver|].
    right; right. cbn in *. destruct (decide (s' = s)) as [->|].
    + simplify_eq. exists s, (ToComplete (p ∖ {[d]})). rewrite lookup_insert_eq. cbn in *. set_solver.
    + exists s', x. rewrite lookup_insert_ne by done. by destruct x.
Qed.

Lemma leave_ok cap w sl ad se un s x : se !! s = Some x ->
  wait_ok cap (mkHeld w sl ad se un) ->
  wait_ok cap (mkHeld w sl ad (delete s se) (concerned w x ∪ un)).
Proof.
  intros Hs [Hwf Hb Haw Hca Hm]. split; cbn in *; [done..| | |done].
  - intros a d Hw. destruct (Haw _ _ Hw) as [?|[?|[?|(s' & p & Hs' & Hp)]]];
      [by left|right; by left|right; right; left; cbn in *; set_solver|]. right; right. cbn in *.
    destruct (decide (s' = s)) as [->|]; [left; simplify_eq; cbn; set_solver|].
    right. exists s', p. by rewrite lookup_delete_ne.
  - intros d Hw Hasl Had. destruct (Hca d Hw Hasl Had) as [?|[?|(s' & y & Hs' & Hy)]];
      [by left|right; left; cbn in *; set_solver|]. right. cbn in *.
    destruct (decide (s' = s)) as [->|]; [left; simplify_eq; set_solver|].
    right. exists s', y. by rewrite lookup_delete_ne.
Qed.

Lemma wait_initial cap : wait_ok cap makeHeld.
Proof.
  split; cbn; [apply jm_wf_nil|lia| | |].
  - intros a d. by rewrite lookup_empty.
  - intros d. by rewrite lookup_empty; intros [? [=]].
  - intros d. rewrite lookup_empty. intros [[? [=]]|]; set_solver.
Qed.

Lemma step_ok cap st st' : step cap st st' -> wait_ok cap st -> wait_ok cap st'.
Proof.
  destruct 1; eauto using begin_ok, sleep_ok, end_ok, cut_ok, accept_ok, detach_ok, completeOne_ok,
    leave_ok.
Qed.

Lemma reachable_ok cap st : rtc (step cap) makeHeld st -> wait_ok cap st.
Proof.
  intros Hr. cut (forall s s', rtc (step cap) s s' -> wait_ok cap s -> wait_ok cap s');
    [intros H; eapply H; eauto using wait_initial|].
  induction 1; eauto using step_ok.
Qed.

(** ** A send left to run *)

Lemma completes cap send p : forall w sl ad se un,
  se !! send = Some (ToComplete p) ->
  rtc (step cap) (mkHeld w sl ad se un)
    (mkHeld (mkWait (waiters w) (made w) (fulfilled w ∪ p) (waiting w)) sl ad
       (<[send := ToComplete ∅]> se) un).
Proof.
  induction p as [|d p Hd IH] using set_ind_L; intros w sl ad se un Hs.
  - rewrite insert_id, union_empty_r_L by done. by destruct w.
  - eapply rtc_l; [apply (step_complete _ _ _ _ _ _ send _ d Hs); set_solver|].
    rewrite difference_union_distr_l_L, difference_diag_L, union_empty_l_L,
      difference_disjoint_L by set_solver.
    pose proof (IH (completeOne w d) sl ad (<[send := ToComplete p]> se) un
      (lookup_insert_eq _ _ _)) as Hrun.
    rewrite insert_insert_eq in Hrun. cbn in Hrun.
    by rewrite (union_comm_L {[d]} (fulfilled w)), <- (union_assoc_L (fulfilled w)) in Hrun.
Qed.

(** A send that is left to run does what [notifyWaiters] does in one piece. *)
Lemma notify_runs cap st send recipients :
  sendings st !! send = Some (ToDetach recipients) ->
  exists st', rtc (step cap) st st' /\ polls st' = notifyWaiters (polls st) recipients /\
    unsignalled st' = unsignalled st.
Proof.
  destruct st as [w sl ad se un]. cbn. intros Hs. eexists. split; [|split].
  - eapply rtc_l; [by eapply step_detach|]. apply (completes cap send).
    by rewrite lookup_insert_eq.
  - unfold notifyWaiters, detach. cbn. by destruct (detachWaiters (waiters w) recipients).
  - done.
Qed.


(** After a notification run to its end, the registered waiter of a notified
    agent is completed and its slot is free, and every other agent's
    registration is untouched. *)
Lemma notify_completes st recipients : jm_wf (waiters st) ->
  let st' := notifyWaiters st recipients in
  (forall agentId deferred, agentId ∈ recipients ->
     jm_get (waiters st) agentId = Some deferred ->
     deferred ∈ fulfilled st' /\ jm_get (waiters st') agentId = None) /\
  (forall agentId, agentId ∉ recipients ->
     jm_get (waiters st') agentId = jm_get (waiters st) agentId).
Proof.
  intros Hwf. unfold notifyWaiters.
  destruct (detach_spec (waiters st) recipients Hwf) as (_ & _ & H3 & H4).
  destruct (detachWaiters (waiters st) recipients) as [found next]; cbn in *.
  split; intros a; [intros d Ha Hw|intros Ha]; rewrite H3.
  - rewrite decide_True, elem_of_union, elem_of_list_to_set, H4 by done. eauto.
  - by rewrite decide_False.
Qed.

(** *** Witnesses: two agents over capacity two; one sleeps, and a message is
    accepted for it. *)
Definition held2 : WaitState :=
  (awaitBegin (awaitBegin makePollWaiters 2 "agt_a").2 2 "agt_b").2.

Definition addressed2 : Held :=
  mkHeld held2 ({[0]} ∪ ∅) (awaitsOf held2 ["agt_a"] ∪ ∅) (<[0 := ToDetach ["agt_a"]]> ∅) ∅.

Lemma addressed2_reachable : rtc (step 2) makeHeld addressed2.
Proof.
  eapply rtc_l; [apply (step_begin 2 makePollWaiters ∅ ∅ ∅ ∅ "agt_a" false)|].
  eapply rtc_l; [apply (step_begin 2 _ ∅ ∅ ∅ ∅ "agt_b" false)|].
  eapply rtc_l; [apply (step_sleep 2 held2 ∅ ∅ ∅ ∅ 0); [by vm_compute; eexists|set_solver]|].
  eapply rtc_once, step_accept. done.
Qed.


End PollWaiters.
