(* ===== verification/JsString.v ===== *)
(** JsString: the JavaScript string operations and regular expressions the
    components use.

    Strings are byte strings; the identifiers, names and addresses of the
    program are ASCII, where code units, code points and bytes agree.
    [RegExp.test] of an anchored pattern without back-references asks whether
    the whole text belongs to the pattern's language.  [matches] decides it by
    derivatives; [matches_language] relates it to the language. *)
From S2P Require Import Prelude.
From Stdlib Require Import Ascii.

(** ** Regular expressions *)

Inductive regex :=
  | RNone
  | REps
  | RClass (p : ascii -> bool)
  | RCat (r s : regex)
  | RAlt (r s : regex)
  | RStar (r : regex).

(** The language of a pattern, over the characters of a text. *)
Inductive language : regex -> list ascii -> Prop :=
  | L_eps : language REps []
  | L_class p c : p c = true -> language (RClass p) [c]
  | L_cat r s w v : language r w -> language s v -> language (RCat r s) (w ++ v)
  | L_alt_l r s w : language r w -> language (RAlt r s) w
  | L_alt_r r s w : language s w -> language (RAlt r s) w
  | L_star_nil r : language (RStar r) []
  | L_star_app r w v : language r w -> language (RStar r) v -> language (RStar r) (w ++ v).

Fixpoint nullable (r : regex) : bool :=
  match r with
  | RNone | RClass _ => false
  | REps | RStar _ => true
  | RCat r s => nullable r && nullable s
  | RAlt r s => nullable r || nullable s
  end.

(** Smart constructors keep derivatives small. *)
Definition cat (r s : regex) : regex :=
  match r, s with
  | RNone, _ | _, RNone => RNone
  | REps, _ => s
  | _, _ => RCat r s
  end.

Definition alt (r s : regex) : regex :=
  match r, s with
  | RNone, _ => s
  | _, RNone => r
  | _, _ => RAlt r s
  end.

Fixpoint derive (c : ascii) (r : regex) : regex :=
  match r with
  | RNone | REps => RNone
  | RClass p => if p c then REps else RNone
  | RCat r s =>
      if nullable r then alt (cat (derive c r) s) (derive c s)
      else cat (derive c r) s
  | RAlt r s => alt (derive c r) (derive c s)
  | RStar r' => cat (derive c r') r
  end.

Fixpoint matches (r : regex) (s : string) : bool :=
  match s with
  | EmptyString => nullable r
  | String c s' => matches (derive c r) s'
  end.

(** ** The pattern operators of the sources *)
Definition ropt (r : regex) : regex := RAlt r REps.
Definition rplus (r : regex) : regex := RCat r (RStar r).
Fixpoint rexact (n : nat) (r : regex) : regex :=
  match n with O => REps | S n' => RCat r (rexact n' r) end.
Fixpoint rupto (n : nat) (r : regex) : regex :=
  match n with O => REps | S n' => ropt (RCat r (rupto n' r)) end.
Fixpoint rseq (rs : list regex) : regex :=
  match rs with [] => REps | [r] => r | r :: rs' => RCat r (rseq rs') end.
Fixpoint ralts (rs : list regex) : regex :=
  match rs with [] => RNone | [r] => r | r :: rs' => RAlt r (ralts rs') end.
Definition rchar (c : ascii) : regex := RClass (Ascii.eqb c).
Fixpoint rtext (s : string) : regex :=
  match s with EmptyString => REps | String c s' => RCat (rchar c) (rtext s') end.
Definition oneof (s : string) (c : ascii) : bool := bool_decide (c ∈ String.list_ascii_of_string s).
Definition range (lo hi c : ascii) : bool :=
  (N_of_ascii lo <=? N_of_ascii c)%N && (N_of_ascii c <=? N_of_ascii hi)%N.

(** ** Correctness *)

Ltac lang := match goal with
  | H : language RNone _ |- _ => inversion H
  | H : language REps _ |- _ => inversion H; subst; clear H
  | H : language (RClass _) _ |- _ => inversion H; subst; clear H
  | H : language (RCat _ _) _ |- _ => inversion H; subst; clear H
  | H : language (RAlt _ _) _ |- _ => inversion H; subst; clear H
  end.

Local Open Scope list_scope.
Lemma nullable_language r : nullable r = true <-> language r [].
Proof.
  split.
  - induction r; simpl; intros H; try done; [constructor| | |constructor].
    + apply andb_prop in H as [? ?]. apply (L_cat _ _ [] []); auto.
    + apply orb_prop in H as [?|?]; [apply L_alt_l|apply L_alt_r]; auto.
  - remember (@nil ascii) as w eqn:Hw. induction 1; simpl; try done.
    + apply app_eq_nil in Hw as [-> ->]. by rewrite IHlanguage1, IHlanguage2.
    + by rewrite IHlanguage.
    + rewrite IHlanguage by done. by rewrite orb_true_r.
Qed.

Lemma cat_language r s w : language (cat r s) w <-> language (RCat r s) w.
Proof.
  split; intros H.
  - destruct r; simpl in H; try (by inversion H); destruct s; try done;
      solve [inversion H | by apply (L_cat REps _ [] w); [constructor|]].
  - destruct r; simpl; try done; destruct s; try done; inversion H; subst;
      repeat match goal with
      | H : language RNone _ |- _ => inversion H
      | H : language REps _ |- _ => inversion H; subst; clear H
      end; simpl; done || constructor.
Qed.

Lemma alt_language r s w : language (alt r s) w <-> language (RAlt r s) w.
Proof.
  split; intros H.
  - destruct r; simpl in H; try (by apply L_alt_r); destruct s; try done; by apply L_alt_l.
  - destruct r; simpl; try done; destruct s; try done; inversion H; subst; try done;
      match goal with H : language RNone _ |- _ => inversion H end.
Qed.

Lemma derive_language c r w : language (derive c r) w <-> language r (c :: w).
Proof.
  revert w. induction r; intros w; simpl.
  - split; intros; repeat lang.
  - split; intros H; [repeat lang|inversion H].
  - destruct (p c) eqn:Hp; split; intros H; repeat lang; [by apply L_class|apply L_eps|congruence].
  - assert (Hcat : language (cat (derive c r1) r2) w <->
      exists u v, w = u ++ v /\ language r1 (c :: u) /\ language r2 v).
    { rewrite cat_language. split.
      - intros H. inversion H; subst. eexists _, _. split_and!; [done|by apply IHr1|done].
      - intros (u & v & -> & ? & ?). constructor; [by apply IHr1|done]. }
    assert (Hsplit : language (RCat r1 r2) (c :: w) <->
      (exists u v, w = u ++ v /\ language r1 (c :: u) /\ language r2 v) \/
      (nullable r1 = true /\ language r2 (c :: w))).
    { split.
      - intros H. inversion H as [| |r s w1 v1 H1 H2 Er Ew| | | |]; subst.
        destruct w1 as [|c' u]; simpl in Ew.
        + right. split; [by apply nullable_language|by subst].
        + injection Ew as -> <-. left. by exists u, v1.
      - intros [(u & v & -> & ? & ?)|[Hn ?]].
        + by apply (L_cat _ _ (c :: u) v).
        + apply (L_cat _ _ [] (c :: w)); [by apply nullable_language|done]. }
    rewrite Hsplit. destruct (nullable r1).
    + rewrite alt_language. split.
      * intros H. inversion H; subst; [left; by apply Hcat|right; split; [done|by apply IHr2]].
      * intros [?|[_ ?]]; [apply L_alt_l; by apply Hcat|apply L_alt_r; by apply IHr2].
    + rewrite Hcat. naive_solver.
  - rewrite alt_language. split; intros H; inversion H; subst;
      first [apply L_alt_l; by apply IHr1 | apply L_alt_r; by apply IHr2].
  - rewrite cat_language. split.
    + intros H. inversion H; subst. apply (L_star_app _ (c :: _)); [by apply IHr|done].
    + intros H. remember (RStar r) as rs eqn:Hrs. remember (c :: w) as cw eqn:Hcw.
      revert w Hcw. induction H; intros ? Hcw; try done. injection Hrs as ->.
      destruct w as [|c' u]; simpl in Hcw; [by apply IHlanguage2|].
      injection Hcw as -> <-. constructor; [by apply IHr|done].
Qed.

Lemma matches_language r s : matches r s = true <-> language r (String.list_ascii_of_string s).
Proof.
  revert r. induction s as [|c s IH]; intros r; simpl; [apply nullable_language|].
  by rewrite IH, derive_language.
Qed.

(** ** Strings *)

Local Open Scope string_scope.

(** [s.startsWith(p)]. *)
Definition startsWith (p s : string) : bool := String.prefix p s.

(** [s.slice(n)]. *)
Fixpoint slice (n : nat) (s : string) : string :=
  match n, s with
  | O, _ => s
  | S n', EmptyString => EmptyString
  | S n', String _ s' => slice n' s'
  end.

(** [s.split(sep)] for a one-character separator: never empty. *)
Fixpoint split_on (sep : ascii) (s : string) : list string :=
  match s with
  | EmptyString => [""]
  | String c s' =>
      if Ascii.eqb c sep then "" :: split_on sep s'
      else match split_on sep s' with
           | [] => [String c ""]
           | w :: ws => String c w :: ws
           end
  end.

(** [ws.join(sep)]. *)
Fixpoint join_with (sep : ascii) (ws : list string) : string :=
  match ws with
  | [] => ""
  | [w] => w
  | w :: ws' => String.append w (String sep (join_with sep ws'))
  end.

(** Whether every character satisfies a test. *)
Fixpoint string_all (p : ascii -> bool) (s : string) : bool :=
  match s with
  | EmptyString => true
  | String c s' => p c && string_all p s'
  end.

Lemma slice_append p s : slice (String.length p) (String.append p s) = s.
Proof. induction p; simpl; [by destruct s | done]. Qed.

Lemma startsWith_append p s : startsWith p (String.append p s) = true.
Proof.
  unfold startsWith. induction p as [|c p IH]; simpl; [by destruct s|].
  destruct (Ascii.ascii_dec c c); [done|congruence].
Qed.

Lemma startsWith_slice p s : startsWith p s = true ->
  s = String.append p (slice (String.length p) s).
Proof.
  unfold startsWith. revert s. induction p as [|c p IH].
  { intros s _. done. }
  intros [|d s]; simpl; [done|]. destruct (Ascii.ascii_dec c d) as [->|]; [|done].
  intros H. change (String d s = String d (String.append p (slice (String.length p) s))).
  f_equal. by apply IH.
Qed.

Lemma append_inj p s1 s2 : String.append p s1 = String.append p s2 -> s1 = s2.
Proof. induction p; simpl; [done|]. intros [= ?]. auto. Qed.

Lemma split_on_cons sep s : exists w ws, split_on sep s = w :: ws.
Proof.
  induction s as [|c s IH]; simpl; [eauto|].
  destruct (Ascii.eqb c sep); [eauto|]. destruct IH as (w & ws & ->). eauto.
Qed.

Lemma join_char sep c w ws :
  join_with sep (String c w :: ws) = String c (join_with sep (w :: ws)).
Proof. by destruct ws. Qed.

Lemma join_cons sep w w' ws :
  join_with sep (w :: w' :: ws) = String.append w (String sep (join_with sep (w' :: ws))).
Proof. done. Qed.

(** [split] and [join] are inverse. *)
Lemma join_split sep s : join_with sep (split_on sep s) = s.
Proof.
  induction s as [|c s IH]; [done|]. cbn [split_on].
  destruct (split_on_cons sep s) as (w & ws & Hs). rewrite Hs in IH |- *.
  destruct (Ascii.eqb_spec c sep) as [->|].
  - rewrite join_cons, IH. done.
  - by rewrite join_char, IH.
Qed.

Definition no_sep (sep : ascii) (w : string) : bool :=
  string_all (fun c => negb (Ascii.eqb c sep)) w.

Lemma split_on_no_sep sep w : no_sep sep w = true -> split_on sep w = [w].
Proof.
  unfold no_sep. induction w as [|c w IH]; simpl; [done|].
  intros [Hc Hw]%andb_prop. apply negb_true_iff in Hc. by rewrite Hc, IH.
Qed.

Lemma split_on_sep sep w s : no_sep sep w = true ->
  split_on sep (String.append w (String sep s)) = w :: split_on sep s.
Proof.
  unfold no_sep. induction w as [|c w IH]; simpl.
  - by rewrite Ascii.eqb_refl.
  - intros [Hc Hw]%andb_prop. apply negb_true_iff in Hc.
    by rewrite Hc, IH.
Qed.

Lemma split_join sep ws : ws <> [] -> Forall (fun w => no_sep sep w = true) ws ->
  split_on sep (join_with sep ws) = ws.
Proof.
  intros Hne Hws. induction Hws as [|w ws Hw Hws IH]; [done|].
  destruct ws as [|w' ws]; [by apply split_on_no_sep|].
  rewrite join_cons, split_on_sep by done. by rewrite IH.
Qed.

Lemma string_all_impl (p q : ascii -> bool) s :
  (forall c, p c = true -> q c = true) ->
  string_all p s = true -> string_all q s = true.
Proof.
  intros Hpq. induction s as [|c s IH]; simpl; [done|].
  intros [Hc Hs]%andb_prop. by rewrite Hpq, IH.
Qed.
