(* ===== verification/Identifiers.v ===== *)
(** Identifiers: canonical identifier text and the byte and ASCII orders
    (packages/identity/src/identifiers.ts,
    packages/client/src/encoding/identifier.ts and the address grammar of
    packages/client/src/communication/records/values.ts).

    Byte arrays are byte strings.  The base64url codec belongs to the Effect
    library; [Base64Url] is what the code relies on of it. *)
From S2P Require Import Prelude JsString.
From Stdlib Require Import Ascii.
Local Open Scope Z_scope.
Local Open Scope string_scope.

(** [Encoding.encodeBase64Url] and [Encoding.decodeBase64Url]. *)
Class Base64Url := {
  encodeBase64Url : string -> string;
  decodeBase64Url : string -> option string;
}.

(** The documented behaviour: decoding inverts encoding. *)
Class Base64UrlLaws (B : Base64Url) : Prop := {
  decode_encode64 : forall bytes, decodeBase64Url (encodeBase64Url bytes) = Some bytes;
}.

Module Identifiers.

Section base64url.
Context `{B : Base64Url}.

Definition decodeCanonicalBase64Url (value : string) : option string :=
  match decodeBase64Url value with
  | None => None
  | Some decoded =>
      if decide (encodeBase64Url decoded = value) then Some decoded else None
  end.

Definition hasCanonicalBase64UrlLength (value : string) (byteLength : nat) : bool :=
  match decodeCanonicalBase64Url value with
  | Some bytes => bool_decide (String.length bytes = byteLength)
  | None => false
  end.

(** [isCanonicalIdentifier] of the client. *)
Definition HASH_BYTE_LENGTH : nat := 32.

Definition isCanonicalIdentifier (prefix value : string) : bool :=
  if startsWith prefix value
  then match decodeCanonicalBase64Url (slice (String.length prefix) value) with
       | Some bytes => bool_decide (String.length bytes = HASH_BYTE_LENGTH)
       | None => false
       end
  else false.

(** The value filter of the Router contract's [canonicalValue]. *)
Definition canonicalValue (prefix : string) (byteLength : nat) (text : string) : bool :=
  startsWith prefix text &&
  hasCanonicalBase64UrlLength (slice (String.length prefix) text) byteLength.

End base64url.

(** *** Lexicographic comparison of bytes *)

Definition code (c : ascii) : Z := Z.of_N (N_of_ascii c).

(** The loop of [compareAscii] and of [compareAgentIds]: the first
    difference over the shared length, else the difference of lengths. *)
Fixpoint compareAscii (left right : string) : Z :=
  match left, right with
  | String a l, String b r =>
      let difference := code a - code b in
      if decide (difference <> 0) then difference else compareAscii l r
  | _, _ => Z.of_nat (String.length left) - Z.of_nat (String.length right)
  end.

Definition compareAgentIds `{Base64Url} (left right : string) : Z :=
  match decodeCanonicalBase64Url (slice 4 left),
        decodeCanonicalBase64Url (slice 4 right) with
  | Some leftBytes, Some rightBytes => compareAscii leftBytes rightBytes
  | _, _ => 0
  end.

(** [isStrictlyAscending]: each adjacent pair strictly increases. *)
Fixpoint isStrictlyAscending {V} (compare : V -> V -> Z) (values : list V) : bool :=
  match values with
  | previous :: ((current :: _) as rest) =>
      if decide (compare previous current >= 0) then false
      else isStrictlyAscending compare rest
  | _ => true
  end.

(** *** Names and addresses *)

Definition isNameChar (c : ascii) : bool :=
  let n := code c in
  bool_decide (97 <= n <= 122) || bool_decide (48 <= n <= 57).

(** The pattern [/^[a-z0-9]+(-[a-z0-9]+)*$/] as its automaton: [afterName]
    may stop, [afterDash] needs one more name character. *)
Fixpoint afterName (s : string) : bool :=
  match s with
  | EmptyString => true
  | String c s' =>
      if isNameChar c then afterName s'
      else if Ascii.eqb c "-" then
        match s' with
        | EmptyString => false
        | String d s'' => isNameChar d && afterName s''
        end
      else false
  end.

Definition namePattern (s : string) : bool :=
  match s with
  | EmptyString => false
  | String c s' => isNameChar c && afterName s'
  end.

(** The [AgentName] schema. *)
Definition isAgentName (s : string) : bool :=
  bool_decide (3 <= String.length s <= 32)%nat && namePattern s.

Definition AGENT_ADDRESS_PREFIX := "agent:".
Definition GROUP_ADDRESS_PREFIX := "group:".
Definition maximumMembers : nat := 32.

Definition parseAgentAddress (value : string) : option string :=
  if startsWith AGENT_ADDRESS_PREFIX value
  then let name := slice (String.length AGENT_ADDRESS_PREFIX) value in
       if isAgentName name then Some name else None
  else None.

Definition parseGroupAddress (value : string) : option (list string) :=
  if startsWith GROUP_ADDRESS_PREFIX value
  then let names := split_on "," (slice (String.length GROUP_ADDRESS_PREFIX) value) in
       if bool_decide (0 < length names)%nat && forallb isAgentName names
       then Some names else None
  else None.

(** The [MessageAddressInput], [AgentAddress] and [GroupAddress] schemas. *)
Definition addressInput (value : string) : bool :=
  bool_decide (is_Some (parseAgentAddress value)) ||
  bool_decide (is_Some (parseGroupAddress value)).

Definition isAgentAddress (value : string) : bool :=
  addressInput value && bool_decide (is_Some (parseAgentAddress value)).

Definition isCanonicalGroupAddress (value : string) : bool :=
  match parseGroupAddress value with
  | None => false
  | Some names =>
      if bool_decide (length names < 3)%nat || bool_decide (maximumMembers < length names)%nat
      then false
      else isStrictlyAscending compareAscii names
  end.

Definition isGroupAddress (value : string) : bool :=
  addressInput value && isCanonicalGroupAddress value.

(** ** Facts *)

Lemma canonical64_iff `{B : Base64Url} `{!Base64UrlLaws B} v bytes :
  decodeCanonicalBase64Url v = Some bytes <-> v = encodeBase64Url bytes.
Proof.
  unfold decodeCanonicalBase64Url. split.
  - destruct (decodeBase64Url v) as [d|]; [|done]. case_decide; naive_solver.
  - intros ->. rewrite decode_encode64. by rewrite decide_True.
Qed.

Lemma code_inj a b : code a = code b -> a = b.
Proof.
  unfold code. intros H%N2Z.inj.
  by rewrite <- (ascii_N_embedding a), H, ascii_N_embedding.
Qed.

Lemma compareAscii_refl s : compareAscii s s = 0.
Proof. induction s; simpl; [done|]. rewrite decide_False by lia. done. Qed.

Lemma compareAscii_eq s t : compareAscii s t = 0 <-> s = t.
Proof.
  split; [|intros ->; apply compareAscii_refl].
  revert t. induction s as [|a s IH]; intros [|b t]; simpl; try done; try lia.
  case_decide; [lia|]. intros H'. f_equal; [apply code_inj; lia|by apply IH].
Qed.

Lemma compareAscii_antisym s t : Z.sgn (compareAscii s t) = - Z.sgn (compareAscii t s).
Proof.
  revert t. induction s as [|a s IH]; intros [|b t]; simpl; try done; try lia.
  repeat case_decide; try lia. apply IH.
Qed.

Lemma compareAscii_trans s t u :
  compareAscii s t <= 0 -> compareAscii t u <= 0 -> compareAscii s u <= 0.
Proof.
  revert t u. induction s as [|a s IH]; intros [|b t] [|c u]; simpl; try lia.
  repeat case_decide; try lia. apply IH.
Qed.

Lemma compareAscii_lt_trans s t u :
  compareAscii s t < 0 -> compareAscii t u < 0 -> compareAscii s u < 0.
Proof.
  intros H1 H2. pose proof (compareAscii_trans s t u) as Ht.
  assert (compareAscii s u <> 0); [|lia].
  intros ->%compareAscii_eq. pose proof (compareAscii_antisym t u). lia.
Qed.

(** Unsigned ASCII order as a relation, for sorting. *)
Definition ascii_le (s t : string) : Prop := compareAscii s t <= 0.
Global Instance ascii_le_dec s t : Decision (ascii_le s t).
Proof. unfold ascii_le. apply _. Defined.
Global Instance ascii_le_trans : Transitive ascii_le.
Proof. intros s t u. apply compareAscii_trans. Qed.
Global Instance ascii_le_total : Total ascii_le.
Proof.
  intros s t. unfold ascii_le. pose proof (compareAscii_antisym s t). lia.
Qed.
Global Instance ascii_le_antisymm : AntiSymm (=) ascii_le.
Proof.
  intros s t. unfold ascii_le. pose proof (compareAscii_antisym s t).
  intros. apply compareAscii_eq. lia.
Qed.

(** The adjacent test is the full strict order when the comparison is
    transitive. *)
Lemma strictly_ascending_iff {V} (compare : V -> V -> Z) vs :
  (forall a b c, compare a b < 0 -> compare b c < 0 -> compare a c < 0) ->
  isStrictlyAscending compare vs = true <->
  StronglySorted (fun a b => compare a b < 0) vs.
Proof.
  intros Htr. induction vs as [|a [|b vs] IH].
  - split; [constructor|done].
  - split; [repeat constructor|done].
  - cbn [isStrictlyAscending]. case_decide as Hc.
    + split; [done|]. inversion 1 as [|??? Hf]; simplify_eq. inversion Hf. lia.
    + rewrite IH. split.
      * intros Hs. constructor; [done|]. apply StronglySorted_inv in Hs as Hi.
        destruct Hi as [_ Hf]. constructor; [lia|].
        eapply Forall_impl; [exact Hf|]. intros x Hx. eapply Htr; [|exact Hx]. lia.
      * by inversion 1.
Qed.

Lemma isNameChar_not_sep c : isNameChar c = true -> Ascii.eqb c "," = false.
Proof.
  intros H. destruct (Ascii.eqb_spec c ","); [|done]. subst. by vm_compute in H.
Qed.

Lemma afterName_no_comma s : afterName s = true -> no_sep "," s = true.
Proof.
  unfold no_sep. induction s as [s IH] using (induction_ltof1 _ String.length).
  destruct s as [|c s]; [done|]. cbn [afterName string_all].
  destruct (isNameChar c) eqn:Hc.
  - rewrite isNameChar_not_sep by done. intros H. apply IH; [unfold ltof; simpl; lia|done].
  - destruct (Ascii.eqb_spec c "-") as [->|]; [|done].
    destruct s as [|d s]; [done|]. intros [Hd H]%andb_prop. simpl.
    rewrite isNameChar_not_sep by done. apply IH; [unfold ltof; simpl; lia|done].
Qed.

Lemma agentName_no_comma s : isAgentName s = true -> no_sep "," s = true.
Proof.
  unfold isAgentName. intros [_ H]%andb_prop. destruct s as [|c s]; [done|].
  simpl in H. apply andb_prop in H as [Hc H]. unfold no_sep. simpl.
  rewrite isNameChar_not_sep by done. by apply afterName_no_comma.
Qed.

Lemma parseAgentAddress_render n : isAgentName n = true ->
  parseAgentAddress (String.append AGENT_ADDRESS_PREFIX n) = Some n.
Proof.
  intros Hn. unfold parseAgentAddress. by rewrite startsWith_append, slice_append, Hn.
Qed.

Lemma parseAgentAddress_some v n : parseAgentAddress v = Some n ->
  v = String.append AGENT_ADDRESS_PREFIX n /\ isAgentName n = true.
Proof.
  unfold parseAgentAddress. destruct (startsWith _ v) eqn:Hp; [|done].
  apply startsWith_slice in Hp. cbv zeta.
  destruct (isAgentName _) eqn:Hn; [|done]. intros [= <-]. done.
Qed.

Lemma parseGroupAddress_render ns : ns <> [] -> Forall (fun n => isAgentName n = true) ns ->
  parseGroupAddress (String.append GROUP_ADDRESS_PREFIX (join_with "," ns)) = Some ns.
Proof.
  intros Hne Hns. unfold parseGroupAddress.
  rewrite startsWith_append, slice_append. cbv zeta.
  rewrite split_join; [|done|].
  - rewrite bool_decide_true by (destruct ns; [done|simpl; lia]).
    replace (forallb isAgentName ns) with true; [done|].
    symmetry. apply forallb_forall. intros x Hx%list_elem_of_In.
    rewrite Forall_forall in Hns. by apply Hns.
  - eapply Forall_impl; [exact Hns|]. apply agentName_no_comma.
Qed.

Lemma parseGroupAddress_some v ns : parseGroupAddress v = Some ns ->
  v = String.append GROUP_ADDRESS_PREFIX (join_with "," ns) /\
  Forall (fun n => isAgentName n = true) ns.
Proof.
  unfold parseGroupAddress. destruct (startsWith _ v) eqn:Hp; [|done].
  apply startsWith_slice in Hp. cbv zeta.
  destruct (_ && forallb _ _) eqn:Hb; [|done]. intros [= <-].
  apply andb_prop in Hb as [_ Hf]. rewrite join_split. split; [done|].
  apply Forall_forall. intros x Hx%list_elem_of_In.
  rewrite forallb_forall in Hf. by apply Hf.
Qed.

End Identifiers.
