(* ===== verification/Address.v ===== *)
(** Address: canonical destinations and their resolution to member cards
    (packages/client/src/communication/conversations/address.ts).

    The Registry is reached through its [lookup] operation, an argument of
    the definitions that call it.

    SendErrors: the closed failures of one addressed send
    (packages/client/src/communication/conversations/errors.ts). *)
From Stdlib Require Import Ascii.
From S2P Require Import Prelude JsString Identifiers.

Module SendErrors.
Local Open Scope string_scope.

Inductive SendFailure :=
  | InvalidAddress | UnknownAgent | MembershipInvalid | ContentInvalid
  | NotRegistered | VersionMismatch | CertificationUnavailable
  | PersistenceFailed | NetworkUnavailable | DeliveryPending | OutcomeUnknown.
Global Instance SendFailure_eq_dec : EqDecision SendFailure.
Proof. solve_decision. Defined.

(** The reasons in their fixed order. *)
Definition sendFailureReasons : list SendFailure :=
  [InvalidAddress; UnknownAgent; MembershipInvalid; ContentInvalid;
   NotRegistered; VersionMismatch; CertificationUnavailable;
   PersistenceFailed; NetworkUnavailable; DeliveryPending; OutcomeUnknown].

Definition sendFailureText (reason : SendFailure) : string :=
  match reason with
  | InvalidAddress => "the address is not a valid agent: or group: address"
  | UnknownAgent => "an agent the address names is not a known agent"
  | MembershipInvalid => "the address does not name a valid set of agents"
  | ContentInvalid => "the message content is invalid"
  | NotRegistered => "this agent is not registered with Social Harness"
  | VersionMismatch => "Social Harness is unavailable (version mismatch)"
  | CertificationUnavailable =>
      "Social Harness is unavailable (certification unavailable)"
  | PersistenceFailed =>
      "Social Harness is unavailable (the message could not be stored)"
  | NetworkUnavailable => "Social Harness is unavailable (network unavailable)"
  | DeliveryPending =>
      "the message is pending and Social Harness will still deliver it"
  | OutcomeUnknown =>
      "the send did not complete; the message may or may not have been sent"
  end.

Record SendError := mkSendError {
  reason : SendFailure;
  detail : option string;
  issues : option (list (list (string + Z) * string));
}.
Global Instance SendError_eq_dec : EqDecision SendError.
Proof. solve_decision. Defined.

(** [new SendError({ reason })] and [new SendError({ reason, detail })]. *)
Definition sendError (r : SendFailure) : SendError := mkSendError r None None.
Definition sendErrorDetail (r : SendFailure) (d : string) : SendError :=
  mkSendError r (Some d) None.

(** The error's [message]. *)
Definition sendErrorMessage (e : SendError) : string :=
  String.append "send failed: "
    (default (sendFailureText (reason e)) (detail e)).

End SendErrors.

Module Address.
Import Identifiers SendErrors.
Local Open Scope string_scope.

Inductive CanonicalMessageAddress :=
  | Direct (address remoteName : string)
  | Group (address : string) (memberNames : list string).

Definition invalidAddress : SendError := sendError InvalidAddress.
Definition invalidMembership (detail : string) : SendError :=
  sendErrorDetail MembershipInvalid detail.
Definition unknownAgent (agentName : string) : SendError :=
  sendErrorDetail UnknownAgent
    (String.append AGENT_ADDRESS_PREFIX
       (String.append agentName " is not a known agent")).

Definition decodeAgentName (value : string) : Exit SendError string :=
  if isAgentName value then Succeed value else Fail_ invalidAddress.

(** [Schema.decodeUnknown(AgentAddress)]. *)
Definition decodeAgentAddress (value : string) : Exit SendError string :=
  if isAgentAddress value then Succeed value else Fail_ invalidAddress.

(** [renderGroupAddress]: names in unsigned ASCII order, joined by commas,
    accepted only as a canonical group address ([None] is the parse error). *)
Definition renderGroupAddress (names : list string) : option (string * list string) :=
  let ordered := merge_sort ascii_le names in
  let address := String.append GROUP_ADDRESS_PREFIX (join_with "," ordered) in
  if isGroupAddress address then Some (address, ordered) else None.

Definition canonicalDirect (to localAgentName : string) :
    Exit SendError CanonicalMessageAddress :=
  remoteName ← decodeAgentName (slice (String.length AGENT_ADDRESS_PREFIX) to);
  if decide (remoteName = localAgentName)
  then Fail_ (invalidMembership "the address names only you")
  else address ← decodeAgentAddress to; Succeed (Direct address remoteName).

Definition canonicalGroup (to localAgentName : string) :
    Exit SendError CanonicalMessageAddress :=
  explicitNames ← for_each decodeAgentName
    (split_on "," (slice (String.length GROUP_ADDRESS_PREFIX) to));
  if decide (length (remove_dups explicitNames) <> length explicitNames)
  then Fail_ (invalidMembership "the address names an agent more than once")
  else
    localName ← decodeAgentName localAgentName;
    let memberNames :=
      if decide (localName ∈ explicitNames) then explicitNames
      else (explicitNames ++ [localName])%list in
    let others := filter (fun name => name <> localName) memberNames in
    match others with
    | [] => Fail_ (invalidMembership "the address names only you")
    | [onlyOther] =>
        address ← decodeAgentAddress (String.append AGENT_ADDRESS_PREFIX onlyOther);
        Succeed (Direct address onlyOther)
    | _ =>
        if decide (maximumMembers < length memberNames)
        then Fail_ (invalidMembership "a group has at most 32 members")
        else
          match renderGroupAddress memberNames with
          | None => Fail_ invalidAddress
          | Some (address, names) => Succeed (Group address names)
          end
    end.

Definition canonicalMessageAddress (to localAgentName : string) :
    Exit SendError CanonicalMessageAddress :=
  if startsWith AGENT_ADDRESS_PREFIX to
  then canonicalDirect to localAgentName
  else canonicalGroup to localAgentName.

(** *** Resolution to cards *)

Record VerifiedAgentCard := mkCard { agentName : string; agentId : string }.

Inductive LookupResult := NotFound | Found (agentCard : VerifiedAgentCard).

(** The Registry's [lookup], failing with an error tag. *)
Abbreviation RegistryLookup := (string -> Exit string LookupResult).

Inductive ResolvedMessageAddress :=
  | ResolvedDirect (address : string) (first second : VerifiedAgentCard)
  | ResolvedGroup (address : string) (first second third : VerifiedAgentCard)
                  (rest : list VerifiedAgentCard).

(** A resolution ends with a typed failure or, when a member list lost a
    member, as the defect [Effect.dieMessage] raises. *)
Inductive ResolveFailure := Refused (error : SendError) | Died (message : string).

Definition mapRegistryFailure (tag : string) : SendError :=
  sendError (if decide (tag = "VersionMismatchError")
             then VersionMismatch else NetworkUnavailable).

Definition lookupCard (registry : RegistryLookup) (name : string) :
    Exit SendError VerifiedAgentCard :=
  result ← map_error mapRegistryFailure (registry name);
  match result with
  | NotFound => Fail_ (unknownAgent name)
  | Found card =>
      if decide (agentName card = name) then Succeed card
      else Fail_ (unknownAgent name)
  end.

Definition cardLe `{Base64Url} (left right : VerifiedAgentCard) : Prop :=
  (compareAgentIds (agentId left) (agentId right) <= 0)%Z.
Global Instance cardLe_dec `{Base64Url} l r : Decision (cardLe l r).
Proof. unfold cardLe. apply _. Defined.

(** [orderMemberCards]: [Array.sort] is a stable sort. *)
Definition orderMemberCards `{Base64Url} (cards : list VerifiedAgentCard) :
    list VerifiedAgentCard := merge_sort cardLe cards.

Definition resolveDirect `{Base64Url} (localAgentCard : VerifiedAgentCard)
    (registry : RegistryLookup) (address remoteName : string) :
    Exit ResolveFailure ResolvedMessageAddress :=
  remoteCard ← map_error Refused (lookupCard registry remoteName);
  match orderMemberCards [localAgentCard; remoteCard] with
  | first :: second :: _ => Succeed (ResolvedDirect address first second)
  | _ => Fail_ (Died "direct membership lost a member")
  end.

Definition resolveGroup `{Base64Url} (localAgentCard : VerifiedAgentCard)
    (registry : RegistryLookup) (address : string) (memberNames : list string) :
    Exit ResolveFailure ResolvedMessageAddress :=
  resolved ← map_error Refused (for_each (fun name =>
    if decide (name = agentName localAgentCard) then Succeed localAgentCard
    else lookupCard registry name) memberNames);
  match orderMemberCards resolved with
  | first :: second :: third :: rest =>
      Succeed (ResolvedGroup address first second third rest)
  | _ => Fail_ (Died "group membership lost a member")
  end.

Definition resolveMessageAddress `{Base64Url} (localAgentCard : VerifiedAgentCard)
    (registry : RegistryLookup) (to : string) :
    Exit ResolveFailure ResolvedMessageAddress :=
  canonical ← map_error Refused
    (canonicalMessageAddress to (agentName localAgentCard));
  match canonical with
  | Direct address remoteName =>
      resolveDirect localAgentCard registry address remoteName
  | Group address memberNames =>
      resolveGroup localAgentCard registry address memberNames
  end.

(** The cards of a resolution, in AgentId order. *)
Definition memberCards (r : ResolvedMessageAddress) : list VerifiedAgentCard :=
  match r with
  | ResolvedDirect _ a b => [a; b]
  | ResolvedGroup _ a b c rest => a :: b :: c :: rest
  end.

(** ** Facts *)

Lemma decodeAgentName_ok v n :
  decodeAgentName v = Succeed n <-> v = n /\ isAgentName n = true.
Proof.
  unfold decodeAgentName. destruct (isAgentName v) eqn:Hv; split.
  - intros [= <-]. done.
  - intros [-> _]. done.
  - done.
  - intros [-> ?]. congruence.
Qed.

Lemma decode_names_ok vs ns :
  for_each decodeAgentName vs = Succeed ns <->
  vs = ns /\ Forall (fun n => isAgentName n = true) ns.
Proof.
  rewrite for_each_succeed. split.
  - induction 1 as [|v n vs ns H _ [-> IH]]; [done|].
    apply decodeAgentName_ok in H as [-> ?]. auto.
  - intros [-> H]. induction H; constructor; [by apply decodeAgentName_ok|done].
Qed.

Lemma remove_dups_length {A} `{EqDecision A} (l : list A) :
  length (remove_dups l) = length l <-> NoDup l.
Proof.
  induction l as [|x l IH]; simpl; [split; [constructor|done]|].
  assert (Hle : length (remove_dups l) <= length l).
  { clear. induction l; simpl; [done|]. case_decide; simpl; lia. }
  rewrite NoDup_cons. case_decide; simpl.
  - split; [lia|naive_solver].
  - rewrite <- IH. split; [naive_solver|]. lia.
Qed.

(** The names of a canonical group, from the destination that names it. *)
Definition membersOf (to localAgentName : string) : list string :=
  let explicit := split_on "," (slice (String.length GROUP_ADDRESS_PREFIX) to) in
  if decide (localAgentName ∈ explicit) then explicit
  else (explicit ++ [localAgentName])%list.

Lemma renderGroupAddress_some names address ordered :
  renderGroupAddress names = Some (address, ordered) ->
  ordered = merge_sort ascii_le names /\
  address = String.append GROUP_ADDRESS_PREFIX (join_with "," ordered) /\
  isGroupAddress address = true.
Proof.
  unfold renderGroupAddress. cbv zeta.
  destruct (isGroupAddress _) eqn:Hg; intros [= <- <-]; auto.
Qed.

Lemma canonicalGroup_inv to me address names :
  canonicalGroup to me = Succeed (Group address names) ->
  isAgentName me = true /\
  Forall (fun n => isAgentName n = true) (membersOf to me) /\
  NoDup (membersOf to me) /\ length (membersOf to me) <= maximumMembers /\
  renderGroupAddress (membersOf to me) = Some (address, names).
Proof.
  unfold canonicalGroup, membersOf.
  set (explicit := split_on _ _).
  rewrite bind_succeed. intros (ns & Hns & H).
  apply decode_names_ok in Hns as [<- Hf]. revert H.
  case_decide as Hd; [done|]. rewrite bind_succeed.
  intros (me' & [<- Hme]%decodeAgentName_ok & H). cbv zeta in H.
  rewrite remove_dups_length in Hd.
  set (members := if decide (me ∈ explicit) then _ else _) in *.
  assert (NoDup members /\ Forall (fun n => isAgentName n = true) members) as [??].
  { unfold members. destruct (decide (me ∈ explicit)); [auto|]. split.
    - apply NoDup_app. split_and!; [done|set_solver|apply NoDup_singleton].
    - apply Forall_app. auto. }
  destruct (filter _ members) as [|o [|o' os]]; [done| |].
  { apply bind_succeed in H as (?&?&?). done. }
  revert H. case_decide; [done|].
  destruct (renderGroupAddress members) as [[a n]|] eqn:Hr; [|done].
  intros [= <- <-]. split_and!; try done. lia.
Qed.

Lemma group_not_direct to me address names :
  canonicalMessageAddress to me = Succeed (Group address names) ->
  canonicalGroup to me = Succeed (Group address names).
Proof.
  unfold canonicalMessageAddress, canonicalDirect.
  destruct (startsWith _ _); [|done]. rewrite bind_succeed.
  intros (r & _ & H). revert H. case_decide; [done|]. rewrite bind_succeed.
  naive_solver.
Qed.

Lemma merge_sort_names_nodup names :
  NoDup names -> NoDup (merge_sort ascii_le names).
Proof. intros. by rewrite merge_sort_Permutation. Qed.

(** The sorted spelling of a name set is unique. *)
Lemma merge_sort_unique names names' :
  NoDup names -> NoDup names' -> (forall n, n ∈ names <-> n ∈ names') ->
  merge_sort ascii_le names = merge_sort ascii_le names'.
Proof.
  intros H1 H2 Heq. apply (StronglySorted_unique ascii_le).
  - apply StronglySorted_merge_sort; apply _.
  - apply StronglySorted_merge_sort; apply _.
  - rewrite !merge_sort_Permutation. by apply NoDup_Permutation.
Qed.

(** An accepted rendering parses back, within the bounds and in order. *)
Lemma rendered_group to me address names :
  canonicalGroup to me = Succeed (Group address names) ->
  names = merge_sort ascii_le (membersOf to me) /\
  isGroupAddress address = true /\ parseGroupAddress address = Some names /\
  3 <= length names <= maximumMembers /\
  StronglySorted (fun a b => (compareAscii a b < 0)%Z) names.
Proof.
  intros (Hme & Hf & Hnd & Hlen & Hr)%canonicalGroup_inv.
  apply renderGroupAddress_some in Hr as (Hnames & Haddr & Hg).
  assert (Hp : parseGroupAddress address = Some names).
  { rewrite Haddr. apply parseGroupAddress_render.
    - rewrite Hnames. intros Hnil.
      assert (me ∈ merge_sort ascii_le (membersOf to me)) as Hin.
      { rewrite merge_sort_Permutation. unfold membersOf. case_decide; set_solver. }
      rewrite Hnil in Hin. set_solver.
    - rewrite Hnames. by rewrite merge_sort_Permutation. }
  split_and!; try done;
    unfold isGroupAddress, isCanonicalGroupAddress in Hg; rewrite Hp in Hg;
    apply andb_prop in Hg as [_ Hg]; destruct (_ || _) eqn:Hb; try done.
  1,2: apply orb_false_elim in Hb as [?%bool_decide_eq_false ?%bool_decide_eq_false]; lia.
  apply strictly_ascending_iff in Hg; [done|]. apply compareAscii_lt_trans.
Qed.

(** a canonical group address is well formed: it parses back to its
    names, which are 3 to 32 distinct agent names in strict ASCII order, the
    local agent and exactly the agents the destination lists. *)
Theorem canonical_group_wf to me address names :
  canonicalMessageAddress to me = Succeed (Group address names) ->
  isGroupAddress address = true /\ parseGroupAddress address = Some names /\
  3 <= length names <= maximumMembers /\
  StronglySorted (fun a b => (compareAscii a b < 0)%Z) names /\
  (forall n, n ∈ names <->
     n = me \/ n ∈ split_on "," (slice (String.length GROUP_ADDRESS_PREFIX) to)).
Proof.
  intros H%group_not_direct%rendered_group.
  destruct H as (Hnames & Hg & Hp & Hlen & Hs). refine (conj Hg (conj Hp (conj Hlen (conj Hs _)))).
  intros n. rewrite Hnames, merge_sort_Permutation. unfold membersOf.
  case_decide; set_solver.
Qed.

(** every member of a group computes the same group address, whoever
    sends, in whatever order the destination lists the others and whether or
    not it lists the sender. *)
Theorem group_address_agreement to1 me1 to2 me2 a1 n1 a2 n2 :
  canonicalMessageAddress to1 me1 = Succeed (Group a1 n1) ->
  canonicalMessageAddress to2 me2 = Succeed (Group a2 n2) ->
  (forall n, n ∈ membersOf to1 me1 <-> n ∈ membersOf to2 me2) ->
  a1 = a2 /\ n1 = n2.
Proof.
  intros H1%group_not_direct%canonicalGroup_inv H2%group_not_direct%canonicalGroup_inv Heq.
  destruct H1 as (_ & _ & Hnd1 & _ & (-> & -> & _)%renderGroupAddress_some).
  destruct H2 as (_ & _ & Hnd2 & _ & (-> & -> & _)%renderGroupAddress_some).
  rewrite (merge_sort_unique _ _ Hnd1 Hnd2 Heq). done.
Qed.

Lemma orderMemberCards_perm `{Base64Url} cards : orderMemberCards cards ≡ₚ cards.
Proof. apply merge_sort_Permutation. Qed.

(** resolution never dies: a canonical address always resolves to its
    members' cards or is refused with a [SendError], and the cards are
    exactly one per member name, the local card included. *)
Theorem resolve_total `{Base64Url} me registry to :
  match resolveMessageAddress me registry to with
  | Succeed r => forall names address,
      canonicalMessageAddress to (agentName me) = Succeed (Group address names) ->
      agentName <$> memberCards r ≡ₚ names
  | Fail_ (Refused _) => True
  | Fail_ (Died _) => False
  end.
Proof.
  unfold resolveMessageAddress.
  destruct (canonicalMessageAddress to (agentName me)) as [[a r|a ns]|e] eqn:Hc; simpl; [| |done].
  - unfold resolveDirect. destruct (map_error _ _) as [c|e] eqn:Hl; simpl.
    + pose proof (orderMemberCards_perm [me; c]) as Hp%Permutation_length.
      destruct (orderMemberCards [me; c]) as [|? [|? ?]]; simpl in *; try lia. done.
    + destruct (lookupCard registry r); simplify_eq/=; done.
  - pose proof (canonical_group_wf _ _ _ _ Hc) as (_ & _ & Hlen & _).
    unfold resolveGroup. destruct (for_each _ ns) as [cs|e] eqn:Hl; simpl; [|done].
    apply for_each_succeed in Hl.
    assert (Hn : agentName <$> cs = ns).
    { clear -Hl. induction Hl as [|n c ns cs Hx _ IH]; [done|]. simpl. f_equal; [|done].
      revert Hx. case_decide; [naive_solver|]. unfold lookupCard.
      rewrite bind_succeed. intros ([|card] & _ & Hx); [done|].
      case_decide; naive_solver. }
    pose proof (orderMemberCards_perm cs) as Hp.
    pose proof (Permutation_length Hp) as Hpl.
    rewrite <- Hn, length_fmap in Hlen.
    destruct (orderMemberCards cs) as [|c1 [|c2 [|c3 rest]]]; simpl in *; try lia.
    intros names address [= _ <-]. rewrite <- Hn.
    by apply (fmap_Permutation agentName) in Hp.
Qed.

(** *** Witnesses: a three-member group seen by two of its members. *)
Lemma canonical_group_wf_witness :
  isGroupAddress "group:alice,bob,carol" = true /\
  canonicalMessageAddress "group:carol,bob" "alice"
    = Succeed (Group "group:alice,bob,carol" ["alice"; "bob"; "carol"]).
Proof.
  split; [|vm_compute; reflexivity].
  apply (canonical_group_wf "group:carol,bob" "alice" _ ["alice"; "bob"; "carol"]).
  vm_compute. reflexivity.
Defined.

Lemma group_address_agreement_witness :
  ("group:alice,bob,carol" = "group:alice,bob,carol") /\
  canonicalMessageAddress "group:bob,alice,carol" "carol"
    = Succeed (Group "group:alice,bob,carol" ["alice"; "bob"; "carol"]).
Proof.
  split; [|vm_compute; reflexivity].
  apply (group_address_agreement "group:carol,bob" "alice"
    "group:bob,alice,carol" "carol" _ ["alice"; "bob"; "carol"] _
    ["alice"; "bob"; "carol"]).
  - vm_compute. reflexivity.
  - vm_compute. reflexivity.
  - intros n. change (membersOf "group:carol,bob" "alice") with ["carol"; "bob"; "alice"].
    change (membersOf "group:bob,alice,carol" "carol") with ["bob"; "alice"; "carol"].
    rewrite !elem_of_cons. tauto.
Defined.

End Address.
