(* ===== verification/BoundedCache.v ===== *)
(** BoundedCache: the least-recently-used cache of
    packages/identity/src/bounded-cache.ts.

    The cache is its [Map]: the first entry is the least recently used.
    [get] and [set] return the cache they leave behind. *)
From S2P Require Import Prelude JsMap.

Module BoundedCache.
Section cache.
Context {K : Type} {Keq : EqDecision K} {V : Type}.
Abbreviation Cache := (list (K * V)).
Implicit Types (entries : Cache) (k : K) (v : V).

Definition touch entries k v : Cache := jm_set (jm_delete entries k) k v.

Definition get entries k : option V * Cache :=
  match jm_get entries k with
  | None => (None, entries)
  | Some v => (Some v, touch entries k v)
  end.

Definition set (capacity : nat) entries k v : Cache :=
  let touched := touch entries k v in
  if decide (capacity < length touched)
  then match touched with
       | [] => touched
       | (oldest, _) :: _ => jm_delete touched oldest
       end
  else touched.

Definition size entries : nat := length entries.

(** A use of the cache. *)
Inductive Op := OpGet (k : K) | OpSet (k : K) (v : V).

Definition op_key (o : Op) : K := match o with OpGet k | OpSet k _ => k end.

Definition apply_op (capacity : nat) entries (o : Op) : Cache :=
  match o with
  | OpGet k => (get entries k).2
  | OpSet k v => set capacity entries k v
  end.

Definition run (capacity : nat) entries (ops : list Op) : Cache :=
  foldl (apply_op capacity) entries ops.

(** ** Facts *)

Lemma touch_snoc entries k v : jm_wf entries ->
  touch entries k v = jm_delete entries k ++ [(k, v)].
Proof. intros. apply jm_set_fresh. by apply jm_get_delete_eq. Qed.

Lemma touch_wf entries k v : jm_wf entries -> jm_wf (touch entries k v).
Proof. unfold touch. auto with sharness. Qed.

Lemma delete_head k v entries : jm_delete ((k, v) :: entries) k = entries.
Proof. simpl. by rewrite decide_True. Qed.

(** [set] in closed form: the entry moves to the end; past the capacity the
    first entry is dropped. *)
Lemma set_spec cap entries k v : jm_wf entries ->
  set cap entries k v =
    let l := jm_delete entries k ++ [(k, v)] in
    if decide (cap < length l) then tail l else l.
Proof.
  intros Hwf. unfold set. rewrite touch_snoc by done. cbv zeta.
  case_decide; [|done]. destruct (jm_delete entries k ++ [(k, v)]) as [|[k0 v0] l]; [done|].
  by rewrite delete_head.
Qed.

Lemma tail_wf entries : jm_wf entries -> jm_wf (tail entries).
Proof. unfold jm_wf, jm_keys. destruct entries; [done|]. by intros [_ ?]%NoDup_cons. Qed.

Definition cache_ok (cap : nat) entries : Prop :=
  jm_wf entries /\ length entries <= cap.

Lemma length_jm_delete_le entries k : length (jm_delete entries k) <= length entries.
Proof. rewrite jm_length_delete. lia. Qed.

Lemma op_ok cap entries o : cache_ok cap entries -> cache_ok cap (apply_op cap entries o).
Proof.
  intros [Hwf Hl]. destruct o as [k|k v]; simpl.
  - unfold get. destruct (jm_get entries k) as [v|] eqn:Hg; [|done]. simpl.
    split; [by apply touch_wf|]. rewrite touch_snoc, length_app, jm_length_delete by done.
    unfold jm_has. rewrite Hg. simpl.
    destruct entries; [done|]. simpl in *. lia.
  - rewrite set_spec by done. cbv zeta.
    assert (jm_wf (jm_delete entries k ++ [(k, v)])) as Hwf'.
    { rewrite <- touch_snoc by done. by apply touch_wf. }
    pose proof (length_jm_delete_le entries k).
    rewrite length_app. simpl. case_decide.
    + split; [by apply tail_wf|].
      destruct (jm_delete entries k); simpl in *; rewrite ?length_app; simpl; lia.
    + split; [done|]. rewrite length_app. simpl. lia.
Qed.

Lemma run_cache_ok cap entries ops : cache_ok cap entries -> cache_ok cap (run cap entries ops).
Proof.
  revert entries. induction ops as [|o ops IH]; intros entries H; [done|].
  apply IH. by apply op_ok.
Qed.

(** The entry of [k] holds [v] and only keys of [used] are more recent. *)
Definition recent k v (used : list K) entries : Prop :=
  exists before after, entries = before ++ (k, v) :: after /\ jm_keys after ⊆ used.

Lemma recent_get k v used entries : jm_wf entries -> recent k v used entries ->
  jm_get entries k = Some v.
Proof. intros Hwf (b & a & -> & _). apply jm_get_elem; [done|]. set_solver. Qed.

Lemma jm_delete_app_ne k k' v (b a : Cache) :
  jm_wf (b ++ (k, v) :: a) -> k <> k' ->
  exists b' a', jm_delete (b ++ (k, v) :: a) k' = b' ++ (k, v) :: a' /\
    jm_keys a' ⊆ jm_keys a.
Proof.
  intros Hwf Hne. induction b as [|[kb vb] b IH]; simpl.
  - rewrite decide_False by done. exists [], (jm_delete a k'). split; [done|].
    assert (jm_wf a) by (unfold jm_wf, jm_keys in *; by inversion Hwf).
    rewrite jm_delete_keys by done. intros x. rewrite list_elem_of_filter. tauto.
  - case_decide; [by eexists b, a|].
    destruct IH as (b' & a' & -> & ?); [unfold jm_wf, jm_keys in *; by inversion Hwf|].
    by exists ((kb, vb) :: b'), a'.
Qed.

Lemma recent_touch k v k' v' used entries :
  jm_wf entries -> k <> k' -> recent k v used entries ->
  recent k v (k' :: used) (jm_delete entries k' ++ [(k', v')]).
Proof.
  intros Hwf Hne (b & a & -> & Ha).
  destruct (jm_delete_app_ne k k' v b a Hwf Hne) as (b' & a' & -> & Ha').
  exists b', (a' ++ [(k', v')]). rewrite <- app_assoc. split; [done|].
  unfold jm_keys in *. rewrite fmap_app. simpl. set_solver.
Qed.

Lemma recent_tail k v used entries :
  jm_wf entries -> NoDup used -> recent k v used entries ->
  S (length used) < length entries -> recent k v used (tail entries).
Proof.
  intros Hwf Hnd (b & a & -> & Ha) Hl. destruct b as [|x b]; [|by exists b, a].
  exfalso. simpl in Hl. assert (length (jm_keys a) <= length used); [|unfold jm_keys in *; rewrite length_fmap in *; lia].
  apply submseteq_length, NoDup_submseteq; [|done].
  unfold jm_wf, jm_keys in *. simpl in Hwf. by inversion Hwf.
Qed.

Lemma recent_weaken k v used used' entries :
  used ⊆ used' -> recent k v used entries -> recent k v used' entries.
Proof. intros Hs (b & a & -> & ?). exists b, a. set_solver. Qed.

Lemma recent_op cap k v used entries o :
  cache_ok cap entries -> NoDup used -> op_key o ∈ used -> op_key o <> k ->
  length used < cap -> recent k v used entries ->
  recent k v used (apply_op cap entries o).
Proof.
  intros [Hwf Hl] Hnd Hin Hne Hcap Hr. destruct o as [k'|k' v']; simpl in *.
  - unfold get. destruct (jm_get entries k') as [v'|]; [|done]. simpl.
    rewrite touch_snoc by done. eapply recent_weaken; [|apply recent_touch; eauto].
    set_solver.
  - rewrite set_spec by done. cbv zeta.
    assert (recent k v used (jm_delete entries k' ++ [(k', v')])) as Hr'.
    { eapply recent_weaken; [|apply recent_touch; eauto]. set_solver. }
    case_decide; [|done]. apply recent_tail; [|done|done|lia].
    rewrite <- touch_snoc by done. by apply touch_wf.
Qed.

Lemma recent_run cap k v used ops entries :
  cache_ok cap entries -> NoDup used -> length used < cap ->
  Forall (fun o => op_key o ∈ used /\ op_key o <> k) ops ->
  recent k v used entries -> recent k v used (run cap entries ops).
Proof.
  intros Hok Hnd Hcap Hops. revert entries Hok.
  induction Hops as [|o ops [? ?] _ IH]; intros entries Hok Hr; [done|].
  apply IH; [by apply op_ok|]. by apply recent_op.
Qed.

End cache.
Arguments Op : clear implicits.

(** the cache never holds more than its capacity, with one entry per key,
    after any sequence of uses. *)
Theorem cache_bounded {K V} `{EqDecision K} cap (ops : list (Op K V)) :
  jm_wf (run cap [] ops) /\ size (run cap [] ops) <= cap.
Proof. apply run_cache_ok. split; [apply jm_wf_nil|simpl; lia]. Qed.

(** least-recently-used retention.  A stored value is still returned after
    any further uses that touch fewer than [capacity] distinct other keys,
    whatever was cached before. *)
Theorem cache_lru_retention {K V} `{EqDecision K} cap (before ops : list (Op K V))
    (k : K) (v : V) (used : list K) :
  NoDup used -> length used < cap ->
  (forall o, o ∈ ops -> op_key o ∈ used /\ op_key o <> k) ->
  (get (run cap [] (before ++ OpSet k v :: ops)) k).1 = Some v.
Proof.
  intros Hnd Hcap Hops. unfold run. rewrite foldl_app. simpl.
  fold (run cap [] before).
  assert (Hok : cache_ok cap (run cap [] before)).
  { apply run_cache_ok. split; [apply jm_wf_nil|simpl; lia]. }
  assert (Hok' := op_ok cap _ (OpSet k v) Hok). simpl in Hok'.
  assert (Hr : recent k v used (set cap (run cap [] before) k v)).
  { destruct Hok as [Hwf Hl]. rewrite set_spec by done. cbv zeta.
    case_decide as Hd; [|exists (jm_delete (run cap [] before) k), []; set_solver].
    destruct (jm_delete (run cap [] before) k) as [|x b]; simpl in *; [lia|].
    exists b, []. set_solver. }
  change (foldl (apply_op cap) ?e ops) with (run cap e ops).
  assert (Hr' : recent k v used (run cap (set cap (run cap [] before) k v) ops)).
  { apply recent_run; try done. by apply Forall_forall. }
  unfold get. erewrite recent_get; [done| |exact Hr'].
  by apply (run_cache_ok cap).
Qed.

Lemma cache_lru_retention_witness :
  (get (run 2 [] ([OpSet "a" 1; OpSet "b" 2] ++ OpSet "c" 3 :: [OpGet "b"; OpSet "b" 5]))
     "c").1 = Some 3.
Proof.
  apply (cache_lru_retention 2 [OpSet "a" 1; OpSet "b" 2] [OpGet "b"; OpSet "b" 5]
    "c" 3 ["b"]).
  - apply NoDup_singleton.
  - simpl. lia.
  - intros o Ho. apply list_elem_of_In in Ho. destruct Ho as [Ho|[Ho|[]]];
      rewrite <- Ho; simpl; (split; [set_solver|done]).
Defined.

End BoundedCache.
