(* ===== verification/AuthenticatedHttp.v ===== *)
(** AuthenticatedHttp: request verification with replay defence and
    single-flight card resolution
    (packages/identity/src/authenticated-http.ts).

    [updateNonces] is the atomic update of the live-nonce [Ref]; the card
    resolver's two stores (the pending map and the bounded cache) are read
    and written in one synchronous step by [beginCardResolution]. *)
From S2P Require Import Prelude JsMap BoundedCache.
Import BoundedCache.
Local Open Scope Z_scope.

Module AuthenticatedHttp.

Abbreviation AgentId := string.

Inductive AuthenticationError :=
  | MalformedRequest | AuthenticationFailed | VersionMismatched
  | Overloaded | Unavailable.
Global Instance AuthenticationError_eq_dec : EqDecision AuthenticationError.
Proof. solve_decision. Defined.

(** ** Live nonces *)

Inductive NonceClaim := Claimed | Replayed | Full.

Record NonceClaimInput := mkClaim {
  capacity : Z;
  nonce : string;
  expires : Z;
  now : Z;
}.

Definition updateNonces (current : list (string * Z)) (input : NonceClaimInput) :
    NonceClaim * list (string * Z) :=
  let live := filter (fun entry => now input <= entry.2) current in
  if jm_has live (nonce input) then (Replayed, live)
  else if decide (capacity input <= Z.of_nat (length live)) then (Full, live)
  else (Claimed, jm_set live (nonce input) (expires input)).

(** [claimNonce] applied to each input in turn. *)
Fixpoint claims (nonces : list (string * Z)) (inputs : list NonceClaimInput) :
    list NonceClaim * list (string * Z) :=
  match inputs with
  | [] => ([], nonces)
  | input :: rest =>
      let '(c, nonces') := updateNonces nonces input in
      let '(cs, final) := claims nonces' rest in
      (c :: cs, final)
  end.

Lemma live_wf (m : list (string * Z)) (P : string * Z -> Prop)
  `{forall x, Decision (P x)} : jm_wf m -> jm_wf (filter P m).
Proof.
  unfold jm_wf, jm_keys. induction m as [|[k v] m IH]; [done|].
  simpl. intros [Hni Hnd]%NoDup_cons. rewrite filter_cons.
  case_decide; [|auto]. simpl. constructor; [|auto].
  intros (p & -> & [_ Hp]%list_elem_of_filter)%list_elem_of_fmap.
  apply Hni, list_elem_of_fmap. by exists p.
Qed.

Lemma updateNonces_wf m i : jm_wf m -> jm_wf (updateNonces m i).2.
Proof.
  intros. unfold updateNonces. assert (H' := live_wf m (fun e => now i <= e.2) H).
  destruct (jm_has _ _); [done|]. case_decide; [done|]. simpl. auto with sharness.
Qed.

Lemma updateNonces_bound m i : 0 <= capacity i ->
  Z.of_nat (length m) <= capacity i -> Z.of_nat (length (updateNonces m i).2) <= capacity i.
Proof.
  intros H0 Hm. unfold updateNonces.
  pose proof (length_filter (fun e : string * Z => now i <= e.2) m) as Hf.
  destruct (jm_has _ _) eqn:Hh; simpl; [lia|]. case_decide; simpl; [lia|].
  rewrite jm_set_fresh, length_app; [simpl; lia|].
  unfold jm_has in Hh. by destruct (jm_get _ _).
Qed.

(** A live claim is kept until it expires. *)
Lemma updateNonces_keeps m i n e :
  jm_wf m -> (n, e) ∈ m -> now i <= e -> (n, e) ∈ (updateNonces m i).2.
Proof.
  intros Hwf Hin Hle. unfold updateNonces.
  assert (Hl : (n, e) ∈ filter (fun e : string * Z => now i <= e.2) m).
  { by apply list_elem_of_filter. }
  destruct (jm_has _ _) eqn:Hh; [done|]. case_decide; [done|]. simpl.
  rewrite jm_set_fresh; [set_solver|].
  unfold jm_has in Hh. by destruct (jm_get _ _).
Qed.

Lemma updateNonces_claimed m i : jm_wf m ->
  (updateNonces m i).1 = Claimed ->
  (nonce i, expires i) ∈ (updateNonces m i).2 /\
  forall e, (nonce i, e) ∈ m -> e < now i.
Proof.
  intros Hwf. unfold updateNonces. destruct (jm_has _ _) eqn:Hh; [done|].
  case_decide; [done|]. intros _. simpl. split.
  - apply jm_get_some_elem, jm_get_set_eq.
  - intros e He. destruct (decide (now i <= e)) as [Hle|]; [|lia]. exfalso.
    assert (Hk : jm_has (filter (fun e : string * Z => now i <= e.2) m) (nonce i) = true).
    { apply jm_has_true. unfold jm_keys. apply list_elem_of_fmap.
      exists (nonce i, e). split; [done|]. by apply list_elem_of_filter. }
    congruence.
Qed.

Lemma claims_app m xs1 xs2 :
  claims m (xs1 ++ xs2) =
    ((claims m xs1).1 ++ (claims (claims m xs1).2 xs2).1,
     (claims (claims m xs1).2 xs2).2).
Proof.
  revert m. induction xs1 as [|i xs1 IH]; intros m; simpl.
  - by destruct (claims m xs2).
  - destruct (updateNonces m i) as [c m']. rewrite IH.
    destruct (claims m' xs1) as [cs m'']; simpl. by destruct (claims m'' xs2).
Qed.

Lemma claims_wf m xs : jm_wf m -> jm_wf (claims m xs).2.
Proof.
  revert m. induction xs as [|i xs IH]; intros m Hwf; simpl; [done|].
  pose proof (updateNonces_wf m i Hwf) as Hwf'.
  destruct (updateNonces m i) as [c m']; simpl in *.
  specialize (IH m' Hwf'). by destruct (claims m' xs).
Qed.

Lemma claims_keeps m xs n e : jm_wf m -> (n, e) ∈ m ->
  Forall (fun i => now i <= e) xs -> (n, e) ∈ (claims m xs).2.
Proof.
  intros Hwf Hin Hall. revert m Hwf Hin.
  induction Hall as [|i xs Hi _ IH]; intros m Hwf Hin; simpl; [done|].
  pose proof (updateNonces_wf m i Hwf) as Hwf'.
  pose proof (updateNonces_keeps m i n e Hwf Hin Hi) as Hin'.
  destruct (updateNonces m i) as [c m']; simpl in *.
  specialize (IH m' Hwf' Hin'). by destruct (claims m' xs).
Qed.

(** C30: a nonce cannot be replayed while it is live.  Whatever claims come in
    between, and in whatever order they read the clock (each reads it before its
    asynchronous signature check, so a claim may arrive with an older reading):
    if two verified requests of one run both claim the same nonce, then one of
    the claims after the first, the second included, read the clock past the
    end of the first's validity.  In particular, when none in between read the
    clock later than the second, the second itself did. *)
Theorem nonce_no_replay (before between : list NonceClaimInput) i j :
  nonce i = nonce j ->
  (updateNonces (claims [] before).2 i).1 = Claimed ->
  (updateNonces (claims [] (before ++ i :: between)).2 j).1 = Claimed ->
  Exists (fun x => expires i < now x) (between ++ [j]) /\
  (Forall (fun x => now x <= now j) between -> expires i < now j).
Proof.
  intros Hn Hi Hj.
  assert (Hwf : jm_wf (claims [] before).2) by (apply claims_wf, jm_wf_nil).
  assert (Hex : Exists (fun x => expires i < now x) (between ++ [j])).
  { destruct (Exists_dec (fun x => expires i < now x) (between ++ [j])) as [|Hno]; [done|].
    exfalso. apply not_Exists_Forall in Hno; [|intros x; apply _].
    apply Forall_app in Hno as [Hbetween [Hlast _]%Forall_cons_1].
    destruct (updateNonces_claimed _ _ Hwf Hi) as [Hin _].
    assert (Hk : (nonce i, expires i) ∈ (claims [] (before ++ i :: between)).2).
    { rewrite claims_app. cbn [snd claims].
      pose proof (updateNonces_wf _ i Hwf) as Hwf'.
      destruct (updateNonces _ i) as [c m']; simpl in *.
      assert (Hk : (nonce i, expires i) ∈ (claims m' between).2).
      { apply claims_keeps; [done..|]. eapply Forall_impl; [exact Hbetween|]. unfold compose. simpl. lia. }
      by destruct (claims m' between). }
    destruct (updateNonces_claimed (claims [] (before ++ i :: between)).2 j)
      as [_ Hexp]; [apply claims_wf, jm_wf_nil|done|].
    rewrite <- Hn in Hexp. specialize (Hexp _ Hk). unfold compose in Hlast. lia. }
  split; [done|]. intros Hmono.
  apply Exists_app in Hex as [Hex|[?|[]%Exists_nil]%Exists_cons]; [|done].
  apply Exists_exists in Hex as (x & Hx & Hlt). rewrite Forall_forall in Hmono.
  specialize (Hmono x Hx). lia.
Qed.

Lemma claims_bound m xs cap : 0 <= cap -> Forall (fun i => capacity i = cap) xs ->
  Z.of_nat (length m) <= cap -> Z.of_nat (length (claims m xs).2) <= cap.
Proof.
  intros H0 His. revert m. induction His as [|i xs Hi _ IH]; intros m Hm; simpl; [done|].
  pose proof (updateNonces_bound m i) as Hb. rewrite Hi in Hb.
  destruct (updateNonces m i) as [c m']; simpl in *.
  specialize (IH m' ltac:(auto)). by destruct (claims m' xs).
Qed.

(** ** Single-flight card resolution *)

Section resolver.
Context {Card : Type} (cardAgentId : Card -> AgentId).

Abbreviation DeferredId := nat.

Inductive CacheAccess :=
  | Cached (card : Card)
  | Join (deferred : DeferredId)
  | Lead (deferred : DeferredId).

(** [pending] is the [pendingResolutions] Ref and [cards] the bounded cache;
    [lookups] lists the leading lookups running, one per daemon fiber. *)
Record ResolverState := mkResolver {
  pending : gmap AgentId DeferredId;
  cards : list (AgentId * Card);
  lookups : list (AgentId * DeferredId);
  settled : gmap DeferredId (Exit AuthenticationError Card);
}.

Definition beginCardResolution (st : ResolverState) (id : AgentId)
    (candidate : DeferredId) : CacheAccess * ResolverState :=
  let '(found, cards') := get (cards st) id in
  match found with
  | Some card => (Cached card, mkResolver (pending st) cards' (lookups st) (settled st))
  | None =>
      match pending st !! id with
      | Some deferred =>
          (Join deferred, mkResolver (pending st) cards' (lookups st) (settled st))
      | None =>
          (Lead candidate,
           mkResolver (<[id := candidate]> (pending st)) cards'
             ((id, candidate) :: lookups st) (settled st))
      end
  end.

Inductive LookupResult := NotFound | FoundCard (card : Card) | ThrowsOnRead.

(** [resolveLookupAttempt]: [None] is a lookup that got no permit; the
    registry's answer is read under a try and must be a verified card of the
    requested agent. *)
Definition resolveLookupAttempt (isVerifiedAgentCard : Card -> bool)
    (attempted : option LookupResult) (id : AgentId) :
    Exit AuthenticationError Card :=
  match attempted with
  | None => Fail_ Overloaded
  | Some ThrowsOnRead => Fail_ AuthenticationFailed
  | Some NotFound => Fail_ AuthenticationFailed
  | Some (FoundCard card) =>
      if isVerifiedAgentCard card && bool_decide (cardAgentId card = id)
      then Succeed card else Fail_ AuthenticationFailed
  end.

(** [lookupCard]: a registry that fails, throws or dies is [Unavailable]. *)
Definition lookupCard (isVerifiedAgentCard : Card -> bool)
    (attempt : option (Exit unit LookupResult)) (id : AgentId) :
    Exit AuthenticationError Card :=
  match attempt with
  | Some (Fail_ _) => Fail_ Unavailable
  | Some (Succeed r) => resolveLookupAttempt isVerifiedAgentCard (Some r) id
  | None => resolveLookupAttempt isVerifiedAgentCard None id
  end.

(** The end of [runLeadingResolution]: a resolved card is retained, the
    pending entry leaves, and the deferred settles with the exit. *)
Definition runLeadingResolution (cacheCapacity : nat) (st : ResolverState)
    (id : AgentId) (deferred : DeferredId) (exit : Exit AuthenticationError Card) :
    ResolverState :=
  let cards' := match exit with
                | Succeed card => set cacheCapacity (cards st) id card
                | Fail_ _ => cards st
                end in
  mkResolver (delete id (pending st)) cards'
    (filter (fun l => l <> (id, deferred)) (lookups st))
    (<[deferred := exit]> (settled st)).

(** Interleavings of callers and finishing lookups; a candidate deferred is
    fresh, since each call makes its own. *)
Inductive step (cacheCapacity : nat) (isVerified : Card -> bool) :
    ResolverState -> ResolverState -> Prop :=
  | step_begin st id candidate :
      (forall l, l ∈ lookups st -> l.2 <> candidate) ->
      settled st !! candidate = None ->
      step cacheCapacity isVerified st (beginCardResolution st id candidate).2
  | step_settle st id deferred attempt :
      (id, deferred) ∈ lookups st ->
      step cacheCapacity isVerified st
        (runLeadingResolution cacheCapacity st id deferred
           (lookupCard isVerified attempt id)).

Record resolver_ok (cap : nat) (isVerified : Card -> bool) (st : ResolverState) : Prop := {
  r_pending : forall id d, pending st !! id = Some d <-> (id, d) ∈ lookups st;
  r_nodup : NoDup (lookups st).*1;
  r_cards : cache_ok cap (cards st);
  r_verified : forall id card, (id, card) ∈ cards st ->
    isVerified card = true /\ cardAgentId card = id;
}.

Lemma lookupCard_verified isVerified attempt id card :
  lookupCard isVerified attempt id = Succeed card ->
  isVerified card = true /\ cardAgentId card = id.
Proof.
  unfold lookupCard, resolveLookupAttempt.
  destruct attempt as [[[|c|]|]|]; try done.
  destruct (isVerified c) eqn:Hv; simpl; [|done]. case_bool_decide; [|done].
  intros [= <-]. done.
Qed.

Lemma get_elems (c : list (AgentId * Card)) id x : jm_wf c ->
  x ∈ (get c id).2 -> x ∈ c.
Proof.
  intros Hwf. unfold get. destruct (jm_get c id) as [v|] eqn:Hg; [|done]. simpl.
  rewrite touch_snoc by done. rewrite jm_delete_filter by done.
  rewrite elem_of_app, list_elem_of_filter, list_elem_of_singleton.
  intros [[_ ?]| ->]; [done|]. by apply jm_get_some_elem.
Qed.

Lemma set_elems cap (c : list (AgentId * Card)) id v x : jm_wf c ->
  x ∈ set cap c id v -> x = (id, v) \/ x ∈ c.
Proof.
  intros Hwf. rewrite set_spec by done. cbv zeta. intros Hx.
  assert (x ∈ jm_delete c id ++ [(id, v)]) as Hx'.
  { case_decide; [|done]. destruct (jm_delete c id ++ [(id, v)]); [done|]. by right. }
  rewrite jm_delete_filter in Hx' by done. revert Hx'.
  rewrite elem_of_app, list_elem_of_filter, list_elem_of_singleton. tauto.
Qed.

Lemma resolver_step_ok cap isVerified st st' :
  step cap isVerified st st' -> resolver_ok cap isVerified st ->
  resolver_ok cap isVerified st'.
Proof.
  destruct 1 as [st id cand Hfresh _|st id d attempt Hin]; intros [Hp Hnd Hc Hv].
  - unfold beginCardResolution.
    assert (Hc' : cache_ok cap (get (cards st) id).2) by exact (op_ok cap _ (OpGet id) Hc).
    assert (Hv' : forall i c, (i, c) ∈ (get (cards st) id).2 ->
      isVerified c = true /\ cardAgentId c = i).
    { intros i c Hi. apply Hv. by eapply get_elems; [apply Hc|]. }
    destruct (get (cards st) id) as [[c|] cs]; simpl in *; [done|].
    destruct (pending st !! id) as [d|] eqn:Hpend; [done|]. split; simpl; try done.
    + intros i d'. rewrite lookup_insert_Some, Hp, elem_of_cons. split.
      * intros [[-> ->]|[_ ?]]; auto.
      * intros [[= -> ->]|Hi]; [auto|]. right. split; [|done]. intros ->.
        apply Hp in Hi. congruence.
    + constructor; [|done]. intros ([i d'] & -> & Hi)%list_elem_of_fmap.
      apply Hp in Hi. simpl in *. congruence.
  - unfold runLeadingResolution. split; simpl.
    + intros i d'. rewrite lookup_delete_Some, Hp, list_elem_of_filter. split.
      * intros [Hne Hi]. split; [|done]. congruence.
      * intros [Hne Hi]. split; [|done]. intros ->. apply Hne.
        apply Hp in Hi. apply Hp in Hin. congruence.
    + revert Hnd. clear. induction (lookups st) as [|l ls IH]; simpl; [done|].
      intros [Hni Hnd]%NoDup_cons. rewrite filter_cons. case_decide; [|auto].
      simpl. constructor; [|auto].
      intros (x & Hx & [_ Hx']%list_elem_of_filter)%list_elem_of_fmap.
      apply Hni, list_elem_of_fmap. eauto.
    + destruct (lookupCard isVerified attempt id) as [c|]; [|done].
      exact (op_ok cap _ (OpSet id c) Hc).
    + intros i c. destruct (lookupCard isVerified attempt id) as [c'|] eqn:Hl; [|apply Hv].
      intros [[= -> ->]|?]%set_elems; [|by apply Hv|apply Hc].
      by eapply lookupCard_verified.
Qed.

Lemma resolver_initial_ok cap isVerified : resolver_ok cap isVerified (mkResolver ∅ [] [] ∅).
Proof.
  split; simpl.
  - intros. rewrite lookup_empty. set_solver.
  - constructor.
  - split; [apply jm_wf_nil|simpl; lia].
  - set_solver.
Qed.

Lemma resolver_reachable_ok cap isVerified st :
  rtc (step cap isVerified) (mkResolver ∅ [] [] ∅) st -> resolver_ok cap isVerified st.
Proof.
  intros Hr. cut (forall s s', rtc (step cap isVerified) s s' ->
    resolver_ok cap isVerified s -> resolver_ok cap isVerified s').
  - intros H. eapply H; eauto using resolver_initial_ok.
  - induction 1; eauto using resolver_step_ok.
Qed.

End resolver.

(** in every interleaving, at most one registry lookup runs per agent
    (later callers join it), and the cache holds, within its capacity, only
    cards this package verified, each under its own agent. *)
Theorem resolver_single_flight {Card} (cardAgentId : Card -> AgentId) cap isVerified st :
  rtc (step cardAgentId cap isVerified) (mkResolver ∅ [] [] ∅) st ->
  NoDup (lookups st).*1 /\ (size (cards st) <= cap)%nat /\
  (forall id card, (id, card) ∈ cards st ->
     isVerified card = true /\ cardAgentId card = id) /\
  (forall id candidate d, (id, d) ∈ lookups st -> (get (cards st) id).1 = None ->
     (beginCardResolution st id candidate).1 = Join d).
Proof.
  intros [Hp Hnd [Hwf Hl] Hv]%resolver_reachable_ok. split_and!; [done|done|done|].
  intros id cand d Hd Hget. unfold beginCardResolution.
  destruct (get (cards st) id) as [f cs]; simpl in *. subst.
  apply Hp in Hd. by rewrite Hd.
Qed.

(** ** [verifyRequest]: the order of the checks *)

Section verify.
Context {Card Body Signature : Type}.
Context (decodeBody : string -> option (AgentId * Body)).
Context (verifySignature : Card -> string -> Exit AuthenticationError NonceClaimInput).

Record VerifiedAgentRequest := mkVerified {
  callerAgentId : AgentId;
  agentCard : Card;
  request : Body;
}.

(** The body names the caller, whose resolved card verifies the signature;
    only a verified signature claims its nonce, and the version is checked
    last.  [resolved] is the card resolution's exit for that caller, and
    [live] whether the version header is present and accepted. *)
Definition verifyRequest (nonces : list (string * Z)) (bodyBytes : string)
    (resolveCard : AgentId -> Exit AuthenticationError Card) (live : bool) :
    Exit AuthenticationError VerifiedAgentRequest * list (string * Z) :=
  match decodeBody bodyBytes with
  | None => (Fail_ MalformedRequest, nonces)
  | Some (caller, req) =>
      match resolveCard caller with
      | Fail_ e => (Fail_ e, nonces)
      | Succeed card =>
          match verifySignature card bodyBytes with
          | Fail_ e => (Fail_ e, nonces)
          | Succeed claim =>
              let '(c, nonces') := updateNonces nonces claim in
              match c with
              | Replayed => (Fail_ AuthenticationFailed, nonces')
              | Full => (Fail_ Overloaded, nonces')
              | Claimed =>
                  if live then (Succeed (mkVerified caller card req), nonces')
                  else (Fail_ VersionMismatched, nonces')
              end
          end
      end
  end.

(** a request is accepted only with a body naming its caller, that
    caller's card, a signature that card verifies and a nonce not live; and
    an unverified signature never touches the nonce store. *)
Theorem verifyRequest_sound nonces bytes resolveCard live :
  let '(r, nonces') := verifyRequest nonces bytes resolveCard live in
  match r with
  | Succeed v =>
      live = true /\ decodeBody bytes = Some (callerAgentId v, request v) /\
      resolveCard (callerAgentId v) = Succeed (agentCard v) /\
      exists claim, verifySignature (agentCard v) bytes = Succeed claim /\
        (updateNonces nonces claim).1 = Claimed /\ nonces' = (updateNonces nonces claim).2
  | Fail_ _ =>
      nonces' = nonces \/
      exists caller req card claim,
        decodeBody bytes = Some (caller, req) /\
        resolveCard caller = Succeed card /\
        verifySignature card bytes = Succeed claim /\
        nonces' = (updateNonces nonces claim).2
  end.
Proof.
  unfold verifyRequest. destruct (decodeBody bytes) as [[caller req]|]; [|auto].
  destruct (resolveCard caller) as [card|e] eqn:Hc; [|auto].
  destruct (verifySignature card bytes) as [claim|e] eqn:Hs; [|auto].
  destruct (updateNonces nonces claim) as [c n] eqn:Hu. destruct c.
  - destruct live; simpl.
    + split_and!; try done. exists claim. by rewrite Hu.
    + right. exists caller, req, card, claim. by rewrite Hu.
  - right. exists caller, req, card, claim. by rewrite Hu.
  - right. exists caller, req, card, claim. by rewrite Hu.
Qed.
End verify.

(** *** Witnesses *)
Definition claimA : NonceClaimInput := mkClaim 4 "n1" 100 50.
Definition claimB : NonceClaimInput := mkClaim 4 "n1" 300 101.

Lemma nonce_no_replay_witness :
  expires claimA < now claimB /\
  (updateNonces (claims [] [claimA]).2 (mkClaim 4 "n1" 300 100)).1 = Replayed.
Proof.
  split; [|vm_compute; reflexivity].
  destruct (nonce_no_replay [] [mkClaim 4 "n2" 100 60] claimA claimB) as [_ H];
    [reflexivity|vm_compute; reflexivity|vm_compute; reflexivity|apply H].
  repeat constructor. vm_compute. discriminate.
Defined.

(** A request verified while its nonce is live claims it a second time, when
    another request, which read the clock after the validity ended, claimed its
    own nonce first. *)
Example nonce_replayed_after_purge :
  let late := mkClaim 4 "n2" 300 101 in
  let replay := mkClaim 4 "n1" 100 100 in
  (claims [] [claimA; late; replay]).1 = [Claimed; Claimed; Claimed].
Proof. vm_compute. reflexivity. Qed.

Lemma resolver_single_flight_witness :
  let st := (beginCardResolution (mkResolver (Card := string) ∅ [] [] ∅) "agt_a" 0%nat).2 in
  NoDup (lookups st).*1 /\ (beginCardResolution st "agt_a" 1%nat).1 = Join 0%nat.
Proof.
  intros st. split; [|vm_compute; reflexivity].
  apply (resolver_single_flight (fun c => c) 2 (fun _ => true) st).
  eapply rtc_once, step_begin; [intros l Hl; inversion Hl|reflexivity].
Defined.

End AuthenticatedHttp.
