(* ===== verification/PollCursor.v ===== *)
(** PollCursor: the caller-bound poll continuation
    (packages/router/src/router/poll-cursor.ts and the cursor shape of
    contract.ts).

    The cursor seals an order, its caller and the Router instance under a
    process-local key.  Sealing and the JSON text of the plaintext belong to
    the [jose] and [canonicalize] packages and the Effect Schema parser; they
    are [CursorPrimitives].  Each sealing draws a fresh nonce, an argument.
    [PollCursorCodec] is what polling relies on. *)
From S2P Require Import Prelude JsString Identifiers RouterFeed.
From Stdlib Require Import Ascii.
From stdpp Require Import pretty.
Import Identifiers.
Local Open Scope string_scope.

(** The codec interface between cursor and poll. *)
Class PollCursorCodec := {
  cursor_encrypt : nat -> string -> Z -> option string;
  cursor_decrypt : string -> string -> option Z;
}.

(** What polling relies on: a cursor returns its order to its own caller,
    and to nobody else. *)
Class PollCursorLaws (C : PollCursorCodec) : Prop := {
  cursor_roundtrip : forall nonce caller order cursor,
    cursor_encrypt nonce caller order = Some cursor ->
    cursor_decrypt cursor caller = Some order;
  cursor_bound : forall nonce caller other order cursor o,
    cursor_encrypt nonce caller order = Some cursor ->
    cursor_decrypt cursor other = Some o -> other = caller;
  cursor_range : forall nonce caller order cursor,
    cursor_encrypt nonce caller order = Some cursor ->
    (0 <= order <= Feed.maximumPrivateOrder)%Z;
}.

Module PollCursor.

Definition pollCursorPrefix : string := "plc_".

Record CursorPlaintext := mkPlaintext {
  agentId : string;
  routerInstanceId : string;
  lastScannedOrder : string;
}.

(** Third-party operations on the plaintext and its seal. *)
Class CursorPrimitives := {
  (** [canonicalize] of the plaintext object. *)
  canonicalize : CursorPlaintext -> option string;
  (** [JSON.parse] and the exact struct with its two identifier fields. *)
  parseStruct : string -> option CursorPlaintext;
  (** [CompactEncrypt] under the process key, its nonce drawn first, and
      [compactDecrypt]. *)
  compactEncrypt : nat -> string -> option string;
  compactDecrypt : string -> option string;
  (** The fatal UTF-8 decoder. *)
  utf8Decode : string -> option string;
  (** The encoded protected header every cursor starts with. *)
  encodedPollCursorProtectedHeader : string;
}.

Class CursorPrimitivesLaws (P : CursorPrimitives) : Prop := {
  parse_canonicalize : forall v text,
    canonicalize v = Some text -> parseStruct text = Some v;
  decrypt_encrypt : forall nonce text compact,
    compactEncrypt nonce text = Some compact -> compactDecrypt compact = Some text;
  header_first : forall nonce text compact,
    compactEncrypt nonce text = Some compact ->
    head (split_on "." compact) = Some encodedPollCursorProtectedHeader;
  utf8_canonical : forall v text, canonicalize v = Some text -> utf8Decode text = Some text;
}.

(** *** Order text *)

Definition isDigit (c : ascii) : bool := bool_decide (48 <= code c <= 57)%Z.

(** [BigInt(text)] of a digit string, from an accumulated prefix. *)
Fixpoint bigInt (acc : N) (s : string) : N :=
  match s with
  | EmptyString => acc
  | String c s' => bigInt (10 * acc + Z.to_N (code c - 48)) s'
  end.

(** A canonical unsigned decimal: [0], or digits that start with [1-9]. *)
Definition decimalPattern (s : string) : bool :=
  match s with
  | EmptyString => false
  | String c s' =>
      if Ascii.eqb c "0" then bool_decide (s' = EmptyString)
      else isDigit c && string_all isDigit s'
  end.

Definition orderText (value : string) : bool :=
  decimalPattern value &&
  bool_decide (Z.of_N (bigInt 0 value) <= Feed.maximumPrivateOrder)%Z.

(** [order.toString(10)] of a non-negative order. *)
Definition toString10 (order : Z) : string := pretty (Z.to_N order).

(** *** Cursor shape (contract.ts) *)

Section shape.
Context `{Base64Url, CursorPrimitives}.
Context (MAXIMUM_CURSOR_LENGTH : nat).

Record CursorSegments := mkSegments {
  encodedHeader : string;
  encryptedKey : string;
  iv : string;
  ciphertext : string;
  tag : string;
}.

(** The pattern: bounded length, the prefix, then five dot-free segments. *)
Definition extractCursorSegments (value : string) : option CursorSegments :=
  if bool_decide (String.length value <= MAXIMUM_CURSOR_LENGTH) &&
     startsWith pollCursorPrefix value
  then match split_on "." (slice (String.length pollCursorPrefix) value) with
       | [h; k; i; c; t] => Some (mkSegments h k i c t)
       | _ => None
       end
  else None.

Definition hasCanonicalCiphertext (text : string) : bool :=
  match decodeBase64Url text with
  | None => false
  | Some decoded =>
      bool_decide (0 < String.length decoded) &&
      bool_decide (encodeBase64Url decoded = text)
  end.

Definition hasCanonicalCursorShape (value : string) : bool :=
  match extractCursorSegments value with
  | None => false
  | Some segments =>
      if negb (bool_decide (encryptedKey segments = "")) then false
      else if negb (bool_decide (encodedHeader segments = encodedPollCursorProtectedHeader))
              || negb (hasCanonicalBase64UrlLength (iv segments) 12)
      then false
      else hasCanonicalBase64UrlLength (tag segments) 16 &&
           hasCanonicalCiphertext (ciphertext segments)
  end.

(** *** The codec *)

Definition canonicalPlaintext (agent instance : string) (order : Z) : option string :=
  canonicalize (mkPlaintext agent instance (toString10 order)).

Definition encodePollCursor (instance : string) (nonce : nat) (agent : string)
    (order : Z) : option string :=
  if decide (order < 0 \/ Feed.maximumPrivateOrder < order)%Z then None
  else
    plaintext ← canonicalPlaintext agent instance order;
    compact ← compactEncrypt nonce plaintext;
    let cursor := String.append pollCursorPrefix compact in
    if hasCanonicalCursorShape cursor then Some cursor else None.

Definition plaintextIsCurrent (canonical text agent caller instance current : string) :
    bool :=
  if negb (bool_decide (canonical = text)) then false
  else bool_decide (agent = caller) && bool_decide (instance = current).

(** [Schema.parseJson(cursorPlaintext)]: the exact struct, whose order field
    must satisfy [orderText]. *)
Definition decodeCursorPlaintext (text : string) : option CursorPlaintext :=
  value ← parseStruct text;
  if orderText (lastScannedOrder value) then Some value else None.

Definition decodePollCursor (instance cursor caller : string) : option Z :=
  let compact := slice (String.length pollCursorPrefix) cursor in
  if negb (bool_decide
       (head (split_on "." compact) = Some encodedPollCursorProtectedHeader))
  then None
  else
    plaintext ← compactDecrypt compact;
    text ← utf8Decode plaintext;
    value ← decodeCursorPlaintext text;
    canonical ← canonicalize value;
    if plaintextIsCurrent canonical text (agentId value) caller
         (routerInstanceId value) instance
    then Some (Z.of_N (bigInt 0 (lastScannedOrder value)))
    else None.

(** [makePollCursorCodec]. *)
Definition makePollCursorCodec (instance : string) : PollCursorCodec := {|
  cursor_encrypt := encodePollCursor instance;
  cursor_decrypt := decodePollCursor instance;
|}.

End shape.

(** ** Facts *)

Lemma digit_char d : (d < 10)%N ->
  isDigit (pretty_N_char d) = true /\ Z.to_N (code (pretty_N_char d) - 48) = d /\
  (d <> 0%N -> Ascii.eqb (pretty_N_char d) "0" = false).
Proof.
  intros Hd. assert (d ∈ [0; 1; 2; 3; 4; 5; 6; 7; 8; 9]%N) as Hin by set_solver by lia.
  repeat (apply elem_of_cons in Hin as [->|Hin]; [done|]). by apply elem_of_nil in Hin.
Qed.

Lemma bigInt_go x s : bigInt 0 (pretty_N_go x s) = bigInt x s.
Proof.
  revert s. induction (N.lt_wf_0 x) as [x _ IH]; intros s.
  destruct (decide (x = 0)%N) as [->|Hx]; [done|].
  rewrite pretty_N_go_step by lia. rewrite IH by (apply N.div_lt; lia). simpl.
  destruct (digit_char (x `mod` 10)) as (_ & -> & _); [by apply N.mod_lt|].
  f_equal. rewrite (N.div_mod x 10) at 3 by lia. done.
Qed.

Lemma pattern_go x s : (0 < x)%N -> string_all isDigit s = true ->
  exists c t, pretty_N_go x s = String c t /\ isDigit c = true /\
    Ascii.eqb c "0" = false /\ string_all isDigit t = true.
Proof.
  revert s. induction (N.lt_wf_0 x) as [x _ IH]; intros s Hx Hs.
  rewrite pretty_N_go_step by done.
  assert (Hm : (x `mod` 10 < 10)%N) by (by apply N.mod_lt).
  destruct (digit_char (x `mod` 10) Hm) as (Hd & _ & Hz).
  destruct (decide (x / 10 = 0)%N) as [H0|H0].
  - rewrite H0, pretty_N_go_0. do 2 eexists. split_and!; [done|done| |done].
    apply Hz. pose proof (N.div_mod x 10). lia.
  - apply IH; [apply N.div_lt; lia|by apply N.neq_0_lt_0|]. simpl. by rewrite Hd, Hs.
Qed.

(** Decimal text reads back, and satisfies the order pattern. *)
Lemma toString10_roundtrip order : (0 <= order <= Feed.maximumPrivateOrder)%Z ->
  Z.of_N (bigInt 0 (toString10 order)) = order /\ orderText (toString10 order) = true.
Proof.
  intros Ho. assert (Hb : Z.of_N (bigInt 0 (toString10 order)) = order).
  { unfold toString10, pretty, pretty_N. case_decide as Hz; simpl; [lia|].
    rewrite bigInt_go. simpl. lia. }
  split; [done|]. unfold orderText. rewrite Hb, bool_decide_true by lia.
  rewrite andb_true_r. unfold toString10, pretty, pretty_N. case_decide as Hz; [done|].
  destruct (pattern_go (Z.to_N order) "") as (c & t & -> & Hd & Hc & Ht); [lia|done|].
  simpl. by rewrite Hc, Hd, Ht.
Qed.

Section laws.
Context `{Base64Url, P : CursorPrimitives, !CursorPrimitivesLaws P}.
Context (maxlen : nat) (instance : string).

Lemma encode_inv nonce agent order cursor :
  encodePollCursor maxlen instance nonce agent order = Some cursor ->
  (0 <= order <= Feed.maximumPrivateOrder)%Z /\
  hasCanonicalCursorShape maxlen cursor = true /\
  exists text compact,
    canonicalize (mkPlaintext agent instance (toString10 order)) = Some text /\
    compactEncrypt nonce text = Some compact /\
    cursor = String.append pollCursorPrefix compact.
Proof.
  unfold encodePollCursor, canonicalPlaintext. case_decide; [done|].
  intros (text & Ht & (compact & Hc & Hs)%bind_Some)%bind_Some. cbv zeta in Hs.
  destruct (hasCanonicalCursorShape _ _) eqn:Hshape; simplify_eq.
  split; [lia|]. eauto 6.
Qed.

(** Decoding a fresh cursor: everything but the caller check succeeds. *)
Lemma decode_encode nonce agent order cursor caller :
  encodePollCursor maxlen instance nonce agent order = Some cursor ->
  decodePollCursor instance cursor caller =
    if decide (agent = caller) then Some order else None.
Proof.
  intros (Ho & _ & text & compact & Ht & Hc & ->)%encode_inv.
  unfold decodePollCursor. cbv zeta.
  change (String.append pollCursorPrefix compact) with
    (String.append pollCursorPrefix compact). rewrite slice_append.
  rewrite (header_first _ _ _ Hc), bool_decide_true by done. simpl.
  rewrite (decrypt_encrypt _ _ _ Hc). simpl.
  rewrite (utf8_canonical _ _ Ht). simpl. unfold decodeCursorPlaintext.
  rewrite (parse_canonicalize _ _ Ht). simpl.
  destruct (toString10_roundtrip _ Ho) as [Hb ->]. simpl.
  rewrite Ht. simpl. unfold plaintextIsCurrent.
  rewrite (bool_decide_true (text = text)), (bool_decide_true (instance = instance)) by done.
  simpl. rewrite andb_true_r, Hb.
  case_bool_decide; by case_decide.
Qed.

(** The codec keeps its interface's promises. *)
Global Instance pollCursorCodec_laws :
  PollCursorLaws (makePollCursorCodec maxlen instance).
Proof.
  split; simpl.
  - intros nonce caller order cursor H'. rewrite (decode_encode _ _ _ _ _ H').
    by rewrite decide_True.
  - intros nonce caller other order cursor o H'. rewrite (decode_encode _ _ _ _ _ H').
    by case_decide.
  - intros nonce caller order cursor H'. by destruct (encode_inv _ _ _ _ H').
Qed.

(** C36: a poll cursor is bound to its caller and to its Router instance: any
    cursor that decodes names this caller and this instance in its sealed
    canonical plaintext, at an order in the 128-bit range; and a cursor this
    codec issued decodes to its order for its own caller alone. *)
Theorem cursor_bound_and_roundtrip cursor caller order :
  (decodePollCursor instance cursor caller = Some order ->
   (0 <= order <= Feed.maximumPrivateOrder)%Z /\
   exists text decimal,
     compactDecrypt (slice (String.length pollCursorPrefix) cursor) ≫= utf8Decode = Some text /\
     canonicalize (mkPlaintext caller instance decimal) = Some text /\
     orderText decimal = true /\ Z.of_N (bigInt 0 decimal) = order) /\
  (forall nonce agent o, encodePollCursor maxlen instance nonce agent o = Some cursor ->
     decodePollCursor instance cursor caller =
       if decide (agent = caller) then Some o else None).
Proof.
  split; [|intros; by eapply decode_encode].
  unfold decodePollCursor. cbv zeta. destruct (negb _); [done|].
  intros (plain & Hp & (text & Hu & (v & Hv & (canon & Hc & Hcur)%bind_Some)%bind_Some)
    %bind_Some)%bind_Some.
  unfold decodeCursorPlaintext in Hv. apply bind_Some in Hv as (v' & _ & Hv).
  destruct (orderText (lastScannedOrder v')) eqn:Hot; simplify_eq.
  unfold plaintextIsCurrent in Hcur.
  destruct (negb _) eqn:Hneg; [done|]. apply negb_false_iff, bool_decide_eq_true in Hneg.
  destruct (_ && _) eqn:Hids; [|done].
  apply andb_prop in Hids as [Ha%bool_decide_eq_true Hi%bool_decide_eq_true].
  injection Hcur as Hord. apply andb_prop in Hot as Hot'. destruct Hot' as [_ Hr%bool_decide_eq_true].
  split; [lia|]. exists text, (lastScannedOrder v).
  rewrite Hp. simpl. rewrite Hu. split_and!; [done| |done|done].
  rewrite <- Hneg, <- Hc, <- Ha, <- Hi. by destruct v.
Qed.
End laws.

(** *** A concrete codec for the witnesses: the identity base64url, fields
    joined by commas, and five-segment compact text in the clear. *)
Module Concrete.
#[local] Instance b64 : Base64Url := {|
  encodeBase64Url := fun bytes => bytes;
  decodeBase64Url := fun text => Some text;
|}.

Definition fields (v : CursorPlaintext) : list string :=
  [agentId v; routerInstanceId v; lastScannedOrder v].

Definition fieldsText (v : CursorPlaintext) : option string :=
  if forallb (no_sep ",") (fields v) then Some (join_with "," (fields v)) else None.

Definition textFields (text : string) : option CursorPlaintext :=
  match split_on "," text with
  | [a; i; o] => Some (mkPlaintext a i o)
  | _ => None
  end.

Definition seal (nonce : nat) (text : string) : option string :=
  if no_sep "." text
  then Some (join_with "." ["hdr"; EmptyString; "iviviviviviv"; text; "tagtagtagtagtagt"])
  else None.

Definition unseal (compact : string) : option string := split_on "." compact !! 3.

#[local] Instance primitives : CursorPrimitives := {|
  canonicalize := fieldsText;
  parseStruct := textFields;
  compactEncrypt := seal;
  compactDecrypt := unseal;
  utf8Decode := Some;
  encodedPollCursorProtectedHeader := "hdr";
|}.

Lemma seal_split nonce text compact : seal nonce text = Some compact ->
  split_on "." compact = ["hdr"; EmptyString; "iviviviviviv"; text; "tagtagtagtagtagt"].
Proof.
  unfold seal. destruct (no_sep "." text) eqn:Hn; [|done]. intros Heq%(inj Some). rewrite <- Heq.
  apply split_join; [done|]. repeat constructor; done.
Qed.

#[local] Instance primitives_laws : CursorPrimitivesLaws primitives.
Proof.
  split; simpl.
  - intros v text. unfold fieldsText, textFields.
    destruct (forallb _ _) eqn:Hf; [|done]. intros Heq%(inj Some). rewrite <- Heq.
    rewrite split_join; [by destruct v|done|].
    apply Forall_forall. intros x Hx%list_elem_of_In.
    rewrite forallb_forall in Hf. by apply Hf.
  - intros nonce text compact Hs%seal_split. unfold unseal. by rewrite Hs.
  - intros nonce text compact Hs%seal_split. by rewrite Hs.
  - done.
Qed.
End Concrete.

Definition cursor90 : string :=
  "plc_hdr..iviviviviviv.agt_a,rti_1,90.tagtagtagtagtagt".

Lemma cursor_bound_and_roundtrip_witness :
  @decodePollCursor Concrete.primitives "rti_1" cursor90 "agt_a" = Some 90%Z /\
  @decodePollCursor Concrete.primitives "rti_1" cursor90 "agt_b" = None.
Proof.
  split.
  - apply (proj2 (@cursor_bound_and_roundtrip Concrete.b64 Concrete.primitives
      Concrete.primitives_laws 200 "rti_1" cursor90 "agt_a" 90%Z) 0 "agt_a" 90%Z).
    vm_compute. reflexivity.
  - vm_compute. reflexivity.
Defined.

End PollCursor.
