(* ===== verification/RouterPoll.v ===== *)
(** RouterPoll: polling the volatile feed with a caller-held cursor
    (packages/router/src/router/poll.ts).

    A poll reads one feed snapshot, and, when it has to hold at the tail,
    a second one after the hold; both are arguments, so every interleaving of
    the hold with sends is covered.  Each cursor is sealed under a fresh
    nonce, counted by the [nat] the definitions thread. *)
From S2P Require Import Prelude JsString Identifiers RouterFeed PollCursor PollWaiters.
Import Feed PollWaiters.
Local Open Scope Z_scope.

Module Poll.

Inductive PollFailure := OverloadedFailure | InternalServerFailure.

Section poll.
Context {M : Type} {C : PollCursorCodec}.
Abbreviation AgentId := string.
Abbreviation Entry := (FeedEntry M).

Inductive RouterPollResult :=
  | Batch (routerInstanceId : string) (signedMessages : list M) (pollCursor : string)
  | FeedGap (routerInstanceId : string)
  | CursorInvalid.

(** [Schema.encode], [canonicalize] and the UTF-8 length of a result. *)
Context (resultBytes : RouterPollResult -> option Z).

Record PollDependencies := mkPoll {
  p_routerInstanceId : string;
  pollMessageLimit : Z;
  pollResponseByteLimit : Z;
}.

Record ScanState := mkScan { selected : list M; lastScannedOrder : Z }.

Record ScanResult := mkScanResult {
  result : RouterPollResult;
  reachedTail : bool;
  sr_lastScannedOrder : Z;
}.

Definition encodedResultLength (r : RouterPollResult) : Exit PollFailure Z :=
  match resultBytes r with
  | None => Fail_ InternalServerFailure
  | Some n => Succeed n
  end.

Definition addressedDataIsReady (snapshot : FeedSnapshot M) (caller : AgentId)
    (after : Z) : bool :=
  bool_decide (after < s_greatestEvictedOrder snapshot) ||
  existsb (fun e => bool_decide (caller ∈ recipients e)) (entriesAfter snapshot after).

Definition makeBatch (input : PollDependencies) (caller : AgentId)
    (signedMessages : list M) (last : Z) (nonce : nat) :
    Exit PollFailure (RouterPollResult * nat) :=
  match cursor_encrypt nonce caller last with
  | None => Fail_ InternalServerFailure
  | Some pollCursor =>
      Succeed (Batch (p_routerInstanceId input) signedMessages pollCursor, S nonce)
  end.

Definition scanEntry (input : PollDependencies) (caller : AgentId)
    (state : ScanState) (entry : Entry) (nonce : nat) :
    Exit PollFailure (option ScanState * nat) :=
  if decide (caller ∉ recipients entry)
  then Succeed (Some (mkScan (selected state) (order entry)), nonce)
  else if decide (pollMessageLimit input <= Z.of_nat (length (selected state)))
  then Succeed (None, nonce)
  else
    let selected' := selected state ++ [signedMessage entry] in
    '(batch, nonce') ← makeBatch input caller selected' (order entry) nonce;
    byteLength ← encodedResultLength batch;
    Succeed (if decide (byteLength <= pollResponseByteLimit input)
             then Some (mkScan selected' (order entry)) else None, nonce').

(** The [for] loop of [scan]. *)
Fixpoint scanEntries (input : PollDependencies) (caller : AgentId)
    (state : ScanState) (es : list Entry) (nonce : nat) :
    Exit PollFailure (ScanState * bool * nat) :=
  match es with
  | [] => Succeed (state, true, nonce)
  | entry :: rest =>
      '(next, nonce') ← scanEntry input caller state entry nonce;
      match next with
      | None => Succeed (state, false, nonce')
      | Some state' => scanEntries input caller state' rest nonce'
      end
  end.

Definition scan (input : PollDependencies) (snapshot : FeedSnapshot M)
    (caller : AgentId) (startOrder : Z) (nonce : nat) :
    Exit PollFailure (ScanResult * nat) :=
  '(state, tail, nonce') ←
    scanEntries input caller (mkScan [] startOrder) (entriesAfter snapshot startOrder) nonce;
  '(batch, nonce'') ←
    makeBatch input caller (selected state) (lastScannedOrder state) nonce';
  Succeed (mkScanResult batch tail (lastScannedOrder state), nonce'').

Definition feedGap (input : PollDependencies) : RouterPollResult :=
  FeedGap (p_routerInstanceId input).

(** The messages of a batch. *)
Definition batchMessages (r : RouterPollResult) : list M :=
  match r with Batch _ ms _ => ms | _ => [] end.

(** [holdAtTail] either has no waiter slot or ends, signalled or timed out;
    [held] is that outcome with the snapshot read after it. *)
Definition continueFromOrder (input : PollDependencies) (caller : AgentId)
    (startOrder : Z) (snapshot : FeedSnapshot M)
    (held : Exit HeldPollCapacityError (FeedSnapshot M)) (nonce : nat) :
    Exit PollFailure (RouterPollResult * nat) :=
  if decide (s_tailOrder snapshot < startOrder) then Succeed (CursorInvalid, nonce)
  else if decide (startOrder < s_greatestEvictedOrder snapshot)
  then Succeed (feedGap input, nonce)
  else
    '(first, nonce') ← scan input snapshot caller startOrder nonce;
    if decide (0 < Z.of_nat (length (batchMessages (result first))) \/
               reachedTail first = false)
    then Succeed (result first, nonce')
    else
      finalSnapshot ← map_error (fun _ => OverloadedFailure) held;
      if decide (sr_lastScannedOrder first < s_greatestEvictedOrder finalSnapshot)
      then Succeed (feedGap input, nonce')
      else
        '(second, nonce'') ←
          scan input finalSnapshot caller (sr_lastScannedOrder first) nonce';
        Succeed (result second, nonce'').

Definition continuePoll (input : PollDependencies) (caller : AgentId)
    (pollCursor : string) (snapshot : FeedSnapshot M)
    (held : Exit HeldPollCapacityError (FeedSnapshot M)) (nonce : nat) :
    Exit PollFailure (RouterPollResult * nat) :=
  match cursor_decrypt pollCursor caller with
  | None => Succeed (CursorInvalid, nonce)
  | Some start => continueFromOrder input caller start snapshot held nonce
  end.

Definition handlePoll (input : PollDependencies) (pollCursor : option string)
    (caller : AgentId) (snapshot : FeedSnapshot M)
    (held : Exit HeldPollCapacityError (FeedSnapshot M)) (nonce : nat) :
    Exit PollFailure (RouterPollResult * nat) :=
  match pollCursor with
  | Some cursor => continuePoll input caller cursor snapshot held nonce
  | None => makeBatch input caller [] (s_tailOrder snapshot) nonce
  end.

(** ** Facts *)

Context {L : PollCursorLaws C}.

(** The messages addressed to [caller] with [lo < order <= hi], in order. *)
Definition addressedBetween (caller : AgentId) (lo hi : Z) (es : list Entry) : list M :=
  signedMessage <$>
    filter (fun e => lo < order e <= hi /\ caller ∈ recipients e) es.

Lemma scanEntry_inv input caller st e n st' n' :
  scanEntry input caller st e n = Succeed (Some st', n') ->
  lastScannedOrder st' = order e /\
  selected st' = selected st ++ addressedBetween caller (order e - 1) (order e) [e] /\
  (caller ∈ recipients e ->
   Z.of_nat (length (selected st)) < pollMessageLimit input /\
   exists nonce cursor, cursor_encrypt nonce caller (order e) = Some cursor /\
     exists bytes, resultBytes (Batch (p_routerInstanceId input) (selected st') cursor)
                   = Some bytes /\ bytes <= pollResponseByteLimit input).
Proof.
  unfold scanEntry, addressedBetween, makeBatch, encodedResultLength.
  rewrite filter_cons, filter_nil.
  destruct (decide (caller ∉ recipients e)) as [Hni|Hin].
  - intros [= <- <-]. rewrite decide_False by tauto. simpl. by rewrite app_nil_r.
  - apply dec_stable in Hin. case_decide; [done|].
    destruct (cursor_encrypt _ _ _) as [cur|] eqn:Hc; simpl; [|done].
    destruct (resultBytes _) as [b|] eqn:Hb; simpl; [|done].
    case_decide; [|done]. intros [= <- <-]. rewrite decide_True by (split; [lia|done]).
    simpl. split_and!; [done|done|]. intros _. split; [lia|]. eauto 7.
Qed.

(** A scan processes a prefix of the entries: everything addressed in it is
    selected, nothing is skipped. *)
Lemma scanEntries_inv input caller st es n st' tail n' :
  scanEntries input caller st es n = Succeed (st', tail, n') ->
  exists pre post, es = pre ++ post /\
    selected st' = selected st ++
      (signedMessage <$> filter (fun e => caller ∈ recipients e) pre) /\
    lastScannedOrder st' = default (lastScannedOrder st) (order <$> last pre) /\
    (tail = true -> post = []) /\
    (length (selected st') = length (selected st) \/
     Z.of_nat (length (selected st')) <= pollMessageLimit input /\
     exists e nonce cursor bytes, e ∈ pre /\
       cursor_encrypt nonce caller (order e) = Some cursor /\
       resultBytes (Batch (p_routerInstanceId input) (selected st') cursor) = Some bytes /\
       bytes <= pollResponseByteLimit input).
Proof.
  revert st n. induction es as [|e es IH]; intros st n; simpl.
  - intros [= <- <- <-]. exists [], []. simpl. by rewrite app_nil_r; auto 7.
  - rewrite bind_succeed. intros ([[st1|] n1] & He & Hrest).
    + apply scanEntry_inv in He as (Hl & Hs & Hb).
      destruct (IH _ _ Hrest) as (pre & post & -> & Hsel & Hlast & Htail & Hbd).
      exists (e :: pre), post. split_and!; [done| | |done|].
      * rewrite Hsel, Hs, <- app_assoc. f_equal.
        unfold addressedBetween. rewrite !filter_cons, filter_nil.
        destruct (decide (caller ∈ recipients e)).
        -- by rewrite decide_True by (split; [lia|done]).
        -- by rewrite decide_False by tauto.
      * rewrite Hlast, Hl, last_cons. by destruct (last pre).
      * destruct Hbd as [Heq|(? & e' & nn & cur & b & ? & ?)];
          [|right; split; [done|]; exists e', nn, cur, b; split; [by right|done]].
        destruct (decide (caller ∈ recipients e)) as [Hin|Hni].
        -- right. destruct (Hb Hin) as (Hlt & nn & cur & Hc & b & Hb' & Hle).
           assert (Heqs : selected st' = selected st1).
           { rewrite Hsel in Heq. rewrite length_app in Heq.
             rewrite Hsel. destruct (signedMessage <$> _); simpl in Heq; [|lia].
             by rewrite app_nil_r. }
           rewrite Heqs. split.
           ++ rewrite Hs, length_app. unfold addressedBetween.
              rewrite filter_cons, filter_nil, decide_True by (split; [lia|done]).
              simpl. lia.
           ++ exists e, nn, cur, b. split; [by left|done].
        -- left. rewrite Heq, Hs. unfold addressedBetween.
           rewrite filter_cons, filter_nil, decide_False by tauto. simpl.
           by rewrite app_nil_r.
    + injection Hrest as <- <- <-. exists [], (e :: es). simpl.
      rewrite app_nil_r. split_and!; [done..|by left].
Qed.

(** ** Scanning a feed that represents a log *)

(** In a contiguous log, a cut at [o] splits exactly at position [o - base]. *)
Lemma contiguous_split base (log : list Entry) o : contiguous base log ->
  base <= o <= base + Z.of_nat (length log) ->
  (forall e, e ∈ take (Z.to_nat (o - base)) log -> order e <= o) /\
  (forall e, e ∈ drop (Z.to_nat (o - base)) log -> o < order e).
Proof.
  intros Hc Ho. split; intros e [i Hi]%list_elem_of_lookup.
  - apply lookup_take_Some in Hi as [Hi Hlt]. specialize (Hc _ _ Hi). lia.
  - rewrite lookup_drop in Hi. specialize (Hc _ _ Hi). lia.
Qed.

Lemma addressedBetween_app caller lo mid hi base (log : list Entry) :
  contiguous base log -> base <= mid <= base + Z.of_nat (length log) ->
  lo <= mid -> mid <= hi ->
  addressedBetween caller lo mid log ++ addressedBetween caller mid hi log
  = addressedBetween caller lo hi log.
Proof.
  intros Hc Hm H1 H2. destruct (contiguous_split base log mid Hc Hm) as [Ht Hd].
  unfold addressedBetween. rewrite <- fmap_app. f_equal.
  rewrite <- (take_drop (Z.to_nat (mid - base)) log), !filter_app.
  rewrite (filter_none (fun e => lo < order e <= mid /\ _)) with
    (l := drop _ log) by (intros e He; specialize (Hd e He); lia).
  rewrite (filter_none (fun e => mid < order e <= hi /\ _)) with
    (l := take _ log) by (intros e He; specialize (Ht e He); lia).
  rewrite app_nil_r. simpl. f_equal; apply filter_iff; intros e He.
  - specialize (Ht e He). intuition lia.
  - specialize (Hd e He). intuition lia.
Qed.

Lemma addressedBetween_extend caller lo hi base (log more : list Entry) :
  contiguous base (log ++ more) -> hi <= base + Z.of_nat (length log) ->
  addressedBetween caller lo hi (log ++ more) = addressedBetween caller lo hi log.
Proof.
  intros Hc Hhi. unfold addressedBetween. rewrite filter_app, fmap_app.
  rewrite (filter_none _ more); [by rewrite app_nil_r|].
  intros e [i Hi]%list_elem_of_lookup.
  specialize (Hc (length log + i)%nat e).
  rewrite lookup_app_r in Hc by lia.
  replace (length log + i - length log)%nat with i in Hc by lia.
  specialize (Hc Hi). lia.
Qed.

Context (feedInput : RouterFeedInput) (base : Z).

(** A scan from a cursor that is not behind the feed selects exactly the
    addressed part of the log between the cursor and where it stopped. *)
Lemma scan_log input caller log st start n sr n' :
  represents feedInput base log st ->
  greatestEvictedOrder st <= start <= tailOrder st ->
  scan input (snapshot st) caller start n = Succeed (sr, n') ->
  exists nonce cursor,
    cursor_encrypt nonce caller (sr_lastScannedOrder sr) = Some cursor /\
    result sr = Batch (p_routerInstanceId input)
      (addressedBetween caller start (sr_lastScannedOrder sr) log) cursor /\
    start <= sr_lastScannedOrder sr <= tailOrder st /\
    (addressedBetween caller start (sr_lastScannedOrder sr) log = [] \/
     Z.of_nat (length (addressedBetween caller start (sr_lastScannedOrder sr) log))
       <= pollMessageLimit input /\
     exists o nonce' cursor' bytes, start < o <= sr_lastScannedOrder sr /\
       cursor_encrypt nonce' caller o = Some cursor' /\
       resultBytes (Batch (p_routerInstanceId input)
         (addressedBetween caller start (sr_lastScannedOrder sr) log) cursor') = Some bytes /\
       bytes <= pollResponseByteLimit input).
Proof.
  intros [Hok Hlog _ Htail (k & He & Hg & Hev)] Hstart. unfold scan.
  rewrite bind_succeed. intros ([[s t] n1] & Hs & Hb).
  apply bind_succeed in Hb as ([b n2] & Hb & [= <- _]). simpl.
  unfold makeBatch in Hb. destruct (cursor_encrypt _ _ _) as [cur|] eqn:Hc; [|done].
  injection Hb as <- _.
  apply scanEntries_inv in Hs as (pre & post & Hes & Hsel & Hlast & _ & Hbd).
  simpl in Hsel, Hlast, Hbd.
  (* the entries after [start] are the log after [start] *)
  assert (Hafter : entriesAfter (snapshot st) start = drop (Z.to_nat (start - base)) log).
  { destruct (contiguous_split base log start Hlog) as [Ht Hd]; [lia|].
    unfold entriesAfter. simpl. rewrite He.
    set (j := (Z.to_nat (start - base) - k)%nat).
    assert (Hj : Z.to_nat (start - base) = (k + j)%nat) by lia.
    rewrite Hj in Ht, Hd |- *. rewrite <- drop_drop in Hd |- *.
    rewrite <- (take_drop j (drop k log)) at 1.
    rewrite filter_app, filter_none, list_filter_id; [done| |].
    - apply Forall_forall. intros e Hin. by apply Hd.
    - intros e Hin. apply Zle_not_lt. apply Ht.
      apply list_elem_of_lookup in Hin as [i Hi].
      apply lookup_take_Some in Hi as [Hi Hlt]. rewrite lookup_drop in Hi.
      apply list_elem_of_lookup. exists (k + i)%nat.
      apply lookup_take_Some. split; [done|lia]. }
  rewrite Hafter in Hes.
  assert (Horder : forall i e, pre !! i = Some e -> order e = start + 1 + Z.of_nat i).
  { intros i e Hi. assert (Hi' : drop (Z.to_nat (start - base)) log !! i = Some e).
    { rewrite Hes. by apply lookup_app_l_Some. }
    rewrite lookup_drop in Hi'. specialize (Hlog _ _ Hi'). lia. }
  assert (Hlastv : lastScannedOrder s = start + Z.of_nat (length pre)).
  { rewrite Hlast, last_lookup. destruct pre as [|x pre'] using rev_ind; [simpl; lia|].
    rewrite length_app. simpl.
    replace (Init.Nat.pred (length pre' + 1)) with (length pre') by lia.
    rewrite lookup_app_r, Nat.sub_diag by lia. simpl.
    rewrite (Horder (length pre') x); [lia|].
    by rewrite lookup_app_r, Nat.sub_diag by lia. }
  assert (Hpost : forall e, e ∈ post -> lastScannedOrder s < order e).
  { intros e [i Hi]%list_elem_of_lookup.
    assert (Hi' : drop (Z.to_nat (start - base)) log !! (length pre + i)%nat = Some e).
    { rewrite Hes. rewrite lookup_app_r by lia.
      by replace (length pre + i - length pre)%nat with i by lia. }
    rewrite lookup_drop in Hi'. specialize (Hlog _ _ Hi'). lia. }
  assert (Hsel' : addressedBetween caller start (lastScannedOrder s) log = selected s).
  { rewrite Hsel. unfold addressedBetween. f_equal.
    destruct (contiguous_split base log start Hlog) as [Ht Hd]; [lia|].
    rewrite <- (take_drop (Z.to_nat (start - base)) log) at 1.
    rewrite filter_app, filter_none by (intros e Hin; specialize (Ht e Hin); lia).
    rewrite Hes, filter_app, (filter_none _ post), app_nil_r
      by (intros e Hin; specialize (Hpost e Hin); lia).
    apply filter_iff. intros e [i Hi]%list_elem_of_lookup.
    pose proof (Horder _ _ Hi). apply lookup_lt_Some in Hi. intuition lia. }
  assert (Hlen : (length pre <= length log - Z.to_nat (start - base))%nat).
  { assert (length (drop (Z.to_nat (start - base)) log) = length (pre ++ post)) by (by rewrite Hes).
    rewrite length_drop, length_app in *. lia. }
  rewrite Hsel'. exists n1, cur. split_and!; [done|done|lia|lia|].
  destruct Hbd as [H0|(Hle & e & nn & cur' & bytes & Hin & Hce & Hby & Hle')].
  - left. by destruct (selected s).
  - right. split; [done|]. exists (order e), nn, cur', bytes. split; [|done].
    apply list_elem_of_lookup in Hin as [i Hi]. pose proof (Horder _ _ Hi).
    apply lookup_lt_Some in Hi. lia.
Qed.

(** What every batch a poll answers satisfies, over the log at its end. *)
Definition batch_ok (input : PollDependencies) (caller : AgentId) (start : Z)
    (log : list Entry) (tail : Z) (ms : list M) (cursor : string) : Prop :=
  exists last, cursor_decrypt cursor caller = Some last /\
    start <= last <= tail /\
    ms = addressedBetween caller start last log /\
    (ms = [] \/
     Z.of_nat (length ms) <= pollMessageLimit input /\
     exists o nonce' cursor' bytes, start < o <= last /\
       cursor_encrypt nonce' caller o = Some cursor' /\
       resultBytes (Batch (p_routerInstanceId input) ms cursor') = Some bytes /\
       bytes <= pollResponseByteLimit input).

Lemma scan_batch_ok input caller log st start n sr n' :
  represents feedInput base log st ->
  greatestEvictedOrder st <= start <= tailOrder st ->
  scan input (snapshot st) caller start n = Succeed (sr, n') ->
  exists cursor, result sr = Batch (p_routerInstanceId input) (batchMessages (result sr)) cursor /\
    start <= sr_lastScannedOrder sr <= tailOrder st /\
    batchMessages (result sr) = addressedBetween caller start (sr_lastScannedOrder sr) log /\
    batch_ok input caller start log (tailOrder st) (batchMessages (result sr)) cursor.
Proof.
  intros Hrep Hs Hscan.
  destruct (scan_log _ _ _ _ _ _ _ _ Hrep Hs Hscan) as (nn & cur & Hc & Hr & Hl & Hb).
  rewrite Hr. simpl. exists cur. split_and!; [done|lia|lia|done|].
  exists (sr_lastScannedOrder sr). split_and!; [by eapply cursor_roundtrip|lia|lia|done|done].
Qed.

(** One poll against the feed before and after its hold. *)
Lemma handlePoll_batch_ok input caller cursor start log more st1 st2 held n rid ms cursor' n' :
  represents feedInput base log st1 ->
  represents feedInput base (log ++ more) st2 ->
  (forall s, held = Succeed s -> s = snapshot st2) ->
  cursor_decrypt cursor caller = Some start ->
  handlePoll input (Some cursor) caller (snapshot st1) held n
    = Succeed (Batch rid ms cursor', n') ->
  rid = p_routerInstanceId input /\
  batch_ok input caller start (log ++ more) (tailOrder st2) ms cursor'.
Proof.
  intros Hr1 Hr2 Hheld Hcur. simpl. unfold continuePoll, continueFromOrder. rewrite Hcur.
  pose proof (rep_tail _ _ _ _ Hr1) as Ht1. pose proof (rep_tail _ _ _ _ Hr2) as Ht2.
  pose proof (rep_log _ _ _ _ Hr2) as Hlog.
  assert (base <= greatestEvictedOrder st1).
  { destruct (rep_suffix _ _ _ _ Hr1) as (k & _ & -> & _). lia. }
  rewrite length_app in Ht2. simpl.
  case_decide; [done|]. case_decide; [done|].
  rewrite bind_succeed. intros ([first n1] & Hscan & Hrest).
  destruct (scan_batch_ok input caller log st1 start n first n1 Hr1 ltac:(lia) Hscan)
    as (cur1 & Hres1 & Hl1 & Hms1 & Hok1).
  case_decide as Himm.
  { injection Hrest as Hres <-. rewrite Hres in *. simpl in *.
    injection Hres1 as -> ->. split; [done|].
    destruct Hok1 as (l & Hd & Hle & Hm & Hb). exists l.
    split_and!; [done|lia|lia| |done].
    rewrite Hm at 1. symmetry. apply (addressedBetween_extend _ _ _ base); [done|lia]. }
  destruct held as [fs|]; [|done]. rewrite (Hheld fs eq_refl) in Hrest. simpl in Hrest.
  case_decide; [done|].
  apply bind_succeed in Hrest as ([second n2] & Hscan2 & Hres). injection Hres as Hres <-.
  destruct (scan_batch_ok input caller (log ++ more) st2 (sr_lastScannedOrder first) n1 second n2
              Hr2 ltac:(lia) Hscan2)
    as (cur2 & Hres2 & _ & _ & (l & Hd & Hle & Hm & Hb)).
  rewrite Hres in *. simpl in *. injection Hres2 as -> ->. split; [done|].
  assert (Hempty : addressedBetween caller start (sr_lastScannedOrder first) (log ++ more) = []).
  { rewrite (addressedBetween_extend _ _ _ base); [|done|lia].
    rewrite <- Hms1. destruct (batchMessages _); [done|].
    exfalso. apply Himm. left. simpl. lia. }
  exists l. split_and!; [done|lia|lia| |].
  - rewrite Hm at 1.
    by rewrite <- (addressedBetween_app _ start (sr_lastScannedOrder first) l base), Hempty
      by (rewrite ?length_app; done || lia).
  - destruct Hb as [|(? & o & nn & c' & b & Ho & ?)]; [by left|right].
    split; [done|]. exists o, nn, c', b. split; [lia|done].
Qed.

(** *** A caller's poll session

    Before each poll, and while it is held, any messages may be sent; the
    caller repeats with the cursor of the last batch. *)
Inductive session (input : PollDependencies) (caller : AgentId) :
    list (FeedCandidate M) -> string -> nat ->
    list M -> list (FeedCandidate M) -> string -> Prop :=
  | session_end sent cursor n : session input caller sent cursor n [] sent cursor
  | session_poll sent before during held cursor n rid ms cursor' n' rest sent' cursor'' :
      Forall (fun c => 0 <= c_encodedByteLength c) (before ++ during) ->
      (forall s, held = Succeed s ->
         s = snapshot (runFeed feedInput (makeInitialState base) (sent ++ before ++ during))) ->
      handlePoll input (Some cursor) caller
        (snapshot (runFeed feedInput (makeInitialState base) (sent ++ before))) held n
        = Succeed (Batch rid ms cursor', n') ->
      session input caller (sent ++ before ++ during) cursor' n' rest sent' cursor'' ->
      session input caller sent cursor n (ms ++ rest) sent' cursor''.

Lemma run_sent (sent : list (FeedCandidate M)) : capacities_ok feedInput -> 0 <= base <= maximumPrivateOrder ->
  Forall (fun c => 0 <= c_encodedByteLength c) sent ->
  represents feedInput base (acceptedLog feedInput (makeInitialState base) sent)
    (runFeed feedInput (makeInitialState base) sent).
Proof.
  intros. rewrite <- (app_nil_l (acceptedLog _ _ _)).
  apply run_represents; [done|done|]. by apply initial_represents.
Qed.

Lemma session_lossless input caller sent cursor n ms sent' cursor' start :
  capacities_ok feedInput -> 0 <= base <= maximumPrivateOrder ->
  Forall (fun c => 0 <= c_encodedByteLength c) sent ->
  session input caller sent cursor n ms sent' cursor' ->
  cursor_decrypt cursor caller = Some start ->
  base <= start <= tailOrder (runFeed feedInput (makeInitialState base) sent) ->
  exists last new, sent' = sent ++ new /\ Forall (fun c => 0 <= c_encodedByteLength c) new /\
    cursor_decrypt cursor' caller = Some last /\
    start <= last <= tailOrder (runFeed feedInput (makeInitialState base) sent') /\
    ms = addressedBetween caller start last
           (acceptedLog feedInput (makeInitialState base) sent').
Proof.
  intros Hcap Hbase Hsent Hses. revert start Hsent.
  induction Hses as [sent cursor n|sent before during held cursor n rid ms cur' n' rest sent' cur''
      Hnew Hheld Hpoll Hses IH]; intros start Hsent Hcur Hstart.
  - exists start, []. rewrite app_nil_r. split_and!; [done|done|done|lia|lia|]. unfold addressedBetween.
    rewrite filter_none; [done|]. lia.
  - apply Forall_app in Hnew as Hnew'. destruct Hnew' as [Hb Hd].
    pose proof (run_sent (sent ++ before) Hcap Hbase ltac:(by apply Forall_app)) as Hr1.
    pose proof (run_sent (sent ++ before ++ during) Hcap Hbase
                  ltac:(by apply Forall_app)) as Hr2.
    pose proof (acceptedLog_app feedInput (makeInitialState base) (sent ++ before) during) as Hl2.
    rewrite <- app_assoc in Hl2.
    assert (Hlok : rid = p_routerInstanceId input /\ batch_ok input caller start
      (acceptedLog feedInput (makeInitialState base) (sent ++ before ++ during))
      (tailOrder (runFeed feedInput (makeInitialState base) (sent ++ before ++ during))) ms cur').
    { rewrite Hl2 in Hr2 |- *. by eapply handlePoll_batch_ok. }
    destruct Hlok as (_ & l & Hl & Hle & Hms & _).
    destruct (IH l) as (last & new & Heq & Hnf & Hlast & Hrange & Hrest);
      [by rewrite !Forall_app in *|done|lia|].
    exists last, ((before ++ during) ++ new).
    split_and!; [by rewrite Heq, <- !app_assoc|by apply Forall_app|done|lia|lia|].
    pose proof (run_sent sent' Hcap Hbase) as Hr3.
    rewrite Heq in Hr3, Hrest |- *.
    pose proof (rep_log _ _ _ _ (Hr3 ltac:(by rewrite !Forall_app in *))) as Hc3.
    pose proof (rep_tail _ _ _ _ Hr2) as Ht2.
    rewrite acceptedLog_app in Hc3, Hrest |- *.
    rewrite <- (addressedBetween_extend _ _ _ base _ _ Hc3) in Hms by lia.
    rewrite Hms, Hrest. apply (addressedBetween_app _ _ _ _ base); [done| |lia|lia].
    rewrite length_app. lia.
Qed.
(** ** Properties *)

(** C2: polling loses and repeats nothing.  A caller that makes an initial
    poll and then keeps polling with the cursor of its last batch, while
    other participants send before and during every poll, has received, in
    order, exactly the messages addressed to it that the Router accepted
    after the initial poll and up to the order its last cursor names. *)
Theorem poll_lossless input caller sent n rid ms0 cursor n' ms sent' cursor' :
  capacities_ok feedInput -> 0 <= base <= maximumPrivateOrder ->
  Forall (fun c => 0 <= c_encodedByteLength c) sent ->
  let tail s := tailOrder (runFeed feedInput (makeInitialState base) s) in
  handlePoll input None caller (snapshot (runFeed feedInput (makeInitialState base) sent))
    (Fail_ heldPollCapacity) n = Succeed (Batch rid ms0 cursor, n') ->
  session input caller sent cursor n' ms sent' cursor' ->
  ms0 = [] /\
  exists last, cursor_decrypt cursor' caller = Some last /\
    tail sent <= last <= tail sent' /\
    ms = addressedBetween caller (tail sent) last
           (acceptedLog feedInput (makeInitialState base) sent').
Proof.
  intros Hcap Hbase Hsent tail Hinit Hses. unfold handlePoll, makeBatch in Hinit.
  destruct (cursor_encrypt _ _ _) as [cur|] eqn:Hc; [|done].
  injection Hinit as _ <- <- <-. split; [done|].
  pose proof (rep_tail _ _ _ _ (run_sent sent Hcap Hbase Hsent)).
  destruct (session_lossless _ _ _ _ _ _ _ _ (tail sent) Hcap Hbase Hsent Hses)
    as (last & new & _ & _ & ? & ? & ?);
    [by eapply cursor_roundtrip|unfold tail; lia|]. by exists last.
Qed.

(** the bounds of one batch.  A batch a cursor poll answers holds at most
    the configured number of messages, and its messages were measured, with
    the cursor of the last of them, to fit the configured byte limit. *)
Theorem poll_batch_bounds input caller cursor start sent before during held n rid ms cursor' n' :
  capacities_ok feedInput -> 0 <= base <= maximumPrivateOrder ->
  Forall (fun c => 0 <= c_encodedByteLength c) (sent ++ before ++ during) ->
  (forall s, held = Succeed s ->
     s = snapshot (runFeed feedInput (makeInitialState base) (sent ++ before ++ during))) ->
  cursor_decrypt cursor caller = Some start ->
  handlePoll input (Some cursor) caller
    (snapshot (runFeed feedInput (makeInitialState base) (sent ++ before))) held n
    = Succeed (Batch rid ms cursor', n') ->
  rid = p_routerInstanceId input /\
  (ms = [] \/
   Z.of_nat (length ms) <= pollMessageLimit input /\
   exists o nonce cursorAtLast bytes,
     cursor_encrypt nonce caller o = Some cursorAtLast /\
     resultBytes (Batch rid ms cursorAtLast) = Some bytes /\
     bytes <= pollResponseByteLimit input).
Proof.
  intros Hcap Hbase Hall Hheld Hcur Hpoll.
  rewrite app_assoc, Forall_app in Hall. destruct Hall as [H1 H2].
  pose proof (run_sent (sent ++ before) Hcap Hbase H1) as Hr1.
  pose proof (run_sent ((sent ++ before) ++ during) Hcap Hbase
                ltac:(by rewrite Forall_app)) as Hr2.
  rewrite acceptedLog_app, <- app_assoc in Hr2.
  destruct (handlePoll_batch_ok _ _ _ _ _ _ _ _ _ _ _ _ _ _ Hr1 Hr2 Hheld Hcur Hpoll)
    as (-> & l & _ & _ & _ & [|(? & o & nn & c' & b & _ & ? & ? & ?)]);
    split; [done|by left|done|right]. eauto 8.
Qed.

(** a cursor is honoured only for its own caller and only inside the
    retained feed.  A cursor that does not decrypt for the caller, or names
    an order the feed has not reached, answers [cursor_invalid]; one older
    than the newest evicted entry answers [feed_gap]; in the remaining range
    a poll answers neither [cursor_invalid], nor [feed_gap] unless the feed
    evicted past the scanned order during the hold. *)
Theorem poll_cursor_outcomes input caller cursor snap held n :
  match cursor_decrypt cursor caller with
  | None => handlePoll input (Some cursor) caller snap held n
            = Succeed (CursorInvalid, n)
  | Some start =>
      (s_tailOrder snap < start ->
       handlePoll input (Some cursor) caller snap held n = Succeed (CursorInvalid, n)) /\
      (start <= s_tailOrder snap -> start < s_greatestEvictedOrder snap ->
       handlePoll input (Some cursor) caller snap held n
         = Succeed (FeedGap (p_routerInstanceId input), n)) /\
      (s_greatestEvictedOrder snap <= start <= s_tailOrder snap -> forall r n',
       handlePoll input (Some cursor) caller snap held n = Succeed (r, n') ->
       (exists ms cursor', r = Batch (p_routerInstanceId input) ms cursor') \/
       r = FeedGap (p_routerInstanceId input) /\
       exists s first n1, held = Succeed s /\
         scan input snap caller start n = Succeed (first, n1) /\
         reachedTail first = true /\
         sr_lastScannedOrder first < s_greatestEvictedOrder s)
  end.
Proof.
  simpl. unfold continuePoll. destruct (cursor_decrypt _ _) as [start|]; [|done].
  unfold continueFromOrder. split_and!.
  - intros. by rewrite decide_True.
  - intros. by rewrite decide_False, decide_True by lia.
  - intros Hr r n'. rewrite !decide_False by lia.
    assert (Hscan : forall sn o k sr k', scan input sn caller o k = Succeed (sr, k') ->
      exists ms c, result sr = Batch (p_routerInstanceId input) ms c).
    { intros sn o k sr k'. unfold scan. rewrite bind_succeed.
      intros ([[st t] k1] & _ & Hb). apply bind_succeed in Hb as ([b k2] & Hb & [= <- _]).
      unfold makeBatch in Hb. destruct (cursor_encrypt _ _ _); [|done].
      injection Hb as <- _. simpl. eauto. }
    rewrite bind_succeed. intros ([first n1] & Hf & Hrest).
    case_decide as Himm; [injection Hrest as <- _; left; by eapply Hscan|].
    destruct held as [s|]; [|done]. simpl in Hrest. case_decide.
    + injection Hrest as <- _. right. split; [done|]. exists s, first, n1.
      split_and!; [done|done| |done]. destruct (reachedTail first); tauto.
    + apply bind_succeed in Hrest as ([second n2] & H2 & [= <- _]).
      left. by eapply Hscan.
Qed.
End poll.

(** *** Witnesses: the sealed cursor of PollCursor, and a result as long as
    the texts it carries *)
Module Concrete.
#[local] Existing Instance PollCursor.Concrete.b64.
#[local] Existing Instance PollCursor.Concrete.primitives.
#[local] Existing Instance PollCursor.Concrete.primitives_laws.

Definition codec : PollCursorCodec := PollCursor.makePollCursorCodec 200 "rti_1".
#[local] Instance codec_laws : PollCursorLaws codec := PollCursor.pollCursorCodec_laws 200 "rti_1".

Definition bytesOf (r : RouterPollResult (M := string)) : option Z :=
  match r with
  | Batch rid ms cursor =>
      Some (Z.of_nat (String.length rid + String.length (String.concat "," ms)
                      + String.length cursor))
  | FeedGap rid => Some (Z.of_nat (String.length rid))
  | CursorInvalid => Some 0
  end.

Definition feedInput1 : RouterFeedInput := mkInput "rti_1" 3 100.
Definition send (sender : string) (to : gset string) (text : string) : FeedCandidate string :=
  mkCandidate Initial text text 10 to sender text (String.append "smd_" text).
Definition sent0 : list (FeedCandidate string) := [send "agt_b" {["agt_a"]} "old"].
Definition more : list (FeedCandidate string) :=
  [send "agt_b" {["agt_a"]} "m1"; send "agt_a" {["agt_c"]} "x1"].
Definition later : list (FeedCandidate string) := [send "agt_c" {["agt_a"]} "m2"].
Definition cur (order : string) : string :=
  String.append "plc_hdr..iviviviviviv.agt_a,rti_1,"
    (String.append order ".tagtagtagtagtagt").
Definition pollInput (limit : Z) : PollDependencies := mkPoll "rti_1" 5 limit.
Definition feedAfter (cs : list (FeedCandidate string)) :=
  runFeed feedInput1 (makeInitialState 7) cs.
End Concrete.

Import Concrete.

Lemma concrete_capacities : capacities_ok feedInput1 /\ 0 <= 7 <= maximumPrivateOrder.
Proof. split; split; vm_compute; discriminate. Qed.

Lemma poll_lossless_witness :
  exists last, cursor_decrypt (PollCursorCodec := codec) (cur "11") "agt_a" = Some last /\
    ["m1"; "m2"] = addressedBetween "agt_a" 8 last
      (acceptedLog feedInput1 (makeInitialState 7) (sent0 ++ more ++ later)).
Proof.
  destruct (@poll_lossless string codec bytesOf codec_laws feedInput1 7 (pollInput 70) "agt_a"
    sent0 0 "rti_1" [] (cur "8") 1 ["m1"; "m2"] (sent0 ++ more ++ later) (cur "11"))
    as (_ & last & H1 & _ & H2).
  - apply concrete_capacities.
  - apply concrete_capacities.
  - repeat constructor; vm_compute; discriminate.
  - vm_compute. reflexivity.
  - apply (session_poll bytesOf feedInput1 7 (pollInput 70) "agt_a" sent0 more []
      (Fail_ heldPollCapacity) (cur "8") 1 "rti_1" ["m1"] (cur "10") 3 ["m2"]).
    + repeat constructor; vm_compute; discriminate.
    + discriminate.
    + vm_compute. reflexivity.
    + apply (session_poll bytesOf feedInput1 7 (pollInput 70) "agt_a" (sent0 ++ more ++ []) [] later
        (Succeed (snapshot (feedAfter (sent0 ++ more ++ later))))
        (cur "10") 3 "rti_1" ["m2"] (cur "11") 6 []).
      * repeat constructor; vm_compute; discriminate.
      * intros s [= <-]. reflexivity.
      * vm_compute. reflexivity.
      * apply session_end.
  - exists last. split; [exact H1|exact H2].
Defined.

Lemma poll_batch_bounds_witness :
  "rti_1" = p_routerInstanceId (pollInput 70).
Proof.
  refine (proj1 (@poll_batch_bounds string codec bytesOf codec_laws feedInput1 7 (pollInput 70)
    "agt_a" (cur "8") 8 sent0 more [] (Fail_ heldPollCapacity) 1 "rti_1" ["m1"] (cur "10") 3
    _ _ _ _ _ _)).
  - apply concrete_capacities.
  - apply concrete_capacities.
  - repeat constructor; vm_compute; discriminate.
  - discriminate.
  - vm_compute. reflexivity.
  - vm_compute. reflexivity.
Defined.

(** The byte limit is checked against the cursor of the last selected
    message; the answer carries the cursor of the last scanned entry.  When
    entries addressed to others follow, that cursor can be longer, and the
    complete result exceeds the limit. *)
Theorem poll_result_exceeds_limit :
  exists input caller cursor snap held n r n' bytes,
    handlePoll (C := codec) bytesOf input (Some cursor) caller snap held n = Succeed (r, n') /\
    bytesOf r = Some bytes /\ pollResponseByteLimit input < bytes.
Proof.
  exists (pollInput 59), "agt_a", (cur "8"), (snapshot (feedAfter (sent0 ++ more))),
    (Fail_ heldPollCapacity), 1%nat, (Batch "rti_1" ["m1"] (cur "10")), 3%nat, 60.
  vm_compute. split_and!; reflexivity.
Qed.

End Poll.
