(* ===== verification/Json.v ===== *)
(** Json: JSON values, their well-formed text, and the decoders of closed
    structs the schemas of every package are built from
    (packages/client/src/encoding/exact.ts, the [JsonValue] of
    packages/client/src/communication/records/values.ts, the keyword helpers
    of packages/client/src/communication/collectives/part/grammar.ts).

    A finite double is its exact rational ([Qc]): the code only compares
    numbers and tests integrality, which are exact.  Objects are their own
    properties in enumeration order.  A refusal is [None].

    CanonicalJson: values and their one canonical byte spelling
    (packages/identity/src/canonical-json.ts and
    packages/client/src/encoding/canonical-json.ts).

    A schema's two directions are a [JsonSchema]; the canonicalize package
    and the host's JSON and text codecs are a [HostJson].  Values are inert:
    the reflection traps that the identity snapshot refuses cannot be
    written as a [JsonValue]. *)
From S2P Require Import Prelude JsMap.
From Stdlib Require Import QArith Qcanon Ascii.
Local Open Scope string_scope.

Inductive JsonValue :=
  | JNull
  | JBool (b : bool)
  | JNumber (n : Qc)
  | JString (s : string)
  | JArray (values : list JsonValue)
  | JObject (properties : list (string * JsonValue)).

(** A surrogate is the only code point encoded as ED followed by A0..BF. *)
Fixpoint hasWellFormedUnicode (value : string) : bool :=
  match value with
  | String c (String d _ as rest) =>
      negb ((N_of_ascii c =? 237)%N && (160 <=? N_of_ascii d)%N) && hasWellFormedUnicode rest
  | _ => true
  end.

Fixpoint wellFormedJson (v : JsonValue) : bool :=
  match v with
  | JNull | JBool _ | JNumber _ => true
  | JString s => hasWellFormedUnicode s
  | JArray vs => forallb wellFormedJson vs
  | JObject o => forallb (fun '(k, v) => hasWellFormedUnicode k && wellFormedJson v) o
  end.

Module Json.

(** ** Keyword decoders *)

Definition decodeString (v : JsonValue) : option string :=
  match v with JString s => Some s | _ => None end.

Definition FiniteNumber (v : JsonValue) : option Qc :=
  match v with JNumber n => Some n | _ => None end.

Definition decodeBoolean (v : JsonValue) : option bool :=
  match v with JBool b => Some b | _ => None end.

Definition decodeArray {A} (dec : JsonValue -> option A) (v : JsonValue) :
    option (list A) :=
  match v with JArray vs => mapM dec vs | _ => None end.

Definition StringList : JsonValue -> option (list string) := decodeArray decodeString.

Definition literal (s : string) (v : JsonValue) : option unit :=
  match v with
  | JString t => if bool_decide (t = s) then Some tt else None
  | _ => None
  end.

(** A struct decodes an object, never an array or a primitive. *)
Definition asObject (v : JsonValue) : option (list (string * JsonValue)) :=
  match v with JObject o => Some o | _ => None end.

Definition keyword {A} (dec : JsonValue -> option A)
    (o : list (string * JsonValue)) (key : string) : option A :=
  v ← jm_get o key; dec v.

Definition optionalKeyword {A} (dec : JsonValue -> option A)
    (o : list (string * JsonValue)) (key : string) : option (option A) :=
  match jm_get o key with
  | None => Some None
  | Some v => Some <$> dec v
  end.

(** A closed struct: no key but its own. *)
Definition exactStruct (keys : list string) (v : JsonValue) :
    option (list (string * JsonValue)) :=
  o ← asObject v;
  if forallb (fun k => bool_decide (k ∈ keys)) (jm_keys o) then Some o else None.

Definition filtered (p : string -> bool) (v : JsonValue) : option string :=
  s ← decodeString v; if p s then Some s else None.

End Json.

Import Json.
Local Open Scope string_scope.

(** The [canonicalize] package, [JSON.parse], and the fatal [TextDecoder].
    A text is its bytes, so [TextEncoder] is the identity. *)
Class HostJson := {
  canonicalize : JsonValue -> option string;
  jsonParse : string -> option JsonValue;
  utf8Decode : string -> option string;
}.

(** What a schema encodes a value to, and what it decodes. *)
Class JsonSchema (A : Type) := {
  toJson : A -> JsonValue;
  ofJson : JsonValue -> option A;
}.

(** ** The identity package *)

Module CanonicalJson.
Section canonical.
Context `{HostJson}.

Definition MAXIMUM_CONTAINER_DEPTH : nat := 16.

(** [visitJsonValue] within [depth] containers. *)
Fixpoint visitJsonValue (depth : nat) (value : JsonValue) : bool :=
  match value with
  | JNull | JBool _ | JNumber _ => true
  | JString s => hasWellFormedUnicode s
  | JArray values =>
      bool_decide (S depth <= MAXIMUM_CONTAINER_DEPTH)%nat &&
      forallb (visitJsonValue (S depth)) values
  | JObject o =>
      bool_decide (S depth <= MAXIMUM_CONTAINER_DEPTH)%nat &&
      forallb (fun '(key, value) =>
        hasWellFormedUnicode key && visitJsonValue (S depth) value) o
  end.

Definition snapshotJsonValue (value : JsonValue) : option JsonValue :=
  if visitJsonValue 0 value then Some value else None.

Definition parseCanonicalJson (bytes : string) : option JsonValue :=
  text ← utf8Decode bytes;
  parsed ← jsonParse text;
  value ← snapshotJsonValue parsed;
  encoded ← canonicalize value;
  if decide (bytes = encoded) then Some value else None.

Definition decodeCanonicalJson {A} `{JsonSchema A} (bytes : string) : option A :=
  parseCanonicalJson bytes ≫= ofJson.

Definition encodeCanonicalJson (value : JsonValue) : option string :=
  snapshotJsonValue value ≫= canonicalize.

(** A parsed representation is the encoding of what it parsed to. *)
Lemma parseCanonicalJson_encodes bytes value :
  parseCanonicalJson bytes = Some value -> encodeCanonicalJson value = Some bytes.
Proof.
  unfold parseCanonicalJson, encodeCanonicalJson, snapshotJsonValue.
  intros (text & _ & (parsed & _ & Hv)%bind_Some)%bind_Some.
  destruct (visitJsonValue 0 parsed) eqn:Hp; [|done]. simpl in Hv.
  apply bind_Some in Hv as (encoded & Henc & Hv). case_decide; simplify_eq.
  by rewrite Hp.
Qed.

End canonical.
End CanonicalJson.

(** ** The client *)

Module ClientJson.
Section canonical.
Context `{HostJson}.

Definition encodeCanonical {A} `{JsonSchema A} (value : A) : option string :=
  canonicalize (toJson value).

Definition sameBytes (left right : string) : bool := bool_decide (left = right).

Definition decodeCanonical {A} `{JsonSchema A} (bytes : string) : option A :=
  text ← utf8Decode bytes;
  decoded ← (jsonParse text ≫= ofJson);
  canonical ← encodeCanonical decoded;
  if sameBytes bytes canonical then Some decoded else None.

Definition equalCanonical {A} `{JsonSchema A} (left right : A) : option bool :=
  leftBytes ← encodeCanonical left;
  rightBytes ← encodeCanonical right;
  Some (sameBytes leftBytes rightBytes).

Lemma decodeCanonical_encodes {A} `{JsonSchema A} bytes (value : A) :
  decodeCanonical bytes = Some value -> encodeCanonical value = Some bytes.
Proof.
  unfold decodeCanonical, sameBytes. intros (text & _ & Hd)%bind_Some.
  apply bind_Some in Hd as (decoded & _ & Hd).
  apply bind_Some in Hd as (canonical & Hc & Hd).
  case_bool_decide; simplify_eq. done.
Qed.

Lemma equalCanonical_true {A} `{JsonSchema A} (left right : A) :
  equalCanonical left right = Some true <->
  exists bytes, encodeCanonical left = Some bytes /\ encodeCanonical right = Some bytes.
Proof.
  unfold equalCanonical, sameBytes.
  destruct (encodeCanonical left), (encodeCanonical right); simpl; try naive_solver.
  rewrite (inj_iff Some), bool_decide_eq_true. naive_solver.
Qed.

End canonical.
End ClientJson.
