(* ===== verification/FormGrammar.v ===== *)
(** FormGrammar: the form-mode grammar of a collective question
    (packages/client/src/communication/collectives/part/grammar.ts and the
    [FormModeSchema] of part/index.ts).

    An untrusted property is a JSON value; an admitted one is a [FormField],
    the union of the seven shapes.  The texts that explain a refused property
    are not modelled: refusal is [None]. *)
From S2P Require Import Prelude JsMap Json.
From Stdlib Require Import QArith Qcanon.
Local Open Scope string_scope.

Module FormGrammar.
Export Json.

(** ** Titled options *)

Definition titledOption (v : JsonValue) : option (string * string) :=
  o ← asObject v;
  c ← keyword decodeString o "const";
  t ← keyword decodeString o "title";
  Some (c, t).

Definition titledOptions : JsonValue -> option (list (string * string)) :=
  decodeArray titledOption.

(** ** Admitted fields *)

Record Labels := mkLabels { title : option string; description : option string }.

Inductive AnswerFormat := Email | Uri | Date | DateTime.
Global Instance AnswerFormat_eq_dec : EqDecision AnswerFormat.
Proof. solve_decision. Defined.

Inductive NumberType := TNumber | TInteger.
Global Instance NumberType_eq_dec : EqDecision NumberType.
Proof. solve_decision. Defined.

Inductive MultiSelectItems :=
  | ItemsEnum (enum : list string)
  | ItemsAnyOf (anyOf : list (string * string)).

Inductive FormField :=
  | UntitledSingleSelectEnum (labels : Labels) (enum : list string)
      (dflt : option string)
  | TitledSingleSelectEnum (labels : Labels) (oneOf : list (string * string))
      (dflt : option string)
  | MultiSelectEnum (labels : Labels) (minItems maxItems : option Qc)
      (dflt : option (list string)) (items : MultiSelectItems)
  | BooleanField (labels : Labels) (dflt : option bool)
  | StringField (labels : Labels) (minLength maxLength : option Qc)
      (format : option AnswerFormat) (dflt : option string)
  | NumberField (ty : NumberType) (labels : Labels) (minimum maximum : option Qc)
      (dflt : option Qc).

(** ** The shapes, each a struct that ignores undeclared keywords *)

Abbreviation ShapeDecoder := (JsonValue -> option FormField).

Definition decodeLabels (o : list (string * JsonValue)) : option Labels :=
  t ← optionalKeyword decodeString o "title";
  d ← optionalKeyword decodeString o "description";
  Some (mkLabels t d).

Definition formatName (f : AnswerFormat) : string :=
  match f with
  | Email => "email" | Uri => "uri" | Date => "date" | DateTime => "date-time"
  end.

Definition decodeFormat (v : JsonValue) : option AnswerFormat :=
  s ← decodeString v;
  if bool_decide (s = "email") then Some Email
  else if bool_decide (s = "uri") then Some Uri
  else if bool_decide (s = "date") then Some Date
  else if bool_decide (s = "date-time") then Some DateTime else None.

Definition UntitledSingleSelectEnumSchema : ShapeDecoder := fun v =>
  o ← asObject v;
  _ ← keyword (literal "string") o "type";
  labels ← decodeLabels o;
  enum ← keyword StringList o "enum";
  dflt ← optionalKeyword decodeString o "default";
  Some (UntitledSingleSelectEnum labels enum dflt).

Definition TitledSingleSelectEnumSchema : ShapeDecoder := fun v =>
  o ← asObject v;
  _ ← keyword (literal "string") o "type";
  labels ← decodeLabels o;
  oneOf ← keyword titledOptions o "oneOf";
  dflt ← optionalKeyword decodeString o "default";
  Some (TitledSingleSelectEnum labels oneOf dflt).

Definition multiSelect (decodeItems : JsonValue -> option MultiSelectItems) :
    ShapeDecoder := fun v =>
  o ← asObject v;
  _ ← keyword (literal "array") o "type";
  labels ← decodeLabels o;
  minItems ← optionalKeyword FiniteNumber o "minItems";
  maxItems ← optionalKeyword FiniteNumber o "maxItems";
  dflt ← optionalKeyword StringList o "default";
  items ← keyword decodeItems o "items";
  Some (MultiSelectEnum labels minItems maxItems dflt items).

Definition UntitledMultiSelectEnumSchema : ShapeDecoder := multiSelect (fun v =>
  o ← asObject v;
  _ ← keyword (literal "string") o "type";
  ItemsEnum <$> keyword StringList o "enum").

Definition TitledMultiSelectEnumSchema : ShapeDecoder := multiSelect (fun v =>
  o ← asObject v;
  ItemsAnyOf <$> keyword titledOptions o "anyOf").

Definition BooleanSchema : ShapeDecoder := fun v =>
  o ← asObject v;
  _ ← keyword (literal "boolean") o "type";
  labels ← decodeLabels o;
  dflt ← optionalKeyword decodeBoolean o "default";
  Some (BooleanField labels dflt).

Definition StringSchema : ShapeDecoder := fun v =>
  o ← asObject v;
  _ ← keyword (literal "string") o "type";
  labels ← decodeLabels o;
  minLength ← optionalKeyword FiniteNumber o "minLength";
  maxLength ← optionalKeyword FiniteNumber o "maxLength";
  format ← optionalKeyword decodeFormat o "format";
  dflt ← optionalKeyword decodeString o "default";
  Some (StringField labels minLength maxLength format dflt).

Definition numberType (v : JsonValue) : option NumberType :=
  s ← decodeString v;
  if bool_decide (s = "number") then Some TNumber
  else if bool_decide (s = "integer") then Some TInteger else None.

Definition NumberSchema : ShapeDecoder := fun v =>
  o ← asObject v;
  ty ← keyword numberType o "type";
  labels ← decodeLabels o;
  minimum ← optionalKeyword FiniteNumber o "minimum";
  maximum ← optionalKeyword FiniteNumber o "maximum";
  dflt ← optionalKeyword FiniteNumber o "default";
  Some (NumberField ty labels minimum maximum dflt).

(** The shapes in the specification's union order; the first match wins. *)
Definition fieldShapes : list ShapeDecoder :=
  [UntitledSingleSelectEnumSchema; TitledSingleSelectEnumSchema;
   UntitledMultiSelectEnumSchema; TitledMultiSelectEnumSchema;
   BooleanSchema; StringSchema; NumberSchema].

(** [Arr.findFirst] with a partial function. *)
Fixpoint findFirst (shapes : list ShapeDecoder) (v : JsonValue) : option FormField :=
  match shapes with
  | [] => None
  | decode :: rest =>
      match decode v with Some f => Some f | None => findFirst rest v end
  end.

Definition offersOptions (field : FormField) : option FormField :=
  match field with
  | UntitledSingleSelectEnum _ [] _ => None
  | MultiSelectEnum _ _ _ _ (ItemsEnum []) => None
  | _ => Some field
  end.

Definition admitFormField (property : JsonValue) : option FormField :=
  f ← findFirst fieldShapes property; offersOptions f.

(** [FormFieldSchema.decode]: the admitted field must itself be a form field
    value, which its declaration checks by admitting it again. *)

(** The JavaScript value of an admitted field: its declared keywords. *)
Definition optionalProperty {A} (enc : A -> JsonValue) (key : string) (v : option A) :
    list (string * JsonValue) :=
  match v with Some a => [(key, enc a)] | None => [] end.

Definition labelProperties (l : Labels) : list (string * JsonValue) :=
  (optionalProperty JString "title" (title l) ++
   optionalProperty JString "description" (description l))%list.

Definition stringArray (l : list string) : JsonValue := JArray (JString <$> l).

Definition titledArray (l : list (string * string)) : JsonValue :=
  JArray ((fun '(c, t) => JObject [("const", JString c); ("title", JString t)]) <$> l).

Definition itemsValue (items : MultiSelectItems) : JsonValue :=
  match items with
  | ItemsEnum enum => JObject [("type", JString "string"); ("enum", stringArray enum)]
  | ItemsAnyOf anyOf => JObject [("anyOf", titledArray anyOf)]
  end.

Definition fieldValue (f : FormField) : JsonValue :=
  JObject (match f with
  | UntitledSingleSelectEnum l enum d =>
      ("type", JString "string") :: labelProperties l ++
      [("enum", stringArray enum)] ++ optionalProperty JString "default" d
  | TitledSingleSelectEnum l oneOf d =>
      ("type", JString "string") :: labelProperties l ++
      [("oneOf", titledArray oneOf)] ++ optionalProperty JString "default" d
  | MultiSelectEnum l mi ma d items =>
      ("type", JString "array") :: labelProperties l ++
      optionalProperty JNumber "minItems" mi ++ optionalProperty JNumber "maxItems" ma ++
      optionalProperty stringArray "default" d ++ [("items", itemsValue items)]
  | BooleanField l d =>
      ("type", JString "boolean") :: labelProperties l ++ optionalProperty JBool "default" d
  | StringField l mi ma fmt d =>
      ("type", JString "string") :: labelProperties l ++
      optionalProperty JNumber "minLength" mi ++ optionalProperty JNumber "maxLength" ma ++
      optionalProperty (fun f => JString (formatName f)) "format" fmt ++
      optionalProperty JString "default" d
  | NumberField ty l mi ma d =>
      ("type", JString (match ty with TNumber => "number" | TInteger => "integer" end))
      :: labelProperties l ++
      optionalProperty JNumber "minimum" mi ++ optionalProperty JNumber "maximum" ma ++
      optionalProperty JNumber "default" d
  end)%list.

Definition FormFieldSchema (property : JsonValue) : option FormField :=
  f ← admitFormField property;
  _ ← admitFormField (fieldValue f);
  Some f.

(** ** The form-mode schema *)

Record FormModeSchema := mkForm {
  schemaUri : option string;
  properties : list (string * FormField);
  required : option (list string);
}.

Definition formKeys : list string := ["$schema"; "type"; "properties"; "required"].

Definition decodeProperties (v : JsonValue) : option (list (string * FormField)) :=
  o ← asObject v;
  mapM (fun '(k, p) => f ← FormFieldSchema p; Some (k, f)) o.

(** The filter: every required name is a declared property. *)
Definition requiredDeclared (schema : FormModeSchema) : bool :=
  forallb (fun name => jm_has (properties schema) name) (default [] (required schema)).

Definition decodeFormModeSchema (v : JsonValue) : option FormModeSchema :=
  o ← asObject v;
  if forallb (fun k => bool_decide (k ∈ formKeys)) (jm_keys o) then
    uri ← optionalKeyword decodeString o "$schema";
    _ ← keyword (literal "object") o "type";
    props ← keyword decodeProperties o "properties";
    req ← optionalKeyword StringList o "required";
    let schema := mkForm uri props req in
    if requiredDeclared schema then Some schema else None
  else None.

Definition encodeFormModeSchema (s : FormModeSchema) : JsonValue :=
  JObject (optionalProperty JString "$schema" (schemaUri s) ++
    [("type", JString "object");
     ("properties", JObject (prod_map id fieldValue <$> properties s))] ++
    optionalProperty stringArray "required" (required s))%list.

(** ** Facts *)

Definition offered (f : FormField) : bool :=
  match offersOptions f with Some _ => true | None => false end.

Lemma StringList_stringArray l : StringList (stringArray l) = Some l.
Proof. by apply mapM_fmap_Some. Qed.

Lemma titledOptions_titledArray l : titledOptions (titledArray l) = Some l.
Proof. apply (mapM_fmap_Some titledOption). by intros [c t]. Qed.

Lemma decodeFormat_formatName f : decodeFormat (JString (formatName f)) = Some f.
Proof. by destruct f. Qed.

(** Rewriting rules that read a key of a literal object. *)
Section lookup.
Context {A : Type} (dec : JsonValue -> option A).

Lemma keyword_here key v o : keyword dec ((key, v) :: o) key = dec v.
Proof. unfold keyword. simpl. by rewrite decide_True. Qed.

Lemma keyword_skip key v o k : key <> k -> keyword dec ((key, v) :: o) k = keyword dec o k.
Proof. intros. unfold keyword. simpl. by rewrite decide_False. Qed.

Lemma keyword_skip_optional {B} (enc : B -> JsonValue) key v o k : key <> k ->
  keyword dec (optionalProperty enc key v ++ o)%list k = keyword dec o k.
Proof. intros. destruct v; [by apply keyword_skip|done]. Qed.

Lemma keyword_skip_labels l o k : k <> "title" -> k <> "description" ->
  keyword dec (labelProperties l ++ o)%list k = keyword dec o k.
Proof.
  intros. unfold labelProperties. rewrite <- app_assoc.
  by rewrite !keyword_skip_optional by done.
Qed.

Lemma keyword_nil k : keyword dec [] k = None.
Proof. done. Qed.

Lemma optional_skip key v o k : key <> k ->
  optionalKeyword dec ((key, v) :: o) k = optionalKeyword dec o k.
Proof. intros. unfold optionalKeyword. simpl. by rewrite decide_False. Qed.

Lemma optional_skip_optional {B} (enc : B -> JsonValue) key v o k : key <> k ->
  optionalKeyword dec (optionalProperty enc key v ++ o)%list k = optionalKeyword dec o k.
Proof. intros. destruct v; [by apply optional_skip|done]. Qed.

Lemma optional_skip_labels l o k : k <> "title" -> k <> "description" ->
  optionalKeyword dec (labelProperties l ++ o)%list k = optionalKeyword dec o k.
Proof.
  intros. unfold labelProperties. rewrite <- app_assoc.
  by rewrite !optional_skip_optional by done.
Qed.

Lemma optional_here (enc : A -> JsonValue) key v o :
  (forall a, dec (enc a) = Some a) -> optionalKeyword dec o key = Some None ->
  optionalKeyword dec (optionalProperty enc key v ++ o)%list key = Some v.
Proof.
  intros Hd Ho. destruct v as [a|]; simpl; [|done].
  unfold optionalKeyword. simpl. rewrite decide_True by done. by rewrite Hd.
Qed.

Lemma keyword_skip_last {B} (enc : B -> JsonValue) key v k : key <> k ->
  keyword dec (optionalProperty enc key v) k = None.
Proof. intros. rewrite <- (app_nil_r (optionalProperty _ _ _)). by rewrite keyword_skip_optional. Qed.

Lemma optional_skip_last {B} (enc : B -> JsonValue) key v k : key <> k ->
  optionalKeyword dec (optionalProperty enc key v) k = Some None.
Proof. intros. rewrite <- (app_nil_r (optionalProperty _ _ _)). by rewrite optional_skip_optional. Qed.

Lemma optional_here_last (enc : A -> JsonValue) key v :
  (forall a, dec (enc a) = Some a) ->
  optionalKeyword dec (optionalProperty enc key v) key = Some v.
Proof. intros. rewrite <- (app_nil_r (optionalProperty _ _ _)). by apply optional_here. Qed.

Lemma optional_nil k : optionalKeyword dec [] k = Some None.
Proof. done. Qed.
End lookup.

Lemma decodeLabels_skip key v o : key <> "title" -> key <> "description" ->
  decodeLabels ((key, v) :: o) = decodeLabels o.
Proof. intros. unfold decodeLabels. by rewrite !optional_skip by done. Qed.

Lemma decodeLabels_here l o :
  optionalKeyword decodeString o "title" = Some None ->
  optionalKeyword decodeString o "description" = Some None ->
  decodeLabels (labelProperties l ++ o)%list = Some l.
Proof.
  intros Ht Hd. unfold decodeLabels, labelProperties. rewrite <- app_assoc.
  rewrite optional_here by (done || by rewrite optional_skip_optional).
  rewrite optional_skip_optional, optional_here by done. by destruct l.
Qed.

Lemma literal_same s : literal s (JString s) = Some tt.
Proof. simpl. by rewrite bool_decide_true. Qed.

Lemma literal_other s t : t <> s -> literal s (JString t) = None.
Proof. intros. simpl. by rewrite bool_decide_false. Qed.

(** Read the next key. *)
Ltac read_key :=
  first
    [ rewrite keyword_here | rewrite keyword_skip by done
    | rewrite keyword_skip_optional by done | rewrite keyword_skip_labels by done
    | rewrite keyword_skip_last by done | rewrite keyword_nil
    | rewrite literal_same | rewrite literal_other by done
    | rewrite decodeLabels_skip by done
    | rewrite decodeLabels_here by (repeat read_key; done)
    | rewrite optional_skip by done | rewrite optional_skip_optional by done
    | rewrite optional_skip_labels by done | rewrite optional_skip_last by done
    | rewrite optional_nil
    | rewrite StringList_stringArray | rewrite titledOptions_titledArray
    | rewrite optional_here_last by
        (first [ done | apply StringList_stringArray | by intros [] ])
    | rewrite optional_here;
        [| first [ done | apply StringList_stringArray | by intros [] ]
         | repeat read_key; done ] ];
  cbn [asObject mbind option_bind fmap option_fmap option_map].

Ltac read_shape :=
  unfold UntitledSingleSelectEnumSchema, TitledSingleSelectEnumSchema,
      UntitledMultiSelectEnumSchema, TitledMultiSelectEnumSchema, multiSelect,
      BooleanSchema, StringSchema, NumberSchema, itemsValue;
  cbn [asObject mbind option_bind]; repeat read_key; try done.

Lemma numberType_name ty :
  numberType (JString (match ty with TNumber => "number" | TInteger => "integer" end)) = Some ty.
Proof. by destruct ty. Qed.

Lemma numberType_string : numberType (JString "string") = None.
Proof. done. Qed.

Lemma findFirst_skip d ds v : d v = None -> findFirst (d :: ds) v = findFirst ds v.
Proof. simpl. by intros ->. Qed.

Lemma findFirst_hit d ds v f : d v = Some f -> findFirst (d :: ds) v = Some f.
Proof. simpl. by intros ->. Qed.

(** Evaluate the shapes on a field's literal object in turn. *)
Ltac read_field := unfold fieldValue; cbn [app]; read_shape; rewrite ?numberType_string,
  ?numberType_name; cbn [mbind option_bind]; repeat read_key; try done.
Ltac try_shapes :=
  repeat (rewrite findFirst_skip by (read_field; fail));
  apply findFirst_hit; read_field.

(** A field's own value is found as that field. *)
Lemma findFirst_fieldValue f : findFirst fieldShapes (fieldValue f) = Some f.
Proof.
  unfold fieldShapes.
  destruct f as [l enum d|l oneOf d|l mi ma d [enum|anyOf]|l d|l mi ma fmt d|[] l mi ma d];
    try_shapes.
Qed.

Lemma offersOptions_same f g : offersOptions f = Some g -> g = f.
Proof. by destruct f as [? [|]| |? ? ? ? [[|]|]| | |]; simpl; intros [= <-] || intros [=]. Qed.

Lemma admit_offers p f : admitFormField p = Some f -> offersOptions f = Some f.
Proof.
  unfold admitFormField. intros (g & _ & Hg)%bind_Some.
  by rewrite <- (offersOptions_same _ _ Hg) in Hg.
Qed.

Lemma admit_fieldValue f : offersOptions f = Some f -> admitFormField (fieldValue f) = Some f.
Proof. intros Hf. unfold admitFormField. by rewrite findFirst_fieldValue. Qed.

(** Decoding a property is admitting it. *)
Lemma FormFieldSchema_admit p f : FormFieldSchema p = Some f <-> admitFormField p = Some f.
Proof.
  unfold FormFieldSchema. split.
  - intros (g & Hg & (? & _ & [= <-])%bind_Some)%bind_Some. done.
  - intros Hf. rewrite Hf. simpl. by rewrite (admit_fieldValue _ (admit_offers _ _ Hf)).
Qed.

Lemma FormFieldSchema_value f : offersOptions f = Some f -> FormFieldSchema (fieldValue f) = Some f.
Proof. intros. by apply FormFieldSchema_admit, admit_fieldValue. Qed.

(** What a decoded form promises. *)
Record form_ok (s : FormModeSchema) : Prop := {
  form_offers : Forall (fun p => offersOptions p.2 = Some p.2) (properties s);
  form_required : forall names name, required s = Some names -> name ∈ names ->
    jm_has (properties s) name = true;
}.

Lemma requiredDeclared_spec s : requiredDeclared s = true <->
  forall names name, required s = Some names -> name ∈ names -> jm_has (properties s) name = true.
Proof.
  unfold requiredDeclared. rewrite forallb_forall. destruct (required s) as [names|]; simpl.
  - setoid_rewrite list_elem_of_In. naive_solver.
  - naive_solver.
Qed.

Lemma decodeFormModeSchema_ok v s : decodeFormModeSchema v = Some s -> form_ok s.
Proof.
  unfold decodeFormModeSchema. intros (o & _ & Hs)%bind_Some.
  destruct (forallb _ _); [|done].
  apply bind_Some in Hs as (uri & _ & Hs).
  apply bind_Some in Hs as (_ & _ & Hs).
  apply bind_Some in Hs as (props & Hp & Hs).
  apply bind_Some in Hs as (req & _ & Hs). simpl in Hs.
  destruct (requiredDeclared _) eqn:Hr; [|done]. injection Hs as <-.
  split; [simpl|by apply requiredDeclared_spec].
  unfold keyword, decodeProperties in Hp.
  apply bind_Some in Hp as (pv & _ & (po & _ & Hm)%bind_Some).
  apply mapM_Some in Hm. clear -Hm.
  induction Hm as [|[k p] [k' f] po fs Hf _ IH]; constructor; [|done].
  apply bind_Some in Hf as (g & Hg & [= <- <-]). simpl.
  by eapply admit_offers, FormFieldSchema_admit.
Qed.

Lemma decodeProperties_value props :
  Forall (fun p => offersOptions p.2 = Some p.2) props ->
  decodeProperties (JObject (prod_map id fieldValue <$> props)) = Some props.
Proof.
  intros Hp. unfold decodeProperties. simpl. apply mapM_Some. rewrite Forall2_fmap_l.
  induction Hp as [|[k f] props Hf _ IH]; constructor; [|done].
  simpl in *. by rewrite FormFieldSchema_value.
Qed.

Lemma encode_decode_form s : form_ok s -> decodeFormModeSchema (encodeFormModeSchema s) = Some s.
Proof.
  intros [Ho Hr]. unfold decodeFormModeSchema, encodeFormModeSchema.
  cbn [asObject mbind option_bind].
  assert (forallb (fun k => bool_decide (k ∈ formKeys)) (jm_keys
    (optionalProperty JString "$schema" (schemaUri s) ++
    [("type", JString "object");
     ("properties", JObject (prod_map id fieldValue <$> properties s))] ++
    optionalProperty stringArray "required" (required s))%list) = true) as ->.
  { destruct (schemaUri s), (required s); reflexivity. }
  cbn [app]. repeat read_key.
  rewrite decodeProperties_value by done. cbn [mbind option_bind]. repeat read_key.
  destruct s as [uri props req]. simpl.
  by rewrite (proj2 (requiredDeclared_spec _) Hr).
Qed.

(** the form a member reads is the form its requester wrote.  A decoded
    form-mode schema is encoded to a value every endpoint decodes to the same
    schema; each of its properties is an admitted field, and each required
    name is one of its properties. *)
Theorem form_roundtrip v s :
  decodeFormModeSchema v = Some s ->
  decodeFormModeSchema (encodeFormModeSchema s) = Some s /\
  (forall k f, (k, f) ∈ properties s ->
     FormFieldSchema (fieldValue f) = Some f) /\
  (forall names name, required s = Some names -> name ∈ names ->
     jm_has (properties s) name = true).
Proof.
  intros Hs%decodeFormModeSchema_ok. split_and!; [by apply encode_decode_form| |apply Hs].
  intros k f Hin. apply FormFieldSchema_value.
  destruct Hs as [Ho _]. rewrite Forall_forall in Ho. by apply (Ho (k, f)).
Qed.

(** A titled select and an untrusted one, with keywords outside the grammar. *)
Definition slotForm : JsonValue :=
  JObject [("type", JString "object");
    ("properties", JObject
      [("slot", JObject [("type", JString "string"); ("x-hint", JNull);
          ("oneOf", JArray [JObject [("const", JString "am"); ("title", JString "Morning")]])]);
       ("count", JObject [("type", JString "integer"); ("minimum", JNumber (Q2Qc 1))])]);
    ("required", stringArray ["slot"])].

Lemma form_roundtrip_witness :
  exists s, decodeFormModeSchema slotForm = Some s /\
    decodeFormModeSchema (encodeFormModeSchema s) = Some s.
Proof.
  eexists. split; [reflexivity|].
  apply (form_roundtrip slotForm). reflexivity.
Defined.

End FormGrammar.
