(* ===== verification/AnswerFormats.v ===== *)
(** AnswerFormats: the string formats of a form answer
    (packages/client/src/communication/collectives/answer-formats.ts).

    A text is its UTF-8 bytes.  Every pattern character is ASCII, except the
    Unicode white space of the date and time separator, whose encodings are
    listed; the [i] flag of a pattern without [u] folds ASCII letters only.
    The seconds of a time are a double: [Number] of two digits and a fraction
    is below 60 (or 61) exactly when the decimal is below the midpoint
    between 60 (or 61) and the double before it, 2^-48 less. *)
From S2P Require Import Prelude JsString FormGrammar.
From Stdlib Require Import Ascii String.
Import FormGrammar.
Local Open Scope Z_scope.

Module AnswerFormats.

Definition DAYS_IN_MONTH : list Z := [0; 31; 28; 31; 30; 31; 30; 31; 31; 30; 31; 30; 31].

Definition digit (c : ascii) : option Z :=
  if range "0" "9" c then Some (Z.of_N (N_of_ascii c) - 48) else None.

(** [\d{n}]: exactly [n] digits, and the rest of the text. *)
Fixpoint digits (n : nat) (acc : Z) (s : string) : option (Z * string) :=
  match n, s with
  | O, _ => Some (acc, s)
  | S n', String c s' => d ← digit c; digits n' (10 * acc + d) s'
  | S _, EmptyString => None
  end.

(** [\d+] at its longest: value, number of digits, rest. *)
Fixpoint digitRun (acc : Z) (count : nat) (s : string) : Z * nat * string :=
  match s with
  | String c s' =>
      match digit c with
      | Some d => digitRun (10 * acc + d) (S count) s'
      | None => (acc, count, s)
      end
  | EmptyString => (acc, count, s)
  end.

Definition expect (c : ascii) (s : string) : option string :=
  match s with
  | String c' s' => if Ascii.eqb c c' then Some s' else None
  | EmptyString => None
  end.

(** ** Dates *)

(** [DATE.exec]. *)
Definition DATE (text : string) : option (Z * Z * Z) :=
  '(year, s) ← digits 4 0 text;
  s ← expect "-" s;
  '(month, s) ← digits 2 0 s;
  s ← expect "-" s;
  '(day, s) ← digits 2 0 s;
  match s with EmptyString => Some (year, month, day) | _ => None end.

Definition isLeapYear (year : Z) : bool :=
  (year mod 4 =? 0) && (negb (year mod 100 =? 0) || (year mod 400 =? 0)).

Definition daysIn (year month : Z) : Z :=
  if (month =? 2) && isLeapYear year then 29
  else default 0 (DAYS_IN_MONTH !! Z.to_nat month).

Definition isCalendarDay (year month day : Z) : bool :=
  (1 <=? month) && (month <=? 12) && (1 <=? day) && (day <=? daysIn year month).

Definition isDate (text : string) : bool :=
  match DATE text with
  | Some (year, month, day) => isCalendarDay year month day
  | None => false
  end.

(** ** Times *)

(** A decimal second: [whole + fraction / 10^places]. *)
Record Seconds := mkSeconds { whole : Z; fraction : Z; places : nat }.

(** [Number(text) < bound], for [bound] 60 or 61. *)
Definition secondsBelow (s : Seconds) (bound : Z) : bool :=
  (whole s * 10 ^ Z.of_nat (places s) + fraction s) * 2 ^ 48
    <? (bound * 2 ^ 48 - 1) * 10 ^ Z.of_nat (places s).

Record ClockTime := mkClock {
  hour : Z; minute : Z; second : Seconds;
  offsetSign : Z; offsetHour : Z; offsetMinute : Z;
}.

Definition secondsText (s : string) : option (Seconds * string) :=
  '(w, s) ← digits 2 0 s;
  match s with
  | String "." s' =>
      let '(f, n, rest) := digitRun 0 0 s' in
      match n with
      | O => None
      | _ => Some (mkSeconds w f n, rest)
      end
  | _ => Some (mkSeconds w 0 0, s)
  end.

(** [(z|([+-])(\d{2})(?::?(\d{2}))?)$], ignoring case. *)
Definition zoneText (s : string) : option (Z * Z * Z) :=
  match s with
  | String "z" EmptyString | String "Z" EmptyString => Some (1, 0, 0)
  | String c s' =>
      if Ascii.eqb c "+" || Ascii.eqb c "-" then
        '(oh, s) ← digits 2 0 s';
        let sign := if Ascii.eqb c "-" then -1 else 1 in
        match s with
        | EmptyString => Some (sign, oh, 0)
        | _ =>
            let s := match s with String ":" s'' => s'' | _ => s end in
            '(om, s) ← digits 2 0 s;
            match s with EmptyString => Some (sign, oh, om) | _ => None end
        end
      else None
  | EmptyString => None
  end.

(** [TIME.exec]. *)
Definition TIME (text : string) : option ClockTime :=
  '(h, s) ← digits 2 0 text;
  s ← expect ":" s;
  '(m, s) ← digits 2 0 s;
  s ← expect ":" s;
  '(sec, s) ← secondsText s;
  '(sign, oh, om) ← zoneText s;
  Some (mkClock h m sec sign oh om).

Definition isOrdinaryTime (t : ClockTime) : bool :=
  (hour t <=? 23) && (minute t <=? 59) && secondsBelow (second t) 60.

Definition isLeapSecond (time : ClockTime) : bool :=
  let utcMinute := minute time - offsetMinute time * offsetSign time in
  let utcHour := hour time - offsetHour time * offsetSign time
                 - (if utcMinute <? 0 then 1 else 0) in
  let lastHour := (utcHour =? 23) || (utcHour =? -1) in
  let lastMinute := (utcMinute =? 59) || (utcMinute =? -1) in
  lastHour && lastMinute && secondsBelow (second time) 61.

Definition isTime (text : string) : bool :=
  match TIME text with
  | None => false
  | Some time =>
      (offsetHour time <=? 23) && (offsetMinute time <=? 59) &&
      (isOrdinaryTime time || isLeapSecond time)
  end.

(** ** Date and time *)

(** The byte length of the separator [/t|\s/i] at the start of a text. *)
Definition separatorLength (s : string) : option nat :=
  match s with
  | String c s1 =>
      let n := N_of_ascii c in
      if bool_decide (n ∈ [116; 84; 9; 10; 11; 12; 13; 32]%N) then Some 1%nat
      else match s1 with
      | String d s2 =>
          let m := N_of_ascii d in
          if bool_decide ((n, m) = (194, 160)%N) then Some 2%nat
          else match s2 with
          | String e _ =>
              let k := N_of_ascii e in
              if bool_decide ((n, m, k) = (225, 154, 128)%N) ||
                 bool_decide ((n, m) = (226, 128)%N) &&
                   ((128 <=? k)%N && (k <=? 138)%N ||
                    bool_decide (k ∈ [168; 169; 175]%N)) ||
                 bool_decide ((n, m, k) = (226, 129, 159)%N) ||
                 bool_decide ((n, m, k) = (227, 128, 128)%N) ||
                 bool_decide ((n, m, k) = (239, 187, 191)%N)
              then Some 3%nat else None
          | EmptyString => None
          end
      | EmptyString => None
      end
  | EmptyString => None
  end.

(** [text.split(DATE_TIME_SEPARATOR)]; [skip] bytes are left of a separator. *)
Fixpoint splitDateTime (skip : nat) (s : string) : list string :=
  match s with
  | EmptyString => [EmptyString]
  | String c s' =>
      match skip with
      | S skip' => splitDateTime skip' s'
      | O =>
          match separatorLength s with
          | Some n => EmptyString :: splitDateTime (Nat.pred n) s'
          | None =>
              match splitDateTime 0 s' with
              | [] => [String c EmptyString]
              | w :: ws => String c w :: ws
              end
          end
      end
  end.

Definition isDateTime (text : string) : bool :=
  match splitDateTime 0 text with
  | [date; time] => isDate date && isTime time
  | _ => false
  end.

(** ** The patterns, ignoring case *)

Definition alphanumeric (c : ascii) : bool :=
  range "a" "z" c || range "A" "Z" c || range "0" "9" c.
Definition letter (c : ascii) : bool := range "a" "z" c || range "A" "Z" c.
Definition digitClass : regex := RClass (range "0" "9").

Definition atom : regex :=
  rplus (RClass (fun c => alphanumeric c || oneof "!#$%&'*+/=?^_`{|}~-" c)).
Definition hostLabel : regex :=
  RCat (RClass alphanumeric)
    (ropt (RCat (RStar (RClass (fun c => alphanumeric c || Ascii.eqb c "-")))
                (RClass alphanumeric))).

Definition EMAIL : regex :=
  rseq [atom; RStar (RCat (rchar ".") atom); rchar "@";
        rplus (RCat hostLabel (rchar ".")); hostLabel].

Definition hex : regex :=
  RClass (fun c => range "0" "9" c || range "a" "f" c || range "A" "F" c).
Definition pctEncoded : regex := rseq [rchar "%"; hex; hex].
Definition unreserved (c : ascii) : bool := alphanumeric c || oneof "-._~" c.
Definition subDelims (c : ascii) : bool := oneof "!$&'()*+,;=" c.
Definition decOctet : regex :=
  ralts [RCat (rtext "25") (RClass (range "0" "5"));
         rseq [rchar "2"; RClass (range "0" "4"); digitClass];
         rseq [ropt (RClass (oneof "01")); digitClass; ropt digitClass]].
Definition ipv4 : regex := RCat (rexact 3 (RCat decOctet (rchar "."))) decOctet.
Definition h16 : regex := RCat hex (rupto 3 hex).
Definition ls32 : regex := RAlt (rseq [h16; rchar ":"; h16]) ipv4.
Definition h16Colon : regex := RCat h16 (rchar ":").
(** [(?:(?:h16:){0,n}h16)?] *)
Definition before (n : nat) : regex := ropt (RCat (rupto n h16Colon) h16).
Definition ipv6 : regex :=
  ralts [RCat (rexact 6 h16Colon) ls32;
    rseq [rtext "::"; rexact 5 h16Colon; ls32];
    rseq [ropt h16; rtext "::"; rexact 4 h16Colon; ls32];
    rseq [before 1; rtext "::"; rexact 3 h16Colon; ls32];
    rseq [before 2; rtext "::"; rexact 2 h16Colon; ls32];
    rseq [before 3; rtext "::"; h16Colon; ls32];
    rseq [before 4; rtext "::"; ls32];
    rseq [before 5; rtext "::"; h16];
    rseq [before 6; rtext "::"]].
Definition ipFuture : regex :=
  rseq [RClass (oneof "vV"); rplus hex; rchar ".";
        rplus (RClass (fun c => unreserved c || subDelims c || Ascii.eqb c ":"))].
Definition host : regex :=
  ralts [rseq [rchar "["; RAlt ipv6 ipFuture; rchar "]"]; ipv4;
         RStar (RAlt (RClass (fun c => unreserved c || subDelims c)) pctEncoded)].
Definition userinfo : regex :=
  RStar (RAlt (RClass (fun c => unreserved c || subDelims c || Ascii.eqb c ":")) pctEncoded).
Definition pchar : regex :=
  RAlt (RClass (fun c => unreserved c || subDelims c || oneof ":@" c)) pctEncoded.
Definition segments : regex := RStar (RCat (rchar "/") (RStar pchar)).
Definition hierPart : regex :=
  ralts [rseq [ropt (rchar "/"); rchar "/"; ropt (RCat userinfo (rchar "@")); host;
               ropt (RCat (rchar ":") (RStar digitClass)); segments];
         RCat (rchar "/") (ropt (RCat (rplus pchar) segments));
         RCat (rplus pchar) segments].
Definition queryOrFragment : regex :=
  RStar (RAlt (RClass (fun c => unreserved c || subDelims c || oneof ":@/?" c)) pctEncoded).
Definition URI : regex :=
  rseq [RClass letter; RStar (RClass (fun c => alphanumeric c || oneof "+-." c)); rchar ":";
        hierPart; ropt (RCat (rchar "?") queryOrFragment);
        ropt (RCat (rchar "#") queryOrFragment)].

Definition matchesFormat (format : AnswerFormat) (text : string) : bool :=
  match format with
  | Email => matches EMAIL text
  | Uri => matches URI text
  | Date => isDate text
  | DateTime => isDateTime text
  end.

(** ** Rendered texts *)

Definition digitChar (d : Z) : ascii := ascii_of_N (Z.to_N (48 + d)).

(** [n] decimal digits of [v]. *)
Fixpoint pad (n : nat) (v : Z) : string :=
  match n with
  | O => EmptyString
  | S n' => String (digitChar ((v / 10 ^ Z.of_nat n') mod 10)) (pad n' v)
  end.

Lemma digit_digitChar d : 0 <= d < 10 -> digit (digitChar d) = Some d.
Proof.
  intros H. assert (Hd : d ∈ [0; 1; 2; 3; 4; 5; 6; 7; 8; 9]).
  { rewrite !elem_of_cons. lia. }
  rewrite !elem_of_cons, elem_of_nil in Hd.
  destruct_or? Hd; subst; try done; reflexivity.
Qed.

Lemma append_cons c s t : (String c s ++ t)%string = String c (s ++ t)%string.
Proof. done. Qed.

Lemma append_empty t : ("" ++ t)%string = t.
Proof. done. Qed.

Lemma digits_pad n acc v rest : 0 <= v ->
  digits n acc (pad n v ++ rest) = Some (acc * 10 ^ Z.of_nat n + v mod 10 ^ Z.of_nat n, rest).
Proof.
  intros Hv. revert acc. induction n as [|n IH]; intros acc; cbn [pad]; rewrite ?append_cons, ?append_empty; cbn [digits].
  - rewrite Z.mod_1_r. f_equal. f_equal. lia.
  - rewrite digit_digitChar by (apply Z.mod_pos_bound; lia). simpl. rewrite IH. f_equal. f_equal.
    replace (Z.of_nat (S n)) with (Z.succ (Z.of_nat n)) by lia. rewrite Z.pow_succ_r by lia.
    rewrite (Z.mul_comm 10 (10 ^ _)), (Z.rem_mul_r v) by lia. ring.
Qed.

Lemma digits_pad_small n v rest : 0 <= v < 10 ^ Z.of_nat n ->
  digits n 0 (pad n v ++ rest) = Some (v, rest).
Proof. intros H. rewrite digits_pad, Z.mod_small by lia. f_equal. Qed.

(** Characters that start no separator. *)
Definition plain (c : ascii) : bool :=
  (N_of_ascii c <? 128)%N && negb (bool_decide (N_of_ascii c ∈ [116; 84; 9; 10; 11; 12; 13; 32]%N)).

Fixpoint plainText (s : string) : bool :=
  match s with EmptyString => true | String c s' => plain c && plainText s' end.

Lemma separatorLength_plain c s : plain c = true -> separatorLength (String c s) = None.
Proof.
  unfold plain. intros [Hlt Hni]%andb_prop.
  apply N.ltb_lt in Hlt. apply negb_true_iff, bool_decide_eq_false in Hni.
  unfold separatorLength. cbv zeta.
  rewrite bool_decide_false by done.
  destruct s as [|d s]; [done|].
  rewrite bool_decide_false by (intros [=]; lia).
  destruct s as [|e s]; [done|].
  rewrite !(bool_decide_false (_ = _)) by (intros [=]; lia). done.
Qed.

Lemma splitDateTime_plain s : plainText s = true -> splitDateTime 0 s = [s].
Proof.
  induction s as [|c s IH]; [done|]. simpl plainText. intros [Hc Hs]%andb_prop.
  cbn [splitDateTime]. rewrite separatorLength_plain by done. by rewrite IH.
Qed.

Lemma splitDateTime_T s t : plainText s = true -> plainText t = true ->
  splitDateTime 0 (s ++ String "T" t) = [s; t].
Proof.
  intros Hs Ht. induction s as [|c s IH]; rewrite ?append_cons, ?append_empty.
  - cbn [splitDateTime]. change (separatorLength (String "T" t)) with (Some 1%nat).
    cbn [Nat.pred]. by rewrite splitDateTime_plain.
  - simpl in Hs. apply andb_prop in Hs as [Hc Hs].
    cbn [splitDateTime]. rewrite separatorLength_plain by done. by rewrite IH.
Qed.

Lemma plainText_app s t : plainText (s ++ t) = plainText s && plainText t.
Proof.
  induction s as [|c s IH]; [done|]. rewrite append_cons. simpl. by rewrite IH, andb_assoc.
Qed.

Lemma plain_digitChar d : 0 <= d < 10 -> plain (digitChar d) = true.
Proof.
  intros H. assert (Hd : d ∈ [0; 1; 2; 3; 4; 5; 6; 7; 8; 9]).
  { rewrite !elem_of_cons. lia. }
  rewrite !elem_of_cons, elem_of_nil in Hd. destruct_or? Hd; subst; try done; reflexivity.
Qed.

Lemma plainText_pad n v : plainText (pad n v) = true.
Proof.
  induction n; simpl; [done|]. rewrite plain_digitChar; [done|]. apply Z.mod_pos_bound. lia.
Qed.

Local Open Scope string_scope.

Definition dateText (year month day : Z) : string :=
  pad 4 year ++ "-" ++ pad 2 month ++ "-" ++ pad 2 day.

Definition timeText (h m s : Z) (east : bool) (oh om : Z) : string :=
  pad 2 h ++ ":" ++ pad 2 m ++ ":" ++ pad 2 s ++
  String (if east then "+" else "-") "" ++ pad 2 oh ++ ":" ++ pad 2 om.

Local Close Scope string_scope.

Lemma append_nil s : (s ++ "")%string = s.
Proof. induction s as [|c s IH]; [done|]. by rewrite append_cons, IH. Qed.

Lemma expect_here c s : expect c (String c "" ++ s)%string = Some s.
Proof. rewrite append_cons, append_empty. simpl. by rewrite Ascii.eqb_refl. Qed.

(** Read the next digits or separator of a rendered text. *)
Ltac read_text :=
  repeat first
    [ rewrite digits_pad_small by (simpl; lia)
    | rewrite expect_here ];
  cbn [mbind option_bind].

Lemma DATE_dateText y m d : 0 <= y <= 9999 -> 0 <= m <= 99 -> 0 <= d <= 99 ->
  DATE (dateText y m d) = Some (y, m, d).
Proof.
  intros. unfold DATE, dateText. rewrite <- (append_nil (pad 2 d)).
  do 5 read_text. done.
Qed.

Lemma secondsText_pad s sign rest : 0 <= s <= 99 ->
  secondsText (pad 2 s ++ (String (if sign : bool then "+" else "-") "" ++ rest))%string
  = Some (mkSeconds s 0 0, (String (if sign then "+" else "-") "" ++ rest)%string).
Proof. intros. unfold secondsText. read_text. by destruct sign. Qed.

Lemma zoneText_pad (east : bool) oh om : 0 <= oh <= 99 -> 0 <= om <= 99 ->
  zoneText (String (if east then "+" else "-") "" ++ pad 2 oh ++ ":" ++ pad 2 om)%string
  = Some (if east then 1 else -1, oh, om).
Proof.
  intros. rewrite <- (append_nil (pad 2 om)).
  destruct east; rewrite append_cons, append_empty;
    unfold zoneText; rewrite digits_pad_small by (simpl; lia);
    cbn [mbind option_bind Ascii.eqb Bool.eqb orb]; rewrite append_cons, append_empty;
    read_text; done.
Qed.

Lemma TIME_timeText h m s east oh om :
  0 <= h <= 99 -> 0 <= m <= 99 -> 0 <= s <= 99 -> 0 <= oh <= 99 -> 0 <= om <= 99 ->
  TIME (timeText h m s east oh om) =
    Some (mkClock h m (mkSeconds s 0 0) (if east then 1 else -1) oh om).
Proof.
  intros. unfold TIME, timeText. do 4 read_text.
  rewrite secondsText_pad by done. cbn [mbind option_bind].
  rewrite zoneText_pad by done. done.
Qed.

Lemma plain_texts y mo d h m s east oh om :
  plainText (dateText y mo d) = true /\ plainText (timeText h m s east oh om) = true.
Proof.
  unfold dateText, timeText. rewrite !plainText_app, !plainText_pad. by destruct east.
Qed.

(** The leap second: 23:59 in UTC, a day being 1440 minutes. *)
Lemma leap_utc h m east oh om :
  0 <= h <= 23 -> 0 <= m <= 59 -> 0 <= oh <= 23 -> 0 <= om <= 59 ->
  isLeapSecond (mkClock h m (mkSeconds 60 0 0) (if (east : bool) then 1 else -1) oh om) = true <->
  (h * 60 + m - (if east then 1 else -1) * (oh * 60 + om)) mod 1440 = 1439.
Proof.
  intros. unfold isLeapSecond. cbv [hour minute second offsetSign offsetHour offsetMinute].
  change (secondsBelow _ 61) with true. rewrite andb_true_r, andb_true_iff, !orb_true_iff, !Z.eqb_eq.
  set (k := (h * 60 + m - (if east then 1 else -1) * (oh * 60 + om)) / 1440).
  pose proof (Z.div_mod (h * 60 + m - (if east then 1 else -1) * (oh * 60 + om)) 1440 ltac:(lia)) as Hd.
  pose proof (Z.mod_pos_bound (h * 60 + m - (if east then 1 else -1) * (oh * 60 + om)) 1440
    ltac:(lia)) as Hb.
  fold k in Hd. destruct east; case_match eqn:Hm; apply Z.ltb_lt in Hm || apply Z.ltb_ge in Hm;
    split; intros; try lia.
Qed.

(** which date-time answers are accepted.  A written date and time with an
    offset is accepted exactly when the date exists in the Gregorian calendar,
    the offset is below a day, and the clock reads an ordinary time or the
    leap second 23:59:60 of UTC. *)
Theorem date_time_exact y mo d h m s east oh om :
  0 <= y <= 9999 -> 0 <= mo <= 99 -> 0 <= d <= 99 ->
  0 <= h <= 23 -> 0 <= m <= 59 -> 0 <= s <= 99 -> 0 <= oh <= 99 -> 0 <= om <= 99 ->
  matchesFormat DateTime (dateText y mo d ++ String "T" (timeText h m s east oh om)) = true <->
  (1 <= mo <= 12 /\ 1 <= d <= daysIn y mo) /\ (oh <= 23 /\ om <= 59) /\
  (s <= 59 \/
   s = 60 /\ (h * 60 + m - (if east then 1 else -1) * (oh * 60 + om)) mod 1440 = 1439).
Proof.
  intros. destruct (plain_texts y mo d h m s east oh om) as [Hd Ht].
  simpl. unfold isDateTime. rewrite splitDateTime_T by done.
  unfold isDate, isTime. rewrite DATE_dateText, TIME_timeText by lia.
  rewrite !andb_true_iff, orb_true_iff. simpl offsetHour. simpl offsetMinute.
  unfold isCalendarDay. rewrite !andb_true_iff, !Z.leb_le.
  unfold isOrdinaryTime. simpl hour. simpl minute. simpl second.
  rewrite !andb_true_iff, !Z.leb_le.
  assert (Hs60 : secondsBelow (mkSeconds s 0 0) 60 = true <-> s <= 59).
  { unfold secondsBelow. rewrite Z.ltb_lt. simpl. lia. }
  rewrite Hs60. destruct (decide (s <= 59)) as [Hle|Hgt]; [intuition lia|].
  destruct (decide (s = 60)) as [->|Hne].
  - split.
    + intros (? & [? ?] & [?|Hl]); [lia|]. split_and!; try lia. right. split; [done|].
      apply leap_utc in Hl; lia.
    + intros (? & ? & [?|[_ Hl]]); [lia|]. split_and!; try lia. right. apply leap_utc; lia.
  - assert (isLeapSecond (mkClock h m (mkSeconds s 0 0) (if east then 1 else -1) oh om) = false) as ->.
    { unfold isLeapSecond. apply andb_false_intro2. unfold secondsBelow. apply Z.ltb_ge. simpl. lia. }
    intuition (lia || done).
Qed.

(** 2016-12-31T18:59:60-05:00, the last leap second, and a date not in the
    calendar. *)
Lemma date_time_exact_witness :
  matchesFormat DateTime (dateText 2016 12 31 ++ String "T" (timeText 18 59 60 false 5 0)) = true /\
  ~ matchesFormat DateTime (dateText 2023 2 29 ++ String "T" (timeText 0 0 0 true 0 0)) = true.
Proof.
  split.
  - apply (date_time_exact 2016 12 31 18 59 60 false 5 0); vm_compute; intuition discriminate.
  - intros H. apply (date_time_exact 2023 2 29 0 0 0 true 0 0) in H; vm_compute in H |- *;
      intuition congruence.
Defined.

Example uri_ex : map (matchesFormat Uri)
  ["https://a.b/c?d#e"; "urn:x:y"; "no scheme"; "http://[::1]/"]%string = [true; true; false; true].
Proof. vm_compute. reflexivity. Qed.
Example email_ex : map (matchesFormat Email) ["a.b@c.de"; "a@b"; ".a@b.c"]%string = [true; false; false].
Proof. vm_compute. reflexivity. Qed.
Example dt_ex : map (matchesFormat DateTime)
  ["2024-02-29T23:59:60Z"; "2023-02-29T00:00:00Z"; "2024-01-01 10:00:00.5+0130"; "2024-01-01T10:00:00"]%string
   = [true; false; true; false].
Proof. vm_compute. reflexivity. Qed.

End AnswerFormats.
