(* ===== verification/Validation.v ===== *)
(** Validation: an answer against the form of its question
    (packages/client/src/communication/collectives/validation.ts and the
    answer texts of forms.ts).

    The text of a number and of a JSON-quoted name are the runtime's; they
    are arguments. *)
From S2P Require Import Prelude JsMap Json JsString FormGrammar AnswerFormats.
From Stdlib Require Import QArith Qcanon Ascii.
From stdpp Require Import pretty.
Import FormGrammar AnswerFormats.
Local Open Scope string_scope.

Module Validation.

(** The value of one answer field. *)
Inductive AnswerValue :=
  | AString (s : string)
  | ANumber (n : Qc)
  | ABoolean (b : bool)
  | AArray (items : list string).

Abbreviation AnswerContent := (list (string * AnswerValue)).

Inductive CollectiveResponse :=
  | Accept (content : AnswerContent)
  | Decline.

Inductive FieldReason := Missing | Unexpected | Invalid.

Record AnswerFieldFailure := mkFailure {
  field : string;
  reason : FieldReason;
  detail : option string;
}.

Inductive CollectiveMemberOutcome :=
  | Answered (content : AnswerContent)
  | Declined
  | InvalidAnswer (text : string)
  | NoAnswer
  | Withheld.

Section validation.
Context (numberText : Qc -> string) (jsonQuote : string -> string).

Definition ALLOWED_VALUES : string := "must be one of the allowed values".

(** [Number.isInteger] of the exact value. *)
Definition isInteger (n : Qc) : bool := Pos.eqb (Qden n) 1.

(** Code points of a UTF-8 text: its bytes that do not continue one. *)
Fixpoint codePoints (s : string) : nat :=
  match s with
  | EmptyString => 0
  | String c s' =>
      let n := N_of_ascii c in
      if (128 <=? n)%N && (n <? 192)%N then codePoints s' else S (codePoints s')
  end.

Definition lengthNumber (n : nat) : Qc := Q2Qc (inject_Z (Z.of_nat n)).

(** [field.type]. *)
Definition fieldType (f : FormField) : string :=
  match f with
  | UntitledSingleSelectEnum _ _ _ | TitledSingleSelectEnum _ _ _
  | StringField _ _ _ _ _ => "string"
  | MultiSelectEnum _ _ _ _ _ => "array"
  | BooleanField _ _ => "boolean"
  | NumberField TNumber _ _ _ _ => "number"
  | NumberField TInteger _ _ _ _ => "integer"
  end.

Definition hasType (f : FormField) (value : AnswerValue) : bool :=
  match f, value with
  | UntitledSingleSelectEnum _ _ _, AString _ | TitledSingleSelectEnum _ _ _, AString _
  | StringField _ _ _ _ _, AString _ => true
  | NumberField TNumber _ _ _ _, ANumber _ => true
  | NumberField TInteger _ _ _ _, ANumber n => isInteger n
  | BooleanField _ _, ABoolean _ => true
  | MultiSelectEnum _ _ _ _ _, AArray _ => true
  | _, _ => false
  end.

Definition typeIssues (f : FormField) (value : AnswerValue) : list string :=
  if hasType f value then [] else ["type: must be " ++ fieldType f].

(** [bound !== undefined && failed ? [text] : []]. *)
Definition boundIssue (bound : option Qc) (failed : Qc -> bool) (text : string -> string) :
    list string :=
  match bound with
  | Some b => if failed b then [text (numberText b)] else []
  | None => []
  end.

Definition stringLimitIssues (f : FormField) (value : AnswerValue) : list string :=
  match f, value with
  | StringField _ minLength maxLength _ _, AString s =>
      let length := lengthNumber (codePoints s) in
      (boundIssue minLength (fun b => bool_decide (length < b)%Qc)
         (fun b => ("minLength: must have at least " ++ b ++ " characters")%string) ++
       boundIssue maxLength (fun b => bool_decide (b < length)%Qc)
         (fun b => ("maxLength: must have at most " ++ b ++ " characters")%string))%list
  | _, _ => []
  end.

Definition numberLimitIssues (f : FormField) (value : AnswerValue) : list string :=
  match f, value with
  | NumberField _ _ minimum maximum _, ANumber n =>
      (boundIssue minimum (fun b => bool_decide (n < b)%Qc)
         (fun b => ("minimum: must be >= " ++ b)%string) ++
       boundIssue maximum (fun b => bool_decide (b < n)%Qc)
         (fun b => ("maximum: must be <= " ++ b)%string))%list
  | _, _ => []
  end.

Definition arrayLimitIssues (f : FormField) (value : AnswerValue) : list string :=
  match f, value with
  | MultiSelectEnum _ minItems maxItems _ _, AArray l =>
      let length := lengthNumber (length l) in
      (boundIssue minItems (fun b => bool_decide (length < b)%Qc)
         (fun b => ("minItems: must have at least " ++ b ++ " items")%string) ++
       boundIssue maxItems (fun b => bool_decide (b < length)%Qc)
         (fun b => ("maxItems: must have at most " ++ b ++ " items")%string))%list
  | _, _ => []
  end.

(** The [switch] of [limitIssues] on the field's type. *)
Definition limitIssues (f : FormField) (value : AnswerValue) : list string :=
  match f with
  | UntitledSingleSelectEnum _ _ _ | TitledSingleSelectEnum _ _ _
  | StringField _ _ _ _ _ => stringLimitIssues f value
  | NumberField _ _ _ _ _ => numberLimitIssues f value
  | MultiSelectEnum _ _ _ _ _ => arrayLimitIssues f value
  | BooleanField _ _ => []
  end.

Definition formatIssues (f : FormField) (value : AnswerValue) : list string :=
  match f, value with
  | StringField _ _ _ (Some format) _, AString s =>
      if matchesFormat format s then []
      else ["format: must match format " ++ String "034" (formatName format ++ String "034" EmptyString)]
  | _, _ => []
  end.

Definition isString (value : AnswerValue) (s : string) : bool :=
  match value with AString t => bool_decide (t = s) | _ => false end.

Definition enumIssues (f : FormField) (value : AnswerValue) : list string :=
  match f with
  | UntitledSingleSelectEnum _ enum _ =>
      if existsb (isString value) enum then [] else ["enum: " ++ ALLOWED_VALUES]
  | _ => []
  end.

Definition oneOfIssues (f : FormField) (value : AnswerValue) : list string :=
  match f with
  | TitledSingleSelectEnum _ oneOf _ =>
      if Nat.eqb (length (List.filter (fun option => isString value option.1) oneOf)) 1 then []
      else ["oneOf: must equal exactly one option's const"]
  | _ => []
  end.

Definition selectedItemIssues (items : MultiSelectItems) (item : string) (index : nat) :
    list string :=
  match items with
  | ItemsEnum enum =>
      if bool_decide (item ∈ enum) then []
      else ["items[" ++ pretty index ++ "].enum: " ++ ALLOWED_VALUES]
  | ItemsAnyOf anyOf =>
      if existsb (fun option => bool_decide (option.1 = item)) anyOf then []
      else ["items[" ++ pretty index ++ "].anyOf: must equal some option's const"]
  end.

Definition itemIssues (f : FormField) (value : AnswerValue) : list string :=
  match f, value with
  | MultiSelectEnum _ _ _ _ items, AArray l =>
      concat (imap (fun index item => selectedItemIssues items item index) l)
  | _, _ => []
  end.

Definition keywordChecks : list (FormField -> AnswerValue -> list string) :=
  [typeIssues; limitIssues; formatIssues; enumIssues; oneOfIssues; itemIssues].

Definition answerIssues (f : FormField) (value : AnswerValue) : list string :=
  concat ((fun check => check f value) <$> keywordChecks).

(** [issues.join(", ")]. *)
Definition joinIssues (issues : list string) : string := String.concat ", " issues.

Definition fieldFailure (requestedSchema : FormModeSchema) (content : AnswerContent)
    (name : string) : option AnswerFieldFailure :=
  match jm_get (properties requestedSchema) name with
  | None => Some (mkFailure name Unexpected None)
  | Some definition =>
      match jm_get content name with
      | None =>
          if bool_decide (name ∈ default [] (required requestedSchema))
          then Some (mkFailure name Missing None) else None
      | Some value =>
          match answerIssues definition value with
          | [] => None
          | issues => Some (mkFailure name Invalid (Some (joinIssues issues)))
          end
      end
  end.

(** [new Set([...a, ...b])], in insertion order. *)
Fixpoint insertionSet (seen names : list string) : list string :=
  match names with
  | [] => []
  | n :: names' =>
      if bool_decide (n ∈ seen) then insertionSet seen names'
      else n :: insertionSet (n :: seen) names'
  end.

Definition validateAnswer (requestedSchema : FormModeSchema) (content : AnswerContent) :
    Exit (list AnswerFieldFailure) AnswerContent :=
  let fields := insertionSet []
    (jm_keys (properties requestedSchema) ++ jm_keys content)%list in
  match omap (fieldFailure requestedSchema content) fields with
  | [] => Succeed content
  | failures => Fail_ failures
  end.

Definition answerFieldText (r : FieldReason) : string :=
  match r with
  | Missing => "is missing" | Unexpected => "is not in the form" | Invalid => "is invalid"
  end.

Definition answerFieldsText (fields : list AnswerFieldFailure) : string :=
  String.concat "; " ((fun f =>
    let named := "field " ++ jsonQuote (field f) ++ " " ++ answerFieldText (reason f) in
    match detail f with None => named | Some d => named ++ " (" ++ d ++ ")" end) <$> fields).

Definition outcomeOfResponse (requestedSchema : FormModeSchema)
    (response : CollectiveResponse) : CollectiveMemberOutcome :=
  match response with
  | Accept content =>
      match validateAnswer requestedSchema content with
      | Succeed content => Answered content
      | Fail_ fields => InvalidAnswer (answerFieldsText fields)
      end
  | Decline => Declined
  end.

(** ** What a field accepts *)

Definition above (bound : option Qc) (n : Qc) : Prop :=
  forall b, bound = Some b -> (b <= n)%Qc.
Definition below (bound : option Qc) (n : Qc) : Prop :=
  forall b, bound = Some b -> (n <= b)%Qc.

Definition itemAllowed (items : MultiSelectItems) (item : string) : Prop :=
  match items with
  | ItemsEnum enum => item ∈ enum
  | ItemsAnyOf anyOf => item ∈ anyOf.*1
  end.

(** The JSON Schema meaning of a form field, independent of the checks. *)
Definition accepts (f : FormField) (value : AnswerValue) : Prop :=
  match f with
  | UntitledSingleSelectEnum _ enum _ => exists s, value = AString s /\ s ∈ enum
  | TitledSingleSelectEnum _ oneOf _ =>
      exists s pre title post, value = AString s /\ oneOf = pre ++ (s, title) :: post /\
        s ∉ pre.*1 /\ s ∉ post.*1
  | MultiSelectEnum _ minItems maxItems _ items =>
      exists l, value = AArray l /\ above minItems (lengthNumber (length l)) /\
        below maxItems (lengthNumber (length l)) /\ Forall (itemAllowed items) l
  | BooleanField _ _ => exists b, value = ABoolean b
  | StringField _ minLength maxLength format _ =>
      exists s, value = AString s /\ above minLength (lengthNumber (codePoints s)) /\
        below maxLength (lengthNumber (codePoints s)) /\
        forall fmt, format = Some fmt -> matchesFormat fmt s = true
  | NumberField ty _ minimum maximum _ =>
      exists n, value = ANumber n /\ (ty = TInteger -> isInteger n = true) /\
        above minimum n /\ below maximum n
  end%list.

Lemma boundIssue_above bound n text :
  boundIssue bound (fun b => bool_decide (n < b)%Qc) text = [] <-> above bound n.
Proof.
  unfold boundIssue, above. destruct bound as [b|]; [|naive_solver].
  case_bool_decide as Hb.
  - split; [done|]. intros H. exfalso. apply (Qcle_not_lt _ _ (H b eq_refl)). done.
  - split; [|done]. intros _ ? [= <-]. by apply Qcnot_lt_le.
Qed.

Lemma boundIssue_below bound n text :
  boundIssue bound (fun b => bool_decide (b < n)%Qc) text = [] <-> below bound n.
Proof.
  unfold boundIssue, below. destruct bound as [b|]; [|naive_solver].
  case_bool_decide as Hb.
  - split; [done|]. intros H. exfalso. apply (Qcle_not_lt _ _ (H b eq_refl)). done.
  - split; [|done]. intros _ ? [= <-]. by apply Qcnot_lt_le.
Qed.

Lemma app_nil_iff {A} (l k : list A) : (l ++ k = [] <-> l = [] /\ k = [])%list.
Proof. split; [apply app_eq_nil|by intros [-> ->]]. Qed.

Lemma concat_nil_iff {A} (ls : list (list A)) : concat ls = [] <-> Forall (fun l => l = []) ls.
Proof.
  induction ls as [|l ls IH]; simpl; [naive_solver|].
  by rewrite app_nil_iff, IH, Forall_cons.
Qed.

Lemma selectedItemIssues_nil items item index :
  selectedItemIssues items item index = [] <-> itemAllowed items item.
Proof.
  destruct items as [enum|anyOf]; simpl.
  - case_bool_decide; naive_solver.
  - destruct (existsb _ _) eqn:He.
    + split; [|done]. intros _. apply existsb_exists in He as ([c t] & Hin & Hc).
      apply bool_decide_eq_true in Hc as <-. apply list_elem_of_fmap. exists (c, t).
      split; [done|]. by apply list_elem_of_In.
    + split; [done|]. intros Hin. apply list_elem_of_fmap in Hin as ([c t] & -> & Hin).
      exfalso. apply not_true_iff_false in He. apply He, existsb_exists.
      exists (c, t). split; [by apply list_elem_of_In|]. by apply bool_decide_eq_true.
Qed.

Lemma itemIssues_nil lb mi ma d items l :
  itemIssues (MultiSelectEnum lb mi ma d items) (AArray l) = [] <->
  Forall (itemAllowed items) l.
Proof.
  simpl. rewrite concat_nil_iff, !Forall_lookup. setoid_rewrite list_lookup_imap.
  split.
  - intros H i item Hi. specialize (H i (selectedItemIssues items item i)).
    rewrite Hi in H. simpl in H. by eapply selectedItemIssues_nil, H.
  - intros H i issues. destruct (l !! i) as [item|] eqn:Hi; [|done].
    intros [= <-]. apply selectedItemIssues_nil. by eapply H.
Qed.

Lemma enumIssues_nil lb enum d value :
  enumIssues (UntitledSingleSelectEnum lb enum d) value = [] <->
  exists s, value = AString s /\ s ∈ enum.
Proof.
  simpl. destruct (existsb _ _) eqn:He.
  - split; [|done]. intros _. apply existsb_exists in He as (s & Hin & Hs).
    destruct value; try done. apply bool_decide_eq_true in Hs as ->.
    exists s. split; [done|]. by apply list_elem_of_In.
  - split; [done|]. intros (s & -> & Hin). exfalso.
    apply not_true_iff_false in He. apply He, existsb_exists. exists s.
    split; [by apply list_elem_of_In|]. by apply bool_decide_eq_true.
Qed.

Lemma filter_const_none (s : string) (options : list (string * string)) :
  s ∉ options.*1 <->
  List.filter (fun option => isString (AString s) option.1) options = [].
Proof.
  induction options as [|[c t] options IH]; simpl; [set_solver|].
  case_bool_decide; simpl.
  - split; [|done]. set_solver.
  - rewrite <- IH. set_solver.
Qed.

Lemma filter_const_one (s : string) (options : list (string * string)) :
  length (List.filter (fun option => isString (AString s) option.1) options) = 1%nat <->
  exists pre title post, options = (pre ++ (s, title) :: post)%list /\
    s ∉ pre.*1 /\ s ∉ post.*1.
Proof.
  split.
  - induction options as [|[c t] options IH]; simpl; [done|].
    case_bool_decide as Hc; simpl.
    + intros Hlen. injection Hlen as Hlen. subst c. exists [], t, options.
      split_and!; [done|set_solver|]. apply filter_const_none. simpl.
      by destruct (List.filter _ _).
    + intros (pre & title & post & -> & Hpre & Hpost)%IH.
      exists ((c, t) :: pre), title, post. split_and!; [done| |done]. set_solver.
  - intros (pre & title & post & -> & Hpre & Hpost).
    rewrite List.filter_app. simpl. rewrite bool_decide_true by done.
    apply filter_const_none in Hpre, Hpost. simpl in Hpre, Hpost.
    by rewrite Hpre, Hpost.
Qed.

Lemma oneOfIssues_nil lb oneOf d value :
  oneOfIssues (TitledSingleSelectEnum lb oneOf d) value = [] <->
  exists s, value = AString s /\
    exists pre title post, oneOf = (pre ++ (s, title) :: post)%list /\
      s ∉ pre.*1 /\ s ∉ post.*1.
Proof.
  unfold oneOfIssues. destruct value as [s| | |];
    [|split; [|naive_solver]; simpl; replace (List.filter _ _) with (@nil (string * string))
      by (clear; induction oneOf; done); done..].
  destruct (Nat.eqb _ 1) eqn:Hn.
  - apply Nat.eqb_eq, filter_const_one in Hn. naive_solver.
  - apply Nat.eqb_neq in Hn. rewrite filter_const_one in Hn. naive_solver.
Qed.

Lemma formatIssues_nil lb mi ma fmt d s :
  formatIssues (StringField lb mi ma fmt d) (AString s) = [] <->
  forall fm, fmt = Some fm -> matchesFormat fm s = true.
Proof.
  unfold formatIssues. destruct fmt as [fm|]; [|by split].
  destruct (matchesFormat fm s) eqn:Hm.
  - split; [|done]. by intros _ ? [= <-].
  - split; [done|]. intros H. specialize (H fm eq_refl). congruence.
Qed.

Lemma typeIssues_nil f value : typeIssues f value = [] <-> hasType f value = true.
Proof. unfold typeIssues. by destruct (hasType f value). Qed.

(** The keyword checks together are the field's JSON Schema. *)
Lemma answerIssues_nil f value : answerIssues f value = [] <-> accepts f value.
Proof.
  unfold answerIssues, keywordChecks. rewrite concat_nil_iff, !fmap_cons, !Forall_cons.
  change (fmap _ []) with (@nil (list string)).
  destruct f as [lb enum d|lb oneOf d|lb mi ma d items|lb d|lb mi ma fmt d|ty lb mi ma d];
    cbn [accepts].
  - rewrite enumIssues_nil. unfold typeIssues, limitIssues. simpl. split; [naive_solver|].
    intros (s & -> & Hs). naive_solver.
  - rewrite oneOfIssues_nil. unfold typeIssues, limitIssues. simpl. split; [naive_solver|].
    intros (s & pre & t & post & -> & Hs). naive_solver.
  - destruct value as [| | |l]; [naive_solver..|]. rewrite itemIssues_nil.
    unfold limitIssues, arrayLimitIssues. cbv zeta.
    rewrite app_nil_iff, boundIssue_above, boundIssue_below. simpl. naive_solver.
  - destruct value; simpl; naive_solver.
  - destruct value as [s| | |]; [|naive_solver..].
    unfold limitIssues, stringLimitIssues. cbv zeta.
    rewrite app_nil_iff, boundIssue_above, boundIssue_below.
    rewrite formatIssues_nil. unfold typeIssues. simpl. naive_solver.
  - destruct value as [|n| |];
      [split; [intros [Ht _]; by destruct ty|by intros (? & ? & _)]|
      |split; [intros [Ht _]; by destruct ty|by intros (? & ? & _)]..].
    unfold limitIssues, numberLimitIssues.
    rewrite app_nil_iff, boundIssue_above, boundIssue_below, typeIssues_nil.
    split.
    + intros (Ht & (? & ?) & _). exists n. split_and!; [done| |done..]. by intros ->.
    + intros (n' & [= <-] & Ht & ? & ?).
      split_and!; [by destruct ty; [|apply Ht]|done..|by constructor].
Qed.

Lemma insertionSet_spec seen names :
  NoDup (insertionSet seen names) /\
  forall n, n ∈ insertionSet seen names <-> n ∈ names /\ n ∉ seen.
Proof.
  revert seen. induction names as [|m names IH]; intros seen; cbn [insertionSet].
  - split; [constructor|set_solver].
  - case_bool_decide as Hm; destruct (IH seen) as [Hn1 He1].
    + split; [done|]. intros n. rewrite He1. set_solver.
    + destruct (IH (m :: seen)) as [Hn2 He2]. split.
      * constructor; [rewrite He2; set_solver|done].
      * intros n. rewrite elem_of_cons, He2. destruct (decide (n = m)); set_solver.
Qed.

(** A valid answer, said without the checks. *)
Definition answer_valid (schema : FormModeSchema) (content : AnswerContent) : Prop :=
  (forall name, jm_has content name = true -> jm_has (properties schema) name = true) /\
  (forall name f, jm_get (properties schema) name = Some f ->
     name ∈ default [] (required schema) -> jm_has content name = true) /\
  (forall name f value, jm_get (properties schema) name = Some f ->
     jm_get content name = Some value -> accepts f value).

(** What one failure says of its field. *)
Definition failure_holds (schema : FormModeSchema) (content : AnswerContent)
    (x : AnswerFieldFailure) : Prop :=
  match reason x with
  | Unexpected => jm_has content (field x) = true /\ jm_get (properties schema) (field x) = None
  | Missing => jm_get content (field x) = None /\ field x ∈ default [] (required schema) /\
      jm_has (properties schema) (field x) = true
  | Invalid => exists f value, jm_get (properties schema) (field x) = Some f /\
      jm_get content (field x) = Some value /\ ~ accepts f value
  end.

Lemma fieldFailure_field schema content name x :
  fieldFailure schema content name = Some x -> field x = name.
Proof. unfold fieldFailure. repeat case_match; intros; simplify_eq; done. Qed.

Lemma fieldFailure_some schema content x :
  (field x ∈ jm_keys (properties schema) \/ field x ∈ jm_keys content) ->
  fieldFailure schema content (field x) = Some x -> failure_holds schema content x.
Proof.
  intros Hk. unfold fieldFailure, failure_holds.
  destruct (jm_get (properties schema) (field x)) as [f|] eqn:Hf.
  - destruct (jm_get content (field x)) as [v|] eqn:Hc.
    + destruct (answerIssues f v) as [|i is'] eqn:Hi; [done|]. intros [= <-]. simpl in *.
      exists f, v. split_and!; [done..|]. intros Ha%answerIssues_nil. congruence.
    + case_bool_decide; [|done]. intros [= <-]. simpl in *.
      split_and!; [done..|]. unfold jm_has. by rewrite Hf.
  - intros [= <-]. simpl in *. split; [|done]. unfold jm_has.
    destruct Hk as [Hk|Hk]; apply jm_get_is_some in Hk as [? Hk]; [congruence|by rewrite Hk].
Qed.

Lemma fieldFailure_none schema content name :
  fieldFailure schema content name = None <->
  exists f, jm_get (properties schema) name = Some f /\
    match jm_get content name with
    | None => name ∉ default [] (required schema)
    | Some v => accepts f v
    end.
Proof.
  unfold fieldFailure. destruct (jm_get (properties schema) name) as [f|]; [|naive_solver].
  destruct (jm_get content name) as [v|].
  - destruct (answerIssues f v) eqn:Hi.
    + apply answerIssues_nil in Hi. naive_solver.
    + split; [done|]. intros (? & [= <-] & Ha%answerIssues_nil). congruence.
  - case_bool_decide; naive_solver.
Qed.

Lemma failures_none schema content :
  (forall name, name ∈ jm_keys (properties schema) \/ name ∈ jm_keys content ->
     fieldFailure schema content name = None) <-> answer_valid schema content.
Proof.
  unfold answer_valid, jm_has. split.
  - intros H. split_and!.
    + intros name. destruct (jm_get content name) eqn:Hc; [|done]. intros _.
      destruct (proj1 (fieldFailure_none schema content name)) as (f & -> & _); [|done].
      apply H. right. apply jm_get_is_some. eauto.
    + intros name f Hf Hr.
      destruct (proj1 (fieldFailure_none schema content name)) as (f' & _ & Hm).
      { apply H. left. apply jm_get_is_some. eauto. }
      by destruct (jm_get content name).
    + intros name f v Hf Hv.
      destruct (proj1 (fieldFailure_none schema content name)) as (f' & Hf' & Hm).
      { apply H. left. apply jm_get_is_some. eauto. }
      rewrite Hv in Hm. congruence.
  - intros (Hu & Hm & Ha) name Hk. apply fieldFailure_none.
    destruct (jm_get (properties schema) name) as [f|] eqn:Hf.
    + exists f. split; [done|]. destruct (jm_get content name) as [v|] eqn:Hc; [by eapply Ha|].
      intros Hr. specialize (Hm _ _ Hf Hr). by rewrite Hc in Hm.
    + exfalso. destruct Hk as [Hk|Hk]; apply jm_get_is_some in Hk as [? Hk]; [congruence|].
      specialize (Hu name). rewrite Hk, Hf in Hu. by specialize (Hu eq_refl).
Qed.

(** C28: validation accepts exactly the answers the form describes.  A valid
    answer is returned unchanged: it has only declared fields, every required
    one, and each value satisfies its field's JSON Schema.  Any other answer
    is refused with one failure for each failing field and no other, and each
    failure states what is wrong with its field. *)
Theorem validate_answer_exact schema content :
  match validateAnswer schema content with
  | Succeed answer => answer = content /\ answer_valid schema content
  | Fail_ failures =>
      ~ answer_valid schema content /\ failures <> [] /\
      NoDup (field <$> failures) /\
      (forall x, x ∈ failures -> failure_holds schema content x) /\
      (forall name, name ∈ jm_keys (properties schema) \/ name ∈ jm_keys content ->
         fieldFailure schema content name <> None -> name ∈ field <$> failures)
  end.
Proof.
  unfold validateAnswer. cbv zeta.
  destruct (insertionSet_spec [] (jm_keys (properties schema) ++ jm_keys content)%list)
    as [Hnd Hin].
  set (names := insertionSet [] _) in *.
  assert (Hkeys : forall n, n ∈ names <-> n ∈ jm_keys (properties schema) \/ n ∈ jm_keys content).
  { intros n. rewrite Hin, elem_of_app. set_solver. }
  assert (Hom : forall x, x ∈ omap (fieldFailure schema content) names <->
    field x ∈ names /\ fieldFailure schema content (field x) = Some x).
  { intros x. rewrite list_elem_of_omap. split.
    - intros (n & Hn & Hx). pose proof (fieldFailure_field _ _ _ _ Hx) as <-. done.
    - intros [? ?]. by exists (field x). }
  assert (Hfield : NoDup (field <$> omap (fieldFailure schema content) names)).
  { clear Hin Hkeys Hom. induction Hnd as [|n names Hn Hnd IH]; simpl; [constructor|].
    destruct (fieldFailure schema content n) as [x|] eqn:Hx; [|done]. simpl.
    constructor; [|done]. intros (y & Hy & (m & Hm & Hym)%list_elem_of_omap)%list_elem_of_fmap.
    apply fieldFailure_field in Hym, Hx. congruence. }
  destruct (omap _ names) as [|x xs] eqn:Hxs.
  - split; [done|]. apply failures_none. intros n Hn%Hkeys.
    destruct (fieldFailure schema content n) as [y|] eqn:Hy; [|done].
    pose proof (fieldFailure_field _ _ _ _ Hy) as <-.
    exfalso. apply (not_elem_of_nil (A := AnswerFieldFailure) y). by apply Hom.
  - split_and!; [|done|done| |].
    + intros Hv. rewrite <- failures_none in Hv.
      destruct (proj1 (Hom x) ltac:(left)) as [Hx Hfx].
      rewrite (Hv (field x)) in Hfx by (by apply Hkeys). done.
    + intros y [Hn Hy]%Hom. apply fieldFailure_some; [by apply Hkeys|done].
    + intros n Hn%Hkeys Hf. destruct (fieldFailure schema content n) as [y|] eqn:Hy; [|done].
      pose proof (fieldFailure_field _ _ _ _ Hy) as <-.
      apply list_elem_of_fmap. exists y. split; [done|]. by apply Hom.
Qed.

(** a titled select without options is admitted by the grammar, though
    no answer satisfies it: the guard that refuses a select with nothing to
    choose reads [enum] only, never [oneOf]. *)
Theorem titled_select_without_options :
  let property := JObject [("type", JString "string"); ("oneOf", JArray [])] in
  exists f, FormFieldSchema property = Some f /\
    forall value, answerIssues f value <> [].
Proof.
  eexists. split; [vm_compute; reflexivity|].
  intros value (s & pre & t & post & _ & Heq & _)%answerIssues_nil. by destruct pre.
Qed.

End validation.
End Validation.
