(* ===== verification/CollectivePart.v ===== *)
(** CollectivePart: collective values inside a post's content
    (packages/client/src/communication/collectives/part/index.ts, the value
    schemas of forms.ts, and the content schema of
    packages/client/src/communication/records/values.ts).

    A text is its bytes, a lone surrogate being its three-byte generalized
    encoding.  The JCS length of a content belongs to the canonicalize
    package and SHA-256 to node:crypto; both are arguments. *)
From S2P Require Import Prelude JsMap Json JsString Identifiers FormGrammar Validation.
From Stdlib Require Import QArith Qcanon Ascii.
Import Identifiers FormGrammar Validation.
Local Open Scope string_scope.

Module CollectivePart.

(** ** Content *)

Inductive ContentPart :=
  | TextPart (text : string)
  | DataPart (value : JsonValue).

Abbreviation PostContent := (list ContentPart).

Definition partWellFormed (p : ContentPart) : bool :=
  match p with
  | TextPart text => hasWellFormedUnicode text
  | DataPart value => wellFormedJson value
  end.

Definition maximumContentBytes : Z := 32768.

Section part.
Context `{Base64Url}.
Context (canonicalBytes : PostContent -> option Z).
Context (sha256Base64Url : string -> string).

Definition contentFits (content : PostContent) : bool :=
  match canonicalBytes content with
  | Some n => bool_decide (n <= maximumContentBytes)%Z
  | None => false
  end.

(** The [Content] schema. *)
Definition isContent (content : PostContent) : bool :=
  bool_decide (content <> []) && forallb partWellFormed content && contentFits content.

(** ** Identifiers and values *)

Definition CollectiveId (value : string) : bool := isCanonicalIdentifier "col_" value.
Definition RecordHash (value : string) : bool := isCanonicalIdentifier "rch_" value.

Definition isBase64UrlChar (c : ascii) : bool :=
  bool_decide (48 <= code c <= 57)%Z || bool_decide (65 <= code c <= 90)%Z ||
  bool_decide (97 <= code c <= 122)%Z || bool_decide (code c = 95)%Z ||
  bool_decide (code c = 45)%Z.

Definition CollectiveNonce (value : string) : bool :=
  bool_decide (String.length value = 43%nat) && string_all isBase64UrlChar value.

Definition COLLECTIVE_DATA_KEY : string := "org.social-harness/collective".
Definition collectiveIdDomain : string := "org.social-harness/collective-id".

Definition collectiveIdOf (requester nonce : string) : string :=
  "col_" ++ sha256Base64Url
    (collectiveIdDomain ++ String "000" (requester ++ String "000" nonce)).

Definition MAXIMUM_DEADLINE_SECONDS : Z := 2592000.
Definition MAXIMUM_EPOCH_MILLIS : Z := 8640000000000000.

Inductive CollectingOp := Gather | AllGather.

Inductive CollectiveValue :=
  | MulticastOperation
  | CollectingOperation (op : CollectingOp) (id nonce : string) (deadlineAt : Z)
      (requestedSchema : FormModeSchema)
  | ResponseValue (id : string) (response : CollectiveResponse)
  | CollectiveClose (id : string) (included : list string).

(** ** Decoding *)

Definition EpochMillis (v : JsonValue) : option Z :=
  match FiniteNumber v with
  | Some n =>
      if isInteger n && bool_decide (1 <= Qnum n <= MAXIMUM_EPOCH_MILLIS)%Z
      then Some (Qnum n) else None
  | None => None
  end.

Definition decodeOp (v : JsonValue) : option CollectingOp :=
  s ← decodeString v;
  if bool_decide (s = "gather") then Some Gather
  else if bool_decide (s = "all_gather") then Some AllGather else None.

Definition decodeMulticast (v : JsonValue) : option CollectiveValue :=
  o ← exactStruct ["kind"; "op"] v;
  _ ← keyword (literal "operation") o "kind";
  _ ← keyword (literal "multicast") o "op";
  Some MulticastOperation.

Definition decodeCollecting (v : JsonValue) : option CollectiveValue :=
  o ← exactStruct ["kind"; "op"; "id"; "nonce"; "deadlineAt"; "requestedSchema"] v;
  _ ← keyword (literal "operation") o "kind";
  op ← keyword decodeOp o "op";
  id ← keyword (filtered CollectiveId) o "id";
  nonce ← keyword (filtered CollectiveNonce) o "nonce";
  deadlineAt ← keyword EpochMillis o "deadlineAt";
  requestedSchema ← keyword decodeFormModeSchema o "requestedSchema";
  Some (CollectingOperation op id nonce deadlineAt requestedSchema).

Definition decodeAnswerValue (v : JsonValue) : option AnswerValue :=
  match v with
  | JString s => Some (AString s)
  | JNumber n => Some (ANumber n)
  | JBool b => Some (ABoolean b)
  | JArray _ => AArray <$> StringList v
  | _ => None
  end.

Definition decodeAnswerContent (v : JsonValue) : option AnswerContent :=
  o ← asObject v;
  mapM (fun '(k, p) => a ← decodeAnswerValue p; Some (k, a)) o.

Definition decodeResponse (v : JsonValue) : option CollectiveValue :=
  match
    (o ← exactStruct ["kind"; "id"; "action"; "content"] v;
     _ ← keyword (literal "response") o "kind";
     id ← keyword (filtered CollectiveId) o "id";
     _ ← keyword (literal "accept") o "action";
     content ← keyword decodeAnswerContent o "content";
     Some (ResponseValue id (Accept content)))
  with
  | Some response => Some response
  | None =>
      o ← exactStruct ["kind"; "id"; "action"] v;
      _ ← keyword (literal "response") o "kind";
      id ← keyword (filtered CollectiveId) o "id";
      _ ← keyword (literal "decline") o "action";
      Some (ResponseValue id Decline)
  end.

Definition decodeClose (v : JsonValue) : option CollectiveValue :=
  o ← exactStruct ["kind"; "id"; "included"] v;
  _ ← keyword (literal "close") o "kind";
  id ← keyword (filtered CollectiveId) o "id";
  included ← keyword (decodeArray (filtered RecordHash)) o "included";
  Some (CollectiveClose id included).

(** [Schema.Union] keeps the first member that decodes. *)
Definition decodeCollectiveValue (v : JsonValue) : option CollectiveValue :=
  match decodeMulticast v with
  | Some x => Some x
  | None =>
      match decodeCollecting v with
      | Some x => Some x
      | None =>
          match decodeResponse v with
          | Some x => Some x
          | None => decodeClose v
          end
      end
  end.

(** ** Encoding *)

Definition opText (op : CollectingOp) : string :=
  match op with Gather => "gather" | AllGather => "all_gather" end.

Definition encodeAnswerValue (a : AnswerValue) : JsonValue :=
  match a with
  | AString s => JString s
  | ANumber n => JNumber n
  | ABoolean b => JBool b
  | AArray l => stringArray l
  end.

Definition integer (n : Z) : JsonValue := JNumber (Q2Qc (inject_Z n)).

Definition encodeCollectiveValue (v : CollectiveValue) : JsonValue :=
  JObject match v with
  | MulticastOperation => [("kind", JString "operation"); ("op", JString "multicast")]
  | CollectingOperation op id nonce deadlineAt requestedSchema =>
      [("kind", JString "operation"); ("op", JString (opText op)); ("id", JString id);
       ("nonce", JString nonce); ("deadlineAt", integer deadlineAt);
       ("requestedSchema", encodeFormModeSchema requestedSchema)]
  | ResponseValue id (Accept content) =>
      [("kind", JString "response"); ("id", JString id); ("action", JString "accept");
       ("content", JObject (prod_map (fun k => k) encodeAnswerValue <$> content))]
  | ResponseValue id Decline =>
      [("kind", JString "response"); ("id", JString id); ("action", JString "decline")]
  | CollectiveClose id included =>
      [("kind", JString "close"); ("id", JString id); ("included", stringArray included)]
  end.

(** ** Content carrying a value *)

Inductive CollectivePartInvalidReason := Duplicate | Malformed.

(** The value an object carries under the collective key; other keys are
    ignored. *)
Definition collectivePartValue (part : ContentPart) : option JsonValue :=
  match part with
  | TextPart _ => None
  | DataPart value => o ← asObject value; jm_get o COLLECTIVE_DATA_KEY
  end.

Definition withoutCollectivePart (content : PostContent) : PostContent :=
  filter (fun part => collectivePartValue part = None) content.

Definition readCollectiveValue (content : PostContent) :
    Exit CollectivePartInvalidReason (option CollectiveValue) :=
  match omap collectivePartValue content with
  | [] => Succeed None
  | _ :: _ :: _ => Fail_ Duplicate
  | [only] =>
      match decodeCollectiveValue only with
      | Some value => Succeed (Some value)
      | None => Fail_ Malformed
      end
  end.

Inductive CollectiveContentError := CollectiveContentInvalid.

Definition encodeCollectiveContent (value : CollectiveValue) (text : option string) :
    Exit CollectiveContentError PostContent :=
  let content :=
    (match text with Some t => [TextPart t] | None => [] end ++
     [DataPart (JObject [(COLLECTIVE_DATA_KEY, encodeCollectiveValue value)])])%list in
  if isContent content then Succeed content else Fail_ CollectiveContentInvalid.

(** ** Round trip *)

(** What every decoded value satisfies, and the layer establishes for the
    values it builds. *)
Definition value_ok (v : CollectiveValue) : Prop :=
  match v with
  | MulticastOperation => True
  | CollectingOperation _ id nonce deadlineAt schema =>
      CollectiveId id = true /\ CollectiveNonce nonce = true /\
      (1 <= deadlineAt <= MAXIMUM_EPOCH_MILLIS)%Z /\ form_ok schema
  | ResponseValue id _ => CollectiveId id = true
  | CollectiveClose id included =>
      CollectiveId id = true /\ Forall (fun h => RecordHash h = true) included
  end.

Lemma filtered_string p s : p s = true -> filtered p (JString s) = Some s.
Proof. unfold filtered. simpl. by intros ->. Qed.

Lemma EpochMillis_integer n : (1 <= n <= MAXIMUM_EPOCH_MILLIS)%Z -> EpochMillis (integer n) = Some n.
Proof.
  intros Hn. unfold EpochMillis, integer, isInteger. simpl.
  assert (Hq : Qred (inject_Z n) = inject_Z n).
  { unfold inject_Z. apply Qred_identity. simpl. apply Z.gcd_1_r. }
  rewrite Hq. simpl. by rewrite (bool_decide_true (1 <= n <= MAXIMUM_EPOCH_MILLIS)%Z).
Qed.

Lemma decodeAnswerContent_encode content :
  decodeAnswerContent (JObject (prod_map (fun k => k) encodeAnswerValue <$> content)) = Some content.
Proof.
  unfold decodeAnswerContent. apply mapM_fmap_Some.
  intros [k [s|n|b|l]]; try done. cbn [prod_map encodeAnswerValue fst snd].
  replace (decodeAnswerValue (stringArray l)) with (AArray <$> StringList (stringArray l)) by done.
  by rewrite StringList_stringArray.
Qed.

Lemma decodeArray_filtered p l : Forall (fun h => p h = true) l ->
  decodeArray (filtered p) (stringArray l) = Some l.
Proof.
  intros Hl. simpl. apply mapM_Some. rewrite Forall2_fmap_l.
  induction Hl; constructor; [|done]. by apply filtered_string.
Qed.

Lemma decodeOp_text op : decodeOp (JString (opText op)) = Some op.
Proof. by destruct op. Qed.

(** Read a key of an encoded value. *)
Ltac read_value :=
  repeat first
    [ rewrite keyword_here | rewrite keyword_skip by done | rewrite keyword_nil
    | rewrite literal_same | rewrite literal_other by done
    | rewrite filtered_string by done | rewrite decodeOp_text
    | rewrite EpochMillis_integer by done | rewrite encode_decode_form by done
    | rewrite decodeAnswerContent_encode | rewrite decodeArray_filtered by done ];
  cbn [mbind option_bind fmap option_fmap option_map].

(** Compare an encoded value's keys with a closed struct's. *)
Ltac struct_keys :=
  repeat match goal with
  | |- context [forallb ?f (jm_keys ?o)] =>
      let b := eval vm_compute in (forallb f (jm_keys o)) in
      change (forallb f (jm_keys o)) with b
  end; cbn [mbind option_bind].

Lemma decode_encode_value v : value_ok v -> decodeCollectiveValue (encodeCollectiveValue v) = Some v.
Proof.
  destruct v as [|op id nonce dl schema|id [content|]|id included]; intros Hv; simpl in Hv;
    unfold decodeCollectiveValue, decodeMulticast, decodeCollecting, decodeResponse,
      decodeClose, encodeCollectiveValue, exactStruct; cbn [asObject mbind option_bind];
    struct_keys; destruct_and? Hv; read_value; done.
Qed.

Lemma decode_value_ok j v : decodeCollectiveValue j = Some v -> value_ok v.
Proof.
  assert (Hf : forall p (o : list (string * JsonValue)) k s,
    keyword (filtered p) o k = Some s -> p s = true).
  { intros p o k s. unfold keyword, filtered.
    intros (x & _ & (t & _ & Ht)%bind_Some)%bind_Some. by destruct (p t) eqn:?; simplify_eq. }
  assert (Hl : forall p (o : list (string * JsonValue)) k l,
    keyword (decodeArray (filtered p)) o k = Some l -> Forall (fun s => p s = true) l).
  { intros p o k l. unfold keyword. intros (x & _ & Hx)%bind_Some.
    destruct x as [| | | |vs|]; simpl in Hx; try done. apply mapM_Some in Hx.
    induction Hx as [|v' s vs' l' Hs _ IH]; constructor; [|done].
    unfold filtered in Hs. apply bind_Some in Hs as (t & _ & Ht).
    by destruct (p t) eqn:?; simplify_eq. }
  unfold decodeCollectiveValue.
  destruct (decodeMulticast j) as [x|] eqn:H1.
  { intros [= ->]. unfold decodeMulticast in H1.
    apply bind_Some in H1 as (o & _ & (? & _ & (? & _ & [= <-])%bind_Some)%bind_Some). done. }
  clear H1. destruct (decodeCollecting j) as [x|] eqn:H1.
  { intros [= ->]. unfold decodeCollecting in H1.
    apply bind_Some in H1 as (o & _ & (? & _ & (op & _ & (id & Hid & (nonce & Hn &
      (dl & Hd & (sc & Hs & [= <-])%bind_Some)%bind_Some)%bind_Some)%bind_Some)%bind_Some)%bind_Some).
    simpl. split_and!; [by eapply Hf|by eapply Hf| | |].
    1,2: unfold keyword, EpochMillis in Hd; apply bind_Some in Hd as (y & _ & Hd);
      destruct (FiniteNumber y); [|done]; destruct (isInteger _); [|done]; simpl in Hd;
      case_bool_decide; simplify_eq; lia.
    unfold keyword in Hs. apply bind_Some in Hs as (y & _ & Hs).
    by eapply decodeFormModeSchema_ok. }
  clear H1. destruct (decodeResponse j) as [x|] eqn:H1.
  { intros [= ->]. unfold decodeResponse in H1.
    case_match eqn:H2; [injection H1 as ->|clear H2; rename H1 into H2];
      apply bind_Some in H2 as (o & _ & (? & _ & (id & Hid & (? & _ & H3)%bind_Some)%bind_Some)%bind_Some).
    - apply bind_Some in H3 as (c & _ & [= <-]). by eapply Hf.
    - injection H3 as <-. by eapply Hf. }
  clear H1. intros H1. unfold decodeClose in H1.
  apply bind_Some in H1 as (o & _ & (? & _ & (id & Hid & (inc & Hi & [= <-])%bind_Some)%bind_Some)%bind_Some).
  simpl. split; [by eapply Hf|by eapply Hl].
Qed.

(** C35: the collective value of a post round-trips.  Content built for a value
    and a text reads back as exactly that value, and without its collective
    part is exactly the text; every value a post carries is one an endpoint
    can encode again to the same value. *)
Theorem part_roundtrip value text content :
  value_ok value ->
  encodeCollectiveContent value text = Succeed content ->
  readCollectiveValue content = Succeed (Some value) /\
  withoutCollectivePart content = match text with Some t => [TextPart t] | None => [] end /\
  (forall other v, readCollectiveValue other = Succeed (Some v) ->
     decodeCollectiveValue (encodeCollectiveValue v) = Some v).
Proof.
  intros Hok. unfold encodeCollectiveContent. destruct (isContent _); [|done].
  intros Hc%(inj Succeed). subst content. split_and!.
  - unfold readCollectiveValue. destruct text; cbn [app omap list_omap collectivePartValue
      asObject mbind option_bind]; cbn [jm_get]; rewrite decide_True by done; by rewrite decode_encode_value.
  - by destruct text.
  - intros other v. unfold readCollectiveValue.
    destruct (omap _ other) as [|x [|? ?]]; [done| |done].
    destruct (decodeCollectiveValue x) eqn:Hd; [|done]. intros [= ->].
    by eapply decode_encode_value, decode_value_ok.
Qed.

End part.

(** A question in a post: the concrete base64url of the witnesses of
    PollCursor, and a content length that always fits. *)
Module Concrete.
#[local] Instance b64 : Base64Url := {|
  encodeBase64Url := fun bytes => bytes;
  decodeBase64Url := fun text => Some text;
|}.
Definition anyBytes (content : PostContent) : option Z := Some 100%Z.
Definition id32 : string := "col_" ++ "0123456789abcdef0123456789abcdef".
Definition nonce43 : string := "0123456789abcdef0123456789abcdef0123456789a".
Definition question : CollectiveValue :=
  CollectingOperation Gather id32 nonce43 1700000000000 (mkForm None [] None).
End Concrete.
Import Concrete.

Lemma part_roundtrip_witness :
  exists content, encodeCollectiveContent anyBytes question (Some "when?") = Succeed content /\
    readCollectiveValue (H := b64) content = Succeed (Some question).
Proof.
  eexists. split; [vm_compute; reflexivity|].
  apply (part_roundtrip (H := b64) anyBytes question (Some "when?")).
  - split_and!; try (vm_compute; reflexivity || discriminate).
    constructor; [constructor|]. intros names name [=].
  - vm_compute. reflexivity.
Defined.

End CollectivePart.
