(* ===== verification/ReceivedRequest.v ===== *)
(** ReceivedRequest: what a member keeps of the questions it received
    (packages/client/src/communication/collectives/received-request.ts,
    shared-answers.ts, the message of conversations/message.ts and
    [questionText] of render.ts).

    RequestSends: whom a collecting operation asks, how long its send waits,
    and how its request posts stand
    (packages/client/src/communication/collectives/request-sends.ts).

    A request post in flight is [None] until it completes. *)
From S2P Require Import Prelude JsMap JsString Identifiers Address FormGrammar Validation CollectivePart.
From Stdlib Require Import Ascii.
Import FormGrammar Validation CollectivePart.
Local Open Scope Z_scope.

(** ** Certified inbound messages *)

Inductive MessageKind := Direct | Group (members : list string).

Record InboundMessage := mkMessage {
  m_kind : MessageKind;
  m_postId : string;
  m_address : string;
  m_sender : string;
  m_content : list ContentPart;
}.

Record CertifiedPost := mkPost { message : InboundMessage; p_recordHash : string }.

(** [questionText]: the text parts, joined by newlines. *)
Definition questionText (content : list ContentPart) : string :=
  String.concat (String "010"%char EmptyString)
    (omap (fun part => match part with TextPart t => Some t | DataPart _ => None end) content).

Module SharedAnswers.

(** ** Answers kept until the close *)

Record CertifiedAnswer := mkAnswer { a_recordHash : string; response : CollectiveResponse }.

Record HeldClose := mkClose { c_postId : string; included : list string }.

Record SharedAnswers := mkShared {
  members : list string;
  answers : list (string * CertifiedAnswer);
  heldClose : option HeldClose;
}.

Definition keepFirstAnswer (shared : SharedAnswers) (sender : string)
    (answer : CertifiedAnswer) : SharedAnswers :=
  if bool_decide (sender ∈ members shared) && negb (jm_has (answers shared) sender)
  then mkShared (members shared) (jm_set (answers shared) sender answer) (heldClose shared)
  else shared.

Record ListedAnswer := mkListed {
  l_member : string;
  l_recordHash : string;
  l_response : CollectiveResponse;
}.

(** [new Map(entries)]. *)
Definition mapOfEntries {K V} `{EqDecision K} (entries : list (K * V)) : list (K * V) :=
  foldl (fun m '(k, v) => jm_set m k v) [] entries.

Definition byHash (shared : SharedAnswers) : list (string * ListedAnswer) :=
  mapOfEntries ((fun '(member, a) =>
    (a_recordHash a, mkListed member (a_recordHash a) (response a))) <$> answers shared).

(** [new Set(values).size]. *)
Definition setSize (values : list string) : nat := length (insertionSet [] values).

Definition listedAnswers (shared : SharedAnswers) (included : list string) :
    list ListedAnswer * bool * bool :=
  let listed := omap (fun hash => jm_get (byHash shared) hash) included in
  (listed,
   bool_decide (length listed < length included)%nat,
   bool_decide (setSize (l_member <$> listed) < length listed)%nat).

Definition memberOutcomes (members : list string)
    (outcomes : list (string * CollectiveMemberOutcome)) :
    list (string * CollectiveMemberOutcome) :=
  (fun member => (member, default NoAnswer (jm_get outcomes member))) <$> members.

End SharedAnswers.
Import SharedAnswers.

Module ReceivedRequest.

Inductive RequestState := Unadmitted | Open | Sending | AnsweredState | Closed | WithheldState.
Global Instance RequestState_eq_dec : EqDecision RequestState.
Proof. solve_decision. Defined.

Inductive RequestKind := GatherRequest | AllGatherRequest (shared : SharedAnswers).

Record ReceivedRequest := mkRequest {
  r_postId : string;
  r_recordHash : string;
  from : string;
  to : string;
  question : string;
  r_requestedSchema : FormModeSchema;
  deadlineAt : Z;
  state : RequestState;
  kind : RequestKind;
}.

Definition set_state (r : ReceivedRequest) (s : RequestState) : ReceivedRequest :=
  mkRequest (r_postId r) (r_recordHash r) (from r) (to r) (question r)
    (r_requestedSchema r) (deadlineAt r) s (kind r).

Definition set_shared (r : ReceivedRequest) (shared : SharedAnswers) : ReceivedRequest :=
  mkRequest (r_postId r) (r_recordHash r) (from r) (to r) (question r)
    (r_requestedSchema r) (deadlineAt r) (state r) (AllGatherRequest shared).

Abbreviation Requests := (list (string * ReceivedRequest)).

Inductive UnmatchedAnswer := RequestNone | RequestAmbiguous | RequestAnswered | RequestExpired.
Global Instance UnmatchedAnswer_eq_dec : EqDecision UnmatchedAnswer.
Proof. solve_decision. Defined.

Definition CLOSE_WAIT : Z := 3600000.
Definition RECEIVED_DEADLINE_ALLOWANCE : Z := 3600000.
Definition RECEIVED_DEADLINE_HORIZON : Z :=
  MAXIMUM_DEADLINE_SECONDS * 1000 + RECEIVED_DEADLINE_ALLOWANCE.

Definition requestShown (s : RequestState) : bool :=
  match s with
  | Unadmitted | WithheldState => false
  | Open | Sending | AnsweredState | Closed => true
  end.

Definition requestUnavailable (request : ReceivedRequest) (now : Z) : option UnmatchedAnswer :=
  match state request with
  | Open => if decide (deadlineAt request <= now) then Some RequestExpired else None
  | Sending | AnsweredState => Some RequestAnswered
  | Closed | Unadmitted | WithheldState => Some RequestExpired
  end.

Definition matchOpenRequest (requests : Requests) (conversation : string) (now : Z) :
    Exit UnmatchedAnswer (string * ReceivedRequest) :=
  let asked := List.filter (fun '(_, request) =>
    bool_decide (to request = conversation) && requestShown (state request)) requests in
  let open := List.filter (fun '(_, request) =>
    bool_decide (requestUnavailable request now = None)) asked in
  match open with
  | [only] => Succeed only
  | _ :: _ :: _ => Fail_ RequestAmbiguous
  | [] =>
      if existsb (fun '(_, request) =>
           bool_decide (requestUnavailable request now = Some RequestAnswered)) asked
      then Fail_ RequestAnswered
      else Fail_ (match asked with [] => RequestNone | _ => RequestExpired end)
  end.

Section receiving.
Context (sha256Base64Url : string -> string).

Definition trustedRequest (m : InboundMessage) (id nonce : string) (deadline now : Z) : bool :=
  bool_decide (deadline <= now + RECEIVED_DEADLINE_HORIZON) &&
  bool_decide (collectiveIdOf sha256Base64Url (m_sender m) nonce = id).

Definition retainedUntil (deadline : Z) (k : RequestKind) : Z :=
  deadline + match k with AllGatherRequest _ => CLOSE_WAIT | GatherRequest => 0 end.

Definition receivedRequest (post : CertifiedPost) (op : CollectingOp) (id nonce : string)
    (deadline : Z) (schema : FormModeSchema) (now : Z) (initial : RequestState) :
    option ReceivedRequest :=
  let m := message post in
  if negb (trustedRequest m id nonce deadline now) then None else
  let request := mkRequest (m_postId m) (p_recordHash post) (m_sender m) (m_address m)
    (questionText (m_content m)) schema deadline initial in
  match op, m_kind m with
  | Gather, Direct => if decide (now < deadline) then Some (request GatherRequest) else None
  | Gather, Group _ => None
  | AllGather, Direct => None
  | AllGather, Group ms =>
      let asked := List.filter (fun member => negb (bool_decide (member = m_sender m))) ms in
      let k := AllGatherRequest (mkShared asked [] None) in
      if decide (retainedUntil deadline k <= now) then None
      else match asked with [] => None | _ => Some (request k) end
  end.

Definition forgetExpiredRequests (requests : Requests) (now : Z) : Requests :=
  List.filter (fun '(_, r) => bool_decide (now < retainedUntil (deadlineAt r) (kind r))) requests.

End receiving.

(** ** Matching *)

(** A request takes an answer: shown, unanswered, before its deadline. *)
Definition takes_answer (conversation : string) (now : Z) (r : ReceivedRequest) : Prop :=
  to r = conversation /\ state r = Open /\ now < deadlineAt r.

Definition shown_in (conversation : string) (r : ReceivedRequest) : Prop :=
  to r = conversation /\ requestShown (state r) = true.

Lemma unavailable_none r now : requestUnavailable r now = None <-> state r = Open /\ now < deadlineAt r.
Proof.
  unfold requestUnavailable. destruct (state r); try (split; [done|naive_solver]).
  case_decide; split; try done; naive_solver lia.
Qed.

Lemma unavailable_answered r now : requestUnavailable r now = Some RequestAnswered <->
  state r = Sending \/ state r = AnsweredState.
Proof.
  unfold requestUnavailable. destruct (state r); try case_decide; naive_solver.
Qed.

Definition openIn (conversation : string) (now : Z) (e : string * ReceivedRequest) : bool :=
  (bool_decide (to e.2 = conversation) && requestShown (state e.2)) &&
  bool_decide (requestUnavailable e.2 now = None).

Lemma openIn_spec conversation now e :
  openIn conversation now e = true <-> takes_answer conversation now e.2.
Proof.
  unfold openIn, takes_answer. rewrite !andb_true_iff, !bool_decide_eq_true, unavailable_none.
  split; [naive_solver|]. intros (? & Ho & ?). rewrite Ho. naive_solver.
Qed.

Lemma filter_filter_open (requests : Requests) conversation now :
  List.filter (fun '(_, request) => bool_decide (requestUnavailable request now = None))
    (List.filter (fun '(_, request) =>
      bool_decide (to request = conversation) && requestShown (state request)) requests)
  = List.filter (openIn conversation now) requests.
Proof.
  induction requests as [|[id r] requests IH]; [done|]. cbn [List.filter].
  unfold openIn at 1. cbn [snd].
  destruct (bool_decide (to r = conversation) && requestShown (state r)); cbn [List.filter andb];
    [|done]. by rewrite IH.
Qed.

Lemma filter_one {A} (p : A -> bool) l x : List.filter p l = [x] ->
  exists pre post, l = pre ++ x :: post /\ p x = true /\
    Forall (fun y => p y = false) pre /\ Forall (fun y => p y = false) post.
Proof.
  induction l as [|y l IH]; simpl; [done|]. destruct (p y) eqn:Hp.
  - intros [= -> Hl]. exists [], l. split_and!; [done..|constructor|].
    apply Forall_forall. intros z Hz. apply not_true_iff_false. intros Ht.
    assert (z ∈ List.filter p l) as Hin by (apply list_elem_of_In, filter_In; split; [by apply list_elem_of_In|done]).
    rewrite Hl in Hin. set_solver.
  - intros (pre & post & -> & ? & ? & ?)%IH. exists (y :: pre), post.
    split_and!; [done..|by constructor|done].
Qed.

Lemma filter_two {A} (p : A -> bool) l x y rest : List.filter p l = x :: y :: rest ->
  exists pre mid post, l = pre ++ x :: mid ++ y :: post /\ p x = true /\ p y = true.
Proof.
  induction l as [|z l IH]; simpl; [done|]. destruct (p z) eqn:Hp.
  - intros [= -> Hl]. clear IH.
    assert (exists mid post, l = mid ++ y :: post /\ p y = true) as (mid & post & -> & ?).
    { induction l as [|z l IH]; simpl in Hl; [done|]. destruct (p z) eqn:Hz.
      - injection Hl as -> _. by exists [], l.
      - destruct (IH Hl) as (mid & post & -> & ?). by exists (z :: mid), post. }
    by exists [], mid, post.
  - intros (pre & mid & post & -> & ? & ?)%IH. by exists (z :: pre), mid, post.
Qed.

Lemma filter_nil_forall {A} (p : A -> bool) l : List.filter p l = [] <-> Forall (fun y => p y = false) l.
Proof.
  induction l as [|y l IH]; simpl; [done|]. rewrite Forall_cons. destruct (p y) eqn:?; naive_solver.
Qed.

Lemma not_takes conversation now l :
  Forall (fun e => openIn conversation now e = false) l <->
  Forall (fun e => ~ takes_answer conversation now e.2) l.
Proof. apply Forall_iff. intros e. rewrite <- openIn_spec. by rewrite not_true_iff_false. Qed.

Lemma asked_in (requests : Requests) conversation e :
  e ∈ List.filter (fun '(_, request) =>
      bool_decide (to request = conversation) && requestShown (state request)) requests <->
  e ∈ requests /\ shown_in conversation e.2.
Proof.
  rewrite <- !list_elem_of_In, filter_In || rewrite !list_elem_of_In, filter_In.
  destruct e as [id r]. unfold shown_in. simpl.
  by rewrite andb_true_iff, bool_decide_eq_true.
Qed.

(** an answer goes to the one question open in its conversation, and every
    refusal names its cause.  Matching succeeds exactly with the only shown,
    unanswered and unexpired request of the conversation; otherwise it tells
    several open requests, an answered one, only expired or closed ones, and
    none received apart. *)
Theorem match_open_exact requests conversation now :
  match matchOpenRequest requests conversation now with
  | Succeed (id, r) =>
      exists pre post, requests = pre ++ (id, r) :: post /\
        takes_answer conversation now r /\
        Forall (fun e => ~ takes_answer conversation now e.2) (pre ++ post)
  | Fail_ RequestAmbiguous =>
      exists pre e1 mid e2 post, requests = pre ++ e1 :: mid ++ e2 :: post /\
        takes_answer conversation now e1.2 /\ takes_answer conversation now e2.2
  | Fail_ RequestAnswered =>
      Forall (fun e => ~ takes_answer conversation now e.2) requests /\
      exists e, e ∈ requests /\ to e.2 = conversation /\
        (state e.2 = Sending \/ state e.2 = AnsweredState)
  | Fail_ RequestExpired =>
      Forall (fun e => ~ takes_answer conversation now e.2) requests /\
      Forall (fun e => to e.2 = conversation ->
        state e.2 <> Sending /\ state e.2 <> AnsweredState) requests /\
      Exists (fun e => shown_in conversation e.2) requests
  | Fail_ RequestNone => Forall (fun e => ~ shown_in conversation e.2) requests
  end.
Proof.
  unfold matchOpenRequest. cbv zeta. rewrite filter_filter_open.
  destruct (List.filter (openIn conversation now) requests) as [|[id r] [|e2 rest]] eqn:Ho.
  - apply filter_nil_forall, not_takes in Ho.
    destruct (existsb _ _) eqn:Hx.
    + split; [done|]. apply existsb_exists in Hx as ([id r] & Hin & Ha).
      apply list_elem_of_In, asked_in in Hin as [Hin [Hto _]].
      apply bool_decide_eq_true, unavailable_answered in Ha. by exists (id, r).
    + assert (Hn : Forall (fun e => to e.2 = conversation ->
        state e.2 <> Sending /\ state e.2 <> AnsweredState) requests).
      { apply Forall_forall. intros [id r] Hin Hto. simpl in *.
        assert (~ (state r = Sending \/ state r = AnsweredState)); [|tauto].
        intros Hs. apply not_true_iff_false in Hx. apply Hx, existsb_exists.
        exists (id, r). split; [|by apply bool_decide_eq_true, unavailable_answered].
        apply list_elem_of_In, asked_in. split; [done|]. split; [done|].
        simpl. by destruct Hs as [-> | ->]. }
      destruct (List.filter _ requests) as [|e asked] eqn:Hasked.
      * apply Forall_forall. intros e Hin Hs.
        assert (e ∈ @nil (string * ReceivedRequest)) as Hnil; [|by apply not_elem_of_nil in Hnil].
        rewrite <- Hasked. by apply asked_in.
      * split_and!; [done|done|]. apply Exists_exists.
        exists e. apply asked_in. rewrite Hasked. by left.
  - apply filter_one in Ho as (pre & post & -> & Hp & H1 & H2).
    exists pre, post. split_and!; [done|by apply openIn_spec in Hp|].
    apply not_takes. by apply Forall_app.
  - apply filter_two in Ho as (pre & mid & post & -> & H1 & H2).
    exists pre, (id, r), mid, e2, post. split_and!; [done|by apply openIn_spec..].
Qed.

End ReceivedRequest.

Module RequestSends.
Local Close Scope Z_scope.
Local Open Scope string_scope.
Import Identifiers SendErrors Address CollectivePart.

Record RequestRefusal := mkRefusal {
  member : string;
  rf_reason : SendFailure;
  rf_detail : option string;
}.

Definition postRefusal (member : string) (error : SendError) : RequestRefusal :=
  mkRefusal member (reason error) (detail error).

Record GatherAddress := mkGatherAddress { ga_to : string; ga_members : list string }.

Definition membershipInvalid : SendError :=
  sendErrorDetail MembershipInvalid "an all_gather asks a group of two or more other agents".

(** [Schema.decodeUnknownOption(AgentAddress)]. *)
Definition agentAddressOption (value : string) : option string :=
  if isAgentAddress value then Some value else None.

Definition gatherAddress (to self : string) (op : CollectingOp) : Exit SendError GatherAddress :=
  let selfName := slice (String.length "agent:") self in
  canonical ← canonicalMessageAddress to selfName;
  match canonical with
  | Direct address _ =>
      match op with
      | Gather => Succeed (mkGatherAddress address [address])
      | AllGather => Fail_ membershipInvalid
      end
  | Group address memberNames =>
      match omap (fun name => agentAddressOption ("agent:" ++ name))
              (filter (fun name => name <> selfName) memberNames) with
      | [] => Fail_ membershipInvalid
      | members => Succeed (mkGatherAddress address members)
      end
  end.

(** [Duration.seconds(20)], in milliseconds. *)
Definition REQUEST_SEND_WAIT : Z := 20000.

Definition operationTimes (now deadlineSeconds : Z) : Z * Z :=
  let untilDeadline := (deadlineSeconds * 1000)%Z in
  (now + untilDeadline, now + Z.min REQUEST_SEND_WAIT untilDeadline)%Z.

Definition requestWait (now waitUntil : Z) : Z := Z.max 0 (waitUntil - now).

Definition ADDRESS_FAILURES : list SendFailure := [InvalidAddress; UnknownAgent; MembershipInvalid].

Definition isAddressRefusal (refusal : RequestRefusal) : bool :=
  bool_decide (rf_reason refusal ∈ ADDRESS_FAILURES).

(** Each lookup is answered by the engine's resolution of one member; the
    answers come back in member order. *)
Definition lookupRefusals (members : list string) (lookup : string -> Exit SendError unit) :
    list RequestRefusal :=
  omap (fun m => match lookup m with
                 | Fail_ error => Some (mkRefusal m (reason error) None)
                 | Succeed _ => None
                 end) members.

Section soFar.
Context {EngineSentPost : Type}.

Abbreviation RequestSend := (option (Exit RequestRefusal EngineSentPost)).

(** The posts and refusals of the sends that completed, in member order. *)
Definition requestsSoFar (sends : list RequestSend) : list EngineSentPost * list RequestRefusal :=
  (omap (fun s => match s with Some (Succeed post) => Some post | _ => None end) sends,
   omap (fun s => match s with Some (Fail_ refusal) => Some refusal | _ => None end) sends).
End soFar.

(** ** Facts *)

Lemma omap_all {A B} (f : A -> option B) (g : A -> B) l :
  Forall (fun x => f x = Some (g x)) l -> omap f l = g <$> l.
Proof. induction 1 as [|x l Hx _ IH]; csimpl; [done|]. by rewrite Hx, IH. Qed.

Lemma group_members to self address names :
  canonicalGroup to self = Succeed (Group address names) ->
  omap (fun name => agentAddressOption ("agent:" ++ name))
    (filter (fun name => name <> self) names)
  = (fun n => "agent:" ++ n) <$> filter (fun n => n <> self) names /\
  self ∈ names /\ NoDup names /\ 3 <= length names <= 32.
Proof.
  intros Hg. pose proof (canonicalGroup_inv _ _ _ _ Hg) as (Hme & Hf & Hnd & _ & _).
  apply rendered_group in Hg as (-> & _ & _ & Hlen & _).
  split_and!; [| | |apply Hlen..].
  - apply omap_all, Forall_forall. intros n [_ Hn]%list_elem_of_filter.
    rewrite merge_sort_Permutation in Hn. rewrite Forall_forall in Hf.
    specialize (Hf n Hn). simpl in Hf. unfold agentAddressOption.
    assert (Hp : parseAgentAddress ("agent:" ++ n) = Some n).
    { unfold parseAgentAddress. rewrite startsWith_append, slice_append. by rewrite Hf. }
    unfold isAgentAddress, addressInput. rewrite Hp.
    by rewrite !bool_decide_true by eauto.
  - rewrite merge_sort_Permutation. unfold membersOf. case_decide; set_solver.
  - by apply merge_sort_names_nodup.
Qed.

Lemma filter_others_length (x : string) l : NoDup l -> x ∈ l ->
  length (filter (fun n => n <> x) l) = length l - 1.
Proof.
  induction 1 as [|y l Hy Hnd IH]; [set_solver|]. intros Hin.
  rewrite filter_cons. destruct (decide (y = x)) as [->|Hne].
  - rewrite decide_False by tauto. simpl. rewrite list_filter_id; [lia|].
    apply Forall_forall. intros z Hz ->. done.
  - rewrite decide_True by done. simpl. assert (x ∈ l) as Hx by set_solver.
    rewrite IH by done. destruct l; [set_solver|simpl; lia].
Qed.

(** whom a gather or all_gather asks.  A group operation asks every other
    member of the canonical group exactly once, in group order and never the
    requester; a direct gather asks the one agent; an all_gather of one agent
    is refused. *)
Theorem gather_asks_everyone_else to self op r :
  gatherAddress to self op = Succeed r ->
  let selfName := slice (String.length "agent:") self in
  (op = Gather /\ exists remote, canonicalMessageAddress to selfName = Succeed (Direct (ga_to r) remote) /\
     ga_members r = [ga_to r]) \/
  (exists names, canonicalMessageAddress to selfName = Succeed (Group (ga_to r) names) /\
     ga_members r = (fun n => "agent:" ++ n) <$> filter (fun n => n <> selfName) names /\
     selfName ∈ names /\ 2 <= length (ga_members r) <= 31 /\ NoDup (ga_members r)).
Proof.
  unfold gatherAddress. cbv zeta. rewrite bind_succeed. intros (c & Hc & Hr).
  destruct c as [address remote|address names].
  - left. destruct op; [|done]. injection Hr as <-. simpl. eauto.
  - right. exists names. apply group_not_direct in Hc as Hg.
    destruct (group_members _ _ _ _ Hg) as (Hom & Hin & Hnd & Hlen).
    rewrite Hom in Hr. pose proof (filter_others_length _ _ Hnd Hin) as Hl.
    destruct (_ <$> _) as [|m ms] eqn:Hms; [done|]. injection Hr as <-. simpl.
    rewrite <- Hms. split_and!; [done|done|done| | |].
    1,2: change (S (length ms)) with (length (m :: ms)); rewrite <- Hms, length_fmap; lia.
    apply NoDup_fmap_2; [|by apply NoDup_filter].
    intros n1 n2 Heq. apply (f_equal (slice 6)) in Heq. by rewrite !(slice_append "agent:") in Heq.
Qed.

Lemma gather_asks_everyone_else_witness :
  let r := mkGatherAddress "group:ann,bob,cyd" ["agent:ann"; "agent:cyd"] in
  gatherAddress "group:cyd,ann" "agent:bob" AllGather = Succeed r /\ NoDup (ga_members r).
Proof.
  split; [vm_compute; reflexivity|].
  destruct (gather_asks_everyone_else "group:cyd,ann" "agent:bob" AllGather
    (mkGatherAddress "group:ann,bob,cyd" ["agent:ann"; "agent:cyd"]))
    as [[H _]|(names & _ & _ & _ & _ & Hnd)].
  - vm_compute. reflexivity.
  - discriminate H.
  - exact Hnd.
Defined.

End RequestSends.
