(* ===== verification/Operation.v ===== *)
(** Operation: the collective layer's state and operations
    (packages/client/src/communication/collectives/operation.ts, with the
    failures of forms.ts and failures.ts).

    Each definition runs one uninterrupted stretch of the layer: everything
    an effect does between two suspensions.  [Layer] threads the layer's
    state, records what it emits, and ends in an [Exit].  A clock reading is
    an argument, as is the outcome of an effect of the ports (a sent post).

    Objects the code shares by reference are kept in the state once: the
    outcome maps of an operation live under its id, where [openGather] of a
    reopened operation finds them again, and a received request that was
    dropped from the map while its answer was being sent is kept among
    [orphans], where settling that answer still finds it.  Forked fibers are
    state too: a deadline timer is its time, and a close being posted is an
    entry of [closing]. *)
From S2P Require Import Prelude JsMap Json JsString Identifiers Address FormGrammar Validation.
From S2P Require Import CollectivePart ReceivedRequest.
Import Identifiers SendErrors Validation CollectivePart SharedAnswers ReceivedRequest RequestSends.
Local Open Scope string_scope.

Module Operation.

(** ** Items, failures and state *)

Inductive InboundItem :=
  | MulticastItem (message : InboundMessage)
  | CollectiveRequestItem (op : CollectingOp) (id postId from to question : string)
      (requestedSchema : FormGrammar.FormModeSchema) (deadlineAt : Z)
  | CollectiveResultItem (op : CollectingOp) (id to question : string)
      (outcomes : list (string * CollectiveMemberOutcome))
  | OperationFailedItem (id to error : string).

Record ResultProvenance := mkProvenance {
  pv_answers : list (string * string);
  pv_request : option string;
}.

Inductive CollectiveFailure :=
  | MembersUnreachable (members : list RequestRefusal)
  | SchemaInvalid (detail : string)
  | AnswerInvalid (fields : list AnswerFieldFailure)
  | Unmatched (kind : UnmatchedAnswer)
  | DeadlinePassed.

(** A refusal: an engine error, or a failure of the operation [id]. *)
Inductive RefusalError :=
  | ESend (error : SendError)
  | ECollective (id : string) (failure : CollectiveFailure).

Inductive ClosedOutcome := Completed | Failed | Refused.

(** What the layer does to the world: an item it queues, kept or not, with
    its provenance, and the spans that open and close an operation. *)
Inductive Event :=
  | Emit (item : InboundItem) (provenance : option ResultProvenance) (kept : bool)
  | OpenedSpan (id : string) (op : CollectingOp) (deadlineAt : Z)
  | ClosedSpan (id : string) (outcome : ClosedOutcome)
  | Warned (postId : string).

Record GatherRequest := mkGather {
  g_op : CollectingOp;
  g_to : string;
  g_question : string;
  g_members : list string;
  g_requestedSchema : FormGrammar.FormModeSchema;
}.

Record OpenGather := mkOpen {
  open : GatherRequest;
  timer : Z;
  requestsSettled : bool;
}.

(** The [outcomes] and [answerHashes] maps of one operation. *)
Record Recorded := mkRecorded {
  outcomes : list (string * CollectiveMemberOutcome);
  answerHashes : list (string * string);
}.

Record PreparedGather := mkPrepared {
  id : string;
  p_open : GatherRequest;
  content : PostContent;
  p_deadlineAt : Z;
  waitUntil : Z;
}.

(** A forked [closeAllGather]. *)
Record Closing := mkClosing {
  cl_id : string;
  cl_open : GatherRequest;
  cl_result : InboundItem;
  cl_included : list string;
  cl_provenance : ResultProvenance;
  cl_announced : bool;
}.

Record CollectiveState := mkState {
  gathers : list (string * OpenGather);
  recorded : list (string * Recorded);
  requests : Requests;
  orphans : Requests;
  announced : list string;
  closing : list Closing;
}.

Definition initialState : CollectiveState := mkState [] [] [] [] [] [].

Definition set_gathers f (s : CollectiveState) :=
  mkState (f (gathers s)) (recorded s) (requests s) (orphans s) (announced s) (closing s).
Definition set_recorded f (s : CollectiveState) :=
  mkState (gathers s) (f (recorded s)) (requests s) (orphans s) (announced s) (closing s).
Definition set_requests f (s : CollectiveState) :=
  mkState (gathers s) (recorded s) (f (requests s)) (orphans s) (announced s) (closing s).
Definition set_orphans f (s : CollectiveState) :=
  mkState (gathers s) (recorded s) (requests s) (f (orphans s)) (announced s) (closing s).
Definition set_announced f (s : CollectiveState) :=
  mkState (gathers s) (recorded s) (requests s) (orphans s) (f (announced s)) (closing s).
Definition set_closing f (s : CollectiveState) :=
  mkState (gathers s) (recorded s) (requests s) (orphans s) (announced s) (f (closing s)).

Definition recordedOf (s : CollectiveState) (id : string) : Recorded :=
  default (mkRecorded [] []) (jm_get (recorded s) id).

(** A received request by reference. *)
Definition requestObject (s : CollectiveState) (id : string) : option ReceivedRequest :=
  match jm_get (requests s) id with Some r => Some r | None => jm_get (orphans s) id end.

Definition setRequestObject (id : string) (r : ReceivedRequest) (s : CollectiveState) :
    CollectiveState :=
  if jm_has (requests s) id then set_requests (fun m => jm_set m id r) s
  else set_orphans (fun m => jm_set m id r) s.

(** ** The effect monad of the layer *)

Definition Layer (E A : Type) : Type :=
  CollectiveState -> CollectiveState * list Event * Exit E A.

Definition lret {E A} (a : A) : Layer E A := fun s => (s, [], Succeed a).
Definition lfail {E A} (e : E) : Layer E A := fun s => (s, [], Fail_ e).
Definition lbind {E A B} (m : Layer E A) (k : A -> Layer E B) : Layer E B := fun s =>
  let '(s', events, exit) := m s in
  match exit with
  | Succeed a => let '(s'', events', exit') := k a s' in (s'', (events ++ events')%list, exit')
  | Fail_ e => (s', events, Fail_ e)
  end.
Definition modify {E} (f : CollectiveState -> CollectiveState) : Layer E unit :=
  fun s => (f s, [], Succeed tt).
Definition get {E A} (k : CollectiveState -> Layer E A) : Layer E A := fun s => k s s.
Definition tell {E} (event : Event) : Layer E unit := fun s => (s, [event], Succeed tt).
(** [Effect.ignore]. *)
Definition ignore {E E' A} (m : Layer E A) : Layer E' unit := fun s =>
  let '(s', events, _) := m s in (s', events, Succeed tt).

Notation "x <- m ;; k" := (lbind m (fun x => k))
  (at level 100, m at next level, right associativity).
Notation "m ;;; k" := (lbind m (fun _ => k)) (at level 100, right associativity).

Inductive CollectiveEmitError := EmitFailed.

Section layer.
Context `{Base64Url}.
Context (canonicalBytes : PostContent -> option Z).
Context (sha256Base64Url : string -> string).
Context (numberText : Qcanon.Qc -> string) (jsonQuote : string -> string).
(** [ports.self]; whether a firewall is installed; which items the queue
    keeps. *)
Context (self : string) (admission : bool) (keep : InboundItem -> bool).

Definition contentInvalid : SendError := sendError ContentInvalid.

(** ** Texts *)

Definition unmatchedText (kind : UnmatchedAnswer) : string :=
  match kind with
  | RequestNone => "reply failed: no question is open in this conversation"
  | RequestAmbiguous =>
      "reply failed: more than one question is open in this conversation, and answering one of several is not supported"
  | RequestAnswered => "reply failed: the question was already answered"
  | RequestExpired => "reply failed: the question's deadline has passed"
  end.

Definition describeCollectiveFailure (failure : CollectiveFailure) : string :=
  match failure with
  | Unmatched kind => unmatchedText kind
  | DeadlinePassed => "send failed: the deadline passed before the question was posted"
  | MembersUnreachable members =>
      "send failed: " ++ String.concat "; " ((fun r =>
        if decide (rf_reason r = UnknownAgent) then member r ++ " is not a known agent"
        else member r ++ " could not be reached: " ++
             default (sendFailureText (rf_reason r)) (rf_detail r)) <$> members)
  | SchemaInvalid detail => "send failed: the form is invalid (" ++ detail ++ ")"
  | AnswerInvalid fields => "reply failed: " ++ answerFieldsText jsonQuote fields
  end.

Definition refusalMessage (e : RefusalError) : string :=
  match e with
  | ESend error => sendErrorMessage error
  | ECollective _ failure => describeCollectiveFailure failure
  end.

Definition closeFailureText (error : SendError) : string :=
  "all_gather failed: the result could not be shared with the group: " ++
  default (sendFailureText (SendErrors.reason error)) (SendErrors.detail error).

(** ** Emission *)

Definition emit (item : InboundItem) (provenance : option ResultProvenance) :
    Layer CollectiveEmitError unit :=
  tell (Emit item provenance (keep item)) ;;;
  if keep item then lret tt else lfail EmitFailed.

Definition closedSpan {E} (announced : bool) (id : string) (outcome : ClosedOutcome) : Layer E unit :=
  if announced then tell (ClosedSpan id outcome) else lret tt.

(** [emit ... onExit(close(...))]: the span follows the emission, whether or
    not the item was kept. *)
Definition emitThenClose (item : InboundItem) (provenance : option ResultProvenance)
    (announced : bool) (id : string) (outcome : ClosedOutcome) :
    Layer CollectiveEmitError unit := fun s =>
  let '(s1, events, exit) := emit item provenance s in
  let '(s2, events', _) :=
    closedSpan (E := CollectiveEmitError) announced id
      (match exit with Succeed _ => outcome | Fail_ _ => Failed end) s1 in
  (s2, (events ++ events')%list, exit).

(** ** Completion *)

Definition countedAnswers (g : GatherRequest) (r : Recorded) : list (string * string) :=
  omap (fun member => (fun hash => (member, hash)) <$> jm_get (answerHashes r) member)
    (g_members g).

Definition countedProvenance (g : GatherRequest) (r : Recorded) : ResultProvenance :=
  mkProvenance (countedAnswers g r) None.

Definition completeGather (id : string) : Layer CollectiveEmitError unit :=
  get (fun s =>
    match jm_get (gathers s) id with
    | None => lret tt
    | Some og =>
        let g := open og in
        let r := recordedOf s id in
        let wasAnnounced := bool_decide (id ∈ announced s) in
        let result := CollectiveResultItem (g_op g) id (g_to g) (g_question g)
          (memberOutcomes (g_members g) (outcomes r)) in
        modify (set_gathers (fun m => jm_delete m id)) ;;;
        modify (set_announced (filter (fun x => x <> id))) ;;;
        match g_op g with
        | Gather =>
            emitThenClose result (Some (countedProvenance g r)) wasAnnounced id Completed
        | AllGather =>
            modify (set_closing (fun l => l ++ [mkClosing id g result
              (snd <$> countedAnswers g r) (countedProvenance g r) wasAnnounced])%list)
        end
    end).

(** [closeAllGather] when its post has been sent, or could not be built. *)
Definition closePost (c : Closing) (sent : Exit SendError unit) : Exit SendError unit :=
  match encodeCollectiveContent canonicalBytes (CollectiveClose (cl_id c) (cl_included c)) None with
  | Fail_ _ => Fail_ contentInvalid
  | Succeed _ => sent
  end.

Definition closeAllGather (c : Closing) (sent : Exit SendError unit) :
    Layer CollectiveEmitError unit :=
  match closePost c sent with
  | Fail_ error =>
      emitThenClose (OperationFailedItem (cl_id c) (g_to (cl_open c)) (closeFailureText error))
        None (cl_announced c) (cl_id c) Failed
  | Succeed _ =>
      emitThenClose (cl_result c) (Some (cl_provenance c)) (cl_announced c) (cl_id c) Completed
  end.

(** ** Opening and abandoning *)

Definition openGather (prepared : PreparedGather) (settled : bool) (now : Z) :
    Layer RefusalError unit :=
  if decide (p_deadlineAt prepared <= now)%Z
  then lfail (ECollective (id prepared) DeadlinePassed)
  else get (fun s =>
    let first := bool_decide (id prepared ∉ announced s) in
    modify (set_gathers (fun m => jm_set m (id prepared)
      (mkOpen (p_open prepared) (p_deadlineAt prepared) settled))) ;;;
    if first then
      modify (set_announced (fun a => a ++ [id prepared])%list) ;;;
      tell (OpenedSpan (id prepared) (g_op (p_open prepared)) (p_deadlineAt prepared))
    else lret tt).

Definition releaseGather {E} (id : string) : Layer E unit :=
  modify (set_gathers (fun m => jm_delete m id)).

Definition markRefused {E} (id : string) : Layer E unit :=
  get (fun s =>
    if bool_decide (id ∈ announced s)
    then modify (set_announced (filter (fun x => x <> id))) ;;; tell (ClosedSpan id Refused)
    else lret tt).

Definition forgetGather {E} (id : string) : Layer E unit :=
  releaseGather id ;;; markRefused id.

(** ** Recording *)

Definition updateGather (id : string) (change : OpenGather * Recorded -> OpenGather * Recorded) :
    Layer CollectiveEmitError unit :=
  get (fun s =>
    match jm_get (gathers s) id with
    | None => lret tt
    | Some og =>
        let '(og', r') := change (og, recordedOf s id) in
        modify (set_gathers (fun m => jm_set m id og')) ;;;
        modify (set_recorded (fun m => jm_set m id r')) ;;;
        if requestsSettled og' &&
           bool_decide (length (outcomes r') = length (g_members (open og')))
        then completeGather id else lret tt
    end).

Definition setOutcome (member : string) (outcome : CollectiveMemberOutcome) (r : Recorded) :
    Recorded := mkRecorded (jm_set (outcomes r) member outcome) (answerHashes r).

Definition recordRefusal {E} (id : string) (refusal : RequestRefusal) : Layer E unit :=
  ignore (updateGather id (fun '(og, r) =>
    (og, if jm_has (outcomes r) (member refusal) then r
         else setOutcome (member refusal) NoAnswer r))).

(** [sendRequests] when its wait ends: the posts certified and the members
    refused so far. *)
Definition settleRequests {P} (prepared : PreparedGather) (posts : list P)
    (refused : list RequestRefusal) : Layer RefusalError (list P) :=
  get (fun s =>
    if bool_decide (refused <> []) &&
       bool_decide (length refused = length (g_members (p_open prepared))) &&
       jm_has (gathers s) (id prepared)
    then
      forgetGather (id prepared) ;;;
      lfail (ECollective (id prepared) (MembersUnreachable refused))
    else
      ignore (updateGather (id prepared) (fun '(og, r) =>
        (mkOpen (open og) (timer og) true, r))) ;;;
      lret posts).

(** An all_gather whose group post failed. *)
Definition abandonGroupRequest {A} (prepared : PreparedGather) (error : SendError) :
    Layer RefusalError A :=
  forgetGather (id prepared) ;;;
  lfail (ECollective (id prepared)
    (MembersUnreachable ((fun m => postRefusal m error) <$> g_members (p_open prepared)))).

(** [sendGroupRequest] when its group post certified, failed or timed out. *)
Definition groupRequestSettled {P} (prepared : PreparedGather) (sent : Exit SendError P) :
    Layer RefusalError (list P) :=
  match sent with
  | Succeed post => lret [post]
  | Fail_ error =>
      get (fun s =>
        if jm_has (gathers s) (id prepared) then abandonGroupRequest prepared error
        else lret [])
  end.

(** ** Preparing an operation *)

(** A refused send: the operation, where its failure item routes, and why. *)
Record RefusedSend := mkRefused { ref_id : string; ref_to : string; ref_error : RefusalError }.

Definition refusedAs {A} (id to : string) (m : Exit RefusalError A) : Exit RefusedSend A :=
  map_error (fun e => mkRefused id to e) m.

Definition formModeSchema (schemaIssues : JsonValue -> string) (id : string)
    (requestedSchema : JsonValue) : Exit RefusalError FormGrammar.FormModeSchema :=
  match FormGrammar.decodeFormModeSchema requestedSchema with
  | Some schema => Succeed schema
  | None => Fail_ (ECollective id (SchemaInvalid (schemaIssues requestedSchema)))
  end.

Definition refuseAddressErrors (id : string) (lookupMember : string -> Exit SendError unit)
    (members : list string) : Exit RefusalError unit :=
  match List.filter isAddressRefusal (lookupRefusals members lookupMember) with
  | [] => Succeed tt
  | refusals => Fail_ (ECollective id (MembersUnreachable refusals))
  end.

Definition encodeContent (value : CollectiveValue) (text : option string) :
    Exit RefusalError PostContent :=
  map_error (fun _ => ESend contentInvalid) (encodeCollectiveContent canonicalBytes value text).

Definition prepareGather (schemaIssues : JsonValue -> string)
    (lookupMember : string -> Exit SendError unit) (nonce requestedTo question : string)
    (op : CollectingOp) (requestedSchema : JsonValue) (deadlineSeconds now : Z) :
    Exit RefusedSend PreparedGather :=
  let id := collectiveIdOf sha256Base64Url self nonce in
  address ← refusedAs id requestedTo (map_error ESend (gatherAddress requestedTo self op));
  let to := ga_to address in
  let members := ga_members address in
  schema ← refusedAs id to (formModeSchema schemaIssues id requestedSchema);
  _ ← refusedAs id to (refuseAddressErrors id lookupMember members);
  let '(deadlineAt, waitUntil) := operationTimes now deadlineSeconds in
  content ← refusedAs id to
    (encodeContent (CollectingOperation op id nonce deadlineAt schema) (Some question));
  Succeed (mkPrepared id (mkGather op to question members schema) content deadlineAt waitUntil).

(** ** Answering *)

Definition canonicalAddress (c : Address.CanonicalMessageAddress) : string :=
  match c with Address.Direct address _ => address | Address.Group address _ => address end.

Definition openRequest (s : CollectiveState) (nonce to : string) (now : Z) :
    Exit RefusedSend (string * ReceivedRequest) :=
  let id := collectiveIdOf sha256Base64Url self nonce in
  canonical ← refusedAs id to (map_error ESend
    (Address.canonicalMessageAddress to (slice (String.length "agent:") self)));
  let address := canonicalAddress canonical in
  refusedAs id address
    (map_error (fun kind => ECollective id (Unmatched kind))
      (matchOpenRequest (requests s) address now)).

Definition responseContent (id : string) (request : ReceivedRequest)
    (response : CollectiveResponse) : Exit RefusalError PostContent :=
  _ ← match response with
      | Accept answer =>
          map_error (fun fields => ECollective id (AnswerInvalid fields))
            (validateAnswer numberText (r_requestedSchema request) answer)
      | Decline => Succeed []
      end;
  encodeContent (ResponseValue id response) None.

Definition claimRequest (id : string) (now : Z) : Layer RefusalError unit :=
  get (fun s =>
    match requestObject s id with
    | None => lret tt
    | Some request =>
        match matchOpenRequest (requests s) (to request) now with
        | Fail_ kind => lfail (ECollective id (Unmatched kind))
        | Succeed (matched, _) =>
            if decide (matched <> id)
            then lfail (ECollective id
              (Unmatched (default RequestAmbiguous (requestUnavailable request now))))
            else modify (setRequestObject id (set_state request Sending))
        end
    end).

Definition reopenRequest {E} (id : string) : Layer E unit :=
  get (fun s =>
    match requestObject s id with
    | Some request =>
        if decide (state request = Sending)
        then modify (setRequestObject id (set_state request Open)) else lret tt
    | None => lret tt
    end).

(** ** Closing at a member *)

Definition set_heldClose (shared : SharedAnswers) (held : option HeldClose) : SharedAnswers :=
  mkShared (SharedAnswers.members shared) (answers shared) held.

Definition applyClose (id : string) (request : ReceivedRequest) (shared : SharedAnswers)
    (close : HeldClose) : Layer CollectiveEmitError unit :=
  let '(listed, missing, repeated) := listedAnswers shared (included close) in
  if missing && bool_decide (state request = Sending)
  then modify (setRequestObject id (set_shared request (set_heldClose shared (Some close))))
  else
    modify (setRequestObject id (set_state
      (set_shared request (mkShared (SharedAnswers.members shared) [] (heldClose shared))) Closed)) ;;;
    if missing || repeated then tell (Warned (c_postId close))
    else
      let outcomes := (fun answer => (l_member answer,
        outcomeOfResponse numberText jsonQuote (r_requestedSchema request) (l_response answer)))
        <$> listed in
      emit
        (CollectiveResultItem AllGather id (to request) (question request)
          (memberOutcomes (SharedAnswers.members shared) (mapOfEntries outcomes)))
        (Some (mkProvenance
          (omap (fun answer => if decide (l_member answer = self) then None
                 else Some (l_member answer, l_recordHash answer)) listed)
          (Some (r_recordHash request)))).

Definition settleAnswer (id : string) (certified : option CertifiedAnswer) :
    Layer CollectiveEmitError unit :=
  get (fun s =>
    match requestObject s id with
    | None => lret tt
    | Some request0 =>
        if decide (state request0 = Closed) then lret tt
        else
          let request := set_state request0
            (match certified with Some _ => AnsweredState | None => Open end) in
          match kind request with
          | ReceivedRequest.GatherRequest => modify (setRequestObject id request)
          | AllGatherRequest shared0 =>
              let kept := match certified with
                          | Some answer => jm_set (answers shared0) self answer
                          | None => answers shared0
                          end in
              let shared := mkShared (SharedAnswers.members shared0) kept None in
              let request := set_shared request shared in
              modify (setRequestObject id request) ;;;
              match heldClose shared0 with
              | None => lret tt
              | Some held => applyClose id request shared held
              end
          end
    end).

(** ** Classifying a certified post *)

Definition multicastItem (m : InboundMessage) (content : PostContent) : option InboundItem :=
  match content with
  | [] => None
  | _ => Some (MulticastItem (mkMessage (m_kind m) (m_postId m) (m_address m) (m_sender m) content))
  end.

(** [forgetExpiredRequests]: the map drops them, a sender may still hold one. *)
Definition forgetExpired (now : Z) (s : CollectiveState) : CollectiveState :=
  let kept := forgetExpiredRequests (requests s) now in
  let dropped := List.filter (fun '(id, _) => negb (jm_has kept id)) (requests s) in
  set_orphans (fun o => (dropped ++ o)%list) (set_requests (fun _ => kept) s).

Definition requestItem (post : CertifiedPost) (op : CollectingOp) (id nonce : string)
    (deadline : Z) (schema : FormGrammar.FormModeSchema) (now : Z) :
    Layer CollectiveEmitError (option InboundItem) :=
  get (fun s =>
    match receivedRequest sha256Base64Url post op id nonce deadline schema now
            (if admission then Unadmitted else Open) with
    | None => lret None
    | Some received =>
        let held := jm_get (requests s) id in
        if decide (r_postId (default received held) <> m_postId (message post)) then lret None
        else
          match held with
          | Some _ => lret tt
          | None => modify (fun s => set_requests (fun m => jm_set m id received)
                                       (forgetExpired now s))
          end ;;;
          lret (if decide (now < deadline)%Z
                then Some (CollectiveRequestItem op id (m_postId (message post))
                  (m_sender (message post)) (to received) (question received) schema deadline)
                else None)
    end).

Definition answeredInConversation (g : GatherRequest) (m : InboundMessage) : bool :=
  match g_op g, m_kind m with
  | Gather, Direct => true
  | AllGather, Group _ => bool_decide (m_address m = g_to g)
  | _, _ => false
  end.

Definition recordCountedAnswer (og : OpenGather) (post : CertifiedPost) (id : string)
    (response : CollectiveResponse) : Layer CollectiveEmitError unit :=
  get (fun s =>
    let m := message post in
    if negb (answeredInConversation (open og) m) ||
       negb (bool_decide (m_sender m ∈ g_members (open og))) ||
       jm_has (outcomes (recordedOf s id)) (m_sender m)
    then lret tt
    else
      let outcome := outcomeOfResponse numberText jsonQuote
        (g_requestedSchema (open og)) response in
      updateGather id (fun '(og, r) =>
        (og, mkRecorded (jm_set (outcomes r) (m_sender m) outcome)
               (jm_set (answerHashes r) (m_sender m) (p_recordHash post))))).

Definition recordPeerAnswer {E} (id : string) (request : ReceivedRequest)
    (shared : SharedAnswers) (post : CertifiedPost) (response : CollectiveResponse) :
    Layer E unit :=
  let m := message post in
  match m_kind m with
  | Direct => lret tt
  | Group _ =>
      if bool_decide (state request = Closed) || negb (bool_decide (m_address m = to request))
      then lret tt
      else modify (setRequestObject id (set_shared request
             (keepFirstAnswer shared (m_sender m) (mkAnswer (p_recordHash post) response))))
  end.

Definition recordAnswer (post : CertifiedPost) (id : string) (response : CollectiveResponse) :
    Layer CollectiveEmitError unit :=
  get (fun s =>
    match jm_get (gathers s) id with
    | Some og => recordCountedAnswer og post id response
    | None =>
        match jm_get (requests s) id with
        | Some request =>
            match kind request with
            | AllGatherRequest shared => recordPeerAnswer id request shared post response
            | ReceivedRequest.GatherRequest => lret tt
            end
        | None => lret tt
        end
    end).

Definition receiveClose (m : InboundMessage) (id : string) (included : list string) :
    Layer CollectiveEmitError unit :=
  get (fun s =>
    match jm_get (requests s) id with
    | Some request =>
        match kind request, m_kind m with
        | AllGatherRequest shared, Group _ =>
            if negb (bool_decide (m_address m = to request)) ||
               negb (bool_decide (m_sender m = from request))
            then tell (Warned (m_postId m))
            else if bool_decide (state request = Closed) ||
                    bool_decide (heldClose shared <> None)
            then lret tt
            else applyClose id request shared (mkClose (m_postId m) included)
        | _, _ => tell (Warned (m_postId m))
        end
    | None => tell (Warned (m_postId m))
    end).

Definition collectiveItem (post : CertifiedPost) (value : CollectiveValue) (now : Z) :
    Layer CollectiveEmitError (option InboundItem) :=
  match value with
  | MulticastOperation =>
      lret (multicastItem (message post) (withoutCollectivePart (m_content (message post))))
  | CollectingOperation op id nonce deadline schema =>
      requestItem post op id nonce deadline schema now
  | ResponseValue id response => recordAnswer post id response ;;; lret None
  | CollectiveClose id included => receiveClose (message post) id included ;;; lret None
  end.

Definition classify (post : CertifiedPost) (now : Z) :
    Layer CollectiveEmitError (option InboundItem) :=
  match readCollectiveValue (m_content (message post)) with
  | Fail_ _ => tell (Warned (m_postId (message post))) ;;; lret None
  | Succeed None => lret (Some (MulticastItem (message post)))
  | Succeed (Some value) => collectiveItem post value now
  end.

(** [settleRequest] of the layer: only an unadmitted request changes. *)
Definition settleRequest {E} (id : string) (presented : bool) : Layer E unit :=
  get (fun s =>
    match jm_get (requests s) id with
    | Some request =>
        if decide (state request = Unadmitted)
        then modify (set_requests (fun m =>
               jm_set m id (set_state request (if presented then Open else WithheldState))))
        else lret tt
    | None => lret tt
    end).

(** ** Reporting a refused send *)

Inductive FailureDelivery := DeliverResult | DeliverInbound.

Record SendOutcome := mkOutcome { so_operationId : option string; so_postIds : list string }.

Definition reportFailure (failureDelivery : FailureDelivery)
    (send : Exit RefusedSend SendOutcome) : Layer RefusalError SendOutcome :=
  match send with
  | Succeed outcome => lret outcome
  | Fail_ refused =>
      match failureDelivery with
      | DeliverResult => lfail (ref_error refused)
      | DeliverInbound => fun s =>
          let '(s', events, exit) := emit (OperationFailedItem (ref_id refused) (ref_to refused)
            (refusalMessage (ref_error refused))) None s in
          (s', events, match exit with
                       | Succeed _ => Succeed (mkOutcome (Some (ref_id refused)) [])
                       | Fail_ _ => Fail_ (ref_error refused)
                       end)
      end
  end.

End layer.
End Operation.
