(* ===== verification/OperationRuns.v ===== *)
(** OperationRuns: the collective layer's concurrent behaviour
    (packages/client/src/communication/collectives/operation.ts).

    A run interleaves the stretches of Operation: the sends of this endpoint,
    each at a phase, their request posts, the deadline timers, the closes
    being posted and the certified posts classified.  Nothing orders them but
    their phases, as nothing orders the fibers of the code. *)
From S2P Require Import Prelude JsMap JsString Identifiers Address FormGrammar Validation.
From S2P Require Import CollectivePart ReceivedRequest Operation.
Import Identifiers SendErrors Validation CollectivePart SharedAnswers ReceivedRequest RequestSends
  Operation.
Local Open Scope nat_scope.

Module OperationRuns.

(** ** Outcomes of an operation *)

(** What the host learns of an operation it started: its result, with
    provenance that names no request of another agent, or its failure. *)
Definition isOutcome (id : string) (e : Event) : bool :=
  match e with
  | Emit (CollectiveResultItem _ i _ _ _) (Some pv) _ =>
      bool_decide (i = id) && bool_decide (pv_request pv = None)
  | Emit (OperationFailedItem i _ _) _ _ => bool_decide (i = id)
  | _ => false
  end.

Definition outs (id : string) (events : list Event) : nat :=
  length (List.filter (isOutcome id) events).

Definition closingOf (id : string) (l : list Closing) : nat :=
  length (List.filter (fun c => bool_decide (cl_id c = id)) l).

(** An operation still to end: open, or its close being posted. *)
Definition pending (id : string) (s : CollectiveState) : nat :=
  (if jm_has (gathers s) id then 1 else 0) + closingOf id (closing s).

(** Every close being posted announces the result of its own operation. *)
Definition closing_ok (c : Closing) : Prop :=
  (exists op to question outcomes,
     cl_result c = CollectiveResultItem op (cl_id c) to question outcomes) /\
  pv_request (cl_provenance c) = None.

Definition state_ok (s : CollectiveState) : Prop :=
  jm_wf (gathers s) /\ Forall closing_ok (closing s).

(** A stretch that ends no operation silently: whatever stops pending comes
    out as exactly one outcome. *)
Definition conserves {E A} (m : Layer E A) : Prop :=
  forall s s' events exit, state_ok s -> m s = (s', events, exit) ->
    state_ok s' /\ forall id, pending id s' + outs id events = pending id s.

Lemma outs_app id e1 e2 : outs id (e1 ++ e2) = outs id e1 + outs id e2.
Proof. unfold outs. by rewrite List.filter_app, length_app. Qed.

Lemma outs_cons id e es : outs id (e :: es) = (if isOutcome id e then 1 else 0) + outs id es.
Proof. unfold outs. simpl. by destruct (isOutcome id e). Qed.

Lemma outs_nil id : outs id [] = 0.
Proof. done. Qed.

Lemma closingOf_app id l1 l2 : closingOf id (l1 ++ l2) = closingOf id l1 + closingOf id l2.
Proof. unfold closingOf. by rewrite List.filter_app, length_app. Qed.

Lemma conserves_bind {E A B} (m : Layer E A) (k : A -> Layer E B) :
  conserves m -> (forall a, conserves (k a)) -> conserves (lbind m k).
Proof.
  intros Hm Hk s s' events exit Hs. unfold lbind.
  destruct (m s) as [[s1 e1] [a|e]] eqn:H1; destruct (Hm _ _ _ _ Hs H1) as [Hs1 Hc1].
  - destruct (k a s1) as [[s2 e2] x2] eqn:H2. intros [= <- <- <-].
    destruct (Hk _ _ _ _ _ Hs1 H2) as [Hs2 Hc2]. split; [done|].
    intros id. rewrite outs_app. specialize (Hc1 id). specialize (Hc2 id). lia.
  - by intros [= <- <- <-].
Qed.

Lemma conserves_ret {E A} (a : A) : conserves (lret (E := E) a).
Proof. intros s s' ev x Hs [= <- <- <-]. split; [done|]. intros. unfold outs. simpl. lia. Qed.

Lemma conserves_fail {E A} (e : E) : conserves (lfail (A := A) e).
Proof. intros s s' ev x Hs [= <- <- <-]. split; [done|]. intros. unfold outs. simpl. lia. Qed.

Lemma conserves_get {E A} (k : CollectiveState -> Layer E A) :
  (forall s, conserves (k s)) -> conserves (get k).
Proof. intros Hk s. apply (Hk s s). Qed.

Lemma conserves_ignore {E E' A} (m : Layer E A) : conserves m -> conserves (ignore (E' := E') m).
Proof.
  intros Hm s s' ev x Hs. unfold ignore. destruct (m s) as [[s1 e1] x1] eqn:H1.
  intros [= <- <- <-]. by eapply Hm.
Qed.

(** A change of the state that leaves gathers and closes alone. *)
Lemma conserves_modify {E} f :
  (forall s, gathers (f s) = gathers s /\ closing (f s) = closing s) ->
  conserves (modify (E := E) f).
Proof.
  intros Hf s s' ev x [Hw Hc] [= <- <- <-]. destruct (Hf s) as [Hg Hcl].
  unfold state_ok, pending, outs. rewrite Hg, Hcl. split; [done|]. intros. simpl. lia.
Qed.

Lemma conserves_tell {E} e : (forall id, isOutcome id e = false) -> conserves (tell (E := E) e).
Proof.
  intros He s s' ev x Hs [= <- <- <-]. split; [done|]. intros id. unfold outs. simpl.
  rewrite He. simpl. lia.
Qed.

Create HintDb conserves discriminated.
#[export] Hint Resolve conserves_ret conserves_fail conserves_tell : conserves.

Lemma setRequestObject_same id r s :
  gathers (setRequestObject id r s) = gathers s /\ closing (setRequestObject id r s) = closing s.
Proof. unfold setRequestObject. by destruct (jm_has _ _). Qed.
#[export] Hint Resolve setRequestObject_same : conserves.

Section layer.
Context `{Base64Url}.
Context (canonicalBytes : PostContent -> option Z).
Context (sha256Base64Url : string -> string).
Context (numberText : Qcanon.Qc -> string) (jsonQuote : string -> string).
Context (self : string) (admission : bool) (keep : InboundItem -> bool).

(** An emission leaves the state alone and emits the item, then the span. *)
Lemma emitThenClose_run item pv ann id outcome s :
  exists events exit, emitThenClose keep item pv ann id outcome s = (s, events, exit) /\
    forall i, outs i events = if isOutcome i (Emit item pv (keep item)) then 1 else 0.
Proof.
  unfold emitThenClose, emit, lbind, tell, closedSpan.
  destruct (keep item), ann; simpl; eexists _, _; (split; [reflexivity|]);
    intros i; rewrite ?outs_cons, ?outs_nil; simpl; lia.
Qed.

Lemma pending_delete i id s : jm_wf (gathers s) -> is_Some (jm_get (gathers s) id) ->
  pending i (set_gathers (fun m => jm_delete m id) s) + (if decide (i = id) then 1 else 0)
  = pending i s.
Proof.
  intros Hw [og Hog]. unfold pending, jm_has. simpl. rewrite jm_get_delete by done.
  destruct (decide (i = id)) as [->|Hne].
  - rewrite decide_True by done. rewrite Hog. lia.
  - rewrite decide_False by done. lia.
Qed.

Lemma conserves_completeGather id : conserves (completeGather keep id).
Proof.
  intros s s' events exit [Hw Hc]. unfold completeGather, get.
  destruct (jm_get (gathers s) id) as [og|] eqn:Hog; cycle 1.
  { intros [= <- <- <-]. split; [done|]. intros i. rewrite outs_nil. lia. }
  assert (Hsome : is_Some (jm_get (gathers s) id)) by eauto.
  pose proof (jm_delete_wf _ id Hw) as Hw'.
  destruct (g_op (open og)).
  - unfold lbind, modify.
    match goal with |- context [emitThenClose keep ?it ?pv ?a ?i ?o ?st] =>
      destruct (emitThenClose_run it pv a i o st) as (ev & ex & -> & Ho) end.
    intros [= <- <- <-]. split; [split; [exact Hw'|exact Hc]|].
    intros i. rewrite Ho. simpl isOutcome.
    rewrite andb_true_r.
    rewrite <- (pending_delete i id s Hw Hsome). unfold pending. simpl.
    case_bool_decide; case_decide; congruence || lia.
  - intros [= <- <- <-]. split.
    + split; [exact Hw'|]. simpl. apply Forall_app. split; [done|].
      constructor; [|constructor]. split; [simpl; eauto|done].
    + intros i. rewrite <- (pending_delete i id s Hw Hsome). unfold pending. simpl.
      rewrite closingOf_app, outs_nil. unfold closingOf at 2. simpl.
      case_bool_decide; case_decide; simpl; congruence || lia.
Qed.

Lemma conserves_updateGather id change : conserves (updateGather keep id change).
Proof.
  intros s s' events exit [Hw Hc]. unfold updateGather, get.
  destruct (jm_get (gathers s) id) as [og|] eqn:Hog; cycle 1.
  { intros [= <- <- <-]. split; [done|]. intros i. rewrite outs_nil. lia. }
  destruct (change (og, recordedOf s id)) as [og' r'].
  set (s1 := set_recorded (fun m => jm_set m id r') (set_gathers (fun m => jm_set m id og') s)).
  assert (Hs1 : state_ok s1) by (split; [by apply jm_set_wf|done]).
  assert (Hp : forall i, pending i s1 = pending i s).
  { intros i. unfold pending, jm_has. simpl. rewrite jm_get_set.
    case_decide; subst; [|done]. by rewrite Hog. }
  destruct (requestsSettled og' && _); intros Hrun.
  - unfold lbind, modify in Hrun. cbv beta iota zeta in Hrun.
    destruct (completeGather keep id s1) as [[s2 e2] x2] eqn:Hcg.
    unfold s1 in Hcg. rewrite Hcg in Hrun. simpl in Hrun. injection Hrun as <- <- <-.
    destruct (conserves_completeGather id _ _ _ _ Hs1 Hcg) as [? Hcc].
    split; [done|]. intros i. rewrite <- Hp. apply Hcc.
  - injection Hrun as <- <- <-. split; [done|]. intros i. rewrite Hp, outs_nil. lia.
Qed.

(** A member's result names the request it answers: it is no outcome here. *)
Lemma conserves_emit_member op id to q os pv request :
  conserves (emit keep (CollectiveResultItem op id to q os) (Some (mkProvenance pv (Some request)))).
Proof.
  unfold emit. apply conserves_bind; [|intros; destruct (keep _); auto with conserves].
  apply conserves_tell. intros i. simpl. by rewrite andb_false_r.
Qed.

Ltac conserve := repeat match goal with
  | |- conserves (lret _) => apply conserves_ret
  | |- conserves (lfail _) => apply conserves_fail
  | |- conserves (lbind _ _) => apply conserves_bind; [|intros]
  | |- conserves (get _) => apply conserves_get; intros
  | |- conserves (ignore _) => apply conserves_ignore
  | |- conserves (tell _) => apply conserves_tell; done
  | |- conserves (modify _) =>
      apply conserves_modify; intros; first [apply setRequestObject_same | done]
  | |- conserves (completeGather _ _) => apply conserves_completeGather
  | |- conserves (updateGather _ _ _) => apply conserves_updateGather
  | |- conserves (emit _ _ _) => apply conserves_emit_member
  | |- conserves (if ?x then _ else _) => destruct x
  | |- conserves (match ?x with _ => _ end) => destruct x
  | _ => solve [eauto 1 with conserves nocore]
  end.

Lemma conserves_applyClose id request shared close :
  conserves (applyClose numberText jsonQuote self keep id request shared close).
Proof. unfold applyClose. conserve. Qed.
#[local] Hint Resolve conserves_applyClose : conserves.

Lemma conserves_settleAnswer id certified :
  conserves (settleAnswer numberText jsonQuote self keep id certified).
Proof. unfold settleAnswer. conserve. Qed.

Lemma conserves_recordAnswer post id response :
  conserves (recordAnswer numberText jsonQuote keep post id response).
Proof. unfold recordAnswer, recordCountedAnswer, recordPeerAnswer. conserve. Qed.

Lemma conserves_receiveClose m id included :
  conserves (receiveClose numberText jsonQuote self keep m id included).
Proof. unfold receiveClose. conserve. Qed.

Lemma conserves_requestItem post op id nonce deadline schema now :
  conserves (requestItem sha256Base64Url admission post op id nonce deadline schema now).
Proof. unfold requestItem. conserve. Qed.
#[local] Hint Resolve conserves_recordAnswer conserves_receiveClose conserves_requestItem : conserves.

Lemma conserves_classify post now :
  conserves (classify sha256Base64Url numberText jsonQuote self admission keep post now).
Proof. unfold classify, collectiveItem. conserve. Qed.

Lemma conserves_recordRefusal {E} id refusal : conserves (recordRefusal (E := E) keep id refusal).
Proof. unfold recordRefusal. conserve. Qed.

Lemma conserves_claimRequest id now : conserves (claimRequest id now).
Proof. unfold claimRequest. conserve. Qed.

Lemma conserves_reopenRequest {E} id : conserves (reopenRequest (E := E) id).
Proof. unfold reopenRequest. conserve. Qed.

Lemma conserves_settleRequest {E} id presented : conserves (settleRequest (E := E) id presented).
Proof. unfold settleRequest. conserve. Qed.

(** ** Runs *)

(** Where one send of this endpoint is.  [GroupHolding]: a firewall's bind
    holds the opened all_gather; [GroupRetrying]: a stale check gave the hold
    up and will take it again. *)
Inductive SendPhase :=
  | GatherSending (p : PreparedGather)
  | GroupHolding (p : PreparedGather)
  | GroupRetrying (p : PreparedGather)
  | GroupAwaiting (p : PreparedGather)
  | SendDone.

(** What the host sees: the layer's events, and refused sends. *)
Inductive Entry :=
  | Did (e : Event)
  | SendRefused (id : string) (error : RefusalError).

Record Run := mkRun {
  layer : CollectiveState;
  phases : list (string * SendPhase);
  log : list Entry;
}.

(** A stretch outside any send. *)
Definition ran {E A} (r : Run) (result : CollectiveState * list Event * Exit E A) : Run :=
  let '(s, events, _) := result in mkRun s (phases r) (log r ++ (Did <$> events)).

(** A stretch of the send [id]: its failure refuses the send. *)
Definition sent {A} (r : Run) (id : string) (next : SendPhase)
    (result : CollectiveState * list Event * Exit RefusalError A) : Run :=
  let '(s, events, exit) := result in
  match exit with
  | Succeed _ => mkRun s (jm_set (phases r) id next) (log r ++ (Did <$> events))
  | Fail_ e => mkRun s (jm_set (phases r) id SendDone)
                 (log r ++ (Did <$> events) ++ [SendRefused id e])
  end.

(** [sendGroupRequest] takes its hold under a firewall: the failure of the
    hold closes an announced operation. *)
Definition holdGroup (p : PreparedGather) (now : Z) : Layer RefusalError unit := fun s =>
  let '(s1, e1, exit) := openGather p true now s in
  match exit with
  | Succeed _ => (s1, e1, exit)
  | Fail_ e =>
      if jm_has (gathers s1) (id p) then (s1, e1, exit)
      else let '(s2, e2, _) := markRefused (E := RefusalError) (id p) s1 in
           (s2, (e1 ++ e2)%list, exit)
  end.

(** The bind fails with a send error: the hold is given up, the operation
    marked refused, and the request abandoned. *)
Definition bindFailed (p : PreparedGather) (error : SendError) : Layer RefusalError unit :=
  releaseGather (id p) ;;;
  get (fun s => if jm_has (gathers s) (id p) then lret tt else markRefused (id p)) ;;;
  abandonGroupRequest p error.

Definition runClassify (post : CertifiedPost) (now : Z) :=
  classify sha256Base64Url numberText jsonQuote self admission keep post now.

Inductive step (r : Run) : Run -> Prop :=
  | step_gather p now :
      jm_get (phases r) (id p) = None -> g_op (p_open p) = Gather ->
      step r (sent r (id p) (GatherSending p) (openGather p false now (layer r)))
  | step_refusal i ph refusal :
      jm_get (phases r) i = Some ph ->
      step r (ran r (recordRefusal (E := RefusalError) keep i refusal (layer r)))
  | step_settle p (posts : list string) refused :
      jm_get (phases r) (id p) = Some (GatherSending p) ->
      step r (sent r (id p) SendDone (settleRequests keep p posts refused (layer r)))
  | step_group p now :
      admission = false -> jm_get (phases r) (id p) = None -> g_op (p_open p) = AllGather ->
      step r (sent r (id p) (GroupAwaiting p) (openGather p true now (layer r)))
  | step_group_hold p now :
      admission = true ->
      (jm_get (phases r) (id p) = None \/ jm_get (phases r) (id p) = Some (GroupRetrying p)) ->
      g_op (p_open p) = AllGather ->
      step r (sent r (id p) (GroupHolding p) (holdGroup p now (layer r)))
  | step_group_stale p :
      jm_get (phases r) (id p) = Some (GroupHolding p) ->
      step r (sent r (id p) (GroupRetrying p) (releaseGather (id p) (layer r)))
  | step_group_bind_failed p error :
      jm_get (phases r) (id p) = Some (GroupHolding p) ->
      step r (sent r (id p) SendDone (bindFailed p error (layer r)))
  | step_group_bound p :
      jm_get (phases r) (id p) = Some (GroupHolding p) ->
      step r (sent r (id p) (GroupAwaiting p) (lret tt (layer r)))
  | step_group_settled p (post : Exit SendError string) :
      jm_get (phases r) (id p) = Some (GroupAwaiting p) ->
      step r (sent r (id p) SendDone (groupRequestSettled p post (layer r)))
  | step_deadline i og now :
      jm_get (gathers (layer r)) i = Some og -> (timer og <= now)%Z ->
      step r (ran r (completeGather keep i (layer r)))
  | step_closed pre c post outcome :
      closing (layer r) = pre ++ c :: post ->
      step r (ran r (closeAllGather canonicalBytes keep c outcome
        (set_closing (fun _ => pre ++ post) (layer r))))
  | step_classify post now : step r (ran r (runClassify post now (layer r)))
  | step_claim i now : step r (ran r (claimRequest i now (layer r)))
  | step_reopen i : step r (ran r (reopenRequest (E := RefusalError) i (layer r)))
  | step_answered i certified :
      step r (ran r (settleAnswer numberText jsonQuote self keep i certified (layer r)))
  | step_admitted i presented :
      step r (ran r (settleRequest (E := RefusalError) i presented (layer r))).

Definition start : Run := mkRun initialState [] [].
Definition reachable (r : Run) : Prop := rtc step start r.

(** The outcomes the host saw of operation [i]: results and failures the layer
    emitted, and a refused send. *)
Definition seen (i : string) (e : Entry) : bool :=
  match e with
  | Did e => isOutcome i e
  | SendRefused j _ => bool_decide (j = i)
  end.
Definition outcomesOf (i : string) (l : list Entry) : nat := length (List.filter (seen i) l).

(** ** Every operation ends once *)

Record run_ok (i : string) (r : Run) : Prop := {
  ok_state : state_ok (layer r);
  ok_total : pending i (layer r) + outcomesOf i (log r) =
    match jm_get (phases r) i with None => 0 | Some _ => 1 end;
}.

Lemma outcomesOf_app i l1 l2 : outcomesOf i (l1 ++ l2) = outcomesOf i l1 + outcomesOf i l2.
Proof. unfold outcomesOf. by rewrite List.filter_app, length_app. Qed.

Lemma outcomesOf_cons i e l : outcomesOf i (e :: l) = (if seen i e then 1 else 0) + outcomesOf i l.
Proof. unfold outcomesOf. simpl. by destruct (seen i e). Qed.

Lemma outcomesOf_refused i j e : outcomesOf i [SendRefused j e] = if decide (i = j) then 1 else 0.
Proof.
  unfold outcomesOf. simpl. case_bool_decide; case_decide; simpl; congruence.
Qed.

Lemma outcomesOf_did i events : outcomesOf i (Did <$> events) = outs i events.
Proof.
  unfold outcomesOf, outs. induction events as [|e events IH]; [done|].
  rewrite fmap_cons. cbn [List.filter seen]. destruct (isOutcome i e); cbn [length]; by rewrite IH.
Qed.

Lemma ran_ok {E A} i r (m : Layer E A) : conserves m -> run_ok i r -> run_ok i (ran r (m (layer r))).
Proof.
  intros Hm [Hs Ht]. unfold ran. destruct (m (layer r)) as [[s ev] x] eqn:Hx.
  destruct (Hm _ _ _ _ Hs Hx) as [Hs' Hc]. split; [done|]. simpl.
  rewrite outcomesOf_app, outcomesOf_did, <- Ht, <- Hc. lia.
Qed.

(** A stretch that ends its operation exactly when it fails. *)
Definition settles {A} (o : string) (m : Layer RefusalError A) : Prop :=
  forall s s' events exit, state_ok s -> m s = (s', events, exit) ->
    state_ok s' /\ forall i, pending i s' + outs i events +
      (match exit with Fail_ _ => if decide (i = o) then 1 else 0 | Succeed _ => 0 end)
      = pending i s.

Lemma sent_ok {A} i r o next (m : Layer RefusalError A) ph :
  settles o m -> jm_get (phases r) o = Some ph -> run_ok i r ->
  run_ok i (sent r o next (m (layer r))).
Proof.
  intros Hm Hph [Hs Ht]. unfold sent. destruct (m (layer r)) as [[s ev] x] eqn:Hx.
  destruct (Hm _ _ _ _ Hs Hx) as [Hs' Hc].
  destruct x as [a|e]; (split; [done|]); cbn [layer phases log];
    rewrite ?outcomesOf_app, outcomesOf_did, ?outcomesOf_refused, jm_get_set;
    specialize (Hc i);
    repeat case_decide; subst; rewrite ?Hph in *; simpl; congruence || lia.
Qed.

(** A stretch that leaves the operation [i] as it was. *)
Definition spares {E A} (i : string) (m : Layer E A) : Prop :=
  forall s s' events exit, state_ok s -> m s = (s', events, exit) ->
    state_ok s' /\ pending i s' + outs i events = pending i s.

Lemma conserves_spares {E A} i (m : Layer E A) : conserves m -> spares i m.
Proof. intros Hm s s' ev x Hs Hx. destruct (Hm _ _ _ _ Hs Hx). auto. Qed.

Lemma spares_bind {E A B} i (m : Layer E A) (k : A -> Layer E B) :
  spares i m -> (forall a, spares i (k a)) -> spares i (lbind m k).
Proof.
  intros Hm Hk s s' events exit Hs. unfold lbind.
  destruct (m s) as [[s1 e1] [a|e]] eqn:H1; destruct (Hm _ _ _ _ Hs H1) as [Hs1 Hc1].
  - destruct (k a s1) as [[s2 e2] x2] eqn:H2. intros [= <- <- <-].
    destruct (Hk _ _ _ _ _ Hs1 H2) as [Hs2 Hc2]. split; [done|]. rewrite outs_app. lia.
  - by intros [= <- <- <-].
Qed.

Lemma spares_get {E A} i (k : CollectiveState -> Layer E A) :
  (forall s, spares i (k s)) -> spares i (get k).
Proof. intros Hk s. apply (Hk s s). Qed.

(** Opening or dropping another operation. *)
Lemma spares_gathers {E} i f :
  (forall m, jm_wf m -> jm_wf (f m) /\ jm_get (f m) i = jm_get m i) ->
  spares i (modify (E := E) (set_gathers f)).
Proof.
  intros Hf s s' ev x [Hw Hc] [= <- <- <-]. destruct (Hf _ Hw) as [Hw' Hg].
  split; [done|]. unfold pending, jm_has, outs. simpl. rewrite Hg. lia.
Qed.

Lemma spares_release {E} i o : i <> o -> spares i (releaseGather (E := E) o).
Proof.
  intros Hne. apply spares_gathers. intros m Hw. split; [by apply jm_delete_wf|].
  rewrite jm_get_delete by done. by rewrite decide_False by done.
Qed.

Lemma spares_open i p settled now : i <> id p -> spares i (openGather p settled now).
Proof.
  intros Hne. unfold openGather. case_decide; [by apply conserves_spares; conserve|].
  apply spares_get. intros s. apply spares_bind.
  - apply spares_gathers. intros m Hw. split; [by apply jm_set_wf|].
    rewrite jm_get_set. by rewrite decide_False by done.
  - intros _. apply conserves_spares. conserve.
Qed.

Lemma conserves_markRefused {E} o : conserves (markRefused (E := E) o).
Proof. unfold markRefused. conserve. Qed.

Lemma spares_hold i p now : i <> id p -> spares i (holdGroup p now).
Proof.
  intros Hne s s' ev x Hs. unfold holdGroup.
  destruct (openGather p true now s) as [[s1 e1] y] eqn:Ho.
  destruct (spares_open i p true now Hne _ _ _ _ Hs Ho) as [Hs1 Hc1].
  destruct y as [[]|e]; [by intros [= <- <- <-]|].
  destruct (jm_has _ _); [by intros [= <- <- <-]|].
  destruct (markRefused (id p) s1) as [[s2 e2] y2] eqn:Hm. intros [= <- <- <-].
  destruct (conserves_markRefused (E := RefusalError) (id p) _ _ _ _ Hs1 Hm) as [Hs2 Hc2].
  split; [done|]. rewrite outs_app. specialize (Hc2 i). lia.
Qed.

Lemma spares_bindFailed i p error : i <> id p -> spares i (bindFailed p error).
Proof.
  intros Hne. unfold bindFailed, abandonGroupRequest, forgetGather.
  apply spares_bind; [by apply spares_release|intros _].
  apply spares_bind; [|intros _; apply spares_bind; [apply spares_bind|]].
  - apply spares_get. intros s.
    destruct (jm_has _ _); apply conserves_spares; [conserve|apply conserves_markRefused].
  - by apply spares_release.
  - intros _. apply conserves_spares, conserves_markRefused.
  - intros _. apply conserves_spares. conserve.
Qed.

Lemma sent_other {A} i r o next (m : Layer RefusalError A) :
  i <> o -> spares i m -> run_ok i r -> run_ok i (sent r o next (m (layer r))).
Proof.
  intros Hne Hm [Hs Ht]. unfold sent. destruct (m (layer r)) as [[s ev] x] eqn:Hx.
  destruct (Hm _ _ _ _ Hs Hx) as [Hs' Hc].
  destruct x as [a|e]; (split; [done|]); cbn [layer phases log];
    rewrite ?outcomesOf_app, outcomesOf_did, ?outcomesOf_refused, jm_get_set;
    repeat case_decide; subst; done || lia.
Qed.

(** Opening an operation of a fresh id makes it pending, or fails and leaves
    the state. *)
Lemma opened_ok i r p settled now next :
  jm_get (phases r) (id p) = None -> run_ok i r ->
  run_ok i (sent r (id p) next (openGather p settled now (layer r))).
Proof.
  intros Hph [Hs Ht]. unfold openGather. case_decide.
  - unfold lfail, sent. split; [done|]. cbn [layer phases log].
    rewrite !outcomesOf_app, outcomesOf_did, outs_nil, outcomesOf_refused, jm_get_set.
    repeat case_decide; subst; rewrite ?Hph in *; simpl; congruence || lia.
  - assert (Hrun : exists a ev, forall i, outs i ev = 0 /\
      get (E := RefusalError) (fun s =>
        modify (set_gathers (fun m => jm_set m (id p) (mkOpen (p_open p) (p_deadlineAt p) settled))) ;;;
        if bool_decide (id p ∉ announced s) then
          modify (set_announced (fun a => a ++ [id p])%list) ;;;
          tell (OpenedSpan (id p) (g_op (p_open p)) (p_deadlineAt p))
        else lret tt) (layer r) =
      (set_announced (fun _ => a)
        (set_gathers (fun m => jm_set m (id p) (mkOpen (p_open p) (p_deadlineAt p) settled))
          (layer r)), ev, Succeed tt)).
    { unfold get, lbind, modify, tell, lret. cbv beta iota zeta.
      destruct (bool_decide _); eexists _, _; intros k; (split; [|reflexivity]); done. }
    destruct Hrun as (a & ev & Hrun). destruct (Hrun EmptyString) as [_ Heq].
    unfold get in Heq |- *. cbv beta in Heq |- *. rewrite Heq. unfold sent.
    destruct Hs as [Hw Hc]. split; [split; [by apply jm_set_wf|done]|].
    cbn [layer phases log]. rewrite outcomesOf_app, outcomesOf_did, jm_get_set.
    destruct (Hrun i) as [-> _]. unfold pending, jm_has in *. simpl in *.
    rewrite jm_get_set. destruct (decide (id p = i)) as [<-|Hne]; [|lia].
    rewrite Hph in Ht. destruct (jm_get (gathers (layer r)) (id p)); [done|]. lia.
Qed.

Lemma conserves_settles {A} o (m : Layer RefusalError A) :
  conserves m -> (forall s s' ev e, m s <> (s', ev, Fail_ e)) -> settles o m.
Proof.
  intros Hm Hn s s' ev x Hs Hx. destruct (Hm _ _ _ _ Hs Hx) as [Hs' Hc].
  split; [done|]. intros i. destruct x; [|by apply Hn in Hx]. specialize (Hc i). lia.
Qed.

(** Dropping an open operation and refusing it. *)
Lemma forget_fails {A} o (e : RefusalError) s s' events exit :
  state_ok s -> jm_has (gathers s) o = true ->
  (forgetGather o ;;; lfail (A := A) e) s = (s', events, exit) ->
  state_ok s' /\ exit = Fail_ e /\ forall i, pending i s' + outs i events +
      (if decide (i = o) then 1 else 0) = pending i s.
Proof.
  intros [Hw Hc] Hh. assert (Hsome : is_Some (jm_get (gathers s) o)).
  { unfold jm_has in Hh. destruct (jm_get _ _); [eauto|done]. }
  pose proof (fun i => pending_delete i o s Hw Hsome) as Hp.
  unfold forgetGather, releaseGather, markRefused, lbind, get, modify, tell, lfail, lret.
  cbv beta iota zeta. destruct (bool_decide _); intros [= <- <- <-];
    (split; [split; [by apply jm_delete_wf|done]|]); (split; [done|]); intros i;
    rewrite <- (Hp i); unfold pending, outs; simpl; lia.
Qed.

Lemma settles_settleRequests {P} p (posts : list P) refused :
  settles (id p) (settleRequests keep p posts refused).
Proof.
  intros s s' ev x Hs. unfold settleRequests, get.
  destruct (bool_decide _ && _ && jm_has (gathers s) (id p)) eqn:Hb.
  - apply andb_prop in Hb as [_ Hh]. intros Hx.
    destruct (forget_fails _ _ _ _ _ _ Hs Hh Hx) as (? & -> & ?). done.
  - clear Hb. revert s s' ev x Hs. apply (conserves_settles (id p)).
    + conserve.
    + intros s s' ev e. unfold lbind, ignore. destruct (updateGather _ _ _ _) as [[? ?] ?]. done.
Qed.

Lemma settles_groupRequestSettled {P} p (post : Exit SendError P) :
  settles (id p) (groupRequestSettled p post).
Proof.
  unfold groupRequestSettled. destruct post as [post|error].
  - apply conserves_settles; [conserve|done].
  - intros s s' ev x Hs. unfold get. destruct (jm_has (gathers s) (id p)) eqn:Hh.
    + intros Hx. destruct (forget_fails _ _ _ _ _ _ Hs Hh Hx) as (? & -> & ?). done.
    + intros [= <- <- <-]. split; [done|]. intros i. rewrite outs_nil. lia.
Qed.

(** Posting a close ends its operation. *)
Lemma closed_ok j r pre c post outcome :
  closing (layer r) = pre ++ c :: post -> run_ok j r ->
  run_ok j (ran r (closeAllGather canonicalBytes keep c outcome
    (set_closing (fun _ => pre ++ post) (layer r)))).
Proof.
  intros Hcl [[Hw Hc] Ht]. rewrite Hcl in Hc. apply Forall_app in Hc as [Hpre Hcp].
  apply Forall_cons in Hcp as [Hc0 Hpost].
  assert (Hrun : exists ev ex, closeAllGather canonicalBytes keep c outcome
      (set_closing (fun _ => pre ++ post) (layer r))
      = (set_closing (fun _ => pre ++ post) (layer r), ev, ex) /\
      forall i, outs i ev = if bool_decide (cl_id c = i) then 1 else 0).
  { destruct Hc0 as [(op & to & q & os & Hres) Hpv]. unfold closeAllGather.
    destruct (closePost canonicalBytes c outcome);
      match goal with |- context [emitThenClose keep ?it ?pv ?a ?i ?o ?st] =>
        destruct (emitThenClose_run it pv a i o st) as (ev & ex & -> & Ho) end;
      exists ev, ex; (split; [done|]); intros i; rewrite Ho; simpl isOutcome.
    - rewrite Hres, Hpv. by rewrite andb_true_r.
    - done. }
  destruct Hrun as (ev & ex & -> & Ho). unfold ran. split.
  - split; [done|]. simpl. by apply Forall_app.
  - cbn [layer phases log]. rewrite outcomesOf_app, outcomesOf_did, Ho, <- Ht.
    unfold pending. simpl. rewrite Hcl, !closingOf_app. unfold closingOf at 4. simpl.
    case_bool_decide; simpl; fold (closingOf j post); lia.
Qed.

(** No firewall's bind holds [i], or is to take its hold again. *)
Definition unheld (i : string) (r : Run) : Prop :=
  forall p, jm_get (phases r) i <> Some (GroupHolding p) /\
            jm_get (phases r) i <> Some (GroupRetrying p).

(** The runs in which none ever does. *)
Definition reachableUnheld (i : string) (r : Run) : Prop :=
  rtc (fun r r' => step r r' /\ unheld i r') start r.

(** A hold refused at once: the operation was never open. *)
Lemma refused_ok i r p now :
  unheld i r -> unheld i (sent r (id p) (GroupHolding p) (holdGroup p now (layer r))) ->
  (jm_get (phases r) (id p) = None \/ jm_get (phases r) (id p) = Some (GroupRetrying p)) ->
  run_ok i r -> run_ok i (sent r (id p) (GroupHolding p) (holdGroup p now (layer r))).
Proof.
  intros Hun Hun' Hph Hok. destruct (decide (i = id p)) as [->|Hne];
    [|by apply sent_other; [|apply spares_hold|]].
  destruct Hph as [Hph|Hph]; [|by apply Hun in Hph]. destruct Hok as [Hs Ht].
  revert Hun'. unfold holdGroup, openGather. case_decide.
  - intros _. unfold lfail. rewrite Hph in Ht.
    assert (jm_has (gathers (layer r)) (id p) = false) as Hnew.
    { unfold pending in Ht. destruct (jm_has _ _); [lia|done]. }
    rewrite Hnew. destruct (markRefused (id p) (layer r)) as [[s2 e2] y2] eqn:Hm.
    destruct (conserves_markRefused (E := RefusalError) (id p) _ _ _ _ Hs Hm) as [Hs2 Hc2].
    specialize (Hc2 (id p)). split; [done|]. cbn [sent layer phases log].
    rewrite !outcomesOf_app, outcomesOf_did, outcomesOf_refused, jm_get_set_eq. simpl in *.
    rewrite decide_True by done. lia.
  - intros Hun'. exfalso. destruct (Hun' p) as [Hn _]. apply Hn. clear Hn Hun'.
    unfold get, lbind, modify, tell, lret. cbv beta iota zeta.
    destruct (bool_decide _); unfold sent; cbn [phases]; by rewrite jm_get_set_eq.
Qed.

Lemma run_step_ok i r r' : unheld i r -> unheld i r' -> step r r' -> run_ok i r -> run_ok i r'.
Proof.
  intros Hun Hun' Hstep Hok.
  destruct Hstep as [p now Hph Hop|j ph refusal Hph|p posts refused Hph|p now _ Hph Hop
    |p now Ha Hph Hop|p Hph|p error Hph|p Hph|p post Hph|j og now Hog Ht|pre c post outcome Hcl
    |post now|j now|j|j certified|j presented];
    try (destruct (decide (i = id p)) as [->|Hne]; [by apply Hun in Hph|]).
  all: first [by apply opened_ok | by apply refused_ok | by apply closed_ok
    | eapply sent_ok; [by apply settles_settleRequests || by apply settles_groupRequestSettled|done..]
    | apply sent_other; [done|by apply spares_release || by apply spares_bindFailed
                              || apply conserves_spares, conserves_ret|done]
    | apply ran_ok; [|done]].
  - apply conserves_recordRefusal.
  - apply conserves_completeGather.
  - apply conserves_classify.
  - apply conserves_claimRequest.
  - apply conserves_reopenRequest.
  - apply conserves_settleAnswer.
  - apply conserves_settleRequest.
Qed.

Lemma run_unheld_ok i r : reachableUnheld i r -> run_ok i r.
Proof.
  unfold reachableUnheld. intros Hr.
  assert (Hstart : run_ok i start /\ unheld i start).
  { split; [split; [split; [constructor|constructor]|done]|done]. }
  revert Hstart. induction Hr as [r|r1 r2 r3 [Hstep Hu2] _ IH]; intros [Hok Hu]; [done|].
  apply IH. split; [|done]. by eapply run_step_ok.
Qed.

(** Without a firewall no send holds a group request. *)
Lemma no_hold r r' : admission = false ->
  (forall i, unheld i r) -> step r r' -> forall i, unheld i r'.
Proof.
  intros Hadm Hhold Hstep i p. destruct Hstep; try congruence;
    try (by apply Hhold in H0); unfold ran, sent;
    repeat match goal with
    | |- context [let '(_, _) := ?x in _] => destruct x as [[? ?] [?|?]]
    end; simpl; try apply Hhold; rewrite jm_get_set; case_decide; try done; apply Hhold.
Qed.

Lemma no_firewall_unheld i r : admission = false -> reachable r -> reachableUnheld i r.
Proof.
  intros Hadm Hr. revert i. unfold reachable in Hr.
  cut ((forall i, unheld i r) /\ forall i, reachableUnheld i r); [by intros []|].
  revert r Hr. apply rtc_ind_r; [by split; [|constructor]|]. intros r1 r2 _ Hstep [Hu IH].
  pose proof (no_hold _ _ Hadm Hu Hstep) as Hu2. split; [done|].
  intros i. eapply rtc_r; [apply IH|by split].
Qed.

(** From a run where [i] is to end, its deadline and the posting of its close
    end it. *)
Lemma can_end r i : run_ok i r ->
  exists r', rtc step r r' /\ pending i (layer r') = 0 /\ phases r' = phases r /\ run_ok i r'.
Proof.
  intros Hok.
  assert (Hgather : exists r1, rtc step r r1 /\ jm_has (gathers (layer r1)) i = false /\
    phases r1 = phases r /\ run_ok i r1).
  { destruct (jm_get (gathers (layer r)) i) as [og|] eqn:Hog.
    - exists (ran r (completeGather keep i (layer r))).
      pose proof (ran_ok i r _ (conserves_completeGather i) Hok) as Hok'.
      split_and!; [apply rtc_once; by apply (step_deadline r i og (timer og))| | |done].
      + destruct (ok_state _ _ Hok) as [Hw _]. unfold ran, completeGather, get. rewrite Hog.
        destruct (g_op (open og)); unfold lbind, modify;
          try (match goal with |- context [emitThenClose keep ?it ?pv ?a ?j ?o ?st] =>
            destruct (emitThenClose_run it pv a j o st) as (ev & ex & -> & _) end);
          simpl; unfold jm_has; by rewrite jm_get_delete_eq.
      + unfold ran. by destruct (completeGather _ _ _) as [[? ?] ?].
    - exists r. split_and!; [done| |done|done]. unfold jm_has. by rewrite Hog. }
  destruct Hgather as (r1 & Hr1 & Hh1 & Hp1 & Hok1).
  destruct (closingOf i (closing (layer r1))) as [|n] eqn:Hcl.
  { exists r1. split_and!; try done. unfold pending. by rewrite Hh1, Hcl. }
  assert (exists pre c post, closing (layer r1) = pre ++ c :: post /\ cl_id c = i)
    as (pre & c & post & Hsplit & Hci).
  { clear -Hcl. unfold closingOf in Hcl. induction (closing (layer r1)) as [|c l IH]; [done|].
    simpl in Hcl. case_bool_decide as Hc.
    - by exists [], c, l.
    - destruct (IH Hcl) as (pre & c' & post & -> & ?). by exists (c :: pre), c', post. }
  pose proof (closed_ok i r1 pre c post (Succeed tt) Hsplit Hok1) as Hok2.
  eexists. split; [eapply rtc_r; [exact Hr1|by apply (step_closed r1 pre c post (Succeed tt))]|].
  split; [|split; [|exact Hok2]].
  - assert (Hn : n = 0).
    { pose proof (ok_total _ _ Hok1) as Ht. unfold pending in Ht. rewrite Hh1, Hcl in Ht.
      destruct (jm_get (phases r1) i); lia. }
    unfold ran, closeAllGather.
    destruct (closePost canonicalBytes c (Succeed tt));
      match goal with |- context [emitThenClose keep ?it ?pv ?a ?j ?o ?st] =>
        destruct (emitThenClose_run it pv a j o st) as (ev & ex & -> & _) end;
      unfold pending; simpl; rewrite Hh1, closingOf_app;
      rewrite Hsplit, closingOf_app in Hcl; unfold closingOf at 2 in Hcl; simpl in Hcl;
      rewrite bool_decide_true in Hcl by done; simpl in Hcl; fold (closingOf i post) in Hcl; lia.
  - rewrite <- Hp1. unfold ran. by destruct (closeAllGather _ _ _ _ _) as [[? ?] ?].
Qed.

(** C26: an operation ends exactly once, unless a firewall's bind holds it.
    However request posts, refusals, answers, deadlines, closes and every other
    send interleave, the firewall's holds of other operations included, an
    operation no firewall ever holds whose send has begun has either not ended
    and produced nothing, or ended with exactly one outcome: one result, one
    failure, or one refusal; an operation never begun has none.  And one that
    has not ended can always still end.  Every operation is such a one in a
    layer without a firewall ([no_firewall_unheld]), and under a firewall every
    gather is. *)
Theorem operation_ends_once r i :
  reachableUnheld i r ->
  match jm_get (phases r) i with
  | None => outcomesOf i (log r) = 0
  | Some _ =>
      (pending i (layer r) = 1 /\ outcomesOf i (log r) = 0 \/
       pending i (layer r) = 0 /\ outcomesOf i (log r) = 1) /\
      exists r', rtc step r r' /\ outcomesOf i (log r') = 1
  end.
Proof.
  intros Hok%run_unheld_ok. pose proof (ok_total _ _ Hok) as Ht.
  destruct (jm_get (phases r) i) as [ph|] eqn:Hph; [|lia]. split; [lia|].
  destruct (can_end r i Hok) as (r' & Hsteps & Hp & Hphases & Hok').
  exists r'. split; [done|]. pose proof (ok_total _ _ Hok') as Ht'.
  rewrite Hp, Hphases, Hph in Ht'. done.
Qed.

End layer.

(** *** Under a firewall *)
Section firewall.
Context `{Base64Url}.
Context (canonicalBytes : PostContent -> option Z).
Context (sha256Base64Url : string -> string).
Context (numberText : Qcanon.Qc -> string) (jsonQuote : string -> string).
Context (self : string) (keep : InboundItem -> bool).

Definition group1 : PreparedGather :=
  mkPrepared "col_1" (mkGather AllGather "group:a,b,c" "when?" ["agent:a"; "agent:c"]
    (FormGrammar.mkForm None [] None)) [] 1000 1000.

(** C40: a firewall's bind can end an all_gather twice.  The deadline passes
    while the bind holds the opened operation, for instance waiting for a
    recovery: the operation completes.  The bind then fails: the send refuses
    the same operation. *)
Theorem firewall_bind_ends_twice :
  exists r, reachable canonicalBytes sha256Base64Url numberText jsonQuote self true keep r /\
    outcomesOf "col_1" (log r) = 2.
Proof.
  set (c := mkClosing "col_1" (p_open group1)
    (CollectiveResultItem AllGather "col_1" "group:a,b,c" "when?"
       [("agent:a", NoAnswer); ("agent:c", NoAnswer)]) [] (mkProvenance [] None) true).
  eexists. split.
  - eapply rtc_l; [apply (step_group_hold _ _ _ _ _ _ _ start group1 0); [done|by left|done]|].
    eapply rtc_l; [eapply (step_deadline _ _ _ _ _ _ _ _ "col_1" _ 1000); reflexivity || done|].
    eapply rtc_l; [eapply (step_closed _ _ _ _ _ _ _ _ [] c [] (Succeed tt)); reflexivity|].
    eapply rtc_l; [eapply (step_group_bind_failed _ _ _ _ _ _ _ _ group1
      (sendError CertificationUnavailable))|apply rtc_refl].
    unfold ran, closeAllGather.
    destruct (closePost canonicalBytes c (Succeed tt));
      match goal with |- context [emitThenClose keep ?it ?pv ?a ?j ?o ?st] =>
        destruct (emitThenClose_run keep it pv a j o st) as (ev & ex & -> & _) end; reflexivity.
  - unfold ran at 1, closeAllGather.
    destruct (closePost canonicalBytes c (Succeed tt));
      match goal with |- context [emitThenClose keep ?it ?pv ?a ?j ?o ?st] =>
        destruct (emitThenClose_run keep it pv a j o st) as (ev & ex & -> & Ho) end;
      unfold sent; simpl; rewrite outcomesOf_cons, outcomesOf_app, outcomesOf_did, Ho; reflexivity.
Qed.
End firewall.

(** *** A gather of one agent, refused and then timed out *)
Definition gather2 : PreparedGather :=
  mkPrepared "col_2" (mkGather Gather "agent:a" "when?" ["agent:a"]
    (FormGrammar.mkForm None [] None)) [] 1000 1000.
Definition keepAll (item : InboundItem) : bool := true.
Definition opened2 : Run :=
  sent start "col_2" (GatherSending gather2) (openGather gather2 false 0 (layer start)).
Definition timedOut2 : Run := ran opened2 (completeGather keepAll "col_2" (layer opened2)).

(** Under a firewall. *)
Lemma operation_ends_once_witness :
  outcomesOf "col_2" (log timedOut2) = 1 /\
  (pending "col_2" (layer timedOut2) = 1 /\ outcomesOf "col_2" (log timedOut2) = 0 \/
   pending "col_2" (layer timedOut2) = 0 /\ outcomesOf "col_2" (log timedOut2) = 1).
Proof.
  split; [vm_compute; reflexivity|].
  pose proof (operation_ends_once (H := CollectivePart.Concrete.b64)
    CollectivePart.Concrete.anyBytes (fun s => s) (fun _ => EmptyString) (fun s => s)
    "agent:me" true keepAll timedOut2 "col_2") as Hends.
  apply Hends.
  eapply rtc_l; [split; [apply (step_gather _ _ _ _ _ _ _ start gather2 0); reflexivity|]|].
  { intros p. by vm_compute. }
  eapply rtc_l; [split|apply rtc_refl].
  { eapply (step_deadline _ _ _ _ _ _ _ _ "col_2" _ 1000); [reflexivity|discriminate]. }
  intros p. by vm_compute.
Defined.
End OperationRuns.
