(* ===== verification/OperationResults.v ===== *)
(** OperationResults: what the collective layer makes of certified posts.

    Classifying a post again changes nothing, and an all_gather's members
    build the requester's result from its close
    (packages/client/src/communication/collectives/operation.ts and
    shared-answers.ts). *)
From S2P Require Import Prelude JsMap JsString Identifiers Address FormGrammar Validation.
From S2P Require Import CollectivePart ReceivedRequest Operation OperationRuns.
Import Identifiers SendErrors Validation CollectivePart SharedAnswers ReceivedRequest RequestSends
  Operation OperationRuns.
Local Open Scope nat_scope.

Module OperationResults.

Lemma keepFirst_idem shared sender answer :
  keepFirstAnswer (keepFirstAnswer shared sender answer) sender answer
  = keepFirstAnswer shared sender answer.
Proof.
  unfold keepFirstAnswer at 2 3.
  destruct (bool_decide _ && negb _) eqn:Hb; unfold keepFirstAnswer; simpl; [|by rewrite Hb].
  unfold jm_has. rewrite jm_get_set_eq. by rewrite andb_false_r.
Qed.

(** ** Classifying twice *)
Section idempotence.
Context `{Base64Url}.
Context (sha256Base64Url : string -> string).
Context (numberText : Qcanon.Qc -> string) (jsonQuote : string -> string).
Context (self : string) (admission : bool) (keep : InboundItem -> bool).

(** No id of an operation this endpoint started is an id it was asked under:
    ids derive from their requester. *)
Definition ids_apart (s : CollectiveState) : Prop :=
  forall id, jm_has (gathers s) id = true -> jm_get (requests s) id = None.

Definition quiet (events : list Event) : Prop :=
  Forall (fun e => exists postId, e = Warned postId) events.

(** A stretch that changes nothing when run again. *)
Definition settled {E A} (m : Layer E A) (s : CollectiveState) (a : A) : Prop :=
  exists events, m s = (s, events, Succeed a) /\ quiet events.

Lemma setRequestObject_get id r r0 s : jm_get (requests s) id = Some r0 ->
  jm_get (requests (setRequestObject id r s)) id = Some r /\
  gathers (setRequestObject id r s) = gathers s.
Proof.
  intros Hr. unfold setRequestObject, jm_has. rewrite Hr. simpl. by rewrite jm_get_set_eq.
Qed.

Lemma setRequestObject_held id r s : jm_get (requests s) id = Some r -> setRequestObject id r s = s.
Proof.
  intros Hr. unfold setRequestObject, jm_has. rewrite Hr.
  unfold set_requests. rewrite jm_set_same by done. by destruct s.
Qed.

Lemma completeGather_requests id s s' ev x :
  completeGather keep id s = (s', ev, x) ->
  requests s' = requests s /\ gathers s' = jm_delete (gathers s) id.
Proof.
  unfold completeGather, get. destruct (jm_get (gathers s) id) as [og|] eqn:Hog.
  - destruct (g_op (open og)); unfold lbind, modify.
    + match goal with |- context [emitThenClose keep ?it ?pv ?a ?i ?o ?st] =>
        destruct (emitThenClose_run keep it pv a i o st) as (e & y & -> & _) end.
      by intros [= <- <- <-].
    + by intros [= <- <- <-].
  - intros [= <- <- <-]. by rewrite jm_delete_absent.
Qed.

Lemma updateGather_open id change s og : jm_get (gathers s) id = Some og ->
  updateGather keep id change s =
  let '(og', r') := change (og, recordedOf s id) in
  let s1 := set_recorded (fun m => jm_set m id r') (set_gathers (fun m => jm_set m id og') s) in
  if requestsSettled og' && bool_decide (length (outcomes r') = length (g_members (open og')))
  then completeGather keep id s1 else (s1, [], Succeed tt).
Proof.
  intros Hog. unfold updateGather, get. rewrite Hog.
  destruct (change _) as [og' r']. cbv zeta. destruct (_ && _); [|done].
  unfold lbind, modify. cbv beta iota zeta.
  by destruct (completeGather keep id _) as [[s2 e2] [x|e]].
Qed.

Lemma recordAnswer_settled post id response s s' ev :
  jm_wf (gathers s) -> ids_apart s ->
  recordAnswer numberText jsonQuote keep post id response s = (s', ev, Succeed tt) ->
  settled (recordAnswer numberText jsonQuote keep post id response) s' tt.
Proof.
  intros Hw Hapart. unfold recordAnswer at 1, get.
  destruct (jm_get (gathers s) id) as [og|] eqn:Hog.
  - unfold recordCountedAnswer, get.
    destruct (negb _ || _ || _) eqn:Hskip.
    { intros [= <- <-]. exists []. split; [|constructor].
      unfold recordAnswer, get. rewrite Hog. unfold recordCountedAnswer, get. by rewrite Hskip. }
    apply orb_false_elim in Hskip as [Hskip _].
    rewrite (updateGather_open _ _ _ og) by done. cbv beta iota zeta.
    destruct (_ && _).
    + intros Hcg. apply completeGather_requests in Hcg as [Hr Hg]. simpl in Hr, Hg.
      exists []. split; [|constructor]. unfold recordAnswer, get.
      rewrite Hg, jm_get_delete_eq by (by apply jm_set_wf).
      rewrite Hr, Hapart; [done|]. unfold jm_has. by rewrite Hog.
    + intros [= <- <-]. exists []. split; [|constructor].
      unfold recordAnswer, get. simpl. rewrite jm_get_set_eq.
      unfold recordCountedAnswer, get. rewrite Hskip. simpl.
      unfold recordedOf. simpl. rewrite jm_get_set_eq. simpl. unfold jm_has.
      by rewrite jm_get_set_eq.
  - destruct (jm_get (requests s) id) as [request|] eqn:Hreq; cycle 1.
    { intros [= <- <-]. exists []. split; [|constructor].
      unfold recordAnswer, get. by rewrite Hog, Hreq. }
    destruct (kind request) as [|shared] eqn:Hk.
    { intros [= <- <-]. exists []. split; [|constructor].
      unfold recordAnswer, get. by rewrite Hog, Hreq, Hk. }
    unfold recordPeerAnswer.
    destruct (m_kind (message post)) eqn:Hmk.
    { intros [= <- <-]. exists []. split; [|constructor].
      unfold recordAnswer, get. rewrite Hog, Hreq, Hk. unfold recordPeerAnswer. by rewrite Hmk. }
    destruct (_ || _) eqn:Hskip.
    { intros [= <- <-]. exists []. split; [|constructor].
      unfold recordAnswer, get. rewrite Hog, Hreq, Hk. unfold recordPeerAnswer. by rewrite Hmk, Hskip. }
    intros [= <- <-].
    set (shared' := keepFirstAnswer _ _ _). set (request' := set_shared request shared').
    destruct (setRequestObject_get id request' request s Hreq) as [Hget Hgs].
    exists []. split; [|constructor]. unfold recordAnswer, get. rewrite Hgs, Hog, Hget. simpl.
    unfold recordPeerAnswer. rewrite Hmk. simpl. rewrite Hskip. unfold modify.
    unfold shared'. rewrite keepFirst_idem. fold shared'.
    unfold request'. rewrite setRequestObject_held; [done|].
    exact Hget.
Qed.

Lemma applyClose_requests id request shared close s s' ev :
  jm_get (requests s) id = Some request ->
  applyClose numberText jsonQuote self keep id request shared close s = (s', ev, Succeed tt) ->
  exists r' shared', jm_get (requests s') id = Some r' /\ kind r' = AllGatherRequest shared' /\
    to r' = to request /\ from r' = from request /\
    (state r' = Closed \/ heldClose shared' <> None).
Proof.
  intros Hr. unfold applyClose.
  destruct (listedAnswers shared (included close)) as [[listed missing] repeated].
  destruct (missing && _).
  - intros [= <- <-]. eexists _, _. split; [apply (setRequestObject_get id _ request s Hr)|].
    split; [done|]. split; [done|]. split; [done|]. by right.
  - unfold lbind at 1, modify. cbv beta iota zeta.
    set (s1 := setRequestObject _ _ s).
    assert (Hkeep : forall (m : Layer CollectiveEmitError unit) s2 e2 x2,
      (forall s0, (m s0).1.1 = s0) -> m s1 = (s2, e2, x2) -> s2 = s1).
    { intros m s2 e2 x2 Hm Hx. specialize (Hm s1). by rewrite Hx in Hm. }
    match goal with |- context [let '(_, _) := ?m s1 in _] =>
      destruct (m s1) as [[s2 e2] x2] eqn:Hx;
      assert (s2 = s1) as -> by (revert Hx; apply Hkeep; intros s0;
        destruct (missing || repeated); [done|]; unfold emit, lbind, tell;
        by destruct (keep _)) end.
    intros [= <- _ _]. eexists _, _. split; [apply (setRequestObject_get id _ request s Hr)|].
    split; [done|]. split; [done|]. split; [done|]. by left.
Qed.

Lemma receiveClose_settled m id included s s' ev :
  receiveClose numberText jsonQuote self keep m id included s = (s', ev, Succeed tt) ->
  settled (receiveClose numberText jsonQuote self keep m id included) s' tt.
Proof.
  unfold receiveClose at 1, get.
  destruct (jm_get (requests s) id) as [request|] eqn:Hr; cycle 1.
  { intros [= <- <-]. exists [Warned (m_postId m)]. split; [|repeat constructor; eauto].
    unfold receiveClose, get. by rewrite Hr. }
  destruct (kind request) as [|shared] eqn:Hk.
  { intros [= <- <-]. exists [Warned (m_postId m)]. split; [|repeat constructor; eauto].
    unfold receiveClose, get. by rewrite Hr, Hk. }
  destruct (m_kind m) eqn:Hm.
  { intros [= <- <-]. exists [Warned (m_postId m)]. split; [|repeat constructor; eauto].
    unfold receiveClose, get. by rewrite Hr, Hk, Hm. }
  destruct (negb _ || negb _) eqn:Hfrom.
  { intros [= <- <-]. exists [Warned (m_postId m)]. split; [|repeat constructor; eauto].
    unfold receiveClose, get. by rewrite Hr, Hk, Hm, Hfrom. }
  destruct (bool_decide (state request = Closed) || _) eqn:Hdone.
  { intros [= <- <-]. exists []. split; [|constructor].
    unfold receiveClose, get. by rewrite Hr, Hk, Hm, Hfrom, Hdone. }
  intros (r' & shared' & Hr' & Hk' & Hto & Hfrom' & Hd)%applyClose_requests; [|done].
  exists []. split; [|constructor]. unfold receiveClose, get.
  rewrite Hr', Hk', Hm, Hto, Hfrom', Hfrom.
  assert (bool_decide (state r' = Closed) || bool_decide (heldClose shared' <> None) = true) as ->;
    [|done].
  apply orb_true_iff. rewrite !bool_decide_eq_true. done.
Qed.

(** What is presented of an item at a later reading: a request whose deadline
    has passed is not. *)
Definition stillPresented (later : Z) (item : option InboundItem) : option InboundItem :=
  match item with
  | Some (CollectiveRequestItem _ _ _ _ _ _ _ deadline) =>
      if decide (later < deadline)%Z then item else None
  | _ => item
  end.

(** A request's deadline is not past the horizon at the first reading. *)
Definition timely (deadline now later : Z) : Prop :=
  later = now \/ (deadline <= now + RECEIVED_DEADLINE_HORIZON)%Z.

(** A later reading receives the same request, or none once it expired. *)
Lemma received_later post op id nonce deadline schema now later initial :
  (now <= later)%Z -> timely deadline now later ->
  match receivedRequest sha256Base64Url post op id nonce deadline schema now initial,
        receivedRequest sha256Base64Url post op id nonce deadline schema later initial with
  | None, Some _ => False
  | Some r, Some r' => r' = r
  | Some _, None => (deadline <= later)%Z
  | None, None => True
  end.
Proof.
  intros Hle [->|Hh]; [by destruct (receivedRequest _ _ _ _ _ _ _ _ _)|].
  unfold receivedRequest, trustedRequest.
  rewrite !(bool_decide_eq_true_2 (deadline <= _ + _)%Z) by lia. simpl.
  destruct (negb _); [done|]. destruct op, (m_kind (message post)); try done.
  - repeat case_decide; done || lia.
  - unfold retainedUntil, CLOSE_WAIT. destruct (List.filter _ _); repeat case_decide; done || lia.
Qed.

Lemma received_post post op id nonce deadline schema now initial r :
  receivedRequest sha256Base64Url post op id nonce deadline schema now initial = Some r ->
  r_postId r = m_postId (message post).
Proof.
  unfold receivedRequest. destruct (negb _); [done|].
  destruct op, (m_kind (message post)); try done; repeat case_decide; try done.
  - by intros [= <-].
  - destruct (List.filter _ _); [done|]. by intros [= <-].
Qed.

(** A request the layer holds under this post. *)
Lemma requestItem_held post op id nonce deadline schema now later s :
  (now <= later)%Z -> timely deadline now later ->
  (exists held, jm_get (requests s) id = Some held /\ r_postId held = m_postId (message post)) ->
  forall received,
  receivedRequest sha256Base64Url post op id nonce deadline schema now
    (if admission then Unadmitted else Open) = Some received ->
  requestItem sha256Base64Url admission post op id nonce deadline schema later s =
  (s, [], Succeed (stillPresented later (if decide (now < deadline)%Z
     then Some (CollectiveRequestItem op id (m_postId (message post))
       (m_sender (message post)) (to received) (question received) schema deadline)
     else None))).
Proof.
  intros Hle Ht (held & Hheld & Hpost) received Hrec.
  pose proof (received_later post op id nonce deadline schema now later
    (if admission then Unadmitted else Open) Hle Ht) as Hlater. rewrite Hrec in Hlater.
  unfold requestItem, get. destruct (receivedRequest _ _ _ _ _ _ _ later _) as [received'|].
  - subst received'. rewrite Hheld. simpl default. rewrite decide_False by (intros Hn; by apply Hn).
    unfold lbind, lret. cbv beta iota zeta. repeat case_decide; simpl; repeat case_decide; done || lia.
  - case_decide; simpl; [rewrite decide_False by lia|]; done.
Qed.

Lemma requestItem_settled post op id nonce deadline schema now later s s' ev item :
  (now <= later)%Z -> timely deadline now later ->
  requestItem sha256Base64Url admission post op id nonce deadline schema now s
    = (s', ev, Succeed item) ->
  settled (requestItem sha256Base64Url admission post op id nonce deadline schema later) s'
    (stillPresented later item).
Proof.
  intros Hle Ht. unfold requestItem at 1, get.
  destruct (receivedRequest _ _ _ _ _ _ _ now _) as [received|] eqn:Hrec; cycle 1.
  { intros [= <- <- <-]. exists []. split; [|constructor].
    pose proof (received_later post op id nonce deadline schema now later
      (if admission then Unadmitted else Open) Hle Ht) as Hlater. rewrite Hrec in Hlater.
    unfold requestItem, get. by destruct (receivedRequest _ _ _ _ _ _ _ later _). }
  pose proof (received_post _ _ _ _ _ _ _ _ _ Hrec) as Hsame.
  case_decide as Hpost.
  { intros [= <- <- <-]. exists []. split; [|constructor].
    pose proof (received_later post op id nonce deadline schema now later
      (if admission then Unadmitted else Open) Hle Ht) as Hlater. rewrite Hrec in Hlater.
    unfold requestItem, get. destruct (receivedRequest _ _ _ _ _ _ _ later _); [|done].
    subst. by rewrite decide_True. }
  destruct (jm_get (requests s) id) as [held|] eqn:Hheld; simpl in Hpost; intros [= <- <- <-];
    exists []; (split; [|constructor]).
  - apply (requestItem_held _ _ _ _ _ _ now); [done|done| |done]. exists held.
    split; [done|]. destruct (decide (r_postId held = m_postId (message post))); [done|by exfalso].
  - apply (requestItem_held _ _ _ _ _ _ now); [done|done| |done]. exists received.
    cbn [requests set_requests]. by rewrite jm_get_set_eq.
Qed.

(** C32: classifying a post again changes nothing.  The daemon may run the
    classification of a certified post on every pass over its pending
    deliveries: a second pass, at the same or any later reading of the clock,
    leaves the layer's state as it is, emits nothing, and presents the same
    item, but a request whose deadline has passed by then is no longer
    presented.  A request dated beyond the horizon of the first reading is
    left out, unless both passes read the same time: it is refused until the
    horizon reaches it. *)
Theorem classify_idempotent post now later s s' ev item :
  jm_wf (gathers s) -> ids_apart s -> (now <= later)%Z ->
  (forall op id nonce deadline schema,
     readCollectiveValue (m_content (message post)) =
       Succeed (Some (CollectingOperation op id nonce deadline schema)) ->
     timely deadline now later) ->
  classify sha256Base64Url numberText jsonQuote self admission keep post now s
    = (s', ev, Succeed item) ->
  exists events,
    classify sha256Base64Url numberText jsonQuote self admission keep post later s'
      = (s', events, Succeed (stillPresented later item)) /\ quiet events.
Proof.
  intros Hw Hapart Hle Htimely. unfold classify.
  destruct (readCollectiveValue _) as [[value|]|reason].
  - destruct value as [|op id nonce deadline schema|id response|id included]; simpl.
    + intros [= <- <- <-]. exists []. split; [|constructor]. unfold multicastItem. by repeat case_match.
    + apply requestItem_settled; [done|]. by eapply Htimely.
    + unfold lbind. destruct (recordAnswer _ _ _ post id response s) as [[s1 e1] [[]|e]] eqn:Hr;
        intros [= <- <- <-].
      destruct (recordAnswer_settled _ _ _ _ _ _ Hw Hapart Hr) as (events & Hs & Hq).
      exists events. rewrite Hs. unfold lret. cbv beta iota zeta. by rewrite app_nil_r.
    + unfold lbind. destruct (receiveClose _ _ _ _ (message post) id included s)
        as [[s1 e1] [[]|e]] eqn:Hr; intros [= <- <- <-].
      destruct (receiveClose_settled _ _ _ _ _ _ Hr) as (events & Hs & Hq).
      exists events. rewrite Hs. unfold lret. cbv beta iota zeta. by rewrite app_nil_r.
  - intros [= <- <- <-]. exists []. split; [done|constructor].
  - intros [= <- <- <-]. exists [Warned (m_postId (message post))].
    split; [done|]. repeat constructor. eauto.
Qed.

End idempotence.
(** ** The members of an all_gather agree *)
Section agreement.
Context (numberText : Qcanon.Qc -> string) (jsonQuote : string -> string).
Context (self : string) (keep : InboundItem -> bool).

Abbreviation History := (list (string * CertifiedAnswer)).

(** The first answer of a member in the group's chain. *)
Definition firstAnswer (members : list string) (h : History) (m : string) :
    option CertifiedAnswer :=
  if decide (m ∈ members) then jm_get h m else None.

Lemma jm_get_app {V} (l k : list (string * V)) m :
  jm_get (l ++ k)%list m = match jm_get l m with Some v => Some v | None => jm_get k m end.
Proof. induction l as [|[m' v] l IH]; simpl; [done|]. by case_decide. Qed.

(** What a member holds after any answers: the first of each. *)
Lemma keepFirst_fold members acc held h m :
  SharedAnswers.members (foldl (fun sh '(m, a) => keepFirstAnswer sh m a) (mkShared members acc held) h)
    = members /\
  heldClose (foldl (fun sh '(m, a) => keepFirstAnswer sh m a) (mkShared members acc held) h)
    = held /\
  jm_get (answers (foldl (fun sh '(m, a) => keepFirstAnswer sh m a) (mkShared members acc held) h)) m =
    match jm_get acc m with Some a => Some a | None => firstAnswer members h m end.
Proof.
  revert acc. induction h as [|[m' a] h IH]; intros acc; simpl.
  { split_and!; [done|done|]. unfold firstAnswer. simpl. destruct (jm_get acc m); [done|]. by case_decide. }
  unfold keepFirstAnswer at 2 4 6. simpl.
  case_bool_decide as Hin; simpl.
  - destruct (jm_has acc m') eqn:Hh; simpl.
    + destruct (IH acc) as (? & ? & ->). split_and!; [done|done|].
      destruct (jm_get acc m) eqn:Hm; [done|]. unfold firstAnswer. simpl.
      destruct (decide (m' = m)) as [->|]; [|done]. unfold jm_has in Hh. by rewrite Hm in Hh.
    + destruct (IH (jm_set acc m' a)) as (? & ? & ->). split_and!; [done|done|].
      rewrite jm_get_set. unfold firstAnswer. simpl.
      destruct (decide (m' = m)) as [<-|]; [|done].
      rewrite decide_True by done. unfold jm_has in Hh. by destruct (jm_get acc m').
  - destruct (IH acc) as (? & ? & ->). split_and!; [done|done|].
    destruct (jm_get acc m); [done|]. unfold firstAnswer. simpl.
    case_decide; [|done]. case_decide; [congruence|done].
Qed.

Definition outcomeOf (schema : FormGrammar.FormModeSchema) (a : CertifiedAnswer) :
    CollectiveMemberOutcome := outcomeOfResponse numberText jsonQuote schema (response a).

(** The outcome of each member, from its first answer. *)
Definition resultOf (g : GatherRequest) (h : History) : list (string * CollectiveMemberOutcome) :=
  (fun m => (m, match firstAnswer (g_members g) h m with
                | Some a => outcomeOf (g_requestedSchema g) a
                | None => NoAnswer
                end)) <$> g_members g.

Definition includedOf (g : GatherRequest) (h : History) : list string :=
  omap (fun m => a_recordHash <$> firstAnswer (g_members g) h m) (g_members g).

(** The maps of an operation hold exactly the first answers of [h]. *)
Definition records (g : GatherRequest) (r : Recorded) (h : History) : Prop :=
  forall m, jm_get (outcomes r) m = outcomeOf (g_requestedSchema g) <$> firstAnswer (g_members g) h m /\
    jm_get (answerHashes r) m = a_recordHash <$> firstAnswer (g_members g) h m.

Lemma records_result g r h : records g r h ->
  memberOutcomes (g_members g) (outcomes r) = resultOf g h /\
  (snd <$> countedAnswers g r) = includedOf g h.
Proof.
  intros Hr. split.
  - unfold memberOutcomes, resultOf. apply list_fmap_ext. intros _ m _.
    destruct (Hr m) as [-> _]. by destruct (firstAnswer _ _ _).
  - unfold countedAnswers, includedOf.
    assert (Hl : forall l : list string, snd <$> omap (fun m => (fun hash => (m, hash)) <$> jm_get (answerHashes r) m) l
      = omap (fun m => a_recordHash <$> firstAnswer (g_members g) h m) l).
    { intros l. induction l as [|m l IH]; [done|]. csimpl.
      destruct (Hr m) as [_ ->]. destruct (firstAnswer _ _ _); csimpl; by rewrite IH. }
    apply Hl.
Qed.

(** *** The requester *)

(** Where the operation stands: open with the answers of [h] recorded, or its
    close being posted with the answers of a prefix of [h]. *)
Definition standing (g : GatherRequest) (id : string) (s : CollectiveState) (h : History) : Prop :=
  jm_wf (gathers s) /\ jm_get (requests s) id = None /\
  (forall c, c ∈ closing s -> cl_id c = id ->
     exists h1 h2, h = (h1 ++ h2)%list /\ cl_included c = includedOf g h1 /\
       cl_result c = CollectiveResultItem AllGather id (g_to g) (g_question g) (resultOf g h1)) /\
  match jm_get (gathers s) id with
  | Some og => open og = g /\ records g (recordedOf s id) h
  | None => True
  end.

Definition entry (post : CertifiedPost) (r : CollectiveResponse) : string * CertifiedAnswer :=
  (m_sender (message post), mkAnswer (p_recordHash post) r).

Lemma complete_standing g id s h : g_op g = AllGather -> standing g id s h ->
  standing g id (completeGather keep id s).1.1 h /\
  jm_get (gathers (completeGather keep id s).1.1) id = None.
Proof.
  intros Hop (Hw & Hreq & Hcl & Hog). unfold completeGather, get.
  destruct (jm_get (gathers s) id) as [og|] eqn:Hg; cycle 1.
  { split; [|done]. unfold standing. simpl. by rewrite Hg. }
  destruct Hog as [<- Hrec]. rewrite Hop. unfold lbind, modify. cbn [fst].
  assert (Hnone : jm_get (jm_delete (gathers s) id) id = None) by (by apply jm_get_delete_eq).
  split; [|exact Hnone]. unfold standing. cbn [gathers requests closing set_gathers set_announced
    set_closing]. rewrite Hnone. split_and!; [by apply jm_delete_wf|done| |done].
  intros c [Hc| ->%list_elem_of_singleton]%elem_of_app Hid; [by apply Hcl|].
  exists h, []. rewrite app_nil_r. cbn [cl_included cl_result].
  destruct (records_result _ _ _ Hrec) as [-> ->]. done.
Qed.

Lemma answer_standing g id s h post r : g_op g = AllGather ->
  (exists members, m_kind (message post) = Group members) ->
  m_address (message post) = g_to g -> standing g id s h ->
  standing g id (recordAnswer numberText jsonQuote keep post id r s).1.1 (h ++ [entry post r]).
Proof.
  intros Hop (ms & Hkind) Haddr Hst. pose proof Hst as (Hw & Hreq & Hcl & Hog).
  assert (Hcl' : forall c, c ∈ closing s -> cl_id c = id ->
     exists h1 h2, (h ++ [entry post r])%list = (h1 ++ h2)%list /\ cl_included c = includedOf g h1 /\
       cl_result c = CollectiveResultItem AllGather id (g_to g) (g_question g) (resultOf g h1)).
  { intros c Hc Hid. destruct (Hcl c Hc Hid) as (h1 & h2 & -> & ? & ?).
    exists h1, (h2 ++ [entry post r])%list. rewrite app_assoc. done. }
  unfold recordAnswer, get. destruct (jm_get (gathers s) id) as [og|] eqn:Hg; cycle 1.
  { rewrite Hreq. simpl. split_and!; [done|done|done|by rewrite Hg]. }
  destruct Hog as [<- Hrec]. unfold recordCountedAnswer, get.
  assert (answeredInConversation (open og) (message post) = true) as ->.
  { unfold answeredInConversation. rewrite Hop, Hkind. by apply bool_decide_eq_true. }
  cbn [negb orb].
  assert (Hview : forall m, firstAnswer (g_members (open og)) (h ++ [entry post r]) m =
    match firstAnswer (g_members (open og)) h m with
    | Some a => Some a
    | None => if decide (m ∈ g_members (open og) /\ m_sender (message post) = m)
              then Some (mkAnswer (p_recordHash post) r) else None
    end).
  { intros m. unfold firstAnswer. rewrite jm_get_app. simpl.
    repeat case_decide; try tauto; by destruct (jm_get h m). }
  destruct (negb _ || jm_has _ _) eqn:Hskip.
  - (* not counted: the views agree *)
    simpl. split_and!; [done|done|done|]. rewrite Hg. split; [done|].
    intros m. rewrite Hview. destruct (Hrec m) as [Ho Hh]. rewrite Ho, Hh.
    destruct (firstAnswer _ h m) as [a|] eqn:Hf; [done|].
    destruct (decide (m ∈ g_members (open og) /\ m_sender (message post) = m)) as [[Hin <-]|];
      [|split; reflexivity]. exfalso.
    apply orb_true_iff in Hskip as [Hs|Hs].
    + apply negb_true_iff, bool_decide_eq_false in Hs. done.
    + unfold jm_has in Hs. by rewrite Ho in Hs.
  - apply orb_false_elim in Hskip as [Hin%negb_false_iff%bool_decide_eq_true Hnew].
    rewrite (updateGather_open keep _ _ _ og) by done. cbv beta iota zeta.
    set (r' := mkRecorded _ _).
    set (s1 := set_recorded (fun m => jm_set m id r') (set_gathers (fun m => jm_set m id og) s)).
    assert (Hst1 : standing (open og) id s1 (h ++ [entry post r])).
    { unfold standing, s1. simpl. rewrite jm_get_set_eq.
      split_and!; [by apply jm_set_wf|done|done|done|].
      unfold recordedOf. simpl. rewrite jm_get_set_eq. simpl. intros m. rewrite Hview.
      destruct (Hrec m) as [Ho Hh]. unfold r'. simpl. rewrite !jm_get_set.
      destruct (decide (m_sender (message post) = m)) as [<-|Hne].
      - unfold jm_has in Hnew. rewrite Ho in Hnew.
        destruct (firstAnswer _ h _); [done|]. rewrite decide_True by done. done.
      - rewrite Ho, Hh. destruct (firstAnswer _ h m); [done|].
        by rewrite decide_False by naive_solver. }
    destruct (_ && _); [|done]. by apply complete_standing.
Qed.

(** The requester's state after the answers of [posts]. *)
Definition afterAnswers (id : string) (s : CollectiveState)
    (posts : list (CertifiedPost * CollectiveResponse)) : CollectiveState :=
  foldl (fun s '(post, r) => (recordAnswer numberText jsonQuote keep post id r s).1.1) s posts.

Lemma answers_standing g id s h posts : g_op g = AllGather ->
  Forall (fun '(post, _) => (exists members, m_kind (message post) = Group members) /\
    m_address (message post) = g_to g) posts ->
  standing g id s h ->
  standing g id (afterAnswers id s posts) (h ++ ((fun '(post, r) => entry post r) <$> posts))%list.
Proof.
  intros Hop Hposts. revert s h. induction Hposts as [|[post r] posts [Hk Ha] _ IH]; intros s h Hst.
  - simpl. by rewrite app_nil_r.
  - simpl. rewrite (cons_middle (entry post r)), app_assoc. apply IH. by apply answer_standing.
Qed.

(** *** A member *)

Lemma mapOfEntries_get {K V} `{EqDecision K} (es : list (K * V)) k v :
  (forall v', (k, v') ∈ es -> v' = v) -> (k, v) ∈ es -> jm_get (mapOfEntries es) k = Some v.
Proof.
  unfold mapOfEntries. intros Hu.
  assert (Hgen : forall acc, (jm_get acc k = Some v \/ (k, v) ∈ es) ->
    jm_get (foldl (fun m '(k, v) => jm_set m k v) acc es) k = Some v).
  { induction es as [|[k' v'] es IH]; intros acc [Hacc|Hin]; simpl; try done; try set_solver.
    - apply IH; [intros; apply Hu; by right|]. left. rewrite jm_get_set.
      case_decide as Heq; [|done]. subst. by rewrite (Hu v') by left.
    - apply IH; [intros; apply Hu; by right|].
      apply elem_of_cons in Hin as [[= <- <-]|Hin]; [left; apply jm_get_set_eq|by right]. }
  intros Hin. apply Hgen. by right.
Qed.

Lemma mapOfEntries_none {K V} `{EqDecision K} (es : list (K * V)) k :
  (forall v, (k, v) ∉ es) -> jm_get (mapOfEntries es) k = None.
Proof.
  unfold mapOfEntries. intros Hn.
  assert (Hgen : forall acc, jm_get acc k = None ->
    jm_get (foldl (fun m '(k, v) => jm_set m k v) acc es) k = None); [|by apply Hgen].
  induction es as [|[k' v'] es IH]; intros acc Hacc; simpl; [done|].
  apply IH; [set_solver|]. rewrite jm_get_set_ne; [done|]. intros ->. apply (Hn v'). by left.
Qed.

Lemma setSize_nodup l : NoDup l -> setSize l = length l.
Proof.
  unfold setSize. assert (Hgen : forall seen, NoDup l -> (forall x, x ∈ l -> x ∉ seen) ->
    length (insertionSet seen l) = length l); [|intros; apply Hgen; set_solver].
  induction l as [|x l IH]; intros seen Hnd Hs; simpl; [done|].
  apply NoDup_cons in Hnd as [Hx Hnd]. rewrite bool_decide_false by (apply Hs; by left).
  simpl. rewrite IH; [done|done|]. set_solver.
Qed.

(** The answers a close lists, at a member that holds the history. *)
Lemma listed_history shared (view : string -> option CertifiedAnswer) ms :
  jm_wf (answers shared) -> NoDup ms ->
  (forall m a, m ∈ ms -> view m = Some a -> jm_get (answers shared) m = Some a) ->
  (forall m1 a1 m2 a2, jm_get (answers shared) m1 = Some a1 ->
     jm_get (answers shared) m2 = Some a2 -> a_recordHash a1 = a_recordHash a2 -> m1 = m2) ->
  listedAnswers shared (omap (fun m => a_recordHash <$> view m) ms) =
    (omap (fun m => (fun a => mkListed m (a_recordHash a) (response a)) <$> view m) ms, false, false).
Proof.
  intros Hwf Hnd Hview Hhash.
  assert (Hlisted : omap (fun hash => jm_get (byHash shared) hash)
      (omap (fun m => a_recordHash <$> view m) ms) =
    omap (fun m => (fun a => mkListed m (a_recordHash a) (response a)) <$> view m) ms).
  { clear Hnd. induction ms as [|m ms IH]; [done|]. csimpl.
    destruct (view m) as [a|] eqn:Hm; csimpl; [|apply IH; set_solver].
    assert (Hg : jm_get (byHash shared) (a_recordHash a) =
      Some (mkListed m (a_recordHash a) (response a))).
    { assert (Ha : jm_get (answers shared) m = Some a) by (apply Hview; [by left|done]).
      unfold byHash. apply mapOfEntries_get.
      - intros v' ([m' a'] & [= Hh ->] & Hin)%list_elem_of_fmap.
        apply jm_get_elem in Hin; [|done].
        assert (m = m') as <- by (by eapply Hhash).
        rewrite Ha in Hin. by injection Hin as <-.
      - apply list_elem_of_fmap. exists (m, a). split; [done|]. by apply jm_get_elem. }
    rewrite Hg. f_equal. apply IH. set_solver. }
  assert (Hmem : l_member <$> omap (fun m => (fun a => mkListed m (a_recordHash a) (response a)) <$> view m) ms
    = filter (fun m => is_Some (view m)) ms).
  { clear. induction ms as [|m ms IH]; [done|]. csimpl. rewrite filter_cons.
    destruct (view m) eqn:Hm; csimpl.
    - by rewrite IH.
    - exact IH. }
  assert (Hlen : length (omap (fun m => a_recordHash <$> view m) ms) =
    length (omap (fun m => (fun a => mkListed m (a_recordHash a) (response a)) <$> view m) ms)).
  { clear. induction ms as [|m ms IH]; [done|]. csimpl. destruct (view m); csimpl; by rewrite IH. }
  unfold listedAnswers. cbv zeta. rewrite Hlisted. f_equal; [f_equal|].
  - apply bool_decide_eq_false. rewrite Hlen. lia.
  - apply bool_decide_eq_false. rewrite setSize_nodup, length_fmap; [lia|].
    rewrite Hmem. by apply NoDup_filter.
Qed.

(** The outcomes of the listed answers are those of the member's first answers. *)
Lemma listed_outcomes (f : CollectiveResponse -> CollectiveMemberOutcome)
    (view : string -> option CertifiedAnswer) ms :
  memberOutcomes ms (mapOfEntries ((fun answer => (l_member answer, f (l_response answer)))
      <$> omap (fun m => (fun a => mkListed m (a_recordHash a) (response a)) <$> view m) ms)) =
  (fun m => (m, match view m with Some a => f (response a) | None => NoAnswer end)) <$> ms.
Proof.
  unfold memberOutcomes. apply list_fmap_ext. intros i m Hi%list_elem_of_lookup_2. f_equal.
  destruct (view m) as [a|] eqn:Hm.
  - rewrite (mapOfEntries_get _ m (f (response a))); [done| |].
    + intros v' (x & [= -> ->] & (m' & Hm' & Hx)%list_elem_of_omap)%list_elem_of_fmap.
      destruct (view m') as [a'|] eqn:Hv; [|done]. injection Hx as <-. simpl in Hm.
      rewrite Hv in Hm. by injection Hm as <-.
    + apply list_elem_of_fmap. exists (mkListed m (a_recordHash a) (response a)). split; [done|].
      apply list_elem_of_omap. exists m. split; [done|]. by rewrite Hm.
  - rewrite mapOfEntries_none; [done|].
    intros v (x & [= -> ->] & (m' & Hm' & Hx)%list_elem_of_omap)%list_elem_of_fmap.
    destruct (view m') as [a'|] eqn:Hv; [|done]. injection Hx as <-. simpl in Hm. congruence.
Qed.

Lemma foldl_keepFirst_wf members acc held h : jm_wf acc ->
  jm_wf (answers (foldl (fun sh '(m, a) => keepFirstAnswer sh m a) (mkShared members acc held) h)).
Proof.
  revert acc. induction h as [|[m a] h IH]; intros acc Hw; simpl; [done|].
  unfold keepFirstAnswer at 2. simpl. destruct (_ && _); [|by apply IH].
  apply IH. by apply jm_set_wf.
Qed.

(** What a member holds of the group conversation. *)
Definition memberHolds (members : list string) (h : History) : SharedAnswers :=
  foldl (fun sh '(m, a) => keepFirstAnswer sh m a) (mkShared members [] None) h.

(** C27: every member of an all_gather gets the requester's result.  The
    requester recorded the group's answers until the operation completed, by
    its last answer or its deadline, and posted its close; a member that
    certified the same answers, and possibly more before the close, applies
    it: it emits exactly the result the requester emits. *)
Theorem all_gather_agreement g id og s posts c request hm more closePost :
  g_op g = AllGather -> NoDup (g_members g) ->
  (* the requester opens the operation and records the group's answers *)
  jm_wf (gathers s) -> jm_get (gathers s) id = Some og -> open og = g ->
  jm_get (recorded s) id = None -> jm_get (requests s) id = None ->
  (forall c, c ∈ closing s -> cl_id c <> id) ->
  Forall (fun '(post, _) => (exists members, m_kind (message post) = Group members) /\
    m_address (message post) = g_to g) posts ->
  c ∈ closing (completeGather keep id (afterAnswers id s posts)).1.1 -> cl_id c = id ->
  (* the member was asked the same and holds the same history *)
  kind request = AllGatherRequest (memberHolds (g_members g) hm) ->
  to request = g_to g -> question request = g_question g ->
  r_requestedSchema request = g_requestedSchema g ->
  (forall m, m ∈ g_members g ->
     jm_get hm m = jm_get (((fun '(post, r) => entry post r) <$> posts) ++ more)%list m) ->
  (forall m1 a1 m2 a2, (m1, a1) ∈ hm -> (m2, a2) ∈ hm ->
     a_recordHash a1 = a_recordHash a2 -> m1 = m2) ->
  forall t, exists t' provenance,
    applyClose numberText jsonQuote self keep id request (memberHolds (g_members g) hm)
      (mkClose closePost (cl_included c)) t =
    (t', [Emit (cl_result c) (Some provenance) (keep (cl_result c))],
     if keep (cl_result c) then Succeed tt else Fail_ EmitFailed).
Proof.
  intros Hop Hnd Hw Hog Hg Hrec Hreq Hfresh Hposts Hc Hid Hkind Hto Hq Hschema Hhm Hhash t.
  set (h := (fun '(post, r) => entry post r) <$> posts) in *.
  assert (Hst : standing g id s []).
  { unfold standing. rewrite Hog. split_and!; [done|done|intros c' Hc' Hi; by apply Hfresh in Hi|done|].
    intros m. unfold recordedOf. rewrite Hrec. unfold firstAnswer. simpl. by case_decide. }
  apply (answers_standing g id s [] posts Hop Hposts) in Hst. simpl in Hst. fold h in Hst.
  apply (complete_standing g id _ h Hop) in Hst as [(_ & _ & Hcl & _) _].
  destruct (Hcl c Hc Hid) as (h1 & h2 & Hh & Hinc & Hres).
  set (view := firstAnswer (g_members g) h1).
  assert (Hheld : forall m, jm_get (answers (memberHolds (g_members g) hm)) m
    = firstAnswer (g_members g) hm m).
  { intros m. unfold memberHolds. by destruct (keepFirst_fold (g_members g) [] None hm m) as (_ & _ & ->). }
  assert (Hview : forall m a, m ∈ g_members g -> view m = Some a ->
    jm_get (answers (memberHolds (g_members g) hm)) m = Some a).
  { intros m a Hm. unfold view, firstAnswer. rewrite Hheld. unfold firstAnswer.
    rewrite !decide_True by done. rewrite (Hhm m Hm), Hh, <- app_assoc, jm_get_app. by intros ->. }
  assert (Hl : listedAnswers (memberHolds (g_members g) hm) (cl_included c) =
    (omap (fun m => (fun a => mkListed m (a_recordHash a) (response a)) <$> view m) (g_members g),
     false, false)).
  { rewrite Hinc. unfold includedOf. apply (listed_history _ view); [|done|done|].
    - apply foldl_keepFirst_wf. constructor.
    - intros m1 a1 m2 a2. rewrite !Hheld. unfold firstAnswer.
      do 2 (case_decide; [|done]). intros H1%jm_get_some_elem H2%jm_get_some_elem. by apply Hhash. }
  unfold applyClose. cbn [included]. rewrite Hl. cbn [andb orb].
  destruct (keepFirst_fold (g_members g) [] None hm "") as (Hms & _ & _).
  fold (memberHolds (g_members g) hm) in Hms. rewrite Hms.
  assert (Hitem : CollectiveResultItem AllGather id (to request) (question request)
    (memberOutcomes (g_members g) (mapOfEntries ((fun answer => (l_member answer,
        outcomeOfResponse numberText jsonQuote (r_requestedSchema request) (l_response answer)))
        <$> omap (fun m => (fun a => mkListed m (a_recordHash a) (response a)) <$> view m)
              (g_members g)))) = cl_result c).
  { rewrite Hres, Hto, Hq, Hschema. f_equal. unfold resultOf.
    exact (listed_outcomes (outcomeOfResponse numberText jsonQuote (g_requestedSchema g)) view (g_members g)). }
  unfold lbind at 1, modify. cbv beta iota zeta. unfold emit. unfold lbind, tell. cbv beta iota zeta.
  rewrite Hitem. eexists _, _. destruct (keep (cl_result c)); reflexivity.
Qed.

End agreement.

(** ** Concrete runs *)
Module Runs.
Import CollectivePart.Concrete OperationRuns.

Definition idText (s : string) : string := s.
Definition hashText (s : string) : string := id32.
Definition noNumber (q : Qcanon.Qc) : string := "0"%string.
Definition form : FormGrammar.FormModeSchema := FormGrammar.mkForm None [] None.
Definition groupTo : string := "group:a,b,me"%string.
Definition asked : GatherRequest :=
  mkGather AllGather groupTo "ready?"%string ["a"; "b"]%string form.
Definition asking : CollectiveState :=
  set_gathers (fun m => jm_set m id32 (mkOpen asked 10 true)) initialState.
Definition said (sender hash : string) : CertifiedPost :=
  mkPost (mkMessage (Group ["a"; "b"; "me"]) "p" groupTo sender [])%string hash.
Definition answersPosted : list (CertifiedPost * CollectiveResponse) :=
  [(said "b" "hb", Accept []); (said "a" "ha", Decline); (said "b" "hb2", Decline)]%string.
Definition history : list (string * CertifiedAnswer) :=
  (fun '(post, r) => entry post r) <$> answersPosted.
Definition closeDone : Closing :=
  default (mkClosing EmptyString asked (OperationFailedItem EmptyString EmptyString EmptyString) []
    (mkProvenance [] None) false)
    (head (closing (completeGather keepAll id32
      (afterAnswers noNumber idText keepAll id32 asking answersPosted)).1.1)).
Definition heldRequest : ReceivedRequest :=
  mkRequest "q" "hq" "me" groupTo "ready?" form 100%Z Open
    (AllGatherRequest (memberHolds (g_members asked) history)).

(** The answer of a member as its post carries it. *)
Definition answerContent : PostContent :=
  match encodeCollectiveContent anyBytes (ResponseValue id32 (Accept [])) None with
  | Succeed content => content
  | Fail_ _ => []
  end.
Definition answerPost : CertifiedPost :=
  mkPost (mkMessage (Group ["a"; "b"; "me"]) "p" groupTo "a" answerContent) "ha".
Definition classified : CollectiveState :=
  (classify (H := b64) hashText noNumber idText "me" false keepAll answerPost 5 asking).1.1.

End Runs.
Import Runs.

Lemma all_gather_agreement_witness :
  exists t' provenance,
    applyClose noNumber idText "a" OperationRuns.keepAll Concrete.id32 heldRequest
      (memberHolds (g_members asked) history)
      (mkClose "pc" (cl_included closeDone)) initialState =
    (t', [Emit (cl_result closeDone) (Some provenance) true], Succeed tt) /\
    cl_included closeDone = ["ha"; "hb"]%string.
Proof.
  destruct (all_gather_agreement noNumber idText "a" OperationRuns.keepAll asked Concrete.id32
    (mkOpen asked 10 true) asking answersPosted closeDone heldRequest history [] "pc"
    eq_refl ltac:(apply (bool_decide_unpack _); vm_compute; exact I)
    ltac:(repeat constructor; set_solver) eq_refl eq_refl eq_refl eq_refl
    ltac:(intros c Hc; inversion Hc)
    ltac:(repeat constructor; simpl; eauto)
    ltac:(vm_compute; apply list_elem_of_here) ltac:(vm_compute; reflexivity)
    eq_refl eq_refl eq_refl eq_refl
    ltac:(intros m _; by rewrite app_nil_r)
    ltac:(intros m1 a1 m2 a2 H1 H2 He; repeat (apply elem_of_cons in H1 as [H1|H1]); 
          repeat (apply elem_of_cons in H2 as [H2|H2]); try by inversion H1; try by inversion H2;
          simplify_eq/=; done)
    initialState) as (t' & pv & Heq).
  exists t', pv. split; [exact Heq|]. vm_compute. reflexivity.
Defined.

Lemma classify_idempotent_witness : 
  jm_has (outcomes (recordedOf classified Concrete.id32)) "a" = true /\
  exists events,
    classify (H := Concrete.b64) hashText noNumber idText "me" false OperationRuns.keepAll answerPost 7 classified
      = (classified, events, Succeed None) /\ quiet events.
Proof.
  split; [vm_compute; reflexivity|].
  apply (classify_idempotent (H := Concrete.b64) hashText noNumber idText "me" false
    OperationRuns.keepAll answerPost 5 7 asking classified [] None).
  - repeat constructor; set_solver.
  - intros id _. reflexivity.
  - lia.
  - intros op id nonce deadline schema Hread. vm_compute in Hread. discriminate.
  - vm_compute. reflexivity.
Defined.

End OperationResults.
