(* ===== verification/SignedMessages.v ===== *)
(** SignedMessages: AgentCards and SignedMessages, the two General JWS
    artifacts of the identity package (packages/identity/src/agent-key.ts,
    agent-card.ts, signed-message.ts, wire-versions.ts, identifiers.ts).

    The code keeps an artifact's retained state in a WeakMap keyed by its
    frozen view; nothing changes either, so one record holds both.  jose and
    SHA-256 are arguments. *)
From S2P Require Import Prelude JsMap Json JsString Identifiers AnswerFormats.
From Stdlib Require Import QArith Qcanon Ascii.
Import Json Identifiers AnswerFormats CanonicalJson.
Local Open Scope string_scope.

(** The [jose] package over WebCrypto keys, and SHA-256 of node:crypto. *)
Record Jws := mkJws { j_payload : string; j_protected : string; j_signature : string }.
Global Instance Jws_eq_dec : EqDecision Jws.
Proof. solve_decision. Defined.

Class Jose := {
  CryptoKey : Type;
  importJwk : string -> option CryptoKey;
  calculateJwkThumbprintUri : string -> option string;
  generalVerify : Jws -> CryptoKey -> bool;
  generalSign : CryptoKey -> string -> list (string * JsonValue) -> option Jws;
}.
Class Sha256 := { sha256 : string -> string }.

(** ** Ed25519 keys and signatures *)

Module AgentKey.

Definition PUBLIC_KEY_BYTE_LENGTH : nat := 32.
Definition SIGNATURE_BYTE_LENGTH : nat := 64.

Fixpoint byteList (s : string) : list Z :=
  match s with EmptyString => [] | String c s' => code c :: byteList s' end.

Definition hexDigit (c : ascii) : Z :=
  let n := code c in if decide (n <= 57)%Z then n - 48 else n - 87.

Fixpoint bytesFromHex (value : string) : list Z :=
  match value with
  | String c (String d rest) => (16 * hexDigit c + hexDigit d)%Z :: bytesFromHex rest
  | _ => []
  end.

Definition FIELD_MODULUS : list Z := 237%Z :: (replicate 30 255%Z ++ [127%Z]).

Definition SCALAR_ORDER : list Z :=
  bytesFromHex "edd3f55c1a631258d69cf7a2def9de1400000000000000000000000000000010".

Definition SMALL_ORDER_POINTS : list (list Z) :=
  [replicate 32 0%Z;
   1%Z :: replicate 31 0%Z;
   bytesFromHex "26e8958fc2b227b045c3f489f2ef98f0d5dfac05d3c63339b13802886d53fc05";
   bytesFromHex "c7176a703d4dd84fba3c0b760d10670f2a2053fa2c39ccc64ec7fd7792ac037a";
   236%Z :: (replicate 30 255%Z ++ [127%Z]);
   237%Z :: (replicate 30 255%Z ++ [127%Z]);
   238%Z :: (replicate 30 255%Z ++ [127%Z])].

(** The loop of [isLessThanLittleEndian], over the bytes from the last. *)
Fixpoint lessFromLast (value bound : list Z) : bool :=
  match value, bound with
  | v :: value', b :: bound' =>
      if decide (v = b) then lessFromLast value' bound' else bool_decide (v < b)%Z
  | _, _ => false
  end.

Definition isLessThanLittleEndian (value upperBound : list Z) : bool :=
  bool_decide (length value = length upperBound) &&
  lessFromLast (reverse value) (reverse upperBound).

(** The final byte without its sign bit. *)
Definition withoutSign (value : list Z) : list Z :=
  alter (fun b => Z.land b 127) (PUBLIC_KEY_BYTE_LENGTH - 1)%nat value.

Definition hasCanonicalPointEncoding (value : list Z) : bool :=
  bool_decide (length value = PUBLIC_KEY_BYTE_LENGTH) &&
  isLessThanLittleEndian (withoutSign value) FIELD_MODULUS.

Definition encodesSmallOrderPoint (value : list Z) : bool :=
  existsb (fun point =>
    bool_decide (withoutSign (take PUBLIC_KEY_BYTE_LENGTH value) = point)) SMALL_ORDER_POINTS.

Definition hasAcceptedPublicKeyEncoding (value : list Z) : bool :=
  hasCanonicalPointEncoding value && negb (encodesSmallOrderPoint value).

Definition hasCanonicalEd25519SignatureEncoding (signature : list Z) : bool :=
  bool_decide (length signature = SIGNATURE_BYTE_LENGTH) &&
  (hasCanonicalPointEncoding (take PUBLIC_KEY_BYTE_LENGTH signature) &&
   isLessThanLittleEndian (drop PUBLIC_KEY_BYTE_LENGTH signature) SCALAR_ORDER).

Section keys.
Context `{Base64Url}.

Definition decodeAcceptedPublicKey (value : string) : option (list Z) :=
  bytes ← byteList <$> decodeCanonicalBase64Url value;
  if hasAcceptedPublicKeyEncoding bytes then Some bytes else None.

(** A public key is its coordinate: [crv] and [kty] are fixed. *)
Definition Ed25519PublicKey (v : JsonValue) : option string :=
  o ← exactStruct ["crv"; "kty"; "x"] v;
  _ ← keyword (literal "Ed25519") o "crv";
  _ ← keyword (literal "OKP") o "kty";
  x ← keyword decodeString o "x";
  _ ← decodeAcceptedPublicKey x;
  Some x.

Definition publicKeyJson (x : string) : JsonValue :=
  JObject [("crv", JString "Ed25519"); ("kty", JString "OKP"); ("x", JString x)].

Definition canonicalBase64Url (value : string) : bool :=
  bool_decide (is_Some (decodeCanonicalBase64Url value)).

(** The filters of [generalJwsRepresentation] on a decoded structure. *)
Definition generalJwsRepresentation (representation : Jws) : bool :=
  canonicalBase64Url (j_payload representation) &&
  canonicalBase64Url (j_protected representation) &&
  match byteList <$> decodeCanonicalBase64Url (j_signature representation) with
  | Some bytes => hasCanonicalEd25519SignatureEncoding bytes
  | None => false
  end.

(** The closed structure of a General JWS with one signature. *)
Definition decodeJws (v : JsonValue) : option Jws :=
  o ← exactStruct ["payload"; "signatures"] v;
  payload ← keyword decodeString o "payload";
  signatures ← keyword (decodeArray (fun s =>
    o ← exactStruct ["protected"; "signature"] s;
    protected ← keyword decodeString o "protected";
    signature ← keyword decodeString o "signature";
    Some (protected, signature))) o "signatures";
  match signatures with
  | [(protected, signature)] => Some (mkJws payload protected signature)
  | _ => None
  end.

Definition jwsJson (r : Jws) : JsonValue :=
  JObject [("payload", JString (j_payload r));
    ("signatures", JArray [JObject [("protected", JString (j_protected r));
       ("signature", JString (j_signature r))]])].

End keys.
End AgentKey.

(** ** Wire versions and identifiers *)

Module Wire.

Definition WIRE_VERSION : string := "2026.1021.3".
Definition LIVE_WIRE_VERSIONS : list string := [WIRE_VERSION].
Definition HISTORY_WIRE_VERSIONS : list string := LIVE_WIRE_VERSIONS.

(** The injectable [WireVersions] service. *)
Record WireVersions := mkVersions {
  v_emitted : option string;
  v_live : list string;
  v_history : list string;
}.

Definition emitted (configuration : option WireVersions) : string :=
  match configuration with
  | None => WIRE_VERSION
  | Some sets => default WIRE_VERSION (v_emitted sets)
  end.

Definition history (configuration : option WireVersions) (version : string) : bool :=
  match configuration with
  | None => bool_decide (version ∈ HISTORY_WIRE_VERSIONS)
  | Some sets => bool_decide (version ∈ HISTORY_WIRE_VERSIONS) ||
      bool_decide (version ∈ v_history sets)
  end.

Definition live (configuration : option WireVersions) (version : string) : bool :=
  match configuration with
  | None => bool_decide (version ∈ LIVE_WIRE_VERSIONS)
  | Some sets => bool_decide (version ∈ v_live sets) &&
      (bool_decide (v_emitted sets <> None) || bool_decide (version ∈ LIVE_WIRE_VERSIONS))
  end.

(** The value of a base64url character. *)
Definition base64UrlIndex (c : ascii) : option Z :=
  let n := code c in
  if decide (65 <= n <= 90)%Z then Some (n - 65)%Z
  else if decide (97 <= n <= 122)%Z then Some (n - 71)%Z
  else if decide (48 <= n <= 57)%Z then Some (n + 4)%Z
  else if decide (n = 45)%Z then Some 62%Z
  else if decide (n = 95)%Z then Some 63%Z
  else None.

(** [wholeCharacters] of the alphabet, then, when bits remain, one character
    whose padding bits are zero. *)
Fixpoint identifierTail (wholeCharacters : nat) (remainingBits : Z) (s : string) : bool :=
  match wholeCharacters, s with
  | O, EmptyString => bool_decide (remainingBits = 0)%Z
  | O, String c EmptyString =>
      match base64UrlIndex c with
      | Some index => bool_decide (remainingBits <> 0)%Z &&
          bool_decide (index mod 2 ^ (6 - remainingBits) = 0)%Z
      | None => false
      end
  | S n, String c s' =>
      bool_decide (is_Some (base64UrlIndex c)) && identifierTail n remainingBits s'
  | _, _ => false
  end.

Definition canonicalIdentifier (prefix : string) (byteLength : nat) (value : string) : bool :=
  let bits := (8 * Z.of_nat byteLength)%Z in
  startsWith prefix value &&
  identifierTail (Z.to_nat (bits / 6)) (bits mod 6)%Z (slice (String.length prefix) value).

Definition AgentId (value : string) : bool := canonicalIdentifier "agt_" 16 value.
Definition PrincipalId (value : string) : bool := canonicalIdentifier "prn_" 16 value.
Definition MessageId (value : string) : bool := canonicalIdentifier "msg_" 16 value.
Definition AgentCardDigest (value : string) : bool := canonicalIdentifier "acd_" 32 value.

Record ProtectedHeader := mkHeader { alg : string; kid : string; typ : string }.

(** The [protectedHeader] struct of an artifact of media type [mediaType]. *)
Definition protectedHeader (mediaType : string) (v : JsonValue) : option ProtectedHeader :=
  o ← exactStruct ["alg"; "kid"; "typ"] v;
  _ ← keyword (literal "Ed25519") o "alg";
  k ← keyword decodeString o "kid";
  _ ← keyword (literal mediaType) o "typ";
  Some (mkHeader "Ed25519" k mediaType).

End Wire.

(** ** AgentCards *)

Module AgentCards.
Import AgentKey Wire.
Section cards.
Context `{Base64Url} `{HostJson} `{Jose} `{Sha256}.
Context (versions : option WireVersions).

Definition AGENT_CARD_TYPE : string := "application/vnd.sharness.agent-card+jws".

(** [agentCardIssuedAtSchema]: the pattern, and a day [Date] leaves as it is. *)
Definition isWholeSecondUtc (value : string) : bool :=
  match
    ('(year, s) ← digits 4 0 value;
     s ← expect "-" s;
     '(month, s) ← digits 2 0 s;
     s ← expect "-" s;
     '(day, s) ← digits 2 0 s;
     s ← expect "T" s;
     '(hour, s) ← digits 2 0 s;
     s ← expect ":" s;
     '(minute, s) ← digits 2 0 s;
     s ← expect ":" s;
     '(second, s) ← digits 2 0 s;
     s ← expect "Z" s;
     match s with
     | EmptyString => Some (isCalendarDay year month day &&
         bool_decide (hour < 24)%Z && bool_decide (minute < 60)%Z && bool_decide (second < 60)%Z)
     | _ => None
     end)
  with Some ok => ok | None => false end.

Record CardPayload := mkCardPayload {
  cp_version : string;
  cp_agentId : string;
  cp_principalId : string;
  cp_agentName : string;
  cp_publicKey : string;
  cp_issuedAt : string;
}.

Definition decodeCardPayload (v : JsonValue) : option CardPayload :=
  o ← exactStruct ["kind"; "sharnessVersion"; "agentId"; "principalId"; "agentName";
                   "publicKey"; "issuedAt"] v;
  _ ← keyword (literal "agentCard") o "kind";
  version ← keyword (filtered (history versions)) o "sharnessVersion";
  agentId ← keyword (filtered AgentId) o "agentId";
  principalId ← keyword (filtered PrincipalId) o "principalId";
  agentName ← keyword (filtered isAgentName) o "agentName";
  publicKey ← keyword Ed25519PublicKey o "publicKey";
  issuedAt ← keyword (filtered isWholeSecondUtc) o "issuedAt";
  Some (mkCardPayload version agentId principalId agentName publicKey issuedAt).

(** A parsed AgentCard: its view and its retained state. *)
Record AgentCard := mkCard {
  agentId : string;
  principalId : string;
  agentName : string;
  publicKey : string;
  issuedAt : string;
  wireVersion : string;
  c_representation : Jws;
  c_header : ProtectedHeader;
  digest : string;
}.

Definition decodeCard (representation : Jws) : option AgentCard :=
  if generalJwsRepresentation representation then
    payloadBytes ← decodeBase64Url (j_payload representation);
    headerBytes ← decodeBase64Url (j_protected representation);
    payload ← (CanonicalJson.parseCanonicalJson payloadBytes ≫= decodeCardPayload);
    header ← (CanonicalJson.parseCanonicalJson headerBytes ≫= protectedHeader AGENT_CARD_TYPE);
    retainedBytes ← CanonicalJson.encodeCanonicalJson (jwsJson representation);
    let digest := "acd_" ++ encodeBase64Url (sha256 retainedBytes) in
    if AgentCardDigest digest then
      Some (mkCard (cp_agentId payload) (cp_principalId payload) (cp_agentName payload)
        (cp_publicKey payload) (cp_issuedAt payload) (cp_version payload) representation
        header digest)
    else None
  else None.

(** The [generalVerify] call of both artifacts. *)
Definition verifySignature (representation : Jws) (x : string) : option unit :=
  key ← importJwk x;
  if generalVerify representation key then Some tt else None.

(** [AgentCard.verify] against the pinned Registry signer. *)
Definition verifyAgentCard (card : AgentCard) (registrySignerPublicKey : string) :
    option AgentCard :=
  expectedKid ← calculateJwkThumbprintUri registrySignerPublicKey;
  if bool_decide (alg (c_header card) = "Ed25519") &&
     bool_decide (typ (c_header card) = AGENT_CARD_TYPE) &&
     bool_decide (kid (c_header card) = expectedKid)
  then
    _ ← verifySignature (c_representation card) registrySignerPublicKey;
    Some card
  else None.

End cards.
End AgentCards.

(** ** SignedMessages *)

Module SignedMessages.
Import AgentKey Wire AgentCards.
Section messages.
Context `{Base64Url} `{HostJson} `{Jose} `{Sha256}.
Context (versions : option WireVersions).

Definition SIGNED_MESSAGE_TYPE : string := "application/vnd.sharness.signed-message+jws".
Definition MAXIMUM_BODY_BYTES : Z := 262144.
Definition MAXIMUM_RECIPIENTS : nat := 128.
Definition ED25519_SIGNATURE_BYTES : nat := 64.

(** [recipientsAreCanonical]: strictly ascending decoded AgentIds. *)
Fixpoint recipientsAreCanonical (recipientAgentIds : list string) : bool :=
  match recipientAgentIds with
  | previous :: ((current :: _) as rest) =>
      if decide (compareAgentIds previous current >= 0)%Z then false
      else recipientsAreCanonical rest
  | _ => true
  end.

Definition opaqueBody (value : string) : bool :=
  match decodeCanonicalBase64Url value with
  | Some bytes => bool_decide (Z.of_nat (String.length bytes) <= MAXIMUM_BODY_BYTES)%Z
  | None => false
  end.

Record MessagePayload := mkPayload {
  mp_version : string;
  mp_senderAgentId : string;
  mp_agentCardDigest : string;
  mp_recipientAgentIds : list string;
  mp_messageId : string;
  mp_body : string;
}.

Definition decodeRecipients (v : JsonValue) : option (list string) :=
  recipients ← decodeArray (filtered AgentId) v;
  if bool_decide (1 <= length recipients <= MAXIMUM_RECIPIENTS)%nat &&
     recipientsAreCanonical recipients
  then Some recipients else None.

Definition decodeMessagePayload (v : JsonValue) : option MessagePayload :=
  o ← exactStruct ["kind"; "sharnessVersion"; "senderAgentId"; "agentCardDigest";
                   "recipientAgentIds"; "messageId"; "body"] v;
  _ ← keyword (literal "signedMessage") o "kind";
  version ← keyword (filtered (history versions)) o "sharnessVersion";
  senderAgentId ← keyword (filtered AgentId) o "senderAgentId";
  agentCardDigest ← keyword (filtered AgentCardDigest) o "agentCardDigest";
  recipientAgentIds ← keyword decodeRecipients o "recipientAgentIds";
  messageId ← keyword (filtered MessageId) o "messageId";
  body ← keyword (filtered opaqueBody) o "body";
  Some (mkPayload version senderAgentId agentCardDigest recipientAgentIds messageId body).

Definition messagePayloadJson (p : MessagePayload) : JsonValue :=
  JObject [("kind", JString "signedMessage"); ("sharnessVersion", JString (mp_version p));
    ("senderAgentId", JString (mp_senderAgentId p));
    ("agentCardDigest", JString (mp_agentCardDigest p));
    ("recipientAgentIds", JArray (JString <$> mp_recipientAgentIds p));
    ("messageId", JString (mp_messageId p)); ("body", JString (mp_body p))].

(** [MAXIMUM_ENCODED_BYTES]: the encoding of a maximal message. *)
Definition encodedZeros (length : nat) : string :=
  encodeBase64Url (String.concat "" (replicate length (String "000" ""))).

Definition MAXIMUM_ENCODED_BYTES : option Z :=
  payloadBytes ← CanonicalJson.encodeCanonicalJson (messagePayloadJson (mkPayload WIRE_VERSION
    ("agt_" ++ encodedZeros 16) ("acd_" ++ encodedZeros 32)
    (replicate MAXIMUM_RECIPIENTS ("agt_" ++ encodedZeros 16))
    ("msg_" ++ encodedZeros 16) (encodedZeros (Z.to_nat MAXIMUM_BODY_BYTES))));
  headerBytes ← CanonicalJson.encodeCanonicalJson (JObject [("alg", JString "Ed25519");
    ("kid", JString ("urn:ietf:params:oauth:jwk-thumbprint:sha-256:" ++ encodedZeros 32));
    ("typ", JString SIGNED_MESSAGE_TYPE)]);
  encoded ← CanonicalJson.encodeCanonicalJson (jwsJson (mkJws (encodeBase64Url payloadBytes)
    (encodeBase64Url headerBytes) (encodedZeros ED25519_SIGNATURE_BYTES)));
  Some (Z.of_nat (String.length encoded)).

(** A parsed SignedMessage: its view and its retained state. *)
Record SignedMessage := mkMessage {
  senderAgentId : string;
  agentCardDigest : string;
  recipientAgentIds : list string;
  messageId : string;
  body : string;
  wireVersion : string;
  representation : Jws;
  header : ProtectedHeader;
  encodedByteLength : Z;
}.

(** [Schema.decodeUnknown(SignedMessage)] of a decoded JWS structure, under
    the bound computed when the module loaded. *)
Definition decodeMessage (maximumEncodedBytes : Z) (representation : Jws) :
    option SignedMessage :=
  if generalJwsRepresentation representation then
    payloadBytes ← decodeCanonicalBase64Url (j_payload representation);
    headerBytes ← decodeCanonicalBase64Url (j_protected representation);
    payload ← (CanonicalJson.parseCanonicalJson payloadBytes ≫= decodeMessagePayload);
    header ← (CanonicalJson.parseCanonicalJson headerBytes ≫= protectedHeader SIGNED_MESSAGE_TYPE);
    body ← decodeCanonicalBase64Url (mp_body payload);
    encoded ← CanonicalJson.encodeCanonicalJson (jwsJson representation);
    let encodedByteLength := Z.of_nat (String.length encoded) in
    if decide (maximumEncodedBytes < encodedByteLength)%Z then None
    else Some (mkMessage (mp_senderAgentId payload) (mp_agentCardDigest payload)
      (mp_recipientAgentIds payload) (mp_messageId payload) body (mp_version payload)
      representation header encodedByteLength)
  else None.

(** [Schema.decodeUnknown(SignedMessage.live)]. *)
Definition decodeLive (maximumEncodedBytes : Z) (representation : Jws) : option SignedMessage :=
  message ← decodeMessage maximumEncodedBytes representation;
  if live versions (wireVersion message) then Some message else None.

(** [SignedMessage.verify]. *)
Definition verify (signedMessage : SignedMessage) (card : AgentCard) : option SignedMessage :=
  expectedKid ← calculateJwkThumbprintUri (publicKey card);
  if bool_decide (senderAgentId signedMessage = agentId card) &&
     bool_decide (agentCardDigest signedMessage = digest card) &&
     (bool_decide (kid (header signedMessage) = expectedKid) &&
      bool_decide (alg (header signedMessage) = "Ed25519") &&
      bool_decide (typ (header signedMessage) = SIGNED_MESSAGE_TYPE))
  then
    _ ← verifySignature (representation signedMessage) (publicKey card);
    Some signedMessage
  else None.

(** *** Signing *)

(** The order [sort] is given: not after. *)
Definition notAfter (left right : string) : Prop := (compareAgentIds left right <= 0)%Z.

Global Instance notAfter_dec left right : Decision (notAfter left right).
Proof. unfold notAfter. apply _. Defined.

Definition snapshotRecipients (recipients : list string) : option (list string) :=
  let recipients := merge_sort notAfter recipients in
  if bool_decide (length recipients = 0)%nat ||
     bool_decide (MAXIMUM_RECIPIENTS < length recipients)%nat ||
     negb (recipientsAreCanonical recipients)
  then None else Some recipients.

Definition snapshotBody (candidate : string) : option string :=
  if decide (MAXIMUM_BODY_BYTES < Z.of_nat (String.length candidate))%Z then None
  else Some candidate.

Record SignInput := mkSign {
  s_agentCard : AgentCard;
  s_authorityPublicKey : string;
  s_signingKey : CryptoKey;
  s_recipientAgentIds : list string;
  s_messageId : string;
  s_body : string;
}.

Definition prepareSigningMaterial (input : SignInput) : option (string * string) :=
  if negb (bool_decide (s_authorityPublicKey input = publicKey (s_agentCard input))) then None
  else
    recipients ← snapshotRecipients (s_recipientAgentIds input);
    body ← snapshotBody (s_body input);
    kid ← calculateJwkThumbprintUri (publicKey (s_agentCard input));
    payloadBytes ← CanonicalJson.encodeCanonicalJson (messagePayloadJson
      (mkPayload (emitted versions) (agentId (s_agentCard input)) (digest (s_agentCard input))
        recipients (s_messageId input) (encodeBase64Url body)));
    Some (kid, payloadBytes).

(** [SignedMessage.sign]. *)
Definition sign (maximumEncodedBytes : Z) (input : SignInput) : option SignedMessage :=
  '(kid, payloadBytes) ← prepareSigningMaterial input;
  representation ← generalSign (s_signingKey input) payloadBytes
    [("alg", JString "Ed25519"); ("kid", JString kid); ("typ", JString SIGNED_MESSAGE_TYPE)];
  decodeLive maximumEncodedBytes representation.

(** *** What verification establishes *)

Lemma verify_inv signedMessage card verified :
  verify signedMessage card = Some verified ->
  verified = signedMessage /\ senderAgentId signedMessage = agentId card /\
  agentCardDigest signedMessage = digest card /\
  exists key, importJwk (publicKey card) = Some key /\
    generalVerify (representation signedMessage) key = true.
Proof.
  unfold verify, verifySignature. intros (expectedKid & _ & Hv)%bind_Some.
  destruct (_ && _ && _) eqn:Hb; [|done].
  apply andb_true_iff in Hb as [[Hs Hd]%andb_true_iff _].
  apply bool_decide_eq_true in Hs, Hd.
  apply bind_Some in Hv as (u & (key & Hk & Hg)%bind_Some & [= <-]).
  destruct (generalVerify _ _) eqn:Hgv; [|done]. eauto 10.
Qed.

(** What a parsed message is, in terms of its representation. *)
Lemma decodeMessage_inv maximumEncodedBytes r m :
  decodeMessage maximumEncodedBytes r = Some m ->
  generalJwsRepresentation r = true /\ representation m = r /\
  (encodedByteLength m <= maximumEncodedBytes)%Z /\
  exists payloadBytes value payload,
    decodeCanonicalBase64Url (j_payload r) = Some payloadBytes /\
    CanonicalJson.encodeCanonicalJson value = Some payloadBytes /\
    CanonicalJson.parseCanonicalJson payloadBytes = Some value /\
    decodeMessagePayload value = Some payload /\
    decodeCanonicalBase64Url (mp_body payload) = Some (body m) /\
    senderAgentId m = mp_senderAgentId payload /\
    agentCardDigest m = mp_agentCardDigest payload /\
    recipientAgentIds m = mp_recipientAgentIds payload /\
    messageId m = mp_messageId payload /\ wireVersion m = mp_version payload.
Proof.
  unfold decodeMessage. destruct (generalJwsRepresentation r); [|done].
  intros (payloadBytes & Hp & Hm)%bind_Some.
  apply bind_Some in Hm as (headerBytes & _ & Hm).
  apply bind_Some in Hm as (payload & (value & Hv & Hpl)%bind_Some & Hm).
  apply bind_Some in Hm as (header & _ & Hm).
  apply bind_Some in Hm as (bodyBytes & Hb & Hm).
  apply bind_Some in Hm as (encoded & _ & Hm). cbv zeta in Hm.
  destruct (decide _) as [|Hle]; [done|]. injection Hm as <-. simpl.
  split_and!; [done|done|lia|]. exists payloadBytes, value, payload.
  split_and!; try done. by apply CanonicalJson.parseCanonicalJson_encodes.
Qed.

Lemma decodeLive_message maximumEncodedBytes r m :
  decodeLive maximumEncodedBytes r = Some m -> decodeMessage maximumEncodedBytes r = Some m.
Proof.
  unfold decodeLive. intros (message & Hm & Hl)%bind_Some.
  destruct (live _ _); [|done]. by injection Hl as <-.
Qed.

End messages.
End SignedMessages.
