(* ===== verification/Hosts.v ===== *)
(** Hosts: executable stand-ins for the third-party code the components
    receive as arguments, for the concrete runs.

    base64url and JSON are the real codecs (integers only); the digest is a
    polynomial hash and a signature is a digest under the key, so nothing
    here is a claim about cryptography. *)
From S2P Require Import Prelude JsMap Json JsString Identifiers SignedMessages.
From stdpp Require Import pretty.
From Stdlib Require Import QArith Qcanon Ascii.
Import Json Identifiers SignedMessages.
Local Open Scope string_scope.

Module Hosts.

(** ** base64url *)

Definition alphabet : string :=
  "ABCDEFGHIJKLMNOPQRSTUVWXYZabcdefghijklmnopqrstuvwxyz0123456789-_".
Definition sextet (n : Z) : ascii := default "A"%char (String.get (Z.to_nat n) alphabet).
Definition byteChar (n : Z) : ascii := ascii_of_N (Z.to_N n).

Fixpoint encode64 (bytes : string) : string :=
  match bytes with
  | String a (String b (String c rest)) =>
      let n := (65536 * code a + 256 * code b + code c)%Z in
      String (sextet (n / 262144)) (String (sextet (n / 4096 mod 64))
        (String (sextet (n / 64 mod 64)) (String (sextet (n mod 64)) (encode64 rest))))
  | String a (String b EmptyString) =>
      let n := (65536 * code a + 256 * code b)%Z in
      String (sextet (n / 262144)) (String (sextet (n / 4096 mod 64))
        (String (sextet (n / 64 mod 64)) EmptyString))
  | String a EmptyString =>
      let n := (65536 * code a)%Z in
      String (sextet (n / 262144)) (String (sextet (n / 4096 mod 64)) EmptyString)
  | EmptyString => EmptyString
  end.

Fixpoint decode64 (text : string) : option string :=
  match text with
  | String a (String b (String c (String d rest))) =>
      i ← Wire.base64UrlIndex a; j ← Wire.base64UrlIndex b;
      k ← Wire.base64UrlIndex c; l ← Wire.base64UrlIndex d;
      tail ← decode64 rest;
      let n := (262144 * i + 4096 * j + 64 * k + l)%Z in
      Some (String (byteChar (n / 65536)) (String (byteChar (n / 256 mod 256))
        (String (byteChar (n mod 256)) tail)))
  | String a (String b (String c EmptyString)) =>
      i ← Wire.base64UrlIndex a; j ← Wire.base64UrlIndex b; k ← Wire.base64UrlIndex c;
      let n := (262144 * i + 4096 * j + 64 * k)%Z in
      Some (String (byteChar (n / 65536)) (String (byteChar (n / 256 mod 256)) EmptyString))
  | String a (String b EmptyString) =>
      i ← Wire.base64UrlIndex a; j ← Wire.base64UrlIndex b;
      Some (String (byteChar ((262144 * i + 4096 * j) / 65536)) EmptyString)
  | String _ EmptyString => None
  | EmptyString => Some EmptyString
  end.

#[local] Instance base64url : Base64Url := {|
  encodeBase64Url := encode64; decodeBase64Url := decode64 |}.

Lemma index_sextet n : (0 <= n < 64)%Z -> Wire.base64UrlIndex (sextet n) = Some n.
Proof.
  intros Hn.
  assert (Hall : Forall (fun k => Wire.base64UrlIndex (sextet (Z.of_nat k)) = Some (Z.of_nat k))
    (seq 0 64)) by (apply (bool_decide_unpack _); vm_compute; exact I).
  rewrite Forall_forall in Hall. specialize (Hall (Z.to_nat n)). rewrite Z2Nat.id in Hall by lia.
  apply Hall, elem_of_seq. lia.
Qed.

Lemma byteChar_code c n : n = code c -> byteChar n = c.
Proof. intros ->. unfold byteChar, code. by rewrite N2Z.id, ascii_N_embedding. Qed.

Lemma code_range c : (0 <= code c < 256)%Z.
Proof. unfold code. pose proof (N_ascii_bounded c). lia. Qed.

Lemma decode64_encode64 bytes : decode64 (encode64 bytes) = Some bytes.
Proof.
  revert bytes. fix IH 1. intros [|a [|b [|c rest]]]; [done| | |];
    pose proof (code_range a); try pose proof (code_range b); try pose proof (code_range c);
    cbn [encode64 decode64];
    rewrite !index_sextet by (Z.div_mod_to_equations; lia); cbn [mbind option_bind].
  - do 2 f_equal. apply byteChar_code. Z.div_mod_to_equations; lia.
  - f_equal. f_equal; [|f_equal]; apply byteChar_code; Z.div_mod_to_equations; lia.
  - rewrite IH. cbn [mbind option_bind]. f_equal.
    f_equal; [|f_equal; [|f_equal]]; apply byteChar_code; Z.div_mod_to_equations; lia.
Qed.

Lemma base64url_laws : Base64UrlLaws base64url.
Proof. split. exact decode64_encode64. Qed.

(** ** JSON *)

Definition quote : ascii := "034".
Definition backslash : ascii := "092".

Fixpoint printString (s : string) : string :=
  match s with
  | EmptyString => String quote EmptyString
  | String c s' =>
      if Ascii.eqb c quote || Ascii.eqb c backslash
      then String backslash (String c (printString s'))
      else String c (printString s')
  end.

Fixpoint insertMember (k v : string) (l : list (string * string)) : list (string * string) :=
  match l with
  | [] => [(k, v)]
  | (k', v') :: l' =>
      if decide (compareAscii k k' <= 0)%Z then (k, v) :: l else (k', v') :: insertMember k v l'
  end.

Definition commas (l : list string) : string := String.concat "," l.

Fixpoint printJson (v : JsonValue) : string :=
  match v with
  | JNull => "null"
  | JBool b => if b then "true" else "false"
  | JNumber n => pretty (Qnum n)
  | JString s => String quote (printString s)
  | JArray l => "[" ++ commas (map printJson l) ++ "]"
  | JObject o =>
      let members := fold_right (fun '(k, v) acc => insertMember k (printJson v) acc) [] o in
      "{" ++ commas (map (fun '(k, v) => String quote (printString k) ++ ":" ++ v) members) ++ "}"
  end.

Fixpoint parseString (s : string) : option (string * string) :=
  match s with
  | EmptyString => None
  | String c s' =>
      if Ascii.eqb c quote then Some (EmptyString, s')
      else if Ascii.eqb c backslash then
        match s' with
        | String d s'' => '(t, r) ← parseString s''; Some (String d t, r)
        | EmptyString => None
        end
      else '(t, r) ← parseString s'; Some (String c t, r)
  end.

Fixpoint parseDigits (acc : Z) (s : string) : Z * string :=
  match s with
  | String c s' =>
      if bool_decide (48 <= code c <= 57)%Z then parseDigits (10 * acc + (code c - 48)) s'
      else (acc, s)
  | EmptyString => (acc, s)
  end.

Definition stripPrefix (p s : string) : option string :=
  if startsWith p s then Some (slice (String.length p) s) else None.

Fixpoint parseValue (fuel : nat) (s : string) : option (JsonValue * string) :=
  match fuel with
  | O => None
  | S fuel =>
      match s with
      | String "{" (String "}" r) => Some (JObject [], r)
      | String "{" r => '(o, r) ← parseMembers fuel r; Some (JObject o, r)
      | String "[" (String "]" r) => Some (JArray [], r)
      | String "[" r => '(l, r) ← parseItems fuel r; Some (JArray l, r)
      | String "n" _ => r ← stripPrefix "null" s; Some (JNull, r)
      | String "t" _ => r ← stripPrefix "true" s; Some (JBool true, r)
      | String "f" _ => r ← stripPrefix "false" s; Some (JBool false, r)
      | String "-" r => let '(n, r) := parseDigits 0 r in
                        Some (JNumber (Q2Qc (inject_Z (- n))), r)
      | String c r =>
          if Ascii.eqb c quote then '(t, r) ← parseString r; Some (JString t, r)
          else if bool_decide (48 <= code c <= 57)%Z
          then let '(n, r) := parseDigits 0 s in Some (JNumber (Q2Qc (inject_Z n)), r)
          else None
      | EmptyString => None
      end
  end
with parseItems (fuel : nat) (s : string) : option (list JsonValue * string) :=
  match fuel with
  | O => None
  | S fuel =>
      '(v, r) ← parseValue fuel s;
      match r with
      | String "]" r => Some ([v], r)
      | String "," r => '(vs, r) ← parseItems fuel r; Some (v :: vs, r)
      | _ => None
      end
  end
with parseMembers (fuel : nat) (s : string) : option (list (string * JsonValue) * string) :=
  match fuel with
  | O => None
  | S fuel =>
      match s with
      | String c r =>
          if Ascii.eqb c quote then
            '(k, r) ← parseString r;
            match r with
            | String ":" r =>
                '(v, r) ← parseValue fuel r;
                match r with
                | String "}" r => Some ([(k, v)], r)
                | String "," r => '(o, r) ← parseMembers fuel r; Some ((k, v) :: o, r)
                | _ => None
                end
            | _ => None
            end
          else None
      | EmptyString => None
      end
  end.

#[local] Instance json : HostJson := {|
  canonicalize := fun v => Some (printJson v);
  jsonParse := fun text =>
    match parseValue (S (String.length text)) text with
    | Some (v, EmptyString) => Some v
    | _ => None
    end;
  utf8Decode := Some |}.

(** ** Digests and signatures *)

Fixpoint polynomial (acc : Z) (s : string) : Z :=
  match s with
  | EmptyString => acc
  | String c s' => polynomial (Z.land (31 * acc + code c) 16777215) s'
  end.

Fixpoint bytesOf (n : nat) (v : Z) : string :=
  match n with
  | O => EmptyString
  | S n' => String (byteChar (v mod 256)) (bytesOf n' (v / 256))
  end.

#[local] Instance digest : Sha256 := {| sha256 := fun s => bytesOf 32 (polynomial 7 s) |}.

Definition signatureOf (key payload protected : string) : string :=
  let half := bytesOf 31 (polynomial 7 (key ++ "." ++ payload ++ "." ++ protected)) ++
    String "000" EmptyString in
  encode64 (half ++ half).

#[local] Instance signatures : Jose := {|
  CryptoKey := string;
  importJwk := Some;
  calculateJwkThumbprintUri := fun x => Some ("urn:kid:" ++ x);
  generalVerify := fun jws key =>
    bool_decide (j_signature jws = signatureOf key (j_payload jws) (j_protected jws));
  generalSign := fun key payloadBytes header =>
    let payload := encode64 payloadBytes in
    let protected := encode64 (printJson (JObject header)) in
    Some (mkJws payload protected (signatureOf key payload protected)) |}.

(** ** Agents *)

Definition keyOf (c : ascii) : string := encode64 (bytesOf 31 (polynomial 3 (String c EmptyString)) ++ String "001" EmptyString).
Definition registryKey : string := keyOf "R".

Definition agentIdOf (c : ascii) : string := "agt_" ++ encode64 (String c "aaaaaaaaaaaaaaa").

(** The Registry's attestation of the agent [c], called [ccc]. *)
Definition cardJws (c : ascii) : Jws :=
  default (mkJws EmptyString EmptyString EmptyString)
    (generalSign registryKey
      (printJson (JObject [("kind", JString "agentCard"); ("sharnessVersion", JString Wire.WIRE_VERSION);
        ("agentId", JString (agentIdOf c)); ("principalId", JString ("prn_" ++ encode64 "pppppppppppppppp"));
        ("agentName", JString (String c (String c (String c EmptyString))));
        ("publicKey", AgentKey.publicKeyJson (keyOf c));
        ("issuedAt", JString "2026-10-21T00:00:00Z")]))
      [("alg", JString "Ed25519"); ("kid", JString ("urn:kid:" ++ registryKey));
       ("typ", JString AgentCards.AGENT_CARD_TYPE)]).

Definition maximum : Z := 1000000.

Definition cardOf (c : ascii) : option AgentCards.AgentCard :=
  card ← AgentCards.decodeCard None (cardJws c);
  AgentCards.verifyAgentCard card registryKey.

(** A message of the agent [c] over its own key. *)
Definition signedBy (c : ascii) (recipients : list string) (messageId body : string) :
    option SignedMessage :=
  card ← cardOf c;
  sign None maximum (mkSign card (keyOf c) (keyOf c) recipients messageId body).

End Hosts.
