(* ===== verification/RouterSend.v ===== *)
(** RouterSend: verified acceptance of opaque messages into the feed
    (packages/router/src/router/send.ts).

    A send runs over the feed and the held polls of its Router; the HTTP
    authentication that produced the caller's verified card is
    AuthenticatedHttp's.  A send's notification runs to its end here
    ([notifyWaiters]); PollWaiters states what is left when it is interleaved
    or interrupted. *)
From S2P Require Import Prelude JsMap Json JsString RouterFeed PollWaiters Identifiers.
From S2P Require Import SignedMessages Hosts.
From Stdlib Require Import Ascii.
Import Feed PollWaiters Identifiers CanonicalJson.
Local Open Scope string_scope.

Module RouterSend.
Section send.
Context `{Base64Url} `{HostJson} `{Jose} `{Sha256}.
Context (versions : option Wire.WireVersions) (maximumEncodedByteLength : Z).
Context (input : RouterFeedInput).

Abbreviation SignedMessage := SignedMessages.SignedMessage.

(** [RawRouterSendRequest] and [VerifiedAgentRequest]. *)
Record RawRouterSendRequest := mkRequest {
  expectedRouterInstanceId : string;
  mode : SendMode;
  r_signedMessage : JsonValue;
}.

Record VerifiedAgentRequest := mkVerified {
  callerAgentId : string;
  agentCard : AgentCards.AgentCard;
}.

Inductive SendFailure := OverloadedError | InternalServerError.

Record RouterState := mkRouter { feed : FeedState SignedMessage; pollWaiters : WaitState }.

Abbreviation Sending := (Exit SendFailure RouterSendResult * RouterState)%type.

Definition encodeMessage (message : SignedMessage) : Exit SendFailure string :=
  match canonicalize (AgentKey.jwsJson (SignedMessages.representation message)) with
  | Some jcs => Succeed jcs
  | None => Fail_ InternalServerError
  end.

Definition encodedLengthIsValid (message : SignedMessage) (encodedMessageJcs : string) : bool :=
  bool_decide (SignedMessages.encodedByteLength message =
    Z.of_nat (String.length encodedMessageJcs)) &&
  bool_decide (SignedMessages.encodedByteLength message <= maximumEncodedByteLength)%Z.

Definition digestMessage (encodedMessageJcs : string) : Exit SendFailure string :=
  let digest := "smd_" ++ encodeBase64Url (sha256 encodedMessageJcs) in
  if canonicalValue "smd_" 32 digest then Succeed digest else Fail_ InternalServerError.

(** What [retainMessage] offers the feed. *)
Definition candidate (sendMode : SendMode) (message : SignedMessage)
    (encodedMessageJcs signedMessageDigest : string) : FeedCandidate SignedMessage :=
  mkCandidate sendMode message encodedMessageJcs (SignedMessages.encodedByteLength message)
    (list_to_set (SignedMessages.recipientAgentIds message))
    (SignedMessages.senderAgentId message) (SignedMessages.messageId message)
    signedMessageDigest.

Definition retainMessage (sendMode : SendMode) (message : SignedMessage) (st : RouterState) :
    Sending :=
  match encodeMessage message with
  | Fail_ e => (Fail_ e, st)
  | Succeed encodedMessageJcs =>
      if negb (encodedLengthIsValid message encodedMessageJcs)
      then (Succeed MessageInvalid, st)
      else
        match digestMessage encodedMessageJcs with
        | Fail_ e => (Fail_ e, st)
        | Succeed signedMessageDigest =>
            let '(accepted, feed') := modifyFeed (feed st)
              (candidate sendMode message encodedMessageJcs signedMessageDigest) input in
            match accepted with
            | Overloaded => (Fail_ OverloadedError, mkRouter feed' (pollWaiters st))
            | Result result acceptedRecipients =>
                (Succeed result, mkRouter feed'
                  match acceptedRecipients with
                  | Some recipients => notifyWaiters (pollWaiters st) (elements recipients)
                  | None => pollWaiters st
                  end)
            end
        end
  end.

Definition handleDecodedMessage (request : RawRouterSendRequest)
    (verifiedRequest : VerifiedAgentRequest) (signedMessage : SignedMessage)
    (st : RouterState) : Sending :=
  if negb (bool_decide (SignedMessages.senderAgentId signedMessage =
        callerAgentId verifiedRequest))
  then (Succeed MessageInvalid, st)
  else
    match SignedMessages.verify signedMessage (agentCard verifiedRequest) with
    | None => (Succeed MessageInvalid, st)
    | Some message => retainMessage (mode request) message st
    end.

Definition handleCurrentInstance (request : RawRouterSendRequest)
    (verifiedRequest : VerifiedAgentRequest) (st : RouterState) : Sending :=
  match AgentKey.decodeJws (r_signedMessage request) ≫=
        SignedMessages.decodeLive versions maximumEncodedByteLength with
  | None => (Succeed MessageInvalid, st)
  | Some signedMessage => handleDecodedMessage request verifiedRequest signedMessage st
  end.

Definition handleSend (request : RawRouterSendRequest) (verifiedRequest : VerifiedAgentRequest)
    (st : RouterState) : Sending :=
  if negb (bool_decide (expectedRouterInstanceId request = routerInstanceId input))
  then (Succeed (RouterRestarted (routerInstanceId input)), st)
  else handleCurrentInstance request verifiedRequest st.

(** Sends one after another, each on the state the previous left. *)
Fixpoint sends (requests : list (RawRouterSendRequest * VerifiedAgentRequest))
    (st : RouterState) : RouterState :=
  match requests with
  | [] => st
  | (request, verifiedRequest) :: rest => sends rest (handleSend request verifiedRequest st).2
  end.

(** ** Authenticity *)

(** The entry is a message its authenticated sender signed, in one of the
    requests. *)
Definition authentic (requests : list (RawRouterSendRequest * VerifiedAgentRequest))
    (entry : FeedEntry SignedMessage) : Prop :=
  exists request verifiedRequest jws message,
    (request, verifiedRequest) ∈ requests /\
    AgentKey.decodeJws (r_signedMessage request) = Some jws /\
    SignedMessages.decodeLive versions maximumEncodedByteLength jws = Some message /\
    SignedMessages.verify message (agentCard verifiedRequest) = Some message /\
    senderAgentId entry = callerAgentId verifiedRequest /\
    AgentCards.agentId (agentCard verifiedRequest) = callerAgentId verifiedRequest /\
    signedMessage entry = message /\
    messageId entry = SignedMessages.messageId message /\
    recipients entry = list_to_set (SignedMessages.recipientAgentIds message) /\
    canonicalize (AgentKey.jwsJson jws) = Some (encodedMessageJcs entry) /\
    signedMessageDigest entry = "smd_" ++ encodeBase64Url (sha256 (encodedMessageJcs entry)) /\
    encodedByteLength entry = Z.of_nat (String.length (encodedMessageJcs entry)) /\
    (encodedByteLength entry <= maximumEncodedByteLength)%Z.

(** What a send that reaches the feed offers it. *)
Lemma send_cases request verifiedRequest st :
  let '(result, st') := handleSend request verifiedRequest st in
  (feed st' = feed st /\ pollWaiters st' = pollWaiters st /\
   forall rid d, result <> Succeed (Accepted rid d)) \/
  exists jws message jcs digest,
    AgentKey.decodeJws (r_signedMessage request) = Some jws /\
    SignedMessages.decodeLive versions maximumEncodedByteLength jws = Some message /\
    SignedMessages.verify message (agentCard verifiedRequest) = Some message /\
    SignedMessages.senderAgentId message = callerAgentId verifiedRequest /\
    canonicalize (AgentKey.jwsJson jws) = Some jcs /\
    encodedLengthIsValid message jcs = true /\ digestMessage jcs = Succeed digest /\
    let '(accepted, feed') := modifyFeed (feed st)
      (candidate (mode request) message jcs digest) input in
    feed st' = feed' /\
    match accepted with
    | Overloaded => result = Fail_ OverloadedError /\ pollWaiters st' = pollWaiters st
    | Result r acceptedRecipients =>
        result = Succeed r /\ pollWaiters st' =
          match acceptedRecipients with
          | Some recipients => notifyWaiters (pollWaiters st) (elements recipients)
          | None => pollWaiters st
          end
    end.
Proof.
  unfold handleSend, handleCurrentInstance.
  destruct (negb _); [by left|].
  destruct (AgentKey.decodeJws (r_signedMessage request)) as [jws|] eqn:Hj; [|by left]. simpl.
  destruct (SignedMessages.decodeLive _ _ jws) as [message|] eqn:Hm; [|by left].
  unfold handleDecodedMessage. case_bool_decide as Hs; [|by left]. simpl.
  destruct (SignedMessages.verify message _) as [verified|] eqn:Hv; [|by left].
  pose proof (SignedMessages.verify_inv _ _ _ Hv) as [-> _].
  unfold retainMessage, encodeMessage.
  pose proof (SignedMessages.decodeMessage_inv _ _ _ _ (SignedMessages.decodeLive_message _ _ _ _ Hm))
    as (_ & Hr & _). rewrite Hr.
  destruct (canonicalize _) as [jcs|] eqn:Hc; [|by left].
  destruct (encodedLengthIsValid message jcs) eqn:Hl; [|by left]. simpl.
  destruct (digestMessage jcs) as [digest|] eqn:Hd; [|by left].
  destruct (modifyFeed _ _ _) as [accepted feed'] eqn:Hf.
  destruct accepted as [result acceptedRecipients|]; right;
    exists jws, message, jcs, digest; rewrite Hf; done.
Qed.

Lemma digestMessage_inv jcs digest : digestMessage jcs = Succeed digest ->
  digest = "smd_" ++ encodeBase64Url (sha256 jcs).
Proof. unfold digestMessage. cbv zeta. destruct (canonicalValue _ _ _); by intros [= <-]. Qed.

Lemma send_entries requests request verifiedRequest st :
  (request, verifiedRequest) ∈ requests ->
  Forall (authentic requests) (entries (feed st)) ->
  Forall (authentic requests) (entries (feed (handleSend request verifiedRequest st).2)).
Proof.
  intros Hin Hall. pose proof (send_cases request verifiedRequest st) as Hc.
  destruct (handleSend request verifiedRequest st) as [result st']. simpl.
  destruct Hc as [(-> & _)|(jws & m & jcs & digest & Hj & Hm & Hv & Hs & Hcan & Hl & Hd & Hf)];
    [done|].
  apply Forall_forall. intros e He.
  pose proof (modify_entries input (feed st) (candidate (mode request) m jcs digest) e) as Hsub.
  destruct (modifyFeed _ _ _) as [accepted feed']. destruct Hf as [Hf _].
  rewrite Hf in He. destruct (Hsub He) as [Hold| ->]; [by eapply Forall_forall in Hall|].
  exists request, verifiedRequest, jws, m. simpl.
  pose proof (SignedMessages.verify_inv _ _ _ Hv) as (_ & Hsender & _).
  apply andb_true_iff in Hl as [Hlen%bool_decide_eq_true Hmax%bool_decide_eq_true].
  split_and!; try done; [by rewrite <- Hsender|by apply digestMessage_inv].
Qed.

(** C34: the Router holds only authentic messages.  Whatever sends it handles
    and in whatever order, every message its feed retains was live, verified
    under the card of the caller who sent it, and signed by that caller; it
    is addressed to exactly the recipients it names, and retained under the
    digest and the length of its canonical representation. *)
Theorem router_holds_authentic requests base waiters :
  Forall (authentic requests)
    (entries (feed (sends requests
       (mkRouter (makeInitialState base) waiters)))).
Proof.
  assert (Hgen : forall rest st, (forall x, x ∈ rest -> x ∈ requests) ->
    Forall (authentic requests) (entries (feed st)) ->
    Forall (authentic requests) (entries (feed (sends rest st)))).
  { induction rest as [|[request verifiedRequest] rest IH]; intros st Hin Hall; [done|].
    apply IH; [set_solver|]. apply send_entries; [|done]. apply Hin. by left. }
  apply Hgen; [done|constructor].
Qed.

(** an accepted message wakes its recipients.  When an initial send is
    accepted, its message, whose sender is the caller, takes the next order
    of the feed, the registered poll of each of its recipients is completed,
    and every other agent's registration stays as it was. *)
Theorem accepted_send_wakes request verifiedRequest st st' rid digest :
  jm_wf (waiters (pollWaiters st)) ->
  mode request = Initial ->
  handleSend request verifiedRequest st = (Succeed (Accepted rid digest), st') ->
  exists jws message,
    AgentKey.decodeJws (r_signedMessage request) = Some jws /\
    SignedMessages.decodeLive versions maximumEncodedByteLength jws = Some message /\
    SignedMessages.senderAgentId message = callerAgentId verifiedRequest /\
    rid = routerInstanceId input /\ tailOrder (feed st') = (tailOrder (feed st) + 1)%Z /\
    (forall agentId deferred, agentId ∈ SignedMessages.recipientAgentIds message ->
       jm_get (waiters (pollWaiters st)) agentId = Some deferred ->
       deferred ∈ fulfilled (pollWaiters st')) /\
    (forall agentId, agentId ∉ SignedMessages.recipientAgentIds message ->
       jm_get (waiters (pollWaiters st')) agentId = jm_get (waiters (pollWaiters st)) agentId).
Proof.
  intros Hreach Hmode Hsend. pose proof (send_cases request verifiedRequest st) as Hc.
  rewrite Hsend in Hc.
  destruct Hc as [(_ & _ & Hno)|(jws & m & jcs & d & Hj & Hm & _ & Hs & _ & _ & _ & Hf)];
    [by destruct (Hno rid digest)|].
  destruct (modifyFeed _ _ _) as [[r acc|] feed'] eqn:Hmod; [|by destruct Hf as (_ & ? & _)].
  destruct Hf as (Hfeed & [= <-] & Hwait). rewrite Hfeed, Hwait.
  apply initial_accepted in Hmod as (-> & _ & -> & ->); [|done].
  exists jws, m. split_and!; try done; simpl;
    destruct (notify_completes _ (elements (list_to_set (SignedMessages.recipientAgentIds m) : gset string))
      Hreach) as [Hin Hout].
  - intros agentId deferred Ha Hw. apply (Hin agentId); [|done]. set_solver.
  - intros agentId Ha. apply Hout. set_solver.
Qed.

End send.

(** ** A concrete send: [a] writes to [b], who holds a poll *)
Module Runs.
Import Hosts.
#[local] Existing Instances base64url json digest signatures.

Definition hello : option SignedMessages.SignedMessage :=
  signedBy "a"%char [agentIdOf "b"%char] ("msg_" ++ encode64 "mmmmmmmmmmmmmmmm") "hello".
Definition sendHello : RawRouterSendRequest :=
  mkRequest "rtr" Initial
    (match hello with Some m => AgentKey.jwsJson (SignedMessages.representation m) | None => JNull end).
Definition nobody : AgentCards.AgentCard :=
  AgentCards.mkCard "" "" "" "" "" "" (mkJws "" "" "") (Wire.mkHeader "" "" "") "".
Definition fromA : VerifiedAgentRequest :=
  mkVerified (agentIdOf "a"%char) (default nobody (cardOf "a"%char)).
Definition router : RouterFeedInput := mkInput "rtr" 10 100000.
Definition polled : WaitState := (awaitBegin makePollWaiters 2 (agentIdOf "b"%char)).2.
Definition sent : Exit SendFailure RouterSendResult * RouterState :=
  handleSend None maximum router sendHello fromA (mkRouter (makeInitialState 4) polled).
Definition digestOf (result : Exit SendFailure RouterSendResult) : string :=
  match result with Succeed (Accepted _ d) => d | _ => "" end.
Definition acceptedDigest : string := digestOf sent.1.

End Runs.
Import Runs.

Lemma accepted_send_wakes_witness :
  tailOrder (feed sent.2) = 5%Z /\
  exists jws message,
    AgentKey.decodeJws (r_signedMessage sendHello) = Some jws /\
    SignedMessages.decodeLive (H := Hosts.base64url) (H0 := Hosts.json) None Hosts.maximum jws
      = Some message /\
    SignedMessages.senderAgentId message = Hosts.agentIdOf "a"%char.
Proof.
  split; [vm_compute; reflexivity|].
  destruct (accepted_send_wakes (H := Hosts.base64url) (H0 := Hosts.json) (H1 := Hosts.signatures)
    (H2 := Hosts.digest) None Hosts.maximum router sendHello fromA
    (mkRouter (makeInitialState 4) polled) sent.2 "rtr" acceptedDigest) as (jws & message & Hj & Hm & Hs & _).
  - vm_compute. repeat constructor; set_solver.
  - reflexivity.
  - vm_compute. reflexivity.
  - exists jws, message. split; [exact Hj|]. split; [exact Hm|exact Hs].
Defined.
End RouterSend.
