(* ===== verification/SealedBody.v ===== *)
(** SealedBody: bodies sealed to every recipient of a message
    (packages/identity/src/sealed-body.ts, the X25519 keys of agent-key.ts,
    wire-profile.ts).

    jose's JWE and the curve map of noble-curves are arguments, as are the
    random salt and jose's randomness.  Byte arrays are byte strings; a
    failure is [None], as sealing and opening each have one empty error. *)
From S2P Require Import Prelude JsMap Json JsString Identifiers BoundedCache SignedMessages.
From Stdlib Require Import Ascii.
Import Json Identifiers CanonicalJson.
Local Open Scope string_scope.

(** A General JWE as its members; an X25519 ephemeral key is its coordinate. *)
Record RecipientEntry := mkEntry { encrypted_key : string; entry_epk : option string }.

Record SealedBodyRepresentation := mkSealed {
  ciphertext : string;
  iv : string;
  protected : string;
  recipients : list RecipientEntry;
  tag : string;
}.

(** [GeneralEncrypt] (over its randomness, the plaintext, the protected
    header members and the added recipients) and [generalDecrypt] of jose
    under the algorithms this module fixes, [importJWK] of an X25519 key, and
    [ed25519.utils.toMontgomery] of noble-curves. *)
Class JoseEncryption := {
  AgreementKey : Type;
  OpeningKey : Type;
  toMontgomery : string -> option string;
  importX25519 : string -> option AgreementKey;
  generalEncrypt : string -> string -> list (string * JsonValue) -> list AgreementKey ->
    option SealedBodyRepresentation;
  generalDecrypt : SealedBodyRepresentation -> OpeningKey -> option string;
}.

Module SealedBody.
Import AgentKey Wire.

(** ** [JSON.stringify] of strings, arrays and objects *)

Definition hexDigitOf (n : Z) : ascii :=
  ascii_of_N (Z.to_N (if decide (n < 10)%Z then n + 48 else n + 87)).

Definition escaped (c : ascii) : string :=
  let n := code c in
  if decide (n = 34)%Z then String "\" (String "034" EmptyString)
  else if decide (n = 92)%Z then "\\"
  else if decide (n = 8)%Z then "\b"
  else if decide (n = 9)%Z then "\t"
  else if decide (n = 10)%Z then "\n"
  else if decide (n = 12)%Z then "\f"
  else if decide (n = 13)%Z then "\r"
  else if decide (n < 32)%Z then
    "\u00" ++ String (hexDigitOf (n / 16)) (String (hexDigitOf (n mod 16)) EmptyString)
  else String c EmptyString.

Fixpoint escapedText (s : string) : string :=
  match s with EmptyString => EmptyString | String c s' => escaped c ++ escapedText s' end.

Definition quoted (s : string) : string :=
  String "034" (escapedText s ++ String "034" EmptyString).

Fixpoint separated (texts : list string) : string :=
  match texts with
  | [] => ""
  | [text] => text
  | text :: rest => text ++ "," ++ separated rest
  end.

(** [None] for the values this module never stringifies: numbers, and text
    that is not well-formed. *)
Fixpoint stringify (v : JsonValue) : option string :=
  match v with
  | JNull => Some "null"
  | JBool b => Some (if b then "true" else "false")
  | JNumber _ => None
  | JString s => if hasWellFormedUnicode s then Some (quoted s) else None
  | JArray values =>
      texts ← mapM stringify values;
      Some ("[" ++ separated texts ++ "]")
  | JObject properties =>
      texts ← mapM (fun '(key, value) =>
        if hasWellFormedUnicode key
        then text ← stringify value; Some (quoted key ++ ":" ++ text)
        else None) properties;
      Some ("{" ++ separated texts ++ "}")
  end.

(** ** Agreement keys *)

Section keys.
Context `{Base64Url} `{JoseEncryption}.

Definition PUBLIC_KEY_CACHE_ENTRIES : nat := 1024.

(** [cachedPerPublicKey] over the cache's entries: the result and the entries
    it leaves.  A failed derivation keeps nothing. *)
Definition cachedPerPublicKey {A} (entries : list (string * A)) (x : string)
    (derive : string -> option A) : option A * list (string * A) :=
  match BoundedCache.get entries x with
  | (Some cached, entries') => (Some cached, entries')
  | (None, entries') =>
      match derive x with
      | Some derived => (Some derived, BoundedCache.set PUBLIC_KEY_CACHE_ENTRIES entries' x derived)
      | None => (None, entries')
      end
  end.

(** [x25519PublicJwk]: the [x] of the agent's X25519 key. *)
Definition x25519PublicJwk (x : string) : option string :=
  bytes ← decodeBase64Url x;
  encodeBase64Url <$> toMontgomery bytes.

Definition importAgreementKey (x : string) : option AgreementKey :=
  x25519PublicJwk x ≫= importX25519.

(** [x25519SealingKey] over its cache. *)
Definition x25519SealingKey (sealingKeys : list (string * AgreementKey)) (x : string) :
    option AgreementKey * list (string * AgreementKey) :=
  cachedPerPublicKey sealingKeys x importAgreementKey.

End keys.

(** ** The representation *)

Definition SEALED_BODY_KEY_MANAGEMENT_ALGORITHM : string := "ECDH-ES+A256KW".
Definition CONTENT_ENCRYPTION_ALGORITHM : string := "A256GCM".
Definition COMMITMENT_HEADER : string := "org.social-harness/commitment".
Definition MESSAGE_ID_HEADER : string := "org.social-harness/message-id".
Definition SENDER_HEADER : string := "org.social-harness/sender".
Definition COMMITMENT_BYTES : nat := 32.
Definition IV_BYTES : nat := 12.
Definition TAG_BYTES : nat := 16.
Definition WRAPPED_KEY_BYTES : nat := 40.
Definition X25519_PUBLIC_KEY_BYTES : nat := 32.
Definition SALT_BYTES : nat := 32.

Record ProtectedHeader := mkProtected {
  header_epk : option string;
  header_commitment : string;
  header_messageId : string;
  header_sender : string;
}.

Section sealed.
Context `{Base64Url} `{HostJson}.

Definition encodedBytes (byteLength : nat) (v : JsonValue) : option string :=
  filtered (fun value => hasCanonicalBase64UrlLength value byteLength) v.

Definition ephemeralPublicKey (v : JsonValue) : option string :=
  o ← exactStruct ["crv"; "kty"; "x"] v;
  _ ← keyword (literal "X25519") o "crv";
  _ ← keyword (literal "OKP") o "kty";
  keyword (encodedBytes X25519_PUBLIC_KEY_BYTES) o "x".

Definition epkJson (x : string) : JsonValue :=
  JObject [("x", JString x); ("crv", JString "X25519"); ("kty", JString "OKP")].

Definition decodeEntry (v : JsonValue) : option RecipientEntry :=
  o ← exactStruct ["encrypted_key"; "header"] v;
  key ← keyword (encodedBytes WRAPPED_KEY_BYTES) o "encrypted_key";
  header ← optionalKeyword (fun h =>
    o ← exactStruct ["epk"] h; keyword ephemeralPublicKey o "epk") o "header";
  Some (mkEntry key header).

Definition entryJson (entry : RecipientEntry) : JsonValue :=
  JObject (("encrypted_key", JString (encrypted_key entry)) ::
    match entry_epk entry with
    | None => []
    | Some x => [("header", JObject [("epk", epkJson x)])]
    end).

Definition sealedBodyRepresentation (v : JsonValue) : option SealedBodyRepresentation :=
  o ← exactStruct ["ciphertext"; "iv"; "protected"; "recipients"; "tag"] v;
  ciphertext ← keyword (filtered canonicalBase64Url) o "ciphertext";
  iv ← keyword (encodedBytes IV_BYTES) o "iv";
  protected ← keyword (filtered canonicalBase64Url) o "protected";
  recipients ← keyword (decodeArray decodeEntry) o "recipients";
  tag ← keyword (encodedBytes TAG_BYTES) o "tag";
  if bool_decide (1 <= length recipients <= SignedMessages.MAXIMUM_RECIPIENTS)%nat
  then Some (mkSealed ciphertext iv protected recipients tag)
  else None.

Definition representationJson (r : SealedBodyRepresentation) : JsonValue :=
  JObject [("ciphertext", JString (ciphertext r)); ("iv", JString (iv r));
    ("protected", JString (protected r)); ("recipients", JArray (entryJson <$> recipients r));
    ("tag", JString (tag r))].

Definition decodeHeader (v : JsonValue) : option ProtectedHeader :=
  o ← exactStruct ["alg"; "enc"; "epk"; COMMITMENT_HEADER; MESSAGE_ID_HEADER; SENDER_HEADER] v;
  _ ← keyword (literal SEALED_BODY_KEY_MANAGEMENT_ALGORITHM) o "alg";
  _ ← keyword (literal CONTENT_ENCRYPTION_ALGORITHM) o "enc";
  epk ← optionalKeyword ephemeralPublicKey o "epk";
  commitment ← keyword (encodedBytes COMMITMENT_BYTES) o COMMITMENT_HEADER;
  messageId ← keyword (filtered MessageId) o MESSAGE_ID_HEADER;
  sender ← keyword (filtered AgentId) o SENDER_HEADER;
  Some (mkProtected epk commitment messageId sender).

Definition protectedHeaderMembers (commitment messageId senderAgentId : string) :
    list (string * JsonValue) :=
  [("alg", JString SEALED_BODY_KEY_MANAGEMENT_ALGORITHM);
   ("enc", JString CONTENT_ENCRYPTION_ALGORITHM);
   (COMMITMENT_HEADER, JString commitment); (MESSAGE_ID_HEADER, JString messageId);
   (SENDER_HEADER, JString senderAgentId)].

Definition expectedHeaderText (header : ProtectedHeader) : option string :=
  stringify (JObject (protectedHeaderMembers (header_commitment header)
    (header_messageId header) (header_sender header) ++
    match header_epk header with None => [] | Some x => [("epk", epkJson x)] end)).

Definition decodeProtectedHeader (encodedHeader : string) : option ProtectedHeader :=
  bytes ← decodeBase64Url encodedHeader;
  headerText ← utf8Decode bytes;
  header ← (jsonParse headerText ≫= decodeHeader);
  expected ← expectedHeaderText header;
  if decide (encodeBase64Url expected = encodedHeader) then Some header else None.

(** *** Sizes *)

Definition zeros (length : nat) : string := String.concat "" (replicate length (String "000" "")).
Definition encoded (length : nat) : string := encodeBase64Url (zeros length).

Definition jsonBytes (v : JsonValue) : option Z :=
  Z.of_nat ∘ String.length <$> stringify v.

Definition placeholderEpk : JsonValue :=
  JObject [("kty", JString "OKP"); ("crv", JString "X25519");
    ("x", JString (encoded X25519_PUBLIC_KEY_BYTES))].

Definition placeholderHeader : list (string * JsonValue) :=
  protectedHeaderMembers (encoded COMMITMENT_BYTES) ("msg_" ++ encoded 16) ("agt_" ++ encoded 16).

Definition placeholder (protectedMembers : list (string * JsonValue))
    (recipients : list JsonValue) : option JsonValue :=
  text ← stringify (JObject protectedMembers);
  Some (JObject [("ciphertext", JString ""); ("iv", JString (encoded IV_BYTES));
    ("protected", JString (encodeBase64Url text)); ("recipients", JArray recipients);
    ("tag", JString (encoded TAG_BYTES))]).

Definition wrappedKey : string * JsonValue := ("encrypted_key", JString (encoded WRAPPED_KEY_BYTES)).

Definition SINGLE_RECIPIENT_FIXED_BYTES : option Z :=
  placeholder (placeholderHeader ++ [("epk", placeholderEpk)]) [JObject [wrappedKey]] ≫= jsonBytes.

Definition MULTIPLE_RECIPIENT_FIXED_BYTES : option Z :=
  (fun n => n - 1)%Z <$> (placeholder placeholderHeader [] ≫= jsonBytes).

Definition RECIPIENT_ENTRY_BYTES : option Z :=
  (fun n => n + 1)%Z <$>
    jsonBytes (JObject [wrappedKey; ("header", JObject [("epk", placeholderEpk)])]).

Definition isRecipientCount (recipientCount : Z) : bool :=
  bool_decide (1 <= recipientCount)%Z &&
  bool_decide (recipientCount <= Z.of_nat SignedMessages.MAXIMUM_RECIPIENTS)%Z.

Definition fixedByteLength (recipientCount : Z) : option Z :=
  if decide (recipientCount = 1)%Z then SINGLE_RECIPIENT_FIXED_BYTES
  else
    base ← MULTIPLE_RECIPIENT_FIXED_BYTES;
    entry ← RECIPIENT_ENTRY_BYTES;
    Some (base + entry * recipientCount)%Z.

Definition base64UrlLength (byteLength : Z) : Z :=
  let remainder := (byteLength mod 3)%Z in
  (byteLength + (byteLength - remainder) / 3 + if decide (remainder = 0) then 0 else 1)%Z.

Definition MAX_SAFE_INTEGER : Z := 9007199254740991.
Definition isSafeInteger (n : Z) : bool := bool_decide (Z.abs n <= MAX_SAFE_INTEGER)%Z.

Definition sealedByteLength (plaintextByteLength recipientCount : Z) : option Z :=
  if negb (isRecipientCount recipientCount) || negb (isSafeInteger plaintextByteLength) ||
     bool_decide (plaintextByteLength < 0)%Z
  then None
  else
    fixed ← fixedByteLength recipientCount;
    let byteLength := (base64UrlLength (plaintextByteLength + Z.of_nat SALT_BYTES) + fixed)%Z in
    if isSafeInteger byteLength then Some byteLength else None.

Definition maximumPlaintextByteLength (recipientCount : Z) : option Z :=
  if negb (isRecipientCount recipientCount) then None
  else
    fixed ← fixedByteLength recipientCount;
    let ciphertextBudget := (SignedMessages.MAXIMUM_BODY_BYTES - fixed)%Z in
    Some (3 * ciphertextBudget / 4 - Z.of_nat SALT_BYTES)%Z.

(** *** Sealing *)

Context `{Sha256} `{JoseEncryption}.

Definition commitmentOf (saltedPlaintext : string) : string :=
  encodeBase64Url (sha256 saltedPlaintext).

(** The members sealing and opening read of an AgentCard. *)
Record CardMembers := mkCardMembers { cm_agentId : string; cm_publicKey : string }.

Definition cardMembers (card : AgentCards.AgentCard) : CardMembers :=
  mkCardMembers (AgentCards.agentId card) (AgentCards.publicKey card).

Definition cardNotAfter (left right : CardMembers) : Prop :=
  SignedMessages.notAfter (cm_agentId left) (cm_agentId right).
Global Instance cardNotAfter_dec left right : Decision (cardNotAfter left right).
Proof. unfold cardNotAfter, SignedMessages.notAfter. apply _. Defined.

Definition snapshotRecipients (recipientAgentCards : list AgentCards.AgentCard) :
    option (list CardMembers) :=
  let recipients := cardMembers <$> recipientAgentCards in
  if negb (isRecipientCount (Z.of_nat (length recipients))) ||
     negb (bool_decide (length (remove_dups (cm_agentId <$> recipients)) = length recipients))
  then None
  else Some (merge_sort cardNotAfter recipients).

Record SealInput := mkSealInput {
  senderAgentId : string;
  recipientAgentCards : list AgentCards.AgentCard;
  messageId : string;
  plaintext : string;
}.

(** [seal], with the random salt and jose's randomness.  The sealing keys are
    read through their cache, which changes no result
    ([x25519SealingKey_cached]). *)
Definition seal (salt entropy : string) (sealing : SealInput) : option string :=
  recipients ← snapshotRecipients (recipientAgentCards sealing);
  let saltedPlaintext := salt ++ plaintext sealing in
  let commitment := commitmentOf saltedPlaintext in
  recipientKeys ← mapM (fun recipient => importAgreementKey (cm_publicKey recipient)) recipients;
  representation ← generalEncrypt entropy saltedPlaintext
    (protectedHeaderMembers commitment (messageId sealing) (senderAgentId sealing)) recipientKeys;
  CanonicalJson.encodeCanonicalJson (representationJson representation).

(** *** Opening *)

(** [AgentSigningAuthority], as opening reads it. *)
Record OpeningAuthority := mkAuthority { au_publicKey : string; openingKey : OpeningKey }.

Definition authorityCard (agentCard : AgentCards.AgentCard) (authority : OpeningAuthority) :
    option CardMembers :=
  let card := cardMembers agentCard in
  if decide (au_publicKey authority = cm_publicKey card) then Some card else None.

Definition localRecipientEntry (representation : SealedBodyRepresentation)
    (header : ProtectedHeader) (recipientAgentIds : list string) (agentId : string) :
    option RecipientEntry :=
  let recipients := recipients representation in
  let single := bool_decide (length recipients = 1)%nat in
  let validPlacement :=
    Bool.eqb (bool_decide (is_Some (header_epk header))) single &&
    forallb (fun recipient => Bool.eqb (bool_decide (entry_epk recipient = None)) single) recipients in
  entry ← ('(index, _) ← list_find (eq agentId) recipientAgentIds; recipients !! index);
  if bool_decide (length recipients = length recipientAgentIds) && validPlacement
  then Some entry else None.

Definition open (agentCard : AgentCards.AgentCard) (authority : OpeningAuthority)
    (signedMessage : SignedMessages.SignedMessage) : option string :=
  card ← authorityCard agentCard authority;
  representation ← (CanonicalJson.parseCanonicalJson (SignedMessages.body signedMessage) ≫=
    sealedBodyRepresentation);
  header ← decodeProtectedHeader (protected representation);
  entry ← localRecipientEntry representation header
    (SignedMessages.recipientAgentIds signedMessage) (cm_agentId card);
  if negb (bool_decide (header_sender header = SignedMessages.senderAgentId signedMessage)) ||
     negb (bool_decide (header_messageId header = SignedMessages.messageId signedMessage))
  then None
  else
    decrypted ← generalDecrypt (mkSealed (ciphertext representation) (iv representation)
      (protected representation) [entry] (tag representation))
      (openingKey authority);
    let commitment := commitmentOf decrypted in
    if bool_decide (String.length decrypted < SALT_BYTES)%nat ||
       negb (bool_decide (commitment = header_commitment header))
    then None
    else Some (slice SALT_BYTES decrypted).

End sealed.
End SealedBody.
