(* ===== verification/SealedBodyLaws.v ===== *)
(** SealedBodyLaws: what sealing and opening rely on of base64url, JSON, RFC
    8785 and RFC 7516, as classes, and the concrete host that has it.

    SealedBodySizes: the size arithmetic of sealed bodies, its agreement with
    the bodies that sealing produces, and what opening establishes
    (packages/identity/src/sealed-body.ts). *)
From Stdlib Require Import Ascii.
From S2P Require Import Prelude JsMap JsString Identifiers BoundedCache Json SignedMessages Hosts.
From S2P Require Import SealedBody.

Module SealedBodySizes.
Import Json Identifiers CanonicalJson SealedBody.
Local Open Scope string_scope.

(** ** Sizes of texts *)

(** A character [JSON.stringify] writes as itself. *)
Definition plainChar (c : ascii) : bool :=
  let n := code c in
  bool_decide (32 <= n < 127)%Z && negb (bool_decide (n = 34)%Z) && negb (bool_decide (n = 92)%Z).

Definition plain (s : string) : bool := string_all plainChar s.

Fixpoint plainJson (v : JsonValue) : bool :=
  match v with
  | JNull | JBool _ => true
  | JNumber _ => false
  | JString s => plain s
  | JArray values => forallb plainJson values
  | JObject properties => forallb (fun '(key, value) => plain key && plainJson value) properties
  end.

Definition size (s : string) : Z := Z.of_nat (String.length s).

(** Commas between [n] texts. *)
Definition commaCount (n : nat) : Z := Z.of_nat (Nat.pred n).

Fixpoint textLength (v : JsonValue) : Z :=
  match v with
  | JNull => 4
  | JBool b => if b then 4 else 5
  | JNumber _ => 0
  | JString s => size s + 2
  | JArray values => 2 + zsum id (map textLength values) + commaCount (length values)
  | JObject properties =>
      2 + zsum id (map (fun '(key, value) => size key + 3 + textLength value)%Z properties) +
        commaCount (length properties)
  end%Z.

Lemma size_app s t : size (s ++ t) = (size s + size t)%Z.
Proof. unfold size. induction s as [|c s IH]; simpl; [done|]. rewrite !Nat2Z.inj_succ. lia. Qed.

Lemma escaped_plain c : plainChar c = true -> escaped c = String c EmptyString.
Proof.
  unfold plainChar, escaped. intros [[H1 H2]%andb_true_iff H3]%andb_true_iff.
  apply bool_decide_eq_true in H1. apply negb_true_iff, bool_decide_eq_false in H2, H3.
  cbv zeta. rewrite !decide_False by lia. done.
Qed.

Lemma escapedText_plain s : plain s = true -> escapedText s = s.
Proof.
  unfold plain. induction s as [|c s IH]; simpl; [done|].
  intros [Hc Hs]%andb_true_iff. by rewrite escaped_plain, IH.
Qed.

Lemma plain_wellFormed s : plain s = true -> hasWellFormedUnicode s = true.
Proof.
  unfold plain. induction s as [|c s IH]; simpl; [done|].
  intros [Hc Hs]%andb_true_iff. destruct s as [|d s]; [done|].
  rewrite IH by done. rewrite andb_true_r, negb_true_iff, andb_false_iff. left.
  unfold plainChar, code in Hc. apply andb_true_iff in Hc as [[Hc _]%andb_true_iff _].
  apply bool_decide_eq_true in Hc. apply N.eqb_neq. lia.
Qed.

Lemma size_quoted s : plain s = true -> size (quoted s) = (size s + 2)%Z.
Proof.
  intros Hp. unfold quoted. rewrite escapedText_plain by done.
  change (String "034" (s ++ String "034" EmptyString)) with
    (String "034" EmptyString ++ (s ++ String "034" EmptyString)).
  rewrite !size_app. unfold size; simpl; lia.
Qed.

Lemma size_separated texts :
  size (separated texts) = (zsum id (map size texts) + commaCount (length texts))%Z.
Proof.
  unfold commaCount. induction texts as [|t [|u texts] IH]; [done| |].
  - simpl. rewrite zsum_cons, zsum_nil. unfold id; lia.
  - change (separated (t :: u :: texts)) with (t ++ "," ++ separated (u :: texts)).
    rewrite !size_app, IH. cbn [map length]. rewrite !zsum_cons.
    unfold id; change (size ",") with 1%Z. simpl Nat.pred. lia.
Qed.

(** Induction on a value and the values in it. *)
Lemma JsonValue_nested_ind (P : JsonValue -> Prop) :
  P JNull -> (forall b, P (JBool b)) -> (forall n, P (JNumber n)) -> (forall s, P (JString s)) ->
  (forall values, Forall P values -> P (JArray values)) ->
  (forall properties, Forall (fun p => P p.2) properties -> P (JObject properties)) ->
  forall v, P v.
Proof.
  intros Hn Hb Hq Hs Ha Ho. fix IH 1. intros [|b|n|s|values|properties];
    [exact Hn|apply Hb|apply Hq|apply Hs| |].
  - apply Ha. induction values as [|v l IHl]; constructor; [apply IH|done].
  - apply Ho. induction properties as [|[k v] l IHl]; constructor; [apply IH|done].
Qed.

(** A plain value's text and its length. *)
Lemma stringify_length v :
  plainJson v = true -> exists text, stringify v = Some text /\ size text = textLength v.
Proof.
  induction v as [|b| |s|values IH|properties IH] using JsonValue_nested_ind; simpl; intros Hp;
    try done.
  - by eexists.
  - destruct b; by eexists.
  - rewrite plain_wellFormed by done. eexists; split; [done|]. by apply size_quoted.
  - assert (exists texts, mapM stringify values = Some texts /\ map size texts = map textLength values)
      as (texts & Hm & Hl).
    { induction IH as [|v l Hv Hl IHl]; simpl in *; [by exists []|].
      apply andb_true_iff in Hp as [Hpv Hpl].
      destruct (Hv Hpv) as (t & -> & Ht). destruct (IHl Hpl) as (ts & -> & Hts).
      exists (t :: ts). simpl. by rewrite Ht, Hts. }
    rewrite Hm. eexists; split; [done|]. rewrite !size_app, size_separated, Hl.
    replace (length texts) with (length values); [change (size "[") with 1%Z;
      change (size "]") with 1%Z; lia|].
    apply (f_equal length) in Hl. by rewrite !length_map in Hl.
  - set (f := fun '(key, value) => _).
    assert (exists texts, mapM f properties = Some texts /\
      map size texts = map (fun '(key, value) => size key + 3 + textLength value)%Z properties)
      as (texts & Hm & Hl).
    { induction IH as [|[k v] l Hv Hl IHl]; simpl in *; [by exists []|].
      apply andb_true_iff in Hp as [[Hpk Hpv]%andb_true_iff Hpl].
      rewrite plain_wellFormed by done.
      destruct (Hv Hpv) as (t & -> & Ht). destruct (IHl Hpl) as (ts & -> & Hts).
      eexists (_ :: ts). simpl. split; [done|].
      rewrite Hts, !size_app, size_quoted, Ht by done. f_equal.
      change (size ":") with 1%Z. lia. }
    rewrite Hm. eexists; split; [done|]. rewrite !size_app, size_separated, Hl.
    replace (length texts) with (length properties); [change (size "{") with 1%Z;
      change (size "}") with 1%Z; lia|].
    apply (f_equal length) in Hl. by rewrite !length_map in Hl.
Qed.

(** Evaluates the sizes of literal texts. *)
Ltac closed_sizes := repeat match goal with
  | |- context [size ?s] => let n := eval vm_compute in (size s) in
      match n with Z0 => idtac | Zpos _ => idtac end; change (size s) with n
  | |- context [commaCount ?k] => let n := eval vm_compute in (commaCount k) in
      match n with Z0 => idtac | Zpos _ => idtac end; change (commaCount k) with n
  end.

(** ** The size constants *)

(** Documented of base64url: its length, and its alphabet. *)
Class Base64UrlText (B : Base64Url) : Prop := {
  encode_length : forall bytes, size (encodeBase64Url bytes) = base64UrlLength (size bytes);
  encode_alphabet : forall bytes,
    string_all (fun c => bool_decide (is_Some (Wire.base64UrlIndex c))) (encodeBase64Url bytes) = true;
}.

Lemma base64_plain c : is_Some (Wire.base64UrlIndex c) -> plainChar c = true.
Proof.
  unfold Wire.base64UrlIndex, plainChar. intros [i Hi]. repeat case_decide; simplify_eq;
    rewrite bool_decide_eq_true_2, !bool_decide_eq_false_2 by lia; done.
Qed.

Section sizes.
Context `{B : Base64Url} `{!Base64UrlText B}.

Lemma encode_plain bytes : plain (encodeBase64Url bytes) = true.
Proof.
  pose proof (encode_alphabet bytes) as Ha. unfold plain.
  induction (encodeBase64Url bytes) as [|c s IH]; simpl in *; [done|].
  apply andb_true_iff in Ha as [Hc Hs]. apply bool_decide_eq_true in Hc.
  by rewrite base64_plain, IH.
Qed.

Lemma size_zeros n : size (zeros n) = Z.of_nat n.
Proof.
  unfold zeros. induction n as [|n IH]; [done|].
  assert (Hc : forall l, String.concat "" (String "000" "" :: l) = String "000" "" ++ String.concat "" l)
    by (by intros [|? ?]).
  cbn [replicate]. rewrite Hc, size_app, IH. change (size (String "000" "")) with 1%Z. lia.
Qed.

Lemma size_encoded n : size (encoded n) = base64UrlLength (Z.of_nat n).
Proof. unfold encoded. by rewrite encode_length, size_zeros. Qed.

Lemma plain_encoded n : plain (encoded n) = true.
Proof. apply encode_plain. Qed.

Lemma plain_app s t : plain (s ++ t) = plain s && plain t.
Proof. unfold plain. induction s; simpl; [done|]. by rewrite IHs, andb_assoc. Qed.

Lemma jsonBytes_plain v : plainJson v = true -> jsonBytes v = Some (textLength v).
Proof.
  intros Hp. unfold jsonBytes. destruct (stringify_length v Hp) as (t & -> & Ht). simpl.
  by rewrite <- Ht.
Qed.

(** The text of a protected header, and of the members around it. *)
Lemma header_size commitment messageId sender :
  textLength (JObject (protectedHeaderMembers commitment messageId sender)) =
    (size commitment + size messageId + size sender + 141)%Z.
Proof. cbn. rewrite !zsum_cons, zsum_nil. closed_sizes. unfold id. lia. Qed.

Lemma header_epk_size commitment messageId sender name x :
  name = [("kty", JString "OKP"); ("crv", JString "X25519"); ("x", JString x)] \/
  name = [("x", JString x); ("crv", JString "X25519"); ("kty", JString "OKP")] ->
  textLength (JObject (protectedHeaderMembers commitment messageId sender ++
    [("epk", JObject name)])) =
    (size commitment + size messageId + size sender + size x + 183)%Z.
Proof. intros [-> | ->]; cbn; rewrite !zsum_cons, !zsum_nil; closed_sizes; unfold id; lia. Qed.

Lemma entry_size key x :
  textLength (entryJson (mkEntry key x)) =
    (size key + 20 + match x with None => 0 | Some x => size x + 53 end)%Z.
Proof. destruct x; cbn; rewrite !zsum_cons, !zsum_nil; closed_sizes; unfold id; lia. Qed.

Lemma representation_size r :
  textLength (representationJson r) =
    (size (ciphertext r) + size (iv r) + size (protected r) + size (tag r) +
     zsum (textLength ∘ entryJson) (recipients r) + commaCount (length (recipients r)) + 65)%Z.
Proof.
  cbn. rewrite !zsum_cons, zsum_nil, length_fmap.
  assert (Hr : forall l, zsum id (map textLength (entryJson <$> l)) = zsum (textLength ∘ entryJson) l).
  { intros l. induction l as [|e l IH]; [done|]. cbn. rewrite !zsum_cons. unfold id. cbn. f_equal. exact IH. }
  rewrite Hr. closed_sizes. unfold id. lia.
Qed.

(** *** The fixed parts *)

Lemma placeholder_jsonBytes members entries text :
  stringify (JObject members) = Some text ->
  forallb plainJson (entryJson <$> entries) = true ->
  placeholder members (entryJson <$> entries) ≫= jsonBytes =
    Some (38 + base64UrlLength (size text) + zsum (textLength ∘ entryJson) entries +
          commaCount (length entries) + 65)%Z.
Proof.
  intros Ht He. unfold placeholder. rewrite Ht. simpl mbind.
  set (r := mkSealed "" (encoded IV_BYTES) (encodeBase64Url text) entries (encoded TAG_BYTES)).
  change (jsonBytes (representationJson r) = Some (38 + base64UrlLength (size text) +
    zsum (textLength ∘ entryJson) entries + commaCount (length entries) + 65)%Z).
  rewrite jsonBytes_plain, representation_size; simpl.
  - rewrite !size_encoded, encode_length. f_equal.
    change (base64UrlLength (Z.of_nat IV_BYTES)) with 16%Z.
    change (base64UrlLength (Z.of_nat TAG_BYTES)) with 22%Z. closed_sizes. lia.
  - by rewrite !plain_encoded, encode_plain, He.
Qed.

Lemma placeholder_ids :
  plain ("msg_" ++ encoded 16) = true /\ plain ("agt_" ++ encoded 16) = true /\
  size ("msg_" ++ encoded 16) = 26%Z /\ size ("agt_" ++ encoded 16) = 26%Z.
Proof. rewrite !plain_app, !plain_encoded, !size_app, !size_encoded. by split_and!. Qed.

Lemma single_fixed : SINGLE_RECIPIENT_FIXED_BYTES = Some 605%Z.
Proof.
  destruct placeholder_ids as (Hp1 & Hp2 & Hs1 & Hs2). unfold SINGLE_RECIPIENT_FIXED_BYTES.
  destruct (stringify_length (JObject (placeholderHeader ++ [("epk", placeholderEpk)])))
    as (text & Ht & Hsize).
  { cbn -[String.append encoded]. by rewrite !plain_encoded, Hp1, Hp2. }
  unfold placeholderHeader, placeholderEpk in Hsize.
  rewrite header_epk_size with (x := encoded X25519_PUBLIC_KEY_BYTES) in Hsize by auto.
  rewrite Hs1, Hs2, !size_encoded in Hsize.
  change [JObject [wrappedKey]] with (entryJson <$> [mkEntry (encoded WRAPPED_KEY_BYTES) None]).
  rewrite placeholder_jsonBytes with (text := text); [|done|by cbn; rewrite plain_encoded].
  rewrite Hsize, zsum_cons, zsum_nil.
  replace ((textLength ∘ entryJson) (mkEntry (encoded WRAPPED_KEY_BYTES) None))
    with (size (encoded WRAPPED_KEY_BYTES) + 20 + 0)%Z by (symmetry; apply (entry_size _ None)).
  rewrite size_encoded. by vm_compute.
Qed.

Lemma multiple_fixed : MULTIPLE_RECIPIENT_FIXED_BYTES = Some 417%Z.
Proof.
  destruct placeholder_ids as (Hp1 & Hp2 & Hs1 & Hs2). unfold MULTIPLE_RECIPIENT_FIXED_BYTES.
  destruct (stringify_length (JObject placeholderHeader)) as (text & Ht & Hsize).
  { cbn -[String.append encoded]. by rewrite !plain_encoded, Hp1, Hp2. }
  unfold placeholderHeader in Hsize. rewrite header_size, Hs1, Hs2, !size_encoded in Hsize.
  change (@nil JsonValue) with (entryJson <$> []).
  rewrite placeholder_jsonBytes with (text := text) by done.
  rewrite Hsize. by vm_compute.
Qed.

Lemma entry_fixed : RECIPIENT_ENTRY_BYTES = Some 171%Z.
Proof.
  unfold RECIPIENT_ENTRY_BYTES. rewrite jsonBytes_plain by (by cbn; rewrite !plain_encoded).
  cbn. rewrite !zsum_cons, !zsum_nil, !size_encoded. by vm_compute.
Qed.

Lemma fixedByteLength_value recipientCount :
  fixedByteLength recipientCount =
    Some (if decide (recipientCount = 1) then 605 else 417 + 171 * recipientCount)%Z.
Proof.
  unfold fixedByteLength. rewrite single_fixed, multiple_fixed, entry_fixed.
  by case_decide.
Qed.

(** *** The largest plaintext *)

Lemma base64UrlLength_le n budget :
  (base64UrlLength n <= budget <-> n <= 3 * budget / 4)%Z.
Proof. unfold base64UrlLength. case_decide; Z.div_mod_to_equations; lia. Qed.

Lemma sealedByteLength_some n k sealed :
  sealedByteLength n k = Some sealed ->
  (1 <= k <= 128)%Z /\ (0 <= n)%Z /\
  sealed = (base64UrlLength (n + 32) + if decide (k = 1) then 605 else 417 + 171 * k)%Z.
Proof.
  unfold sealedByteLength, isRecipientCount. rewrite fixedByteLength_value. simpl.
  destruct (_ || _) eqn:Hb; [done|].
  apply orb_false_iff in Hb as [[Hc _]%orb_false_iff Hn].
  apply negb_false_iff, andb_true_iff in Hc as [H1 H2].
  apply bool_decide_eq_true in H1, H2. apply bool_decide_eq_false in Hn.
  destruct (isSafeInteger _); [|done]. intros [= <-].
  change (Z.of_nat SignedMessages.MAXIMUM_RECIPIENTS) with 128%Z in H2.
  split_and!; [lia|lia|lia|done].
Qed.

End sizes.
End SealedBodySizes.

Module SealedBodyLaws.
Import Json Identifiers CanonicalJson SealedBody SealedBodySizes.
Local Open Scope string_scope.

(** The text of a plain value. *)
Fixpoint plainText (v : JsonValue) : string :=
  match v with
  | JNull => "null"
  | JBool b => if b then "true" else "false"
  | JNumber _ => ""
  | JString s => quoted s
  | JArray values => "[" ++ separated (map plainText values) ++ "]"
  | JObject properties =>
      "{" ++ separated (map (fun '(key, value) => quoted key ++ ":" ++ plainText value) properties)
        ++ "}"
  end.

Lemma stringify_plain v : plainJson v = true -> stringify v = Some (plainText v).
Proof.
  induction v as [|b| |s|values IH|properties IH] using JsonValue_nested_ind; simpl; intros Hp;
    try done.
  - by rewrite plain_wellFormed.
  - assert (mapM stringify values = Some (map plainText values)) as ->; [|done].
    induction IH as [|v l Hv Hl IHl]; simpl in *; [done|].
    apply andb_true_iff in Hp as [Hpv Hpl]. by rewrite Hv, IHl.
  - set (f := fun '(key, value) => _). set (g := fun '(key, value) => _).
    assert (mapM f properties = Some (map g properties)) as ->; [|done].
    induction IH as [|[k v] l Hv Hl IHl]; simpl in *; [done|].
    apply andb_true_iff in Hp as [[Hpk Hpv]%andb_true_iff Hpl].
    by rewrite plain_wellFormed, Hv, IHl.
Qed.

(** A sealed body's members in RFC 8785 order. *)
Definition sortedEpk (x : string) : JsonValue :=
  JObject [("crv", JString "X25519"); ("kty", JString "OKP"); ("x", JString x)].

Definition sortedEntry (entry : RecipientEntry) : JsonValue :=
  JObject (("encrypted_key", JString (encrypted_key entry)) ::
    match entry_epk entry with
    | None => []
    | Some x => [("header", JObject [("epk", sortedEpk x)])]
    end).

Definition sortedRepresentation (r : SealedBodyRepresentation) : JsonValue :=
  JObject [("ciphertext", JString (ciphertext r)); ("iv", JString (iv r));
    ("protected", JString (protected r)); ("recipients", JArray (sortedEntry <$> recipients r));
    ("tag", JString (tag r))].

(** Documented of [JSON.parse], the text codec and canonicalize on these
    values: parsing inverts printing, and a canonical form is its text with
    sorted members. *)
Class HostJsonText (B : Base64Url) (J : HostJson) : Prop := {
  text_read : forall v, plainJson v = true ->
    utf8Decode (plainText v) = Some (plainText v) /\ jsonParse (plainText v) = Some v;
  canonical_text : forall r, plainJson (representationJson r) = true ->
    canonicalize (representationJson r) = Some (plainText (sortedRepresentation r)) /\
    canonicalize (sortedRepresentation r) = Some (plainText (sortedRepresentation r));
}.

(** Documented of a JWE: the lengths of its members, the header it
    authenticates, and that a recipient's own key opens it. *)
Definition isEncoded `{Base64Url} (byteLength : Z) (s : string) : Prop :=
  exists bytes, s = encodeBase64Url bytes /\ size bytes = byteLength.

Class JoseEncryptionLaws (B : Base64Url) (E : JoseEncryption)
    (agrees : AgreementKey -> OpeningKey -> Prop) : Prop := {
  encrypted_layout : forall entropy text members keys r,
    generalEncrypt entropy text members keys = Some r ->
    length (recipients r) = length keys /\
    isEncoded (size text) (ciphertext r) /\ isEncoded 12 (iv r) /\ isEncoded 16 (tag r) /\
    Forall (fun e => isEncoded 40 (encrypted_key e)) (recipients r) /\
    match recipients r with
    | [e] => entry_epk e = None /\ exists x, isEncoded 32 x /\
        protected r = encodeBase64Url (plainText (JObject (members ++ [("epk", epkJson x)])))
    | es => Forall (fun e => exists x, entry_epk e = Some x /\ isEncoded 32 x) es /\
        protected r = encodeBase64Url (plainText (JObject members))
    end;
  encrypted_opens : forall entropy text members keys r index key entry opening,
    generalEncrypt entropy text members keys = Some r ->
    keys !! index = Some key -> recipients r !! index = Some entry -> agrees key opening ->
    generalDecrypt (mkSealed (ciphertext r) (iv r) (protected r) [entry] (tag r)) opening =
      Some text;
}.

Class Sha256Length (H : Sha256) : Prop := { sha256_size : forall bytes, size (sha256 bytes) = 32%Z }.

(** ** The concrete host *)

#[local] Existing Instance Hosts.base64url.
#[local] Existing Instance Hosts.json.
#[local] Existing Instance Hosts.digest.

Lemma hosts_text : Base64UrlText Hosts.base64url.
Proof.
  split.
  - intros bytes. change (size (Hosts.encode64 bytes) = base64UrlLength (size bytes)).
    revert bytes. fix IH 1. intros [|a [|b [|c rest]]]; [done|done|done|].
    assert (Hs : forall d t, size (String d t) = (1 + size t)%Z) by (intros; unfold size; simpl; lia).
    cbn [Hosts.encode64]. rewrite !Hs, IH. unfold base64UrlLength.
    do 2 case_decide; Z.div_mod_to_equations; lia.
  - intros bytes. change (string_all (fun c => bool_decide (is_Some (Wire.base64UrlIndex c)))
      (Hosts.encode64 bytes) = true).
    assert (Hi : forall n, (0 <= n < 64)%Z ->
      bool_decide (is_Some (Wire.base64UrlIndex (Hosts.sextet n))) = true).
    { intros n Hn. rewrite Hosts.index_sextet by done. by apply bool_decide_eq_true. }
    revert bytes. fix IH 1. intros [|a [|b [|c rest]]]; [done| | |];
      pose proof (Hosts.code_range a); try pose proof (Hosts.code_range b);
      try pose proof (Hosts.code_range c); cbn [Hosts.encode64 string_all];
      rewrite !Hi by (Z.div_mod_to_equations; lia); [done|done|].
    by rewrite IH.
Qed.

Lemma hosts_sha256 : Sha256Length Hosts.digest.
Proof.
  split. intros bytes. change (size (Hosts.bytesOf 32 (Hosts.polynomial 7 bytes)) = 32%Z).
  assert (Hb : forall n v, size (Hosts.bytesOf n v) = Z.of_nat n).
  { induction n as [|n IH]; intros v; [done|]. cbn [Hosts.bytesOf].
    specialize (IH (v / 256)%Z). unfold size in *. simpl String.length. lia. }
  apply Hb.
Qed.

Lemma parseString_quoted s rest :
  plain s = true -> Hosts.parseString (s ++ String "034" rest) = Some (s, rest).
Proof.
  unfold plain. induction s as [|c s IH]; [done|].
  cbn [string_all]. intros [Hc Hs]%andb_true_iff.
  unfold plainChar in Hc. apply andb_true_iff in Hc as [[_ H34]%andb_true_iff H92].
  apply negb_true_iff, bool_decide_eq_false in H34, H92.
  change (String c s ++ String "034" rest) with (String c (s ++ String "034" rest)).
  cbn [Hosts.parseString].
  destruct (Ascii.eqb_spec c Hosts.quote) as [->|]; [done|].
  destruct (Ascii.eqb_spec c Hosts.backslash) as [->|]; [done|]. by rewrite IH.
Qed.

Lemma append_nothing s : s ++ "" = s.
Proof. induction s as [|c s IH]; [done|]. change (String c (s ++ "") = String c s). by rewrite IH. Qed.

Lemma string_length_app s t : String.length (s ++ t) = (String.length s + String.length t)%nat.
Proof. pose proof (size_app s t). unfold size in *. lia. Qed.

Lemma string_app_assoc s t u : (s ++ t) ++ u = s ++ t ++ u.
Proof.
  induction s as [|c s IH]; [done|].
  change (String c ((s ++ t) ++ u) = String c (s ++ t ++ u)). by rewrite IH.
Qed.

Lemma separated_cons text texts rest :
  separated (text :: texts) ++ rest =
    text ++ match texts with [] => rest | _ => String "," (separated texts ++ rest) end.
Proof. destruct texts as [|u texts]; [done|]. change (separated (text :: u :: texts)) with
  (text ++ "," ++ separated (u :: texts)). by rewrite string_app_assoc. Qed.

Lemma separated_length text texts :
  String.length (separated (text :: texts)) =
    (String.length text + match texts with [] => 0 | _ => S (String.length (separated texts)) end)%nat.
Proof. destruct texts as [|u texts]; [simpl; lia|]. change (separated (text :: u :: texts)) with
  (text ++ "," ++ separated (u :: texts)). by rewrite !string_length_app. Qed.

Lemma quoted_plain s : plain s = true -> quoted s = String "034" (s ++ String "034" EmptyString).
Proof. intros Hp. unfold quoted. by rewrite escapedText_plain. Qed.

Lemma plainText_head v : plainJson v = true ->
  exists c text, plainText v = String c text /\ c <> "]"%char /\ c <> "}"%char.
Proof.
  destruct v as [|[]| |s|values|properties]; intros Hp; try done; eexists _, _; by split_and!.
Qed.

Lemma forallb_elem {A} (p : A -> bool) l x : forallb p l = true -> x ∈ l -> p x = true.
Proof.
  intros Hp Hx. induction Hx as [x l|x y l Hx IH]; cbn [forallb] in Hp;
    apply andb_true_iff in Hp as [Hy Hl]; auto.
Qed.

Definition parses (v : JsonValue) : Prop := forall fuel rest,
  (String.length (plainText v) <= fuel)%nat ->
  Hosts.parseValue fuel (plainText v ++ rest) = Some (v, rest).

Lemma parses_items values : values <> [] -> Forall parses values -> forall fuel rest,
  (S (String.length (separated (map plainText values))) <= fuel)%nat ->
  Hosts.parseItems fuel (separated (map plainText values) ++ String "]" rest) = Some (values, rest).
Proof.
  intros Hne Hall. induction Hall as [|v l Hv Hl IH]; [done|]. intros fuel rest Hf.
  cbn [map] in *. rewrite separated_length in Hf. rewrite separated_cons.
  destruct fuel as [|fuel]; [lia|]. cbn [Hosts.parseItems].
  destruct l as [|w l]; cbn [map] in *.
  - rewrite Hv by lia. done.
  - rewrite Hv by lia. cbn [mbind option_bind].
    rewrite IH by (done || lia). done.
Qed.

Definition memberText : string * JsonValue -> string :=
  fun '(key, value) => quoted key ++ ":" ++ plainText value.

Lemma parses_members properties : properties <> [] ->
  Forall (fun p => plain p.1 = true /\ parses p.2) properties -> forall fuel rest,
  (S (String.length (separated (map memberText properties))) <= fuel)%nat ->
  Hosts.parseMembers fuel (separated (map memberText properties) ++ String "}" rest) =
    Some (properties, rest).
Proof.
  intros Hne Hall. induction Hall as [|[k v] l [Hk Hv] Hl IH]; [done|]. intros fuel rest Hf.
  cbn [map fst snd] in *. rewrite separated_length in Hf. rewrite separated_cons.
  unfold memberText in Hf at 1. rewrite !string_length_app in Hf.
  unfold memberText at 1. rewrite quoted_plain by done. rewrite !string_app_assoc.
  destruct fuel as [|fuel]; [lia|].
  change (String "034" (k ++ String "034" EmptyString) ++ ?t) with
    (String "034" ((k ++ String "034" EmptyString) ++ t)).
  rewrite string_app_assoc. cbn [Hosts.parseMembers].
  change (Ascii.eqb "034" Hosts.quote) with true. cbv iota.
  change (String "034" EmptyString ++ ?t) with (String "034" t).
  rewrite parseString_quoted by done. cbn [mbind option_bind].
  change (":" ++ ?t) with (String ":" t). cbv iota beta.
  rewrite Hv by (simpl in Hf; lia). cbn [mbind option_bind].
  destruct l as [|w l]; [done|]. cbn [map] in *.
  by rewrite IH by (done || lia).
Qed.

Lemma stripPrefix_append p s : Hosts.stripPrefix p (p ++ s) = Some s.
Proof. unfold Hosts.stripPrefix. by rewrite startsWith_append, slice_append. Qed.

Lemma parseValue_members fuel s : (exists t, s = String "034" t) ->
  Hosts.parseValue (S fuel) (String "{" s) =
    ('(o, r) ← Hosts.parseMembers fuel s; Some (JObject o, r)).
Proof. by intros [t ->]. Qed.

Lemma members_head p l rest : exists t, separated (map memberText (p :: l)) ++ rest = String "034" t.
Proof. destruct p as [k v]. cbn [map]. rewrite separated_cons. by eexists. Qed.

Lemma parseValue_plain v : plainJson v = true -> parses v.
Proof.
  induction v as [|b| |s|values IH|properties IH] using JsonValue_nested_ind; intros Hp fuel rest Hf;
    try done; (destruct fuel as [|fuel]; [simpl in Hf; try destruct b; simpl in Hf; lia|]).
  - change ((r ← Hosts.stripPrefix "null" ("null" ++ rest); Some (JNull, r)) = Some (JNull, rest)).
    by rewrite stripPrefix_append.
  - destruct b.
    + change ((r ← Hosts.stripPrefix "true" ("true" ++ rest); Some (JBool true, r)) =
        Some (JBool true, rest)). by rewrite stripPrefix_append.
    + change ((r ← Hosts.stripPrefix "false" ("false" ++ rest); Some (JBool false, r)) =
        Some (JBool false, rest)). by rewrite stripPrefix_append.
  - cbn [plainText]. rewrite quoted_plain by done.
    change (String "034" (s ++ String "034" EmptyString) ++ rest) with
      (String "034" ((s ++ String "034" EmptyString) ++ rest)). rewrite string_app_assoc.
    cbn [Hosts.parseValue]. change (Ascii.eqb "034" Hosts.quote) with true. cbv iota.
    change (String "034" EmptyString ++ rest) with (String "034" rest).
    by rewrite parseString_quoted.
  - destruct values as [|v values]; [done|]. cbn [plainText] in *.
    rewrite !string_app_assoc. rewrite !string_length_app in Hf. cbn [String.length] in Hf.
    change ("]" ++ rest) with (String "]" rest).
    change ("[" ++ ?t) with (String "[" t).
    assert (Hi : Hosts.parseItems fuel (separated (map plainText (v :: values)) ++ String "]" rest) =
      Some (v :: values, rest)).
    { apply parses_items; [done| |lia].
      cbn [plainJson] in Hp. rewrite Forall_forall in IH |- *. intros w Hw.
      apply IH; [done|]. by apply (forallb_elem _ _ _ Hp). }
    cbn [Hosts.parseValue]. cbn [plainJson forallb] in Hp. apply andb_true_iff in Hp as [Hv _].
    destruct (plainText_head v Hv) as (c & t & Hc & Hne & _).
    cbn [map] in *. rewrite separated_cons, Hc in *. cbn [String.append] in *.
    destruct c as [[] [] [] [] [] [] [] []]; try (by rewrite Hi); done.
  - destruct properties as [|[k v] properties]; [done|]. cbn [plainText] in *.
    rewrite !string_app_assoc. rewrite !string_length_app in Hf. cbn [String.length] in Hf.
    change (Hosts.parseValue (S fuel) (String "{" (separated (map memberText ((k, v) :: properties))
      ++ String "}" rest)) = Some (JObject ((k, v) :: properties), rest)).
    assert (Hi : Hosts.parseMembers fuel
      (separated (map memberText ((k, v) :: properties)) ++ String "}" rest) =
      Some ((k, v) :: properties, rest)).
    { apply parses_members; [done| |unfold memberText; lia].
      cbn [plainJson] in Hp. rewrite Forall_forall in IH |- *. intros [k' w] Hw.
      apply (forallb_elem _ _ _ Hp) in Hw as Hp'.
      apply andb_true_iff in Hp' as [Hk Hw']. split; [done|]. by apply (IH _ Hw). }
    rewrite parseValue_members by apply members_head.
    by rewrite Hi.
Qed.

Lemma commas_separated texts : Hosts.commas texts = separated texts.
Proof.
  unfold Hosts.commas. induction texts as [|t [|u texts] IH]; [done|done|].
  change (t ++ "," ++ String.concat "," (u :: texts) = t ++ "," ++ separated (u :: texts)).
  by rewrite IH.
Qed.

Lemma printString_plain s : plain s = true -> String Hosts.quote (Hosts.printString s) = quoted s.
Proof.
  intros Hp. rewrite quoted_plain by done. f_equal. unfold plain in Hp.
  induction s as [|c s IH]; [done|]. cbn [string_all] in Hp. apply andb_true_iff in Hp as [Hc Hs].
  unfold plainChar in Hc. apply andb_true_iff in Hc as [[_ H34]%andb_true_iff H92].
  apply negb_true_iff, bool_decide_eq_false in H34, H92. cbn [Hosts.printString].
  destruct (Ascii.eqb_spec c Hosts.quote) as [->|]; [done|].
  destruct (Ascii.eqb_spec c Hosts.backslash) as [->|]; [done|].
  change (String c s ++ ?t) with (String c (s ++ t)). cbn [orb]. by rewrite IH.
Qed.

Lemma printJson_epk x : plain x = true -> 
  Hosts.printJson (epkJson x) = plainText (sortedEpk x) /\
  Hosts.printJson (sortedEpk x) = plainText (sortedEpk x).
Proof.
  intros Hx. unfold epkJson, sortedEpk. cbn -[Hosts.commas separated]. rewrite commas_separated.
  by rewrite printString_plain.
Qed.

Lemma printJson_entry e : plainJson (entryJson e) = true ->
  Hosts.printJson (entryJson e) = plainText (sortedEntry e) /\
  Hosts.printJson (sortedEntry e) = plainText (sortedEntry e).
Proof.
  destruct e as [key [x|]]; intros Hp.
  - cbn in Hp. rewrite !andb_true_r in Hp. apply andb_true_iff in Hp as [Hk Hx].
    destruct (printJson_epk x Hx) as [H1 H2].
    unfold entryJson, sortedEntry. cbn -[Hosts.commas separated epkJson sortedEpk].
    by rewrite !commas_separated, H1, H2, printString_plain.
  - cbn in Hp. rewrite andb_true_r in Hp.
    unfold entryJson, sortedEntry. cbn -[Hosts.commas separated].
    by rewrite !commas_separated, printString_plain.
Qed.

Lemma representation_plain r : plainJson (representationJson r) = true ->
  plain (ciphertext r) = true /\ plain (iv r) = true /\ plain (protected r) = true /\
  forallb plainJson (entryJson <$> recipients r) = true /\ plain (tag r) = true.
Proof.
  intros Hp. cbn -[plain] in Hp. rewrite !andb_true_iff in Hp. naive_solver.
Qed.

Lemma hosts_json : HostJsonText Hosts.base64url Hosts.json.
Proof.
  split.
  - intros v Hp. split; [done|].
    change (match Hosts.parseValue (S (String.length (plainText v))) (plainText v) with
      | Some (v, EmptyString) => Some v | _ => None end = Some v).
    pose proof (parseValue_plain v Hp (S (String.length (plainText v))) "") as Hv.
    rewrite append_nothing in Hv. by rewrite Hv by lia.
  - intros [c i p es t] Hp.
    change (Some (Hosts.printJson (representationJson (mkSealed c i p es t))) =
        Some (plainText (sortedRepresentation (mkSealed c i p es t))) /\
      Some (Hosts.printJson (sortedRepresentation (mkSealed c i p es t))) =
        Some (plainText (sortedRepresentation (mkSealed c i p es t)))).
    destruct (representation_plain _ Hp) as (Hc & Hi & Hpr & He & Ht). cbn in Hc, Hi, Hpr, He, Ht.
    assert (map Hosts.printJson (entryJson <$> es) = map plainText (sortedEntry <$> es) /\
            map Hosts.printJson (sortedEntry <$> es) = map plainText (sortedEntry <$> es)) as [H1 H2].
    { clear Hp. induction es as [|e es IH]; [done|]. cbn in He. apply andb_true_iff in He as [He Hes].
      destruct (printJson_entry e He) as [E1 E2]. destruct (IH Hes) as [I1 I2].
      cbn [fmap list_fmap map]. by rewrite E1, E2, I1, I2. }
    unfold representationJson, sortedRepresentation.
    cbn -[Hosts.commas separated]. rewrite !commas_separated, H1, H2.
    by rewrite !printString_plain.
Qed.

End SealedBodyLaws.
