(* ===== verification/SealedBodyRuns.v ===== *)
(** SealedBodyRuns: sealed bodies from sealing to opening: their exact size,
    the one plaintext they open to, and the round trip
    (packages/identity/src/sealed-body.ts). *)
From S2P Require Import Prelude JsMap Json JsString Identifiers BoundedCache SignedMessages.
From S2P Require Import SealedBody Hosts SealedBodyLaws.
From Stdlib Require Import Ascii.
Import Json Identifiers CanonicalJson SealedBody SealedBodySizes SealedBodyLaws.
Local Open Scope string_scope.

Module SealedBodyRuns.

(** ** The sealing keys' cache *)

(** Every cached key is its own derivation. *)
Definition derivedEntries {A} (derive : string -> option A) (entries : list (string * A)) : Prop :=
  Forall (fun '(x, key) => derive x = Some key) entries.

Lemma derived_delete {A} (derive : string -> option A) entries x :
  derivedEntries derive entries -> derivedEntries derive (jm_delete entries x).
Proof.
  unfold derivedEntries. induction 1 as [|[k v] l Hd Hl IH]; simpl; [done|].
  case_decide; [done|by constructor].
Qed.

Lemma derived_set {A} (derive : string -> option A) entries x key :
  derivedEntries derive entries -> derive x = Some key ->
  derivedEntries derive (jm_set entries x key).
Proof.
  unfold derivedEntries. intros He Hx. induction He as [|[k v] l Hd Hl IH]; simpl.
  - by repeat constructor.
  - case_decide; subst; by constructor.
Qed.

(** The cache changes no result, and keeps what it derives. *)
Lemma x25519SealingKey_cached {A} entries x (derive : string -> option A) result entries' :
  derivedEntries derive entries -> cachedPerPublicKey entries x derive = (result, entries') ->
  result = derive x /\ derivedEntries derive entries'.
Proof.
  intros He. unfold cachedPerPublicKey, BoundedCache.get, BoundedCache.touch.
  destruct (jm_get entries x) as [key|] eqn:Hg.
  - intros [= <- <-]. apply jm_get_some_elem in Hg.
    pose proof (proj1 (Forall_forall _ _) He _ Hg) as Hx. simpl in Hx.
    split; [done|]. apply derived_set; [by apply derived_delete|done].
  - destruct (derive x) as [key|] eqn:Hx; intros [= <- <-]; split; try done.
    unfold BoundedCache.set, BoundedCache.touch.
    assert (derivedEntries derive (jm_set (jm_delete entries x) x key)) as Ht
      by (apply derived_set; [by apply derived_delete|done]).
    case_decide; [|done]. destruct (jm_set _ x key) as [|[o ?] l]; [done|]. by apply derived_delete.
Qed.

(** ** Identifiers are plain and of one length *)

Lemma identifierTail_text n bits s :
  Wire.identifierTail n bits s = true ->
  plain s = true /\ size s = (Z.of_nat n + if decide (bits = 0) then 0 else 1)%Z.
Proof.
  revert s. induction n as [|n IH]; intros [|c s]; simpl; try done.
  - intros ->%bool_decide_eq_true. by rewrite decide_True.
  - destruct s; [|done]. destruct (Wire.base64UrlIndex c) as [i|] eqn:Hi; [|done].
    intros [Hb _]%andb_true_iff. apply bool_decide_eq_true in Hb. rewrite decide_False by done.
    split; [|done]. unfold plain. simpl. by rewrite base64_plain.
  - intros [Hc Hs]%andb_true_iff. apply bool_decide_eq_true in Hc.
    destruct (IH s Hs) as [Hp Hz]. unfold plain in *. simpl. rewrite base64_plain, Hp by done.
    split; [done|]. unfold size in *. simpl. lia.
Qed.

Lemma canonicalIdentifier_text prefix value :
  Wire.canonicalIdentifier prefix 16 value = true -> plain prefix = true ->
  plain value = true /\ size value = (size prefix + 22)%Z.
Proof.
  unfold Wire.canonicalIdentifier. intros [Hs Ht]%andb_true_iff Hp.
  destruct (identifierTail_text _ _ _ Ht) as [Hpt Hz].
  apply startsWith_slice in Hs. rewrite Hs, plain_app, size_app, Hp, Hpt, Hz. done.
Qed.

(** ** What sealing produces *)

Section runs.
Context `{B : Base64Url} `{!Base64UrlText B} `{!Base64UrlLaws B}.
Context `{J : HostJson} `{!HostJsonText B J} `{H : Sha256} `{!Sha256Length H}.
Context `{E : JoseEncryption} (agrees : AgreementKey -> OpeningKey -> Prop).
Context `{!JoseEncryptionLaws B E agrees}.

Lemma isEncoded_text n s : isEncoded n s -> plain s = true /\ size s = base64UrlLength n.
Proof. intros (bytes & -> & <-). split; [apply encode_plain|apply encode_length]. Qed.

Lemma isEncoded_canonical n s : isEncoded n s -> decodeCanonicalBase64Url s <> None /\
  (0 <= n)%Z /\ hasCanonicalBase64UrlLength s (Z.to_nat n) = true.
Proof.
  intros (bytes & -> & <-). unfold hasCanonicalBase64UrlLength, decodeCanonicalBase64Url, size.
  rewrite decode_encode64, decide_True by done. split_and!; [done|lia|].
  rewrite Nat2Z.id. by apply bool_decide_eq_true.
Qed.

Lemma plainText_size v : plainJson v = true -> size (plainText v) = textLength v.
Proof.
  intros Hp. destruct (stringify_length v Hp) as (t & Ht & Hs).
  rewrite stringify_plain in Ht by done. by injection Ht as ->.
Qed.

Lemma sortedEntry_size e :
  plainJson (sortedEntry e) = plainJson (entryJson e) /\
  textLength (sortedEntry e) = textLength (entryJson e).
Proof.
  destruct e as [key [x|]]; [|done]. split.
  - cbn. rewrite !andb_true_r. done.
  - cbn. rewrite !zsum_cons, !zsum_nil. unfold id. lia.
Qed.

Lemma sortedRepresentation_size r :
  plainJson (sortedRepresentation r) = plainJson (representationJson r) /\
  textLength (sortedRepresentation r) = textLength (representationJson r).
Proof.
  assert (forall es, forallb plainJson (sortedEntry <$> es) = forallb plainJson (entryJson <$> es) /\
    map textLength (sortedEntry <$> es) = map textLength (entryJson <$> es)) as He.
  { induction es as [|e es [I1 I2]]; [done|]. destruct (sortedEntry_size e) as [E1 E2].
    cbn [fmap list_fmap map forallb]. by rewrite E1, E2, I1, I2. }
  destruct (He (recipients r)) as [H1 H2]. unfold sortedRepresentation, representationJson. split.
  - cbn [plainJson forallb]. by rewrite H1.
  - cbn [textLength map]. by rewrite H2, !length_fmap.
Qed.

(** A sealed body is the canonical text of a JWE with the documented layout,
    under the header of its own salted plaintext. *)
Record SealedAs (salt : string) (input : SealInput) (members : list CardMembers)
    (keys : list AgreementKey) (r : SealedBodyRepresentation) (entropy body : string) : Prop := {
  sealed_recipients : snapshotRecipients (recipientAgentCards input) = Some members;
  sealed_keys : mapM (fun recipient => importAgreementKey (cm_publicKey recipient)) members = Some keys;
  sealed_jwe : generalEncrypt entropy (salt ++ plaintext input)
    (protectedHeaderMembers (commitmentOf (salt ++ plaintext input)) (messageId input)
      (senderAgentId input)) keys = Some r;
  sealed_body : CanonicalJson.encodeCanonicalJson (representationJson r) = Some body;
}.

Lemma seal_inv salt entropy input body : seal salt entropy input = Some body ->
  exists members keys r, SealedAs salt input members keys r entropy body.
Proof.
  unfold seal. intros (members & Hm & Hs)%bind_Some.
  apply bind_Some in Hs as (keys & Hk & Hs). apply bind_Some in Hs as (r & Hr & Hs).
  by exists members, keys, r.
Qed.

Lemma snapshotRecipients_inv cards members :
  snapshotRecipients cards = Some members ->
  members = merge_sort cardNotAfter (cardMembers <$> cards) /\ members ≡ₚ cardMembers <$> cards /\
  (1 <= Z.of_nat (length cards) <= 128)%Z.
Proof.
  unfold snapshotRecipients. destruct (_ || _) eqn:Hb; [done|]. intros [= <-].
  apply orb_false_iff in Hb as [Hc _]. rewrite length_fmap in Hc.
  apply negb_false_iff, andb_true_iff in Hc as [H1 H2]. apply bool_decide_eq_true in H1, H2.
  split_and!; [done|apply merge_sort_Permutation|lia|exact H2].
Qed.

Lemma header_plain (commitment messageId sender : string) :
  plain commitment = true -> plain messageId = true -> plain sender = true ->
  plainJson (JObject (protectedHeaderMembers commitment messageId sender)) = true /\
  forall x, plain x = true ->
    plainJson (JObject (protectedHeaderMembers commitment messageId sender ++ [("epk", epkJson x)]))
      = true.
Proof. intros H1 H2 H3. split; [|intros x Hx]; cbn -[plain]; by rewrite H1, H2, H3, ?Hx. Qed.

Lemma commitment_encoded text : isEncoded 32 (commitmentOf text).
Proof. exists (sha256 text). split; [done|apply sha256_size]. Qed.

(** The layout in sizes. *)
Lemma sealed_sizes salt input members keys r entropy body :
  SealedAs salt input members keys r entropy body ->
  Wire.MessageId (messageId input) = true -> Wire.AgentId (senderAgentId input) = true ->
  plainJson (representationJson r) = true /\
  textLength (representationJson r) =
    (base64UrlLength (size salt + size (plaintext input)) +
     if decide (Z.of_nat (length (recipientAgentCards input)) = 1) then 605
     else 417 + 171 * Z.of_nat (length (recipientAgentCards input)))%Z.
Proof.
  intros [Hm Hk Hr Hb] HM HA.
  destruct (canonicalIdentifier_text _ _ HM eq_refl) as [HMp HMs].
  destruct (canonicalIdentifier_text _ _ HA eq_refl) as [HAp HAs].
  destruct (isEncoded_text _ _ (commitment_encoded (salt ++ plaintext input))) as [HCp HCs].
  destruct (header_plain _ _ _ HCp HMp HAp) as [Hh1 Hh2].
  apply snapshotRecipients_inv in Hm as (_ & Hperm & Hn).
  apply length_mapM in Hk. apply Permutation_length in Hperm. rewrite length_fmap in Hperm.
  destruct (encrypted_layout _ _ _ _ _ Hr) as (Hl & Hc & Hi & Ht & Hkeys & Hlay).
  apply isEncoded_text in Hc as [Hcp Hcs], Hi as [Hip His], Ht as [Htp Hts].
  rewrite size_app in Hcs. change (size "msg_") with 4%Z in HMs. change (size "agt_") with 4%Z in HAs.
  assert (length (recipients r) = length (recipientAgentCards input)) as Hlen by lia.
  rewrite <- Hlen in *. rewrite representation_size, Hcs, His, Hts.
  change (base64UrlLength 12) with 16%Z. change (base64UrlLength 16) with 22%Z.
  destruct (recipients r) as [|e [|e2 es]] eqn:Hes; [simpl in Hn; lia| |].
  - destruct Hlay as (He & x & Hx & Hp). apply isEncoded_text in Hx as [Hxp Hxs].
    specialize (Hh2 x Hxp). inversion Hkeys as [|? ? Hk40 _]; subst.
    apply isEncoded_text in Hk40 as [Hkp Hks].
    assert (size (protected r) = 428%Z) as Hps.
    { rewrite Hp, encode_length, plainText_size by done. unfold epkJson.
      rewrite header_epk_size with (x := x) by auto. rewrite HCs, HMs, HAs, Hxs. done. }
    destruct e as [key epk]. cbn [entry_epk encrypted_key] in *. subst epk. split.
    + cbn -[plain]. rewrite Hcp, Hip, Hp, encode_plain, Hes, Htp. cbn -[plain]. by rewrite Hkp.
    + rewrite Hps, zsum_cons, zsum_nil. unfold compose.
      rewrite entry_size, Hks, decide_True by done.
      change (base64UrlLength 40) with 54%Z. unfold commaCount. cbn [length Nat.pred]. lia.
  - destruct Hlay as (Hepk & Hp). rewrite decide_False by (simpl; lia).
    assert (size (protected r) = 315%Z) as Hps.
    { rewrite Hp, encode_length, plainText_size, header_size, HCs, HMs, HAs by done. done. }
    assert (forallb plainJson (entryJson <$> recipients r) = true /\
      zsum (textLength ∘ entryJson) (recipients r) = (170 * Z.of_nat (length (recipients r)))%Z)
      as [Hpe Hze].
    { rewrite Hes. clear -Hkeys Hepk Base64UrlText0. revert Hkeys Hepk.
      generalize (e :: e2 :: es). clear -Base64UrlText0. intros l Hkeys Hepk.
      induction Hkeys as [|[key epk] l Hk40 Hl IH]; [done|].
      apply Forall_cons in Hepk as [(x & Hx & Hx32) Hepk]. simpl in Hx. subst epk.
      apply isEncoded_text in Hx32 as [Hxp Hxs], Hk40 as [Hkp Hks]. simpl in Hkp, Hks.
      destruct (IH Hepk) as [I1 I2]. split.
      - cbn -[plain]. rewrite Hkp, Hxp. exact I1.
      - rewrite zsum_cons, I2. unfold compose. rewrite entry_size, Hks, Hxs.
        change (base64UrlLength 40) with 54%Z. change (base64UrlLength 32) with 43%Z.
        cbn [length]. lia. }
    rewrite <- Hes. split.
    + cbn -[plain fmap list_fmap]. rewrite Hcp, Hip, Hp, encode_plain, Htp.
      rewrite andb_true_r. cbn [andb]. rewrite Hpe. done.
    + rewrite Hps, Hze. unfold commaCount. rewrite Hes. simpl length. lia.
Qed.

Lemma sealed_text salt input members keys r entropy body :
  SealedAs salt input members keys r entropy body -> plainJson (representationJson r) = true ->
  body = plainText (sortedRepresentation r) /\ size body = textLength (representationJson r).
Proof.
  intros [_ _ _ Hb] Hp. unfold CanonicalJson.encodeCanonicalJson in Hb.
  apply bind_Some in Hb as (v & Hv & Hb). unfold CanonicalJson.snapshotJsonValue in Hv.
  destruct (CanonicalJson.visitJsonValue _ _); [|done]. injection Hv as <-.
  rewrite (proj1 (canonical_text r Hp)) in Hb.
  assert (body = plainText (sortedRepresentation r)) as -> by congruence. split; [done|].
  destruct (sortedRepresentation_size r) as [H1 H2]. rewrite <- H2. apply plainText_size. congruence.
Qed.

(** *** Opening what was sealed *)

Lemma fmap_merge_sort {X Y} (f : X -> Y) (R : relation X) (R' : relation Y)
    `{!forall x y, Decision (R x y)} `{!forall x y, Decision (R' x y)} :
  (forall x y, R x y <-> R' (f x) (f y)) -> forall l, f <$> merge_sort R l = merge_sort R' (f <$> l).
Proof.
  intros HR.
  assert (Hmerge : forall l1 l2, f <$> list_merge R l1 l2 = list_merge R' (f <$> l1) (f <$> l2)).
  { induction l1 as [|x1 l1 IH1]; [by intros []|].
    induction l2 as [|x2 l2 IH2]; [done|]. cbn [fmap list_fmap list_merge].
    destruct (decide (R x1 x2)) as [Hd|Hd].
    - rewrite decide_True by (by apply HR). cbn [fmap list_fmap]. f_equal. apply IH1.
    - rewrite decide_False by (by rewrite <- HR). cbn [fmap list_fmap]. f_equal. apply IH2. }
  set (mapStack := map (option_map (map f))).
  assert (Hstack : forall stk, f <$> merge_stack R stk = merge_stack R' (mapStack stk)).
  { induction stk as [|[s|] stk IH]; cbn; [done| |done]. by rewrite Hmerge, IH. }
  assert (Hpush : forall stk l, mapStack (merge_list_to_stack R stk l) =
    merge_list_to_stack R' (mapStack stk) (f <$> l)).
  { induction stk as [|[s|] stk IH]; intros l; cbn; [done| |done]. f_equal. by rewrite IH, Hmerge. }
  unfold merge_sort. intros l.
  change (@nil (option (list Y))) with (mapStack (@nil (option (list X)))).
  generalize (@nil (option (list X))). induction l as [|x l IH]; intros stk; cbn; [done|].
  by rewrite IH, Hpush.
Qed.

Lemma recipients_order cards :
  cm_agentId <$> merge_sort cardNotAfter (cardMembers <$> cards) =
    merge_sort SignedMessages.notAfter (AgentCards.agentId <$> cards).
Proof.
  rewrite (fmap_merge_sort cm_agentId cardNotAfter SignedMessages.notAfter) by done.
  by rewrite <- list_fmap_compose.
Qed.

Lemma exactStruct_refl keys o : forallb (fun k => bool_decide (k ∈ keys)) (jm_keys o) = true ->
  exactStruct keys (JObject o) = Some o.
Proof. intros Hk. unfold exactStruct. simpl. by rewrite Hk. Qed.

Lemma encodedBytes_encoded n s : isEncoded (Z.of_nat n) s -> encodedBytes n (JString s) = Some s.
Proof.
  intros Hs%isEncoded_canonical. destruct Hs as (_ & _ & Hc). rewrite Nat2Z.id in Hc.
  unfold encodedBytes, filtered. simpl. by rewrite Hc.
Qed.

(** Reads the members of a literal object. *)
Ltac members := cbn [mbind option_bind]; unfold keyword, optionalKeyword; cbn [jm_get];
  repeat match goal with
  | |- context [decide (?a = ?b)] =>
      first [ rewrite (decide_True (P := a = b)) by reflexivity
            | rewrite (decide_False (P := a = b)) by discriminate ]
  end; cbn [mbind option_bind].

Lemma decodeEntry_sorted e : isEncoded 40 (encrypted_key e) ->
  match entry_epk e with None => True | Some x => isEncoded 32 x end ->
  decodeEntry (sortedEntry e) = Some e.
Proof.
  destruct e as [key epk]; cbn [encrypted_key entry_epk]; intros Hk Hx.
  unfold decodeEntry, sortedEntry. cbn [encrypted_key entry_epk].
  rewrite exactStruct_refl by (by destruct epk). members.
  rewrite encodedBytes_encoded by exact Hk. cbn [mbind option_bind].
  destruct epk as [x|]; members; [|done].
  rewrite exactStruct_refl by done. members. unfold ephemeralPublicKey, sortedEpk.
  rewrite exactStruct_refl by done. members. cbn [literal].
  by rewrite encodedBytes_encoded by exact Hx.
Qed.

(** The shape every produced JWE has. *)
Lemma sealed_shape salt input members keys r entropy body :
  SealedAs salt input members keys r entropy body ->
  Forall (fun e => isEncoded 40 (encrypted_key e) /\
    match entry_epk e with None => True | Some x => isEncoded 32 x end) (recipients r) /\
  forallb (fun e => Bool.eqb (bool_decide (entry_epk e = None))
    (bool_decide (length (recipients r) = 1%nat))) (recipients r) = true /\
  exists epk, (if bool_decide (length (recipients r) = 1%nat) then is_Some epk else epk = None) /\
    match epk with None => True | Some x => isEncoded 32 x end /\
    protected r = encodeBase64Url (plainText (JObject
      (protectedHeaderMembers (commitmentOf (salt ++ plaintext input)) (messageId input)
        (senderAgentId input) ++ match epk with None => [] | Some x => [("epk", epkJson x)] end)%list)).
Proof.
  intros [_ _ Hr _]. destruct (encrypted_layout _ _ _ _ _ Hr) as (_ & _ & _ & _ & Hkeys & Hlay).
  destruct (recipients r) as [|e [|e2 es]].
  - destruct Hlay as [_ Hp]. split_and!; [done|done|]. exists None. by rewrite app_nil_r.
  - destruct Hlay as (He & x & Hx & Hp). inversion Hkeys; subst. split_and!.
    + repeat constructor; [done|]. by rewrite He.
    + simpl. by rewrite He.
    + exists (Some x). rewrite bool_decide_eq_true_2 by done. split_and!; [by eexists|done|done].
  - destruct Hlay as [Hepk Hp]. rewrite (bool_decide_eq_false_2 (_ = 1%nat)) by done. split_and!.
    + rewrite Forall_forall in Hkeys, Hepk |- *. intros e' He'.
      split; [by apply Hkeys|]. by destruct (Hepk _ He') as (x & -> & Hx).
    + clear Hkeys. induction Hepk as [|e' l (x & Hx & _) Hl IH]; [done|].
      cbn [forallb]. rewrite Hx. exact IH.
    + exists None. by rewrite app_nil_r.
Qed.

Lemma isEncoded_filtered n s : isEncoded n s -> filtered AgentKey.canonicalBase64Url (JString s) = Some s.
Proof.
  intros [Hc _]%isEncoded_canonical. unfold filtered, AgentKey.canonicalBase64Url. simpl.
  rewrite bool_decide_eq_true_2; [done|by apply not_eq_None_Some].
Qed.

Lemma decodeRepresentation_sorted salt input members keys r entropy body :
  SealedAs salt input members keys r entropy body ->
  sealedBodyRepresentation (sortedRepresentation r) = Some r.
Proof.
  intros HS. pose proof (sealed_shape _ _ _ _ _ _ _ HS) as (Hes & _ & epk & _ & _ & Hp).
  destruct HS as [Hm Hk Hr _].
  destruct (encrypted_layout _ _ _ _ _ Hr) as (Hl & Hc & Hi & Ht & _).
  apply snapshotRecipients_inv in Hm as (_ & Hperm%Permutation_length & Hn).
  apply length_mapM in Hk. rewrite length_fmap in Hperm.
  unfold sealedBodyRepresentation, sortedRepresentation. rewrite exactStruct_refl by done.
  members. rewrite (isEncoded_filtered _ _ Hc). members.
  rewrite (encodedBytes_encoded IV_BYTES _ Hi). members.
  rewrite (isEncoded_filtered _ (protected r)) by (eexists; eauto). members.
  assert (decodeArray decodeEntry (JArray (sortedEntry <$> recipients r)) = Some (recipients r)) as ->.
  { simpl. clear -Hes Base64UrlLaws0. induction Hes as [|e es [Hk Hx] Hes IH]; [done|].
    cbn [fmap list_fmap mapM]. by rewrite decodeEntry_sorted, IH. }
  members. rewrite (encodedBytes_encoded TAG_BYTES _ Ht). cbn [mbind option_bind].
  rewrite bool_decide_eq_true_2; [by destruct r|]. 
  change SignedMessages.MAXIMUM_RECIPIENTS with 128%nat. lia.
Qed.

Lemma decodeHeader_members commitment messageId sender epk :
  isEncoded 32 commitment -> Wire.MessageId messageId = true -> Wire.AgentId sender = true ->
  match epk with None => True | Some x => isEncoded 32 x end ->
  decodeHeader (JObject (protectedHeaderMembers commitment messageId sender ++
    match epk with None => [] | Some x => [("epk", epkJson x)] end)%list) =
    Some (mkProtected epk commitment messageId sender).
Proof.
  intros Hc HM HA Hx. unfold decodeHeader. rewrite exactStruct_refl by (by destruct epk).
  unfold protectedHeaderMembers. cbn [app]. members.
  cbn [literal]. rewrite !bool_decide_eq_true_2 by done. members.
  assert (forall o, match epk with
    | None => [] | Some x => [("epk", epkJson x)] end = o -> match jm_get o "epk" with
    | Some v => Some <$> ephemeralPublicKey v | None => Some None end = Some epk) as Hepk.
  { intros o <-. destruct epk as [x|]; [|done]. members. unfold ephemeralPublicKey, epkJson.
    rewrite exactStruct_refl by done. members. cbn [literal].
    by rewrite encodedBytes_encoded by exact Hx. }
  rewrite (Hepk _ eq_refl). members. rewrite encodedBytes_encoded by exact Hc. members.
  unfold filtered. cbn [decodeString mbind option_bind]. rewrite HM. members. by rewrite HA.
Qed.

(** *** Opening step by step *)

Lemma visit_entry e : plainJson (entryJson e) = true ->
  CanonicalJson.visitJsonValue 2 (sortedEntry e) = true.
Proof.
  destruct e as [key [x|]]; intros Hp; cbn -[plain] in Hp; rewrite !andb_true_iff in Hp;
    destruct_and!; cbn -[hasWellFormedUnicode]; rewrite !plain_wellFormed by done; done.
Qed.

Lemma sealed_parses r : plainJson (representationJson r) = true ->
  CanonicalJson.parseCanonicalJson (plainText (sortedRepresentation r)) =
    Some (sortedRepresentation r).
Proof.
  intros Hp. destruct (sortedRepresentation_size r) as [Hps _].
  destruct (text_read (sortedRepresentation r)) as [Hu Hj]; [congruence|].
  unfold CanonicalJson.parseCanonicalJson. rewrite Hu. cbn [mbind option_bind]. rewrite Hj.
  cbn [mbind option_bind]. unfold CanonicalJson.snapshotJsonValue.
  assert (CanonicalJson.visitJsonValue 0 (sortedRepresentation r) = true) as ->.
  { destruct (representation_plain r Hp) as (H1 & H2 & H3 & H4 & H5).
    assert (forallb (CanonicalJson.visitJsonValue 2) (sortedEntry <$> recipients r) = true) as He.
    { clear -H4. induction (recipients r) as [|e es IH]; [done|].
      cbn [fmap list_fmap forallb] in *. apply andb_true_iff in H4 as [He Hes].
      by rewrite visit_entry, IH. }
    cbn -[hasWellFormedUnicode fmap]. rewrite !plain_wellFormed by done.
    cbn [andb]. rewrite He. by vm_compute. }
  cbn [mbind option_bind]. rewrite (proj2 (canonical_text r Hp)). cbn [mbind option_bind].
  by rewrite decide_True.
Qed.

Lemma decodeProtectedHeader_sealed commitment messageId sender epk :
  isEncoded 32 commitment -> Wire.MessageId messageId = true -> Wire.AgentId sender = true ->
  match epk with None => True | Some x => isEncoded 32 x end ->
  decodeProtectedHeader (encodeBase64Url (plainText (JObject
    (protectedHeaderMembers commitment messageId sender ++
     match epk with None => [] | Some x => [("epk", epkJson x)] end)%list))) =
    Some (mkProtected epk commitment messageId sender).
Proof.
  intros Hc HM HA Hx.
  assert (plainJson (JObject (protectedHeaderMembers commitment messageId sender ++
    match epk with None => [] | Some x => [("epk", epkJson x)] end)%list) = true) as Hp.
  { destruct (canonicalIdentifier_text _ _ HM eq_refl) as [HMp _].
    destruct (canonicalIdentifier_text _ _ HA eq_refl) as [HAp _].
    destruct (isEncoded_text _ _ Hc) as [HCp _].
    destruct (header_plain _ _ _ HCp HMp HAp) as [Hh1 Hh2].
    destruct epk as [x|]; [|by rewrite app_nil_r]. apply Hh2. by apply isEncoded_text in Hx as []. }
  destruct (text_read _ Hp) as [Hu Hj]. unfold decodeProtectedHeader.
  rewrite decode_encode64. cbn [mbind option_bind]. rewrite Hu. cbn [mbind option_bind].
  rewrite Hj. cbn [mbind option_bind]. rewrite decodeHeader_members by done.
  cbn [mbind option_bind]. unfold expectedHeaderText.
  cbn [header_commitment header_messageId header_sender header_epk].
  rewrite stringify_plain by done. cbn [mbind option_bind]. by rewrite decide_True.
Qed.

Lemma members_nodup cards members : snapshotRecipients cards = Some members ->
  NoDup (cm_agentId <$> members).
Proof.
  unfold snapshotRecipients. destruct (_ || _) eqn:Hb; [done|]. intros [= <-].
  apply orb_false_iff in Hb as [_ Hd]. apply negb_false_iff, bool_decide_eq_true in Hd.
  rewrite merge_sort_Permutation.
  assert (Hle : forall l : list string, (length (remove_dups l) <= length l)%nat).
  { induction l as [|x l IH]; simpl; [done|]. case_decide; simpl; lia. }
  assert (Hs : forall l : list string, length (remove_dups l) = length l -> NoDup l).
  { induction l as [|x l IH]; [constructor|]. cbn [remove_dups length].
    pose proof (Hle l). case_decide; intros; [lia|].
    constructor; [done|]. apply IH. cbn in *. lia. }
  apply Hs. by rewrite length_fmap.
Qed.

(** A recipient's own entry. *)
Lemma local_entry salt input members keys r entropy body card :
  SealedAs salt input members keys r entropy body -> card ∈ recipientAgentCards input ->
  exists index key entry, members !! index = Some (cardMembers card) /\
    keys !! index = Some key /\ importAgreementKey (AgentCards.publicKey card) = Some key /\
    recipients r !! index = Some entry /\
    list_find (eq (AgentCards.agentId card)) (cm_agentId <$> members) =
      Some (index, AgentCards.agentId card).
Proof.
  intros [Hm Hk Hr _] Hcard. pose proof (members_nodup _ _ Hm) as Hnd.
  apply snapshotRecipients_inv in Hm as (_ & Hperm & _).
  destruct (encrypted_layout _ _ _ _ _ Hr) as (Hl & _).
  assert (cardMembers card ∈ members) as Hin by (rewrite Hperm; by apply list_elem_of_fmap_2).
  apply list_elem_of_lookup in Hin as [index Hin].
  apply mapM_Some in Hk. destruct (Forall2_lookup_l _ _ _ _ _ Hk Hin) as (key & Hkey & Hi).
  destruct (lookup_lt_is_Some_2 (recipients r) index) as [entry He].
  { rewrite Hl. by eapply lookup_lt_Some. }
  exists index, key, entry. split_and!; try done.
  apply list_find_Some. split_and!; [|done|].
  - by rewrite list_lookup_fmap, Hin.
  - intros j y Hj Hlt Hy. subst y.
    assert (j = index); [|lia]. eapply (NoDup_lookup _ _ _ _ Hnd Hj).
    by rewrite list_lookup_fmap, Hin.
Qed.

(** *** What opening establishes *)

Lemma encode_inj x y : encodeBase64Url x = encodeBase64Url y -> x = y.
Proof. intros He. apply (f_equal decodeBase64Url) in He. rewrite !decode_encode64 in He. congruence. Qed.

Lemma open_inv card authority message p : open card authority message = Some p ->
  exists r header entry salted,
    (CanonicalJson.parseCanonicalJson (SignedMessages.body message) ≫= sealedBodyRepresentation)
      = Some r /\
    decodeProtectedHeader (protected r) = Some header /\
    header_sender header = SignedMessages.senderAgentId message /\
    header_messageId header = SignedMessages.messageId message /\
    generalDecrypt (mkSealed (ciphertext r) (iv r) (protected r) [entry] (tag r))
      (openingKey authority) = Some salted /\
    commitmentOf salted = header_commitment header /\ p = slice SALT_BYTES salted.
Proof.
  unfold open. intros (c & _ & (r & Hr & (header & Hh & (entry & _ & Ho)%bind_Some)%bind_Some)
    %bind_Some)%bind_Some.
  destruct (negb _ || _) eqn:Hb; [done|].
  apply orb_false_iff in Hb as [Hs Hi]. apply negb_false_iff, bool_decide_eq_true in Hs, Hi.
  apply bind_Some in Ho as (salted & Hd & Ho). cbv zeta in Ho.
  destruct (bool_decide _ || _) eqn:Hb; [done|]. injection Ho as <-.
  apply orb_false_iff in Hb as [_ Hc]. apply negb_false_iff, bool_decide_eq_true in Hc.
  by exists r, header, entry, salted.
Qed.

(** C37: A sealed body has exactly the length the size arithmetic reports, and
    it fits one SignedMessage body exactly when its plaintext is no longer
    than the largest plaintext reported for that many recipients. *)
Theorem sealed_size_exact salt entropy input body :
  size salt = Z.of_nat SALT_BYTES ->
  Wire.MessageId (messageId input) = true -> Wire.AgentId (senderAgentId input) = true ->
  seal salt entropy input = Some body -> isSafeInteger (size body) = true ->
  let recipientCount := Z.of_nat (length (recipientAgentCards input)) in
  sealedByteLength (size (plaintext input)) recipientCount = Some (size body) /\
  exists largest, maximumPlaintextByteLength recipientCount = Some largest /\
    (size body <= SignedMessages.MAXIMUM_BODY_BYTES <-> size (plaintext input) <= largest)%Z.
Proof.
  intros Hsalt HM HA (members & keys & r & HS)%seal_inv Hsafe recipientCount.
  destruct (sealed_sizes _ _ _ _ _ _ _ HS HM HA) as [Hp Hlen].
  destruct (sealed_text _ _ _ _ _ _ _ HS Hp) as [_ Hsize].
  destruct HS as [(_ & _ & Hn)%snapshotRecipients_inv _ _ _].
  fold recipientCount in Hlen, Hn. rewrite Hsalt, (Z.add_comm (Z.of_nat SALT_BYTES)) in Hlen.
  assert (isRecipientCount recipientCount = true) as Hc.
  { unfold isRecipientCount. change (Z.of_nat SignedMessages.MAXIMUM_RECIPIENTS) with 128%Z.
    by rewrite !bool_decide_eq_true_2 by lia. }
  assert (0 <= size (plaintext input))%Z as H0 by (unfold size; lia).
  assert (size (plaintext input) <= size body)%Z as Hle.
  { rewrite Hsize, Hlen. unfold base64UrlLength. change (Z.of_nat SALT_BYTES) with 32%Z.
    repeat case_decide; Z.div_mod_to_equations; lia. }
  unfold sealedByteLength, maximumPlaintextByteLength. rewrite Hc, fixedByteLength_value.
  assert (isSafeInteger (size (plaintext input)) = true) as ->.
  { unfold isSafeInteger in *. apply bool_decide_eq_true in Hsafe. apply bool_decide_eq_true_2. lia. }
  rewrite bool_decide_eq_false_2 by lia. cbn [negb orb mbind option_bind].
  rewrite <- Hlen, <- Hsize, Hsafe. split; [done|]. eexists; split; [done|].
  rewrite Hsize, Hlen, <- Z.le_add_le_sub_r, <- base64UrlLength_le. lia.
Qed.

(** C24: Whatever the sender wrapped for each recipient, a body opens to one
    plaintext: two openings of the same bytes bind the same sender and
    message identity, each yields what follows the salt of the text it
    decrypted from its own recipient entry, and the two decrypted texts have
    one SHA-256 digest.  So the plaintexts are the same unless these two
    salted texts collide. *)
Theorem one_plaintext_per_body cardA cardB authorityA authorityB messageA messageB p q :
  open cardA authorityA messageA = Some p -> open cardB authorityB messageB = Some q ->
  SignedMessages.body messageA = SignedMessages.body messageB ->
  SignedMessages.senderAgentId messageA = SignedMessages.senderAgentId messageB /\
  SignedMessages.messageId messageA = SignedMessages.messageId messageB /\
  exists r entryA entryB saltedA saltedB,
    (CanonicalJson.parseCanonicalJson (SignedMessages.body messageA) ≫= sealedBodyRepresentation)
      = Some r /\
    generalDecrypt (mkSealed (ciphertext r) (iv r) (protected r) [entryA] (tag r))
      (openingKey authorityA) = Some saltedA /\
    generalDecrypt (mkSealed (ciphertext r) (iv r) (protected r) [entryB] (tag r))
      (openingKey authorityB) = Some saltedB /\
    p = slice SALT_BYTES saltedA /\ q = slice SALT_BYTES saltedB /\
    (p = q \/ saltedA <> saltedB /\ sha256 saltedA = sha256 saltedB).
Proof.
  intros (rA & headerA & eA & saltedA & HrA & HhA & HsA & HmA & HdA & HcA & ->)%open_inv.
  intros (rB & headerB & eB & saltedB & HrB & HhB & HsB & HmB & HdB & HcB & ->)%open_inv Hbody.
  rewrite Hbody, HrB in HrA. simplify_eq.
  split_and!; [congruence|congruence|].
  exists rA, eA, eB, saltedA, saltedB. rewrite Hbody. split_and!; try done.
  destruct (decide (saltedA = saltedB)) as [->|Hne]; [by left|right].
  split; [done|]. apply encode_inj. unfold commitmentOf in *. congruence.
Qed.

(** C25: Every recipient opens exactly what was sealed: sealing a plaintext and
    opening the body inside a message of the same sender, identity and
    recipients yields the plaintext to the holder of any recipient's key. *)
Theorem sealed_body_opens salt entropy input body card authority message :
  size salt = Z.of_nat SALT_BYTES ->
  Wire.MessageId (messageId input) = true -> Wire.AgentId (senderAgentId input) = true ->
  seal salt entropy input = Some body ->
  SignedMessages.body message = body ->
  SignedMessages.senderAgentId message = senderAgentId input ->
  SignedMessages.messageId message = messageId input ->
  SignedMessages.recipientAgentIds message =
    merge_sort SignedMessages.notAfter (AgentCards.agentId <$> recipientAgentCards input) ->
  card ∈ recipientAgentCards input -> au_publicKey authority = AgentCards.publicKey card ->
  (forall key, importAgreementKey (AgentCards.publicKey card) = Some key ->
    agrees key (openingKey authority)) ->
  open card authority message = Some (plaintext input).
Proof.
  intros Hsalt HM HA Hseal Hbody Hsender Hid Hrecipients Hcard Hkey Hagrees.
  apply seal_inv in Hseal as (members & keys & r & HS).
  destruct (sealed_sizes _ _ _ _ _ _ _ HS HM HA) as [Hp _].
  destruct (sealed_text _ _ _ _ _ _ _ HS Hp) as [-> _].
  destruct (sealed_shape _ _ _ _ _ _ _ HS) as (_ & Hplace & epk & Hsingle & Hx & Hprot).
  destruct (local_entry _ _ _ _ _ _ _ _ HS Hcard)
    as (index & key & entry & Hm & Hk & Hi & He & Hfind).
  unfold open, authorityCard. rewrite decide_True by done. cbn [mbind option_bind].
  rewrite Hbody, sealed_parses by done. cbn [mbind option_bind].
  erewrite decodeRepresentation_sorted by exact HS. cbn [mbind option_bind].
  assert (decodeProtectedHeader (protected r) = Some (mkProtected epk
    (commitmentOf (salt ++ plaintext input)) (messageId input) (senderAgentId input))) as ->.
  { rewrite Hprot. apply decodeProtectedHeader_sealed; (done || apply commitment_encoded). }
  cbn [mbind option_bind]. rewrite Hrecipients, <- recipients_order.
  destruct HS as [(Hms & Hperm & _)%snapshotRecipients_inv Hks Hr _]. rewrite <- Hms.
  unfold localRecipientEntry. cbn [cm_agentId cardMembers]. rewrite Hfind. cbn [mbind option_bind].
  rewrite He. cbn [mbind option_bind].
  destruct (encrypted_layout _ _ _ _ _ Hr) as (Hl & _).
  rewrite (bool_decide_eq_true_2 (length (recipients r) = length (cm_agentId <$> members)))
    by (rewrite length_fmap; apply length_mapM in Hks; congruence).
  cbn [header_epk]. rewrite Hplace.
  assert (Bool.eqb (bool_decide (is_Some epk)) (bool_decide (length (recipients r) = 1%nat)) = true)
    as ->.
  { destruct (bool_decide (length (recipients r) = 1%nat)).
    - by rewrite bool_decide_eq_true_2.
    - by rewrite Hsingle. }
  cbn [andb mbind option_bind header_sender header_messageId header_commitment].
  rewrite !bool_decide_eq_true_2 by done. cbn [negb orb].
  erewrite encrypted_opens by eauto. cbn [mbind option_bind].
  rewrite bool_decide_eq_false_2 by
    (unfold size in Hsalt; pose proof (string_length_app salt (plaintext input)); lia).
  rewrite bool_decide_eq_true_2 by done. cbn [negb orb].
  replace SALT_BYTES with (String.length salt) by (unfold size in Hsalt; lia).
  by rewrite slice_append.
Qed.

End runs.

(** ** A concrete JWE

    The content key is left out: a wrapped key only names its owner. *)

#[local] Existing Instances Hosts.base64url Hosts.json Hosts.digest Hosts.signatures.

Definition wrapFor (key : string) : string :=
  Hosts.encode64 (Hosts.bytesOf 40 (Hosts.polynomial 5 key)).

Definition jweOf (entropy text : string) (members : list (string * JsonValue))
    (entries : list RecipientEntry) : SealedBodyRepresentation :=
  mkSealed (Hosts.encode64 text) (Hosts.encode64 (Hosts.bytesOf 12 (Hosts.polynomial 2 entropy)))
    (Hosts.encode64 (plainText (JObject members))) entries
    (Hosts.encode64 (Hosts.bytesOf 16 (Hosts.polynomial 3 text))).

#[local] Instance jwe : JoseEncryption := {|
  AgreementKey := string; OpeningKey := string; toMontgomery := Some; importX25519 := Some;
  generalEncrypt := fun entropy text members keys =>
    let x := Hosts.encode64 (Hosts.bytesOf 32 (Hosts.polynomial 1 entropy)) in
    match keys with
    | [] => None
    | [key] => Some (jweOf entropy text (members ++ [("epk", epkJson x)]) [mkEntry (wrapFor key) None])
    | _ => Some (jweOf entropy text members ((fun key => mkEntry (wrapFor key) (Some x)) <$> keys))
    end;
  generalDecrypt := fun r opening =>
    match recipients r with
    | [entry] => if decide (encrypted_key entry = wrapFor opening)
                 then Hosts.decode64 (ciphertext r) else None
    | _ => None
    end |}.

Lemma encoded_bytes n v : isEncoded (Z.of_nat n) (Hosts.encode64 (Hosts.bytesOf n v)).
Proof.
  exists (Hosts.bytesOf n v). split; [done|]. revert v.
  induction n as [|n IH]; intros v; [done|]. specialize (IH (v / 256)%Z).
  cbn [Hosts.bytesOf]. unfold size in *. simpl String.length. lia.
Qed.

Lemma jweOf_layout entropy text members entries :
  let r := jweOf entropy text members entries in
  isEncoded (size text) (ciphertext r) /\ isEncoded 12 (iv r) /\ isEncoded 16 (tag r).
Proof.
  split_and!; [by exists text|apply (encoded_bytes 12)|apply (encoded_bytes 16)].
Qed.

Lemma wrapped_entries keys x : isEncoded 32 x ->
  Forall (fun e => isEncoded 40 (encrypted_key e)) ((fun key => mkEntry (wrapFor key) (Some x)) <$> keys) /\
  Forall (fun e => exists x, entry_epk e = Some x /\ isEncoded 32 x)
    ((fun key => mkEntry (wrapFor key) (Some x)) <$> keys).
Proof.
  intros Hx. split; apply Forall_fmap, Forall_true; intros key; [apply (encoded_bytes 40)|].
  by exists x.
Qed.

Lemma jwe_laws : JoseEncryptionLaws Hosts.base64url jwe eq.
Proof.
  split.
  - intros entropy text members keys r Hr.
    destruct keys as [|k [|k2 keys]]; [done| |]; cbn [generalEncrypt jwe] in Hr;
      apply (inj Some) in Hr as <-;
      match goal with |- context [jweOf ?a ?b ?c ?d] =>
        destruct (jweOf_layout a b c d) as (Hc & Hi & Ht) end.
    + split; [done|]. split; [exact Hc|]. split; [exact Hi|]. split; [exact Ht|].
      split; [repeat constructor; apply (encoded_bytes 40)|].
      split; [done|]. eexists; split; [apply (encoded_bytes 32)|reflexivity].
    + pose proof (wrapped_entries (k :: k2 :: keys) _
        (encoded_bytes 32 (Hosts.polynomial 1 entropy))) as [H1 H2].
      split; [exact (length_fmap _ (k :: k2 :: keys))|]. split; [exact Hc|]. split; [exact Hi|]. split; [exact Ht|].
      split; [exact H1|]. split; [exact H2|reflexivity].
  - intros entropy text members keys r index key entry opening Hr Hk He <-.
    assert (Hopen : forall e m es x, encrypted_key x = wrapFor key ->
      let r := jweOf e text m es in
      generalDecrypt (mkSealed (ciphertext r) (iv r) (protected r) [x] (tag r)) key = Some text).
    { intros e m es x Hx. cbn [generalDecrypt jwe recipients ciphertext jweOf].
      rewrite decide_True by done. apply Hosts.decode64_encode64. }
    destruct keys as [|k [|k2 keys]]; [done| |]; cbn [generalEncrypt jwe] in Hr;
      apply (inj Some) in Hr as <-; apply Hopen; cbn [jweOf recipients] in He.
    + destruct index; [|done]. by simplify_eq/=.
    + change (((fun key => mkEntry (wrapFor key) (Some (Hosts.encode64 (Hosts.bytesOf 32
        (Hosts.polynomial 1 entropy))))) <$> (k :: k2 :: keys)) !! index = Some entry) in He.
      apply list_lookup_fmap_Some in He as (key' & -> & Hk'). by simplify_eq/=.
Qed.

#[local] Existing Instances hosts_text hosts_json hosts_sha256 jwe_laws Hosts.base64url_laws.

Definition cardA : AgentCards.AgentCard := Eval vm_compute in
  match Hosts.cardOf "a"%char with
  | Some card => card
  | None => AgentCards.mkCard "" "" "" "" "" "" (mkJws "" "" "") (Wire.mkHeader "" "" "") ""
  end.
Definition cardB : AgentCards.AgentCard := Eval vm_compute in
  match Hosts.cardOf "b"%char with Some card => card | None => cardA end.

Definition salt : string := "ssssssssssssssssssssssssssssssss".
Definition letter : SealInput := Eval vm_compute in
  mkSealInput (AgentCards.agentId cardA) [cardB; cardA] ("msg_" ++ Hosts.encode64 "mmmmmmmmmmmmmmmm")
    "hello, sealed".
Definition letterBody : string := Eval vm_compute in
  match seal salt "entropy" letter with Some body => body | None => "" end.

(** The letter's envelope, and what each member opens of it. *)
Definition envelope : SignedMessages.SignedMessage := Eval vm_compute in
  match Hosts.signedBy "a"%char [AgentCards.agentId cardB; AgentCards.agentId cardA] (messageId letter)
    letterBody
  with
  | Some message => message
  | None => SignedMessages.mkMessage "" "" [] "" "" "" (mkJws "" "" "") (Wire.mkHeader "" "" "") 0
  end.

Definition authorityOf (card : AgentCards.AgentCard) : OpeningAuthority :=
  mkAuthority (AgentCards.publicKey card)
    (match importAgreementKey (AgentCards.publicKey card) with Some key => key | None => "" end).

Lemma sealed_size_exact_witness :
  sealedByteLength 13 2 = Some (size letterBody) /\
  exists largest, maximumPlaintextByteLength 2 = Some largest /\
    (size letterBody <= SignedMessages.MAXIMUM_BODY_BYTES <-> 13 <= largest)%Z.
Proof.
  apply (sealed_size_exact (E := jwe) (@eq string) salt "entropy" letter letterBody);
    [reflexivity|vm_compute; reflexivity|vm_compute; reflexivity|vm_compute; reflexivity
    |vm_compute; reflexivity].
Defined.

Lemma sealed_body_opens_witness :
  open cardB (authorityOf cardB) envelope = Some "hello, sealed".
Proof.
  apply (sealed_body_opens (E := jwe) (@eq string) salt "entropy" letter letterBody cardB (authorityOf cardB) envelope);
    try (vm_compute; reflexivity).
  - apply list_elem_of_here.
  - intros key Hkey. vm_compute in Hkey. injection Hkey as <-. vm_compute. reflexivity.
Defined.

(** The witness opens the letter with both members' keys: the two decrypted
    texts are the salted letter. *)
Lemma one_plaintext_per_body_witness :
  exists saltedA saltedB, slice SALT_BYTES saltedA = "hello, sealed" /\
    slice SALT_BYTES saltedB = "hello, sealed" /\ sha256 saltedA = sha256 saltedB.
Proof.
  assert (open cardA (authorityOf cardA) envelope = Some "hello, sealed") as HA
    by (vm_compute; reflexivity).
  assert (open cardB (authorityOf cardB) envelope = Some "hello, sealed") as HB
    by (vm_compute; reflexivity).
  destruct (one_plaintext_per_body cardA cardB (authorityOf cardA) (authorityOf cardB)
    envelope envelope _ _ HA HB eq_refl)
    as (_ & _ & r & eA & eB & saltedA & saltedB & Hr & HdA & HdB & Hp & Hq & _).
  exists saltedA, saltedB. split; [by symmetry|]. split; [by symmetry|].
  cbn [generalDecrypt jwe recipients ciphertext] in HdA, HdB.
  destruct (decide _); [|done]. destruct (decide _); [|done]. congruence.
Defined.

End SealedBodyRuns.
