(* ===== verification/RecordSchemas.v ===== *)
(** RecordSchemas: the closed values of a conversation's history and their
    schemas (packages/client/src/communication/records/schemas.ts and the
    content schema of records/values.ts).

    A value is what its schema decodes to; [toJson] lists the properties in
    the schema's order.  [encodedSignedMessage] and [encodedAgentCard] are the
    plain JWS structures, whose own schemas check them where they are read. *)
From S2P Require Import Prelude JsMap Json JsString Identifiers CollectivePart SignedMessages.
Import Json Identifiers CollectivePart AgentKey.
Local Open Scope string_scope.

Module RecordSchemas.

(** ** Values *)

Record MembershipDescriptor := mkDescriptor {
  md_version : string;
  md_conversationId : string;
  md_members : list Jws;
}.

Record PostIntent := mkIntent {
  pi_version : string;
  pi_conversationId : string;
  pi_membershipHash : string;
  authorAgentId : string;
  postId : string;
  content : PostContent;
}.

Record GenesisAnchorBody := mkGenesisAnchor {
  ga_version : string;
  ga_conversationId : string;
  ga_membershipHash : string;
  ga_routerInstanceId : string;
}.

Record ReanchorBody := mkReanchor {
  rb_version : string;
  rb_conversationId : string;
  rb_membershipHash : string;
  rb_previousAnchorHash : string;
  rb_selectedRecordHash : string;
  rb_routerInstanceId : string;
}.

Inductive AnchorBody :=
  | AnchorGenesis (body : GenesisAnchorBody)
  | AnchorReanchor (body : ReanchorBody).

Record GenesisActionCore := mkGenesis {
  gc_version : string;
  gc_conversationId : string;
  gc_membership : MembershipDescriptor;
  gc_anchor : GenesisAnchorBody;
  gc_postIntent : PostIntent;
  gc_postIntentHash : string;
}.

Record PostActionCore := mkPostAction {
  pa_version : string;
  pa_conversationId : string;
  pa_membershipHash : string;
  pa_anchorHash : string;
  pa_previousRecordHash : string;
  pa_postIntent : PostIntent;
  pa_postIntentHash : string;
}.

Inductive ActionCore :=
  | GENESIS (action : GenesisActionCore)
  | POST (action : PostActionCore).

Inductive RecordCore :=
  | GenesisRecordCore (version : string) (membership : MembershipDescriptor)
      (anchorHash : string) (action : GenesisActionCore) (actionHash : string)
  | PostRecordCore (version : string) (membershipHash anchorHash : string)
      (action : PostActionCore) (actionHash : string).

Record CatchUpRequest := mkCatchUpRequest {
  cr_version : string;
  cr_conversationId : string;
  cr_membershipHash : string;
  requesterAgentId : string;
  knownRecordHash : option string;
  knownAnchorHash : option string;
}.

Inductive CatchUpItemKind := CertifiedRecordKind | CompletedReanchorKind | IncompleteKind.
Global Instance CatchUpItemKind_eq_dec : EqDecision CatchUpItemKind.
Proof. solve_decision. Defined.

Inductive EvidenceStatement :=
  | ActionSignature (version signer actionHash : string)
  | DurabilityVote (version signer conversationId membershipHash recordHash : string)
  | ReanchorVote (version signer anchorHash : string) (reanchor : ReanchorBody)
  | CatchUpAttestation (version signer : string) (request : CatchUpRequest)
      (itemKind : CatchUpItemKind) (itemHash : option string) (hasMore : bool).

Record ActionCertificate := mkActionCertificate {
  ac_version : string; ac_actionHash : string; ac_signatures : list Jws }.
Record DurabilityCertificate := mkDurabilityCertificate {
  dc_version : string; dc_recordHash : string; dc_votes : list Jws }.
Record ReanchorCertificate := mkReanchorCertificate {
  rc_version : string; rc_anchorHash : string; rc_votes : list Jws }.

Record CompletedReanchor := mkCompleted {
  cp_version : string;
  cp_anchorHash : string;
  cp_reanchor : ReanchorBody;
  cp_certificate : ReanchorCertificate;
}.

Inductive RouterAnchor :=
  | RouterGenesis (body : GenesisAnchorBody)
  | RouterReanchor (completed : CompletedReanchor).

Record ActionCertifiedRecord := mkActionCertified {
  acr_version : string;
  recordHash : string;
  recordCore : RecordCore;
  routerAnchor : RouterAnchor;
  actionCertificate : ActionCertificate;
}.

Record CertifiedRecord := mkCertified {
  cer_version : string;
  actionCertifiedRecord : ActionCertifiedRecord;
  durabilityCertificate : DurabilityCertificate;
}.

Inductive CatchUpItem :=
  | ItemRecord (record : CertifiedRecord)
  | ItemReanchor (completed : CompletedReanchor).

Record CatchUpPage := mkPage {
  pg_version : string;
  pg_request : CatchUpRequest;
  pg_item : CatchUpItem;
  pg_hasMore : bool;
  pg_attestation : Jws;
}.

Record CatchUpIncomplete := mkIncomplete {
  in_version : string;
  in_request : CatchUpRequest;
  in_attestation : Jws;
}.

(** The fields both kinds of action and record core share. *)
Definition postIntent (action : ActionCore) : PostIntent :=
  match action with GENESIS a => gc_postIntent a | POST a => pa_postIntent a end.
Definition postIntentHash (action : ActionCore) : string :=
  match action with GENESIS a => gc_postIntentHash a | POST a => pa_postIntentHash a end.
Definition conversationId (action : ActionCore) : string :=
  match action with GENESIS a => gc_conversationId a | POST a => pa_conversationId a end.
Definition previousRecordHash (action : ActionCore) : option string :=
  match action with GENESIS _ => None | POST a => Some (pa_previousRecordHash a) end.

Definition core_action (core : RecordCore) : ActionCore :=
  match core with
  | GenesisRecordCore _ _ _ action _ => GENESIS action
  | PostRecordCore _ _ _ action _ => POST action
  end.
Definition core_anchorHash (core : RecordCore) : string :=
  match core with
  | GenesisRecordCore _ _ anchorHash _ _ | PostRecordCore _ _ anchorHash _ _ => anchorHash
  end.
Definition core_actionHash (core : RecordCore) : string :=
  match core with
  | GenesisRecordCore _ _ _ _ actionHash | PostRecordCore _ _ _ _ actionHash => actionHash
  end.

Definition signerAgentId (statement : EvidenceStatement) : string :=
  match statement with
  | ActionSignature _ signer _ | DurabilityVote _ signer _ _ _
  | ReanchorVote _ signer _ _ | CatchUpAttestation _ signer _ _ _ _ => signer
  end.

(** ** Encoding *)

Definition versionAndKind (version kind : string) (fields : list (string * JsonValue)) : JsonValue :=
  JObject (("sharnessVersion", JString version) :: ("kind", JString kind) :: fields).

Definition nullOr (value : option string) : JsonValue :=
  match value with Some s => JString s | None => JNull end.

Definition partJson (part : ContentPart) : JsonValue :=
  match part with
  | TextPart text => JObject [("type", JString "text"); ("text", JString text)]
  | DataPart value => JObject [("type", JString "data"); ("value", value)]
  end.
Definition contentJson (c : PostContent) : JsonValue := JArray (partJson <$> c).

Definition descriptorJson (d : MembershipDescriptor) : JsonValue :=
  versionAndKind (md_version d) "membership_descriptor"
    [("conversationId", JString (md_conversationId d));
     ("members", JArray (jwsJson <$> md_members d))].

Definition intentJson (i : PostIntent) : JsonValue :=
  versionAndKind (pi_version i) "post_intent"
    [("conversationId", JString (pi_conversationId i));
     ("membershipHash", JString (pi_membershipHash i));
     ("authorAgentId", JString (authorAgentId i)); ("postId", JString (postId i));
     ("content", contentJson (content i))].

Definition genesisAnchorJson (a : GenesisAnchorBody) : JsonValue :=
  versionAndKind (ga_version a) "genesis_anchor_body"
    [("conversationId", JString (ga_conversationId a));
     ("membershipHash", JString (ga_membershipHash a));
     ("routerInstanceId", JString (ga_routerInstanceId a))].

Definition reanchorJson (r : ReanchorBody) : JsonValue :=
  versionAndKind (rb_version r) "reanchor_body"
    [("conversationId", JString (rb_conversationId r));
     ("membershipHash", JString (rb_membershipHash r));
     ("previousAnchorHash", JString (rb_previousAnchorHash r));
     ("selectedRecordHash", JString (rb_selectedRecordHash r));
     ("routerInstanceId", JString (rb_routerInstanceId r))].

Definition anchorJson (a : AnchorBody) : JsonValue :=
  match a with AnchorGenesis b => genesisAnchorJson b | AnchorReanchor b => reanchorJson b end.

Definition genesisJson (a : GenesisActionCore) : JsonValue :=
  versionAndKind (gc_version a) "GENESIS"
    [("conversationId", JString (gc_conversationId a));
     ("membership", descriptorJson (gc_membership a)); ("anchor", genesisAnchorJson (gc_anchor a));
     ("previousRecordHash", JNull); ("postIntent", intentJson (gc_postIntent a));
     ("postIntentHash", JString (gc_postIntentHash a))].

Definition postJson (a : PostActionCore) : JsonValue :=
  versionAndKind (pa_version a) "POST"
    [("conversationId", JString (pa_conversationId a));
     ("membershipHash", JString (pa_membershipHash a));
     ("anchorHash", JString (pa_anchorHash a));
     ("previousRecordHash", JString (pa_previousRecordHash a));
     ("postIntent", intentJson (pa_postIntent a));
     ("postIntentHash", JString (pa_postIntentHash a))].

Definition actionJson (a : ActionCore) : JsonValue :=
  match a with GENESIS a => genesisJson a | POST a => postJson a end.

Definition recordCoreJson (core : RecordCore) : JsonValue :=
  match core with
  | GenesisRecordCore version membership anchorHash action actionHash =>
      versionAndKind version "record_core"
        [("membership", descriptorJson membership); ("anchorHash", JString anchorHash);
         ("action", genesisJson action); ("actionHash", JString actionHash)]
  | PostRecordCore version membershipHash anchorHash action actionHash =>
      versionAndKind version "record_core"
        [("membershipHash", JString membershipHash); ("anchorHash", JString anchorHash);
         ("action", postJson action); ("actionHash", JString actionHash)]
  end.

Definition catchUpRequestJson (r : CatchUpRequest) : JsonValue :=
  versionAndKind (cr_version r) "catch_up_request"
    [("conversationId", JString (cr_conversationId r));
     ("membershipHash", JString (cr_membershipHash r));
     ("requesterAgentId", JString (requesterAgentId r));
     ("knownRecordHash", nullOr (knownRecordHash r));
     ("knownAnchorHash", nullOr (knownAnchorHash r))].

Definition itemKindText (k : CatchUpItemKind) : string :=
  match k with
  | CertifiedRecordKind => "certified_record"
  | CompletedReanchorKind => "completed_reanchor"
  | IncompleteKind => "incomplete"
  end.

Definition statementJson (s : EvidenceStatement) : JsonValue :=
  match s with
  | ActionSignature version signer actionHash =>
      versionAndKind version "action_signature"
        [("signerAgentId", JString signer); ("actionHash", JString actionHash)]
  | DurabilityVote version signer conversationId membershipHash recordHash =>
      versionAndKind version "durability_vote"
        [("signerAgentId", JString signer); ("conversationId", JString conversationId);
         ("membershipHash", JString membershipHash); ("recordHash", JString recordHash)]
  | ReanchorVote version signer anchorHash reanchor =>
      versionAndKind version "reanchor_vote"
        [("signerAgentId", JString signer); ("anchorHash", JString anchorHash);
         ("reanchor", reanchorJson reanchor)]
  | CatchUpAttestation version signer request itemKind itemHash hasMore =>
      versionAndKind version "catch_up_attestation"
        [("signerAgentId", JString signer); ("request", catchUpRequestJson request);
         ("itemKind", JString (itemKindText itemKind)); ("itemHash", nullOr itemHash);
         ("hasMore", JBool hasMore)]
  end.

(** ** Decoding *)

Section decoding.
Context `{Base64Url} `{HostJson}.
Context (versions : option Wire.WireVersions).

Definition ConversationId (value : string) : bool := isCanonicalIdentifier "cnv_" value.
Definition MembershipHash (value : string) : bool := isCanonicalIdentifier "mbr_" value.
Definition PostIntentHash (value : string) : bool := isCanonicalIdentifier "pit_" value.
Definition AnchorHash (value : string) : bool := isCanonicalIdentifier "anc_" value.
Definition ActionHash (value : string) : bool := isCanonicalIdentifier "ach_" value.
Definition PostId (value : string) : bool := isCanonicalIdentifier "pst_" value.
Definition RouterInstanceId (value : string) : bool := canonicalValue "rti_" 16 value.

(** A closed struct with its version and kind. *)
Definition versioned (kind : string) (fields : list string) (v : JsonValue) :
    option (string * list (string * JsonValue)) :=
  o ← exactStruct ("sharnessVersion" :: "kind" :: fields) v;
  version ← keyword (filtered (Wire.history versions)) o "sharnessVersion";
  _ ← keyword (literal kind) o "kind";
  Some (version, o).

Definition decodeNull (v : JsonValue) : option unit :=
  match v with JNull => Some tt | _ => None end.

Definition decodeNullOr (p : string -> bool) (v : JsonValue) : option (option string) :=
  match v with JNull => Some None | _ => Some <$> filtered p v end.

(** A tuple of at least [least] elements under [Schema.maxItems]. *)
Definition bounded {A} (least : nat) (l : list A) : option (list A) :=
  if bool_decide (least <= length l <= maximumMembers)%nat then Some l else None.

Definition decodePart (v : JsonValue) : option ContentPart :=
  match
    (o ← exactStruct ["type"; "text"] v;
     _ ← keyword (literal "text") o "type";
     text ← keyword decodeString o "text";
     Some (TextPart text))
  with
  | Some part => Some part
  | None =>
      o ← exactStruct ["type"; "value"] v;
      _ ← keyword (literal "data") o "type";
      value ← jm_get o "value";
      Some (DataPart value)
  end.

Definition canonicalContentBytes (c : PostContent) : option Z :=
  (fun text => Z.of_nat (String.length text)) <$> canonicalize (contentJson c).

Definition decodeContent (v : JsonValue) : option PostContent :=
  c ← decodeArray decodePart v;
  if isContent canonicalContentBytes c then Some c else None.

Definition decodeDescriptor (v : JsonValue) : option MembershipDescriptor :=
  '(version, o) ← versioned "membership_descriptor" ["conversationId"; "members"] v;
  conversationId ← keyword (filtered ConversationId) o "conversationId";
  members ← keyword (decodeArray decodeJws) o "members" ≫= bounded 2;
  Some (mkDescriptor version conversationId members).

Definition decodeIntent (v : JsonValue) : option PostIntent :=
  '(version, o) ← versioned "post_intent"
    ["conversationId"; "membershipHash"; "authorAgentId"; "postId"; "content"] v;
  conversationId ← keyword (filtered ConversationId) o "conversationId";
  membershipHash ← keyword (filtered MembershipHash) o "membershipHash";
  authorAgentId ← keyword (filtered Wire.AgentId) o "authorAgentId";
  postId ← keyword (filtered PostId) o "postId";
  content ← keyword decodeContent o "content";
  Some (mkIntent version conversationId membershipHash authorAgentId postId content).

Definition decodeGenesisAnchor (v : JsonValue) : option GenesisAnchorBody :=
  '(version, o) ← versioned "genesis_anchor_body"
    ["conversationId"; "membershipHash"; "routerInstanceId"] v;
  conversationId ← keyword (filtered ConversationId) o "conversationId";
  membershipHash ← keyword (filtered MembershipHash) o "membershipHash";
  routerInstanceId ← keyword (filtered RouterInstanceId) o "routerInstanceId";
  Some (mkGenesisAnchor version conversationId membershipHash routerInstanceId).

Definition decodeReanchor (v : JsonValue) : option ReanchorBody :=
  '(version, o) ← versioned "reanchor_body"
    ["conversationId"; "membershipHash"; "previousAnchorHash"; "selectedRecordHash";
     "routerInstanceId"] v;
  conversationId ← keyword (filtered ConversationId) o "conversationId";
  membershipHash ← keyword (filtered MembershipHash) o "membershipHash";
  previousAnchorHash ← keyword (filtered AnchorHash) o "previousAnchorHash";
  selectedRecordHash ← keyword (filtered RecordHash) o "selectedRecordHash";
  routerInstanceId ← keyword (filtered RouterInstanceId) o "routerInstanceId";
  Some (mkReanchor version conversationId membershipHash previousAnchorHash
    selectedRecordHash routerInstanceId).

Definition decodeGenesis (v : JsonValue) : option GenesisActionCore :=
  '(version, o) ← versioned "GENESIS"
    ["conversationId"; "membership"; "anchor"; "previousRecordHash"; "postIntent";
     "postIntentHash"] v;
  conversationId ← keyword (filtered ConversationId) o "conversationId";
  membership ← keyword decodeDescriptor o "membership";
  anchor ← keyword decodeGenesisAnchor o "anchor";
  _ ← keyword decodeNull o "previousRecordHash";
  intent ← keyword decodeIntent o "postIntent";
  intentHash ← keyword (filtered PostIntentHash) o "postIntentHash";
  Some (mkGenesis version conversationId membership anchor intent intentHash).

Definition decodePost (v : JsonValue) : option PostActionCore :=
  '(version, o) ← versioned "POST"
    ["conversationId"; "membershipHash"; "anchorHash"; "previousRecordHash"; "postIntent";
     "postIntentHash"] v;
  conversationId ← keyword (filtered ConversationId) o "conversationId";
  membershipHash ← keyword (filtered MembershipHash) o "membershipHash";
  anchorHash ← keyword (filtered AnchorHash) o "anchorHash";
  previous ← keyword (filtered RecordHash) o "previousRecordHash";
  intent ← keyword decodeIntent o "postIntent";
  intentHash ← keyword (filtered PostIntentHash) o "postIntentHash";
  Some (mkPostAction version conversationId membershipHash anchorHash previous intent intentHash).

(** [Schema.Union]: the first member that decodes. *)
Definition orElse {A} (first second : option A) : option A :=
  match first with Some a => Some a | None => second end.

Definition decodeRecordCore (v : JsonValue) : option RecordCore :=
  orElse
    ('(version, o) ← versioned "record_core" ["membership"; "anchorHash"; "action"; "actionHash"] v;
     membership ← keyword decodeDescriptor o "membership";
     anchorHash ← keyword (filtered AnchorHash) o "anchorHash";
     action ← keyword decodeGenesis o "action";
     actionHash ← keyword (filtered ActionHash) o "actionHash";
     Some (GenesisRecordCore version membership anchorHash action actionHash))
    ('(version, o) ← versioned "record_core"
       ["membershipHash"; "anchorHash"; "action"; "actionHash"] v;
     membershipHash ← keyword (filtered MembershipHash) o "membershipHash";
     anchorHash ← keyword (filtered AnchorHash) o "anchorHash";
     action ← keyword decodePost o "action";
     actionHash ← keyword (filtered ActionHash) o "actionHash";
     Some (PostRecordCore version membershipHash anchorHash action actionHash)).

Definition decodeCatchUpRequest (v : JsonValue) : option CatchUpRequest :=
  '(version, o) ← versioned "catch_up_request"
    ["conversationId"; "membershipHash"; "requesterAgentId"; "knownRecordHash";
     "knownAnchorHash"] v;
  conversationId ← keyword (filtered ConversationId) o "conversationId";
  membershipHash ← keyword (filtered MembershipHash) o "membershipHash";
  requester ← keyword (filtered Wire.AgentId) o "requesterAgentId";
  knownRecord ← keyword (decodeNullOr RecordHash) o "knownRecordHash";
  knownAnchor ← keyword (decodeNullOr AnchorHash) o "knownAnchorHash";
  if eqb (bool_decide (knownRecord = None)) (bool_decide (knownAnchor = None))
  then Some (mkCatchUpRequest version conversationId membershipHash requester knownRecord knownAnchor)
  else None.

Definition decodeItemKind (v : JsonValue) : option CatchUpItemKind :=
  s ← decodeString v;
  if decide (s = "certified_record") then Some CertifiedRecordKind
  else if decide (s = "completed_reanchor") then Some CompletedReanchorKind
  else if decide (s = "incomplete") then Some IncompleteKind else None.

Definition decodeStatement (v : JsonValue) : option EvidenceStatement :=
  orElse
    ('(version, o) ← versioned "action_signature" ["signerAgentId"; "actionHash"] v;
     signer ← keyword (filtered Wire.AgentId) o "signerAgentId";
     actionHash ← keyword (filtered ActionHash) o "actionHash";
     Some (ActionSignature version signer actionHash))
  (orElse
    ('(version, o) ← versioned "durability_vote"
       ["signerAgentId"; "conversationId"; "membershipHash"; "recordHash"] v;
     signer ← keyword (filtered Wire.AgentId) o "signerAgentId";
     conversationId ← keyword (filtered ConversationId) o "conversationId";
     membershipHash ← keyword (filtered MembershipHash) o "membershipHash";
     recordHash ← keyword (filtered RecordHash) o "recordHash";
     Some (DurabilityVote version signer conversationId membershipHash recordHash))
  (orElse
    ('(version, o) ← versioned "reanchor_vote" ["signerAgentId"; "anchorHash"; "reanchor"] v;
     signer ← keyword (filtered Wire.AgentId) o "signerAgentId";
     anchorHash ← keyword (filtered AnchorHash) o "anchorHash";
     reanchor ← keyword decodeReanchor o "reanchor";
     Some (ReanchorVote version signer anchorHash reanchor))
    ('(version, o) ← versioned "catch_up_attestation"
       ["signerAgentId"; "request"; "itemKind"; "itemHash"; "hasMore"] v;
     signer ← keyword (filtered Wire.AgentId) o "signerAgentId";
     request ← keyword decodeCatchUpRequest o "request";
     itemKind ← keyword decodeItemKind o "itemKind";
     itemHash ← keyword (decodeNullOr (fun s => RecordHash s || AnchorHash s)) o "itemHash";
     hasMore ← keyword decodeBoolean o "hasMore";
     Some (CatchUpAttestation version signer request itemKind itemHash hasMore)))).

Definition decodeCertificate (kind hashKey signersKey : string) (hash : string -> bool)
    (v : JsonValue) : option (string * string * list Jws) :=
  '(version, o) ← versioned kind [hashKey; signersKey] v;
  h ← keyword (filtered hash) o hashKey;
  signers ← keyword (decodeArray decodeJws) o signersKey ≫= bounded 1;
  Some (version, h, signers).

Definition decodeCompletedReanchor (v : JsonValue) : option CompletedReanchor :=
  '(version, o) ← versioned "completed_reanchor" ["anchorHash"; "reanchor"; "certificate"] v;
  anchorHash ← keyword (filtered AnchorHash) o "anchorHash";
  reanchor ← keyword decodeReanchor o "reanchor";
  '(cv, ch, votes) ← keyword
    (decodeCertificate "reanchor_certificate" "anchorHash" "votes" AnchorHash) o "certificate";
  Some (mkCompleted version anchorHash reanchor (mkReanchorCertificate cv ch votes)).

#[local] Instance descriptor_schema : JsonSchema MembershipDescriptor :=
  {| toJson := descriptorJson; ofJson := decodeDescriptor |}.
#[local] Instance intent_schema : JsonSchema PostIntent :=
  {| toJson := intentJson; ofJson := decodeIntent |}.
#[local] Instance anchor_schema : JsonSchema AnchorBody :=
  {| toJson := anchorJson;
     ofJson := fun v => orElse (AnchorGenesis <$> decodeGenesisAnchor v)
                               (AnchorReanchor <$> decodeReanchor v) |}.
#[local] Instance genesis_anchor_schema : JsonSchema GenesisAnchorBody :=
  {| toJson := genesisAnchorJson; ofJson := decodeGenesisAnchor |}.
#[local] Instance reanchor_schema : JsonSchema ReanchorBody :=
  {| toJson := reanchorJson; ofJson := decodeReanchor |}.
#[local] Instance action_schema : JsonSchema ActionCore :=
  {| toJson := actionJson;
     ofJson := fun v => orElse (GENESIS <$> decodeGenesis v) (POST <$> decodePost v) |}.
#[local] Instance record_core_schema : JsonSchema RecordCore :=
  {| toJson := recordCoreJson; ofJson := decodeRecordCore |}.
#[local] Instance request_schema : JsonSchema CatchUpRequest :=
  {| toJson := catchUpRequestJson; ofJson := decodeCatchUpRequest |}.
#[local] Instance statement_schema : JsonSchema EvidenceStatement :=
  {| toJson := statementJson; ofJson := decodeStatement |}.

End decoding.
End RecordSchemas.
