(* ===== verification/Records.v ===== *)
(** Records: hashes and verification of a conversation's records
    (packages/client/src/communication/records/encoding/codec.ts and
    records/verification.ts).

    Every failure of these functions is the one untyped
    [ClientRepresentationError]: [None]. *)
From S2P Require Import Prelude JsMap Json JsString Identifiers CollectivePart SignedMessages.
From S2P Require Import RecordSchemas.
From Stdlib Require Import Ascii.
Import Identifiers CollectivePart CanonicalJson ClientJson RecordSchemas.
Local Open Scope string_scope.

Module Records.
Section records.
Context `{Base64Url} `{HostJson} `{Jose} `{Sha256}.
Context (versions : option Wire.WireVersions) (maximumEncodedBytes : Z).

#[local] Instance descriptor_i : JsonSchema MembershipDescriptor := descriptor_schema versions.
#[local] Instance intent_i : JsonSchema PostIntent := intent_schema versions.
#[local] Instance anchor_i : JsonSchema AnchorBody := anchor_schema versions.
#[local] Instance genesis_anchor_i : JsonSchema GenesisAnchorBody := genesis_anchor_schema versions.
#[local] Instance reanchor_i : JsonSchema ReanchorBody := reanchor_schema versions.
#[local] Instance action_i : JsonSchema ActionCore := action_schema versions.
#[local] Instance record_core_i : JsonSchema RecordCore := record_core_schema versions.
#[local] Instance request_i : JsonSchema CatchUpRequest := request_schema versions.
#[local] Instance statement_i : JsonSchema EvidenceStatement := statement_schema versions.

Abbreviation AgentCard := AgentCards.AgentCard.
Abbreviation SignedMessage := SignedMessages.SignedMessage.

(** ** Hashes *)

Definition CLIENT_DOMAIN : string := "org.social-harness/client/v2/".
Definition NUL : string := String "000" EmptyString.
Definition EVIDENCE_MESSAGE_ID_DOMAIN : string := CLIENT_DOMAIN ++ "evidence-message-id" ++ NUL.
Definition AGENT_ID_BYTE_LENGTH : nat := 16.
Definition MESSAGE_ID_BYTE_LENGTH : nat := 16.

Definition domainHash {A} `{JsonSchema A} (artifact prefix : string) (output : string -> bool)
    (value : A) : option string :=
  bytes ← encodeCanonical value;
  let hash := prefix ++ encodeBase64Url (sha256 (CLIENT_DOMAIN ++ artifact ++ NUL ++ bytes)) in
  if output hash then Some hash else None.

Definition sortedDistinct (agentIds : list string) : bool :=
  isStrictlyAscending compareAgentIds agentIds.

Definition decodeAgentIdBytes (agentId : string) : option string :=
  bytes ← decodeCanonicalBase64Url (slice 4 agentId);
  if decide (String.length bytes = AGENT_ID_BYTE_LENGTH) then Some bytes else None.

(** [ConversationIdentityInput], which is hashed and never decoded. *)
Record ConversationIdentityInput := mkIdentity { memberAgentIds : list string }.
#[local] Instance identity_i : JsonSchema ConversationIdentityInput := {|
  toJson := fun i => JObject [("kind", JString "conversation_identity");
    ("memberAgentIds", JArray (JString <$> memberAgentIds i))];
  ofJson := fun _ => None |}.

Definition deriveConversationId (memberAgentIds : list string) : option string :=
  if sortedDistinct memberAgentIds
  then domainHash "conversation" "cnv_" ConversationId (mkIdentity memberAgentIds)
  else None.

Definition hashMembershipDescriptor (membership : MembershipDescriptor) : option string :=
  domainHash "membership" "mbr_" MembershipHash membership.
Definition hashPostIntent (intent : PostIntent) : option string :=
  domainHash "post-intent" "pit_" PostIntentHash intent.
Definition hashAnchor (anchor : AnchorBody) : option string :=
  domainHash "anchor" "anc_" AnchorHash anchor.
Definition hashAction (action : ActionCore) : option string :=
  domainHash "action" "ach_" ActionHash action.
Definition hashRecord (record : RecordCore) : option string :=
  domainHash "record" "rch_" RecordHash record.

(** [digest.subarray(0, n)]. *)
Definition subarray (n : nat) (bytes : string) : string := String.substring 0 n bytes.

Definition deriveEvidenceMessageId (statement : EvidenceStatement) : option string :=
  signerBytes ← decodeAgentIdBytes (signerAgentId statement);
  statementBytes ← encodeCanonical statement;
  let digest := subarray MESSAGE_ID_BYTE_LENGTH
    (sha256 (EVIDENCE_MESSAGE_ID_DOMAIN ++ signerBytes ++ statementBytes)) in
  let messageId := "msg_" ++ encodeBase64Url digest in
  if Wire.MessageId messageId then Some messageId else None.

(** [signEvidenceMessage]: a statement over its signer's own key, to itself. *)
Definition signEvidenceMessage (statement : EvidenceStatement) (agentCard : AgentCard)
    (authorityPublicKey : string) (signingKey : CryptoKey) : option SignedMessage :=
  if decide (signerAgentId statement <> AgentCards.agentId agentCard) then None
  else
    messageId ← deriveEvidenceMessageId statement;
    body ← encodeCanonical statement;
    SignedMessages.sign versions maximumEncodedBytes
      (SignedMessages.mkSign agentCard authorityPublicKey signingKey
        [AgentCards.agentId agentCard] messageId body).

(** ** Membership *)

Record VerifiedMembership := mkVerified {
  descriptor : MembershipDescriptor;
  hash : string;
  members : list AgentCard;
}.

(** [new Set(values).size]. *)
Definition distinctCount (values : list string) : nat := length (remove_dups values).

Definition verifyMembershipDescriptor (d : MembershipDescriptor)
    (registrySignerPublicKey : string) : option VerifiedMembership :=
  verified ← mapM (fun representation =>
    card ← AgentCards.decodeCard versions representation;
    AgentCards.verifyAgentCard card registrySignerPublicKey) (md_members d);
  let agentIds := AgentCards.agentId <$> verified in
  let agentNames := AgentCards.agentName <$> verified in
  if bool_decide (length verified < 2)%nat || negb (sortedDistinct agentIds) ||
     negb (bool_decide (distinctCount agentNames = length verified))
  then None
  else
    conversationId ← deriveConversationId agentIds;
    if decide (conversationId <> md_conversationId d) then None
    else
      hash ← hashMembershipDescriptor d;
      Some (mkVerified d hash verified).

Definition memberCard (membership : VerifiedMembership) (agentId : string) : option AgentCard :=
  snd <$> list_find (fun card => AgentCards.agentId card = agentId) (members membership).

Definition memberIds (membership : VerifiedMembership) : list string :=
  AgentCards.agentId <$> members membership.

(** ** Evidence *)

Definition verifyOuterMessage (message : SignedMessage) (membership : VerifiedMembership) :
    option SignedMessage :=
  card ← memberCard membership (SignedMessages.senderAgentId message);
  if decide (SignedMessages.recipientAgentIds message <> memberIds membership) then None
  else SignedMessages.verify message card.

Record VerifiedEvidence := mkEvidence {
  ev_message : SignedMessage;
  statement : EvidenceStatement;
}.

(** [supplied] is the statement ingress may have decoded already. *)
Definition verifyStableEvidence (representation : Jws) (membership : VerifiedMembership)
    (supplied : option EvidenceStatement) : option VerifiedEvidence :=
  message ← SignedMessages.decodeMessage versions maximumEncodedBytes representation;
  card ← memberCard membership (SignedMessages.senderAgentId message);
  if decide (SignedMessages.recipientAgentIds message <> [SignedMessages.senderAgentId message])
  then None
  else
    verifiedMessage ← SignedMessages.verify message card;
    statement ← match supplied with
                | Some statement => Some statement
                | None => decodeCanonical (SignedMessages.body message)
                end;
    bytes ← encodeCanonical statement;
    if negb (sameBytes bytes (SignedMessages.body message)) then None
    else
      expectedMessageId ← deriveEvidenceMessageId statement;
      if bool_decide (signerAgentId statement <> SignedMessages.senderAgentId message) ||
         bool_decide (expectedMessageId <> SignedMessages.messageId message)
      then None else Some (mkEvidence verifiedMessage statement).

Definition verifyDeliveredEvidence (outer evidence : SignedMessage)
    (membership : VerifiedMembership) (supplied : option EvidenceStatement) :
    option VerifiedEvidence :=
  _ ← verifyOuterMessage outer membership;
  verifyStableEvidence (SignedMessages.representation evidence) membership supplied.

(** [statementMatches] is false on a statement of another kind. *)
Definition verifyEvidenceSet (representations : list Jws) (membership : VerifiedMembership)
    (requiredCount : nat) (statementMatches : EvidenceStatement -> option bool) :
    option (list VerifiedEvidence) :=
  if decide (length (members membership) < length representations)%nat then None
  else if decide (length representations < requiredCount)%nat then None
  else
    verified ← mapM (fun representation =>
      verifyStableEvidence representation membership None) representations;
    let signers := (fun evidence => signerAgentId (statement evidence)) <$> verified in
    if negb (sortedDistinct signers) then None
    else
      matches ← mapM (fun evidence => statementMatches (statement evidence)) verified;
      if existsb negb matches then None else Some verified.

Definition quorumThreshold (memberCount : nat) : nat :=
  if decide (memberCount < 4)%nat then memberCount
  else (memberCount - (memberCount - 1) / 3)%nat.

(** ** Actions *)

Record VerifiedActionCore := mkVerifiedAction {
  va_actionHash : string;
  va_anchorHash : string;
}.

Definition actionReferencesMembership (action : ActionCore) (membership : VerifiedMembership) :
    bool :=
  let intent := postIntent action in
  let expected := md_conversationId (descriptor membership) in
  if bool_decide (conversationId action <> expected) ||
     bool_decide (pi_conversationId intent <> expected)
  then false
  else if bool_decide (pi_membershipHash intent <> hash membership) ||
          negb (bool_decide (is_Some (memberCard membership (authorAgentId intent))))
  then false
  else true.

Definition verifyActionCore (action : ActionCore) (membership : VerifiedMembership) :
    option VerifiedActionCore :=
  if negb (actionReferencesMembership action membership) then None
  else
    intentHash ← hashPostIntent (postIntent action);
    if decide (intentHash <> postIntentHash action) then None
    else
      match action with
      | GENESIS genesis =>
          same ← equalCanonical (gc_membership genesis) (descriptor membership);
          if negb same ||
             bool_decide (ga_conversationId (gc_anchor genesis) <> gc_conversationId genesis) ||
             bool_decide (ga_membershipHash (gc_anchor genesis) <> hash membership)
          then None
          else
            actionHash ← hashAction action;
            anchorHash ← hashAnchor (AnchorGenesis (gc_anchor genesis));
            Some (mkVerifiedAction actionHash anchorHash)
      | POST post =>
          if decide (pa_membershipHash post <> hash membership) then None
          else
            actionHash ← hashAction action;
            Some (mkVerifiedAction actionHash (pa_anchorHash post))
      end.

Definition verifyActionProposal (action : ActionCore) (membership : VerifiedMembership)
    (outerSenderAgentId : string) : option VerifiedActionCore :=
  verifiedAction ← verifyActionCore action membership;
  if decide (outerSenderAgentId <> authorAgentId (postIntent action)) then None
  else Some verifiedAction.

Definition isGenesis (action : ActionCore) : bool :=
  match action with GENESIS _ => true | POST _ => false end.

Definition actionSignatureMatches (actionHash : string) (s : EvidenceStatement) : option bool :=
  match s with
  | ActionSignature _ _ signed => Some (bool_decide (signed = actionHash))
  | _ => Some false
  end.

Definition verifyActionCertificateEvidence (actionHash : string) (certificate : ActionCertificate)
    (action : ActionCore) (membership : VerifiedMembership) : option string :=
  if decide (ac_actionHash certificate <> actionHash) then None
  else
    let requiredCount := if isGenesis action then length (members membership)
                         else quorumThreshold (length (members membership)) in
    evidence ← verifyEvidenceSet (ac_signatures certificate) membership requiredCount
      (actionSignatureMatches actionHash);
    if existsb (fun e => bool_decide (signerAgentId (statement e) =
         authorAgentId (postIntent action))) evidence
    then Some actionHash else None.

(** ** Anchors *)

Definition verifyCompletedReanchor (completed : CompletedReanchor)
    (membership : VerifiedMembership) : option string :=
  expectedAnchorHash ← hashAnchor (AnchorReanchor (cp_reanchor completed));
  if bool_decide (expectedAnchorHash <> cp_anchorHash completed) ||
     bool_decide (rc_anchorHash (cp_certificate completed) <> expectedAnchorHash) ||
     bool_decide (rb_membershipHash (cp_reanchor completed) <> hash membership) ||
     bool_decide (rb_conversationId (cp_reanchor completed) <>
       md_conversationId (descriptor membership))
  then None
  else
    _ ← verifyEvidenceSet (rc_votes (cp_certificate completed)) membership
      (quorumThreshold (length (members membership)))
      (fun s => match s with
                | ReanchorVote _ _ anchorHash reanchor =>
                    sameReanchor ← equalCanonical reanchor (cp_reanchor completed);
                    Some (sameReanchor && bool_decide (anchorHash = expectedAnchorHash))
                | _ => Some false
                end);
    Some expectedAnchorHash.

(** ** Records *)

Definition verifyRecordMembership (core : RecordCore) (membership : VerifiedMembership) :
    option unit :=
  matches ← match core with
            | GenesisRecordCore _ d _ _ _ => equalCanonical d (descriptor membership)
            | PostRecordCore _ h _ _ _ => Some (bool_decide (h = hash membership))
            end;
  if (matches : bool) then Some tt else None.

Definition verifyRecordCore (core : RecordCore) (membership : VerifiedMembership) :
    option string :=
  _ ← verifyRecordMembership core membership;
  verifiedAction ← verifyActionCore (core_action core) membership;
  if bool_decide (core_actionHash core <> va_actionHash verifiedAction) ||
     bool_decide (core_anchorHash core <> va_anchorHash verifiedAction)
  then None else hashRecord core.

Definition verifyRecordRouterAnchor (record : ActionCertifiedRecord)
    (membership : VerifiedMembership) : option unit :=
  match routerAnchor record with
  | RouterGenesis body =>
      anchorHash ← hashAnchor (AnchorGenesis body);
      if bool_decide (anchorHash <> core_anchorHash (recordCore record)) then None
      else if bool_decide (ga_conversationId body <> md_conversationId (descriptor membership)) ||
              bool_decide (ga_membershipHash body <> hash membership)
      then None else Some tt
  | RouterReanchor completed =>
      anchorHash ← verifyCompletedReanchor completed membership;
      if bool_decide (anchorHash <> core_anchorHash (recordCore record)) then None else Some tt
  end.

Definition verifyGenesisRouterAnchor (record : ActionCertifiedRecord) : option unit :=
  match core_action (recordCore record) with
  | POST _ => Some tt
  | GENESIS genesis =>
      match routerAnchor record with
      | RouterReanchor _ => None
      | RouterGenesis body =>
          same ← equalCanonical body (gc_anchor genesis);
          if (same : bool) then Some tt else None
      end
  end.

Definition verifyActionCertifiedRecord (record : ActionCertifiedRecord)
    (membership : VerifiedMembership) : option string :=
  verifiedHash ← verifyRecordCore (recordCore record) membership;
  if decide (recordHash record <> verifiedHash) then None
  else
    _ ← verifyActionCertificateEvidence (core_actionHash (recordCore record))
      (actionCertificate record) (core_action (recordCore record)) membership;
    _ ← verifyRecordRouterAnchor record membership;
    _ ← verifyGenesisRouterAnchor record;
    Some verifiedHash.

Definition durabilityVoteMatches (membership : VerifiedMembership) (verifiedHash : string)
    (s : EvidenceStatement) : option bool :=
  match s with
  | DurabilityVote _ _ conversation membershipHash voted =>
      Some (bool_decide (conversation = md_conversationId (descriptor membership)) &&
        bool_decide (membershipHash = hash membership) && bool_decide (voted = verifiedHash))
  | _ => Some false
  end.

Definition verifyCertifiedRecord (record : CertifiedRecord) (membership : VerifiedMembership) :
    option (list VerifiedEvidence) :=
  verifiedHash ← verifyActionCertifiedRecord (actionCertifiedRecord record) membership;
  let certificate := durabilityCertificate record in
  if decide (dc_recordHash certificate <> verifiedHash) then None
  else verifyEvidenceSet (dc_votes certificate) membership
    (quorumThreshold (length (members membership)))
    (durabilityVoteMatches membership verifiedHash).

(** ** Catch-up *)

Definition verifyCatchUpRequest (request : CatchUpRequest) (membership : VerifiedMembership) :
    option unit :=
  if bool_decide (cr_conversationId request = md_conversationId (descriptor membership)) &&
     bool_decide (cr_membershipHash request = hash membership) &&
     bool_decide (is_Some (memberCard membership (requesterAgentId request)))
  then Some tt else None.

Definition catchUpAttestationMatches (s : EvidenceStatement) (request : CatchUpRequest)
    (itemKind : CatchUpItemKind) (itemHash : option string) (hasMore : bool) : option bool :=
  match s with
  | CatchUpAttestation _ _ stated statedKind statedHash statedMore =>
      sameRequest ← equalCanonical stated request;
      Some (sameRequest && bool_decide (statedKind = itemKind) &&
        bool_decide (statedHash = itemHash) && Bool.eqb statedMore hasMore)
  | _ => Some false
  end.

Definition verifyCatchUpAttestation (representation : Jws) (membership : VerifiedMembership)
    (responseSenderAgentId : string) (request : CatchUpRequest) (itemKind : CatchUpItemKind)
    (itemHash : option string) (hasMore : bool) : option unit :=
  evidence ← verifyStableEvidence representation membership None;
  if decide (signerAgentId (statement evidence) <> responseSenderAgentId) then None
  else
    matches ← catchUpAttestationMatches (statement evidence) request itemKind itemHash hasMore;
    if (matches : bool) then Some tt else None.

Definition certifiedItemExtendsPosition (request : CatchUpRequest) (record : CertifiedRecord) :
    bool :=
  let acr := actionCertifiedRecord record in
  match knownRecordHash request with
  | None =>
      isGenesis (core_action (recordCore acr)) &&
      match routerAnchor acr with RouterGenesis _ => true | RouterReanchor _ => false end
  | Some known =>
      match core_action (recordCore acr) with
      | POST post => bool_decide (pa_previousRecordHash post = known) &&
          bool_decide (Some (pa_anchorHash post) = knownAnchorHash request)
      | GENESIS _ => false
      end
  end.

Definition verifyCertifiedCatchUpItem (request : CatchUpRequest) (item : CertifiedRecord)
    (membership : VerifiedMembership) : option (CatchUpItemKind * string) :=
  if negb (certifiedItemExtendsPosition request item) then None
  else
    _ ← verifyCertifiedRecord item membership;
    Some (CertifiedRecordKind, recordHash (actionCertifiedRecord item)).

Definition verifyReanchorCatchUpItem (request : CatchUpRequest) (item : CompletedReanchor)
    (membership : VerifiedMembership) : option (CatchUpItemKind * string) :=
  if bool_decide (knownRecordHash request = None) ||
     bool_decide (Some (rb_selectedRecordHash (cp_reanchor item)) <> knownRecordHash request) ||
     bool_decide (Some (rb_previousAnchorHash (cp_reanchor item)) <> knownAnchorHash request)
  then None
  else
    _ ← verifyCompletedReanchor item membership;
    Some (CompletedReanchorKind, cp_anchorHash item).

Definition verifyCatchUpItem (page : CatchUpPage) (membership : VerifiedMembership) :
    option (CatchUpItemKind * string) :=
  match pg_item page with
  | ItemRecord item => verifyCertifiedCatchUpItem (pg_request page) item membership
  | ItemReanchor item => verifyReanchorCatchUpItem (pg_request page) item membership
  end.

Definition verifyCatchUpPage (page : CatchUpPage) (membership : VerifiedMembership)
    (responseSenderAgentId : string) : option unit :=
  _ ← verifyCatchUpRequest (pg_request page) membership;
  '(itemKind, itemHash) ← verifyCatchUpItem page membership;
  verifyCatchUpAttestation (pg_attestation page) membership responseSenderAgentId
    (pg_request page) itemKind (Some itemHash) (pg_hasMore page).

Definition verifyCatchUpIncomplete (incomplete : CatchUpIncomplete)
    (membership : VerifiedMembership) (responseSenderAgentId : string) : option unit :=
  _ ← verifyCatchUpRequest (in_request incomplete) membership;
  verifyCatchUpAttestation (in_attestation incomplete) membership responseSenderAgentId
    (in_request incomplete) IncompleteKind None false.

End records.
End Records.
