(* ===== verification/OuterBody.v ===== *)
(** OuterBody: the packets and evidence one member sends the others, sealed in
    a signed envelope (packages/client/src/communication/records/schemas.ts
    and records/encoding/codec.ts, from [DirectPacket] on). *)
From S2P Require Import Prelude JsMap Json JsString Identifiers CollectivePart SignedMessages.
From S2P Require Import SealedBody RecordSchemas Records.
From Stdlib Require Import Ascii.
Import Json Identifiers CollectivePart CanonicalJson ClientJson RecordSchemas Records.
Local Open Scope string_scope.

Module OuterBody.

Record ActionProposal := mkProposal { ap_version : string; ap_action : ActionCore }.

Inductive DirectPacket :=
  | PacketProposal (proposal : ActionProposal)
  | PacketActionCertified (record : ActionCertifiedRecord)
  | PacketCertified (record : CertifiedRecord)
  | PacketReanchor (completed : CompletedReanchor)
  | PacketRequest (request : CatchUpRequest)
  | PacketPage (page : CatchUpPage)
  | PacketIncomplete (incomplete : CatchUpIncomplete).

Inductive DecodedOuterBody :=
  | Direct (packet : DirectPacket)
  | Evidence (message : SignedMessages.SignedMessage).

(** ** Encoding *)

Definition jwsList (messages : list Jws) : JsonValue := JArray (AgentKey.jwsJson <$> messages).

Definition completedJson (c : CompletedReanchor) : JsonValue :=
  versionAndKind (cp_version c) "completed_reanchor"
    [("anchorHash", JString (cp_anchorHash c)); ("reanchor", reanchorJson (cp_reanchor c));
     ("certificate", versionAndKind (rc_version (cp_certificate c)) "reanchor_certificate"
        [("anchorHash", JString (rc_anchorHash (cp_certificate c)));
         ("votes", jwsList (rc_votes (cp_certificate c)))])].

Definition routerAnchorJson (anchor : RouterAnchor) : JsonValue :=
  match anchor with RouterGenesis b => genesisAnchorJson b | RouterReanchor c => completedJson c end.

Definition actionCertifiedJson (r : ActionCertifiedRecord) : JsonValue :=
  versionAndKind (acr_version r) "action_certified_record"
    [("recordHash", JString (recordHash r)); ("recordCore", recordCoreJson (recordCore r));
     ("routerAnchor", routerAnchorJson (routerAnchor r));
     ("actionCertificate", versionAndKind (ac_version (actionCertificate r)) "action_certificate"
        [("actionHash", JString (ac_actionHash (actionCertificate r)));
         ("signatures", jwsList (ac_signatures (actionCertificate r)))])].

Definition certifiedJson (r : CertifiedRecord) : JsonValue :=
  versionAndKind (cer_version r) "certified_record"
    [("actionCertifiedRecord", actionCertifiedJson (actionCertifiedRecord r));
     ("durabilityCertificate",
        versionAndKind (dc_version (durabilityCertificate r)) "durability_certificate"
        [("recordHash", JString (dc_recordHash (durabilityCertificate r)));
         ("votes", jwsList (dc_votes (durabilityCertificate r)))])].

Definition itemJson (item : CatchUpItem) : JsonValue :=
  match item with ItemRecord r => certifiedJson r | ItemReanchor c => completedJson c end.

Definition packetJson (packet : DirectPacket) : JsonValue :=
  match packet with
  | PacketProposal p => versionAndKind (ap_version p) "action_proposal"
      [("action", actionJson (ap_action p))]
  | PacketActionCertified r => actionCertifiedJson r
  | PacketCertified r => certifiedJson r
  | PacketReanchor c => completedJson c
  | PacketRequest r => catchUpRequestJson r
  | PacketPage p => versionAndKind (pg_version p) "catch_up_page"
      [("request", catchUpRequestJson (pg_request p)); ("item", itemJson (pg_item p));
       ("hasMore", JBool (pg_hasMore p)); ("attestation", AgentKey.jwsJson (pg_attestation p))]
  | PacketIncomplete i => versionAndKind (in_version i) "catch_up_incomplete"
      [("request", catchUpRequestJson (in_request i));
       ("attestation", AgentKey.jwsJson (in_attestation i))]
  end.

Section outer.
Context `{Base64Url} `{HostJson} `{Jose} `{Sha256} `{JoseEncryption}.
Context (versions : option Wire.WireVersions) (maximumEncodedBytes : Z).

(** ** Decoding *)

Definition decodeAction (v : JsonValue) : option ActionCore :=
  orElse (GENESIS <$> decodeGenesis versions v) (POST <$> decodePost versions v).

Definition decodeRouterAnchor (v : JsonValue) : option RouterAnchor :=
  orElse (RouterGenesis <$> decodeGenesisAnchor versions v)
         (RouterReanchor <$> decodeCompletedReanchor versions v).

Definition decodeActionCertified (v : JsonValue) : option ActionCertifiedRecord :=
  '(version, o) ← versioned versions "action_certified_record"
    ["recordHash"; "recordCore"; "routerAnchor"; "actionCertificate"] v;
  hash ← keyword (filtered RecordHash) o "recordHash";
  core ← keyword (decodeRecordCore versions) o "recordCore";
  anchor ← keyword decodeRouterAnchor o "routerAnchor";
  '(cv, ch, signatures) ← keyword (decodeCertificate versions "action_certificate" "actionHash"
    "signatures" ActionHash) o "actionCertificate";
  Some (mkActionCertified version hash core anchor (mkActionCertificate cv ch signatures)).

Definition decodeCertified (v : JsonValue) : option CertifiedRecord :=
  '(version, o) ← versioned versions "certified_record"
    ["actionCertifiedRecord"; "durabilityCertificate"] v;
  record ← keyword decodeActionCertified o "actionCertifiedRecord";
  '(cv, ch, votes) ← keyword (decodeCertificate versions "durability_certificate" "recordHash"
    "votes" RecordHash) o "durabilityCertificate";
  Some (mkCertified version record (mkDurabilityCertificate cv ch votes)).

Definition decodeProposal (v : JsonValue) : option ActionProposal :=
  '(version, o) ← versioned versions "action_proposal" ["action"] v;
  action ← keyword decodeAction o "action";
  Some (mkProposal version action).

Definition decodePage (v : JsonValue) : option CatchUpPage :=
  '(version, o) ← versioned versions "catch_up_page"
    ["request"; "item"; "hasMore"; "attestation"] v;
  request ← keyword (decodeCatchUpRequest versions) o "request";
  item ← keyword (fun v => orElse (ItemRecord <$> decodeCertified v)
    (ItemReanchor <$> decodeCompletedReanchor versions v)) o "item";
  hasMore ← keyword decodeBoolean o "hasMore";
  attestation ← keyword AgentKey.decodeJws o "attestation";
  Some (mkPage version request item hasMore attestation).

Definition decodeIncomplete (v : JsonValue) : option CatchUpIncomplete :=
  '(version, o) ← versioned versions "catch_up_incomplete" ["request"; "attestation"] v;
  request ← keyword (decodeCatchUpRequest versions) o "request";
  attestation ← keyword AgentKey.decodeJws o "attestation";
  Some (mkIncomplete version request attestation).

Definition decodePacket (v : JsonValue) : option DirectPacket :=
  orElse (PacketProposal <$> decodeProposal v)
  (orElse (PacketActionCertified <$> decodeActionCertified v)
  (orElse (PacketCertified <$> decodeCertified v)
  (orElse (PacketReanchor <$> decodeCompletedReanchor versions v)
  (orElse (PacketRequest <$> decodeCatchUpRequest versions v)
  (orElse (PacketPage <$> decodePage v)
          (PacketIncomplete <$> decodeIncomplete v)))))).

#[local] Instance packet_schema : JsonSchema DirectPacket :=
  {| toJson := packetJson; ofJson := decodePacket |}.
#[local] Instance message_schema : JsonSchema SignedMessages.SignedMessage := {|
  toJson := fun m => AgentKey.jwsJson (SignedMessages.representation m);
  ofJson := fun v => AgentKey.decodeJws v ≫=
    SignedMessages.decodeMessage versions maximumEncodedBytes |}.

Definition decodePlaintext (bytes : string) : option DecodedOuterBody :=
  orElse (Direct <$> decodeCanonical (A := DirectPacket) bytes)
         (Evidence <$> decodeCanonical (A := SignedMessages.SignedMessage) bytes).

(** The local agent a body opens for. *)
Definition decodeOuterBody (agentCard : AgentCards.AgentCard) (authority : SealedBody.OpeningAuthority)
    (message : SignedMessages.SignedMessage) : option DecodedOuterBody :=
  SealedBody.open agentCard authority message ≫= decodePlaintext.

(** ** Signing *)

(** What the local agent signs with, and what the host draws for one
    envelope: the 16 bytes of its MessageId, the salt, and jose's randomness. *)
Record Signer := mkSigner {
  sg_agentCard : AgentCards.AgentCard;
  sg_authorityPublicKey : string;
  sg_signingKey : CryptoKey;
}.
Record Randomness := mkRandomness { randomId : string; salt : string; entropy : string }.

Definition signOuterBody (signer : Signer) (draw : Randomness) (members : list AgentCards.AgentCard)
    (body : string) : option SignedMessages.SignedMessage :=
  let memberAgentIds := AgentCards.agentId <$> members in
  if negb (sortedDistinct memberAgentIds) ||
     negb (bool_decide (AgentCards.agentId (sg_agentCard signer) ∈ memberAgentIds))
  then None
  else
    let messageId := "msg_" ++ encodeBase64Url (randomId draw) in
    if negb (Wire.MessageId messageId) then None
    else
      sealed ← SealedBody.seal (salt draw) (entropy draw) (SealedBody.mkSealInput
        (AgentCards.agentId (sg_agentCard signer)) members messageId body);
      SignedMessages.sign versions maximumEncodedBytes (SignedMessages.mkSign (sg_agentCard signer)
        (sg_authorityPublicKey signer) (sg_signingKey signer) memberAgentIds messageId sealed).

Definition signOuterPacket (signer : Signer) (draw : Randomness) (members : list AgentCards.AgentCard)
    (packet : DirectPacket) : option SignedMessages.SignedMessage :=
  encodeCanonical packet ≫= signOuterBody signer draw members.

Definition signOuterEvidence (signer : Signer) (draw : Randomness) (members : list AgentCards.AgentCard)
    (evidence : SignedMessages.SignedMessage) : option SignedMessages.SignedMessage :=
  encodeCanonical evidence ≫= signOuterBody signer draw members.

(** [sign] of outbox.ts. *)
Definition signBody (signer : Signer) (draw : Randomness) (members : list AgentCards.AgentCard)
    (body : DecodedOuterBody) : option SignedMessages.SignedMessage :=
  match body with
  | Direct packet => signOuterPacket signer draw members packet
  | Evidence message => signOuterEvidence signer draw members message
  end.

End outer.
End OuterBody.
