(* ===== verification/Certificates.v ===== *)
(** Certificates: what a verified certificate establishes, and why two of
    them cannot disagree (over the verification of Records).

    RecordRuns: a concrete conversation of two members, [a] and [b], its
    first record and the next, built by the definitions of Records. *)
From Stdlib Require Import Ascii.
From S2P Require Import Prelude JsMap JsString Identifiers Json CollectivePart SignedMessages Hosts.
From S2P Require Import RecordSchemas Records.

Module RecordRuns.
Import CollectivePart RecordSchemas Records Hosts.
Local Open Scope string_scope.
#[local] Existing Instances base64url json digest signatures.

Definition V : string := Wire.WIRE_VERSION.
Definition idA : string := agentIdOf "a"%char.
Definition idB : string := agentIdOf "b"%char.
Definition orEmpty (s : option string) : string := default "" s.

Definition hash32 (prefix : string) (c : ascii) : string :=
  prefix ++ encode64 (String c (bytesOf 31 0)).

Definition twoMembers : MembershipDescriptor := Eval vm_compute in
  mkDescriptor V (orEmpty (deriveConversationId [idA; idB])) [cardJws "a"%char; cardJws "b"%char].

Definition membership : VerifiedMembership := Eval vm_compute in
  default (mkVerified twoMembers "" [])
    (verifyMembershipDescriptor None twoMembers registryKey).

Definition conversation : string := Eval vm_compute in md_conversationId twoMembers.
Definition mbr : string := Eval vm_compute in hash membership.

(** The evidence of the member [c]. *)
Definition evidenceOf (c : ascii) (s : EvidenceStatement) : Jws :=
  match
    (card ← cardOf c;
     signEvidenceMessage None maximum s card (keyOf c) (keyOf c))
  with
  | Some message => SignedMessages.representation message
  | None => mkJws "" "" ""
  end.

Definition both (s : string -> EvidenceStatement) : list Jws :=
  [evidenceOf "a"%char (s idA); evidenceOf "b"%char (s idB)].

Definition anchor : GenesisAnchorBody := Eval vm_compute in
  mkGenesisAnchor V conversation mbr ("rti_" ++ encode64 "rrrrrrrrrrrrrrrr").
Definition anchorHash : string := Eval vm_compute in orEmpty (hashAnchor None (AnchorGenesis anchor)).

Definition intentOf (author post text : string) : PostIntent :=
  mkIntent V conversation mbr author post [TextPart text].

Definition certify (core : RecordCore) : CertifiedRecord :=
  let h := orEmpty (hashRecord None core) in
  mkCertified V
    (mkActionCertified V h core (RouterGenesis anchor)
      (mkActionCertificate V (core_actionHash core)
        (both (fun a => ActionSignature V a (core_actionHash core)))))
    (mkDurabilityCertificate V h (both (fun a => DurabilityVote V a conversation mbr h))).

Definition firstIntent : PostIntent := Eval vm_compute in
  intentOf idA (hash32 "pst_" "p"%char) "hello".
Definition firstAction : GenesisActionCore := Eval vm_compute in
  mkGenesis V conversation twoMembers anchor firstIntent
    (orEmpty (hashPostIntent None firstIntent)).
Definition first : CertifiedRecord := Eval vm_compute in
  certify (GenesisRecordCore V twoMembers anchorHash firstAction
    (orEmpty (hashAction None (GENESIS firstAction)))).

Definition nextIntent : PostIntent := Eval vm_compute in
  intentOf idB (hash32 "pst_" "q"%char) "hi".
Definition nextAction : PostActionCore := Eval vm_compute in
  mkPostAction V conversation mbr anchorHash (recordHash (actionCertifiedRecord first)) nextIntent
    (orEmpty (hashPostIntent None nextIntent)).
Definition next : CertifiedRecord := Eval vm_compute in
  certify (PostRecordCore V mbr anchorHash nextAction
    (orEmpty (hashAction None (POST nextAction)))).

End RecordRuns.

Module Certificates.
Import Identifiers CollectivePart CanonicalJson ClientJson RecordSchemas Records.
Local Open Scope nat_scope.

(** ** Counting *)

(** Two large parts of one set of [n] overlap in at least what their sizes
    exceed [n] by. *)
Lemma overlap (ids l k : list string) :
  NoDup l -> NoDup k -> l ⊆ ids -> k ⊆ ids ->
  length l + length k <= length ids + length (filter (fun x => x ∈ k) l).
Proof.
  intros Hl Hk Hli Hki.
  assert (Hsplit : length l =
    length (filter (fun x => x ∈ k) l) + length (filter (fun x => x ∉ k) l)).
  { clear. induction l as [|x l IH]; [done|]. rewrite !filter_cons.
    case_decide; [rewrite decide_False by naive_solver|rewrite decide_True by done];
      simpl; lia. }
  assert (Hnd : NoDup (filter (fun x => x ∉ k) l ++ k)).
  { apply NoDup_app. split_and!; [by apply NoDup_filter| |done].
    intros x [? _]%list_elem_of_filter. done. }
  assert (Hsub : filter (fun x => x ∉ k) l ++ k ⊆+ ids).
  { apply NoDup_submseteq; [done|]. intros x [[_ ?]%list_elem_of_filter|?]%elem_of_app; auto. }
  apply submseteq_length in Hsub. rewrite length_app in Hsub. lia.
Qed.

(** A quorum leaves fewer than a third out. *)
Lemma quorum_overlap n : 0 < n ->
  (n - 1) / 3 < 2 * quorumThreshold n - n /\ (n < 4 -> 2 * quorumThreshold n - n = n).
Proof.
  intros Hn. unfold quorumThreshold. pose proof (Nat.div_mod (n - 1) 3 ltac:(lia)).
  pose proof (Nat.mod_upper_bound (n - 1) 3 ltac:(lia)).
  case_decide; split; lia.
Qed.

Section certificates.
Context `{Base64Url} `{HostJson} `{Jose} `{Sha256}.
Context (versions : option Wire.WireVersions) (maximumEncodedBytes : Z).

Abbreviation verifyEvidenceSet := (verifyEvidenceSet versions maximumEncodedBytes).
Abbreviation verifyStableEvidence := (verifyStableEvidence versions maximumEncodedBytes).

(** ** Distinct members *)

Lemma compareAgentIds_lt_trans a b c :
  (compareAgentIds a b < 0)%Z -> (compareAgentIds b c < 0)%Z -> (compareAgentIds a c < 0)%Z.
Proof.
  unfold compareAgentIds.
  destruct (decodeCanonicalBase64Url (slice 4 a)), (decodeCanonicalBase64Url (slice 4 b)),
    (decodeCanonicalBase64Url (slice 4 c)); try lia. apply compareAscii_lt_trans.
Qed.

Lemma sortedDistinct_nodup ids : sortedDistinct ids = true -> NoDup ids.
Proof.
  unfold sortedDistinct. intros Hs%strictly_ascending_iff; [|apply compareAgentIds_lt_trans].
  induction Hs as [|a ids _ IH Hf]; constructor; [|done].
  intros Ha. eapply Forall_forall in Hf; [|exact Ha]. revert Hf.
  unfold compareAgentIds. destruct (decodeCanonicalBase64Url _); [|lia].
  rewrite compareAscii_refl. lia.
Qed.

Lemma membership_ids d registry membership :
  verifyMembershipDescriptor versions d registry = Some membership ->
  NoDup (memberIds membership) /\ 2 <= length (members membership).
Proof.
  unfold verifyMembershipDescriptor. intros (verified & _ & Hv)%bind_Some.
  destruct (_ || _ || _) eqn:Hb; [done|].
  apply orb_false_elim in Hb as [[Hlen Hs]%orb_false_elim _].
  apply bind_Some in Hv as (conversation & _ & Hv). case_decide; [done|].
  apply bind_Some in Hv as (h & _ & [= <-]). unfold memberIds. simpl.
  apply negb_false_iff, sortedDistinct_nodup in Hs. case_bool_decide; [done|].
  split; [done|lia].
Qed.

(** ** Evidence *)

(** The member [a] signed the statement [s]. *)
Definition attested (membership : VerifiedMembership) (a : string) (s : EvidenceStatement) :
    Prop :=
  exists representation evidence card key,
    verifyStableEvidence representation membership None = Some evidence /\
    statement evidence = s /\ signerAgentId s = a /\
    card ∈ members membership /\ AgentCards.agentId card = a /\
    importJwk (AgentCards.publicKey card) = Some key /\
    generalVerify representation key = true.

Lemma memberCard_spec membership a card :
  memberCard membership a = Some card ->
  card ∈ members membership /\ AgentCards.agentId card = a.
Proof.
  unfold memberCard. intros ([i c] & Hf & [= <-])%fmap_Some.
  apply list_find_Some in Hf as (Hl & Ha & _). split; [|done].
  by eapply list_elem_of_lookup_2.
Qed.

Lemma stable_attested representation membership evidence :
  verifyStableEvidence representation membership None = Some evidence ->
  attested membership (signerAgentId (statement evidence)) (statement evidence).
Proof.
  intros Hv. pose proof Hv as Hw. unfold Records.verifyStableEvidence in Hw.
  apply bind_Some in Hw as (message & Hm & Hw).
  apply bind_Some in Hw as (card & Hc & Hw). case_decide; [done|].
  apply bind_Some in Hw as (verified & Hver & Hw).
  apply bind_Some in Hw as (st & _ & Hw).
  apply bind_Some in Hw as (bytes & _ & Hw).
  destruct (negb _); [done|].
  apply bind_Some in Hw as (expected & _ & Hw).
  destruct (_ || _) eqn:Hb; [done|]. injection Hw as <-.
  apply orb_false_elim in Hb as [Hs%bool_decide_eq_false%dec_stable _].
  apply memberCard_spec in Hc as [Hin Hid].
  apply SignedMessages.verify_inv in Hver as (-> & _ & _ & key & Hk & Hg).
  apply SignedMessages.decodeMessage_inv in Hm as (_ & Hr & _). rewrite Hr in Hg.
  simpl in Hs |- *. exists representation, (mkEvidence message st), card, key.
  split_and!; try done. simpl. congruence.
Qed.

(** A verified set: enough distinct members, each with a matching statement. *)
Lemma evidence_set_spec representations membership required matchesStatement verified :
  verifyEvidenceSet representations membership required matchesStatement = Some verified ->
  let signers := (fun e => signerAgentId (statement e)) <$> verified in
  NoDup signers /\ required <= length signers /\ signers ⊆ memberIds membership /\
  forall a, a ∈ signers -> exists s, matchesStatement s = Some true /\ attested membership a s.
Proof.
  unfold Records.verifyEvidenceSet. case_decide; [done|]. case_decide; [done|].
  intros (evs & Hevs & Hv)%bind_Some. cbv zeta in Hv.
  destruct (negb _) eqn:Hs; [done|]. apply negb_false_iff, sortedDistinct_nodup in Hs.
  apply bind_Some in Hv as (matches & Hm & Hv).
  destruct (existsb negb matches) eqn:Hall; [done|]. injection Hv as <-.
  apply mapM_Some in Hevs, Hm.
  assert (Hatt : forall a, a ∈ (fun e => signerAgentId (statement e)) <$> evs ->
    exists s, matchesStatement s = Some true /\ attested membership a s).
  { intros a (e & -> & He)%list_elem_of_fmap. exists (statement e). split.
    - apply list_elem_of_lookup in He as [i Hi].
      destruct (Forall2_lookup_l _ _ _ _ _ Hm Hi) as (b & Hb & Hms). rewrite Hms. f_equal.
      destruct b; [done|]. exfalso. apply list_elem_of_lookup_2 in Hb.
      assert (existsb negb matches = true); [|congruence].
      apply existsb_exists. exists false. by rewrite <- list_elem_of_In.
    - apply list_elem_of_lookup in He as [i Hi].
      destruct (Forall2_lookup_r _ _ _ _ _ Hevs Hi) as (r & _ & Hr). by eapply stable_attested. }
  split_and!; [done| | |done].
  - rewrite length_fmap. apply Forall2_length in Hevs. lia.
  - intros a Ha. destruct (Hatt a Ha) as (s & _ & (_ & _ & card & _ & _ & _ & _ & Hin & <- & _)).
    apply list_elem_of_fmap. eauto.
Qed.

(** ** Two certificates *)

(** Members that attested a statement of each of two verified sets. *)
Lemma sets_intersect reps1 reps2 membership required1 required2 match1 match2 evs1 evs2 :
  NoDup (memberIds membership) -> 0 < length (members membership) ->
  quorumThreshold (length (members membership)) <= required1 ->
  quorumThreshold (length (members membership)) <= required2 ->
  verifyEvidenceSet reps1 membership required1 match1 = Some evs1 ->
  verifyEvidenceSet reps2 membership required2 match2 = Some evs2 ->
  exists shared, NoDup shared /\ shared ⊆ memberIds membership /\
    (length (members membership) - 1) / 3 < length shared /\
    (length (members membership) < 4 -> length (members membership) <= length shared) /\
    forall a, a ∈ shared ->
      (exists s, match1 s = Some true /\ attested membership a s) /\
      (exists s, match2 s = Some true /\ attested membership a s).
Proof.
  intros Hnd Hn Hq1 Hq2 Hv1%evidence_set_spec Hv2%evidence_set_spec.
  destruct Hv1 as (Hnd1 & Hlen1 & Hsub1 & Hatt1), Hv2 as (Hnd2 & Hlen2 & Hsub2 & Hatt2).
  pose proof (overlap _ _ _ Hnd1 Hnd2 Hsub1 Hsub2) as Hover.
  destruct (quorum_overlap (length (members membership)) Hn) as [Hthird Hall].
  set (signers1 := _ <$> evs1) in *. set (signers2 := _ <$> evs2) in *.
  unfold memberIds in Hover at 1. rewrite length_fmap in Hover.
  exists (filter (fun x => x ∈ signers2) signers1). split_and!; [by apply NoDup_filter| | | |].
  - intros a [_ Ha]%list_elem_of_filter. by apply Hsub1.
  - lia.
  - intros H4. specialize (Hall H4). lia.
  - intros a [Ha2 Ha1]%list_elem_of_filter. split; [by apply Hatt1|by apply Hatt2].
Qed.

(** What a verified action certificate contains. *)
Lemma action_certificate_set record membership h :
  verifyActionCertifiedRecord versions maximumEncodedBytes record membership = Some h ->
  recordHash record = h /\
  exists required evs,
    (if isGenesis (core_action (recordCore record)) then required = length (members membership)
     else required = quorumThreshold (length (members membership))) /\
    verifyEvidenceSet (ac_signatures (actionCertificate record)) membership required
      (actionSignatureMatches (core_actionHash (recordCore record))) = Some evs.
Proof.
  unfold verifyActionCertifiedRecord. intros (verifiedHash & _ & Hv)%bind_Some.
  destruct (decide _) as [|Hh%dec_stable]; [done|].
  apply bind_Some in Hv as (x & Hcert & Hv).
  apply bind_Some in Hv as (y & _ & Hv). apply bind_Some in Hv as (z & _ & [= <-]).
  split; [done|].
  unfold verifyActionCertificateEvidence in Hcert. destruct (decide _); [done|].
  apply bind_Some in Hcert as (evs & Hevs & _).
  eexists _, evs. split; [|exact Hevs]. by destruct (isGenesis _).
Qed.

Lemma action_match_true actionHash s :
  actionSignatureMatches actionHash s = Some true -> exists v a, s = ActionSignature v a actionHash.
Proof.
  destruct s; simpl; intros [= Hb]; try done. apply bool_decide_eq_true in Hb as ->. eauto.
Qed.

Lemma quorum_le n : quorumThreshold n <= n.
Proof. unfold quorumThreshold. case_decide; lia. Qed.

(** The member [a] signed the action [actionHash]. *)
Definition signedAction (membership : VerifiedMembership) (a actionHash : string) : Prop :=
  exists version, attested membership a (ActionSignature version a actionHash).

(** More than a third of the members signed the actions of two certificates. *)
Lemma both_signed d registry membership record1 record2 h1 h2 :
  verifyMembershipDescriptor versions d registry = Some membership ->
  verifyActionCertifiedRecord versions maximumEncodedBytes record1 membership = Some h1 ->
  verifyActionCertifiedRecord versions maximumEncodedBytes record2 membership = Some h2 ->
  let n := length (members membership) in
  exists shared, NoDup shared /\ shared ⊆ memberIds membership /\
    (n - 1) / 3 < length shared /\ (n < 4 -> n <= length shared) /\
    forall a, a ∈ shared ->
      signedAction membership a (core_actionHash (recordCore record1)) /\
      signedAction membership a (core_actionHash (recordCore record2)).
Proof.
  intros [Hnd Hn]%membership_ids Hr1%action_certificate_set Hr2%action_certificate_set.
  destruct Hr1 as (_ & k1 & evs1 & Hk1 & Hs1), Hr2 as (_ & k2 & evs2 & Hk2 & Hs2).
  cbv zeta. pose proof (quorum_le (length (members membership))) as Hq.
  assert (Hshared := sets_intersect _ _ membership k1 k2 _ _ evs1 evs2 Hnd ltac:(lia)
    ltac:(destruct (isGenesis (core_action (recordCore record1))); lia)
    ltac:(destruct (isGenesis (core_action (recordCore record2))); lia) Hs1 Hs2).
  destruct Hshared as (shared & Hsnd & Hsub & Hthird & Hall & Hboth).
  exists shared. split_and!; [done..|].
  intros a Ha. destruct (Hboth a Ha) as [(s & Hm & Hatt) (s' & Hm' & Hatt')].
  apply action_match_true in Hm as (v & b & ->), Hm' as (v' & b' & ->).
  assert (b = a) as -> by (by destruct Hatt as (? & ? & ? & ? & _ & _ & ? & _)).
  assert (b' = a) as -> by (by destruct Hatt' as (? & ? & ? & ? & _ & _ & ? & _)).
  split; eexists; eauto.
Qed.

(** A set larger than the faulty members has an honest one. *)
Lemma honest_among (faulty shared : list string) :
  NoDup shared -> length faulty < length shared -> exists a, a ∈ shared /\ a ∉ faulty.
Proof.
  intros Hnd Hlen. destruct (list_find (fun a => a ∉ faulty) shared) as [[i a]|] eqn:Hfind.
  - apply list_find_Some in Hfind as (Hl & Ha & _). apply list_elem_of_lookup_2 in Hl. eauto.
  - apply list_find_None in Hfind. exfalso.
    assert (Hle : length shared <= length faulty); [|lia].
    apply submseteq_length, NoDup_submseteq; [done|]. intros a Ha.
    eapply Forall_forall in Hfind; [|exact Ha]. by apply dec_stable.
Qed.

(** C15: two certified actions cannot conflict behind honest members.  For any
    two action-certified records that verify under one verified membership,
    more than a third of the members, and all of them in a conversation of
    fewer than four, signed both actions.  So the records certify the same
    action when, but for at most a third of the members, no member signed two
    different actions of the two. *)
Theorem certified_actions_agree d registry membership record1 record2 h1 h2 :
  verifyMembershipDescriptor versions d registry = Some membership ->
  verifyActionCertifiedRecord versions maximumEncodedBytes record1 membership = Some h1 ->
  verifyActionCertifiedRecord versions maximumEncodedBytes record2 membership = Some h2 ->
  let n := length (members membership) in
  let action1 := core_actionHash (recordCore record1) in
  let action2 := core_actionHash (recordCore record2) in
  (exists shared, NoDup shared /\ shared ⊆ memberIds membership /\
     (n - 1) / 3 < length shared /\ (n < 4 -> n <= length shared) /\
     forall a, a ∈ shared ->
       signedAction membership a action1 /\ signedAction membership a action2) /\
  (forall faulty : list string, length faulty <= (n - 1) / 3 ->
     (forall a, a ∉ faulty -> signedAction membership a action1 ->
        signedAction membership a action2 -> action1 = action2) ->
     action1 = action2).
Proof.
  intros Hd Hr1 Hr2. destruct (both_signed _ _ _ _ _ _ _ Hd Hr1 Hr2) as (shared & Hshared).
  split; [by exists shared|]. destruct Hshared as (Hnd & _ & Hthird & _ & Hsigned).
  intros faulty Hf Hhonest.
  destruct (honest_among faulty shared Hnd ltac:(lia)) as (a & Hl & Ha).
  destruct (Hsigned a Hl). by apply (Hhonest a).
Qed.

End certificates.

(** The first record and the next of a conversation of two: both members
    signed both actions. *)
Lemma certified_actions_agree_witness :
  length (members RecordRuns.membership) = 2 /\
  exists shared, NoDup shared /\ 2 <= length shared /\
    forall a, a ∈ shared ->
      signedAction (H := Hosts.base64url) (H0 := Hosts.json) (H1 := Hosts.signatures)
        (H2 := Hosts.digest) None Hosts.maximum RecordRuns.membership a
        (core_actionHash (recordCore (actionCertifiedRecord RecordRuns.first))) /\
      signedAction (H := Hosts.base64url) (H0 := Hosts.json) (H1 := Hosts.signatures)
        (H2 := Hosts.digest) None Hosts.maximum RecordRuns.membership a
        (core_actionHash (recordCore (actionCertifiedRecord RecordRuns.next))).
Proof.
  split; [vm_compute; reflexivity|].
  destruct (certified_actions_agree (H := Hosts.base64url) (H0 := Hosts.json)
    (H1 := Hosts.signatures) (H2 := Hosts.digest) None Hosts.maximum
    RecordRuns.twoMembers Hosts.registryKey RecordRuns.membership
    (actionCertifiedRecord RecordRuns.first) (actionCertifiedRecord RecordRuns.next)
    (recordHash (actionCertifiedRecord RecordRuns.first))
    (recordHash (actionCertifiedRecord RecordRuns.next)))
    as [(shared & Hnd & _ & _ & Hall & Hboth) _];
    [vm_compute; reflexivity|vm_compute; reflexivity|vm_compute; reflexivity|].
  exists shared. split; [exact Hnd|]. split; [|exact Hboth].
  apply Hall. vm_compute. lia.
Defined.
End Certificates.
