(* ===== verification/StoredHistory.v ===== *)
(** StoredHistory: decoding and verifying the history rows the endpoint store
    keeps (packages/client/src/communication/conversations/history/stored.ts
    and certificate.ts, over the rows of store/types.ts).

    Persistence, representation and recovery failures all refuse the
    snapshot: [None]. *)
From S2P Require Import Prelude JsMap Json JsString Identifiers CollectivePart SignedMessages Hosts.
From S2P Require Import RecordSchemas Records Certificates.
Import Identifiers CollectivePart CanonicalJson ClientJson RecordSchemas Records.
Local Open Scope string_scope.

Module StoredHistory.

(** ** Rows *)

Record StoredMembership := mkStoredMembership {
  sm_conversationId : string;
  sm_membershipHash : string;
  canonicalMembership : string;
}.

Record StoredAnchor := mkStoredAnchor {
  sa_conversationId : string;
  sa_anchorHash : string;
  sa_previousAnchorHash : option string;
  sa_selectedRecordHash : option string;
  canonicalAnchor : string;
}.

Record StagedRecord := mkStaged {
  sr_conversationId : string;
  sr_recordHash : string;
  sr_previousRecordHash : option string;
  sr_membershipHash : string;
  sr_anchorHash : string;
  sr_actionHash : string;
  sr_authorAgentId : string;
  sr_postId : string;
  canonicalRecordCore : string;
}.

Inductive EvidenceKind := ActionEvidence | DurabilityEvidence | CatchUpEvidence | ReanchorEvidence.
Global Instance EvidenceKind_eq_dec : EqDecision EvidenceKind.
Proof. solve_decision. Defined.

Record ProtocolEvidence := mkProtocolEvidence {
  pe_conversationId : string;
  pe_kind : EvidenceKind;
  pe_subjectId : string;
  evidenceKey : string;
  canonicalEvidence : string;
}.

Record StoredCertifiedRecord := mkStoredCertified {
  row : StagedRecord;
  actionEvidence : list ProtocolEvidence;
  durabilityEvidence : list ProtocolEvidence;
}.

Record ConversationPosition := mkPosition {
  po_conversationId : string;
  po_membershipHash : string;
  po_currentAnchorHash : string;
  po_headRecordHash : option string;
}.

(** The part of [EndpointRecovery] that history verification reads. *)
Record EndpointRecovery := mkRecovery {
  memberships : list StoredMembership;
  anchors : list StoredAnchor;
  stagedRecords : list StagedRecord;
  certifiedRecords : list StoredCertifiedRecord;
  positions : list ConversationPosition;
}.

Section history.
Context `{Base64Url} `{HostJson} `{Jose} `{Sha256}.
Context (versions : option Wire.WireVersions) (maximumEncodedBytes : Z).

#[local] Instance descriptor_i : JsonSchema MembershipDescriptor := descriptor_schema versions.
#[local] Instance genesis_anchor_i : JsonSchema GenesisAnchorBody := genesis_anchor_schema versions.
#[local] Instance record_core_i : JsonSchema RecordCore := record_core_schema versions.
#[local] Instance completed_i : JsonSchema CompletedReanchor := {|
  toJson := fun c => versionAndKind (cp_version c) "completed_reanchor"
    [("anchorHash", JString (cp_anchorHash c)); ("reanchor", reanchorJson (cp_reanchor c));
     ("certificate", versionAndKind (rc_version (cp_certificate c)) "reanchor_certificate"
        [("anchorHash", JString (rc_anchorHash (cp_certificate c)));
         ("votes", JArray (AgentKey.jwsJson <$> rc_votes (cp_certificate c)))])];
  ofJson := decodeCompletedReanchor versions |}.
#[local] Instance message_i : JsonSchema SignedMessages.SignedMessage := {|
  toJson := fun m => AgentKey.jwsJson (SignedMessages.representation m);
  ofJson := fun v => AgentKey.decodeJws v ≫=
    SignedMessages.decodeMessage versions maximumEncodedBytes |}.

(** ** Certificates assembled from rows *)

Definition signerNotAfter (left right : SignedMessages.SignedMessage) : Prop :=
  (compareAgentIds (SignedMessages.senderAgentId left)
     (SignedMessages.senderAgentId right) <= 0)%Z.
#[local] Instance signerNotAfter_dec left right : Decision (signerNotAfter left right).
Proof. unfold signerNotAfter. apply _. Defined.

(** [orderedSignatures]: [None] when there are none. *)
Definition orderedSignatures (messages : list SignedMessages.SignedMessage) : option (list Jws) :=
  match SignedMessages.representation <$> merge_sort signerNotAfter messages with
  | [] => None
  | signatures => Some signatures
  end.

Definition core_version (core : RecordCore) : string :=
  match core with
  | GenesisRecordCore version _ _ _ _ | PostRecordCore version _ _ _ _ => version
  end.

Definition makeActionCertifiedRecord (core : RecordCore) (recordHash : string)
    (anchor : RouterAnchor) (signatures : list Jws) : ActionCertifiedRecord :=
  mkActionCertified (core_version core) recordHash core anchor
    (mkActionCertificate (core_version core) (core_actionHash core) signatures).

Definition certifiedRecord (record : ActionCertifiedRecord) (votes : list Jws) : CertifiedRecord :=
  mkCertified (core_version (recordCore record)) record
    (mkDurabilityCertificate (core_version (recordCore record)) (recordHash record) votes).

Definition restoreEvidence (rows : list ProtocolEvidence) (conversation : string)
    (kind : EvidenceKind) (subject : string) : option (list Jws) :=
  messages ← mapM (fun r =>
    if bool_decide (pe_conversationId r = conversation) && bool_decide (pe_kind r = kind) &&
       bool_decide (pe_subjectId r = subject)
    then
      message ← decodeCanonical (canonicalEvidence r);
      if decide (SignedMessages.senderAgentId message = evidenceKey r) then Some message else None
    else None) rows;
  orderedSignatures messages.

Definition assembleStoredRecord (stored : StoredCertifiedRecord) (anchor : RouterAnchor) :
    option CertifiedRecord :=
  let r := row stored in
  core ← decodeCanonical (canonicalRecordCore r);
  signatures ← restoreEvidence (actionEvidence stored) (sr_conversationId r) ActionEvidence
    (sr_actionHash r);
  votes ← restoreEvidence (durabilityEvidence stored) (sr_conversationId r) DurabilityEvidence
    (sr_recordHash r);
  if RecordHash (sr_recordHash r)
  then Some (certifiedRecord
    (makeActionCertifiedRecord core (sr_recordHash r) anchor signatures) votes)
  else None.

Definition storedRowMatchesCore (r : StagedRecord) (core : RecordCore)
    (membership : VerifiedMembership) : bool :=
  let action := core_action core in
  bool_decide (sr_conversationId r = md_conversationId (descriptor membership)) &&
  bool_decide (sr_membershipHash r = hash membership) &&
  bool_decide (sr_previousRecordHash r = previousRecordHash action) &&
  bool_decide (sr_anchorHash r = core_anchorHash core) &&
  bool_decide (sr_actionHash r = core_actionHash core) &&
  bool_decide (sr_authorAgentId r = authorAgentId (postIntent action)) &&
  bool_decide (sr_postId r = postId (postIntent action)).

Definition recordFromStore (membership : VerifiedMembership) (stored : StoredCertifiedRecord)
    (anchor : RouterAnchor) : option CertifiedRecord :=
  record ← assembleStoredRecord stored anchor;
  _ ← verifyCertifiedRecord versions maximumEncodedBytes record membership;
  if storedRowMatchesCore (row stored) (recordCore (actionCertifiedRecord record)) membership
  then Some record else None.

(** ** Anchors *)

Definition storedGenesisMatches (membership : VerifiedMembership) (stored : StoredAnchor)
    (anchor : GenesisAnchorBody) (anchorHash : string) : bool :=
  bool_decide (ga_conversationId anchor = sa_conversationId stored) &&
  bool_decide (ga_membershipHash anchor = hash membership) &&
  bool_decide (sa_selectedRecordHash stored = None) &&
  bool_decide (anchorHash = sa_anchorHash stored).

Definition decodeStoredGenesis (membership : VerifiedMembership) (stored : StoredAnchor) :
    option RouterAnchor :=
  anchor ← decodeCanonical (canonicalAnchor stored);
  anchorHash ← hashAnchor versions (AnchorGenesis anchor);
  if storedGenesisMatches membership stored anchor anchorHash
  then Some (RouterGenesis anchor) else None.

Definition storedReanchorMatches (stored : StoredAnchor) (completed : CompletedReanchor)
    (anchorHash : string) : bool :=
  bool_decide (anchorHash = sa_anchorHash stored) &&
  bool_decide (Some (rb_previousAnchorHash (cp_reanchor completed)) = sa_previousAnchorHash stored) &&
  bool_decide (Some (rb_selectedRecordHash (cp_reanchor completed)) = sa_selectedRecordHash stored).

Definition decodeStoredReanchor (membership : VerifiedMembership) (stored : StoredAnchor) :
    option RouterAnchor :=
  completed ← decodeCanonical (canonicalAnchor stored);
  anchorHash ← verifyCompletedReanchor versions maximumEncodedBytes completed membership;
  if storedReanchorMatches stored completed anchorHash
  then Some (RouterReanchor completed) else None.

Definition decodeStoredAnchor (membership : VerifiedMembership) (stored : StoredAnchor) :
    option RouterAnchor :=
  match sa_previousAnchorHash stored with
  | None => decodeStoredGenesis membership stored
  | Some _ => decodeStoredReanchor membership stored
  end.

Definition anchorRouterInstanceId (anchor : RouterAnchor) : string :=
  match anchor with
  | RouterGenesis body => ga_routerInstanceId body
  | RouterReanchor completed => rb_routerInstanceId (cp_reanchor completed)
  end.

(** ** Memberships *)

Definition verifyStoredMembership (stored : StoredMembership) (registrySignerPublicKey : string) :
    option VerifiedMembership :=
  d ← decodeCanonical (canonicalMembership stored);
  membership ← verifyMembershipDescriptor versions d registrySignerPublicKey;
  if bool_decide (sm_conversationId stored = md_conversationId (descriptor membership)) &&
     bool_decide (sm_membershipHash stored = hash membership)
  then Some membership else None.

Definition verifyStoredMemberships (rows : list StoredMembership)
    (registrySignerPublicKey : string) : option (list (string * VerifiedMembership)) :=
  verified ← mapM (fun stored => verifyStoredMembership stored registrySignerPublicKey) rows;
  Some (foldl (fun m membership =>
    jm_set m (md_conversationId (descriptor membership)) membership) [] verified).

(** ** Reading stored records *)

(** [values.find]. *)
Definition findFirst {A} (p : A -> bool) (l : list A) : option A := List.find p l.

Definition readStoredRecord (membership : VerifiedMembership) (recovery : EndpointRecovery)
    (stored : StoredCertifiedRecord) : option CertifiedRecord :=
  anchor ← findFirst (fun candidate =>
    bool_decide (sa_conversationId candidate = sr_conversationId (row stored)) &&
    bool_decide (sa_anchorHash candidate = sr_anchorHash (row stored))) (anchors recovery);
  routerAnchor ← decodeStoredAnchor membership anchor;
  recordFromStore membership stored routerAnchor.

Definition readStoredHistory (registrySignerPublicKey : string) (recovery : EndpointRecovery)
    (records : list StoredCertifiedRecord) : option (list CertifiedRecord) :=
  let named := (fun stored => sr_conversationId (row stored)) <$> records in
  verified ← mapM (fun r => verifyStoredMembership r registrySignerPublicKey)
    (filter (fun r => sm_conversationId r ∈ named) (memberships recovery));
  mapM (fun stored =>
    membership ← findFirst (fun candidate =>
      bool_decide (md_conversationId (descriptor candidate) = sr_conversationId (row stored)))
      verified;
    readStoredRecord membership recovery stored) records.

Definition durableRouterInstanceId (membership : VerifiedMembership)
    (recovery : EndpointRecovery) : option string :=
  let conversation := md_conversationId (descriptor membership) in
  let position := findFirst (fun candidate =>
    bool_decide (po_conversationId candidate = conversation)) (positions recovery) in
  stored ← findFirst (fun candidate =>
    bool_decide (sa_conversationId candidate = conversation) &&
    bool_decide (Some (sa_anchorHash candidate) = po_currentAnchorHash <$> position))
    (anchors recovery);
  anchorRouterInstanceId <$> decodeStoredAnchor membership stored.

(** ** One gap-free history *)

Record HistoryCursor := mkCursor {
  currentAnchor : RouterAnchor;
  currentAnchorHash : string;
  currentRecordHash : option string;
  anchorIndex : nat;
}.

Record ConversationHistory := mkHistory {
  position : ConversationPosition;
  h_anchors : list StoredAnchor;
  records : list StoredCertifiedRecord;
  initial : HistoryCursor;
}.

Definition validHistoryFoundation (ps : list ConversationPosition) (p : ConversationPosition)
    (firstAnchor : StoredAnchor) (membership : VerifiedMembership) : bool :=
  bool_decide (length ps = 1%nat) &&
  bool_decide (po_membershipHash p = hash membership) &&
  bool_decide (sa_previousAnchorHash firstAnchor = None).

Definition conversationHistory (recovery : EndpointRecovery) (membership : VerifiedMembership) :
    option ConversationHistory :=
  let conversation := md_conversationId (descriptor membership) in
  let ps := filter (fun c => po_conversationId c = conversation) (positions recovery) in
  let ancs := filter (fun c => sa_conversationId c = conversation) (anchors recovery) in
  match ps, ancs with
  | p :: _, firstAnchor :: _ =>
      if validHistoryFoundation ps p firstAnchor membership then
        anchor ← decodeStoredAnchor membership firstAnchor;
        Some (mkHistory p ancs
          (filter (fun c => sr_conversationId (row c) = conversation) (certifiedRecords recovery))
          (mkCursor anchor (sa_anchorHash firstAnchor) None 1))
      else None
  | _, _ => None
  end.

Definition recordExtendsCursor (stored : StagedRecord) (membership : VerifiedMembership)
    (cursor : HistoryCursor) : bool :=
  bool_decide (sr_membershipHash stored = hash membership) &&
  bool_decide (sr_previousRecordHash stored = currentRecordHash cursor) &&
  bool_decide (sr_anchorHash stored = currentAnchorHash cursor).

Definition anchorExtendsCursor (anchor : StoredAnchor) (cursor : HistoryCursor) : bool :=
  bool_decide (sa_previousAnchorHash anchor = Some (currentAnchorHash cursor)) &&
  bool_decide (is_Some (sa_selectedRecordHash anchor)) &&
  bool_decide (sa_selectedRecordHash anchor = currentRecordHash cursor).

(** The inner [while]: the anchors from [anchorIndex] on that extend it. *)
Fixpoint followAnchors (membership : VerifiedMembership) (remaining : list StoredAnchor)
    (cursor : HistoryCursor) : option HistoryCursor :=
  match remaining with
  | [] => Some cursor
  | nextAnchor :: rest =>
      if anchorExtendsCursor nextAnchor cursor then
        anchor ← decodeStoredAnchor membership nextAnchor;
        followAnchors membership rest
          (mkCursor anchor (sa_anchorHash nextAnchor) (currentRecordHash cursor)
             (S (anchorIndex cursor)))
      else Some cursor
  end.

(** The [for] over the records. *)
Fixpoint followRecords (membership : VerifiedMembership) (ancs : list StoredAnchor)
    (stored : list StoredCertifiedRecord) (cursor : HistoryCursor) : option HistoryCursor :=
  match stored with
  | [] => Some cursor
  | r :: rest =>
      if recordExtendsCursor (row r) membership cursor then
        _ ← recordFromStore membership r (currentAnchor cursor);
        cursor ← followAnchors membership (drop (anchorIndex cursor) ancs)
          (mkCursor (currentAnchor cursor) (currentAnchorHash cursor)
             (Some (sr_recordHash (row r))) (anchorIndex cursor));
        followRecords membership ancs rest cursor
      else None
  end.

Definition historyCursorMatchesPosition (history : ConversationHistory) (cursor : HistoryCursor) :
    bool :=
  bool_decide (anchorIndex cursor = length (h_anchors history)) &&
  bool_decide (po_headRecordHash (position history) = currentRecordHash cursor) &&
  bool_decide (po_currentAnchorHash (position history) = currentAnchorHash cursor).

Definition verifyConversationHistory (recovery : EndpointRecovery)
    (membership : VerifiedMembership) : option unit :=
  history ← conversationHistory recovery membership;
  cursor ← followRecords membership (h_anchors history) (records history) (initial history);
  if historyCursorMatchesPosition history cursor then Some tt else None.

Definition recoveryOnlyContainsMemberships (recovery : EndpointRecovery)
    (verified : list (string * VerifiedMembership)) : bool :=
  let known := jm_keys verified in
  bool_decide (length (positions recovery) = length verified) &&
  forallb (fun anchor => bool_decide (sa_conversationId anchor ∈ known)) (anchors recovery) &&
  forallb (fun record => bool_decide (sr_conversationId (row record) ∈ known))
    (certifiedRecords recovery).

Definition verifyRecoveredHistory (recovery : EndpointRecovery)
    (verified : list (string * VerifiedMembership)) : option unit :=
  if recoveryOnlyContainsMemberships recovery verified
  then _ ← mapM (fun entry => verifyConversationHistory recovery entry.2) verified; Some tt
  else None.

(** ** Snapshot queries *)

Definition isCertified (recovery : EndpointRecovery) (record : StagedRecord) : bool :=
  existsb (fun certified =>
    bool_decide (sr_conversationId (row certified) = sr_conversationId record) &&
    bool_decide (sr_recordHash (row certified) = sr_recordHash record))
    (certifiedRecords recovery).

Definition bindsAnchor (record : StagedRecord) (anchorHash : option string) : bool :=
  match anchorHash with
  | None => true
  | Some h => bool_decide (sr_anchorHash record = h)
  end.

Definition stagedSuccessor (recovery : EndpointRecovery) (conversation head : string)
    (anchorHash : option string) : option StagedRecord :=
  findFirst (fun record =>
    bool_decide (sr_conversationId record = conversation) &&
    bool_decide (sr_previousRecordHash record = Some head) && bindsAnchor record anchorHash &&
    negb (isCertified recovery record)) (stagedRecords recovery).

(** The loop of [chainContains], which ends on every acyclic chain; [fuel]
    bounds its steps and [None] is its exhaustion. *)
Fixpoint chainContains (fuel : nat) (start target : string)
    (parentOf : string -> option string) : option bool :=
  match fuel with
  | O => None
  | S fuel =>
      if decide (start = target) then Some true
      else match parentOf start with
           | None => Some false
           | Some parent => chainContains fuel parent target parentOf
           end
  end.

Definition parentRecord (recovery : EndpointRecovery) (conversation recordHash : string) :
    option string :=
  candidate ← findFirst (fun candidate =>
    bool_decide (sr_conversationId (row candidate) = conversation) &&
    bool_decide (sr_recordHash (row candidate) = recordHash)) (certifiedRecords recovery);
  sr_previousRecordHash (row candidate).

Definition observedHeadIsResolved (fuel : nat) (recovery : EndpointRecovery)
    (conversation observed head : string) : option bool :=
  chainContains fuel head observed (parentRecord recovery conversation).

Definition parentAnchor (recovery : EndpointRecovery) (conversation anchorHash : string) :
    option string :=
  candidate ← findFirst (fun candidate =>
    bool_decide (sa_conversationId candidate = conversation) &&
    bool_decide (sa_anchorHash candidate = anchorHash)) (anchors recovery);
  sa_previousAnchorHash candidate.

Definition observedAnchorIsResolved (fuel : nat) (recovery : EndpointRecovery)
    (conversation observed current : string) : option bool :=
  chainContains fuel current observed (parentAnchor recovery conversation).

End history.
End StoredHistory.
