(* ===== verification/HistoryChain.v ===== *)
(** HistoryChain: a verified snapshot is one chain, and its head commits to
    all of it (over StoredHistory). *)
From S2P Require Import Prelude JsMap Json JsString Identifiers CollectivePart SignedMessages Hosts.
From S2P Require Import RecordSchemas Records Certificates StoredHistory.
Import Identifiers CollectivePart CanonicalJson ClientJson RecordSchemas Records StoredHistory.
Local Open Scope nat_scope.

Module HistoryChain.

(** ** Chains *)

(** Each element names the key of the one before it; [last] is the key the
    next element would name. *)
Fixpoint chain {A} (parent : A -> option string) (key : A -> string)
    (prev : option string) (l : list A) (last : option string) : Prop :=
  match l with
  | [] => last = prev
  | x :: l' => parent x = prev /\ chain parent key (Some (key x)) l' last
  end.

Section chains.
Context {A : Type} (parent : A -> option string) (key : A -> string).

Lemma chain_app prev l k last :
  chain parent key prev (l ++ k) last <->
  exists mid, chain parent key prev l mid /\ chain parent key mid k last.
Proof.
  revert prev. induction l as [|x l IH]; intros prev; simpl.
  - naive_solver.
  - rewrite IH. naive_solver.
Qed.

Lemma chain_last prev l h : chain parent key prev l (Some h) ->
  (l = [] /\ prev = Some h) \/ exists l' x, l = l' ++ [x] /\ key x = h.
Proof.
  destruct l as [|x l _] using rev_ind; [by left|].
  rewrite chain_app. intros (mid & _ & Hx). simpl in Hx. right. exists l, x. naive_solver.
Qed.

End chains.

Section history.
Context `{Base64Url} `{HostJson} `{Jose} `{Sha256}.
Context (versions : option Wire.WireVersions) (maximumEncodedBytes : Z).
#[local] Instance record_core_i : JsonSchema RecordCore := record_core_schema versions.

Abbreviation recordFromStore := (recordFromStore versions maximumEncodedBytes).
Abbreviation previous := (fun r => sr_previousRecordHash (row r)).
Abbreviation hashOf := (fun r => sr_recordHash (row r)).

(** The row holds a record that verifies under the membership, whose core is
    the row's canonical bytes, hashes to the row's hash and names the row's
    predecessor. *)
Definition certifiedRow (membership : VerifiedMembership) (r : StoredCertifiedRecord) : Prop :=
  exists anchor record core,
    recordFromStore membership r anchor = Some record /\
    recordCore (actionCertifiedRecord record) = core /\
    encodeCanonical core = Some (canonicalRecordCore (row r)) /\
    decodeCanonical (canonicalRecordCore (row r)) = Some core /\
    hashRecord versions core = Some (hashOf r) /\
    previousRecordHash (core_action core) = previous r.

Lemma recordFromStore_row membership r anchor record :
  recordFromStore membership r anchor = Some record -> certifiedRow membership r.
Proof.
  intros Hr. pose proof Hr as Hs. unfold StoredHistory.recordFromStore in Hs.
  apply bind_Some in Hs as (assembled & Ha & Hs).
  apply bind_Some in Hs as (evs & Hv & Hs).
  destruct (storedRowMatchesCore _ _ _) eqn:Hm; [|done]. injection Hs as ->.
  unfold assembleStoredRecord in Ha.
  apply bind_Some in Ha as (core & Hcore & Ha).
  apply bind_Some in Ha as (signatures & _ & Ha).
  apply bind_Some in Ha as (votes & _ & Ha).
  destruct (RecordHash _); [|done]. injection Ha as <-.
  exists anchor, (certifiedRecord (makeActionCertifiedRecord core (hashOf r) anchor signatures) votes), core.
  unfold storedRowMatchesCore in Hm. simpl in Hm. rewrite !andb_true_iff in Hm.
  destruct Hm as ((((([_ _] & Hp%bool_decide_eq_true) & _) & _) & _) & _).
  split_and!; try done; [by apply decodeCanonical_encodes|].
  unfold verifyCertifiedRecord in Hv. apply bind_Some in Hv as (h & Hacr & _).
  pose proof (Certificates.action_certificate_set _ _ _ _ _ Hacr) as [Hh _]. simpl in Hh.
  unfold verifyActionCertifiedRecord in Hacr. apply bind_Some in Hacr as (h' & Hcv & Hacr).
  destruct (decide _) as [|Heq%dec_stable]; [done|]. simpl in Heq.
  unfold verifyRecordCore in Hcv. simpl in Hcv.
  apply bind_Some in Hcv as (u & _ & Hcv). apply bind_Some in Hcv as (va & _ & Hcv).
  destruct (_ || _); [done|]. by rewrite Heq.
Qed.

(** ** The loops *)

Lemma followAnchors_chain membership remaining cursor cursor' :
  followAnchors versions maximumEncodedBytes membership remaining cursor = Some cursor' ->
  exists k, k <= length remaining /\ anchorIndex cursor' = anchorIndex cursor + k /\
    currentRecordHash cursor' = currentRecordHash cursor /\
    chain sa_previousAnchorHash sa_anchorHash (Some (currentAnchorHash cursor))
      (take k remaining) (Some (currentAnchorHash cursor')).
Proof.
  revert cursor. induction remaining as [|a remaining IH]; intros cursor; simpl.
  - intros [= <-]. exists 0. split_and!; [lia|lia|done|done].
  - destruct (anchorExtendsCursor a cursor) eqn:He; cycle 1.
    { intros [= <-]. exists 0. split_and!; [lia|lia|done|done]. }
    intros (anchor & _ & Hf)%bind_Some. apply IH in Hf as (k & Hk & Hi & Hr & Hc).
    exists (S k). simpl in *. split_and!; [lia|lia|done| |done].
    unfold anchorExtendsCursor in He. rewrite !andb_true_iff, !bool_decide_eq_true in He.
    by destruct He as [[? _] _].
Qed.

(** What holds of the cursor: the anchors it passed are one chain to its
    current anchor. *)
Definition anchorsTo (ancs : list StoredAnchor) (cursor : HistoryCursor) : Prop :=
  anchorIndex cursor <= length ancs /\
  chain sa_previousAnchorHash sa_anchorHash None (take (anchorIndex cursor) ancs)
    (Some (currentAnchorHash cursor)).

Lemma followRecords_chain membership ancs stored cursor cursor' :
  anchorsTo ancs cursor ->
  followRecords versions maximumEncodedBytes membership ancs stored cursor = Some cursor' ->
  anchorsTo ancs cursor' /\
  chain previous hashOf (currentRecordHash cursor) stored (currentRecordHash cursor') /\
  Forall (fun r => certifiedRow membership r /\
    sr_anchorHash (row r) ∈ sa_anchorHash <$> ancs) stored.
Proof.
  revert cursor. induction stored as [|r stored IH]; intros cursor Hto; simpl.
  - intros [= <-]. done.
  - destruct (recordExtendsCursor _ _ _) eqn:He; [|done].
    intros (record & Hrec & Hf)%bind_Some. apply bind_Some in Hf as (next & Hnext & Hf).
    apply followAnchors_chain in Hnext as (k & Hk & Hi & Hr & Hc). simpl in Hi, Hr, Hc.
    destruct Hto as [Hle Hto]. rewrite length_drop in Hk.
    assert (Hto' : anchorsTo ancs next).
    { split; [lia|]. rewrite Hi. rewrite <- (firstn_skipn (anchorIndex cursor) ancs) at 1.
      rewrite take_app, take_take, length_take, !Nat.min_r, Nat.min_l by lia.
      replace (anchorIndex cursor + k - anchorIndex cursor) with k by lia.
      rewrite chain_app. eauto. }
    destruct (IH next Hto' Hf) as (Hlast & Hchain & Hall). rewrite Hr in Hchain.
    unfold recordExtendsCursor in He. rewrite !andb_true_iff, !bool_decide_eq_true in He.
    destruct He as [[_ Hprev] Hanchor].
    split_and!; [done|done|done|]. constructor; [|done].
    split; [by eapply recordFromStore_row|]. rewrite Hanchor.
    apply chain_last in Hto as [[_ [=]]|(l & a & Ht & <-)].
    apply list_elem_of_fmap. exists a. split; [done|].
    apply (subseteq_take (anchorIndex cursor)). rewrite Ht. set_solver.
Qed.

Lemma verified_history_chain recovery membership :
  verifyConversationHistory versions maximumEncodedBytes recovery membership = Some tt ->
  let conversation := md_conversationId (descriptor membership) in
  let rows := filter (fun c => sr_conversationId (row c) = conversation) (certifiedRecords recovery) in
  let ancs := filter (fun c => sa_conversationId c = conversation) (anchors recovery) in
  exists p, filter (fun c => po_conversationId c = conversation) (positions recovery) = [p] /\
    chain previous hashOf None rows (po_headRecordHash p) /\
    chain sa_previousAnchorHash sa_anchorHash None ancs (Some (po_currentAnchorHash p)) /\
    Forall (fun r => certifiedRow membership r /\
      sr_anchorHash (row r) ∈ sa_anchorHash <$> ancs) rows.
Proof.
  unfold verifyConversationHistory. intros (history & Hh & Hv)%bind_Some.
  apply bind_Some in Hv as (cursor & Hf & Hv).
  destruct (historyCursorMatchesPosition _ _) eqn:Hm; [|done].
  unfold historyCursorMatchesPosition in Hm. rewrite !andb_true_iff, !bool_decide_eq_true in Hm.
  destruct Hm as [[Hidx Hhead] Hanchor].
  unfold conversationHistory in Hh.
  destruct (filter _ (positions recovery)) as [|p ps] eqn:Hps; [done|].
  destruct (filter _ (anchors recovery)) as [|a ancs] eqn:Hancs; [done|].
  destruct (validHistoryFoundation _ _ _ _) eqn:Hvalid; [|done].
  apply bind_Some in Hh as (anchor & _ & [= <-]).
  unfold validHistoryFoundation in Hvalid. rewrite !andb_true_iff, !bool_decide_eq_true in Hvalid.
  destruct Hvalid as [[Hone _] Hfirst]. simpl in *.
  destruct ps as [|]; [|done].
  apply followRecords_chain in Hf as ([_ Hto] & Hchain & Hall).
  - rewrite Hidx in Hto; change (S (length ancs)) with (length (a :: ancs)) in Hto; rewrite firstn_all in Hto. simpl in *. exists p. rewrite Hhead, Hanchor. done.
  - split; [simpl; lia|]. simpl. by rewrite Hfirst.
Qed.

(** ** The startup check *)

Lemma verified_keys rows registry verified :
  verifyStoredMemberships versions rows registry = Some verified ->
  forall k membership, (k, membership) ∈ verified ->
    md_conversationId (descriptor membership) = k.
Proof.
  unfold verifyStoredMemberships. intros (l & _ & [= <-])%bind_Some.
  assert (Hgen : forall acc, (forall k membership, (k, membership) ∈ acc ->
      md_conversationId (descriptor membership) = k) ->
    forall k membership, (k, membership) ∈ foldl (fun m membership =>
      jm_set m (md_conversationId (descriptor membership)) membership) acc l ->
      md_conversationId (descriptor membership) = k); [|apply Hgen; set_solver].
  induction l as [|x l IH]; intros acc Hacc; simpl; [done|].
  apply IH. intros k membership Hin. revert Hin. clear IH.
  induction acc as [|[k' v'] acc IHacc]; simpl.
  - rewrite list_elem_of_singleton. by intros [= -> ->].
  - case_decide as Hd; rewrite elem_of_cons.
    + intros [[= -> ->]|Hin]; [congruence|]. apply Hacc. by right.
    + intros [[= -> ->]|Hin]; [apply Hacc; by left|]. apply IHacc; [|done].
      intros ? ? ?. apply Hacc. by right.
Qed.

(** C10: the snapshot a daemon starts from is sound.  When startup verifies the
    stored memberships and the recovered history, every certified row of the
    store belongs to a verified membership's conversation, holds a record
    with a quorum certificate whose core is the row's bytes and hash, binds a
    stored anchor, and stands on that conversation's one chain, from the
    first record to the stored head; the anchors form one chain to the stored
    current anchor. *)
Theorem recovered_history_sound rows registry verified recovery :
  verifyStoredMemberships versions rows registry = Some verified ->
  verifyRecoveredHistory versions maximumEncodedBytes recovery verified = Some tt ->
  forall r, r ∈ certifiedRecords recovery ->
  exists membership p, (sr_conversationId (row r), membership) ∈ verified /\
    certifiedRow membership r /\
    let conversation := sr_conversationId (row r) in
    let own := filter (fun c => sr_conversationId (row c) = conversation) (certifiedRecords recovery) in
    let ancs := filter (fun c => sa_conversationId c = conversation) (anchors recovery) in
    filter (fun c => po_conversationId c = conversation) (positions recovery) = [p] /\
    r ∈ own /\ chain previous hashOf None own (po_headRecordHash p) /\
    chain sa_previousAnchorHash sa_anchorHash None ancs (Some (po_currentAnchorHash p)) /\
    sr_anchorHash (row r) ∈ sa_anchorHash <$> ancs.
Proof.
  intros Hkeys Hv r Hr. pose proof (verified_keys _ _ _ Hkeys) as Hown. clear Hkeys.
  unfold verifyRecoveredHistory in Hv.
  destruct (recoveryOnlyContainsMemberships recovery verified) eqn:Honly; [|done].
  unfold recoveryOnlyContainsMemberships in Honly. rewrite !andb_true_iff in Honly.
  destruct Honly as [_ Hrows]. rewrite forallb_forall in Hrows.
  specialize (Hrows r (proj1 (list_elem_of_In _ _) Hr)). apply bool_decide_eq_true in Hrows.
  apply list_elem_of_fmap in Hrows as ([k membership] & Hk & Hin). simpl in Hk. subst k.
  apply bind_Some in Hv as (us & Hus & _). apply mapM_Some in Hus.
  apply list_elem_of_lookup in Hin as Hin'. destruct Hin' as [i Hi].
  destruct (Forall2_lookup_l _ _ _ _ _ Hus Hi) as ([] & _ & Hconv). simpl in Hconv.
  apply verified_history_chain in Hconv as (p & Hp & Hchain & Hancs & Hall).
  rewrite (Hown _ _ Hin) in *.
  assert (Hown' : r ∈ filter (fun c => sr_conversationId (row c) = sr_conversationId (row r))
    (certifiedRecords recovery)) by (by apply list_elem_of_filter).
  destruct (proj1 (Forall_forall _ _) Hall r Hown') as [Hcert Hanc].
  exists membership, p. done.
Qed.

(** ** The head commits to the history *)

(** What a record's hash is the SHA-256 digest of. *)
Definition recordInput (r : StoredCertifiedRecord) : string :=
  CLIENT_DOMAIN ++ "record" ++ NUL ++ canonicalRecordCore (row r).

(** A record of the one history and a record of the other collide. *)
Definition recordsCollide (rows1 rows2 : list StoredCertifiedRecord) : Prop :=
  exists r1 r2, r1 ∈ rows1 /\ r2 ∈ rows2 /\
    recordInput r1 <> recordInput r2 /\ sha256 (recordInput r1) = sha256 (recordInput r2).

Context `{!Base64UrlLaws _}.

Lemma encode64_inj x y : encodeBase64Url x = encodeBase64Url y -> x = y.
Proof. intros He. apply (f_equal decodeBase64Url) in He. rewrite !decode_encode64 in He. congruence. Qed.

Lemma hash_commits core1 core2 h b1 b2 :
  hashRecord versions core1 = Some h -> hashRecord versions core2 = Some h ->
  encodeCanonical core1 = Some b1 -> encodeCanonical core2 = Some b2 ->
  sha256 (CLIENT_DOMAIN ++ "record" ++ NUL ++ b1) = sha256 (CLIENT_DOMAIN ++ "record" ++ NUL ++ b2).
Proof.
  unfold hashRecord, domainHash. intros Hh1 Hh2 He1 He2.
  apply bind_Some in Hh1 as (b1' & Hb1 & Hh1), Hh2 as (b2' & Hb2 & Hh2).
  assert (b1' = b1) as -> by (unfold encodeCanonical in *; simpl in *; congruence).
  assert (b2' = b2) as -> by (unfold encodeCanonical in *; simpl in *; congruence).
  cbv zeta in Hh1, Hh2. destruct (RecordHash _); [|done]. destruct (RecordHash _); [|done].
  rewrite <- Hh2 in Hh1. by apply (inj Some), append_inj, encode64_inj in Hh1.
Qed.

(** Rows with one hash hold the same bytes and name the same predecessor. *)
Lemma row_commits m1 m2 r1 r2 :
  certifiedRow m1 r1 -> certifiedRow m2 r2 -> hashOf r1 = hashOf r2 ->
  (canonicalRecordCore (row r1) = canonicalRecordCore (row r2) /\ previous r1 = previous r2) \/
  (recordInput r1 <> recordInput r2 /\ sha256 (recordInput r1) = sha256 (recordInput r2)).
Proof.
  intros (_ & _ & c1 & _ & _ & He1 & Hd1 & Hh1 & Hp1) (_ & _ & c2 & _ & _ & He2 & Hd2 & Hh2 & Hp2) Hh.
  simpl in *. rewrite <- Hh in Hh2.
  pose proof (hash_commits _ _ _ _ _ Hh1 Hh2 He1 He2) as Hsha.
  destruct (decide (canonicalRecordCore (row r1) = canonicalRecordCore (row r2))) as [Hb|Hne];
    [left|right; split; [|exact Hsha]; unfold recordInput; intros Heq; apply Hne;
      by do 3 apply append_inj in Heq].
  split; [done|]. rewrite Hb, Hd2 in Hd1. injection Hd1 as ->. congruence.
Qed.

Lemma chains_agree m1 m2 rows1 rows2 last :
  Forall (certifiedRow m1) rows1 -> Forall (certifiedRow m2) rows2 ->
  chain previous hashOf None rows1 last -> chain previous hashOf None rows2 last ->
  (fun r => canonicalRecordCore (row r)) <$> rows1 = (fun r => canonicalRecordCore (row r)) <$> rows2
  \/ recordsCollide rows1 rows2.
Proof.
  revert rows2 last. induction rows1 as [|r1 rows1 IH] using rev_ind; intros rows2 last Hf1 Hf2.
  - simpl. intros ->. destruct rows2 as [|r2 rows2 _] using rev_ind; [by left|].
    rewrite chain_app. by intros (mid & _ & _ & [=]).
  - apply Forall_app in Hf1 as [Hf1 [Hr1 _]%Forall_cons_1].
    rewrite chain_app. simpl. intros (mid1 & Hc1 & Hp1 & ->).
    destruct rows2 as [|r2 rows2 _] using rev_ind; [by intros [=]|].
    apply Forall_app in Hf2 as [Hf2 [Hr2 _]%Forall_cons_1].
    rewrite chain_app. simpl. intros (mid2 & Hc2 & Hp2 & [= Hh]).
    destruct (row_commits m1 m2 r1 r2 Hr1 Hr2 Hh) as [[Hb Hp]|[Hne Hsha]];
      [|right; exists r1, r2; rewrite !elem_of_app, !list_elem_of_singleton; auto].
    simpl in Hp. assert (mid2 = mid1) as -> by congruence.
    destruct (IH rows2 mid1 Hf1 Hf2 Hc1 Hc2) as [Heq|(x & y & Hx & Hy & Hxy)]; [left|].
    2: { right. exists x, y. rewrite !elem_of_app. auto. }
    rewrite !fmap_app, Heq. csimpl. by rewrite Hb.
Qed.

(** C33: one head, one history.  Two endpoints that verified their stored
    histories, each under its own membership, and hold the same head record
    hash for it, hold byte for byte the same record cores in the same order,
    unless the hashed bytes of a record of the one and of a record of the
    other are a collision of SHA-256. *)
Theorem head_commits_history recovery1 recovery2 membership1 membership2 p1 p2 :
  let rows recovery membership := filter (fun c =>
    sr_conversationId (row c) = md_conversationId (descriptor membership)) (certifiedRecords recovery) in
  verifyConversationHistory versions maximumEncodedBytes recovery1 membership1 = Some tt ->
  verifyConversationHistory versions maximumEncodedBytes recovery2 membership2 = Some tt ->
  p1 ∈ positions recovery1 -> po_conversationId p1 = md_conversationId (descriptor membership1) ->
  p2 ∈ positions recovery2 -> po_conversationId p2 = md_conversationId (descriptor membership2) ->
  po_headRecordHash p1 = po_headRecordHash p2 ->
  (fun r => canonicalRecordCore (row r)) <$> rows recovery1 membership1 =
  (fun r => canonicalRecordCore (row r)) <$> rows recovery2 membership2 \/
  recordsCollide (rows recovery1 membership1) (rows recovery2 membership2).
Proof.
  intros rows Hv1%verified_history_chain Hv2%verified_history_chain Hin1 Hc1 Hin2 Hc2 Hhead.
  destruct Hv1 as (q1 & Hq1 & Hchain1 & _ & Hall1), Hv2 as (q2 & Hq2 & Hchain2 & _ & Hall2).
  assert (p1 = q1) as ->.
  { apply list_elem_of_singleton. rewrite <- Hq1. by apply list_elem_of_filter. }
  assert (p2 = q2) as ->.
  { apply list_elem_of_singleton. rewrite <- Hq2. by apply list_elem_of_filter. }
  rewrite <- Hhead in Hchain2.
  eapply (chains_agree membership1 membership2); [| |exact Hchain1|exact Hchain2];
    eapply Forall_impl; eauto; by intros ? [? _].
Qed.

End history.

(** ** A stored conversation of two members and two records *)
Module Runs.
Import Hosts RecordRuns.
#[local] Existing Instances base64url json digest signatures.

Definition bytes (v : JsonValue) : string := default EmptyString (canonicalize v).

Definition evidenceRows (kind : EvidenceKind) (subject : string) (signatures : list Jws) :
    list ProtocolEvidence :=
  zip_with (fun signer jws =>
    mkProtocolEvidence conversation kind subject signer (bytes (AgentKey.jwsJson jws)))
    [idB; idA] (reverse signatures).

Definition stored (r : CertifiedRecord) : StoredCertifiedRecord :=
  let acr := actionCertifiedRecord r in
  let core := recordCore acr in
  let intent := postIntent (core_action core) in
  mkStoredCertified
    (mkStaged conversation (recordHash acr) (previousRecordHash (core_action core)) mbr
      (core_anchorHash core) (core_actionHash core) (authorAgentId intent) (postId intent)
      (bytes (recordCoreJson core)))
    (evidenceRows ActionEvidence (core_actionHash core) (ac_signatures (actionCertificate acr)))
    (evidenceRows DurabilityEvidence (recordHash acr) (dc_votes (durabilityCertificate r))).

Definition storedMembership : StoredMembership := Eval vm_compute in
  mkStoredMembership conversation mbr (bytes (descriptorJson twoMembers)).

Definition head : ConversationPosition := Eval vm_compute in
  mkPosition conversation mbr anchorHash (Some (recordHash (actionCertifiedRecord next))).

Definition snapshot : EndpointRecovery := Eval vm_compute in
  mkRecovery [storedMembership]
    [mkStoredAnchor conversation anchorHash None None (bytes (genesisAnchorJson anchor))] []
    [stored first; stored next] [head].

(** The same history at an endpoint whose evidence rows came in another order. *)
Definition reordered (r : StoredCertifiedRecord) : StoredCertifiedRecord :=
  mkStoredCertified (row r) (reverse (actionEvidence r)) (reverse (durabilityEvidence r)).
Definition snapshot2 : EndpointRecovery := Eval vm_compute in
  mkRecovery (memberships snapshot) (anchors snapshot) [row (stored next)]
    (reordered <$> certifiedRecords snapshot) (positions snapshot).

End Runs.
Import Runs.

Lemma recovered_history_sound_witness :
  length (certifiedRecords snapshot) = 2 /\
  forall r, r ∈ certifiedRecords snapshot ->
    certifiedRow (H := Hosts.base64url) (H0 := Hosts.json) (H1 := Hosts.signatures)
      (H2 := Hosts.digest) None Hosts.maximum RecordRuns.membership r.
Proof.
  split; [vm_compute; reflexivity|]. intros r Hr.
  destruct (recovered_history_sound (H := Hosts.base64url) (H0 := Hosts.json)
    (H1 := Hosts.signatures) (H2 := Hosts.digest) None Hosts.maximum [storedMembership]
    Hosts.registryKey [(RecordRuns.conversation, RecordRuns.membership)] snapshot)
    with (r := r) as (m & p & Hm & Hrow & _);
    [vm_compute; reflexivity|vm_compute; reflexivity|exact Hr|].
  apply list_elem_of_singleton in Hm. injection Hm as _ ->. exact Hrow.
Defined.

(** No two records of the two snapshots collide. *)
Definition apart (r1 r2 : StoredCertifiedRecord) : bool :=
  bool_decide (recordInput r1 = recordInput r2) ||
  negb (bool_decide (sha256 (Sha256 := Hosts.digest) (recordInput r1) =
                     sha256 (Sha256 := Hosts.digest) (recordInput r2))).

Lemma snapshots_apart rows1 rows2 :
  forallb (fun r1 => forallb (apart r1) rows2) rows1 = true ->
  ~ recordsCollide (H2 := Hosts.digest) rows1 rows2.
Proof.
  intros Hall (r1 & r2 & H1 & H2 & Hne & Hsha). rewrite forallb_forall in Hall.
  specialize (Hall r1 (proj1 (list_elem_of_In _ _) H1)). rewrite forallb_forall in Hall.
  specialize (Hall r2 (proj1 (list_elem_of_In _ _) H2)). unfold apart in Hall.
  apply orb_true_iff in Hall as [?%bool_decide_eq_true|Hd%negb_true_iff]; [done|].
  by apply bool_decide_eq_false in Hd.
Qed.

Lemma head_commits_history_witness :
  po_headRecordHash head <> None /\
  (fun r => canonicalRecordCore (row r)) <$> certifiedRecords snapshot =
  (fun r => canonicalRecordCore (row r)) <$> certifiedRecords snapshot2.
Proof.
  split; [discriminate|].
  cut ((fun r => canonicalRecordCore (row r)) <$> certifiedRecords snapshot =
       (fun r => canonicalRecordCore (row r)) <$> certifiedRecords snapshot2 \/
       recordsCollide (H2 := Hosts.digest) (certifiedRecords snapshot) (certifiedRecords snapshot2)).
  { intros [Heq|Hc]; [exact Heq|]. exfalso. revert Hc. apply snapshots_apart. vm_compute. reflexivity. }
  apply (head_commits_history (H := Hosts.base64url) (H0 := Hosts.json) (H1 := Hosts.signatures)
    (H2 := Hosts.digest) None Hosts.maximum (Base64UrlLaws0 := Hosts.base64url_laws)
    snapshot snapshot2 RecordRuns.membership RecordRuns.membership head head);
    first [vm_compute; reflexivity | vm_compute; apply list_elem_of_here | reflexivity].
Defined.
End HistoryChain.
