(* ===== verification/StoreDatabase.v ===== *)
(** StoreDatabase: the endpoint store's failures, its transactions and its
    tables (packages/client/src/communication/store/database/values.ts and
    database/schema.ts).

    A table read by its key or in key order is a finite map from its primary
    key; a table read in insertion order is the list of its rows in [rowid]
    order.  A statement that breaks a constraint of the schema (primary key,
    UNIQUE, foreign key) fails with [persistence], as [mapStoreFailure] reports
    every failure the store does not signal itself.  Failures of the disk, a
    commit the database cannot confirm and a corrupt file are not modelled. *)
From Stdlib Require Import Ascii.
From S2P Require Import Prelude JsMap Json JsString Identifiers CollectivePart SignedMessages.
From S2P Require Import RecordSchemas Records StoredHistory.
Local Open Scope string_scope.

Module StoreDatabase.
Export StoredHistory.

(** ** Failures and transactions *)

Inductive EndpointStoreFailure :=
  | closed | conflict | corrupt | incompatible | invalid_continuation
  | invalid_input | newer_schema | pre_reset | not_found | persistence.
Global Instance EndpointStoreFailure_eq_dec : EqDecision EndpointStoreFailure.
Proof. solve_decision. Defined.

Inductive StoreMutation := inserted | existing.
Global Instance StoreMutation_eq_dec : EqDecision StoreMutation.
Proof. solve_decision. Defined.

(** What the firewall's check of a write decided. *)
Inductive FirewallCommit := CommitAdmitted | CommitWithheld | CommitStale.
Global Instance FirewallCommit_eq_dec : EqDecision FirewallCommit.
Proof. solve_decision. Defined.

(** Whether two optional components inserted anything. *)
Definition either_inserted (left right : StoreMutation) : StoreMutation :=
  if bool_decide (left = inserted \/ right = inserted) then inserted else existing.

Definition isSemanticStoreRejection (error : EndpointStoreFailure) : bool :=
  bool_decide (error = conflict) || bool_decide (error = invalid_input).

(** ** Rows *)

Record IdentityBinding := mkIdentity {
  ib_agentId : string;
  ib_canonicalAgentCard : string;
}.

Record PostIntentRow := mkPostIntentRow {
  pi_conversationId : string;
  pi_membershipHash : string;
  pi_authorAgentId : string;
  pi_postId : string;
  pi_canonicalIntent : string;
  pi_completedRecordHash : option string;
}.

Record ConversationFoundation := mkFoundation {
  cf_conversationId : string;
  cf_membershipHash : string;
  cf_canonicalMembership : string;
  cf_anchorHash : string;
  cf_canonicalAnchor : string;
}.

Inductive PostIntentBinding :=
  | ExistingConversation (intent : PostIntentRow)
  | NewConversation (foundation : ConversationFoundation) (intent : PostIntentRow).

Record ProposalLock := mkLock {
  pl_conversationId : string;
  pl_previousRecordHash : option string;
  pl_actionHash : string;
  pl_canonicalActionCore : string;
}.

(** [InternalPosition]: a row of conversation_state. *)
Record InternalPosition := mkInternalPosition {
  ip_membershipHash : string;
  ip_currentAnchorHash : string;
  ip_headRecordHash : option string;
  ip_headOrdinal : Z;
}.

Record StagedReanchor := mkReanchor {
  ra_conversationId : string;
  ra_anchorHash : string;
  ra_previousAnchorHash : string;
  ra_routerInstanceId : string;
  ra_selectedRecordHash : string;
  ra_canonicalBody : string;
}.

Record CompletedReanchorRow := mkCompletedReanchor {
  cr_staged : StagedReanchor;
  cr_canonicalCompletedReanchor : string;
}.

Record RecoveredReanchor := mkRecoveredReanchor {
  rr_staged : StagedReanchor;
  rr_canonicalCompletedReanchor : option string;
}.

Record InboundDeliveryInput := mkDeliveryInput {
  di_recipientAgentId : string;
  di_canonicalMessage : string;
}.

Record PendingDelivery := mkDelivery {
  pd_deliveryToken : string;
  pd_conversationId : string;
  pd_recordHash : string;
  pd_recipientAgentId : string;
  pd_canonicalMessage : string;
  pd_acknowledged : bool;
}.

Record OutboundMessageInput := mkOutbound {
  om_wireVersion : string;
  om_conversationId : string;
  om_messageId : string;
  om_canonicalSignedMessage : string;
}.
Global Instance OutboundMessageInput_eq_dec : EqDecision OutboundMessageInput.
Proof. solve_decision. Defined.

Inductive OutboundDisposition := accepted | discarded | pending.
Global Instance OutboundDisposition_eq_dec : EqDecision OutboundDisposition.
Proof. solve_decision. Defined.

Record RetainedOutbound := mkRetainedOutbound {
  ro_outbound : OutboundMessageInput;
  ro_attempted : bool;
  ro_disposition : OutboundDisposition;
}.

Record DisseminationRow := mkDissemination {
  do_conversationId : string;
  do_recordHash : string;
  do_messageId : option string;
}.

(** ** Tables *)

Definition EvidenceIdentity : Type := string * EvidenceKind * string * string.
Global Instance EvidenceKind_countable : Countable EvidenceKind.
Proof.
  refine (inj_countable'
    (fun k => match k with ActionEvidence => 0 | DurabilityEvidence => 1
                      | CatchUpEvidence => 2 | ReanchorEvidence => 3 end)
    (fun n : nat => match n with 0 => ActionEvidence | 1 => DurabilityEvidence
                      | 2 => CatchUpEvidence | _ => ReanchorEvidence end) _).
  by intros [].
Defined.

Record Database := mkDatabase {
  identity_binding : option IdentityBinding;
  post_intents : gmap (string * string) PostIntentRow;
  memberships : gmap string StoredMembership;
  anchors : list StoredAnchor;
  conversation_state : gmap string InternalPosition;
  proposal_locks : gmap (string * string) ProposalLock;
  staged_records : gmap (string * string) StagedRecord;
  protocol_evidence : gmap EvidenceIdentity string;
  certified_records : gmap (string * string) Z;
  reanchors : list RecoveredReanchor;
  pending_deliveries : list PendingDelivery;
  outbound_messages : list RetainedOutbound;
  dissemination_obligations : list DisseminationRow;
}.

Definition createStore : Database :=
  mkDatabase None ∅ ∅ [] ∅ ∅ ∅ ∅ ∅ [] [] [] [].

(** A statement sequence inside one transaction: a failure discards the
    statements before it. *)
Definition Tx (A : Type) : Type := Database -> Exit EndpointStoreFailure (A * Database).
Global Instance tx_ret : MRet Tx := fun _ a db => Succeed (a, db).
Global Instance tx_bind : MBind Tx := fun _ _ k m db =>
  match m db with Succeed (a, db') => k a db' | Fail_ e => Fail_ e end.

Definition signal {A} (reason : EndpointStoreFailure) : Tx A := fun _ => Fail_ reason.
Definition gets {A} (f : Database -> A) : Tx A := fun db => Succeed (f db, db).
Definition modify (f : Database -> Database) : Tx unit := fun db => Succeed (tt, f db).
Definition require (reason : EndpointStoreFailure) (b : bool) : Tx unit :=
  if b then mret tt else signal reason.
Definition whenTx (b : bool) (m : Tx unit) : Tx unit := if b then m else mret tt.

Fixpoint forTx {A} (f : A -> Tx unit) (l : list A) : Tx unit :=
  match l with [] => mret tt | x :: l' => f x ;; forTx f l' end.

(** [transaction]: COMMIT on success, ROLLBACK on a failure. *)
Definition transaction {A} (operation : Tx A) (db : Database)
    : Exit EndpointStoreFailure A * Database :=
  match operation db with
  | Succeed (a, db') => (Succeed a, db')
  | Fail_ e => (Fail_ e, db)
  end.

(** ** Value checks *)

Definition requireText (value : string) : Tx unit :=
  require invalid_input
    (negb (bool_decide (value = "")) &&
     negb (existsb (Ascii.eqb "000"%char) (String.list_ascii_of_string value))).

Definition requireOptionalText (value : option string) : Tx unit :=
  match value with Some text => requireText text | None => mret tt end.

Definition requireBytes (value : string) : Tx unit :=
  require invalid_input (negb (bool_decide (value = ""))).

Definition requireEqual {A} `{EqDecision A} (left right : A) : Tx unit :=
  require conflict (bool_decide (left = right)).

Definition requireSameBytes (left right : string) : Tx unit := requireEqual left right.

(** [mintDeliveryToken]: at most eight draws, each the base64url text of 32
    random bytes. *)
Fixpoint mintFrom (attempts : list string) (isRetained : string -> bool) : Tx string :=
  match attempts with
  | [] => signal persistence
  | drawn :: rest =>
    let deliveryToken := "dlv_" ++ drawn in
    if isRetained deliveryToken then mintFrom rest isRetained else mret deliveryToken
  end.
Definition mintDeliveryToken (draws : list string) : (string -> bool) -> Tx string :=
  mintFrom (take 8 draws).

(** ** The schema's constraints *)

Definition constraint (b : bool) : Tx unit := require persistence b.

Definition hasAnchor (db : Database) (conversationId anchorHash : string) : bool :=
  existsb (fun a => bool_decide (sa_conversationId a = conversationId /\ sa_anchorHash a = anchorHash))
    (anchors db).
Definition hasMembership (db : Database) (conversationId : string) : bool :=
  bool_decide (is_Some (memberships db !! conversationId)).
Definition hasStagedRecord (db : Database) (key : string * string) : bool :=
  bool_decide (is_Some (staged_records db !! key)).
Definition hasCertifiedRecord (db : Database) (conversationId recordHash : string) : bool :=
  bool_decide (is_Some (certified_records db !! (conversationId, recordHash))).

Definition set_identity f db := mkDatabase f (post_intents db) (memberships db) (anchors db)
  (conversation_state db) (proposal_locks db) (staged_records db) (protocol_evidence db)
  (certified_records db) (reanchors db) (pending_deliveries db) (outbound_messages db)
  (dissemination_obligations db).
Definition set_post_intents f db := mkDatabase (identity_binding db) (f (post_intents db))
  (memberships db) (anchors db) (conversation_state db) (proposal_locks db) (staged_records db)
  (protocol_evidence db) (certified_records db) (reanchors db) (pending_deliveries db)
  (outbound_messages db) (dissemination_obligations db).
Definition set_memberships f db := mkDatabase (identity_binding db) (post_intents db)
  (f (memberships db)) (anchors db) (conversation_state db) (proposal_locks db) (staged_records db)
  (protocol_evidence db) (certified_records db) (reanchors db) (pending_deliveries db)
  (outbound_messages db) (dissemination_obligations db).
Definition set_anchors f db := mkDatabase (identity_binding db) (post_intents db)
  (memberships db) (f (anchors db)) (conversation_state db) (proposal_locks db) (staged_records db)
  (protocol_evidence db) (certified_records db) (reanchors db) (pending_deliveries db)
  (outbound_messages db) (dissemination_obligations db).
Definition set_positions f db := mkDatabase (identity_binding db) (post_intents db)
  (memberships db) (anchors db) (f (conversation_state db)) (proposal_locks db) (staged_records db)
  (protocol_evidence db) (certified_records db) (reanchors db) (pending_deliveries db)
  (outbound_messages db) (dissemination_obligations db).
Definition set_locks f db := mkDatabase (identity_binding db) (post_intents db)
  (memberships db) (anchors db) (conversation_state db) (f (proposal_locks db)) (staged_records db)
  (protocol_evidence db) (certified_records db) (reanchors db) (pending_deliveries db)
  (outbound_messages db) (dissemination_obligations db).
Definition set_staged f db := mkDatabase (identity_binding db) (post_intents db)
  (memberships db) (anchors db) (conversation_state db) (proposal_locks db) (f (staged_records db))
  (protocol_evidence db) (certified_records db) (reanchors db) (pending_deliveries db)
  (outbound_messages db) (dissemination_obligations db).
Definition set_evidence f db := mkDatabase (identity_binding db) (post_intents db)
  (memberships db) (anchors db) (conversation_state db) (proposal_locks db) (staged_records db)
  (f (protocol_evidence db)) (certified_records db) (reanchors db) (pending_deliveries db)
  (outbound_messages db) (dissemination_obligations db).
Definition set_certified f db := mkDatabase (identity_binding db) (post_intents db)
  (memberships db) (anchors db) (conversation_state db) (proposal_locks db) (staged_records db)
  (protocol_evidence db) (f (certified_records db)) (reanchors db) (pending_deliveries db)
  (outbound_messages db) (dissemination_obligations db).
Definition set_reanchors f db := mkDatabase (identity_binding db) (post_intents db)
  (memberships db) (anchors db) (conversation_state db) (proposal_locks db) (staged_records db)
  (protocol_evidence db) (certified_records db) (f (reanchors db)) (pending_deliveries db)
  (outbound_messages db) (dissemination_obligations db).
Definition set_deliveries f db := mkDatabase (identity_binding db) (post_intents db)
  (memberships db) (anchors db) (conversation_state db) (proposal_locks db) (staged_records db)
  (protocol_evidence db) (certified_records db) (reanchors db) (f (pending_deliveries db))
  (outbound_messages db) (dissemination_obligations db).
Definition set_outbound f db := mkDatabase (identity_binding db) (post_intents db)
  (memberships db) (anchors db) (conversation_state db) (proposal_locks db) (staged_records db)
  (protocol_evidence db) (certified_records db) (reanchors db) (pending_deliveries db)
  (f (outbound_messages db)) (dissemination_obligations db).
Definition set_obligations f db := mkDatabase (identity_binding db) (post_intents db)
  (memberships db) (anchors db) (conversation_state db) (proposal_locks db) (staged_records db)
  (protocol_evidence db) (certified_records db) (reanchors db) (pending_deliveries db)
  (outbound_messages db) (f (dissemination_obligations db)).

(** INSERT statements, each under its table's keys. *)
Definition insert_membership (m : StoredMembership) : Tx unit :=
  db ← gets id;
  constraint (negb (hasMembership db (sm_conversationId m))) ;;
  modify (set_memberships <[sm_conversationId m := m]>).

Definition insert_anchor (a : StoredAnchor) : Tx unit :=
  db ← gets id;
  constraint (hasMembership db (sa_conversationId a) &&
              negb (hasAnchor db (sa_conversationId a) (sa_anchorHash a))) ;;
  modify (set_anchors (fun l => (l ++ [a])%list)).

Definition insert_position (conversationId : string) (p : InternalPosition) : Tx unit :=
  db ← gets id;
  constraint (hasMembership db conversationId &&
              hasAnchor db conversationId (ip_currentAnchorHash p) &&
              bool_decide (conversation_state db !! conversationId = None)) ;;
  modify (set_positions <[conversationId := p]>).

Definition insert_post_intent (i : PostIntentRow) : Tx unit :=
  db ← gets id;
  constraint (bool_decide (post_intents db !! (pi_authorAgentId i, pi_postId i) = None) &&
              bool_decide (sm_membershipHash <$> memberships db !! pi_conversationId i =
                           Some (pi_membershipHash i))) ;;
  modify (set_post_intents <[(pi_authorAgentId i, pi_postId i) := i]>).

Definition insert_lock (predecessorKey : string) (l : ProposalLock) : Tx unit :=
  db ← gets id;
  constraint (hasMembership db (pl_conversationId l) &&
              bool_decide (proposal_locks db !! (pl_conversationId l, predecessorKey) = None)) ;;
  modify (set_locks <[(pl_conversationId l, predecessorKey) := l]>).

Definition insert_staged (r : StagedRecord) : Tx unit :=
  db ← gets id;
  constraint (hasMembership db (sr_conversationId r) &&
              hasAnchor db (sr_conversationId r) (sr_anchorHash r) &&
              negb (hasStagedRecord db (sr_conversationId r, sr_recordHash r))) ;;
  modify (set_staged <[(sr_conversationId r, sr_recordHash r) := r]>).

Definition evidence_identity (e : ProtocolEvidence) : EvidenceIdentity :=
  (pe_conversationId e, pe_kind e, pe_subjectId e, evidenceKey e).

Definition insert_evidence (e : ProtocolEvidence) : Tx unit :=
  db ← gets id;
  constraint (hasMembership db (pe_conversationId e) &&
              bool_decide (protocol_evidence db !! evidence_identity e = None)) ;;
  modify (set_evidence <[evidence_identity e := canonicalEvidence e]>).

Definition insert_certified (conversationId recordHash : string) (ordinal : Z) : Tx unit :=
  db ← gets id;
  constraint (bool_decide (0 <= ordinal)%Z &&
              negb (hasCertifiedRecord db conversationId recordHash) &&
              bool_decide (map_Forall (fun k o => ~ (k.1 = conversationId /\ o = ordinal))
                             (certified_records db)) &&
              hasStagedRecord db (conversationId, recordHash)) ;;
  modify (set_certified <[(conversationId, recordHash) := ordinal]>).

Definition insert_reanchor (r : StagedReanchor) : Tx unit :=
  db ← gets id;
  constraint (hasMembership db (ra_conversationId r) &&
              hasAnchor db (ra_conversationId r) (ra_previousAnchorHash r) &&
              hasCertifiedRecord db (ra_conversationId r) (ra_selectedRecordHash r) &&
              forallb (fun held => negb (bool_decide (
                  ra_conversationId (rr_staged held) = ra_conversationId r /\
                  (ra_anchorHash (rr_staged held) = ra_anchorHash r \/
                   ra_previousAnchorHash (rr_staged held) = ra_previousAnchorHash r /\
                   ra_routerInstanceId (rr_staged held) = ra_routerInstanceId r))))
                (reanchors db)) ;;
  modify (set_reanchors (fun l => (l ++ [mkRecoveredReanchor r None])%list)).

Definition insert_delivery (d : PendingDelivery) : Tx unit :=
  db ← gets id;
  constraint (hasCertifiedRecord db (pd_conversationId d) (pd_recordHash d) &&
              forallb (fun held => negb (bool_decide (
                  pd_deliveryToken held = pd_deliveryToken d \/
                  pd_conversationId held = pd_conversationId d /\
                  pd_recordHash held = pd_recordHash d /\
                  pd_recipientAgentId held = pd_recipientAgentId d)))
                (pending_deliveries db)) ;;
  modify (set_deliveries (fun l => (l ++ [d])%list)).

Definition insert_outbound (o : RetainedOutbound) : Tx unit :=
  db ← gets id;
  constraint (hasMembership db (om_conversationId (ro_outbound o)) &&
              forallb (fun held => negb (bool_decide (
                  om_messageId (ro_outbound held) = om_messageId (ro_outbound o))))
                (outbound_messages db)) ;;
  modify (set_outbound (fun l => (l ++ [o])%list)).

Definition insert_obligation (d : DisseminationRow) : Tx unit :=
  db ← gets id;
  constraint (hasStagedRecord db (do_conversationId d, do_recordHash d) &&
              forallb (fun held => negb (bool_decide (
                  do_conversationId held = do_conversationId d /\
                  do_recordHash held = do_recordHash d)))
                (dissemination_obligations db)) ;;
  modify (set_obligations (fun l => (l ++ [d])%list)).

(** DELETE statements: no remaining row may name a deleted one. *)
Definition delete_staged (P : StagedRecord -> bool) : Tx unit :=
  db ← gets id;
  constraint (bool_decide (map_Forall (fun k r => P r = true ->
                certified_records db !! k = None /\
                Forall (fun d => (do_conversationId d, do_recordHash d) <> k)
                  (dissemination_obligations db)) (staged_records db))) ;;
  modify (set_staged (filter (fun kr => P kr.2 = false))).

Definition delete_anchors (P : StoredAnchor -> bool) : Tx unit :=
  db ← gets id;
  constraint (forallb (fun a => negb (P a) || bool_decide (
      map_Forall (fun c p => ~ (c = sa_conversationId a /\ ip_currentAnchorHash p = sa_anchorHash a))
        (conversation_state db) /\
      map_Forall (fun _ r => ~ (sr_conversationId r = sa_conversationId a /\
                                sr_anchorHash r = sa_anchorHash a)) (staged_records db) /\
      Forall (fun r => ~ (ra_conversationId (rr_staged r) = sa_conversationId a /\
                          ra_previousAnchorHash (rr_staged r) = sa_anchorHash a)) (reanchors db)))
    (anchors db)) ;;
  modify (set_anchors (filter (fun a => P a = false))).

Definition delete_obligations (P : DisseminationRow -> bool) : Tx unit :=
  modify (set_obligations (filter (fun d => P d = false))).
Definition delete_evidence (P : EvidenceIdentity -> bool) : Tx unit :=
  modify (set_evidence (filter (fun kv => P kv.1 = false))).
Definition delete_locks (P : ProposalLock -> bool) : Tx unit :=
  modify (set_locks (filter (fun kv => P kv.2 = false))).
Definition delete_reanchors (P : RecoveredReanchor -> bool) : Tx unit :=
  modify (set_reanchors (filter (fun r => P r = false))).

(** UPDATE conversation_state: the current anchor stays a retained one. *)
Definition update_position (conversationId : string)
    (f : InternalPosition -> InternalPosition) : Tx unit :=
  db ← gets id;
  constraint (match conversation_state db !! conversationId with
              | Some p => hasAnchor db conversationId (ip_currentAnchorHash (f p))
              | None => true
              end) ;;
  modify (set_positions (alter f conversationId)).

(** ** Reasoning about transactions *)

Lemma tx_bind_ok {A B} (m : Tx A) (k : A -> Tx B) db b db' :
  (m ≫= k) db = Succeed (b, db') <->
  exists a db1, m db = Succeed (a, db1) /\ k a db1 = Succeed (b, db').
Proof. unfold mbind, tx_bind. destruct (m db) as [[a db1]|e]; naive_solver. Qed.

Lemma require_ok reason b db u db' :
  require reason b db = Succeed (u, db') <-> b = true /\ u = tt /\ db' = db.
Proof.
  unfold require, mret, tx_ret, signal. destruct b; split; try naive_solver.
Qed.

Lemma gets_ok {A} (f : Database -> A) db a db' :
  gets f db = Succeed (a, db') <-> a = f db /\ db' = db.
Proof. unfold gets. naive_solver. Qed.

Lemma db_modify_ok f db u db' :
  modify f db = Succeed (u, db') <-> u = tt /\ db' = f db.
Proof. unfold modify. split; [by intros [= <- <-]|]. by intros [-> ->]. Qed.

Lemma ret_ok {A} (a : A) db b db' :
  mret (M := Tx) a db = Succeed (b, db') <-> b = a /\ db' = db.
Proof. unfold mret, tx_ret. naive_solver. Qed.

(** A relation every successful run of a transaction's statements satisfies:
    reflexive and transitive relations compose along a sequence. *)
Section satisfies.
Context (R : Database -> Database -> Prop) `{!PreOrder R}.

Definition moves {A} (m : Tx A) : Prop := forall db a db', m db = Succeed (a, db') -> R db db'.

Lemma moves_bind {A B} (m : Tx A) (k : A -> Tx B) :
  moves m -> (forall answer, moves (k answer)) -> moves (m ≫= k).
Proof. intros Hm Hk db b db' (a & db1 & H1 & H2)%tx_bind_ok. by etrans; [eapply Hm|eapply Hk]. Qed.
Lemma moves_ret {A} (a : A) : moves (mret a).
Proof. by intros db b db' [_ ->]%ret_ok. Qed.
Lemma moves_gets {A} (f : Database -> A) : moves (gets f).
Proof. by intros db b db' [_ ->]%gets_ok. Qed.
Lemma moves_require reason b : moves (require reason b).
Proof. by intros db u db' (_ & _ & ->)%require_ok. Qed.
Lemma moves_signal {A} reason : moves (A := A) (signal reason).
Proof. by intros db u db' [=]. Qed.
Lemma moves_modify f : (forall db, R db (f db)) -> moves (modify f).
Proof. by intros Hf db u db' [_ ->]%db_modify_ok. Qed.
Lemma moves_forTx {A} (f : A -> Tx unit) l : (forall x, moves (f x)) -> moves (forTx f l).
Proof. intros Hf. induction l; simpl; [apply moves_ret|]. apply moves_bind; auto. Qed.
End satisfies.

(** A sequence that only reads satisfies every such relation. *)
Lemma moves_reads R `{!PreOrder R} {A} (m : Tx A) : moves eq m -> moves R m.
Proof. by intros Hm db a db' ->%Hm. Qed.

Lemma transaction_cases {A} (operation : Tx A) db :
  (exists a db', operation db = Succeed (a, db') /\ transaction operation db = (Succeed a, db')) \/
  (exists e, operation db = Fail_ e /\ transaction operation db = (Fail_ e, db)).
Proof. unfold transaction. destruct (operation db) as [[a db']|e]; naive_solver. Qed.

End StoreDatabase.

(** Decompose a successful sequence of statements into its steps. *)
Ltac tx_step :=
  match goal with
  | H : (_ ≫= _) _ = Succeed (_, _) |- _ =>
      let a := fresh "r" in let d := fresh "db" in
      apply StoreDatabase.tx_bind_ok in H as (a & d & ? & H)
  | H : mbind _ _ _ = Succeed (_, _) |- _ =>
      let a := fresh "r" in let d := fresh "db" in
      apply StoreDatabase.tx_bind_ok in H as (a & d & ? & H)
  | H : StoreDatabase.require _ _ _ = Succeed _ |- _ => apply StoreDatabase.require_ok in H; destruct H as (? & _ & ->)
  | H : StoreDatabase.gets _ _ = Succeed _ |- _ => apply StoreDatabase.gets_ok in H as (-> & ->)
  | H : StoreDatabase.modify _ _ = Succeed _ |- _ => apply StoreDatabase.db_modify_ok in H as (-> & ->)
  | H : mret _ _ = Succeed _ |- _ =>
      first [ apply StoreDatabase.ret_ok in H as (-> & ->)
            | apply StoreDatabase.ret_ok in H as (? & ->); simplify_eq ]
  | H : StoreDatabase.signal _ _ = Succeed _ |- _ => discriminate H
  end.
Ltac tx := repeat tx_step; cbv [id] in *.

(** Follow a sequence whose statements are reads, checks and writes that the
    hint database [tx_moves] knows. *)
Create HintDb tx_moves discriminated.
Create HintDb tx_reads discriminated.
Ltac follow :=
  repeat first
    [ progress intros
    | apply StoreDatabase.moves_ret; [apply _]
    | apply StoreDatabase.moves_gets; [apply _]
    | apply StoreDatabase.moves_require; [apply _]
    | apply StoreDatabase.moves_signal
    | apply StoreDatabase.moves_forTx; [apply _|]
    | solve [eauto with tx_moves tx_reads]
    | apply StoreDatabase.moves_reads; [apply _|]; solve [eauto with tx_reads nocore]
    | apply StoreDatabase.moves_bind; [apply _| |]
    | case_match ].

(** Turn the boolean guards a successful run passed into propositions. *)
Ltac guards :=
  repeat match goal with
  | H : (_ && _) = true |- _ => apply andb_true_iff in H as [? ?]
  | H : negb _ = true |- _ => apply negb_true_iff in H
  | H : negb _ = false |- _ => apply negb_false_iff in H
  | H : bool_decide _ = true |- _ => apply bool_decide_eq_true in H
  | H : bool_decide _ = false |- _ => apply bool_decide_eq_false in H
  end.
