(* ===== verification/StoreQueues.v ===== *)
(** StoreQueues: the endpoint store's durable deliveries, outbox and send
    obligations (packages/client/src/communication/store/queues/).

    StoreRows: the endpoint store's reads by key, its comparisons of a
    retained row with a candidate, and the proposal-lock writes
    (packages/client/src/communication/store/rows/index.ts). *)
From S2P Require Import Prelude JsMap Identifiers StoredHistory StoreDatabase.

Module StoreRows.
Local Open Scope string_scope.
Import StoreDatabase.

(** The predecessor key of a conversation's first record. *)
Definition GENESIS_PREDECESSOR : string := "".

Definition predecessorKey (previousRecordHash : option string) : string :=
  default GENESIS_PREDECESSOR previousRecordHash.

Definition readStoredIdentity (db : Database) : option IdentityBinding := identity_binding db.

Definition readStoredPosition (conversationId : string) : Tx InternalPosition :=
  db ← gets id;
  match conversation_state db !! conversationId with
  | None => signal not_found
  | Some row => mret row
  end.

Definition findProposalLock (db : Database) (conversationId key : string) : option ProposalLock :=
  proposal_locks db !! (conversationId, key).

Definition findStagedRecord (db : Database) (conversationId recordHash : string)
    : option StagedRecord :=
  staged_records db !! (conversationId, recordHash).

Definition findStagedReanchor (db : Database) (conversationId anchorHash : string)
    : option StagedReanchor :=
  rr_staged <$> List.find (fun r => bool_decide (
      ra_conversationId (rr_staged r) = conversationId /\ ra_anchorHash (rr_staged r) = anchorHash))
    (reanchors db).

(** [readEvidenceForSubject], its rows in signer-key order. *)
Definition keyNotAfter (left right : string * string) : Prop := String.leb left.1 right.1 = true.
Global Instance keyNotAfter_dec left right : Decision (keyNotAfter left right).
Proof. unfold keyNotAfter. apply _. Defined.

Definition readEvidenceForSubject (db : Database) (conversationId : string) (kind : EvidenceKind)
    (subjectId : string) : list ProtocolEvidence :=
  (fun kv => mkProtocolEvidence conversationId kind subjectId kv.1 kv.2) <$>
    merge_sort keyNotAfter
      (omap (fun kv => match kv.1 with
                       | (c, k, s, key) =>
                         if bool_decide (c = conversationId /\ k = kind /\ s = subjectId)
                         then Some (key, kv.2) else None
                       end) (map_to_list (protocol_evidence db))).

(** [readCertifiedRecord]. *)
Definition readCertifiedRecord (db : Database) (staged : StagedRecord) : Tx StoredCertifiedRecord :=
  let actionEvidence := readEvidenceForSubject db (sr_conversationId staged) ActionEvidence
                          (sr_actionHash staged) in
  let durabilityEvidence := readEvidenceForSubject db (sr_conversationId staged) DurabilityEvidence
                              (sr_recordHash staged) in
  match actionEvidence, durabilityEvidence with
  | [], _ | _, [] => signal corrupt
  | _, _ => mret (mkStoredCertified staged actionEvidence durabilityEvidence)
  end.

Definition requireSameRecord (left right : StagedRecord) : Tx unit :=
  requireEqual (sr_conversationId left) (sr_conversationId right) ;;
  requireEqual (sr_recordHash left) (sr_recordHash right) ;;
  requireEqual (sr_previousRecordHash left) (sr_previousRecordHash right) ;;
  requireEqual (sr_membershipHash left) (sr_membershipHash right) ;;
  requireEqual (sr_anchorHash left) (sr_anchorHash right) ;;
  requireEqual (sr_actionHash left) (sr_actionHash right) ;;
  requireEqual (sr_authorAgentId left) (sr_authorAgentId right) ;;
  requireEqual (sr_postId left) (sr_postId right) ;;
  requireSameBytes (canonicalRecordCore left) (canonicalRecordCore right).

Definition requireSameReanchor (left right : StagedReanchor) : Tx unit :=
  requireEqual (ra_conversationId left) (ra_conversationId right) ;;
  requireEqual (ra_anchorHash left) (ra_anchorHash right) ;;
  requireEqual (ra_previousAnchorHash left) (ra_previousAnchorHash right) ;;
  requireEqual (ra_routerInstanceId left) (ra_routerInstanceId right) ;;
  requireEqual (ra_selectedRecordHash left) (ra_selectedRecordHash right) ;;
  requireSameBytes (ra_canonicalBody left) (ra_canonicalBody right).

Definition requireSameProposalLock (left right : ProposalLock) : Tx unit :=
  requireEqual (pl_conversationId left) (pl_conversationId right) ;;
  requireEqual (pl_previousRecordHash left) (pl_previousRecordHash right) ;;
  requireEqual (pl_actionHash left) (pl_actionHash right) ;;
  requireSameBytes (pl_canonicalActionCore left) (pl_canonicalActionCore right).

(** [lockProposalInTransaction]: the first candidate at its predecessor. *)
Definition lockProposalInTransaction (proposal : ProposalLock) : Tx StoreMutation :=
  db ← gets id;
  match findProposalLock db (pl_conversationId proposal)
          (predecessorKey (pl_previousRecordHash proposal)) with
  | Some held => requireSameProposalLock held proposal ;; mret existing
  | None =>
    position ← readStoredPosition (pl_conversationId proposal);
    requireEqual (ip_headRecordHash position) (pl_previousRecordHash proposal) ;;
    insert_lock (predecessorKey (pl_previousRecordHash proposal)) proposal ;;
    mret inserted
  end.

(** [releaseProposalLock]: the lock with everything held for its action, the
    rows that name others deleted before the rows they name. *)
Definition stagedFor (lock : ProposalLock) (r : StagedRecord) : bool :=
  bool_decide (sr_conversationId r = pl_conversationId lock /\
               sr_actionHash r = pl_actionHash lock).

Definition stagedHashes (db : Database) (lock : ProposalLock) : list string :=
  sr_recordHash <$> filter (fun r => stagedFor lock r = true) (map_to_list (staged_records db)).*2.

Definition releaseProposalLock (lock : ProposalLock) : Tx unit :=
  staged ← gets (fun db => stagedHashes db lock);
  delete_obligations (fun d => bool_decide (do_conversationId d = pl_conversationId lock /\
    do_recordHash d ∈ staged)) ;;
  delete_evidence (fun '(conversationId, kind, subjectId, _) =>
    bool_decide (conversationId = pl_conversationId lock /\ kind = DurabilityEvidence /\
                 subjectId ∈ staged)) ;;
  delete_staged (stagedFor lock) ;;
  delete_evidence (fun '(conversationId, kind, subjectId, _) =>
    bool_decide (conversationId = pl_conversationId lock /\ kind = ActionEvidence /\
                 subjectId = pl_actionHash lock)) ;;
  delete_locks (fun l => bool_decide (pl_conversationId l = pl_conversationId lock /\
    pl_actionHash l = pl_actionHash lock)).

End StoreRows.

Module StoreQueues.
Local Open Scope string_scope.
Import Identifiers StoreDatabase StoreRows.

(** ** Deliveries *)

Definition readPendingDeliveries (db : Database) : list PendingDelivery :=
  filter (fun d => pd_acknowledged d = false) (pending_deliveries db).

Definition findRetainedDelivery (db : Database) (conversationId recordHash : string)
    : option PendingDelivery :=
  List.find (fun d => bool_decide (pd_conversationId d = conversationId /\
                                   pd_recordHash d = recordHash)) (pending_deliveries db).

Definition tokenRetained (db : Database) (token : string) : bool :=
  existsb (fun d => bool_decide (pd_deliveryToken d = token)) (pending_deliveries db).

(** [retainDeliveryInTransaction]: none for the local author's own post.
    [draws] are the random token texts this delivery draws, in order. *)
Definition retainDeliveryInTransaction (record : StagedRecord)
    (delivery : option InboundDeliveryInput) (draws : list string) : Tx StoreMutation :=
  db ← gets id;
  match readStoredIdentity db with
  | None => signal not_found
  | Some identity =>
    if bool_decide (sr_authorAgentId record = ib_agentId identity)
    then match delivery with Some _ => signal conflict | None => mret existing end
    else
      match delivery with
      | None => signal invalid_input
      | Some delivery =>
        requireText (di_recipientAgentId delivery) ;;
        requireBytes (di_canonicalMessage delivery) ;;
        requireEqual (ib_agentId identity) (di_recipientAgentId delivery) ;;
        match findRetainedDelivery db (sr_conversationId record) (sr_recordHash record) with
        | Some held =>
          requireEqual (pd_recipientAgentId held) (di_recipientAgentId delivery) ;;
          requireSameBytes (pd_canonicalMessage held) (di_canonicalMessage delivery) ;;
          mret existing
        | None =>
          deliveryToken ← mintDeliveryToken draws (tokenRetained db);
          insert_delivery (mkDelivery deliveryToken (sr_conversationId record)
            (sr_recordHash record) (di_recipientAgentId delivery)
            (di_canonicalMessage delivery) false) ;;
          mret inserted
        end
      end
  end.

(** [acknowledgeDelivery]: the row stays as a tombstone. *)
Definition markAcknowledged (deliveryToken : string) (d : PendingDelivery) : PendingDelivery :=
  if bool_decide (pd_deliveryToken d = deliveryToken)
  then mkDelivery (pd_deliveryToken d) (pd_conversationId d) (pd_recordHash d)
         (pd_recipientAgentId d) (pd_canonicalMessage d) true
  else d.

Section tokens.
Context `{Base64Url}.

Definition acknowledgeInTransaction (deliveryToken : string) : Tx StoreMutation :=
  db ← gets id;
  match List.find (fun d => bool_decide (pd_deliveryToken d = deliveryToken))
          (pending_deliveries db) with
  | None => signal not_found
  | Some row =>
    if pd_acknowledged row then mret existing
    else modify (set_deliveries (fmap (markAcknowledged deliveryToken))) ;; mret inserted
  end.

Definition acknowledgeDelivery (deliveryToken : string) (db : Database)
    : Exit EndpointStoreFailure StoreMutation * Database :=
  if isCanonicalIdentifier "dlv_" deliveryToken
  then transaction (acknowledgeInTransaction deliveryToken) db
  else (Fail_ invalid_input, db).
End tokens.

(** ** Outbox *)

Definition validateMessageInput (message : OutboundMessageInput) : Tx unit :=
  requireText (om_wireVersion message) ;;
  requireText (om_conversationId message) ;;
  requireText (om_messageId message) ;;
  requireBytes (om_canonicalSignedMessage message).

Definition findOutbound (db : Database) (messageId : string) : option RetainedOutbound :=
  List.find (fun o => bool_decide (om_messageId (ro_outbound o) = messageId))
    (outbound_messages db).

Definition requireOutbound (messageId : string) : Tx RetainedOutbound :=
  db ← gets id;
  match findOutbound db messageId with None => signal not_found | Some row => mret row end.

Definition requireSameOutbound (left right : OutboundMessageInput) : Tx unit :=
  requireEqual (om_conversationId left) (om_conversationId right) ;;
  requireEqual (om_messageId left) (om_messageId right) ;;
  requireEqual (om_wireVersion left) (om_wireVersion right) ;;
  requireSameBytes (om_canonicalSignedMessage left) (om_canonicalSignedMessage right).

Definition requireMessageIdAvailable (messageId : string) : Tx unit :=
  db ← gets id;
  require conflict (negb (existsb (fun o => bool_decide (om_messageId (ro_outbound o) = messageId))
                            (outbound_messages db))).

Definition enqueueOutboundInTransaction (message : OutboundMessageInput)
    : Tx OutboundMessageInput :=
  validateMessageInput message ;;
  db ← gets id;
  require not_found (bool_decide (is_Some (conversation_state db !! om_conversationId message))) ;;
  match findOutbound db (om_messageId message) with
  | Some held =>
    requireEqual (om_conversationId (ro_outbound held)) (om_conversationId message) ;;
    requireEqual (om_wireVersion (ro_outbound held)) (om_wireVersion message) ;;
    requireSameBytes (om_canonicalSignedMessage (ro_outbound held))
      (om_canonicalSignedMessage message) ;;
    mret (ro_outbound held)
  | None =>
    requireMessageIdAvailable (om_messageId message) ;;
    insert_outbound (mkRetainedOutbound message false pending) ;;
    mret message
  end.

Definition enqueueOutbound (message : OutboundMessageInput) (db : Database)
    : Exit EndpointStoreFailure OutboundMessageInput * Database :=
  transaction (enqueueOutboundInTransaction message) db.

(** UPDATE ... WHERE message_id = ? AND disposition = 'pending'. *)
Definition updatePending (messageId : string) (f : RetainedOutbound -> RetainedOutbound)
    : Tx unit :=
  modify (set_outbound (fmap (fun o =>
    if bool_decide (om_messageId (ro_outbound o) = messageId /\ ro_disposition o = pending)
    then f o else o))).

Definition setAttempted (o : RetainedOutbound) : RetainedOutbound :=
  mkRetainedOutbound (ro_outbound o) true (ro_disposition o).
Definition setDisposition (d : OutboundDisposition) (o : RetainedOutbound) : RetainedOutbound :=
  mkRetainedOutbound (ro_outbound o) (ro_attempted o) d.

Inductive AttemptMode := InitialAttempt | RetryAttempt.
Inductive OutboundAttempt :=
  | Inactive
  | PendingAttempt (mode : AttemptMode) (outbound : OutboundMessageInput).

Definition beginInTransaction (messageId : string) : Tx OutboundAttempt :=
  retained ← requireOutbound messageId;
  if bool_decide (ro_disposition retained <> pending) then mret Inactive
  else
    whenTx (negb (ro_attempted retained)) (updatePending messageId setAttempted) ;;
    mret (PendingAttempt (if ro_attempted retained then RetryAttempt else InitialAttempt)
            (ro_outbound retained)).

Definition beginOutbound (messageId : string) (db : Database)
    : Exit EndpointStoreFailure OutboundAttempt * Database :=
  transaction (requireText messageId ;; beginInTransaction messageId) db.

Definition completeInTransaction (outbound : OutboundMessageInput) : Tx StoreMutation :=
  retained ← requireOutbound (om_messageId outbound);
  requireSameOutbound (ro_outbound retained) outbound ;;
  match ro_disposition retained with
  | accepted => mret existing
  | discarded => signal conflict
  | pending => updatePending (om_messageId outbound) (setDisposition accepted) ;; mret inserted
  end.

Definition completeOutbound (outbound : OutboundMessageInput) (db : Database)
    : Exit EndpointStoreFailure StoreMutation * Database :=
  transaction (validateMessageInput outbound ;; completeInTransaction outbound) db.

(** [discardOutbound]: every envelope is checked before any is discarded. *)
Fixpoint retainedOutbounds (outbounds : list OutboundMessageInput) : Tx (list RetainedOutbound) :=
  match outbounds with
  | [] => mret []
  | outbound :: rest =>
    row ← requireOutbound (om_messageId outbound);
    requireSameOutbound (ro_outbound row) outbound ;;
    require conflict (negb (bool_decide (ro_disposition row = accepted))) ;;
    rows ← retainedOutbounds rest;
    mret (row :: rows)
  end.

Definition unattachMessage (messageId : string) (d : DisseminationRow) : DisseminationRow :=
  if bool_decide (do_messageId d = Some messageId)
  then mkDissemination (do_conversationId d) (do_recordHash d) None else d.

Definition discardRow (row : RetainedOutbound) : Tx unit :=
  let messageId := om_messageId (ro_outbound row) in
  whenTx (bool_decide (ro_disposition row = pending))
    (modify (set_obligations (fmap (unattachMessage messageId))) ;;
     updatePending messageId (setDisposition discarded)).

Definition discardInTransaction (outbounds : list OutboundMessageInput) : Tx StoreMutation :=
  retained ← retainedOutbounds outbounds;
  forTx discardRow retained ;;
  mret (if existsb (fun row => bool_decide (ro_disposition row = pending)) retained
        then inserted else existing).

Definition discardOutbound (outbounds : list OutboundMessageInput) (db : Database)
    : Exit EndpointStoreFailure StoreMutation * Database :=
  transaction (forTx validateMessageInput outbounds ;;
    require invalid_input (bool_decide (NoDup (om_messageId <$> outbounds))) ;;
    discardInTransaction outbounds) db.

Definition readPendingOutbound (db : Database) (conversationId : option string)
    : list OutboundMessageInput :=
  ro_outbound <$> filter (fun o => ro_disposition o = pending /\
      (conversationId = None \/ conversationId = Some (om_conversationId (ro_outbound o))))
    (outbound_messages db).

(** ** Send obligations *)

Definition findObligation (db : Database) (conversationId recordHash : string)
    : option DisseminationRow :=
  List.find (fun d => bool_decide (do_conversationId d = conversationId /\
                                   do_recordHash d = recordHash)) (dissemination_obligations db).

Definition retainDisseminationInTransaction (conversationId recordHash : string)
    : Tx StoreMutation :=
  requireText conversationId ;;
  requireText recordHash ;;
  db ← gets id;
  match findObligation db conversationId recordHash with
  | Some _ => mret existing
  | None =>
    insert_obligation (mkDissemination conversationId recordHash None) ;;
    mret inserted
  end.

Definition attachMessage (conversationId recordHash messageId : string) (d : DisseminationRow)
    : DisseminationRow :=
  if bool_decide (do_conversationId d = conversationId /\ do_recordHash d = recordHash /\
                  do_messageId d = None)
  then mkDissemination conversationId recordHash (Some messageId) else d.

(** UPDATE dissemination_obligations SET message_id: the id is UNIQUE and
    names an outbox row. *)
Definition attachObligation (conversationId recordHash messageId : string) : Tx unit :=
  db ← gets id;
  constraint (forallb (fun d => negb (bool_decide (do_messageId d = Some messageId)))
                (dissemination_obligations db) &&
              bool_decide (is_Some (findOutbound db messageId))) ;;
  modify (set_obligations (fmap (attachMessage conversationId recordHash messageId))).

Definition enqueueDisseminationInTransaction (conversationId recordHash : string)
    (message : OutboundMessageInput) : Tx OutboundMessageInput :=
  db ← gets id;
  match findObligation db conversationId recordHash with
  | None => signal not_found
  | Some retained =>
    outbound ← enqueueOutboundInTransaction message;
    match do_messageId retained with
    | Some messageId => require conflict (bool_decide (messageId = om_messageId outbound))
    | None => attachObligation conversationId recordHash (om_messageId outbound)
    end ;;
    mret outbound
  end.

Definition enqueueDisseminationOutbound (conversationId recordHash : string)
    (message : OutboundMessageInput) (db : Database)
    : Exit EndpointStoreFailure OutboundMessageInput * Database :=
  transaction (requireText conversationId ;; requireText recordHash ;;
    requireEqual conversationId (om_conversationId message) ;;
    enqueueDisseminationInTransaction conversationId recordHash message) db.

Definition readPendingDissemination (db : Database) (conversationId : option string)
    : list (string * string) :=
  (fun d => (do_conversationId d, do_recordHash d)) <$>
    filter (fun d => do_messageId d = None /\
                     (conversationId = None \/ conversationId = Some (do_conversationId d)))
      (dissemination_obligations db).

End StoreQueues.
