(* ===== verification/StoreRecords.v ===== *)
(** StoreRecords: staging, evidence, certification and promotion of records
    (packages/client/src/communication/store/records.ts). *)
From S2P Require Import Prelude JsMap StoredHistory StoreDatabase StoreQueues.
Local Open Scope string_scope.

Module StoreRecords.
Import StoreDatabase StoreRows StoreQueues.

(** ** Input checks *)

Definition validateStagedRecord (record : StagedRecord) : Tx unit :=
  requireText (sr_conversationId record) ;;
  requireText (sr_recordHash record) ;;
  requireOptionalText (sr_previousRecordHash record) ;;
  requireText (sr_membershipHash record) ;;
  requireText (sr_anchorHash record) ;;
  requireText (sr_actionHash record) ;;
  requireText (sr_authorAgentId record) ;;
  requireText (sr_postId record) ;;
  requireBytes (canonicalRecordCore record).

Definition validateEvidence (evidence : ProtocolEvidence) : Tx unit :=
  requireText (pe_conversationId evidence) ;;
  requireText (pe_subjectId evidence) ;;
  requireText (evidenceKey evidence) ;;
  requireBytes (canonicalEvidence evidence).

(** [keys] are the signers of the items already checked. *)
Fixpoint validateEvidenceItems (keys : list string) (evidenceItems : list ProtocolEvidence)
    (conversationId : string) (kind : EvidenceKind) (subjectId : string) : Tx unit :=
  match evidenceItems with
  | [] => mret tt
  | evidence :: rest =>
    validateEvidence evidence ;;
    require invalid_input (bool_decide (pe_conversationId evidence = conversationId /\
      pe_kind evidence = kind /\ pe_subjectId evidence = subjectId /\
      evidenceKey evidence ∉ keys)) ;;
    validateEvidenceItems (evidenceKey evidence :: keys) rest conversationId kind subjectId
  end.

Definition validateCertificateEvidence (evidenceItems : list ProtocolEvidence)
    (conversationId : string) (kind : EvidenceKind) (subjectId : string) : Tx unit :=
  require invalid_input (negb (bool_decide (evidenceItems = []))) ;;
  validateEvidenceItems [] evidenceItems conversationId kind subjectId.

Definition validateCertifiedRecord (record : StoredCertifiedRecord) : Tx unit :=
  validateStagedRecord (row record) ;;
  validateCertificateEvidence (actionEvidence record) (sr_conversationId (row record))
    ActionEvidence (sr_actionHash (row record)) ;;
  validateCertificateEvidence (durabilityEvidence record) (sr_conversationId (row record))
    DurabilityEvidence (sr_recordHash (row record)).

(** ** Evidence *)

(** Refuse a record under an anchor this endpoint has staged a re-anchor
    candidate away from. *)
Definition requireNoReanchorAwayFrom (record : StagedRecord) : Tx unit :=
  db ← gets id;
  require conflict (negb (existsb (fun r => bool_decide (
    ra_conversationId (rr_staged r) = sr_conversationId record /\
    ra_previousAnchorHash (rr_staged r) = sr_anchorHash record)) (reanchors db))).

Definition hasProposalAction (db : Database) (evidence : ProtocolEvidence) : bool :=
  negb (bool_decide (map_Forall (fun _ l => ~ (pl_conversationId l = pe_conversationId evidence /\
    pl_actionHash l = pe_subjectId evidence)) (proposal_locks db))).

Definition hasStagedAction (db : Database) (conversationId actionHash : string) : bool :=
  negb (bool_decide (map_Forall (fun _ r => ~ (sr_conversationId r = conversationId /\
    sr_actionHash r = actionHash)) (staged_records db))).

Definition hasActionSubject (db : Database) (evidence : ProtocolEvidence) : bool :=
  hasProposalAction db evidence ||
  hasStagedAction db (pe_conversationId evidence) (pe_subjectId evidence).

Definition requireLocalDurabilityEvidenceLock (evidence : ProtocolEvidence) : Tx unit :=
  db ← gets id;
  match findStagedRecord db (pe_conversationId evidence) (pe_subjectId evidence) with
  | None => signal not_found
  | Some record =>
    match findProposalLock db (sr_conversationId record)
            (predecessorKey (sr_previousRecordHash record)) with
    | None => signal not_found
    | Some lock =>
      require not_found (bool_decide (pl_actionHash lock = sr_actionHash record)) ;;
      requireNoReanchorAwayFrom record
    end
  end.

Definition requireLocalEvidenceLock (evidence : ProtocolEvidence) : Tx unit :=
  db ← gets id;
  match readStoredIdentity db with
  | None => mret tt
  | Some identity =>
    if negb (bool_decide (evidenceKey evidence = ib_agentId identity)) then mret tt
    else match pe_kind evidence with
         | ActionEvidence => require not_found (hasProposalAction db evidence)
         | DurabilityEvidence => requireLocalDurabilityEvidenceLock evidence
         | _ => mret tt
         end
  end.

Definition requireMembership (conversationId : string) : Tx unit :=
  db ← gets id; require not_found (hasMembership db conversationId).

Definition requireEvidenceSubject (evidence : ProtocolEvidence) : Tx unit :=
  requireMembership (pe_conversationId evidence) ;;
  requireLocalEvidenceLock evidence ;;
  db ← gets id;
  match pe_kind evidence with
  | ActionEvidence => require not_found (hasActionSubject db evidence)
  | DurabilityEvidence =>
    require not_found (bool_decide (is_Some
      (findStagedRecord db (pe_conversationId evidence) (pe_subjectId evidence))))
  | ReanchorEvidence =>
    require not_found (bool_decide (is_Some
      (findStagedReanchor db (pe_conversationId evidence) (pe_subjectId evidence))))
  | CatchUpEvidence => mret tt
  end.

Definition findEvidence (db : Database) (evidence : ProtocolEvidence) : option string :=
  protocol_evidence db !! evidence_identity evidence.

Definition mergeEvidenceInTransaction (evidence : ProtocolEvidence) : Tx StoreMutation :=
  requireEvidenceSubject evidence ;;
  db ← gets id;
  match findEvidence db evidence with
  | Some held => requireSameBytes held (canonicalEvidence evidence) ;; mret existing
  | None => insert_evidence evidence ;; mret inserted
  end.

Fixpoint mergeAll (evidenceItems : list ProtocolEvidence) (mutation : StoreMutation)
    : Tx StoreMutation :=
  match evidenceItems with
  | [] => mret mutation
  | evidence :: rest =>
    merged ← mergeEvidenceInTransaction evidence;
    mergeAll rest (either_inserted mutation merged)
  end.

Definition mergeCertifiedEvidence (record : StoredCertifiedRecord) : Tx StoreMutation :=
  mergeAll (actionEvidence record ++ durabilityEvidence record)%list existing.

Definition mergeEvidence (evidence : ProtocolEvidence) (db : Database)
    : Exit EndpointStoreFailure StoreMutation * Database :=
  transaction (validateEvidence evidence ;; mergeEvidenceInTransaction evidence) db.

(** ** Staging *)

Inductive StagePurpose := ForVote | ForCertified.

Definition requireRecordPosition (record : StagedRecord) : Tx unit :=
  position ← readStoredPosition (sr_conversationId record);
  requireEqual (ip_membershipHash position) (sr_membershipHash record) ;;
  requireEqual (ip_currentAnchorHash position) (sr_anchorHash record) ;;
  requireEqual (ip_headRecordHash position) (sr_previousRecordHash record) ;;
  db ← gets id;
  match findProposalLock db (sr_conversationId record)
          (predecessorKey (sr_previousRecordHash record)) with
  | Some lock => requireEqual (pl_actionHash lock) (sr_actionHash record)
  | None => mret tt
  end.

Definition stageRecordInTransaction (record : StagedRecord) (purpose : StagePurpose)
    : Tx StoreMutation :=
  db ← gets id;
  match findStagedRecord db (sr_conversationId record) (sr_recordHash record) with
  | Some held => requireSameRecord held record ;; mret existing
  | None =>
    requireRecordPosition record ;;
    match purpose with
    | ForVote => requireNoReanchorAwayFrom record
    | ForCertified => mret tt
    end ;;
    insert_staged record ;;
    mret inserted
  end.

Definition stageRecordForDissemination (record : StagedRecord) (db : Database)
    : Exit EndpointStoreFailure StoreMutation * Database :=
  transaction (validateStagedRecord record ;;
    staged ← stageRecordInTransaction record ForVote;
    obligation ← retainDisseminationInTransaction (sr_conversationId record)
                   (sr_recordHash record);
    mret (either_inserted staged obligation)) db.

(** ** Superseding a lock *)

Definition supersedeInTransaction (lock : ProposalLock) (certificate : list ProtocolEvidence)
    : Tx StoreMutation :=
  db ← gets id;
  match findProposalLock db (pl_conversationId lock)
          (predecessorKey (pl_previousRecordHash lock)) with
  | Some held =>
    if negb (bool_decide (pl_actionHash held = pl_actionHash lock)) then
      require conflict (negb (hasStagedAction db (pl_conversationId held) (pl_actionHash held))) ;;
      releaseProposalLock held
    else mret tt
  | None => mret tt
  end ;;
  mutation ← lockProposalInTransaction lock;
  mergeAll certificate existing ;;
  mret mutation.

Definition supersedeProposalLock (lock : ProposalLock) (certificate : list ProtocolEvidence)
    (db : Database) : Exit EndpointStoreFailure StoreMutation * Database :=
  transaction (validateCertificateEvidence certificate (pl_conversationId lock) ActionEvidence
                 (pl_actionHash lock) ;;
    supersedeInTransaction lock certificate) db.

(** ** Promotion *)

Definition insertCertifiedRecord (record : StagedRecord) (ordinal : Z) : Tx unit :=
  insert_certified (sr_conversationId record) (sr_recordHash record) ordinal ;;
  update_position (sr_conversationId record) (fun p =>
    mkInternalPosition (ip_membershipHash p) (ip_currentAnchorHash p)
      (Some (sr_recordHash record)) ordinal).

Definition completeIntent (recordHash : string) (i : PostIntentRow) : PostIntentRow :=
  mkPostIntentRow (pi_conversationId i) (pi_membershipHash i) (pi_authorAgentId i) (pi_postId i)
    (pi_canonicalIntent i) (Some recordHash).

Definition completeLocalPostIntent (record : StagedRecord) : Tx unit :=
  db ← gets id;
  match readStoredIdentity db with
  | None => signal not_found
  | Some identity =>
    if negb (bool_decide (sr_authorAgentId record = ib_agentId identity)) then mret tt
    else
      match post_intents db !! (sr_authorAgentId record, sr_postId record) with
      | None => signal not_found
      | Some row =>
        requireEqual (pi_conversationId row) (sr_conversationId record) ;;
        requireEqual (pi_membershipHash row) (sr_membershipHash record) ;;
        match pi_completedRecordHash row with
        | Some completed => requireEqual completed (sr_recordHash record)
        | None => mret tt
        end ;;
        modify (set_post_intents
          (alter (completeIntent (sr_recordHash record))
             (sr_authorAgentId record, sr_postId record)))
      end
  end.

Definition promoteRecordInTransaction (record : StoredCertifiedRecord)
    (delivery : option InboundDeliveryInput) (draws : list string) : Tx StoreMutation :=
  let core := row record in
  db ← gets id;
  match findStagedRecord db (sr_conversationId core) (sr_recordHash core) with
  | None => signal not_found
  | Some staged =>
    requireSameRecord staged core ;;
    evidenceMutation ← mergeCertifiedEvidence record;
    if hasCertifiedRecord db (sr_conversationId core) (sr_recordHash core) then
      deliveryMutation ← retainDeliveryInTransaction core delivery draws;
      mret (either_inserted evidenceMutation deliveryMutation)
    else
      position ← readStoredPosition (sr_conversationId core);
      requireEqual (ip_currentAnchorHash position) (sr_anchorHash core) ;;
      requireEqual (ip_headRecordHash position) (sr_previousRecordHash core) ;;
      insertCertifiedRecord core (ip_headOrdinal position + 1) ;;
      completeLocalPostIntent core ;;
      retainDeliveryInTransaction core delivery draws ;;
      mret inserted
  end.

Definition promoteRecord (record : StoredCertifiedRecord) (delivery : option InboundDeliveryInput)
    (draws : list string) (db : Database) : Exit EndpointStoreFailure StoreMutation * Database :=
  transaction (validateCertifiedRecord record ;;
    promoteRecordInTransaction record delivery draws) db.

Definition applyCertifiedRecord (record : StoredCertifiedRecord)
    (delivery : option InboundDeliveryInput) (draws : list string) (db : Database)
    : Exit EndpointStoreFailure StoreMutation * Database :=
  transaction (validateCertifiedRecord record ;;
    staged ← stageRecordInTransaction (row record) ForCertified;
    promoted ← promoteRecordInTransaction record delivery draws;
    mret (either_inserted staged promoted)) db.

End StoreRecords.
