(* ===== verification/StoreAnchors.v ===== *)
(** StoreAnchors: identity, post intents, conversation foundations, proposal
    locks, restarts and re-anchors of the endpoint store
    (packages/client/src/communication/store/anchors.ts). *)
From S2P Require Import Prelude JsMap StoredHistory StoreDatabase StoreQueues StoreRecords.
Local Open Scope string_scope.

Module StoreAnchors.
Import StoreDatabase StoreRows StoreRecords.

(** ** Input checks *)

Definition validateFoundation (foundation : ConversationFoundation) : Tx unit :=
  requireText (cf_conversationId foundation) ;;
  requireText (cf_membershipHash foundation) ;;
  requireBytes (cf_canonicalMembership foundation) ;;
  requireText (cf_anchorHash foundation) ;;
  requireBytes (cf_canonicalAnchor foundation).

Definition bindingIntent (binding : PostIntentBinding) : PostIntentRow :=
  match binding with ExistingConversation intent | NewConversation _ intent => intent end.

Definition validatePostIntentBinding (binding : PostIntentBinding) : Tx unit :=
  let intent := bindingIntent binding in
  requireText (pi_conversationId intent) ;;
  requireText (pi_membershipHash intent) ;;
  requireText (pi_authorAgentId intent) ;;
  requireText (pi_postId intent) ;;
  requireBytes (pi_canonicalIntent intent) ;;
  require invalid_input (bool_decide (pi_completedRecordHash intent = None)) ;;
  match binding with
  | NewConversation foundation _ =>
    validateFoundation foundation ;;
    requireEqual (cf_conversationId foundation) (pi_conversationId intent) ;;
    requireEqual (cf_membershipHash foundation) (pi_membershipHash intent)
  | ExistingConversation _ => mret tt
  end.

Definition validateProposalLock (proposal : ProposalLock) : Tx unit :=
  requireText (pl_conversationId proposal) ;;
  requireOptionalText (pl_previousRecordHash proposal) ;;
  requireText (pl_actionHash proposal) ;;
  requireBytes (pl_canonicalActionCore proposal).

Definition validateStagedReanchor (reanchor : StagedReanchor) : Tx unit :=
  requireText (ra_conversationId reanchor) ;;
  requireText (ra_anchorHash reanchor) ;;
  requireText (ra_previousAnchorHash reanchor) ;;
  requireText (ra_routerInstanceId reanchor) ;;
  requireText (ra_selectedRecordHash reanchor) ;;
  requireBytes (ra_canonicalBody reanchor).

Definition validateCompletedReanchor (reanchor : CompletedReanchorRow) : Tx unit :=
  validateStagedReanchor (cr_staged reanchor) ;;
  requireBytes (cr_canonicalCompletedReanchor reanchor).

(** ** Identity *)

Definition writeIdentity (binding : IdentityBinding) (db : Database)
    : Exit EndpointStoreFailure StoreMutation * Database :=
  transaction (requireText (ib_agentId binding) ;; requireBytes (ib_canonicalAgentCard binding) ;;
    db ← gets id;
    match readStoredIdentity db with
    | Some held =>
      requireEqual (ib_agentId held) (ib_agentId binding) ;;
      requireSameBytes (ib_canonicalAgentCard held) (ib_canonicalAgentCard binding) ;;
      mret existing
    | None => modify (set_identity (Some binding)) ;; mret inserted
    end) db.

(** ** Foundations *)

(** The join of a membership with its conversation's genesis anchor. *)
Definition readFoundation (db : Database) (conversationId : string)
    : option ConversationFoundation :=
  membership ← memberships db !! conversationId;
  anchor ← List.find (fun a => bool_decide (sa_conversationId a = conversationId /\
                                            sa_previousAnchorHash a = None)) (anchors db);
  Some (mkFoundation conversationId (sm_membershipHash membership)
          (canonicalMembership membership) (sa_anchorHash anchor) (canonicalAnchor anchor)).

Definition requireSameFoundation (left right : ConversationFoundation) : Tx unit :=
  requireEqual (cf_conversationId left) (cf_conversationId right) ;;
  requireEqual (cf_membershipHash left) (cf_membershipHash right) ;;
  requireSameBytes (cf_canonicalMembership left) (cf_canonicalMembership right) ;;
  requireEqual (cf_anchorHash left) (cf_anchorHash right) ;;
  requireSameBytes (cf_canonicalAnchor left) (cf_canonicalAnchor right).

Definition insertFoundation (foundation : ConversationFoundation) : Tx unit :=
  insert_membership (mkStoredMembership (cf_conversationId foundation)
    (cf_membershipHash foundation) (cf_canonicalMembership foundation)) ;;
  insert_anchor (mkStoredAnchor (cf_conversationId foundation) (cf_anchorHash foundation)
    None None (cf_canonicalAnchor foundation)) ;;
  insert_position (cf_conversationId foundation)
    (mkInternalPosition (cf_membershipHash foundation) (cf_anchorHash foundation) None (-1)%Z).

Definition putConversationFoundationInTransaction (foundation : ConversationFoundation)
    : Tx StoreMutation :=
  validateFoundation foundation ;;
  db ← gets id;
  match readFoundation db (cf_conversationId foundation) with
  | Some held => requireSameFoundation held foundation ;; mret existing
  | None => insertFoundation foundation ;; mret inserted
  end.

Definition putConversationFoundation (foundation : ConversationFoundation) (db : Database)
    : Exit EndpointStoreFailure StoreMutation * Database :=
  transaction (putConversationFoundationInTransaction foundation) db.

(** ** Post intents *)

Definition requireConversationFoundation (intent : PostIntentRow) : Tx StoreMutation :=
  db ← gets id;
  match readFoundation db (pi_conversationId intent) with
  | None => signal not_found
  | Some foundation =>
    requireEqual (cf_membershipHash foundation) (pi_membershipHash intent) ;; mret existing
  end.

Definition bindPostIntentInTransaction (intent : PostIntentRow) : Tx StoreMutation :=
  db ← gets id;
  match readStoredIdentity db with
  | None => signal not_found
  | Some identity =>
    requireEqual (ib_agentId identity) (pi_authorAgentId intent) ;;
    match post_intents db !! (pi_authorAgentId intent, pi_postId intent) with
    | Some held =>
      requireEqual (pi_conversationId held) (pi_conversationId intent) ;;
      requireEqual (pi_membershipHash held) (pi_membershipHash intent) ;;
      requireSameBytes (pi_canonicalIntent held) (pi_canonicalIntent intent) ;;
      mret existing
    | None =>
      insert_post_intent (mkPostIntentRow (pi_conversationId intent) (pi_membershipHash intent)
        (pi_authorAgentId intent) (pi_postId intent) (pi_canonicalIntent intent) None) ;;
      mret inserted
    end
  end.

Definition bindIntentWithFoundation (binding : PostIntentBinding) : Tx StoreMutation :=
  foundation ← match binding with
               | NewConversation foundation _ => putConversationFoundationInTransaction foundation
               | ExistingConversation intent => requireConversationFoundation intent
               end;
  postIntent ← bindPostIntentInTransaction (bindingIntent binding);
  mret (either_inserted foundation postIntent).

Definition bindPostIntent (binding : PostIntentBinding) (db : Database)
    : Exit EndpointStoreFailure StoreMutation * Database :=
  transaction (validatePostIntentBinding binding ;; bindIntentWithFoundation binding) db.

(** ** Proposal locks *)

Definition lockProposal (proposal : ProposalLock) (db : Database)
    : Exit EndpointStoreFailure StoreMutation * Database :=
  transaction (validateProposalLock proposal ;; lockProposalInTransaction proposal) db.

Definition lockGenesisProposal (foundation : ConversationFoundation) (proposal : ProposalLock)
    (db : Database) : Exit EndpointStoreFailure StoreMutation * Database :=
  transaction (validateProposalLock proposal ;;
    require invalid_input (bool_decide (pl_previousRecordHash proposal = None /\
      pl_conversationId proposal = cf_conversationId foundation)) ;;
    retainedFoundation ← putConversationFoundationInTransaction foundation;
    retainedProposal ← lockProposalInTransaction proposal;
    mret (either_inserted retainedFoundation retainedProposal)) db.

(** ** Restarting a conversation that has no record *)

Definition validateEmptyConversationRestart (expected replacement : ConversationFoundation)
    : Tx unit :=
  validateFoundation expected ;;
  validateFoundation replacement ;;
  requireEqual (cf_conversationId expected) (cf_conversationId replacement) ;;
  requireEqual (cf_membershipHash expected) (cf_membershipHash replacement) ;;
  requireSameBytes (cf_canonicalMembership expected) (cf_canonicalMembership replacement) ;;
  require invalid_input (negb (bool_decide (cf_anchorHash expected = cf_anchorHash replacement))).

Definition requireEmptyConversationPosition (expected : ConversationFoundation) : Tx unit :=
  db ← gets id;
  match readFoundation db (cf_conversationId expected) with
  | None => signal not_found
  | Some retained =>
    requireSameFoundation retained expected ;;
    position ← readStoredPosition (cf_conversationId expected);
    requireEqual (ip_membershipHash position) (cf_membershipHash expected) ;;
    requireEqual (ip_currentAnchorHash position) (cf_anchorHash expected) ;;
    requireEqual (ip_headRecordHash position) None ;;
    requireEqual (ip_headOrdinal position) (-1)%Z ;;
    require conflict (bool_decide (map_Forall (fun k (_ : Z) => k.1 <> cf_conversationId expected)
                                     (certified_records db)))
  end.

Definition clearIncompleteConversationState (conversationId : string) : Tx unit :=
  delete_obligations (fun d => bool_decide (do_conversationId d = conversationId)) ;;
  delete_evidence (fun '(c, _, _, _) => bool_decide (c = conversationId)) ;;
  delete_locks (fun l => bool_decide (pl_conversationId l = conversationId)) ;;
  delete_staged (fun r => bool_decide (sr_conversationId r = conversationId)) ;;
  delete_reanchors (fun r => bool_decide (ra_conversationId (rr_staged r) = conversationId)) ;;
  modify (set_outbound (fmap (fun o =>
    if bool_decide (om_conversationId (ro_outbound o) = conversationId /\
                    ro_disposition o = pending)
    then StoreQueues.StoreQueues.setDisposition discarded o else o))).

Definition installReplacementFoundation (replacement : ConversationFoundation) : Tx unit :=
  db ← gets id;
  require conflict
    (negb (hasAnchor db (cf_conversationId replacement) (cf_anchorHash replacement))) ;;
  insert_anchor (mkStoredAnchor (cf_conversationId replacement) (cf_anchorHash replacement)
    None None (cf_canonicalAnchor replacement)) ;;
  update_position (cf_conversationId replacement) (fun p =>
    mkInternalPosition (ip_membershipHash p) (cf_anchorHash replacement) None (-1)%Z) ;;
  delete_anchors (fun a => bool_decide (sa_conversationId a = cf_conversationId replacement /\
    sa_anchorHash a <> cf_anchorHash replacement)).

Definition intentNotAfter (left right : PostIntentRow) : Prop :=
  String.ltb (pi_authorAgentId left) (pi_authorAgentId right) = true \/
  pi_authorAgentId left = pi_authorAgentId right /\
  String.leb (pi_postId left) (pi_postId right) = true.
Global Instance intentNotAfter_dec left right : Decision (intentNotAfter left right).
Proof. unfold intentNotAfter. apply _. Defined.

Definition readConversationPostIntents (db : Database) (conversationId : string)
    : list PostIntentRow :=
  merge_sort intentNotAfter
    (filter (fun i => pi_conversationId i = conversationId) (map_to_list (post_intents db)).*2).

Definition restartInTransaction (expected replacement : ConversationFoundation)
    : Tx (ConversationFoundation * list PostIntentRow) :=
  requireEmptyConversationPosition expected ;;
  clearIncompleteConversationState (cf_conversationId expected) ;;
  installReplacementFoundation replacement ;;
  postIntents ← gets (fun db => readConversationPostIntents db (cf_conversationId replacement));
  mret (replacement, postIntents).

Definition restartEmptyConversation (expected replacement : ConversationFoundation) (db : Database)
    : Exit EndpointStoreFailure (ConversationFoundation * list PostIntentRow) * Database :=
  transaction (validateEmptyConversationRestart expected replacement ;;
    restartInTransaction expected replacement) db.

(** ** Re-anchors *)

Inductive ReanchorPurpose := ForReanchorVote | Adopted.

Definition inScope (conversationId previousAnchorHash routerInstanceId : string)
    (r : RecoveredReanchor) : Prop :=
  ra_conversationId (rr_staged r) = conversationId /\
  ra_previousAnchorHash (rr_staged r) = previousAnchorHash /\
  ra_routerInstanceId (rr_staged r) = routerInstanceId.
Global Instance inScope_dec c p i r : Decision (inScope c p i r).
Proof. unfold inScope. apply _. Defined.

Definition requireUnclaimedReanchorScope (reanchor : StagedReanchor) : Tx unit :=
  db ← gets id;
  require conflict (negb (existsb (fun r => bool_decide
    (inScope (ra_conversationId reanchor) (ra_previousAnchorHash reanchor)
       (ra_routerInstanceId reanchor) r)) (reanchors db))).

Definition requireReanchorPosition (reanchor : StagedReanchor) : Tx unit :=
  position ← readStoredPosition (ra_conversationId reanchor);
  requireEqual (ip_currentAnchorHash position) (ra_previousAnchorHash reanchor) ;;
  requireEqual (ip_headRecordHash position) (Some (ra_selectedRecordHash reanchor)).

Definition requireNoStagedSuccessor (reanchor : StagedReanchor) : Tx unit :=
  db ← gets id;
  require conflict (bool_decide (map_Forall (fun _ r =>
    ~ (sr_conversationId r = ra_conversationId reanchor /\
       sr_anchorHash r = ra_previousAnchorHash reanchor /\
       sr_previousRecordHash r = Some (ra_selectedRecordHash reanchor))) (staged_records db))).

Definition stageReanchorInTransaction (reanchor : StagedReanchor) (purpose : ReanchorPurpose)
    : Tx StoreMutation :=
  db ← gets id;
  match findStagedReanchor db (ra_conversationId reanchor) (ra_anchorHash reanchor) with
  | Some held => requireSameReanchor held reanchor ;; mret existing
  | None =>
    requireUnclaimedReanchorScope reanchor ;;
    requireReanchorPosition reanchor ;;
    match purpose with
    | ForReanchorVote => requireNoStagedSuccessor reanchor
    | Adopted => mret tt
    end ;;
    insert_reanchor reanchor ;;
    mret inserted
  end.

Definition stageReanchor (reanchor : StagedReanchor) (db : Database)
    : Exit EndpointStoreFailure StoreMutation * Database :=
  transaction (validateStagedReanchor reanchor ;;
    stageReanchorInTransaction reanchor ForReanchorVote) db.

Definition completeRow (reanchor : CompletedReanchorRow) (r : RecoveredReanchor)
    : RecoveredReanchor :=
  if bool_decide (ra_conversationId (rr_staged r) = ra_conversationId (cr_staged reanchor) /\
                  ra_anchorHash (rr_staged r) = ra_anchorHash (cr_staged reanchor))
  then mkRecoveredReanchor (rr_staged r) (Some (cr_canonicalCompletedReanchor reanchor)) else r.

Definition insertCompletedReanchor (reanchor : CompletedReanchorRow) : Tx unit :=
  let staged := cr_staged reanchor in
  insert_anchor (mkStoredAnchor (ra_conversationId staged) (ra_anchorHash staged)
    (Some (ra_previousAnchorHash staged)) (Some (ra_selectedRecordHash staged))
    (cr_canonicalCompletedReanchor reanchor)) ;;
  modify (set_reanchors (fmap (completeRow reanchor))) ;;
  update_position (ra_conversationId staged) (fun p =>
    mkInternalPosition (ip_membershipHash p) (ra_anchorHash staged)
      (ip_headRecordHash p) (ip_headOrdinal p)).

Definition releaseSupersededProposal (reanchor : StagedReanchor) : Tx unit :=
  db ← gets id;
  match findProposalLock db (ra_conversationId reanchor) (ra_selectedRecordHash reanchor) with
  | Some lock => releaseProposalLock lock
  | None => mret tt
  end.

Definition completeReanchorInTransaction (reanchor : CompletedReanchorRow) : Tx StoreMutation :=
  let candidate := cr_staged reanchor in
  db ← gets id;
  match findStagedReanchor db (ra_conversationId candidate) (ra_anchorHash candidate) with
  | None => signal not_found
  | Some staged =>
    requireSameReanchor staged candidate ;;
    if hasAnchor db (ra_conversationId candidate) (ra_anchorHash candidate) then mret existing
    else
      requireReanchorPosition candidate ;;
      insertCompletedReanchor reanchor ;;
      releaseSupersededProposal candidate ;;
      mret inserted
  end.

Definition completeReanchor (reanchor : CompletedReanchorRow) (db : Database)
    : Exit EndpointStoreFailure StoreMutation * Database :=
  transaction (validateCompletedReanchor reanchor ;; completeReanchorInTransaction reanchor) db.

(** [retireSupersededCandidates]: this endpoint's uncompleted candidates in
    the completion's scope that it does not select. *)
Definition superseded (reanchor : StagedReanchor) (r : RecoveredReanchor) : bool :=
  bool_decide (inScope (ra_conversationId reanchor) (ra_previousAnchorHash reanchor)
                 (ra_routerInstanceId reanchor) r /\
               ra_anchorHash (rr_staged r) <> ra_anchorHash reanchor /\
               rr_canonicalCompletedReanchor r = None).

Definition retireSupersededCandidates (reanchor : StagedReanchor) : Tx unit :=
  hashes ← gets (fun db => (fun r => ra_anchorHash (rr_staged r)) <$>
                   filter (fun r => superseded reanchor r = true) (reanchors db));
  forTx (fun anchorHash => delete_evidence (fun '(conversationId, kind, subjectId, _) =>
    bool_decide (conversationId = ra_conversationId reanchor /\ kind = ReanchorEvidence /\
                 subjectId = anchorHash))) hashes ;;
  delete_reanchors (superseded reanchor).

Definition applyCatchUpReanchor (reanchor : CompletedReanchorRow) (db : Database)
    : Exit EndpointStoreFailure StoreMutation * Database :=
  transaction (validateCompletedReanchor reanchor ;;
    retireSupersededCandidates (cr_staged reanchor) ;;
    staged ← stageReanchorInTransaction (cr_staged reanchor) Adopted;
    completed ← completeReanchorInTransaction reanchor;
    mret (either_inserted staged completed)) db.

End StoreAnchors.
