(* ===== verification/EndpointStore.v ===== *)
(** EndpointStore: the store's capability as one type of operations and the
    states a history of them reaches
    (packages/client/src/communication/store/store.ts).

    Each operation is one transaction, so a history is a sequence of steps;
    an operation that fails leaves the state as it was.

    StoreReads: the checks and reads of the store leave it as it is.

    StoreRuns: a concrete history of one endpoint store, on which the store's
    theorems are applied.

    Agent a founds a conversation with b, locks and stages the first record,
    votes for it and promotes it; b's answer follows the same way; last, a
    re-anchor away from the second record is staged. *)
From S2P Require Import Prelude JsMap Identifiers Hosts StoredHistory StoreDatabase StoreQueues.
From S2P Require Import StoreRecords StoreAnchors.

Module EndpointStore.
Local Open Scope string_scope.
Import StoreDatabase StoreRows StoreQueues StoreRecords StoreAnchors.

(** The operations of [makeEndpointStore] that write, each with its
    arguments; a promotion's [draws] are its random token texts. *)
Inductive StoreOperation :=
  | BindIdentity (binding : IdentityBinding)
  | BindPostIntent (binding : PostIntentBinding)
  | PutConversationFoundation (foundation : ConversationFoundation)
  | LockProposal (proposal : ProposalLock)
  | LockGenesisProposal (foundation : ConversationFoundation) (proposal : ProposalLock)
  | SupersedeProposalLock (lock : ProposalLock) (certificate : list ProtocolEvidence)
  | StageRecordForDissemination (record : StagedRecord)
  | MergeEvidence (evidence : ProtocolEvidence)
  | PromoteRecord (record : StoredCertifiedRecord) (delivery : option InboundDeliveryInput)
      (draws : list string)
  | ApplyCertifiedRecord (record : StoredCertifiedRecord) (delivery : option InboundDeliveryInput)
      (draws : list string)
  | StageReanchor (reanchor : StagedReanchor)
  | CompleteReanchor (reanchor : CompletedReanchorRow)
  | ApplyCatchUpReanchor (reanchor : CompletedReanchorRow)
  | AcknowledgeDelivery (deliveryToken : string)
  | EnqueueOutbound (message : OutboundMessageInput)
  | EnqueueDisseminationOutbound (conversationId recordHash : string)
      (message : OutboundMessageInput)
  | BeginOutbound (messageId : string)
  | CompleteOutbound (outbound : OutboundMessageInput)
  | DiscardOutbound (outbounds : list OutboundMessageInput)
  | RestartEmptyConversation (expected replacement : ConversationFoundation).

Section run.
Context `{Base64Url}.

Definition failure {A} (result : Exit EndpointStoreFailure A * Database)
    : option EndpointStoreFailure * Database :=
  (match result.1 with Succeed _ => None | Fail_ e => Some e end, result.2).

(** The failure of one operation, if it fails, and the state after it. *)
Definition perform (operation : StoreOperation) (db : Database)
    : option EndpointStoreFailure * Database :=
  match operation with
  | BindIdentity b => failure (writeIdentity b db)
  | BindPostIntent b => failure (bindPostIntent b db)
  | PutConversationFoundation f => failure (putConversationFoundation f db)
  | LockProposal p => failure (lockProposal p db)
  | LockGenesisProposal f p => failure (lockGenesisProposal f p db)
  | SupersedeProposalLock l c => failure (supersedeProposalLock l c db)
  | StageRecordForDissemination r => failure (stageRecordForDissemination r db)
  | MergeEvidence e => failure (mergeEvidence e db)
  | PromoteRecord r d t => failure (promoteRecord r d t db)
  | ApplyCertifiedRecord r d t => failure (applyCertifiedRecord r d t db)
  | StageReanchor r => failure (stageReanchor r db)
  | CompleteReanchor r => failure (completeReanchor r db)
  | ApplyCatchUpReanchor r => failure (applyCatchUpReanchor r db)
  | AcknowledgeDelivery t => failure (acknowledgeDelivery t db)
  | EnqueueOutbound m => failure (enqueueOutbound m db)
  | EnqueueDisseminationOutbound c r m => failure (enqueueDisseminationOutbound c r m db)
  | BeginOutbound m => failure (beginOutbound m db)
  | CompleteOutbound m => failure (completeOutbound m db)
  | DiscardOutbound ms => failure (discardOutbound ms db)
  | RestartEmptyConversation e r => failure (restartEmptyConversation e r db)
  end.

(** The state a history of operations leaves. *)
Definition runOperations (operations : list StoreOperation) (db : Database) : Database :=
  foldl (fun db operation => (perform operation db).2) db operations.

(** A new store after [bindIdentity], before any other operation. *)
Definition boundStore (identity : IdentityBinding) : Database :=
  set_identity (Some identity) createStore.

Lemma runOperations_app ops1 ops2 db :
  runOperations (ops1 ++ ops2) db = runOperations ops2 (runOperations ops1 db).
Proof. apply foldl_app. Qed.

(** An operation either fails and changes nothing or is a successful
    transaction. *)
Lemma perform_transaction {A} (R : Database -> Database -> Prop) `{!PreOrder R}
    (operation : Tx A) (db : Database) :
  moves R operation -> R db (failure (transaction operation db)).2.
Proof.
  intros Hm. destruct (transaction_cases operation db) as [(a & db' & Hop & ->)|(e & _ & ->)];
    simpl; [by eapply Hm|done].
Qed.

Lemma runOperations_ind (P : Database -> Prop) :
  (forall operation db, P db -> P (perform operation db).2) ->
  forall operations db, P db -> P (runOperations operations db).
Proof.
  intros Hstep operations. induction operations as [|o os IH]; intros db HP; simpl; auto.
Qed.

End run.

End EndpointStore.

Module StoreReads.
Import StoreDatabase StoreRows StoreQueues StoreRecords StoreAnchors.

Notation reads m := (moves eq m).

Lemma reads_same_record l r : reads (requireSameRecord l r).
Proof. unfold requireSameRecord, requireSameBytes, requireEqual. follow. Qed.
Lemma reads_same_reanchor l r : reads (requireSameReanchor l r).
Proof. unfold requireSameReanchor, requireSameBytes, requireEqual. follow. Qed.
Lemma reads_same_lock l r : reads (requireSameProposalLock l r).
Proof. unfold requireSameProposalLock, requireSameBytes, requireEqual. follow. Qed.
Lemma reads_same_foundation l r : reads (requireSameFoundation l r).
Proof. unfold requireSameFoundation, requireSameBytes, requireEqual. follow. Qed.
Lemma reads_same_outbound l r : reads (requireSameOutbound l r).
Proof. unfold requireSameOutbound, requireSameBytes, requireEqual. follow. Qed.
#[export] Hint Resolve reads_same_record reads_same_reanchor reads_same_lock reads_same_foundation
  reads_same_outbound : tx_reads.

Lemma reads_position_read c : reads (readStoredPosition c).
Proof. unfold readStoredPosition. follow. Qed.
Lemma reads_validate_staged r : reads (validateStagedRecord r).
Proof.
  unfold validateStagedRecord, requireOptionalText, requireBytes, requireText. follow.
Qed.
Lemma reads_validate_evidence e : reads (validateEvidence e).
Proof. unfold validateEvidence, requireBytes, requireText. follow. Qed.
#[export] Hint Resolve reads_position_read reads_validate_staged reads_validate_evidence : tx_reads.

Lemma reads_validate_items l keys c k s : reads (validateEvidenceItems keys l c k s).
Proof. revert keys. induction l as [|e l IH]; intros keys; simpl; follow. Qed.
#[export] Hint Resolve reads_validate_items : tx_reads.
Lemma reads_validate_certificate l c k s : reads (validateCertificateEvidence l c k s).
Proof. unfold validateCertificateEvidence. follow. Qed.
#[export] Hint Resolve reads_validate_certificate : tx_reads.
Lemma reads_validate_certified r : reads (validateCertifiedRecord r).
Proof. unfold validateCertifiedRecord. follow. Qed.
Lemma reads_validate_foundation f : reads (validateFoundation f).
Proof. unfold validateFoundation, requireBytes, requireText. follow. Qed.
Lemma reads_validate_reanchor r : reads (validateStagedReanchor r).
Proof. unfold validateStagedReanchor, requireBytes, requireText. follow. Qed.
Lemma reads_validate_message m : reads (validateMessageInput m).
Proof. unfold validateMessageInput, requireBytes, requireText. follow. Qed.
Lemma reads_validate_lock l : reads (validateProposalLock l).
Proof. unfold validateProposalLock, requireOptionalText, requireBytes, requireText. follow. Qed.
#[export] Hint Resolve reads_validate_certified reads_validate_foundation reads_validate_reanchor
  reads_validate_message reads_validate_lock : tx_reads.

Lemma reads_require_outbound m : reads (requireOutbound m).
Proof. unfold requireOutbound. follow. Qed.
#[export] Hint Resolve reads_require_outbound : tx_reads.
Lemma reads_retained ms : reads (retainedOutbounds ms).
Proof. induction ms; simpl; follow. Qed.
#[export] Hint Resolve reads_retained : tx_reads.

End StoreReads.

Module StoreRuns.
Local Open Scope string_scope.
Import StoreDatabase StoreRows StoreQueues StoreRecords StoreAnchors EndpointStore.
#[local] Existing Instance Hosts.base64url.

Definition identity : IdentityBinding := mkIdentity "a" "card a".
Definition foundation : ConversationFoundation :=
  mkFoundation "c" "members" "descriptor" "anchor 0" "genesis anchor".
Definition intent : PostIntentRow := mkPostIntentRow "c" "members" "a" "post 1" "intent 1" None.

Definition record1 : StagedRecord :=
  mkStaged "c" "record 1" None "members" "anchor 0" "action 1" "a" "post 1" "core 1".
Definition record2 : StagedRecord :=
  mkStaged "c" "record 2" (Some "record 1") "members" "anchor 0" "action 2" "b" "post 2" "core 2".

Definition lock1 : ProposalLock := mkLock "c" None "action 1" "action core 1".
Definition lock2 : ProposalLock := mkLock "c" (Some "record 1") "action 2" "action core 2".
Definition other2 : ProposalLock := mkLock "c" (Some "record 1") "action 3" "action core 3".

Definition evidence (kind : EvidenceKind) (subject key : string) : ProtocolEvidence :=
  mkProtocolEvidence "c" kind subject key (key ++ " signed " ++ subject).
Definition certified (r : StagedRecord) : StoredCertifiedRecord :=
  mkStoredCertified r (evidence ActionEvidence (sr_actionHash r) <$> ["a"; "b"])
    (evidence DurabilityEvidence (sr_recordHash r) <$> ["a"; "b"]).

Definition candidate : StagedReanchor :=
  mkReanchor "c" "anchor 1" "anchor 0" "router 2" "record 2" "re-anchor body".

Definition first_record : list StoreOperation :=
  [ BindPostIntent (NewConversation foundation intent);
    LockProposal lock1;
    MergeEvidence (evidence ActionEvidence "action 1" "a");
    MergeEvidence (evidence ActionEvidence "action 1" "b");
    StageRecordForDissemination record1;
    MergeEvidence (evidence DurabilityEvidence "record 1" "a");
    PromoteRecord (certified record1) None [] ].

(** [other2] arrives first here; b's certified [record2] then replaces it. *)
Definition second_vote : list StoreOperation :=
  [ LockProposal other2;
    MergeEvidence (evidence ActionEvidence "action 3" "a");
    SupersedeProposalLock lock2 (evidence ActionEvidence "action 2" <$> ["b"; "c"]);
    StageRecordForDissemination record2;
    MergeEvidence (evidence DurabilityEvidence "record 2" "a") ].

Definition second_record : list StoreOperation :=
  [ SupersedeProposalLock other2 (evidence ActionEvidence "action 3" <$> ["b"; "c"]);
    PromoteRecord (certified record2) (Some (mkDeliveryInput "a" "message 2")) ["t"] ].

Notation state operations := (runOperations operations (boundStore identity)).

(** Every operation of the history succeeds but the replacement of a lock
    whose action is staged. *)
Example history_outcomes :
  (fun n => (perform (default (BindIdentity identity)
               ((first_record ++ second_vote ++ second_record)%list !! n))
             (state (take n (first_record ++ second_vote ++ second_record)))).1) <$> seq 0 14 =
  [None; None; None; None; None; None; None; None; None; None; None; None; Some conflict; None].
Proof. vm_compute. reflexivity. Qed.

Example candidate_staged :
  (stageReanchor candidate (state (first_record ++ second_vote ++ second_record))).1 =
  Succeed inserted.
Proof. vm_compute. reflexivity. Qed.

End StoreRuns.
