(* ===== verification/StoreVotes.v ===== *)
(** StoreVotes: what a history of store operations lets this endpoint sign.

    The store keeps a durability vote of its own only for a record it staged,
    under the proposal lock on that record's action and while no re-anchor
    candidate leaves the record's anchor; a candidate it votes for must not
    leave a head with a staged successor.  From these checks, which read the
    rows of the moment, follow two facts about whole histories: this endpoint
    never votes for two actions that extend one head under one anchor, and it
    never votes both to extend a head and to re-anchor away from it. *)
From S2P Require Import Prelude JsMap Identifiers StoredHistory StoreDatabase StoreQueues.
From S2P Require Import StoreRecords StoreAnchors EndpointStore.
Local Open Scope string_scope.

Module StoreVotes.
Import StoreDatabase StoreRows StoreQueues StoreRecords StoreAnchors EndpointStore StoreReads.

(** ** What a state shows of one head and anchor *)

Definition headSome (db : Database) (c : string) : Prop :=
  exists p, conversation_state db !! c = Some p /\ is_Some (ip_headRecordHash p).

Definition awayFrom (db : Database) (c a : string) : Prop :=
  exists r, r ∈ reanchors db /\ ra_conversationId (rr_staged r) = c /\
            ra_previousAnchorHash (rr_staged r) = a.

(** Conversation [c] has left anchor [a] for good. *)
Definition leftAnchor (db : Database) (c a : string) : Prop :=
  exists p, conversation_state db !! c = Some p /\ is_Some (ip_headRecordHash p) /\
    ip_currentAnchorHash p <> a /\ hasAnchor db c a = true /\ awayFrom db c a.

(** The lock at head [h] is on action [act], with a record of it staged. *)
Definition locked (db : Database) (c h a act : string) : Prop :=
  headSome db c /\
  (exists l, proposal_locks db !! (c, h) = Some l /\ pl_actionHash l = act) /\
  exists rh r, staged_records db !! (c, rh) = Some r /\ sr_previousRecordHash r = Some h /\
    sr_anchorHash r = a /\ sr_actionHash r = act.

Definition protected (db : Database) (c h a act : string) : Prop :=
  locked db c h a act \/ leftAnchor db c a.

Section votes.
Context `{Base64Url}.
Context (identity : IdentityBinding).
Local Notation me := (ib_agentId identity).

(** This endpoint's durability vote for the staged record [r] is durable. *)
Definition voted (db : Database) (c rh : string) (r : StagedRecord) : Prop :=
  is_Some (protocol_evidence db !! (c, DurabilityEvidence, rh, me)) /\
  staged_records db !! (c, rh) = Some r.

(** Whatever extends [h] under [a] with this endpoint's vote is [act]. *)
Definition spoken (db : Database) (c h a act : string) : Prop :=
  protected db c h a act /\
  forall rh r, voted db c rh r -> sr_previousRecordHash r = Some h -> sr_anchorHash r = a ->
    sr_actionHash r = act.

(** This endpoint has chosen to leave [h] under [a]. *)
Definition leaving (db : Database) (c h a : string) : Prop :=
  headSome db c /\ awayFrom db c a /\
  forall rh r, voted db c rh r -> sr_previousRecordHash r = Some h -> sr_anchorHash r <> a.

Record wf (db : Database) : Prop := {
  wf_identity : identity_binding db = Some identity;
  wf_staged : forall k r, staged_records db !! k = Some r ->
    k = (sr_conversationId r, sr_recordHash r) /\
    hasAnchor db (sr_conversationId r) (sr_anchorHash r) = true /\
    (is_Some (sr_previousRecordHash r) ->
     exists p, conversation_state db !! sr_conversationId r = Some p /\
       is_Some (ip_headRecordHash p) /\
       (ip_currentAnchorHash p = sr_anchorHash r \/
        ip_currentAnchorHash p <> sr_anchorHash r /\
        awayFrom db (sr_conversationId r) (sr_anchorHash r)));
  wf_locks : forall c k l, proposal_locks db !! (c, k) = Some l -> pl_conversationId l = c;
  wf_evidence : forall c rh key,
    is_Some (protocol_evidence db !! (c, DurabilityEvidence, rh, key)) ->
    is_Some (staged_records db !! (c, rh));
}.

(** What every statement but the insertion of an own vote does. *)
Definition evolves (db db' : Database) : Prop :=
  wf db -> wf db' /\
  (forall c h a act, protected db c h a act -> protected db' c h a act) /\
  (forall c a, headSome db c -> awayFrom db c a -> headSome db' c /\ awayFrom db' c a) /\
  (forall c rh r, is_Some (sr_previousRecordHash r) -> voted db' c rh r -> voted db c rh r).

#[global] Instance evolves_preorder : PreOrder evolves.
Proof.
  split.
  - intros db Hwf. naive_solver.
  - intros db1 db2 db3 H12 H23 Hwf. destruct (H12 Hwf) as (Hwf2 & Hp & Ha & Hv).
    destruct (H23 Hwf2) as (Hwf3 & Hp' & Ha' & Hv'). split; [done|]. naive_solver.
Qed.

(** ** Statements that keep the rows these facts read *)

Definition sameRows (db db' : Database) : Prop :=
  identity_binding db' = identity_binding db /\
  conversation_state db' = conversation_state db /\
  proposal_locks db' = proposal_locks db /\ staged_records db' = staged_records db /\
  anchors db' = anchors db /\ reanchors db' = reanchors db /\
  protocol_evidence db' = protocol_evidence db.

Lemma evolves_same db db' : sameRows db db' -> evolves db db'.
Proof.
  destruct db, db'. unfold sameRows. simpl. intros (-> & -> & -> & -> & -> & -> & ->) Hwf.
  split_and!; [by destruct Hwf; constructor|done..].
Qed.

Lemma same_modify f : (forall db, sameRows db (f db)) -> moves evolves (modify f).
Proof. intros Hf. apply moves_modify. intros db. by apply evolves_same. Qed.

Ltac same := apply same_modify; intros []; repeat split.

Lemma moves_membership m : moves evolves (insert_membership m).
Proof. unfold insert_membership, constraint. follow. same. Qed.
Lemma moves_post_intent i : moves evolves (insert_post_intent i).
Proof. unfold insert_post_intent, constraint. follow. same. Qed.
Lemma moves_certified c r o : moves evolves (insert_certified c r o).
Proof. unfold insert_certified, constraint. follow. same. Qed.
Lemma moves_delivery d : moves evolves (insert_delivery d).
Proof. unfold insert_delivery, constraint. follow. same. Qed.
Lemma moves_outbound o : moves evolves (insert_outbound o).
Proof. unfold insert_outbound, constraint. follow. same. Qed.
Lemma moves_obligation d : moves evolves (insert_obligation d).
Proof. unfold insert_obligation, constraint. follow. same. Qed.
Lemma moves_set_intents f : moves evolves (modify (set_post_intents f)).
Proof. same. Qed.
Lemma moves_set_deliveries f : moves evolves (modify (set_deliveries f)).
Proof. same. Qed.
Lemma moves_set_outbound f : moves evolves (modify (set_outbound f)).
Proof. same. Qed.
Lemma moves_set_obligations f : moves evolves (modify (set_obligations f)).
Proof. same. Qed.

(** A head that stays set and an anchor that stays current. *)
Lemma moves_position c f :
  (forall p, ip_currentAnchorHash (f p) = ip_currentAnchorHash p) ->
  (forall p, is_Some (ip_headRecordHash p) -> is_Some (ip_headRecordHash (f p))) ->
  moves evolves (update_position c f).
Proof.
  intros Hcur Hhead. unfold update_position, constraint. follow.
  apply moves_modify. intros db Hwf.
  assert (forall c' p, conversation_state db !! c' = Some p -> is_Some (ip_headRecordHash p) ->
    exists p', conversation_state (set_positions (alter f c) db) !! c' = Some p' /\
      is_Some (ip_headRecordHash p') /\ ip_currentAnchorHash p' = ip_currentAnchorHash p) as Hst.
  { intros c' p Hp Hs. simpl. destruct (decide (c = c')) as [->|].
    - exists (f p). rewrite lookup_alter_eq, Hp. eauto.
    - exists p. by rewrite lookup_alter_ne. }
  assert (forall c', headSome db c' -> headSome (set_positions (alter f c) db) c') as Hhs.
  { intros c' (p & Hp & Hs). destruct (Hst c' p Hp Hs) as (p' & ? & ? & _). by exists p'. }
  split_and!.
  - destruct Hwf. constructor; [done| |done|done].
    intros k r Hr. destruct (wf_staged0 k r Hr) as (? & ? & Hp). split_and!; [done..|].
    intros Hprev. destruct (Hp Hprev) as (p & Hl & Hs & Hor).
    destruct (Hst _ p Hl Hs) as (p' & ? & ? & Hc). exists p'. rewrite Hc. done.
  - intros c' h a act [(Hh & Hl & Hs)|(p & Hp & Hs & Hne & Ha & Haw)]; [left|right].
    + split_and!; eauto.
    + destruct (Hst _ p Hp Hs) as (p' & ? & ? & Hc). exists p'. rewrite Hc. done.
  - intros c' a Hh Haw. split; [eauto|done].
  - done.
Qed.

Lemma hasAnchor_spec db c a :
  hasAnchor db c a = true <->
  exists r, r ∈ anchors db /\ sa_conversationId r = c /\ sa_anchorHash r = a.
Proof.
  unfold hasAnchor. rewrite existsb_exists.
  setoid_rewrite bool_decide_eq_true. setoid_rewrite <- list_elem_of_In. naive_solver.
Qed.

Lemma moves_anchor r : moves evolves (insert_anchor r).
Proof.
  unfold insert_anchor, constraint. follow. apply moves_modify. intros db Hwf.
  assert (forall c a, hasAnchor db c a = true ->
    hasAnchor (set_anchors (fun l => (l ++ [r])%list) db) c a = true) as Ha.
  { intros c a (r' & ? & ?)%hasAnchor_spec. apply hasAnchor_spec. exists r'. set_solver. }
  split_and!; [|..|done|done].
  - destruct Hwf. constructor; [done| |done..].
    intros k r' Hr. destruct (wf_staged0 k r' Hr) as (? & ? & ?). eauto.
  - intros c h a act [?|(p & ? & ? & ? & ? & ?)]; [by left|right]. exists p. eauto 10.
Qed.

Lemma moves_insert_position c p : moves evolves (insert_position c p).
Proof.
  unfold insert_position, constraint. intros db u db' Hrun. tx. guards. intros Hwf.
  assert (forall c' p', conversation_state db !! c' = Some p' ->
    conversation_state (set_positions <[c:=p]> db) !! c' = Some p') as Hst.
  { intros c' p' Hp. simpl. by rewrite lookup_insert_ne by congruence. }
  split_and!; [| | |done].
  - destruct Hwf. constructor; [done| |done..].
    intros k r Hr. destruct (wf_staged0 k r Hr) as (? & ? & Hp). split_and!; [done..|].
    intros (p' & ? & ?)%Hp. eauto.
  - intros c' h a act [((p' & ? & ?) & ? & ?)|(p' & ? & ?)]; [left|right].
    + split_and!; [exists p'; eauto|done..].
    + exists p'. split; eauto.
  - intros c' a (p' & ? & ?) ?. split; [exists p'; eauto|done].
Qed.

Lemma moves_insert_lock l : moves evolves (insert_lock (predecessorKey (pl_previousRecordHash l)) l).
Proof.
  unfold insert_lock, constraint. intros db u db' Hrun. tx. guards. intros Hwf.
  split_and!; [| |done..].
  - destruct Hwf. constructor; [done|done| |done].
    intros c k l'. simpl. intros [([= <- <-] & <-)|[_ Hl]]%lookup_insert_Some; eauto.
  - intros c h a act [(Hh & (l' & Hl & Hact) & Hs)|Hleft]; [left|by right].
    split_and!; [done| |done]. exists l'. simpl. rewrite lookup_insert_ne; [done|congruence].
Qed.

(** A record staged where the conversation stands. *)
Lemma evolves_insert_staged r db db' u :
  (exists p, conversation_state db !! sr_conversationId r = Some p /\
     ip_currentAnchorHash p = sr_anchorHash r /\ ip_headRecordHash p = sr_previousRecordHash r) ->
  insert_staged r db = Succeed (u, db') -> evolves db db'.
Proof.
  unfold insert_staged, constraint. intros (p & Hp & Hcur & Hhead) Hrun. tx. guards. intros Hwf.
  assert (staged_records db !! (sr_conversationId r, sr_recordHash r) = None) as Hnone.
  { match goal with H : hasStagedRecord _ _ = false |- _ => unfold hasStagedRecord in H; guards end.
    by apply eq_None_not_Some. }
  assert (forall k r', staged_records db !! k = Some r' ->
    staged_records (set_staged <[(sr_conversationId r, sr_recordHash r):=r]> db) !! k = Some r') as Hst.
  { intros k r' Hr. simpl. rewrite lookup_insert_ne; [done|congruence]. }
  split_and!; [| |done|].
  - destruct Hwf. constructor; [done| |done|].
    + intros k r'. simpl. intros [(<- & <-)|[_ Hl]]%lookup_insert_Some; [|by apply wf_staged0].
      split_and!; [done..|]. intros Hprev. exists p. rewrite Hhead. auto.
    + intros c rh key [r' Hr']%wf_evidence0. eauto.
  - intros c h a act [(Hh & Hl & rh & r' & Hr & ?)|Hleft]; [left|by right].
    split_and!; [done..|]. exists rh, r'. eauto.
  - intros c rh r' _ [Hev Hl]. split; [done|]. simpl in Hl.
    apply lookup_insert_Some in Hl as [([= <- <-] & <-)|[_ Hl]]; [|done].
    destruct (wf_evidence _ Hwf _ _ _ Hev) as [? ?]. congruence.
Qed.

(** A change of the re-anchor rows after which every anchor left stays left. *)
Lemma evolves_reanchors f db :
  (forall c a, awayFrom db c a -> awayFrom (set_reanchors f db) c a) ->
  evolves db (set_reanchors f db).
Proof.
  intros Ha Hwf. split_and!; [| | |done].
  - destruct Hwf. constructor; [done| |done..].
    intros k r' Hr. destruct (wf_staged0 k r' Hr) as (? & ? & Hp). split_and!; [done..|].
    intros (p & ? & ? & ?)%Hp. exists p. naive_solver.
  - intros c h a act [?|(p & ? & ? & ? & ? & ?)]; [by left|right]. exists p. eauto 10.
  - eauto.
Qed.

Lemma moves_insert_reanchor r : moves evolves (insert_reanchor r).
Proof.
  unfold insert_reanchor, constraint. follow. apply moves_modify. intros db.
  apply evolves_reanchors. intros c a (r' & ? & ?). exists r'. set_solver.
Qed.

Lemma lookup_delete_evidence P db k b :
  protocol_evidence (set_evidence (filter (fun kv => P kv.1 = false)) db) !! k = Some b ->
  protocol_evidence db !! k = Some b /\ P k = false.
Proof. simpl. by intros [? ?]%map_lookup_filter_Some. Qed.

Lemma moves_delete_evidence P : moves evolves (delete_evidence P).
Proof.
  apply moves_modify. intros db Hwf. split_and!; [|done|done|].
  - destruct Hwf. constructor; [done..|].
    intros c rh key [b [Hb _]%lookup_delete_evidence]. by eapply wf_evidence0.
  - intros c rh r _ [[b [Hb _]%lookup_delete_evidence] Hr]. by split.
Qed.


(** ** Releasing a lock *)

Definition releases (l : ProposalLock) (held : ProposalLock) : bool :=
  bool_decide (pl_conversationId held = pl_conversationId l /\ pl_actionHash held = pl_actionHash l).

Lemma release_effect l db u db' :
  releaseProposalLock l db = Succeed (u, db') ->
  identity_binding db' = identity_binding db /\
  conversation_state db' = conversation_state db /\ anchors db' = anchors db /\
  reanchors db' = reanchors db /\
  staged_records db' = filter (fun kr => stagedFor l kr.2 = false) (staged_records db) /\
  proposal_locks db' = filter (fun kl => releases l kl.2 = false) (proposal_locks db) /\
  forall c kind subject key b,
    protocol_evidence db' !! (c, kind, subject, key) = Some b ->
    protocol_evidence db !! (c, kind, subject, key) = Some b /\
    (kind = DurabilityEvidence -> c = pl_conversationId l -> subject ∉ stagedHashes db l).
Proof.
  unfold releaseProposalLock, delete_obligations, delete_evidence, delete_staged, delete_locks,
    constraint, releases.
  intros Hrun. tx. simpl. split_and!; [done..|].
  intros c kind subject key b.
  intros [[Hb H1]%map_lookup_filter_Some H2]%map_lookup_filter_Some.
  split; [done|]. intros -> ->. simpl in *. guards. naive_solver.
Qed.

Lemma stagedHashes_spec db l rh :
  rh ∈ stagedHashes db l <->
  exists k r, staged_records db !! k = Some r /\ stagedFor l r = true /\ sr_recordHash r = rh.
Proof.
  unfold stagedHashes. rewrite list_elem_of_fmap. setoid_rewrite list_elem_of_filter.
  setoid_rewrite list_elem_of_fmap. split.
  - intros (r & -> & Hr & [k r'] & -> & Hk%elem_of_map_to_list). eauto.
  - intros (k & r & Hk%elem_of_map_to_list & Hr & <-). exists r. split_and!; [done..|].
    by exists (k, r).
Qed.

(** A release harms no head whose lock it takes, once that head's records
    are of another action or under an anchor that was left. *)
Lemma evolves_release l db u db' :
  (forall h a act, locked db (pl_conversationId l) h a act ->
     leftAnchor db (pl_conversationId l) a \/ act <> pl_actionHash l) ->
  releaseProposalLock l db = Succeed (u, db') -> evolves db db'.
Proof.
  intros Hsafe (Hid & Hst & Han & Hre & Hsr & Hlk & Hev)%release_effect Hwf.
  split_and!.
  - destruct Hwf as [? Hs Hl He]. constructor.
    + congruence.
    + intros k r. rewrite Hsr. intros [Hr _]%map_lookup_filter_Some.
      destruct (Hs k r Hr) as (? & ? & Hp). unfold hasAnchor, awayFrom. by rewrite Han, Hst, Hre.
    + intros c k held. rewrite Hlk. intros [? _]%map_lookup_filter_Some. eauto.
    + intros c rh key [b [Hb Hnot]%Hev].
      destruct (He c rh key) as [r Hr]; [eauto|]. exists r. rewrite Hsr.
      apply map_lookup_filter_Some. split; [done|]. simpl.
      destruct (stagedFor l r) eqn:Hf; [|done]. exfalso.
      destruct (Hs _ _ Hr) as ([= Hc Hrh] & _). pose proof Hf as Hf'.
      unfold stagedFor in Hf'. guards. destruct Hf' as [Hc' _].
      apply Hnot; [done|congruence|]. apply stagedHashes_spec. eauto.
  - intros c h a act [Hlock|(p & Hp)]; [|right; exists p; unfold hasAnchor, awayFrom; by rewrite Hst, Han, Hre].
    destruct (decide (c = pl_conversationId l /\ act = pl_actionHash l)) as [[-> ->]|Hne].
    + destruct (Hsafe _ _ _ Hlock) as [(p & Hp)|]; [|done].
      right. exists p. unfold hasAnchor, awayFrom. by rewrite Hst, Han, Hre.
    + left. destruct Hlock as (Hh & (held & Hheld & Hact) & rh & r & Hr & Hprev & Ha & Hract).
      split_and!.
      * unfold headSome. by rewrite Hst.
      * exists held. split; [|done]. rewrite Hlk. apply map_lookup_filter_Some. split; [done|].
        simpl. apply bool_decide_eq_false. pose proof (wf_locks _ Hwf _ _ _ Hheld).
        intros [Hc' Ha']. apply Hne. split; congruence.
      * exists rh, r. split_and!; [|done..]. rewrite Hsr. apply map_lookup_filter_Some. split; [done|].
        simpl. apply bool_decide_eq_false.
        destruct (wf_staged _ Hwf _ _ Hr) as ([= Hc _] & _).
        intros [Hc' Ha']. apply Hne. split; congruence.
  - intros c a. unfold headSome, awayFrom. by rewrite Hst, Hre.
  - intros c rh r _ [[b [Hb _]%Hev] Hr]. split; [eauto|]. rewrite Hsr in Hr.
    by apply map_lookup_filter_Some in Hr as [? _].
Qed.


(** ** Re-anchors *)

Lemma findStagedReanchor_some db c a s :
  findStagedReanchor db c a = Some s ->
  exists r, r ∈ reanchors db /\ rr_staged r = s /\ ra_conversationId s = c /\ ra_anchorHash s = a.
Proof.
  unfold findStagedReanchor. intros (r & Hr & ->)%fmap_Some.
  apply find_some in Hr as [Hin Hb%bool_decide_eq_true]. exists r.
  split; [by apply list_elem_of_In|]. naive_solver.
Qed.

Lemma requireSameReanchor_ok left right db u db' :
  requireSameReanchor left right db = Succeed (u, db') -> left = right /\ db' = db.
Proof.
  unfold requireSameReanchor, requireSameBytes, requireEqual. intros Hrun. tx. guards.
  destruct left, right. naive_solver.
Qed.

Lemma requireReanchorPosition_ok r db u db' :
  requireReanchorPosition r db = Succeed (u, db') ->
  db' = db /\ exists p, conversation_state db !! ra_conversationId r = Some p /\
    ip_currentAnchorHash p = ra_previousAnchorHash r /\
    ip_headRecordHash p = Some (ra_selectedRecordHash r).
Proof.
  unfold requireReanchorPosition, readStoredPosition, requireEqual. intros Hrun. tx.
  case_match; tx. guards. eauto.
Qed.

Lemma evolves_completed cr db db' u :
  awayFrom db (ra_conversationId (cr_staged cr)) (ra_previousAnchorHash (cr_staged cr)) ->
  (exists p, conversation_state db !! ra_conversationId (cr_staged cr) = Some p /\
     ip_currentAnchorHash p = ra_previousAnchorHash (cr_staged cr) /\
     is_Some (ip_headRecordHash p)) ->
  insertCompletedReanchor cr db = Succeed (u, db') ->
  evolves db db' /\
  (wf db -> forall h a act, locked db' (ra_conversationId (cr_staged cr)) h a act ->
     leftAnchor db' (ra_conversationId (cr_staged cr)) a).
Proof.
  destruct cr as [ra body]. simpl. intros Haw (p & Hp & Hcur & Hhead) Hrun.
  unfold insertCompletedReanchor, insert_anchor, update_position, constraint in Hrun. simpl in Hrun.
  tx. guards. simpl in *.
  match goal with |- evolves db ?d /\ _ => set (db' := d) end.
  set (c := ra_conversationId ra) in *. set (new := ra_anchorHash ra) in *.
  assert (forall c' a, hasAnchor db c' a = true -> hasAnchor db' c' a = true) as Hanc.
  { intros c' a (r' & ? & ?)%hasAnchor_spec. apply hasAnchor_spec. exists r'. set_solver. }
  assert (forall c' a, awayFrom db c' a -> awayFrom db' c' a) as Haway.
  { intros c' a (r & Hr & ?). eexists (completeRow _ r). split.
    - simpl. apply list_elem_of_fmap. eauto.
    - unfold completeRow. by case_bool_decide. }
  assert (forall c' p', conversation_state db !! c' = Some p' -> c' <> c ->
    conversation_state db' !! c' = Some p') as Hother.
  { intros. simpl. by rewrite lookup_alter_ne by congruence. }
  assert (exists p', conversation_state db' !! c = Some p' /\
    ip_currentAnchorHash p' = new /\ ip_headRecordHash p' = ip_headRecordHash p) as (p' & Hp' & Hcur' & Hhd').
  { simpl. rewrite lookup_alter_eq, Hp. simpl. by eexists. }
  assert (wf db -> forall rh r, staged_records db !! (c, rh) = Some r ->
    is_Some (sr_previousRecordHash r) ->
    sr_anchorHash r <> new /\ hasAnchor db c (sr_anchorHash r) = true /\
    awayFrom db' c (sr_anchorHash r)) as Hleft.
  { intros Hwf rh r Hr Hprev. destruct (wf_staged _ Hwf _ _ Hr) as ([= Hc _] & Ha & Hst).
    rewrite <- Hc in *. destruct (Hst Hprev) as (p0 & Hp0 & _ & Hor). split_and!; [congruence|done|].
    rewrite Hp in Hp0. simplify_eq. destruct Hor as [<-|[_ ?]]; [|by apply Haway].
    apply Haway. by rewrite Hcur. }
  split; [|intros Hwf h a act (_ & _ & rh & r & Hr & Hprev & <- & _);
           destruct (Hleft Hwf rh r Hr ltac:(eauto)) as (? & ? & ?);
           exists p'; rewrite Hhd'; split_and!; [done..|congruence|by apply Hanc|done]].
  intros Hwf. assert (forall c', headSome db c' -> headSome db' c') as Hhs.
  { intros c' (p0 & Hp0 & ?). destruct (decide (c' = c)) as [->|]; [|by eexists; eauto].
    exists p'. by rewrite Hhd'. }
  split_and!; [| | |done].
  - pose proof Hwf as [? Hs Hl He]. constructor; [done| |done..].
    intros k r Hr. destruct (Hs k r Hr) as (Hk & Ha & Hst). split_and!; [done|by apply Hanc|].
    intros Hprev. destruct (decide (sr_conversationId r = c)) as [Hc|].
    + subst k. rewrite Hc in *. destruct (Hleft Hwf _ r Hr Hprev) as (? & ? & ?).
      exists p'. rewrite Hhd'. split_and!; [done..|right; split; [congruence|done]].
    + destruct (Hst Hprev) as (p0 & ? & ? & Hor). exists p0. split_and!; [by apply Hother|done|].
      destruct Hor as [|[]]; eauto.
  - intros c' h a act [Hlock|(p0 & Hp0 & Hs & Hne & Ha & Hw)].
    + destruct (decide (c' = c)) as [->|Hne].
      * right. destruct Hlock as (_ & _ & rh & r & Hr & Hprev & <- & _).
        destruct (Hleft Hwf rh r Hr ltac:(eauto)) as (? & ? & ?).
        exists p'. rewrite Hhd'. split_and!; [done..|congruence|by apply Hanc|done].
      * left. destruct Hlock as (Hh & ?). split; [by apply Hhs|done].
    + right. destruct (decide (c' = c)) as [->|Hne'].
      * exists p'. rewrite Hhd', Hcur'. split_and!; [done..| |by apply Hanc|by apply Haway].
        intros ->. congruence.
      * exists p0. split_and!; [by apply Hother|done..|by apply Hanc|by apply Haway].
  - intros c' a Hh Hw. split; [by apply Hhs|by apply Haway].
Qed.


Lemma evolves_wf db db' : (wf db -> evolves db db') -> evolves db db'.
Proof. intros Hev Hwf. by apply Hev. Qed.

Lemma evolves_superseded ra db u db' :
  (wf db -> forall h a act, locked db (ra_conversationId ra) h a act ->
     leftAnchor db (ra_conversationId ra) a) ->
  releaseSupersededProposal ra db = Succeed (u, db') -> evolves db db'.
Proof.
  unfold releaseSupersededProposal, findProposalLock. intros Hleft Hrun. tx.
  case_match eqn:Hl; tx; [|done]. apply evolves_wf. intros Hwf.
  eapply evolves_release; [|exact Hrun]. rewrite (wf_locks _ Hwf _ _ _ Hl). eauto.
Qed.

Lemma evolves_complete_reanchor cr db m db' :
  completeReanchorInTransaction cr db = Succeed (m, db') -> evolves db db'.
Proof.
  unfold completeReanchorInTransaction. intros Hrun. tx. case_match eqn:Hf; tx.
  match goal with H : requireSameReanchor _ _ _ = _ |- _ =>
    apply requireSameReanchor_ok in H as [-> ->] end.
  case_match; tx; [done|].
  match goal with H : requireReanchorPosition _ _ = _ |- _ =>
    apply requireReanchorPosition_ok in H as (-> & p & Hp & Hcur & Hhead) end.
  apply findStagedReanchor_some in Hf as (r' & Hin & Hr' & _).
  match goal with H : insertCompletedReanchor _ _ = _ |- _ => apply evolves_completed in H as [Hev Hleft] end.
  - apply evolves_wf. intros Hwf. etrans; [exact Hev|]. eapply evolves_superseded; eauto.
  - exists r'. by rewrite Hr'.
  - exists p. rewrite Hhead. eauto.
Qed.

(** Retiring superseded candidates, then staging the one that is adopted in
    their place. *)
Lemma evolves_adopt ra db u db1 m db' :
  retireSupersededCandidates ra db = Succeed (u, db1) ->
  stageReanchorInTransaction ra Adopted db1 = Succeed (m, db') -> evolves db db'.
Proof.
  unfold retireSupersededCandidates, delete_reanchors. intros Hret Hstage. tx.
  match goal with H : forTx _ _ _ = _ |- _ =>
    eapply (moves_forTx evolves) in H; [|intros; apply moves_delete_evidence] end.
  etrans; [eassumption|]. unfold stageReanchorInTransaction in Hstage. tx.
  case_match eqn:Hf; tx.
  - match goal with H : requireSameReanchor _ _ _ = _ |- _ =>
      apply requireSameReanchor_ok in H as [-> ->] end.
    apply findStagedReanchor_some in Hf as (r' & Hin & Hr' & _). apply evolves_reanchors.
    intros c a (held & Hr & Hc & Ha). destruct (superseded ra held) eqn:Hs.
    + exists r'. split; [done|]. unfold superseded, inScope in Hs. guards.
      rewrite Hr'. naive_solver.
    + exists held. split; [|done]. simpl. by apply list_elem_of_filter.
  - match goal with H : requireReanchorPosition _ _ = _ |- _ =>
      apply requireReanchorPosition_ok in H as (-> & _) end.
    unfold requireUnclaimedReanchorScope, insert_reanchor, constraint in *. tx.
    match goal with |- evolves ?d _ => apply (evolves_reanchors
      (fun l => (filter (fun r => superseded ra r = false) l ++ [mkRecoveredReanchor ra None])%list) d) end.
    intros c a (held & Hr & Hc & Ha). destruct (superseded ra held) eqn:Hs.
    + exists (mkRecoveredReanchor ra None). split; [simpl; set_solver|].
      unfold superseded, inScope in Hs. guards. naive_solver.
    + exists held. split; [|done]. simpl. apply elem_of_app. left. by apply list_elem_of_filter.
Qed.

(** ** Restarting an empty conversation *)

Lemma requireEmptyConversationPosition_ok expected db u db' :
  requireEmptyConversationPosition expected db = Succeed (u, db') ->
  db' = db /\ exists p, conversation_state db !! cf_conversationId expected = Some p /\
    ip_headRecordHash p = None.
Proof.
  unfold requireEmptyConversationPosition, requireSameFoundation, requireSameBytes,
    readStoredPosition, requireEqual.
  intros Hrun. tx. case_match; tx. case_match; tx. guards. eauto.
Qed.

Lemma evolves_restart expected replacement db x db' :
  cf_conversationId expected = cf_conversationId replacement ->
  restartInTransaction expected replacement db = Succeed (x, db') -> evolves db db'.
Proof.
  intros Hsame Hrun. unfold restartInTransaction in Hrun. tx.
  match goal with H : requireEmptyConversationPosition _ _ = _ |- _ =>
    apply requireEmptyConversationPosition_ok in H as (-> & p & Hp & Hhead) end.
  unfold clearIncompleteConversationState, installReplacementFoundation, delete_obligations,
    delete_evidence, delete_locks, delete_staged, delete_reanchors, insert_anchor,
    update_position, delete_anchors, constraint in *. tx. simpl in *.
  rewrite <- Hsame in *. set (c := cf_conversationId expected) in *.
  match goal with |- evolves db ?d => set (db' := d) end. intros Hwf.
  assert (forall c', headSome db c' -> c' <> c) as Hnot.
  { intros c' (p' & Hp' & Hs) ->. rewrite Hp in Hp'. simplify_eq. rewrite Hhead in Hs. by destruct Hs. }
  assert (forall c', c' <> c -> conversation_state db' !! c' = conversation_state db !! c') as Hst.
  { intros. simpl. by rewrite lookup_alter_ne. }
  assert (forall c', headSome db c' -> headSome db' c') as Hhs.
  { intros c' Hh. pose proof (Hnot c' Hh). destruct Hh as (p' & ? & ?). exists p'. by rewrite Hst. }
  assert (forall c' a, c' <> c -> awayFrom db c' a -> awayFrom db' c' a) as Haw.
  { intros c' a Hne (r' & Hr & <- & Ha). exists r'. simpl. split; [|done].
    apply list_elem_of_filter. by rewrite bool_decide_eq_false. }
  assert (forall c' a, c' <> c -> hasAnchor db c' a = true -> hasAnchor db' c' a = true) as Hanc.
  { intros c' a Hne (r' & Hr & <- & Ha)%hasAnchor_spec. apply hasAnchor_spec. exists r'. simpl.
    split; [|done]. apply list_elem_of_filter. split; [|set_solver].
    apply bool_decide_eq_false. naive_solver. }
  assert (forall k r', staged_records db' !! k = Some r' ->
    staged_records db !! k = Some r' /\ sr_conversationId r' <> c) as Hsr.
  { intros k r'. simpl. intros [? Hb]%map_lookup_filter_Some. simpl in Hb. by guards. }
  split_and!.
  - pose proof Hwf as [? Hs Hl He]. constructor; [done| | |].
    + intros k r' [Hr Hne]%Hsr. destruct (Hs k r' Hr) as (? & ? & Hpos).
      split_and!; [done|by apply Hanc|]. intros (p' & ? & ? & Hor)%Hpos.
      exists p'. rewrite Hst by done. naive_solver.
    + intros c' k l. simpl. intros [? _]%map_lookup_filter_Some. eauto.
    + intros c' rh key [b Hb]. simpl in Hb. apply map_lookup_filter_Some in Hb as [Hb Hne].
      simpl in Hne. guards. destruct (He c' rh key) as [r' Hr]; [eauto|]. exists r'. simpl.
      apply map_lookup_filter_Some. split; [done|]. simpl. apply bool_decide_eq_false.
      destruct (Hs _ _ Hr) as ([= <- _] & _). done.
  - intros c' h a act [Hlock|(p' & Hp' & Hs & Hne & Ha & Hw)].
    + left. destruct Hlock as (Hh & (l & Hl & Hact) & rh & r' & Hr & Hrest).
      pose proof (Hnot c' Hh) as Hne. split_and!; [by apply Hhs| |].
      * exists l. split; [|done]. simpl. apply map_lookup_filter_Some. split; [done|].
        simpl. apply bool_decide_eq_false. by rewrite (wf_locks _ Hwf _ _ _ Hl).
      * exists rh, r'. split; [|done]. simpl. apply map_lookup_filter_Some. split; [done|].
        simpl. apply bool_decide_eq_false. by destruct (wf_staged _ Hwf _ _ Hr) as ([= <- _] & _).
    + right. assert (c' <> c) as Hc by (apply Hnot; exists p'; eauto).
      exists p'. rewrite Hst by done. eauto 10.
  - intros c' a Hh Ha. split; eauto.
  - intros c' rh r' _ [[b Hb] [Hr _]%Hsr]. split; [|done]. simpl in Hb.
    apply map_lookup_filter_Some in Hb as [Hb _]. eauto.
Qed.


(** ** Evidence *)

(** The rows an own durability vote was accepted against. *)
Definition voteLocked (db : Database) (e : ProtocolEvidence) : Prop :=
  exists r l, staged_records db !! (pe_conversationId e, pe_subjectId e) = Some r /\
    proposal_locks db !! (sr_conversationId r, predecessorKey (sr_previousRecordHash r)) = Some l /\
    pl_actionHash l = sr_actionHash r /\ ~ awayFrom db (sr_conversationId r) (sr_anchorHash r).

Lemma requireNoReanchorAwayFrom_ok r db u db' :
  requireNoReanchorAwayFrom r db = Succeed (u, db') ->
  db' = db /\ ~ awayFrom db (sr_conversationId r) (sr_anchorHash r).
Proof.
  unfold requireNoReanchorAwayFrom. intros Hrun. tx. guards. split; [done|].
  intros (held & Hin & Hc & Ha).
  match goal with H : existsb ?f _ = false |- _ =>
    assert (existsb f (reanchors db) = true); [|congruence] end.
  apply existsb_exists. exists held. split; [by apply list_elem_of_In|].
  by apply bool_decide_eq_true.
Qed.

Lemma requireLocalEvidenceLock_ok e db u db' :
  requireLocalEvidenceLock e db = Succeed (u, db') -> db' = db /\
  (identity_binding db = Some identity -> pe_kind e = DurabilityEvidence ->
   evidenceKey e = me -> voteLocked db e).
Proof.
  unfold requireLocalEvidenceLock, readStoredIdentity. intros Hl. tx.
  case_match; tx; [|split; [done|congruence]].
  case_match eqn:Hkey; guards; tx; [split; [done|congruence]|].
  case_match eqn:Hkind; tx; [by split| |by split..].
  unfold requireLocalDurabilityEvidenceLock, findStagedRecord, findProposalLock in Hl.
  tx. case_match; tx. case_match; tx. guards.
  apply requireNoReanchorAwayFrom_ok in Hl as [-> Hno]. split; [done|].
  intros _ _ _. eexists _, _. by split_and!.
Qed.

Lemma requireEvidenceSubject_ok e db u db' :
  requireEvidenceSubject e db = Succeed (u, db') -> db' = db /\
  (pe_kind e = DurabilityEvidence ->
   is_Some (staged_records db !! (pe_conversationId e, pe_subjectId e))) /\
  (identity_binding db = Some identity -> pe_kind e = DurabilityEvidence ->
   evidenceKey e = me -> voteLocked db e).
Proof.
  unfold requireEvidenceSubject, requireMembership. intros Hrun. tx.
  match goal with H : requireLocalEvidenceLock _ _ = _ |- _ =>
    apply requireLocalEvidenceLock_ok in H as [-> Hown] end.
  split_and!; [|intros Hk; rewrite Hk in *; tx; guards; done|done].
  case_match; tx; done.
Qed.

(** ** The invariant *)

(** [F] and [N] collect what has been voted and what has been left so far. *)
Record holds (F : string -> string -> string -> string -> Prop)
    (N : string -> string -> string -> Prop) (db : Database) : Prop := {
  holds_wf : wf db;
  holds_voted : forall c rh r h, voted db c rh r -> sr_previousRecordHash r = Some h ->
    spoken db c h (sr_anchorHash r) (sr_actionHash r);
  holds_spoken : forall c h a act, F c h a act -> spoken db c h a act;
  holds_leaving : forall c h a, N c h a -> leaving db c h a;
}.

Definition keeps F N (db db' : Database) : Prop := holds F N db -> holds F N db'.

#[global] Instance keeps_preorder F N : PreOrder (keeps F N).
Proof. split; [by intros db ?|]. intros db1 db2 db3 H12 H23 Hh. apply H23, H12, Hh. Qed.

Lemma evolves_keeps F N db db' : evolves db db' -> keeps F N db db'.
Proof.
  intros Hev [Hwf Hv Hs Hl]. destruct (Hev Hwf) as (Hwf' & Hp & Ha & Hvo).
  assert (forall c h a act, spoken db c h a act -> spoken db' c h a act) as Hspk.
  { intros c h a act [? Hall]. split; [eauto|]. intros rh r Hr Hprev Hra.
    eapply Hall; eauto. }
  constructor; [done| | |].
  - intros c rh r h Hr Hprev. apply Hspk. eapply Hv; eauto.
  - eauto.
  - intros c h a Hn. destruct (Hl c h a Hn) as (Hh & Haw & Hno).
    destruct (Ha c a Hh Haw). split_and!; [done..|]. intros rh r Hr Hprev. eapply Hno; eauto.
Qed.

Lemma moves_keeps {A} (m : Tx A) F N : moves evolves m -> moves (keeps F N) m.
Proof. intros Hm db a db' Hrun. eapply evolves_keeps, Hm, Hrun. Qed.

(** The vote that an insertion adds is spoken for by the lock it was checked
    against, and so was every vote before it. *)
Lemma keeps_insert_evidence F N e db u db' :
  (pe_kind e = DurabilityEvidence ->
   is_Some (staged_records db !! (pe_conversationId e, pe_subjectId e))) ->
  (identity_binding db = Some identity -> pe_kind e = DurabilityEvidence ->
   evidenceKey e = me -> voteLocked db e) ->
  insert_evidence e db = Succeed (u, db') -> keeps F N db db'.
Proof.
  unfold insert_evidence, constraint. intros Hstaged Hown Hrun [Hwf Hv Hs Hl]. tx. guards.
  match goal with |- holds _ _ ?d => set (db' := d) end.
  assert (wf db') as Hwf'.
  { destruct Hwf. constructor; [done..|]. intros c rh key. simpl.
    intros [b [([= <- Hk <- <-] & _)|[_ Hb]]%lookup_insert_Some]; eauto. }
  assert (forall c rh r, voted db' c rh r -> voted db c rh r \/
    pe_kind e = DurabilityEvidence /\ evidenceKey e = me /\ c = pe_conversationId e /\
    rh = pe_subjectId e) as Hnew.
  { intros c rh r [[b Hb] Hr]. simpl in Hb.
    apply lookup_insert_Some in Hb as [([= <- Hk <- Hme] & _)|[_ Hb]]; [by right|].
    left. split; eauto. }
  (* what the new vote, if there is one, was checked against *)
  assert (forall c rh r h, voted db' c rh r -> sr_previousRecordHash r = Some h ->
    voted db c rh r \/
    locked db c h (sr_anchorHash r) (sr_actionHash r) /\ ~ awayFrom db c (sr_anchorHash r)) as Hcase.
  { intros c rh r h Hr Hprev. destruct (Hnew c rh r Hr) as [?|(Hk & Hme & -> & ->)]; [by left|right].
    destruct Hr as [_ Hr]. simpl in Hr.
    destruct (Hown (wf_identity _ Hwf) Hk Hme) as (r' & l & Hr' & Hlk & Hact & Hno).
    rewrite Hr in Hr'. simplify_eq. destruct (wf_staged _ Hwf _ _ Hr) as ([= Hc _] & _ & Hpos).
    rewrite <- Hc, Hprev in *. split; [|done]. split_and!; [|eauto|eauto 10].
    destruct Hpos as (p & ? & ? & _); [eauto|]. by exists p. }
  (* a lock that is not on the action of an earlier vote cannot be voted for *)
  assert (forall c h a act, spoken db c h a act -> spoken db' c h a act) as Hspk.
  { intros c h a act [Hp Hall]. split; [exact Hp|]. intros rh r Hr Hprev <-.
    destruct (Hcase c rh r h Hr Hprev) as [?|[(_ & (l & Hlk & Hact) & _) Hno]]; [eauto|].
    destruct Hp as [(_ & (l' & Hlk' & <-) & _)|(_ & _ & _ & _ & _ & ?)]; [congruence|done]. }
  constructor; [done| | |].
  - intros c rh r h Hr Hprev. destruct (Hcase c rh r h Hr Hprev) as [Hold|[Hlock Hno]]; [eauto|].
    split; [by left|]. intros rh' r' Hr' Hprev' Ha.
    destruct (Hcase c rh' r' h Hr' Hprev') as [Hold|[(_ & (l & Hlk & Hact) & _) _]].
    + destruct (Hv c rh' r' h Hold Hprev') as [[(_ & (l & Hlk & Hact) & _)|(_ & _ & _ & _ & _ & Haw)] _].
      * destruct Hlock as (_ & (l' & Hlk' & Hact') & _). congruence.
      * rewrite Ha in Haw. done.
    + destruct Hlock as (_ & (l' & Hlk' & Hact') & _). congruence.
  - eauto.
  - intros c h a Hn. destruct (Hl c h a Hn) as (Hh & Haw & Hno). split_and!; [done..|].
    intros rh r Hr Hprev Ha. destruct (Hcase c rh r h Hr Hprev) as [Hold|[_ Hno']].
    + by eapply Hno.
    + rewrite Ha in Hno'. done.
Qed.


(** ** Operations *)

#[local] Hint Resolve moves_keeps moves_membership moves_post_intent moves_certified moves_delivery
  moves_outbound moves_obligation moves_set_intents moves_set_deliveries moves_set_outbound
  moves_set_obligations moves_anchor moves_insert_position moves_insert_lock moves_insert_reanchor
  moves_delete_evidence : tx_moves.

Lemma moves_lock l : moves evolves (lockProposalInTransaction l).
Proof. unfold lockProposalInTransaction, requireEqual. follow. Qed.

Lemma requireRecordPosition_ok r db u db' :
  requireRecordPosition r db = Succeed (u, db') -> db' = db /\
  exists p, conversation_state db !! sr_conversationId r = Some p /\
     ip_currentAnchorHash p = sr_anchorHash r /\ ip_headRecordHash p = sr_previousRecordHash r.
Proof.
  unfold requireRecordPosition, readStoredPosition, requireEqual. intros Hrun. tx.
  case_match; tx. all: case_match; tx; guards; eauto.
Qed.

Lemma moves_stage_record r purpose : moves evolves (stageRecordInTransaction r purpose).
Proof.
  unfold stageRecordInTransaction. intros db m db' Hrun. tx. case_match; tx.
  - match goal with H : requireSameRecord _ _ _ = _ |- _ => by apply reads_same_record in H as -> end.
  - match goal with H : requireRecordPosition _ _ = _ |- _ =>
      apply requireRecordPosition_ok in H as [-> Hp] end.
    case_match; tx;
      [match goal with H : requireNoReanchorAwayFrom _ _ = _ |- _ =>
         apply requireNoReanchorAwayFrom_ok in H as [-> _] end|];
      by eapply evolves_insert_staged.
Qed.

Lemma moves_foundation f : moves evolves (putConversationFoundationInTransaction f).
Proof. unfold putConversationFoundationInTransaction, insertFoundation. follow. Qed.
#[local] Hint Resolve moves_lock moves_stage_record moves_foundation : tx_moves.

Lemma moves_bind_intent b : moves evolves (bindIntentWithFoundation b).
Proof.
  unfold bindIntentWithFoundation, requireConversationFoundation, bindPostIntentInTransaction,
    requireSameBytes, requireEqual. follow.
Qed.
Lemma moves_retain_delivery r d t : moves evolves (retainDeliveryInTransaction r d t).
Proof.
  assert (forall l f, moves evolves (mintFrom l f)) as Hmint.
  { intros l f. induction l; simpl; follow. }
  unfold retainDeliveryInTransaction, mintDeliveryToken, requireSameBytes, requireEqual,
    requireText, requireBytes. follow.
Qed.
Lemma moves_complete_intent r : moves evolves (completeLocalPostIntent r).
Proof. unfold completeLocalPostIntent, requireEqual. follow. Qed.
Lemma moves_insert_certified_record r o : moves evolves (insertCertifiedRecord r o).
Proof.
  unfold insertCertifiedRecord. apply moves_bind; [apply _|apply moves_certified|].
  intros _. apply moves_position; simpl; eauto.
Qed.
Lemma moves_dissemination c r : moves evolves (retainDisseminationInTransaction c r).
Proof. unfold retainDisseminationInTransaction, requireText. follow. Qed.
Lemma moves_enqueue m : moves evolves (enqueueOutboundInTransaction m).
Proof.
  unfold enqueueOutboundInTransaction, requireMessageIdAvailable, requireSameBytes, requireEqual.
  follow.
Qed.
Lemma moves_update_pending m f : moves evolves (updatePending m f).
Proof. apply moves_set_outbound. Qed.
#[local] Hint Resolve moves_bind_intent moves_retain_delivery moves_complete_intent
  moves_insert_certified_record moves_dissemination moves_enqueue 
  moves_update_pending : tx_moves.

Lemma moves_enqueue_dissemination c r m : moves evolves (enqueueDisseminationInTransaction c r m).
Proof. unfold enqueueDisseminationInTransaction, attachObligation, constraint. follow. Qed.
Lemma moves_begin i : moves evolves (beginInTransaction i).
Proof. unfold beginInTransaction, whenTx. follow. Qed.
Lemma moves_complete_outbound m : moves evolves (completeInTransaction m).
Proof. unfold completeInTransaction. follow. Qed.
Lemma moves_discard ms : moves evolves (discardInTransaction ms).
Proof. unfold discardInTransaction, discardRow, whenTx. follow. Qed.
Lemma moves_acknowledge t : moves evolves (acknowledgeInTransaction t).
Proof. unfold acknowledgeInTransaction. follow. Qed.
#[local] Hint Resolve moves_enqueue_dissemination moves_begin moves_complete_outbound moves_discard
  moves_acknowledge : tx_moves.

Lemma moves_merge F N e : moves (keeps F N) (mergeEvidenceInTransaction e).
Proof.
  unfold mergeEvidenceInTransaction. intros db m db' Hrun. tx.
  match goal with H : requireEvidenceSubject _ _ = _ |- _ =>
    apply requireEvidenceSubject_ok in H as (-> & Hstaged & Hown) end.
  case_match; tx; [by unfold requireSameBytes, requireEqual in *; tx|].
  by eapply keeps_insert_evidence.
Qed.

Lemma moves_merge_all F N l m : moves (keeps F N) (mergeAll l m).
Proof.
  revert m. induction l as [|e l IH]; intros m; simpl; [apply moves_ret, _|].
  apply moves_bind; [apply _|apply moves_merge|intros; apply IH].
Qed.
#[local] Hint Resolve moves_merge moves_merge_all : tx_moves.

Lemma moves_supersede F N l cert : moves (keeps F N) (supersedeInTransaction l cert).
Proof.
  unfold supersedeInTransaction, findProposalLock.
  intros db m db' Hrun. tx.
  match goal with H : (match ?x with _ => _ end) db = Succeed (_, ?d) |- _ =>
    assert (keeps F N db d) as Hrel; [clear - H|clear H] end.
  - case_match eqn:Hl; tx; [|done]. case_match; tx; [|done]. guards.
    eapply evolves_keeps, evolves_wf. intros Hwf. eapply evolves_release; [|eassumption].
    intros h a act (_ & _ & rh & r' & Hr & _ & _ & <-). right. intros Hact.
    match goal with H : hasStagedAction _ _ _ = false |- _ =>
      unfold hasStagedAction in H; rename H into Hnone end.
    guards. refine (map_Forall_lookup_1 _ _ _ _ Hnone Hr _). simpl.
    destruct (wf_staged _ Hwf _ _ Hr) as ([= Hc _] & _). split; congruence.
  - etrans; [exact Hrel|].
    match goal with H : lockProposalInTransaction _ _ = _ |- _ =>
      apply (moves_keeps _ F N (moves_lock l)) in H end.
    etrans; [eassumption|]. by eapply moves_merge_all.
Qed.

Lemma moves_promote F N r d t : moves (keeps F N) (promoteRecordInTransaction r d t).
Proof. unfold promoteRecordInTransaction, mergeCertifiedEvidence, requireEqual. follow. Qed.
#[local] Hint Resolve moves_supersede moves_promote : tx_moves.

Lemma moves_stage_reanchor r purpose : moves evolves (stageReanchorInTransaction r purpose).
Proof.
  unfold stageReanchorInTransaction, requireUnclaimedReanchorScope, requireReanchorPosition,
    requireNoStagedSuccessor, requireEqual. follow.
Qed.
#[local] Hint Resolve moves_stage_reanchor : tx_moves.


Lemma evolves_catch_up cr db m db' :
  (validateCompletedReanchor cr ;; retireSupersededCandidates (cr_staged cr) ;;
   staged ← stageReanchorInTransaction (cr_staged cr) Adopted;
   completed ← completeReanchorInTransaction cr;
   mret (either_inserted staged completed)) db = Succeed (m, db') -> evolves db db'.
Proof.
  unfold validateCompletedReanchor. intros Hrun. tx.
  match goal with H : validateStagedReanchor _ _ = _ |- _ => apply reads_validate_reanchor in H as -> end.
  match goal with H : retireSupersededCandidates _ _ = _ |- _ => rename H into Hretire end.
  match goal with H : stageReanchorInTransaction _ _ _ = _ |- _ => rename H into Hstage end.
  match goal with H : completeReanchorInTransaction _ _ = _ |- _ => rename H into Hcomplete end.
  unfold requireBytes in *. tx.
  etrans; [by eapply evolves_adopt|by eapply evolves_complete_reanchor].
Qed.

Lemma moves_restart expected replacement :
  moves evolves (validateEmptyConversationRestart expected replacement ;;
                 restartInTransaction expected replacement).
Proof.
  unfold validateEmptyConversationRestart. intros db x db' Hrun. tx.
  repeat match goal with H : validateFoundation _ _ = _ |- _ => apply reads_validate_foundation in H as -> end.
  unfold requireEqual, requireSameBytes, requireEqual in *. tx. guards.
  by eapply evolves_restart.
Qed.

Lemma moves_write_identity F N b :
  moves (keeps F N) (requireText (ib_agentId b) ;; requireBytes (ib_canonicalAgentCard b) ;;
    db ← gets id;
    match readStoredIdentity db with
    | Some held =>
      requireEqual (ib_agentId held) (ib_agentId b) ;;
      requireSameBytes (ib_canonicalAgentCard held) (ib_canonicalAgentCard b) ;;
      mret existing
    | None => modify (set_identity (Some b)) ;; mret inserted
    end).
Proof.
  unfold requireText, requireBytes, readStoredIdentity, requireSameBytes, requireEqual.
  intros db m db' Hrun. tx. case_match eqn:Hid; tx; [done|].
  intros [Hwf _ _ _]. rewrite (wf_identity _ Hwf) in Hid. done.
Qed.

Lemma moves_complete_reanchor cr : moves evolves (completeReanchorInTransaction cr).
Proof. intros db m db'. apply evolves_complete_reanchor. Qed.
#[local] Hint Resolve moves_complete_reanchor : tx_moves.

Lemma perform_keeps F N operation db : keeps F N db (perform operation db).2.
Proof.
  destruct operation; cbv beta iota delta [perform]; try (apply (perform_transaction (keeps F N))).
  - apply moves_write_identity.
  - unfold validatePostIntentBinding, requireText, requireBytes, requireEqual. follow.
  - follow.
  - follow.
  - follow.
  - follow.
  - follow.
  - follow.
  - follow.
  - follow.
  - follow.
  - unfold validateCompletedReanchor, requireBytes. follow.
  - intros db0 m db' Hrun%evolves_catch_up. by apply evolves_keeps.
  - unfold acknowledgeDelivery. case_match; [|done].
    apply (perform_transaction (keeps F N)). follow.
  - follow.
  - unfold requireText, requireEqual. follow.
  - unfold requireText. follow.
  - follow.
  - follow.
  - apply moves_keeps, moves_restart.
Qed.


Lemma holds_run F N operations db : holds F N db -> holds F N (runOperations operations db).
Proof. apply runOperations_ind. intros operation db0. apply perform_keeps. Qed.

Lemma holds_bound :
  holds (fun _ _ _ _ => False) (fun _ _ _ => False) (boundStore identity).
Proof.
  constructor; [constructor|..]; simpl.
  - done.
  - intros k r Hr. by rewrite lookup_empty in Hr.
  - intros c k l Hl. by rewrite lookup_empty in Hl.
  - intros c rh key [b Hb]. by rewrite lookup_empty in Hb.
  - intros c rh r h [[b Hb] _]. simpl in Hb. by rewrite lookup_empty in Hb.
  - done.
  - done.
Qed.

(** The states of a history, by what was voted in them. *)
Definition votedIn (db : Database) (c h a act : string) : Prop :=
  exists rh r, voted db c rh r /\ sr_previousRecordHash r = Some h /\ sr_anchorHash r = a /\
    sr_actionHash r = act.

Lemma spoken_votedIn F N db c h a act : holds F N db -> votedIn db c h a act -> spoken db c h a act.
Proof. intros Hh (rh & r & Hv & Hp & <- & <-). by eapply holds_voted. Qed.

Lemma holds_more F N db : holds F N db -> holds (votedIn db) N db.
Proof.
  intros Hh. pose proof Hh as [? ? ? ?]. constructor; [done..| |done].
  intros c h a act Hv. by eapply spoken_votedIn.
Qed.

(** C9: However the store is driven, this endpoint's durability votes that
    extend one record under one Router anchor are all for one action: a vote
    durable at any moment of a history and a vote durable at any later moment
    agree, whatever was locked, superseded, released, certified or re-anchored
    between them. *)
Theorem votes_one_successor ops1 ops2 c h rh1 r1 rh2 r2 :
  let db1 := runOperations ops1 (boundStore identity) in
  let db2 := runOperations ops2 db1 in
  voted db1 c rh1 r1 -> voted db2 c rh2 r2 ->
  sr_previousRecordHash r1 = Some h -> sr_previousRecordHash r2 = Some h ->
  sr_anchorHash r1 = sr_anchorHash r2 ->
  sr_actionHash r1 = sr_actionHash r2.
Proof.
  intros db1 db2 Hv1 Hv2 Hp1 Hp2 Ha.
  assert (holds (votedIn db1) (fun _ _ _ => False) db2) as Hh.
  { apply holds_run. eapply holds_more, holds_run, holds_bound. }
  destruct (holds_spoken _ _ _ Hh c h (sr_anchorHash r1) (sr_actionHash r1)) as [_ Hall].
  { by exists rh1, r1. }
  symmetry. by eapply Hall.
Qed.

Lemma stageReanchor_inserted ra db db' :
  stageReanchor ra db = (Succeed inserted, db') ->
  (forall k r, staged_records db !! k = Some r ->
     ~ (sr_conversationId r = ra_conversationId ra /\
        sr_anchorHash r = ra_previousAnchorHash ra /\
        sr_previousRecordHash r = Some (ra_selectedRecordHash ra))) /\
  (exists p, conversation_state db !! ra_conversationId ra = Some p /\
     ip_currentAnchorHash p = ra_previousAnchorHash ra /\
     ip_headRecordHash p = Some (ra_selectedRecordHash ra)) /\
  db' = set_reanchors (fun l => (l ++ [mkRecoveredReanchor ra None])%list) db.
Proof.
  unfold stageReanchor. intros Hrun.
  match type of Hrun with transaction ?m _ = _ =>
    destruct (transaction_cases m db) as [(x & d & Hop & Ht)|(e & _ & Ht)];
      rewrite Ht in Hrun; simplify_eq end.
  unfold validateStagedReanchor, requireText, requireBytes, stageReanchorInTransaction,
    requireUnclaimedReanchorScope, insert_reanchor, constraint in Hop. cbn match in Hop. tx.
  case_match; tx.
  match goal with H : requireReanchorPosition _ _ = _ |- _ =>
    apply requireReanchorPosition_ok in H as [-> Hpos] end.
  match goal with H : requireNoStagedSuccessor _ _ = _ |- _ => rename H into Hno end.
  unfold requireNoStagedSuccessor in Hno. tx. guards. by split_and!.
Qed.

(** No vote held when a candidate is staged for this endpoint's vote extends
    the head it leaves. *)
Lemma staged_not_voted F N ra db db' : holds F N db -> stageReanchor ra db = (Succeed inserted, db') ->
  forall rh r, voted db (ra_conversationId ra) rh r ->
    sr_previousRecordHash r = Some (ra_selectedRecordHash ra) ->
    sr_anchorHash r <> ra_previousAnchorHash ra.
Proof.
  intros Hh Hstage. destruct (stageReanchor_inserted _ _ _ Hstage) as (Hno & Hpos & _).
  destruct Hpos as (p & Hp & Hcur & Hhead). intros rh r Hv Hp' Ha'.
  destruct (holds_voted _ _ _ Hh _ _ _ _ Hv Hp') as [[(_ & _ & rh0 & r0 & Hr0 & ? & ? & _)|(p' & Hp0 & _ & Hne & _)] _].
  - apply (Hno _ _ Hr0).
    destruct (wf_staged _ (holds_wf _ _ _ Hh) _ _ Hr0) as ([= ? _] & _). split_and!; congruence.
  - congruence.
Qed.

Lemma staged_leaving F N ra db db' : holds F N db -> stageReanchor ra db = (Succeed inserted, db') ->
  leaving db' (ra_conversationId ra) (ra_selectedRecordHash ra) (ra_previousAnchorHash ra).
Proof.
  intros Hh Hstage. pose proof (staged_not_voted _ _ _ _ _ Hh Hstage) as Hnone.
  destruct (stageReanchor_inserted _ _ _ Hstage) as (_ & (p & Hp & _ & Hhead) & ->). split_and!.
  - exists p. simpl. rewrite Hhead. eauto.
  - exists (mkRecoveredReanchor ra None). simpl. set_solver.
  - intros rh r [Hev Hr]. apply (Hnone rh). by split.
Qed.

(** Nor was any of its votes to extend that head spoken for. *)
Lemma staged_not_protected F N ra db db' act :
  holds F N db -> stageReanchor ra db = (Succeed inserted, db') ->
  ~ protected db (ra_conversationId ra) (ra_selectedRecordHash ra) (ra_previousAnchorHash ra) act.
Proof.
  intros Hh Hstage. destruct (stageReanchor_inserted _ _ _ Hstage) as (Hno & Hpos & _).
  destruct Hpos as (p & Hp & Hcur & Hhead).
  intros [(_ & _ & rh0 & r0 & Hr0 & ? & ? & _)|(p' & Hp0 & _ & Hne & _)]; [|congruence].
  apply (Hno _ _ Hr0).
  destruct (wf_staged _ (holds_wf _ _ _ Hh) _ _ Hr0) as ([= ? _] & _). split_and!; congruence.
Qed.

(** This endpoint never both votes a record durable and, by a candidate it
    stages for its own vote, re-anchors away from the head that record
    extends: at no moment before or after staging such a candidate does it
    hold a vote for a record that extends the candidate's head under the
    candidate's previous anchor. *)
Theorem vote_excludes_reanchor ops1 ra db2 ops2 rh r :
  let db1 := runOperations ops1 (boundStore identity) in
  stageReanchor ra db1 = (Succeed inserted, db2) ->
  voted db1 (ra_conversationId ra) rh r \/
  voted (runOperations ops2 db2) (ra_conversationId ra) rh r ->
  sr_previousRecordHash r = Some (ra_selectedRecordHash ra) ->
  sr_anchorHash r <> ra_previousAnchorHash ra.
Proof.
  intros db1 Hstage Hv Hprev.
  pose proof (holds_run _ _ ops1 _ holds_bound) as Hh. fold db1 in Hh.
  destruct Hv as [Hv|Hv]; [by eapply staged_not_voted|].
  assert (holds (fun _ _ _ _ => False)
            (fun c h a => c = ra_conversationId ra /\ h = ra_selectedRecordHash ra /\
                          a = ra_previousAnchorHash ra) (runOperations ops2 db2)) as Hh2.
  { apply holds_run. assert (holds (fun _ _ _ _ => False) (fun _ _ _ => False) db2) as [? ? ? ?].
    { replace db2 with (perform (StageReanchor ra) db1).2 by (simpl; by rewrite Hstage).
      by apply perform_keeps. }
    constructor; [done..|]. intros c h a (-> & -> & ->). by eapply staged_leaving. }
  destruct (holds_leaving _ _ _ Hh2 _ _ _ (conj eq_refl (conj eq_refl eq_refl))) as (_ & _ & Hnov).
  by eapply Hnov.
Qed.

End votes.

(** ** The theorems on the concrete history *)

Module Runs := EndpointStore.StoreRuns.
#[local] Existing Instance Hosts.Hosts.base64url.

Lemma second_voted :
  voted Runs.identity
    (runOperations (Runs.first_record ++ Runs.second_vote) (boundStore Runs.identity))
    "c" "record 2" Runs.record2.
Proof. split; [eexists|]; vm_compute; reflexivity. Qed.

Lemma still_voted :
  voted Runs.identity
    (runOperations Runs.second_record
       (runOperations (Runs.first_record ++ Runs.second_vote) (boundStore Runs.identity)))
    "c" "record 2" Runs.record2.
Proof. split; [eexists|]; vm_compute; reflexivity. Qed.

Lemma votes_one_successor_witness :
  sr_previousRecordHash Runs.record2 = Some "record 1" /\
  sr_actionHash Runs.record2 = sr_actionHash Runs.record2.
Proof.
  split; [reflexivity|].
  exact (votes_one_successor Runs.identity (Runs.first_record ++ Runs.second_vote)
    Runs.second_record "c" "record 1" "record 2" Runs.record2 "record 2" Runs.record2
    second_voted still_voted eq_refl eq_refl eq_refl).
Defined.

#[local] Notation before_candidate :=
  (runOperations (Runs.first_record ++ Runs.second_vote ++ Runs.second_record)
    (boundStore Runs.identity)).

Lemma candidate_inserted :
  stageReanchor Runs.candidate before_candidate =
  (Succeed inserted, (stageReanchor Runs.candidate before_candidate).2).
Proof.
  assert ((stageReanchor Runs.candidate before_candidate).1 = Succeed inserted) as <-
    by (vm_compute; reflexivity).
  apply surjective_pairing.
Qed.

Lemma first_voted : voted Runs.identity before_candidate "c" "record 1" Runs.record1.
Proof. split; [eexists|]; vm_compute; reflexivity. Qed.

Lemma vote_excludes_reanchor_witness :
  (stageReanchor Runs.candidate before_candidate).1 = Succeed inserted /\
  sr_previousRecordHash Runs.record1 <> Some "record 2".
Proof.
  split; [rewrite candidate_inserted; reflexivity|]. intros Hp.
  exact (vote_excludes_reanchor Runs.identity
    (Runs.first_record ++ Runs.second_vote ++ Runs.second_record) Runs.candidate _ []
    "record 1" Runs.record1 candidate_inserted (or_introl first_voted) Hp eq_refl).
Defined.

End StoreVotes.
