(* ===== verification/StoreScopes.v ===== *)
(** StoreScopes: the endpoint store keeps one re-anchor candidate for each
    scope (a conversation, the anchor it leaves and a Router instance).

    A candidate staged in a scope stays the scope's candidate until the
    conversation leaves the anchor for good: it is replaced only by a completed
    re-anchor of the same scope, which moves the conversation on in the same
    transaction. *)
From S2P Require Import Prelude JsMap Identifiers StoredHistory StoreDatabase StoreQueues.
From S2P Require Import StoreRecords StoreAnchors EndpointStore StoreVotes.
Local Open Scope string_scope.

Module StoreScopes.
Import StoreDatabase StoreRows StoreQueues StoreRecords StoreAnchors EndpointStore StoreReads.
Import StoreVotes.

(** ** Operations that touch no candidate *)

(** The candidates stay, and the anchors are joined by foundations alone. *)
Definition onlyFounds (db db' : Database) : Prop :=
  reanchors db' = reanchors db /\
  (forall a, a ∈ anchors db -> a ∈ anchors db') /\
  forall a, a ∈ anchors db' -> a ∈ anchors db \/ sa_previousAnchorHash a = None.

#[global] Instance onlyFounds_preorder : PreOrder onlyFounds.
Proof.
  unfold onlyFounds. split; [naive_solver|]. intros ??? (-> & ? & ?) (-> & ? & H3).
  split_and!; [done|auto|]. intros a [|]%H3; auto.
Qed.

Lemma founds_modify f : (forall db, reanchors (f db) = reanchors db) ->
  (forall db, anchors (f db) = anchors db) -> moves onlyFounds (modify f).
Proof.
  intros Hr Ha. apply moves_modify. intros db. unfold onlyFounds. rewrite Hr, Ha. naive_solver.
Qed.
Ltac other := follow; apply founds_modify; by intros [].

Lemma founds_membership m : moves onlyFounds (insert_membership m).
Proof. unfold insert_membership, constraint. other. Qed.
Lemma founds_position c p : moves onlyFounds (insert_position c p).
Proof. unfold insert_position, constraint. other. Qed.
Lemma founds_update c f : moves onlyFounds (update_position c f).
Proof. unfold update_position, constraint. other. Qed.
Lemma founds_lock k l : moves onlyFounds (insert_lock k l).
Proof. unfold insert_lock, constraint. other. Qed.
Lemma founds_staged r : moves onlyFounds (insert_staged r).
Proof. unfold insert_staged, constraint. other. Qed.
Lemma founds_evidence e : moves onlyFounds (insert_evidence e).
Proof. unfold insert_evidence, constraint. other. Qed.
Lemma founds_certified c r o : moves onlyFounds (insert_certified c r o).
Proof. unfold insert_certified, constraint. other. Qed.
Lemma founds_delivery d : moves onlyFounds (insert_delivery d).
Proof. unfold insert_delivery, constraint. other. Qed.
Lemma founds_outbound o : moves onlyFounds (insert_outbound o).
Proof. unfold insert_outbound, constraint. other. Qed.
Lemma founds_obligation d : moves onlyFounds (insert_obligation d).
Proof. unfold insert_obligation, constraint. other. Qed.
Lemma founds_post_intent i : moves onlyFounds (insert_post_intent i).
Proof. unfold insert_post_intent, constraint. other. Qed.
Lemma founds_delete_staged P : moves onlyFounds (delete_staged P).
Proof. unfold delete_staged, constraint. other. Qed.
Lemma founds_delete_obligations P : moves onlyFounds (delete_obligations P).
Proof. unfold delete_obligations. other. Qed.
Lemma founds_delete_evidence P : moves onlyFounds (delete_evidence P).
Proof. unfold delete_evidence. other. Qed.
Lemma founds_delete_locks P : moves onlyFounds (delete_locks P).
Proof. unfold delete_locks. other. Qed.
Lemma founds_identity i : moves onlyFounds (modify (set_identity i)).
Proof. other. Qed.
Lemma founds_intents f : moves onlyFounds (modify (set_post_intents f)).
Proof. other. Qed.
Lemma founds_deliveries f : moves onlyFounds (modify (set_deliveries f)).
Proof. other. Qed.
Lemma founds_set_outbound f : moves onlyFounds (modify (set_outbound f)).
Proof. other. Qed.
Lemma founds_obligations f : moves onlyFounds (modify (set_obligations f)).
Proof. other. Qed.
Lemma founds_foundation_anchor a :
  sa_previousAnchorHash a = None -> moves onlyFounds (insert_anchor a).
Proof.
  intros Hn. unfold insert_anchor, constraint. follow. apply moves_modify. intros db.
  split_and!; [done|set_solver|]. simpl. intros b [Hb| ->%list_elem_of_singleton]%elem_of_app; auto.
Qed.
Lemma founds_mint l f : moves eq (mintFrom l f).
Proof. induction l as [|x l IH]; simpl; follow. Qed.
#[local] Hint Resolve founds_mint : tx_reads.
#[local] Hint Resolve founds_membership founds_position founds_update founds_lock founds_staged
  founds_evidence founds_certified founds_delivery founds_outbound founds_obligation
  founds_post_intent founds_delete_staged founds_delete_obligations founds_delete_evidence
  founds_delete_locks founds_identity founds_intents founds_deliveries founds_set_outbound
  founds_obligations founds_foundation_anchor : tx_moves.

Lemma founds_merge e : moves onlyFounds (mergeEvidenceInTransaction e).
Proof.
  unfold mergeEvidenceInTransaction, requireEvidenceSubject, requireMembership,
    requireLocalEvidenceLock, requireLocalDurabilityEvidenceLock, requireNoReanchorAwayFrom,
    requireSameBytes, requireEqual. follow.
Qed.
Lemma founds_foundation f : moves onlyFounds (putConversationFoundationInTransaction f).
Proof. unfold putConversationFoundationInTransaction, insertFoundation. follow. Qed.
Lemma founds_retain_delivery r d t : moves onlyFounds (retainDeliveryInTransaction r d t).
Proof.
  unfold retainDeliveryInTransaction, mintDeliveryToken, requireText, requireBytes,
    requireSameBytes, requireEqual. follow.
Qed.
Lemma founds_stage r p : moves onlyFounds (stageRecordInTransaction r p).
Proof.
  unfold stageRecordInTransaction, requireRecordPosition, requireNoReanchorAwayFrom, requireEqual.
  follow.
Qed.
Lemma founds_enqueue m : moves onlyFounds (enqueueOutboundInTransaction m).
Proof.
  unfold enqueueOutboundInTransaction, requireMessageIdAvailable, requireSameBytes, requireEqual.
  follow.
Qed.
Lemma founds_release l : moves onlyFounds (releaseProposalLock l).
Proof. unfold releaseProposalLock. follow. Qed.
Lemma founds_lock_tx l : moves onlyFounds (lockProposalInTransaction l).
Proof. unfold lockProposalInTransaction, requireEqual. follow. Qed.
Lemma founds_dissemination c r : moves onlyFounds (retainDisseminationInTransaction c r).
Proof. unfold retainDisseminationInTransaction, requireText. follow. Qed.
#[local] Hint Resolve founds_merge founds_foundation founds_retain_delivery founds_stage
  founds_enqueue founds_release founds_lock_tx founds_dissemination : tx_moves.
Lemma founds_merge_all l m : moves onlyFounds (mergeAll l m).
Proof. revert m. induction l as [|e l IH]; intros m; simpl; follow. Qed.
#[local] Hint Resolve founds_merge_all : tx_moves.
Lemma founds_promote r d t : moves onlyFounds (promoteRecordInTransaction r d t).
Proof.
  unfold promoteRecordInTransaction, mergeCertifiedEvidence, completeLocalPostIntent,
    insertCertifiedRecord, requireEqual. follow.
Qed.
Lemma founds_supersede l c : moves onlyFounds (supersedeInTransaction l c).
Proof. unfold supersedeInTransaction. follow. Qed.
Lemma founds_bind b : moves onlyFounds (bindIntentWithFoundation b).
Proof.
  unfold bindIntentWithFoundation, requireConversationFoundation, bindPostIntentInTransaction,
    requireSameBytes, requireEqual. follow.
Qed.
#[local] Hint Resolve founds_promote founds_supersede founds_bind : tx_moves.

(** The operations that do touch candidates. *)
Definition reanchoring (operation : StoreOperation) : bool :=
  match operation with
  | StageReanchor _ | CompleteReanchor _ | ApplyCatchUpReanchor _ | RestartEmptyConversation _ _ => true
  | _ => false
  end.

Lemma perform_onlyFounds `{Base64Url} operation db : reanchoring operation = false ->
  onlyFounds db (perform operation db).2.
Proof.
  destruct operation; cbv beta iota delta [perform reanchoring]; intros Hr; try done;
    try (apply (perform_transaction onlyFounds);
         solve [unfold requireText, requireBytes, requireSameBytes,
           requireEqual, validatePostIntentBinding; follow]).
  - unfold acknowledgeDelivery. case_match; [|done]. apply (perform_transaction onlyFounds).
    unfold acknowledgeInTransaction. follow.
  - apply (perform_transaction onlyFounds). unfold requireText, beginInTransaction, whenTx. follow.
  - apply (perform_transaction onlyFounds).
    unfold discardInTransaction, discardRow, whenTx. follow.
Qed.

(** ** The invariant *)

Definition rowConversation (r : RecoveredReanchor) : string := ra_conversationId (rr_staged r).
Definition rowAnchor (r : RecoveredReanchor) : string := ra_anchorHash (rr_staged r).

(** Two candidates that the schema keeps apart. *)
Definition collides (left right : StagedReanchor) : Prop :=
  ra_conversationId left = ra_conversationId right /\
  (ra_anchorHash left = ra_anchorHash right \/
   ra_previousAnchorHash left = ra_previousAnchorHash right /\
   ra_routerInstanceId left = ra_routerInstanceId right).

(** The conversation's founding anchor has this hash. *)
Definition founding (db : Database) (c h : string) : Prop :=
  exists a, a ∈ anchors db /\ sa_conversationId a = c /\ sa_anchorHash a = h /\
    sa_previousAnchorHash a = None.

Record scopes (db : Database) : Prop := {
  sc_one : forall r1 r2, r1 ∈ reanchors db -> r2 ∈ reanchors db ->
    collides (rr_staged r1) (rr_staged r2) -> r1 = r2;
  sc_left : forall r, r ∈ reanchors db ->
    hasAnchor db (rowConversation r) (ra_previousAnchorHash (rr_staged r)) = true;
  sc_done : forall a p, a ∈ anchors db -> sa_previousAnchorHash a = Some p ->
    exists r, r ∈ reanchors db /\ rowConversation r = sa_conversationId a /\
      rowAnchor r = sa_anchorHash a /\ rr_canonicalCompletedReanchor r <> None;
  sc_head : forall r, r ∈ reanchors db -> headSome db (rowConversation r);
}.

(** The scope's candidate is the one for [h], or the scope's anchor has been
    left for good, or the candidate collides with the founding anchor. *)
Definition claimed (db : Database) (c p i h : string) : Prop :=
  exists r, r ∈ reanchors db /\ inScope c p i r /\
    (rowAnchor r = h \/ leftAnchor db c p \/ founding db c (rowAnchor r)).

Section scopes.
Context `{Base64Url} (identity : IdentityBinding).

(** ** What votes already show to persist *)

Lemma fresh_head (db : Database) : exists h, forall k r,
  staged_records db !! k = Some r -> sr_previousRecordHash r <> Some h.
Proof.
  exists (fresh (omap sr_previousRecordHash (map_to_list (staged_records db)).*2)).
  intros k r Hk%elem_of_map_to_list Hprev.
  eapply (infinite_is_fresh (omap sr_previousRecordHash (map_to_list (staged_records db)).*2)).
  apply list_elem_of_omap. exists r. split; [|done]. apply list_elem_of_fmap. by exists (k, r).
Qed.

Lemma away_persists F N operation db c a : holds identity F N db ->
  headSome db c -> awayFrom db c a ->
  headSome (perform operation db).2 c /\ awayFrom (perform operation db).2 c a.
Proof.
  intros [Hwf Hv _ _] Hh Ha. destruct (fresh_head db) as [h Hfresh].
  assert (holds identity (fun _ _ _ _ => False) (fun c' h' a' => c' = c /\ h' = h /\ a' = a) db)
    as Hholds.
  { constructor; [done..|]. intros c' h' a' (-> & -> & ->). split_and!; [done..|].
    intros rh r [_ Hr] Hprev. by destruct (Hfresh _ _ Hr). }
  apply (perform_keeps identity _ _ operation) in Hholds.
  by destruct (holds_leaving _ _ _ _ Hholds c h a) as (? & ? & _).
Qed.

Lemma left_persists F N operation db c a : holds identity F N db ->
  leftAnchor db c a -> leftAnchor (perform operation db).2 c a.
Proof.
  intros [Hwf Hv _ _] Hleft. destruct (fresh_head db) as [h Hfresh].
  assert (holds identity (fun c' h' a' _ => c' = c /\ h' = h /\ a' = a) (fun _ _ _ => False) db)
    as Hholds.
  { constructor; [done..| |done]. intros c' h' a' act (-> & -> & ->). split; [by right|].
    intros rh r [_ Hr] Hprev. by destruct (Hfresh _ _ Hr). }
  apply (perform_keeps identity _ _ operation) in Hholds.
  destruct (holds_spoken _ _ _ _ Hholds c h a "1") as [[(_ & (l1 & Hl1 & E1) & _)|?] _]; [done| |done].
  destruct (holds_spoken _ _ _ _ Hholds c h a "2") as [[(_ & (l2 & Hl2 & E2) & _)|?] _]; [done| |done].
  congruence.
Qed.

(** ** What the transactions of a re-anchor do to the rows *)

Definition positionedAt (db : Database) (r : StagedReanchor) : Prop :=
  exists p, conversation_state db !! ra_conversationId r = Some p /\
    ip_currentAnchorHash p = ra_previousAnchorHash r /\
    ip_headRecordHash p = Some (ra_selectedRecordHash r).

Lemma stageTx_effect r purpose db m db' :
  stageReanchorInTransaction r purpose db = Succeed (m, db') ->
  (db' = db /\ exists row, row ∈ reanchors db /\ rr_staged row = r) \/
  (db' = set_reanchors (fun l => (l ++ [mkRecoveredReanchor r None])%list) db /\ positionedAt db r /\
   hasAnchor db (ra_conversationId r) (ra_previousAnchorHash r) = true /\
   forall row, row ∈ reanchors db -> ~ collides (rr_staged row) r).
Proof.
  unfold stageReanchorInTransaction, requireUnclaimedReanchorScope, requireNoStagedSuccessor,
    insert_reanchor, constraint. intros Hrun. tx. case_match eqn:Hf; tx.
  - match goal with H : requireSameReanchor _ _ _ = _ |- _ =>
      apply requireSameReanchor_ok in H as [-> ->] end.
    apply findStagedReanchor_some in Hf as (row & ? & ? & _). left. split; [done|]. by exists row.
  - match goal with H : requireReanchorPosition _ _ = _ |- _ =>
      apply requireReanchorPosition_ok in H as (-> & Hpos) end.
    right. destruct purpose; tx; guards; (split_and!; [done..|]); intros row Hrow Hcol;
      match goal with H : forallb _ _ = true |- _ => rewrite forallb_forall in H;
        specialize (H row (proj1 (list_elem_of_In _ _) Hrow)); guards; destruct H end;
      unfold collides in Hcol; naive_solver.
Qed.

Lemma completeTx_effect cr db m db' :
  completeReanchorInTransaction cr db = Succeed (m, db') ->
  let r := cr_staged cr in
  (exists row, row ∈ reanchors db /\ rr_staged row = r) /\
  (db' = db /\ hasAnchor db (ra_conversationId r) (ra_anchorHash r) = true \/
   positionedAt db r /\ hasAnchor db (ra_conversationId r) (ra_anchorHash r) = false /\
   reanchors db' = completeRow cr <$> reanchors db /\
   anchors db' = (anchors db ++ [mkStoredAnchor (ra_conversationId r) (ra_anchorHash r)
     (Some (ra_previousAnchorHash r)) (Some (ra_selectedRecordHash r))
     (cr_canonicalCompletedReanchor cr)])%list /\
   conversation_state db' = alter (fun p => mkInternalPosition (ip_membershipHash p)
     (ra_anchorHash r) (ip_headRecordHash p) (ip_headOrdinal p)) (ra_conversationId r)
     (conversation_state db)).
Proof.
  unfold completeReanchorInTransaction, insertCompletedReanchor, insert_anchor, update_position,
    releaseSupersededProposal, constraint. intros Hrun. tx. case_match eqn:Hf; tx.
  match goal with H : requireSameReanchor _ _ _ = _ |- _ =>
    apply requireSameReanchor_ok in H as [-> ->] end.
  apply findStagedReanchor_some in Hf as (row & ? & ? & _). split; [by exists row|].
  case_match eqn:Ha; tx; [by left|]. right.
  match goal with H : requireReanchorPosition _ _ = _ |- _ =>
    apply requireReanchorPosition_ok in H as (-> & Hpos) end.
  match goal with |- _ /\ _ /\ ?G => assert G; [|done] end.
  case_match; tx; [|done].
  match goal with H : releaseProposalLock _ _ = _ |- _ =>
    apply release_effect in H as (_ & -> & -> & -> & _) end. done.
Qed.

Lemma hasAnchor_grow db db' c h :
  (forall a, a ∈ anchors db -> a ∈ anchors db') -> hasAnchor db c h = true -> hasAnchor db' c h = true.
Proof. intros Hs (a & ? & ?)%hasAnchor_spec. apply hasAnchor_spec. exists a. auto. Qed.

Lemma scopes_append r db : scopes db -> positionedAt db r ->
  hasAnchor db (ra_conversationId r) (ra_previousAnchorHash r) = true ->
  (forall row, row ∈ reanchors db -> ~ collides (rr_staged row) r) ->
  scopes (set_reanchors (fun l => (l ++ [mkRecoveredReanchor r None])%list) db).
Proof.
  intros [Hone Hleft Hdone Hhead] (p & Hp & _ & Hs) Ha Hno.
  constructor; simpl.
  - intros r1 r2 [H1|H1]%elem_of_app [H2|H2]%elem_of_app Hcol; [by apply Hone| | |set_solver].
    + apply list_elem_of_singleton in H2 as ->. by destruct (Hno _ H1).
    + apply list_elem_of_singleton in H1 as ->. destruct (Hno _ H2). unfold collides in *. naive_solver.
  - intros row [Hrow| ->%list_elem_of_singleton]%elem_of_app; [by apply Hleft|done].
  - intros a q Hin Hq. destruct (Hdone a q Hin Hq) as (row & ? & ?). exists row. split; [set_solver|done].
  - intros row [Hrow| ->%list_elem_of_singleton]%elem_of_app; [by apply Hhead|]. exists p.
    split; [done|]. by rewrite Hs.
Qed.

Lemma completeRow_staged cr row : rr_staged (completeRow cr row) = rr_staged row.
Proof. unfold completeRow. by case_bool_decide. Qed.

(** A completed re-anchor leaves its previous anchor for good. *)
Lemma scopes_complete cr db m db' : scopes db ->
  completeReanchorInTransaction cr db = Succeed (m, db') -> scopes db' /\
  (hasAnchor db (ra_conversationId (cr_staged cr)) (ra_anchorHash (cr_staged cr)) = true \/
   leftAnchor db' (ra_conversationId (cr_staged cr)) (ra_previousAnchorHash (cr_staged cr))).
Proof.
  intros Hsc Hrun. apply completeTx_effect in Hrun as [(row & Hrow & Hst) Heff].
  destruct Heff as [[-> ?]|((p & Hp & Hcur & Hh) & Hnew & Hr & Ha & Hs)]; [by split; [|left]|].
  destruct Hsc as [Hone Hleft Hdone Hhead]. set (r := cr_staged cr) in *.
  assert (forall a, a ∈ anchors db -> a ∈ anchors db') as Hgrow by (rewrite Ha; set_solver).
  assert (exists q, conversation_state db' !! ra_conversationId r = Some q /\
    ip_currentAnchorHash q = ra_anchorHash r /\ is_Some (ip_headRecordHash q)) as (q & Hq & Hqc & Hqh).
  { rewrite Hs, lookup_alter_eq, Hp. simpl. eexists. split; [done|]. simpl. by rewrite Hh. }
  split.
  - constructor.
    + rewrite Hr. intros r1 r2 (x & -> & H1)%list_elem_of_fmap (y & -> & H2)%list_elem_of_fmap.
      rewrite !completeRow_staged. intros Hcol. by rewrite (Hone x y).
    + rewrite Hr. intros r1 (x & -> & H1)%list_elem_of_fmap. unfold rowConversation.
      rewrite completeRow_staged. by eapply hasAnchor_grow, Hleft.
    + rewrite Hr, Ha. intros a q0 [Hin| ->%list_elem_of_singleton]%elem_of_app; simpl; intros Hq0.
      * destruct (Hdone a q0 Hin Hq0) as (x & Hx & Hxc & Hxh & Hxd). exists (completeRow cr x).
        unfold rowConversation, rowAnchor in *. rewrite completeRow_staged. split_and!; [|done..|].
        -- apply list_elem_of_fmap. by exists x.
        -- unfold completeRow. by case_bool_decide.
      * exists (completeRow cr row). unfold rowConversation, rowAnchor.
        rewrite completeRow_staged, Hst. split_and!; [|done..|].
        -- apply list_elem_of_fmap. by exists row.
        -- unfold completeRow. rewrite Hst, bool_decide_eq_true_2; done.
    + rewrite Hr. intros r1 (x & -> & H1)%list_elem_of_fmap. unfold rowConversation.
      rewrite completeRow_staged. destruct (Hhead x H1) as (px & Hpx & Hs').
      unfold headSome. rewrite Hs. unfold rowConversation in Hpx.
      destruct (decide (ra_conversationId (rr_staged x) = ra_conversationId r)) as [->|Hne].
      * rewrite lookup_alter_eq, Hp. simpl. eexists. split; [done|]. simpl. by rewrite Hh.
      * rewrite lookup_alter_ne by done. by exists px.
  - right. pose proof (Hleft row Hrow) as Hl. unfold rowConversation in Hl. rewrite Hst in Hl.
    exists q. split_and!; [done|done| |by eapply hasAnchor_grow|].
    + intros Heq. rewrite Hqc in Heq. rewrite Heq in Hnew. congruence.
    + exists (completeRow cr row). rewrite Hr, completeRow_staged, Hst. split_and!; [|done..].
      apply list_elem_of_fmap. by exists row.
Qed.

End scopes.

(** ** A completed re-anchor that is adopted *)

Lemma retire_effect ra db u db1 :
  retireSupersededCandidates ra db = Succeed (u, db1) ->
  reanchors db1 = filter (fun r => superseded ra r = false) (reanchors db) /\
  anchors db1 = anchors db /\ conversation_state db1 = conversation_state db.
Proof.
  unfold retireSupersededCandidates, delete_reanchors. intros Hrun. tx. simpl.
  set (sameRest (d d' : Database) := reanchors d' = reanchors d /\ anchors d' = anchors d /\
    conversation_state d' = conversation_state d).
  assert (PreOrder sameRest) as Hpre.
  { split; [by intros ?|]. intros ??? (? & ? & ?) (? & ? & ?). split_and!; congruence. }
  match goal with H : forTx _ _ _ = _ |- _ => apply (moves_forTx sameRest) in H;
    [|intros; by apply moves_modify; intros []] end.
  match goal with H : sameRest _ _ |- _ => destruct H as (-> & -> & ->) end. done.
Qed.

Lemma scopes_retire ra db u db1 :
  retireSupersededCandidates ra db = Succeed (u, db1) -> scopes db -> scopes db1.
Proof.
  intros (Hr & Ha & Hs)%retire_effect [Hone Hleft Hdone Hhead].
  assert (forall r, r ∈ reanchors db1 -> r ∈ reanchors db) as Hsub.
  { rewrite Hr. by intros r [_ ?]%list_elem_of_filter. }
  constructor.
  - intros r1 r2 H1 H2. by apply Hone; apply Hsub.
  - intros r H1. unfold hasAnchor. rewrite Ha. by apply Hleft, Hsub.
  - rewrite Ha, Hr. intros a p Hin Hp. destruct (Hdone a p Hin Hp) as (r & Hrow & Hc & Hh & Hd).
    exists r. split_and!; [|done..]. apply list_elem_of_filter. split; [|done].
    unfold superseded. apply bool_decide_eq_false. by intros (_ & _ & ?).
  - intros r H1. unfold headSome. rewrite Hs. by apply Hhead, Hsub.
Qed.

(** What becomes of the candidates when a completed re-anchor is adopted: a
    candidate stays, or the adopted one takes its scope. *)
Lemma catchUp_effect cr db m db' : scopes db ->
  (validateCompletedReanchor cr ;; retireSupersededCandidates (cr_staged cr) ;;
   staged ← stageReanchorInTransaction (cr_staged cr) Adopted;
   completed ← completeReanchorInTransaction cr;
   mret (either_inserted staged completed)) db = Succeed (m, db') ->
  scopes db' /\
  (forall row, row ∈ reanchors db ->
    (exists row', row' ∈ reanchors db' /\ rr_staged row' = rr_staged row) \/
    inScope (ra_conversationId (cr_staged cr)) (ra_previousAnchorHash (cr_staged cr))
      (ra_routerInstanceId (cr_staged cr)) row /\
    exists row', row' ∈ reanchors db' /\ rr_staged row' = cr_staged cr /\
      (leftAnchor db' (ra_conversationId (cr_staged cr)) (ra_previousAnchorHash (cr_staged cr)) \/
       founding db' (ra_conversationId (cr_staged cr)) (ra_anchorHash (cr_staged cr)))) /\
  (forall row', row' ∈ reanchors db' ->
    (exists row, row ∈ reanchors db /\ rr_staged row = rr_staged row') \/
    rr_staged row' = cr_staged cr /\
      (leftAnchor db' (ra_conversationId (cr_staged cr)) (ra_previousAnchorHash (cr_staged cr)) \/
       founding db' (ra_conversationId (cr_staged cr)) (ra_anchorHash (cr_staged cr)))) /\
  forall c h, founding db c h -> founding db' c h.
Proof.
  intros Hsc Hrun. unfold validateCompletedReanchor, requireBytes in Hrun. tx.
  match goal with H : validateStagedReanchor _ _ = _ |- _ => apply reads_validate_reanchor in H as <- end.
  match goal with H : retireSupersededCandidates _ _ = Succeed (_, ?d) |- _ =>
    rename H into Hret; rename d into db1 end.
  match goal with H : stageReanchorInTransaction _ _ _ = Succeed (_, ?d) |- _ =>
    rename H into Hst; rename d into db2 end.
  match goal with H : completeReanchorInTransaction _ _ = Succeed (_, ?d) |- _ =>
    rename H into Hco; rename d into db' end.
  set (ra := cr_staged cr) in *. pose proof (scopes_retire _ _ _ _ Hret Hsc) as Hsc1.
  pose proof (stageTx_effect _ _ _ _ _ Hst) as Hste. pose proof (completeTx_effect _ _ _ _ Hco) as Hcoe.
  simpl in Hcoe. fold ra in Hcoe.
  apply retire_effect in Hret as (Hr1 & Ha1 & Hs1).
  assert (forall row, row ∈ reanchors db1 -> row ∈ reanchors db) as Hsub1.
  { rewrite Hr1. by intros row [_ ?]%list_elem_of_filter. }
  assert (anchors db2 = anchors db1) as Ha2 by (destruct Hste as [[-> _]|[-> _]]; done).
  assert (scopes db2) as Hsc2.
  { destruct Hste as [[-> _]|(-> & Hpos & Hl & Hno)]; [done|by apply scopes_append]. }
  destruct (scopes_complete _ _ _ _ Hsc2 Hco) as [Hsc' Hleft]. fold ra in Hleft.
  assert ((forall row, row ∈ reanchors db1 -> ~ collides (rr_staged row) ra) ->
    leftAnchor db' (ra_conversationId ra) (ra_previousAnchorHash ra) \/
    founding db' (ra_conversationId ra) (ra_anchorHash ra)) as Hfresh.
  { intros Hno. destruct Hcoe as [_ [[-> Hhas]|(_ & Hnew & _)]].
    - right. apply hasAnchor_spec in Hhas as (a & Hin & Hac & Hah). exists a. split_and!; [done..|].
      destruct (sa_previousAnchorHash a) as [q|] eqn:Hq; [exfalso|done]. rewrite Ha2 in Hin.
      destruct (sc_done _ Hsc1 a q Hin Hq) as (x & Hx & Hxc & Hxh & _).
      apply (Hno x Hx). split; [by unfold rowConversation in Hxc; rewrite Hxc|left].
      unfold rowAnchor in Hxh. congruence.
    - left. destruct Hleft as [?|]; [congruence|done]. }
  assert (forall row, row ∈ reanchors db2 -> exists row', row' ∈ reanchors db' /\
    rr_staged row' = rr_staged row) as Hkeep.
  { destruct Hcoe as [_ [[-> _]|(_ & _ & Hr' & _)]]; intros row Hrow; [by exists row|].
    exists (completeRow cr row). rewrite completeRow_staged, Hr'. split; [|done].
    apply list_elem_of_fmap. by exists row. }
  split_and!; [done| | |].
  - intros row Hrow. destruct (superseded ra row) eqn:Hsup.
    + right. unfold superseded in Hsup. apply bool_decide_eq_true in Hsup as (Hscope & Hne & _).
      split; [done|]. destruct Hcoe as [(cand & Hcand & Hcs) _]. fold ra in Hcs.
      destruct (Hkeep cand Hcand) as (cand' & Hc' & Hcs'). exists cand'.
      split_and!; [done|by rewrite Hcs', Hcs|].
      destruct Hste as [[_ (y & Hy & Hys)]|(_ & _ & _ & Hno)]; [|by apply Hfresh].
      assert (row = y) as ->; [|by rewrite Hys in Hne].
      apply (sc_one _ Hsc); [done|by apply Hsub1|].
      rewrite Hys. destruct Hscope as (? & ? & ?). split; [done|]. by right.
    + left. apply Hkeep. assert (row ∈ reanchors db1) by (rewrite Hr1; by apply list_elem_of_filter).
      destruct Hste as [[-> _]|[-> _]]; [done|]. simpl. set_solver.
  - intros row' Hrow'. assert (exists row, row ∈ reanchors db2 /\ rr_staged row' = rr_staged row)
      as (row & Hrow & Hstg).
    { destruct Hcoe as [_ [[-> _]|(_ & _ & Hr' & _)]]; [by exists row'|]. rewrite Hr' in Hrow'.
      apply list_elem_of_fmap in Hrow' as (x & -> & Hx). exists x. by rewrite completeRow_staged. }
    destruct Hste as [[-> _]|(-> & _ & _ & Hno)].
    + left. exists row. split; [by apply Hsub1|done].
    + simpl in Hrow. apply elem_of_app in Hrow as [Hrow| ->%list_elem_of_singleton].
      * left. exists row. split; [by apply Hsub1|done].
      * right. split; [done|by apply Hfresh].
  - intros c h (a & Hin & ?). exists a. split; [|done].
    destruct Hcoe as [_ [[-> _]|(_ & _ & _ & -> & _)]]; rewrite Ha2, Ha1; set_solver.
Qed.

(** ** A conversation that starts over *)

Lemma restart_effect expected replacement db x db' :
  cf_conversationId expected = cf_conversationId replacement ->
  restartInTransaction expected replacement db = Succeed (x, db') ->
  let c := cf_conversationId expected in
  ~ headSome db c /\
  (forall r, rowConversation r <> c -> r ∈ reanchors db <-> r ∈ reanchors db') /\
  (forall r, r ∈ reanchors db' -> rowConversation r <> c) /\
  (forall a, sa_conversationId a <> c -> a ∈ anchors db -> a ∈ anchors db') /\
  (forall a, a ∈ anchors db' -> a ∈ anchors db \/ sa_previousAnchorHash a = None) /\
  forall c', c' <> c -> conversation_state db' !! c' = conversation_state db !! c'.
Proof.
  intros Hsame Hrun. unfold restartInTransaction in Hrun. tx.
  match goal with H : requireEmptyConversationPosition _ _ = _ |- _ =>
    apply requireEmptyConversationPosition_ok in H as (-> & p & Hp & Hhead) end.
  unfold clearIncompleteConversationState, installReplacementFoundation, delete_obligations,
    delete_evidence, delete_locks, delete_staged, delete_reanchors, insert_anchor,
    update_position, delete_anchors, constraint in *. tx. simpl in *.
  rewrite <- Hsame in *. set (c := cf_conversationId expected) in *. split_and!.
  - intros (q & Hq & Hs). rewrite Hp in Hq. simplify_eq. rewrite Hhead in Hs. by destruct Hs.
  - intros row Hne. rewrite list_elem_of_filter, bool_decide_eq_false. naive_solver.
  - intros row [Hr _]%list_elem_of_filter. by apply bool_decide_eq_false in Hr.
  - intros a Hne Ha. apply list_elem_of_filter. split; [|set_solver].
    apply bool_decide_eq_false. naive_solver.
  - intros a [_ [Ha| ->%list_elem_of_singleton]%elem_of_app]%list_elem_of_filter; auto.
  - intros c' Hne. by rewrite lookup_alter_ne.
Qed.

(** ** Every operation *)

Section operations.
Context `{Base64Url} (identity : IdentityBinding).

(** What one operation does to the candidates: one stays, or another one takes
    its scope as the conversation leaves the scope's anchor; a new one is
    staged for a vote, or leaves the anchor at once. *)
Record rowsMove (db db' : Database) : Prop := {
  rm_scopes : scopes db';
  rm_kept : forall row, row ∈ reanchors db -> exists row', row' ∈ reanchors db' /\
    (rr_staged row' = rr_staged row \/
     inScope (rowConversation row) (ra_previousAnchorHash (rr_staged row))
       (ra_routerInstanceId (rr_staged row)) row' /\
     (leftAnchor db' (rowConversation row) (ra_previousAnchorHash (rr_staged row)) \/
      founding db' (rowConversation row) (rowAnchor row')));
  rm_new : forall row, row ∈ reanchors db' ->
    (exists old, old ∈ reanchors db /\ rr_staged old = rr_staged row) \/
    leftAnchor db' (rowConversation row) (ra_previousAnchorHash (rr_staged row)) \/
    founding db' (rowConversation row) (rowAnchor row) \/
    leaving identity db' (rowConversation row) (ra_selectedRecordHash (rr_staged row))
      (ra_previousAnchorHash (rr_staged row)) /\
    forall act, ~ protected db (rowConversation row) (ra_selectedRecordHash (rr_staged row))
      (ra_previousAnchorHash (rr_staged row)) act;
  rm_founding : forall c h, headSome db c -> founding db c h -> founding db' c h;
}.

Lemma rowsMove_same db : scopes db -> rowsMove db db.
Proof. intros Hsc. constructor; [done|eauto|eauto|done]. Qed.

Lemma rowsMove_founds db db' :
  (forall r, r ∈ reanchors db -> headSome db' (rowConversation r)) ->
  scopes db -> onlyFounds db db' -> rowsMove db db'.
Proof.
  intros Hheads [Hone Hleft Hdone Hhead] (Hr & Hgrow & Hnew). constructor.
  - constructor.
    + rewrite Hr. apply Hone.
    + rewrite Hr. intros r Hin. by eapply hasAnchor_grow, Hleft.
    + rewrite Hr. intros a p Hin Hp. destruct (Hnew a Hin) as [Ha|Ha]; [by eapply Hdone|congruence].
    + rewrite Hr. done.
  - rewrite Hr. eauto.
  - rewrite Hr. eauto.
  - intros c h _ (a & ? & ?). exists a. auto.
Qed.

Lemma rowsMove_stage F N r db : holds identity F N db -> scopes db ->
  rowsMove db (stageReanchor r db).2.
Proof.
  intros Hh Hsc. destruct (stageReanchor r db) as [[[]|e] db'] eqn:Hstage.
  - pose proof (staged_leaving _ _ _ _ _ _ Hh Hstage) as Hleave.
    pose proof (fun act => staged_not_protected _ _ _ _ _ _ act Hh Hstage) as Hnot.
    revert Hstage. unfold stageReanchor.
    match goal with |- context [transaction ?m db] =>
      destruct (transaction_cases m db) as [(x & d & Hop & ->)|(e & _ & ->)] end; [|done].
    intros [= -> ->]. tx. match goal with H : validateStagedReanchor _ _ = _ |- _ =>
      apply reads_validate_reanchor in H as <- end.
    apply stageTx_effect in Hop as [[-> _]|(-> & Hpos & Hl & Hno)]; [by apply rowsMove_same|].
    constructor; simpl.
    + by apply scopes_append.
    + intros row Hrow. exists row. split; [set_solver|by left].
    + intros row [Hrow| ->%list_elem_of_singleton]%elem_of_app; [left; eauto|].
      right; right; right. by split.
    + done.
  - replace (_, db').2 with db; [by apply rowsMove_same|]. revert Hstage. unfold stageReanchor.
    match goal with |- context [transaction ?m db] =>
      destruct (transaction_cases m db) as [(x & d & Hop & ->)|(e & _ & ->)] end; [|done].
    intros [= -> ->]. remember existing as m eqn:Hm in Hop.
    unfold stageReanchorInTransaction in Hop. tx. case_match; tx; [|discriminate Hm].
    match goal with H : validateStagedReanchor _ _ = _ |- _ =>
      apply reads_validate_reanchor in H as <- end.
    by match goal with H : requireSameReanchor _ _ _ = _ |- _ =>
      apply requireSameReanchor_ok in H as [_ ->] end.
  - replace (_, db').2 with db; [by apply rowsMove_same|]. revert Hstage. unfold stageReanchor.
    match goal with |- context [transaction ?m db] =>
      destruct (transaction_cases m db) as [(x & d & Hop & ->)|(e' & _ & ->)] end; naive_solver.
Qed.

Lemma rowsMove_complete cr db : scopes db -> rowsMove db (completeReanchor cr db).2.
Proof.
  intros Hsc. unfold completeReanchor.
  match goal with |- context [transaction ?m db] =>
    destruct (transaction_cases m db) as [(x & d & Hop & ->)|(e & _ & ->)] end;
    [|by apply rowsMove_same].
  unfold validateCompletedReanchor, requireBytes in Hop. tx.
  match goal with H : validateStagedReanchor _ _ = _ |- _ =>
    apply reads_validate_reanchor in H as <- end. simpl.
  pose proof (scopes_complete _ _ _ _ Hsc Hop) as [Hsc' _].
  apply completeTx_effect in Hop as [_ [[-> _]|(_ & _ & Hr & Ha & _)]]; [by apply rowsMove_same|].
  constructor; [done| | |].
  - intros row Hrow. exists (completeRow cr row). rewrite completeRow_staged, Hr.
    split; [|by left]. apply list_elem_of_fmap. by exists row.
  - rewrite Hr. intros row (old & -> & Hold)%list_elem_of_fmap. left. exists old.
    by rewrite completeRow_staged.
  - intros c h _ (a & ? & ?). exists a. rewrite Ha. set_solver.
Qed.

Lemma rowsMove_apply cr db : scopes db -> rowsMove db (applyCatchUpReanchor cr db).2.
Proof.
  intros Hsc. unfold applyCatchUpReanchor.
  match goal with |- context [transaction ?m db] =>
    destruct (transaction_cases m db) as [(x & d & Hop & ->)|(e & _ & ->)] end;
    [|by apply rowsMove_same].
  apply catchUp_effect in Hop as (Hsc' & Hrows & Hnew & Hfound); [|done]. constructor; [done| | |auto].
  - intros row Hrow. destruct (Hrows row Hrow) as
      [(row' & Hrow' & Hst)|((Ec & Ep & Ei) & row' & Hrow' & Hst & Hor)]; exists row'; [by eauto|].
    unfold inScope, rowConversation, rowAnchor. rewrite Hst, Ec, Ep, Ei. split; [done|]. by right.
  - intros row Hrow. destruct (Hnew row Hrow) as [?|(Hst & Hor)]; [by left|].
    unfold rowConversation, rowAnchor. rewrite Hst. right. destruct Hor; auto.
Qed.

Lemma rowsMove_restart expected replacement db :
  let db' := (restartEmptyConversation expected replacement db).2 in
  (forall r, r ∈ reanchors db -> headSome db' (rowConversation r)) ->
  scopes db -> rowsMove db db'.
Proof.
  cbv zeta. unfold restartEmptyConversation.
  match goal with |- context [transaction ?m db] =>
    destruct (transaction_cases m db) as [(x & d & Hop & ->)|(e & _ & ->)] end;
    [|intros; by apply rowsMove_same].
  simpl. intros Hheads Hsc. unfold validateEmptyConversationRestart in Hop. tx.
  repeat match goal with H : validateFoundation _ _ = _ |- _ => apply reads_validate_foundation in H as <- end.
  unfold requireEqual, requireSameBytes, requireEqual in *. tx. guards.
  match goal with H : restartInTransaction _ _ _ = _ |- _ => apply restart_effect in H as
    (Hnh & Hrows & Hother & Hanc & Hnew & Hst); [|done] end.
  destruct Hsc as [Hone Hleft Hdn Hhd].
  assert (forall row, row ∈ reanchors db -> rowConversation row <> cf_conversationId expected) as Hrc.
  { intros row Hr Hc. apply Hnh. rewrite <- Hc. by apply Hhd. }
  constructor.
  - constructor.
    + intros row1 row2 Hin1 Hin2. pose proof (Hother _ Hin1). pose proof (Hother _ Hin2).
      by apply Hone; apply Hrows.
    + intros row Hr. pose proof (Hother _ Hr) as Hne. apply Hrows in Hr; [|done].
      pose proof (Hleft row Hr) as (a & Ha & Hac & Hah)%hasAnchor_spec. apply hasAnchor_spec.
      exists a. split_and!; [apply Hanc; [congruence|done]|done..].
    + intros a p Ha Hp. destruct (Hnew a Ha) as [Ha'|]; [|congruence].
      destruct (Hdn a p Ha' Hp) as (row & Hr & ?). exists row. split; [|done]. apply Hrows; auto.
    + intros row Hr. pose proof (Hother _ Hr) as Hne. apply Hheads. by apply Hrows.
  - intros row Hrow. exists row. split; [|by left]. apply Hrows; auto.
  - intros row Hrow. left. exists row. split; [|done]. apply Hrows; auto.
  - intros c h Hc (a & Ha & Hac & ?). exists a. split; [|by split]. apply Hanc; [|done].
    rewrite Hac. by intros ->.
Qed.

Lemma perform_rows F N operation db : holds identity F N db -> scopes db ->
  rowsMove db (perform operation db).2.
Proof.
  intros Hh Hsc. assert (forall r, r ∈ reanchors db ->
    headSome (perform operation db).2 (rowConversation r)) as Hheads.
  { intros r Hr. eapply (away_persists identity F N operation _ _ (ra_previousAnchorHash (rr_staged r)));
      [done|by apply (sc_head _ Hsc)|by exists r]. }
  destruct (reanchoring operation) eqn:Hre; [|by apply rowsMove_founds, perform_onlyFounds].
  destruct operation; try discriminate Hre; cbv beta iota delta [perform failure] in *.
  - by eapply rowsMove_stage.
  - by apply rowsMove_complete.
  - by apply rowsMove_apply.
  - by apply rowsMove_restart.
Qed.

(** ** What persists *)

Lemma perform_claimed F N operation db c p i h : holds identity F N db -> scopes db ->
  claimed db c p i h -> claimed (perform operation db).2 c p i h.
Proof.
  intros Hh Hsc (row & Hrow & (<- & <- & <-) & Hor).
  destruct (perform_rows F N operation db Hh Hsc) as [_ Hkept _ Hfound].
  destruct (Hkept row Hrow) as (row' & Hrow' & [Hst|[Hscope Hleft]]); exists row'.
  - unfold inScope, rowAnchor in *. rewrite Hst. refine (conj Hrow' (conj _ _)); [done|].
    destruct Hor as [?|[Hl|Hf]]; [by left|right; left; by eapply left_persists|right; right].
    apply Hfound; [|done]. by apply (sc_head _ Hsc).
  - by refine (conj Hrow' (conj Hscope (or_intror Hleft))).
Qed.

(** Every candidate is one this endpoint chose to leave the head by, without a
    vote in [F], or its anchor has been left, or it collides with the founding
    anchor. *)
Definition rowsLeave (F : string -> string -> string -> string -> Prop) (db : Database) : Prop :=
  forall row, row ∈ reanchors db ->
    leftAnchor db (rowConversation row) (ra_previousAnchorHash (rr_staged row)) \/
    founding db (rowConversation row) (rowAnchor row) \/
    leaving identity db (rowConversation row) (ra_selectedRecordHash (rr_staged row))
      (ra_previousAnchorHash (rr_staged row)) /\
    forall act, ~ F (rowConversation row) (ra_selectedRecordHash (rr_staged row))
      (ra_previousAnchorHash (rr_staged row)) act.

Lemma leaving_persists F N operation db c h a : holds identity F N db ->
  leaving identity db c h a -> leaving identity (perform operation db).2 c h a.
Proof.
  intros [Hwf Hv _ _] Hleave.
  assert (holds identity (fun _ _ _ _ => False) (fun c' h' a' => c' = c /\ h' = h /\ a' = a) db)
    as Hholds by (constructor; [done..|by intros ??? (-> & -> & ->)]).
  apply (perform_keeps identity _ _ operation) in Hholds. by apply (holds_leaving _ _ _ _ Hholds).
Qed.

Lemma perform_rowsLeave F N operation db : holds identity F N db -> scopes db ->
  rowsLeave F db -> rowsLeave F (perform operation db).2.
Proof.
  intros Hh Hsc Hrl row Hrow. destruct (perform_rows F N operation db Hh Hsc) as [_ _ Hnew Hfound].
  destruct (Hnew row Hrow) as [(old & Hold & Hst)|[?|[?|[Hl Hnot]]]]; [|auto..|].
  2: { right; right. split; [done|]. intros act Hf. apply (Hnot act).
       by apply (holds_spoken _ _ _ _ Hh). }
  pose proof (Hrl old Hold) as Hor. pose proof (sc_head _ Hsc old Hold) as Hhd.
  unfold rowConversation, rowAnchor in *. rewrite Hst in *. destruct Hor as [Hl|[Hf|[Hl Hnot]]].
  - left. by eapply left_persists.
  - right; left. by apply Hfound.
  - right; right. split; [by eapply leaving_persists|done].
Qed.

Lemma scopes_bound : scopes (boundStore identity).
Proof. constructor; simpl; set_solver. Qed.
Lemma rowsLeave_bound F : rowsLeave F (boundStore identity).
Proof. intros row Hrow. simpl in Hrow. set_solver. Qed.

End operations.
End StoreScopes.
