(* ===== verification/StoreLedger.v ===== *)
(** StoreLedger: what a history of store operations certifies and delivers.

    The certified records of a conversation are one chain from its first
    record to its head, numbered from zero without a gap, and every record of
    another member in it has exactly one durable delivery. *)
From S2P Require Import Prelude JsMap Identifiers Hosts StoredHistory StoreDatabase StoreQueues.
From S2P Require Import StoreRecords StoreAnchors EndpointStore.
Local Open Scope string_scope.

Module StoreLedger.
Import StoreDatabase StoreRows StoreQueues StoreRecords StoreAnchors EndpointStore StoreReads.

Section ledger.
Context `{Base64Url}.
Context (identity : IdentityBinding).
Local Notation me := (ib_agentId identity).

Definition deliveryKey (d : PendingDelivery) : string * string :=
  (pd_conversationId d, pd_recordHash d).

(** [gap] is the record whose delivery is still to be retained, inside the
    transaction that promotes it. *)
Record ledger (gap : option (string * string)) (db : Database) : Prop := {
  l_identity : identity_binding db = Some identity;
  l_staged : forall k r, staged_records db !! k = Some r ->
    k = (sr_conversationId r, sr_recordHash r);
  l_chain : forall c rh n, certified_records db !! (c, rh) = Some n ->
    exists p r, conversation_state db !! c = Some p /\ staged_records db !! (c, rh) = Some r /\
      (0 <= n <= ip_headOrdinal p)%Z /\
      match sr_previousRecordHash r with
      | None => n = 0%Z
      | Some h => certified_records db !! (c, h) = Some (n - 1)%Z
      end;
  l_head : forall c p, conversation_state db !! c = Some p ->
    match ip_headRecordHash p with
    | None => ip_headOrdinal p = (-1)%Z
    | Some h => certified_records db !! (c, h) = Some (ip_headOrdinal p)
    end;
  l_unique : forall c rh rh' n, certified_records db !! (c, rh) = Some n ->
    certified_records db !! (c, rh') = Some n -> rh = rh';
  l_delivered : forall k n r, certified_records db !! k = Some n -> staged_records db !! k = Some r ->
    sr_authorAgentId r <> me -> Some k <> gap -> k ∈ deliveryKey <$> pending_deliveries db;
  l_deliveries : forall d, d ∈ pending_deliveries db -> pd_recipientAgentId d = me /\
    exists n r, certified_records db !! deliveryKey d = Some n /\
      staged_records db !! deliveryKey d = Some r /\ sr_authorAgentId r <> me;
  l_once : NoDup (deliveryKey <$> pending_deliveries db);
  l_tokens : NoDup (pd_deliveryToken <$> pending_deliveries db);
}.

Definition keeps (db db' : Database) : Prop := ledger None db -> ledger None db'.
#[global] Instance keeps_preorder : PreOrder keeps.
Proof. split; [by intros db ?|]. intros db1 db2 db3 H12 H23 Hh. apply H23, H12, Hh. Qed.

(** ** Statements that leave the ledger's rows as they are *)

Definition sameRows (db db' : Database) : Prop :=
  identity_binding db' = identity_binding db /\
  conversation_state db' = conversation_state db /\
  staged_records db' = staged_records db /\
  certified_records db' = certified_records db /\
  pending_deliveries db' = pending_deliveries db.
#[global] Instance sameRows_preorder : PreOrder sameRows.
Proof. split; [by intros db|]. unfold sameRows. intros db1 db2 db3. intuition congruence. Qed.

Lemma same_ledger gap db db' : sameRows db db' -> ledger gap db -> ledger gap db'.
Proof.
  destruct db, db'. unfold sameRows. simpl. intros (-> & -> & -> & -> & ->) Hl.
  destruct Hl. by constructor.
Qed.

Lemma moves_same {A} (m : Tx A) : moves sameRows m -> moves keeps m.
Proof. intros Hm db a db' Hrun Hl. by eapply same_ledger; [eapply Hm|]. Qed.

Lemma ledger_same_modify f : (forall db, sameRows db (f db)) -> moves sameRows (modify f).
Proof. intros Hf. apply moves_modify, Hf. Qed.
Ltac same := apply ledger_same_modify; intros []; repeat split.

Lemma same_membership m : moves sameRows (insert_membership m).
Proof. unfold insert_membership, constraint. follow. same. Qed.
Lemma same_post_intent i : moves sameRows (insert_post_intent i).
Proof. unfold insert_post_intent, constraint. follow. same. Qed.
Lemma same_anchor a : moves sameRows (insert_anchor a).
Proof. unfold insert_anchor, constraint. follow. same. Qed.
Lemma same_lock k l : moves sameRows (insert_lock k l).
Proof. unfold insert_lock, constraint. follow. same. Qed.
Lemma same_evidence e : moves sameRows (insert_evidence e).
Proof. unfold insert_evidence, constraint. follow. same. Qed.
Lemma same_reanchor r : moves sameRows (insert_reanchor r).
Proof. unfold insert_reanchor, constraint. follow. same. Qed.
Lemma same_outbound o : moves sameRows (insert_outbound o).
Proof. unfold insert_outbound, constraint. follow. same. Qed.
Lemma same_obligation d : moves sameRows (insert_obligation d).
Proof. unfold insert_obligation, constraint. follow. same. Qed.
Lemma same_set_intents f : moves sameRows (modify (set_post_intents f)).
Proof. same. Qed.
Lemma same_set_outbound f : moves sameRows (modify (set_outbound f)).
Proof. same. Qed.
Lemma same_set_obligations f : moves sameRows (modify (set_obligations f)).
Proof. same. Qed.
Lemma same_set_reanchors f : moves sameRows (modify (set_reanchors f)).
Proof. same. Qed.
Lemma same_delete_obligations P : moves sameRows (delete_obligations P).
Proof. unfold delete_obligations. same. Qed.
Lemma same_delete_evidence P : moves sameRows (delete_evidence P).
Proof. unfold delete_evidence. same. Qed.
Lemma same_delete_locks P : moves sameRows (delete_locks P).
Proof. unfold delete_locks. same. Qed.
Lemma same_delete_reanchors P : moves sameRows (delete_reanchors P).
Proof. unfold delete_reanchors. same. Qed.
Lemma same_delete_anchors P : moves sameRows (delete_anchors P).
Proof. unfold delete_anchors, constraint. follow. same. Qed.
#[local] Hint Resolve same_membership same_post_intent same_anchor same_lock same_evidence
  same_reanchor same_outbound same_obligation same_set_intents same_set_outbound
  same_set_obligations same_set_reanchors same_delete_obligations same_delete_evidence
  same_delete_locks same_delete_reanchors same_delete_anchors moves_same : tx_moves.

(** ** Statements that change them *)

Lemma ledger_position c p : ip_headRecordHash p = None -> ip_headOrdinal p = (-1)%Z ->
  moves keeps (insert_position c p).
Proof.
  intros Hhead Hord. unfold insert_position, constraint. intros db u db' Hrun. tx. guards.
  assert (forall c' p', conversation_state db !! c' = Some p' ->
    conversation_state (set_positions <[c:=p]> db) !! c' = Some p') as Hst.
  { intros c' p' Hp. simpl. by rewrite lookup_insert_ne by congruence. }
  intros []. constructor; try done.
  - intros c' rh n (p' & r' & ? & ?)%l_chain0. exists p', r'. by split; [apply Hst|].
  - intros c' p'. simpl. intros [(<- & <-)|[_ Hp]]%lookup_insert_Some; [by rewrite Hhead|].
    by apply l_head0.
Qed.

(** A position whose head does not move. *)
Lemma moves_update c f :
  (forall p, ip_headRecordHash (f p) = ip_headRecordHash p) ->
  (forall p, ip_headOrdinal (f p) = ip_headOrdinal p) -> moves keeps (update_position c f).
Proof.
  intros Hhead Hord. unfold update_position, constraint. follow. apply moves_modify.
  intros db []. constructor; try done.
  - intros c' rh n (p' & r' & Hp & ?)%l_chain0. simpl. destruct (decide (c = c')) as [->|].
    + exists (f p'), r'. by rewrite lookup_alter_eq, Hp, Hord.
    + exists p', r'. by rewrite lookup_alter_ne.
  - intros c' p'. simpl. intros Hp. apply lookup_alter_Some in Hp as [(<- & p & Hp & ->)|[_ Hp]].
    + rewrite Hhead, Hord. by apply l_head0.
    + by apply l_head0.
Qed.

Lemma moves_insert_staged r : moves keeps (insert_staged r).
Proof.
  unfold insert_staged, constraint. intros db u db' Hrun. tx. guards.
  assert (staged_records db !! (sr_conversationId r, sr_recordHash r) = None) as Hnone.
  { match goal with H : hasStagedRecord _ _ = false |- _ => unfold hasStagedRecord in H; guards end.
    by apply eq_None_not_Some. }
  assert (forall k r', staged_records db !! k = Some r' ->
    staged_records (set_staged <[(sr_conversationId r, sr_recordHash r):=r]> db) !! k = Some r') as Hst.
  { intros k r' Hr. simpl. rewrite lookup_insert_ne; [done|congruence]. }
  intros []. constructor; [done| | |done|done| | |done|done].
  - intros k r'. simpl. intros [(<- & <-)|[_ Hr]]%lookup_insert_Some; [done|]. by apply l_staged0.
  - intros c rh n (p' & r' & ? & ? & ?)%l_chain0. exists p', r'. split_and!; eauto; naive_solver.
  - intros k n r' Hn Hr. eapply l_delivered0; [done|].
    destruct k as [c rh]. destruct (l_chain0 _ _ _ Hn) as (_ & r0 & _ & Hr0 & _).
    rewrite (Hst _ _ Hr0) in Hr. congruence.
  - intros d Hd. destruct (l_deliveries0 d Hd) as (? & n & r' & ? & ? & ?). split; [done|]. eauto 10.
Qed.

(** The foreign key of certified_records keeps what is certified staged. *)
Lemma moves_delete_staged P : moves keeps (delete_staged P).
Proof.
  unfold delete_staged, constraint. intros db u db' Hrun. tx. guards.
  match goal with H : map_Forall _ _ |- _ => rename H into Hfree end.
  match goal with |- keeps db ?d => set (db' := d) end.
  assert (forall k r, staged_records db' !! k = Some r -> staged_records db !! k = Some r) as Hst.
  { intros k r. simpl. by intros [? _]%map_lookup_filter_Some. }
  assert (forall k n r, certified_records db !! k = Some n -> staged_records db !! k = Some r ->
    staged_records db' !! k = Some r) as Hcert.
  { intros k n r Hn Hr. simpl. apply map_lookup_filter_Some. split; [done|]. simpl.
    destruct (P r) eqn:HP; [|done]. destruct (map_Forall_lookup_1 _ _ _ _ Hfree Hr HP). congruence. }
  intros []. constructor; [done| | |done|done| | |done|done].
  - eauto.
  - intros c rh n Hn. destruct (l_chain0 _ _ _ Hn) as (p & r & ? & ? & ?). exists p, r.
    split_and!; eauto; naive_solver.
  - intros k n r Hn Hr. eapply l_delivered0; eauto.
  - intros d Hd. destruct (l_deliveries0 d Hd) as (? & n & r & ? & ? & ?). eauto 10.
Qed.

Lemma moves_acknowledged t : moves keeps (modify (set_deliveries (fmap (markAcknowledged t)))).
Proof.
  apply moves_modify. intros db [].
  assert (forall d, deliveryKey (markAcknowledged t d) = deliveryKey d /\
    pd_deliveryToken (markAcknowledged t d) = pd_deliveryToken d /\
    pd_recipientAgentId (markAcknowledged t d) = pd_recipientAgentId d) as Hmark.
  { intros d. unfold markAcknowledged. by case_bool_decide. }
  assert (deliveryKey <$> (markAcknowledged t <$> pending_deliveries db) =
          deliveryKey <$> pending_deliveries db) as Hkeys.
  { rewrite <- list_fmap_compose. apply list_fmap_ext. intros; simpl. apply Hmark. }
  constructor; [done..| | | |]; simpl.
  - rewrite Hkeys. done.
  - intros d (d0 & -> & Hd)%list_elem_of_fmap. destruct (Hmark d0) as (-> & _ & ->). by apply l_deliveries0.
  - by rewrite Hkeys.
  - rewrite <- list_fmap_compose. erewrite list_fmap_ext; [exact l_tokens0|].
    intros; simpl. apply Hmark.
Qed.
#[local] Hint Resolve ledger_position moves_update moves_insert_staged moves_delete_staged moves_acknowledged : tx_moves.


(** ** Promotion *)

Lemma requireSameRecord_ok left right db u db' :
  requireSameRecord left right db = Succeed (u, db') -> left = right /\ db' = db.
Proof.
  unfold requireSameRecord, requireSameBytes, requireEqual. intros Hrun. tx. guards.
  destruct left, right. simpl in *. by simplify_eq.
Qed.

Lemma same_merge e : moves sameRows (mergeEvidenceInTransaction e).
Proof.
  unfold mergeEvidenceInTransaction, requireEvidenceSubject, requireMembership,
    requireLocalEvidenceLock, requireLocalDurabilityEvidenceLock, requireNoReanchorAwayFrom,
    requireSameBytes, requireEqual. follow.
Qed.
#[local] Hint Resolve same_merge : tx_moves.
Lemma same_merge_all l m : moves sameRows (mergeAll l m).
Proof. revert m. induction l as [|e l IH]; intros m; simpl; follow. Qed.
Lemma same_complete_intent r : moves sameRows (completeLocalPostIntent r).
Proof. unfold completeLocalPostIntent, requireEqual. follow. Qed.
#[local] Hint Resolve same_merge_all same_complete_intent : tx_moves.

Lemma findRetainedDelivery_spec db c rh :
  match findRetainedDelivery db c rh with
  | Some d => d ∈ pending_deliveries db /\ deliveryKey d = (c, rh)
  | None => (c, rh) ∉ deliveryKey <$> pending_deliveries db
  end.
Proof.
  unfold findRetainedDelivery. case_match eqn:Hf.
  - apply find_some in Hf as [Hin Hb%bool_decide_eq_true]. rewrite <- list_elem_of_In in Hin.
    split; [done|]. unfold deliveryKey. destruct Hb. congruence.
  - rewrite list_elem_of_fmap. intros (d & [= -> ->] & Hd%list_elem_of_In).
    pose proof (find_none _ _ Hf d Hd) as Hno. simpl in Hno. guards. naive_solver.
Qed.

Lemma mint_reads l f : moves eq (mintFrom l f).
Proof. induction l as [|x l IH]; simpl; follow. Qed.

(** The delivery of a certified record fills the gap its promotion left. *)
Lemma retain_fills r d t db m db' n :
  ledger (Some (sr_conversationId r, sr_recordHash r)) db ->
  certified_records db !! (sr_conversationId r, sr_recordHash r) = Some n ->
  staged_records db !! (sr_conversationId r, sr_recordHash r) = Some r ->
  retainDeliveryInTransaction r d t db = Succeed (m, db') -> ledger None db'.
Proof.
  intros Hl Hn Hr Hrun. unfold retainDeliveryInTransaction, readStoredIdentity in Hrun. tx.
  rewrite (l_identity _ _ Hl) in Hrun.
  assert (forall db1, sameRows db db1 ->
    (sr_authorAgentId r <> me -> (sr_conversationId r, sr_recordHash r) ∈
       deliveryKey <$> pending_deliveries db1) -> ledger None db1) as Hfill.
  { intros db1 Hs Hin. apply (same_ledger _ _ _ Hs) in Hl. destruct Hs as (_ & _ & Hs & Hc & _).
    destruct Hl. constructor; try done. intros k n' r' Hk Hr' Hne _.
    destruct (decide (k = (sr_conversationId r, sr_recordHash r))) as [->|Hkey].
    - apply Hin. rewrite Hs in Hr'. congruence.
    - eapply l_delivered0; eauto. congruence. }
  case_bool_decide as Hme.
  { case_match; tx. by apply Hfill. }
  case_match; [|done]. unfold requireText, requireBytes, requireEqual, requireSameBytes in Hrun. tx.
  pose proof (findRetainedDelivery_spec db (sr_conversationId r) (sr_recordHash r)) as Hfind.
  case_match; unfold requireEqual in *; tx; guards.
  - apply Hfill; [done|]. intros _. destruct Hfind as [Hin <-]. by apply list_elem_of_fmap_2.
  - match goal with H : mintDeliveryToken _ _ _ = _ |- _ => apply mint_reads in H as <- end.
    unfold insert_delivery, constraint in *. tx. guards.
    match goal with H : forallb _ _ = true |- _ => rename H into Hfree end.
    rewrite forallb_forall in Hfree. setoid_rewrite <- list_elem_of_In in Hfree.
    destruct Hl. constructor; try done; simpl.
    + intros k n' r' Hk Hr' Hne _. rewrite fmap_app. apply elem_of_app.
      destruct (decide (k = (sr_conversationId r, sr_recordHash r))) as [->|Hkey]; [right; set_solver|].
      left. eapply l_delivered0; eauto. congruence.
    + intros d' [Hd'|Hd'%list_elem_of_singleton]%elem_of_app; [by apply l_deliveries0|subst d'].
      simpl. split; [congruence|]. exists n, r. split_and!; [done..|]. congruence.
    + rewrite fmap_app. apply NoDup_app. split_and!; [done| |apply NoDup_singleton].
      intros k Hk Heq%list_elem_of_singleton. subst k. by apply Hfind.
    + rewrite fmap_app. apply NoDup_app. split_and!; [done| |apply NoDup_singleton].
      simpl. intros tok (d0 & -> & Hd0)%list_elem_of_fmap Hin%list_elem_of_singleton.
      specialize (Hfree d0 Hd0). guards. naive_solver.
Qed.

Lemma insert_certified_gap r n db u db' :
  ledger None db -> staged_records db !! (sr_conversationId r, sr_recordHash r) = Some r ->
  (exists p, conversation_state db !! sr_conversationId r = Some p /\
     ip_headRecordHash p = sr_previousRecordHash r /\ n = (ip_headOrdinal p + 1)%Z) ->
  insertCertifiedRecord r n db = Succeed (u, db') ->
  ledger (Some (sr_conversationId r, sr_recordHash r)) db' /\
  certified_records db' !! (sr_conversationId r, sr_recordHash r) = Some n /\
  staged_records db' !! (sr_conversationId r, sr_recordHash r) = Some r.
Proof.
  intros Hl Hr (p & Hp & Hhead & Hn) Hrun.
  unfold insertCertifiedRecord, insert_certified, update_position, constraint in Hrun. tx. guards.
  match goal with |- ledger _ ?d /\ _ => set (db' := d) end.
  set (c := sr_conversationId r) in *. set (rh := sr_recordHash r) in *.
  match goal with H : map_Forall _ (certified_records db) |- _ => rename H into Hfresh end.
  assert (certified_records db !! (c, rh) = None) as Hnone.
  { match goal with H : hasCertifiedRecord _ _ _ = false |- _ => unfold hasCertifiedRecord in H; guards end.
    by apply eq_None_not_Some. }
  assert (forall k n', certified_records db !! k = Some n' ->
    certified_records db' !! k = Some n') as Hkeep.
  { intros k n' Hk. simpl. rewrite lookup_insert_ne; [done|congruence]. }
  assert (certified_records db' !! (c, rh) = Some n) as Hnew by apply lookup_insert_eq.
  assert (forall c' rh' n', certified_records db' !! (c', rh') = Some n' ->
    c' = c /\ rh' = rh /\ n' = n \/ certified_records db !! (c', rh') = Some n' /\ (c' = c -> n' <> n)) as Hinv.
  { intros c' rh' n' Hk. simpl in Hk.
    apply lookup_insert_Some in Hk as [([= <- <-] & <-)|[_ Hk]]; [by left|right].
    split; [done|]. intros -> ->. by destruct (map_Forall_lookup_1 _ _ _ _ Hfresh Hk). }
  split_and!; [|done|done]. destruct Hl. constructor; try done.
  - intros c' rh' n' [(-> & -> & ->)|[Hk _]]%Hinv.
    + eexists _, r. split_and!; [simpl; by rewrite lookup_alter_eq, Hp|done|simpl; lia|simpl; lia|].
      destruct (sr_previousRecordHash r) as [h|] eqn:Hprev.
      * specialize (l_head0 _ _ Hp). rewrite Hhead in l_head0. apply Hkeep. rewrite l_head0.
        f_equal. lia.
      * specialize (l_head0 _ _ Hp). rewrite Hhead in l_head0. lia.
    + destruct (l_chain0 _ _ _ Hk) as (p' & r' & Hp' & ? & ? & Hprev).
      assert (match sr_previousRecordHash r' with
              | Some h => certified_records db' !! (c', h) = Some (n' - 1)%Z
              | None => n' = 0%Z end) by (destruct (sr_previousRecordHash r'); eauto).
      destruct (decide (c' = c)) as [->|Hc].
      * rewrite Hp in Hp'. simplify_eq. eexists _, r'.
        split_and!; [simpl; by rewrite lookup_alter_eq, Hp|done|simpl; lia|simpl; lia|done].
      * exists p', r'. split_and!; [simpl; by rewrite lookup_alter_ne|done..|lia|lia|done].
  - intros c' p'. simpl. intros [(<- & p0 & Hp0 & ->)|[Hc Hp']]%lookup_alter_Some; [done|].
    specialize (l_head0 _ _ Hp'). destruct (ip_headRecordHash p'); [by apply Hkeep|done].
  - intros c' rh1 rh2 n' [(-> & -> & ->)|[Hk Hne]]%Hinv [(Hc & -> & Hn')|[Hk' Hne']]%Hinv.
    + done.
    + by destruct Hne'.
    + by destruct Hne.
    + by eapply l_unique0.
  - intros [c' rh'] n' r' [(-> & -> & ->)|[Hk _]]%Hinv Hr' Hne Hgap; [done|].
    by eapply l_delivered0.
  - intros d Hd. destruct (l_deliveries0 d Hd) as (? & n' & r' & ? & ? & ?). split; [done|].
    exists n', r'. split_and!; [by apply Hkeep|done..].
Qed.


Lemma ledger_promote r d t : moves keeps (promoteRecordInTransaction r d t).
Proof.
  intros db m db' Hrun Hl. unfold promoteRecordInTransaction, mergeCertifiedEvidence,
    findStagedRecord in Hrun.
  tx. case_match eqn:Hst; tx.
  match goal with H : requireSameRecord _ _ _ = _ |- _ => apply requireSameRecord_ok in H as [-> ->] end.
  match goal with H : mergeAll _ _ _ = _ |- _ => apply same_merge_all in H; rename H into Hsame end.
  pose proof (same_ledger _ _ _ Hsame Hl) as Hl1. destruct Hsame as (_ & _ & Hs & Hc & _).
  rewrite <- Hs in Hst. case_match eqn:Hcert; tx.
  - unfold hasCertifiedRecord in Hcert. guards. destruct Hcert as [n Hn]. rewrite <- Hc in Hn.
    eapply retain_fills; [|exact Hn|exact Hst|eassumption].
    destruct Hl1. constructor; try done. eauto.
  - unfold readStoredPosition, requireEqual in *. tx. case_match eqn:Hpos; tx. guards.
    match goal with H : insertCertifiedRecord _ _ _ = _ |- _ =>
      apply insert_certified_gap in H as (Hgap & Hn & Hr); [|done|done|eauto 10] end.
    match goal with H : completeLocalPostIntent _ _ = _ |- _ =>
      apply same_complete_intent in H; rename H into Hsame2 end.
    pose proof (same_ledger _ _ _ Hsame2 Hgap). destruct Hsame2 as (_ & _ & Hs2 & Hc2 & _).
    rewrite <- Hs2 in Hr. rewrite <- Hc2 in Hn. by eapply retain_fills.
Qed.

(** ** Operations *)

Lemma moves_release l : moves keeps (releaseProposalLock l).
Proof. unfold releaseProposalLock. follow. Qed.
Lemma ledger_lock l : moves keeps (lockProposalInTransaction l).
Proof. unfold lockProposalInTransaction, requireEqual. follow. Qed.
Lemma ledger_stage_record r p : moves keeps (stageRecordInTransaction r p).
Proof.
  unfold stageRecordInTransaction, requireRecordPosition, requireNoReanchorAwayFrom, requireEqual.
  follow.
Qed.
Lemma ledger_foundation f : moves keeps (putConversationFoundationInTransaction f).
Proof.
  unfold putConversationFoundationInTransaction, insertFoundation.
  follow.
Qed.
Lemma moves_completed r : moves keeps (insertCompletedReanchor r).
Proof. unfold insertCompletedReanchor. follow. Qed.
#[local] Hint Resolve ledger_promote moves_release ledger_lock ledger_stage_record ledger_foundation
  moves_completed : tx_moves.

Lemma ledger_complete_reanchor r : moves keeps (completeReanchorInTransaction r).
Proof.
  unfold completeReanchorInTransaction, releaseSupersededProposal, requireReanchorPosition,
    requireEqual. follow.
Qed.
Lemma ledger_stage_reanchor r p : moves keeps (stageReanchorInTransaction r p).
Proof.
  unfold stageReanchorInTransaction, requireUnclaimedReanchorScope, requireReanchorPosition,
    requireNoStagedSuccessor, requireEqual. follow.
Qed.
Lemma ledger_supersede l c : moves keeps (supersedeInTransaction l c).
Proof. unfold supersedeInTransaction. follow. Qed.
Lemma ledger_dissemination c r : moves keeps (retainDisseminationInTransaction c r).
Proof. unfold retainDisseminationInTransaction, requireText. follow. Qed.
Lemma ledger_enqueue m : moves keeps (enqueueOutboundInTransaction m).
Proof.
  unfold enqueueOutboundInTransaction, requireMessageIdAvailable, requireSameBytes, requireEqual.
  follow.
Qed.
Lemma ledger_update_pending m f : moves keeps (updatePending m f).
Proof. apply moves_same, same_set_outbound. Qed.
#[local] Hint Resolve ledger_complete_reanchor ledger_stage_reanchor ledger_supersede
  ledger_dissemination ledger_enqueue ledger_update_pending : tx_moves.

Lemma moves_clear c : moves keeps (clearIncompleteConversationState c).
Proof. unfold clearIncompleteConversationState. follow. Qed.

Lemma clear_certified c db u db' :
  clearIncompleteConversationState c db = Succeed (u, db') ->
  certified_records db' = certified_records db.
Proof.
  unfold clearIncompleteConversationState, delete_obligations, delete_evidence,
    delete_locks, delete_staged, delete_reanchors, constraint. intros Hrun. by tx.
Qed.

Lemma ledger_requireEmptyConversationPosition_ok expected db u db' :
  requireEmptyConversationPosition expected db = Succeed (u, db') -> db' = db /\
  map_Forall (fun k (_ : Z) => k.1 <> cf_conversationId expected) (certified_records db).
Proof.
  unfold requireEmptyConversationPosition, requireSameFoundation, requireSameBytes,
    readStoredPosition, requireEqual.
  intros Hrun. tx. case_match; tx. case_match; tx. guards. eauto.
Qed.

(** Where a conversation has no certified record, its position can restart. *)
Lemma restarted_ledger db c f :
  map_Forall (fun k (_ : Z) => k.1 <> c) (certified_records db) ->
  (forall p, ip_headRecordHash (f p) = None) -> (forall p, ip_headOrdinal (f p) = (-1)%Z) ->
  ledger None db -> ledger None (set_positions (alter f c) db).
Proof.
  intros Hempty Hhead Hord []. constructor; try done.
  - intros c' rh n Hn. destruct (l_chain0 _ _ _ Hn) as (p & r & ? & ?). exists p, r. split; [|done].
    simpl. rewrite lookup_alter_ne; [done|]. intros <-.
    by apply (map_Forall_lookup_1 _ _ _ _ Hempty Hn).
  - intros c' p. simpl. intros [(<- & p0 & _ & ->)|[_ Hp]]%lookup_alter_Some.
    + by rewrite Hhead, Hord.
    + by apply l_head0.
Qed.

Lemma ledger_restart expected replacement :
  cf_conversationId expected = cf_conversationId replacement ->
  moves keeps (restartInTransaction expected replacement).
Proof.
  intros Hsame db x db' Hrun Hl. unfold restartInTransaction in Hrun. tx.
  match goal with H : requireEmptyConversationPosition _ _ = _ |- _ =>
    apply ledger_requireEmptyConversationPosition_ok in H as [-> Hempty] end.
  match goal with H : clearIncompleteConversationState _ _ = _ |- _ =>
    pose proof (moves_clear _ _ _ _ H Hl) as Hl1; apply clear_certified in H as Hc end.
  rewrite <- Hc in Hempty. unfold installReplacementFoundation, update_position, constraint in *. tx.
  match goal with H : insert_anchor _ _ = _ |- _ => apply same_anchor in H; rename H into Ha end.
  pose proof (same_ledger _ _ _ Ha Hl1) as Hl2. destruct Ha as (_ & _ & _ & Hca & _).
  rewrite <- Hca, Hsame in Hempty.
  match goal with H : delete_anchors _ _ = _ |- _ =>
    apply same_delete_anchors in H; eapply same_ledger; [exact H|] end.
  by apply restarted_ledger.
Qed.

Lemma ledger_perform_keeps operation db : keeps db (perform operation db).2.
Proof.
  destruct operation; cbv beta iota delta [perform]; try (apply (perform_transaction keeps)).
  - unfold requireText, requireBytes, readStoredIdentity, requireSameBytes, requireEqual.
    intros db0 m db' Hrun. tx. case_match eqn:Hid; tx; [done|].
    intros Hl. rewrite (l_identity _ _ Hl) in Hid. done.
  - unfold validatePostIntentBinding, bindIntentWithFoundation, requireConversationFoundation,
      bindPostIntentInTransaction, requireSameBytes, requireText, requireBytes, requireEqual. follow.
  - follow.
  - follow.
  - follow.
  - follow.
  - follow.
  - follow.
  - follow.
  - follow.
  - follow.
  - unfold validateCompletedReanchor, requireBytes. follow.
  - unfold validateCompletedReanchor, requireBytes, retireSupersededCandidates. follow.
  - unfold acknowledgeDelivery. case_match; [|done]. apply (perform_transaction keeps).
    unfold acknowledgeInTransaction. follow.
  - follow.
  - unfold requireText, requireEqual, enqueueDisseminationInTransaction, attachObligation, constraint.
    follow.
  - unfold requireText, beginInTransaction, whenTx. follow.
  - unfold completeInTransaction. follow.
  - unfold discardInTransaction, discardRow, whenTx. follow.
  - unfold validateEmptyConversationRestart. intros db0 x db' Hrun. tx.
    repeat match goal with H : validateFoundation _ _ = _ |- _ => apply reads_validate_foundation in H as -> end.
    unfold requireSameBytes, requireEqual in *. tx. guards. by eapply ledger_restart.
Qed.


(** ** Histories *)

(** Each record names the one before it; the first names [previous]. *)
Fixpoint linked (previous : option string) (records : list StagedRecord) : Prop :=
  match records with
  | [] => True
  | r :: rest => sr_previousRecordHash r = previous /\ linked (Some (sr_recordHash r)) rest
  end.

Lemma linked_snoc previous records r :
  linked previous records ->
  sr_previousRecordHash r = from_option (fun l => Some (sr_recordHash l)) previous (last records) ->
  linked previous (records ++ [r]).
Proof.
  revert previous. induction records as [|r0 rest IH]; intros previous; simpl; [by intros _ ->|].
  intros [Hp Hl] Hr. split; [done|]. apply IH; [done|]. rewrite last_cons in Hr. by destruct (last rest).
Qed.

Definition deliveredCount (db : Database) (r : StagedRecord) : nat :=
  length (filter (fun d => deliveryKey d = (sr_conversationId r, sr_recordHash r))
            (pending_deliveries db)).

Lemma NoDup_fmap_filter {A B} `{EqDecision B} (f : A -> B) (l : list A) (y : B) :
  NoDup (f <$> l) -> length (filter (fun x => f x = y) l) = if decide (y ∈ f <$> l) then 1 else 0.
Proof.
  induction l as [|x l IH]; intros Hnd; [by rewrite decide_False by (simpl; set_solver)|].
  apply NoDup_cons in Hnd as [Hx Hnd]. specialize (IH Hnd). rewrite filter_cons.
  destruct (decide (f x = y)) as [<-|Hne]; simpl.
  - rewrite IH, decide_False by done. rewrite decide_True; [done|]. by left.
  - rewrite IH. destruct (decide (y ∈ f <$> l)).
    + rewrite decide_True; [done|]. by right.
    + rewrite decide_False; [done|]. set_solver.
Qed.

Lemma delivered_once db r n : ledger None db ->
  certified_records db !! (sr_conversationId r, sr_recordHash r) = Some n ->
  staged_records db !! (sr_conversationId r, sr_recordHash r) = Some r ->
  deliveredCount db r = if decide (sr_authorAgentId r = me) then 0 else 1.
Proof.
  intros Hl Hn Hr. unfold deliveredCount.
  rewrite (NoDup_fmap_filter deliveryKey) by apply (l_once _ _ Hl).
  destruct (decide (sr_authorAgentId r = me)) as [Hme|Hne].
  - rewrite decide_False; [done|]. intros (d & Hk & Hd)%list_elem_of_fmap.
    destruct (l_deliveries _ _ Hl d Hd) as (_ & n' & r' & _ & Hr' & Hne). rewrite <- Hk in Hr'.
    congruence.
  - rewrite decide_True; [done|]. eapply l_delivered; eauto.
Qed.

(** The records certified up to one of a conversation. *)
Lemma chain_to db c rh (n : nat) : ledger None db ->
  certified_records db !! (c, rh) = Some (Z.of_nat n) ->
  exists records, length records = S n /\ linked None records /\
    sr_recordHash <$> last records = Some rh /\
    forall i r, records !! i = Some r -> staged_records db !! (c, sr_recordHash r) = Some r /\
      certified_records db !! (c, sr_recordHash r) = Some (Z.of_nat i).
Proof.
  intros Hl. revert rh. induction n as [|n IH]; intros rh Hn;
    destruct (l_chain _ _ Hl _ _ _ Hn) as (p & r & Hp & Hr & Hb & Hprev);
    pose proof (l_staged _ _ Hl _ _ Hr) as Hk; injection Hk as Hc Hrh.
  - exists [r]. split_and!; [done| |simpl; congruence|].
    + simpl. split; [|done]. destruct (sr_previousRecordHash r) as [h|]; [|done].
      destruct (l_chain _ _ Hl _ _ _ Hprev) as (? & ? & ? & ? & ? & ?). lia.
    + intros [|i] r' Hi; simpl in Hi; simplify_eq. by split.
  - destruct (sr_previousRecordHash r) as [h|] eqn:Hh; [|lia].
    replace (Z.of_nat (S n) - 1)%Z with (Z.of_nat n) in Hprev by lia.
    destruct (IH h Hprev) as (records & Hlen & Hlink & Hlast & Hall).
    exists (records ++ [r])%list. split_and!.
    + rewrite length_app, Hlen. simpl. lia.
    + apply linked_snoc; [done|]. rewrite Hh. destruct (last records); simpl in *; congruence.
    + rewrite last_snoc. simpl. congruence.
    + intros i r' [Hi|[Hi Hr']]%lookup_app_Some; [by apply Hall|].
      apply list_lookup_singleton_Some in Hr' as [Hi0 <-]. rewrite <- Hrh.
      split; [done|]. rewrite Hn. f_equal. lia.
Qed.

Lemma ledger_bound : ledger None (boundStore identity).
Proof.
  constructor; simpl; try done; try (by constructor). intros d Hd. set_solver.
Qed.

(** C16: The certified records of a conversation are one chain from its first
    record to its head: they are numbered from zero in chain order, every
    number up to the head's is taken, and of each record another member wrote
    exactly one delivery is durable, of this endpoint's own records none,
    whatever operations the store has run and in whatever order. *)
Theorem certified_chain_delivered ops c p :
  let db := runOperations ops (boundStore identity) in
  conversation_state db !! c = Some p ->
  exists records, linked None records /\
    sr_recordHash <$> last records = ip_headRecordHash p /\
    (forall rh n, certified_records db !! (c, rh) = Some n <->
       exists i r, records !! i = Some r /\ sr_recordHash r = rh /\ n = Z.of_nat i) /\
    Forall (fun r => deliveredCount db r =
      if decide (sr_authorAgentId r = me) then 0 else 1) records.
Proof.
  intros db Hp.
  assert (ledger None db) as Hl.
  { apply runOperations_ind; [by intros operation db0; apply ledger_perform_keeps|].
    apply ledger_bound. }
  clearbody db. pose proof (l_head _ _ Hl c p Hp) as Hhead.
  destruct (ip_headRecordHash p) as [h|] eqn:Hh.
  - destruct (l_chain _ _ Hl _ _ _ Hhead) as (? & ? & ? & ? & [Hb ?] & ?).
    rewrite <- (Z2Nat.id (ip_headOrdinal p)) in Hhead by done.
    destruct (chain_to _ _ _ _ Hl Hhead) as (records & Hlen & Hlink & Hlast & Hall).
    exists records. split_and!; [done|done| |].
    + intros rh n. split; [|by intros (i & r & Hi & <- & ->); apply Hall].
      intros Hn. destruct (l_chain _ _ Hl _ _ _ Hn) as (p' & ? & Hp' & ? & Hbn & ?).
      rewrite Hp in Hp'. simplify_eq.
      destruct (lookup_lt_is_Some_2 records (Z.to_nat n)) as [r Hr]; [lia|].
      exists (Z.to_nat n), r. destruct (Hall _ _ Hr) as [_ Hc]. rewrite Z2Nat.id in * by lia.
      split_and!; [done| |done]. by eapply l_unique.
    + apply Forall_lookup. intros i r Hi. destruct (Hall i r Hi) as [Hr Hc].
      pose proof (l_staged _ _ Hl _ _ Hr) as Hk. injection Hk as Hk. rewrite Hk in Hr, Hc.
      by eapply delivered_once.
  - exists []. split_and!; [done|done| |by constructor].
    intros rh n. split; [|by intros (i & r & Hi & _)].
    intros Hn. destruct (l_chain _ _ Hl _ _ _ Hn) as (p' & ? & Hp' & ? & Hbn & ?).
    rewrite Hp in Hp'. simplify_eq. lia.
Qed.

End ledger.
(** ** The theorem on the concrete history *)

Module Runs := EndpointStore.StoreRuns.
#[local] Existing Instance Hosts.base64url.

Lemma run_position :
  conversation_state (runOperations (Runs.first_record ++ Runs.second_vote ++ Runs.second_record)
    (boundStore Runs.identity)) !! "c" =
  Some (mkInternalPosition "members" "anchor 0" (Some "record 2") 1).
Proof. vm_compute. reflexivity. Qed.

Lemma certified_chain_delivered_witness :
  exists records, linked None records /\ sr_recordHash <$> last records = Some "record 2".
Proof.
  destruct (certified_chain_delivered Runs.identity
    (Runs.first_record ++ Runs.second_vote ++ Runs.second_record) "c" _ run_position)
    as (records & Hlink & Hlast & _).
  exists records. split; assumption.
Defined.

End StoreLedger.
