(* ===== verification/StoreOutbox.v ===== *)
(** StoreOutbox: an envelope is handed to the Router in initial mode at most
    once, always with the same bytes, and never again once it is accepted or
    discarded. *)
From S2P Require Import Prelude JsMap Identifiers Hosts StoredHistory StoreDatabase StoreQueues.
From S2P Require Import StoreRecords StoreAnchors EndpointStore.
Local Open Scope string_scope.

Module StoreOutbox.
Import StoreDatabase StoreRows StoreQueues StoreRecords StoreAnchors EndpointStore StoreReads.

Section outbox.
Context `{Base64Url}.
Context (messageId : string).

(** How the row of an envelope may change. *)
Definition advances (row row' : RetainedOutbound) : Prop :=
  ro_outbound row' = ro_outbound row /\
  (ro_attempted row = true -> ro_attempted row' = true) /\
  (ro_disposition row <> pending -> ro_disposition row' = ro_disposition row).

#[global] Instance advances_preorder : PreOrder advances.
Proof.
  split; [by intros row|]. intros r1 r2 r3 (H1 & H2 & H3) (H1' & H2' & H3').
  split_and!; [congruence|auto|]. intros Hd. rewrite H3' by (by rewrite H3). auto.
Qed.

Definition retains (db db' : Database) : Prop :=
  forall row, findOutbound db messageId = Some row ->
    exists row', findOutbound db' messageId = Some row' /\ advances row row'.

#[global] Instance retains_preorder : PreOrder retains.
Proof.
  split; [intros db held Hr; exists held; by split|].
  intros db1 db2 db3 H12 H23 held Hr. destruct (H12 held Hr) as (r2 & Hr2 & Ha).
  destruct (H23 r2 Hr2) as (r3 & Hr3 & Ha'). exists r3. split; [done|by etrans].
Qed.

Lemma retains_same db db' : outbound_messages db' = outbound_messages db -> retains db db'.
Proof. intros Ho row. unfold findOutbound. rewrite Ho. intros Hr. by exists row. Qed.

Lemma outbox_modify f : (forall db, outbound_messages (f db) = outbound_messages db) ->
  moves retains (modify f).
Proof. intros Hf. apply moves_modify. intros db. by apply retains_same. Qed.
Ltac same := apply outbox_modify; by intros [].

Lemma retains_membership m : moves retains (insert_membership m).
Proof. unfold insert_membership, constraint. follow. same. Qed.
Lemma retains_post_intent i : moves retains (insert_post_intent i).
Proof. unfold insert_post_intent, constraint. follow. same. Qed.
Lemma retains_anchor a : moves retains (insert_anchor a).
Proof. unfold insert_anchor, constraint. follow. same. Qed.
Lemma retains_insert_position c p : moves retains (insert_position c p).
Proof. unfold insert_position, constraint. follow. same. Qed.
Lemma retains_position c f : moves retains (update_position c f).
Proof. unfold update_position, constraint. follow. same. Qed.
Lemma retains_insert_lock k l : moves retains (insert_lock k l).
Proof. unfold insert_lock, constraint. follow. same. Qed.
Lemma retains_insert_staged r : moves retains (insert_staged r).
Proof. unfold insert_staged, constraint. follow. same. Qed.
Lemma retains_evidence e : moves retains (insert_evidence e).
Proof. unfold insert_evidence, constraint. follow. same. Qed.
Lemma retains_certified c r o : moves retains (insert_certified c r o).
Proof. unfold insert_certified, constraint. follow. same. Qed.
Lemma retains_insert_reanchor r : moves retains (insert_reanchor r).
Proof. unfold insert_reanchor, constraint. follow. same. Qed.
Lemma retains_delivery d : moves retains (insert_delivery d).
Proof. unfold insert_delivery, constraint. follow. same. Qed.
Lemma retains_obligation d : moves retains (insert_obligation d).
Proof. unfold insert_obligation, constraint. follow. same. Qed.
Lemma retains_set_identity f : moves retains (modify (set_identity f)).
Proof. same. Qed.
Lemma retains_set_intents f : moves retains (modify (set_post_intents f)).
Proof. same. Qed.
Lemma retains_set_obligations f : moves retains (modify (set_obligations f)).
Proof. same. Qed.
Lemma retains_set_deliveries f : moves retains (modify (set_deliveries f)).
Proof. same. Qed.
Lemma retains_set_reanchors f : moves retains (modify (set_reanchors f)).
Proof. same. Qed.
Lemma retains_delete_staged P : moves retains (delete_staged P).
Proof. unfold delete_staged, constraint. follow. same. Qed.
Lemma retains_delete_anchors P : moves retains (delete_anchors P).
Proof. unfold delete_anchors, constraint. follow. same. Qed.
Lemma retains_delete_obligations P : moves retains (delete_obligations P).
Proof. unfold delete_obligations. same. Qed.
Lemma retains_delete_evidence P : moves retains (delete_evidence P).
Proof. unfold delete_evidence. same. Qed.
Lemma retains_delete_locks P : moves retains (delete_locks P).
Proof. unfold delete_locks. same. Qed.
Lemma retains_delete_reanchors P : moves retains (delete_reanchors P).
Proof. unfold delete_reanchors. same. Qed.

(** An update of rows that keeps their envelopes. *)
Lemma retains_rows f : (forall row, advances row (f row)) ->
  moves retains (modify (set_outbound (fmap f))).
Proof.
  intros Hf. apply moves_modify. intros db row. unfold findOutbound. simpl.
  induction (outbound_messages db) as [|o l IH]; simpl; [done|].
  destruct (Hf o) as (-> & _). case_bool_decide; [intros [= ->]|done].
  exists (f row). split; [done|apply Hf].
Qed.

Lemma retains_insert_outbound o : moves retains (insert_outbound o).
Proof.
  unfold insert_outbound, constraint. follow. apply moves_modify. intros db row.
  unfold findOutbound. simpl. induction (outbound_messages db) as [|o' l IH]; simpl; [done|].
  case_bool_decide; [|done]. intros [= ->]. by exists row.
Qed.

Lemma retains_pending i f : (forall row, ro_disposition row = pending -> advances row (f row)) ->
  moves retains (updatePending i f).
Proof.
  intros Hf. apply retains_rows. intros row. case_bool_decide as Hp; [apply Hf; naive_solver|done].
Qed.
Lemma advances_attempted row : advances row (setAttempted row).
Proof. by split_and!. Qed.
Lemma advances_disposed d row : ro_disposition row = pending -> advances row (setDisposition d row).
Proof. intros Hp. split_and!; [done..|]. by intros []. Qed.
Lemma advances_discarded c row :
  advances row (if bool_decide (om_conversationId (ro_outbound row) = c /\ ro_disposition row = pending)
                then setDisposition discarded row else row).
Proof. case_bool_decide as Hp; [|done]. apply advances_disposed. naive_solver. Qed.
#[local] Hint Resolve retains_membership retains_post_intent retains_anchor retains_insert_position
  retains_position retains_insert_lock retains_insert_staged retains_evidence retains_certified
  retains_insert_reanchor retains_delivery retains_obligation retains_set_identity
  retains_set_intents retains_set_obligations retains_set_deliveries retains_set_reanchors
  retains_delete_staged retains_delete_anchors retains_delete_obligations retains_delete_evidence
  retains_delete_locks retains_delete_reanchors retains_rows retains_insert_outbound
  retains_pending advances_attempted advances_disposed advances_discarded : tx_moves.

Lemma retains_mint l f : moves eq (mintFrom l f).
Proof. induction l as [|x l IH]; simpl; follow. Qed.
#[local] Hint Resolve retains_mint : tx_reads.

Lemma retains_foundation f : moves retains (putConversationFoundationInTransaction f).
Proof. unfold putConversationFoundationInTransaction, insertFoundation. follow. Qed.
Lemma retains_merge e : moves retains (mergeEvidenceInTransaction e).
Proof.
  unfold mergeEvidenceInTransaction, requireEvidenceSubject, requireMembership,
    requireLocalEvidenceLock, requireLocalDurabilityEvidenceLock, requireNoReanchorAwayFrom,
    requireSameBytes, requireEqual. follow.
Qed.
#[local] Hint Resolve retains_foundation retains_merge : tx_moves.
Lemma retains_merge_all l m : moves retains (mergeAll l m).
Proof. revert m. induction l as [|e l IH]; intros m; simpl; follow. Qed.
Lemma retains_lock l : moves retains (lockProposalInTransaction l).
Proof. unfold lockProposalInTransaction, requireEqual. follow. Qed.
Lemma retains_release l : moves retains (releaseProposalLock l).
Proof. unfold releaseProposalLock. follow. Qed.
Lemma retains_retain_delivery r d t : moves retains (retainDeliveryInTransaction r d t).
Proof.
  unfold retainDeliveryInTransaction, mintDeliveryToken, requireText, requireBytes,
    requireSameBytes, requireEqual. follow.
Qed.
Lemma retains_enqueue m : moves retains (enqueueOutboundInTransaction m).
Proof.
  unfold enqueueOutboundInTransaction, requireMessageIdAvailable, requireSameBytes, requireEqual.
  follow.
Qed.
#[local] Hint Resolve retains_merge_all retains_lock retains_release retains_retain_delivery
  retains_enqueue : tx_moves.
Lemma retains_promote r d t : moves retains (promoteRecordInTransaction r d t).
Proof.
  unfold promoteRecordInTransaction, mergeCertifiedEvidence, insertCertifiedRecord,
    completeLocalPostIntent, requireEqual. follow.
Qed.
Lemma retains_stage_record r p : moves retains (stageRecordInTransaction r p).
Proof.
  unfold stageRecordInTransaction, requireRecordPosition, requireNoReanchorAwayFrom, requireEqual.
  follow.
Qed.
Lemma retains_stage_reanchor r p : moves retains (stageReanchorInTransaction r p).
Proof.
  unfold stageReanchorInTransaction, requireUnclaimedReanchorScope, requireReanchorPosition,
    requireNoStagedSuccessor, requireEqual. follow.
Qed.
Lemma retains_complete_reanchor r : moves retains (completeReanchorInTransaction r).
Proof.
  unfold completeReanchorInTransaction, insertCompletedReanchor, releaseSupersededProposal,
    requireReanchorPosition, requireEqual. follow.
Qed.
#[local] Hint Resolve retains_promote retains_stage_record retains_stage_reanchor
  retains_complete_reanchor : tx_moves.

Lemma perform_retains operation db : retains db (perform operation db).2.
Proof.
  destruct operation; cbv beta iota delta [perform]; try (apply (perform_transaction retains)).
  - unfold requireText, requireBytes, requireSameBytes, requireEqual. follow.
  - unfold validatePostIntentBinding, bindIntentWithFoundation, requireConversationFoundation,
      bindPostIntentInTransaction, requireSameBytes, requireText, requireBytes, requireEqual. follow.
  - follow.
  - follow.
  - follow.
  - unfold supersedeInTransaction. follow.
  - unfold retainDisseminationInTransaction, requireText. follow.
  - follow.
  - follow.
  - follow.
  - follow.
  - unfold validateCompletedReanchor, requireBytes. follow.
  - unfold validateCompletedReanchor, requireBytes, retireSupersededCandidates. follow.
  - unfold acknowledgeDelivery. case_match; [|done]. apply (perform_transaction retains).
    unfold acknowledgeInTransaction. follow.
  - follow.
  - unfold requireText, requireEqual, enqueueDisseminationInTransaction, attachObligation, constraint.
    follow.
  - unfold requireText, beginInTransaction, whenTx. follow.
  - unfold completeInTransaction. follow.
  - unfold discardInTransaction, discardRow, whenTx. follow.
  - unfold validateEmptyConversationRestart, restartInTransaction, requireEmptyConversationPosition,
      clearIncompleteConversationState, installReplacementFoundation, requireSameBytes, requireEqual.
    follow.
Qed.

Lemma run_retains operations db : retains db (runOperations operations db).
Proof.
  apply (runOperations_ind (retains db)); [|done]. intros operation db0 Hr.
  etrans; [exact Hr|apply perform_retains].
Qed.


(** ** Attempts *)

Lemma findOutbound_update db i f :
  (forall row, ro_outbound (f row) = ro_outbound row) ->
  findOutbound (set_outbound (fmap f) db) i = f <$> findOutbound db i.
Proof.
  intros Hf. unfold findOutbound. simpl. induction (outbound_messages db) as [|o l IH]; simpl; [done|].
  rewrite Hf. by case_bool_decide.
Qed.

Lemma findOutbound_id db i row :
  findOutbound db i = Some row -> om_messageId (ro_outbound row) = i.
Proof. intros [_ Hb%bool_decide_eq_true]%find_some. done. Qed.

Definition attemptOf (row : RetainedOutbound) : OutboundAttempt :=
  if bool_decide (ro_disposition row <> pending) then Inactive
  else PendingAttempt (if ro_attempted row then RetryAttempt else InitialAttempt) (ro_outbound row).

(** An attempt reads the envelope's row and marks it attempted. *)
Lemma beginOutbound_row db out db' :
  beginOutbound messageId db = (Succeed out, db') ->
  exists row row', findOutbound db messageId = Some row /\ out = attemptOf row /\
    findOutbound db' messageId = Some row' /\ advances row row' /\
    (ro_disposition row = pending -> ro_attempted row' = true) /\
    forall db2 row2, findOutbound db2 messageId = Some row2 ->
      (beginOutbound messageId db2).1 = Succeed (attemptOf row2).
Proof.
  unfold beginOutbound. intros Hrun.
  match type of Hrun with transaction ?m _ = _ =>
    destruct (transaction_cases m db) as [(x & d & Hop & Ht)|(e & _ & Ht)];
      rewrite Ht in Hrun; simplify_eq end.
  apply tx_bind_ok in Hop as (u & db1 & Htext & Hop). apply require_ok in Htext as (Htext & _ & ->).
  assert (forall db2 row2, findOutbound db2 messageId = Some row2 ->
    (transaction (requireText messageId ;; beginInTransaction messageId) db2).1 =
    Succeed (attemptOf row2)) as Hall.
  { intros db2 row2 Hr. unfold transaction, beginInTransaction, requireOutbound, requireText,
      require, whenTx, updatePending, modify, gets, mbind, tx_bind, mret, tx_ret, attemptOf. simpl.
    rewrite Htext. simpl. rewrite Hr. destruct (decide (ro_disposition row2 = pending)) as [Hp|Hp].
    - rewrite !bool_decide_false by (by intros []). by destruct (ro_attempted row2).
    - by rewrite !bool_decide_true. }
  clear Htext Ht. unfold beginInTransaction, requireOutbound in Hop. tx.
  destruct (findOutbound db messageId) as [held|] eqn:Hf; tx. exists held.
  destruct (decide (ro_disposition held = pending)) as [Hp|Hp].
  - rewrite bool_decide_false in Hop by (by intros []). tx. unfold whenTx in *.
    unfold attemptOf. rewrite bool_decide_false by (by intros []).
    destruct (ro_attempted held) eqn:Hatt; simpl in *; tx; [exists held; split_and!; done || reflexivity|].
    unfold updatePending in *. tx. eexists. split_and!; [done|done| | | |done].
    + rewrite findOutbound_update, Hf by (intros; by case_bool_decide). done.
    + case_bool_decide; [apply advances_attempted|done].
    + intros _. rewrite bool_decide_true; [done|]. split; [|done]. by eapply findOutbound_id.
  - rewrite bool_decide_true in Hop by done. tx. exists held.
    unfold attemptOf. rewrite bool_decide_true by done. split_and!; done || reflexivity.
Qed.

(** C31: Each envelope is handed to the Router in initial mode at most once:
    after one attempt, whatever the store does, every later attempt is a retry
    of exactly the same signed bytes or finds the envelope settled; and once an
    attempt finds it settled, every later one does. *)
Theorem initial_attempt_once operations db out db' :
  beginOutbound messageId db = (Succeed out, db') ->
  let later := (beginOutbound messageId (runOperations operations db')).1 in
  match out with
  | Inactive => later = Succeed Inactive
  | PendingAttempt _ outbound =>
    later = Succeed Inactive \/ later = Succeed (PendingAttempt RetryAttempt outbound)
  end.
Proof.
  intros (row & row' & Hr & -> & Hr' & (Ho & _ & Hset) & Hatt & Hall)%beginOutbound_row later.
  destruct (run_retains operations db' row' Hr') as (row2 & Hr2 & Ho2 & Hatt2 & Hset2).
  unfold later. rewrite (Hall _ _ Hr2). unfold attemptOf. case_bool_decide as Hd.
  - rewrite bool_decide_true; [done|]. by rewrite Hset2, Hset by (rewrite ?Hset; done).
  - assert (ro_disposition row = pending) as Hp by (by destruct (decide (ro_disposition row = pending))).
    case_bool_decide; [by left|right]. rewrite Hatt2 by auto. by rewrite Ho2, Ho.
Qed.

End outbox.
(** ** The theorem on a concrete outbox *)

Module Runs := EndpointStore.StoreRuns.
#[local] Existing Instance Hosts.base64url.

Definition envelope : OutboundMessageInput := mkOutbound "v1" "c" "message 1" "signed envelope".
Definition queued : Database :=
  Eval vm_compute in runOperations (Runs.first_record ++ [EnqueueOutbound envelope])
    (boundStore Runs.identity).

Lemma initial_attempt_once_witness :
  (beginOutbound "message 1" queued).1 = Succeed (PendingAttempt InitialAttempt envelope) /\
  let later := (beginOutbound "message 1" (runOperations [CompleteOutbound envelope]
                  (beginOutbound "message 1" queued).2)).1 in
  later = Succeed Inactive \/ later = Succeed (PendingAttempt RetryAttempt envelope).
Proof.
  assert (beginOutbound "message 1" queued =
    (Succeed (PendingAttempt InitialAttempt envelope), (beginOutbound "message 1" queued).2)) as Hb.
  { vm_compute. reflexivity. }
  split; [rewrite Hb; reflexivity|].
  exact (initial_attempt_once "message 1" [CompleteOutbound envelope] queued _ _ Hb).
Defined.

End StoreOutbox.
