(* ===== verification/StoreLocks.v ===== *)
(** StoreLocks: which store operations change the proposal locks, and how.
    Staging, evidence, promotion and the outbox leave every lock as it is; a
    lock is taken only where none is held, and replaced only by
    [supersedeProposalLock]. *)
From S2P Require Import Prelude JsMap Identifiers StoredHistory StoreDatabase StoreQueues.
From S2P Require Import StoreRecords StoreAnchors EndpointStore StoreVotes.
Local Open Scope string_scope.

Module StoreLocks.
Import StoreDatabase StoreRows StoreQueues StoreRecords StoreAnchors StoreReads StoreVotes.

Section locks.
Context `{Base64Url}.

(** ** Operations that change no lock *)

(** The signature of the member [key] for the action [h] is durable. *)
Definition actionRow (db : Database) (c h key : string) : Prop :=
  is_Some (protocol_evidence db !! (c, ActionEvidence, h, key)).
Definition rowsGrow (db db' : Database) : Prop :=
  forall id, is_Some (protocol_evidence db !! id) -> is_Some (protocol_evidence db' !! id).

#[global] Instance rowsGrow_preorder : PreOrder rowsGrow.
Proof. unfold rowsGrow. split; [by intros db|intros ???; eauto]. Qed.

Definition sameLocks (db db' : Database) : Prop :=
  proposal_locks db' = proposal_locks db /\ rowsGrow db db'.

#[global] Instance sameLocks_preorder : PreOrder sameLocks.
Proof.
  unfold sameLocks. split; [by intros db|]. intros ??? [] []. split; [congruence|by etrans].
Qed.

Lemma locks_modify f : (forall db, proposal_locks (f db) = proposal_locks db) ->
  (forall db, protocol_evidence (f db) = protocol_evidence db) -> moves sameLocks (modify f).
Proof.
  intros Hf He. apply moves_modify. intros db. split; [done|]. intros id.
  by rewrite He.
Qed.

(** A statement that writes another table. *)
Ltac other_table := follow; apply locks_modify; by intros [].

Lemma locks_membership m : moves sameLocks (insert_membership m).
Proof. unfold insert_membership, constraint. other_table. Qed.
Lemma locks_anchor a : moves sameLocks (insert_anchor a).
Proof. unfold insert_anchor, constraint. other_table. Qed.
Lemma locks_insert_position c p : moves sameLocks (insert_position c p).
Proof. unfold insert_position, constraint. other_table. Qed.
Lemma locks_position c f : moves sameLocks (update_position c f).
Proof. unfold update_position, constraint. other_table. Qed.
Lemma locks_staged r : moves sameLocks (insert_staged r).
Proof. unfold insert_staged, constraint. other_table. Qed.
Lemma locks_evidence e : moves sameLocks (insert_evidence e).
Proof.
  unfold insert_evidence, constraint. follow. apply moves_modify. intros db. split; [done|].
  intros id Hid. simpl. apply lookup_insert_is_Some'. by right.
Qed.
Lemma locks_certified c r o : moves sameLocks (insert_certified c r o).
Proof. unfold insert_certified, constraint. other_table. Qed.
Lemma locks_delivery d : moves sameLocks (insert_delivery d).
Proof. unfold insert_delivery, constraint. other_table. Qed.
Lemma locks_outbound o : moves sameLocks (insert_outbound o).
Proof. unfold insert_outbound, constraint. other_table. Qed.
Lemma locks_obligation d : moves sameLocks (insert_obligation d).
Proof. unfold insert_obligation, constraint. other_table. Qed.
Lemma locks_post_intent i : moves sameLocks (insert_post_intent i).
Proof. unfold insert_post_intent, constraint. other_table. Qed.
Lemma locks_set_intents f : moves sameLocks (modify (set_post_intents f)).
Proof. other_table. Qed.
Lemma locks_set_obligations f : moves sameLocks (modify (set_obligations f)).
Proof. other_table. Qed.
Lemma locks_mint l f : moves eq (mintFrom l f).
Proof. induction l as [|x l IH]; simpl; follow. Qed.
#[local] Hint Resolve locks_mint : tx_reads.
#[local] Hint Resolve locks_membership locks_anchor locks_insert_position locks_position
  locks_staged locks_evidence locks_certified locks_delivery locks_outbound locks_obligation
  locks_post_intent locks_set_intents locks_set_obligations : tx_moves.

Lemma locks_merge e : moves sameLocks (mergeEvidenceInTransaction e).
Proof.
  unfold mergeEvidenceInTransaction, requireEvidenceSubject, requireMembership,
    requireLocalEvidenceLock, requireLocalDurabilityEvidenceLock, requireNoReanchorAwayFrom,
    requireSameBytes, requireEqual. follow.
Qed.
Lemma locks_foundation f : moves sameLocks (putConversationFoundationInTransaction f).
Proof. unfold putConversationFoundationInTransaction, insertFoundation. follow. Qed.
Lemma locks_delivery_tx r d t : moves sameLocks (retainDeliveryInTransaction r d t).
Proof.
  unfold retainDeliveryInTransaction, mintDeliveryToken, requireText, requireBytes,
    requireSameBytes, requireEqual. follow.
Qed.
Lemma locks_stage r p : moves sameLocks (stageRecordInTransaction r p).
Proof.
  unfold stageRecordInTransaction, requireRecordPosition, requireNoReanchorAwayFrom, requireEqual.
  follow.
Qed.
Lemma locks_enqueue m : moves sameLocks (enqueueOutboundInTransaction m).
Proof.
  unfold enqueueOutboundInTransaction, requireMessageIdAvailable, requireSameBytes, requireEqual.
  follow.
Qed.
#[local] Hint Resolve locks_merge locks_foundation locks_delivery_tx locks_stage locks_enqueue :
  tx_moves.
Lemma locks_merge_all l m : moves sameLocks (mergeAll l m).
Proof. revert m. induction l as [|e l IH]; intros m; simpl; follow. Qed.
#[local] Hint Resolve locks_merge_all : tx_moves.
Lemma locks_promote r d t : moves sameLocks (promoteRecordInTransaction r d t).
Proof.
  unfold promoteRecordInTransaction, mergeCertifiedEvidence, insertCertifiedRecord,
    completeLocalPostIntent, requireEqual. follow.
Qed.
#[local] Hint Resolve locks_promote : tx_moves.

(** An operation that fails changes nothing. *)
Definition failsClean {A} (operation : Database -> Exit EndpointStoreFailure A * Database) : Prop :=
  forall db e db', operation db = (Fail_ e, db') -> db' = db.

Lemma transaction_failed {A} (m : Tx A) : failsClean (transaction m).
Proof. intros db e db'. unfold transaction. case_match; [by destruct a|]. by intros [= _ ->]. Qed.

(** An operation of the store that changes no lock and loses no signature of an
    action. *)
Record keepsLocks {A} (operation : Database -> Exit EndpointStoreFailure A * Database) : Prop := {
  keeps_failed : failsClean operation;
  keeps_lock db : proposal_locks (operation db).2 = proposal_locks db;
  keeps_rows db : rowsGrow db (operation db).2;
}.

Lemma keepsLocks_transaction {A} (m : Tx A) : moves sameLocks m -> keepsLocks (transaction m).
Proof.
  intros Hm. split; [apply transaction_failed|..]; intros db;
    destruct (transaction_cases m db) as [(a & db' & Hop & ->)|(e & _ & ->)];
    first [by destruct (Hm _ _ _ Hop)|done].
Qed.
Ltac keeps_locks := apply keepsLocks_transaction;
  unfold requireText, requireBytes, requireSameBytes, requireEqual; follow.

Lemma mergeEvidence_keepsLocks e : keepsLocks (mergeEvidence e).
Proof. keeps_locks. Qed.
Lemma stageRecordForDissemination_keepsLocks r : keepsLocks (stageRecordForDissemination r).
Proof. apply keepsLocks_transaction. unfold retainDisseminationInTransaction, requireText. follow. Qed.
Lemma promoteRecord_keepsLocks r d t : keepsLocks (promoteRecord r d t).
Proof. keeps_locks. Qed.
Lemma applyCertifiedRecord_keepsLocks r d t : keepsLocks (applyCertifiedRecord r d t).
Proof. keeps_locks. Qed.
Lemma enqueueOutbound_keepsLocks m : keepsLocks (enqueueOutbound m).
Proof. keeps_locks. Qed.
Lemma enqueueDisseminationOutbound_keepsLocks c r m :
  keepsLocks (enqueueDisseminationOutbound c r m).
Proof.
  apply keepsLocks_transaction. unfold enqueueDisseminationInTransaction, attachObligation,
    constraint, requireText, requireEqual. follow.
Qed.
Lemma bindPostIntent_keepsLocks b : keepsLocks (bindPostIntent b).
Proof.
  apply keepsLocks_transaction. unfold validatePostIntentBinding, bindIntentWithFoundation,
    requireConversationFoundation, bindPostIntentInTransaction, requireSameBytes, requireText,
    requireBytes, requireEqual. follow.
Qed.

(** ** Operations that take a lock *)

Definition lockKey (lock : ProposalLock) : string * string :=
  (pl_conversationId lock, predecessorKey (pl_previousRecordHash lock)).

(** Afterwards [lock]'s action holds its predecessor; a lock is added only
    where none was held. *)
Definition takesLock (lock : ProposalLock) (locks locks' : gmap (string * string) ProposalLock) :
    Prop :=
  (exists held, locks !! lockKey lock = Some held /\ pl_actionHash held = pl_actionHash lock /\
     locks' = locks) \/
  (locks !! lockKey lock = None /\ locks' = <[lockKey lock := lock]> locks).

Lemma lockProposalInTransaction_takes lock db m db' :
  lockProposalInTransaction lock db = Succeed (m, db') ->
  takesLock lock (proposal_locks db) (proposal_locks db') /\ rowsGrow db db'.
Proof.
  unfold lockProposalInTransaction, findProposalLock, insert_lock, constraint, readStoredPosition,
    requireEqual.
  intros Hrun. tx. case_match eqn:Hl; tx.
  - unfold requireSameProposalLock, requireSameBytes, requireEqual in *. tx. guards.
    split; [left; eauto|done].
  - guards. case_match; tx. split; [right; by split|by intros id].
Qed.

Lemma transaction_ok {A} (m : Tx A) db a db' :
  transaction m db = (Succeed a, db') -> m db = Succeed (a, db').
Proof. unfold transaction. case_match; [|done]. by destruct a0; intros [= -> ->]. Qed.

Lemma lockProposal_takes lock db m db' :
  lockProposal lock db = (Succeed m, db') ->
  takesLock lock (proposal_locks db) (proposal_locks db') /\ rowsGrow db db'.
Proof.
  intros Hrun%transaction_ok. apply tx_bind_ok in Hrun as (u & db1 & Hv & Hrun).
  apply reads_validate_lock in Hv as <-. by eapply lockProposalInTransaction_takes.
Qed.

Lemma lockGenesisProposal_takes foundation lock db m db' :
  lockGenesisProposal foundation lock db = (Succeed m, db') ->
  takesLock lock (proposal_locks db) (proposal_locks db') /\ rowsGrow db db'.
Proof.
  intros Hrun%transaction_ok. apply tx_bind_ok in Hrun as (u & db1 & Hv & Hrun).
  apply reads_validate_lock in Hv as <-.
  apply tx_bind_ok in Hrun as (u' & db2 & Hr & Hrun).
  apply require_ok in Hr as (_ & _ & ->).
  apply tx_bind_ok in Hrun as (f & db3 & Hf & Hrun). apply locks_foundation in Hf as [Hf Hrows].
  rewrite <- Hf. apply tx_bind_ok in Hrun as (p & db4 & Hp & Hrun).
  apply ret_ok in Hrun as [_ ->]. apply lockProposalInTransaction_takes in Hp as [??].
  split; [done|by etrans].
Qed.

(** The locks a superseded action loses. *)
Definition released (held : ProposalLock) (locks : gmap (string * string) ProposalLock) :=
  filter (fun kl => releases held kl.2 = false) locks.

(** The certificate's signatures are merged one by one. *)
Lemma mergeAll_rows l m0 db m db' : mergeAll l m0 db = Succeed (m, db') ->
  Forall (fun e => is_Some (protocol_evidence db' !! evidence_identity e)) l.
Proof.
  revert m0 db. induction l as [|e l IH]; intros m0 db; simpl; [by constructor|].
  intros (m1 & db1 & Hone & Hrest)%tx_bind_ok. constructor; [|by eapply IH].
  apply locks_merge_all in Hrest as [_ Hrest]. apply Hrest.
  apply tx_bind_ok in Hone as (u & db2 & _ & Hone).
  apply tx_bind_ok in Hone as (db3 & db4 & [-> ->]%gets_ok & Hone).
  unfold findEvidence, id in Hone. destruct (protocol_evidence db2 !! _) as [b|] eqn:Hb.
  - apply tx_bind_ok in Hone as (? & ? & (_ & _ & ->)%require_ok & Hone).
    apply ret_ok in Hone as [_ ->]. by exists b.
  - apply tx_bind_ok in Hone as (? & ? & Hins & [_ ->]%ret_ok).
    apply tx_bind_ok in Hins as (? & ? & [-> ->]%gets_ok & Hins).
    apply tx_bind_ok in Hins as (? & ? & (_ & _ & ->)%require_ok & Hins).
    apply db_modify_ok in Hins as [_ ->]. simpl. rewrite lookup_insert_eq. eauto.
Qed.

(** A release loses the signatures of the action it releases, and of no other
    when no record of the action is staged. *)
Lemma release_rows l db u db' : releaseProposalLock l db = Succeed (u, db') ->
  forall c h key, actionRow db c h key -> ~ (c = pl_conversationId l /\ h = pl_actionHash l) ->
  actionRow db' c h key.
Proof.
  unfold releaseProposalLock, delete_obligations, delete_evidence, delete_staged, delete_locks,
    constraint, actionRow.
  intros Hrun. tx. simpl. intros c h key [b Hb] Hne. exists b.
  repeat (apply map_lookup_filter_Some; split); [done|..]; simpl;
    apply bool_decide_eq_false; naive_solver.
Qed.

(** Afterwards [lock]'s action holds its predecessor and its certificate is
    durable; the lock of another action there is released first, with that
    action's signatures. *)
Lemma supersedeProposalLock_takes lock certificate db m db' :
  supersedeProposalLock lock certificate db = (Succeed m, db') ->
  (takesLock lock (proposal_locks db) (proposal_locks db') \/
   exists held, proposal_locks db !! lockKey lock = Some held /\
     pl_actionHash held <> pl_actionHash lock /\
     takesLock lock (released held (proposal_locks db)) (proposal_locks db')) /\
  (forall c h key, actionRow db c h key ->
     (forall held, proposal_locks db !! lockKey lock = Some held ->
        pl_actionHash held <> pl_actionHash lock ->
        ~ (c = pl_conversationId held /\ h = pl_actionHash held)) -> actionRow db' c h key) /\
  Forall (fun e => is_Some (protocol_evidence db' !! evidence_identity e)) certificate.
Proof.
  intros Hrun%transaction_ok. apply tx_bind_ok in Hrun as (u & db1 & Hv & Hrun).
  apply reads_validate_certificate in Hv as <-. unfold supersedeInTransaction, findProposalLock in Hrun.
  apply tx_bind_ok in Hrun as (db0 & db1 & [-> ->]%gets_ok & Hrun).
  apply tx_bind_ok in Hrun as (u' & db2 & Hrel & Hrun).
  apply tx_bind_ok in Hrun as (m' & db3 & [Hlock Hrows3]%lockProposalInTransaction_takes & Hrun).
  apply tx_bind_ok in Hrun as (m'' & db4 & Hmerge & Hrun).
  apply ret_ok in Hrun as [_ ->]. pose proof (mergeAll_rows _ _ _ _ _ Hmerge) as Hcert.
  apply locks_merge_all in Hmerge as [Hmerge Hrows4].
  assert (forall c h key, actionRow db2 c h key -> actionRow db4 c h key) as Hafter.
  { intros c h key Hr. by apply Hrows4, Hrows3. }
  rewrite Hmerge. unfold id in Hrel.
  destruct (proposal_locks db !! _) as [held|] eqn:Hheld;
    [|apply ret_ok in Hrel as [_ ->]; split_and!; [by left|eauto|done]].
  case_match eqn:Hne; [|apply ret_ok in Hrel as [_ ->]; split_and!; [by left|eauto|done]]. guards.
  apply tx_bind_ok in Hrel as (u'' & db4' & (_ & _ & ->)%require_ok & Hrel).
  pose proof (release_rows _ _ _ _ Hrel) as Hkept.
  apply release_effect in Hrel as (_ & _ & _ & _ & _ & Hl & _).
  split_and!; [|intros; by apply Hafter, Hkept; eauto|done].
  right. exists held. split_and!; [done|done|]. unfold released. by rewrite <- Hl.
Qed.

End locks.
End StoreLocks.
