(* ===== verification/StoreRecovery.v ===== *)
(** StoreRecovery: the snapshot of the endpoint store an engine starts from,
    and the frozen pages of certified history the owner tools read
    (packages/client/src/communication/store/reads.ts).

    The store's staged records are a map from their key, so the order of their
    rows is a parameter, [rowOrder], which lists each row once. *)
From S2P Require Import Prelude JsMap Identifiers CollectivePart StoredHistory StoreDatabase.
From S2P Require Import StoreQueues.
From Stdlib Require Import Ascii.
Local Open Scope string_scope.

(** The order the rows of a table were inserted in. *)
Class RowOrder := {
  rowOrder : list StoredHistory.StagedRecord -> list StoredHistory.StagedRecord;
  rowOrder_perm l : rowOrder l ≡ₚ l;
}.

Module StoreRecovery.
Import StoreDatabase StoreRows StoreQueues.

(** ** Orders *)

(** ORDER BY text columns. *)
Fixpoint textLeb (l r : list string) : bool :=
  match l, r with
  | [], _ => true
  | _, [] => false
  | x :: l', y :: r' => if decide (x = y) then textLeb l' r' else String.leb x y
  end.
Definition keyNotAfter {A} (key : A -> list string) (x y : A) : Prop :=
  textLeb (key x) (key y) = true.
#[global] Instance keyNotAfter_dec {A} (key : A -> list string) x y : Decision (keyNotAfter key x y).
Proof. unfold keyNotAfter. apply _. Defined.
Definition orderBy {A} (key : A -> list string) (l : list A) : list A :=
  merge_sort (keyNotAfter key) l.

(** WHERE conversation_id = ?, when one is given. *)
Definition selects (only : option string) (conversationId : string) : bool :=
  match only with None => true | Some c => bool_decide (conversationId = c) end.
Definition ofConversation {A} (only : option string) (conversationOf : A -> string) (l : list A) :
    list A :=
  filter (fun a => selects only (conversationOf a) = true) l.

(** ** The tables *)

Definition readPostIntents (db : Database) (only : option string) : list PostIntentRow :=
  orderBy (fun i => [pi_authorAgentId i; pi_postId i])
    (ofConversation only pi_conversationId (map_to_list (post_intents db)).*2).

Definition readMemberships (db : Database) (only : option string) : list StoredMembership :=
  orderBy (fun m => [sm_conversationId m])
    (ofConversation only sm_conversationId (map_to_list (StoreDatabase.memberships db)).*2).

Definition readAnchors (db : Database) (only : option string) : list StoredAnchor :=
  orderBy (fun a => [sa_conversationId a])
    (ofConversation only sa_conversationId (StoreDatabase.anchors db)).

Definition readPositions (db : Database) (only : option string) : list ConversationPosition :=
  (fun row => mkPosition row.1 (ip_membershipHash row.2) (ip_currentAnchorHash row.2)
     (ip_headRecordHash row.2)) <$>
  orderBy (fun row => [row.1]) (ofConversation only fst (map_to_list (conversation_state db))).

Definition readProposalLocks (db : Database) (only : option string) : list ProposalLock :=
  (orderBy (fun row => [row.1.1; row.1.2])
    (ofConversation only (fun row => row.1.1) (map_to_list (proposal_locks db)))).*2.

Definition readStagedRecords `{!RowOrder} (db : Database) (only : option string) : list StagedRecord :=
  orderBy (fun r => [sr_conversationId r])
    (ofConversation only sr_conversationId (rowOrder (map_to_list (staged_records db)).*2)).

Definition kindText (kind : EvidenceKind) : string :=
  match kind with
  | ActionEvidence => "action" | DurabilityEvidence => "durability"
  | CatchUpEvidence => "catch-up" | ReanchorEvidence => "reanchor"
  end.
Definition evidenceOf (row : EvidenceIdentity * string) : ProtocolEvidence :=
  match row.1 with
  | (c, kind, subject, key) => mkProtocolEvidence c kind subject key row.2
  end.
Definition readEvidence (db : Database) (only : option string) : list ProtocolEvidence :=
  orderBy (fun e => [pe_conversationId e; kindText (pe_kind e); pe_subjectId e; evidenceKey e])
    (ofConversation only pe_conversationId (evidenceOf <$> map_to_list (protocol_evidence db))).

(** [certified_records JOIN staged_records], in the order of their ordinals. *)
Definition joined (db : Database) : list (StagedRecord * Z) :=
  omap (fun row => r ← staged_records db !! row.1; Some (r, row.2))
    (map_to_list (certified_records db)).
Definition ordinalNotAfter (l r : StagedRecord * Z) : Prop := (l.2 <= r.2)%Z.
#[global] Instance ordinalNotAfter_dec l r : Decision (ordinalNotAfter l r).
Proof. unfold ordinalNotAfter. apply _. Defined.
Definition byOrdinal (l : list (StagedRecord * Z)) : list (StagedRecord * Z) :=
  merge_sort ordinalNotAfter l.

Fixpoint mapTx {A B} (f : A -> Tx B) (l : list A) : Tx (list B) :=
  match l with
  | [] => mret []
  | a :: l' => b ← f a; bs ← mapTx f l'; mret (b :: bs)
  end.

Definition readAllCertifiedRecords (db : Database) (only : option string) :
    Tx (list StoredCertifiedRecord) :=
  mapTx (readCertifiedRecord db)
    (orderBy (fun r => [sr_conversationId r])
      (byOrdinal (ofConversation only (fun row => sr_conversationId row.1) (joined db))).*1).

Definition readReanchors (db : Database) (only : option string) : list RecoveredReanchor :=
  orderBy (fun r => [ra_conversationId (rr_staged r)])
    (ofConversation only (fun r => ra_conversationId (rr_staged r)) (reanchors db)).

Definition readRetainedDeliveries (db : Database) (only : option string) : list PendingDelivery :=
  ofConversation only pd_conversationId (pending_deliveries db).

(** ** The snapshot *)

Record StoredState := mkStoredState {
  st_identity : option IdentityBinding;
  st_postIntents : list PostIntentRow;
  st_history : EndpointRecovery;
  st_proposalLocks : list ProposalLock;
  st_evidence : list ProtocolEvidence;
  st_stagedReanchors : list RecoveredReanchor;
  st_pendingDeliveries : list PendingDelivery;
  st_disseminationObligations : list (string * string);
  st_outboundMessages : list OutboundMessageInput;
}.

Definition recoverStoredState `{!RowOrder} (only : option string) : Tx StoredState :=
  db ← gets id;
  certified ← readAllCertifiedRecords db only;
  mret (mkStoredState (readStoredIdentity db) (readPostIntents db only)
    (mkRecovery (readMemberships db only) (readAnchors db only) (readStagedRecords db only)
      certified (readPositions db only))
    (readProposalLocks db only) (readEvidence db only) (readReanchors db only)
    (readRetainedDeliveries db only) (readPendingDissemination db only)
    (readPendingOutbound db only)).

(** The store's [recover]. *)
Definition recover `{!RowOrder} (only : option string) (db : Database) :
    Exit EndpointStoreFailure StoredState * Database :=
  transaction (recoverStoredState only) db.

(** ** What a snapshot holds *)

Lemma orderBy_elem {A} (key : A -> list string) l x : x ∈ orderBy key l <-> x ∈ l.
Proof. unfold orderBy. by rewrite merge_sort_Permutation. Qed.

Lemma ofConversation_all {A} (f : A -> string) l x : x ∈ ofConversation None f l <-> x ∈ l.
Proof. unfold ofConversation. rewrite list_elem_of_filter. naive_solver. Qed.

Lemma ofConversation_sub {A} only (f : A -> string) l x : x ∈ ofConversation only f l -> x ∈ l.
Proof. unfold ofConversation. rewrite list_elem_of_filter. naive_solver. Qed.

Lemma mapTx_elem {A B} (f : A -> Tx B) (P : A -> B -> Prop) l db bs db' :
  (forall a db b db', f a db = Succeed (b, db') -> P a b) ->
  mapTx f l db = Succeed (bs, db') -> forall b, b ∈ bs -> exists a, a ∈ l /\ P a b.
Proof.
  intros Hf. revert db bs db'. induction l as [|a l IH]; intros db bs db'; simpl.
  { intros [-> _]%ret_ok b. by intros ?%elem_of_nil. }
  intros (b & db1 & Hb & (bs' & db2 & Hbs & [-> _]%ret_ok)%tx_bind_ok)%tx_bind_ok c.
  intros [->|Hc]%elem_of_cons; [exists a; split; [by left|by eapply Hf]|].
  destruct (IH _ _ _ Hbs c Hc) as (a' & ? & ?). exists a'. by split; [right|].
Qed.

Lemma mapTx_reads {A B} (f : A -> Tx B) l : (forall a, moves eq (f a)) -> moves eq (mapTx f l).
Proof. intros Hf. induction l as [|a l IH]; simpl; follow. Qed.

Lemma readAllCertifiedRecords_reads db only : moves eq (readAllCertifiedRecords db only).
Proof. apply mapTx_reads. intros r. unfold readCertifiedRecord. follow. Qed.

Lemma readCertifiedRecord_row db staged db1 r db2 :
  readCertifiedRecord db staged db1 = Succeed (r, db2) -> row r = staged.
Proof.
  unfold readCertifiedRecord. do 2 (case_match; [by intros [=]|]). by intros [-> _]%ret_ok.
Qed.

(** A whole snapshot lists every lock and every piece of evidence, and each
    certified record it lists is staged. *)
Lemma recover_spec `{!RowOrder} db stored db' : recover None db = (Succeed stored, db') ->
  db' = db /\
  (forall l, l ∈ st_proposalLocks stored <-> exists k, proposal_locks db !! k = Some l) /\
  (forall c kind subject key, is_Some (protocol_evidence db !! (c, kind, subject, key)) ->
     exists e, e ∈ st_evidence stored /\ pe_conversationId e = c /\ pe_kind e = kind /\
       pe_subjectId e = subject /\ evidenceKey e = key) /\
  (forall r, r ∈ certifiedRecords (st_history stored) ->
     row r ∈ stagedRecords (st_history stored)).
Proof.
  unfold recover, transaction. destruct (recoverStoredState None db) as [[st db1]|] eqn:Hrun; [|done].
  intros [= <- <-]. unfold recoverStoredState in Hrun.
  apply tx_bind_ok in Hrun as (db0 & db2 & [-> ->]%gets_ok & Hrun).
  apply tx_bind_ok in Hrun as (certified & db3 & Hcert & [-> ->]%ret_ok). simpl. unfold id in *.
  pose proof (readAllCertifiedRecords_reads _ _ _ _ _ Hcert) as <-.
  split_and!; [done|..].
  - intros l. unfold readProposalLocks. rewrite list_elem_of_fmap. split.
    + intros ([k l'] & -> & Hin%orderBy_elem%ofConversation_all). exists k.
      by apply elem_of_map_to_list.
    + intros [k Hk%elem_of_map_to_list]. exists (k, l). split; [done|].
      by apply orderBy_elem, ofConversation_all.
  - intros c kind subject key [b Hb%elem_of_map_to_list].
    exists (mkProtocolEvidence c kind subject key b). split_and!; [|done..].
    unfold readEvidence. apply orderBy_elem, ofConversation_all, list_elem_of_fmap.
    by exists (c, kind, subject, key, b).
  - intros r Hr. destruct (mapTx_elem _ (fun staged r => row r = staged) _ _ _ _
      (fun a db1 b db2 => readCertifiedRecord_row db a db1 b db2) Hcert r Hr) as (staged & Hin & ->).
    apply orderBy_elem, list_elem_of_fmap in Hin as ([staged' o] & -> & Hin). simpl.
    unfold byOrdinal in Hin. rewrite merge_sort_Permutation in Hin.
    apply ofConversation_sub in Hin. unfold joined in Hin.
    apply list_elem_of_omap in Hin as ([k o'] & _ & (staged2 & Hk & [= -> _])%bind_Some).
    unfold readStagedRecords. apply orderBy_elem, ofConversation_all. rewrite rowOrder_perm.
    apply list_elem_of_fmap. exists (k, staged'). split; [done|]. by apply elem_of_map_to_list.
Qed.

End StoreRecovery.
