(* ===== verification/StoreHistory.v ===== *)
(** StoreHistory: the management reads of certified history
    (packages/client/src/communication/store/reads.ts): a read freezes a
    conversation's records and hands them out by pages, whatever the store does
    meanwhile.

    The snapshots live in the process and not in a transaction, so an operation
    that fails keeps what it did to them.  What the host draws at random is an
    argument. *)
From S2P Require Import Prelude JsMap Identifiers StoredHistory StoreDatabase StoreQueues.
From S2P Require Import StoreRecovery SignedMessages Hosts.
From Stdlib Require Import Ascii.

Local Open Scope nat_scope.

Module StoreHistory.
Import Identifiers StoredHistory StoreDatabase StoreRows StoreRecovery.

Record HistorySnapshot := mkSnapshot {
  sn_records : list StoredCertifiedRecord;
  sn_offset : nat;
}.
Record StoreState := mkState {
  ss_database : Database;
  snapshots : list (string * HistorySnapshot);
  ss_closed : bool;
}.
Definition set_snapshots (f : list (string * HistorySnapshot) -> list (string * HistorySnapshot))
    (s : StoreState) : StoreState := mkState (ss_database s) (f (snapshots s)) (ss_closed s).

Definition Operation (A : Type) : Type := StoreState -> Exit EndpointStoreFailure A * StoreState.

(** The store's [run]. *)
Definition runStoreOperation {A} (operation : Operation A) : Operation A := fun s =>
  if ss_closed s then (Fail_ closed, s) else operation s.

Definition HISTORY_PAGE_SIZE : nat := 50.

(** ** Conversations *)

Record ConversationPage := mkConversationPage { conversationIds : list string; hasMore : bool }.

Definition certifiedConversations (db : Database) : list string :=
  fst <$> filter (fun row => is_Some (ip_headRecordHash row.2)) (map_to_list (conversation_state db)).

Definition readConversationIdRows (db : Database) (afterConversationId : option string) :
    Exit EndpointStoreFailure (list string) :=
  match afterConversationId with
  | None => Succeed (take 51 (orderBy (fun c => [c]) (certifiedConversations db)))
  | Some after =>
      if bool_decide (after = ""%string) || bool_decide (Ascii.zero ∈ String.list_ascii_of_string after)
      then Fail_ invalid_input
      else Succeed (take 51 (orderBy (fun c => [c])
        (filter (fun c => String.ltb after c = true) (certifiedConversations db))))
  end.

Definition searchStoredConversations (db : Database) (afterConversationId : option string) :
    Exit EndpointStoreFailure ConversationPage :=
  match readConversationIdRows db afterConversationId with
  | Fail_ e => Fail_ e
  | Succeed rows => Succeed (mkConversationPage (take HISTORY_PAGE_SIZE rows)
      (bool_decide (HISTORY_PAGE_SIZE < length rows)%nat))
  end.

(** ** Continuations *)

Definition continuationChar (c : ascii) : bool :=
  let n := code c in
  bool_decide (65 <= n <= 90)%Z || bool_decide (97 <= n <= 122)%Z || bool_decide (48 <= n <= 57)%Z ||
  bool_decide (n = 95)%Z || bool_decide (n = 45)%Z.

(** [validateContinuation] passes. *)
Definition continuationText `{Base64Url} (continuation : string) : bool :=
  bool_decide (String.length continuation = 43) &&
  forallb continuationChar (String.list_ascii_of_string continuation) &&
  hasCanonicalBase64UrlLength continuation 32.

(** [mintContinuation]: at most eight draws. *)
Definition mintContinuation (draws : list string) (retained : list string) :
    Exit EndpointStoreFailure string :=
  match List.find (fun drawn => negb (bool_decide (drawn ∈ retained))) (take 8 draws) with
  | Some continuation => Succeed continuation
  | None => Fail_ persistence
  end.

(** ** Pages *)

Record HistoryPage := mkPage { records : list StoredCertifiedRecord; continuation : option string }.

Definition retainNextPage (draws : list string) (records : list StoredCertifiedRecord)
    (nextOffset : nat) : Operation (option string) := fun s =>
  if decide (length records <= nextOffset)%nat then (Succeed None, s)
  else match mintContinuation draws (jm_keys (snapshots s)) with
       | Fail_ e => (Fail_ e, s)
       | Succeed continuation =>
           (Succeed (Some continuation),
            set_snapshots (fun m => jm_set m continuation (mkSnapshot records nextOffset)) s)
       end.

Definition pageFromSnapshot (draws : list string) (snapshot : HistorySnapshot) :
    Operation HistoryPage := fun s =>
  let page := take HISTORY_PAGE_SIZE (drop (sn_offset snapshot) (sn_records snapshot)) in
  match retainNextPage draws (sn_records snapshot) (sn_offset snapshot + length page) s with
  | (Fail_ e, s') => (Fail_ e, s')
  | (Succeed continuation, s') => (Succeed (mkPage page continuation), s')
  end.

Definition resolveAfterOrdinal (db : Database) (conversationId : string)
    (afterRecordHash : option string) : Exit EndpointStoreFailure Z :=
  if decide (conversationId = ""%string) then Fail_ invalid_input
  else match afterRecordHash with
       | None => Succeed (-1)%Z
       | Some recordHash =>
           match certified_records db !! (conversationId, recordHash) with
           | None => Fail_ not_found
           | Some ordinal => Succeed ordinal
           end
       end.

(** The rows of a read, in the order of their ordinals. *)
Definition historyRows (db : Database) (conversationId : string) (afterOrdinal : Z) :
    list StagedRecord :=
  (byOrdinal (filter (fun row => sr_conversationId row.1 = conversationId /\ (afterOrdinal < row.2)%Z)
    (joined db))).*1.

Definition frozenHistory (db : Database) (conversationId : string) (afterRecordHash : option string) :
    Exit EndpointStoreFailure (list StoredCertifiedRecord) :=
  match resolveAfterOrdinal db conversationId afterRecordHash with
  | Fail_ e => Fail_ e
  | Succeed afterOrdinal =>
      let rows := historyRows db conversationId afterOrdinal in
      if bool_decide (rows = []) && bool_decide (afterOrdinal = (-1)%Z) then Fail_ not_found
      else match mapTx (readCertifiedRecord db) rows db with
           | Fail_ e => Fail_ e
           | Succeed (records, _) => Succeed records
           end
  end.

Definition beginConversationRead (draws : list string) (conversationId : string)
    (afterRecordHash : option string) : Operation HistoryPage := fun s =>
  match frozenHistory (ss_database s) conversationId afterRecordHash with
  | Fail_ e => (Fail_ e, s)
  | Succeed records => pageFromSnapshot draws (mkSnapshot records 0) s
  end.

Section continuations.
Context `{Base64Url}.

Definition continueConversation (draws : list string) (continuation : string) :
    Operation HistoryPage := fun s =>
  if continuationText continuation then
    match jm_get (snapshots s) continuation with
    | None => (Fail_ invalid_continuation, s)
    | Some snapshot =>
        pageFromSnapshot draws snapshot (set_snapshots (fun m => jm_delete m continuation) s)
    end
  else (Fail_ invalid_continuation, s).

Inductive ReadRequest :=
  | BeginRead (conversationId : string) (afterRecordHash : option string)
  | ContinueRead (continuation : string).

Definition readStoredConversation (draws : list string) (request : ReadRequest) :
    Operation HistoryPage :=
  match request with
  | ContinueRead continuation => continueConversation draws continuation
  | BeginRead conversationId afterRecordHash =>
      beginConversationRead draws conversationId afterRecordHash
  end.

Definition releaseStoredContinuation (continuation : string) : Operation unit := fun s =>
  if continuationText continuation && jm_has (snapshots s) continuation
  then (Succeed tt, set_snapshots (fun m => jm_delete m continuation) s)
  else (Fail_ invalid_continuation, s).

(** ** A read from its first page to its last *)

Definition consistent (s : StoreState) : Prop := jm_wf (snapshots s).

(** What may happen to the store between the pages of a read: anything to the
    database, and anything to the snapshots but this one. *)
Definition meanwhile (continuation : string) (s s' : StoreState) : Prop :=
  consistent s' /\ jm_get (snapshots s') continuation = jm_get (snapshots s) continuation.

(** [follows s c pages]: from [s], whose next page is named [c], the read hands
    out [pages] and ends. *)
Inductive follows : StoreState -> option string -> list HistoryPage -> Prop :=
  | follows_end s : follows s None []
  | follows_next s s' s'' c draws page pages :
      meanwhile c s s' -> continueConversation draws c s' = (Succeed page, s'') ->
      follows s'' (continuation page) pages -> follows s (Some c) (page :: pages).

Definition handedOut (pages : list HistoryPage) : list StoredCertifiedRecord :=
  concat (records <$> pages).

Lemma mint_fresh draws retained c : mintContinuation draws retained = Succeed c -> c ∉ retained.
Proof.
  unfold mintContinuation. destruct (List.find _ _) as [d|] eqn:Hf; [|done]. intros [= <-].
  apply find_some in Hf as [_ Hf]. by apply negb_true_iff, bool_decide_eq_false in Hf.
Qed.

(** A page, and what the state names next. *)
Ltac proj := cbn [records continuation snapshots set_snapshots ss_database sn_records sn_offset].

Lemma page_spec draws snapshot s page s' : consistent s ->
  pageFromSnapshot draws snapshot s = (Succeed page, s') ->
  let rest := drop (sn_offset snapshot) (sn_records snapshot) in
  consistent s' /\ ss_database s' = ss_database s /\ records page = take HISTORY_PAGE_SIZE rest /\
  (forall c, c ∈ jm_keys (snapshots s) -> jm_get (snapshots s') c = jm_get (snapshots s) c) /\
  match continuation page with
  | None => (length rest <= HISTORY_PAGE_SIZE)%nat
  | Some c => (HISTORY_PAGE_SIZE < length rest)%nat /\ c ∉ jm_keys (snapshots s) /\
      jm_get (snapshots s') c =
        Some (mkSnapshot (sn_records snapshot) (sn_offset snapshot + HISTORY_PAGE_SIZE))
  end.
Proof.
  intros Hs. unfold pageFromSnapshot, retainNextPage. cbv zeta.
  set (rest := drop (sn_offset snapshot) (sn_records snapshot)).
  assert (length rest = length (sn_records snapshot) - sn_offset snapshot)%nat as Hrest
    by apply length_drop.
  rewrite length_take. case_decide as Hlast.
  - intros [= <- <-]. proj. split_and!; [done..|]. unfold HISTORY_PAGE_SIZE in *. lia.
  - assert (Nat.min HISTORY_PAGE_SIZE (length rest) = HISTORY_PAGE_SIZE) as -> by lia.
    destruct (mintContinuation _ _) as [c|] eqn:Hmint; [|done]. intros [= <- <-]. proj.
    apply mint_fresh in Hmint. unfold consistent. proj. split_and!; [by apply jm_set_wf|done|done| |lia|done|].
    + intros c' Hc'. apply jm_get_set_ne. by intros ->.
    + apply jm_get_set_eq.
Qed.

Lemma follows_rest pages : forall s c snapshot, consistent s ->
  follows s (Some c) pages -> jm_get (snapshots s) c = Some snapshot ->
  handedOut pages = drop (sn_offset snapshot) (sn_records snapshot).
Proof.
  induction pages as [|page pages IH]; intros s c snapshot Hs Hf Hget; [by inversion Hf|].
  inversion Hf as [|s0 s' s'' c0 draws page0 pages0 [Hs' Hsame] Hcont Hnext]; subst.
  unfold continueConversation in Hcont. destruct (continuationText c); [|done].
  rewrite Hsame, Hget in Hcont.
  apply page_spec in Hcont as (Hs'' & _ & Hrec & _ & Hc); [|by apply jm_delete_wf].
  unfold handedOut. rewrite fmap_cons. cbn [concat]. rewrite Hrec.
  destruct (continuation page) as [c'|]; cycle 1.
  - inversion Hnext; subst. simpl. by rewrite app_nil_r, take_ge.
  - destruct Hc as (_ & _ & Hget'). fold (handedOut pages).
    rewrite (IH _ _ _ Hs'' Hnext Hget'). cbn [sn_offset sn_records].
    by rewrite <- drop_drop, take_drop.
Qed.

(** The pages of a read but the last are full. *)
Lemma follows_length pages : forall s c snapshot, consistent s ->
  follows s (Some c) pages -> jm_get (snapshots s) c = Some snapshot ->
  let rest := length (sn_records snapshot) - sn_offset snapshot in
  0 < rest -> length pages = S ((rest - 1) / HISTORY_PAGE_SIZE).
Proof.
  induction pages as [|page pages IH]; intros s c snapshot Hs Hf Hget; [by inversion Hf|].
  inversion Hf as [|s0 s' s'' c0 draws page0 pages0 [Hs' Hsame] Hcont Hnext]; subst.
  unfold continueConversation in Hcont. destruct (continuationText c); [|done].
  rewrite Hsame, Hget in Hcont.
  apply page_spec in Hcont as (Hs'' & _ & Hrec & _ & Hc); [|by apply jm_delete_wf].
  rewrite length_drop in Hc. intros rest Hpos. cbn [length]. f_equal.
  destruct (continuation page) as [c'|]; cycle 1.
  - inversion Hnext; subst. symmetry. apply Nat.div_small. fold rest in Hc.
    unfold HISTORY_PAGE_SIZE in *. lia.
  - destruct Hc as (Hlt & _ & Hget'). fold rest in Hlt.
    rewrite (IH _ _ _ Hs'' Hnext Hget'); cbn [sn_offset sn_records]; [|unfold rest in Hlt; lia].
    replace (rest - 1) with (length (sn_records snapshot) - (sn_offset snapshot + HISTORY_PAGE_SIZE) - 1
      + 1 * HISTORY_PAGE_SIZE) by (unfold rest in *; unfold HISTORY_PAGE_SIZE in *; lia).
    rewrite Nat.div_add by done. lia.
Qed.

(** The host can draw a continuation that is none of so many. *)
Definition canDraw (count : nat) : Prop := forall retained : list string,
  length retained <= count -> exists drawn, continuationText drawn = true /\ drawn ∉ retained.

Lemma page_retains drawn snapshot s page s' :
  pageFromSnapshot [drawn] snapshot s = (Succeed page, s') ->
  length (snapshots s') <= S (length (snapshots s)).
Proof.
  unfold pageFromSnapshot, retainNextPage, mintContinuation. simpl.
  case_decide; [intros [= <- <-]; lia|].
  case_bool_decide as Hin; simpl; [done|]. intros [= <- <-]. proj.
  rewrite jm_set_fresh; [rewrite length_app; simpl; lia|].
  destruct (jm_get (snapshots s) drawn) eqn:Hg; [|done]. exfalso. apply Hin.
  apply jm_get_some_elem in Hg. apply list_elem_of_fmap. by eexists (_, _).
Qed.

(** A continuation the store retains can be read to the end, while the host can
    draw new ones: each page gives up one continuation and retains one at
    most. *)
Lemma follows_exists count n : forall s c snapshot, consistent s ->
  canDraw count -> length (snapshots s) <= count ->
  continuationText c = true -> jm_get (snapshots s) c = Some snapshot ->
  length (sn_records snapshot) - sn_offset snapshot <= n -> exists pages, follows s (Some c) pages.
Proof.
  induction n as [|n IH]; intros s c snapshot Hs Hfresh Hcount Hc Hget Hn.
  all: assert (S (length (jm_delete (snapshots s) c)) <= count) as Hless
    by (rewrite jm_length_delete; unfold jm_has; rewrite Hget;
        destruct (snapshots s); [done|simpl in *; lia]).
  all: destruct (Hfresh (jm_keys (jm_delete (snapshots s) c))) as (drawn & Hdrawn & Hnew);
    [unfold jm_keys; rewrite length_fmap; lia|].
  all: set (s1 := set_snapshots (fun m => jm_delete m c) s).
  all: assert (consistent s1) as Hs1 by (by apply jm_delete_wf).
  all: assert (mintContinuation [drawn] (jm_keys (snapshots s1)) = Succeed drawn) as Hmint
    by (unfold mintContinuation; simpl; by rewrite bool_decide_false).
  all: destruct (pageFromSnapshot [drawn] snapshot s1) as [[page|e] s2] eqn:Hpage;
    [|exfalso; revert Hpage; unfold pageFromSnapshot, retainNextPage; rewrite Hmint; by case_decide].
  all: assert (continueConversation [drawn] c s = (Succeed page, s2)) as Hcont
    by (unfold continueConversation; by rewrite Hc, Hget).
  all: assert (meanwhile c s s) as Hsame by done.
  all: pose proof (page_spec _ _ _ _ _ Hs1 Hpage) as (Hs2 & _ & _ & _ & Hnext);
    rewrite length_drop in Hnext.
  all: destruct (continuation page) as [c'|] eqn:Hc';
    [|exists [page]; eapply follows_next; [done..|]; rewrite Hc'; constructor].
  all: destruct Hnext as (Hlt & _ & Hget').
  { exfalso. unfold HISTORY_PAGE_SIZE in *. lia. }
  assert (c' = drawn) as ->.
  { revert Hpage. unfold pageFromSnapshot, retainNextPage. rewrite Hmint.
    case_decide; intros [= <- <-]; [done|]. by injection Hc' as <-. }
  assert (exists pages, follows s2 (Some drawn) pages) as [pages Hpages].
  1: eapply IH; [done|exact Hfresh| |done|exact Hget'|].
  - apply page_retains in Hpage. unfold s1 in Hpage. revert Hpage. proj. lia.
  - cbn [sn_offset sn_records]. unfold HISTORY_PAGE_SIZE in *. lia.
  - exists (page :: pages). eapply follows_next; [done..|]. by rewrite Hc'.
Qed.

(** Reads, continuations and releases of others leave a read's snapshot. *)
Lemma other_read_meanwhile c draws request s : consistent s ->
  (forall c', request = ContinueRead c' -> c' <> c) -> c ∈ jm_keys (snapshots s) ->
  meanwhile c s (readStoredConversation draws request s).2.
Proof.
  intros Hs Hother Hc. destruct request as [conversationId after|c']; simpl.
  - unfold beginConversationRead. destruct (frozenHistory _ _ _) as [l|e]; [|by split].
    unfold pageFromSnapshot, retainNextPage. case_decide; [by split|].
    destruct (mintContinuation _ _) as [c0|] eqn:Hm; [|by split].
    apply mint_fresh in Hm. split; unfold consistent; cbn [fst snd]; proj; [by apply jm_set_wf|].
    apply jm_get_set_ne. by intros ->.
  - unfold continueConversation. destruct (continuationText c'); [|by split].
    destruct (jm_get (snapshots s) c') as [snapshot|]; [|by split].
    specialize (Hother c' eq_refl).
    unfold pageFromSnapshot, retainNextPage. case_decide.
    { split; unfold consistent; cbn [fst snd]; proj; [by apply jm_delete_wf|by apply jm_get_delete_ne]. }
    destruct (mintContinuation _ _) as [c0|] eqn:Hm; split; unfold consistent; cbn [fst snd]; proj.
    1,3: auto using jm_set_wf, jm_delete_wf.
    + apply mint_fresh in Hm. rewrite jm_get_set_ne; [by apply jm_get_delete_ne|].
      intros ->. apply Hm. simpl. rewrite jm_delete_keys by done. by apply list_elem_of_filter.
    + by apply jm_get_delete_ne.
Qed.

Lemma mapTx_rows db l rs db' : mapTx (readCertifiedRecord db) l db = Succeed (rs, db') ->
  row <$> rs = l.
Proof.
  assert (forall db1 bs db2, mapTx (readCertifiedRecord db) l db1 = Succeed (bs, db2) -> row <$> bs = l)
    as Hall; [|apply Hall].
  induction l as [|a l IH]; intros db1 bs db2; simpl; [by intros [-> _]%ret_ok|].
  intros (b & db3 & Hb & (bs' & db4 & Hbs & [-> _]%ret_ok)%tx_bind_ok)%tx_bind_ok.
  rewrite fmap_cons, (IH _ _ _ Hbs). f_equal. unfold readCertifiedRecord in Hb.
  repeat case_match; try done; by apply ret_ok in Hb as [-> _].
Qed.

(** C22: a management read hands out one frozen history.  A read that begins
    after a record, or at the start, freezes the certified rows of the
    conversation beyond it in the order of their ordinals, at that moment.
    However its pages are then asked for, with anything happening to the
    database and to other reads between them, the pages are exactly those rows
    in that order, none missing or twice, fifty to a page; and while the host
    can draw a continuation that is none of as many as the store retains after
    the first page, the read can be followed to its end. *)
Theorem read_hands_out_history draws s conversationId after page s' :
  consistent s ->
  beginConversationRead draws conversationId after s = (Succeed page, s') ->
  exists ordinal,
    resolveAfterOrdinal (ss_database s) conversationId after = Succeed ordinal /\
    let rows := historyRows (ss_database s) conversationId ordinal in
    (forall pages, follows s' (continuation page) pages ->
       row <$> handedOut (page :: pages) = rows /\
       length (page :: pages) = S ((length rows - 1) / HISTORY_PAGE_SIZE)) /\
    (Forall (fun drawn => continuationText drawn = true) draws ->
     canDraw (length (snapshots s')) -> exists pages, follows s' (continuation page) pages).
Proof.
  intros Hs. unfold beginConversationRead, frozenHistory.
  destruct (resolveAfterOrdinal _ _ _) as [ordinal|]; [|done]. cbv zeta.
  destruct (_ && _); [done|]. destruct (mapTx _ _ _) as [[rs db']|] eqn:Hrows; [|done].
  intros Hpage. apply mapTx_rows in Hrows. exists ordinal. split; [done|]. rewrite <- Hrows.
  pose proof (page_spec _ _ _ _ _ Hs Hpage) as (Hs' & _ & Hrec & _ & Hc).
  rewrite drop_0 in Hrec. cbn [sn_offset sn_records] in *. rewrite drop_0 in Hc. rewrite length_fmap. split.
  - intros pages Hf. unfold handedOut. rewrite fmap_cons. cbn [concat length].
    fold (handedOut pages). rewrite Hrec. destruct (continuation page) as [c|]; cycle 1.
    { inversion Hf; subst. simpl concat. rewrite app_nil_r, take_ge by done.
      split; [done|]. f_equal. symmetry. apply Nat.div_small. unfold HISTORY_PAGE_SIZE in *. lia. }
    destruct Hc as (Hlt & _ & Hget). split.
    + rewrite (follows_rest _ _ _ _ Hs' Hf Hget). cbn [sn_offset sn_records]. by rewrite take_drop.
    + rewrite (follows_length _ _ _ _ Hs' Hf Hget); cbn [sn_offset sn_records]; [|unfold HISTORY_PAGE_SIZE in *; lia].
      f_equal. replace (length rs - 1) with (length rs - (0 + HISTORY_PAGE_SIZE) - 1 + 1 * HISTORY_PAGE_SIZE)
        by (unfold HISTORY_PAGE_SIZE in *; lia).
      rewrite Nat.div_add by done. lia.
  - intros Hdraws Hfresh. destruct (continuation page) as [c|] eqn:Hcp; [|exists []; constructor].
    destruct Hc as (_ & _ & Hget). eapply follows_exists; [done|exact Hfresh|done| |exact Hget|reflexivity].
    revert Hpage. unfold pageFromSnapshot, retainNextPage. case_decide; [by intros [= <- <-]|].
    unfold mintContinuation. destruct (List.find _ _) as [d|] eqn:Hfind; [|done].
    intros [= <- <-]. injection Hcp as <-. apply find_some in Hfind as [Hin _].
    rewrite Forall_forall in Hdraws. apply Hdraws. apply list_elem_of_In in Hin.
    by eapply elem_of_take in Hin as (? & ?%list_elem_of_lookup_2 & _).
Qed.

End continuations.
(** ** A history of two pages *)

#[local] Existing Instance Hosts.base64url.

(** Fifty-one records, the hash of each a run of one letter. *)
Definition hashOf (n : nat) : string := String.string_of_list_ascii (replicate (S n) "h"%char).
Definition shelved (n : nat) : StagedRecord :=
  mkStaged "c" (hashOf n) (match n with 0 => None | S m => Some (hashOf m) end) "m" "a" "x" "agt" "p" "core".
Definition shelf : Database :=
  set_staged (fun _ => list_to_map ((fun n => (("c"%string, hashOf n), shelved n)) <$> seq 0 51))
    (set_certified (fun _ => list_to_map ((fun n => (("c"%string, hashOf n), Z.of_nat n)) <$> seq 0 51))
      (set_evidence (fun _ => list_to_map ((("c", ActionEvidence, "x", "k"), "e")%string ::
          ((fun n => (("c"%string, DurabilityEvidence, hashOf n, "k"%string), "e"%string)) <$> seq 0 51)))
        createStore)).

Definition opened : StoreState := mkState shelf [] false.
Definition drawn : string := Eval vm_compute in Hosts.encode64 (Hosts.bytesOf 32 1).

Definition drawn2 : string := Eval vm_compute in Hosts.encode64 (Hosts.bytesOf 32 2).

(** Of two continuations, one is not the one retained. *)
Lemma draws_past_one : canDraw 1.
Proof.
  intros [|c [|]] Hlen; [exists drawn|destruct (decide (c = drawn)) as [->|Hne];
    [exists drawn2|exists drawn]|simpl in Hlen; lia];
    (split; [vm_compute; reflexivity|]); [set_solver| |set_solver].
  rewrite list_elem_of_singleton. by vm_compute.
Qed.

Lemma read_hands_out_history_witness :
  exists page s', beginConversationRead [drawn] "c" None opened = (Succeed page, s') /\
    length (records page) = 50 /\
    exists pages, follows s' (continuation page) pages /\
      row <$> handedOut (page :: pages) = shelved <$> seq 0 51 /\ length (page :: pages) = 2.
Proof.
  destruct (beginConversationRead [drawn] "c" None opened) as [[page|e] s'] eqn:Hbegin; cycle 1.
  { exfalso. apply (f_equal fst) in Hbegin. vm_compute in Hbegin. discriminate. }
  exists page, s'. split; [reflexivity|].
  destruct (read_hands_out_history [drawn] opened "c" None page s' jm_wf_nil Hbegin)
    as (ordinal & Hordinal & Hpages & Hend).
  injection Hordinal as <-.
  assert (length (snapshots s') = 1) as Hone.
  { apply (f_equal (fun r => length (snapshots r.2))) in Hbegin. vm_compute in Hbegin.
    symmetry. exact Hbegin. }
  split.
  - apply (f_equal (fun r => match r.1 with Succeed p => length (records p) | Fail_ _ => 0 end)) in Hbegin.
    vm_compute in Hbegin. symmetry. exact Hbegin.
  - assert (historyRows (ss_database opened) "c" (-1) = shelved <$> seq 0 51) as Hrows
      by (vm_compute; reflexivity).
    rewrite Hrows in Hpages.
    destruct Hend as [pages Hfollows];
      [apply Forall_cons; split; [vm_compute; reflexivity|apply Forall_nil_2]
      |rewrite Hone; exact draws_past_one|].
    exists pages. split; [exact Hfollows|]. exact (Hpages pages Hfollows).
Defined.

End StoreHistory.
