(* ===== verification/StoreGrowth.v ===== *)
(** StoreGrowth: certified records and post intents only accumulate in the
    protocol's tables, and an operation certifies at most one record. *)
From S2P Require Import Prelude JsMap Identifiers StoredHistory StoreDatabase StoreQueues.
From S2P Require Import StoreRecords StoreAnchors EndpointStore.
Local Open Scope string_scope.

Module StoreGrowth.
Import StoreDatabase StoreRows StoreQueues StoreRecords StoreAnchors EndpointStore StoreReads.

(** What a bound intent says; completing one adds its record's hash. *)
Definition intentCore (i : PostIntentRow) : string * string * string :=
  (pi_conversationId i, pi_membershipHash i, pi_canonicalIntent i).
Definition intentCores (db : Database) : gmap (string * string) (string * string * string) :=
  intentCore <$> post_intents db.

Definition sameIntents (db db' : Database) : Prop := intentCores db' = intentCores db.
#[global] Instance sameIntents_preorder : PreOrder sameIntents.
Proof. unfold sameIntents. split; [by intros db|]. intros ????. congruence. Qed.

Definition intentsGrow (db db' : Database) : Prop := intentCores db ⊆ intentCores db'.
#[global] Instance intentsGrow_preorder : PreOrder intentsGrow.
Proof. unfold intentsGrow. split; [by intros db|]. intros ????. by etrans. Qed.

Definition sameCertified (db db' : Database) : Prop :=
  certified_records db' = certified_records db /\ sameIntents db db'.
#[global] Instance sameCertified_preorder : PreOrder sameCertified.
Proof. unfold sameCertified. split; [by intros db|]. intros ??? [] []. split; [congruence|by etrans]. Qed.

Lemma intentsGrow_keys db db' key : intentsGrow db db' ->
  is_Some (post_intents db !! key) -> is_Some (post_intents db' !! key).
Proof.
  intros Hg [i Hi]. assert (intentCores db !! key = Some (intentCore i)) as Hc
    by (unfold intentCores; by rewrite lookup_fmap, Hi).
  eapply lookup_weaken in Hc; [|exact Hg]. unfold intentCores in Hc. rewrite lookup_fmap in Hc.
  destruct (post_intents db' !! key); [eauto|done].
Qed.

Section growth.
Context `{Base64Url}.

Lemma other_modify f : (forall db, certified_records (f db) = certified_records db) ->
  (forall db, post_intents (f db) = post_intents db) -> moves sameCertified (modify f).
Proof.
  intros Hc Hi. apply moves_modify. intros db. split; [done|].
  unfold sameIntents, intentCores. by rewrite Hi.
Qed.

(** Statements on tables other than the two. *)
Ltac other_table := apply other_modify; done.
Ltac grow := follow; other_table.

Lemma grows_membership m : moves sameCertified (insert_membership m).
Proof. unfold insert_membership, constraint. grow. Qed.
Lemma grows_anchor a : moves sameCertified (insert_anchor a).
Proof. unfold insert_anchor, constraint. grow. Qed.
Lemma grows_position c p : moves sameCertified (insert_position c p).
Proof. unfold insert_position, constraint. grow. Qed.
Lemma grows_update c f : moves sameCertified (update_position c f).
Proof. unfold update_position, constraint. grow. Qed.
Lemma grows_lock k l : moves sameCertified (insert_lock k l).
Proof. unfold insert_lock, constraint. grow. Qed.
Lemma grows_staged r : moves sameCertified (insert_staged r).
Proof. unfold insert_staged, constraint. grow. Qed.
Lemma grows_evidence e : moves sameCertified (insert_evidence e).
Proof. unfold insert_evidence, constraint. grow. Qed.
Lemma grows_reanchor r : moves sameCertified (insert_reanchor r).
Proof. unfold insert_reanchor, constraint. grow. Qed.
Lemma grows_delivery d : moves sameCertified (insert_delivery d).
Proof. unfold insert_delivery, constraint. grow. Qed.
Lemma grows_outbound o : moves sameCertified (insert_outbound o).
Proof. unfold insert_outbound, constraint. grow. Qed.
Lemma grows_obligation d : moves sameCertified (insert_obligation d).
Proof. unfold insert_obligation, constraint. grow. Qed.
Lemma grows_no_staged P : moves sameCertified (delete_staged P).
Proof. unfold delete_staged, constraint. grow. Qed.
Lemma grows_no_anchors P : moves sameCertified (delete_anchors P).
Proof. unfold delete_anchors, constraint. grow. Qed.
Lemma grows_no_obligations P : moves sameCertified (delete_obligations P).
Proof. unfold delete_obligations. grow. Qed.
Lemma grows_no_evidence P : moves sameCertified (delete_evidence P).
Proof. unfold delete_evidence. grow. Qed.
Lemma grows_no_locks P : moves sameCertified (delete_locks P).
Proof. unfold delete_locks. grow. Qed.
Lemma grows_no_reanchors P : moves sameCertified (delete_reanchors P).
Proof. unfold delete_reanchors. grow. Qed.
Lemma grows_set_identity i : moves sameCertified (modify (set_identity i)).
Proof. grow. Qed.
Lemma grows_set_deliveries f : moves sameCertified (modify (set_deliveries f)).
Proof. grow. Qed.
Lemma grows_set_outbound f : moves sameCertified (modify (set_outbound f)).
Proof. grow. Qed.
Lemma grows_set_obligations f : moves sameCertified (modify (set_obligations f)).
Proof. grow. Qed.
Lemma grows_set_reanchors f : moves sameCertified (modify (set_reanchors f)).
Proof. grow. Qed.
Lemma grows_complete hash key :
  moves sameCertified (modify (set_post_intents (alter (completeIntent hash) key))).
Proof.
  apply moves_modify. intros db. split; [done|]. unfold sameIntents, intentCores. simpl.
  apply map_eq. intros k. rewrite !lookup_fmap. destruct (decide (k = key)) as [->|Hne].
  - rewrite lookup_alter_eq. by destruct (post_intents db !! key).
  - by rewrite lookup_alter_ne.
Qed.
#[local] Hint Resolve grows_membership grows_anchor grows_position grows_update
  grows_lock grows_staged grows_evidence grows_reanchor grows_delivery grows_outbound
  grows_obligation grows_no_staged grows_no_anchors grows_no_obligations grows_no_evidence
  grows_no_locks grows_no_reanchors grows_set_identity grows_set_deliveries grows_set_outbound
  grows_set_obligations grows_set_reanchors grows_complete : tx_moves.

Lemma grows_mint l f : moves eq (mintFrom l f).
Proof. induction l as [|x l IH]; simpl; follow. Qed.
#[local] Hint Resolve grows_mint : tx_reads.

Lemma grows_merge e : moves sameCertified (mergeEvidenceInTransaction e).
Proof.
  unfold mergeEvidenceInTransaction, requireEvidenceSubject, requireMembership,
    requireLocalEvidenceLock, requireLocalDurabilityEvidenceLock, requireNoReanchorAwayFrom,
    requireSameBytes, requireEqual. follow.
Qed.
Lemma grows_foundation f : moves sameCertified (putConversationFoundationInTransaction f).
Proof. unfold putConversationFoundationInTransaction, insertFoundation. follow. Qed.
Lemma grows_retain_delivery r d t : moves sameCertified (retainDeliveryInTransaction r d t).
Proof.
  unfold retainDeliveryInTransaction, mintDeliveryToken, requireText, requireBytes,
    requireSameBytes, requireEqual. follow.
Qed.
Lemma grows_stage r p : moves sameCertified (stageRecordInTransaction r p).
Proof.
  unfold stageRecordInTransaction, requireRecordPosition, requireNoReanchorAwayFrom, requireEqual.
  follow.
Qed.
Lemma grows_lock_tx l : moves sameCertified (lockProposalInTransaction l).
Proof. unfold lockProposalInTransaction, requireEqual. follow. Qed.
Lemma grows_release l : moves sameCertified (releaseProposalLock l).
Proof. unfold releaseProposalLock. follow. Qed.
Lemma grows_enqueue m : moves sameCertified (enqueueOutboundInTransaction m).
Proof.
  unfold enqueueOutboundInTransaction, requireMessageIdAvailable, requireSameBytes, requireEqual.
  follow.
Qed.
#[local] Hint Resolve grows_merge grows_foundation grows_retain_delivery grows_stage grows_lock_tx
  grows_release grows_enqueue : tx_moves.
Lemma grows_merge_all l m : moves sameCertified (mergeAll l m).
Proof. revert m. induction l as [|e l IH]; intros m; simpl; follow. Qed.
#[local] Hint Resolve grows_merge_all : tx_moves.

(** At most one record is certified, and intents only accumulate. *)
Definition certifiesOne (db db' : Database) : Prop :=
  (certified_records db' = certified_records db \/
   exists key ordinal, certified_records db !! key = None /\
     certified_records db' = <[key := ordinal]> (certified_records db)) /\ intentsGrow db db'.

Lemma same_certifiesOne db db' : sameCertified db db' -> certifiesOne db db'.
Proof. intros [? Hi]. split; [by left|]. unfold intentsGrow. by rewrite Hi. Qed.
Lemma moves_certifiesOne {A} (m : Tx A) : moves sameCertified m -> moves certifiesOne m.
Proof. intros Hm db a db' Hrun. eapply same_certifiesOne, Hm, Hrun. Qed.

(** A sequence whose other statements certify and bind nothing. *)
Lemma certifiesOne_then {A B} (m : Tx A) (k : A -> Tx B) :
  moves sameCertified m -> (forall a, moves certifiesOne (k a)) -> moves certifiesOne (m ≫= k).
Proof.
  intros Hm Hk db b db' (a & db1 & [Hc Hi]%Hm & [Hone Hi']%Hk)%tx_bind_ok.
  split; [by rewrite <- Hc|]. unfold intentsGrow in *. by rewrite <- Hi.
Qed.
Lemma certifiesOne_before {A B} (m : Tx A) (k : A -> Tx B) :
  moves certifiesOne m -> (forall a, moves sameCertified (k a)) -> moves certifiesOne (m ≫= k).
Proof.
  intros Hm Hk db b db' (a & db1 & [Hone Hi]%Hm & [Hc Hi']%Hk)%tx_bind_ok.
  split; [by rewrite Hc|]. unfold intentsGrow in *. by rewrite Hi'.
Qed.

Lemma one_insert c r o : moves certifiesOne (insert_certified c r o).
Proof.
  unfold insert_certified, constraint. intros db u db' Hrun. tx. guards.
  split; [right|by unfold intentsGrow]. exists (c, r), o. split; [|done].
  unfold hasCertifiedRecord in *. guards. by apply eq_None_not_Some.
Qed.

Lemma one_promote r d t : moves certifiesOne (promoteRecordInTransaction r d t).
Proof.
  unfold promoteRecordInTransaction, mergeCertifiedEvidence.
  apply certifiesOne_then; [follow|intros db]. case_match; [|apply moves_certifiesOne; follow].
  do 2 (apply certifiesOne_then; [follow|intros ?]). case_match; [apply moves_certifiesOne; follow|].
  do 3 (apply certifiesOne_then; [unfold requireEqual; follow|intros ?]).
  apply certifiesOne_before; [|unfold completeLocalPostIntent, requireEqual; follow].
  unfold insertCertifiedRecord. apply certifiesOne_before; [apply one_insert|follow].
Qed.

Lemma transaction_certifiesOne {A} (m : Tx A) db :
  moves certifiesOne m -> certifiesOne db (failure (transaction m db)).2.
Proof.
  intros Hm. destruct (transaction_cases m db) as [(a & db' & Hop & ->)|(e & _ & ->)]; simpl.
  - by eapply Hm.
  - by apply same_certifiesOne.
Qed.

(** *** Binding an intent *)

Definition intentKey (i : PostIntentRow) : string * string := (pi_authorAgentId i, pi_postId i).

Lemma bind_ok binding db m db' : bindIntentWithFoundation binding db = Succeed (m, db') ->
  let i := bindingIntent binding in
  certified_records db' = certified_records db /\ intentsGrow db db' /\
  intentCores db' = <[intentKey i := intentCore i]> (intentCores db).
Proof.
  intros Hrun. unfold bindIntentWithFoundation in Hrun.
  apply tx_bind_ok in Hrun as (f & db1 & Hfoundation & Hrun).
  assert (sameCertified db db1) as [Hc Hi].
  { destruct binding; [|by eapply grows_foundation].
    unfold requireConversationFoundation, requireEqual in Hfoundation. tx. case_match; tx. done. }
  apply tx_bind_ok in Hrun as (b & db2 & Hbind & [_ ->]%ret_ok).
  unfold bindPostIntentInTransaction, requireSameBytes, requireEqual in Hbind.
  generalize (bindingIntent binding) as i, Hbind. clear Hbind. intros i Hbind. cbv zeta.
  unfold sameIntents in Hi. unfold intentsGrow. rewrite <- Hc, <- Hi. clear Hc Hi Hfoundation.
  apply tx_bind_ok in Hbind as (? & ? & [-> ->]%gets_ok & Hbind). cbv [id] in Hbind.
  destruct (readStoredIdentity db1) as [identity|]; [|done].
  apply tx_bind_ok in Hbind as (? & ? & (Hauthor & _ & ->)%require_ok & Hbind).
  destruct (post_intents db1 !! _) as [held|] eqn:Hheld.
  - tx. guards. assert (intentCores db1 !! intentKey i = Some (intentCore i)) as Hcore.
    { unfold intentCores, intentKey, intentCore. rewrite lookup_fmap, Hheld. simpl. congruence. }
    split_and!; [done|done|by rewrite insert_id].
  - unfold insert_post_intent, constraint in Hbind. tx. guards. split; [done|].
    assert (intentCores (set_post_intents <[(pi_authorAgentId i, pi_postId i) := mkPostIntentRow
      (pi_conversationId i) (pi_membershipHash i) (pi_authorAgentId i) (pi_postId i)
      (pi_canonicalIntent i) None]> db1) = <[intentKey i := intentCore i]> (intentCores db1)) as Hcores.
    { unfold intentCores. simpl. by rewrite fmap_insert. }
    split; [|exact Hcores]. eapply (eq_ind_r (fun cores => intentCores db1 ⊆ cores)); [|exact Hcores].
    apply insert_subseteq.
    unfold intentCores, intentKey. by rewrite lookup_fmap, Hheld.
Qed.

Lemma bind_certifiesOne binding : moves certifiesOne (bindIntentWithFoundation binding).
Proof. intros db m db' (? & ? & _)%bind_ok. split; [by left|done]. Qed.

Lemma perform_certifiesOne operation db : certifiesOne db (perform operation db).2.
Proof.
  destruct operation; cbv beta iota delta [perform];
    try (apply transaction_certifiesOne; apply moves_certifiesOne;
         solve [unfold requireText, requireBytes, requireSameBytes, requireEqual; follow]).
  - apply transaction_certifiesOne. intros db0 m db' Hrun.
    apply tx_bind_ok in Hrun as (u & db1 & Hv & Hrun). apply bind_certifiesOne in Hrun.
    assert (moves eq (validatePostIntentBinding binding)) as Hreads.
    { unfold validatePostIntentBinding, requireText, requireBytes, requireEqual. follow. }
    by apply Hreads in Hv as <-.
  - apply transaction_certifiesOne, certifiesOne_then; [follow|intros _; apply one_promote].
  - apply transaction_certifiesOne, certifiesOne_then; [follow|intros _].
    apply certifiesOne_then; [follow|intros staged].
    apply certifiesOne_before; [apply one_promote|follow].
  - unfold acknowledgeDelivery. case_match; [|by apply same_certifiesOne].
    apply transaction_certifiesOne, moves_certifiesOne. unfold acknowledgeInTransaction. follow.
  - apply transaction_certifiesOne, moves_certifiesOne.
    unfold requireText, beginInTransaction, whenTx. follow.
  - apply transaction_certifiesOne, moves_certifiesOne.
    unfold discardInTransaction, discardRow, whenTx. follow.
Qed.

(** *** Only binding adds an intent *)

Lemma moves_sameIntents {A} (m : Tx A) : moves sameCertified m -> moves sameIntents m.
Proof. by intros Hm db a db' [_ ?]%Hm. Qed.
Lemma same_insert_certified c r o : moves sameIntents (insert_certified c r o).
Proof. unfold insert_certified, constraint. follow. by apply moves_modify. Qed.
#[local] Hint Resolve same_insert_certified : tx_moves.
#[local] Hint Extern 5 (moves sameIntents _) => apply moves_sameIntents; solve [eauto with tx_moves] : tx_moves.

Lemma same_promote r d t : moves sameIntents (promoteRecordInTransaction r d t).
Proof.
  unfold promoteRecordInTransaction, mergeCertifiedEvidence, insertCertifiedRecord,
    completeLocalPostIntent, requireEqual. follow.
Qed.
#[local] Hint Resolve same_promote : tx_moves.

Definition binds (operation : StoreOperation) : bool :=
  match operation with BindPostIntent _ => true | _ => false end.

Lemma perform_sameIntents operation db : binds operation = false ->
  sameIntents db (perform operation db).2.
Proof.
  destruct operation; intros Hb; try discriminate; cbv beta iota delta [perform];
    try (apply (perform_transaction sameIntents);
         solve [unfold requireText, requireBytes, requireSameBytes, requireEqual; follow]).
  - unfold acknowledgeDelivery. case_match; [|done]. apply (perform_transaction sameIntents).
    unfold acknowledgeInTransaction. follow.
  - apply (perform_transaction sameIntents). unfold requireText, beginInTransaction, whenTx. follow.
  - apply (perform_transaction sameIntents). unfold discardInTransaction, discardRow, whenTx. follow.
Qed.

End growth.
End StoreGrowth.
