(* ===== verification/HostTables.v ===== *)
(** HostTables: the tables the endpoint store keeps for the runtime beside the
    protocol's own: the inbox, the event state, the firewall's queue, checks,
    local evidence, answers and policy
    (packages/client/src/communication/store/database/schema.ts,
    runtimeSchemaSql, firewallSchemaSql and editablePolicySql).

    No statement deletes a row of these tables, so a row's AUTOINCREMENT
    sequence or rowid is its position, from 1.  The evidence revision is the
    counter the schema's triggers raise.  Operations of the protocol run on
    their own tables inside this state ([lifted]), which also keeps the order in
    which records were certified: the rowids of certified_records.

    StoreInbox: the runtime's inbox and event state
    (packages/client/src/communication/store/inbox.ts).

    A number argument of the API is an integer of any size; bytes are texts. *)
From S2P Require Import Prelude JsMap Identifiers StoredHistory StoreDatabase StoreQueues.

Module HostTables.
Local Open Scope string_scope.
Import Identifiers StoreDatabase.

(** ** Rows *)

Record InboxRow := mkInboxRow {
  in_deliveryToken : string;
  in_canonicalItem : string;
  in_canonicalGuidance : option string;
  in_acknowledged : bool;
}.

Inductive Direction := incoming | outgoing.
Global Instance Direction_eq_dec : EqDecision Direction.
Proof. solve_decision. Defined.

Inductive QueueDisposition := queue_pending | queue_admitted | queue_withheld.
Global Instance QueueDisposition_eq_dec : EqDecision QueueDisposition.
Proof. solve_decision. Defined.

(** A row of firewall_incoming. *)
Record QueuedRow := mkQueued {
  fi_deliveryToken : string;
  fi_conversation : string;
  fi_canonicalItem : string;
  fi_canonicalProvenance : option string;
  fi_anchor : Z;
  fi_checkId : option string;
  fi_disposition : QueueDisposition;
}.

Inductive CheckDisposition :=
  | checking | interrupted | check_stale | check_admitted | check_withheld.
Global Instance CheckDisposition_eq_dec : EqDecision CheckDisposition.
Proof. solve_decision. Defined.

(** A row of firewall_checks. *)
Record CheckRow := mkCheckRow {
  fc_checkId : string;
  fc_direction : Direction;
  fc_revision : Z;
  fc_canonicalCandidate : string;
  fc_canonicalInput : string;
  fc_canonicalResult : option string;
  fc_disposition : CheckDisposition;
  fc_decidedAt : option Z;
}.
Global Instance CheckRow_eq_dec : EqDecision CheckRow.
Proof. solve_decision. Defined.

Record LocalEvidenceRow := mkLocalEvidence {
  le_conversation : string;
  le_anchor : Z;
  le_canonicalEntry : string;
}.

Record FirewallActivation := mkActivation {
  time : Z;
  activeRevision : string;
  addedRuleIds : list string;
  removedRuleIds : list string;
}.

(** ** The store's state *)

Record Hosted := mkHosted {
  protocol : Database;
  certifiedRows : list (string * string);
  runtime_inbox : list InboxRow;
  runtime_events : option string;
  revision : Z;
  firewall_incoming : list QueuedRow;
  firewall_checks : list CheckRow;
  firewall_local_evidence : list LocalEvidenceRow;
  firewall_answers : gmap (string * string) bool;
  firewall_policy : option string;
  firewall_activations : list FirewallActivation;
}.

Definition createHosted : Hosted :=
  mkHosted createStore [] [] None 0 [] [] [] ∅ None [].

Definition set_protocol f h := mkHosted (f (protocol h)) (certifiedRows h) (runtime_inbox h)
  (runtime_events h) (revision h) (firewall_incoming h) (firewall_checks h)
  (firewall_local_evidence h) (firewall_answers h) (firewall_policy h) (firewall_activations h).
Definition set_certifiedRows f h := mkHosted (protocol h) (f (certifiedRows h)) (runtime_inbox h)
  (runtime_events h) (revision h) (firewall_incoming h) (firewall_checks h)
  (firewall_local_evidence h) (firewall_answers h) (firewall_policy h) (firewall_activations h).
Definition set_inbox f h := mkHosted (protocol h) (certifiedRows h) (f (runtime_inbox h))
  (runtime_events h) (revision h) (firewall_incoming h) (firewall_checks h)
  (firewall_local_evidence h) (firewall_answers h) (firewall_policy h) (firewall_activations h).
Definition set_events f h := mkHosted (protocol h) (certifiedRows h) (runtime_inbox h)
  (f (runtime_events h)) (revision h) (firewall_incoming h) (firewall_checks h)
  (firewall_local_evidence h) (firewall_answers h) (firewall_policy h) (firewall_activations h).
Definition set_revision f h := mkHosted (protocol h) (certifiedRows h) (runtime_inbox h)
  (runtime_events h) (f (revision h)) (firewall_incoming h) (firewall_checks h)
  (firewall_local_evidence h) (firewall_answers h) (firewall_policy h) (firewall_activations h).
Definition set_incoming f h := mkHosted (protocol h) (certifiedRows h) (runtime_inbox h)
  (runtime_events h) (revision h) (f (firewall_incoming h)) (firewall_checks h)
  (firewall_local_evidence h) (firewall_answers h) (firewall_policy h) (firewall_activations h).
Definition set_checks f h := mkHosted (protocol h) (certifiedRows h) (runtime_inbox h)
  (runtime_events h) (revision h) (firewall_incoming h) (f (firewall_checks h))
  (firewall_local_evidence h) (firewall_answers h) (firewall_policy h) (firewall_activations h).
Definition set_localEvidence f h := mkHosted (protocol h) (certifiedRows h) (runtime_inbox h)
  (runtime_events h) (revision h) (firewall_incoming h) (firewall_checks h)
  (f (firewall_local_evidence h)) (firewall_answers h) (firewall_policy h) (firewall_activations h).
Definition set_answers f h := mkHosted (protocol h) (certifiedRows h) (runtime_inbox h)
  (runtime_events h) (revision h) (firewall_incoming h) (firewall_checks h)
  (firewall_local_evidence h) (f (firewall_answers h)) (firewall_policy h) (firewall_activations h).
Definition set_policy f h := mkHosted (protocol h) (certifiedRows h) (runtime_inbox h)
  (runtime_events h) (revision h) (firewall_incoming h) (firewall_checks h)
  (firewall_local_evidence h) (firewall_answers h) (f (firewall_policy h)) (firewall_activations h).
Definition set_activations f h := mkHosted (protocol h) (certifiedRows h) (runtime_inbox h)
  (runtime_events h) (revision h) (firewall_incoming h) (firewall_checks h)
  (firewall_local_evidence h) (firewall_answers h) (firewall_policy h) (f (firewall_activations h)).

(** The rows of a table, each with its sequence. *)
Definition numbered {A} (rows : list A) : list (Z * A) :=
  imap (fun i row => (Z.of_nat (S i), row)) rows.

(** ** Transactions over all tables *)

Definition HTx (A : Type) : Type := Hosted -> Exit EndpointStoreFailure (A * Hosted).
Global Instance htx_ret : MRet HTx := fun _ a h => Succeed (a, h).
Global Instance htx_bind : MBind HTx := fun _ _ k m h =>
  match m h with Succeed (a, h') => k a h' | Fail_ e => Fail_ e end.

Definition hsignal {A} (reason : EndpointStoreFailure) : HTx A := fun _ => Fail_ reason.
Definition hgets {A} (f : Hosted -> A) : HTx A := fun h => Succeed (f h, h).
Definition hmodify (f : Hosted -> Hosted) : HTx unit := fun h => Succeed (tt, f h).

(** The checks of values.ts read no table. *)
Definition checked (check : Tx unit) : HTx unit := fun h =>
  match check (protocol h) with Succeed _ => Succeed (tt, h) | Fail_ e => Fail_ e end.

Fixpoint forHTx {A} (f : A -> HTx unit) (l : list A) : HTx unit :=
  match l with [] => mret tt | x :: l' => f x ;; forHTx f l' end.

Definition htransaction {A} (operation : HTx A) (h : Hosted)
    : Exit EndpointStoreFailure A * Hosted :=
  match operation h with
  | Succeed (a, h') => (Succeed a, h')
  | Fail_ e => (Fail_ e, h)
  end.

(** Statements of the protocol's tables: firewall_history_changed and
    firewall_intent_changed raise the revision for every inserted record and
    intent. *)
Definition newlyCertified (before after : Database) : list (string * string) :=
  filter (fun key => certified_records before !! key = None)
    (map_to_list (certified_records after)).*1.
Definition changedTriggers (before after : Database) (h : Hosted) : Hosted :=
  set_certifiedRows (fun rows => (rows ++ newlyCertified before after)%list)
    (set_revision (fun r => r + Z.of_nat (length (newlyCertified before after)) +
                            (Z.of_nat (size (post_intents after)) -
                             Z.of_nat (size (post_intents before))))%Z h).
Definition lifted {A} (operation : Tx A) : HTx A := fun h =>
  match operation (protocol h) with
  | Succeed (a, after) =>
      Succeed (a, changedTriggers (protocol h) after (set_protocol (const after) h))
  | Fail_ e => Fail_ e
  end.

(** ** Statements *)

(** [readOptionalBytes]: an empty column is not readable. *)
Definition readOptionalBytes (column : option string) : HTx (option string) :=
  if bool_decide (column = Some "") then hsignal corrupt else mret column.

Definition requireSameOptionalBytes (prior next : option string) : HTx unit :=
  checked (requireEqual prior next).

Definition raise (h : Hosted) : Hosted := set_revision (fun r => r + 1)%Z h.

(** INSERT INTO runtime_inbox, with its trigger. *)
Definition insert_inbox (row : InboxRow) : HTx unit :=
  h ← hgets id;
  checked (constraint (negb (bool_decide (in_deliveryToken row ∈ in_deliveryToken <$> runtime_inbox h)))) ;;
  hmodify (fun h => raise (set_inbox (fun rows => (rows ++ [row])%list) h)).

Definition insert_incoming (row : QueuedRow) : HTx unit :=
  h ← hgets id;
  checked (constraint (negb (bool_decide
    (fi_deliveryToken row ∈ fi_deliveryToken <$> firewall_incoming h)))) ;;
  hmodify (set_incoming (fun rows => (rows ++ [row])%list)).

Definition insert_check (row : CheckRow) : HTx unit :=
  h ← hgets id;
  checked (constraint (negb (bool_decide (fc_checkId row ∈ fc_checkId <$> firewall_checks h)))) ;;
  hmodify (set_checks (fun rows => (rows ++ [row])%list)).

Definition insert_localEvidence (row : LocalEvidenceRow) : HTx unit :=
  hmodify (fun h => raise (set_localEvidence (fun rows => (rows ++ [row])%list) h)).

(** INSERT INTO firewall_answers ... ON CONFLICT DO UPDATE: only an insert
    fires the trigger. *)
Definition upsert_answer (key : string * string) (admitted : bool) : HTx unit :=
  hmodify (fun h => match firewall_answers h !! key with
                    | Some _ => set_answers <[key := admitted]> h
                    | None => raise (set_answers <[key := admitted]> h)
                    end).

(** ** Finding rows *)

Definition findInbox (h : Hosted) (deliveryToken : string) : option InboxRow :=
  List.find (fun row => bool_decide (in_deliveryToken row = deliveryToken)) (runtime_inbox h).
Definition findQueued (h : Hosted) (deliveryToken : string) : option QueuedRow :=
  List.find (fun row => bool_decide (fi_deliveryToken row = deliveryToken)) (firewall_incoming h).
Definition findCheck (h : Hosted) (checkId : string) : option CheckRow :=
  List.find (fun row => bool_decide (fc_checkId row = checkId)) (firewall_checks h).

End HostTables.

Module StoreInbox.
Local Open Scope string_scope.
Import Identifiers StoreDatabase HostTables.

Definition MAXIMUM_PAGE_ITEMS : Z := 50.
Definition MAXIMUM_RUNTIME_ITEM_BYTES : Z := 2 * 1024 * 1024.
Definition MAX_SAFE_INTEGER : Z := 9007199254740991.

Record InboxItem := mkInboxItem {
  deliveryToken : string;
  canonicalItem : string;
  canonicalGuidance : option string;
}.
Record InboxEntry := mkInboxEntry { ie_sequence : Z; ie_item : InboxItem }.
Record InboxPage := mkInboxPage {
  items : list InboxEntry;
  page_through : Z;
  nextAfter : option Z;
}.
Record InboxBounds := mkInboxBounds {
  after : option Z;
  through : option Z;
  limit : option Z;
}.

(** The bytes of an item and its guidance. *)
Definition itemBytes (item : string) (guidance : option string) : Z :=
  Z.of_nat (String.length item) + Z.of_nat (default 0%nat (String.length <$> guidance)).

Section inbox.
Context `{Base64Url}.

(** [DeliveryToken]'s schema. *)
Definition isDeliveryToken (value : string) : bool := isCanonicalIdentifier "dlv_" value.
Definition decodeDeliveryToken (value : string) : Exit EndpointStoreFailure string :=
  if isDeliveryToken value then Succeed value else Fail_ persistence.

Definition guidanceBytes (row : InboxRow) : Exit EndpointStoreFailure (option string) :=
  if bool_decide (in_canonicalGuidance row = Some "") then Fail_ corrupt
  else Succeed (in_canonicalGuidance row).

(** ** Writes *)

Definition putInboxItem (item : InboxItem) : HTx StoreMutation :=
  checked (requireBytes (canonicalItem item)) ;;
  checked (require invalid_input (negb (bool_decide
    (MAXIMUM_RUNTIME_ITEM_BYTES < itemBytes (canonicalItem item) (canonicalGuidance item))%Z))) ;;
  h ← hgets id;
  match findInbox h (deliveryToken item) with
  | Some retained =>
    checked (requireSameBytes (in_canonicalItem retained) (canonicalItem item)) ;;
    priorGuidance ← readOptionalBytes (in_canonicalGuidance retained);
    requireSameOptionalBytes priorGuidance (canonicalGuidance item) ;;
    mret existing
  | None =>
    insert_inbox (mkInboxRow (deliveryToken item) (canonicalItem item) (canonicalGuidance item) false) ;;
    mret inserted
  end.

Definition writeEventState (canonicalState : string) : HTx unit :=
  checked (requireBytes canonicalState) ;;
  hmodify (set_events (const (Some canonicalState))).

(** Retire a delivery's row of the protocol's own pending deliveries. *)
Definition retirePendingDelivery (token : string) : HTx unit :=
  hmodify (set_protocol (set_deliveries (fmap (StoreQueues.markAcknowledged token)))).

Definition acknowledgeRow (token : string) (row : InboxRow) : InboxRow :=
  if bool_decide (in_deliveryToken row = token)
  then mkInboxRow (in_deliveryToken row) (in_canonicalItem row) (in_canonicalGuidance row) true
  else row.
Definition retireItem (token : string) : HTx unit :=
  h ← hgets id;
  match findInbox h token with
  | None => hsignal not_found
  | Some _ =>
    hmodify (set_inbox (fmap (acknowledgeRow token))) ;;
    retirePendingDelivery token
  end.

Definition acknowledgeInboxItem (token : string) : HTx unit := retireItem token.

Definition completeWebhookDelivery (token canonicalState : string) : HTx unit :=
  retireItem token ;; writeEventState canonicalState.

(** [retain] is the queue write of a replacement the firewall checks first. *)
Definition replaceInboxItem (token : string) (replacement : InboxItem)
    (retain : option (HTx unit)) : HTx unit :=
  checked (require conflict (negb (bool_decide (token = deliveryToken replacement)))) ;;
  retireItem token ;;
  match retain with
  | None => putInboxItem replacement ;; mret tt
  | Some queue => queue
  end.

(** ** Reads *)

Definition readInboxItem (h : Hosted) (token : string)
    : Exit EndpointStoreFailure (option (InboxEntry * bool)) :=
  match List.find (fun row => bool_decide (in_deliveryToken row.2 = token))
          (numbered (runtime_inbox h)) with
  | None => Succeed None
  | Some (sequence, row) =>
    guidance ← guidanceBytes row;
    Succeed (Some (mkInboxEntry sequence (mkInboxItem token (in_canonicalItem row) guidance),
                   in_acknowledged row))
  end.

Definition requireSequence (value : Z) : Exit EndpointStoreFailure Z :=
  if bool_decide (MAX_SAFE_INTEGER < Z.abs value)%Z || bool_decide (value < 0)%Z
  then Fail_ invalid_continuation else Succeed value.

Definition newestSequence (h : Hosted) : Z := Z.of_nat (length (runtime_inbox h)).

Definition pageLimit (input : InboxBounds) (after through : Z) : Exit EndpointStoreFailure Z :=
  let limit := default MAXIMUM_PAGE_ITEMS (limit input) in
  if bool_decide (limit < 1)%Z || bool_decide (MAXIMUM_PAGE_ITEMS < limit)%Z ||
     bool_decide (through < after)%Z
  then Fail_ invalid_continuation else Succeed limit.

(** [collectPage]'s loop, after the [items] that use [bytes]. *)
Fixpoint collectFrom (rows : list (Z * InboxRow)) (limit : Z) (items : list InboxEntry) (bytes : Z)
    : Exit EndpointStoreFailure (list InboxEntry) :=
  match rows with
  | [] => Succeed items
  | (sequence, row) :: rest =>
    guidance ← guidanceBytes row;
    let itemBytes := itemBytes (in_canonicalItem row) guidance in
    if bool_decide (Z.of_nat (length items) = limit) ||
       (bool_decide (0 < length items)%nat &&
        bool_decide (MAXIMUM_RUNTIME_ITEM_BYTES < bytes + itemBytes)%Z)
    then Succeed items
    else
      token ← decodeDeliveryToken (in_deliveryToken row);
      collectFrom rest limit
        (items ++ [mkInboxEntry sequence (mkInboxItem token (in_canonicalItem row) guidance)])%list
        (bytes + itemBytes)
  end.
Definition collectPage (rows : list (Z * InboxRow)) (limit : Z) :=
  collectFrom rows limit [] 0.

(** The rows a page selects, before its LIMIT. *)
Definition unread (h : Hosted) (after through : Z) : list (Z * InboxRow) :=
  filter (fun row => in_acknowledged row.2 = false /\ (after < row.1 <= through)%Z)
    (numbered (runtime_inbox h)).

Definition readInbox (h : Hosted) (input : InboxBounds) : Exit EndpointStoreFailure InboxPage :=
  after ← requireSequence (default 0%Z (after input));
  through ← requireSequence (default (newestSequence h) (through input));
  limit ← pageLimit input after through;
  let rows := take (Z.to_nat (limit + 1)) (unread h after through) in
  items ← collectPage rows limit;
  Succeed (mkInboxPage items through
    (match last items with
     | Some entry => if bool_decide (length items < length rows)%nat
                     then Some (ie_sequence entry) else None
     | None => None
     end)).

Record InboxSummary := mkInboxSummary { pendingCount : Z; summary_newest : Z }.
Definition readInboxSummary (h : Hosted) : InboxSummary :=
  mkInboxSummary
    (Z.of_nat (length (filter (fun row => in_acknowledged row = false) (runtime_inbox h))))
    (newestSequence h).

Definition readEventState (h : Hosted) : option string := runtime_events h.

End inbox.
End StoreInbox.
