(* ===== verification/StoreFirewall.v ===== *)
(** StoreFirewall: the firewall's queue, checks, evidence windows and policy in
    the endpoint store (packages/client/src/communication/store/firewall.ts),
    and the post intents a check binds (store/anchors.ts).

    [clock] is the time SQLite reads when it completes a check.  Columns a
    write checked are never empty, so only optional columns can be unreadable. *)
From S2P Require Import Prelude JsMap Identifiers StoredHistory StoreDatabase StoreAnchors.
From S2P Require Import HostTables.
Local Open Scope string_scope.

Module StoreFirewall.
Import Identifiers StoreDatabase StoreAnchors HostTables StoreInbox.

(** ** What callers pass and read *)

Record FirewallItem := mkFirewallItem {
  fq_deliveryToken : string;
  fq_conversation : string;
  fq_canonicalItem : string;
  fq_canonicalProvenance : option string;
}.

Record FirewallAttempt := mkAttempt {
  fa_checkId : string;
  fa_direction : Direction;
  fa_revision : Z;
  fa_canonicalCandidate : string;
  fa_canonicalInput : string;
}.

Record FirewallCompletion := mkCompletion {
  co_checkId : string;
  co_canonicalResult : string;
  co_admit : bool;
  co_shadow : bool;
}.

(** A deterministic check: an attempt without its revision, and its result. *)
Record DeterministicCheck := mkDeterministic {
  dc_checkId : string;
  dc_direction : Direction;
  dc_canonicalCandidate : string;
  dc_canonicalInput : string;
  dc_canonicalResult : string;
}.

Record FirewallLocalAdmission := mkLocalAdmission {
  la_queuedItem : string;
  la_item : InboxItem;
  la_completions : list FirewallCompletion;
  la_deterministic : option DeterministicCheck;
  la_answers : list (string * bool);
  la_conversation : string;
  la_canonicalEntry : string;
}.

Record FirewallRange := mkRange {
  beforeDelivery : option string;
  beforeRecord : option string;
  range_conversationId : option string;
  range_conversation : option string;
}.

Record FirewallHistoryEntry := mkHistoryEntry {
  fh_canonicalRecordCore : string;
  fh_canonicalMembership : string;
  fh_visible : bool;
  fh_answer : option bool;
}.
Inductive WindowEntry :=
  | RecordEntry (entry : FirewallHistoryEntry)
  | LocalEntry (canonicalEntry : string).

Record EvidenceWindow := mkWindow {
  history : list WindowEntry;
  overflow : bool;
  earlierHistoryOmitted : bool;
}.
Record FirewallEvidenceSlice := mkSlice {
  slice_window : EvidenceWindow;
  slice_candidate : option FirewallHistoryEntry;
}.
Record FirewallEvidenceSlices := mkSlices {
  slices_revision : Z;
  pendingOutgoing : bool;
  slices : list FirewallEvidenceSlice;
}.

Section firewall.
Context `{Base64Url}.

(** ** The queue *)

Definition newestCertified (h : Hosted) : Z := Z.of_nat (length (certifiedRows h)).

Definition queueFirewallItem (item : FirewallItem) : HTx unit :=
  checked (requireText (fq_conversation item)) ;;
  checked (requireBytes (fq_canonicalItem item)) ;;
  h ← hgets id;
  match findQueued h (fq_deliveryToken item) with
  | Some prior =>
    checked (requireSameBytes (fi_canonicalItem prior) (fq_canonicalItem item)) ;;
    provenance ← readOptionalBytes (fi_canonicalProvenance prior);
    requireSameOptionalBytes provenance (fq_canonicalProvenance item) ;;
    checked (require conflict (bool_decide (fi_conversation prior = fq_conversation item)))
  | None =>
    match findInbox h (fq_deliveryToken item) with
    | Some visible => checked (requireSameBytes (in_canonicalItem visible) (fq_canonicalItem item))
    | None =>
      insert_incoming (mkQueued (fq_deliveryToken item) (fq_conversation item)
        (fq_canonicalItem item) (fq_canonicalProvenance item) (newestCertified h) None queue_pending)
    end
  end.

(** A pending item earlier than [sequence] in the same conversation. *)
Definition hasPredecessor (h : Hosted) (conversation : string) (sequence : Z) : bool :=
  existsb (fun row => bool_decide (fi_conversation row.2 = conversation /\
                                   fi_disposition row.2 = queue_pending /\ (row.1 < sequence)%Z))
    (numbered (firewall_incoming h)).

Definition queuedEntry (row : Z * QueuedRow) : Exit EndpointStoreFailure (Z * FirewallItem) :=
  if bool_decide (fi_canonicalProvenance row.2 = Some "") then Fail_ corrupt
  else
    token ← decodeDeliveryToken (fi_deliveryToken row.2);
    Succeed (row.1, mkFirewallItem token (fi_conversation row.2) (fi_canonicalItem row.2)
                      (fi_canonicalProvenance row.2)).

Definition readFirewallFrontiers (h : Hosted) : Exit EndpointStoreFailure (list (Z * FirewallItem)) :=
  for_each queuedEntry
    (take 32 (filter (fun row => fi_disposition row.2 = queue_pending /\
                                 hasPredecessor h (fi_conversation row.2) row.1 = false)
      (numbered (firewall_incoming h)))).

(** An integer argument in the range of a sequence. *)
Definition safePosition (value : Z) : bool :=
  bool_decide (0 <= value <= MAX_SAFE_INTEGER)%Z.

Definition readPendingFirewallItems (h : Hosted) (after : Z)
    : Exit EndpointStoreFailure (list (Z * FirewallItem)) :=
  if safePosition after then
    for_each queuedEntry
      (take 32 (filter (fun row => fi_disposition row.2 = queue_pending /\ (after < row.1)%Z)
        (numbered (firewall_incoming h))))
  else Fail_ invalid_input.

Definition requireQueueFrontier (token item : string) : HTx unit :=
  h ← hgets id;
  match List.find (fun row => bool_decide (fi_deliveryToken row.2 = token /\
                                           fi_disposition row.2 = queue_pending))
          (numbered (firewall_incoming h)) with
  | None => hsignal conflict
  | Some (sequence, queued) =>
    checked (requireSameBytes (fi_canonicalItem queued) item) ;;
    checked (require conflict (negb (hasPredecessor h (fi_conversation queued) sequence)))
  end.

Definition settleRow (token : string) (disposition : QueueDisposition) (checkId : option string)
    (row : QueuedRow) : QueuedRow :=
  if bool_decide (fi_deliveryToken row = token)
  then mkQueued (fi_deliveryToken row) (fi_conversation row) (fi_canonicalItem row)
         (fi_canonicalProvenance row) (fi_anchor row) checkId disposition
  else row.
Definition settleQueuedItem (token : string) (disposition : QueueDisposition)
    (checkId : option string) : HTx unit :=
  hmodify (set_incoming (fmap (settleRow token disposition checkId))).

(** ** Checks *)

Definition beginFirewallAttempt (attempt : FirewallAttempt) : HTx unit :=
  checked (requireText (fa_checkId attempt)) ;;
  checked (requireBytes (fa_canonicalCandidate attempt)) ;;
  checked (requireBytes (fa_canonicalInput attempt)) ;;
  insert_check (mkCheckRow (fa_checkId attempt) (fa_direction attempt) (fa_revision attempt)
    (fa_canonicalCandidate attempt) (fa_canonicalInput attempt) None checking None).

(** The started check a completion finishes, for exactly this candidate. *)
Definition checkingRow (completion : FirewallCompletion) (direction : Direction)
    (canonicalCandidate : string) : HTx Z :=
  h ← hgets id;
  match findCheck h (co_checkId completion) with
  | None => hsignal conflict
  | Some row =>
    checked (require conflict (bool_decide (fc_disposition row = checking) &&
                               bool_decide (fc_direction row = direction))) ;;
    checked (requireSameBytes (fc_canonicalCandidate row) canonicalCandidate) ;;
    mret (fc_revision row)
  end.

Definition staysFresh (completion : FirewallCompletion) (startedRevision currentRevision : Z) : bool :=
  negb (co_admit completion) || co_shadow completion ||
  bool_decide (startedRevision = currentRevision).

Definition checkDisposition (fresh : bool) (completion : FirewallCompletion) : FirewallCommit :=
  if fresh then (if co_admit completion then CommitAdmitted else CommitWithheld) else CommitStale.

Definition committed (commit : FirewallCommit) : CheckDisposition :=
  match commit with
  | CommitAdmitted => check_admitted | CommitWithheld => check_withheld | CommitStale => check_stale
  end.

Definition completeRow (checkId result : string) (disposition : CheckDisposition) (now : Z)
    (row : CheckRow) : CheckRow :=
  if bool_decide (fc_checkId row = checkId /\ fc_disposition row = checking)
  then mkCheckRow (fc_checkId row) (fc_direction row) (fc_revision row) (fc_canonicalCandidate row)
         (fc_canonicalInput row) (Some result) disposition (Some now)
  else row.

Definition completeFirewallCheck (clock : string -> Z) (checkId result : string)
    (disposition : FirewallCommit) : HTx unit :=
  checked (requireBytes result) ;;
  h ← hgets id;
  checked (require conflict (existsb (fun row => bool_decide
    (fc_checkId row = checkId /\ fc_disposition row = checking)) (firewall_checks h))) ;;
  hmodify (set_checks (fmap (completeRow checkId result (committed disposition) (clock checkId)))).

Definition compareFirewallCheck (clock : string -> Z) (completion : FirewallCompletion)
    (direction : Direction) (canonicalCandidate : string) : HTx FirewallCommit :=
  startedRevision ← checkingRow completion direction canonicalCandidate;
  h ← hgets id;
  let disposition := checkDisposition (staysFresh completion startedRevision (revision h)) completion in
  completeFirewallCheck clock (co_checkId completion) (co_canonicalResult completion) disposition ;;
  mret disposition.

(** ** Admission *)

Definition queueDisposition (commit : FirewallCommit) : QueueDisposition :=
  match commit with CommitAdmitted => queue_admitted | _ => queue_withheld end.

Definition admitFirewallItem (clock : string -> Z) (item : InboxItem)
    (completion : FirewallCompletion) : HTx FirewallCommit :=
  requireQueueFrontier (deliveryToken item) (canonicalItem item) ;;
  disposition ← compareFirewallCheck clock completion incoming (canonicalItem item);
  if decide (disposition = CommitStale) then mret disposition
  else
    (if decide (disposition = CommitAdmitted) then putInboxItem item ;; mret tt
     else retirePendingDelivery (deliveryToken item)) ;;
    settleQueuedItem (deliveryToken item) (queueDisposition disposition) (Some (co_checkId completion)) ;;
    mret disposition.

(** The checks of a local item with the revisions they began at. *)
Fixpoint startedChecks (completions : list FirewallCompletion) (queuedItem : string)
    : HTx (list (FirewallCompletion * Z)) :=
  match completions with
  | [] => mret []
  | completion :: rest =>
    startedRevision ← checkingRow completion incoming queuedItem;
    started ← startedChecks rest queuedItem;
    mret ((completion, startedRevision) :: started)
  end.

Definition completeLocalChecks (clock : string -> Z) (admission : FirewallLocalAdmission) : HTx bool :=
  h ← hgets id;
  started ← startedChecks (la_completions admission) (la_queuedItem admission);
  let fresh := forallb (fun '(completion, startedRevision) =>
                 staysFresh completion startedRevision (revision h)) started in
  forHTx (fun '(completion, _) =>
    completeFirewallCheck clock (co_checkId completion) (co_canonicalResult completion)
      (checkDisposition fresh completion)) started ;;
  mret fresh.

(** One answer is marked when exactly one certified record has its hash. *)
Definition markAnswer (answer : string * bool) : HTx unit :=
  checked (requireText answer.1) ;;
  h ← hgets id;
  match filter (fun key => key.2 = answer.1) (certifiedRows h) with
  | [key] => upsert_answer key answer.2
  | _ => hsignal conflict
  end.
Definition markAnswers (answers : list (string * bool)) : HTx unit := forHTx markAnswer answers.

Definition beginDeterministic (clock : string -> Z) (deterministic : option DeterministicCheck)
    : HTx unit :=
  match deterministic with
  | None => mret tt
  | Some check =>
    h ← hgets id;
    beginFirewallAttempt (mkAttempt (dc_checkId check) (dc_direction check) (revision h)
      (dc_canonicalCandidate check) (dc_canonicalInput check)) ;;
    completeFirewallCheck clock (dc_checkId check) (dc_canonicalResult check) CommitAdmitted
  end.

Definition insertEvidence (admission : FirewallLocalAdmission) : HTx unit :=
  h ← hgets id;
  forHTx (fun queued => insert_localEvidence (mkLocalEvidence (la_conversation admission)
            (fi_anchor queued) (la_canonicalEntry admission)))
    (filter (fun queued => fi_deliveryToken queued = deliveryToken (la_item admission))
      (firewall_incoming h)).

Definition admitFirewallLocalItem (clock : string -> Z) (admission : FirewallLocalAdmission)
    : HTx FirewallCommit :=
  let token := deliveryToken (la_item admission) in
  checked (requireText (la_conversation admission)) ;;
  checked (requireBytes (la_canonicalEntry admission)) ;;
  requireQueueFrontier token (la_queuedItem admission) ;;
  beginDeterministic clock (la_deterministic admission) ;;
  fresh ← completeLocalChecks clock admission;
  if (fresh : bool) then
    putInboxItem (la_item admission) ;;
    markAnswers (la_answers admission) ;;
    insertEvidence admission ;;
    settleQueuedItem token queue_admitted None ;;
    mret CommitAdmitted
  else mret CommitStale.

Definition retireFirewallItem (token : string) : HTx unit :=
  h ← hgets id;
  checked (require not_found (bool_decide (length (filter (fun row =>
    fi_deliveryToken row = token /\ fi_disposition row = queue_pending) (firewall_incoming h)) = 1%nat))) ;;
  hmodify (set_incoming (fmap (fun row =>
    if bool_decide (fi_deliveryToken row = token /\ fi_disposition row = queue_pending)
    then mkQueued (fi_deliveryToken row) (fi_conversation row) (fi_canonicalItem row)
           (fi_canonicalProvenance row) (fi_anchor row) (fi_checkId row) queue_withheld
    else row))) ;;
  retirePendingDelivery token.

Definition admitFirewallOperation (clock : string -> Z) (completion : FirewallCompletion)
    (canonicalCandidate : string) : HTx FirewallCommit :=
  compareFirewallCheck clock completion outgoing canonicalCandidate.

(** Whether an admitted operation's check authorises this content. *)
Definition admittedOperation (h : Hosted) (checkId canonicalCandidate : string) : bool :=
  match findCheck h checkId with
  | None => false
  | Some row =>
    bool_decide (fc_direction row = outgoing) && bool_decide (fc_disposition row = check_admitted) &&
    bool_decide (fc_canonicalCandidate row = canonicalCandidate)
  end.

Definition bindCheckedPostIntent (clock : string -> Z) (binding : PostIntentBinding)
    (completion : FirewallCompletion) : HTx FirewallCommit :=
  checked (validatePostIntentBinding binding) ;;
  disposition ← compareFirewallCheck clock completion outgoing
                  (pi_canonicalIntent (bindingIntent binding));
  if decide (disposition = CommitAdmitted)
  then lifted (bindIntentWithFoundation binding) ;; mret disposition
  else mret disposition.

Definition bindAdmittedPostIntent (binding : PostIntentBinding) (checkId canonicalCandidate : string)
    : HTx FirewallCommit :=
  checked (validatePostIntentBinding binding) ;;
  checked (requireText checkId) ;;
  checked (requireBytes canonicalCandidate) ;;
  h ← hgets id;
  if admittedOperation h checkId canonicalCandidate
  then lifted (bindIntentWithFoundation binding) ;; mret CommitAdmitted
  else mret CommitWithheld.

(** ** Evidence windows *)

(** A row of [historySelect]. *)
Record HistoryRow := mkHistoryRow {
  hr_position : Z;
  hr_sequence : Z;
  hr_conversationId : string;
  hr_recordHash : string;
  hr_entry : FirewallHistoryEntry;
  hr_deliveryToken : option string;
}.

Definition deliveriesOf (h : Hosted) (key : string * string) : list (option string) :=
  match filter (fun d => (pd_conversationId d, pd_recordHash d) = key) (pending_deliveries (protocol h)) with
  | [] => [None]
  | ds => Some ∘ pd_deliveryToken <$> ds
  end.

Definition isVisible (h : Hosted) (token : option string) : bool :=
  match token with
  | Some token => bool_decide (is_Some (findInbox h token))
  | None => false
  end.

(** The join's rows for the certified record at rowid [sequence]. *)
Definition rowsOf (h : Hosted) (row : Z * (string * string)) : list HistoryRow :=
  let '(sequence, key) := row in
  match certified_records (protocol h) !! key, staged_records (protocol h) !! key,
        memberships (protocol h) !! key.1 with
  | Some position, Some staged, Some membership =>
    (fun token => mkHistoryRow position sequence key.1 key.2
       (mkHistoryEntry (canonicalRecordCore staged) (canonicalMembership membership)
          (isVisible h token) (firewall_answers h !! key)) token) <$> deliveriesOf h key
  | _, _, _ => []
  end.
Definition historySelect (h : Hosted) : list HistoryRow :=
  numbered (certifiedRows h) ≫= rowsOf h.

Record HistoryWindow := mkHistoryWindow {
  maximumRecords : Z;
  beforePosition : Z;
  beforeSequence : Z;
  conversationId : option string;
  conversation : option string;
}.

(** A window entry with the position that orders it among the other kind. *)
Record PositionedEntry := mkPositioned {
  pe_sequence : Z;
  pe_local : bool;
  pe_bytes : Z;
  pe_entry : WindowEntry;
}.

Definition bytesOf (text : string) : Z := Z.of_nat (String.length text).

Definition recordEntry (row : HistoryRow) : PositionedEntry :=
  mkPositioned (hr_sequence row) false
    (bytesOf (fh_canonicalRecordCore (hr_entry row)) + bytesOf (fh_canonicalMembership (hr_entry row)))
    (RecordEntry (hr_entry row)).

(** Descending by [order] and then by sequence. *)
Definition newestFirst {A} (order : Z * A -> Z) (rows : list (Z * A)) : list (Z * A) :=
  merge_sort (fun a b => order b < order a \/ order b = order a /\ b.1 <= a.1)%Z rows.

(** The rowids a window selects: the newest of its conversation's ordinals. *)
Definition selectedRecords (h : Hosted) (window : HistoryWindow) : list (Z * (string * string)) :=
  let ordinal row := default (-1)%Z (certified_records (protocol h) !! row.2) in
  take (Z.to_nat (maximumRecords window + 1))
    (newestFirst ordinal
      (filter (fun row => Some row.2.1 = conversationId window /\
                          (ordinal row < beforePosition window)%Z /\
                          is_Some (certified_records (protocol h) !! row.2))
         (numbered (certifiedRows h)))).

Definition recordEntries (h : Hosted) (window : HistoryWindow) : list PositionedEntry :=
  recordEntry <$> (selectedRecords h window ≫= rowsOf h).

Definition localEntries (h : Hosted) (window : HistoryWindow) : list PositionedEntry :=
  (fun row => mkPositioned (le_anchor row.2) true (bytesOf (le_canonicalEntry row.2))
     (LocalEntry (le_canonicalEntry row.2))) <$>
  take (Z.to_nat (maximumRecords window + 1))
    (newestFirst (fun row => le_anchor row.2)
      (filter (fun row => Some (le_conversation row.2) = conversation window /\
                          (le_anchor row.2 < beforeSequence window)%Z)
         (numbered (firewall_local_evidence h)))).

(** The newer of two candidates; a local entry follows the record at its anchor. *)
Definition newer (record local : option PositionedEntry) : option PositionedEntry :=
  match record, local with
  | Some r, Some l => if bool_decide (pe_sequence r <= pe_sequence l)%Z then Some l else Some r
  | Some r, None => Some r
  | None, l => l
  end.

(** [mergedWindow]'s loop: [history] is what it took so far, newest first. *)
Fixpoint mergeFrom (fuel : nat) (records locals : list PositionedEntry) (maximumRecords : Z)
    (taken : list WindowEntry) (bytes : Z) : EvidenceWindow :=
  let historyWindow := mkWindow (reverse taken) in
  match newer (head records) (head locals), fuel with
  | None, _ | _, O => historyWindow false false
  | Some next, S fuel' =>
    if bool_decide (Z.of_nat (length taken) = maximumRecords) then historyWindow false true
    else
      let bytes' := (bytes + pe_bytes next)%Z in
      if bool_decide (MAXIMUM_RUNTIME_ITEM_BYTES < bytes')%Z then historyWindow true false
      else mergeFrom fuel'
             (if pe_local next then records else tail records)
             (if pe_local next then tail locals else locals)
             maximumRecords (pe_entry next :: taken) bytes'
  end.
Definition mergedWindow (records locals : list PositionedEntry) (maximumRecords : Z) : EvidenceWindow :=
  mergeFrom (length records + length locals) records locals maximumRecords [] 0.

Definition boundedHistory (h : Hosted) (window : HistoryWindow) : EvidenceWindow :=
  mergedWindow (recordEntries h window) (localEntries h window) (maximumRecords window).

(** The certified record a range ends before, when it names one. *)
Definition windowCandidate (h : Hosted) (range : FirewallRange) : option HistoryRow :=
  match beforeDelivery range with
  | Some token => List.find (fun row => bool_decide (hr_deliveryToken row = Some token)) (historySelect h)
  | None =>
    match beforeRecord range with
    | Some recordHash => List.find (fun row => bool_decide (hr_recordHash row = recordHash)) (historySelect h)
    | None => None
    end
  end.

Definition readSlice (h : Hosted) (range : FirewallRange) (maximumRecords : Z) : FirewallEvidenceSlice :=
  match windowCandidate h range with
  | None =>
    if bool_decide (beforeDelivery range = None) && bool_decide (beforeRecord range = None)
    then mkSlice (boundedHistory h (mkHistoryWindow maximumRecords MAX_SAFE_INTEGER MAX_SAFE_INTEGER
                    (range_conversationId range) (range_conversation range))) None
    else mkSlice (mkWindow [] false false) None
  | Some candidate =>
    mkSlice (boundedHistory h (mkHistoryWindow maximumRecords (hr_position candidate)
               (hr_sequence candidate) (Some (hr_conversationId candidate)) (range_conversation range)))
            (Some (hr_entry candidate))
  end.

Definition readFirewallEvidenceSlices (h : Hosted) (ranges : list FirewallRange) (maximumRecords : Z)
    : Exit EndpointStoreFailure FirewallEvidenceSlices :=
  if bool_decide (1 <= maximumRecords <= 1024)%Z
  then Succeed (mkSlices (revision h)
         (bool_decide (~ map_Forall (fun _ i => pi_completedRecordHash i <> None)
                           (post_intents (protocol h))))
         ((fun range => readSlice h range maximumRecords) <$> ranges))
  else Fail_ invalid_input.

(** [readFirewallEvidence]: one window with its capture. *)
Definition readFirewallEvidence (h : Hosted) (range : FirewallRange) (maximumRecords : Z)
    : Exit EndpointStoreFailure (FirewallEvidenceSlices * FirewallEvidenceSlice) :=
  captured ← readFirewallEvidenceSlices h [range] maximumRecords;
  match slices captured with
  | slice :: _ => Succeed (captured, slice)
  | [] => Fail_ corrupt
  end.

(** ** Audit, requests and policy *)

Record FirewallRequestAdmission := mkRequestAdmission {
  presented : bool;
  request_canonicalResult : option string;
  request_checkId : option string;
}.

Definition readFirewallRequestAdmission (h : Hosted) (recordHash : string)
    : Exit EndpointStoreFailure (option FirewallRequestAdmission) :=
  match requireText recordHash (protocol h) with
  | Fail_ e => Fail_ e
  | Succeed _ =>
    Succeed (match List.find (fun d => bool_decide (pd_recordHash d = recordHash))
                     (pending_deliveries (protocol h)) with
             | None => None
             | Some d =>
               let checkId := option_bind _ _ fi_checkId (findQueued h (pd_deliveryToken d)) in
               let check := option_bind _ _ (findCheck h) checkId in
               Some (mkRequestAdmission (bool_decide (is_Some (findInbox h (pd_deliveryToken d))))
                       (option_bind _ _ fc_canonicalResult check) checkId)
             end)
  end.

Definition readFirewallAuditPage (h : Hosted) (after : Z)
    : Exit EndpointStoreFailure (list (Z * CheckRow)) :=
  if safePosition after
  then Succeed (take 32 (filter (fun row => (after < row.1)%Z) (numbered (firewall_checks h))))
  else Fail_ invalid_input.

Definition readFirewallDecisions (h : Hosted) (since : Z)
    : Exit EndpointStoreFailure (list (Z * CheckRow)) :=
  if safePosition since
  then Succeed (take 100 (newestFirst (fun row => default 0%Z (fc_decidedAt row.2))
         (filter (fun row => match fc_decidedAt row.2 with
                          | Some decided => bool_decide (since <= decided)%Z
                          | None => false
                          end = true)
            (numbered (firewall_checks h)))))
  else Fail_ invalid_input.

Definition readFirewallPolicy (h : Hosted) : option string := firewall_policy h.

Definition writeFirewallPolicy (rules : string) (activation : option FirewallActivation) : HTx unit :=
  checked (requireBytes rules) ;;
  hmodify (set_policy (const (Some rules))) ;;
  match activation with
  | None => mret tt
  | Some activation => hmodify (set_activations (fun rows => (rows ++ [activation])%list))
  end.

(** A stored activation's columns: text, and two JSON arrays of nonempty strings. *)
Definition readActivation (row : Z * FirewallActivation)
    : Exit EndpointStoreFailure (Z * FirewallActivation) :=
  if bool_decide (activeRevision row.2 = "") then Fail_ corrupt
  else if forallb (fun id => negb (bool_decide (id = ""))) (addedRuleIds row.2 ++ removedRuleIds row.2)%list
  then Succeed row else Fail_ persistence.

Definition readFirewallActivations (h : Hosted) (since after : option Z)
    : Exit EndpointStoreFailure (list (Z * FirewallActivation)) :=
  let from := default 0%Z since in
  let beyond := default 0%Z after in
  if safePosition from && safePosition beyond then
    let rows := filter (fun row => (from <= time row.2)%Z /\ (beyond < row.1)%Z)
                  (numbered (firewall_activations h)) in
    for_each readActivation (take 100 (match after with
      | None => newestFirst (fun row => time row.2) rows
      | Some _ => rows
      end))
  else Fail_ invalid_input.

End firewall.
End StoreFirewall.
