(* ===== verification/HostLaws.v ===== *)
(** HostLaws: what every operation of the store with the runtime's tables keeps:
    rows are only added, a row's payload never changes, a decision is final, and
    the evidence revision counts the rows the triggers watch.

    HostStore: the store's capability with the runtime's operations, as one
    type, and the states a history of them reaches
    (packages/client/src/communication/store/store.ts).

    Each operation is one transaction.  [Reopen] is the opening of an existing
    store by the next process, which marks the checks it finds unfinished. *)
From S2P Require Import Prelude JsMap Identifiers StoredHistory StoreDatabase StoreAnchors.
From S2P Require Import EndpointStore StoreGrowth HostTables StoreFirewall.

Module HostStore.
Local Open Scope string_scope.
Import StoreDatabase StoreAnchors EndpointStore HostTables StoreInbox StoreFirewall.

(** [openStoreState] finds the checks its predecessor left unfinished. *)
Definition interruptRow (row : CheckRow) : CheckRow :=
  if bool_decide (fc_disposition row = checking)
  then mkCheckRow (fc_checkId row) (fc_direction row) (fc_revision row) (fc_canonicalCandidate row)
         (fc_canonicalInput row) (fc_canonicalResult row) interrupted (fc_decidedAt row)
  else row.
Definition openStoreState : HTx unit := hmodify (set_checks (fmap interruptRow)).

Inductive HostOperation :=
  | OnProtocol (operation : StoreOperation)
  | PutInboxItem (item : InboxItem)
  | AcknowledgeInboxItem (token : string)
  | ReplaceInboxItem (token : string) (replacement : InboxItem) (pendingConversation : option string)
  | CompleteWebhookDelivery (token canonicalState : string)
  | WriteEventState (canonicalState : string)
  | QueueFirewallItem (item : FirewallItem)
  | BeginFirewallAttempt (attempt : FirewallAttempt)
  | AdmitFirewallItem (clock : string -> Z) (item : InboxItem) (completion : FirewallCompletion)
  | AdmitFirewallLocalItem (clock : string -> Z) (admission : FirewallLocalAdmission)
  | RetireFirewallItem (token : string)
  | AdmitFirewallOperation (clock : string -> Z) (completion : FirewallCompletion)
      (canonicalCandidate : string)
  | BindCheckedPostIntent (clock : string -> Z) (binding : PostIntentBinding)
      (completion : FirewallCompletion)
  | BindAdmittedPostIntent (binding : PostIntentBinding) (checkId canonicalCandidate : string)
  | WriteFirewallPolicy (rules : string) (activation : option FirewallActivation)
  | Reopen.

Section run.
Context `{Base64Url}.

(** [makeEndpointStore]'s replaceInboxItem: with a conversation the replacement
    is queued for the firewall instead of shown. *)
Definition replaceItem (token : string) (replacement : InboxItem)
    (pendingConversation : option string) : HTx unit :=
  replaceInboxItem token replacement
    ((fun conversation => queueFirewallItem (mkFirewallItem (deliveryToken replacement) conversation
        (canonicalItem replacement) None)) <$> pendingConversation).

(** An operation of the protocol, itself one transaction on its tables. *)
Definition onProtocol (operation : StoreOperation) (h : Hosted)
    : option EndpointStoreFailure * Hosted :=
  let '(failure, after) := perform operation (protocol h) in
  (failure, changedTriggers (protocol h) after (set_protocol (const after) h)).

(** The failure of one operation, if it fails, and the state after it. *)
Definition hosted {A} (operation : HTx A) (h : Hosted) : option EndpointStoreFailure * Hosted :=
  match operation h with
  | Succeed (_, h') => (None, h')
  | Fail_ e => (Some e, h)
  end.

Definition performHosted (operation : HostOperation) (h : Hosted) : option EndpointStoreFailure * Hosted :=
  match operation with
  | OnProtocol op => onProtocol op h
  | PutInboxItem i => hosted (putInboxItem i) h
  | AcknowledgeInboxItem t => hosted (acknowledgeInboxItem t) h
  | ReplaceInboxItem t r c => hosted (replaceItem t r c) h
  | CompleteWebhookDelivery t s => hosted (completeWebhookDelivery t s) h
  | WriteEventState s => hosted (writeEventState s) h
  | QueueFirewallItem i => hosted (queueFirewallItem i) h
  | BeginFirewallAttempt a => hosted (beginFirewallAttempt a) h
  | AdmitFirewallItem clock i c => hosted (admitFirewallItem clock i c) h
  | AdmitFirewallLocalItem clock a => hosted (admitFirewallLocalItem clock a) h
  | RetireFirewallItem t => hosted (retireFirewallItem t) h
  | AdmitFirewallOperation clock c x => hosted (admitFirewallOperation clock c x) h
  | BindCheckedPostIntent clock b c => hosted (bindCheckedPostIntent clock b c) h
  | BindAdmittedPostIntent b i x => hosted (bindAdmittedPostIntent b i x) h
  | WriteFirewallPolicy r a => hosted (writeFirewallPolicy r a) h
  | Reopen => hosted openStoreState h
  end.

Definition runHosted (operations : list HostOperation) (h : Hosted) : Hosted :=
  foldl (fun h operation => (performHosted operation h).2) h operations.

End run.
End HostStore.

Module HostLaws.
Local Open Scope string_scope.
Import StoreDatabase StoreAnchors EndpointStore StoreGrowth HostTables StoreInbox StoreFirewall HostStore.

(** ** Tables that only grow *)

(** The rows of a table are kept up to [K], and rows may follow them. *)
Definition extends {A} (K : A -> A -> Prop) (rows rows' : list A) : Prop :=
  exists old new, rows' = (old ++ new)%list /\ Forall2 K rows old.

#[global] Instance extends_preorder {A} (K : A -> A -> Prop) `{!PreOrder K} : PreOrder (extends K).
Proof.
  split.
  - intros rows. exists rows, []. by rewrite app_nil_r.
  - intros a b c (o1 & n1 & -> & H1) (o2 & n2 & -> & H2).
    apply Forall2_app_inv_l in H2 as (o3 & n3 & H3 & H4 & ->).
    exists o3, (n3 ++ n2)%list. split; [by rewrite app_assoc|]. by etrans.
Qed.

Lemma extends_snoc {A} (K : A -> A -> Prop) `{!Reflexive K} rows new :
  extends K rows (rows ++ new)%list.
Proof. by exists rows, new. Qed.
Lemma extends_fmap {A} (K : A -> A -> Prop) (f : A -> A) (rows : list A) :
  Forall (fun row => K row (f row)) rows -> extends K rows (f <$> rows).
Proof.
  intros Hf. exists (f <$> rows), []. rewrite app_nil_r. split; [done|].
  by apply Forall2_fmap_r, Forall_Forall2_diag.
Qed.
Lemma extends_lookup {A} (K : A -> A -> Prop) rows rows' i row :
  extends K rows rows' -> rows !! i = Some row -> exists row', rows' !! i = Some row' /\ K row row'.
Proof.
  intros (old & new & -> & HK) Hi. destruct (Forall2_lookup_l _ _ _ _ _ HK Hi) as (row' & Ho & ?).
  exists row'. split; [|done]. by apply lookup_app_l_Some.
Qed.
Lemma extends_length {A} (K : A -> A -> Prop) rows rows' :
  extends K rows rows' -> length rows <= length rows'.
Proof. intros (old & new & -> & ->%Forall2_length). rewrite length_app. lia. Qed.

(** The inbox keeps a row's payload, and an acknowledgement. *)
Definition keptInbox (row row' : InboxRow) : Prop :=
  in_deliveryToken row' = in_deliveryToken row /\ in_canonicalItem row' = in_canonicalItem row /\
  in_canonicalGuidance row' = in_canonicalGuidance row /\
  (in_acknowledged row = true -> in_acknowledged row' = true).
(** The queue keeps an item, where it is anchored and how it was settled. *)
Definition keptQueued (row row' : QueuedRow) : Prop :=
  fi_deliveryToken row' = fi_deliveryToken row /\ fi_conversation row' = fi_conversation row /\
  fi_canonicalItem row' = fi_canonicalItem row /\
  fi_canonicalProvenance row' = fi_canonicalProvenance row /\ fi_anchor row' = fi_anchor row /\
  (fi_disposition row <> queue_pending -> row' = row).
(** A check keeps what it checks, and its decision. *)
Definition keptCheck (row row' : CheckRow) : Prop :=
  fc_checkId row' = fc_checkId row /\ fc_direction row' = fc_direction row /\
  fc_revision row' = fc_revision row /\ fc_canonicalCandidate row' = fc_canonicalCandidate row /\
  fc_canonicalInput row' = fc_canonicalInput row /\
  (fc_disposition row <> checking \/ fc_disposition row' = checking -> row' = row).

#[global] Instance keptInbox_preorder : PreOrder keptInbox.
Proof.
  unfold keptInbox. split; [by intros ?|]. intros a b c (?&?&?&Hab) (?&?&?&Hbc).
  split_and!; [congruence..|]. auto.
Qed.
#[global] Instance keptQueued_preorder : PreOrder keptQueued.
Proof.
  unfold keptQueued. split; [by intros ?|]. intros a b c (?&?&?&?&?&Hab) (?&?&?&?&?&Hbc).
  split_and!; [congruence..|]. intros Hd. specialize (Hab Hd) as ->. auto.
Qed.
#[global] Instance keptCheck_preorder : PreOrder keptCheck.
Proof.
  unfold keptCheck. split; [by intros ?|]. intros a b c (?&?&?&?&?&Hab) (?&?&?&?&?&Hbc).
  split_and!; [congruence..|]. intros [Hd|Hd].
  - specialize (Hab (or_introl Hd)) as ->. auto.
  - specialize (Hbc (or_intror Hd)) as ->. auto.
Qed.

(** What the revision counts. *)
Definition evidenceRows (h : Hosted) : Z :=
  Z.of_nat (length (certifiedRows h)) + Z.of_nat (length (firewall_local_evidence h)) +
  Z.of_nat (size (firewall_answers h)) + Z.of_nat (size (post_intents (protocol h))) +
  Z.of_nat (length (runtime_inbox h)).

(** Keys are unique, and the rowids name exactly the certified records. *)
Record wellFormed (h : Hosted) : Prop := {
  wf_inbox : NoDup (in_deliveryToken <$> runtime_inbox h);
  wf_queue : NoDup (fi_deliveryToken <$> firewall_incoming h);
  wf_checks : NoDup (fc_checkId <$> firewall_checks h);
  wf_certified : NoDup (certifiedRows h);
  wf_rows key : key ∈ certifiedRows h <-> is_Some (certified_records (protocol h) !! key);
}.

Record grows (h h' : Hosted) : Prop := {
  g_certified : certifiedRows h `prefix_of` certifiedRows h';
  g_inbox : extends keptInbox (runtime_inbox h) (runtime_inbox h');
  g_queue : extends keptQueued (firewall_incoming h) (firewall_incoming h');
  g_checks : extends keptCheck (firewall_checks h) (firewall_checks h');
  g_local : firewall_local_evidence h `prefix_of` firewall_local_evidence h';
  g_answers : dom (firewall_answers h) ⊆ dom (firewall_answers h');
  g_intents : dom (post_intents (protocol h)) ⊆ dom (post_intents (protocol h'));
  g_activations : firewall_activations h `prefix_of` firewall_activations h';
  g_revision : (revision h' - revision h = evidenceRows h' - evidenceRows h)%Z;
}.

#[global] Instance grows_preorder : PreOrder grows.
Proof.
  split.
  - intros h. by split; try done; lia.
  - intros a b c [] []. split; try (by etrans); lia.
Qed.

(** What an operation does to a well-formed store. *)
Definition evolves (h h' : Hosted) : Prop := wellFormed h -> wellFormed h' /\ grows h h'.
#[global] Instance evolves_preorder : PreOrder evolves.
Proof.
  split; [by intros h ?|]. intros a b c Hab Hbc Ha. destruct (Hab Ha) as [Hb ?].
  destruct (Hbc Hb). split; [done|]. by etrans.
Qed.

(** A relation that every successful run satisfies. *)
Section hmoves.
Context (R : Hosted -> Hosted -> Prop) `{!PreOrder R}.

Definition hmoves {A} (m : HTx A) : Prop := forall h a h', m h = Succeed (a, h') -> R h h'.

Lemma hmoves_bind {A B} (m : HTx A) (k : A -> HTx B) :
  hmoves m -> (forall a, hmoves (k a)) -> hmoves (m ≫= k).
Proof.
  intros Hm Hk h b h'. unfold mbind, htx_bind. destruct (m h) as [[a h1]|] eqn:Hrun; [|done].
  intros Hrest. etrans; [by eapply Hm|by eapply Hk].
Qed.
Lemma hmoves_ret {A} (a : A) : hmoves (mret a).
Proof. by intros h b h' [= <- <-]. Qed.
Lemma hmoves_gets {A} (f : Hosted -> A) : hmoves (hgets f).
Proof. by intros h b h' [= <- <-]. Qed.
Lemma hmoves_checked c : hmoves (checked c).
Proof. intros h u h'. unfold checked. case_match; [|done]. by intros [= <- <-]. Qed.
Lemma hmoves_signal {A} reason : hmoves (A := A) (hsignal reason).
Proof. by intros h u h' [=]. Qed.
Lemma hmoves_modify f : (forall h, R h (f h)) -> hmoves (hmodify f).
Proof. by intros Hf h u h' [= <- <-]. Qed.
Lemma hmoves_for {A} (f : A -> HTx unit) l : (forall x, hmoves (f x)) -> hmoves (forHTx f l).
Proof. intros Hf. induction l; simpl; [apply hmoves_ret|]. apply hmoves_bind; auto. Qed.
End hmoves.

Lemma htx_bind_ok {A B} (m : HTx A) (k : A -> HTx B) h b h' :
  (m ≫= k) h = Succeed (b, h') <-> exists a h1, m h = Succeed (a, h1) /\ k a h1 = Succeed (b, h').
Proof. unfold mbind, htx_bind. destruct (m h) as [[a h1]|e]; naive_solver. Qed.
Lemma checked_ok c h u h' :
  checked c h = Succeed (u, h') <-> exists a db, c (protocol h) = Succeed (a, db) /\ h' = h.
Proof.
  unfold checked. destruct (c (protocol h)) as [[a db]|]; [|naive_solver].
  destruct u. split; [intros [= <-]; eauto|]. by intros (? & ? & [= <- <-] & ->).
Qed.
Lemma hgets_ok {A} (f : Hosted -> A) h a h' : hgets f h = Succeed (a, h') <-> a = f h /\ h' = h.
Proof. unfold hgets. naive_solver. Qed.
Lemma hmodify_ok f h u h' : hmodify f h = Succeed (u, h') <-> h' = f h.
Proof. unfold hmodify. destruct u. naive_solver. Qed.
Lemma hret_ok {A} (a : A) h b h' : mret (M := HTx) a h = Succeed (b, h') <-> b = a /\ h' = h.
Proof. unfold mret, htx_ret. naive_solver. Qed.

End HostLaws.

(** Decompose a successful sequence into its statements. *)
Ltac htx_step :=
  match goal with
  | H : (_ ≫= _) _ = Succeed (_, _) |- _ =>
      let a := fresh "r" in let d := fresh "h" in
      apply HostLaws.htx_bind_ok in H as (a & d & ? & H)
  | H : mbind _ _ _ = Succeed (_, _) |- _ =>
      let a := fresh "r" in let d := fresh "h" in
      apply HostLaws.htx_bind_ok in H as (a & d & ? & H)
  | H : HostTables.checked _ _ = Succeed _ |- _ => apply HostLaws.checked_ok in H as (? & ? & ? & ->)
  | H : HostTables.hgets _ _ = Succeed _ |- _ => apply HostLaws.hgets_ok in H as (-> & ->)
  | H : HostTables.hmodify _ _ = Succeed _ |- _ => apply HostLaws.hmodify_ok in H as ->
  | H : mret _ _ = Succeed _ |- _ =>
      first [ apply HostLaws.hret_ok in H as (-> & ->)
            | apply HostLaws.hret_ok in H as (? & ->); simplify_eq ]
  | H : HostTables.hsignal _ _ = Succeed _ |- _ => discriminate H
  end.
Ltac htx := repeat htx_step; cbv [id] in *.

(** Follow a sequence whose statements the hint database [htx_moves] knows. *)
Create HintDb htx_moves discriminated.
Ltac hfollow :=
  repeat first
    [ progress intros
    | apply HostLaws.hmoves_ret; [apply _]
    | apply HostLaws.hmoves_gets; [apply _]
    | apply HostLaws.hmoves_checked; [apply _]
    | apply HostLaws.hmoves_signal
    | apply HostLaws.hmoves_for; [apply _|]
    | solve [eauto with htx_moves]
    | apply HostLaws.hmoves_bind; [apply _| |]
    | case_match ].

Module HostSteps.
Import StoreDatabase StoreAnchors EndpointStore StoreGrowth HostTables StoreInbox StoreFirewall.
Import HostStore HostLaws.

Section steps.
Context `{Base64Url}.

(** ** Statements *)

(** A statement on one table of a well-formed store. *)
Ltac one_table := let Hwf := fresh "Hwf" in
  intros Hwf; destruct Hwf; split; split; simpl; try done; try (by apply prefix_app_r);
  try (rewrite ?length_app; simpl; lia).

Lemma evolves_inbox row : hmoves evolves (insert_inbox row).
Proof.
  unfold insert_inbox, constraint. intros h u h' Hrun. htx. tx. guards. one_table.
  - rewrite fmap_app. apply NoDup_app. split_and!; [done|set_solver|apply NoDup_singleton].
  - apply extends_snoc. apply _.
  - unfold evidenceRows. simpl. rewrite length_app. simpl. lia.
Qed.
Lemma evolves_incoming row : hmoves evolves (insert_incoming row).
Proof.
  unfold insert_incoming, constraint. intros h u h' Hrun. htx. tx. guards. one_table.
  - rewrite fmap_app. apply NoDup_app. split_and!; [done|set_solver|apply NoDup_singleton].
  - apply extends_snoc. apply _.
  - unfold evidenceRows. simpl. lia.
Qed.
Lemma evolves_check row : hmoves evolves (insert_check row).
Proof.
  unfold insert_check, constraint. intros h u h' Hrun. htx. tx. guards. one_table.
  - rewrite fmap_app. apply NoDup_app. split_and!; [done|set_solver|apply NoDup_singleton].
  - apply extends_snoc. apply _.
  - unfold evidenceRows. simpl. lia.
Qed.
Lemma evolves_localEvidence row : hmoves evolves (insert_localEvidence row).
Proof.
  apply hmoves_modify. intros h. one_table.
  unfold evidenceRows. simpl. rewrite length_app. simpl. lia.
Qed.
Lemma evolves_answer key admitted : hmoves evolves (upsert_answer key admitted).
Proof.
  apply hmoves_modify. intros h.
  destruct (firewall_answers h !! key) as [prior|] eqn:Hprior; one_table.
  - rewrite dom_insert. set_solver.
  - unfold evidenceRows. simpl. rewrite map_size_insert_Some by done. lia.
  - rewrite dom_insert. set_solver.
  - unfold evidenceRows. simpl. rewrite map_size_insert_None by done. lia.
Qed.

Lemma evolves_events f : hmoves evolves (hmodify (set_events f)).
Proof. apply hmoves_modify. intros h. one_table. unfold evidenceRows. simpl. lia. Qed.
Lemma evolves_policy f : hmoves evolves (hmodify (set_policy f)).
Proof. apply hmoves_modify. intros h. one_table. unfold evidenceRows. simpl. lia. Qed.
Lemma evolves_activation a :
  hmoves evolves (hmodify (set_activations (fun rows => (rows ++ [a])%list))).
Proof. apply hmoves_modify. intros h. one_table. unfold evidenceRows. simpl. lia. Qed.
Lemma evolves_retireDelivery token : hmoves evolves (retirePendingDelivery token).
Proof. apply hmoves_modify. intros h. one_table. unfold evidenceRows. simpl. lia. Qed.

(** Rows rewritten in place keep their keys. *)
Lemma fmap_key {A B} (key : A -> B) (f : A -> A) (rows : list A) :
  (forall row, key (f row) = key row) -> key <$> (f <$> rows) = key <$> rows.
Proof. intros Hf. rewrite <- list_fmap_compose. apply list_fmap_ext. intros i row _. apply Hf. Qed.

Lemma kept_acknowledged token row : keptInbox row (acknowledgeRow token row).
Proof. unfold acknowledgeRow. by case_bool_decide. Qed.
Lemma evolves_acknowledged token :
  hmoves evolves (hmodify (set_inbox (fmap (acknowledgeRow token)))).
Proof.
  apply hmoves_modify. intros h. one_table.
  - rewrite fmap_key; [done|]. intros row. apply kept_acknowledged.
  - apply extends_fmap, Forall_forall. intros row _. apply kept_acknowledged.
  - unfold evidenceRows. simpl. rewrite length_fmap. lia.
Qed.

Lemma evolves_checks f : (forall row, keptCheck row (f row)) ->
  hmoves evolves (hmodify (set_checks (fmap f))).
Proof.
  intros Hf. apply hmoves_modify. intros h. one_table.
  - rewrite fmap_key; [done|]. intros row. apply Hf.
  - apply extends_fmap, Forall_forall. auto.
  - unfold evidenceRows. simpl. lia.
Qed.
Lemma kept_completed checkId result commit now row :
  keptCheck row (completeRow checkId result (committed commit) now row).
Proof.
  unfold completeRow. case_bool_decide as Hrow; [|done]. destruct Hrow.
  split_and!; try done. intros [?|Hd]; [done|]. by destruct commit.
Qed.
Lemma kept_interrupted row : keptCheck row (interruptRow row).
Proof.
  unfold interruptRow. case_bool_decide; [|done]. split_and!; try done. by intros [?|Hd].
Qed.

(** Rewriting pending rows of the queue. *)
Lemma evolves_queue f h :
  (forall row, row ∈ firewall_incoming h -> keptQueued row (f row)) ->
  evolves h (set_incoming (fmap f) h).
Proof.
  intros Hf. one_table.
  - replace (fi_deliveryToken <$> (f <$> firewall_incoming h))
      with (fi_deliveryToken <$> firewall_incoming h); [done|].
    rewrite <- list_fmap_compose. apply list_fmap_ext. intros i row Hi.
    symmetry. apply Hf. by eapply list_elem_of_lookup_2.
  - apply extends_fmap, Forall_forall. auto.
  - unfold evidenceRows. simpl. lia.
Qed.

(** ** Statements of the protocol *)

Lemma newlyCertified_same before after :
  certified_records after = certified_records before -> newlyCertified before after = [].
Proof.
  intros Hsame. unfold newlyCertified. rewrite Hsame. apply filter_none.
  intros key ([k o] & -> & Hin%elem_of_map_to_list)%list_elem_of_fmap. simpl. congruence.
Qed.
Lemma newlyCertified_insert before after key ordinal :
  certified_records before !! key = None ->
  certified_records after = <[key := ordinal]> (certified_records before) ->
  newlyCertified before after = [key].
Proof.
  intros Hfresh Hafter. unfold newlyCertified. apply Permutation_singleton_r.
  rewrite Hafter. rewrite map_to_list_insert by done. simpl.
  rewrite filter_cons, decide_True by done. apply Permutation_cons; [done|].
  rewrite filter_none; [done|].
  intros k ([k' o] & -> & Hin%elem_of_map_to_list)%list_elem_of_fmap. simpl. congruence.
Qed.

Lemma evolves_triggers h after :
  certifiesOne (protocol h) after ->
  evolves h (changedTriggers (protocol h) after (set_protocol (const after) h)).
Proof.
  intros [Hone Hi] Hwf. destruct Hwf.
  assert (dom (post_intents (protocol h)) ⊆ dom (post_intents after)) as Hdom.
  { intros key. rewrite !elem_of_dom. by apply intentsGrow_keys. }
  assert (wellFormed (set_certifiedRows (fun rows => (rows ++ newlyCertified (protocol h) after)%list)
    (set_protocol (const after) h))) as Hwf'.
  { destruct Hone as [Hsame|(key & o & Hfresh & Hins)]; split; simpl; try done.
    - by rewrite (newlyCertified_same _ _ Hsame), app_nil_r.
    - intros k. by rewrite (newlyCertified_same _ _ Hsame), app_nil_r, Hsame.
    - rewrite (newlyCertified_insert _ _ _ _ Hfresh Hins). apply NoDup_app.
      split_and!; [done| |apply NoDup_singleton].
      intros k Hk ->%list_elem_of_singleton. apply wf_rows0 in Hk as [? Hk]. congruence.
    - intros k. rewrite (newlyCertified_insert _ _ _ _ Hfresh Hins), Hins.
      rewrite elem_of_app, list_elem_of_singleton, wf_rows0, lookup_insert_is_Some'. naive_solver. }
  destruct Hwf'. split; split; simpl; try done; try by apply prefix_app_r.
  unfold evidenceRows. simpl. rewrite length_app. lia.
Qed.

Lemma evolves_lifted {A} (m : Tx A) : moves certifiesOne m -> hmoves evolves (lifted m).
Proof.
  intros Hm h a h'. unfold lifted. destruct (m (protocol h)) as [[x after]|] eqn:Hrun; [|done].
  intros [= _ <-]. by eapply evolves_triggers, Hm.
Qed.

(** ** Operations *)

#[local] Hint Resolve evolves_inbox evolves_incoming evolves_check evolves_localEvidence
  evolves_answer evolves_events evolves_policy evolves_activation evolves_retireDelivery
  evolves_acknowledged : htx_moves.

Lemma evolves_readOptional c : hmoves evolves (readOptionalBytes c).
Proof. unfold readOptionalBytes. hfollow. Qed.
Lemma evolves_sameOptional p n : hmoves evolves (requireSameOptionalBytes p n).
Proof. unfold requireSameOptionalBytes. hfollow. Qed.
#[local] Hint Resolve evolves_readOptional evolves_sameOptional : htx_moves.

Lemma evolves_put item : hmoves evolves (putInboxItem item).
Proof. unfold putInboxItem. hfollow. Qed.
Lemma evolves_retireItem token : hmoves evolves (retireItem token).
Proof. unfold retireItem. hfollow. Qed.
Lemma evolves_queueItem item : hmoves evolves (queueFirewallItem item).
Proof. unfold queueFirewallItem. hfollow. Qed.
Lemma evolves_begin attempt : hmoves evolves (beginFirewallAttempt attempt).
Proof. unfold beginFirewallAttempt. hfollow. Qed.
Lemma evolves_complete clock checkId result commit :
  hmoves evolves (completeFirewallCheck clock checkId result commit).
Proof.
  unfold completeFirewallCheck. hfollow. apply evolves_checks. intros row. apply kept_completed.
Qed.
Lemma evolves_checkingRow completion direction candidate :
  hmoves evolves (checkingRow completion direction candidate).
Proof. unfold checkingRow. hfollow. Qed.
#[local] Hint Resolve evolves_put evolves_retireItem evolves_queueItem evolves_begin
  evolves_complete evolves_checkingRow : htx_moves.
Lemma evolves_compare clock completion direction candidate :
  hmoves evolves (compareFirewallCheck clock completion direction candidate).
Proof. unfold compareFirewallCheck. hfollow. Qed.
Lemma evolves_started completions item : hmoves evolves (startedChecks completions item).
Proof. induction completions as [|c l IH]; simpl; hfollow. Qed.
Lemma evolves_frontier token item : hmoves evolves (requireQueueFrontier token item).
Proof. unfold requireQueueFrontier. hfollow. Qed.
#[local] Hint Resolve evolves_compare evolves_started evolves_frontier : htx_moves.
Lemma evolves_localChecks clock admission : hmoves evolves (completeLocalChecks clock admission).
Proof. unfold completeLocalChecks. hfollow. Qed.
Lemma evolves_deterministic clock check : hmoves evolves (beginDeterministic clock check).
Proof. unfold beginDeterministic. hfollow. Qed.
Lemma evolves_mark answers : hmoves evolves (markAnswers answers).
Proof. unfold markAnswers, markAnswer. hfollow. Qed.
Lemma evolves_evidence admission : hmoves evolves (insertEvidence admission).
Proof. unfold insertEvidence. hfollow. Qed.
#[local] Hint Resolve evolves_localChecks evolves_deterministic evolves_mark evolves_evidence :
  htx_moves.

(** *** Settling a queued item *)

(** A run that leaves the queue as it is. *)
Definition sameQueue (h h' : Hosted) : Prop := firewall_incoming h' = firewall_incoming h.
#[global] Instance sameQueue_preorder : PreOrder sameQueue.
Proof. unfold sameQueue. split; [by intros ?|]. intros ????. congruence. Qed.

Lemma same_inbox row : hmoves sameQueue (insert_inbox row).
Proof. unfold insert_inbox. hfollow. by apply hmoves_modify. Qed.
Lemma same_check row : hmoves sameQueue (insert_check row).
Proof. unfold insert_check. hfollow. by apply hmoves_modify. Qed.
Lemma same_local row : hmoves sameQueue (insert_localEvidence row).
Proof. by apply hmoves_modify. Qed.
Lemma same_answer key admitted : hmoves sameQueue (upsert_answer key admitted).
Proof. apply hmoves_modify. intros h. by case_match. Qed.
Lemma same_retire token : hmoves sameQueue (retirePendingDelivery token).
Proof. by apply hmoves_modify. Qed.
Lemma same_checks f : hmoves sameQueue (hmodify (set_checks f)).
Proof. by apply hmoves_modify. Qed.
#[local] Hint Resolve same_inbox same_check same_local same_answer same_retire same_checks : htx_moves.

Lemma same_complete clock checkId result commit :
  hmoves sameQueue (completeFirewallCheck clock checkId result commit).
Proof. unfold completeFirewallCheck. hfollow. Qed.
Lemma same_checkingRow completion direction candidate :
  hmoves sameQueue (checkingRow completion direction candidate).
Proof. unfold checkingRow. hfollow. Qed.
#[local] Hint Resolve same_complete same_checkingRow : htx_moves.
Lemma same_started completions item : hmoves sameQueue (startedChecks completions item).
Proof. induction completions as [|c l IH]; simpl; hfollow. Qed.
#[local] Hint Resolve same_started : htx_moves.
Lemma same_put item : hmoves sameQueue (putInboxItem item).
Proof. unfold putInboxItem, readOptionalBytes, requireSameOptionalBytes. hfollow. Qed.
Lemma same_compare clock completion direction candidate :
  hmoves sameQueue (compareFirewallCheck clock completion direction candidate).
Proof. unfold compareFirewallCheck. hfollow. Qed.
Lemma same_localChecks clock admission : hmoves sameQueue (completeLocalChecks clock admission).
Proof. unfold completeLocalChecks. hfollow. Qed.
Lemma same_deterministic clock check : hmoves sameQueue (beginDeterministic clock check).
Proof. unfold beginDeterministic, beginFirewallAttempt. hfollow. Qed.
Lemma same_mark answers : hmoves sameQueue (markAnswers answers).
Proof. unfold markAnswers, markAnswer. hfollow. Qed.
Lemma same_recordedEvidence admission : hmoves sameQueue (insertEvidence admission).
Proof. unfold insertEvidence. hfollow. Qed.
#[local] Hint Resolve same_put same_compare same_localChecks same_deterministic same_mark
  same_recordedEvidence : htx_moves.

(** The frontier: the item is pending, and no earlier item of its conversation is. *)
Lemma frontier_ok token item h u h' : requireQueueFrontier token item h = Succeed (u, h') ->
  h' = h /\ exists i queued, firewall_incoming h !! i = Some queued /\
    fi_deliveryToken queued = token /\ fi_disposition queued = queue_pending /\
    fi_canonicalItem queued = item /\
    hasPredecessor h (fi_conversation queued) (Z.of_nat (S i)) = false.
Proof.
  unfold requireQueueFrontier, requireSameBytes, requireEqual. intros Hrun. htx.
  case_match eqn:Hfind; [|htx]. destruct p as [sequence queued]. htx. tx. guards.
  apply find_some in Hfind as [Hin Hq]. guards. destruct Hq as [Htoken Hpending].
  apply list_elem_of_In, list_elem_of_lookup in Hin as [i Hi].
  unfold numbered in Hi. rewrite list_lookup_imap in Hi.
  destruct (firewall_incoming _ !! i) as [row|] eqn:Hrow; [|done]. simplify_eq/=.
  split; [done|]. by exists i, queued.
Qed.

(** Only that item has its token, so settling it changes no settled one. *)
Lemma settle_evolves token disposition checkId h i queued :
  firewall_incoming h !! i = Some queued -> fi_deliveryToken queued = token ->
  fi_disposition queued = queue_pending ->
  evolves h (set_incoming (fmap (settleRow token disposition checkId)) h).
Proof.
  intros Hi Htoken Hpending Hwf. apply evolves_queue; [|done].
  intros row [j Hj]%list_elem_of_lookup. unfold settleRow. case_bool_decide as Hrow; [|done].
  assert (i = j) as ->.
  { eapply (NoDup_lookup _ _ _ (fi_deliveryToken row)); [apply (wf_queue _ Hwf)| |];
      apply list_lookup_fmap_Some; [exists queued|exists row]; split; congruence. }
  simplify_eq. split_and!; try done.
Qed.
#[local] Hint Resolve evolves_put evolves_compare : htx_moves.

(** A run from an item's frontier that settles it at the end. *)
Lemma settles_evolves {A} token item disposition checkId (m : HTx A) h u u' a h1 h2 :
  requireQueueFrontier token item h = Succeed (u, h) ->
  hmoves evolves m -> hmoves sameQueue m -> m h = Succeed (a, h1) ->
  settleQueuedItem token disposition checkId h1 = Succeed (u', h2) -> evolves h h2.
Proof.
  intros Hfrontier Hm Hsame Hrun Hsettle.
  apply frontier_ok in Hfrontier as (_ & i & queued & Hi & Htoken & Hpending & _).
  etrans; [by eapply Hm|]. apply Hsame in Hrun. unfold sameQueue in Hrun. rewrite <- Hrun in Hi.
  unfold settleQueuedItem in Hsettle. htx. by eapply settle_evolves.
Qed.

Lemma admitFirewallItem_evolves clock item completion :
  hmoves evolves (admitFirewallItem clock item completion).
Proof.
  unfold admitFirewallItem. intros h d h' Hrun.
  apply htx_bind_ok in Hrun as ([] & h0 & Hfrontier & Hrun).
  destruct (frontier_ok _ _ _ _ _ Hfrontier) as [-> _].
  apply htx_bind_ok in Hrun as (commit & h1 & Hcompare & Hrun).
  case_decide as Hstale; [htx; by eapply evolves_compare|].
  apply htx_bind_ok in Hrun as ([] & h2 & Hput & Hrun).
  apply htx_bind_ok in Hrun as ([] & h3 & Hsettle & Hrun). htx.
  refine (settles_evolves _ _ _ _
    (compareFirewallCheck clock completion incoming (canonicalItem item) ≫= fun commit =>
     if decide (commit = CommitAdmitted) then putInboxItem item ;; mret tt
     else retirePendingDelivery (deliveryToken item)) _ _ _ tt _ _ Hfrontier _ _ _ Hsettle);
    [hfollow|hfollow|]. apply htx_bind_ok. eauto.
Qed.

Lemma admitFirewallLocalItem_evolves clock admission :
  hmoves evolves (admitFirewallLocalItem clock admission).
Proof.
  unfold admitFirewallLocalItem. intros h d h' Hrun.
  do 2 (apply htx_bind_ok in Hrun as ([] & ? & (? & ? & _ & ->)%checked_ok & Hrun)).
  apply htx_bind_ok in Hrun as ([] & h0 & Hfrontier & Hrun).
  destruct (frontier_ok _ _ _ _ _ Hfrontier) as [-> _].
  apply htx_bind_ok in Hrun as ([] & h1 & Hbegin & Hrun).
  apply htx_bind_ok in Hrun as (current & h2 & Hchecks & Hrun).
  destruct current.
  2: { htx. etrans; [by eapply evolves_deterministic|by eapply evolves_localChecks]. }
  apply htx_bind_ok in Hrun as (m & h3 & Hput & Hrun).
  apply htx_bind_ok in Hrun as ([] & h4 & Hmark & Hrun).
  apply htx_bind_ok in Hrun as ([] & h5 & Hevidence & Hrun).
  apply htx_bind_ok in Hrun as ([] & h6 & Hsettle & Hrun). htx.
  refine (settles_evolves _ _ _ _
    (beginDeterministic clock (la_deterministic admission) ;;
     completeLocalChecks clock admission ;; putInboxItem (la_item admission) ;;
     markAnswers (la_answers admission) ;; insertEvidence admission) _ _ _ tt _ _ Hfrontier _ _ _ Hsettle);
    [hfollow|hfollow|].
  repeat (apply htx_bind_ok; do 2 eexists; split; [eassumption|]). done.
Qed.

Lemma retireFirewallItem_evolves token : hmoves evolves (retireFirewallItem token).
Proof.
  unfold retireFirewallItem. hfollow. apply hmoves_modify. intros h0.
  apply evolves_queue. intros row _. case_bool_decide as Hrow; [|done].
  split_and!; try done. by destruct Hrow as [_ ->].
Qed.

Lemma perform_evolves operation h : evolves h (performHosted operation h).2.
Proof.
  assert (forall A (m : HTx A), hmoves evolves m -> evolves h (hosted m h).2) as Hhosted.
  { intros A m Hm. unfold hosted. destruct (m h) as [[a h']|] eqn:Hrun; [by eapply Hm|done]. }
  destruct operation; unfold performHosted; try apply Hhosted.
  - unfold onProtocol. pose proof (perform_certifiesOne operation (protocol h)) as Hone.
    destruct (perform operation (protocol h)) as [f after]. by apply evolves_triggers.
  - apply evolves_put.
  - apply evolves_retireItem.
  - unfold replaceItem, replaceInboxItem. hfollow.
    destruct pendingConversation; simplify_eq/=. hfollow.
  - unfold completeWebhookDelivery, writeEventState. hfollow.
  - unfold writeEventState. hfollow.
  - hfollow.
  - hfollow.
  - apply admitFirewallItem_evolves.
  - apply admitFirewallLocalItem_evolves.
  - apply retireFirewallItem_evolves.
  - unfold admitFirewallOperation. hfollow.
  - unfold bindCheckedPostIntent. hfollow. apply evolves_lifted, bind_certifiesOne.
  - unfold bindAdmittedPostIntent. hfollow. apply evolves_lifted, bind_certifiesOne.
  - unfold writeFirewallPolicy. hfollow.
  - unfold openStoreState. apply evolves_checks. intros row. apply kept_interrupted.
Qed.

Lemma runHosted_evolves operations h : evolves h (runHosted operations h).
Proof.
  revert h. induction operations as [|o l IH]; intros h; simpl; [done|].
  etrans; [apply perform_evolves|apply IH].
Qed.

Lemma createHosted_wellFormed : wellFormed createHosted.
Proof.
  split; simpl; try apply NoDup_nil_2. intros key. rewrite lookup_empty.
  split; [by intros ?%not_elem_of_nil|by intros [? [=]]].
Qed.

End steps.
End HostSteps.
