(* ===== verification/HostChecks.v ===== *)
(** HostChecks: when a firewall check becomes admitted.  A check that admits is
    committed only while the evidence rows are those of the revision it began
    at, so what the check was shown is still what the store holds.

    HostPosts: which posts the firewall lets the store bind.  When no post binds
    past it, every bound post has a check that was admitted for exactly what it
    says, or for the operation it belongs to. *)
From S2P Require Import Prelude JsMap Identifiers StoredHistory StoreDatabase StoreAnchors.
From S2P Require Import EndpointStore StoreGrowth HostTables StoreFirewall HostLaws.

Module HostChecks.
Local Open Scope string_scope.
Import StoreDatabase StoreAnchors EndpointStore StoreGrowth HostTables StoreInbox StoreFirewall.
Import HostStore HostLaws HostSteps.

(** The completions an operation carries. *)
Definition completionsOf (operation : HostOperation) : list FirewallCompletion :=
  match operation with
  | AdmitFirewallItem _ _ c | AdmitFirewallOperation _ c _ | BindCheckedPostIntent _ _ c => [c]
  | AdmitFirewallLocalItem _ a => la_completions a
  | _ => []
  end.

Section checks.
Context `{Base64Url}.

(** The check [checkId] stays as it is. *)
Definition unmoved (checkId : string) (h h' : Hosted) : Prop :=
  forall row, findCheck h checkId = Some row -> findCheck h' checkId = Some row.
#[local] Instance unmoved_preorder checkId : PreOrder (unmoved checkId).
Proof. unfold unmoved. split; [by intros ?|]. intros ???; eauto. Qed.

Lemma find_fmap {A} (f : A -> bool) (g : A -> A) l :
  (forall x, f (g x) = f x) -> List.find f (g <$> l) = g <$> List.find f l.
Proof.
  intros Hg. induction l as [|x l IH]; [done|]. simpl. rewrite Hg. by case_match.
Qed.

Lemma unmoved_other checkId f : (forall h, firewall_checks (f h) = firewall_checks h) ->
  hmoves (unmoved checkId) (hmodify f).
Proof. intros Hf. apply hmoves_modify. intros h row. unfold findCheck. by rewrite Hf. Qed.

Lemma unmoved_incoming checkId row : hmoves (unmoved checkId) (insert_incoming row).
Proof. unfold insert_incoming. hfollow. by apply unmoved_other. Qed.
Lemma unmoved_inbox checkId row : hmoves (unmoved checkId) (insert_inbox row).
Proof. unfold insert_inbox. hfollow. by apply unmoved_other. Qed.
Lemma unmoved_local checkId row : hmoves (unmoved checkId) (insert_localEvidence row).
Proof. by apply unmoved_other. Qed.
Lemma unmoved_answer checkId key admitted : hmoves (unmoved checkId) (upsert_answer key admitted).
Proof. apply unmoved_other. intros h. simpl. by case_match. Qed.
Lemma unmoved_check checkId row : hmoves (unmoved checkId) (insert_check row).
Proof.
  unfold insert_check. hfollow. apply hmoves_modify. intros h r. unfold findCheck. simpl.
  intros Hr. induction (firewall_checks h) as [|c l IH]; simpl in *; [done|].
  destruct (bool_decide _); auto.
Qed.
Lemma unmoved_complete clock checkId other result commit : other <> checkId ->
  hmoves (unmoved checkId) (completeFirewallCheck clock other result commit).
Proof.
  intros Hne. unfold completeFirewallCheck. hfollow. apply hmoves_modify. intros h row.
  unfold findCheck. simpl. rewrite find_fmap.
  - intros Hrow. rewrite Hrow. simpl. apply find_some in Hrow as [_ Hrow]. guards.
    unfold completeRow. rewrite bool_decide_eq_false_2; [done|]. intros []. congruence.
  - intros x. unfold completeRow. by destruct (bool_decide (fc_checkId x = _ /\ _)).
Qed.
Lemma unmoved_lifted {A} checkId (m : Tx A) : hmoves (unmoved checkId) (lifted m).
Proof.
  intros h a h'. unfold lifted. destruct (m (protocol h)) as [[x after]|]; [|done].
  by intros [= _ <-] row.
Qed.

#[local] Hint Resolve unmoved_incoming unmoved_inbox unmoved_local unmoved_answer unmoved_check
  unmoved_lifted : htx_moves.
#[local] Hint Extern 0 (hmoves (unmoved _) (hmodify _)) => by apply unmoved_other : htx_moves.

Lemma unmoved_put checkId item : hmoves (unmoved checkId) (putInboxItem item).
Proof. unfold putInboxItem, readOptionalBytes, requireSameOptionalBytes. hfollow. Qed.
Lemma unmoved_retireItem checkId token : hmoves (unmoved checkId) (retireItem token).
Proof. unfold retireItem, retirePendingDelivery. hfollow. Qed.
Lemma unmoved_queue checkId item : hmoves (unmoved checkId) (queueFirewallItem item).
Proof. unfold queueFirewallItem, readOptionalBytes, requireSameOptionalBytes. hfollow. Qed.
Lemma unmoved_mark checkId answers : hmoves (unmoved checkId) (markAnswers answers).
Proof. unfold markAnswers, markAnswer. hfollow. Qed.
Lemma unmoved_evidence checkId admission : hmoves (unmoved checkId) (insertEvidence admission).
Proof. unfold insertEvidence. hfollow. Qed.
Lemma unmoved_begin checkId attempt : hmoves (unmoved checkId) (beginFirewallAttempt attempt).
Proof. unfold beginFirewallAttempt. hfollow. Qed.
#[local] Hint Resolve unmoved_put unmoved_retireItem unmoved_queue unmoved_mark unmoved_evidence
  unmoved_begin : htx_moves.

(** ** Completing *)

Lemma complete_ok clock checkId result commit h u h' row :
  completeFirewallCheck clock checkId result commit h = Succeed (u, h') ->
  findCheck h checkId = Some row -> fc_disposition row = checking ->
  exists row', findCheck h' checkId = Some row' /\ fc_disposition row' = committed commit /\
    fc_direction row' = fc_direction row /\ fc_canonicalCandidate row' = fc_canonicalCandidate row.
Proof.
  unfold completeFirewallCheck. intros Hrun Hrow Hchecking. htx. unfold findCheck in *. simpl.
  rewrite find_fmap.
  - rewrite Hrow. simpl. eexists. split; [done|]. unfold completeRow.
    apply find_some in Hrow as [_ Hrow]. guards. by rewrite bool_decide_eq_true_2.
  - intros c. unfold completeRow. by destruct (bool_decide (fc_checkId c = _ /\ _)).
Qed.

Lemma checkingRow_ok completion direction candidate h r h' :
  checkingRow completion direction candidate h = Succeed (r, h') ->
  h' = h /\ exists row, findCheck h (co_checkId completion) = Some row /\
    fc_disposition row = checking /\ fc_direction row = direction /\
    fc_canonicalCandidate row = candidate /\ fc_revision row = r.
Proof.
  unfold checkingRow, requireSameBytes, requireEqual. intros Hrun. htx. case_match; htx. tx. guards.
  split; [done|]. eauto 10.
Qed.

(** A completion commits as admitted only when it admits, and then it is a
    shadow or the evidence revision is the one its check began at. *)
Definition justified (h : Hosted) (row : CheckRow) (completion : FirewallCompletion) : Prop :=
  co_checkId completion = fc_checkId row /\ co_admit completion = true /\
  (co_shadow completion = true \/ fc_revision row = revision h).

Lemma find_checkId h checkId row : findCheck h checkId = Some row -> fc_checkId row = checkId.
Proof. intros [_ Hrow]%find_some. by guards. Qed.

Lemma compare_admits clock completion direction candidate h commit h' checkId row row' :
  compareFirewallCheck clock completion direction candidate h = Succeed (commit, h') ->
  findCheck h checkId = Some row -> fc_disposition row = checking ->
  findCheck h' checkId = Some row' -> fc_disposition row' = check_admitted ->
  justified h row completion.
Proof.
  unfold compareFirewallCheck. intros Hrun Hrow Hchecking Hrow' Hadmitted. htx.
  match goal with H : checkingRow _ _ _ _ = _ |- _ =>
    apply checkingRow_ok in H as (-> & started & Hstarted & _ & _ & _ & Hrevision) end.
  destruct (decide (co_checkId completion = checkId)) as [<-|Hne].
  - assert (started = row) as -> by congruence.
    match goal with H : completeFirewallCheck _ _ _ _ _ = _ |- _ =>
      destruct (complete_ok _ _ _ _ _ _ _ _ H Hrow Hchecking) as (done' & Hdone & Hcommit & _) end.
    assert (done' = row') as -> by congruence. subst r.
    unfold checkDisposition, staysFresh in Hcommit. rewrite Hadmitted in Hcommit.
    split; [by apply find_checkId in Hrow|].
    destruct (co_admit completion), (co_shadow completion); simpl in Hcommit; try discriminate;
      (split; [done|]); [by left|right]. by case_bool_decide.
  - match goal with H : completeFirewallCheck _ _ _ _ _ = _ |- _ =>
      pose proof (unmoved_complete clock checkId _ _ _ Hne _ _ _ H _ Hrow) end.
    congruence.
Qed.

(** *** The checks of a local item *)

Lemma startedChecks_ok completions item h started h' :
  startedChecks completions item h = Succeed (started, h') ->
  h' = h /\ Forall2 (fun completion check => check.1 = completion /\
    exists row, findCheck h (co_checkId completion) = Some row /\ fc_revision row = check.2)
    completions started.
Proof.
  revert started h'. induction completions as [|c l IH]; intros started h'; simpl; intros Hrun; htx.
  - done.
  - match goal with H : checkingRow _ _ _ _ = _ |- _ =>
      apply checkingRow_ok in H as (-> & row & Hrow & _ & _ & _ & Hrevision) end.
    match goal with H : startedChecks _ _ _ = _ |- _ => apply IH in H as [-> Hrest] end.
    split; [done|]. constructor; [|done]. simpl. eauto.
Qed.

Lemma complete_decided clock checkId other result commit h u h' row :
  completeFirewallCheck clock other result commit h = Succeed (u, h') ->
  findCheck h checkId = Some row -> fc_disposition row <> checking ->
  findCheck h' checkId = Some row.
Proof.
  unfold completeFirewallCheck. intros Hrun Hrow Hdecided. htx. unfold findCheck in *. simpl.
  rewrite find_fmap.
  - rewrite Hrow. simpl. unfold completeRow. rewrite bool_decide_eq_false_2; [done|]. by intros [].
  - intros c. unfold completeRow. by destruct (bool_decide (fc_checkId c = other /\ _)).
Qed.

(** Completing checks one after the other, all fresh or all stale. *)
Definition completeAll (clock : string -> Z) (fresh : bool) (started : list (FirewallCompletion * Z))
    : HTx unit :=
  forHTx (fun '(completion, _) => completeFirewallCheck clock (co_checkId completion)
    (co_canonicalResult completion) (checkDisposition fresh completion)) started.

Lemma completeAll_decided clock fresh started checkId h u h' row :
  completeAll clock fresh started h = Succeed (u, h') ->
  findCheck h checkId = Some row -> fc_disposition row <> checking ->
  findCheck h' checkId = Some row.
Proof.
  unfold completeAll. revert h. induction started as [|[c r] l IH]; intros h Hrun Hrow Hdecided; simpl in Hrun; htx; [done|].
  match goal with H : completeFirewallCheck _ _ _ _ _ = _ |- _ =>
    eapply complete_decided in H; [|done|done] end. by eapply IH.
Qed.

Lemma completeAll_admits clock fresh started checkId h u h' row row' :
  completeAll clock fresh started h = Succeed (u, h') ->
  findCheck h checkId = Some row -> fc_disposition row = checking ->
  findCheck h' checkId = Some row' -> fc_disposition row' = check_admitted ->
  exists completion r, (completion, r) ∈ started /\ co_checkId completion = checkId /\
    checkDisposition fresh completion = CommitAdmitted.
Proof.
  unfold completeAll. revert h. induction started as [|[c r] l IH]; intros h Hrun Hrow Hchecking Hrow' Hadmitted;
    simpl in Hrun; htx; [congruence|].
  match goal with H : completeFirewallCheck _ _ _ _ _ = _ |- _ => rename H into Hhead end.
  destruct (decide (co_checkId c = checkId)) as [<-|Hne].
  - exists c, r. split_and!; [by left|done|].
    destruct (complete_ok _ _ _ _ _ _ _ _ Hhead Hrow Hchecking) as (decided & Hdecided & Hcommit & _).
    assert (findCheck h' (co_checkId c) = Some decided) as Hlast.
    { eapply completeAll_decided; [exact Hrun|done|]. rewrite Hcommit. by destruct (checkDisposition _ _). }
    assert (decided = row') as -> by congruence. rewrite Hadmitted in Hcommit.
    by destruct (checkDisposition fresh c).
  - destruct (IH _ Hrun) as (c' & r' & ? & ? & ?); [|done..|].
    { by eapply unmoved_complete. }
    exists c', r'. split_and!; [by right|done|done].
Qed.

Lemma localChecks_admits clock admission h fresh h' checkId row row' :
  completeLocalChecks clock admission h = Succeed (fresh, h') ->
  findCheck h checkId = Some row -> fc_disposition row = checking ->
  findCheck h' checkId = Some row' -> fc_disposition row' = check_admitted ->
  exists completion, completion ∈ la_completions admission /\ justified h row completion.
Proof.
  unfold completeLocalChecks. intros Hrun Hrow Hchecking Hrow' Hadmitted. htx.
  match goal with H : startedChecks _ _ _ = _ |- _ => apply startedChecks_ok in H as [-> Hstarted] end.
  match goal with H : forHTx _ _ _ = _ |- _ => rename H into Hall end.
  destruct (completeAll_admits _ _ _ _ _ _ _ _ _ Hall Hrow Hchecking Hrow' Hadmitted)
    as (c & r & Hin & Hid & Hcommit).
  apply list_elem_of_lookup in Hin as [k Hk].
  destruct (Forall2_lookup_r _ _ _ _ _ Hstarted Hk) as (c' & Hc & Hc' & started & Hrow1 & Hr).
  simpl in *. subst c'. assert (started = row) as -> by congruence.
  exists c. split; [by eapply list_elem_of_lookup_2|].
  unfold checkDisposition in Hcommit. case_match eqn:Hfresh; [|done].
  assert (staysFresh c r (revision h) = true) as Hstays.
  { rewrite forallb_forall in Hfresh. apply (Hfresh (c, r)), list_elem_of_In.
    by eapply list_elem_of_lookup_2. }
  split; [by apply find_checkId in Hrow; congruence|].
  unfold staysFresh in Hstays. destruct (co_admit c), (co_shadow c); simpl in *; try discriminate;
    (split; [done|]); [by left|right]. subst r. by guards.
Qed.

Lemma deterministic_unmoved clock check h u h' checkId row :
  beginDeterministic clock check h = Succeed (u, h') ->
  findCheck h checkId = Some row -> findCheck h' checkId = Some row /\ revision h' = revision h.
Proof.
  destruct check as [check|]; simpl; intros Hrun Hrow; [|by htx].
  htx. match goal with H : beginFirewallAttempt _ _ = _ |- _ => rename H into Hbegin end.
  assert (dc_checkId check <> checkId) as Hne.
  { intros <-. unfold beginFirewallAttempt, insert_check, constraint in Hbegin. htx. tx. guards.
    match goal with H : _ ∉ _ |- _ => apply H end.
    apply list_elem_of_fmap. exists row. simpl. split; [by apply find_checkId in Hrow|].
    apply list_elem_of_In. by apply find_some in Hrow as [? _]. }
  split.
  - eapply unmoved_complete; [exact Hne|exact Hrun|]. by eapply unmoved_begin.
  - unfold completeFirewallCheck, beginFirewallAttempt, insert_check in *. by htx.
Qed.

(** ** Operations *)

(** A run in which a check of [checkId] becomes admitted only for one of the
    completions [cs]. *)
Definition admitsOnly (cs : list FirewallCompletion) {A} (m : HTx A) : Prop :=
  forall h a h' checkId row, m h = Succeed (a, h') ->
    findCheck h checkId = Some row -> fc_disposition row = checking ->
    exists row', findCheck h' checkId = Some row' /\
      (fc_disposition row' = check_admitted ->
       exists completion, completion ∈ cs /\ justified h row completion).

(** A run that moves neither a check nor the revision. *)
Definition atRevision {A} (m : HTx A) : Prop := forall h a h', m h = Succeed (a, h') ->
  revision h' = revision h /\ forall checkId, unmoved checkId h h'.

Lemma admitsOnly_unmoved cs {A} (m : HTx A) :
  (forall checkId, hmoves (unmoved checkId) m) -> admitsOnly cs m.
Proof.
  intros Hm h a h' checkId row Hrun Hrow Hchecking. exists row.
  split; [by eapply Hm|congruence].
Qed.
Lemma admitsOnly_after cs {A B} (m : HTx A) (k : A -> HTx B) :
  atRevision m -> (forall a, admitsOnly cs (k a)) -> admitsOnly cs (m ≫= k).
Proof.
  intros Hm Hk h b h' checkId row (a & h1 & [Hr Hu]%Hm & Hrest)%htx_bind_ok Hrow Hchecking.
  destruct (Hk a h1 b h' checkId row Hrest (Hu _ _ Hrow) Hchecking) as (row' & Hrow' & Hj).
  exists row'. split; [done|]. intros Hadmitted. destruct (Hj Hadmitted) as (c & Hc & ? & ? & Hshadow).
  exists c. split; [done|]. unfold justified. by rewrite Hr in Hshadow.
Qed.
Lemma admitsOnly_before cs {A B} (m : HTx A) (k : A -> HTx B) :
  admitsOnly cs m -> (forall a checkId, hmoves (unmoved checkId) (k a)) -> admitsOnly cs (m ≫= k).
Proof.
  intros Hm Hk h b h' checkId row (a & h1 & Hrun & Hrest)%htx_bind_ok Hrow Hchecking.
  destruct (Hm _ _ _ _ _ Hrun Hrow Hchecking) as (row1 & Hrow1 & Hj). exists row1.
  split; [by eapply Hk|done].
Qed.

Lemma atRevision_checked c : atRevision (checked c).
Proof. intros h u h' (? & ? & _ & ->)%checked_ok. split; [done|]. by intros ??. Qed.
Lemma atRevision_frontier token item : atRevision (requireQueueFrontier token item).
Proof. intros h u h' [-> _]%frontier_ok. split; [done|]. by intros ??. Qed.
Lemma atRevision_deterministic clock check : atRevision (beginDeterministic clock check).
Proof.
  intros h u h' Hrun. split; [|intros checkId row Hrow; by eapply deterministic_unmoved].
  destruct check as [check|]; simpl in Hrun; htx; [|done].
  unfold completeFirewallCheck, beginFirewallAttempt, insert_check in *. by htx.
Qed.

(** A check exists after its completion. *)
Lemma complete_exists clock other result commit h u h' checkId row :
  completeFirewallCheck clock other result commit h = Succeed (u, h') ->
  findCheck h checkId = Some row -> exists row', findCheck h' checkId = Some row'.
Proof.
  intros Hrun Hrow. destruct (decide (fc_disposition row = checking)) as [Hchecking|Hdecided];
    [|eexists; by eapply complete_decided].
  destruct (decide (other = checkId)) as [->|Hne]; [|eexists; by eapply unmoved_complete].
  destruct (complete_ok _ _ _ _ _ _ _ _ Hrun Hrow Hchecking) as (row' & ? & _). eauto.
Qed.
Lemma completeAll_exists clock fresh started h u h' checkId row :
  completeAll clock fresh started h = Succeed (u, h') ->
  findCheck h checkId = Some row -> exists row', findCheck h' checkId = Some row'.
Proof.
  unfold completeAll. revert h row. induction started as [|[c r] l IH]; intros h row Hrun Hrow;
    simpl in Hrun; htx; [eauto|].
  match goal with H : completeFirewallCheck _ _ _ _ _ = _ |- _ =>
    eapply complete_exists in H as [? ?]; [|done] end. by eapply IH.
Qed.

Lemma compare_admitsOnly clock completion direction candidate :
  admitsOnly [completion] (compareFirewallCheck clock completion direction candidate).
Proof.
  intros h commit h' checkId row Hrun Hrow Hchecking.
  assert (exists row', findCheck h' checkId = Some row') as [row' Hrow'].
  { pose proof Hrun as Hrun'. unfold compareFirewallCheck in Hrun'. htx.
    match goal with H : checkingRow _ _ _ _ = _ |- _ => apply checkingRow_ok in H as [-> _] end.
    by eapply complete_exists. }
  exists row'. split; [done|]. intros Hadmitted. exists completion. split; [by left|].
  by eapply compare_admits.
Qed.
Lemma localChecks_admitsOnly clock admission :
  admitsOnly (la_completions admission) (completeLocalChecks clock admission).
Proof.
  intros h fresh h' checkId row Hrun Hrow Hchecking.
  assert (exists row', findCheck h' checkId = Some row') as [row' Hrow'].
  { pose proof Hrun as Hrun'. unfold completeLocalChecks in Hrun'. htx.
    match goal with H : startedChecks _ _ _ = _ |- _ => apply startedChecks_ok in H as [-> _] end.
    by eapply completeAll_exists. }
  exists row'. split; [done|]. intros Hadmitted. by eapply localChecks_admits.
Qed.

#[local] Hint Extern 0 (hmoves (unmoved _) (retirePendingDelivery _)) =>
  by apply unmoved_other : htx_moves.
#[local] Hint Extern 0 (hmoves (unmoved _) (settleQueuedItem _ _ _)) =>
  by apply unmoved_other : htx_moves.

Lemma perform_admitsOnly operation h checkId row row' :
  findCheck h checkId = Some row -> fc_disposition row = checking ->
  findCheck (performHosted operation h).2 checkId = Some row' -> fc_disposition row' = check_admitted ->
  exists completion, completion ∈ completionsOf operation /\ justified h row completion.
Proof.
  intros Hrow Hchecking Hrow' Hadmitted.
  assert (forall A (m : HTx A), admitsOnly (completionsOf operation) m ->
    (performHosted operation h).2 = (hosted m h).2 ->
    exists completion, completion ∈ completionsOf operation /\ justified h row completion) as Hhosted.
  { intros A m Hm Hsame. rewrite Hsame in Hrow'. unfold hosted in Hrow'.
    destruct (m h) as [[a h']|] eqn:Hrun; simpl in Hrow'; [|congruence].
    destruct (Hm _ _ _ _ _ Hrun Hrow Hchecking) as (r & Hr & Hj). naive_solver congruence. }
  destruct operation; unfold performHosted in *.
  - exfalso. revert Hrow'. unfold onProtocol. destruct (perform operation (protocol h)).
    unfold findCheck in *. simpl. congruence.
  - eapply Hhosted; [|done]. apply admitsOnly_unmoved. hfollow.
  - eapply Hhosted; [|done]. apply admitsOnly_unmoved. unfold acknowledgeInboxItem. hfollow.
  - eapply Hhosted; [|done]. apply admitsOnly_unmoved. intros i. unfold replaceItem, replaceInboxItem.
    hfollow. destruct pendingConversation; simplify_eq/=. hfollow.
  - eapply Hhosted; [|done]. apply admitsOnly_unmoved. unfold completeWebhookDelivery, writeEventState. hfollow.
  - eapply Hhosted; [|done]. apply admitsOnly_unmoved. unfold writeEventState. hfollow.
  - eapply Hhosted; [|done]. apply admitsOnly_unmoved. hfollow.
  - eapply Hhosted; [|done]. apply admitsOnly_unmoved. hfollow.
  - eapply Hhosted; [|done]. unfold admitFirewallItem. apply admitsOnly_after; [apply atRevision_frontier|].
    intros _. apply admitsOnly_before; [apply compare_admitsOnly|]. hfollow.
  - eapply Hhosted; [|done]. unfold admitFirewallLocalItem.
    do 2 (apply admitsOnly_after; [apply atRevision_checked|intros _]).
    apply admitsOnly_after; [apply atRevision_frontier|intros _].
    apply admitsOnly_after; [apply atRevision_deterministic|intros _].
    apply admitsOnly_before; [apply localChecks_admitsOnly|]. hfollow.
  - eapply Hhosted; [|done]. apply admitsOnly_unmoved. unfold retireFirewallItem. hfollow.
  - eapply Hhosted; [|done]. apply compare_admitsOnly.
  - eapply Hhosted; [|done]. unfold bindCheckedPostIntent.
    apply admitsOnly_after; [apply atRevision_checked|intros _].
    apply admitsOnly_before; [apply compare_admitsOnly|]. hfollow.
  - eapply Hhosted; [|done]. apply admitsOnly_unmoved. unfold bindAdmittedPostIntent. hfollow.
  - eapply Hhosted; [|done]. apply admitsOnly_unmoved. unfold writeFirewallPolicy. hfollow.
  - exfalso. revert Hrow'. unfold openStoreState, findCheck in *. simpl.
    rewrite find_fmap, Hrow; [|intros c; unfold interruptRow; by destruct (bool_decide (fc_disposition c = checking))].
    simpl. intros [= <-]. revert Hadmitted. unfold interruptRow. by rewrite Hchecking.
Qed.

(** ** The evidence at a commit *)

(** The rows a check's evidence is read from. *)
Definition sameEvidence (h h' : Hosted) : Prop :=
  certifiedRows h' = certifiedRows h /\
  firewall_local_evidence h' = firewall_local_evidence h /\
  dom (firewall_answers h') = dom (firewall_answers h) /\
  dom (post_intents (protocol h')) = dom (post_intents (protocol h)) /\
  in_deliveryToken <$> runtime_inbox h' = in_deliveryToken <$> runtime_inbox h.

Lemma prefix_same {A} (l k : list A) : l `prefix_of` k -> length k <= length l -> k = l.
Proof.
  intros [m ->]. rewrite length_app. intros Hl. destruct m; [by rewrite app_nil_r|].
  simpl in Hl. lia.
Qed.
Lemma dom_same {A} (m m' : gmap (string * string) A) :
  dom m ⊆ dom m' -> size m' <= size m -> dom m' = dom m.
Proof.
  intros Hsub Hsize. apply leibniz_equiv. symmetry. apply set_subseteq_size_equiv; [done|].
  by rewrite !size_dom.
Qed.
Lemma dom_size {A} (m m' : gmap (string * string) A) : dom m ⊆ dom m' -> size m <= size m'.
Proof. intros Hsub%subseteq_size. by rewrite !size_dom in Hsub. Qed.

Lemma same_revision h h' : grows h h' -> revision h' = revision h -> sameEvidence h h'.
Proof.
  intros [Hc Hi _ _ Hl Ha Hp _ Hr] Hsame.
  pose proof (prefix_length _ _ Hc). pose proof (prefix_length _ _ Hl).
  pose proof (extends_length _ _ _ Hi). pose proof (dom_size _ _ Ha). pose proof (dom_size _ _ Hp).
  unfold evidenceRows in Hr.
  split_and!; [apply prefix_same; [done|lia]|apply prefix_same; [done|lia]
    |apply dom_same; [done|lia]|apply dom_same; [done|lia]|].
  destruct Hi as (old & new & Hold & HK). assert (new = []) as ->.
  { apply nil_length_inv. pose proof (Forall2_length _ _ _ HK). rewrite Hold, length_app in *. lia. }
  rewrite Hold, app_nil_r. clear -HK. induction HK as [|row row' l l' Hrow _ IH]; [done|].
  simpl. f_equal; [apply Hrow|done].
Qed.

(** C17: A check becomes admitted only on the evidence it was begun with.  Let a
    check record the revision of some past state of the store.  If an
    operation now admits it, and not as a shadow observation, no record was
    certified, no local evidence or answer kept, no post bound and no item
    shown since that state. *)
Theorem admitted_on_same_evidence history later operation checkId row row' :
  let begun := runHosted history createHosted in
  let now := runHosted later begun in
  findCheck now checkId = Some row -> fc_disposition row = checking ->
  fc_revision row = revision begun ->
  findCheck (performHosted operation now).2 checkId = Some row' ->
  fc_disposition row' = check_admitted ->
  Forall (fun c => co_checkId c = checkId -> co_shadow c = false) (completionsOf operation) ->
  sameEvidence begun now.
Proof.
  intros begun now Hrow Hchecking Hbegun Hrow' Hadmitted Hshadow.
  destruct (perform_admitsOnly _ _ _ _ _ Hrow Hchecking Hrow' Hadmitted)
    as (c & Hc & Hid & _ & Hfresh).
  rewrite Forall_forall in Hshadow.
  assert (wellFormed begun) as Hwf by apply runHosted_evolves, createHosted_wellFormed.
  apply same_revision; [by apply runHosted_evolves|].
  destruct Hfresh as [Hs|<-]; [|done]. rewrite (Hshadow c Hc) in Hs; [done|].
  by apply find_checkId in Hrow; congruence.
Qed.

End checks.
End HostChecks.

Module HostPosts.
Local Open Scope string_scope.
Import StoreDatabase StoreAnchors EndpointStore StoreGrowth HostTables StoreInbox StoreFirewall.
Import HostStore HostLaws HostSteps HostChecks.

Definition bindsDirectly (operation : HostOperation) : bool :=
  match operation with OnProtocol op => binds op | _ => false end.

(** The check that authorised a bound post is admitted in [h]. *)
Definition authorises (h : Hosted) (key : string * string) (core : string * string * string)
    (operation : HostOperation) : Prop :=
  match operation with
  | BindCheckedPostIntent _ binding completion =>
    intentKey (bindingIntent binding) = key /\ intentCore (bindingIntent binding) = core /\
    admittedOperation h (co_checkId completion) (pi_canonicalIntent (bindingIntent binding)) = true
  | BindAdmittedPostIntent binding checkId canonicalCandidate =>
    intentKey (bindingIntent binding) = key /\ intentCore (bindingIntent binding) = core /\
    admittedOperation h checkId canonicalCandidate = true
  | _ => False
  end.

Section posts.
Context `{Base64Url}.

(** ** An admitted check stays admitted *)

Lemma find_extends h h' checkId row : extends keptCheck (firewall_checks h) (firewall_checks h') ->
  findCheck h checkId = Some row ->
  exists row', findCheck h' checkId = Some row' /\ keptCheck row row'.
Proof.
  unfold findCheck. intros (old & new & -> & HK). generalize (firewall_checks h), HK. clear HK.
  intros rows HK. induction HK as [|c c' l l' Hc _ IH]; simpl; [done|].
  rewrite (proj1 Hc). case_bool_decide; [|done]. intros [= <-]. eauto.
Qed.

Lemma admitted_stays h h' checkId candidate : grows h h' ->
  admittedOperation h checkId candidate = true -> admittedOperation h' checkId candidate = true.
Proof.
  intros Hg. unfold admittedOperation. destruct (findCheck h checkId) as [row|] eqn:Hrow; [|done].
  destruct (find_extends _ _ _ _ (g_checks _ _ Hg) Hrow) as (row' & -> & Hkept).
  intros Hadmitted. guards. assert (row' = row) as -> by (apply Hkept; left; congruence).
  by rewrite !bool_decide_eq_true_2.
Qed.

(** ** Operations that bind nothing *)

Definition sameCores (h h' : Hosted) : Prop :=
  intentCores (protocol h') = intentCores (protocol h).
#[local] Instance sameCores_preorder : PreOrder sameCores.
Proof. unfold sameCores. split; [by intros ?|]. intros ????. congruence. Qed.

Lemma cores_modify f : (forall h, sameCores h (f h)) -> hmoves sameCores (hmodify f).
Proof. apply hmoves_modify. Qed.
#[local] Hint Extern 1 (hmoves sameCores (hmodify _)) => by apply cores_modify : htx_moves.
#[local] Hint Extern 1 (hmoves sameCores (retirePendingDelivery _)) => by apply cores_modify : htx_moves.
#[local] Hint Extern 1 (hmoves sameCores (settleQueuedItem _ _ _)) => by apply cores_modify : htx_moves.
#[local] Hint Extern 1 (hmoves sameCores (insert_localEvidence _)) => by apply cores_modify : htx_moves.
Lemma cores_answer key admitted : hmoves sameCores (upsert_answer key admitted).
Proof. apply cores_modify. intros h. by case_match. Qed.
#[local] Hint Resolve cores_answer : htx_moves.
#[local] Hint Extern 1 (hmoves sameCores (insert_inbox _)) => unfold insert_inbox; hfollow : htx_moves.
#[local] Hint Extern 1 (hmoves sameCores (insert_incoming _)) => unfold insert_incoming; hfollow : htx_moves.
#[local] Hint Extern 1 (hmoves sameCores (insert_check _)) => unfold insert_check; hfollow : htx_moves.

Lemma cores_put item : hmoves sameCores (putInboxItem item).
Proof. unfold putInboxItem, readOptionalBytes, requireSameOptionalBytes. hfollow. Qed.
Lemma cores_retireItem token : hmoves sameCores (retireItem token).
Proof. unfold retireItem. hfollow. Qed.
Lemma cores_queue item : hmoves sameCores (queueFirewallItem item).
Proof. unfold queueFirewallItem, readOptionalBytes, requireSameOptionalBytes. hfollow. Qed.
Lemma cores_complete clock checkId result commit :
  hmoves sameCores (completeFirewallCheck clock checkId result commit).
Proof. unfold completeFirewallCheck. hfollow. Qed.
Lemma cores_checkingRow completion direction candidate :
  hmoves sameCores (checkingRow completion direction candidate).
Proof. unfold checkingRow. hfollow. Qed.
Lemma cores_frontier token item : hmoves sameCores (requireQueueFrontier token item).
Proof. unfold requireQueueFrontier. hfollow. Qed.
#[local] Hint Resolve cores_put cores_retireItem cores_queue cores_complete cores_checkingRow
  cores_frontier : htx_moves.
Lemma cores_started completions item : hmoves sameCores (startedChecks completions item).
Proof. induction completions as [|c l IH]; simpl; hfollow. Qed.
#[local] Hint Resolve cores_started : htx_moves.
Lemma cores_compare clock completion direction candidate :
  hmoves sameCores (compareFirewallCheck clock completion direction candidate).
Proof. unfold compareFirewallCheck. hfollow. Qed.
#[local] Hint Resolve cores_compare : htx_moves.
Lemma cores_localItem clock admission : hmoves sameCores (admitFirewallLocalItem clock admission).
Proof.
  unfold admitFirewallLocalItem, completeLocalChecks, beginDeterministic, beginFirewallAttempt,
    markAnswers, markAnswer, insertEvidence. hfollow.
Qed.
Lemma cores_item clock item completion : hmoves sameCores (admitFirewallItem clock item completion).
Proof. unfold admitFirewallItem. hfollow. Qed.

(** ** Operations that bind *)

(** An admitted comparison leaves an admitted check of this candidate. *)
Lemma compare_authorises clock completion candidate h h' :
  compareFirewallCheck clock completion outgoing candidate h = Succeed (CommitAdmitted, h') ->
  admittedOperation h' (co_checkId completion) candidate = true.
Proof.
  unfold compareFirewallCheck. intros Hrun. htx.
  match goal with H : checkingRow _ _ _ _ = _ |- _ =>
    apply checkingRow_ok in H as (-> & row & Hrow & Hchecking & Hdirection & Hcandidate & _) end.
  match goal with H : completeFirewallCheck _ _ _ _ _ = _, E : CommitAdmitted = _ |- _ =>
    destruct (complete_ok _ _ _ _ _ _ _ _ H Hrow Hchecking) as (row' & Hrow' & Hd & Hdir & Hcand);
    rewrite <- E in Hd end.
  unfold admittedOperation. rewrite Hrow'. simpl in Hd. rewrite !bool_decide_eq_true_2 by congruence. done.
Qed.

Lemma lifted_binds binding h m h' : lifted (bindIntentWithFoundation binding) h = Succeed (m, h') ->
  intentCores (protocol h') = <[intentKey (bindingIntent binding) := intentCore (bindingIntent binding)]>
    (intentCores (protocol h)) /\ firewall_checks h' = firewall_checks h.
Proof.
  unfold lifted. destruct (bindIntentWithFoundation binding (protocol h)) as [[x after]|] eqn:Hbind; [|done].
  intros [= <- <-]. apply bind_ok in Hbind as (_ & _ & Hcores). by split.
Qed.

Lemma perform_posts operation h : bindsDirectly operation = false ->
  let h' := (performHosted operation h).2 in
  sameCores h h' \/
  exists key core, intentCores (protocol h') = <[key := core]> (intentCores (protocol h)) /\
    authorises h' key core operation.
Proof.
  intros Hb. cbv zeta.
  assert (forall A (m : HTx A), hmoves sameCores m -> sameCores h (hosted m h).2) as Hsame.
  { intros A m Hm. unfold hosted. destruct (m h) as [[a h']|] eqn:Hrun; [by eapply Hm|done]. }
  destruct operation; unfold performHosted.
  1: { left. simpl in Hb. pose proof (perform_sameIntents operation (protocol h) Hb) as Hcores.
       unfold onProtocol. by destruct (perform operation (protocol h)). }
  12: { unfold hosted. destruct (bindCheckedPostIntent clock binding completion h) as [[d h']|] eqn:Hrun;
          [|by left].
        unfold bindCheckedPostIntent in Hrun. simpl.
        apply htx_bind_ok in Hrun as ([] & ? & (? & ? & _ & ->)%checked_ok & Hrun).
        apply htx_bind_ok in Hrun as (commit & h1 & Hcompare & Hrun).
        case_decide as Hcommit; [subst commit|htx; left; by eapply cores_compare].
        htx. match goal with H : lifted _ _ = _ |- _ => apply lifted_binds in H as [Hcores Hchecks] end.
        right. do 2 eexists. split; [by rewrite Hcores, (cores_compare _ _ _ _ _ _ _ Hcompare)|].
        split_and!; [done|done|]. apply compare_authorises in Hcompare.
        unfold admittedOperation, findCheck in *. by rewrite Hchecks. }
  12: { unfold hosted. destruct (bindAdmittedPostIntent binding checkId canonicalCandidate h)
          as [[d h']|] eqn:Hrun; [|by left].
        unfold bindAdmittedPostIntent in Hrun. simpl.
        do 3 (apply htx_bind_ok in Hrun as ([] & ? & (? & ? & _ & ->)%checked_ok & Hrun)).
        apply htx_bind_ok in Hrun as (? & ? & [-> ->]%hgets_ok & Hrun). cbv [id] in Hrun.
        case_match eqn:Hadmitted; [|htx; by left].
        htx. match goal with H : lifted _ _ = _ |- _ => apply lifted_binds in H as [Hcores Hchecks] end.
        right. do 2 eexists. split; [exact Hcores|]. split_and!; [done|done|].
        unfold admittedOperation, findCheck in *. by rewrite Hchecks. }
  all: left; apply Hsame.
  - apply cores_put.
  - apply cores_retireItem.
  - unfold replaceItem, replaceInboxItem. hfollow. destruct pendingConversation; simplify_eq/=. hfollow.
  - unfold completeWebhookDelivery, writeEventState. hfollow.
  - unfold writeEventState. hfollow.
  - hfollow.
  - unfold beginFirewallAttempt. hfollow.
  - apply cores_item.
  - apply cores_localItem.
  - unfold retireFirewallItem. hfollow.
  - apply cores_compare.
  - unfold writeFirewallPolicy. hfollow.
  - unfold openStoreState. hfollow.
Qed.

(** C18: The firewall decides every post.  If no operation binds a post past the
    firewall, each bound post was bound by an operation whose check is admitted:
    an outgoing check of exactly the post's canonical intent, or of the
    operation the post belongs to; and it still says what was checked. *)
Theorem posts_need_admission operations :
  Forall (fun operation => bindsDirectly operation = false) operations ->
  let h := runHosted operations createHosted in
  forall key core, intentCores (protocol h) !! key = Some core ->
  exists operation, operation ∈ operations /\ authorises h key core operation.
Proof.
  cbv zeta. induction operations as [|o l IH] using rev_ind; intros Hall key core.
  { simpl. unfold intentCores. simpl. rewrite fmap_empty, lookup_empty. done. }
  apply Forall_app in Hall as [Hl [Ho _]%Forall_cons]. specialize (IH Hl).
  unfold runHosted. rewrite foldl_app. simpl. fold (runHosted l createHosted).
  set (h := runHosted l createHosted) in *.
  assert (grows h (performHosted o h).2) as Hg.
  { apply perform_evolves. apply runHosted_evolves, createHosted_wellFormed. }
  assert (forall key core, intentCores (protocol h) !! key = Some core ->
    exists operation, operation ∈ (l ++ [o])%list /\ authorises (performHosted o h).2 key core operation) as Hold.
  { intros k c (operation & Hin & Hauth)%IH. exists operation. split; [set_solver|].
    destruct operation; simpl in *; try done; destruct Hauth as (? & ? & Hadmitted);
      (split_and!; [done|done|by eapply admitted_stays]). }
  destruct (perform_posts o h Ho) as [Hsame|(key' & core' & Hins & Hauth)].
  - rewrite Hsame. apply Hold.
  - rewrite Hins. intros [[<- <-]|[_ Hlookup]]%lookup_insert_Some; [|by apply Hold].
    exists o. split; [set_solver|done].
Qed.

End posts.
End HostPosts.
