(* ===== verification/HostOrder.v ===== *)
(** HostOrder: what the runtime is shown, and in which order.  An abstract
    machine queues items, withholds them and shows them; the store implements it
    when every item goes through the firewall.

    InboxPages: reading the inbox page by page while the store goes on.  The
    pages below a fixed position end, hand out each item once and in order, and
    miss none that is still unread. *)
From Stdlib Require Import Sorted.
From S2P Require Import Prelude JsMap Identifiers StoredHistory StoreDatabase StoreAnchors.
From S2P Require Import EndpointStore HostTables StoreFirewall HostLaws.

Module HostOrder.
Local Open Scope string_scope.
Import StoreDatabase StoreAnchors EndpointStore HostTables StoreInbox StoreFirewall HostStore HostLaws.
Import HostSteps.

(** ** The admission machine *)

Definition QueuedItem : Type := string * string * QueueDisposition.
Definition token (item : QueuedItem) : string := item.1.1.
Definition address (item : QueuedItem) : string := item.1.2.
Definition settled (item : QueuedItem) (disposition : QueueDisposition) : QueuedItem :=
  (item.1, disposition).

(** The queue in arrival order, and the tokens shown, in the order they were. *)
Record Admission := mkAdmission { queue : list QueuedItem; shown : list string }.

Definition frontier (q : list QueuedItem) (i : nat) (item : QueuedItem) : Prop :=
  q !! i = Some item /\ item.2 = queue_pending /\
  forall j earlier, j < i -> q !! j = Some earlier -> address earlier = address item ->
    earlier.2 <> queue_pending.

Inductive admissionStep : Admission -> Admission -> Prop :=
  | step_queue q s t c :
      t ∉ token <$> q -> t ∉ s ->
      admissionStep (mkAdmission q s) (mkAdmission (q ++ [(t, c, queue_pending)]) s)
  | step_withhold (q : list QueuedItem) s i (item : QueuedItem) :
      q !! i = Some item -> item.2 = queue_pending ->
      admissionStep (mkAdmission q s) (mkAdmission (<[i := settled item queue_withheld]> q) s)
  | step_show q s i (item : QueuedItem) :
      frontier q i item ->
      admissionStep (mkAdmission q s)
        (mkAdmission (<[i := settled item queue_admitted]> q) (s ++ [token item])).

Definition idle : Admission := mkAdmission [] [].

(** What the machine promises. *)
Record orderly (a : Admission) : Prop := {
  o_tokens : NoDup (token <$> queue a);
  o_shown : NoDup (shown a);
  o_exact item : item ∈ queue a -> (token item ∈ shown a <-> item.2 = queue_admitted);
  o_queued t : t ∈ shown a -> t ∈ token <$> queue a;
  o_settled i j (x y : QueuedItem) : i < j -> queue a !! i = Some x -> queue a !! j = Some y ->
    address x = address y -> y.2 = queue_admitted -> x.2 <> queue_pending;
  o_order i j (x y : QueuedItem) p q : i < j -> queue a !! i = Some x -> queue a !! j = Some y ->
    address x = address y -> shown a !! p = Some (token x) -> shown a !! q = Some (token y) -> p < q;
}.

Lemma idle_orderly : orderly idle.
Proof.
  split; simpl; try done; try apply NoDup_nil_2;
    by intros ? ?%not_elem_of_nil.
Qed.

(** Settling an item keeps its token and its address. *)
Lemma settle_lookup (q : list QueuedItem) i (item : QueuedItem) d (j : nat) (x : QueuedItem) : q !! i = Some item ->
  <[i := settled item d]> q !! j = Some x ->
  exists y : QueuedItem, q !! j = Some y /\ x.1 = y.1 /\ (j <> i -> x = y) /\ (j = i -> x = settled item d).
Proof.
  intros Hi. destruct (decide (i = j)) as [<-|Hne].
  - rewrite list_lookup_insert_eq by (by eapply lookup_lt_Some). intros [= <-].
    exists item. by split_and!.
  - rewrite list_lookup_insert_ne by done. intros Hx. exists x. by split_and!.
Qed.
Lemma settle_tokens (q : list QueuedItem) i (item : QueuedItem) d : q !! i = Some item ->
  token <$> <[i := settled item d]> q = token <$> q.
Proof.
  intros Hi. rewrite list_fmap_insert. apply list_insert_id. rewrite list_lookup_fmap, Hi. done.
Qed.

Lemma token_index (q : list QueuedItem) i j (x y : QueuedItem) : NoDup (token <$> q) -> q !! i = Some x -> q !! j = Some y ->
  token x = token y -> i = j.
Proof.
  intros Hnd Hi Hj Heq. eapply (NoDup_lookup _ _ _ (token x) Hnd);
    apply list_lookup_fmap_Some; [by exists x|by exists y].
Qed.

Lemma step_orderly a b : admissionStep a b -> orderly a -> orderly b.
Proof.
  intros Hstep Ha. destruct Ha as [Hnd Hsh Hex Hq Hse Hor].
  destruct Hstep as [q s t c Ht Hs|q s i item Hi Hp|q s i item (Hi & Hp & Hearlier)]; simpl in *.
  - split; simpl; try done.
    + rewrite fmap_app. apply NoDup_app. split_and!; [done|set_solver|apply NoDup_singleton].
    + intros item [Hin| ->%list_elem_of_singleton]%elem_of_app; [by apply Hex|].
      split; [done|by intros [=]].
    + intros t' ?%Hq. rewrite fmap_app. set_solver.
    + intros i j x y Hij Hx Hy. apply lookup_app_Some in Hy as [Hy|[Hj Hy]].
      * rewrite lookup_app_l in Hx by (apply lookup_lt_Some in Hy; lia). by eapply Hse.
      * apply list_lookup_singleton_Some in Hy as [_ <-]. by intros ? [=].
    + intros i j x y p r Hij Hx Hy. apply lookup_app_Some in Hy as [Hy|[Hj Hy]].
      * rewrite lookup_app_l in Hx by (apply lookup_lt_Some in Hy; lia). by eapply Hor.
      * apply list_lookup_singleton_Some in Hy as [_ <-].
        intros _ _ Hr. exfalso. apply Hs. by eapply list_elem_of_lookup_2.
  - split; simpl; try done.
    + by rewrite settle_tokens.
    + intros x [j Hj]%list_elem_of_lookup.
      destruct (settle_lookup _ _ _ _ _ _ Hi Hj) as (y & Hy & Hxy & Hne & Heq).
      unfold token. rewrite Hxy. destruct (decide (j = i)) as [->|Hji].
      * rewrite (Heq eq_refl). assert (y = item) as -> by congruence.
        pose proof (Hex item ltac:(by eapply list_elem_of_lookup_2)) as Hitem.
        split; [|by intros [=]]. intros ?%Hitem. congruence.
      * rewrite (Hne Hji). apply Hex. by eapply list_elem_of_lookup_2.
    + intros t ?%Hq. by rewrite settle_tokens.
    + intros j k x y Hjk Hx Hy Hadd Hady.
      destruct (settle_lookup _ _ _ _ _ _ Hi Hx) as (x0 & Hx0 & Hxx & Hxne & Hxeq).
      destruct (settle_lookup _ _ _ _ _ _ Hi Hy) as (y0 & Hy0 & Hyy & Hyne & Hyeq).
      destruct (decide (j = i)) as [->|Hji]; [by rewrite (Hxeq eq_refl)|].
      destruct (decide (k = i)) as [->|Hki]; [by rewrite (Hyeq eq_refl) in Hady|].
      rewrite (Hxne Hji), (Hyne Hki) in *. by eapply Hse.
    + intros j k x y p r Hjk Hx Hy.
      destruct (settle_lookup _ _ _ _ _ _ Hi Hx) as (x0 & Hx0 & Hxx & _).
      destruct (settle_lookup _ _ _ _ _ _ Hi Hy) as (y0 & Hy0 & Hyy & _).
      unfold address, token. rewrite Hxx, Hyy. by apply (Hor j k x0 y0).
  - assert (token item ∉ s) as Hfresh.
    { intros Hin. apply Hex in Hin; [congruence|by eapply list_elem_of_lookup_2]. }
    split; simpl.
    + by rewrite settle_tokens.
    + apply NoDup_app. split_and!; [done|set_solver|apply NoDup_singleton].
    + intros x [j Hj]%list_elem_of_lookup.
      destruct (settle_lookup _ _ _ _ _ _ Hi Hj) as (y & Hy & Hxy & Hne & Heq).
      destruct (decide (j = i)) as [->|Hji].
      * rewrite (Heq eq_refl). split; [done|]. intros _. apply elem_of_app. right. by left.
      * rewrite (Hne Hji), elem_of_app, list_elem_of_singleton.
        rewrite <- (Hex y) by (by eapply list_elem_of_lookup_2). split; [|by left].
        intros [?|Htok]; [done|]. exfalso. apply Hji. by eapply token_index.
    + intros t [Ht%Hq| ->%list_elem_of_singleton]%elem_of_app; rewrite settle_tokens by done; [done|].
      apply list_elem_of_fmap. exists item. split; [done|by eapply list_elem_of_lookup_2].
    + intros j k x y Hjk Hx Hy Hadd Hady.
      destruct (settle_lookup _ _ _ _ _ _ Hi Hx) as (x0 & Hx0 & Hxx & Hxne & Hxeq).
      destruct (settle_lookup _ _ _ _ _ _ Hi Hy) as (y0 & Hy0 & Hyy & Hyne & Hyeq).
      destruct (decide (j = i)) as [->|Hji]; [by rewrite (Hxeq eq_refl)|].
      assert (x = x0) as -> by auto. destruct (decide (k = i)) as [->|Hki].
      * rewrite Hi in Hy0. injection Hy0 as <-. eapply Hearlier; [exact Hjk|done|].
        unfold address in *. by rewrite Hadd, Hyy.
      * assert (y = y0) as -> by auto. by eapply Hse.
    + intros j k x y p r Hjk Hx Hy Hadd Hpx Hry.
      destruct (settle_lookup _ _ _ _ _ _ Hi Hx) as (x0 & Hx0 & Hxx & Hxne & Hxeq).
      destruct (settle_lookup _ _ _ _ _ _ Hi Hy) as (y0 & Hy0 & Hyy & Hyne & Hyeq).
      unfold address, token in *. rewrite Hxx, Hyy in *.
      apply lookup_app_Some in Hpx as [Hpx|[Hlp Hpx]], Hry as [Hry|[Hlr Hry]].
      * by eapply (Hor j k).
      * apply lookup_lt_Some in Hpx. lia.
      * exfalso. apply list_lookup_singleton_Some in Hpx as [_ Htok].
        assert (j = i) as -> by (eapply (token_index q j i x0 item); eauto).
        rewrite Hi in Hx0. injection Hx0 as <-.
        assert (y0.2 = queue_admitted) as Hy2.
        { apply Hex; [by eapply list_elem_of_lookup_2|by eapply list_elem_of_lookup_2]. }
        by apply (Hse i k item y0 Hjk Hi Hy0 Hadd Hy2).
      * exfalso. apply list_lookup_singleton_Some in Hpx as [_ Htx], Hry as [_ Hty].
        assert (j = k) by (eapply (token_index q j k x0 y0); eauto; unfold token; congruence). lia.
Qed.

Lemma steps_orderly a b : rtc admissionStep a b -> orderly a -> orderly b.
Proof. induction 1; eauto using step_orderly. Qed.

(** ** The store runs the machine *)

Definition queueItem (row : QueuedRow) : QueuedItem :=
  (fi_deliveryToken row, fi_conversation row, fi_disposition row).
Definition admissionOf (h : Hosted) : Admission :=
  mkAdmission (queueItem <$> firewall_incoming h) (in_deliveryToken <$> runtime_inbox h).

(** Operations that show an item without the firewall. *)
Definition firewalled (operation : HostOperation) : bool :=
  match operation with
  | PutInboxItem _ | ReplaceInboxItem _ _ None => false
  | _ => true
  end.

Definition sameAdmission (h h' : Hosted) : Prop := admissionOf h' = admissionOf h.
#[local] Instance sameAdmission_preorder : PreOrder sameAdmission.
Proof. unfold sameAdmission. split; [by intros ?|]. intros ????. congruence. Qed.

Section order.
Context `{Base64Url}.

(** Statements on other tables. *)
Lemma sees_modify f : (forall h, sameAdmission h (f h)) -> hmoves sameAdmission (hmodify f).
Proof. apply hmoves_modify. Qed.
Lemma sees_acknowledged t : hmoves sameAdmission (hmodify (set_inbox (fmap (acknowledgeRow t)))).
Proof.
  apply sees_modify. intros h. unfold sameAdmission, admissionOf. simpl. f_equal.
  rewrite fmap_key; [done|]. intros row. unfold acknowledgeRow. by case_bool_decide.
Qed.
Lemma sees_check row : hmoves sameAdmission (insert_check row).
Proof. unfold insert_check. hfollow. by apply sees_modify. Qed.
Lemma sees_local row : hmoves sameAdmission (insert_localEvidence row).
Proof. by apply sees_modify. Qed.
Lemma sees_answer key admitted : hmoves sameAdmission (upsert_answer key admitted).
Proof. apply sees_modify. intros h. by case_match. Qed.
Lemma sees_lifted {A} (m : Tx A) : hmoves sameAdmission (lifted m).
Proof.
  intros h a h'. unfold lifted. destruct (m (protocol h)) as [[x after]|]; [|done]. by intros [= _ <-].
Qed.
#[local] Hint Resolve sees_acknowledged sees_check sees_local sees_answer sees_lifted : htx_moves.
#[local] Hint Extern 1 (hmoves sameAdmission (hmodify _)) => by apply sees_modify : htx_moves.
#[local] Hint Extern 1 (hmoves sameAdmission (retirePendingDelivery _)) => by apply sees_modify : htx_moves.

Lemma sees_retireItem t : hmoves sameAdmission (retireItem t).
Proof. unfold retireItem. hfollow. Qed.
Lemma sees_complete clock checkId result commit :
  hmoves sameAdmission (completeFirewallCheck clock checkId result commit).
Proof. unfold completeFirewallCheck. hfollow. Qed.
Lemma sees_checkingRow completion direction candidate :
  hmoves sameAdmission (checkingRow completion direction candidate).
Proof. unfold checkingRow. hfollow. Qed.
#[local] Hint Resolve sees_retireItem sees_complete sees_checkingRow : htx_moves.
Lemma sees_started completions item : hmoves sameAdmission (startedChecks completions item).
Proof. induction completions as [|c l IH]; simpl; hfollow. Qed.
#[local] Hint Resolve sees_started : htx_moves.
Lemma sees_compare clock completion direction candidate :
  hmoves sameAdmission (compareFirewallCheck clock completion direction candidate).
Proof. unfold compareFirewallCheck. hfollow. Qed.
Lemma sees_localChecks clock admission : hmoves sameAdmission (completeLocalChecks clock admission).
Proof. unfold completeLocalChecks. hfollow. Qed.
Lemma sees_deterministic clock check : hmoves sameAdmission (beginDeterministic clock check).
Proof. unfold beginDeterministic, beginFirewallAttempt. hfollow. Qed.
Lemma sees_mark answers : hmoves sameAdmission (markAnswers answers).
Proof. unfold markAnswers, markAnswer. hfollow. Qed.
Lemma sees_evidence admission : hmoves sameAdmission (insertEvidence admission).
Proof. unfold insertEvidence. hfollow. Qed.

(** ** Operations that step *)

Lemma findInbox_none h t : findInbox h t = None <-> t ∉ shown (admissionOf h).
Proof.
  unfold findInbox. simpl. split.
  - intros Hnone (row & -> & Hin)%list_elem_of_fmap.
    pose proof (find_none _ _ Hnone row) as Hno. simpl in Hno.
    rewrite bool_decide_eq_true_2 in Hno by done. by apply list_elem_of_In, Hno in Hin.
  - intros Hfresh. destruct (List.find _ _) as [row|] eqn:Hfind; [|done].
    apply find_some in Hfind as [Hin%list_elem_of_In Hrow]. guards. exfalso. apply Hfresh.
    apply list_elem_of_fmap. by exists row.
Qed.

Lemma queue_steps item h u h' : queueFirewallItem item h = Succeed (u, h') ->
  rtc admissionStep (admissionOf h) (admissionOf h').
Proof.
  unfold queueFirewallItem. intros Hrun.
  do 2 (apply htx_bind_ok in Hrun as ([] & ? & (? & ? & _ & ->)%checked_ok & Hrun)).
  apply htx_bind_ok in Hrun as (? & ? & [-> ->]%hgets_ok & Hrun). cbv [id] in *.
  destruct (findQueued h _) as [prior|] eqn:Hprior.
  { unfold readOptionalBytes, requireSameOptionalBytes in Hrun. htx. case_match; htx. done. }
  destruct (findInbox h _) as [row|] eqn:Hinbox; [by htx|].
  unfold insert_incoming, constraint in Hrun. htx. tx. guards.
  apply rtc_once. unfold admissionOf. simpl. rewrite fmap_app. simpl. apply step_queue.
  - rewrite <- list_fmap_compose. done.
  - by apply findInbox_none in Hinbox.
Qed.

Lemma settled_view t d checkId h i queued :
  wellFormed h -> firewall_incoming h !! i = Some queued -> fi_deliveryToken queued = t ->
  queueItem <$> (settleRow t d checkId <$> firewall_incoming h) =
  <[i := settled (queueItem queued) d]> (queueItem <$> firewall_incoming h).
Proof.
  intros Hwf Hi Ht. apply list_eq. intros j. rewrite !list_lookup_fmap.
  destruct (decide (i = j)) as [<-|Hne].
  - rewrite Hi. simpl. rewrite list_lookup_insert_eq
      by (rewrite length_fmap; by eapply lookup_lt_Some).
    unfold settleRow. by rewrite bool_decide_eq_true_2.
  - rewrite list_lookup_insert_ne, list_lookup_fmap by done.
    destruct (firewall_incoming h !! j) as [row|] eqn:Hj; [|done]. simpl. f_equal.
    unfold settleRow. rewrite bool_decide_eq_false_2; [done|]. intros Hrow. apply Hne.
    eapply (NoDup_lookup _ _ _ t (wf_queue _ Hwf)); apply list_lookup_fmap_Some;
      [exists queued|exists row]; split; congruence.
Qed.

Lemma frontier_view t item h u h' : requireQueueFrontier t item h = Succeed (u, h') ->
  h' = h /\ exists i queued, firewall_incoming h !! i = Some queued /\ fi_deliveryToken queued = t /\
    frontier (queue (admissionOf h)) i (queueItem queued).
Proof.
  intros (-> & i & queued & Hi & Ht & Hp & _ & Hno)%frontier_ok. split; [done|].
  exists i, queued. split_and!; [done|done|]. split_and!; [by simpl; rewrite list_lookup_fmap, Hi|done|].
  intros j earlier Hlt Hj Hadd Hpending. apply not_true_iff_false in Hno. apply Hno.
  simpl in Hj. apply list_lookup_fmap_Some in Hj as (row & -> & Hj).
  unfold hasPredecessor. apply existsb_exists. exists (Z.of_nat (S j), row). split.
  - apply list_elem_of_In, list_elem_of_lookup. exists j. unfold numbered.
    by rewrite list_lookup_imap, Hj.
  - apply bool_decide_eq_true_2. simpl. split_and!; [done|done|lia].
Qed.

(** Settling the item of a frontier, after statements on other tables, withholds
    it or, when [shows], shows it. *)
Lemma put_shows item h m h' : deliveryToken item ∉ shown (admissionOf h) ->
  putInboxItem item h = Succeed (m, h') ->
  admissionOf h' = mkAdmission (queue (admissionOf h)) (shown (admissionOf h) ++ [deliveryToken item]).
Proof.
  intros Hfresh%findInbox_none. unfold putInboxItem. intros Hrun. htx. rewrite Hfresh in *.
  unfold insert_inbox in *. htx. unfold admissionOf. simpl. by rewrite fmap_app.
Qed.

Lemma pending_unshown h i queued : orderly (admissionOf h) ->
  frontier (queue (admissionOf h)) i (queueItem queued) ->
  fi_deliveryToken queued ∉ shown (admissionOf h).
Proof.
  intros Ho (Hi & Hp & _) Hin. apply (o_exact _ Ho (queueItem queued)) in Hin; [congruence|].
  by eapply list_elem_of_lookup_2.
Qed.

Lemma admitFirewallItem_steps clock item completion h d h' :
  wellFormed h -> orderly (admissionOf h) ->
  admitFirewallItem clock item completion h = Succeed (d, h') ->
  rtc admissionStep (admissionOf h) (admissionOf h').
Proof.
  intros Hwf Ho Hrun. apply htx_bind_ok in Hrun as ([] & h0 & Hfrontier & Hrun).
  apply frontier_view in Hfrontier as (-> & i & queued & Hi & Ht & Hf).
  apply htx_bind_ok in Hrun as (commit & h1 & Hcompare & Hrun).
  pose proof (sees_compare _ _ _ _ _ _ _ Hcompare) as Hsame.
  pose proof (proj1 (evolves_compare _ _ _ _ _ _ _ Hcompare Hwf)) as Hwf1.
  pose proof (same_compare _ _ _ _ _ _ _ Hcompare) as Hq. unfold sameQueue in Hq. rewrite <- Hq in Hi.
  case_decide; [htx; by rewrite Hsame|].
  apply htx_bind_ok in Hrun as ([] & h2 & Hput & Hrun).
  apply htx_bind_ok in Hrun as ([] & h3 & Hsettle & Hrun). unfold settleQueuedItem in Hsettle. htx.
  apply rtc_once. case_decide as Hcommit.
  - apply htx_bind_ok in Hput as (m & h4 & Hput & Hrest). htx.
    pose proof (same_put _ _ _ _ Hput) as Hq2. unfold sameQueue in Hq2.
    pose proof (proj1 (evolves_put _ _ _ _ Hput Hwf1)) as Hwf2.
    apply put_shows in Hput; [|rewrite Hsame, <- Ht; by eapply pending_unshown].
    unfold admissionOf in Hput. injection Hput as _ Hshown. unfold admissionOf at 2. simpl.
    rewrite Hshown, (settled_view _ _ _ _ _ queued), Hq2, Hq by (rewrite ?Hq2; done).
    injection Hsame as _ Hs. rewrite Hs, <- Ht. by apply step_show.
  - unfold retirePendingDelivery in Hput. htx. unfold admissionOf at 2. simpl.
    rewrite (settled_view _ _ _ h1 _ queued) by done. rewrite Hq.
    injection Hsame as _ Hs. rewrite Hs.
    replace (queueDisposition commit) with queue_withheld by (by destruct commit).
    destruct Hf as (Hfi & Hp & _). by apply step_withhold.
Qed.


Lemma admitFirewallLocalItem_steps clock admission h d h' :
  wellFormed h -> orderly (admissionOf h) ->
  admitFirewallLocalItem clock admission h = Succeed (d, h') ->
  rtc admissionStep (admissionOf h) (admissionOf h').
Proof.
  intros Hwf Ho Hrun. unfold admitFirewallLocalItem in Hrun.
  do 2 (apply htx_bind_ok in Hrun as ([] & ? & (? & ? & _ & ->)%checked_ok & Hrun)).
  apply htx_bind_ok in Hrun as ([] & h0 & Hfrontier & Hrun).
  apply frontier_view in Hfrontier as (-> & i & queued & Hi & Ht & Hf).
  apply htx_bind_ok in Hrun as ([] & h1 & Hbegin & Hrun).
  apply htx_bind_ok in Hrun as (current & h2 & Hchecks & Hrun).
  assert (sameAdmission h h2) as Hsame
    by (etrans; [by eapply sees_deterministic|by eapply sees_localChecks]).
  assert (wellFormed h2) as Hwf2.
  { eapply evolves_localChecks; [done|]. by eapply evolves_deterministic. }
  assert (sameQueue h h2) as Hq by (etrans; [by eapply same_deterministic|by eapply same_localChecks]).
  destruct current; [|htx; by rewrite Hsame].
  apply htx_bind_ok in Hrun as (m & h3 & Hput & Hrun).
  apply htx_bind_ok in Hrun as ([] & h4 & Hmark & Hrun).
  apply htx_bind_ok in Hrun as ([] & h5 & Hevidence & Hrun).
  apply htx_bind_ok in Hrun as ([] & h6 & Hsettle & Hrun). unfold settleQueuedItem in Hsettle. htx.
  assert (sameAdmission h3 h5) as Hlast by (etrans; [by eapply sees_mark|by eapply sees_evidence]).
  assert (sameQueue h h5) as Hq5.
  { etrans; [exact Hq|]. etrans; [by eapply same_put|].
    etrans; [by eapply same_mark|by eapply same_recordedEvidence]. }
  assert (wellFormed h5) as Hwf5.
  { eapply evolves_evidence; [done|]. eapply evolves_mark; [done|]. by eapply evolves_put. }
  apply put_shows in Hput; [|rewrite Hsame, <- Ht; by eapply pending_unshown].
  apply rtc_once. unfold admissionOf at 2. simpl. unfold sameQueue in Hq5.
  rewrite (settled_view _ _ _ h5 i queued) by (rewrite ?Hq5; done). rewrite Hq5.
  injection Hlast as _ Hs5. injection Hput as _ Hs3. injection Hsame as _ Hs.
  rewrite Hs5, Hs3, Hs, <- Ht. by apply step_show.
Qed.

(** One pending row is withheld. *)
Lemma retireFirewallItem_steps t h u h' : wellFormed h ->
  retireFirewallItem t h = Succeed (u, h') -> rtc admissionStep (admissionOf h) (admissionOf h').
Proof.
  intros Hwf Hrun. unfold retireFirewallItem in Hrun.
  apply htx_bind_ok in Hrun as (? & ? & [-> ->]%hgets_ok & Hrun).
  apply htx_bind_ok in Hrun as ([] & ? & (? & ? & Hone & ->)%checked_ok & Hrun).
  apply require_ok in Hone as (Hone & _). guards. cbv [id] in *.
  unfold retirePendingDelivery in Hrun. htx.
  destruct (filter _ _) as [|queued l] eqn:Hfilter; [done|].
  assert (queued ∈ firewall_incoming h /\ fi_deliveryToken queued = t /\ fi_disposition queued = queue_pending)
    as (Hin & Ht & Hp).
  { assert (queued ∈ queued :: l) as Hq by (by left). rewrite <- Hfilter in Hq.
    apply list_elem_of_filter in Hq. naive_solver. }
  apply list_elem_of_lookup in Hin as [i Hi]. apply rtc_once.
  unfold admissionOf at 2. simpl.
  replace (queueItem <$> _) with (<[i := settled (queueItem queued) queue_withheld]>
    (queueItem <$> firewall_incoming h)).
  { apply step_withhold; [by rewrite list_lookup_fmap, Hi|done]. }
  rewrite <- (settled_view t queue_withheld (fi_checkId queued) h i queued) by done.
  rewrite <- !list_fmap_compose. apply list_fmap_ext. intros j row Hj. simpl.
  unfold settleRow. destruct (decide (fi_deliveryToken row = t)) as [Hrow|Hrow].
  - assert (i = j) as <-.
    { eapply (NoDup_lookup _ _ _ t (wf_queue _ Hwf)); apply list_lookup_fmap_Some;
        [exists queued|exists row]; split; congruence. }
    simplify_eq. by rewrite !bool_decide_eq_true_2.
  - by rewrite !bool_decide_eq_false_2 by naive_solver.
Qed.

Lemma sees_steps {A} (m : HTx A) h a h' : hmoves sameAdmission m -> m h = Succeed (a, h') ->
  rtc admissionStep (admissionOf h) (admissionOf h').
Proof. intros Hm Hrun%Hm. by rewrite Hrun. Qed.

Lemma perform_steps operation h : firewalled operation = true -> wellFormed h ->
  orderly (admissionOf h) ->
  rtc admissionStep (admissionOf h) (admissionOf (performHosted operation h).2).
Proof.
  intros Hthrough Hwf Ho.
  assert (forall A (m : HTx A),
    (forall a h', m h = Succeed (a, h') -> rtc admissionStep (admissionOf h) (admissionOf h')) ->
    rtc admissionStep (admissionOf h) (admissionOf (hosted m h).2)) as Hhosted.
  { intros A m Hm. unfold hosted. destruct (m h) as [[a h']|] eqn:Hrun; [by eapply Hm|done]. }
  destruct operation; simpl in Hthrough; try discriminate; unfold performHosted;
    try apply Hhosted.
  - unfold onProtocol. by destruct (perform operation (protocol h)).
  - intros a h'. apply sees_steps, sees_retireItem.
  - destruct pendingConversation; [|done]. intros a h' Hrun.
    unfold replaceItem, replaceInboxItem in Hrun.
    apply htx_bind_ok in Hrun as ([] & ? & (? & ? & _ & ->)%checked_ok & Hrun).
    apply htx_bind_ok in Hrun as ([] & h1 & Hretire & Hrun). simpl in Hrun.
    apply sees_retireItem in Hretire. rewrite <- Hretire. by eapply queue_steps.
  - intros a h'. apply sees_steps. unfold completeWebhookDelivery, writeEventState.
    hfollow; eauto with htx_moves.
  - intros a h'. apply sees_steps. unfold writeEventState. hfollow.
  - intros a h'. apply queue_steps.
  - intros a h'. apply sees_steps. unfold beginFirewallAttempt. hfollow.
  - intros a h'. by apply admitFirewallItem_steps.
  - intros a h'. by apply admitFirewallLocalItem_steps.
  - intros a h'. by apply retireFirewallItem_steps.
  - intros a h'. apply sees_steps, sees_compare.
  - intros a h'. apply sees_steps. unfold bindCheckedPostIntent.
    apply hmoves_bind; [apply _|hfollow|intros _].
    apply hmoves_bind; [apply _|apply sees_compare|hfollow].
  - intros a h'. apply sees_steps. unfold bindAdmittedPostIntent. hfollow.
  - intros a h'. apply sees_steps. unfold writeFirewallPolicy. hfollow.
  - intros a h'. apply sees_steps. unfold openStoreState. hfollow.
Qed.

Lemma run_steps operations :
  Forall (fun operation => firewalled operation = true) operations ->
  rtc admissionStep idle (admissionOf (runHosted operations createHosted)).
Proof.
  intros Hall. change idle with (admissionOf createHosted).
  generalize createHosted_wellFormed idle_orderly. change idle with (admissionOf createHosted).
  generalize createHosted. revert Hall. induction operations as [|o l IH]; intros Hall h Hwf Ho; [done|].
  apply Forall_cons in Hall as [Ho' Hall]. simpl.
  pose proof (perform_steps o h Ho' Hwf Ho) as Hsteps.
  etrans; [exact Hsteps|]. apply IH; [done| |by eapply steps_orderly].
  by apply perform_evolves.
Qed.

(** The store implements the admission machine.  While every item goes
    through the firewall, whatever the store's operations do to its tables,
    their queue and the inbox only ever take the machine's steps: an item is
    queued under a fresh token, withheld while it is pending, or shown while it
    is its conversation's oldest pending item. *)
Theorem store_runs_admission operations :
  Forall (fun operation => firewalled operation = true) operations ->
  rtc admissionStep idle (admissionOf (runHosted operations createHosted)).
Proof. apply run_steps. Qed.

(** C19: The runtime's inbox is the firewall's decisions, in order.  When every
    item goes through the firewall: an item is shown exactly when its queue
    entry was admitted; whatever is shown was queued; an item is admitted only
    once every earlier item of its conversation was decided; and of two shown
    items of a conversation, the one queued first is shown first. *)
Theorem inbox_in_order operations :
  Forall (fun operation => firewalled operation = true) operations ->
  let h := runHosted operations createHosted in
  (forall queued, queued ∈ firewall_incoming h ->
     (fi_deliveryToken queued ∈ in_deliveryToken <$> runtime_inbox h <->
      fi_disposition queued = queue_admitted)) /\
  (forall row, row ∈ runtime_inbox h ->
     in_deliveryToken row ∈ fi_deliveryToken <$> firewall_incoming h) /\
  (forall i j x y, i < j -> firewall_incoming h !! i = Some x -> firewall_incoming h !! j = Some y ->
     fi_conversation x = fi_conversation y -> fi_disposition y = queue_admitted ->
     fi_disposition x <> queue_pending) /\
  (forall i j x y p q a b, i < j ->
     firewall_incoming h !! i = Some x -> firewall_incoming h !! j = Some y ->
     fi_conversation x = fi_conversation y ->
     runtime_inbox h !! p = Some a -> in_deliveryToken a = fi_deliveryToken x ->
     runtime_inbox h !! q = Some b -> in_deliveryToken b = fi_deliveryToken y -> p < q).
Proof.
  intros Hall. cbv zeta. pose proof (run_steps _ Hall) as Hrun.
  set (h := runHosted operations createHosted) in *.
  pose proof (steps_orderly _ _ Hrun idle_orderly) as [_ _ Hex Hq Hse Hor].
  assert (forall i x, firewall_incoming h !! i = Some x -> queue (admissionOf h) !! i = Some (queueItem x)) as Hi.
  { intros i x Hx. simpl. by rewrite list_lookup_fmap, Hx. }
  assert (forall i x, runtime_inbox h !! i = Some x -> shown (admissionOf h) !! i = Some (in_deliveryToken x)) as Hs.
  { intros i x Hx. simpl. by rewrite list_lookup_fmap, Hx. }
  split_and!.
  - intros x Hx. apply (Hex (queueItem x)). apply list_elem_of_fmap. eauto.
  - intros row Hrow. assert (in_deliveryToken row ∈ shown (admissionOf h)) as Hin%Hq
      by (apply list_elem_of_fmap; eauto). simpl in Hin. by rewrite <- list_fmap_compose in Hin.
  - intros i j x y Hij Hx%Hi Hy%Hi Hc Hd. by eapply (Hse i j _ _ Hij Hx Hy).
  - intros i j x y p q a b Hij Hx%Hi Hy%Hi Hc Ha%Hs Hta Hb%Hs Htb.
    eapply (Hor i j _ _ p q Hij Hx Hy Hc); [by rewrite Ha, Hta|by rewrite Hb, Htb].
Qed.

End order.
End HostOrder.

Module InboxPages.
Import Identifiers StoreDatabase HostTables StoreInbox HostStore HostLaws HostSteps.

Section pages.
Context `{Base64Url}.

(** A row whose columns read back. *)
Definition readable (row : InboxRow) : bool :=
  isDeliveryToken (in_deliveryToken row) && negb (bool_decide (in_canonicalGuidance row = Some ""%string)).

Definition entryOf (row : Z * InboxRow) : InboxEntry :=
  mkInboxEntry row.1 (mkInboxItem (in_deliveryToken row.2) (in_canonicalItem row.2)
                        (in_canonicalGuidance row.2)).

(** ** One page *)

(** The rows a page takes: until its LIMIT or its byte bound. *)
Lemma collect_prefix rows limit items bytes :
  Forall (fun row => readable row.2 = true) rows ->
  (Z.of_nat (length items) <= limit)%Z ->
  exists n, collectFrom rows limit items bytes = Succeed (items ++ (entryOf <$> take n rows)) /\
    n <= length rows /\ (Z.of_nat (length items + n) <= limit)%Z /\
    (items = [] -> rows <> [] -> (1 <= limit)%Z -> 1 <= n).
Proof.
  revert items bytes. induction rows as [|[s row] rows IH]; intros items bytes Hread Hlimit; simpl.
  { exists 0. rewrite app_nil_r. split_and!; [done|lia|lia|done]. }
  apply Forall_cons in Hread as [Hrow Hread]. simpl in Hrow. unfold readable in Hrow. guards.
  unfold guidanceBytes.
  rewrite (bool_decide_eq_false_2 (in_canonicalGuidance row = Some ""%string)) by done. cbn [mbind exit_bind].
  destruct (bool_decide (Z.of_nat (length items) = limit) ||
    (bool_decide (0 < length items) && bool_decide _)) eqn:Hstop.
  { exists 0. simpl. rewrite app_nil_r. split_and!; [done|lia|lia|].
    intros -> _ ?. exfalso. apply orb_true_iff in Hstop as [Hstop|[Hstop _]%andb_true_iff]; guards;
      simpl in Hstop; lia. }
  apply orb_false_iff in Hstop as [Hfull _]. guards.
  unfold decodeDeliveryToken. rewrite H0. cbn [mbind exit_bind].
  destruct (IH (items ++ [entryOf (s, row)])%list (bytes + itemBytes (in_canonicalItem row) (in_canonicalGuidance row))%Z)
    as (n & Hrun & Hn & Hl & _); [done|rewrite length_app; simpl; lia|].
  exists (S n). simpl. split_and!; [|lia|rewrite length_app in Hl; simpl in Hl; lia|lia].
  unfold entryOf in Hrun at 1. simpl in Hrun. rewrite Hrun. by rewrite <- app_assoc.
Qed.

(** Rows in the order of their sequences. *)
Definition ascending {A} (rows : list (Z * A)) : Prop :=
  StronglySorted (fun a b => a.1 < b.1)%Z rows.

Lemma numbered_lookup {A} (rows : list A) i :
  numbered rows !! i = (fun row => (Z.of_nat (S i), row)) <$> rows !! i.
Proof. unfold numbered. by rewrite list_lookup_imap. Qed.
Lemma elem_of_numbered {A} (rows : list A) s row :
  (s, row) ∈ numbered rows <-> exists i, s = Z.of_nat (S i) /\ rows !! i = Some row.
Proof.
  rewrite list_elem_of_lookup. split.
  - intros [i Hi]. rewrite numbered_lookup in Hi. destruct (rows !! i) as [r|] eqn:Hr; [|done].
    simplify_eq/=. eauto.
  - intros (i & -> & Hi). exists i. by rewrite numbered_lookup, Hi.
Qed.
Lemma numbered_ascending {A} (rows : list A) : ascending (numbered rows).
Proof.
  unfold ascending, numbered. assert (forall k (l : list A),
    StronglySorted (fun a b : Z * A => a.1 < b.1)%Z
      (imap (fun i row => (Z.of_nat (S (k + i)), row)) l)) as Hgo; [|by apply (Hgo 0)].
  intros k l. revert k. induction l as [|x l IH]; intros k; simpl; constructor.
  - specialize (IH (S k)). erewrite imap_ext; [exact IH|]. intros i y _. simpl. f_equal. lia.
  - apply Forall_forall. intros [s y] Hin. apply list_elem_of_lookup in Hin as [i Hi].
    rewrite list_lookup_imap in Hi. destruct (l !! i); simplify_eq/=. lia.
Qed.
Lemma filter_ascending {A} (P : Z * A -> Prop) `{forall x, Decision (P x)} rows :
  ascending rows -> ascending (filter P rows).
Proof.
  unfold ascending. induction 1 as [|x l _ IH Hx]; [constructor|]. rewrite filter_cons.
  case_decide; [|done]. constructor; [done|]. rewrite Forall_forall in *.
  intros y [_ Hy]%list_elem_of_filter. by apply Hx.
Qed.

(** Past the [n]th row of an ascending list are the rows after it. *)
Lemma filter_drop {A} (rows : list (Z * A)) n x : ascending rows -> rows !! n = Some x ->
  filter (fun row => x.1 < row.1)%Z rows = drop (S n) rows.
Proof.
  intros Hasc. revert n. induction Hasc as [|y l Hl IH Hy]; intros n Hn; [done|].
  rewrite filter_cons. destruct n as [|n]; simpl in Hn.
  - simplify_eq. rewrite decide_False by lia. simpl. rewrite drop_0. apply list_filter_id.
    by rewrite Forall_forall in *.
  - rewrite decide_False; [by apply IH|]. rewrite Forall_forall in Hy.
    apply list_elem_of_lookup_2, Hy in Hn. lia.
Qed.

Lemma unread_ascending h a t : ascending (unread h a t).
Proof. apply filter_ascending, numbered_ascending. Qed.

Definition legible (h : Hosted) (a t : Z) : Prop :=
  Forall (fun row => readable row.2 = true) (unread h a t).

Lemma unread_after h a t n x : unread h a t !! n = Some x ->
  unread h x.1 t = drop (S n) (unread h a t).
Proof.
  intros Hn. rewrite <- (filter_drop _ _ _ (unread_ascending h a t) Hn).
  unfold unread. rewrite list_filter_filter. apply filter_iff. intros row _.
  apply list_elem_of_lookup_2, list_elem_of_filter in Hn as [[_ ?] _]. naive_solver lia.
Qed.

Lemma requireSequence_ok v : (0 <= v <= MAX_SAFE_INTEGER)%Z -> requireSequence v = Succeed v.
Proof. intros Hv. unfold requireSequence. by rewrite !bool_decide_eq_false_2 by lia. Qed.
Lemma pageLimit_ok bounds a t : (a <= t)%Z ->
  (1 <= default MAXIMUM_PAGE_ITEMS (limit bounds) <= MAXIMUM_PAGE_ITEMS)%Z ->
  pageLimit bounds a t = Succeed (default MAXIMUM_PAGE_ITEMS (limit bounds)).
Proof. intros Ht Hl. unfold pageLimit. by rewrite !bool_decide_eq_false_2 by lia. Qed.

(** A page is the first rows left; it names its last one when rows remain. *)
Lemma readInbox_page h a t limit :
  legible h a t -> (0 <= a <= t)%Z -> (t <= MAX_SAFE_INTEGER)%Z -> (1 <= limit <= MAXIMUM_PAGE_ITEMS)%Z ->
  exists n, n <= length (unread h a t) /\ (unread h a t <> [] -> 1 <= n) /\
    readInbox h (mkInboxBounds (Some a) (Some t) (Some limit)) =
    Succeed (mkInboxPage (entryOf <$> take n (unread h a t)) t
      (if decide (n < length (unread h a t)) then fst <$> unread h a t !! pred n else None)).
Proof.
  intros Hread Ha Ht Hlimit. unfold readInbox. cbn [StoreInbox.after StoreInbox.through StoreInbox.limit from_option id].
  do 2 (rewrite requireSequence_ok by lia; cbn [mbind exit_bind]).
  rewrite pageLimit_ok by (simpl; lia). cbn [mbind exit_bind StoreInbox.limit from_option id].
  set (rows := unread h a t). unfold collectPage.
  destruct (collect_prefix (take (Z.to_nat (limit + 1)) rows) limit [] 0) as (n & -> & Hn & Hl & Hone).
  { by apply Forall_take. }
  { simpl. lia. }
  cbn [app mbind exit_bind]. rewrite length_take in Hn. simpl in Hl.
  rewrite take_take, Nat.min_l by lia. exists n. split_and!; [lia| |].
  { intros Hne. apply Hone; [done| |lia]. destruct rows; [done|].
    replace (Z.to_nat (limit + 1)) with (S (Z.to_nat limit)) by lia. done. }
  do 2 f_equal. rewrite !length_fmap, !length_take, fmap_last.
  case_decide as Hmore.
  - destruct (last (take n rows)) as [x|] eqn:Hlast.
    + simpl. rewrite bool_decide_eq_true_2 by lia.
      rewrite last_lookup, length_take, Nat.min_l in Hlast by lia.
      rewrite lookup_take_lt in Hlast by (destruct n; [|lia]; by rewrite take_0 in Hlast).
      by rewrite Hlast.
    + exfalso. apply last_None in Hlast. assert (n = 0) as ->.
      { destruct n; [done|]. destruct rows; simpl in *; [lia|done]. }
      assert (1 <= 0); [|lia]. apply Hone; [done| |lia].
      destruct rows; simpl in *; [lia|]. by replace (Z.to_nat (limit + 1)) with (S (Z.to_nat limit)) by lia.
  - destruct (last (take n rows)); [|done]. simpl. by rewrite bool_decide_eq_false_2 by lia.
Qed.

(** ** Pages with operations between them *)

(** The items handed out, the store of the last page, and whether no item is
    left at or below the fixed position. *)
Record Reading := mkReading { handed : list InboxEntry; last_store : Hosted; finished : bool }.

(** Reading on from [after] up to a fixed position; [rounds] are the operations
    the store performs before each next page. *)
Fixpoint walk (h : Hosted) (after through limit : Z) (rounds : list (list HostOperation))
    : Exit EndpointStoreFailure Reading :=
  page ← readInbox h (mkInboxBounds (Some after) (Some through) (Some limit));
  match nextAfter page, rounds with
  | None, _ => Succeed (mkReading (items page) h true)
  | Some _, [] => Succeed (mkReading (items page) h false)
  | Some next, operations :: rest =>
    reading ← walk (runHosted operations h) next (page_through page) limit rest;
    Succeed (mkReading (items page ++ handed reading)%list (last_store reading) (finished reading))
  end.

(** The snapshot's rows keep their payload while the store goes on. *)
Lemma unread_kept h h' a t s row : grows h h' -> (t <= newestSequence h)%Z ->
  (s, row) ∈ unread h' a t ->
  exists row0, (s, row0) ∈ unread h a t /\ entryOf (s, row0) = entryOf (s, row).
Proof.
  intros Hg Ht [[Hack Hs] (i & -> & Hi)%elem_of_numbered]%list_elem_of_filter.
  simpl in *. unfold newestSequence in Ht.
  destruct (runtime_inbox h !! i) as [row0|] eqn:Hrow0; [|apply lookup_ge_None in Hrow0; lia].
  destruct (extends_lookup _ _ _ _ _ (g_inbox _ _ Hg) Hrow0) as (row' & Hrow' & Htoken & Hitem & Hguide & Hacked).
  rewrite Hi in Hrow'. injection Hrow' as <-. exists row0. split.
  - apply list_elem_of_filter. split; [|apply elem_of_numbered; eauto]. simpl. split; [|done].
    apply not_true_iff_false. intros ?%Hacked. congruence.
  - unfold entryOf. simpl. congruence.
Qed.

(** Fewer or as many rows are left at a later state. *)
Lemma unread_fewer h h' a t : grows h h' -> (t <= newestSequence h)%Z ->
  length (unread h' a t) <= length (unread h a t).
Proof.
  intros Hg Ht. rewrite <- (length_fmap fst (unread h' a t)), <- (length_fmap fst (unread h a t)).
  apply submseteq_length, NoDup_submseteq.
  - pose proof (unread_ascending h' a t) as Hasc. induction Hasc as [|x l _ IH Hx]; constructor; [|done].
    intros (y & Hy & Hin)%list_elem_of_fmap. rewrite Forall_forall in Hx. specialize (Hx y Hin). lia.
  - intros s ([s' row] & -> & Hin)%list_elem_of_fmap.
    destruct (unread_kept _ _ _ _ _ _ Hg Ht Hin) as (row0 & Hin0 & _).
    apply list_elem_of_fmap. by exists (s', row0).
Qed.

Lemma legible_kept h h' a t : grows h h' -> (t <= newestSequence h)%Z ->
  legible h a t -> legible h' a t.
Proof.
  intros Hg Ht. unfold legible. rewrite !Forall_forall. intros Hread [s row] Hin.
  destruct (unread_kept _ _ _ _ _ _ Hg Ht Hin) as (row0 & Hin0 & Hsame).
  specialize (Hread _ Hin0). simpl in *. unfold readable in *. unfold entryOf in Hsame.
  by injection Hsame as <- _ <-.
Qed.

Lemma take_sequences h a t n x e : unread h a t !! n = Some x -> e ∈ take (S n) (unread h a t) ->
  (e.1 <= x.1)%Z.
Proof.
  intros Hx He. pose proof (unread_ascending h a t) as Hasc.
  erewrite take_S_r in He by done. apply elem_of_app in He as [He|He]; [|by apply list_elem_of_singleton in He as ->].
  rewrite <- (take_drop n (unread h a t)) in Hasc. apply StronglySorted_app in Hasc as (Hlt & _).
  specialize (Hlt e x He). simpl in Hlt. apply Z.lt_le_incl, Hlt.
  apply list_elem_of_lookup. exists 0. by rewrite lookup_drop, Nat.add_0_r.
Qed.

Definition inOrder (entries : list InboxEntry) : Prop :=
  StronglySorted (fun x y => ie_sequence x < ie_sequence y)%Z entries.
Lemma entries_inOrder rows : ascending rows -> inOrder (entryOf <$> rows).
Proof.
  unfold ascending, inOrder. induction 1 as [|x l _ IH Hx]; simpl; constructor; [done|].
  rewrite Forall_forall in Hx. apply Forall_forall. intros e (y & -> & Hy)%list_elem_of_fmap. by apply Hx.
Qed.
Lemma ascending_take {A} n (rows : list (Z * A)) : ascending rows -> ascending (take n rows).
Proof.
  unfold ascending. intros Hasc. rewrite <- (take_drop n rows) in Hasc.
  by apply StronglySorted_app in Hasc as (_ & ? & _).
Qed.

Lemma walk_covers rounds h a t limit :
  wellFormed h -> legible h a t -> (0 <= a <= t)%Z -> (t <= newestSequence h)%Z ->
  (t <= MAX_SAFE_INTEGER)%Z -> (1 <= limit <= MAXIMUM_PAGE_ITEMS)%Z ->
  length (unread h a t) <= length rounds ->
  exists reading, walk h a t limit rounds = Succeed reading /\ finished reading = true /\
    grows h (last_store reading) /\ inOrder (handed reading) /\
    (forall e, e ∈ handed reading -> exists row, row ∈ unread h a t /\ e = entryOf row) /\
    (forall row, row ∈ unread (last_store reading) a t -> entryOf row ∈ handed reading).
Proof.
  revert h a. induction rounds as [|operations rest IH]; intros h a Hwf Hread Ha Ht Hsafe Hlimit Hlen;
    destruct (readInbox_page h a t limit Hread Ha Hsafe Hlimit) as (n & Hn & Hone & Hpage);
    cbn [walk]; rewrite Hpage; cbn [mbind exit_bind nextAfter items page_through];
    simpl in Hlen.
  all: assert (n = length (unread h a t) -> exists reading,
    Succeed (mkReading (entryOf <$> take n (unread h a t)) h true) = Succeed (E := EndpointStoreFailure) reading /\
    finished reading = true /\ grows h (last_store reading) /\ inOrder (handed reading) /\
    (forall e, e ∈ handed reading -> exists row, row ∈ unread h a t /\ e = entryOf row) /\
    (forall row, row ∈ unread (last_store reading) a t -> entryOf row ∈ handed reading)) as Hlast.
  1, 3: intros ->; eexists; split; [done|]; cbn [finished last_store handed];
    rewrite take_ge by done; split_and!;
      [done|done|apply entries_inOrder, unread_ascending|
       by intros e (row & -> & Hrow)%list_elem_of_fmap; eauto|
       by intros row Hrow; apply list_elem_of_fmap; eauto].
  - rewrite decide_False by lia. apply Hlast. lia.
  - case_decide as Hmore; [|apply Hlast; lia]. clear Hlast.
    destruct n as [|n]; [exfalso; destruct (unread h a t); simpl in *; [lia|]; assert (1 <= 0); [by apply Hone|lia]|].
    cbn [Init.Nat.pred]. destruct (lookup_lt_is_Some_2 (unread h a t) n) as [x Hx]; [lia|].
    rewrite Hx. cbn [fmap option_fmap option_map].
    set (h1 := runHosted operations h).
    destruct (runHosted_evolves operations h Hwf) as [Hwf1 Hg]. fold h1 in Hwf1, Hg.
    assert (x ∈ unread h a t) as Hxin by (by eapply list_elem_of_lookup_2).
    pose proof Hxin as [[_ Hxs] _]%list_elem_of_filter.
    pose proof (unread_after _ _ _ _ _ Hx) as Hafter.
    assert (legible h x.1 t) as Hread'.
    { unfold legible. rewrite Hafter. by apply Forall_drop. }
    assert (t <= newestSequence h1)%Z as Ht1.
    { pose proof (extends_length _ _ _ (g_inbox _ _ Hg)). unfold newestSequence in *. lia. }
    destruct (IH h1 x.1) as (reading & -> & Hdone & Hg1 & Hsorted & Hfrom & Hall);
      [done|by eapply legible_kept|lia|done|done|done| |].
    { etrans; [by eapply unread_fewer|]. rewrite Hafter, length_drop. lia. }
    cbn [mbind exit_bind]. eexists. split; [done|]. cbn [finished last_store handed].
    assert (forall e, e ∈ handed reading -> exists row, row ∈ unread h x.1 t /\ e = entryOf row) as Hfrom'.
    { intros e ([s row] & Hrow & ->)%Hfrom.
      destruct (unread_kept _ _ _ _ _ _ Hg Ht Hrow) as (row0 & Hrow0 & <-). eauto. }
    assert (grows h (last_store reading)) as Hgl by (by etrans).
    split_and!; [done|done| | |].
    + unfold inOrder. apply StronglySorted_app. split_and!; [|apply entries_inOrder, ascending_take, unread_ascending|done].
      intros e1 e2 (row1 & -> & Hrow1)%list_elem_of_fmap (row2 & Hrow2 & ->)%Hfrom'.
      pose proof (take_sequences _ _ _ _ _ _ Hx Hrow1).
      apply list_elem_of_filter in Hrow2 as [[_ ?] _]. simpl. lia.
    + intros e [(row & -> & Hrow)%list_elem_of_fmap|(row & Hrow & ->)%Hfrom']%elem_of_app.
      * exists row. split; [|done]. rewrite <- (take_drop (S n) (unread h a t)). apply elem_of_app. by left.
      * exists row. split; [|done]. rewrite Hafter in Hrow. rewrite <- (take_drop (S n) (unread h a t)).
        apply elem_of_app. by right.
    + intros [s row] Hrow. apply elem_of_app. destruct (decide (x.1 < s)%Z) as [Hlater|Hearlier].
      * right. apply Hall. apply list_elem_of_filter in Hrow as [[? ?] ?].
        apply list_elem_of_filter. split; [|done]. simpl in *. split; [done|lia].
      * left. destruct (unread_kept _ _ _ _ _ _ Hgl Ht Hrow) as (row0 & Hrow0 & <-).
        apply list_elem_of_fmap. exists (s, row0). split; [done|].
        rewrite <- (take_drop (S n) (unread h a t)) in Hrow0. apply elem_of_app in Hrow0 as [?|Hdrop]; [done|].
        rewrite <- Hafter in Hdrop. apply list_elem_of_filter in Hdrop as [[_ ?] _]. simpl in *. lia.
Qed.

(** C23: Reading the inbox to a fixed position ends and loses nothing.  When
    every item unread at the start is readable (its delivery token and its
    guidance decode), and with a round of operations before every next page,
    as many next pages as there are unread items at the start are enough; the items come in the order of their
    sequences, each once and as it was at the start, and every item still unread
    when the last page is read was handed out. *)
Theorem inbox_reads_out history limit rounds :
  let h := runHosted history createHosted in
  let through := newestSequence h in
  (through <= MAX_SAFE_INTEGER)%Z -> (1 <= limit <= MAXIMUM_PAGE_ITEMS)%Z ->
  legible h 0 through -> length (unread h 0 through) <= length rounds ->
  exists reading, walk h 0 through limit rounds = Succeed reading /\ finished reading = true /\
    inOrder (handed reading) /\
    (forall e, e ∈ handed reading -> exists row, row ∈ unread h 0 through /\ e = entryOf row) /\
    (forall row, row ∈ unread (last_store reading) 0 through -> entryOf row ∈ handed reading).
Proof.
  intros h through Hsafe Hlimit Hread Hlen.
  destruct (walk_covers rounds h 0 through limit) as (reading & Hrun & Hdone & _ & Hrest).
  - by apply runHosted_evolves, createHosted_wellFormed.
  - done.
  - unfold through, newestSequence. lia.
  - done.
  - done.
  - done.
  - done.
  - exists reading. split; [done|]. split; [done|exact Hrest].
Qed.

End pages.
End InboxPages.
