(* ===== verification/HostRuns.v ===== *)
(** HostRuns: a concrete history of a store with its runtime, on which the
    theorems about the firewall and the inbox are applied.

    The host posts once through a check; two items of the conversation are
    queued, the first shown by a check, the second by an admission without
    inference. *)
From S2P Require Import Prelude JsMap Identifiers Hosts StoredHistory StoreDatabase StoreAnchors.
From S2P Require Import EndpointStore StoreGrowth HostTables StoreFirewall HostLaws HostChecks.
From S2P Require Import HostOrder.
Local Open Scope string_scope.

Module HostRuns.
Import StoreDatabase StoreAnchors EndpointStore StoreGrowth HostTables StoreInbox StoreFirewall HostStore.
Import HostLaws HostChecks HostPosts HostOrder InboxPages.
#[local] Existing Instance Hosts.base64url.

Definition tokenOf (n : nat) : string := "dlv_" ++ Hosts.encode64 (Hosts.bytesOf 32 (Z.of_nat n)).
Definition token1 : string := Eval vm_compute in tokenOf 1.
Definition token2 : string := Eval vm_compute in tokenOf 2.

Definition noon (_ : string) : Z := 43200000.
Definition posted : PostIntentBinding := NewConversation StoreRuns.foundation StoreRuns.intent.

Definition posting : list HostOperation :=
  [ OnProtocol (BindIdentity StoreRuns.identity);
    BeginFirewallAttempt (mkAttempt "check 0" outgoing 0 "intent 1" "input 0");
    BindCheckedPostIntent noon posted (mkCompletion "check 0" "result 0" true false) ].
Definition queueing : list HostOperation :=
  [ QueueFirewallItem (mkFirewallItem token1 "c" "item 1" None);
    QueueFirewallItem (mkFirewallItem token2 "c" "item 2" (Some "provenance")) ].
Definition beginning : list HostOperation :=
  [ BeginFirewallAttempt (mkAttempt "check 1" incoming 1 "item 1" "input 1") ].
Definition admitting : HostOperation :=
  AdmitFirewallItem noon (mkInboxItem token1 "item 1" (Some "guidance"))
    (mkCompletion "check 1" "result 1" true false).
Definition presenting : HostOperation :=
  AdmitFirewallLocalItem noon
    (mkLocalAdmission "item 2" (mkInboxItem token2 "shown 2" None) []
       (Some (mkDeterministic "check 2" incoming "item 2" "input 2" "result 2")) [] "c" "entry 2").

Definition day : list HostOperation := (posting ++ queueing ++ beginning ++ [admitting; presenting])%list.

(** Every operation of the day succeeds; out of order, the second item is refused. *)
Example day_outcomes :
  (fun n => (performHosted (default Reopen (day !! n)) (runHosted (take n day) createHosted)).1) <$> seq 0 8 =
  replicate 8 None /\
  (performHosted presenting (runHosted (posting ++ queueing) createHosted)).1 = Some conflict.
Proof. vm_compute. split; reflexivity. Qed.

(** A post bound meanwhile makes the check stale. *)
Example stale_check :
  let late := (posting ++ queueing ++ [BeginFirewallAttempt (mkAttempt "check 1" incoming 0 "item 1" "input 1");
                 admitting])%list in
  fc_disposition <$> firewall_checks (runHosted late createHosted) = [check_admitted; check_stale].
Proof. vm_compute. reflexivity. Qed.

Lemma admitted_on_same_evidence_witness :
  let begun := runHosted (posting ++ queueing) createHosted in
  sameEvidence begun (runHosted beginning begun).
Proof.
  refine (admitted_on_same_evidence (posting ++ queueing) beginning admitting "check 1"
    (mkCheckRow "check 1" incoming 1 "item 1" "input 1" None checking None)
    (mkCheckRow "check 1" incoming 1 "item 1" "input 1" (Some "result 1") check_admitted (Some 43200000%Z))
    _ _ _ _ _ _); [vm_compute; reflexivity..|].
  apply Forall_cons. split; [done|apply Forall_nil_2].
Defined.

Lemma posts_need_admission_witness :
  exists operation, operation ∈ posting /\
    authorises (runHosted posting createHosted) ("a", "post 1") ("c", "members", "intent 1") operation.
Proof.
  apply (posts_need_admission posting).
  - repeat (apply Forall_cons; split; [reflexivity|]). apply Forall_nil_2.
  - vm_compute. reflexivity.
Defined.

Lemma day_firewalled : Forall (fun operation => firewalled operation = true) day.
Proof. repeat (apply Forall_cons; split; [reflexivity|]). apply Forall_nil_2. Qed.

Lemma store_runs_admission_witness :
  rtc admissionStep idle (mkAdmission [(token1, "c", queue_admitted); (token2, "c", queue_admitted)]
                            [token1; token2]).
Proof.
  replace (mkAdmission _ _) with (admissionOf (runHosted day createHosted)) by (vm_compute; reflexivity).
  apply (store_runs_admission day), day_firewalled.
Defined.

Lemma inbox_in_order_witness :
  let h := runHosted day createHosted in
  (fi_deliveryToken <$> firewall_incoming h = [token1; token2]) /\
  forall p q a b, runtime_inbox h !! p = Some a -> in_deliveryToken a = token1 ->
    runtime_inbox h !! q = Some b -> in_deliveryToken b = token2 -> p < q.
Proof.
  split; [vm_compute; reflexivity|]. intros p q a b Hp Ha Hq Hb.
  destruct (inbox_in_order day day_firewalled) as (_ & _ & _ & Horder).
  assert (exists x y, firewall_incoming (runHosted day createHosted) = [x; y] /\
    fi_deliveryToken x = token1 /\ fi_deliveryToken y = token2 /\ fi_conversation x = fi_conversation y)
    as (x & y & Hrows & Hx & Hy & Hc) by (do 2 eexists; vm_compute; split_and!; reflexivity).
  refine (Horder 0 1 x y p q a b _ _ _ Hc Hp _ Hq _); rewrite ?Hrows, ?Hx, ?Hy; [lia|done|done|done|done].
Defined.

(** The first page leaves one item; it is read after the host acknowledged the
    first. *)
Definition rounds : list (list HostOperation) := [[AcknowledgeInboxItem token1]; []].

Lemma legible_by_check h a t :
  forallb (fun row => readable row.2) (unread h a t) = true -> legible h a t.
Proof.
  rewrite forallb_forall. intros Hread. apply Forall_forall. intros row Hrow.
  by apply Hread, list_elem_of_In.
Qed.

Lemma inbox_reads_out_witness :
  let h := runHosted day createHosted in
  exists reading, walk h 0 (newestSequence h) 1 rounds = Succeed reading /\
    finished reading = true /\ ie_sequence <$> handed reading = [1; 2]%Z.
Proof.
  cbv zeta. destruct (inbox_reads_out day 1 rounds) as (reading & Hrun & Hdone & _ & _ & Hall).
  - assert (Z.leb (newestSequence (runHosted day createHosted)) MAX_SAFE_INTEGER = true) as Hle
      by (vm_compute; reflexivity). by apply Z.leb_le.
  - by vm_compute.
  - apply legible_by_check. vm_compute. reflexivity.
  - apply Nat.leb_le. vm_compute. reflexivity.
  - exists reading. split; [exact Hrun|]. split; [exact Hdone|].
    assert ((fun r => ie_sequence <$> handed r) <$> walk (runHosted day createHosted) 0
      (newestSequence (runHosted day createHosted)) 1 rounds = Succeed [1; 2]%Z) as Hread
      by (vm_compute; reflexivity).
    rewrite Hrun in Hread. exact (f_equal (default [] ∘ exit_option) Hread).
Defined.

End HostRuns.
