(* ===== verification/EngineRuntime.v ===== *)
(** EngineRuntime: the state one endpoint engine shares between its phases
    (packages/client/src/communication/conversations/runtime/index.ts), and
    the effects its phases run in.

    Conversations, folds, intents and latches are objects the code shares and
    mutates, so a [Map] holds references and a [World] holds the objects.  An
    [Engine] computation may fail, and may be interrupted between any two of
    its effects unless it runs inside [uninterruptible].

    Fences: the recovery fences that hold sends and ingress while a
    discontinuity is being recovered
    (packages/client/src/communication/conversations/recovery/barrier.ts).

    A fence is a [Deferred]; [fences] tells which have completed.  The one
    WeakMap entry of a runtime is its engine fence and its conversations'. *)
From S2P Require Import Prelude JsMap Identifiers Address SignedMessages RecordSchemas Records.
From S2P Require Import OuterBody StoreDatabase.

Module EngineRuntime.
Local Open Scope string_scope.
Import RecordSchemas Records OuterBody SendErrors.

(** ** Objects *)

(** A reference to an object: its index among the objects of its type. *)
Abbreviation Ref := nat (only parsing).

Section input.
Context `{Jose}.

(** The parts of [EndpointEngineInput] that never change. *)
Record EndpointEngineInput := mkInput {
  signer : Signer;
  registrySignerPublicKey : string;
  wireVersion : string;
}.

Definition localAgentCard (input : EndpointEngineInput) : AgentCards.AgentCard :=
  sg_agentCard (signer input).
Definition localAgentId (input : EndpointEngineInput) : string :=
  AgentCards.agentId (localAgentCard input).

End input.

(** [proposedActionHash] is the one field that changes. *)
Record EnginePostIntent := mkPostIntent {
  ep_intent : PostIntent;
  ep_canonicalIntent : string;
  ep_completion : Ref;
  ep_proposedActionHash : option string;
}.

Record EngineCertifiedHead := mkHead {
  ch_recordHash : string;
  ch_record : CertifiedRecord;
}.

(** [currentAnchor] and [head] change. *)
Record EngineConversation := mkConversation {
  ec_conversationId : string;
  ec_membership : VerifiedMembership;
  ec_currentAnchor : RouterAnchor;
  ec_head : option EngineCertifiedHead;
}.

Abbreviation EvidenceMap := (list (string * SignedMessages.SignedMessage)) (only parsing).

Record EngineActionFold := mkFold {
  fold_conversation : Ref;
  fold_action : ActionCore;
  fold_actionHash : string;
  fold_routerAnchor : RouterAnchor;
  fold_actionEvidence : EvidenceMap;
  fold_durabilityEvidence : EvidenceMap;
  localActionEvidenceQueued : bool;
  localDurabilityEvidenceQueued : bool;
  fold_recordHash : option string;
  certified : bool;
}.

Definition makeActionFold (conversation : Ref) (action : ActionCore) (actionHash : string)
    (routerAnchor : RouterAnchor) : EngineActionFold :=
  mkFold conversation action actionHash routerAnchor [] [] false false None false.

(** A Router delivery a phase is handed. *)
Record Ingress := mkIngress {
  routerInstanceId : string;
  outer : SignedMessages.SignedMessage;
  senderAgentCard : AgentCards.AgentCard;
  payload : DecodedOuterBody;
}.

Inductive RouterIngressDisposition := accepted | ignored.
Global Instance RouterIngressDisposition_eq_dec : EqDecision RouterIngressDisposition.
Proof. solve_decision. Defined.

(** ** The engine's state *)

(** One proposal whose resends the engine's scope runs. *)
Record LocalProposal := mkProposalTask {
  lp_conversation : Ref;
  lp_localIntent : Ref;
  lp_action : ActionCore;
  lp_actionHash : string;
}.

(** [conversations], [intents], [completedPosts], [actionFolds] and
    [recordFolds] are the runtime's maps.  The heaps hold its objects;
    [latches] the [Deferred]s sends wait on and [fences] those recovery
    installs.  [queued] and [signals] are the outbox's, [database] the
    endpoint store's.  [router] is the instance the Router worker is anchored
    to.  [draws] counts what the host has drawn at random, [signed] lists the
    evidence statements the agent's authority has signed, oldest first,
    [storageFaults] what was reported to the host, [resends] the proposals
    being resent, and [recovery] what the recovery run keeps for itself. *)
Record World {R : Type} := mkWorld {
  conversations : list (string * Ref);
  intents : list (string * Ref);
  completedPosts : list (string * string);
  actionFolds : list (string * Ref);
  recordFolds : list (string * Ref);
  conversationHeap : list EngineConversation;
  foldHeap : list EngineActionFold;
  intentHeap : list EnginePostIntent;
  latches : list (option (Exit SendError string));
  engineFence : option Ref;
  conversationFences : list (string * Ref);
  fences : list bool;
  queued : list string;
  signals : nat;
  database : StoreDatabase.Database;
  router : option string;
  draws : nat;
  signed : list EvidenceStatement;
  storageFaults : list StoreDatabase.EndpointStoreFailure;
  resends : list LocalProposal;
  recovery : R;
}.
Arguments World R : clear implicits.

(** ** Effects *)

Inductive Failure :=
  | Persistence                                     (** RouterWorkerPersistenceError *)
  | Representation                                  (** ClientRepresentationError *)
  | Store (e : StoreDatabase.EndpointStoreFailure)  (** EndpointStoreError *)
  | SendFailed (e : SendError)
  | Refused (reason : string).                      (** an error of the caller's own *)
Global Instance Failure_eq_dec : EqDecision Failure.
Proof. solve_decision. Defined.

(** [Dangling] is a read of an object that does not exist, which the code
    cannot do. *)
Inductive Outcome (A : Type) :=
  | Done (a : A)
  | Failed (e : Failure)
  | Interrupted
  | Dangling.
Arguments Done {A} a.
Arguments Failed {A} e.
Arguments Interrupted {A}.
Arguments Dangling {A}.

(** How many more interruptible effects run before an interruption; [None]
    when none comes. *)
Abbreviation Patience := (option nat) (only parsing).

Section effects.
Context {R : Type}.

(** [masked] inside [Effect.uninterruptible]. *)
Definition Engine (A : Type) : Type :=
  bool -> Patience -> World R -> Outcome A * Patience * World R.

(** An interruption lands between two effects. *)
Definition continue {B} (k : Engine B) : Engine B := fun masked patience w =>
  if masked then k masked patience w
  else match patience with
       | None => k masked None w
       | Some 0 => (Interrupted, patience, w)
       | Some (S n) => k masked (Some n) w
       end.

Global Instance engine_ret : MRet Engine := fun _ a _ patience w => (Done a, patience, w).
Global Instance engine_bind : MBind Engine := fun _ _ k m masked patience w =>
  match m masked patience w with
  | (Done a, patience', w') => continue (k a) masked patience' w'
  | (Failed e, patience', w') => (Failed e, patience', w')
  | (Interrupted, patience', w') => (Interrupted, patience', w')
  | (Dangling, patience', w') => (Dangling, patience', w')
  end.

Definition fail {A} (e : Failure) : Engine A := fun _ patience w => (Failed e, patience, w).
Definition gets {A} (f : World R -> A) : Engine A := fun _ patience w => (Done (f w), patience, w).
(** [Effect.sync]: one synchronous step. *)
Definition sync (f : World R -> World R) : Engine unit := fun _ patience w => (Done tt, patience, f w).
Definition syncWith {A} (f : World R -> A * World R) : Engine A := fun _ patience w =>
  let '(a, w') := f w in (Done a, patience, w').
Definition uninterruptible {A} (m : Engine A) : Engine A := fun _ patience w => m true patience w.

(** A computation that never ends on its own. *)
Definition never {A} : Engine A := fun _ patience w => (Interrupted, patience, w).

(** A read through a reference. *)
Definition deref {A} (o : option A) : Engine A := fun _ patience w =>
  (match o with Some a => Done a | None => Dangling end, patience, w).
(** A computation that has a representation or fails. *)
Definition ofOption {A} (e : Failure) (o : option A) : Engine A :=
  match o with Some a => mret a | None => fail e end.

(** [Effect.catchTag]s: [handler] picks the failures it handles. *)
Definition catch {A} (handler : Failure -> option (Engine A)) (m : Engine A) : Engine A :=
  fun masked patience w =>
    match m masked patience w with
    | (Failed e, patience', w') =>
        match handler e with
        | Some k => continue k masked patience' w'
        | None => (Failed e, patience', w')
        end
    | result => result
    end.
Definition mapError {A} (f : Failure -> Failure) (m : Engine A) : Engine A :=
  catch (fun e => Some (fail (f e))) m.

(** [Effect.onExit], whose finalizer is never interrupted, and
    [Effect.uninterruptibleMask], which hands the region's own mask to
    [restore]. *)
Definition onExit {A} (finalizer : Outcome A -> Engine unit) (m : Engine A) : Engine A :=
  fun masked patience w =>
    match m masked patience w with
    | (Dangling, patience', w') => (Dangling, patience', w')
    | (outcome, patience', w') =>
        match finalizer outcome true patience' w' with
        | (Done _, patience'', w'') => (outcome, patience'', w'')
        | (Failed e, patience'', w'') => (Failed e, patience'', w'')
        | (Interrupted, patience'', w'') => (Interrupted, patience'', w'')
        | (Dangling, patience'', w'') => (Dangling, patience'', w'')
        end
    end.
Definition uninterruptibleMask {A} (m : (forall B, Engine B -> Engine B) -> Engine A) : Engine A :=
  fun masked patience w => m (fun B n _ => n masked) true patience w.

Fixpoint forEach {A} (f : A -> Engine unit) (l : list A) : Engine unit :=
  match l with [] => mret tt | a :: l' => f a ;; forEach f l' end.
Fixpoint mapEach {A B} (f : A -> Engine B) (l : list A) : Engine (list B) :=
  match l with [] => mret [] | a :: l' => b ← f a; bs ← mapEach f l'; mret (b :: bs) end.

End effects.

(** ** Steps on the state *)

Section setters.
Context {R : Type}.

Definition set_conversations f (w : World R) : World R := mkWorld R (f (conversations w))
  (intents w) (completedPosts w) (actionFolds w) (recordFolds w) (conversationHeap w)
  (foldHeap w) (intentHeap w) (latches w) (engineFence w) (conversationFences w) (fences w)
  (queued w) (signals w) (database w) (router w) (draws w) (signed w) (storageFaults w)
  (resends w) (recovery w).
Definition set_intents f (w : World R) : World R := mkWorld R (conversations w) (f (intents w))
  (completedPosts w) (actionFolds w) (recordFolds w) (conversationHeap w) (foldHeap w)
  (intentHeap w) (latches w) (engineFence w) (conversationFences w) (fences w) (queued w)
  (signals w) (database w) (router w) (draws w) (signed w) (storageFaults w) (resends w)
  (recovery w).
Definition set_completedPosts f (w : World R) : World R := mkWorld R (conversations w)
  (intents w) (f (completedPosts w)) (actionFolds w) (recordFolds w) (conversationHeap w)
  (foldHeap w) (intentHeap w) (latches w) (engineFence w) (conversationFences w) (fences w)
  (queued w) (signals w) (database w) (router w) (draws w) (signed w) (storageFaults w)
  (resends w) (recovery w).
Definition set_actionFolds f (w : World R) : World R := mkWorld R (conversations w) (intents w)
  (completedPosts w) (f (actionFolds w)) (recordFolds w) (conversationHeap w) (foldHeap w)
  (intentHeap w) (latches w) (engineFence w) (conversationFences w) (fences w) (queued w)
  (signals w) (database w) (router w) (draws w) (signed w) (storageFaults w) (resends w)
  (recovery w).
Definition set_recordFolds f (w : World R) : World R := mkWorld R (conversations w) (intents w)
  (completedPosts w) (actionFolds w) (f (recordFolds w)) (conversationHeap w) (foldHeap w)
  (intentHeap w) (latches w) (engineFence w) (conversationFences w) (fences w) (queued w)
  (signals w) (database w) (router w) (draws w) (signed w) (storageFaults w) (resends w)
  (recovery w).
Definition set_conversationHeap f (w : World R) : World R := mkWorld R (conversations w)
  (intents w) (completedPosts w) (actionFolds w) (recordFolds w) (f (conversationHeap w))
  (foldHeap w) (intentHeap w) (latches w) (engineFence w) (conversationFences w) (fences w)
  (queued w) (signals w) (database w) (router w) (draws w) (signed w) (storageFaults w)
  (resends w) (recovery w).
Definition set_foldHeap f (w : World R) : World R := mkWorld R (conversations w) (intents w)
  (completedPosts w) (actionFolds w) (recordFolds w) (conversationHeap w) (f (foldHeap w))
  (intentHeap w) (latches w) (engineFence w) (conversationFences w) (fences w) (queued w)
  (signals w) (database w) (router w) (draws w) (signed w) (storageFaults w) (resends w)
  (recovery w).
Definition set_intentHeap f (w : World R) : World R := mkWorld R (conversations w) (intents w)
  (completedPosts w) (actionFolds w) (recordFolds w) (conversationHeap w) (foldHeap w)
  (f (intentHeap w)) (latches w) (engineFence w) (conversationFences w) (fences w) (queued w)
  (signals w) (database w) (router w) (draws w) (signed w) (storageFaults w) (resends w)
  (recovery w).
Definition set_latches f (w : World R) : World R := mkWorld R (conversations w) (intents w)
  (completedPosts w) (actionFolds w) (recordFolds w) (conversationHeap w) (foldHeap w)
  (intentHeap w) (f (latches w)) (engineFence w) (conversationFences w) (fences w) (queued w)
  (signals w) (database w) (router w) (draws w) (signed w) (storageFaults w) (resends w)
  (recovery w).
Definition set_engineFence f (w : World R) : World R := mkWorld R (conversations w) (intents w)
  (completedPosts w) (actionFolds w) (recordFolds w) (conversationHeap w) (foldHeap w)
  (intentHeap w) (latches w) (f (engineFence w)) (conversationFences w) (fences w) (queued w)
  (signals w) (database w) (router w) (draws w) (signed w) (storageFaults w) (resends w)
  (recovery w).
Definition set_conversationFences f (w : World R) : World R := mkWorld R (conversations w)
  (intents w) (completedPosts w) (actionFolds w) (recordFolds w) (conversationHeap w)
  (foldHeap w) (intentHeap w) (latches w) (engineFence w) (f (conversationFences w)) (fences w)
  (queued w) (signals w) (database w) (router w) (draws w) (signed w) (storageFaults w)
  (resends w) (recovery w).
Definition set_fences f (w : World R) : World R := mkWorld R (conversations w) (intents w)
  (completedPosts w) (actionFolds w) (recordFolds w) (conversationHeap w) (foldHeap w)
  (intentHeap w) (latches w) (engineFence w) (conversationFences w) (f (fences w)) (queued w)
  (signals w) (database w) (router w) (draws w) (signed w) (storageFaults w) (resends w)
  (recovery w).
Definition set_queued f (w : World R) : World R := mkWorld R (conversations w) (intents w)
  (completedPosts w) (actionFolds w) (recordFolds w) (conversationHeap w) (foldHeap w)
  (intentHeap w) (latches w) (engineFence w) (conversationFences w) (fences w) (f (queued w))
  (signals w) (database w) (router w) (draws w) (signed w) (storageFaults w) (resends w)
  (recovery w).
Definition set_signals f (w : World R) : World R := mkWorld R (conversations w) (intents w)
  (completedPosts w) (actionFolds w) (recordFolds w) (conversationHeap w) (foldHeap w)
  (intentHeap w) (latches w) (engineFence w) (conversationFences w) (fences w) (queued w)
  (f (signals w)) (database w) (router w) (draws w) (signed w) (storageFaults w) (resends w)
  (recovery w).
Definition set_database f (w : World R) : World R := mkWorld R (conversations w) (intents w)
  (completedPosts w) (actionFolds w) (recordFolds w) (conversationHeap w) (foldHeap w)
  (intentHeap w) (latches w) (engineFence w) (conversationFences w) (fences w) (queued w)
  (signals w) (f (database w)) (router w) (draws w) (signed w) (storageFaults w) (resends w)
  (recovery w).
Definition set_router f (w : World R) : World R := mkWorld R (conversations w) (intents w)
  (completedPosts w) (actionFolds w) (recordFolds w) (conversationHeap w) (foldHeap w)
  (intentHeap w) (latches w) (engineFence w) (conversationFences w) (fences w) (queued w)
  (signals w) (database w) (f (router w)) (draws w) (signed w) (storageFaults w) (resends w)
  (recovery w).
Definition set_draws f (w : World R) : World R := mkWorld R (conversations w) (intents w)
  (completedPosts w) (actionFolds w) (recordFolds w) (conversationHeap w) (foldHeap w)
  (intentHeap w) (latches w) (engineFence w) (conversationFences w) (fences w) (queued w)
  (signals w) (database w) (router w) (f (draws w)) (signed w) (storageFaults w) (resends w)
  (recovery w).
Definition set_signed f (w : World R) : World R := mkWorld R (conversations w) (intents w)
  (completedPosts w) (actionFolds w) (recordFolds w) (conversationHeap w) (foldHeap w)
  (intentHeap w) (latches w) (engineFence w) (conversationFences w) (fences w) (queued w)
  (signals w) (database w) (router w) (draws w) (f (signed w)) (storageFaults w) (resends w)
  (recovery w).
Definition set_storageFaults f (w : World R) : World R := mkWorld R (conversations w) (intents w)
  (completedPosts w) (actionFolds w) (recordFolds w) (conversationHeap w) (foldHeap w)
  (intentHeap w) (latches w) (engineFence w) (conversationFences w) (fences w) (queued w)
  (signals w) (database w) (router w) (draws w) (signed w) (f (storageFaults w)) (resends w)
  (recovery w).
Definition set_resends f (w : World R) : World R := mkWorld R (conversations w) (intents w)
  (completedPosts w) (actionFolds w) (recordFolds w) (conversationHeap w) (foldHeap w)
  (intentHeap w) (latches w) (engineFence w) (conversationFences w) (fences w) (queued w)
  (signals w) (database w) (router w) (draws w) (signed w) (storageFaults w) (f (resends w))
  (recovery w).
Definition set_recovery f (w : World R) : World R := mkWorld R (conversations w) (intents w)
  (completedPosts w) (actionFolds w) (recordFolds w) (conversationHeap w) (foldHeap w)
  (intentHeap w) (latches w) (engineFence w) (conversationFences w) (fences w) (queued w)
  (signals w) (database w) (router w) (draws w) (signed w) (storageFaults w) (resends w)
  (f (recovery w)).

End setters.
(** *** Objects *)

Definition set_currentAnchor (anchor : RouterAnchor) (c : EngineConversation) : EngineConversation :=
  mkConversation (ec_conversationId c) (ec_membership c) anchor (ec_head c).
Definition set_head (head : EngineCertifiedHead) (c : EngineConversation) : EngineConversation :=
  mkConversation (ec_conversationId c) (ec_membership c) (ec_currentAnchor c) (Some head).
Definition set_proposedActionHash (actionHash : string) (i : EnginePostIntent) : EnginePostIntent :=
  mkPostIntent (ep_intent i) (ep_canonicalIntent i) (ep_completion i) (Some actionHash).

Definition set_actionEvidence (g : EvidenceMap -> EvidenceMap) (f : EngineActionFold) :=
  mkFold (fold_conversation f) (fold_action f) (fold_actionHash f) (fold_routerAnchor f)
    (g (fold_actionEvidence f)) (fold_durabilityEvidence f) (localActionEvidenceQueued f)
    (localDurabilityEvidenceQueued f) (fold_recordHash f) (certified f).
Definition set_durabilityEvidence (g : EvidenceMap -> EvidenceMap) (f : EngineActionFold) :=
  mkFold (fold_conversation f) (fold_action f) (fold_actionHash f) (fold_routerAnchor f)
    (fold_actionEvidence f) (g (fold_durabilityEvidence f)) (localActionEvidenceQueued f)
    (localDurabilityEvidenceQueued f) (fold_recordHash f) (certified f).
Definition set_localActionEvidenceQueued (f : EngineActionFold) :=
  mkFold (fold_conversation f) (fold_action f) (fold_actionHash f) (fold_routerAnchor f)
    (fold_actionEvidence f) (fold_durabilityEvidence f) true
    (localDurabilityEvidenceQueued f) (fold_recordHash f) (certified f).
Definition set_localDurabilityEvidenceQueued (f : EngineActionFold) :=
  mkFold (fold_conversation f) (fold_action f) (fold_actionHash f) (fold_routerAnchor f)
    (fold_actionEvidence f) (fold_durabilityEvidence f) (localActionEvidenceQueued f)
    true (fold_recordHash f) (certified f).
Definition set_recordHash (recordHash : string) (f : EngineActionFold) :=
  mkFold (fold_conversation f) (fold_action f) (fold_actionHash f) (fold_routerAnchor f)
    (fold_actionEvidence f) (fold_durabilityEvidence f) (localActionEvidenceQueued f)
    (localDurabilityEvidenceQueued f) (Some recordHash) (certified f).
Definition set_certified (f : EngineActionFold) :=
  mkFold (fold_conversation f) (fold_action f) (fold_actionHash f) (fold_routerAnchor f)
    (fold_actionEvidence f) (fold_durabilityEvidence f) (localActionEvidenceQueued f)
    (localDurabilityEvidenceQueued f) (fold_recordHash f) true.

Section kernel.
Context {R : Type}.
#[local] Abbreviation World := (World R).
#[local] Abbreviation Engine := (@Engine R).

Definition conversationAt (r : Ref) : Engine EngineConversation :=
  c ← gets (fun w => conversationHeap w !! r); deref c.
Definition foldAt (r : Ref) : Engine EngineActionFold :=
  f ← gets (fun w => foldHeap w !! r); deref f.
Definition intentAt (r : Ref) : Engine EnginePostIntent :=
  i ← gets (fun w => intentHeap w !! r); deref i.

Definition updateConversation (r : Ref) (g : EngineConversation -> EngineConversation) (w : World) :=
  set_conversationHeap (alter g r) w.
Definition updateFold (r : Ref) (g : EngineActionFold -> EngineActionFold) (w : World) :=
  set_foldHeap (alter g r) w.
Definition updateIntent (r : Ref) (g : EnginePostIntent -> EnginePostIntent) (w : World) :=
  set_intentHeap (alter g r) w.

(** One store operation: a transaction of its own. *)
Definition store {A} (operation : StoreDatabase.Database ->
    Exit StoreDatabase.EndpointStoreFailure A * StoreDatabase.Database) : Engine A :=
  fun _ patience w =>
    let '(result, db) := operation (database w) in
    (match result with Succeed a => Done a | Fail_ e => Failed (Store e) end, patience,
     set_database (fun _ => db) w).

(** [Deferred.make], [Deferred.succeed] and [Deferred.fail]: a latch keeps its
    first result. *)
Definition makeLatch : Engine Ref :=
  r ← gets (fun w => length (latches w)); sync (set_latches (fun l => (l ++ [None])%list)) ;; mret r.
Definition settleLatch (r : Ref) (exit : Exit SendError string) : Engine unit :=
  sync (set_latches (alter (fun state =>
    match state with None => Some exit | Some _ => state end) r)).

(** The next of what the host draws at random. *)
Definition draw : Engine nat := n ← gets draws; sync (set_draws S) ;; mret n.

(** ** Evidence routes *)

Inductive Role := RoleAction | RoleDurability.
Record EvidenceRoute := mkRoute { route_fold : Ref; route_kind : Role }.

(** The conversation a statement names, and its active fold; a fold's
    conversation is read through its reference. *)
Definition evidenceTarget (s : EvidenceStatement) : Engine (option string * option EvidenceRoute) :=
  match s with
  | ActionSignature _ _ actionHash =>
      found ← gets (fun w => jm_get (actionFolds w) actionHash);
      match found with
      | None => mret (None, None)
      | Some fold =>
          f ← foldAt fold;
          c ← conversationAt (fold_conversation f);
          mret (Some (ec_conversationId c), Some (mkRoute fold RoleAction))
      end
  | DurabilityVote _ _ conversation _ recordHash =>
      found ← gets (fun w => jm_get (recordFolds w) recordHash);
      mret (Some conversation, (fun fold => mkRoute fold RoleDurability) <$> found)
  | ReanchorVote _ _ _ reanchor => mret (Some (rb_conversationId reanchor), None)
  | CatchUpAttestation _ _ request _ _ _ => mret (Some (cr_conversationId request), None)
  end.

Definition evidenceMatchesFold (kind : Role) (fold : EngineActionFold)
    (conversation : EngineConversation) (s : EvidenceStatement) : bool :=
  match kind, s with
  | RoleAction, ActionSignature _ _ actionHash => bool_decide (actionHash = fold_actionHash fold)
  | RoleDurability, DurabilityVote _ _ conversationId membershipHash recordHash =>
      bool_decide (Some recordHash = fold_recordHash fold) &&
      bool_decide (conversationId = ec_conversationId conversation) &&
      bool_decide (membershipHash = hash (ec_membership conversation))
  | _, _ => false
  end.

End kernel.
End EngineRuntime.

(** The operations one phase starts in another (runtime/index.ts).  Recovery
    offers its own to the others; certification takes them with send's. *)
Class RecoveryPhase (R : Type) := {
  rearmCatchUp : string -> EngineRuntime.Engine (R := R) unit;
  recoveryHeadAdvanced : string -> EngineRuntime.Engine (R := R) unit;
}.
Class EnginePhases (R : Type) := {
  proposeIntent : EngineRuntime.Ref -> EngineRuntime.Engine (R := R) string;
  headAdvanced : string -> EngineRuntime.Engine (R := R) unit;
}.

Module Fences.
Import EngineRuntime.

Section fences.
Context {R : Type}.
#[local] Abbreviation World := (World R).
#[local] Abbreviation Engine := (@Engine R).

(** [Deferred.make] and [Deferred.succeed] of a fence. *)
Definition makeFence : Engine Ref :=
  r ← gets (fun w => length (fences w)); sync (set_fences (fun l => (l ++ [false])%list)) ;; mret r.
Definition completeFence (fence : Ref) : Engine unit :=
  sync (set_fences (alter (fun _ => true) fence)).

(** [Deferred.await]: one that has not completed holds its fiber. *)
Definition awaitFence (fence : Ref) : Engine unit :=
  completed ← gets (fun w => fences w !! fence);
  match completed with Some true => mret tt | Some false => never | None => deref None end.

Definition installRecoveryBarrier : Engine unit :=
  installed ← gets engineFence;
  match installed with
  | Some _ => mret tt
  | None =>
      barrier ← makeFence;
      sync (set_engineFence (fun e => Some (default barrier e)))
  end.

Definition currentRecoveryBarrier (w : World) : option Ref := engineFence w.

(** The fence is removed in one step and completed in the next. *)
Definition completeRecoveryBarrier (barrier : Ref) : Engine unit :=
  removed ← syncWith (fun w =>
    if decide (engineFence w = Some barrier) then (true, set_engineFence (fun _ => None) w)
    else (false, w));
  if (removed : bool) then completeFence barrier else mret tt.

Definition fenceConversation (conversationId : string) : Engine unit :=
  fence ← makeFence;
  sync (set_conversationFences (fun m =>
    if jm_has m conversationId then m else jm_set m conversationId fence)).

Definition releaseConversation (conversationId : string) : Engine unit :=
  released ← syncWith (fun w =>
    (jm_get (conversationFences w) conversationId,
     set_conversationFences (fun m => jm_delete m conversationId) w));
  match (released : option Ref) with None => mret tt | Some fence => completeFence fence end.

(** The fence the traffic of a conversation waits behind. *)
Definition pendingRecoveryFence (w : World) (conversationId : string) : option Ref :=
  match engineFence w with
  | Some barrier => Some barrier
  | None => jm_get (conversationFences w) conversationId
  end.

Definition isRecovering (w : World) (conversationId : string) : bool :=
  bool_decide (pendingRecoveryFence w conversationId <> None).

End fences.
End Fences.
