(* ===== verification/EngineInvariants.v ===== *)
(** EngineInvariants: the shape of an engine's state, how it evolves while the
    engine runs, and what a computation of another phase may change.

    EngineLogic: how an engine computation is reasoned about.  A judgement
    [step P m Q] holds of a computation that, from a state of the invariant
    where [P] holds, keeps the invariant and moves the state along [G] however
    it ends (done, failed or interrupted), never reads a missing object, and
    establishes [Q] when it is done.  A fact that [G] preserves is carried
    past a computation. *)
From S2P Require Import Prelude JsMap Address SignedMessages RecordSchemas Records StoreDatabase.
From S2P Require Import StoreLocks EngineRuntime.

Module EngineLogic.
Import EngineRuntime.

Section logic.
Context {R : Type}.
Abbreviation World := (World R).
Abbreviation Engine := (@Engine R).
Context (Inv : World -> Prop) (G : World -> World -> Prop).

Definition ends {A} (w : World) (Q : A -> World -> Prop)
    (result : Outcome A * option nat * World) : Prop :=
  let '(outcome, _, w') := result in
  match outcome with
  | Done a => Inv w' /\ G w w' /\ Q a w'
  | Failed _ | Interrupted => Inv w' /\ G w w'
  | Dangling => False
  end.

Definition step {A} (P : World -> Prop) (m : Engine A) (Q : A -> World -> Prop) : Prop :=
  forall masked patience w, Inv w -> P w -> ends w Q (m masked patience w).

(** Facts that last while the engine runs. *)
Definition stable (P : World -> Prop) : Prop := forall w w', G w w' -> P w -> P w'.

Context `{!PreOrder G}.

Lemma stable_true : stable (fun _ : World => True).
Proof. by intros ???. Qed.
Lemma stable_pure (phi : Prop) : stable (fun _ => phi).
Proof. by intros ???. Qed.
Lemma stable_and P Q : stable P -> stable Q -> stable (fun w => P w /\ Q w).
Proof. intros HP HQ w w' Hg [??]. eauto. Qed.

(** *** Rules *)

Lemma step_weaken {A} (P P' : World -> Prop) (m : Engine A) (Q Q' : A -> World -> Prop) :
  step P m Q -> (forall w, Inv w -> P' w -> P w) -> (forall a w, Inv w -> Q a w -> Q' a w) -> step P' m Q'.
Proof.
  intros Hm HP HQ masked patience w Hw Hp. specialize (Hm masked patience w Hw (HP w Hw Hp)).
  destruct (m masked patience w) as [[[] ?] ?]; simpl in *; naive_solver.
Qed.

Lemma step_pre {A} (P P' : World -> Prop) (m : Engine A) Q :
  step P m Q -> (forall w, Inv w -> P' w -> P w) -> step P' m Q.
Proof. intros Hm HP. by eapply step_weaken. Qed.

Lemma step_frame {A} (P F : World -> Prop) (m : Engine A) Q :
  stable F -> step P m Q -> step (fun w => P w /\ F w) m (fun a w => Q a w /\ F w).
Proof.
  intros HF Hm masked patience w Hw [Hp Hf]. specialize (Hm masked patience w Hw Hp).
  destruct (m masked patience w) as [[[] ?] ?]; simpl in *; naive_solver.
Qed.

Lemma ends_continue {B} (P : World -> Prop) (k : Engine B) w w' (Q : B -> World -> Prop)
    masked patience :
  step P k Q -> Inv w' -> G w w' -> P w' -> ends w Q (continue k masked patience w').
Proof.
  intros Hk Hi Hg Hp. unfold continue.
  assert (forall masked patience, ends w Q (k masked patience w')) as Hend.
  { intros masked' patience'. specialize (Hk masked' patience' w' Hi Hp).
    destruct (k masked' patience' w') as [[[] ?] ?]; simpl in *; try done;
      destruct_and?; split_and!; try done; by etrans. }
  destruct masked; [apply Hend|]. destruct patience as [[|n]|]; [by split|apply Hend|apply Hend].
Qed.

Lemma step_bind {A B} (P : World -> Prop) (m : Engine A) (k : A -> Engine B) Q S :
  step P m Q -> (forall a, step (Q a) (k a) S) -> step P (m ≫= k) S.
Proof.
  intros Hm Hk masked patience w Hw Hp. specialize (Hm masked patience w Hw Hp).
  unfold mbind, engine_bind. destruct (m masked patience w) as [[[a|e| |] patience'] w'];
    simpl in *; try done. destruct Hm as (Hi & Hg & Hq). by eapply ends_continue.
Qed.

(** The usual cut: what held before [m] still holds after it. *)
Lemma step_seq {A B} (P : World -> Prop) (m : Engine A) (k : A -> Engine B) Q S :
  stable P -> step P m Q -> (forall a, step (fun w => Q a w /\ P w) (k a) S) ->
  step P (m ≫= k) S.
Proof.
  intros HP Hm Hk. eapply step_bind; [|exact Hk].
  eapply step_pre; [by apply (step_frame P P m Q)|]. naive_solver.
Qed.

Lemma step_ret {A} (a : A) (P : World -> Prop) Q : (forall w, Inv w -> P w -> Q a w) ->
  step P (mret a) Q.
Proof. intros HQ masked patience w Hw Hp. split_and!; [done|reflexivity|auto]. Qed.

Lemma step_fail {A} (e : Failure) (P : World -> Prop) (Q : A -> World -> Prop) : step P (fail e) Q.
Proof. intros masked patience w Hw Hp. by split. Qed.
Lemma step_never {A} (P : World -> Prop) (Q : A -> World -> Prop) : step P never Q.
Proof. intros masked patience w Hw Hp. by split. Qed.

Lemma step_gets {A} (f : World -> A) P Q : (forall w, Inv w -> P w -> Q (f w) w) ->
  step P (gets f) Q.
Proof. intros HQ masked patience w Hw Hp. split_and!; [done|reflexivity|auto]. Qed.

Lemma step_deref {A} (o : option A) P Q :
  (forall w, Inv w -> P w -> exists a, o = Some a /\ Q a w) -> step P (deref o) Q.
Proof.
  intros HQ masked patience w Hw Hp. destruct (HQ w Hw Hp) as (a & -> & Hq).
  simpl. by split_and!.
Qed.

Lemma step_ofOption {A} e (o : option A) (P : World -> Prop) Q :
  (forall a w, o = Some a -> Inv w -> P w -> Q a w) -> step P (ofOption e o) Q.
Proof.
  intros HQ. destruct o as [a|]; simpl; [|apply step_fail]. apply step_ret. eauto.
Qed.

Lemma step_syncWith {A} (f : World -> A * World) (P : World -> Prop) Q :
  (forall w, Inv w -> P w -> Inv (f w).2 /\ G w (f w).2 /\ Q (f w).1 (f w).2) ->
  step P (syncWith f) Q.
Proof.
  intros Hf masked patience w Hw Hp. specialize (Hf w Hw Hp). unfold syncWith.
  by destruct (f w).
Qed.

Lemma step_sync (f : World -> World) (P : World -> Prop) (Q : unit -> World -> Prop) :
  (forall w, Inv w -> P w -> Inv (f w) /\ G w (f w) /\ Q tt (f w)) -> step P (sync f) Q.
Proof. intros Hf masked patience w Hw Hp. by apply Hf. Qed.

Lemma step_uninterruptible {A} (m : Engine A) P Q : step P m Q -> step P (uninterruptible m) Q.
Proof. intros Hm masked patience w. apply Hm. Qed.

Lemma step_catch {A} handler (m : Engine A) (P : World -> Prop) Q :
  stable P -> step P m Q -> (forall e k, handler e = Some k -> step P k Q) ->
  step P (catch handler m) Q.
Proof.
  intros HP Hm Hk masked patience w Hw Hp. specialize (Hm masked patience w Hw Hp).
  unfold catch. destruct (m masked patience w) as [[[a|e| |] patience'] w']; simpl in *; try done.
  destruct Hm as (Hi & Hg). destruct (handler e) as [k|] eqn:He; [|by split].
  eapply ends_continue; [by eapply Hk|done|done|by eapply HP].
Qed.

Lemma step_mapError {A} f (m : Engine A) (P : World -> Prop) Q :
  stable P -> step P m Q -> step P (mapError f m) Q.
Proof. intros HP Hm. apply step_catch; [done..|]. intros e k. injection 1 as <-. apply step_fail. Qed.

Lemma step_forEach {A} (f : A -> Engine unit) (l : list A) (P : World -> Prop) :
  stable P -> (forall a, a ∈ l -> step P (f a) (fun _ _ => True)) ->
  step P (forEach f l) (fun _ _ => True).
Proof.
  intros HP Hf. induction l as [|a l IH]; simpl; [by apply step_ret|].
  eapply step_seq; [done|by apply Hf, list_elem_of_here|]. intros [].
  eapply step_pre; [apply IH|naive_solver]. intros b Hb. by apply Hf, list_elem_of_further.
Qed.

Lemma step_mapEach {A B} (f : A -> Engine B) (l : list A) (P : World -> Prop)
    (Q : A -> B -> Prop) :
  stable P -> (forall a, a ∈ l -> step P (f a) (fun b _ => Q a b)) ->
  step P (mapEach f l) (fun bs _ => Forall2 Q l bs).
Proof.
  intros HP Hf. induction l as [|a l IH]; simpl; [apply step_ret; by constructor|].
  eapply step_seq; [done|by apply Hf, list_elem_of_here|]. intros b.
  eapply step_seq; [apply stable_and; [apply stable_pure|done]| |].
  { eapply step_pre; [apply IH|naive_solver]. intros x Hx. by apply Hf, list_elem_of_further. }
  intros bs. apply step_ret. intros w _ (Hbs & Hb & _). by constructor.
Qed.

(** One store operation: what a success leaves, and that a failure leaves
    nothing. *)
Lemma step_store {A} operation (P : World -> Prop) (Q : A -> World -> Prop) :
  (forall (w : World) e db, operation (database w) = (Fail_ e, db) -> db = database w) ->
  (forall (w : World) a db, Inv w -> P w -> operation (database w) = (Succeed a, db) ->
     let w' := set_database (fun _ => db) w in Inv w' /\ G w w' /\ Q a w') ->
  step P (store operation) Q.
Proof.
  intros Hfail Hok masked patience w Hw Hp. unfold store.
  destruct (operation (database w)) as [[a|e] db] eqn:Hop; simpl; [by apply Hok|].
  apply Hfail in Hop as ->. destruct w. by split.
Qed.

(** A store operation and the update that reflects it, in one piece: the
    invariant need not hold in between. *)
Lemma step_atomic {A} operation (f : World -> World) (P : World -> Prop) (Q : unit -> World -> Prop) :
  (forall (w : World) e db, operation (database w) = (Fail_ e, db) -> db = database w) ->
  (forall (w : World) (a : A) db, Inv w -> P w -> operation (database w) = (Succeed a, db) ->
     let w' := f (set_database (fun _ => db) w) in Inv w' /\ G w w' /\ Q tt w') ->
  step P (uninterruptible (store operation ;; sync f)) Q.
Proof.
  intros Hfail Hok masked patience w Hw Hp. unfold uninterruptible, mbind, engine_bind, store.
  destruct (operation (database w)) as [[a|e] db] eqn:Hop; simpl; [by eapply Hok|].
  apply Hfail in Hop as ->. destruct w. by split.
Qed.

(** A fact of the values at hand is taken out. *)
Lemma step_assume {A} (phi : Prop) (P : World -> Prop) (m : Engine A) Q :
  (phi -> step P m Q) -> step (fun w => P w /\ phi) m Q.
Proof. intros Hm masked patience w Hw [Hp Hphi]. by apply Hm. Qed.

(** Computations that change nothing keep even what does not last. *)
Lemma step_mapReads {A B} (f : A -> Engine B) (l : list A) (P : World -> Prop) (Q : A -> B -> Prop) :
  (forall a (S : World -> Prop), step S (f a) (fun b w => S w /\ Q a b)) ->
  step P (mapEach f l) (fun bs w => P w /\ Forall2 Q l bs).
Proof.
  intros Hf. revert P. induction l as [|a l IH]; intros P; simpl; [by apply step_ret; auto|].
  eapply step_bind; [apply Hf|]. intros b. eapply step_bind; [apply IH|]. intros bs.
  apply step_ret. intros w _ [[Hp Hb] Hbs]. split; [done|by constructor].
Qed.

Lemma step_true {A} (P : World -> Prop) (m : Engine A) Q :
  step P m Q -> step P m (fun _ _ => True).
Proof. intros Hm. by eapply step_weaken. Qed.

End logic.

(** A relation that allows more. *)
Lemma step_weaken_relation {R A} Inv G G' P (m : Engine (R := R) A) Q :
  (forall w w' : World R, G w w' -> G' w w') -> step Inv G P m Q -> step Inv G' P m Q.
Proof.
  intros HG Hm masked patience w Hw Hp. specialize (Hm masked patience w Hw Hp).
  destruct (m masked patience w) as [[[] ?] ?]; simpl in *; naive_solver.
Qed.

End EngineLogic.

Module EngineInvariants.
Import RecordSchemas Records StoreDatabase EngineRuntime EngineLogic.

Section invariants.
Context {R : Type}.
#[local] Abbreviation World := (World R).

(** ** References *)

(** No reference dangles, a map's entry is about its key, and a fold belongs
    to the conversation of its action, the held one when the action is a POST. *)
Record wellFormed (w : World) : Prop := {
  wf_conversations c r : jm_get (conversations w) c = Some r ->
    exists conversation, conversationHeap w !! r = Some conversation /\
      ec_conversationId conversation = c;
  wf_fold r f : foldHeap w !! r = Some f ->
    exists conversation, conversationHeap w !! fold_conversation f = Some conversation /\
      ec_conversationId conversation = conversationId (fold_action f);
  wf_postFold r f : foldHeap w !! r = Some f -> isGenesis (fold_action f) = false ->
    jm_get (conversations w) (conversationId (fold_action f)) = Some (fold_conversation f);
  wf_actionFolds h r : (h, r) ∈ actionFolds w ->
    exists f, foldHeap w !! r = Some f /\ fold_actionHash f = h;
  wf_actionKeys : jm_wf (actionFolds w);
  wf_recordFolds r : r ∈ (recordFolds w).*2 -> is_Some (foldHeap w !! r);
  wf_intents r : r ∈ (intents w).*2 -> is_Some (intentHeap w !! r);
  wf_resends p : p ∈ resends w -> is_Some (intentHeap w !! lp_localIntent p);
}.

(** What an object keeps for as long as it lives. *)
Definition sameConversation (c c' : EngineConversation) : Prop :=
  ec_conversationId c' = ec_conversationId c /\ ec_membership c' = ec_membership c.
Definition sameFold (f f' : EngineActionFold) : Prop :=
  fold_conversation f' = fold_conversation f /\ fold_action f' = fold_action f /\
  fold_actionHash f' = fold_actionHash f /\ fold_routerAnchor f' = fold_routerAnchor f.

(** Conversations stay held and objects stay. *)
Record extends (w w' : World) : Prop := {
  ext_conversations c r : jm_get (conversations w) c = Some r ->
    jm_get (conversations w') c = Some r;
  ext_conversation r c : conversationHeap w !! r = Some c ->
    exists c', conversationHeap w' !! r = Some c' /\ sameConversation c c';
  ext_fold r f : foldHeap w !! r = Some f ->
    exists f', foldHeap w' !! r = Some f' /\ sameFold f f';
  ext_intent r : is_Some (intentHeap w !! r) -> is_Some (intentHeap w' !! r);
}.

(** And every fold stays registered for its action. *)
Record grows (w w' : World) : Prop := {
  grows_extends :> extends w w';
  grows_actionFolds h r : (h, r) ∈ actionFolds w -> (h, r) ∈ actionFolds w';
}.

#[global] Instance sameConversation_preorder : PreOrder sameConversation.
Proof. unfold sameConversation. split; [by intros c|intros ???; naive_solver congruence]. Qed.
#[global] Instance sameFold_preorder : PreOrder sameFold.
Proof. unfold sameFold. split; [by intros f|intros ???; naive_solver congruence]. Qed.

#[global] Instance extends_preorder : PreOrder extends.
Proof.
  split.
  - intros w. constructor; try done; intros r x ?; exists x; by split.
  - intros w1 w2 w3 [] []. constructor; eauto.
    + intros r c (c2 & Hc2 & ?)%ext_conversation0.
      apply ext_conversation1 in Hc2 as (c3 & ? & ?). exists c3. split; [done|by etrans].
    + intros r f (f2 & Hf2 & ?)%ext_fold0.
      apply ext_fold1 in Hf2 as (f3 & ? & ?). exists f3. split; [done|by etrans].
Qed.
#[global] Instance grows_preorder : PreOrder grows.
Proof.
  split; [intros w; by constructor|].
  intros w1 w2 w3 [] []. constructor; [by etrans|eauto].
Qed.

(** ** Facts that last *)

Definition conversationIs (r : Ref) (id : string) (membership : VerifiedMembership) (w : World) :=
  exists c, conversationHeap w !! r = Some c /\ ec_conversationId c = id /\
    ec_membership c = membership.
Definition conversationExists (r : Ref) (w : World) : Prop := is_Some (conversationHeap w !! r).
Definition foldIs (r : Ref) (f : EngineActionFold) (w : World) : Prop :=
  exists f', foldHeap w !! r = Some f' /\ sameFold f f'.
Definition foldExists (r : Ref) (w : World) : Prop := is_Some (foldHeap w !! r).
Definition registered (h : string) (r : Ref) (w : World) : Prop := (h, r) ∈ actionFolds w.

Lemma stable_extends (P : World -> Prop) : stable extends P -> stable grows P.
Proof. intros HP w w' [Hg _]. by apply HP. Qed.

Lemma stable_conversationIs r id m : stable extends (conversationIs r id m).
Proof.
  intros w w' [_ Hc _ _] (c & (c' & ? & ? & ?)%Hc & <- & <-). exists c'. by split_and!.
Qed.
Lemma stable_conversationExists r : stable extends (conversationExists r).
Proof. intros w w' [_ Hc _ _] [c (c' & ? & _)%Hc]. by exists c'. Qed.
Lemma stable_foldIs r f : stable extends (foldIs r f).
Proof.
  intros w w' [_ _ Hf _] (f' & (f2 & ? & ?)%Hf & ?). exists f2. split; [done|by etrans].
Qed.
Lemma stable_foldExists r : stable extends (foldExists r).
Proof. intros w w' [_ _ Hf _] [f (f' & ? & _)%Hf]. by exists f'. Qed.
Lemma stable_held c r : stable extends (fun w => jm_get (conversations w) c = Some r).
Proof. intros w w' []. auto. Qed.
Lemma stable_intent r : stable extends (fun w => is_Some (intentHeap w !! r)).
Proof. intros w w' []. auto. Qed.
Lemma stable_registered h r : stable grows (registered h r).
Proof. intros w w' [_ Hr]. apply Hr. Qed.

Lemma foldIs_exists r f w : foldIs r f w -> foldExists r w.
Proof. intros (f' & Hf & _). by exists f'. Qed.
Lemma conversationIs_exists r c m w : conversationIs r c m w -> conversationExists r w.
Proof. intros (c' & Hc & _). by exists c'. Qed.
Lemma registered_exists w h r : wellFormed w -> registered h r w -> foldExists r w.
Proof. intros Hw (f & Hf & _)%(wf_actionFolds w Hw). by exists f. Qed.
Lemma fold_conversation_exists w r f : wellFormed w -> foldIs r f w ->
  conversationExists (fold_conversation f) w.
Proof.
  intros Hw (f' & Hf & Hc & _). apply (wf_fold w Hw) in Hf as (c & Hc' & _).
  rewrite Hc in Hc'. by exists c.
Qed.
Lemma recordFold_exists w h r : wellFormed w -> jm_get (recordFolds w) h = Some r -> foldExists r w.
Proof.
  intros Hw Hr%jm_get_some_elem. apply (wf_recordFolds w Hw), list_elem_of_fmap. by exists (h, r).
Qed.

(** ** What another phase may change *)

#[local] Hint Extern 0 (StoreLocks.StoreLocks.rowsGrow _ _) => reflexivity : core.

(** Everything certification's safety rests on is as it was. *)
Record quiet (w w' : World) : Prop := {
  quiet_conversations : conversations w' = conversations w;
  quiet_actionFolds : actionFolds w' = actionFolds w;
  quiet_recordFolds : recordFolds w' = recordFolds w;
  quiet_conversationHeap : conversationHeap w' = conversationHeap w;
  quiet_foldHeap : foldHeap w' = foldHeap w;
  quiet_intents : intents w' = intents w;
  quiet_intentHeap r : is_Some (intentHeap w !! r) -> is_Some (intentHeap w' !! r);
  quiet_resends p : p ∈ resends w' ->
    p ∈ resends w \/ is_Some (intentHeap w' !! lp_localIntent p);
  quiet_signed : signed w' = signed w;
  quiet_locks : proposal_locks (database w') = proposal_locks (database w);
  quiet_rows : StoreLocks.StoreLocks.rowsGrow (database w) (database w');
}.

#[global] Instance quiet_preorder : PreOrder quiet.
Proof.
  split; [intros w; constructor; auto|].
  intros w1 w2 w3 [] []. constructor; try congruence; [auto| |by etrans].
  intros p [[?|?]%quiet_resends0|?]%quiet_resends1; auto.
Qed.

Lemma quiet_grows w w' : quiet w w' -> grows w w'.
Proof.
  intros []. constructor; [constructor|by rewrite quiet_actionFolds0].
  - intros c r. by rewrite quiet_conversations0.
  - intros r c Hc. rewrite quiet_conversationHeap0. by exists c.
  - intros r f Hf. rewrite quiet_foldHeap0. by exists f.
  - done.
Qed.

Lemma quiet_wellFormed w w' : quiet w w' -> wellFormed w -> wellFormed w'.
Proof.
  intros [] []. constructor; rewrite ?quiet_conversations0, ?quiet_conversationHeap0,
    ?quiet_foldHeap0, ?quiet_actionFolds0, ?quiet_recordFolds0, ?quiet_intents0; auto.
  intros p [?%wf_resends0|?]%quiet_resends0; auto.
Qed.

(** *** Reads *)

Section reads.
Context (Inv : World -> Prop) (G : World -> World -> Prop) `{!PreOrder G}.

(** A read keeps even what does not last. *)
Lemma step_reads {A} (f : World -> A) (P : World -> Prop) :
  step Inv G P (gets f) (fun a w => P w /\ a = f w).
Proof. by apply step_gets. Qed.

Lemma step_load {A} (f : World -> option A) (P : World -> Prop) :
  (forall w, Inv w -> P w -> is_Some (f w)) ->
  step Inv G P (o ← gets f; deref o) (fun a w => P w /\ f w = Some a).
Proof.
  intros Hf. eapply step_bind; [done|apply step_reads|]. intros o. apply step_deref; [done|].
  intros w Hw [Hp ->]. destruct (Hf w Hw Hp) as [a Ha]. eauto.
Qed.

Lemma step_foldAt r (P : World -> Prop) : (forall w, Inv w -> P w -> foldExists r w) ->
  step Inv G P (foldAt r) (fun f w => P w /\ foldHeap w !! r = Some f).
Proof. apply (step_load (fun w => foldHeap w !! r)). Qed.
Lemma step_conversationAt r (P : World -> Prop) :
  (forall w, Inv w -> P w -> conversationExists r w) ->
  step Inv G P (conversationAt r) (fun c w => P w /\ conversationHeap w !! r = Some c).
Proof. apply (step_load (fun w => conversationHeap w !! r)). Qed.
Lemma step_intentAt r (P : World -> Prop) :
  (forall w, Inv w -> P w -> is_Some (intentHeap w !! r)) ->
  step Inv G P (intentAt r) (fun i w => P w /\ intentHeap w !! r = Some i).
Proof. apply (step_load (fun w => intentHeap w !! r)). Qed.

Lemma step_known {A} e (o : option A) (P : World -> Prop) :
  step Inv G P (ofOption e o) (fun a w => P w /\ o = Some a).
Proof. by apply step_ofOption. Qed.

End reads.

(** A computation that is quiet however it ends, and reads no missing object. *)
Definition quietly {A} (w : World) (result : Outcome A * option nat * World) : Prop :=
  let '(outcome, _, w') := result in outcome <> Dangling /\ quiet w w'.

Lemma step_quietly {A} (Inv : World -> Prop) (G : World -> World -> Prop) (P : World -> Prop)
    (m : Engine A) :
  (forall w w', quiet w w' -> Inv w -> Inv w' /\ G w w') ->
  (forall w, Inv w -> P w -> forall masked patience, quietly w (m masked patience w)) ->
  step Inv G P m (fun _ _ => True).
Proof.
  intros HI Hm masked patience w Hw Hp. specialize (Hm w Hw Hp masked patience).
  destruct (m masked patience w) as [[o ?] w']. destruct Hm as [Ho Hq].
  destruct (HI w w' Hq Hw). by destruct o.
Qed.

End invariants.

End EngineInvariants.
