(* ===== verification/HistoryBuild.v ===== *)
(** HistoryBuild: the records, the store rows and the inbound delivery built
    from an in-memory fold
    (packages/client/src/communication/conversations/history/build.ts), and
    the message a remote post projects to (conversations/message.ts).

    A fold and its conversation are passed as the values read through their
    references. *)
From S2P Require Import Prelude JsMap Json JsString Identifiers Address CollectivePart.
From S2P Require Import SignedMessages RecordSchemas Records OuterBody StoredHistory StoreDatabase.
From S2P Require Import EngineRuntime.
Local Open Scope string_scope.

Module HistoryBuild.
Import Json Identifiers CollectivePart CanonicalJson ClientJson RecordSchemas Records StoredHistory.
Import EngineRuntime.

(** ** Inbound messages *)

Inductive InboundMessage :=
  | DirectMessage (postId address sender : string) (content : PostContent)
  | GroupMessage (postId address sender : string) (members : list string) (content : PostContent).

Definition inboundJson (message : InboundMessage) : JsonValue :=
  match message with
  | DirectMessage postId address sender content => JObject
      [("kind", JString "direct"); ("postId", JString postId); ("address", JString address);
       ("sender", JString sender); ("content", contentJson content)]
  | GroupMessage postId address sender members content => JObject
      [("kind", JString "group"); ("postId", JString postId); ("address", JString address);
       ("sender", JString sender); ("members", JArray (JString <$> members));
       ("content", contentJson content)]
  end.

(** Whether a group message's canonical address, members and sender agree. *)
Definition groupAgrees (address sender : string) (members : list string) : bool :=
  match parseGroupAddress address with
  | None => false
  | Some addressNames =>
      bool_decide (length addressNames = length members) &&
      bool_decide ((fun member => parseAgentAddress member) <$> members = Some <$> addressNames) &&
      bool_decide (sender ∈ members)
  end.

Section build.
Context `{Base64Url} `{HostJson} `{Jose} `{Sha256}.
Context (versions : option Wire.WireVersions) (maximumEncodedBytes : Z).

#[local] Instance record_core_i : JsonSchema RecordCore := record_core_schema versions.
#[local] Instance message_i : JsonSchema SignedMessages.SignedMessage :=
  OuterBody.message_schema versions maximumEncodedBytes.

(** The two refinements, which a value passes to be decoded or encoded. *)
Definition inboundMessage (message : InboundMessage) : bool :=
  match message with
  | DirectMessage postId address sender _ =>
      PostId postId && isAgentAddress address && isAgentAddress sender &&
      bool_decide (address = sender)
  | GroupMessage postId address sender members _ =>
      PostId postId && isGroupAddress address && isAgentAddress sender &&
      forallb isAgentAddress members &&
      bool_decide (3 <= length members <= maximumMembers) &&
      groupAgrees address sender members
  end.

Definition decodeDirectMessage (v : JsonValue) : option InboundMessage :=
  o ← exactStruct ["kind"; "postId"; "address"; "sender"; "content"] v;
  _ ← keyword (literal "direct") o "kind";
  postId ← keyword decodeString o "postId";
  address ← keyword decodeString o "address";
  sender ← keyword decodeString o "sender";
  content ← keyword decodeContent o "content";
  Some (DirectMessage postId address sender content).

Definition decodeGroupMessage (v : JsonValue) : option InboundMessage :=
  o ← exactStruct ["kind"; "postId"; "address"; "sender"; "members"; "content"] v;
  _ ← keyword (literal "group") o "kind";
  postId ← keyword decodeString o "postId";
  address ← keyword decodeString o "address";
  sender ← keyword decodeString o "sender";
  members ← keyword StringList o "members";
  content ← keyword decodeContent o "content";
  Some (GroupMessage postId address sender members content).

Definition decodeInboundMessage (v : JsonValue) : option InboundMessage :=
  message ← orElse (decodeDirectMessage v) (decodeGroupMessage v);
  if inboundMessage message then Some message else None.

#[local] Instance inbound_i : JsonSchema InboundMessage :=
  {| toJson := inboundJson; ofJson := decodeInboundMessage |}.

(** Encoding a refined schema checks its refinement. *)
Definition encodeInboundMessage (message : InboundMessage) : option string :=
  if inboundMessage message then encodeCanonical message else None.

(** ** Records from a fold *)

Definition anchorHashAtHead (conversation : EngineConversation) (head : EngineCertifiedHead) :
    string :=
  match ec_currentAnchor conversation with
  | RouterGenesis _ => core_anchorHash (recordCore (actionCertifiedRecord (ch_record head)))
  | RouterReanchor completed => cp_anchorHash completed
  end.

Definition recordAnchorHash (fold : EngineActionFold) : option string :=
  match fold_action fold with
  | GENESIS genesis => hashAnchor versions (AnchorGenesis (gc_anchor genesis))
  | POST post => Some (pa_anchorHash post)
  end.

(** The messages of an evidence map, in insertion order. *)
Definition evidenceValues (evidence : list (string * SignedMessages.SignedMessage)) :
    list SignedMessages.SignedMessage := evidence.*2.

Definition encodeOrderedEvidence (evidence : list (string * SignedMessages.SignedMessage)) :
    option (list Jws) :=
  orderedSignatures (evidenceValues evidence).

Definition protocolEvidence (conversationId : string) (kind : EvidenceKind) (subjectId : string)
    (message : SignedMessages.SignedMessage) : option ProtocolEvidence :=
  canonicalEvidence ← encodeCanonical message;
  Some (mkProtocolEvidence conversationId kind subjectId
    (SignedMessages.senderAgentId message) canonicalEvidence).

Definition recordCoreOf (fold : EngineActionFold) (conversation : EngineConversation)
    (anchorHash : string) : RecordCore :=
  let version := pi_version (postIntent (fold_action fold)) in
  match fold_action fold with
  | GENESIS genesis => GenesisRecordCore version (descriptor (ec_membership conversation))
      anchorHash genesis (fold_actionHash fold)
  | POST post => PostRecordCore version (hash (ec_membership conversation))
      anchorHash post (fold_actionHash fold)
  end.

Definition makeActionCertifiedRecord (fold : EngineActionFold) (conversation : EngineConversation)
    (anchorHash : string) : option ActionCertifiedRecord :=
  signatures ← encodeOrderedEvidence (fold_actionEvidence fold);
  let recordCore := recordCoreOf fold conversation anchorHash in
  recordHash ← hashRecord versions recordCore;
  Some (StoredHistory.makeActionCertifiedRecord recordCore recordHash
    (fold_routerAnchor fold) signatures).

Definition makeCertifiedRecord (record : ActionCertifiedRecord) (fold : EngineActionFold) :
    option CertifiedRecord :=
  votes ← encodeOrderedEvidence (fold_durabilityEvidence fold);
  Some (certifiedRecord record votes).

(** ** Store rows *)

Definition stagedRecord (record : ActionCertifiedRecord) : option StagedRecord :=
  let action := core_action (recordCore record) in
  canonicalRecordCore ← encodeCanonical (recordCore record);
  Some (mkStaged (conversationId action) (recordHash record) (previousRecordHash action)
    (match action with
     | GENESIS genesis => pi_membershipHash (gc_postIntent genesis)
     | POST post => pa_membershipHash post
     end)
    (core_anchorHash (recordCore record)) (core_actionHash (recordCore record))
    (authorAgentId (postIntent action)) (postId (postIntent action)) canonicalRecordCore).

Definition storedCertifiedRecord (record : CertifiedRecord)
    (actionSignatures durabilityVotes : list SignedMessages.SignedMessage) :
    option StoredCertifiedRecord :=
  staged ← stagedRecord (actionCertifiedRecord record);
  actionEvidence ← mapM (protocolEvidence (sr_conversationId staged) ActionEvidence
    (sr_actionHash staged)) actionSignatures;
  durabilityEvidence ← mapM (protocolEvidence (sr_conversationId staged) DurabilityEvidence
    (sr_recordHash staged)) durabilityVotes;
  Some (mkStoredCertified staged actionEvidence durabilityEvidence).

(** ** The inbound delivery *)

Definition addressFor (agentName : string) : option string :=
  let address := "agent:" ++ agentName in
  if isAgentAddress address then Some address else None.

Definition projectGroupMessage (conversation : EngineConversation) (intent : PostIntent)
    (sender : string) : option InboundMessage :=
  '(address, names) ← Address.renderGroupAddress
    (AgentCards.agentName <$> members (ec_membership conversation));
  addresses ← mapM addressFor names;
  match addresses with
  | _ :: _ :: _ :: _ =>
      Some (GroupMessage (postId intent) address sender addresses (content intent))
  | _ => None
  end.

Definition projectInboundMessage (conversation : EngineConversation) (record : CertifiedRecord) :
    option InboundMessage :=
  let intent := postIntent (core_action (recordCore (actionCertifiedRecord record))) in
  author ← memberCard (ec_membership conversation) (authorAgentId intent);
  sender ← addressFor (AgentCards.agentName author);
  if bool_decide (length (members (ec_membership conversation)) = 2)
  then Some (DirectMessage (postId intent) sender sender (content intent))
  else projectGroupMessage conversation intent sender.

Definition inboundDelivery (conversation : EngineConversation) (record : CertifiedRecord)
    (recipientAgentId : string) : option StoreDatabase.InboundDeliveryInput :=
  message ← projectInboundMessage conversation record;
  canonicalMessage ← encodeInboundMessage message;
  Some (StoreDatabase.mkDeliveryInput recipientAgentId canonicalMessage).

End build.
End HistoryBuild.
