(* ===== verification/Outbox.v ===== *)
(** Outbox: the engine's outbox, which signs every outer body, stages it in the
    store and queues its identity for the Router worker
    (packages/client/src/communication/conversations/outbox.ts). *)
From S2P Require Import Prelude JsMap Identifiers Json Address SignedMessages SealedBody.
From S2P Require Import RecordSchemas Records OuterBody StoreDatabase StoreQueues EngineRuntime.
Local Open Scope string_scope.

(** What the host draws at random: the bytes of one envelope, and the delivery
    token texts one promotion tries. *)
Class EngineHost `{Jose, JoseEncryption} := {
  randomness : nat -> OuterBody.Randomness;
  tokenDraws : nat -> list string;
}.

Module Outbox.
Import CanonicalJson ClientJson RecordSchemas Records OuterBody EngineRuntime.

(** [DisseminationObligation] *)
Record Obligation := mkObligation { ob_conversationId : string; ob_recordHash : string }.

Section outbox.
Context `{Base64Url} `{HostJson} `{Jose} `{Sha256} `{JoseEncryption} `{!EngineHost}.
Context (versions : option Wire.WireVersions) (maximumEncodedBytes : Z).
Context {R : Type}.
Context (input : EndpointEngineInput).

#[local] Instance message_i : JsonSchema SignedMessages.SignedMessage :=
  OuterBody.message_schema versions maximumEncodedBytes.
#[local] Abbreviation Engine := (@Engine R).

Definition sign (membership : VerifiedMembership) (body : DecodedOuterBody) :
    Engine SignedMessages.SignedMessage :=
  n ← draw;
  ofOption Representation (signBody versions maximumEncodedBytes (signer input) (randomness n)
    (members membership) body).

(** The identities that are not queued yet, in order. *)
Fixpoint pushAll (messageIds queued : list string) : list string :=
  match messageIds with
  | [] => queued
  | messageId :: rest =>
      pushAll rest (if decide (messageId ∈ queued) then queued else (queued ++ [messageId])%list)
  end.

Definition push (messageIds : list string) : Engine unit :=
  sync (set_queued (pushAll messageIds)) ;; sync (set_signals S).

Definition enqueueSigned (conversationId : string) (message : SignedMessages.SignedMessage)
    (obligation : option Obligation) : Engine unit :=
  canonicalSignedMessage ← ofOption Representation (encodeCanonical message);
  let input := StoreDatabase.mkOutbound (SignedMessages.wireVersion message) conversationId
    (SignedMessages.messageId message) canonicalSignedMessage in
  outbound ← (match obligation with
              | None => store (StoreQueues.enqueueOutbound input)
              | Some o => store (StoreQueues.enqueueDisseminationOutbound
                  (ob_conversationId o) (ob_recordHash o) input)
              end : Engine _);
  push [StoreDatabase.om_messageId outbound].

Definition queueBody (conversation : EngineConversation) (body : DecodedOuterBody)
    (obligation : option Obligation) : Engine unit :=
  message ← sign (ec_membership conversation) body;
  enqueueSigned (ec_conversationId conversation) message obligation.

Definition queuePacket (conversation : EngineConversation) (packet : DirectPacket) : Engine unit :=
  queueBody conversation (Direct packet) None.
Definition queueEvidence (conversation : EngineConversation)
    (evidence : SignedMessages.SignedMessage) : Engine unit :=
  queueBody conversation (Evidence evidence) None.
Definition queueActionCertifiedRecord (conversation : EngineConversation)
    (packet : ActionCertifiedRecord) : Engine unit :=
  queueBody conversation (Direct (PacketActionCertified packet))
    (Some (mkObligation (ec_conversationId conversation) (recordHash packet))).
Definition resume (messageIds : list string) : Engine unit := push messageIds.
Definition clear : Engine unit := sync (set_queued (fun _ => [])).

(** ** Draining *)

Definition peek : Engine (option string) := gets (fun w => head (queued w)).

Definition shift (messageId : string) : Engine unit :=
  sync (set_queued (fun queued =>
    match queued with
    | first :: rest => if decide (first = messageId) then rest else queued
    | [] => []
    end)).

(** [drain], the worker's [send] of one identity given; [fuel] bounds the
    envelopes it sends, and a drain that would send more does not end. *)
Fixpoint drain (send : string -> Engine unit) (fuel : nat) : Engine unit :=
  next ← peek;
  match next, fuel with
  | None, _ => mret tt
  | Some _, 0 => never
  | Some messageId, S fuel => send messageId ;; shift messageId ;; drain send fuel
  end.

End outbox.
End Outbox.
