(* ===== verification/Send.v ===== *)
(** Send: immutable intent binding and proposal creation
    (packages/client/src/communication/conversations/send.ts).

    Resolving an address is a Registry lookup (Address), so a send starts from
    the cards it found.  The gate orders activations and resends.  A resend's
    schedule is outside; [resendProposal] is one attempt, which tells whether a
    later one is due or which fence it waits behind. *)
From S2P Require Import Prelude JsMap Identifiers CollectivePart Json Address SignedMessages.
From S2P Require Import SealedBody RecordSchemas Records OuterBody StoredHistory StoreDatabase.
From S2P Require Import StoreQueues StoreRecords StoreAnchors EngineRuntime HistoryBuild Outbox.
Local Open Scope string_scope.

(** The bytes the host draws for a post's identity. *)
Class SendHost := { postIdBytes : nat -> string }.

Module Send.
Import Identifiers CollectivePart CanonicalJson ClientJson SendErrors RecordSchemas Records OuterBody.
Import StoredHistory EngineRuntime HistoryBuild Outbox Fences.

(** ** Failures *)

Definition sendReasonByStoreReason (reason : StoreDatabase.EndpointStoreFailure) : SendFailure :=
  match reason with
  | StoreDatabase.closed | StoreDatabase.conflict | StoreDatabase.corrupt
  | StoreDatabase.incompatible | StoreDatabase.invalid_continuation
  | StoreDatabase.invalid_input | StoreDatabase.newer_schema | StoreDatabase.pre_reset
  | StoreDatabase.not_found | StoreDatabase.persistence => PersistenceFailed
  end.
Definition storeFailure (error : StoreDatabase.EndpointStoreFailure) : Failure :=
  SendFailed (sendError (sendReasonByStoreReason error)).
Definition representationFailure : Failure := SendFailed (sendError CertificationUnavailable).

(** The store's error for a bind, with the evidence the send reads: whether the
    store confirms that nothing was committed. *)
Record EndpointStoreError := mkStoreError {
  se_reason : StoreDatabase.EndpointStoreFailure;
  se_notCommitted : bool;
}.

(** How a transaction ends: its COMMIT is confirmed, or fails and is rolled
    back, or fails without a rollback and leaves open whether the transaction is
    durable. *)
Inductive CommitOutcome :=
  | commit_confirmed
  | commit_rolled_back
  | commit_unconfirmed (durable : bool).

(** [transaction] around an operation, with how it ends.  An operation that
    fails before its COMMIT is rolled back; when its ROLLBACK fails too
    ([commit_unconfirmed false]) nothing is committed, but nothing confirms
    that either. *)
Definition committing {A} (outcome : CommitOutcome)
    (operation : StoreDatabase.Database ->
       Exit StoreDatabase.EndpointStoreFailure A * StoreDatabase.Database)
    (db : StoreDatabase.Database) : Exit EndpointStoreError A * StoreDatabase.Database :=
  match operation db, outcome with
  | (Succeed a, db'), commit_confirmed => (Succeed a, db')
  | (Succeed _, _), commit_rolled_back => (Fail_ (mkStoreError StoreDatabase.persistence true), db)
  | (Succeed _, db'), commit_unconfirmed durable =>
      (Fail_ (mkStoreError StoreDatabase.persistence false), if durable then db' else db)
  | (Fail_ reason, db'), _ =>
      let rolledBack := match outcome with commit_unconfirmed false => false | _ => true end in
      (Fail_ (mkStoreError reason (bool_decide (reason = StoreDatabase.persistence) && rolledBack)), db')
  end.

(** What decides whether a prepared intent binds. *)
Abbreviation IntentAdmission := (StoreDatabase.PostIntentBinding -> StoreDatabase.Database ->
  Exit EndpointStoreError StoreDatabase.FirewallCommit * StoreDatabase.Database) (only parsing).

(** [prepareSend]'s admission. *)
Definition admitIntent (outcome : CommitOutcome) : IntentAdmission := fun binding =>
  committing outcome (fun db =>
    let '(result, db') := StoreAnchors.bindPostIntent binding db in
    ((fun _ => StoreDatabase.CommitAdmitted) <$> result, db')).

(** Prepared data, which executes nothing until its intent is bound. *)
Record PreparedSend := mkPrepared {
  ps_membership : VerifiedMembership;
  ps_intent : PostIntent;
  ps_canonicalIntent : string;
}.

Inductive IntentActivation :=
  | Activation_refused (disposition : StoreDatabase.FirewallCommit)
  | Activation_ready (completion : Ref)
  | Activation_waiting (barrier : Ref).

Section send.
Context `{Base64Url} `{HostJson} `{Jose} `{Sha256} `{JoseEncryption} `{!EngineHost} `{!SendHost}.
Context (versions : option Wire.WireVersions) (maximumEncodedBytes : Z).
Context {R : Type} `{!RecoveryPhase R}.
Context (input : EndpointEngineInput).

#[local] Instance descriptor_i : JsonSchema MembershipDescriptor := descriptor_schema versions.
#[local] Instance intent_i : JsonSchema PostIntent := intent_schema versions.
#[local] Instance genesis_anchor_i : JsonSchema GenesisAnchorBody := genesis_anchor_schema versions.

#[local] Abbreviation World := (World R).
#[local] Abbreviation Engine := (@Engine R).
#[local] Abbreviation queuePacket := (Outbox.queuePacket versions maximumEncodedBytes input).

Definition represented {A} (o : option A) : Engine A := ofOption representationFailure o.

(** The host hears of a failure after which it must stop. *)
Definition reportStorageFault (error : StoreDatabase.EndpointStoreFailure) : Engine unit :=
  sync (set_storageFaults (fun l => (l ++ [error])%list)).

(** A failure of persistence that may have committed is a fault of the
    storage, and the outcome of the send unknown. *)
Definition failBind {A} (error : EndpointStoreError) : Engine A :=
  let reason := se_reason error in
  if bool_decide (reason = StoreDatabase.persistence) && se_notCommitted error
  then fail (storeFailure reason)
  else if bool_decide (reason = StoreDatabase.persistence)
  then reportStorageFault reason ;; fail (SendFailed (sendError OutcomeUnknown))
  else fail (storeFailure reason).

(** ** Preparing *)

Definition conversationIdOf (memberCards : list AgentCards.AgentCard) : Engine string :=
  represented (deriveConversationId (AgentCards.agentId <$> memberCards)).

(** The first member's card fixes the version of a new membership. *)
Definition membershipFor (memberCards : list AgentCards.AgentCard) : Engine VerifiedMembership :=
  conversationId ← conversationIdOf memberCards;
  stored ← gets (fun w => jm_get (conversations w) conversationId);
  match stored with
  | Some r => conversation ← conversationAt r; mret (ec_membership conversation)
  | None =>
      firstMember ← represented (head memberCards);
      descriptor ← represented (ofJson (toJson (mkDescriptor (AgentCards.wireVersion firstMember)
        conversationId (AgentCards.c_representation <$> memberCards))));
      represented (verifyMembershipDescriptor versions descriptor (registrySignerPublicKey input))
  end.

Definition mintPostId : Engine string :=
  n ← draw;
  let postId := "pst_" ++ encodeBase64Url (postIdBytes n) in
  represented (if PostId postId then Some postId else None).

Definition prepareIntent (memberCards : list AgentCards.AgentCard) (content : PostContent) :
    Engine PreparedSend :=
  membership ← membershipFor memberCards;
  postId ← mintPostId;
  intent ← represented (ofJson (toJson (mkIntent (wireVersion input)
    (md_conversationId (descriptor membership)) (hash membership) (localAgentId input) postId content)));
  canonicalIntent ← represented (encodeCanonical (A := PostIntent) intent);
  mret (mkPrepared membership intent canonicalIntent).

Definition storedIntent (prepared : PreparedSend) : StoreDatabase.PostIntentRow :=
  let intent := ps_intent prepared in
  StoreDatabase.mkPostIntentRow (pi_conversationId intent) (pi_membershipHash intent)
    (authorAgentId intent) (postId intent) (ps_canonicalIntent prepared) None.

(** [attaches]: the worker attaches within the timeout. *)
Definition awaitRouterAttachment (attaches : bool) : Engine unit :=
  anchored ← gets router;
  match anchored with
  | Some _ => mret tt
  | None => if attaches then mret tt else fail (SendFailed (sendError NetworkUnavailable))
  end.

(** ** Proposing *)

Definition proposalAction (conversation : EngineConversation) (intent : PostIntent) :
    Engine ActionCore :=
  postIntentHash ← represented (hashPostIntent versions intent);
  match ec_head conversation with
  | None =>
      match ec_currentAnchor conversation with
      | RouterGenesis anchor => mret (GENESIS (mkGenesis (pi_version intent)
          (ec_conversationId conversation) (descriptor (ec_membership conversation)) anchor intent
          postIntentHash))
      | RouterReanchor _ => fail representationFailure
      end
  | Some head => mret (POST (mkPostAction (pi_version intent) (ec_conversationId conversation)
      (hash (ec_membership conversation)) (anchorHashAtHead conversation head)
      (ch_recordHash head) intent postIntentHash))
  end.

Definition actionVersion (action : ActionCore) : string :=
  match action with GENESIS genesis => gc_version genesis | POST post => pa_version post end.

(** The certified record of the head goes ahead of the proposal. *)
Definition queueProposal (r : Ref) (action : ActionCore) : Engine unit :=
  conversation ← conversationAt r;
  (match ec_head conversation with
   | None => mret tt
   | Some head => queuePacket conversation (PacketCertified (ch_record head))
   end) ;;
  queuePacket conversation (PacketProposal (mkProposal (actionVersion action) action)).

(** The resends are forked into the engine's scope. *)
Definition queueLocalProposal (proposal : LocalProposal) : Engine unit :=
  uninterruptible (
    catch (fun e =>
      match e with
      | Store error => Some (reportStorageFault error ;; fail (storeFailure error))
      | Representation => Some (fail representationFailure)
      | _ => None
      end) (queueProposal (lp_conversation proposal) (lp_action proposal)) ;;
    sync (updateIntent (lp_localIntent proposal)
      (set_proposedActionHash (lp_actionHash proposal)))) ;;
  sync (set_resends (fun l => (l ++ [proposal])%list)).

Definition proposeIntent (localIntent : Ref) : Engine string :=
  i ← intentAt localIntent;
  found ← gets (fun w => jm_get (conversations w) (pi_conversationId (ep_intent i)));
  match found with
  | None => fail representationFailure
  | Some r =>
      conversation ← conversationAt r;
      action ← proposalAction conversation (ep_intent i);
      actionHash ← represented (hashAction versions action);
      i ← intentAt localIntent;
      if decide (ep_proposedActionHash i = Some actionHash) then mret actionHash
      else
        queueLocalProposal (mkProposalTask r localIntent action actionHash) ;;
        mret actionHash
  end.

(** ** Resending *)

(** Whether a record certifies the action, or would. *)
Definition recordedFold (w : World) (actionHash : string) : bool :=
  match r ← jm_get (actionFolds w) actionHash; f ← foldHeap w !! r; fold_recordHash f with
  | Some _ => true
  | None => false
  end.

Definition proposalIsOpen (w : World) (proposal : LocalProposal)
    (conversation : EngineConversation) : bool :=
  let action := lp_action proposal in
  bool_decide ((i ← intentHeap w !! lp_localIntent proposal; ep_proposedActionHash i) =
    Some (lp_actionHash proposal)) &&
  negb (jm_has (completedPosts w) (postId (postIntent action))) &&
  negb (recordedFold w (lp_actionHash proposal)) &&
  bool_decide (ch_recordHash <$> ec_head conversation = previousRecordHash action).

(** The conversation of a proposal that is still open. *)
Definition openProposal (w : World) (proposal : LocalProposal) : option Ref :=
  r ← jm_get (conversations w) (conversationId (lp_action proposal));
  conversation ← conversationHeap w !! r;
  if proposalIsOpen w proposal conversation then Some r else None.

Definition resendProposal (proposal : LocalProposal) : Engine (bool + Ref) :=
  found ← gets (fun w => (fun r =>
      (r, pendingRecoveryFence w (conversationId (lp_action proposal)))) <$> openProposal w proposal);
  match found with
  | None => mret (inl false)
  | Some (_, Some barrier) => mret (inr barrier)
  | Some (r, None) =>
      catch (fun e =>
        match e with
        | Store error => Some (reportStorageFault error ;; mret (inl false))
        | Representation => Some (mret (inl false))
        | _ => None
        end)
        (uninterruptible (queueProposal r (lp_action proposal)) ;; mret (inl true))
  end.

(** How the resends of a proposal ended ([exit] of the fiber: [None] when it
    succeeded, whether it was interrupted otherwise). *)
Inductive RetryOutcome :=
  | retry_certified | retry_superseded | retry_recovered | retry_sent | retry_checked
  | retry_delivered | retry_gave_up | retry_interrupted | retry_failed.
Definition resendOutcome (proposal : LocalProposal) (exit : option bool) (w : World) : RetryOutcome :=
  match exit with
  | Some interrupted => if (interrupted : bool) then retry_interrupted else retry_failed
  | None =>
      if jm_has (completedPosts w) (postId (postIntent (lp_action proposal))) ||
         recordedFold w (lp_actionHash proposal)
      then retry_certified
      else if openProposal w proposal is Some _ then retry_gave_up else retry_superseded
  end.

(** ** Binding *)

Definition createConversation (membership : VerifiedMembership) :
    Engine (EngineConversation * StoreDatabase.ConversationFoundation) :=
  anchored ← gets router;
  routerInstanceId ← ofOption (SendFailed (sendError NetworkUnavailable)) anchored;
  let d := descriptor membership in
  anchor ← represented (ofJson (toJson (mkGenesisAnchor (md_version d) (md_conversationId d)
    (hash membership) routerInstanceId)));
  anchorHash ← represented (hashAnchor versions (AnchorGenesis anchor));
  canonicalMembership ← represented (encodeCanonical d);
  canonicalAnchor ← represented (encodeCanonical (A := GenesisAnchorBody) anchor);
  mret (mkConversation (md_conversationId d) membership (RouterGenesis anchor) None,
    StoreDatabase.mkFoundation (md_conversationId d) (hash membership) canonicalMembership
      anchorHash canonicalAnchor).

(** The admission as a store operation that hands its error on. *)
Definition attempted (admission : IntentAdmission) (binding : StoreDatabase.PostIntentBinding)
    (db : StoreDatabase.Database) :
    Exit StoreDatabase.EndpointStoreFailure (Exit EndpointStoreError StoreDatabase.FirewallCommit)
    * StoreDatabase.Database :=
  let '(result, db') := admission binding db in (Succeed result, db').

(** A bind's store failures are the send's. *)
Definition bindWith (admission : IntentAdmission) (binding : StoreDatabase.PostIntentBinding) :
    Engine StoreDatabase.FirewallCommit :=
  result ← store (attempted admission binding);
  match result with
  | Succeed disposition => mret disposition
  | Fail_ error => failBind error
  end.

Definition bindPreparedIntent (prepared : PreparedSend) (admission : IntentAdmission) :
    Engine StoreDatabase.FirewallCommit :=
  retained ← gets (fun w => jm_get (conversations w) (pi_conversationId (ps_intent prepared)));
  match retained with
  | Some r =>
      conversation ← conversationAt r;
      if decide (hash (ec_membership conversation) <> hash (ps_membership prepared))
      then fail representationFailure
      else bindWith admission (StoreDatabase.ExistingConversation (storedIntent prepared))
  | None =>
      '(conversation, foundation) ← createConversation (ps_membership prepared);
      disposition ← bindWith admission
        (StoreDatabase.NewConversation foundation (storedIntent prepared));
      if decide (disposition = StoreDatabase.CommitAdmitted) then
        r ← gets (fun w => length (conversationHeap w));
        sync (fun w => set_conversations (fun m => jm_set m (ec_conversationId conversation) r)
          (set_conversationHeap (fun h => (h ++ [conversation])%list) w)) ;;
        mret disposition
      else mret disposition
  end.

(** ** Activation *)

Definition pendingActivation : Engine IntentActivation :=
  completion ← makeLatch;
  settleLatch completion (Fail_ (sendError DeliveryPending)) ;;
  mret (Activation_ready completion).

(** The new intent object and its latch are referred to by nothing else yet. *)
Definition newIntent (intent : EnginePostIntent) : Engine Ref :=
  r ← gets (fun w => length (intentHeap w));
  sync (set_intentHeap (fun h => (h ++ [intent])%list)) ;;
  mret r.

(** A post that already certified completes; any other is proposed. *)
Definition settleOrPropose (localIntent completion : Ref) (completed : option string) : Engine unit :=
  match completed with
  | Some recordHash => settleLatch completion (Succeed recordHash)
  | None => proposeIntent localIntent ;; mret tt
  end.

Definition activateBoundIntent (prepared : PreparedSend) : Engine IntentActivation :=
  let post := postId (ps_intent prepared) in
  catch (fun _ => Some pendingActivation) (
    retained ← gets (fun w => jm_get (intents w) post);
    match retained with
    | Some r =>
        i ← intentAt r;
        completed ← gets (fun w => jm_get (completedPosts w) post);
        settleOrPropose r (ep_completion i) completed ;;
        mret (Activation_ready (ep_completion i))
    | None =>
        completion ← makeLatch;
        r ← newIntent (mkPostIntent (ps_intent prepared) (ps_canonicalIntent prepared) completion None);
        completed ← gets (fun w => jm_get (completedPosts w) post);
        sync (set_intents (fun m => jm_set m post r)) ;;
        settleOrPropose r completion completed ;;
        mret (Activation_ready completion)
    end).

Definition activateIntentOnce (prepared : PreparedSend) (admission : IntentAdmission) :
    Engine IntentActivation :=
  pending ← gets (fun w => pendingRecoveryFence w (pi_conversationId (ps_intent prepared)));
  match pending with
  | Some barrier => mret (Activation_waiting barrier)
  | None =>
      disposition ← bindPreparedIntent prepared admission;
      if decide (disposition = StoreDatabase.CommitAdmitted) then activateBoundIntent prepared
      else mret (Activation_refused disposition)
  end.

(** [fuel] bounds the fences it waits behind, one after the other. *)
Fixpoint activateIntent (fuel : nat) (prepared : PreparedSend) (admission : IntentAdmission) :
    Engine IntentActivation :=
  activation ← uninterruptible (activateIntentOnce prepared admission);
  match activation, fuel with
  | Activation_waiting barrier, S fuel =>
      rearmCatchUp (pi_conversationId (ps_intent prepared)) ;;
      awaitFence barrier ;;
      activateIntent fuel prepared admission
  | Activation_waiting _, 0 => never
  | _, _ => mret activation
  end.

(** ** Sends *)

Record PreparedSendHandle := mkHandle { sh_postId : string; sh_completion : Ref }.

Definition prepareBoundSend (attaches : bool) (fuel : nat) (memberCards : list AgentCards.AgentCard)
    (content : PostContent) (admission : IntentAdmission) : Engine PreparedSendHandle :=
  awaitRouterAttachment attaches ;;
  prepared ← prepareIntent memberCards content;
  activation ← activateIntent fuel prepared admission;
  match activation with
  | Activation_ready completion => mret (mkHandle (postId (ps_intent prepared)) completion)
  | _ => fail representationFailure
  end.

Definition prepareSend (outcome : CommitOutcome) (attaches : bool) (fuel : nat)
    (memberCards : list AgentCards.AgentCard) (content : PostContent) : Engine PreparedSendHandle :=
  prepareBoundSend attaches fuel memberCards content (admitIntent outcome).

(** *** Checked sends *)

(** [untilFresh]: [None] when every attempt was stale; the third is terminal. *)
Definition CHECK_ATTEMPTS : nat := 3.
Fixpoint untilFreshFrom {A} (attempt : bool -> Engine (option A)) (left : nat) : Engine (option A) :=
  match left with
  | O => mret None
  | S left' =>
      committed ← attempt (bool_decide (left' = 0));
      match committed with
      | None => untilFreshFrom attempt left'
      | Some a => mret (Some a)
      end
  end.
Definition untilFresh {A} (attempt : bool -> Engine (option A)) : Engine (option A) :=
  untilFreshFrom attempt CHECK_ATTEMPTS.

(** What one check of a prepared post decided: whether it admits, the
    admissions that commit it admitting or withheld, the refusal it fails
    with, and the value of an admitting check. *)
Record PreparedCheck (A : Type) := mkCheck {
  check_admits : bool;
  check_admission : bool -> IntentAdmission;
  check_refusal : Failure;
  check_admitted : A;
}.
#[global] Arguments check_admits {A} _.
#[global] Arguments check_admission {A} _ _.
#[global] Arguments check_refusal {A} _.
#[global] Arguments check_admitted {A} _.

(** [hold] is taken uninterruptibly and given up unless the intent is ready. *)
Definition activateHeld (fuel : nat) (prepared : PreparedSend) (admission : IntentAdmission)
    (hold : Engine (Engine unit)) : Engine IntentActivation :=
  uninterruptibleMask (fun restore =>
    release ← hold;
    onExit (fun outcome => match outcome with Done (Activation_ready _) => mret tt | _ => release end)
      (restore _ (activateIntent fuel prepared admission))).

(** [None]: the commit was stale. *)
Definition commitCheck {A} (fuel : nat) (prepared : PreparedSend) (checked : PreparedCheck A)
    (hold : Engine (Engine unit)) : Engine (option (PreparedSendHandle * A)) :=
  let withhold := activateIntent fuel prepared (check_admission checked false) in
  activation ← (if check_admits checked
                then activateHeld fuel prepared (check_admission checked true)
                  (catch (fun e => Some (withhold ;; fail e)) hold)
                else withhold);
  match activation with
  | Activation_ready completion => mret (Some (mkHandle (postId (ps_intent prepared)) completion,
      check_admitted checked))
  | Activation_refused StoreDatabase.CommitWithheld => fail (check_refusal checked)
  | _ => mret None
  end.

Definition prepareCheckedSend {A} (attaches : bool) (fuel : nat)
    (memberCards : list AgentCards.AgentCard) (content : PostContent)
    (check : PreparedSend -> bool -> Engine (PreparedCheck A)) (hold : Engine (Engine unit)) :
    Engine (PreparedSendHandle * A) :=
  awaitRouterAttachment attaches ;;
  prepared ← prepareIntent memberCards content;
  committed ← untilFresh (fun terminal =>
    checked ← catch (fun e => match e with Store error => Some (fail (storeFailure error)) | _ => None end)
      (check prepared terminal);
    commitCheck fuel prepared checked hold);
  match committed with
  | Some result => mret result
  | None => fail representationFailure
  end.


End send.

End Send.

(** The phases certification runs with. *)
Definition sendPhases `{Base64Url} `{HostJson} `{Jose} `{Sha256} `{JoseEncryption}
    `{!EngineHost} versions maximumEncodedBytes {R}
    `{!RecoveryPhase R} input : EnginePhases R := {|
  proposeIntent := Send.proposeIntent versions maximumEncodedBytes input;
  headAdvanced := recoveryHeadAdvanced;
|}.
