(* ===== verification/EngineQuiet.v ===== *)
(** EngineQuiet: queueing, proposing and resending leave everything
    certification rests on as it is, and read no object that does not exist.

    EngineKeeps: what an engine computation leaves alone, however it ends, and
    that it is not interrupted while it is masked.  An observation of the state
    that the primitive steps do not touch is kept by everything built of them. *)
From S2P Require Import Prelude JsMap Identifiers Address CollectivePart Json SignedMessages.
From S2P Require Import SealedBody RecordSchemas Records OuterBody StoreDatabase StoreQueues.
From S2P Require Import StoreLocks EngineRuntime EngineInvariants HistoryBuild Outbox Send.

Module EngineKeeps.
Import RecordSchemas Records OuterBody StoreDatabase StoreQueues EngineRuntime HistoryBuild Outbox.
Import Fences Send.

Create HintDb keeps discriminated.

Section keeps.
Context {R : Type}.
#[local] Abbreviation World := (World R).
#[local] Abbreviation Engine := (@Engine R).

(** ** Observations *)

Section observation.
Context {X : Type} (obs : World -> X).

Definition keeps {A} (m : Engine A) : Prop :=
  forall masked patience w, obs (m masked patience w).2 = obs w.

Lemma keeps_ret {A} (a : A) : keeps (mret a).
Proof. done. Qed.
Lemma keeps_fail {A} e : keeps (fail (A := A) e).
Proof. done. Qed.
Lemma keeps_never {A} : keeps (never (A := A)).
Proof. done. Qed.
Lemma keeps_gets {A} (f : World -> A) : keeps (gets f).
Proof. done. Qed.
Lemma keeps_deref {A} (o : option A) : keeps (deref o).
Proof. by destruct o. Qed.
Lemma keeps_ofOption {A} e (o : option A) : keeps (ofOption e o).
Proof. by destruct o. Qed.
Lemma keeps_sync f : (forall w, obs (f w) = obs w) -> keeps (sync f).
Proof. intros Hf masked patience w. apply Hf. Qed.
Lemma keeps_syncWith {A} (f : World -> A * World) :
  (forall w, obs (f w).2 = obs w) -> keeps (syncWith f).
Proof. intros Hf masked patience w. unfold syncWith. specialize (Hf w). by destruct (f w). Qed.

Lemma keeps_continue {B} (k : Engine B) masked patience w :
  keeps k -> obs (continue k masked patience w).2 = obs w.
Proof. intros Hk. unfold continue. destruct masked; [apply Hk|]. destruct patience as [[|n]|]; [done|apply Hk..]. Qed.

Lemma keeps_bind {A B} (m : Engine A) (k : A -> Engine B) :
  keeps m -> (forall a, keeps (k a)) -> keeps (m ≫= k).
Proof.
  intros Hm Hk masked patience w. specialize (Hm masked patience w).
  unfold mbind, engine_bind. destruct (m masked patience w) as [[[a|e| |] p] w']; simpl in *; try done.
  by rewrite keeps_continue.
Qed.
Lemma keeps_uninterruptible {A} (m : Engine A) : keeps m -> keeps (uninterruptible m).
Proof. intros Hm masked patience w. apply Hm. Qed.
Lemma keeps_catch {A} handler (m : Engine A) :
  keeps m -> (forall e k, handler e = Some k -> keeps k) -> keeps (catch handler m).
Proof.
  intros Hm Hh masked patience w. specialize (Hm masked patience w). unfold catch.
  destruct (m masked patience w) as [[[a|e| |] p] w']; simpl in *; try done.
  destruct (handler e) as [k|] eqn:He; [|done]. rewrite keeps_continue; [done|by eapply Hh].
Qed.
Lemma keeps_mapError {A} f (m : Engine A) : keeps m -> keeps (mapError f m).
Proof. intros Hm. apply keeps_catch; [done|]. by intros e k [= <-]. Qed.

End observation.

(** ** Masked computations *)

Definition steady {A} (m : Engine A) : Prop :=
  forall patience w, (m true patience w).1.1 <> Interrupted.

Lemma steady_ret {A} (a : A) : steady (mret a).
Proof. done. Qed.
Lemma steady_fail {A} e : steady (fail (A := A) e).
Proof. done. Qed.
Lemma steady_gets {A} (f : World -> A) : steady (gets f).
Proof. done. Qed.
Lemma steady_deref {A} (o : option A) : steady (deref o).
Proof. by destruct o. Qed.
Lemma steady_ofOption {A} e (o : option A) : steady (ofOption e o).
Proof. by destruct o. Qed.
Lemma steady_sync f : steady (sync f).
Proof. done. Qed.
Lemma steady_store {A} (operation : Database -> Exit EndpointStoreFailure A * Database) :
  steady (store operation).
Proof. intros patience w. unfold store. by destruct (operation _) as [[] ?]. Qed.
Lemma steady_bind {A B} (m : Engine A) (k : A -> Engine B) :
  steady m -> (forall a, steady (k a)) -> steady (m ≫= k).
Proof.
  intros Hm Hk patience w. specialize (Hm patience w). unfold mbind, engine_bind.
  destruct (m true patience w) as [[[a|e| |] p] w']; simpl in *; try done. apply Hk.
Qed.
Lemma steady_uninterruptible {A} (m : Engine A) : steady m -> steady (uninterruptible m).
Proof. done. Qed.
Lemma steady_catch {A} handler (m : Engine A) :
  steady m -> (forall e k, handler e = Some k -> steady k) -> steady (catch handler m).
Proof.
  intros Hm Hh patience w. specialize (Hm patience w). unfold catch.
  destruct (m true patience w) as [[[a|e| |] p] w']; simpl in *; try done.
  destruct (handler e) as [k|] eqn:He; [|done]. by eapply Hh.
Qed.

End keeps.

#[export] Hint Resolve keeps_ret keeps_fail keeps_never keeps_gets keeps_deref keeps_ofOption
  steady_ret steady_fail steady_gets steady_deref steady_ofOption steady_sync steady_store : keeps.

(** Walk a computation to its primitive steps. *)
Ltac keep :=
  repeat first
    [ progress intros
    | solve [eauto with keeps]
    | match goal with
      | |- keeps _ (_ ≫= _) => apply keeps_bind
      | |- steady (_ ≫= _) => apply steady_bind
      | |- keeps _ (uninterruptible _) => apply keeps_uninterruptible
      | |- steady (uninterruptible _) => apply steady_uninterruptible
      | |- keeps _ (mapError _ _) => apply keeps_mapError
      | |- keeps _ (catch _ _) => apply keeps_catch
      | |- steady (catch _ _) => apply steady_catch
      end
    | progress simplify_eq
    | case_match ].

(** ** The phases of sending *)

(** An observation that sending leaves alone. *)
Class SendBlind {R X} (obs : World R -> X) : Prop := {
  blind_latches f w : obs (set_latches f w) = obs w;
  blind_intents f w : obs (set_intents f w) = obs w;
  blind_intentHeap f w : obs (set_intentHeap f w) = obs w;
  blind_resends f w : obs (set_resends f w) = obs w;
  blind_storageFaults f w : obs (set_storageFaults f w) = obs w;
  blind_draws f w : obs (set_draws f w) = obs w;
  blind_queued f w : obs (set_queued f w) = obs w;
  blind_signals f w : obs (set_signals f w) = obs w;
  blind_enqueue m : keeps obs (store (enqueueOutbound m));
  blind_dissemination c r m : keeps obs (store (enqueueDisseminationOutbound c r m));
}.

Section sending.
Context `{Base64Url} `{HostJson} `{Jose} `{Sha256} `{JoseEncryption} `{!EngineHost} `{!SendHost}.
Context (versions : option Wire.WireVersions) (maximumEncodedBytes : Z).
Context {R : Type} `{!RecoveryPhase R} (input : EndpointEngineInput).
#[local] Abbreviation Engine := (@Engine R).

Section blind.
Context {X : Type} (obs : World R -> X) `{!SendBlind obs}.
#[local] Abbreviation keeps := (keeps obs).

Lemma keeps_latches f : keeps (sync (set_latches f)).
Proof. apply keeps_sync, blind_latches. Qed.
Lemma keeps_intents f : keeps (sync (set_intents f)).
Proof. apply keeps_sync, blind_intents. Qed.
Lemma keeps_intentHeap f : keeps (sync (set_intentHeap f)).
Proof. apply keeps_sync, blind_intentHeap. Qed.
Lemma keeps_updateIntent r g : keeps (sync (updateIntent r g)).
Proof. apply keeps_sync. intros w. apply blind_intentHeap. Qed.
Lemma keeps_resends f : keeps (sync (set_resends f)).
Proof. apply keeps_sync, blind_resends. Qed.
Lemma keeps_storageFaults f : keeps (sync (set_storageFaults f)).
Proof. apply keeps_sync, blind_storageFaults. Qed.
Lemma keeps_draws f : keeps (sync (set_draws f)).
Proof. apply keeps_sync, blind_draws. Qed.
Lemma keeps_queued f : keeps (sync (set_queued f)).
Proof. apply keeps_sync, blind_queued. Qed.
Lemma keeps_signals f : keeps (sync (set_signals f)).
Proof. apply keeps_sync, blind_signals. Qed.
Hint Resolve keeps_latches keeps_intents keeps_intentHeap keeps_updateIntent keeps_resends
  keeps_storageFaults keeps_draws keeps_queued keeps_signals blind_enqueue blind_dissemination : keeps.

Lemma keeps_push ids : keeps (push ids).
Proof. unfold push. keep. Qed.
Hint Resolve keeps_push : keeps.
Lemma keeps_queueBody c body obligation :
  keeps (queueBody versions maximumEncodedBytes input c body obligation).
Proof. unfold queueBody, enqueueSigned, Outbox.sign, draw. keep. Qed.
Hint Resolve keeps_queueBody : keeps.
Lemma keeps_proposeIntent i : keeps (proposeIntent versions maximumEncodedBytes input i).
Proof.
  unfold proposeIntent, queueLocalProposal, queueProposal, queuePacket, proposalAction, represented,
    intentAt, conversationAt, reportStorageFault. keep.
Qed.
Hint Resolve keeps_proposeIntent : keeps.
Lemma keeps_activateBoundIntent prepared :
  keeps (activateBoundIntent versions maximumEncodedBytes input prepared).
Proof.
  unfold activateBoundIntent, pendingActivation, settleOrPropose, newIntent, makeLatch, settleLatch,
    intentAt. keep.
Qed.
End blind.

Lemma steady_proposeIntent i : steady (proposeIntent (R := R) versions maximumEncodedBytes input i).
Proof.
  unfold proposeIntent, queueLocalProposal, queueProposal, queuePacket, queueBody, enqueueSigned, push,
    Outbox.sign, draw, proposalAction, represented, intentAt, conversationAt, reportStorageFault. keep.
Qed.
#[local] Hint Resolve steady_proposeIntent : keeps.
Lemma steady_activateBoundIntent prepared :
  steady (activateBoundIntent (R := R) versions maximumEncodedBytes input prepared).
Proof.
  unfold activateBoundIntent, pendingActivation, settleOrPropose, newIntent, makeLatch, settleLatch,
    intentAt. keep.
Qed.
End sending.
End EngineKeeps.

Module EngineQuiet.
Import Identifiers RecordSchemas Records OuterBody StoreDatabase StoreLocks.
Import EngineRuntime EngineLogic EngineInvariants HistoryBuild Outbox Fences Send.

Section quiet_steps.
Context `{Base64Url} `{HostJson} `{Jose} `{Sha256} `{JoseEncryption} `{!EngineHost} `{!SendHost}.
Context (versions : option Wire.WireVersions) (maximumEncodedBytes : Z).
Context {R : Type} `{!RecoveryPhase R} (input : EndpointEngineInput).

#[local] Abbreviation World := (World R).
#[local] Abbreviation Engine := (@Engine R).
#[local] Hint Extern 0 (rowsGrow _ _) => reflexivity : core.
(** A computation that is quiet however it ends. *)
#[local] Abbreviation calm P m Q := (step (@wellFormed R) quiet P m Q).

Create HintDb calm discriminated.
Lemma calm_true : stable quiet (fun _ : World => True).
Proof. by intros ???. Qed.
Lemma calm_and (P Q : World -> Prop) :
  stable quiet P -> stable quiet Q -> stable quiet (fun w => P w /\ Q w).
Proof. apply stable_and. Qed.
Lemma calm_pure (phi : Prop) : stable quiet (fun _ : World => phi).
Proof. by intros ???. Qed.
Lemma calm_intent r : stable quiet (fun w : World => is_Some (intentHeap w !! r)).
Proof. intros w w' []. auto. Qed.
Lemma calm_conversation r : stable quiet (@conversationExists R r).
Proof. intros w w' Hq. apply stable_conversationExists, grows_extends, quiet_grows, Hq. Qed.
Hint Resolve calm_true calm_and calm_pure calm_intent calm_conversation : calm.

Lemma calm_sync f (P : World -> Prop) : (forall w, wellFormed w -> P w -> quiet w (f w)) ->
  calm P (sync f) (fun _ _ => True).
Proof.
  intros Hf. apply step_sync. intros w Hw Hp. specialize (Hf w Hw Hp).
  split_and!; [by eapply quiet_wellFormed|done|done].
Qed.

Lemma calm_store {A} (operation : Database -> Exit EndpointStoreFailure A * Database) P :
  keepsLocks operation -> calm P (store operation) (fun _ _ => True).
Proof.
  intros [Hfail Hkeep Hrows]. apply step_store; [apply _|intros w; apply Hfail|].
  intros w a db Hw _ Hop. specialize (Hkeep (database w)). specialize (Hrows (database w)).
  rewrite Hop in Hkeep, Hrows.
  assert (quiet w (set_database (fun _ => db) w)) as Hq by (constructor; auto).
  split_and!; [by eapply quiet_wellFormed|done|done].
Qed.

Lemma calm_then {A B} (P : World -> Prop) (m : Engine A) (k : A -> Engine B) Q S :
  stable quiet P -> calm P m Q -> (forall a, calm P (k a) S) -> calm P (m ≫= k) S.
Proof.
  intros HP Hm Hk. eapply step_seq; [apply _|done|exact Hm|]. intros a.
  eapply step_pre; [apply Hk|naive_solver].
Qed.

Lemma calm_gets {A} (f : World -> A) P : calm P (gets f) (fun _ _ => True).
Proof. by apply step_gets; [apply _|]. Qed.
Lemma calm_option {A} e (o : option A) P : calm P (ofOption e o) (fun _ _ => True).
Proof. by apply step_ofOption; [apply _|]. Qed.
Lemma calm_ret {A} (a : A) P : calm P (mret a) (fun _ _ => True).
Proof. by apply step_ret; [apply _|]. Qed.

(** What is quiet is quiet for a phase that only knows the shape. *)
Lemma calm_quietly {A} P (m : Engine A) Q : calm P m Q ->
  forall w, wellFormed w -> P w -> forall masked patience, quietly w (m masked patience w).
Proof.
  intros Hm w Hw Hp masked patience. specialize (Hm masked patience w Hw Hp).
  unfold quietly. destruct (m masked patience w) as [[[] ?] ?]; simpl in *; naive_solver.
Qed.

Ltac after := eapply calm_then; [by eauto with calm| |].
Ltac still P := apply (step_pre _ _ P); [|solve [naive_solver]].

Lemma calm_makeLatch P : stable quiet P -> calm P makeLatch (fun _ _ => True).
Proof.
  intros HP. unfold makeLatch. after; [apply calm_gets|]. intros r.
  after; [by apply calm_sync; constructor; auto|]. intros []. apply calm_ret.
Qed.

Lemma calm_settleLatch r exit P : calm P (settleLatch r exit) (fun _ _ => True).
Proof. apply calm_sync. intros w _ _. constructor; auto. Qed.

(** ** The outbox *)

Lemma calm_draw P : stable quiet P -> calm P draw (fun _ _ => True).
Proof.
  intros HP. unfold draw. after; [apply calm_gets|]. intros n.
  after; [by apply calm_sync; constructor; auto|]. intros []. apply calm_ret.
Qed.

Lemma calm_sign membership body P : stable quiet P ->
  calm P (Outbox.sign versions maximumEncodedBytes input membership body) (fun _ _ => True).
Proof.
  intros HP. unfold Outbox.sign. after; [by apply calm_draw|]. intros n. apply calm_option.
Qed.

Lemma calm_push ids P : stable quiet P -> calm P (push ids) (fun _ _ => True).
Proof.
  intros HP. unfold push. after; [by apply calm_sync; constructor; auto|]. intros [].
  by apply calm_sync; constructor; auto.
Qed.

Lemma calm_enqueueSigned c message obligation P : stable quiet P ->
  calm P (enqueueSigned versions maximumEncodedBytes c message obligation) (fun _ _ => True).
Proof.
  intros HP. unfold enqueueSigned. after; [apply calm_option|]. intros canonical.
  after; [|intros; by apply calm_push]. destruct obligation; apply calm_store;
    [apply enqueueDisseminationOutbound_keepsLocks|apply enqueueOutbound_keepsLocks].
Qed.

Lemma calm_queueBody c body obligation P : stable quiet P ->
  calm P (queueBody versions maximumEncodedBytes input c body obligation) (fun _ _ => True).
Proof.
  intros HP. unfold queueBody. after; [by apply calm_sign|]. intros. by apply calm_enqueueSigned.
Qed.

(** ** Proposals *)

Lemma calm_reportStorageFault e P : calm P (reportStorageFault e) (fun _ _ => True).
Proof. apply calm_sync. intros w _ _. constructor; auto. Qed.

Lemma calm_queueProposal r a P : stable quiet P ->
  calm (fun w => conversationExists r w /\ P w)
    (queueProposal versions maximumEncodedBytes input r a) (fun _ _ => True).
Proof.
  intros HP. unfold queueProposal.
  eapply step_bind; [apply _|apply step_conversationAt; [apply _|naive_solver]|intros c].
  still P. after; [|intros []; by apply calm_queueBody].
  destruct (ec_head c); [by apply calm_queueBody|apply calm_ret].
Qed.

(** The failures of queueing, each handled by a quiet computation. *)
Lemma calm_catch {A} handler (m : Engine A) P : stable quiet P -> calm P m (fun _ _ => True) ->
  (forall e k, handler e = Some k -> calm P k (fun _ _ => True)) ->
  calm P (catch handler m) (fun _ _ => True).
Proof. intros. by apply step_catch; [apply _|..]. Qed.

Lemma calm_updateIntent r g P : calm P (sync (updateIntent r g)) (fun _ _ => True).
Proof.
  apply calm_sync. intros w _ _. constructor; simpl; auto.
  intros r' [i Hi]. destruct (decide (r = r')) as [->|].
  - rewrite list_lookup_alter_eq, Hi. eauto.
  - rewrite list_lookup_alter_ne by done. eauto.
Qed.

Lemma calm_queueLocalProposal p :
  calm (fun w => conversationExists (lp_conversation p) w /\ is_Some (intentHeap w !! lp_localIntent p))
    (queueLocalProposal versions maximumEncodedBytes input p) (fun _ _ => True).
Proof.
  unfold queueLocalProposal. after.
  - apply step_uninterruptible. after; [|intros []; apply calm_updateIntent].
    apply calm_catch; [by eauto with calm|by apply calm_queueProposal; auto with calm|].
    intros e k; destruct e; try done; injection 1 as <-; [apply step_fail; apply _|].
    after; [apply calm_reportStorageFault|]. intros []. apply step_fail; apply _.
  - intros []. apply calm_sync. intros w _ [_ Hi]. constructor; simpl; auto.
    intros q [?| ->%list_elem_of_singleton]%elem_of_app; auto.
Qed.

Lemma calm_proposalAction c i P : stable quiet P ->
  calm P (proposalAction versions c i) (fun _ _ => True).
Proof.
  intros HP. unfold proposalAction. after; [apply calm_option|]. intros h.
  repeat case_match; first [apply calm_ret|apply step_fail; apply _].
Qed.

Lemma calm_proposeIntent i :
  calm (fun w => is_Some (intentHeap w !! i))
    (Send.proposeIntent versions maximumEncodedBytes input i) (fun _ _ => True).
Proof.
  unfold Send.proposeIntent.
  eapply step_bind; [apply _|apply step_intentAt; [apply _|done]|intros ep].
  eapply step_bind; [apply _|by apply step_reads; apply _|intros [r|]];
    [|apply step_fail; apply _].
  apply (step_pre _ _ (fun w => conversationExists r w /\ is_Some (intentHeap w !! i))).
  2: { intros w Hw ([? _] & Hr). split; [|done]. symmetry in Hr.
       destruct (wf_conversations w Hw _ _ Hr) as (c & ? & _). by exists c. }
  eapply step_bind; [apply _|apply step_conversationAt; [apply _|naive_solver]|intros c].
  still (fun w : World => conversationExists r w /\ is_Some (intentHeap w !! i)).
  after; [apply calm_proposalAction; by eauto with calm|]. intros action.
  after; [apply calm_option|]. intros h.
  eapply step_bind; [apply _|apply step_intentAt; [apply _|naive_solver]|intros ep'].
  still (fun w : World => conversationExists r w /\ is_Some (intentHeap w !! i)).
  case_decide; [apply calm_ret|]. after; [apply calm_queueLocalProposal with (p := mkProposalTask r i action h)|]. intros []. apply calm_ret.
Qed.

Lemma calm_resendProposal p P : stable quiet P ->
  calm P (resendProposal versions maximumEncodedBytes input p) (fun _ _ => True).
Proof.
  intros HP. unfold resendProposal.
  eapply step_bind; [apply _|by apply step_reads; apply _|intros [[r [barrier|]]|]]; [apply calm_ret| |apply calm_ret].
  apply (step_pre _ _ (fun w => conversationExists r w /\ P w)).
  2: { intros w Hw [HP' Hr]. split; [|done]. unfold openProposal in Hr.
       symmetry in Hr. apply fmap_Some in Hr as (r' & Hr & [= <- _]).
       apply bind_Some in Hr as (r'' & _ & (c & Hc & Hopen)%bind_Some).
       case_match; [|done]. injection Hopen as <-. by exists c. }
  apply calm_catch; [by eauto with calm| |].
  - after; [by apply step_uninterruptible, calm_queueProposal|]. intros []. apply calm_ret.
  - intros e k; destruct e; try done; injection 1 as <-; [apply calm_ret|].
    after; [apply calm_reportStorageFault|]. intros []. apply calm_ret.
Qed.

End quiet_steps.
End EngineQuiet.
