(* ===== verification/RecoveryState.v ===== *)
(** RecoveryState: what a recovery run keeps for itself, and the votes of a
    re-anchor: remembering, storing and counting them, and adopting the anchor
    they complete
    (packages/client/src/communication/conversations/recovery/index.ts,
    recovery/catch-up.ts, recovery/successor.ts and reanchor/votes.ts).

    A run and a held successor are objects the code shares, so they are kept in
    heaps.  A retry fiber is its entry among a run's [retries], which counts
    the resends it has left; a fiber forked into a run's scope is a [Task], and
    both end with the run. *)
From S2P Require Import Prelude JsMap Identifiers CollectivePart Json SignedMessages SealedBody.
From S2P Require Import RecordSchemas Records OuterBody StoredHistory StoreDatabase StoreRecords.
From S2P Require Import StoreAnchors StoreRecovery EngineRuntime HistoryBuild Outbox.
Local Open Scope string_scope.

Module RecoveryState.
Import RecordSchemas Records EngineRuntime.

(** ** The state of a run *)

Inductive RouterDiscontinuityReason := feed_gap | cursor_invalid | router_restarted.
Global Instance RouterDiscontinuityReason_eq_dec : EqDecision RouterDiscontinuityReason.
Proof. solve_decision. Defined.

(** How a pending position becomes ready; with no entry a quorum makes it. *)
Inductive Readiness := every_member | retries_spent | ready.
Global Instance Readiness_eq_dec : EqDecision Readiness.
Proof. solve_decision. Defined.

Record CatchUpState := mkCatchUpState {
  pendingRequests : list (string * CatchUpRequest);
  incompleteResponders : list (string * list string);
  readiness : list (string * Readiness);
  acceptedSuccessors : list (string * string);
}.
Definition makeCatchUpState : CatchUpState := mkCatchUpState [] [] [] [].

Record HeadPosition := mkHeadPosition { hp_head : string; hp_anchorHash : string }.
Global Instance HeadPosition_eq_dec : EqDecision HeadPosition.
Proof. solve_decision. Defined.

Record HeldVote := mkHeldVote {
  hv_recordHash : string;
  hv_ingress : Ingress;
  hv_statement : EvidenceStatement;
}.

(** What a member holds toward converting to a successor of its head. *)
Record PendingSuccessor := mkPendingSuccessor {
  ps_position : HeadPosition;
  ps_record : option (string * Ingress);
  ps_votes : list (string * HeldVote);
  ps_settled : bool;
}.

(** One verified re-anchor vote: its message, its signer, the anchor it names
    and its body. *)
Record PendingReanchorVote := mkReanchorVote {
  rv_message : SignedMessages.SignedMessage;
  rv_version : string;
  rv_signer : string;
  rv_anchorHash : string;
  rv_reanchor : ReanchorBody;
}.
Definition voteStatement (vote : PendingReanchorVote) : EvidenceStatement :=
  ReanchorVote (rv_version vote) (rv_signer vote) (rv_anchorHash vote) (rv_reanchor vote).

(** Votes by conversation, candidate anchor and signer. *)
Abbreviation ReanchorVotes :=
  (list (string * list (string * list (string * PendingReanchorVote)))) (only parsing).

Record RecoveryRun := mkRun {
  run_reason : RouterDiscontinuityReason;
  run_routerInstanceId : string;
  reanchoring : list string;
  run_memberships : list (string * VerifiedMembership);
  retainedOutbounds : list (string * list string);
  completedConversations : list string;
  reanchorWaits : list string;
  retries : list (string * nat);
  successors : list (string * Ref);
  catchUp : CatchUpState;
  votes : ReanchorVotes;
  positionsReady : list string;
}.

(** Work a run forked into its scope: arming the paused ones of some
    conversations, and recovering a position a quorum settled. *)
Inductive Task :=
  | RearmTask (run : Ref) (conversations : list string)
  | QuorumTask (run : Ref) (conversation : string).
Definition taskRun (t : Task) : Ref :=
  match t with RearmTask run _ => run | QuorumTask run _ => run end.

(** [runs] and [successorHeap] hold the objects; [activeRun] is the engine's
    entry in [activeRuns]. *)
Record Recovery := mkRecoveryState {
  runs : list RecoveryRun;
  activeRun : option Ref;
  successorHeap : list PendingSuccessor;
  tasks : list Task;
}.
Definition idleRecovery : Recovery := mkRecoveryState [] None [] [].

Abbreviation World := (EngineRuntime.World Recovery).
Abbreviation Engine := (@EngineRuntime.Engine Recovery).

(** ** Steps on it *)

Definition set_runs f (s : Recovery) :=
  mkRecoveryState (f (runs s)) (activeRun s) (successorHeap s) (tasks s).
Definition set_activeRun a (s : Recovery) :=
  mkRecoveryState (runs s) a (successorHeap s) (tasks s).
Definition set_successorHeap f (s : Recovery) :=
  mkRecoveryState (runs s) (activeRun s) (f (successorHeap s)) (tasks s).
Definition set_tasks f (s : Recovery) :=
  mkRecoveryState (runs s) (activeRun s) (successorHeap s) (f (tasks s)).

Definition set_completed f (r : RecoveryRun) := mkRun (run_reason r) (run_routerInstanceId r)
  (reanchoring r) (run_memberships r) (retainedOutbounds r) (f (completedConversations r))
  (reanchorWaits r) (retries r) (successors r) (catchUp r) (votes r) (positionsReady r).
Definition set_retained f (r : RecoveryRun) := mkRun (run_reason r) (run_routerInstanceId r)
  (reanchoring r) (run_memberships r) (f (retainedOutbounds r)) (completedConversations r)
  (reanchorWaits r) (retries r) (successors r) (catchUp r) (votes r) (positionsReady r).
Definition set_waits f (r : RecoveryRun) := mkRun (run_reason r) (run_routerInstanceId r)
  (reanchoring r) (run_memberships r) (retainedOutbounds r) (completedConversations r)
  (f (reanchorWaits r)) (retries r) (successors r) (catchUp r) (votes r) (positionsReady r).
Definition set_retries f (r : RecoveryRun) := mkRun (run_reason r) (run_routerInstanceId r)
  (reanchoring r) (run_memberships r) (retainedOutbounds r) (completedConversations r)
  (reanchorWaits r) (f (retries r)) (successors r) (catchUp r) (votes r) (positionsReady r).
Definition set_successors f (r : RecoveryRun) := mkRun (run_reason r) (run_routerInstanceId r)
  (reanchoring r) (run_memberships r) (retainedOutbounds r) (completedConversations r)
  (reanchorWaits r) (retries r) (f (successors r)) (catchUp r) (votes r) (positionsReady r).
Definition set_catchUp f (r : RecoveryRun) := mkRun (run_reason r) (run_routerInstanceId r)
  (reanchoring r) (run_memberships r) (retainedOutbounds r) (completedConversations r)
  (reanchorWaits r) (retries r) (successors r) (f (catchUp r)) (votes r) (positionsReady r).
Definition set_votes f (r : RecoveryRun) := mkRun (run_reason r) (run_routerInstanceId r)
  (reanchoring r) (run_memberships r) (retainedOutbounds r) (completedConversations r)
  (reanchorWaits r) (retries r) (successors r) (catchUp r) (f (votes r)) (positionsReady r).
Definition set_positionsReady f (r : RecoveryRun) := mkRun (run_reason r) (run_routerInstanceId r)
  (reanchoring r) (run_memberships r) (retainedOutbounds r) (completedConversations r)
  (reanchorWaits r) (retries r) (successors r) (catchUp r) (votes r) (f (positionsReady r)).

Definition set_pendingRequests f (s : CatchUpState) := mkCatchUpState (f (pendingRequests s))
  (incompleteResponders s) (readiness s) (acceptedSuccessors s).
Definition set_incompleteResponders f (s : CatchUpState) := mkCatchUpState (pendingRequests s)
  (f (incompleteResponders s)) (readiness s) (acceptedSuccessors s).
Definition set_readiness f (s : CatchUpState) := mkCatchUpState (pendingRequests s)
  (incompleteResponders s) (f (readiness s)) (acceptedSuccessors s).
Definition set_acceptedSuccessors f (s : CatchUpState) := mkCatchUpState (pendingRequests s)
  (incompleteResponders s) (readiness s) (f (acceptedSuccessors s)).

Definition runAt (r : Ref) : Engine RecoveryRun :=
  found ← gets (fun w => runs (recovery w) !! r); deref found.
Definition updateRun (r : Ref) (g : RecoveryRun -> RecoveryRun) (w : World) : World :=
  set_recovery (set_runs (alter g r)) w.
Definition isActive (r : Ref) (w : World) : bool := bool_decide (activeRun (recovery w) = Some r).

(** [Set.add]. *)
Definition set_add (x : string) (l : list string) : list string :=
  if decide (x ∈ l) then l else (l ++ [x])%list.
Definition set_remove (x : string) (l : list string) : list string := filter (fun y => y <> x) l.

End RecoveryState.

Module ReanchorVotes.
Import CanonicalJson ClientJson RecordSchemas Records OuterBody StoredHistory StoreDatabase.
Import StoreRecovery EngineRuntime HistoryBuild RecoveryState.

(** ** Votes held in memory *)

Definition rememberVote (votes : RecoveryState.ReanchorVotes) (vote : PendingReanchorVote) :
    RecoveryState.ReanchorVotes :=
  let conversation := rb_conversationId (rv_reanchor vote) in
  let candidates := default [] (jm_get votes conversation) in
  let signers := default [] (jm_get candidates (rv_anchorHash vote)) in
  jm_set votes conversation
    (jm_set candidates (rv_anchorHash vote) (jm_set signers (rv_signer vote) vote)).

Definition rememberReanchorVote (r : Ref) (vote : PendingReanchorVote) : Engine unit :=
  sync (updateRun r (set_votes (fun votes => rememberVote votes vote))).

Definition reanchorVoteIsRemembered (votes : RecoveryState.ReanchorVotes) (vote : PendingReanchorVote) : bool :=
  match jm_get votes (rb_conversationId (rv_reanchor vote)) with
  | None => false
  | Some candidates =>
      match jm_get candidates (rv_anchorHash vote) with
      | None => false
      | Some signers => jm_has signers (rv_signer vote)
      end
  end.

(** ** Votes in the store *)

Definition evidenceTargetsAnchor (conversationId anchorHash : string) (e : ProtocolEvidence) : bool :=
  bool_decide (pe_kind e = ReanchorEvidence) && bool_decide (pe_conversationId e = conversationId) &&
  bool_decide (pe_subjectId e = anchorHash).

Definition sameReanchorBody (left right : ReanchorBody) : bool :=
  bool_decide (rb_conversationId left = rb_conversationId right) &&
  bool_decide (rb_membershipHash left = rb_membershipHash right) &&
  bool_decide (rb_previousAnchorHash left = rb_previousAnchorHash right) &&
  bool_decide (rb_selectedRecordHash left = rb_selectedRecordHash right) &&
  bool_decide (rb_routerInstanceId left = rb_routerInstanceId right).

Definition storedVoteMatches (s : EvidenceStatement) (body : ReanchorBody) (anchorHash : string) : bool :=
  match s with
  | ReanchorVote _ _ votedHash reanchor =>
      bool_decide (votedHash = anchorHash) && sameReanchorBody reanchor body
  | _ => false
  end.

Definition votesHaveUniqueSigners (votes : list SignedMessages.SignedMessage) : bool :=
  bool_decide (length (remove_dups (SignedMessages.senderAgentId <$> votes)) = length votes).

Definition isSupersededProposal (w : World) (fold : Ref) (completed : CompletedReanchor) : bool :=
  let body := cp_reanchor completed in
  match foldHeap w !! fold with
  | None => false
  | Some f =>
      match conversationHeap w !! fold_conversation f, fold_action f with
      | Some c, POST post =>
          bool_decide (ec_conversationId c = rb_conversationId body) &&
          bool_decide (pa_previousRecordHash post = rb_selectedRecordHash body) &&
          bool_decide (pa_anchorHash post <> cp_anchorHash completed)
      | _, _ => false
      end
  end.

(** A fold leaves the maps its action and record hashes name it by. *)
Definition dropFolds (dropped : list (string * Ref)) (w : World) : World :=
  foldl (fun w entry =>
    let w := set_actionFolds (fun m => jm_delete m entry.1) w in
    match foldHeap w !! entry.2 ≫= fold_recordHash with
    | Some recordHash => set_recordFolds (fun m => jm_delete m recordHash) w
    | None => w
    end) w dropped.

Definition adoptCompletedReanchor (completed : CompletedReanchor) (w : World) : World :=
  let body := cp_reanchor completed in
  let w := match jm_get (conversations w) (rb_conversationId body) with
           | None => w
           | Some r => updateConversation r (set_currentAnchor (RouterReanchor completed)) w
           end in
  dropFolds (filter (fun entry : string * Ref => isSupersededProposal w entry.2 completed = true)
    (actionFolds w)) w.

Section reanchorVotes.
Context `{Base64Url} `{HostJson} `{Jose} `{Sha256} `{JoseEncryption} `{!RowOrder}.
Context (versions : option Wire.WireVersions) (maximumEncodedBytes : Z).

#[local] Instance message_i : JsonSchema SignedMessages.SignedMessage :=
  OuterBody.message_schema versions maximumEncodedBytes.
#[local] Instance reanchor_i : JsonSchema ReanchorBody := reanchor_schema versions.
#[local] Instance completed_i : JsonSchema CompletedReanchor :=
  {| toJson := OuterBody.completedJson; ofJson := decodeCompletedReanchor versions |}.

(** A value with no local representation fails the worker's persistence. *)
Definition represented {A} (o : option A) : Engine A := ofOption Persistence o.

(** One conversation's snapshot. *)
Definition recoverOne (conversationId : string) : Engine StoredState :=
  mapError (fun _ => Persistence) (store (recover (Some conversationId))).

(** Whether the store took a write: a refusal is [false]. *)
Definition taken (write : Engine unit) : Engine bool :=
  mapError (fun _ => Persistence)
    (catch (fun e => match e with
                     | Store reason => Some (if isSemanticStoreRejection reason then mret false
                                             else fail Persistence)
                     | _ => None
                     end) (write ;; mret true)).

Definition persistReanchorVote (vote : PendingReanchorVote) : Engine bool :=
  taken (
    evidence ← ofOption Representation (protocolEvidence versions maximumEncodedBytes
      (rb_conversationId (rv_reanchor vote)) ReanchorEvidence (rv_anchorHash vote)
      (rv_message vote));
    store (StoreRecords.StoreRecords.mergeEvidence evidence) ;;
    mret tt).

Definition verifyStoredReanchorVote (e : ProtocolEvidence) (membership : VerifiedMembership)
    (body : ReanchorBody) (anchorHash : string) : option SignedMessages.SignedMessage :=
  message ← decodeCanonical (A := SignedMessages.SignedMessage) (canonicalEvidence e);
  verified ← verifyStableEvidence versions maximumEncodedBytes
    (SignedMessages.representation message) membership None;
  if storedVoteMatches (statement verified) body anchorHash then Some (ev_message verified) else None.

Definition decodeReanchorVotes (membership : VerifiedMembership) (body : ReanchorBody)
    (anchorHash : string) : Engine (list SignedMessages.SignedMessage) :=
  recovery ← recoverOne (rb_conversationId body);
  votes ← represented (mapM (fun e => verifyStoredReanchorVote e membership body anchorHash)
    (filter (fun e => evidenceTargetsAnchor (rb_conversationId body) anchorHash e = true)
      (st_evidence recovery)));
  if votesHaveUniqueSigners votes then mret votes else fail Persistence.

Definition assembleCompletedReanchor (body : ReanchorBody) (anchorHash : string)
    (votes : list SignedMessages.SignedMessage) : Engine CompletedReanchor :=
  ordered ← represented (orderedSignatures votes);
  mret (mkCompleted (rb_version body) anchorHash body
    (mkReanchorCertificate (rb_version body) anchorHash ordered)).

Definition completedRow (completed : CompletedReanchor) : Engine CompletedReanchorRow :=
  let body := cp_reanchor completed in
  canonicalBody ← represented (encodeCanonical body);
  canonicalCompletedReanchor ← represented (encodeCanonical completed);
  mret (mkCompletedReanchor (mkReanchor (rb_conversationId body) (cp_anchorHash completed)
    (rb_previousAnchorHash body) (rb_routerInstanceId body) (rb_selectedRecordHash body)
    canonicalBody) canonicalCompletedReanchor).

(** The durable row and its adoption are one piece. *)
Definition storeAndAdoptReanchor (completed : CompletedReanchor)
    (write : CompletedReanchorRow -> Database -> Exit EndpointStoreFailure StoreMutation * Database) :
    Engine unit :=
  row ← completedRow completed;
  uninterruptible (store (write row) ;; sync (adoptCompletedReanchor completed)).

Definition persistCompletedReanchor (completed : CompletedReanchor) : Engine unit :=
  mapError (fun _ => Persistence)
    (storeAndAdoptReanchor completed StoreAnchors.StoreAnchors.completeReanchor).

Definition applyCompletedReanchor (completed : CompletedReanchor) : Engine bool :=
  taken (storeAndAdoptReanchor completed StoreAnchors.StoreAnchors.applyCatchUpReanchor).

End reanchorVotes.
End ReanchorVotes.
