(* ===== verification/SendLaws.v ===== *)
(** SendLaws: what a send leaves when it ends: its intent bound, or nothing; and
    its caller's hold kept, or given up. *)
From S2P Require Import Prelude JsMap Identifiers CollectivePart Json Address SignedMessages.
From S2P Require Import SealedBody StoreDatabase StoreQueues StoreRecords StoreAnchors StoreLocks.
From S2P Require Import RecordSchemas Records OuterBody EngineRuntime HistoryBuild Outbox Send.
From S2P Require Import EngineQuiet Hosts SealedBodyRuns Certificates.
From Stdlib Require Import Ascii.
Local Open Scope nat_scope.

Module SendLaws.
Import StoreDatabase StoreRows StoreQueues StoreRecords StoreAnchors StoreLocks RecordSchemas Records.
Import SendErrors OuterBody EngineRuntime HistoryBuild Outbox Fences Send EngineKeeps.

(** ** Binding an intent in the store *)

(** The row of an intent is there, with its bytes. *)
Definition boundIn (db : Database) (intent : PostIntentRow) : Prop :=
  exists row, post_intents db !! (StoreDatabase.pi_authorAgentId intent, pi_postId intent) = Some row /\
    pi_canonicalIntent row = pi_canonicalIntent intent /\
    StoreDatabase.pi_conversationId row = StoreDatabase.pi_conversationId intent.

Lemma bindInTransaction_binds intent db r db' :
  bindPostIntentInTransaction intent db = Succeed (r, db') -> boundIn db' intent.
Proof.
  unfold bindPostIntentInTransaction. intros (db0 & db1 & [-> ->]%gets_ok & Hrun)%tx_bind_ok.
  unfold id in Hrun. destruct (readStoredIdentity db) as [identity|]; [|done].
  apply tx_bind_ok in Hrun as ([] & db2 & Heq & Hrun). apply require_ok in Heq as (_ & _ & ->).
  destruct (post_intents db !! _) as [held|] eqn:Hheld.
  - apply tx_bind_ok in Hrun as ([] & db3 & Hc & Hrun). apply require_ok in Hc as (Hc & _ & ->).
    apply tx_bind_ok in Hrun as ([] & db4 & Hm & Hrun). apply require_ok in Hm as (_ & _ & ->).
    apply tx_bind_ok in Hrun as ([] & db5 & Hb & Hrun). apply require_ok in Hb as (Hb & _ & ->).
    apply ret_ok in Hrun as [_ ->]. apply bool_decide_eq_true in Hc, Hb. by exists held.
  - apply tx_bind_ok in Hrun as ([] & db3 & Hins & [_ ->]%ret_ok).
    unfold insert_post_intent in Hins. apply tx_bind_ok in Hins as (? & ? & [-> ->]%gets_ok & Hins).
    apply tx_bind_ok in Hins as ([] & ? & (_ & _ & ->)%require_ok & [_ ->]%db_modify_ok).
    eexists. simpl. by rewrite lookup_insert_eq.
Qed.

Lemma bindPostIntent_binds binding db r db' :
  bindPostIntent binding db = (Succeed r, db') -> boundIn db' (bindingIntent binding).
Proof.
  unfold bindPostIntent. intros Hrun.
  destruct (transaction_cases (validatePostIntentBinding binding ;; bindIntentWithFoundation binding) db)
    as [(a & db1 & Hop & Htx)|(e & _ & Htx)]; rewrite Htx in Hrun; [|done].
  injection Hrun as -> ->. apply tx_bind_ok in Hop as (? & ? & _ & Hop).
  unfold bindIntentWithFoundation in Hop. apply tx_bind_ok in Hop as (? & ? & _ & Hop).
  apply tx_bind_ok in Hop as (? & ? & Hbind & [_ ->]%ret_ok). by eapply bindInTransaction_binds.
Qed.

(** Queueing an envelope leaves the intents. *)
Definition sameIntents (db db' : Database) : Prop := post_intents db' = post_intents db.
#[local] Instance sameIntents_preorder : PreOrder sameIntents.
Proof. split; [done|]. intros db1 db2 db3 H12 H23. unfold sameIntents in *. congruence. Qed.
Lemma intents_modify f : (forall db, post_intents (f db) = post_intents db) -> moves sameIntents (modify f).
Proof. intros Hf db u db' [_ ->]%db_modify_ok. apply Hf. Qed.
#[local] Hint Extern 1 (moves sameIntents (modify _)) => apply intents_modify; done : tx_moves.
Lemma intents_enqueue m : moves sameIntents (enqueueOutboundInTransaction m).
Proof.
  unfold enqueueOutboundInTransaction, requireMessageIdAvailable, requireSameBytes, requireEqual.
  follow.
Qed.
#[local] Hint Resolve intents_enqueue : tx_moves.

Lemma transaction_same {A} (m : Tx A) db : moves sameIntents m ->
  post_intents (transaction m db).2 = post_intents db.
Proof.
  intros Hm. destruct (transaction_cases m db) as [(a & db' & Hop & ->)|(e & _ & ->)]; [|done].
  by apply (Hm _ _ _ Hop).
Qed.
Lemma enqueueOutbound_same m db : post_intents (enqueueOutbound m db).2 = post_intents db.
Proof. apply transaction_same. unfold enqueueOutbound, requireText, requireBytes. follow. Qed.
Lemma enqueueDissemination_same c r m db :
  post_intents (enqueueDisseminationOutbound c r m db).2 = post_intents db.
Proof.
  apply transaction_same. unfold enqueueDisseminationInTransaction, attachObligation, constraint,
    requireText, requireEqual. follow.
Qed.

Section sends.
Context `{Base64Url} `{HostJson} `{Jose} `{Sha256} `{JoseEncryption} `{!EngineHost} `{!SendHost}.
Context (versions : option Wire.WireVersions) (maximumEncodedBytes : Z).
Context {R : Type} `{!RecoveryPhase R} (input : EndpointEngineInput).
#[local] Abbreviation World := (World R).
#[local] Abbreviation Engine := (@Engine R).

(** ** All or nothing *)

Lemma store_obs {A} (operation : Database -> Exit EndpointStoreFailure A * Database) :
  (forall db, post_intents (operation db).2 = post_intents db) ->
  keeps (fun w : World => post_intents (database w)) (store operation).
Proof.
  intros Hop masked patience w. unfold store. specialize (Hop (database w)).
  by destruct (operation (database w)) as [[] ?].
Qed.

#[local] Instance intents_blind : SendBlind (fun w : World => post_intents (database w)).
Proof.
  split; try done; intros; apply store_obs;
    [apply enqueueOutbound_same|apply enqueueDissemination_same].
Qed.

(** Masked, a computation that only reads, and fails only as a send does. *)
Definition asks {A} (m : Engine A) : Prop := forall patience w, exists o patience',
  m true patience w = (o, patience', w) /\
  match o with
  | Done _ | Dangling => True
  | Failed e => exists error, e = SendFailed error /\ error <> sendError OutcomeUnknown
  | Interrupted => False
  end.

Lemma asks_ret {A} (a : A) : asks (mret a).
Proof. intros patience w. by eexists _, _. Qed.
Lemma asks_gets {A} (f : World -> A) : asks (gets f).
Proof. intros patience w. by eexists _, _. Qed.
Lemma asks_deref {A} (o : option A) : asks (deref o).
Proof. intros patience w. by destruct o; eexists _, _. Qed.
Lemma asks_ofOption {A} error (o : option A) : error <> sendError OutcomeUnknown ->
  asks (ofOption (SendFailed error) o).
Proof.
  intros Hne patience w. destruct o; [by eexists _, _|]. eexists _, _. split; [reflexivity|]. by exists error.
Qed.
Lemma asks_bind {A B} (m : Engine A) (k : A -> Engine B) : asks m -> (forall a, asks (k a)) -> asks (m ≫= k).
Proof.
  intros Hm Hk patience w. destruct (Hm patience w) as (o & p & Heq & Ho).
  unfold mbind, engine_bind. rewrite Heq. destruct o as [a|e| |]; [apply Hk|eexists _, _; split; [reflexivity|done]..].
Qed.

(** What a failed activation may leave, from [w]: everything as it was; or, when
    the commit of its bind came out unconfirmed, the intent bound or not, the
    outcome unknown and the fault reported. *)
Definition failedAs (prepared : PreparedSend) (outcome : CommitOutcome) (w : World)
    (error : SendError) (w' : World) : Prop :=
  intents w' = intents w /\ conversations w' = conversations w /\
  (error <> sendError OutcomeUnknown /\ database w' = database w /\
     storageFaults w' = storageFaults w \/
   exists durable, outcome = commit_unconfirmed durable /\ error = sendError OutcomeUnknown /\
     storageFaults w' = (storageFaults w ++ [persistence])%list /\
     if durable then boundIn (database w') (storedIntent prepared) else database w' = database w).

(** What an activation may leave, from [w]. *)
Definition activated (prepared : PreparedSend) (outcome : CommitOutcome) (w : World)
    (result : Outcome IntentActivation * option nat * World) : Prop :=
  match result with
  | (Done (Activation_ready _), _, w') => boundIn (database w') (storedIntent prepared)
  | (Done (Activation_waiting barrier), _, w') => w' = w /\
      pendingRecoveryFence w (pi_conversationId (ps_intent prepared)) = Some barrier
  | (Done (Activation_refused _), _, _) | (Interrupted, _, _) => False
  | (Failed e, _, w') => exists error, e = SendFailed error /\ failedAs prepared outcome w error w'
  | (Dangling, _, _) => True
  end.

Lemma failed_unchanged prepared outcome w error : error <> sendError OutcomeUnknown ->
  exists error', SendFailed error = SendFailed error' /\ failedAs prepared outcome w error' w.
Proof. intros Hne. exists error. split; [done|]. split_and!; [done..|by left]. Qed.

Lemma activated_asks {A} prepared outcome (m : Engine A) k patience w : asks m ->
  (forall a patience, activated prepared outcome w (k a true patience w)) ->
  activated prepared outcome w ((m ≫= k) true patience w).
Proof.
  intros Hm Hk. destruct (Hm patience w) as (o & p & Heq & Ho). unfold mbind, engine_bind.
  rewrite Heq. destruct o as [a|e| |]; simpl; [apply Hk| |done..].
  destruct Ho as (error & -> & Hne). by apply failed_unchanged.
Qed.

(** The value a computation ends with. *)
Definition yields {A} (phi : A -> Prop) (m : Engine A) : Prop := forall masked patience w,
  match (m masked patience w).1.1 with Done a => phi a | _ => True end.
Lemma yields_ret {A} (phi : A -> Prop) a : phi a -> yields phi (mret a).
Proof. by intros Ha masked patience w. Qed.
Lemma yields_bind {A B} (phi : B -> Prop) (m : Engine A) (k : A -> Engine B) :
  (forall a, yields phi (k a)) -> yields phi (m ≫= k).
Proof.
  intros Hk masked patience w. unfold mbind, engine_bind.
  destruct (m masked patience w) as [[[a|e| |] p] w']; simpl; try done.
  unfold continue. destruct masked; [apply Hk|]. destruct p as [[|n]|]; [done|apply Hk..].
Qed.

Lemma yields_then {A B} (phi : A -> Prop) (psi : B -> Prop) (m : Engine A) (k : A -> Engine B) :
  yields phi m -> (forall a, phi a -> yields psi (k a)) -> yields psi (m ≫= k).
Proof.
  intros Hm Hk masked patience w. specialize (Hm masked patience w). unfold mbind, engine_bind.
  destruct (m masked patience w) as [[[a|e| |] p] w']; simpl in *; try done.
  unfold continue. destruct masked; [by apply Hk|]. destruct p as [[|n]|]; [done|by apply Hk..].
Qed.
Lemma yields_fail {A} (phi : A -> Prop) e : yields phi (fail e).
Proof. by intros masked patience w. Qed.
Lemma yields_catch {A} (phi : A -> Prop) handler (m : Engine A) :
  yields phi m -> (forall e k, handler e = Some k -> yields phi k) -> yields phi (catch handler m).
Proof.
  intros Hm Hh masked patience w. specialize (Hm masked patience w). unfold catch.
  destruct (m masked patience w) as [[[a|e| |] p] w']; simpl in *; try done.
  destruct (handler e) as [k|] eqn:He; [|done]. specialize (Hh _ _ He).
  unfold continue. destruct masked; [apply Hh|]. destruct p as [[|n]|]; [done|apply Hh..].
Qed.

Lemma yields_true {A} (m : Engine A) : yields (fun _ => True) m.
Proof. intros masked patience w. by destruct (m masked patience w).1.1. Qed.

Definition isReady (activation : IntentActivation) : Prop :=
  match activation with Activation_ready _ => True | _ => False end.

(** Once the intent is bound the activation is ready, whatever fails. *)
Lemma bound_ready prepared outcome patience w w1 : boundIn (database w1) (storedIntent prepared) ->
  activated prepared outcome w (activateBoundIntent versions maximumEncodedBytes input prepared true patience w1).
Proof.
  intros (row & Hrow & Hsame).
  pose proof (steady_activateBoundIntent versions maximumEncodedBytes input prepared patience w1) as Hs.
  pose proof (keeps_activateBoundIntent versions maximumEncodedBytes input
    (fun w : World => post_intents (database w)) prepared true patience w1) as Hk. cbn beta in Hk.
  assert (match (activateBoundIntent versions maximumEncodedBytes input prepared true patience w1).1.1
    with Done a => isReady a | Failed _ => False | _ => True end) as Hready.
  { unfold activateBoundIntent. match goal with |- context [catch _ ?m] => set (run := m) end.
    assert (yields isReady run) as Hrun.
    { apply yields_bind. intros [r|]; repeat (apply yields_bind; intros); by apply yields_ret. }
    specialize (Hrun true patience w1). unfold catch.
    by destruct (run true patience w1) as [[[a|e| |] p] w2]. }
  destruct (activateBoundIntent _ _ _ _ _ _ _) as [[[[]|e| |] p] w2]; simpl in *; try done.
  exists row. by rewrite Hk.
Qed.

Lemma engine_assoc {A B C} (m : Engine A) (f : A -> Engine B) (g : B -> Engine C) masked patience w :
  ((m ≫= f) ≫= g) masked patience w = (m ≫= (fun a => f a ≫= g)) masked patience w.
Proof.
  unfold mbind, engine_bind. destruct (m masked patience w) as [[[a|e| |] p] w']; try done.
  unfold continue. destruct masked; [done|]. by destruct p as [[|n]|].
Qed.
Lemma engine_bind_ext {A B} (m : Engine A) (f g : A -> Engine B) masked patience w :
  (forall a masked patience w, f a masked patience w = g a masked patience w) ->
  (m ≫= f) masked patience w = (m ≫= g) masked patience w.
Proof.
  intros Hfg. unfold mbind, engine_bind. destruct (m masked patience w) as [[[a|e| |] p] w']; try done.
  unfold continue. destruct masked; [done|]. by destruct p as [[|n]|].
Qed.

(** Binding: done and bound, or failed as a bind does. *)
Lemma bind_admitted prepared outcome binding patience w
    (k : StoreDatabase.FirewallCommit -> Engine IntentActivation) :
  bindingIntent binding = storedIntent prepared ->
  (forall patience w1, boundIn (database w1) (storedIntent prepared) ->
     activated prepared outcome w (k StoreDatabase.CommitAdmitted true patience w1)) ->
  activated prepared outcome w ((bindWith (admitIntent outcome) binding ≫= k) true patience w).
Proof.
  intros Hb Hk. unfold bindWith. rewrite engine_assoc.
  unfold mbind at 1, engine_bind at 1, store at 1, attempted, admitIntent, committing.
  destruct (bindPostIntent binding (database w)) as [[r|e] db] eqn:Hop; simpl.
  - assert (boundIn db (storedIntent prepared)) as Hbound.
    { rewrite <- Hb. by eapply bindPostIntent_binds. }
    destruct outcome as [| |durable]; simpl.
    + apply Hk. exact Hbound.
    + destruct w. by apply failed_unchanged.
    + eexists. split; [done|]. split_and!; [by destruct w..|]. right. exists durable.
      destruct w, durable; by split_and!.
  - apply transaction_failed in Hop as ->. unfold failBind. simpl.
    destruct (decide (e = persistence)) as [->|He].
    + destruct outcome as [| |[]]; simpl; [destruct w; by apply failed_unchanged..|].
      eexists. split; [done|]. split_and!; [by destruct w..|]. right. exists false. by destruct w.
    + destruct w, e; simpl; try done; by apply failed_unchanged.
Qed.

(** C21: a send binds its intent, leaves nothing, or says that its outcome is
    unknown.  One activation of a prepared intent, which is not interrupted, and
    however the transaction of its bind ends, either waits, behind the fence of
    its conversation and having done nothing; or fails as a send, and then the
    intents and the conversations of the engine are as they were, and so are
    the database and the reported faults, unless that end was left
    unconfirmed: then the failure is outcome-unknown, a storage fault is
    reported, and the store holds the intent or is as it was, as the
    transaction turned out durable or not; or is ready, and then the store
    holds the intent with its bytes, whatever failed after it was bound. *)
Theorem send_binds_or_leaves prepared outcome masked patience (w : World) :
  match uninterruptible (activateIntentOnce versions maximumEncodedBytes input prepared
          (admitIntent outcome)) masked patience w with
  | (Done (Activation_ready _), _, w') => boundIn (database w') (storedIntent prepared)
  | (Done (Activation_waiting barrier), _, w') => w' = w /\
      pendingRecoveryFence w (pi_conversationId (ps_intent prepared)) = Some barrier
  | (Done (Activation_refused _), _, _) | (Interrupted, _, _) => False
  | (Failed e, _, w') => exists error, e = SendFailed error /\ failedAs prepared outcome w error w'
  | (Dangling, _, _) => True
  end.
Proof.
  change (activated prepared outcome w (activateIntentOnce versions maximumEncodedBytes input prepared
    (admitIntent outcome) true patience w)).
  unfold activateIntentOnce. unfold mbind at 1, engine_bind at 1, gets at 1. simpl.
  destruct (pendingRecoveryFence w _) as [barrier|] eqn:Hpending; [done|].
  unfold bindPreparedIntent.
  set (k := fun disposition : StoreDatabase.FirewallCommit => _ : Engine IntentActivation).
  assert (forall binding patience, bindingIntent binding = storedIntent prepared ->
    activated prepared outcome w ((bindWith (admitIntent outcome) binding ≫= k) true patience w)) as Hbind.
  { intros binding p Hb. apply bind_admitted; [done|]. intros p1 w1 Hbound. by apply bound_ready. }
  rewrite engine_assoc. apply activated_asks; [apply asks_gets|]. intros [r|] p1.
  - rewrite engine_assoc. apply activated_asks; [|intros c p2].
    { apply asks_bind; [apply asks_gets|intros; apply asks_deref]. }
    case_decide; [|by apply Hbind]. simpl. by apply failed_unchanged.
  - rewrite engine_assoc. apply activated_asks; [|intros [c foundation] p2].
    { unfold createConversation, represented, representationFailure.
      repeat (apply asks_bind; [first [apply asks_gets|by apply asks_ofOption]|intros]). apply asks_ret. }
    rewrite engine_assoc. apply bind_admitted; [done|]. intros p3 w1 Hbound.
    rewrite decide_True by done. rewrite engine_assoc.
    unfold mbind at 1, engine_bind at 1, gets at 1. cbn [continue].
    rewrite engine_assoc. unfold mbind at 1, engine_bind at 1, sync at 1. cbn [continue].
    unfold mbind at 1, engine_bind at 1, mret at 1. cbn [continue]. by apply bound_ready.
Qed.

(** ** Holds *)

Section holds.
(** How often a caller's precondition is held, in what recovery keeps. *)
Context (holds : R -> nat).
#[local] Abbreviation held := (fun w : World => holds (recovery w)).
#[local] Abbreviation keepsHeld m := (keeps held m).
Context (rearm_keeps : forall c, keepsHeld (rearmCatchUp c)).

Lemma keeps_store {A} (operation : Database -> Exit EndpointStoreFailure A * Database) :
  keepsHeld (store operation).
Proof. intros masked patience w. unfold store. by destruct (operation (database w)) as [[] ?]. Qed.
#[local] Hint Resolve keeps_store : keeps.
#[local] Instance held_blind : SendBlind held.
Proof. split; try done; intros; apply keeps_store. Qed.

(** The hold of a caller: taken, with what gives it up, or not taken. *)
Definition holdsOnce (hold : Engine (Engine unit)) : Prop := forall masked patience w,
  match hold masked patience w with
  | (Done release, _, w') => held w' = S (held w) /\ forall masked patience w1,
      match release masked patience w1 with
      | (Done _, _, w2) => held w2 = pred (held w1)
      | _ => False
      end
  | (_, _, w') => held w' = held w
  end.

#[local] Hint Extern 1 (keeps held (sync _)) => apply keeps_sync; done : keeps.
#[local] Hint Extern 1 (keeps held (activateBoundIntent _ _ _ _)) =>
  apply keeps_activateBoundIntent; apply _ : keeps.
#[local] Hint Extern 1 (keeps held (rearmCatchUp _)) => apply rearm_keeps : keeps.

Lemma keeps_activateIntent fuel prepared admission :
  keepsHeld (activateIntent versions maximumEncodedBytes input fuel prepared admission).
Proof.
  induction fuel as [|fuel IH]; simpl; unfold activateIntentOnce, bindPreparedIntent, bindWith, failBind,
    reportStorageFault, createConversation, conversationAt, represented, awaitFence; keep.
Qed.
#[local] Hint Resolve keeps_activateIntent : keeps.
Lemma keeps_prepareIntent memberCards content :
  keepsHeld (prepareIntent versions input memberCards content).
Proof.
  unfold prepareIntent, membershipFor, conversationIdOf, mintPostId, draw, conversationAt, represented.
  keep.
Qed.

(** An activation keeps its hold exactly when it is ready. *)
Lemma held_activateHeld fuel prepared admission hold masked patience w : holdsOnce hold ->
  match activateHeld versions maximumEncodedBytes input fuel prepared admission hold masked patience w with
  | (Done (Activation_ready _), _, w') => held w' = S (held w)
  | (Dangling, _, _) => True
  | (_, _, w') => held w' = held w
  end.
Proof.
  intros Hhold. unfold activateHeld, uninterruptibleMask, mbind, engine_bind.
  specialize (Hhold true patience w). destruct (hold true patience w) as [[[release|e| |] p] w1]; try done.
  destruct Hhold as [Hheld Hrelease]. cbn [continue]. unfold onExit.
  pose proof (keeps_activateIntent fuel prepared admission masked p w1) as Hkeep.
  destruct (activateIntent _ _ _ _ _ _ _ _ _) as [[[[]|e| |] p2] w2]; simpl in *; try done; try congruence;
    specialize (Hrelease true p2 w2); destruct (release true p2 w2) as [[[]?] ?]; simpl in *; try done;
    rewrite Hrelease, Hkeep, Hheld; done.
Qed.

(** An admission that never admits is never ready. *)
Definition refuses (admission : IntentAdmission) : Prop := forall binding db,
  (admission binding db).1 <> Succeed StoreDatabase.CommitAdmitted.

Lemma refused_not_ready fuel prepared admission : refuses admission ->
  yields (fun activation => ~ isReady activation)
    (activateIntent versions maximumEncodedBytes input fuel prepared admission).
Proof.
  intros Hr.
  assert (forall binding, yields (fun d => d <> StoreDatabase.CommitAdmitted) (bindWith (R := R) admission binding)) as Hbind.
  { intros binding. unfold bindWith.
    apply (yields_then (fun result => result <> Succeed StoreDatabase.CommitAdmitted)).
    - intros masked patience w. unfold store, attempted. specialize (Hr binding (database w)).
      by destruct (admission binding (database w)).
    - intros [d|e] Hd; [apply yields_ret; congruence|]. unfold failBind. cbv zeta.
      repeat case_match; try apply yields_fail. apply yields_bind. intros. apply yields_fail. }
  assert (yields (fun a => ~ isReady a)
    (activateIntentOnce versions maximumEncodedBytes input prepared admission)) as Honce.
  { unfold activateIntentOnce. apply yields_bind. intros [barrier|]; [by apply yields_ret; intros []|].
    eapply (yields_then (fun d => d <> StoreDatabase.CommitAdmitted)).
    - unfold bindPreparedIntent. apply yields_bind. intros [r|].
      + apply yields_bind. intros c. case_decide; [apply yields_fail|apply Hbind].
      + apply yields_bind. intros [c foundation]. eapply yields_then; [apply Hbind|]. intros d Hd.
        cbn beta in Hd. rewrite decide_False by done. by apply yields_ret.
    - intros d Hd. rewrite decide_False by done. apply yields_ret. by intros []. }
  induction fuel as [|fuel IH]; simpl; apply (yields_then (fun a => ~ isReady a)).
  1,3: by intros masked patience w; apply Honce.
  all: intros [d|c|barrier] Ha; try by apply yields_ret.
  - by intros masked patience w.
  - apply yields_bind. intros []. apply yields_bind. by intros [].
Qed.

Lemma holdsOnce_catch fuel prepared admission hold : holdsOnce hold ->
  holdsOnce (catch (fun e => Some
    (activateIntent versions maximumEncodedBytes input fuel prepared admission ;; fail e)) hold).
Proof.
  intros Hhold masked patience w. specialize (Hhold masked patience w). unfold catch.
  destruct (hold masked patience w) as [[[release|e| |] p] w1]; try done.
  match goal with |- context [continue ?k ?ma ?pa ?wa] => pose proof (keeps_continue held k ma pa wa) as Hkeep;
    assert (yields (fun _ => False) k) as Hnot by (apply yields_bind; intros; apply yields_fail);
    set (run := k) in * end.
  specialize (Hkeep ltac:(unfold run; keep)). cbn beta in Hkeep.
  assert (match (continue run masked p w1).1.1 with Done _ => False | _ => True end) as Hend.
  { unfold continue. destruct masked; [apply Hnot|]. destruct p as [[|n]|]; [done|apply Hnot..]. }
  destruct (continue run masked p w1) as [[[]?] ?]; simpl in *; try done; congruence.
Qed.

(** One check commits with its hold, or without. *)
Definition holding {A} (w : World) (result : Outcome (option A) * option nat * World) : Prop :=
  match result with
  | (Done (Some _), _, w') => held w' = S (held w)
  | (Done None, _, w') | (Failed _, _, w') => held w' = held w
  | (Interrupted, _, w') => held w' = held w \/ held w' = S (held w)
  | (Dangling, _, _) => True
  end.

Lemma holding_commitCheck {A} fuel prepared (checked : PreparedCheck A) hold masked patience w :
  holdsOnce hold -> refuses (check_admission checked false) ->
  holding w (commitCheck versions maximumEncodedBytes input fuel prepared checked hold masked patience w).
Proof.
  intros Hhold Hr. unfold commitCheck. unfold mbind, engine_bind.
  set (withhold := activateIntent versions maximumEncodedBytes input fuel prepared
    (check_admission checked false)).
  destruct (check_admits checked).
  - pose proof (held_activateHeld fuel prepared (check_admission checked true) _ masked patience w
      (holdsOnce_catch fuel prepared (check_admission checked false) hold Hhold)) as Hh.
    fold withhold in Hh.
    destruct (activateHeld _ _ _ _ _ _ _ _ _ _) as [[[a|e| |] p] w1]; simpl in *; try done; [|by left].
    unfold continue. destruct a as [[]|c|barrier], masked, p as [[|n]|]; simpl in *; auto.
  - pose proof (keeps_activateIntent fuel prepared (check_admission checked false) masked patience w) as Hk.
    pose proof (refused_not_ready fuel prepared _ Hr masked patience w) as Hnot. fold withhold in Hk, Hnot.
    destruct (withhold masked patience w) as [[[a|e| |] p] w1]; simpl in *; try done; [|by left].
    unfold continue. destruct a as [[]|c|barrier], masked, p as [[|n]|]; simpl in *; auto; by destruct Hnot.
Qed.

Lemma holding_kept {A} w w1 (result : Outcome (option A) * option nat * World) :
  held w1 = held w -> holding w1 result -> holding w result.
Proof.
  intros Heq. unfold holding. destruct result as [[[[a|]|e| |] p] w2]; cbn beta in Heq; by rewrite ?Heq.
Qed.

Lemma holding_after {A B} (phi : A -> Prop) (m : Engine A) (k : A -> Engine (option B)) masked patience w :
  keepsHeld m -> yields phi m ->
  (forall a masked patience w1, phi a -> holding w1 (k a masked patience w1)) ->
  holding w ((m ≫= k) masked patience w).
Proof.
  intros Hm Hphi Hk. specialize (Hm masked patience w). specialize (Hphi masked patience w).
  unfold mbind, engine_bind. destruct (m masked patience w) as [[[a|e| |] p] w1]; simpl in *; auto.
  apply (holding_kept w w1); [done|]. unfold continue.
  destruct masked; [by apply Hk|]. destruct p as [[|n]|]; [by left|by apply Hk..].
Qed.

Lemma holding_untilFresh {A} (attempt : bool -> Engine (option A)) left :
  (forall terminal masked patience w, holding w (attempt terminal masked patience w)) ->
  forall masked patience w, holding w (untilFreshFrom attempt left masked patience w).
Proof.
  intros Hattempt. induction left as [|left IH]; intros masked patience w; simpl; [done|].
  specialize (Hattempt (bool_decide (left = 0)) masked patience w).
  unfold mbind, engine_bind.
  destruct (attempt _ masked patience w) as [[[[a|]|e| |] p] w1]; simpl in *; auto.
  - unfold continue. destruct masked; [done|]. destruct p as [[|n]|]; simpl; auto.
  - apply (holding_kept w w1); [done|]. unfold continue.
    destruct masked; [by apply IH|]. destruct p as [[|n]|]; [by left|by apply IH..].
Qed.

(** C20: a checked send keeps its caller's hold exactly when its post is bound.
    Whatever check decides it, with up to three attempts and an interruption at
    any point: one activation under a hold keeps the hold when it is ready, and
    gives it up when it is refused, fails or is interrupted; so a checked send
    that returns has kept the hold once, one that fails has kept none, and one
    that is interrupted has kept at most the one of the post it had bound. *)
Theorem checked_send_holds hold : holdsOnce hold ->
  (forall fuel prepared admission masked patience w,
     match activateHeld versions maximumEncodedBytes input fuel prepared admission hold masked patience w with
     | (Done (Activation_ready _), _, w') => held w' = S (held w)
     | (Dangling, _, _) => True
     | (_, _, w') => held w' = held w
     end) /\
  (forall A attaches fuel memberCards content (check : PreparedSend -> bool -> Engine (PreparedCheck A)),
     (forall prepared terminal, keepsHeld (check prepared terminal) /\
        yields (fun checked => refuses (check_admission checked false)) (check prepared terminal)) ->
     forall masked patience w,
       match prepareCheckedSend versions maximumEncodedBytes input attaches fuel memberCards content
               check hold masked patience w with
       | (Done _, _, w') => held w' = S (held w)
       | (Failed _, _, w') => held w' = held w
       | (Interrupted, _, w') => held w' = held w \/ held w' = S (held w)
       | (Dangling, _, _) => True
       end).
Proof.
  intros Hhold. split; [intros; by apply held_activateHeld|].
  intros A attaches fuel memberCards content check Hcheck masked patience w. unfold prepareCheckedSend.
  set (finish := fun committed : option (PreparedSendHandle * A) =>
    match committed with Some result => mret result | None => fail representationFailure end).
  set (body := awaitRouterAttachment (R := R) attaches ;;
    prepared ← prepareIntent versions input memberCards content;
    untilFresh (fun terminal =>
      checked ← catch (fun e => match e with Store error => Some (fail (storeFailure error)) | _ => None end)
        (check prepared terminal);
      commitCheck versions maximumEncodedBytes input fuel prepared checked hold)).
  assert (holding w (body masked patience w)) as Hbody.
  { apply (holding_after (fun _ => True)).
    - unfold awaitRouterAttachment. keep.
    - apply yields_true.
    - intros [] ma pa wa _. apply (holding_after (fun _ => True)); [apply keeps_prepareIntent|apply yields_true|].
      intros prepared mb pb wb _. apply holding_untilFresh. intros terminal mc pc wc.
      destruct (Hcheck prepared terminal) as [Hkeep Hrefuses].
      apply (holding_after (fun checked => refuses (check_admission checked false))).
      + apply keeps_catch; [done|]. intros e k He. destruct e; try done. injection He as <-. apply keeps_fail.
      + apply yields_catch; [done|]. intros e k He. destruct e; try done. injection He as <-. apply yields_fail.
      + intros checked md pd wd Hr. by apply holding_commitCheck. }
  assert ((awaitRouterAttachment attaches ;;
    prepared ← prepareIntent versions input memberCards content;
    untilFresh (fun terminal =>
      checked ← catch (fun e => match e with Store error => Some (fail (storeFailure error)) | _ => None end)
        (check prepared terminal);
      commitCheck versions maximumEncodedBytes input fuel prepared checked hold) ≫= finish)
    masked patience w = (body ≫= finish) masked patience w) as ->.
  { unfold body. rewrite engine_assoc. apply engine_bind_ext. intros [] ma pa wa. by rewrite engine_assoc. }
  unfold mbind, engine_bind. destruct (body masked patience w) as [[[[r|]|e| |] p] w1]; simpl in *; auto;
    unfold continue; destruct masked; simpl; auto; destruct p as [[|n]|]; simpl; auto.
Qed.

End holds.

End sends.
(** ** A checked send *)

#[local] Existing Instances Hosts.base64url Hosts.json Hosts.digest Hosts.signatures.
#[local] Existing Instances SealedBodyRuns.jwe.
Import RecordRuns.

#[local] Instance host : EngineHost := {|
  randomness := fun n => mkRandomness (Hosts.bytesOf 16 (Z.of_nat n)) SealedBodyRuns.salt "entropy"%string;
  tokenDraws := fun n => [Hosts.bytesOf 16 (Z.of_nat n)];
|}.
#[local] Instance sending : SendHost := {| postIdBytes := fun n => Hosts.bytesOf 32 (Z.of_nat n) |}.

(** Recovery that does nothing but count the holds. *)
#[local] Instance counting : RecoveryPhase nat := {|
  rearmCatchUp := fun _ => mret tt;
  recoveryHeadAdvanced := fun _ => mret tt;
|}.
Definition countedHold : Engine (R := nat) (Engine unit) :=
  syncWith (fun w => (sync (set_recovery pred), set_recovery S w)).
Lemma countedHold_once : holdsOnce (R := nat) id countedHold.
Proof. by intros masked patience w. Qed.

Definition sender : EndpointEngineInput := Eval vm_compute in
  mkInput (mkSigner SealedBodyRuns.cardA (Hosts.keyOf "a"%char) (Hosts.keyOf "a"%char))
    Hosts.registryKey V.
Definition quietWorld : World nat := mkWorld nat [] [] [] [] [] [] [] [] [] None [] [] [] 0
  (writeIdentity (StoreDatabase.mkIdentity (localAgentId sender) "card") createStore).2
  (Some (ga_routerInstanceId anchor)) 0 [] [] [] 0.

(** A check that admits, and would commit a refusal as withheld. *)
Definition admitting (prepared : PreparedSend) (terminal : bool) : Engine (R := nat) (PreparedCheck unit) :=
  mret (mkCheck unit true (fun permit => if (permit : bool) then admitIntent commit_confirmed else fun _ db => (Succeed StoreDatabase.CommitWithheld, db))
    (Refused "withheld") tt).
Definition checkedSend : Engine (R := nat) (PreparedSendHandle * unit) :=
  prepareCheckedSend None Hosts.maximum sender false 1 [SealedBodyRuns.cardA; SealedBodyRuns.cardB]
    (content firstIntent) admitting countedHold.

Lemma admitting_refuses prepared terminal :
  keeps (fun w : World nat => id (recovery w)) (admitting prepared terminal) /\
  yields (fun checked => refuses (check_admission checked false)) (admitting prepared terminal).
Proof. split; [apply keeps_ret|]. by intros masked patience w binding db. Qed.

Lemma checked_send_holds_witness : exists handle patience w',
  checkedSend false None quietWorld = (Done handle, patience, w') /\ recovery w' = 1.
Proof.
  pose proof (proj2 (checked_send_holds None Hosts.maximum sender id (fun _ _ _ _ => eq_refl)
    countedHold countedHold_once) unit false 1 [SealedBodyRuns.cardA; SealedBodyRuns.cardB]
    (content firstIntent) admitting admitting_refuses false None quietWorld) as Hheld.
  fold checkedSend in Hheld.
  assert (exists handle, (checkedSend false None quietWorld).1.1 = Done handle) as [handle Hdone]
    by (eexists; vm_compute; reflexivity).
  destruct (checkedSend false None quietWorld) as [[o patience] w']. simpl in Hdone. subst o.
  exists handle, patience, w'. split; [reflexivity|exact Hheld].
Defined.

End SendLaws.
