(* ===== verification/Certification.v ===== *)
(** Certification: Router-ordered proposal selection, addressed record
    certification, and the resume of the obligations a fold owes
    (packages/client/src/communication/conversations/certification/index.ts
    and certification/dissemination.ts).

    An operation takes the engine's gate, so a history of operations is a
    sequence of them.  What an operation starts in another phase is an
    [EnginePhases]. *)
From S2P Require Import Prelude JsMap Identifiers CollectivePart Json Address SignedMessages.
From S2P Require Import SealedBody RecordSchemas Records OuterBody StoredHistory StoreDatabase.
From S2P Require Import StoreQueues StoreRecords StoreAnchors EngineRuntime HistoryBuild Outbox.
Local Open Scope string_scope.

Module Certification.
Import CollectivePart CanonicalJson ClientJson SendErrors RecordSchemas Records OuterBody.
Import StoredHistory EngineRuntime Fences HistoryBuild Outbox.

Section certification.
Context `{Base64Url} `{HostJson} `{Jose} `{Sha256} `{JoseEncryption} `{!EngineHost}.
Context (versions : option Wire.WireVersions) (maximumEncodedBytes : Z).
Context {R : Type} `{!EnginePhases R}.
Context (input : EndpointEngineInput).

#[local] Instance descriptor_i : JsonSchema MembershipDescriptor := descriptor_schema versions.
#[local] Instance genesis_anchor_i : JsonSchema GenesisAnchorBody := genesis_anchor_schema versions.
#[local] Instance action_i : JsonSchema ActionCore := action_schema versions.
#[local] Instance statement_i : JsonSchema EvidenceStatement := statement_schema versions.

#[local] Abbreviation World := (World R).
#[local] Abbreviation Engine := (@Engine R).
#[local] Abbreviation queueEvidence := (Outbox.queueEvidence versions maximumEncodedBytes input).
#[local] Abbreviation queueActionCertifiedRecord :=
  (Outbox.queueActionCertifiedRecord versions maximumEncodedBytes input).
#[local] Abbreviation protocolEvidence := (protocolEvidence versions maximumEncodedBytes).
#[local] Abbreviation storedCertifiedRecord := (storedCertifiedRecord versions maximumEncodedBytes).
#[local] Abbreviation verifyStableEvidence := (verifyStableEvidence versions maximumEncodedBytes).

(** A value with no local representation fails the worker's persistence. *)
Definition represented {A} (o : option A) : Engine A := ofOption Persistence o.
(** One refused by verification fails as a representation. *)
Definition verified {A} (o : option A) : Engine A := ofOption Representation o.

(** ** Positions *)

Definition currentAnchorHash (conversation : EngineConversation) : Engine string :=
  match ec_currentAnchor conversation with
  | RouterGenesis anchor => represented (hashAnchor versions (AnchorGenesis anchor))
  | RouterReanchor completed => mret (cp_anchorHash completed)
  end.

Definition gapFree (conversation : EngineConversation) (action : ActionCore) : Engine bool :=
  match action with
  | GENESIS genesis =>
      match ec_head conversation, ec_currentAnchor conversation with
      | None, RouterGenesis anchor => represented (equalCanonical anchor (gc_anchor genesis))
      | _, _ => mret false
      end
  | POST post =>
      if bool_decide (ch_recordHash <$> ec_head conversation = Some (pa_previousRecordHash post))
      then
        anchorHash ← currentAnchorHash conversation;
        mret (bool_decide (anchorHash = pa_anchorHash post))
      else mret false
  end.

Definition ingressMembership (action : ActionCore) : Engine VerifiedMembership :=
  retained ← gets (fun w => jm_get (conversations w) (conversationId action));
  match retained, action with
  | Some r, _ => conversation ← conversationAt r; mret (ec_membership conversation)
  | None, GENESIS genesis => verified (verifyMembershipDescriptor versions (gc_membership genesis)
      (registrySignerPublicKey input))
  | None, POST _ => fail Representation
  end.

(** A conversation object not retained yet: only its creator refers to it. *)
Definition newConversation (conversation : EngineConversation) : Engine Ref :=
  r ← gets (fun w => length (conversationHeap w));
  sync (set_conversationHeap (fun h => (h ++ [conversation])%list)) ;;
  mret r.

Definition conversationForAction (action : ActionCore) (routerInstanceId : string) :
    Engine (option Ref) :=
  retained ← gets (fun w => jm_get (conversations w) (conversationId action));
  match retained, action with
  | Some r, _ => mret (Some r)
  | None, POST _ => mret None
  | None, GENESIS genesis =>
      membership ← verified (verifyMembershipDescriptor versions (gc_membership genesis)
        (registrySignerPublicKey input));
      if decide (ga_routerInstanceId (gc_anchor genesis) <> routerInstanceId) then mret None
      else
        r ← newConversation (mkConversation (gc_conversationId genesis) membership
          (RouterGenesis (gc_anchor genesis)) None);
        mret (Some r)
  end.

(** ** Locks *)

Definition genesisFoundation (conversation : EngineConversation) (genesis : GenesisActionCore) :
    Engine StoreDatabase.ConversationFoundation :=
  canonicalMembership ← represented
    (encodeCanonical (descriptor (ec_membership conversation)));
  anchorHash ← represented (hashAnchor versions (AnchorGenesis (gc_anchor genesis)));
  canonicalAnchor ← represented (encodeCanonical (gc_anchor genesis));
  mret (StoreDatabase.mkFoundation (gc_conversationId genesis)
    (hash (ec_membership conversation)) canonicalMembership anchorHash canonicalAnchor).

Definition proposalLock (conversation : EngineConversation) (action : ActionCore)
    (actionHash : string) : Engine StoreDatabase.ProposalLock :=
  canonicalActionCore ← represented (encodeCanonical action);
  mret (StoreDatabase.mkLock (ec_conversationId conversation) (previousRecordHash action)
    actionHash canonicalActionCore).

Definition lockAction (r : Ref) (action : ActionCore) (actionHash : string) : Engine unit :=
  conversation ← conversationAt r;
  lock ← proposalLock conversation action actionHash;
  held ← gets (fun w => jm_has (conversations w) (conversationId action));
  match action, held with
  | GENESIS genesis, false =>
      foundation ← genesisFoundation conversation genesis;
      store (StoreAnchors.lockGenesisProposal foundation lock) ;;
      sync (set_conversations (fun m => jm_set m (conversationId action) r))
  | _, _ => store (StoreAnchors.lockProposal lock) ;; mret tt
  end.

(** ** Folds *)

(** [foldFor], which runs in one synchronous step: the state with the fold,
    and its reference. *)
Definition foldForIn (r : Ref) (conversation : EngineConversation) (action : ActionCore)
    (actionHash : string) (w : World) : Ref * World :=
  match jm_get (actionFolds w) actionHash with
  | Some retained => (retained, w)
  | None =>
      let fold := makeActionFold r action actionHash
        (match action with
         | GENESIS genesis => RouterGenesis (gc_anchor genesis)
         | POST _ => ec_currentAnchor conversation
         end) in
      let fresh := length (foldHeap w) in
      (fresh, set_actionFolds (fun m => jm_set m actionHash fresh)
                (set_foldHeap (fun h => (h ++ [fold])%list) w))
  end.

Definition foldFor (r : Ref) (action : ActionCore) (actionHash : string) : Engine Ref :=
  conversation ← conversationAt r;
  syncWith (foldForIn r conversation action actionHash).

Definition subjectId (role : Role) (fold : EngineActionFold) : option string :=
  match role with RoleAction => Some (fold_actionHash fold) | RoleDurability => fold_recordHash fold end.
Definition evidenceOf (role : Role) (fold : EngineActionFold) :=
  match role with
  | RoleAction => fold_actionEvidence fold
  | RoleDurability => fold_durabilityEvidence fold
  end.
Definition set_evidenceOf (role : Role) :=
  match role with RoleAction => set_actionEvidence | RoleDurability => set_durabilityEvidence end.
Definition evidenceKind (role : Role) : StoredHistory.EvidenceKind :=
  match role with RoleAction => ActionEvidence | RoleDurability => DurabilityEvidence end.
Definition set_queuedFlag (role : Role) :=
  match role with
  | RoleAction => set_localActionEvidenceQueued
  | RoleDurability => set_localDurabilityEvidenceQueued
  end.

Definition addEvidence (message : SignedMessages.SignedMessage)
    (evidence : list (string * SignedMessages.SignedMessage)) :=
  jm_set evidence (SignedMessages.senderAgentId message) message.

Definition mergeEvidence (fold : Ref) (role : Role) (message : SignedMessages.SignedMessage) :
    Engine unit :=
  f ← foldAt fold;
  match subjectId role f with
  | None => mret tt
  | Some subject =>
      conversation ← conversationAt (fold_conversation f);
      row ← represented (protocolEvidence (ec_conversationId conversation) (evidenceKind role)
        subject message);
      store (StoreRecords.mergeEvidence row) ;;
      sync (updateFold fold (set_evidenceOf role (addEvidence message)))
  end.

Definition completeLocalEvidence (fold : Ref) (role : Role)
    (evidence : SignedMessages.SignedMessage) : Engine unit :=
  f ← foldAt fold;
  (if jm_has (evidenceOf role f) (localAgentId input) then mret tt
   else mergeEvidence fold role evidence) ;;
  uninterruptible (
    f ← foldAt fold;
    conversation ← conversationAt (fold_conversation f);
    mapError (fun _ => Persistence) (queueEvidence conversation evidence) ;;
    sync (updateFold fold (set_queuedFlag role))).

(** [signEvidenceMessage] with the local authority. *)
Definition signEvidence (s : EvidenceStatement) : Engine SignedMessages.SignedMessage :=
  fun _ patience w =>
    match signEvidenceMessage versions maximumEncodedBytes s (sg_agentCard (signer input))
            (sg_authorityPublicKey (signer input)) (sg_signingKey (signer input)) with
    | Some message => (Done message, patience, set_signed (fun l => (l ++ [s])%list) w)
    | None => (Failed Persistence, patience, w)
    end.

Definition hasActionThreshold (fold : EngineActionFold) (conversation : EngineConversation) : bool :=
  let memberCount := length (members (ec_membership conversation)) in
  let count := length (fold_actionEvidence fold) in
  let thresholdReached :=
    if isGenesis (fold_action fold) then bool_decide (count = memberCount)
    else bool_decide (quorumThreshold memberCount <= count)%nat in
  thresholdReached &&
  jm_has (fold_actionEvidence fold) (authorAgentId (postIntent (fold_action fold))).

Definition hasDurabilityThreshold (fold : EngineActionFold) (conversation : EngineConversation) :
    bool :=
  bool_decide (quorumThreshold (length (members (ec_membership conversation)))
                 <= length (fold_durabilityEvidence fold))%nat.

Definition signLocalActionEvidence (f : EngineActionFold) : Engine SignedMessages.SignedMessage :=
  signEvidence (ActionSignature (wireVersion input) (localAgentId input) (fold_actionHash f)).

Definition selectLocalActionEvidence (fold : Ref) : Engine (option SignedMessages.SignedMessage) :=
  f ← foldAt fold;
  match jm_get (fold_actionEvidence f) (localAgentId input) with
  | Some retained => mret (Some retained)
  | None =>
      conversation ← conversationAt (fold_conversation f);
      if hasActionThreshold f conversation then mret None
      else message ← signLocalActionEvidence f; mret (Some message)
  end.

Definition localActionEvidence (fold : Ref) : Engine unit :=
  f ← foldAt fold;
  if localActionEvidenceQueued f then mret tt
  else
    evidence ← selectLocalActionEvidence fold;
    match evidence with
    | None => mret tt
    | Some message => completeLocalEvidence fold RoleAction message
    end.

Definition localDurabilityEvidence (fold : Ref) : Engine unit :=
  f ← foldAt fold;
  match fold_recordHash f with
  | None => mret tt
  | Some recordHash =>
      if localDurabilityEvidenceQueued f then mret tt
      else
        match jm_get (fold_durabilityEvidence f) (localAgentId input) with
        | Some retained => completeLocalEvidence fold RoleDurability retained
        | None =>
            if certified f then mret tt
            else
              conversation ← conversationAt (fold_conversation f);
              evidence ← signEvidence (DurabilityVote (wireVersion input) (localAgentId input)
                (ec_conversationId conversation) (hash (ec_membership conversation)) recordHash);
              completeLocalEvidence fold RoleDurability evidence
        end
  end.

(** ** Promotion *)

(** [applyPromotionState]: one synchronous step; the local post's intent, if
    it waits. *)
Definition applyPromotionState (fold : Ref) (record : CertifiedRecord) : Engine (option Ref) :=
  f ← foldAt fold;
  let hash := recordHash (actionCertifiedRecord record) in
  let intent := postIntent (fold_action f) in
  syncWith (fun w =>
    let w' := set_completedPosts (fun m => jm_set m (postId intent) hash)
      (updateConversation (fold_conversation f) (set_head (mkHead hash record))
        (updateFold fold set_certified w)) in
    (if decide (authorAgentId intent = localAgentId input)
     then jm_get (intents w') (postId intent) else None, w')).

Definition completePromotion (fold : Ref) (record : CertifiedRecord) : Engine unit :=
  waiting ← applyPromotionState fold record;
  match waiting with
  | None => mret tt
  | Some intent =>
      i ← intentAt intent;
      settleLatch (ep_completion i) (Succeed (recordHash (actionCertifiedRecord record)))
  end.

Inductive ReproposalDisposition := reproposal_fail | reproposal_ignore.
Global Instance ReproposalDisposition_eq_dec : EqDecision ReproposalDisposition.
Proof. solve_decision. Defined.

Definition reproposalDispositionByReason (reason : SendFailure) : ReproposalDisposition :=
  match reason with
  | CertificationUnavailable | NetworkUnavailable | DeliveryPending => reproposal_ignore
  | _ => reproposal_fail
  end.

Definition reproposePendingIntent (pending : Ref) : Engine unit :=
  catch (fun e =>
    match e with
    | SendFailed error =>
        Some (if decide (reproposalDispositionByReason (reason error) = reproposal_ignore)
              then mret tt else fail Persistence)
    | _ => None
    end) (proposeIntent pending ;; mret tt).

(** [Effect.forEach] takes the intents there are when it starts. *)
Definition rebasePendingIntents (conversationId : string) : Engine unit :=
  recovering ← gets (fun w => isRecovering w conversationId);
  if (recovering : bool) then mret tt
  else
    pending ← gets (fun w => (intents w).*2);
    forEach (fun pending =>
      i ← intentAt pending;
      completed ← gets (fun w => jm_has (completedPosts w) (postId (ep_intent i)));
      if bool_decide (pi_conversationId (ep_intent i) = conversationId) && negb completed
      then reproposePendingIntent pending else mret tt) pending.

Definition certifiedRecordRows (fold : Ref) (record : CertifiedRecord)
    (votes : list SignedMessages.SignedMessage) :
    Engine (StoredCertifiedRecord * option StoreDatabase.InboundDeliveryInput) :=
  f ← foldAt fold;
  stored ← represented (storedCertifiedRecord record (evidenceValues (fold_actionEvidence f)) votes);
  if decide (authorAgentId (postIntent (fold_action f)) = localAgentId input)
  then mret (stored, None)
  else
    conversation ← conversationAt (fold_conversation f);
    delivery ← represented (inboundDelivery conversation record (localAgentId input));
    mret (stored, Some delivery).

Definition conversationIdOf (fold : Ref) : Engine string :=
  f ← foldAt fold;
  conversation ← conversationAt (fold_conversation f);
  mret (ec_conversationId conversation).

Definition promote (fold : Ref) (record : CertifiedRecord) : Engine unit :=
  f ← foldAt fold;
  '(stored, delivery) ← certifiedRecordRows fold record
    (evidenceValues (fold_durabilityEvidence f));
  uninterruptible (
    n ← draw;
    store (StoreRecords.promoteRecord stored delivery (tokenDraws n)) ;;
    completePromotion fold record) ;;
  conversationId ← conversationIdOf fold;
  rebasePendingIntents conversationId ;;
  headAdvanced conversationId.

Definition maybePromote (fold : Ref) (acr : ActionCertifiedRecord) : Engine unit :=
  f ← foldAt fold;
  conversation ← conversationAt (fold_conversation f);
  if negb (hasDurabilityThreshold f conversation) || certified f then mret tt
  else
    record ← represented (makeCertifiedRecord acr f);
    _ ← represented (verifyCertifiedRecord versions maximumEncodedBytes record
      (ec_membership conversation));
    promote fold record.

(** ** Action certificates *)

Definition stageActionCertificate (fold : Ref) (record : ActionCertifiedRecord) : Engine unit :=
  f ← foldAt fold;
  (if decide (fold_recordHash f = None) then
     stored ← represented (stagedRecord versions record);
     store (StoreRecords.stageRecordForDissemination stored) ;;
     uninterruptible (
       conversation ← conversationAt (fold_conversation f);
       mapError (fun _ => Persistence) (queueActionCertifiedRecord conversation record) ;;
       sync (fun w => set_recordFolds (fun m => jm_set m (recordHash record) fold)
         (updateFold fold (set_recordHash (recordHash record)) w)))
   else mret tt) ;;
  localDurabilityEvidence fold ;;
  maybePromote fold record.

(** The action-certified record of a fold's own evidence. *)
Definition ownActionCertifiedRecord (fold : Ref) : Engine ActionCertifiedRecord :=
  f ← foldAt fold;
  conversation ← conversationAt (fold_conversation f);
  anchorHash ← represented (recordAnchorHash versions f);
  represented (makeActionCertifiedRecord versions f conversation anchorHash).

Definition maybeCertifyAction (fold : Ref) : Engine unit :=
  f ← foldAt fold;
  conversation ← conversationAt (fold_conversation f);
  if negb (hasActionThreshold f conversation) || bool_decide (fold_recordHash f <> None)
  then mret tt
  else
    record ← ownActionCertifiedRecord fold;
    stageActionCertificate fold record.

(** ** Proposals *)

Definition prepareProposalFold (ingress : Ingress) (action : ActionCore) : Engine (option Ref) :=
  found ← conversationForAction action (routerInstanceId ingress);
  match found with
  | None => mret None
  | Some r =>
      conversation ← conversationAt r;
      free ← gapFree conversation action;
      if negb free then mret None
      else
        _ ← verified (verifyOuterMessage (outer ingress) (ec_membership conversation));
        action_ ← verified (verifyActionProposal versions action (ec_membership conversation)
          (SignedMessages.senderAgentId (outer ingress)));
        lockAction r action (va_actionHash action_) ;;
        fold ← foldFor r action (va_actionHash action_);
        mret (Some fold)
  end.

Definition acceptProposal (ingress : Ingress) (proposal : ActionProposal) :
    Engine RouterIngressDisposition :=
  fold ← prepareProposalFold ingress (ap_action proposal);
  match fold with
  | None => mret ignored
  | Some fold =>
      localActionEvidence fold ;;
      maybeCertifyAction fold ;;
      mret accepted
  end.

(** ** Evidence *)

Definition advanceDurabilityFold (fold : Ref) : Engine unit :=
  f ← foldAt fold;
  match fold_recordHash f with
  | None => mret tt
  | Some recordHash =>
      found ← gets (fun w => jm_get (recordFolds w) recordHash);
      match found with
      | None => mret tt
      | Some record =>
          g ← foldAt record;
          conversation ← conversationAt (fold_conversation g);
          if negb (hasDurabilityThreshold g conversation) then mret tt
          else
            acr ← ownActionCertifiedRecord record;
            maybePromote record acr
      end
  end.

Definition advanceEvidenceFold (route : EvidenceRoute) : Engine unit :=
  match route_kind route with
  | RoleAction => maybeCertifyAction (route_fold route)
  | RoleDurability => advanceDurabilityFold (route_fold route)
  end.

Definition acceptEvidence (ingress : Ingress) (message : SignedMessages.SignedMessage)
    (s : EvidenceStatement) : Engine RouterIngressDisposition :=
  '(_, found) ← evidenceTarget s;
  match found with
  | None => mret ignored
  | Some route =>
      f ← foldAt (route_fold route);
      conversation ← conversationAt (fold_conversation f);
      evidence ← verified (verifyDeliveredEvidence versions maximumEncodedBytes (outer ingress)
        message (ec_membership conversation) (Some s));
      if negb (evidenceMatchesFold (route_kind route) f conversation (statement evidence))
      then mret ignored
      else
        mergeEvidence (route_fold route) (route_kind route) (ev_message evidence) ;;
        advanceEvidenceFold route ;;
        mret accepted
  end.

(** ** Records *)

Definition membershipForRecord (record : ActionCertifiedRecord) : Engine VerifiedMembership :=
  membership ← ingressMembership (core_action (recordCore record));
  _ ← verified (verifyActionCertifiedRecord versions maximumEncodedBytes record membership);
  mret membership.

Definition ensureConversation (membership : VerifiedMembership) (record : ActionCertifiedRecord) :
    Engine (option Ref) :=
  let action := core_action (recordCore record) in
  retained ← gets (fun w => jm_get (conversations w) (conversationId action));
  match retained, action, routerAnchor record with
  | Some r, _, _ => mret (Some r)
  | None, GENESIS genesis, RouterGenesis anchor =>
      r ← newConversation (mkConversation (gc_conversationId genesis) membership
        (RouterGenesis anchor) None);
      mret (Some r)
  | None, _, _ => mret None
  end.

Definition mergeActionCertificate (fold : Ref) (signatures : list Jws) : Engine unit :=
  forEach (fun representation =>
    f ← foldAt fold;
    conversation ← conversationAt (fold_conversation f);
    evidence ← verified (verifyStableEvidence representation (ec_membership conversation) None);
    if evidenceMatchesFold RoleAction f conversation (statement evidence)
    then mergeEvidence fold RoleAction (ev_message evidence)
    else fail Representation) signatures.

(** [dropFoldsAtPredecessor]: [dropped] are the folds of other actions at the
    predecessor of [action]; an entry whose objects are gone is kept. *)
Definition foldAtPredecessor (w : World) (conversationId : string) (action : ActionCore)
    (fold : Ref) : bool :=
  match foldHeap w !! fold with
  | None => false
  | Some f =>
      match conversationHeap w !! fold_conversation f with
      | None => false
      | Some c => bool_decide (ec_conversationId c = conversationId) &&
          bool_decide (previousRecordHash (fold_action f) = previousRecordHash action)
      end
  end.

Definition dropFoldsAtPredecessor (conversationId : string) (action : ActionCore) (kept : string)
    (w : World) : World :=
  let dropped := filter (fun entry : string * Ref => entry.1 <> kept /\
    foldAtPredecessor w conversationId action entry.2 = true) (actionFolds w) in
  foldl (fun w entry =>
    let w := set_actionFolds (fun m => jm_delete m entry.1) w in
    match foldHeap w !! entry.2 ≫= fold_recordHash with
    | Some recordHash => set_recordFolds (fun m => jm_delete m recordHash) w
    | None => w
    end) w dropped.

(** The adopted action's fold takes the whole certificate. *)
Definition adoptCertificate (r : Ref) (conversation : EngineConversation) (action : ActionCore)
    (actionHash : string) (signatures : list SignedMessages.SignedMessage) (w : World) : World :=
  let w := dropFoldsAtPredecessor (ec_conversationId conversation) action actionHash w in
  let '(adopted, w) := foldForIn r conversation action actionHash w in
  foldl (fun w message => updateFold adopted (set_actionEvidence (addEvidence message)) w)
    w signatures.

Definition supersedeLock (r : Ref) (record : ActionCertifiedRecord) : Engine unit :=
  let action := core_action (recordCore record) in
  let actionHash := core_actionHash (recordCore record) in
  conversation ← conversationAt r;
  lock ← proposalLock conversation action actionHash;
  signatures ← mapEach (fun representation =>
    evidence ← verified (verifyStableEvidence representation (ec_membership conversation) None);
    mret (ev_message evidence)) (ac_signatures (actionCertificate record));
  certificate ← mapEach (fun message => verified (protocolEvidence
    (ec_conversationId conversation) ActionEvidence actionHash message)) signatures;
  uninterruptible (
    store (StoreRecords.supersedeProposalLock lock certificate) ;;
    sync (adoptCertificate r conversation action actionHash signatures)).

Definition prepareRecordFold (ingress : Ingress) (membership : VerifiedMembership)
    (record : ActionCertifiedRecord) : Engine (option Ref) :=
  _ ← verified (verifyOuterMessage (outer ingress) membership);
  found ← ensureConversation membership record;
  let action := core_action (recordCore record) in
  let actionHash := core_actionHash (recordCore record) in
  match found with
  | None => mret None
  | Some r =>
      conversation ← conversationAt r;
      free ← gapFree conversation action;
      if negb free then mret None
      else
        catch (fun e =>
          match e with
          | Store reason =>
              if negb (isGenesis action) && bool_decide (reason = StoreDatabase.conflict)
              then Some (supersedeLock r record) else None
          | _ => None
          end) (lockAction r action actionHash) ;;
        fold ← foldFor r action actionHash;
        mergeActionCertificate fold (ac_signatures (actionCertificate record)) ;;
        mret (Some fold)
  end.

Definition acceptActionCertifiedRecord (ingress : Ingress) (record : ActionCertifiedRecord) :
    Engine RouterIngressDisposition :=
  membership ← membershipForRecord record;
  fold ← prepareRecordFold ingress membership record;
  match fold with
  | None => mret ignored
  | Some fold => stageActionCertificate fold record ;; mret accepted
  end.

Definition acceptCertifiedRecord (ingress : Ingress) (record : CertifiedRecord) :
    Engine RouterIngressDisposition :=
  let actionRecord := actionCertifiedRecord record in
  membership ← ingressMembership (core_action (recordCore actionRecord));
  evidence ← verified (verifyCertifiedRecord versions maximumEncodedBytes record membership);
  let votes := ev_message <$> evidence in
  fold ← prepareRecordFold ingress membership actionRecord;
  match fold with
  | None => mret ignored
  | Some fold =>
      '(stored, delivery) ← certifiedRecordRows fold record votes;
      uninterruptible (
        n ← draw;
        store (StoreRecords.applyCertifiedRecord stored delivery (tokenDraws n)) ;;
        sync (fun w => foldl (fun w vote =>
            updateFold fold (set_durabilityEvidence (addEvidence vote)) w)
          (set_recordFolds (fun m => jm_set m (recordHash actionRecord) fold)
            (updateFold fold (set_recordHash (recordHash actionRecord)) w)) votes) ;;
        completePromotion fold record) ;;
      conversationId ← conversationIdOf fold;
      rebasePendingIntents conversationId ;;
      headAdvanced conversationId ;;
      mret accepted
  end.

(** ** Ingress *)

Definition acceptPacket (ingress : Ingress) (packet : DirectPacket) :
    Engine RouterIngressDisposition :=
  match packet with
  | PacketProposal proposal => acceptProposal ingress proposal
  | PacketActionCertified record => acceptActionCertifiedRecord ingress record
  | PacketCertified record => acceptCertifiedRecord ingress record
  | PacketRequest _ | PacketPage _ | PacketIncomplete _ | PacketReanchor _ => mret ignored
  end.

(** What an ingress ignores, and what stops the worker. *)
Definition ignoring (m : Engine RouterIngressDisposition) : Engine RouterIngressDisposition :=
  catch (fun e =>
    match e with
    | Store reason => Some (if StoreDatabase.isSemanticStoreRejection reason
                            then mret ignored else fail Persistence)
    | _ => None
    end)
    (catch (fun e => if decide (e = Representation) then Some (mret ignored) else None) m).

Definition acceptEngineIngress (ingress : Ingress) (supplied : option EvidenceStatement) :
    Engine RouterIngressDisposition :=
  ignoring
    match payload ingress with
    | Direct packet => acceptPacket ingress packet
    | Evidence message =>
        s ← match supplied with
            | Some s => mret s
            | None => verified (decodeCanonical (SignedMessages.body message))
            end;
        acceptEvidence ingress message s
    end.

Definition acceptEngineRecoveryIngress (ingress : Ingress) : Engine RouterIngressDisposition :=
  ignoring
    match payload ingress with
    | Direct (PacketCertified record) => acceptCertifiedRecord ingress record
    | _ => mret ignored
    end.

(** ** Resume *)

Definition resumeFold (fold : Ref) : Engine unit :=
  catch (fun e =>
    match e with
    | Store reason => Some (if StoreDatabase.isSemanticStoreRejection reason
                            then mret tt else fail Persistence)
    | _ => None
    end) (
    localActionEvidence fold ;;
    maybeCertifyAction fold ;;
    f ← foldAt fold;
    match fold_recordHash f with
    | None => mret tt
    | Some _ =>
        localDurabilityEvidence fold ;;
        record ← ownActionCertifiedRecord fold;
        maybePromote fold record
    end).

Definition inConversation (w : World) (conversationId : option string) (fold : Ref) : bool :=
  match conversationId with
  | None => true
  | Some conversationId =>
      bool_decide ((foldHeap w !! fold) ≫= (fun f => ec_conversationId <$>
        conversationHeap w !! fold_conversation f) = Some conversationId)
  end.

Definition resumeEngineFolds (conversationId : option string) : Engine unit :=
  folds ← gets (fun w => filter (fun fold => inConversation w conversationId fold = true)
    (actionFolds w).*2);
  forEach resumeFold folds.

(** *** Dissemination *)

Definition obligationFold (obligation : string * string) : Engine Ref :=
  if negb (RecordHash obligation.2) then fail Persistence
  else
    found ← gets (fun w => jm_get (recordFolds w) obligation.2);
    match found with
    | None => fail Persistence
    | Some fold =>
        f ← foldAt fold;
        conversation ← conversationAt (fold_conversation f);
        if bool_decide (ec_conversationId conversation = obligation.1) &&
           bool_decide (fold_recordHash f = Some obligation.2)
        then mret fold else fail Persistence
    end.

Definition packetForObligation (fold : Ref) : Engine ActionCertifiedRecord :=
  record ← ownActionCertifiedRecord fold;
  f ← foldAt fold;
  if decide (Some (recordHash record) = fold_recordHash f) then mret record else fail Persistence.

Definition attachObligation (obligation : string * string) : Engine unit :=
  fold ← obligationFold obligation;
  packet ← packetForObligation fold;
  f ← foldAt fold;
  conversation ← conversationAt (fold_conversation f);
  uninterruptible (mapError (fun _ => Persistence) (queueActionCertifiedRecord conversation packet)).

(** The obligations [recover] returns are those without an envelope. *)
Definition resumeDisseminationObligations (conversationId : option string) : Engine unit :=
  obligations ← gets (fun w =>
    StoreQueues.readPendingDissemination (database w) conversationId);
  forEach attachObligation obligations.

End certification.
End Certification.
