(* ===== verification/CatchUp.v ===== *)
(** CatchUp: a recovery run asks every member for the certified history after
    its durable position, and any endpoint answers such requests
    (packages/client/src/communication/conversations/recovery/catch-up.ts, and
    the arming of a conversation's catch-up in recovery/index.ts).

    What a member asks and how it is armed ([CatchUpRequests]) does not need
    the protocol phases, which start it when a head advances; what it does
    with an answer ([CatchUp]) does. *)
From S2P Require Import Prelude JsMap Identifiers CollectivePart Json SignedMessages SealedBody.
From S2P Require Import RecordSchemas Records OuterBody StoredHistory StoreDatabase StoreRecovery.
From S2P Require Import EngineRuntime HistoryBuild Outbox Certification RecoveryState.
Local Open Scope string_scope.

Module CatchUpRequests.
Import CollectivePart CanonicalJson ClientJson RecordSchemas Records OuterBody StoredHistory.
Import StoreDatabase.
Import StoreRecovery EngineRuntime Fences HistoryBuild RecoveryState ReanchorVotes.

(** The resends after a conversation's first request. *)
Definition catchUpRetryAttempts : nat := 8.

Section requests.
Context `{Base64Url} `{HostJson} `{Jose} `{Sha256} `{JoseEncryption} `{!EngineHost} `{!RowOrder}.
Context (versions : option Wire.WireVersions) (maximumEncodedBytes : Z).
Context (input : EndpointEngineInput).

#[local] Instance request_i : JsonSchema CatchUpRequest := request_schema versions.

(** ** Positions and requests *)

Definition requestKey (request : CatchUpRequest) : string :=
  String.concat NUL [cr_conversationId request; cr_membershipHash request;
    requesterAgentId request; default "null" (knownRecordHash request);
    default "null" (knownAnchorHash request)].
Definition sameRequest (left right : CatchUpRequest) : bool :=
  bool_decide (requestKey left = requestKey right).

Definition durablePosition (conversationId : string) :
    Engine (StoredState * option ConversationPosition) :=
  recovery ← recoverOne conversationId;
  mret (recovery, findFirst (fun candidate =>
    bool_decide (po_conversationId candidate = conversationId)) (positions (st_history recovery))).

Definition decodeHash (p : string -> bool) (value : string) : option string :=
  if p value then Some value else None.
Definition decodeKnownRecordHash (position : ConversationPosition) : Engine (option string) :=
  match po_headRecordHash position with
  | None => mret None
  | Some head => h ← represented (decodeHash RecordHash head); mret (Some h)
  end.
Definition decodeKnownAnchorHash (position : ConversationPosition) : Engine (option string) :=
  match po_headRecordHash position with
  | None => mret None
  | Some _ => h ← represented (decodeHash AnchorHash (po_currentAnchorHash position)); mret (Some h)
  end.

Definition makeCatchUpRequest (membership : VerifiedMembership)
    (knownRecordHash knownAnchorHash : option string) : Engine CatchUpRequest :=
  represented (ofJson (toJson (mkCatchUpRequest (wireVersion input)
    (md_conversationId (descriptor membership)) (hash membership) (localAgentId input)
    knownRecordHash knownAnchorHash))).

(** Whether a pending request still names the position in memory. *)
Definition requestMatchesCurrentPosition (request : CatchUpRequest) : Engine bool :=
  found ← gets (fun w => jm_get (conversations w) (cr_conversationId request));
  match found with
  | None => mret false
  | Some r =>
      conversation ← conversationAt r;
      match ec_head conversation with
      | None => mret (bool_decide (knownRecordHash request = None) &&
                      bool_decide (knownAnchorHash request = None))
      | Some head =>
          anchorHash ← match ec_currentAnchor conversation with
                       | RouterGenesis anchor => represented (hashAnchor versions (AnchorGenesis anchor))
                       | RouterReanchor completed => mret (cp_anchorHash completed)
                       end;
          mret (bool_decide (knownRecordHash request = Some (ch_recordHash head)) &&
                bool_decide (knownAnchorHash request = Some anchorHash))
      end
  end.

(** The uncompleted re-anchor candidates at a request's position. *)
Definition heldReanchorCandidates (recovery : StoredState) (request : CatchUpRequest) :
    list RecoveredReanchor :=
  filter (fun candidate =>
    ra_conversationId (rr_staged candidate) = cr_conversationId request /\
    Some (ra_previousAnchorHash (rr_staged candidate)) = knownAnchorHash request /\
    Some (ra_selectedRecordHash (rr_staged candidate)) = knownRecordHash request /\
    rr_canonicalCompletedReanchor candidate = None) (st_stagedReanchors recovery).

(** [recoveryEnvelope]: signed and queued for every member. *)
Definition queueRecoveryEnvelope (membership : VerifiedMembership) (body : DecodedOuterBody) :
    Engine unit :=
  mapError (fun _ => Persistence) (
    message ← Outbox.sign versions maximumEncodedBytes input membership body;
    Outbox.enqueueSigned versions maximumEncodedBytes
      (md_conversationId (descriptor membership)) message None).

(** ** Asking *)

(** Whether the request restarts its attestations. *)
Inductive HeldAttestations := restart | keep.
Global Instance HeldAttestations_eq_dec : EqDecision HeldAttestations.
Proof. solve_decision. Defined.

Definition restartAttestations (instance : string) (recovery : StoredState)
    (request : CatchUpRequest) (state : CatchUpState) : CatchUpState :=
  let conversation := cr_conversationId request in
  let earlier := existsb (fun candidate =>
    bool_decide (ra_routerInstanceId (rr_staged candidate) <> instance))
    (heldReanchorCandidates recovery request) in
  set_readiness (fun m => if earlier then jm_set m conversation every_member
                          else jm_delete m conversation)
    (set_incompleteResponders (fun m => jm_set m conversation []) state).

(** The pending request is replaced, and its attestations start over unless it
    names the same position and they are kept. *)
Definition replaceRequest (held : HeldAttestations) (instance : string) (recovery : StoredState)
    (request : CatchUpRequest) (state : CatchUpState) : CatchUpState :=
  let conversation := cr_conversationId request in
  let asked := jm_get (pendingRequests state) conversation in
  let state := set_pendingRequests (fun m => jm_set m conversation request) state in
  if bool_decide (held = restart) ||
     match asked with None => true | Some asked => negb (sameRequest asked request) end
  then restartAttestations instance recovery request state else state.

Definition queueCatchUpRequest (r : Ref) (conversationId : string) (held : HeldAttestations) :
    Engine unit :=
  active ← gets (isActive r);
  run ← runAt r;
  match jm_get (run_memberships run) conversationId with
  | None => mret tt
  | Some membership =>
      if negb active then mret tt
      else
        let asked := jm_get (pendingRequests (catchUp run)) conversationId in
        unchanged ← match asked with
                    | Some asked =>
                        if decide (held = keep) then requestMatchesCurrentPosition asked
                        else mret false
                    | None => mret false
                    end;
        match asked, unchanged with
        | Some asked, true => queueRecoveryEnvelope membership (Direct (PacketRequest asked))
        | _, _ =>
            '(recovery, position) ← durablePosition conversationId;
            position ← represented position;
            knownRecordHash ← decodeKnownRecordHash position;
            knownAnchorHash ← decodeKnownAnchorHash position;
            request ← makeCatchUpRequest membership knownRecordHash knownAnchorHash;
            sync (updateRun r (set_catchUp
              (replaceRequest held (run_routerInstanceId run) recovery request))) ;;
            queueRecoveryEnvelope membership (Direct (PacketRequest request))
        end
  end.

Definition requestCertifiedHistory (r : Ref) (conversationId : string) : Engine unit :=
  queueCatchUpRequest r conversationId restart.
Definition resendCertifiedHistoryRequest (r : Ref) (conversationId : string) : Engine unit :=
  queueCatchUpRequest r conversationId keep.

(** ** Readiness *)

(** The answers a position still waits for, whose readiness is given. *)
Definition neededAnswers (held : option Readiness) (memberCount : nat) : nat :=
  if decide (held = Some every_member) then memberCount - 1
  else quorumThreshold memberCount - 1.

Definition claimReadyPosition (memberCount : nat) (conversationId : string) (state : CatchUpState) :
    bool * CatchUpState :=
  let held := jm_get (readiness state) conversationId in
  let answered := length (default [] (jm_get (incompleteResponders state) conversationId)) in
  if bool_decide (held = Some ready) || bool_decide (answered < neededAnswers held memberCount)%nat
  then (false, state)
  else (true, set_readiness (fun m => jm_set m conversationId ready) state).

Definition recordIncompleteResponder (memberCount : nat) (conversationId sender : string)
    (state : CatchUpState) : bool * CatchUpState :=
  let responders := default [] (jm_get (incompleteResponders state) conversationId) in
  if decide (sender ∈ responders) then (false, state)
  else claimReadyPosition memberCount conversationId
    (set_incompleteResponders (fun m => jm_set m conversationId (responders ++ [sender])%list) state).

(** One synchronous step on a run's catch-up. *)
Definition onCatchUp {A} (r : Ref) (f : CatchUpState -> A * CatchUpState) : Engine A :=
  run ← runAt r;
  let '(a, state) := f (catchUp run) in
  sync (updateRun r (set_catchUp (fun _ => state))) ;; mret a.

Definition spendRetries (memberCount : nat) (conversationId : string) (state : CatchUpState) :
    bool * CatchUpState :=
  claimReadyPosition memberCount conversationId
    (if decide (jm_get (readiness state) conversationId = Some ready) then state
     else set_readiness (fun m => jm_set m conversationId retries_spent) state).

Definition settleOnQuorum (r : Ref) (conversationId : string) : Engine bool :=
  active ← gets (isActive r);
  run ← runAt r;
  match jm_get (run_memberships run) conversationId with
  | Some membership =>
      if (active : bool) then onCatchUp r (spendRetries (length (members membership)) conversationId)
      else mret false
  | None => mret false
  end.

(** ** Arming *)

(** [FiberMap.run]: it replaces the conversation's fiber. *)
Definition armCatchUp (r : Ref) (conversationId : string) : Engine unit :=
  requestCertifiedHistory r conversationId ;;
  sync (updateRun r (fun run =>
    if decide (conversationId ∈ completedConversations run) then run
    else set_retries (fun m => jm_set m conversationId catchUpRetryAttempts) run)).

(** The active run and its reference. *)
Definition currentRun : Engine (option (Ref * RecoveryRun)) :=
  active ← gets (fun w => activeRun (recovery w));
  match active with
  | None => mret None
  | Some r => run ← runAt r; mret (Some (r, run))
  end.

Definition rearmIfPaused (conversationId : string) : Engine unit :=
  active ← currentRun;
  match active with
  | None => mret tt
  | Some (r, run) =>
      if negb (jm_has (run_memberships run) conversationId) ||
         bool_decide (conversationId ∈ completedConversations run) ||
         jm_has (retries run) conversationId
      then mret tt else armCatchUp r conversationId
  end.

(** The arming itself is a fiber of the run. *)
Definition rearmPausedCatchUp (conversationId : option string) : Engine unit :=
  active ← currentRun;
  match active with
  | None => mret tt
  | Some (r, run) =>
      sync (set_recovery (set_tasks (fun l => (l ++ [RearmTask r
        match conversationId with
        | None => jm_keys (run_memberships run)
        | Some conversationId => [conversationId]
        end])%list)))
  end.

Definition recoveryHeadAdvanced (conversationId : string) : Engine unit :=
  active ← gets (fun w => activeRun (recovery w));
  recovering ← gets (fun w => isRecovering w conversationId);
  match active with
  | Some r => if (recovering : bool) then armCatchUp r conversationId else mret tt
  | None => mret tt
  end.

(** What recovery offers the other phases. *)
Definition recoveryPhase : RecoveryPhase Recovery := {|
  rearmCatchUp conversationId := rearmPausedCatchUp (Some conversationId);
  EngineRuntime.recoveryHeadAdvanced := recoveryHeadAdvanced;
|}.

End requests.
End CatchUpRequests.

Module CatchUp.
Import CollectivePart CanonicalJson ClientJson RecordSchemas Records OuterBody StoredHistory.
Import StoreDatabase StoreRecovery EngineRuntime Fences HistoryBuild Certification RecoveryState.
Import ReanchorVotes CatchUpRequests.

Section catchUp.
Context `{Base64Url} `{HostJson} `{Jose} `{Sha256} `{JoseEncryption} `{!EngineHost} `{!RowOrder}.
Context (versions : option Wire.WireVersions) (maximumEncodedBytes : Z).
Context (input : EndpointEngineInput) `{!EnginePhases Recovery}.

#[local] Instance message_i : JsonSchema SignedMessages.SignedMessage :=
  OuterBody.message_schema versions maximumEncodedBytes.

#[local] Abbreviation queue := (queueRecoveryEnvelope versions maximumEncodedBytes input).
#[local] Abbreviation requestCertifiedHistory :=
  (requestCertifiedHistory versions maximumEncodedBytes input).

(** Input that does not verify is ignored. *)
Definition ignoring (m : Engine RouterIngressDisposition) : Engine RouterIngressDisposition :=
  catch (fun e => if decide (e = Representation) then Some (mret ignored) else None) m.

(** A delivery from one of the conversation's other fixed members. *)
Definition sentByOtherMember (membership : VerifiedMembership) (senderAgentId : string) : bool :=
  bool_decide (senderAgentId <> localAgentId input) &&
  bool_decide (is_Some (memberCard membership senderAgentId)).

(** ** Behind an earlier re-anchor *)

Definition selectsPosition (vote : ReanchorBody) (request : CatchUpRequest) : bool :=
  bool_decide (knownAnchorHash request = Some (rb_previousAnchorHash vote)) &&
  bool_decide (knownRecordHash request = Some (rb_selectedRecordHash vote)).

Definition undecided (vote : ReanchorBody) (state : CatchUpState) : bool :=
  match jm_get (pendingRequests state) (rb_conversationId vote) with
  | None => false
  | Some request =>
      selectsPosition vote request && negb (jm_has (readiness state) (rb_conversationId vote))
  end.

(** The position is judged again once the vote has verified. *)
Definition waitBehindEarlierReanchor (r : Ref) (vote : ReanchorBody) (verified : Engine unit) :
    Engine unit :=
  run ← runAt r;
  if negb (undecided vote (catchUp run)) then mret tt
  else
    verified ;;
    sync (updateRun r (set_catchUp (fun state =>
      if undecided vote state
      then set_readiness (fun m => jm_set m (rb_conversationId vote) every_member) state
      else state))).

(** ** Answering *)

Definition responderMembership (conversationId : string) : Engine (option VerifiedMembership) :=
  active ← currentRun;
  match active ≫= (fun run => jm_get (run_memberships run.2) conversationId) with
  | Some membership => mret (Some membership)
  | None =>
      found ← gets (fun w => jm_get (conversations w) conversationId);
      match found with
      | None => mret None
      | Some r => conversation ← conversationAt r; mret (Some (ec_membership conversation))
      end
  end.

(** A staged successor, action-certified by its fold, and this endpoint's vote
    for it. *)
Definition successorBodies (f : EngineActionFold) (conversation : EngineConversation) :
    option (list DecodedOuterBody) :=
  anchorHash ← recordAnchorHash versions f;
  record ← makeActionCertifiedRecord versions f conversation anchorHash;
  Some (Direct (PacketActionCertified record) ::
    match jm_get (fold_durabilityEvidence f) (localAgentId input) with
    | None => []
    | Some vote => [Evidence vote]
    end).

Definition queueStagedSuccessor (membership : VerifiedMembership) (staged : StagedRecord) :
    Engine unit :=
  recordHash ← represented (decodeHash RecordHash (sr_recordHash staged));
  found ← gets (fun w => jm_get (recordFolds w) recordHash);
  bodies ← match found with
           | None => mret []
           | Some fold =>
               f ← foldAt fold;
               conversation ← conversationAt (fold_conversation f);
               represented (successorBodies f conversation)
           end;
  forEach (queue membership) bodies.

Inductive CatchUpSuccessorRow :=
  | RecordRow (value : StoredCertifiedRecord)
  | ReanchorRow (value : StoredAnchor).

Definition successorRows (recovery : EndpointRecovery) (request : CatchUpRequest) :
    list CatchUpSuccessorRow :=
  match knownRecordHash request with
  | None => RecordRow <$> filter (fun stored =>
      sr_conversationId (row stored) = cr_conversationId request /\
      sr_previousRecordHash (row stored) = None) (certifiedRecords recovery)
  | Some known =>
      (ReanchorRow <$> filter (fun anchor =>
        sa_conversationId anchor = cr_conversationId request /\
        sa_previousAnchorHash anchor <> None /\
        sa_previousAnchorHash anchor = knownAnchorHash request /\
        sa_selectedRecordHash anchor = Some known) (StoredHistory.anchors recovery)) ++
      (RecordRow <$> filter (fun stored =>
        sr_conversationId (row stored) = cr_conversationId request /\
        sr_previousRecordHash (row stored) = Some known /\
        Some (sr_anchorHash (row stored)) = knownAnchorHash request) (certifiedRecords recovery))
  end.

Definition nextRequest (request : CatchUpRequest) (item : CatchUpItem) : CatchUpRequest :=
  let known := match item with
    | ItemReanchor completed => (knownRecordHash request, Some (cp_anchorHash completed))
    | ItemRecord record => (Some (recordHash (actionCertifiedRecord record)),
        Some (core_anchorHash (recordCore (actionCertifiedRecord record))))
    end in
  mkCatchUpRequest (cr_version request) (cr_conversationId request) (cr_membershipHash request)
    (requesterAgentId request) known.1 known.2.

Definition decodeSuccessorRow (membership : VerifiedMembership) (recovery : EndpointRecovery)
    (row : CatchUpSuccessorRow) : option CatchUpItem :=
  match row with
  | RecordRow value =>
      ItemRecord <$> readStoredRecord versions maximumEncodedBytes membership recovery value
  | ReanchorRow value =>
      match decodeStoredAnchor versions maximumEncodedBytes membership value with
      | Some (RouterReanchor completed) => Some (ItemReanchor completed)
      | _ => None
      end
  end.

(** The next item and whether another follows it; none when there is none, and
    a refusal when there are several. *)
Definition decodeCatchUpSuccessor (membership : VerifiedMembership) (recovery : EndpointRecovery)
    (request : CatchUpRequest) : option (option (CatchUpItem * bool)) :=
  match successorRows recovery request with
  | [] => Some None
  | [row] =>
      item ← decodeSuccessorRow membership recovery row;
      match successorRows recovery (nextRequest request item) with
      | [] => Some (Some (item, false))
      | [_] => Some (Some (item, true))
      | _ => None
      end
  | _ => None
  end.

Definition signCatchUpAttestation (request : CatchUpRequest) (kind : CatchUpItemKind)
    (itemHash : option string) (hasMore : bool) : Engine Jws :=
  message ← signEvidence versions maximumEncodedBytes input (CatchUpAttestation (wireVersion input)
    (localAgentId input) request kind itemHash hasMore);
  mret (SignedMessages.representation message).

Definition itemHash (item : CatchUpItem) : string :=
  match item with
  | ItemRecord record => recordHash (actionCertifiedRecord record)
  | ItemReanchor completed => cp_anchorHash completed
  end.
Definition itemKind (item : CatchUpItem) : CatchUpItemKind :=
  match item with ItemRecord _ => CertifiedRecordKind | ItemReanchor _ => CompletedReanchorKind end.

Definition sendCatchUpPage (membership : VerifiedMembership) (request : CatchUpRequest)
    (item : CatchUpItem) (hasMore : bool) : Engine unit :=
  attestation ← signCatchUpAttestation request (itemKind item) (Some (itemHash item)) hasMore;
  queue membership (Direct (PacketPage (mkPage (wireVersion input) request item hasMore attestation))).

(** This endpoint's votes for candidates of other Router instances. *)
Definition heldReanchorVotes (recovery : StoredState) (request : CatchUpRequest)
    (instance : string) : option (list SignedMessages.SignedMessage) :=
  let candidates := (fun candidate => ra_anchorHash (rr_staged candidate)) <$>
    filter (fun candidate => ra_routerInstanceId (rr_staged candidate) <> instance)
      (heldReanchorCandidates recovery request) in
  mapM (fun e => decodeCanonical (A := SignedMessages.SignedMessage) (canonicalEvidence e))
    (filter (fun e => pe_kind e = ReanchorEvidence /\
      pe_conversationId e = cr_conversationId request /\ evidenceKey e = localAgentId input /\
      pe_subjectId e ∈ candidates) (st_evidence recovery)).

Definition sendCatchUpIncomplete (membership : VerifiedMembership) (request : CatchUpRequest)
    (votes : list SignedMessages.SignedMessage) : Engine unit :=
  attestation ← signCatchUpAttestation request IncompleteKind None false;
  forEach (fun message => queue membership (Evidence message)) votes ;;
  queue membership (Direct (PacketIncomplete (mkIncomplete (wireVersion input) request attestation))).

Definition respondToCatchUp (membership : VerifiedMembership) (request : CatchUpRequest)
    (instance : string) : Engine unit :=
  recovery ← recoverOne (cr_conversationId request);
  successor ← represented (decodeCatchUpSuccessor membership (st_history recovery) request);
  match successor with
  | Some (item, hasMore) => sendCatchUpPage membership request item hasMore
  | None =>
      let staged := match knownRecordHash request, knownAnchorHash request with
        | Some head, Some anchorHash => stagedSuccessor (st_history recovery)
            (cr_conversationId request) head (Some anchorHash)
        | _, _ => None
        end in
      match staged with
      | Some staged => queueStagedSuccessor membership staged
      | None =>
          votes ← represented (heldReanchorVotes recovery request instance);
          sendCatchUpIncomplete membership request votes
      end
  end.

Definition acceptCatchUpRequest (ingress : Ingress) (request : CatchUpRequest) :
    Engine RouterIngressDisposition :=
  found ← responderMembership (cr_conversationId request);
  match found with
  | None => mret ignored
  | Some membership =>
      let sender := SignedMessages.senderAgentId (outer ingress) in
      if sentByOtherMember membership sender && bool_decide (sender = requesterAgentId request) &&
         bool_decide (cr_membershipHash request = hash membership)
      then ignoring (
        _ ← verified (verifyOuterMessage (outer ingress) membership);
        respondToCatchUp membership request (routerInstanceId ingress) ;;
        mret accepted)
      else mret ignored
  end.

(** ** Taking answers *)

Definition pendingCatchUpContext (r : Ref) (request : CatchUpRequest) (senderAgentId : string) :
    Engine (option (VerifiedMembership * CatchUpRequest)) :=
  active ← gets (isActive r);
  run ← runAt r;
  match jm_get (run_memberships run) (cr_conversationId request),
        jm_get (pendingRequests (catchUp run)) (cr_conversationId request) with
  | Some membership, Some asked =>
      mret (if (active : bool) && sentByOtherMember membership senderAgentId
            then Some (membership, asked) else None)
  | _, _ => mret None
  end.

Definition applyCatchUpPage (ingress : Ingress) (page : CatchUpPage) :
    Engine RouterIngressDisposition :=
  match pg_item page with
  | ItemReanchor completed =>
      applied ← applyCompletedReanchor versions completed;
      mret (if (applied : bool) then accepted else ignored)
  | ItemRecord record =>
      acceptEngineRecoveryIngress versions maximumEncodedBytes input
        (mkIngress (routerInstanceId ingress) (outer ingress) (senderAgentCard ingress)
           (Direct (PacketCertified record)))
  end.

Definition continueAfterPage (r : Ref) (page : CatchUpPage) (key successor : string) : Engine unit :=
  sync (updateRun r (set_catchUp (set_acceptedSuccessors (fun m => jm_set m key successor)))) ;;
  match pg_item page with
  | ItemReanchor _ => requestCertifiedHistory r (cr_conversationId (pg_request page))
  | ItemRecord _ => mret tt
  end.

Definition acceptCatchUpPage (r : Ref) (ingress : Ingress) (page : CatchUpPage) :
    Engine RouterIngressDisposition :=
  let sender := SignedMessages.senderAgentId (outer ingress) in
  context ← pendingCatchUpContext r (pg_request page) sender;
  match context with
  | None => mret ignored
  | Some (membership, asked) =>
      ignoring (
        _ ← verified (verifyOuterMessage (outer ingress) membership);
        _ ← verified (verifyCatchUpPage versions maximumEncodedBytes page membership sender);
        run ← runAt r;
        match jm_get (acceptedSuccessors (catchUp run)) (requestKey (pg_request page)) with
        | Some retained =>
            mret (if decide (retained = itemHash (pg_item page)) then accepted else ignored)
        | None =>
            if negb (sameRequest asked (pg_request page)) then mret ignored
            else
              applied ← applyCatchUpPage ingress page;
              if decide (applied = ignored) then mret ignored
              else
                continueAfterPage r page (requestKey (pg_request page)) (itemHash (pg_item page)) ;;
                mret accepted
        end)
  end.

(** [onPositionReady] is the run's. *)
Definition acceptCatchUpIncomplete (onPositionReady : Ref -> string -> Engine unit) (r : Ref)
    (ingress : Ingress) (incomplete : CatchUpIncomplete) : Engine RouterIngressDisposition :=
  let sender := SignedMessages.senderAgentId (outer ingress) in
  let conversation := cr_conversationId (in_request incomplete) in
  context ← pendingCatchUpContext r (in_request incomplete) sender;
  match context with
  | None => mret ignored
  | Some (membership, asked) =>
      ignoring (
        _ ← verified (verifyOuterMessage (outer ingress) membership);
        _ ← verified (verifyCatchUpIncomplete versions maximumEncodedBytes incomplete membership sender);
        if negb (sameRequest asked (in_request incomplete)) then mret ignored
        else
          positionIsReady ← onCatchUp r
            (recordIncompleteResponder (length (members membership)) conversation sender);
          (if (positionIsReady : bool) then onPositionReady r conversation else mret tt) ;;
          mret accepted)
  end.

End catchUp.
End CatchUp.
