(* ===== verification/Reanchor.v ===== *)
(** Reanchor: moving a conversation to a restarted Router
    (packages/client/src/communication/conversations/reanchor/index.ts and
    empty.ts).

    An endpoint whose position is ready proposes a re-anchor at its head, votes
    for the candidates at that position, and completes one at a quorum of
    votes; a conversation with no record starts over from a new foundation
    instead. *)
From S2P Require Import Prelude JsMap Identifiers CollectivePart Json SignedMessages SealedBody.
From S2P Require Import RecordSchemas Records OuterBody StoredHistory StoreDatabase StoreAnchors.
From S2P Require Import StoreRecovery EngineRuntime HistoryBuild Outbox Certification RecoveryState CatchUp.
Local Open Scope string_scope.

Module EmptyRestart.
Import CanonicalJson ClientJson RecordSchemas Records StoredHistory StoreDatabase StoreAnchors.
Import StoreRecovery EngineRuntime RecoveryState ReanchorVotes.

(** The one membership and anchor row of a conversation without a record. *)
Definition emptyConversationFoundation (recovery : EndpointRecovery) (membership : VerifiedMembership)
    (position : ConversationPosition) : option ConversationFoundation :=
  let conversation := md_conversationId (descriptor membership) in
  match filter (fun stored => sm_conversationId stored = conversation)
          (StoredHistory.memberships recovery),
        filter (fun stored => sa_conversationId stored = conversation)
          (StoredHistory.anchors recovery) with
  | [storedMembership], [storedAnchor] =>
      if bool_decide (po_conversationId position = conversation) &&
         bool_decide (po_membershipHash position = hash membership) &&
         bool_decide (po_currentAnchorHash position = sa_anchorHash storedAnchor) &&
         bool_decide (sm_membershipHash storedMembership = hash membership) &&
         bool_decide (sa_previousAnchorHash storedAnchor = None) &&
         bool_decide (sa_selectedRecordHash storedAnchor = None)
      then Some (mkFoundation conversation (hash membership) (canonicalMembership storedMembership)
             (sa_anchorHash storedAnchor) (canonicalAnchor storedAnchor))
      else None
  | _, _ => None
  end.

Definition sameFoundation (expected retained : ConversationFoundation) : bool :=
  bool_decide (cf_conversationId expected = cf_conversationId retained) &&
  bool_decide (cf_membershipHash expected = cf_membershipHash retained) &&
  bool_decide (cf_anchorHash expected = cf_anchorHash retained) &&
  bool_decide (cf_canonicalMembership expected = cf_canonicalMembership retained) &&
  bool_decide (cf_canonicalAnchor expected = cf_canonicalAnchor retained).

(** Reads of the objects the intents' map names. *)
Definition intentsOf (w : World) (conversationId : string) : list EnginePostIntent :=
  filter (fun i => RecordSchemas.pi_conversationId (ep_intent i) = conversationId)
    (omap (fun entry => intentHeap w !! entry.2) (intents w)).

Definition storedIntentMatches (w : World) (stored : PostIntentRow) : bool :=
  match jm_get (intents w) (pi_postId stored) ≫= (fun r => intentHeap w !! r) with
  | None => false
  | Some i =>
      let intent := ep_intent i in
      bool_decide (pi_completedRecordHash stored = None) &&
      negb (jm_has (completedPosts w) (pi_postId stored)) &&
      bool_decide (RecordSchemas.pi_conversationId intent = StoreDatabase.pi_conversationId stored) &&
      bool_decide (RecordSchemas.pi_membershipHash intent = StoreDatabase.pi_membershipHash stored) &&
      bool_decide (authorAgentId intent = pi_authorAgentId stored) &&
      bool_decide (postId intent = pi_postId stored) &&
      bool_decide (ep_canonicalIntent i = pi_canonicalIntent stored)
  end.

Definition restartedEmptyStateMatches (w : World) (conversationId : string)
    (expected retained : ConversationFoundation) (postIntents : list PostIntentRow) : bool :=
  match jm_get (conversations w) conversationId ≫= (fun r => conversationHeap w !! r) with
  | None => false
  | Some conversation =>
      bool_decide (ec_head conversation = None) &&
      sameFoundation expected retained &&
      bool_decide (length (intentsOf w (cf_conversationId expected)) = length postIntents) &&
      forallb (storedIntentMatches w) postIntents
  end.

(** *** The runtime starts over *)

Definition restart_anchor (anchor : GenesisAnchorBody) (c : EngineConversation) : EngineConversation :=
  mkConversation (ec_conversationId c) (ec_membership c) (RouterGenesis anchor) None.

Definition replaceRuntimeAnchor (conversationId : string) (anchor : GenesisAnchorBody) (w : World) :
    World :=
  match jm_get (conversations w) conversationId with
  | None => w
  | Some r => updateConversation r (restart_anchor anchor) w
  end.

Definition foldOf (w : World) (conversationId : string) (fold : Ref) : bool :=
  bool_decide (foldHeap w !! fold ≫= (fun f => ec_conversationId <$>
    conversationHeap w !! fold_conversation f) = Some conversationId).

Definition discardConversationFolds (conversationId : string) (w : World) : World :=
  let kept := fun entry : string * Ref => foldOf w conversationId entry.2 = false in
  set_recordFolds (fun m => filter kept m) (set_actionFolds (fun m => filter kept m) w).

(** [proposedActionHash = undefined]. *)
Definition forget_proposal (i : EnginePostIntent) : EnginePostIntent :=
  mkPostIntent (ep_intent i) (ep_canonicalIntent i) (ep_completion i) None.

Definition clearIntentProposals (postIntents : list PostIntentRow) (w : World) : World :=
  foldl (fun w stored =>
    match jm_get (intents w) (pi_postId stored) with
    | None => w
    | Some r => updateIntent r forget_proposal w
    end) w postIntents.

Definition resetEmptyConversationRuntime (conversationId : string) (anchor : GenesisAnchorBody)
    (postIntents : list PostIntentRow) (w : World) : World :=
  clearIntentProposals postIntents
    (discardConversationFolds conversationId (replaceRuntimeAnchor conversationId anchor w)).

Section restart.
Context `{Base64Url} `{HostJson} `{Sha256} (versions : option Wire.WireVersions).
#[local] Instance genesis_anchor_i : JsonSchema GenesisAnchorBody := genesis_anchor_schema versions.

Definition replacementEmptyFoundation (instance : string) (membership : VerifiedMembership)
    (expected : ConversationFoundation) : option (GenesisAnchorBody * ConversationFoundation) :=
  preceding ← decodeCanonical (A := GenesisAnchorBody) (cf_canonicalAnchor expected);
  let anchor := mkGenesisAnchor (ga_version preceding) (md_conversationId (descriptor membership))
    (hash membership) instance in
  anchorHash ← hashAnchor versions (AnchorGenesis anchor);
  canonicalAnchor ← encodeCanonical anchor;
  Some (anchor, mkFoundation (cf_conversationId expected) (cf_membershipHash expected)
    (cf_canonicalMembership expected) anchorHash canonicalAnchor).

Definition restartEmptyPosition (instance : string) (membership : VerifiedMembership)
    (recovery : EndpointRecovery) (position : ConversationPosition) : Engine unit :=
  expected ← represented (emptyConversationFoundation recovery membership position);
  '(anchor, foundation) ← represented (replacementEmptyFoundation instance membership expected);
  let conversation := md_conversationId (descriptor membership) in
  uninterruptible (
    '(retained, postIntents) ← mapError (fun _ => Persistence)
      (store (restartEmptyConversation expected foundation));
    matches ← gets (fun w => restartedEmptyStateMatches w conversation foundation retained postIntents);
    if negb matches then fail Persistence
    else sync (resetEmptyConversationRuntime conversation anchor postIntents)).

End restart.
End EmptyRestart.

Module Reanchor.
Import CollectivePart CanonicalJson ClientJson RecordSchemas Records OuterBody StoredHistory.
Import StoreDatabase StoreRecovery EngineRuntime HistoryBuild Certification RecoveryState.
Import ReanchorVotes CatchUpRequests CatchUp EmptyRestart.

(** What a ready position does with a member's verified vote. *)
Inductive ReadyVoteAction := certifyVote | holdVote | declineVote.
Global Instance ReadyVoteAction_eq_dec : EqDecision ReadyVoteAction.
Proof. solve_decision. Defined.

(** [chainContains] on a snapshot: a chain without a cycle ends within as many
    steps as the snapshot has links, and a cycle never ends. *)
Definition resolved (o : option bool) : Engine bool :=
  match o with Some b => mret b | None => never end.
Definition headIsResolved (recovery : EndpointRecovery) (conversation observed head : string) :
    Engine bool :=
  resolved (observedHeadIsResolved (2 + length (certifiedRecords recovery)) recovery conversation
    observed head).
Definition anchorIsResolved (recovery : EndpointRecovery) (conversation observed current : string) :
    Engine bool :=
  resolved (observedAnchorIsResolved (2 + length (StoredHistory.anchors recovery)) recovery
    conversation observed current).

Definition hasStagedReanchor (recovery : StoredState) (body : ReanchorBody) : bool :=
  existsb (fun candidate =>
    bool_decide (ra_conversationId (rr_staged candidate) = rb_conversationId body) &&
    bool_decide (ra_routerInstanceId (rr_staged candidate) = rb_routerInstanceId body))
    (st_stagedReanchors recovery).

Definition stagedCandidate (recovery : StoredState) (body : ReanchorBody) :
    option RecoveredReanchor :=
  findFirst (fun candidate =>
    bool_decide (ra_conversationId (rr_staged candidate) = rb_conversationId body) &&
    bool_decide (ra_previousAnchorHash (rr_staged candidate) = rb_previousAnchorHash body) &&
    bool_decide (ra_routerInstanceId (rr_staged candidate) = rb_routerInstanceId body))
    (st_stagedReanchors recovery).

(** The anchor a conversation already has for the run's Router instance. *)
Definition currentAnchorForRecovery (run : RecoveryRun) (conversationId : string) (w : World) :
    option RouterAnchor :=
  match jm_get (conversations w) conversationId ≫= (fun r => conversationHeap w !! r) with
  | None => None
  | Some conversation =>
      if decide (anchorRouterInstanceId (ec_currentAnchor conversation) = run_routerInstanceId run)
      then Some (ec_currentAnchor conversation) else None
  end.

(** Whether a body targets the run's re-anchor of a conversation. *)
Definition targetsRecovery (run : RecoveryRun) (membership : VerifiedMembership)
    (body : ReanchorBody) (w : World) : bool :=
  bool_decide (run_reason run = router_restarted) &&
  bool_decide (rb_conversationId body ∈ reanchoring run) &&
  bool_decide (currentAnchorForRecovery run (rb_conversationId body) w = None) &&
  bool_decide (rb_membershipHash body = hash membership) &&
  bool_decide (rb_routerInstanceId body = run_routerInstanceId run).

Definition candidateMatchesPosition (run : RecoveryRun) (membership : VerifiedMembership)
    (position : ConversationPosition) (body : ReanchorBody) : bool :=
  bool_decide (run_reason run = router_restarted) &&
  bool_decide (rb_conversationId body ∈ positionsReady run) &&
  bool_decide (rb_membershipHash body = hash membership) &&
  bool_decide (rb_previousAnchorHash body = po_currentAnchorHash position) &&
  bool_decide (Some (rb_selectedRecordHash body) = po_headRecordHash position) &&
  bool_decide (rb_routerInstanceId body = run_routerInstanceId run).

Section reanchor.
Context `{Base64Url} `{HostJson} `{Jose} `{Sha256} `{JoseEncryption} `{!EngineHost} `{!RowOrder}.
Context (versions : option Wire.WireVersions) (maximumEncodedBytes : Z).
Context (input : EndpointEngineInput).
(** The run finishes a conversation. *)
Context (markRecovered : Ref -> string -> Engine unit).

#[local] Instance reanchor_i : JsonSchema ReanchorBody := reanchor_schema versions.

#[local] Abbreviation queue := (queueRecoveryEnvelope versions maximumEncodedBytes input).
#[local] Abbreviation requestCatchUp := (requestCertifiedHistory versions maximumEncodedBytes input).
#[local] Abbreviation resendStagedSuccessor :=
  (queueStagedSuccessor versions maximumEncodedBytes input).

Definition isRecovered (r : Ref) (conversationId : string) : Engine bool :=
  run ← runAt r; mret (bool_decide (conversationId ∈ completedConversations run)).

(** ** Staging and voting *)

Definition persistReanchorCandidate (body : ReanchorBody) (anchorHash : string) : Engine bool :=
  taken (
    canonicalBody ← represented (encodeCanonical body);
    store (StoreAnchors.StoreAnchors.stageReanchor (StoreDatabase.mkReanchor (rb_conversationId body)
      anchorHash (rb_previousAnchorHash body) (rb_routerInstanceId body)
      (rb_selectedRecordHash body) canonicalBody)) ;;
    mret tt).

Definition stageReanchorCandidate (r : Ref) (membership : VerifiedMembership) (body : ReanchorBody)
    (anchorHash : string) : Engine bool :=
  '(recovery, position) ← durablePosition (rb_conversationId body);
  active ← gets (isActive r);
  run ← runAt r;
  match position with
  | None => mret false
  | Some position =>
      if negb (active : bool) || negb (candidateMatchesPosition run membership position body)
      then mret false
      else if bool_decide (stagedSuccessor (st_history recovery) (rb_conversationId body)
                (rb_selectedRecordHash body) None <> None)
      then mret false
      else
        match stagedCandidate recovery body with
        | Some staged =>
            if decide (ra_anchorHash (rr_staged staged) <> anchorHash) then mret false
            else persistReanchorCandidate body anchorHash
        | None => persistReanchorCandidate body anchorHash
        end
  end.

Definition createLocalReanchorVote (r : Ref) (membership : VerifiedMembership)
    (body : ReanchorBody) (anchorHash : string) : Engine unit :=
  let s := ReanchorVote (rb_version body) (localAgentId input) anchorHash body in
  message ← signEvidence versions maximumEncodedBytes input s;
  let vote := mkReanchorVote message (rb_version body) (localAgentId input) anchorHash body in
  persisted ← persistReanchorVote versions maximumEncodedBytes vote;
  if negb (persisted : bool) then fail Persistence
  else
    queue membership (Evidence message) ;;
    rememberReanchorVote r vote.

Definition ensureLocalReanchorVote (r : Ref) (membership : VerifiedMembership)
    (body : ReanchorBody) (anchorHash : string) : Engine unit :=
  active ← gets (isActive r);
  if negb (active : bool) then mret tt
  else
    stored ← decodeReanchorVotes versions maximumEncodedBytes membership body anchorHash;
    match findFirst (fun message =>
            bool_decide (SignedMessages.senderAgentId message = localAgentId input)) stored with
    | None => createLocalReanchorVote r membership body anchorHash
    | Some message =>
        let vote := mkReanchorVote message (rb_version body) (localAgentId input) anchorHash body in
        run ← runAt r;
        if reanchorVoteIsRemembered (votes run) vote then mret tt
        else
          queue membership (Evidence message) ;;
          rememberReanchorVote r vote
    end.

Definition finalizeCompletedReanchor (r : Ref) (membership : VerifiedMembership)
    (completed : CompletedReanchor) : Engine unit :=
  _ ← represented (verifyCompletedReanchor versions maximumEncodedBytes completed membership);
  persistCompletedReanchor versions completed ;;
  queue membership (Direct (PacketReanchor completed)) ;;
  markRecovered r (rb_conversationId (cp_reanchor completed)).

Definition completeReanchorAtThreshold (r : Ref) (membership : VerifiedMembership)
    (body : ReanchorBody) (anchorHash : string) : Engine unit :=
  active ← gets (isActive r);
  recovered ← isRecovered r (rb_conversationId body);
  if negb (active : bool) || (recovered : bool) then mret tt
  else
    stored ← decodeReanchorVotes versions maximumEncodedBytes membership body anchorHash;
    if decide (length stored < quorumThreshold (length (members membership))) then mret tt
    else
      completed ← assembleCompletedReanchor body anchorHash stored;
      finalizeCompletedReanchor r membership completed.

Definition voteAndComplete (r : Ref) (membership : VerifiedMembership) (body : ReanchorBody)
    (anchorHash : string) : Engine unit :=
  ensureLocalReanchorVote r membership body anchorHash ;;
  completeReanchorAtThreshold r membership body anchorHash.

(** ** A member's vote *)

Definition certifyReanchorVote (r : Ref) (membership : VerifiedMembership)
    (vote : PendingReanchorVote) : Engine bool :=
  staged ← stageReanchorCandidate r membership (rv_reanchor vote) (rv_anchorHash vote);
  counts ← (if (staged : bool) then persistReanchorVote versions maximumEncodedBytes vote
            else mret false);
  if (counts : bool)
  then voteAndComplete r membership (rv_reanchor vote) (rv_anchorHash vote) ;; mret true
  else mret false.

Definition selectedHeadAction (r : Ref) (recovery : StoredState) (body : ReanchorBody)
    (head : string) : Engine ReadyVoteAction :=
  if decide (rb_selectedRecordHash body = head) then
    mret (if decide (stagedSuccessor (st_history recovery) (rb_conversationId body) head None = None)
          then certifyVote else holdVote)
  else
    ancestor ← headIsResolved (st_history recovery) (rb_conversationId body)
      (rb_selectedRecordHash body) head;
    if (ancestor : bool) then mret holdVote
    else if hasStagedReanchor recovery body then mret declineVote
    else
      sync (updateRun r (set_positionsReady (set_remove (rb_conversationId body)))) ;;
      requestCatchUp r (rb_conversationId body) ;;
      mret holdVote.

Definition previousAnchorAction (recovery : StoredState) (body : ReanchorBody) (anchor : string) :
    Engine ReadyVoteAction :=
  if decide (rb_previousAnchorHash body = anchor) then mret certifyVote
  else
    ancestor ← anchorIsResolved (st_history recovery) (rb_conversationId body)
      (rb_previousAnchorHash body) anchor;
    mret (if (ancestor : bool) then holdVote else declineVote).

Definition reconcileCandidatePosition (r : Ref) (recovery : StoredState) (body : ReanchorBody)
    (head anchor : string) : Engine ReadyVoteAction :=
  action ← selectedHeadAction r recovery body head;
  if decide (action = certifyVote) then previousAnchorAction recovery body anchor else mret action.

Definition processReadyReanchorVote (r : Ref) (membership : VerifiedMembership)
    (vote : PendingReanchorVote) : Engine bool :=
  let body := rv_reanchor vote in
  '(recovery, position) ← durablePosition (rb_conversationId body);
  position ← represented position;
  match po_headRecordHash position with
  | None => mret false
  | Some headRecordHash =>
      head ← represented (decodeHash RecordHash headRecordHash);
      anchor ← represented (decodeHash AnchorHash (po_currentAnchorHash position));
      action ← reconcileCandidatePosition r recovery body head anchor;
      match action with
      | certifyVote => certifyReanchorVote r membership vote
      | holdVote => mret true
      | declineVote => mret false
      end
  end.

(** Before the position is ready the vote is held. *)
Definition processReanchorVote (r : Ref) (membership : VerifiedMembership)
    (vote : PendingReanchorVote) : Engine bool :=
  active ← gets (isActive r);
  run ← runAt r;
  targets ← gets (targetsRecovery run membership (rv_reanchor vote));
  if negb (active : bool) || negb (targets : bool) then mret false
  else
    expectedHash ← represented (hashAnchor versions (AnchorReanchor (rv_reanchor vote)));
    if decide (expectedHash <> rv_anchorHash vote) then mret false
    else
      rememberReanchorVote r vote ;;
      run ← runAt r;
      if decide (rb_conversationId (rv_reanchor vote) ∈ positionsReady run)
      then processReadyReanchorVote r membership vote else mret true.

Definition acceptReanchorVote (r : Ref) (ingress : Ingress) (message : SignedMessages.SignedMessage)
    (s : EvidenceStatement) : Engine RouterIngressDisposition :=
  match s with
  | ReanchorVote _ _ _ reanchor =>
      run ← runAt r;
      match jm_get (run_memberships run) (rb_conversationId reanchor) with
      | None => mret ignored
      | Some membership =>
          mapError (fun _ => Persistence) (ignoring (
            evidence ← verified (verifyDeliveredEvidence versions maximumEncodedBytes (outer ingress)
              message membership (Some s));
            match statement evidence with
            | ReanchorVote version signer anchorHash reanchor =>
                taken ← processReanchorVote r membership
                  (mkReanchorVote (ev_message evidence) version signer anchorHash reanchor);
                mret (if (taken : bool) then accepted else ignored)
            | _ => mret ignored
            end))
      end
  | _ => mret ignored
  end.

Definition acceptCompletedReanchor (r : Ref) (ingress : Ingress) (completed : CompletedReanchor) :
    Engine RouterIngressDisposition :=
  let conversation := rb_conversationId (cp_reanchor completed) in
  active ← gets (isActive r);
  run ← runAt r;
  match jm_get (run_memberships run) conversation with
  | None => mret ignored
  | Some membership =>
      targets ← gets (targetsRecovery run membership (cp_reanchor completed));
      if negb (active : bool) || negb (targets : bool) then mret ignored
      else
        mapError (fun _ => Persistence) (ignoring (
          _ ← verified (verifyOuterMessage (outer ingress) membership);
          _ ← verified (verifyCompletedReanchor versions maximumEncodedBytes completed membership);
          applied ← applyCompletedReanchor versions completed;
          requestCatchUp r conversation ;;
          mret (if (applied : bool) then accepted else ignored)))
  end.

(** ** A ready position *)

Definition makeReanchorBody (run : RecoveryRun) (membership : VerifiedMembership)
    (position : ConversationPosition) (selectedRecordHash : string) : Engine ReanchorBody :=
  found ← gets (fun w =>
    match jm_get (conversations w) (md_conversationId (descriptor membership)) with
    | None => None
    | Some r => conversationHeap w !! r ≫= ec_head
    end);
  head ← represented found;
  represented (ofJson (toJson (RecordSchemas.mkReanchor
    (core_version (recordCore (actionCertifiedRecord (ch_record head))))
    (md_conversationId (descriptor membership)) (hash membership) (po_currentAnchorHash position)
    selectedRecordHash (run_routerInstanceId run)))).

Definition proposeReanchorCandidate (r : Ref) (membership : VerifiedMembership)
    (body : ReanchorBody) (anchorHash : string) : Engine unit :=
  staged ← stageReanchorCandidate r membership body anchorHash;
  if (staged : bool) then voteAndComplete r membership body anchorHash else mret tt.

Definition proposeReanchor (r : Ref) (membership : VerifiedMembership)
    (position : ConversationPosition) : Engine unit :=
  active ← gets (isActive r);
  run ← runAt r;
  if negb (active : bool) then mret tt
  else
    match po_headRecordHash position with
    | None => fail Persistence
    | Some head =>
        if decide (run_reason run <> router_restarted) then fail Persistence
        else
          body ← makeReanchorBody run membership position head;
          anchorHash ← represented (hashAnchor versions (AnchorReanchor body));
          proposeReanchorCandidate r membership body anchorHash
    end.

Definition replayCandidateVotes (r : Ref) (membership : VerifiedMembership)
    (conversationId headRecordHash anchorHash : string) : Engine unit :=
  run ← runAt r;
  forEach (fun vote =>
    if decide (rb_selectedRecordHash (rv_reanchor vote) = headRecordHash)
    then _ ← processReanchorVote r membership vote; mret tt
    else mret tt)
    (default [] (jm_get (votes run) conversationId ≫= (fun m => jm_get m anchorHash))).*2.

(** Each loop takes the votes there are when it starts. *)
Definition replayReanchorVotes (r : Ref) (membership : VerifiedMembership)
    (conversationId headRecordHash : string) : Engine unit :=
  active ← gets (isActive r);
  run ← runAt r;
  if negb (active : bool) then mret tt
  else forEach (replayCandidateVotes r membership conversationId headRecordHash)
    (jm_keys (default [] (jm_get (votes run) conversationId))).

(** A completed re-anchor for the run's instance is relayed to the members
    still recovering. *)
Definition finishAnchoredPosition (r : Ref) (membership : VerifiedMembership) : Engine unit :=
  let conversation := md_conversationId (descriptor membership) in
  run ← runAt r;
  anchor ← gets (currentAnchorForRecovery run conversation);
  match anchor with
  | Some (RouterReanchor completed) => queue membership (Direct (PacketReanchor completed))
  | _ => mret tt
  end ;;
  markRecovered r conversation.

Definition advanceRestartedPosition (r : Ref) (membership : VerifiedMembership)
    (recovery : StoredState) (position : ConversationPosition) (head : string) : Engine unit :=
  let conversation := md_conversationId (descriptor membership) in
  run ← runAt r;
  anchor ← gets (currentAnchorForRecovery run conversation);
  match anchor with
  | Some _ => finishAnchoredPosition r membership
  | None =>
      match stagedSuccessor (st_history recovery) conversation head None with
      | Some staged => resendStagedSuccessor membership staged
      | None =>
          replayReanchorVotes r membership conversation head ;;
          recovered ← isRecovered r conversation;
          if (recovered : bool) then mret tt else proposeReanchor r membership position
      end
  end.

Definition finishRestartedPosition (r : Ref) (membership : VerifiedMembership) : Engine unit :=
  let conversation := md_conversationId (descriptor membership) in
  run ← runAt r;
  if decide (conversation ∉ reanchoring run) then finishAnchoredPosition r membership
  else
    '(recovery, position) ← durablePosition conversation;
    position ← represented position;
    match po_headRecordHash position with
    | None =>
        anchor ← gets (currentAnchorForRecovery run conversation);
        match anchor with
        | Some _ => markRecovered r conversation
        | None =>
            restartEmptyPosition versions (run_routerInstanceId run) membership
              (st_history recovery) position ;;
            markRecovered r conversation
        end
    | Some headRecordHash =>
        head ← represented (decodeHash RecordHash headRecordHash);
        advanceRestartedPosition r membership recovery position head
    end.

Definition positionReady (r : Ref) (membership : VerifiedMembership) : Engine unit :=
  sync (updateRun r (set_positionsReady (set_add (md_conversationId (descriptor membership))))) ;;
  finishRestartedPosition r membership.

End reanchor.
End Reanchor.
