(* ===== verification/Startup.v ===== *)
(** Startup: rebuilding an engine's state from one snapshot of its store
    (packages/client/src/communication/conversations/startup.ts, with the
    stored outbox of history/stored.ts), and the engine that starts from it
    (conversations/index.ts).

    A conversation or fold is the object its place in a heap names.  Rows that
    do not decode and rows that contradict each other both leave the snapshot
    [unreadable]. *)
From S2P Require Import Prelude JsMap Identifiers CollectivePart Json Address SignedMessages.
From S2P Require Import SealedBody StoredHistory StoreDatabase StoreQueues StoreAnchors.
From S2P Require Import StoreRecovery RecordSchemas Records OuterBody EngineRuntime Outbox Send.
From S2P Require Import Certification.
Local Open Scope string_scope.

Module Startup.
Import Identifiers CollectivePart CanonicalJson ClientJson StoreDatabase StoreRecovery.
Import RecordSchemas Records OuterBody StoredHistory EngineRuntime.

(** ** Rebuilt objects *)

(** [new Map(entries)] of objects, and the objects. *)
Definition keyed {A} (entries : list (string * A)) : list (string * Ref) :=
  foldl (fun m '(i, k) => jm_set m k i) [] (imap (fun i entry => (i, entry.1)) entries).

Fixpoint foldM {A S} (f : S -> A -> option S) (s : S) (l : list A) : option S :=
  match l with [] => Some s | a :: l' => s' ← f s a; foldM f s' l' end.

Record Rebuilt := mkRebuilt {
  rb_conversations : list (string * Ref);
  rb_conversationHeap : list EngineConversation;
  rb_actionFolds : list (string * Ref);
  rb_foldHeap : list EngineActionFold;
  rb_recordFolds : list (string * Ref);
}.
Definition rebuildFolds (g : list EngineActionFold -> list EngineActionFold) (s : Rebuilt) :=
  mkRebuilt (rb_conversations s) (rb_conversationHeap s) (rb_actionFolds s) (g (rb_foldHeap s))
    (rb_recordFolds s).
Definition rebuildFold (fold : Ref) (g : EngineActionFold -> EngineActionFold) : Rebuilt -> Rebuilt :=
  rebuildFolds (alter g fold).
Definition nameRecord (recordHash : string) (fold : Ref) (s : Rebuilt) :=
  mkRebuilt (rb_conversations s) (rb_conversationHeap s) (rb_actionFolds s) (rb_foldHeap s)
    (jm_set (rb_recordFolds s) recordHash fold).
Definition nameAction (actionHash : string) (fold : Ref) (s : Rebuilt) :=
  mkRebuilt (rb_conversations s) (rb_conversationHeap s) (jm_set (rb_actionFolds s) actionHash fold)
    (rb_foldHeap s) (rb_recordFolds s).
Definition rebuildHead (r : Ref) (head : EngineCertifiedHead) (s : Rebuilt) :=
  mkRebuilt (rb_conversations s) (alter (set_head head) r (rb_conversationHeap s))
    (rb_actionFolds s) (rb_foldHeap s) (rb_recordFolds s).

(** A fold of the state, with its conversation. *)
Definition foldOf (s : Rebuilt) (fold : Ref) : option (EngineActionFold * EngineConversation) :=
  f ← rb_foldHeap s !! fold;
  c ← rb_conversationHeap s !! fold_conversation f;
  Some (f, c).

Section startup.
Context `{Base64Url} `{HostJson} `{Jose} `{Sha256}.
Context (versions : option Wire.WireVersions) (maximumEncodedBytes : Z).

#[local] Instance action_i : JsonSchema ActionCore := action_schema versions.
#[local] Instance intent_i : JsonSchema PostIntent := intent_schema versions.
#[local] Instance record_core_i : JsonSchema RecordCore := record_core_schema versions.
#[local] Instance message_i : JsonSchema SignedMessages.SignedMessage :=
  StoredHistory.message_i versions maximumEncodedBytes.

#[local] Abbreviation decodeMessage := (SignedMessages.decodeMessage versions maximumEncodedBytes).

Definition checked (p : string -> bool) (value : string) : option string :=
  if p value then Some value else None.

(** ** Anchors *)

Record RecoveredAnchors := mkAnchors {
  an_current : list (string * RouterAnchor);
  an_byHash : list (string * RouterAnchor);
}.

Definition positionUsesAnchor (recovery : EndpointRecovery) (stored : StoredAnchor) : bool :=
  existsb (fun position =>
    bool_decide (po_conversationId position = sa_conversationId stored) &&
    bool_decide (po_currentAnchorHash position = sa_anchorHash stored)) (positions recovery).

Definition recoverAnchor (memberships : list (string * VerifiedMembership)) (stored : StoredAnchor) :
    option (StoredAnchor * RouterAnchor) :=
  conversationId ← checked ConversationId (sa_conversationId stored);
  membership ← jm_get memberships conversationId;
  anchor ← decodeStoredAnchor versions maximumEncodedBytes membership stored;
  _ ← checked AnchorHash (sa_anchorHash stored);
  Some (stored, anchor).

Definition recoverEngineAnchors (recovery : EndpointRecovery)
    (memberships : list (string * VerifiedMembership)) : option RecoveredAnchors :=
  entries ← mapM (recoverAnchor memberships) (anchors recovery);
  Some (mkAnchors
    (foldl (fun m '(stored, anchor) => if positionUsesAnchor recovery stored
       then jm_set m (sa_conversationId stored) anchor else m) [] entries)
    (foldl (fun m '(stored, anchor) => jm_set m (sa_anchorHash stored) anchor) [] entries)).

(** ** Conversations *)

Definition recoverConversation (memberships : list (string * VerifiedMembership))
    (current : list (string * RouterAnchor)) (position : ConversationPosition) :
    option (string * EngineConversation) :=
  conversationId ← checked ConversationId (po_conversationId position);
  membership ← jm_get memberships conversationId;
  anchor ← jm_get current conversationId;
  Some (conversationId, mkConversation conversationId membership anchor None).

Definition recoverConversations (recovery : EndpointRecovery)
    (memberships : list (string * VerifiedMembership)) (current : list (string * RouterAnchor)) :
    option (list (string * EngineConversation)) :=
  mapM (recoverConversation memberships current) (positions recovery).

(** ** Folds *)

Definition recoverActionFold (conversations : list (string * EngineConversation))
    (byHash : list (string * RouterAnchor)) (lock : ProposalLock) :
    option (string * EngineActionFold) :=
  conversationId ← checked ConversationId (pl_conversationId lock);
  r ← jm_get (keyed conversations) conversationId;
  conversation ← conversations.*2 !! r;
  action ← decodeCanonical (A := ActionCore) (pl_canonicalActionCore lock);
  actionHash ← checked ActionHash (pl_actionHash lock);
  verified ← verifyActionCore versions action (ec_membership conversation);
  if decide (va_actionHash verified <> actionHash) then None
  else
    routerAnchor ← jm_get byHash (va_anchorHash verified);
    Some (actionHash, makeActionFold r action actionHash routerAnchor).

(** The state with a fold for each proposal lock. *)
Definition recoverActionFolds (locks : list ProposalLock)
    (conversations : list (string * EngineConversation)) (byHash : list (string * RouterAnchor)) :
    option Rebuilt :=
  entries ← mapM (recoverActionFold conversations byHash) locks;
  Some (mkRebuilt (keyed conversations) conversations.*2 (keyed entries) entries.*2 []).

Definition stagedRecordMatches (staged : StagedRecord) (fold : EngineActionFold)
    (conversation : EngineConversation) (core : RecordCore) (recordHash : string) : bool :=
  storedRowMatchesCore staged core (ec_membership conversation) &&
  bool_decide (core_actionHash core = fold_actionHash fold) &&
  bool_decide (sr_recordHash staged = recordHash).

Definition recoverStagedFold (s : Rebuilt) (staged : StagedRecord) : option Rebuilt :=
  actionHash ← checked ActionHash (sr_actionHash staged);
  recordHash ← checked RecordHash (sr_recordHash staged);
  fold ← jm_get (rb_actionFolds s) actionHash;
  '(f, conversation) ← foldOf s fold;
  core ← decodeCanonical (A := RecordCore) (canonicalRecordCore staged);
  verifiedHash ← verifyRecordCore versions core (ec_membership conversation);
  if stagedRecordMatches staged f conversation core verifiedHash
  then Some (nameRecord recordHash fold (rebuildFold fold (set_recordHash recordHash) s))
  else None.

Definition recoverStagedFolds (recovery : EndpointRecovery) (s : Rebuilt) : option Rebuilt :=
  foldM recoverStagedFold s (stagedRecords recovery).

(** ** Evidence *)

(** [inr None]: the row is of another phase. *)
Definition foldForEvidence (s : Rebuilt) (row : ProtocolEvidence) :
    option (option (Ref * Role)) :=
  match pe_kind row with
  | ActionEvidence =>
      subject ← checked ActionHash (pe_subjectId row);
      fold ← jm_get (rb_actionFolds s) subject;
      Some (Some (fold, RoleAction))
  | DurabilityEvidence =>
      subject ← checked RecordHash (pe_subjectId row);
      fold ← jm_get (rb_recordFolds s) subject;
      Some (Some (fold, RoleDurability))
  | CatchUpEvidence | ReanchorEvidence => Some None
  end.

Definition foldEvidenceMatches (row : ProtocolEvidence) (kind : Role) (fold : EngineActionFold)
    (conversation : EngineConversation) (s : EvidenceStatement) : bool :=
  bool_decide (pe_conversationId row = ec_conversationId conversation) &&
  bool_decide (evidenceKey row = signerAgentId s) &&
  bool_decide (Some (pe_subjectId row) = match kind with
    | RoleAction => Some (fold_actionHash fold) | RoleDurability => fold_recordHash fold end) &&
  evidenceMatchesFold kind fold conversation s.

Definition restoreFoldEvidence (s : Rebuilt) (row : ProtocolEvidence) (fold : Ref) (kind : Role) :
    option Rebuilt :=
  message ← decodeCanonical (A := SignedMessages.SignedMessage) (canonicalEvidence row);
  '(f, conversation) ← foldOf s fold;
  verified ← verifyStableEvidence versions maximumEncodedBytes
    (SignedMessages.representation message) (ec_membership conversation) None;
  if foldEvidenceMatches row kind f conversation (statement verified)
  then Some (rebuildFold fold
    (Certification.Certification.set_evidenceOf kind
       (Certification.Certification.addEvidence (ev_message verified))) s)
  else None.

Definition recoverEvidenceRow (s : Rebuilt) (row : ProtocolEvidence) : option Rebuilt :=
  target ← foldForEvidence s row;
  match target with
  | None => Some s
  | Some (fold, kind) => restoreFoldEvidence s row fold kind
  end.

Definition recoverFoldEvidence (evidence : list ProtocolEvidence) (s : Rebuilt) : option Rebuilt :=
  foldM recoverEvidenceRow s evidence.

(** ** Certified records *)

(** The [for] loops over a certificate's messages. *)
Definition addAll (messages : list SignedMessages.SignedMessage)
    (evidence : list (string * SignedMessages.SignedMessage)) :=
  foldl (fun m message => Certification.Certification.addEvidence message m) evidence messages.

Definition completeRecoveredFold (recordHash : string)
    (actionEvidence durabilityEvidence : list SignedMessages.SignedMessage)
    (fold : EngineActionFold) : EngineActionFold :=
  set_certified (set_recordHash recordHash
    (set_durabilityEvidence (addAll durabilityEvidence)
      (set_actionEvidence (addAll actionEvidence) fold))).

Definition certifiedFoldContext (byHash : list (string * RouterAnchor)) (s : Rebuilt)
    (stored : StoredCertifiedRecord) : option (Ref * EngineConversation * RouterAnchor) :=
  conversationId ← checked ConversationId (sr_conversationId (row stored));
  anchorHash ← checked AnchorHash (sr_anchorHash (row stored));
  r ← jm_get (rb_conversations s) conversationId;
  conversation ← rb_conversationHeap s !! r;
  routerAnchor ← jm_get byHash anchorHash;
  Some (r, conversation, routerAnchor).

(** The fold of the record's action, made when no lock has one. *)
Definition certifiedFold (r : Ref) (record : ActionCertifiedRecord) (routerAnchor : RouterAnchor)
    (s : Rebuilt) : Ref * Rebuilt :=
  let actionHash := core_actionHash (recordCore record) in
  match jm_get (rb_actionFolds s) actionHash with
  | Some fold => (fold, nameAction actionHash fold s)
  | None =>
      let fold := length (rb_foldHeap s) in
      (fold, nameAction actionHash fold (rebuildFolds (fun heap => (heap ++
        [makeActionFold r (core_action (recordCore record)) actionHash routerAnchor])%list) s))
  end.

Definition recoverCertifiedFold (byHash : list (string * RouterAnchor)) (s : Rebuilt)
    (stored : StoredCertifiedRecord) : option Rebuilt :=
  '(r, conversation, routerAnchor) ← certifiedFoldContext byHash s stored;
  record ← recordFromStore versions maximumEncodedBytes (ec_membership conversation) stored routerAnchor;
  let acr := actionCertifiedRecord record in
  actionEvidence ← mapM decodeMessage (ac_signatures (actionCertificate acr));
  durabilityEvidence ← mapM decodeMessage (dc_votes (durabilityCertificate record));
  let '(fold, s) := certifiedFold r acr routerAnchor s in
  Some (rebuildHead r (mkHead (recordHash acr) record) (nameRecord (recordHash acr) fold
    (rebuildFold fold (completeRecoveredFold (recordHash acr) actionEvidence durabilityEvidence) s))).

Definition recoverCertifiedFolds (byHash : list (string * RouterAnchor)) (recovery : EndpointRecovery)
    (s : Rebuilt) : option Rebuilt :=
  foldM (recoverCertifiedFold byHash) s (certifiedRecords recovery).

Definition recoverCompletedPosts (postIntents : list PostIntentRow) : option (list (string * string)) :=
  entries ← mapM (fun '(post, recordHash) => h ← checked RecordHash recordHash; Some (post, h))
    (omap (fun i => h ← pi_completedRecordHash i; Some (pi_postId i, h)) postIntents);
  Some (foldl (fun m '(post, h) => jm_set m post h) [] entries).

(** ** The snapshot *)

(** Why a snapshot is refused: [OutboxTooOldError], or any other failure. *)
Inductive RecoveryFailure := unreadable | outboxTooOld.

Definition readable {A} (o : option A) : Exit RecoveryFailure A :=
  match o with Some a => Succeed a | None => Fail_ unreadable end.

Definition verifyStoredOutbound (localAgentId : string)
    (memberships : list (string * VerifiedMembership)) (outbound : OutboundMessageInput) :
    Exit RecoveryFailure OutboundMessageInput :=
  retained ← readable (decodeCanonical (A := SignedMessages.SignedMessage)
    (om_canonicalSignedMessage outbound));
  if decide (SignedMessages.wireVersion retained <> om_wireVersion outbound) then Fail_ unreadable
  else
    message ← match SignedMessages.decodeLive versions maximumEncodedBytes
                      (SignedMessages.representation retained) with
              | Some message => Succeed message
              | None => Fail_ outboxTooOld
              end;
    readable (
      conversationId ← checked ConversationId (om_conversationId outbound);
      membership ← jm_get memberships conversationId;
      if bool_decide (SignedMessages.messageId message <> om_messageId outbound) ||
         bool_decide (SignedMessages.senderAgentId message <> localAgentId)
      then None
      else _ ← verifyOuterMessage message membership; Some outbound).

Definition verifyStoredOutbounds (localAgentId : string) (outbounds : list OutboundMessageInput)
    (memberships : list (string * VerifiedMembership)) :
    Exit RecoveryFailure (list OutboundMessageInput) :=
  for_each (verifyStoredOutbound localAgentId memberships) outbounds.

Record RecoveredEngineState := mkRecovered {
  rs_objects : Rebuilt;
  rs_completedPosts : list (string * string);
  rs_postIntents : list PostIntentRow;
  rs_outboundMessages : list OutboundMessageInput;
}.

Definition recoverEngineState (localAgentId registrySignerPublicKey : string) (stored : StoredState) :
    Exit RecoveryFailure RecoveredEngineState :=
  let recovery := st_history stored in
  '(memberships, anchors, folds) ← readable (
    memberships ← verifyStoredMemberships versions (StoredHistory.memberships recovery)
      registrySignerPublicKey;
    anchors ← recoverEngineAnchors recovery memberships;
    conversations ← recoverConversations recovery memberships (an_current anchors);
    folds ← recoverActionFolds (st_proposalLocks stored) conversations (an_byHash anchors);
    folds ← recoverStagedFolds recovery folds;
    Some (memberships, anchors, folds));
  outboundMessages ← verifyStoredOutbounds localAgentId (st_outboundMessages stored) memberships;
  readable (
    folds ← recoverFoldEvidence (st_evidence stored) folds;
    folds ← recoverCertifiedFolds (an_byHash anchors) recovery folds;
    completedPosts ← recoverCompletedPosts (st_postIntents stored);
    Some (mkRecovered folds completedPosts (st_postIntents stored) outboundMessages)).

End startup.
End Startup.
