(* ===== verification/Recovery.v ===== *)
(** Recovery: one authenticated catch-up and re-anchor run per Router
    discontinuity, and the staged successors it converts to
    (packages/client/src/communication/conversations/recovery/index.ts and
    recovery/successor.ts).

    The operations of a run are atomic with respect to each other: an
    ingress, one resend of a retry fiber, and a forked task.  The delays of the
    retry schedule are outside the model, and so are the trace markers. *)
From S2P Require Import Prelude JsMap Identifiers CollectivePart Json Address SignedMessages SealedBody.
From S2P Require Import RecordSchemas Records OuterBody StoredHistory StoreDatabase StoreQueues.
From S2P Require Import StoreRecovery EngineRuntime HistoryBuild Outbox Send Certification Startup.
From S2P Require Import RecoveryState CatchUp Reanchor.
Local Open Scope string_scope.

Module Successor.
Import RecordSchemas Records OuterBody StoreDatabase EngineRuntime HistoryBuild RecoveryState.

Definition headPosition (conversation : EngineConversation) : option HeadPosition :=
  head ← ec_head conversation;
  Some (mkHeadPosition (ch_recordHash head) (anchorHashAtHead conversation head)).

(** Whether an action is the next POST at a position. *)
Definition extendsHead (position : HeadPosition) (action : ActionCore) : bool :=
  match action with
  | GENESIS _ => false
  | POST post => bool_decide (pa_previousRecordHash post = hp_head position) &&
      bool_decide (pa_anchorHash post = hp_anchorHash position)
  end.

Definition takesVote (held : PendingSuccessor) (signer recordHash : string) : bool :=
  negb (ps_settled held) &&
  bool_decide (default recordHash (fst <$> ps_record held) = recordHash) &&
  bool_decide (hv_recordHash <$> jm_get (ps_votes held) signer <> Some recordHash).

Definition hold_record (recordHash : string) (ingress : Ingress) (p : PendingSuccessor) :=
  mkPendingSuccessor (ps_position p) (Some (recordHash, ingress)) (ps_votes p) (ps_settled p).
Definition hold_vote (signer : string) (vote : HeldVote) (p : PendingSuccessor) :=
  mkPendingSuccessor (ps_position p) (ps_record p) (jm_set (ps_votes p) signer vote) (ps_settled p).
Definition settle (p : PendingSuccessor) :=
  mkPendingSuccessor (ps_position p) (ps_record p) (ps_votes p) true.

Definition updateSuccessor (p : Ref) (g : PendingSuccessor -> PendingSuccessor) (w : World) : World :=
  set_recovery (set_successorHeap (alter g p)) w.
Definition successorAt (p : Ref) : Engine PendingSuccessor :=
  found ← gets (fun w => successorHeap (recovery w) !! p); deref found.

(** A hold at another position is replaced. *)
Definition pendingFor (r : Ref) (conversationId : string) (position : HeadPosition) : Engine Ref :=
  run ← runAt r;
  found ← match jm_get (successors run) conversationId with
          | None => mret None
          | Some p =>
              held ← successorAt p;
              mret (if decide (ps_position held = position) then Some p else None)
          end;
  match found with
  | Some p => mret p
  | None =>
      syncWith (fun w =>
        let fresh := length (successorHeap (recovery w)) in
        (fresh, updateRun r (set_successors (fun m => jm_set m conversationId fresh))
           (set_recovery (set_successorHeap (fun h =>
              (h ++ [mkPendingSuccessor position None [] false])%list)) w)))
  end.

(** The votes that take a conversion, more than the members that may be faulty. *)
Definition conversionThreshold (memberCount : nat) : nat :=
  memberCount - quorumThreshold memberCount + 1.
Definition votesFor (recordHash : string) (p : PendingSuccessor) : list HeldVote :=
  filter (fun vote => hv_recordHash vote = recordHash) (ps_votes p).*2.

Section successor.
Context `{Base64Url} `{HostJson} `{Jose} `{Sha256} `{JoseEncryption} `{!EngineHost}.
Context (versions : option Wire.WireVersions) (maximumEncodedBytes : Z).
Context (input : EndpointEngineInput) `{!EnginePhases Recovery}.
#[local] Abbreviation acceptIngress :=
  (Certification.Certification.acceptEngineIngress versions maximumEncodedBytes input).

Definition conversationOf (conversationId : string) : Engine (option EngineConversation) :=
  found ← gets (fun w => jm_get (conversations w) conversationId);
  match found with
  | None => mret None
  | Some r => conversation ← conversationAt r; mret (Some conversation)
  end.

Definition headExtendedBy (r : Ref) (action : ActionCore) :
    Engine (option (HeadPosition * VerifiedMembership)) :=
  conversation ← conversationOf (conversationId action);
  run ← runAt r;
  mret (position ← conversation ≫= headPosition;
        membership ← jm_get (run_memberships run) (conversationId action);
        if extendsHead position action then Some (position, membership) else None).

Definition verifyHeldRecord (membership : VerifiedMembership) (ingress : Ingress)
    (record : ActionCertifiedRecord) : bool :=
  bool_decide (is_Some (verifyOuterMessage (outer ingress) membership)) &&
  bool_decide (is_Some (verifyActionCertifiedRecord versions maximumEncodedBytes record membership)).

Definition verifyHeldVote (membership : VerifiedMembership) (ingress : Ingress)
    (message : SignedMessages.SignedMessage) (s : EvidenceStatement) : bool :=
  match verifyDeliveredEvidence versions maximumEncodedBytes (outer ingress) message membership (Some s) with
  | None => false
  | Some evidence =>
      match statement evidence with
      | DurabilityVote _ signer _ membershipHash _ =>
          bool_decide (membershipHash = hash membership) && bool_decide (signer <> localAgentId input)
      | _ => false
      end
  end.

(** The phases stage the record and vote for it, and then take the held votes;
    the endpoint tries once. *)
Definition maybeConvert (r : Ref) (membership : VerifiedMembership) : Engine unit :=
  run ← runAt r;
  match jm_get (successors run) (md_conversationId (descriptor membership)) with
  | None => mret tt
  | Some p =>
      held ← successorAt p;
      match ps_record held with
      | None => mret tt
      | Some (recordHash, ingress) =>
          let voted := votesFor recordHash held in
          if ps_settled held ||
             bool_decide (length voted < conversionThreshold (length (members membership)))%nat
          then mret tt
          else
            sync (updateSuccessor p settle) ;;
            _ ← acceptIngress ingress None;
            forEach (fun vote =>
              _ ← acceptIngress (hv_ingress vote) (Some (hv_statement vote)); mret tt) voted
      end
  end.

Definition holdTowardConversion (r : Ref) (membership : VerifiedMembership) (verified : bool)
    (hold : World -> World) : Engine RouterIngressDisposition :=
  if negb verified then mret ignored
  else sync hold ;; maybeConvert r membership ;; mret accepted.

Definition acceptSuccessorRecord (r : Ref) (ingress : Ingress) (record : ActionCertifiedRecord) :
    Engine RouterIngressDisposition :=
  let action := core_action (recordCore record) in
  extended ← headExtendedBy r action;
  staged ← gets (fun w => jm_has (recordFolds w) (recordHash record));
  run ← runAt r;
  match extended with
  | None => mret ignored
  | Some (position, membership) =>
      if (staged : bool) then mret ignored
      else if decide (conversationId action ∉ reanchoring run) then acceptIngress ingress None
      else
        p ← pendingFor r (conversationId action) position;
        held ← successorAt p;
        if ps_settled held || bool_decide (fst <$> ps_record held = Some (recordHash record))
        then mret ignored
        else holdTowardConversion r membership (verifyHeldRecord membership ingress record)
          (updateSuccessor p (hold_record (recordHash record) ingress))
  end.

Definition acceptStagedSuccessorVote (conversation : EngineConversation) (fold : Ref)
    (ingress : Ingress) (s : EvidenceStatement) (signer : string) : Engine RouterIngressDisposition :=
  f ← foldAt fold;
  let staged := negb (certified f) &&
    match headPosition conversation with
    | None => false
    | Some position => extendsHead position (fold_action f)
    end in
  if staged && negb (jm_has (fold_durabilityEvidence f) signer)
  then acceptIngress ingress (Some s) else mret ignored.

(** [s] is the durability vote of [signer] for [recordHash] in
    [conversationId]. *)
Definition acceptSuccessorVote (r : Ref) (ingress : Ingress) (message : SignedMessages.SignedMessage)
    (s : EvidenceStatement) (conversationId recordHash signer : string) :
    Engine RouterIngressDisposition :=
  found ← conversationOf conversationId;
  run ← runAt r;
  match found, jm_get (run_memberships run) conversationId with
  | Some conversation, Some membership =>
      fold ← gets (fun w => jm_get (recordFolds w) recordHash);
      match fold with
      | Some fold => acceptStagedSuccessorVote conversation fold ingress s signer
      | None =>
          match headPosition conversation with
          | None => mret ignored
          | Some position =>
              if decide (conversationId ∉ reanchoring run) then mret ignored
              else
                p ← pendingFor r conversationId position;
                held ← successorAt p;
                if negb (takesVote held signer recordHash) then mret ignored
                else holdTowardConversion r membership (verifyHeldVote membership ingress message s)
                  (updateSuccessor p (hold_vote signer (mkHeldVote recordHash ingress s)))
          end
      end
  | _, _ => mret ignored
  end.

End successor.
End Successor.

Module Recovery.
Import CollectivePart CanonicalJson ClientJson SendErrors RecordSchemas Records OuterBody StoredHistory.
Import StoreDatabase StoreRecovery EngineRuntime Fences Send Startup RecoveryState ReanchorVotes.
Import CatchUpRequests CatchUp Successor.

Definition recoveryFailure : Failure := Refused "recovery".

(** What the Router worker hands over: why, and the new instance. *)
Record RouterWorkerRecovery := mkRouterRecovery {
  rw_reason : RouterDiscontinuityReason;
  rw_routerInstanceId : string;
}.

Definition packetConversation (packet : DirectPacket) : string :=
  match packet with
  | PacketRequest request => cr_conversationId request
  | PacketPage page => cr_conversationId (pg_request page)
  | PacketIncomplete incomplete => cr_conversationId (in_request incomplete)
  | PacketReanchor completed => rb_conversationId (cp_reanchor completed)
  | PacketCertified record => conversationId (core_action (recordCore (actionCertifiedRecord record)))
  | PacketProposal proposal => conversationId (ap_action proposal)
  | PacketActionCertified record => conversationId (core_action (recordCore record))
  end.

Definition groupByConversation (outbounds : list OutboundMessageInput) : list (string * list string) :=
  foldl (fun grouped outbound =>
    jm_set grouped (om_conversationId outbound)
      (default [] (jm_get grouped (om_conversationId outbound)) ++ [om_messageId outbound])%list)
    [] outbounds.

Section recovery.
Context `{Base64Url} `{HostJson} `{Jose} `{Sha256} `{JoseEncryption} `{!EngineHost} `{!SendHost}.
Context `{!RowOrder} (versions : option Wire.WireVersions) (maximumEncodedBytes : Z).
Context (input : EndpointEngineInput).

#[local] Instance recovery_i : RecoveryPhase Recovery :=
  recoveryPhase versions maximumEncodedBytes input.
#[local] Instance phases_i : EnginePhases Recovery := sendPhases versions maximumEncodedBytes input.
#[local] Instance statement_i : JsonSchema EvidenceStatement := statement_schema versions.
#[local] Abbreviation acceptIngress :=
  (Certification.Certification.acceptEngineIngress versions maximumEncodedBytes input).
#[local] Abbreviation armCatchUp := (armCatchUp versions maximumEncodedBytes input).
#[local] Abbreviation rearmIfPaused := (rearmIfPaused versions maximumEncodedBytes input).

(** ** The end of a run *)

(** Its scope closes: its fibers end, and its waits settle. *)
Definition endRun : Engine unit :=
  active ← gets (fun w => activeRun (recovery w));
  match active with
  | None => mret tt
  | Some r =>
      sync (set_recovery (set_activeRun None)) ;;
      sync (fun w => set_recovery (set_tasks (filter (fun t => taskRun t <> r)))
        (updateRun r (fun run => set_waits (fun _ => []) (set_retries (fun _ => []) run)) w))
  end.

Definition endRunOnceRecovered (r : Ref) : Engine unit :=
  active ← gets (isActive r);
  run ← runAt r;
  if (active : bool) &&
     bool_decide (length (completedConversations run) = length (run_memberships run))
  then endRun else mret tt.

(** ** A recovered conversation *)

Definition uncertified (conversationId : string) (w : World) (intent : Ref) : bool :=
  match intentHeap w !! intent with
  | None => false
  | Some i => bool_decide (RecordSchemas.pi_conversationId (ep_intent i) = conversationId) &&
      negb (jm_has (completedPosts w) (postId (ep_intent i)))
  end.

Definition resumeIntents (r : Ref) (conversationId : string) : Engine unit :=
  run ← runAt r;
  waiting ← gets (fun w => filter (fun entry => uncertified conversationId w entry.2 = true) (intents w));
  forEach (fun entry =>
    (if decide (conversationId ∈ reanchoring run)
     then sync (updateIntent entry.2 EmptyRestart.forget_proposal) else mret tt) ;;
    mapError (fun _ => Persistence) (Send.proposeIntent versions maximumEncodedBytes input entry.2) ;;
    mret tt) waiting.

Definition resumeConversation (r : Ref) (conversationId : string) : Engine unit :=
  run ← runAt r;
  let retained := default [] (jm_get (retainedOutbounds run) conversationId) in
  sync (updateRun r (set_retained (fun m => jm_delete m conversationId))) ;;
  Outbox.Outbox.resume retained ;;
  Certification.Certification.resumeDisseminationObligations versions maximumEncodedBytes input
    (Some conversationId) ;;
  Certification.Certification.resumeEngineFolds versions maximumEncodedBytes input
    (Some conversationId) ;;
  resumeIntents r conversationId.

Definition markRecovered (r : Ref) (conversationId : string) : Engine unit :=
  uninterruptible (
    active ← gets (isActive r);
    run ← runAt r;
    if negb (active : bool) || bool_decide (conversationId ∈ completedConversations run)
    then mret tt
    else
      sync (updateRun r (fun run => set_waits (set_remove conversationId)
        (set_completed (set_add conversationId) run))) ;;
      sync (updateRun r (set_retries (fun m => jm_delete m conversationId))) ;;
      resumeConversation r conversationId ;;
      releaseConversation conversationId ;;
      endRunOnceRecovered r).

(** ** A ready position *)

Definition awaitReanchor (r : Ref) (conversationId : string) : Engine unit :=
  uninterruptible (sync (fun w =>
    match runs (recovery w) !! r with
    | None => w
    | Some run =>
        if negb (isActive r w) || bool_decide (conversationId ∈ completedConversations run)
        then w else updateRun r (set_waits (set_add conversationId)) w
    end)).

Definition positionReady (r : Ref) (conversationId : string) : Engine unit :=
  active ← gets (isActive r);
  run ← runAt r;
  match jm_get (run_memberships run) conversationId with
  | None => mret tt
  | Some membership =>
      if negb (active : bool) then mret tt
      else if decide (run_reason run = router_restarted) then
        Reanchor.Reanchor.positionReady versions maximumEncodedBytes input markRecovered r membership ;;
        awaitReanchor r conversationId
      else markRecovered r conversationId
  end.

(** ** Retries and forked tasks *)

(** A store that cannot be read ends the work with a warning. *)
Definition warned (m : Engine unit) : Engine unit := catch (fun _ => Some (mret tt)) m.

Definition recoverOnQuorum (r : Ref) (conversationId : string) : Engine unit :=
  sync (set_recovery (set_tasks (fun l => (l ++ [QuorumTask r conversationId])%list))).

(** [retryCatchUp]: the next resend of a conversation's fiber, which ends
    after the last one, or when the store cannot be read, and leaves the map
    when it ends. *)
Definition retryCatchUp (r : Ref) (conversationId : string) : Engine unit :=
  run ← runAt r;
  match jm_get (retries run) conversationId with
  | None => mret tt
  | Some remaining =>
      let ended := sync (updateRun r (set_retries (fun m => jm_delete m conversationId))) in
      warned (onExit (fun outcome =>
        match outcome, remaining with
        | Done _, S (S n) => sync (updateRun r (set_retries (fun m => jm_set m conversationId (S n))))
        | _, _ => ended
        end)
        (resendCertifiedHistoryRequest versions maximumEncodedBytes input r conversationId ;;
         match remaining with
         | S (S _) => mret tt
         | _ =>
             settled ← settleOnQuorum r conversationId;
             if (settled : bool) then recoverOnQuorum r conversationId else mret tt
         end))
  end.

(** One forked task; [index] is its place in the queue of those not yet run.
    It runs in one piece here.  In the code its fiber runs outside the engine's
    gate, so an ingress or a retry may come between two of its steps: between
    the staging of a candidate and the signature of the vote for it, for one.
    What the theorems of RecoveryRuns show of an endpoint rests on the guards
    of the store's transactions, each of which is atomic in the code too. *)
Definition runTask (index : nat) : Engine unit :=
  task ← syncWith (fun w => (tasks (recovery w) !! index,
    set_recovery (set_tasks (delete index)) w));
  match (task : option Task) with
  | None => mret tt
  | Some (RearmTask _ conversations) => warned (forEach rearmIfPaused conversations)
  | Some (QuorumTask r conversation) => warned (positionReady r conversation)
  end.

(** ** Ingress *)

Definition rearmOnMemberTraffic (ingress : Ingress) (conversationId : string) : Engine unit :=
  active ← currentRun;
  match active ≫= (fun run => jm_get (run_memberships run.2) conversationId) with
  | None => mret tt
  | Some membership =>
      if sentByOtherMember input membership (SignedMessages.senderAgentId (outer ingress))
      then rearmIfPaused conversationId else mret tt
  end.

Definition acceptRunPacket (ingress : Ingress) (packet : DirectPacket) :
    Engine RouterIngressDisposition :=
  active ← gets (fun w => activeRun (recovery w));
  match active, packet with
  | Some r, PacketPage page => acceptCatchUpPage versions maximumEncodedBytes input r ingress page
  | Some r, PacketIncomplete incomplete =>
      acceptCatchUpIncomplete versions maximumEncodedBytes input positionReady r ingress incomplete
  | Some r, PacketReanchor completed =>
      Reanchor.Reanchor.acceptCompletedReanchor versions maximumEncodedBytes input r ingress completed
  | _, _ => mret ignored
  end.

Definition acceptHistoryPacket (ingress : Ingress) (packet : DirectPacket) :
    Engine RouterIngressDisposition :=
  recovering ← gets (fun w => isRecovering w (packetConversation packet));
  if negb (recovering : bool) then acceptIngress ingress None
  else
    active ← gets (fun w => activeRun (recovery w));
    match packet, active with
    | PacketCertified _, _ => Certification.Certification.acceptEngineRecoveryIngress versions
        maximumEncodedBytes input ingress
    | PacketActionCertified record, Some r =>
        acceptSuccessorRecord versions maximumEncodedBytes input r ingress record
    | _, _ => mret ignored
    end.

Definition routePacket (ingress : Ingress) (packet : DirectPacket) :
    Engine RouterIngressDisposition :=
  match packet with
  | PacketRequest request => acceptCatchUpRequest versions maximumEncodedBytes input ingress request
  | PacketPage _ | PacketIncomplete _ | PacketReanchor _ => acceptRunPacket ingress packet
  | PacketCertified _ | PacketProposal _ | PacketActionCertified _ => acceptHistoryPacket ingress packet
  end.

Definition acceptPacket (ingress : Ingress) (packet : DirectPacket) :
    Engine RouterIngressDisposition :=
  disposition ← routePacket ingress packet;
  rearmOnMemberTraffic ingress (packetConversation packet) ;;
  mret disposition.

(** A vote for another Router instance that verifies as the member's, names
    the membership and hashes to its anchor. *)
Definition noteEarlierReanchor (r : Ref) (ingress : Ingress) (message : SignedMessages.SignedMessage)
    (s : EvidenceStatement) (anchorHash : string) (body : ReanchorBody) :
    Engine RouterIngressDisposition :=
  run ← runAt r;
  match jm_get (run_memberships run) (rb_conversationId body) with
  | None => mret ignored
  | Some membership =>
      if decide (rb_membershipHash body <> hash membership) then mret ignored
      else
        catch (fun e => if decide (e = Representation) then Some (mret tt) else None)
          (waitBehindEarlierReanchor r body (
             _ ← Certification.Certification.verified (verifyDeliveredEvidence versions
               maximumEncodedBytes (outer ingress) message membership (Some s));
             expected ← Certification.Certification.verified (hashAnchor versions (AnchorReanchor body));
             if decide (expected = anchorHash) then mret tt else fail Representation)) ;;
        mret ignored
  end.

Definition routeEvidence (ingress : Ingress) (message : SignedMessages.SignedMessage)
    (s : EvidenceStatement) (fenced : bool) : Engine RouterIngressDisposition :=
  active ← currentRun;
  match s with
  | ReanchorVote _ _ anchorHash body =>
      match active with
      | None => mret ignored
      | Some (r, run) =>
          if decide (rb_routerInstanceId body <> run_routerInstanceId run)
          then noteEarlierReanchor r ingress message s anchorHash body
          else Reanchor.Reanchor.acceptReanchorVote versions maximumEncodedBytes input markRecovered
                 r ingress message s
      end
  | _ =>
      if negb fenced then acceptIngress ingress (Some s)
      else
        match s, active with
        | DurabilityVote _ signer conversationId _ recordHash, Some (r, _) =>
            acceptSuccessorVote versions maximumEncodedBytes input r ingress message s
              conversationId recordHash signer
        | _, _ => mret ignored
        end
  end.

Definition acceptEvidence (ingress : Ingress) (message : SignedMessages.SignedMessage) :
    Engine RouterIngressDisposition :=
  idle ← gets (fun w => bool_decide (activeRun (recovery w) = None) &&
    bool_decide (currentRecoveryBarrier w = None));
  if (idle : bool) then acceptIngress ingress None
  else ignoring (
    s ← Certification.Certification.verified
      (decodeCanonical (A := EvidenceStatement) (SignedMessages.body message));
    '(target, _) ← evidenceTarget s;
    fenced ← gets (fun w => match target with
                            | None => false
                            | Some conversationId => isRecovering w conversationId
                            end);
    disposition ← routeEvidence ingress message s fenced;
    match target with
    | None => mret tt
    | Some conversationId => rearmOnMemberTraffic ingress conversationId
    end ;;
    mret disposition).

Definition acceptEngineIngressWithRecovery (ingress : Ingress) : Engine RouterIngressDisposition :=
  match payload ingress with
  | Evidence message => acceptEvidence ingress message
  | Direct packet => acceptPacket ingress packet
  end.

(** ** The start of a run *)

Definition recoveredMembershipMatches (w : World) (membership : VerifiedMembership) : bool :=
  bool_decide (is_Some (memberCard membership (localAgentId input))) &&
  match jm_get (conversations w) (md_conversationId (descriptor membership)) with
  | None => false
  | Some r =>
      match conversationHeap w !! r with
      | None => false
      | Some conversation => bool_decide (hash (ec_membership conversation) = hash membership)
      end
  end.

Definition refused {A} (o : option A) : Engine A := ofOption recoveryFailure o.

Definition recoverMemberships (stored : EndpointRecovery) : Engine (list (string * VerifiedMembership)) :=
  memberships ← refused (verifyStoredMemberships versions (StoredHistory.memberships stored)
    (registrySignerPublicKey input));
  matches ← gets (fun w => forallb (fun entry => recoveredMembershipMatches w entry.2) memberships);
  if bool_decide (length memberships = length (StoredHistory.memberships stored)) && (matches : bool)
  then mret memberships else fail recoveryFailure.

Definition reanchoringConversations (discontinuity : RouterWorkerRecovery) (stored : EndpointRecovery)
    (memberships : list (string * VerifiedMembership)) : Engine (list string) :=
  if decide (rw_reason discontinuity <> router_restarted) then mret []
  else
    instances ← refused (mapM (fun entry : string * VerifiedMembership =>
      instance ← durableRouterInstanceId versions maximumEncodedBytes entry.2 stored;
      Some (md_conversationId (descriptor entry.2), instance)) memberships);
    mret (filter (fun i => i.2 <> rw_routerInstanceId discontinuity) instances).*1.

Definition prepareRecoveryOutbox (stored : StoredState)
    (memberships : list (string * VerifiedMembership)) (reanchoring : list string) :
    Engine (list OutboundMessageInput) :=
  outbounds ← refused (exit_option (verifyStoredOutbounds versions maximumEncodedBytes
    (localAgentId input) (st_outboundMessages stored) memberships));
  mapError (fun _ => recoveryFailure)
    (store (StoreQueues.StoreQueues.discardOutbound
      (filter (fun o => om_conversationId o ∈ reanchoring) outbounds))) ;;
  mret (filter (fun o => om_conversationId o ∉ reanchoring) outbounds).

Definition newRun (run : RecoveryRun) : Engine Ref :=
  syncWith (fun w => (length (runs (recovery w)),
    set_recovery (set_runs (fun h => (h ++ [run])%list)) w)).

Definition recoverCertifiedHistory (discontinuity : RouterWorkerRecovery) : Engine unit :=
  installed ← gets currentRecoveryBarrier;
  match installed with
  | None => fail recoveryFailure
  | Some barrier =>
      endRun ;;
      stored ← mapError (fun _ => recoveryFailure) (store (recover None));
      memberships ← recoverMemberships (st_history stored);
      _ ← refused (verifyRecoveredHistory versions maximumEncodedBytes (st_history stored) memberships);
      reanchoring ← reanchoringConversations discontinuity (st_history stored) memberships;
      retained ← prepareRecoveryOutbox stored memberships reanchoring;
      r ← newRun (mkRun (rw_reason discontinuity) (rw_routerInstanceId discontinuity) reanchoring
        memberships (groupByConversation retained) [] [] [] [] makeCatchUpState [] []);
      sync (set_recovery (set_activeRun (Some r))) ;;
      forEach fenceConversation (jm_keys memberships) ;;
      mapError (fun _ => recoveryFailure) (forEach (armCatchUp r) (jm_keys memberships)) ;;
      endRunOnceRecovered r ;;
      completeRecoveryBarrier barrier
  end.

End recovery.
End Recovery.
