(* ===== verification/RouterWorker.v ===== *)
(** RouterWorker: the endpoint's one worker of a Router
    (packages/client/src/communication/router/index.ts, outage.ts and types.ts).

    The worker polls the Router's feed into the engine, sends the envelopes of
    the outbox, and recovers when the Router loses its place.  A poll and a
    send are processes: their calls of the Router, the Registry, the store and
    the engine are answered from outside, and between any two of their steps
    others may run.  Three gates order them, and an interrupted process gives
    its gates back.  A call and its answer are one step: what others do while it
    is under way comes before it, and an interrupted call has no answer and is
    not among what happened.  Delays between attempts, log lines and the watcher that
    repeats a warning are outside the model. *)
From S2P Require Import Prelude JsMap Identifiers Json SignedMessages OuterBody StoreDatabase.
From S2P Require Import StoreQueues RouterFeed RouterPoll EngineRuntime RecoveryState.
Local Open Scope string_scope.

Module Worker.
Import Identifiers CanonicalJson ClientJson OuterBody StoreDatabase EngineRuntime RecoveryState.

(** ** Failures *)

Inductive RouterCallError :=
  | AgentSigningError | AuthenticationFailedError | InternalServerError | MalformedRequestError
  | MethodNotAllowedError | OverloadedError | PayloadTooLargeError | RouteNotFoundError
  | RouterConnectionError | RouterInvalidResponseError | RouterRequestTimeoutError
  | UnavailableError | UnsupportedMediaTypeError | VersionMismatchError.

Inductive RejectionReason :=
  | AuthenticationReason | VersionReason | RequestReason | ResponseReason | SigningReason.

Inductive WorkerError :=
  | RouterWorkerAuthenticationError | RouterWorkerPersistenceError | RouterWorkerTransportError
  | RouterWorkerProtocolError | RouterWorkerRecoveryError | RouterWorkerDiscontinuityError
  | RouterWorkerRejectedError (reason : RejectionReason) | RouterWorkerUnavailableError.

Definition mapRouterFailure (error : RouterCallError) : WorkerError :=
  match error with
  | AgentSigningError => RouterWorkerRejectedError SigningReason
  | AuthenticationFailedError => RouterWorkerRejectedError AuthenticationReason
  | InternalServerError | OverloadedError | RouterConnectionError | RouterRequestTimeoutError
  | UnavailableError => RouterWorkerTransportError
  | MalformedRequestError | MethodNotAllowedError | PayloadTooLargeError | RouteNotFoundError
  | UnsupportedMediaTypeError => RouterWorkerRejectedError RequestReason
  | RouterInvalidResponseError => RouterWorkerRejectedError ResponseReason
  | VersionMismatchError => RouterWorkerRejectedError VersionReason
  end.

Definition isTransportFailure (error : WorkerError) : bool :=
  match error with RouterWorkerTransportError => true | _ => false end.
Definition isTransientRouterWorkerError (error : WorkerError) : bool :=
  match error with
  | RouterWorkerDiscontinuityError | RouterWorkerTransportError | RouterWorkerUnavailableError => true
  | _ => false
  end.

(** ** State *)

Record RouterTailAnchor := mkAnchor { an_routerInstanceId : string; an_pollCursor : string }.

Record RouterWorkerRecoveringState := mkRecovering {
  rc_generation : nat;
  rc_reason : RouterDiscontinuityReason;
  rc_priorRouterInstanceId : option string;
  rc_volatileFoldsAbandoned : bool;
  rc_anchor : option RouterTailAnchor;
  rc_unreachableSince : option Z;
}.

Inductive RouterWorkerState :=
  | Active (generation : nat) (anchor : RouterTailAnchor)
  | Detached (generation : nat) (anchor : RouterTailAnchor) (detachedAt : Z)
  | Recovering (recovering : RouterWorkerRecoveringState).

Definition generationOf (s : RouterWorkerState) : nat :=
  match s with Active g _ | Detached g _ _ => g | Recovering r => rc_generation r end.

(** A worker starts recovering. *)
Definition initialState : RouterWorkerState :=
  Recovering (mkRecovering 0 router_restarted None false None None).

Definition routerWorkerRetryAttempts : nat := 3.
(** Quick retries of one poll. *)
Definition blipRetries : nat := 3.

(** ** Calls and processes *)

Abbreviation PollResult := (@Poll.RouterPollResult SignedMessages.SignedMessage).

Record RouterSendRequest := mkSendRequest {
  expectedRouterInstanceId : string;
  sendMode : Feed.SendMode;
  sentMessage : SignedMessages.SignedMessage;
}.

(** What the worker asks of the Router, the Registry, the engine's callbacks,
    the outbox and the clock. *)
Inductive Call :=
  | PollRouter (pollCursor : option string)
  | SendRouter (request : RouterSendRequest)
  | LookUp (agentId : string)
  | PinSenderCard (card : AgentCards.AgentCard)
  | DecodePayload (message : SignedMessages.SignedMessage)
  | AcceptPayload (ingress : Ingress)
  | AbandonVolatileFolds (reason : RouterDiscontinuityReason)
  | RecoverHistory (reason : RouterDiscontinuityReason) (anchor : RouterTailAnchor)
  | Reattached
  | BeginOutbound (messageId : string)
  | CompleteOutbound (outbound : OutboundMessageInput)
  | Clock.

(** The card a lookup found, and whether an operation succeeded. *)
Definition Answer (c : Call) : Type :=
  match c with
  | PollRouter _ => RouterCallError + PollResult
  | SendRouter _ => RouterCallError + Feed.RouterSendResult
  | LookUp _ => option AgentCards.AgentCard
  | DecodePayload _ => option DecodedOuterBody
  | PinSenderCard _ | AcceptPayload _ | RecoverHistory _ _ | CompleteOutbound _ => bool
  | AbandonVolatileFolds _ | Reattached => unit
  | BeginOutbound _ => option StoreQueues.OutboundAttempt
  | Clock => Z
  end.

Inductive Gate := pollGate | stateGate | recoveryGate.
Global Instance Gate_eq_dec : EqDecision Gate.
Proof. solve_decision. Defined.

Abbreviation Cards := (list (string * AgentCards.AgentCard)).

(** A process: how it ends, or its next step. *)
Inductive Proc (A : Type) : Type :=
  | Exits (exit : Exit WorkerError A)
  | Calls (c : Call) (k : Answer c -> Proc A)
  | Reads (k : RouterWorkerState -> Proc A)
  | Writes (s : RouterWorkerState) (k : Proc A)
  | ReadsCards (k : Cards -> Proc A)
  | WritesCard (agentId : string) (card : AgentCards.AgentCard) (k : Proc A)
  | Acquires (g : Gate) (k : Proc A)
  | Releases (g : Gate) (k : Proc A).
Arguments Exits {A} _.
Arguments Calls {A} _ _.
Arguments Reads {A} _.
Arguments Writes {A} _ _.
Arguments ReadsCards {A} _.
Arguments WritesCard {A} _ _ _.
Arguments Acquires {A} _ _.
Arguments Releases {A} _ _.

Fixpoint onExit {A B} (m : Proc A) (k : Exit WorkerError A -> Proc B) : Proc B :=
  match m with
  | Exits exit => k exit
  | Calls c next => Calls c (fun a => onExit (next a) k)
  | Reads next => Reads (fun s => onExit (next s) k)
  | Writes s next => Writes s (onExit next k)
  | ReadsCards next => ReadsCards (fun cards => onExit (next cards) k)
  | WritesCard agentId card next => WritesCard agentId card (onExit next k)
  | Acquires g next => Acquires g (onExit next k)
  | Releases g next => Releases g (onExit next k)
  end.

#[global] Instance proc_ret : MRet Proc := fun _ a => Exits (Succeed a).
#[global] Instance proc_bind : MBind Proc := fun _ _ f m =>
  onExit m (fun exit => match exit with Succeed a => f a | Fail_ e => Exits (Fail_ e) end).
Definition failing {A} (e : WorkerError) : Proc A := Exits (Fail_ e).
Definition call (c : Call) : Proc (Answer c) := Calls c (fun a => Exits (Succeed a)).
Definition read : Proc RouterWorkerState := Reads (fun s => Exits (Succeed s)).
Definition write (s : RouterWorkerState) : Proc unit := Writes s (Exits (Succeed tt)).
(** [gate.withPermits(1)] *)
Definition withPermit {A} (g : Gate) (m : Proc A) : Proc A :=
  Acquires g (onExit m (fun exit => Releases g (Exits exit))).
Definition succeeded (e : WorkerError) (ok : bool) : Proc unit :=
  if ok then mret tt else failing e.

Section worker.
Context `{Base64Url} `{HostJson} `{Jose} `{Sha256}.
Context (versions : option Wire.WireVersions) (maximumEncodedBytes : Z).
(** The endpoint's own identity. *)
Context (callerAgentId : string).

(** ** Polls and their outage *)

(** A poll, again after each of [retries] transport failures. *)
Fixpoint pollRetrying (pollCursor : option string) (retries : nat) : Proc PollResult :=
  answer ← call (PollRouter pollCursor);
  match answer with
  | inr result => mret result
  | inl error =>
      let failure := mapRouterFailure error in
      match retries with
      | S retries => if isTransportFailure failure then pollRetrying pollCursor retries
                     else failing failure
      | O => failing failure
      end
  end.

Definition anchorFromOmittedResult (result : PollResult) : Proc RouterTailAnchor :=
  match result with
  | Poll.Batch routerInstanceId [] pollCursor => mret (mkAnchor routerInstanceId pollCursor)
  | _ => failing RouterWorkerProtocolError
  end.

Definition pollRouterTail : Proc RouterTailAnchor :=
  result ← pollRetrying None blipRetries; anchorFromOmittedResult result.

Definition detach (generation : nat) : Proc unit :=
  detachedAt ← call Clock;
  withPermit stateGate (
    state ← read;
    match state with
    | Active g anchor => if decide (g = generation) then write (Detached g anchor detachedAt) else mret tt
    | _ => mret tt
    end).

(** Whether the worker is active again. *)
Definition reattached (generation : nat) : Proc unit :=
  active ← withPermit stateGate (
    state ← read;
    match state with
    | Detached g anchor _ => if decide (g = generation) then write (Active g anchor) ;; mret true
                             else mret false
    | _ => mret false
    end);
  if (active : bool) then call Reattached else mret tt.

Definition markUnreachable (state : RouterWorkerState) (error : WorkerError) (now : Z) :
    RouterWorkerState :=
  match state with
  | Recovering r =>
      if isTransportFailure error && bool_decide (rc_unreachableSince r = None)
      then Recovering (mkRecovering (rc_generation r) (rc_reason r) (rc_priorRouterInstanceId r)
        (rc_volatileFoldsAbandoned r) (rc_anchor r) (Some now))
      else state
  | _ => state
  end.

Definition noteRunFailure (error : WorkerError) : Proc unit :=
  if isTransientRouterWorkerError error then
    now ← call Clock;
    withPermit stateGate (state ← read; write (markUnreachable state error now))
  else mret tt.

(** ** Recovery *)

Definition matchesRecovery (state : RouterWorkerState) (generation : nat) (routerInstanceId : string) :
    option RouterTailAnchor :=
  match state with
  | Recovering r =>
      match rc_anchor r with
      | Some anchor => if bool_decide (rc_generation r = generation) &&
                          bool_decide (an_routerInstanceId anchor = routerInstanceId)
                       then Some anchor else None
      | None => None
      end
  | _ => None
  end.

(** The recovering state and its anchor. *)
Definition anchorRecovery (generation : nat) (anchor : RouterTailAnchor) :
    Proc (RouterWorkerRecoveringState * RouterTailAnchor) :=
  withPermit stateGate (
    state ← read;
    match state with
    | Recovering current =>
        if decide (rc_generation current <> generation) then failing RouterWorkerDiscontinuityError
        else
          let reason := match rc_priorRouterInstanceId current with
                        | Some prior => if decide (prior <> an_routerInstanceId anchor)
                                        then router_restarted else rc_reason current
                        | None => rc_reason current
                        end in
          let anchored := mkRecovering (rc_generation current) reason
            (Some (default (an_routerInstanceId anchor) (rc_priorRouterInstanceId current)))
            (bool_decide (rc_reason current = reason) && rc_volatileFoldsAbandoned current)
            (Some anchor) None in
          write (Recovering anchored) ;; mret (anchored, anchor)
    | _ => failing RouterWorkerDiscontinuityError
    end).

Definition prepareRecovery (recovering : RouterWorkerRecoveringState) (anchor : RouterTailAnchor) :
    Proc (RouterWorkerRecoveringState * RouterTailAnchor) :=
  if rc_volatileFoldsAbandoned recovering then mret (recovering, anchor)
  else
    call (AbandonVolatileFolds (rc_reason recovering)) ;;
    withPermit stateGate (
      state ← read;
      match state with
      | Recovering current =>
          match rc_anchor current with
          | Some anchor =>
              if decide (rc_generation current <> rc_generation recovering)
              then failing RouterWorkerDiscontinuityError
              else
                let prepared := mkRecovering (rc_generation current) (rc_reason current)
                  (rc_priorRouterInstanceId current) true (Some anchor) (rc_unreachableSince current) in
                write (Recovering prepared) ;; mret (prepared, anchor)
          | None => failing RouterWorkerDiscontinuityError
          end
      | _ => failing RouterWorkerDiscontinuityError
      end).

Definition finishRouterRecovery (recovering : RouterWorkerRecoveringState) : Proc unit :=
  tail ← pollRouterTail;
  '(anchored, anchor) ← anchorRecovery (rc_generation recovering) tail;
  '(prepared, anchor) ← prepareRecovery anchored anchor;
  recovered ← call (RecoverHistory (rc_reason prepared) anchor);
  succeeded RouterWorkerRecoveryError recovered ;;
  withPermit stateGate (
    state ← read;
    match matchesRecovery state (rc_generation prepared) (an_routerInstanceId anchor) with
    | Some anchor => write (Active (rc_generation prepared) anchor)
    | None => failing RouterWorkerDiscontinuityError
    end).

Definition enterRecovery (generation : nat) (anchor : RouterTailAnchor)
    (reason : RouterDiscontinuityReason) : Proc unit :=
  let recovering := mkRecovering (S generation) reason (Some (an_routerInstanceId anchor)) false None None in
  withPermit stateGate (write (Recovering recovering)) ;;
  finishRouterRecovery recovering.

Definition triggerDiscontinuity (reason : RouterDiscontinuityReason) (observedGeneration : nat) :
    Proc unit :=
  withPermit recoveryGate (
    current ← read;
    match current with
    | Recovering recovering => finishRouterRecovery recovering
    | Active generation anchor | Detached generation anchor _ =>
        if decide (generation <> observedGeneration) then mret tt
        else enterRecovery generation anchor reason
    end).

(** ** A batch *)

Definition resolveSenderCard (agentId : string) : Proc AgentCards.AgentCard :=
  cards ← ReadsCards (fun cards => mret cards);
  match jm_get (cards : Cards) agentId with
  | Some card => mret card
  | None =>
      found ← call (LookUp agentId);
      match found with
      | Some card =>
          if decide (AgentCards.agentId card <> agentId) then failing RouterWorkerAuthenticationError
          else
            pinned ← call (PinSenderCard card);
            succeeded RouterWorkerPersistenceError pinned ;;
            WritesCard agentId card (mret card)
      | None => failing RouterWorkerAuthenticationError
      end
  end.

Definition verifyOuter (signedMessage : SignedMessages.SignedMessage) :
    Proc (SignedMessages.SignedMessage * AgentCards.AgentCard) :=
  senderCard ← resolveSenderCard (SignedMessages.senderAgentId signedMessage);
  match SignedMessages.verify signedMessage senderCard with
  | Some message => mret (message, senderCard)
  | None => failing RouterWorkerAuthenticationError
  end.

Fixpoint verifyBatch (messages : list SignedMessages.SignedMessage) :
    Proc (list (SignedMessages.SignedMessage * AgentCards.AgentCard)) :=
  match messages with
  | [] => mret []
  | message :: rest =>
      verified ← verifyOuter message;
      others ← verifyBatch rest;
      mret (verified :: others)
  end.

(** A body that is no protocol value is passed over. *)
Definition acceptVerified (ingress : SignedMessages.SignedMessage * AgentCards.AgentCard)
    (instance : string) : Proc unit :=
  payload ← call (DecodePayload ingress.1);
  match payload with
  | None => mret tt
  | Some payload =>
      taken ← call (AcceptPayload (mkIngress instance ingress.1 ingress.2 payload));
      succeeded RouterWorkerPersistenceError taken
  end.

Fixpoint acceptAll (verified : list (SignedMessages.SignedMessage * AgentCards.AgentCard))
    (instance : string) : Proc unit :=
  match verified with
  | [] => mret tt
  | ingress :: rest => acceptVerified ingress instance ;; acceptAll rest instance
  end.

Definition commitBatch (generation : nat) (instance pollCursor : string)
    (verified : list (SignedMessages.SignedMessage * AgentCards.AgentCard)) : Proc unit :=
  withPermit stateGate (
    state ← read;
    match state with
    | Active g anchor =>
        if bool_decide (g = generation) && bool_decide (an_routerInstanceId anchor = instance) then
          acceptAll verified instance ;;
          write (Active g (mkAnchor (an_routerInstanceId anchor) pollCursor))
        else mret tt
    | _ => mret tt
    end).

(** ** One poll *)

Definition pollActiveOnce (generation : nat) (anchor : RouterTailAnchor) : Proc unit :=
  result ← onExit (pollRetrying (Some (an_pollCursor anchor)) blipRetries) (fun exit =>
    match exit with
    | Fail_ RouterWorkerTransportError => detach generation ;; failing RouterWorkerTransportError
    | exit => Exits exit
    end);
  match result with
  | Poll.Batch instance messages pollCursor =>
      if decide (instance <> an_routerInstanceId anchor)
      then triggerDiscontinuity router_restarted generation
      else verified ← verifyBatch messages; commitBatch generation instance pollCursor verified
  | Poll.FeedGap _ => triggerDiscontinuity feed_gap generation
  | Poll.CursorInvalid => triggerDiscontinuity cursor_invalid generation
  end.

Definition probeDetached (generation : nat) (anchor : RouterTailAnchor) : Proc unit :=
  tail ← pollRouterTail;
  if decide (an_routerInstanceId tail = an_routerInstanceId anchor) then reattached generation
  else triggerDiscontinuity router_restarted generation.

Definition pollOnce : Proc unit :=
  withPermit pollGate (
    state ← read;
    match state with
    | Active generation anchor => pollActiveOnce generation anchor
    | Detached generation anchor _ => probeDetached generation anchor
    | Recovering recovering => withPermit recoveryGate (finishRouterRecovery recovering)
    end).

(** One turn of the polling loop, which takes another turn after a success and
    after a transient failure. *)
Definition runOnce : Proc unit :=
  onExit pollOnce (fun exit =>
    match exit with
    | Succeed a => Exits (Succeed a)
    | Fail_ error => noteRunFailure error ;; failing error
    end).

(** ** One send *)

Inductive SendOutcome := Outcome_accepted | Outcome_restarted.

Definition digestCanonicalSignedMessage (canonicalSignedMessage : string) : option string :=
  let digest := "smd_" ++ encodeBase64Url (sha256 canonicalSignedMessage) in
  if canonicalValue "smd_" 32 digest then Some digest else None.

Definition completeAcceptedOutbound (outbound : OutboundMessageInput)
    (instance routerInstanceId signedMessageDigest : string) : Proc SendOutcome :=
  if decide (routerInstanceId <> instance) then failing RouterWorkerProtocolError
  else
    match digestCanonicalSignedMessage (om_canonicalSignedMessage outbound) with
    | None => failing RouterWorkerProtocolError
    | Some expectedDigest =>
        if decide (signedMessageDigest <> expectedDigest) then failing RouterWorkerProtocolError
        else
          completed ← call (CompleteOutbound outbound);
          succeeded RouterWorkerPersistenceError completed ;;
          mret Outcome_accepted
    end.

(** The stored envelope again under another mode, with the attempts left. *)
Definition resendInMode (from to_ : Feed.SendMode) (attemptsRemaining : nat)
    (resend : Proc SendOutcome) : Proc SendOutcome :=
  match from, to_ with
  | Feed.Initial, Feed.Initial | Feed.Retry, Feed.Retry => failing RouterWorkerProtocolError
  | _, _ => if decide (attemptsRemaining < 1)%nat then failing RouterWorkerTransportError else resend
  end.

(** One transmission: [again] follows a transport failure, [initially] an
    unknown retry identity and [conflicting] a conflict. *)
Definition transmitOnce (outbound : OutboundMessageInput) (message : SignedMessages.SignedMessage)
    (instance : string) (mode : Feed.SendMode) (attemptsRemaining : nat)
    (again initially conflicting : Proc SendOutcome) : Proc SendOutcome :=
  answer ← call (SendRouter (mkSendRequest instance mode message));
  match answer with
  | inl error =>
      let failure := mapRouterFailure error in
      if negb (isTransportFailure failure) || bool_decide (attemptsRemaining <= 1)%nat
      then failing failure else again
  | inr (Feed.Accepted routerInstanceId signedMessageDigest) =>
      completeAcceptedOutbound outbound instance routerInstanceId signedMessageDigest
  | inr (Feed.RouterRestarted _) => mret Outcome_restarted
  | inr Feed.RetryIdentityUnknown =>
      resendInMode mode Feed.Initial (attemptsRemaining - 1) initially
  | inr Feed.IdempotencyConflict => resendInMode mode Feed.Retry attemptsRemaining conflicting
  | inr Feed.MessageInvalid => failing RouterWorkerProtocolError
  end.

(** An [initial] that conflicts asks again as [retry] at no cost. *)
Fixpoint transmitOuter (outbound : OutboundMessageInput) (message : SignedMessages.SignedMessage)
    (instance : string) (attemptsRemaining : nat) (mode : Feed.SendMode) : Proc SendOutcome :=
  let fewer := fun mode =>
    match attemptsRemaining with
    | O => failing RouterWorkerTransportError
    | S rest => transmitOuter outbound message instance rest mode
    end in
  let retrying := transmitOnce outbound message instance Feed.Retry attemptsRemaining
    (fewer Feed.Retry) (fewer Feed.Initial) (failing RouterWorkerProtocolError) in
  match mode with
  | Feed.Retry => retrying
  | Feed.Initial => transmitOnce outbound message instance Feed.Initial attemptsRemaining
      (fewer Feed.Retry) (failing RouterWorkerProtocolError) retrying
  end.

#[local] Instance message_i : JsonSchema SignedMessages.SignedMessage :=
  OuterBody.message_schema versions maximumEncodedBytes.

(** [SignedMessage.live]: a live version only. *)
Definition decodeStoredOutbound (outbound : OutboundMessageInput) :
    option SignedMessages.SignedMessage :=
  message ← decodeCanonical (A := SignedMessages.SignedMessage) (om_canonicalSignedMessage outbound);
  live ← SignedMessages.decodeLive versions maximumEncodedBytes (SignedMessages.representation message);
  if decide (SignedMessages.messageId live = om_messageId outbound) then Some live else None.

Definition attemptMode (mode : StoreQueues.AttemptMode) : Feed.SendMode :=
  match mode with
  | StoreQueues.InitialAttempt => Feed.Initial
  | StoreQueues.RetryAttempt => Feed.Retry
  end.

Definition transmitOutbound (messageId instance : string) : Proc SendOutcome :=
  begun ← call (BeginOutbound messageId);
  match begun with
  | None => failing RouterWorkerPersistenceError
  | Some StoreQueues.Inactive => mret Outcome_accepted
  | Some (StoreQueues.PendingAttempt mode outbound) =>
      match decodeStoredOutbound outbound with
      | None => failing RouterWorkerProtocolError
      | Some message =>
          if decide (SignedMessages.senderAgentId message <> callerAgentId)
          then failing RouterWorkerProtocolError
          else transmitOuter outbound message instance routerWorkerRetryAttempts (attemptMode mode)
      end
  end.

Definition send (messageId : string) : Proc unit :=
  '(outcome, generation) ← withPermit recoveryGate (
    state ← read;
    match state with
    | Active generation anchor =>
        outcome ← transmitOutbound messageId (an_routerInstanceId anchor);
        mret (outcome, generation)
    | _ => failing RouterWorkerUnavailableError
    end);
  match outcome with
  | Outcome_accepted => mret tt
  | Outcome_restarted =>
      triggerDiscontinuity router_restarted generation ;;
      failing RouterWorkerDiscontinuityError
  end.

(** ** What others ask of the worker *)

Definition currentAnchor : Proc RouterTailAnchor :=
  state ← read;
  match state with
  | Active _ anchor => mret anchor
  | _ => failing RouterWorkerUnavailableError
  end.
(** The first state of [awaitAnchor]'s stream with an anchor answers it. *)
Definition activeAnchor (state : RouterWorkerState) : option RouterTailAnchor :=
  match state with Active _ anchor => Some anchor | _ => None end.

(** A worker that waits on an unreachable Router, since when. *)
Inductive StallKind := Stall_detached | Stall_recovering.
Record Stall := mkStall { stallKind : StallKind; stallGeneration : nat; since : Z }.
Definition stallOf (state : RouterWorkerState) : option Stall :=
  match state with
  | Active _ _ => None
  | Detached generation _ detachedAt => Some (mkStall Stall_detached generation detachedAt)
  | Recovering r => mkStall Stall_recovering (rc_generation r) <$> rc_unreachableSince r
  end.

Definition reasonText (reason : RejectionReason) : string :=
  match reason with
  | AuthenticationReason => "authentication" | VersionReason => "version"
  | RequestReason => "request" | ResponseReason => "response" | SigningReason => "signing"
  end.
Definition describeRouterWorkerFailure (error : WorkerError) : string :=
  match error with
  | RouterWorkerRejectedError reason => "the Router rejected this endpoint's " ++ reasonText reason
  | RouterWorkerAuthenticationError => "RouterWorkerAuthenticationError"
  | RouterWorkerPersistenceError => "RouterWorkerPersistenceError"
  | RouterWorkerTransportError => "RouterWorkerTransportError"
  | RouterWorkerProtocolError => "RouterWorkerProtocolError"
  | RouterWorkerRecoveryError => "RouterWorkerRecoveryError"
  | RouterWorkerDiscontinuityError => "RouterWorkerDiscontinuityError"
  | RouterWorkerUnavailableError => "RouterWorkerUnavailableError"
  end.

(** ** Construction *)

(** The cards pinned before the Registry is reached; the endpoint's own is one
    of them.  Two cards are one when their representations are. *)
Fixpoint seedPinnedCards (pinned : list AgentCards.AgentCard) (cards : Cards) : option Cards :=
  match pinned with
  | [] => Some cards
  | card :: rest =>
      match jm_get cards (AgentCards.agentId card) with
      | Some retained =>
          if decide (AgentCards.c_representation retained <> AgentCards.c_representation card)
          then None else seedPinnedCards rest (jm_set cards (AgentCards.agentId card) card)
      | None => seedPinnedCards rest (jm_set cards (AgentCards.agentId card) card)
      end
  end.

Definition startingCards (callerAgentCard : AgentCards.AgentCard) (pinned : list AgentCards.AgentCard) :
    option Cards :=
  if decide (AgentCards.agentId callerAgentCard <> callerAgentId) then None
  else
    cards ← seedPinnedCards pinned [];
    local ← jm_get cards callerAgentId;
    if decide (AgentCards.c_representation local = AgentCards.c_representation callerAgentCard)
    then Some cards else None.

End worker.

(** ** Interleavings *)

Inductive Event :=
  | Called (c : Call) (a : Answer c)
  | Wrote (s : RouterWorkerState).

(** The worker's state and cards, who holds each gate, the processes there are
    and those that ended, and what happened, latest first. *)
Record Pool := mkPool {
  workerState : RouterWorkerState;
  cards : Cards;
  holder : Gate -> option nat;
  processes : list (option (Proc unit));
  happened : list Event;
}.

Definition hold (g : Gate) (i : option nat) (holder : Gate -> option nat) (g' : Gate) : option nat :=
  if decide (g' = g) then i else holder g'.
(** What an interrupted process held is free. *)
Definition dropped (i : nat) (holder : Gate -> option nat) (g : Gate) : option nat :=
  if decide (holder g = Some i) then None else holder g.

(** A new turn or send, a step of a process with its call's answer, and an
    interruption. *)
Inductive Move :=
  | Starts (turn : option string)
  | Steps (i : nat) (answers : forall c, Answer c)
  | Interrupts (i : nat).

Section pool.
Context `{Base64Url} `{HostJson} `{Jose} `{Sha256}.
Context (versions : option Wire.WireVersions) (maximumEncodedBytes : Z) (callerAgentId : string).

Definition started (turn : option string) : Proc unit :=
  match turn with
  | None => runOnce
  | Some messageId => send versions maximumEncodedBytes callerAgentId messageId
  end.

(** The process goes on as [k]. *)
Definition goes (i : nat) (k : Proc unit) (events : list Event) (p : Pool) : Pool :=
  mkPool (workerState p) (cards p) (holder p) (<[i := Some k]> (processes p)) (events ++ happened p)%list.

(** [None] when the process cannot go on. *)
Definition stepProcess (i : nat) (answers : forall c, Answer c) (p : Pool) : option Pool :=
  match processes p !! i with
  | Some (Some (Exits _)) =>
      Some (mkPool (workerState p) (cards p) (holder p) (<[i := None]> (processes p)) (happened p))
  | Some (Some (Calls c k)) => Some (goes i (k (answers c)) [Called c (answers c)] p)
  | Some (Some (Reads k)) => Some (goes i (k (workerState p)) [] p)
  | Some (Some (Writes s k)) =>
      Some (goes i k [Wrote s] (mkPool s (cards p) (holder p) (processes p) (happened p)))
  | Some (Some (ReadsCards k)) => Some (goes i (k (cards p)) [] p)
  | Some (Some (WritesCard agentId card k)) =>
      Some (goes i k [] (mkPool (workerState p) (jm_set (cards p) agentId card) (holder p)
        (processes p) (happened p)))
  | Some (Some (Acquires g k)) =>
      match holder p g with
      | None => Some (goes i k [] (mkPool (workerState p) (cards p) (hold g (Some i) (holder p))
                  (processes p) (happened p)))
      | Some _ => None
      end
  | Some (Some (Releases g k)) =>
      Some (goes i k [] (mkPool (workerState p) (cards p) (hold g None (holder p))
        (processes p) (happened p)))
  | _ => None
  end.

Definition move (p : Pool) (m : Move) : Pool :=
  match m with
  | Starts turn => mkPool (workerState p) (cards p) (holder p)
      (processes p ++ [Some (started turn)])%list (happened p)
  | Steps i answers => default p (stepProcess i answers p)
  | Interrupts i => mkPool (workerState p) (cards p) (dropped i (holder p))
      (<[i := None]> (processes p)) (happened p)
  end.

Definition atStart (cards : Cards) : Pool := mkPool initialState cards (fun _ => None) [] [].
Definition runMoves (moves : list Move) (cards : Cards) : Pool := foldl move (atStart cards) moves.

End pool.
End Worker.
