(* ===== verification/RouterWorkerLaws.v ===== *)
(** RouterWorkerLaws: what holds of the Router worker however its polls and its
    sends interleave, are answered and are interrupted.

    What happened obeys a law: each call and each change of the state is one
    that the law allows after what happened before.  Every process keeps the
    law, given what it may rely on while it holds a gate: the state does not
    change under the state gate, and no recovery starts, moves or ends under
    the recovery gate. *)
From S2P Require Import Prelude JsMap Identifiers Json SignedMessages OuterBody StoreDatabase.
From S2P Require Import StoreQueues RouterFeed RouterPoll EngineRuntime RecoveryState RouterWorker.

Module WorkerLaws.
Import CanonicalJson ClientJson OuterBody StoreDatabase EngineRuntime RecoveryState Worker.

(** ** What happened *)

Fixpoint lastState (log : list Event) : RouterWorkerState :=
  match log with
  | [] => initialState
  | Wrote s :: _ => s
  | Called _ _ :: past => lastState past
  end.

(** The phase of a state: the instance it is attached to, or its recovery.
    Noting when the Router was lost is no change of phase. *)
Definition calm (r : RouterWorkerRecoveringState) : RouterWorkerRecoveringState :=
  mkRecovering (rc_generation r) (rc_reason r) (rc_priorRouterInstanceId r)
    (rc_volatileFoldsAbandoned r) (rc_anchor r) None.
Inductive Phase := Attached (generation : nat) (instance : string)
  | Recovery (recovering : RouterWorkerRecoveringState).
Definition phase (s : RouterWorkerState) : Phase :=
  match s with
  | Active g anchor | Detached g anchor _ => Attached g (an_routerInstanceId anchor)
  | Recovering r => Recovery (calm r)
  end.

Definition recoveringAt (g : nat) (s : RouterWorkerState) : Prop :=
  exists r, s = Recovering r /\ rc_generation r = g.
(** It happened while the worker recovered its generation [g]. *)
Definition during (g : nat) (e : Event) (log : list Event) : Prop :=
  exists later past, log = (later ++ e :: past)%list /\ recoveringAt g (lastState past).
Definition polled (pollCursor : option string) (result : PollResult) (log : list Event) : Prop :=
  Called (PollRouter pollCursor) (inr result) ∈ log.

(** The engine took the message, or its body is no protocol value. *)
Definition handled (log : list Event) (instance : string) (m : SignedMessages.SignedMessage) : Prop :=
  Called (DecodePayload m) None ∈ log \/
  exists card payload, Called (AcceptPayload (mkIngress instance m card payload)) true ∈ log.

(** From a tail of the instance to the cursor, every message the Router
    returned was handled. *)
Inductive covered (log : list Event) (instance : string) : string -> Prop :=
  | covered_tail c : polled None (Poll.Batch instance [] c) log -> covered log instance c
  | covered_batch c c' messages : covered log instance c ->
      polled (Some c) (Poll.Batch instance messages c') log ->
      Forall (handled log instance) messages -> covered log instance c'.

(** ** The law *)

Inductive transition (past : list Event) : RouterWorkerState -> RouterWorkerState -> Prop :=
  | commits g anchor messages c :
      polled (Some (an_pollCursor anchor)) (Poll.Batch (an_routerInstanceId anchor) messages c) past ->
      Forall (handled past (an_routerInstanceId anchor)) messages ->
      transition past (Active g anchor) (Active g (mkAnchor (an_routerInstanceId anchor) c))
  | detaches g anchor t : transition past (Active g anchor) (Detached g anchor t)
  | reattaches g anchor t : transition past (Detached g anchor t) (Active g anchor)
  | loses s g instance reason : phase s = Attached g instance ->
      transition past s (Recovering (mkRecovering (S g) reason (Some instance) false None None))
  | notes r r' : calm r = calm r' -> transition past (Recovering r) (Recovering r')
  | stays s : transition past s s
  | anchors r tail reason : polled None (Poll.Batch (an_routerInstanceId tail) [] (an_pollCursor tail)) past ->
      (reason = rc_reason r \/ reason = router_restarted) ->
      (forall prior, rc_priorRouterInstanceId r = Some prior -> prior <> an_routerInstanceId tail ->
         reason = router_restarted) ->
      transition past (Recovering r) (Recovering (mkRecovering (rc_generation r) reason
        (Some (default (an_routerInstanceId tail) (rc_priorRouterInstanceId r)))
        (bool_decide (rc_reason r = reason) && rc_volatileFoldsAbandoned r) (Some tail) None))
  | prepares r : during (rc_generation r) (Called (AbandonVolatileFolds (rc_reason r)) tt) past ->
      transition past (Recovering r) (Recovering (mkRecovering (rc_generation r) (rc_reason r)
        (rc_priorRouterInstanceId r) true (rc_anchor r) (rc_unreachableSince r)))
  | finishes r anchor : rc_anchor r = Some anchor -> rc_volatileFoldsAbandoned r = true ->
      during (rc_generation r) (Called (RecoverHistory (rc_reason r) anchor) true) past ->
      transition past (Recovering r) (Active (rc_generation r) anchor).

Section laws.
Context `{Base64Url} `{HostJson} `{Jose} `{Sha256}.
Context (versions : option Wire.WireVersions) (maximumEncodedBytes : Z) (callerAgentId : string).
#[local] Abbreviation decodeStoredOutbound := (decodeStoredOutbound versions maximumEncodedBytes).

Definition callLaw (c : Call) (past : list Event) : Prop :=
  match c with
  | SendRouter request =>
      (exists g, phase (lastState past) = Attached g (expectedRouterInstanceId request)) /\
      exists messageId mode outbound,
        Called (BeginOutbound messageId) (Some (StoreQueues.PendingAttempt mode outbound)) ∈ past /\
        decodeStoredOutbound outbound = Some (sentMessage request) /\
        SignedMessages.senderAgentId (sentMessage request) = callerAgentId
  | CompleteOutbound outbound =>
      exists request digest,
        Called (SendRouter request) (inr (Feed.Accepted (expectedRouterInstanceId request) digest)) ∈ past /\
        digestCanonicalSignedMessage (om_canonicalSignedMessage outbound) = Some digest /\
        decodeStoredOutbound outbound = Some (sentMessage request)
  | AcceptPayload ingress =>
      (exists g anchor, lastState past = Active g anchor /\
         an_routerInstanceId anchor = routerInstanceId ingress) /\
      SignedMessages.verify (outer ingress) (senderAgentCard ingress) = Some (outer ingress) /\
      Called (DecodePayload (outer ingress)) (Some (payload ingress)) ∈ past /\
      exists c c' messages, polled (Some c) (Poll.Batch (routerInstanceId ingress) messages c') past /\
        outer ingress ∈ messages
  | AbandonVolatileFolds reason =>
      exists r, lastState past = Recovering r /\ rc_reason r = reason
  | PinSenderCard card =>
      exists agentId, Called (LookUp agentId) (Some card) ∈ past /\ AgentCards.agentId card = agentId
  | RecoverHistory reason anchor =>
      exists r, lastState past = Recovering r /\ rc_reason r = reason /\ rc_anchor r = Some anchor /\
        rc_volatileFoldsAbandoned r = true
  | _ => True
  end.

Definition lawOf (e : Event) (past : list Event) : Prop :=
  match e with
  | Called c _ => callLaw c past
  | Wrote s => transition past (lastState past) s
  end.
Fixpoint lawful (log : list Event) : Prop :=
  match log with
  | [] => True
  | e :: past => lawOf e past /\ lawful past
  end.

(** ** What lasts *)

Lemma polled_later cursor result log later :
  log `suffix_of` later -> polled cursor result log -> polled cursor result later.
Proof. intros [l ->] Hp. apply elem_of_app. by right. Qed.
Lemma during_later g e log later : log `suffix_of` later -> during g e log -> during g e later.
Proof. intros [l ->] (l1 & past & -> & Hr). exists (l ++ l1)%list, past. by rewrite app_assoc. Qed.
Lemma handled_later instance m log later :
  log `suffix_of` later -> handled log instance m -> handled later instance m.
Proof.
  intros [l ->] [Hd|(card & payload & Ha)]; [left|right; exists card, payload];
    apply elem_of_app; by right.
Qed.
Lemma covered_later instance c log later :
  log `suffix_of` later -> covered log instance c -> covered later instance c.
Proof.
  intros Hl. induction 1 as [c Hp|c c' ms _ IH Hp Hh]; [apply covered_tail; by eapply polled_later|].
  eapply covered_batch; [done|by eapply polled_later|]. eapply Forall_impl; [exact Hh|].
  intros m. by apply handled_later.
Qed.
Lemma elem_later (e : Event) log later : log `suffix_of` later -> e ∈ log -> e ∈ later.
Proof. intros [l ->] He. apply elem_of_app. by right. Qed.
Lemma lawful_suffix log later : log `suffix_of` later -> lawful later -> lawful log.
Proof. intros [l ->]. induction l as [|e l IH]; [done|]. simpl. naive_solver. Qed.

(** ** What the law gives *)

(** Whatever anchor a recovery has is a tail of the Router. *)
Lemma recovering_tail log r anchor : lawful log -> lastState log = Recovering r ->
  rc_anchor r = Some anchor ->
  polled None (Poll.Batch (an_routerInstanceId anchor) [] (an_pollCursor anchor)) log.
Proof.
  revert r. induction log as [|e log IH]; intros r Hl Hr Ha; [by injection Hr as <-|].
  destruct Hl as [He Hl]. assert (log `suffix_of` e :: log) as Hs by by eexists [_].
  destruct e as [c a|s]; simpl in Hr, He; [eapply polled_later; [exact Hs|]; by eapply IH|].
  subst s. remember (lastState log) as before eqn:Hb. symmetry in Hb.
  remember (Recovering r) as after eqn:Hafter.
  destruct He; simplify_eq/=; try (eapply polled_later; [exact Hs|]); try done; try by eapply IH.
  eapply IH; [done..|congruence].
Qed.

(** The cursor of an attached worker covers what it passed. *)
Lemma attached_covered log : lawful log ->
  match lastState log with
  | Active _ anchor | Detached _ anchor _ =>
      covered log (an_routerInstanceId anchor) (an_pollCursor anchor)
  | Recovering _ => True
  end.
Proof.
  induction log as [|e log IH]; intros Hl; [done|]. destruct Hl as [He Hl]. specialize (IH Hl).
  assert (log `suffix_of` e :: log) as Hs by by eexists [_].
  destruct e as [c a|s]; simpl in *.
  - case_match; try done; by eapply covered_later.
  - remember (lastState log) as before eqn:Hb. symmetry in Hb.
    destruct He; simpl in *; try done; try (by eapply covered_later).
    + eapply covered_later; [exact Hs|]. by eapply covered_batch.
    + case_match; try done; by eapply covered_later.
    + destruct anchor as [instance c]. apply covered_tail. eapply polled_later; [exact Hs|].
      by eapply (recovering_tail log r (mkAnchor instance c)).
Qed.

(** ** What a process relies on *)

(** Where the feed of a generation stands. *)
Definition placeOf (s : RouterWorkerState) : option RouterTailAnchor :=
  match s with Active _ anchor | Detached _ anchor _ => Some anchor | Recovering _ => None end.
(** A later generation, or the same place. *)
Definition kept (s s' : RouterWorkerState) : Prop :=
  (generationOf s < generationOf s')%nat \/
  generationOf s = generationOf s' /\ forall anchor, placeOf s = Some anchor -> placeOf s' = Some anchor.

(** The state seen under the state gate, the one whose phase is kept under the
    recovery gate, and the one whose place is kept under the poll gate. *)
Record Knows := mkKnows {
  kn_state : option RouterWorkerState;
  kn_phase : option Phase;
  kn_polls : option RouterWorkerState;
}.
Definition nothing : Knows := mkKnows None None None.
Definition knows (K : Knows) (log : list Event) : Prop :=
  (forall s, kn_state K = Some s -> lastState log = s) /\
  (forall ph, kn_phase K = Some ph -> phase (lastState log) = ph) /\
  (forall s, kn_polls K = Some s -> kept s (lastState log)).

Definition holdsGate (K : Knows) (g : Gate) : bool :=
  match g with
  | stateGate => bool_decide (is_Some (kn_state K))
  | recoveryGate => bool_decide (is_Some (kn_phase K))
  | pollGate => bool_decide (is_Some (kn_polls K))
  end.
(** The order of the gates: polls, recovery, state. *)
Definition free (K : Knows) (g : Gate) : Prop :=
  holdsGate K stateGate = false /\
  match g with
  | stateGate => True
  | recoveryGate => holdsGate K recoveryGate = false
  | pollGate => holdsGate K recoveryGate = false /\ holdsGate K pollGate = false
  end.
Definition acquired (g : Gate) (s : RouterWorkerState) (K : Knows) : Knows :=
  match g with
  | stateGate => mkKnows (Some s) (kn_phase K) (kn_polls K)
  | recoveryGate => mkKnows (kn_state K) (Some (phase s)) (kn_polls K)
  | pollGate => mkKnows (kn_state K) (kn_phase K) (Some s)
  end.
Definition released (g : Gate) (K : Knows) : Knows :=
  match g with
  | stateGate => mkKnows None (kn_phase K) (kn_polls K)
  | recoveryGate => mkKnows (kn_state K) None (kn_polls K)
  | pollGate => mkKnows (kn_state K) (kn_phase K) None
  end.
Definition noticed (s : RouterWorkerState) (K : Knows) : Knows :=
  mkKnows (kn_state K) (kn_phase K) (const s <$> kn_polls K).
Definition wrote (s : RouterWorkerState) (K : Knows) : Knows :=
  mkKnows (Some s) (const (phase s) <$> kn_phase K) (const s <$> kn_polls K).
(** The same gates. *)
Definition alike (K K' : Knows) : Prop := forall g, holdsGate K g = holdsGate K' g.

(** What a process can see next. *)
Definition sees (K : Knows) (log later : list Event) : Prop :=
  log `suffix_of` later /\ lawful later /\ knows K later.

(** Whatever the others do, the process keeps the law, changes the state only
    under the state gate and the phase only under the recovery gate, takes the
    gates in order, and ends with [Q]. *)
Fixpoint fits {A} (p : Proc A) (log : list Event) (K : Knows)
    (Q : Exit WorkerError A -> list Event -> Knows -> Prop) : Prop :=
  match p with
  | Exits exit => Q exit log K
  | Calls c k => forall later, sees K log later ->
      callLaw c later /\ forall a, fits (k a) (Called c a :: later) K Q
  | Reads k => forall later, sees K log later -> fits (k (lastState later)) later (noticed (lastState later) K) Q
  | Writes s k => holdsGate K stateGate = true /\ forall later, sees K log later ->
      transition later (lastState later) s /\
      (kn_phase K = None -> phase s = phase (lastState later)) /\
      (kn_polls K = None -> kept (lastState later) s) /\
      fits k (Wrote s :: later) (wrote s K) Q
  | ReadsCards k => forall cards, fits (k cards) log K Q
  | WritesCard _ _ k => fits k log K Q
  | Acquires g k => free K g /\ forall later, sees K log later ->
      fits k later (acquired g (lastState later) K) Q
  | Releases g k => holdsGate K g = true /\ fits k log (released g K) Q
  end.

Lemma fits_weaken {A} (p : Proc A) log K (Q Q' : Exit WorkerError A -> list Event -> Knows -> Prop) :
  (forall e log' K', log `suffix_of` log' -> Q e log' K' -> Q' e log' K') ->
  fits p log K Q -> fits p log K Q'.
Proof.
  revert log K. induction p as [e|c k IH|k IH|s k IH|k IH|a c k IH|g k IH|g k IH]; intros log K HQ;
    simpl; [by apply HQ| | | | | | |].
  - intros Hf later Hs. destruct (Hf later Hs) as [Hc Hk]. split; [done|]. intros a.
    apply IH; [|apply Hk]. intros e log' K' Hl. apply HQ. destruct Hs as [Hs _].
    etrans; [exact Hs|]. etrans; [|exact Hl]. by eexists [_].
  - intros Hf later Hs. apply IH; [|by apply Hf]. intros e log' K' Hl. apply HQ.
    destruct Hs as [Hs _]. by etrans.
  - intros [Hk Hf]. split; [done|]. intros later Hs. destruct (Hf later Hs) as (Ht & Hp & Hq & Hc).
    split_and!; [done..|]. apply IH; [|done]. intros e log' K' Hl. apply HQ. destruct Hs as [Hs _].
    etrans; [exact Hs|]. etrans; [|exact Hl]. by eexists [_].
  - intros Hf cards. by apply IH.
  - by apply IH.
  - intros [Hk Hf]. split; [done|]. intros later Hs. apply IH; [|by apply Hf].
    intros e log' K' Hl. apply HQ. destruct Hs as [Hs _]. by etrans.
  - intros [Hk Hf]. split; [done|]. by apply IH.
Qed.

Lemma fits_onExit {A B} (m : Proc A) (k : Exit WorkerError A -> Proc B) log K Q :
  fits m log K (fun e log' K' => log `suffix_of` log' -> fits (k e) log' K' Q) ->
  fits (onExit m k) log K Q.
Proof.
  revert log K. induction m as [e|c n IH|n IH|s n IH|n IH|a c n IH|g n IH|g n IH]; intros log K; simpl.
  - intros Hf. by apply Hf.
  - intros Hf later Hs. destruct (Hf later Hs) as [Hc Hk]. split; [done|]. intros a. apply IH.
    eapply fits_weaken; [|exact (Hk a)]. intros e log' K' _ Hw Hl. apply Hw.
    destruct Hs as [Hs _]. etrans; [exact Hs|]. etrans; [|exact Hl]. by eexists [_].
  - intros Hf later Hs. apply IH. eapply fits_weaken; [|exact (Hf later Hs)].
    intros e log' K' _ Hw Hl. apply Hw. destruct Hs as [Hs _]. by etrans.
  - intros [Hk Hf]. split; [done|]. intros later Hs. destruct (Hf later Hs) as (Ht & Hp & Hq & Hc).
    split_and!; [done..|]. apply IH. eapply fits_weaken; [|exact Hc]. intros e log' K' _ Hw Hl.
    apply Hw. destruct Hs as [Hs _]. etrans; [exact Hs|]. etrans; [|exact Hl]. by eexists [_].
  - intros Hf cards. by apply IH.
  - by apply IH.
  - intros [Hk Hf]. split; [done|]. intros later Hs. apply IH. eapply fits_weaken; [|exact (Hf later Hs)].
    intros e log' K' _ Hw Hl. apply Hw. destruct Hs as [Hs _]. by etrans.
  - intros [Hk Hf]. split; [done|]. by apply IH.
Qed.

Lemma fits_bind {A B} (m : Proc A) (f : A -> Proc B) log K Q :
  fits m log K (fun e log' K' => log `suffix_of` log' ->
    match e with Succeed a => fits (f a) log' K' Q | Fail_ e => Q (Fail_ e) log' K' end) ->
  fits (m ≫= f) log K Q.
Proof.
  intros Hm. apply fits_onExit. eapply fits_weaken; [|exact Hm].
  intros [a|e] log' K' _ Hf Hl; exact (Hf Hl).
Qed.
Lemma fits_call {B} (c : Call) (f : Answer c -> Proc B) log K Q :
  (forall later, sees K log later ->
    callLaw c later /\ forall a, fits (f a) (Called c a :: later) K Q) ->
  fits (call c ≫= f) log K Q.
Proof. done. Qed.
Lemma fits_read {B} (f : RouterWorkerState -> Proc B) log K Q :
  (forall later, sees K log later ->
    fits (f (lastState later)) later (noticed (lastState later) K) Q) ->
  fits (read ≫= f) log K Q.
Proof. done. Qed.

Lemma holds_acquired g s K g' : holdsGate (acquired g s K) g' = bool_decide (g' = g) || holdsGate K g'.
Proof. by destruct g, g'. Qed.
Lemma holds_released g K g' : holdsGate (released g K) g' = negb (bool_decide (g' = g)) && holdsGate K g'.
Proof. by destruct g, g'. Qed.
Lemma holds_wrote s K g : holdsGate K stateGate = true -> holdsGate (wrote s K) g = holdsGate K g.
Proof. destruct K as [[?|] [?|] [?|]], g; done. Qed.
Lemma holds_noticed s K g : holdsGate (noticed s K) g = holdsGate K g.
Proof. destruct K as [[?|] [?|] [?|]], g; done. Qed.
Lemma alike_nothing K : alike nothing K -> K = nothing.
Proof.
  intros Ha. pose proof (Ha stateGate). pose proof (Ha recoveryGate). pose proof (Ha pollGate).
  destruct K as [[?|] [?|] [?|]]; done.
Qed.

(** What was done under a gate, and then its release. *)
Lemma fits_permit {A} (m : Proc A) g log K Q : free K g ->
  (forall later, sees K log later -> fits m later (acquired g (lastState later) K)
    (fun e log' K' => log `suffix_of` log' -> holdsGate K' g = true /\ Q e log' (released g K'))) ->
  fits (withPermit g m) log K Q.
Proof.
  intros Hfree Hm. split; [done|]. intros later Hs. apply fits_onExit.
  eapply fits_weaken; [|exact (Hm later Hs)]. intros e log' K' _ HQ Hl. simpl. apply HQ.
  destruct Hs as [Hs _]. by etrans.
Qed.

Lemma free_unheld K g : free K g -> holdsGate K g = false.
Proof. destruct g; unfold free; tauto. Qed.
Lemma alike_free K K' g : alike K K' -> free K g -> free K' g.
Proof. unfold free. intros Ha. rewrite <- !Ha. by destruct g. Qed.
Lemma alike_trans K K' K'' : alike K K' -> alike K' K'' -> alike K K''.
Proof. intros Ha Hb g. by rewrite Ha. Qed.
Lemma alike_noticed s K : alike K (noticed s K).
Proof. intros g. by rewrite holds_noticed. Qed.
Lemma alike_wrote s K : holdsGate K stateGate = true -> alike K (wrote s K).
Proof. intros Hk g. by rewrite holds_wrote. Qed.
Lemma fits_gate {A} (m : Proc A) g log K Q : free K g ->
  (forall later, sees K log later -> fits m later (acquired g (lastState later) K)
    (fun e log' K' => log `suffix_of` log' -> alike (acquired g (lastState later) K) K' /\
       (alike K (released g K') -> Q e log' (released g K')))) ->
  fits (withPermit g m) log K Q.
Proof.
  intros Hfree Hm. apply fits_permit; [done|]. intros later Hs.
  eapply fits_weaken; [|exact (Hm later Hs)]. intros e log' K' _ HQ Hl. destruct (HQ Hl) as [Ha Hr].
  split; [rewrite <- (Ha g), holds_acquired; by rewrite bool_decide_eq_true_2|].
  apply Hr. intros g'. rewrite holds_released, <- (Ha g'), holds_acquired.
  case_bool_decide; [subst; by apply free_unheld|done].
Qed.

(** ** Polls *)

Lemma pollRetrying_fits cursor retries log K :
  fits (pollRetrying cursor retries) log K (fun e log' K' => K' = K /\
    forall result, e = Succeed result -> polled cursor result log').
Proof.
  revert log. induction retries as [|n IH]; intros log; (apply fits_call; intros later Hs; split; [done|]);
    intros [error|result]; simpl; try (split; [done|]; intros ? [= <-]; by left).
  case_match; [apply IH|done].
Qed.
Lemma pollRouterTail_fits log K :
  fits pollRouterTail log K (fun e log' K' => K' = K /\ forall anchor, e = Succeed anchor ->
    polled None (Poll.Batch (an_routerInstanceId anchor) [] (an_pollCursor anchor)) log').
Proof.
  apply fits_bind. eapply fits_weaken; [|apply pollRetrying_fits]. simpl.
  intros [result|e] log' K' _ [-> Hp] _; [|done].
  destruct result as [instance [|m ms] c| |]; simpl; try done.
  split; [done|]. intros anchor [= <-]. by apply Hp.
Qed.

Lemma kept_refl s : kept s s.
Proof. right. done. Qed.
Lemma kept_trans s s' s'' : kept s s' -> kept s' s'' -> kept s s''.
Proof. intros [|[? Hp]] [|[? Hp']]; [left; lia..|right; split; [congruence|naive_solver]]. Qed.

(** The state read under the state gate stays as it was read. *)
Lemma fits_state {B} (f : RouterWorkerState -> Proc B) log K Q : holdsGate K stateGate = false ->
  (forall later, sees K log later ->
    let s := lastState later in
    let K1 := mkKnows (Some s) (kn_phase K) (const s <$> kn_polls K) in
    fits (f s) later K1 (fun e log' K' => alike K1 K' /\
      (alike K (released stateGate K') -> Q e log' (released stateGate K')))) ->
  fits (withPermit stateGate (read ≫= f)) log K Q.
Proof.
  intros Hk Hf. apply fits_gate; [by split|]. intros later0 (Hl0 & Hw0 & Hk0). apply fits_read.
  intros later (Hl & Hw & Hst & Hph & Hpo).
  assert (lastState later = lastState later0) as He by by apply Hst.
  assert (sees K log later) as Hs.
  { split; [by etrans|]. split; [done|]. split; [|by split].
    intros s0 Hs0. simpl in Hk. by rewrite Hs0 in Hk. }
  specialize (Hf later Hs). unfold noticed, acquired. simpl. rewrite <- He. eapply fits_weaken; [|exact Hf].
  intros e log' K' _ [Ha HQ] _. split; [|done].
  eapply alike_trans; [|exact Ha]. intros g. by destruct g, K as [[?|] [?|] [?|]].
Qed.
Lemma fits_write {B} (k : Proc B) s s' log K Q : kn_state K = Some s ->
  (forall later, log `suffix_of` later -> lawful later -> transition later s s') ->
  (kn_phase K = None -> phase s' = phase s) ->
  (kn_polls K = None -> kept s s') ->
  (forall later, log `suffix_of` later -> fits k (Wrote s' :: later) (wrote s' K) Q) ->
  fits (Writes s' k) log K Q.
Proof.
  intros Hk Ht Hph Hpo Hf. split; [simpl; by rewrite Hk|].
  intros later (Hl & Hw & Hst & _). rewrite (Hst s Hk). auto.
Qed.
(** A write at the end, of the same phase and place. *)
Lemma fits_last {B} (a : Exit WorkerError B) s s' log K Q : kn_state K = Some s ->
  (forall later, log `suffix_of` later -> lawful later -> transition later s s') ->
  (kn_phase K = None -> phase s' = phase s) ->
  (kn_polls K = None -> kept s s') ->
  (forall log' K', alike K K' -> Q a log' K') ->
  fits (Writes s' (Exits a)) log K Q.
Proof.
  intros Hk Ht Hph Hpo HQ. eapply fits_write; [done..|]. intros later _. apply HQ, alike_wrote.
  simpl. by rewrite Hk.
Qed.

Lemma detach_fits generation log K : holdsGate K stateGate = false ->
  fits (detach generation) log K (fun _ _ K' => alike K K').
Proof.
  intros Hk. apply fits_call. intros later Hs. split; [done|]. intros detachedAt.
  apply fits_state; [done|]. intros later' Hs'. simpl.
  destruct (lastState later') as [g anchor|g anchor t|r] eqn:He; [|by split..].
  case_decide; [|by split]. eapply fits_last; [done|..]; simpl; try done.
  - intros later'' _ _. constructor.
  - intros _. by right.
Qed.
Lemma reattached_fits generation log K : holdsGate K stateGate = false ->
  fits (reattached generation) log K (fun _ _ K' => alike K K').
Proof.
  intros Hk. apply fits_bind. apply fits_state; [done|]. intros later Hs. simpl.
  assert (forall (e : Exit WorkerError bool) log' K', alike K K' -> match e with
    | Succeed active => fits (if active : bool then call Reattached else mret tt) log' K'
        (fun _ _ K'' => alike K K'')
    | Fail_ _ => alike K K' end) as Hend.
  { intros [[]|] log' K' Ha; [|done..]. intros later' Hs'. by split. }
  destruct (lastState later) as [g anchor|g anchor t|r] eqn:He; try (split; [done|]; intros; by apply (Hend (Succeed false))).
  case_decide; [|split; [done|]; intros; by apply (Hend (Succeed false))].
  eapply fits_last; [done|..]; simpl; try done.
  - intros later'' _ _. constructor.
  - intros _. by right.
Qed.
Lemma markUnreachable_notes s error now :
  (forall past, transition past s (markUnreachable s error now)) /\
  phase (markUnreachable s error now) = phase s /\ kept s (markUnreachable s error now).
Proof.
  destruct s as [g anchor|g anchor t|r]; simpl; [split; [constructor|split; [done|by right]]..|].
  case_match; (split; [by constructor|split; [done|by right]]).
Qed.
Lemma noteRunFailure_fits error log K : holdsGate K stateGate = false ->
  fits (noteRunFailure error) log K (fun _ _ K' => alike K K').
Proof.
  intros Hk. unfold noteRunFailure. case_match; [|done]. apply fits_call. intros later Hs.
  split; [done|]. intros now. apply fits_state; [done|]. intros later' Hs'.
  destruct (markUnreachable_notes (lastState later') error now) as (Ht & Hp & Hq).
  eapply fits_last; [done|auto..|]. simpl. intros log' K' Ha. by split.
Qed.

(** ** Recovery *)

Lemma phase_recovering s r : phase s = Recovery (calm r) ->
  exists r', s = Recovering r' /\ rc_generation r' = rc_generation r /\ rc_reason r' = rc_reason r /\
    rc_volatileFoldsAbandoned r' = rc_volatileFoldsAbandoned r /\ rc_anchor r' = rc_anchor r.
Proof. destruct s as [| |r']; try discriminate. intros [= ? ? ? ? ?]. by exists r'. Qed.
Lemma knows_phase K log ph : knows K log -> kn_phase K = Some ph -> phase (lastState log) = ph.
Proof. intros (_ & Hp & _). apply Hp. Qed.
Lemma kept_anchored r r' : rc_generation r' = rc_generation r -> kept (Recovering r) (Recovering r').
Proof. intros Hg. right. by split. Qed.

Lemma anchorRecovery_fits generation anchor log K :
  holdsGate K stateGate = false -> holdsGate K recoveryGate = true ->
  polled None (Poll.Batch (an_routerInstanceId anchor) [] (an_pollCursor anchor)) log ->
  fits (anchorRecovery generation anchor) log K (fun e _ K' => alike K K' /\ forall anchored tail,
    e = Succeed (anchored, tail) ->
    rc_anchor anchored = Some tail /\ kn_phase K' = Some (Recovery (calm anchored))).
Proof.
  intros Hk Hr Hp. apply fits_state; [done|]. intros later (Hl & _). simpl.
  destruct (lastState later) as [g ?|g ? t|r]; [by split..|]. case_decide; [by split|].
  destruct K as [st [ph|] po]; [|done].
  eapply fits_write; [done|..]; simpl; [|done|intros _; by apply kept_anchored|].
  - intros later' Hl' _. apply anchors.
    + eapply polled_later; [|exact Hp]. by etrans.
    + destruct (rc_priorRouterInstanceId r); [case_decide|]; auto.
    + intros prior ->. by case_decide.
  - intros later' Hl'. split; [intros g; by destruct g, st, po|].
    intros Ha. split; [done|]. by intros anchored tail [= <- <-].
Qed.

Lemma prepareRecovery_fits recovering anchor log K :
  holdsGate K stateGate = false -> rc_anchor recovering = Some anchor ->
  kn_phase K = Some (Recovery (calm recovering)) ->
  fits (prepareRecovery recovering anchor) log K (fun e _ K' => alike K K' /\ forall prepared tail,
    e = Succeed (prepared, tail) ->
    rc_anchor prepared = Some tail /\ rc_volatileFoldsAbandoned prepared = true /\
    kn_phase K' = Some (Recovery (calm prepared))).
Proof.
  intros Hk Ha Hph. unfold prepareRecovery. destruct (rc_volatileFoldsAbandoned recovering) eqn:Hv.
  { split; [done|]. by intros prepared tail [= <- <-]. }
  apply fits_call. intros later (Hl & Hlaw & Hkn).
  destruct (phase_recovering _ _ (knows_phase _ _ _ Hkn Hph)) as (r & Hr & Hg & Hreason & _).
  split; [by exists r|]. intros [].
  set (abandoned := Called (AbandonVolatileFolds (rc_reason recovering)) tt :: later).
  assert (during (rc_generation recovering) (Called (AbandonVolatileFolds (rc_reason recovering)) tt)
    abandoned) as Hd by (exists [], later; split; [done|]; by exists r).
  apply fits_state; [done|]. intros later' (Hl' & _ & Hkn'). simpl.
  destruct (phase_recovering _ _ (knows_phase _ _ _ Hkn' Hph)) as (r' & -> & Hg' & Hreason' & _ & Ha').
  rewrite Ha', Ha. case_decide; [by split|]. rewrite Hph.
  eapply fits_write; [done|..]; simpl; [|done|intros _; by apply kept_anchored|].
  - intros later'' Hl'' _. rewrite <- Ha, <- Ha'. apply prepares. rewrite Hg', Hreason'.
    eapply during_later; [|exact Hd]. by etrans.
  - intros later'' _. split; [intros g; by destruct K as [? [?|] [?|]], g|].
    intros Hs. split; [done|]. by intros prepared tail [= <- <-].
Qed.

Lemma finishRouterRecovery_fits recovering log K :
  holdsGate K stateGate = false -> holdsGate K recoveryGate = true ->
  fits (finishRouterRecovery recovering) log K (fun _ _ K' => alike K K').
Proof.
  intros Hk Hr. apply fits_bind. eapply fits_weaken; [|apply pollRouterTail_fits].
  intros [tail|e] log1 K1 _ [-> Hp] _; [|done]. specialize (Hp _ eq_refl).
  apply fits_bind. eapply fits_weaken; [|by apply anchorRecovery_fits].
  intros [[anchored anchor]|e] log2 K2 _ [Ha2 Hx] _; [|done].
  destruct (Hx _ _ eq_refl) as [Hanchor Hph]. clear Hx.
  apply fits_bind. eapply fits_weaken; [|apply (prepareRecovery_fits _ anchor); [by rewrite <- Ha2|done..]].
  intros [[prepared tail']|e] log3 K3 _ [Ha3 Hx] _; [|by eapply alike_trans].
  assert (alike K K3) as HaK by by eapply alike_trans.
  destruct (Hx _ _ eq_refl) as (Ht & Hv & Hph3). clear Hx.
  apply fits_call. intros later (Hl & Hlaw & Hkn).
  destruct (phase_recovering _ _ (knows_phase _ _ _ Hkn Hph3)) as (r & Hrs & Hg & Hreason & Hva & Hra).
  split; [exists r; split_and!; [done..|congruence|congruence]|]. intros [|]; [|done].
  set (recovered := Called (RecoverHistory (rc_reason prepared) tail') true :: later).
  assert (during (rc_generation prepared) (Called (RecoverHistory (rc_reason prepared) tail') true)
    recovered) as Hd by (exists [], later; split; [done|]; by exists r).
  apply fits_state; [by rewrite <- HaK|]. intros later' (Hl' & _ & Hkn'). simpl.
  destruct (phase_recovering _ _ (knows_phase _ _ _ Hkn' Hph3)) as (r' & -> & Hg' & Hreason' & Hva' & Hra').
  unfold matchesRecovery. rewrite Hra', Ht.
  destruct (_ && _); [|simpl; split; [done|]; intros; by eapply alike_trans].
  eapply fits_last; [reflexivity|..]; simpl; [|by rewrite Hph3|..].
  - intros later'' Hl'' _. rewrite <- Hg'. apply finishes; [congruence..|]. rewrite Hg', Hreason'.
    eapply during_later; [|exact Hd]. by etrans.
  - intros _. right. by split.
  - intros log' K' Ha. split; [done|]. intros Hs. by eapply alike_trans.
Qed.
Lemma enterRecovery_fits generation anchor reason log K :
  holdsGate K stateGate = false -> kn_phase K = Some (Attached generation (an_routerInstanceId anchor)) ->
  fits (enterRecovery generation anchor reason) log K (fun _ _ K' => alike K K').
Proof.
  intros Hk Hph. apply fits_bind. apply fits_gate; [by split|]. intros later (_ & _ & Hkn).
  pose proof (knows_phase _ _ _ Hkn Hph) as Hs.
  eapply fits_last; [done| | | |].
  - intros later' _ _. by apply loses.
  - simpl. by rewrite Hph.
  - intros _. left. destruct (lastState later); simplify_eq/=; lia.
  - intros log' K' Ha _. split; [done|]. intros HK _.
    eapply fits_weaken; [|apply finishRouterRecovery_fits].
    + intros e log'' K'' _ Ha''. by eapply alike_trans.
    + by rewrite <- HK.
    + rewrite <- HK. simpl. by rewrite Hph.
Qed.
Lemma triggerDiscontinuity_fits reason generation log K :
  holdsGate K stateGate = false -> holdsGate K recoveryGate = false ->
  fits (triggerDiscontinuity reason generation) log K (fun _ _ K' => alike K K').
Proof.
  intros Hk Hr. apply fits_gate; [by split|]. intros later _. apply fits_read.
  intros later' (Hl & Hlaw & Hkn).
  assert (phase (lastState later') = phase (lastState later)) as Hph
    by (eapply knows_phase; [exact Hkn|done]).
  set (K1 := noticed _ _).
  assert (alike (acquired recoveryGate (lastState later) K) K1) as Ha by apply alike_noticed.
  assert (kn_phase K1 = Some (phase (lastState later'))) as HK1 by (by rewrite Hph).
  assert (holdsGate K1 stateGate = false) as Hst by (by rewrite <- Ha).
  assert (forall g anchor, phase (lastState later') = Attached g (an_routerInstanceId anchor) ->
    fits (if decide (g <> generation) then mret tt else enterRecovery g anchor reason) later' K1
      (fun _ log' K' => log `suffix_of` log' -> alike (acquired recoveryGate (lastState later) K) K' /\
         (alike K (released recoveryGate K') -> alike K (released recoveryGate K')))) as Henter.
  { intros g anchor Hg. case_decide; [by split|]. eapply fits_weaken; [|apply enterRecovery_fits].
    - intros e log' K' _ Ha' _. split; [by eapply alike_trans|done].
    - done.
    - by rewrite HK1, Hg. }
  destruct (lastState later') as [g anchor|g anchor t|r]; [by apply Henter..|].
  eapply fits_weaken; [|apply finishRouterRecovery_fits].
  - intros e log' K' _ Ha' _. split; [by eapply alike_trans|done].
  - done.
  - by rewrite <- Ha, holds_acquired.
Qed.

(** ** Batches and polls *)

Lemma resolveSenderCard_fits agentId log K :
  fits (resolveSenderCard agentId) log K (fun _ _ K' => K' = K).
Proof.
  intros known. simpl. destruct (jm_get known agentId); [done|].
  apply fits_call. intros later Hs. split; [done|].
  intros [card|]; [|done]. case_decide as Hid; [done|]. apply fits_call. intros later' [Hl _]. split.
  - exists agentId. split; [eapply elem_later; [exact Hl|]; by left|done].
  - by intros [|].
Qed.
Lemma verifyBatch_fits messages log K :
  fits (verifyBatch messages) log K (fun e _ K' => K' = K /\ forall verified, e = Succeed verified ->
    verified.*1 = messages /\ Forall (fun x => SignedMessages.verify x.1 x.2 = Some x.1) verified).
Proof.
  revert log. induction messages as [|m ms IH]; intros log; [split; [done|]; by intros ? [= <-]|].
  apply fits_bind. apply fits_bind. eapply fits_weaken; [|apply resolveSenderCard_fits].
  intros [card|] log' K' _ -> _; [|done]. destruct (SignedMessages.verify m card) as [m'|] eqn:Hm; [|done].
  assert (m' = m) as -> by (unfold SignedMessages.verify in Hm; by simplify_option_eq).
  intros _. apply fits_bind. eapply fits_weaken; [|apply IH].
  intros [others|] log'' K'' _ [-> Ho] _; [|done]. destruct (Ho _ eq_refl) as [<- Hf].
  split; [done|]. intros verified [= <-]. by split; [|constructor].
Qed.
Lemma acceptAll_fits g anchor verified messages c c' log K :
  kn_state K = Some (Active g anchor) ->
  polled (Some c) (Poll.Batch (an_routerInstanceId anchor) messages c') log ->
  Forall (fun x => SignedMessages.verify x.1 x.2 = Some x.1 /\ x.1 ∈ messages) verified ->
  fits (acceptAll verified (an_routerInstanceId anchor)) log K (fun e log' K' => K' = K /\
    (e = Succeed tt -> Forall (handled log' (an_routerInstanceId anchor)) verified.*1)).
Proof.
  intros Hst Hp Hv. revert log Hp. induction Hv as [|[m card] verified [Hm Hin] Hv IH]; intros log Hp.
  { split; [done|]. constructor. }
  apply fits_bind. apply fits_call. intros later (Hl & _). split; [done|].
  assert (forall log', later `suffix_of` log' -> handled log' (an_routerInstanceId anchor) m ->
    fits (acceptAll verified (an_routerInstanceId anchor)) log' K (fun e log' K' => K' = K /\
      (e = Succeed tt -> Forall (handled log' (an_routerInstanceId anchor)) (m :: verified.*1)))) as Hrest.
  { intros log' Hl' Hh. eapply fits_weaken; [|apply IH].
    - intros e log'' K' Hl'' [-> Hf]. split; [done|]. intros He. constructor; [|by apply Hf].
      by eapply handled_later.
    - eapply polled_later; [|exact Hp]. by etrans. }
  intros [payload|]; simpl.
  - intros later' (Hl' & _ & Hkn & _). split.
    + split; [exists g, anchor; split; [by apply Hkn|done]|]. split; [done|].
      split; [eapply elem_later; [exact Hl'|]; by left|]. exists c, c', messages. split; [|done].
      eapply polled_later; [|exact Hp]. etrans; [exact Hl|]. etrans; [|exact Hl']. by eexists [_].
    + intros [|]; simpl; [|done]. intros _. apply Hrest.
      * etrans; [|by eexists [_]]. etrans; [|exact Hl']. by eexists [_].
      * right. exists card, payload. by left.
  - intros _. apply Hrest; [by eexists [_]|]. left. by left.
Qed.

Lemma commitBatch_fits g anchor c messages verified log K :
  holdsGate K stateGate = false -> kn_polls K = Some (Active g anchor) ->
  polled (Some (an_pollCursor anchor)) (Poll.Batch (an_routerInstanceId anchor) messages c) log ->
  verified.*1 = messages -> Forall (fun x => SignedMessages.verify x.1 x.2 = Some x.1) verified ->
  fits (commitBatch g (an_routerInstanceId anchor) c verified) log K (fun _ _ K' => alike K K').
Proof.
  intros Hk Hpl Hp Hms Hv. apply fits_state; [done|]. intros later (Hl & _ & _ & _ & Hkept).
  specialize (Hkept _ Hpl). simpl. destruct (lastState later) as [g' anchor'|g' ? t|r]; [|by split..].
  case_bool_decide as Hg; [|by split]. case_bool_decide as Hi; [|by split]. subst g'. simpl.
  assert (anchor' = anchor) as -> by (destruct Hkept as [Hlt|[_ Ha]]; [simpl in Hlt; lia|];
    by injection (Ha _ eq_refl)).
  set (K1 := mkKnows _ _ _). apply fits_bind.
  eapply fits_weaken; [|apply (acceptAll_fits g anchor verified messages (an_pollCursor anchor) c)];
    [|done|by eapply polled_later|].
  - intros [[]|e] log' K' _ [-> Hh] Hl'; [|by split]. specialize (Hh eq_refl).
    eapply fits_last; [done|..].
    + intros later' Hl'' _. eapply commits.
      * eapply polled_later; [|exact Hp]. etrans; [exact Hl|]. by etrans.
      * rewrite <- Hms. eapply Forall_impl; [exact Hh|]. intros m. by apply handled_later.
    + done.
    + unfold K1. simpl. by rewrite Hpl.
    + intros log'' K' Ha. by split.
  - apply Forall_forall. intros x Hx. split; [by eapply Forall_forall in Hv|].
    rewrite <- Hms. apply list_elem_of_fmap. by exists x.
Qed.

Lemma pollActiveOnce_fits g anchor log K :
  holdsGate K stateGate = false -> holdsGate K recoveryGate = false ->
  kn_polls K = Some (Active g anchor) ->
  fits (pollActiveOnce g anchor) log K (fun _ _ K' => alike K K').
Proof.
  intros Hk Hr Hpl. apply fits_bind. apply fits_onExit. eapply fits_weaken; [|apply pollRetrying_fits].
  intros [result|e] log' K' _ [-> Hp] _; simpl.
  - intros _. specialize (Hp _ eq_refl). destruct result as [instance messages c| |].
    + case_decide as Hi; [by apply triggerDiscontinuity_fits|].
      assert (instance = an_routerInstanceId anchor) as -> by done.
      apply fits_bind. eapply fits_weaken; [|apply verifyBatch_fits].
      intros [verified|e] log'' K' Hl [-> Hv] _; [|done]. destruct (Hv _ eq_refl) as [Hms Hf].
      eapply commitBatch_fits; try done. by eapply polled_later.
    + by apply triggerDiscontinuity_fits.
    + by apply triggerDiscontinuity_fits.
  - destruct e; try done. apply fits_bind. eapply fits_weaken; [|by apply detach_fits].
    intros [[]|e] log'' K' _ Ha _ _; done.
Qed.
Lemma probeDetached_fits g anchor log K :
  holdsGate K stateGate = false -> holdsGate K recoveryGate = false ->
  fits (probeDetached g anchor) log K (fun _ _ K' => alike K K').
Proof.
  intros Hk Hr. apply fits_bind. eapply fits_weaken; [|apply pollRouterTail_fits].
  intros [tail|e] log' K' _ [-> _] _; [|done]. case_decide; [by apply reattached_fits|].
  by apply triggerDiscontinuity_fits.
Qed.

Lemma pollOnce_fits log : fits pollOnce log nothing (fun _ _ K' => K' = nothing).
Proof.
  eapply fits_weaken with (Q := fun _ _ K' => alike nothing K').
  { intros e log' K' _ Ha. by apply alike_nothing. }
  apply fits_gate; [done|]. intros later _. apply fits_read. intros later' (Hl & Hlaw & Hkn).
  assert (forall (p : Proc unit), fits p later' (mkKnows None None (Some (lastState later')))
      (fun _ _ K' => alike (mkKnows None None (Some (lastState later'))) K') ->
    fits p later' (noticed (lastState later') (acquired pollGate (lastState later) nothing))
      (fun e log' K' => log `suffix_of` log' -> alike (acquired pollGate (lastState later) nothing) K' /\
        (alike nothing (released pollGate K') -> alike nothing (released pollGate K')))) as Hp.
  { intros p Hf. eapply fits_weaken; [|exact Hf]. intros e log' K' _ Ha _. split; [|done].
    intros gate. rewrite <- Ha. by destruct gate. }
  apply Hp. clear Hp. destruct (lastState later') as [g anchor|g anchor t|r].
  - by apply pollActiveOnce_fits.
  - by apply probeDetached_fits.
  - apply fits_gate; [done|]. intros seen Hs. eapply fits_weaken; [|by apply finishRouterRecovery_fits].
    intros e log' K' _ Ha _. by split.
Qed.
Lemma runOnce_fits log : fits runOnce log nothing (fun _ _ K' => K' = nothing).
Proof.
  apply fits_onExit. eapply fits_weaken; [|apply pollOnce_fits].
  intros [a|e] log' K' _ -> _; [done|]. apply fits_bind.
  eapply fits_weaken; [|by apply noteRunFailure_fits].
  intros [[]|e'] log'' K' _ Ha%alike_nothing _; done.
Qed.

(** ** Sends *)

(** The envelope was taken from the outbox and is the endpoint's own. *)
Definition taken (outbound : OutboundMessageInput) (message : SignedMessages.SignedMessage)
    (log : list Event) : Prop :=
  (exists messageId mode,
    Called (BeginOutbound messageId) (Some (StoreQueues.PendingAttempt mode outbound)) ∈ log) /\
  decodeStoredOutbound outbound = Some message /\
  SignedMessages.senderAgentId message = callerAgentId.
Lemma taken_later outbound message log later :
  log `suffix_of` later -> taken outbound message log -> taken outbound message later.
Proof.
  intros Hl [(messageId & mode & Hb) Hr]. split; [|done]. exists messageId, mode. by eapply elem_later.
Qed.

Section transmissions.
Context (outbound : OutboundMessageInput) (message : SignedMessages.SignedMessage).
Context (g : nat) (instance : string) (K : Knows).
Hypothesis HK : kn_phase K = Some (Attached g instance).
#[local] Abbreviation sends p log := (fits p log K (fun _ _ K' => K' = K)).

Lemma completeAcceptedOutbound_fits request routerInstanceId digest log :
  taken outbound message log -> expectedRouterInstanceId request = instance ->
  sentMessage request = message ->
  Called (SendRouter request) (inr (Feed.Accepted routerInstanceId digest)) ∈ log ->
  sends (completeAcceptedOutbound outbound instance routerInstanceId digest) log.
Proof.
  intros Ht <- <- Hs. unfold completeAcceptedOutbound. case_decide as Hi; [done|].
  destruct (digestCanonicalSignedMessage _) as [expected|] eqn:Hd; [|done].
  case_decide as He; [done|]. apply fits_call. intros later (Hl & _). split; [|by intros [|]].
  exists request, digest. assert (routerInstanceId = expectedRouterInstanceId request) as Hr by done.
  assert (digest = expected) as -> by done. rewrite <- Hr.
  split; [by eapply elem_later|]. split; [done|]. by destruct Ht as (_ & Hdec & _).
Qed.
Lemma transmitOnce_fits mode attempts again initially conflicting log :
  taken outbound message log ->
  (forall log', log `suffix_of` log' ->
     sends again log' /\ sends initially log' /\ sends conflicting log') ->
  sends (transmitOnce outbound message instance mode attempts again initially conflicting) log.
Proof.
  intros Ht Hp. apply fits_call. intros later (Hl & _ & Hkn). split.
  - split; [exists g; by apply (knows_phase _ _ _ Hkn)|].
    apply (taken_later _ _ _ _ Hl) in Ht as [(messageId & stored & Hb) Hr].
    by exists messageId, stored, outbound.
  - intros answer. set (log' := Called _ answer :: later).
    assert (log `suffix_of` log') as Hl' by (etrans; [exact Hl|]; by eexists [_]).
    destruct (Hp _ Hl') as (Hagain & Hinitially & Hconflicting).
    destruct answer as [error|[]]; simpl; try done.
    + by case_match.
    + apply (completeAcceptedOutbound_fits (mkSendRequest instance mode message)); [|done|done|by left].
      by eapply taken_later.
    + unfold resendInMode. destruct mode; simpl; [|done]. by case_decide.
    + unfold resendInMode. destruct mode; simpl; [done|]. by case_decide.
Qed.
Lemma transmitOuter_fits attempts mode log : taken outbound message log ->
  sends (transmitOuter outbound message instance attempts mode) log.
Proof.
  revert mode log. induction attempts as [|n IH]; intros mode log Ht.
  - assert (forall log', log `suffix_of` log' -> sends (transmitOnce outbound message instance Feed.Retry 0
      (failing RouterWorkerTransportError) (failing RouterWorkerTransportError)
      (failing RouterWorkerProtocolError)) log') as Hretry.
    { intros log' Hl. by apply transmitOnce_fits; [eapply taken_later|]. }
    destruct mode; [|by apply Hretry]. apply transmitOnce_fits; [done|]. intros log' Hl.
    split; [done|]. split; [done|]. by apply Hretry.
  - assert (forall mode log', log `suffix_of` log' ->
      sends (transmitOuter outbound message instance n mode) log') as Hfewer.
    { intros mode' log' Hl. by apply IH; eapply taken_later. }
    assert (forall log', log `suffix_of` log' -> sends (transmitOnce outbound message instance Feed.Retry (S n)
      (transmitOuter outbound message instance n Feed.Retry)
      (transmitOuter outbound message instance n Feed.Initial)
      (failing RouterWorkerProtocolError)) log') as Hretry.
    { intros log' Hl. apply transmitOnce_fits; [by eapply taken_later|]. intros log'' Hl'.
      split; [|split; [|done]]; apply Hfewer; by etrans. }
    destruct mode; [|by apply Hretry]. apply transmitOnce_fits; [done|]. intros log' Hl.
    split; [by apply Hfewer|]. split; [done|by apply Hretry].
Qed.
End transmissions.

Lemma transmitOutbound_fits messageId g instance log K : kn_phase K = Some (Attached g instance) ->
  fits (transmitOutbound versions maximumEncodedBytes callerAgentId messageId instance) log K
    (fun _ _ K' => K' = K).
Proof.
  intros HK. apply fits_call. intros later _. split; [done|].
  intros [[|mode outbound]|]; try done. cbv beta iota.
  destruct (Worker.decodeStoredOutbound _ _ outbound) as [message|] eqn:Hd; [|done].
  case_decide as Hs; [done|]. eapply transmitOuter_fits; [done|]. split; [|done].
  exists messageId, mode. by left.
Qed.
Lemma send_fits messageId log :
  fits (send versions maximumEncodedBytes callerAgentId messageId) log nothing (fun _ _ K' => K' = nothing).
Proof.
  apply fits_bind. apply fits_gate; [done|]. intros later Hs. apply fits_read.
  intros later' (_ & _ & Hkn). set (K1 := noticed _ _).
  assert (phase (lastState later') = phase (lastState later)) as Hph
    by (eapply knows_phase; [exact Hkn|done]).
  destruct (lastState later') as [g anchor|g ? t|r]; try (by split).
  apply fits_bind. eapply fits_weaken; [|apply (transmitOutbound_fits _ g)]; [|simpl; by rewrite <- Hph].
  intros [outcome|e] log' K' _ -> _; (intros _; split; [done|]); intros _ _; [|done].
  destruct outcome; [done|]. apply fits_bind.
  eapply fits_weaken; [|by apply triggerDiscontinuity_fits].
  intros [[]|e] log'' K'' _ Ha%alike_nothing _; done.
Qed.
Lemma started_fits turn log :
  fits (started versions maximumEncodedBytes callerAgentId turn) log nothing (fun _ _ K' => K' = nothing).
Proof. destruct turn; [apply send_fits|apply runOnce_fits]. Qed.

End laws.
End WorkerLaws.
