(* ===== verification/RouterWorkerRuns.v ===== *)
(** RouterWorkerRuns: every run of the Router worker obeys the law of
    RouterWorkerLaws.  However polls and sends interleave, are answered and are
    interrupted, each change of the state and each call is one the law allows;
    no message is passed over; no schedule blocks or goes on for ever. *)
From Stdlib Require Import Wellfounded Ascii.
From S2P Require Import Prelude JsMap Identifiers Json SignedMessages OuterBody StoreDatabase.
From S2P Require Import StoreQueues RouterFeed RouterPoll EngineRuntime RecoveryState RouterWorker.
From S2P Require Import Hosts RouterWorkerLaws.

Local Open Scope string_scope.

Module WorkerRuns.
Import StoreDatabase EngineRuntime RecoveryState Worker WorkerLaws.

Section runs.
Context `{Base64Url} `{HostJson} `{Jose} `{Sha256}.
Context (versions : option Wire.WireVersions) (maximumEncodedBytes : Z) (callerAgentId : string).
#[local] Abbreviation decodeStoredOutbound := (decodeStoredOutbound versions maximumEncodedBytes).
#[local] Abbreviation fits := (fits versions maximumEncodedBytes callerAgentId).
#[local] Abbreviation lawful := (lawful versions maximumEncodedBytes callerAgentId).
#[local] Abbreviation sees := (sees versions maximumEncodedBytes callerAgentId).
#[local] Abbreviation callLaw := (callLaw versions maximumEncodedBytes callerAgentId).
#[local] Abbreviation move := (move versions maximumEncodedBytes callerAgentId).
#[local] Abbreviation runMoves := (runMoves versions maximumEncodedBytes callerAgentId).

(** ** The invariant *)

(** A process keeps the law and lets all its gates go. *)
Definition keeps (p : Proc unit) (log : list Event) (K : Knows) : Prop :=
  fits p log K (fun _ _ K' => K' = nothing).
Lemma keeps_later p log later K : sees K log later -> keeps p log K -> keeps p later K.
Proof.
  intros Hs. unfold keeps. revert log later K Hs.
  assert (forall K log later later', sees K log later -> sees K later later' -> sees K log later') as Htr.
  { intros K log later later' (Hl & _) (Hl' & Hr). split; [by etrans|done]. }
  induction p as [e|c k IH|k IH|s k IH|k IH|a c k IH|g k IH|g k IH]; intros log later K Hs; simpl.
  - done.
  - eauto.
  - eauto.
  - intros [Hk Hf]. split; [done|]. intros later' Hs'. by eapply Hf, Htr.
  - eauto.
  - eauto.
  - intros [Hk Hf]. split; [done|]. intros later' Hs'. by eapply Hf, Htr.
  - intros [Hk Hf]. split; [done|]. eapply IH; [|done]. destruct Hs as (Hl & Hlaw & Hst & Hph & Hpo).
    split; [done|]. split; [done|]. by destruct g; (split; [|split]).
Qed.

Record ok (p : Pool) : Prop := mkOk {
  ok_lawful : lawful (happened p);
  ok_state : lastState (happened p) = workerState p;
  ok_live g i : holder p g = Some i -> exists proc, processes p !! i = Some (Some proc);
  ok_process i proc : processes p !! i = Some (Some proc) -> exists K,
    knows K (happened p) /\ keeps proc (happened p) K /\
    forall g, holder p g = Some i <-> holdsGate K g = true;
}.

(** A process that holds no gate changes nothing another relies on. *)
Lemma knows_called K c a log : knows K log -> knows K (Called c a :: log).
Proof. done. Qed.
Lemma sees_step K log events : lawful (events ++ log) -> knows K (events ++ log) ->
  sees K log (events ++ log)%list.
Proof. intros Hl Hk. split; [by eexists|done]. Qed.

(** The process [i] of [p] goes on as [k], which knows [K']. *)
Lemma ok_goes p i proc k K' (p' : Pool) events :
  ok p -> processes p !! i = Some (Some proc) ->
  processes p' = <[i := k]> (processes p) ->
  happened p' = (events ++ happened p)%list ->
  lawful (happened p') -> lastState (happened p') = workerState p' ->
  (forall j K, j <> i -> knows K (happened p) ->
    (forall g, holdsGate K g = true -> holder p g = Some j) -> knows K (happened p')) ->
  (forall g j, j <> i -> holder p' g = Some j <-> holder p g = Some j) ->
  (forall g, holder p' g = Some i <-> holdsGate K' g = true) ->
  match k with
  | Some next => knows K' (happened p') /\ keeps next (happened p') K'
  | None => K' = nothing
  end ->
  ok p'.
Proof.
  intros [Hlaw Hstate Hlive Hproc] Hi Hps Hev Hlaw' Hstate' Hothers Hholder Hholds Hk. split; [done..| |].
  - intros g j Hg. rewrite Hps. destruct (decide (j = i)) as [->|Hne].
    + destruct k as [next|].
      * exists next. apply list_lookup_insert_eq. by eapply lookup_lt_Some.
      * subst K'. apply Hholds in Hg. by destruct g.
    + rewrite list_lookup_insert_ne by done. by apply (Hlive g), Hholder.
  - intros j next. rewrite Hps. destruct (decide (j = i)) as [->|Hne].
    + rewrite list_lookup_insert_eq by (by eapply lookup_lt_Some). intros [= ->]. exists K'. by destruct Hk.
    + rewrite list_lookup_insert_ne by done. intros (K & Hkn & Hkeep & Hh)%Hproc. exists K.
      assert (knows K (happened p')) as Hkn' by (eapply (Hothers j); [done..|]; intros g; by apply Hh).
      split; [done|]. split; [|intros g; by rewrite Hholder].
      eapply keeps_later; [|exact Hkeep]. rewrite Hev in *. by apply sees_step.
Qed.

Lemma ok_start cards : ok (atStart cards).
Proof. by split. Qed.

Lemma knows_now p i proc : ok p -> processes p !! i = Some (Some proc) -> exists K,
  sees K (happened p) (happened p) /\ knows K (happened p) /\ keeps proc (happened p) K /\
  forall g, holder p g = Some i <-> holdsGate K g = true.
Proof.
  intros [Hlaw Hstate Hlive Hproc] (K & Hkn & Hkeep & Hh)%Hproc. exists K.
  split; [by apply (sees_step K (happened p) [])|done].
Qed.

(** What others know outlasts a write of one that holds the state gate. *)
Lemma knows_write K K' log s : knows K' log -> holdsGate K stateGate = true ->
  (forall g, holdsGate K g = true -> holdsGate K' g = false) ->
  (kn_phase K = None -> phase s = phase (lastState log)) ->
  (kn_polls K = None -> kept (lastState log) s) ->
  knows K' (Wrote s :: log).
Proof.
  intros (Hst & Hph & Hpo) Hs Hdis Hp Hq.
  assert (forall g, holdsGate K' g = true -> holdsGate K g = false) as Hfree.
  { intros g Hg. destruct (holdsGate K g) eqn:Hh; [|done]. apply Hdis in Hh. congruence. }
  split; [|split]; simpl.
  - intros s' Hk. specialize (Hdis stateGate Hs). simpl in Hdis. by rewrite Hk in Hdis.
  - intros ph Hk. rewrite Hp; [by apply Hph|].
    pose proof (Hfree recoveryGate) as Hf. simpl in Hf. rewrite Hk in Hf.
    destruct (kn_phase K); [|done]. by discriminate (Hf eq_refl).
  - intros s' Hk. eapply kept_trans; [by apply Hpo|]. apply Hq.
    pose proof (Hfree pollGate) as Hf. simpl in Hf. rewrite Hk in Hf.
    destruct (kn_polls K); [|done]. by discriminate (Hf eq_refl).
Qed.

Lemma knows_noticed K log : knows K log -> knows (noticed (lastState log) K) log.
Proof.
  intros (Hst & Hph & Hpo). split; [done|]. split; [done|]. simpl. intros s.
  destruct (kn_polls K); [|done]. intros [= <-]. apply kept_refl.
Qed.
Lemma knows_wrote K s log : knows K log -> knows (wrote s K) (Wrote s :: log).
Proof.
  intros _. split; [|split]; simpl.
  - by intros s' [= <-].
  - intros ph. destruct (kn_phase K); [|done]. by intros [= <-].
  - intros s'. destruct (kn_polls K); [|done]. intros [= <-]. apply kept_refl.
Qed.
Lemma knows_acquired g K log : knows K log -> knows (acquired g (lastState log) K) log.
Proof.
  intros (Hst & Hph & Hpo).
  destruct g; (split; [|split]); simpl; try done; by intros ? [= <-]; try apply kept_refl.
Qed.
Lemma knows_released g K log : knows K log -> knows (released g K) log.
Proof. intros (Hst & Hph & Hpo). by destruct g; (split; [|split]). Qed.

Lemma ok_step i answers p p' : ok p -> stepProcess i answers p = Some p' -> ok p'.
Proof.
  intros Hok. unfold stepProcess. destruct (processes p !! i) as [[proc|]|] eqn:Hi; [|done..].
  destruct (knows_now p i proc Hok Hi) as (K & Hsees & Hkn & Hkeep & Hh).
  pose proof (ok_state p Hok) as Hstate. pose proof (ok_lawful p Hok) as Hlaw.
  destruct proc as [e|c k|k|s k|k|a c k|g k|g k]; simpl in Hkeep.
  - intros [= <-]. by eapply (ok_goes p i _ None nothing _ []); try done; simpl; rewrite <- ?Hkeep.
  - intros [= <-]. destruct (Hkeep _ Hsees) as [Hc Hk].
    eapply (ok_goes p i _ (Some (k (answers c))) K _ [_]); try done; simpl.
    split; [done|apply Hk].
  - intros [= <-]. rewrite <- Hstate.
    eapply (ok_goes p i _ (Some (k _)) (noticed (lastState (happened p)) K) _ []); try done; simpl.
    + intros g. by rewrite holds_noticed.
    + split; [by apply knows_noticed|by apply Hkeep].
  - intros [= <-]. destruct Hkeep as [Hgate Hk]. destruct (Hk _ Hsees) as (Ht & Hp & Hq & Hnext).
    eapply (ok_goes p i _ (Some k) (wrote s K) _ [_]); try done; simpl.
    + intros j K' Hne Hkn' Hj. eapply knows_write; [done|exact Hgate| |done..].
      intros g Hg%Hh. destruct (holdsGate K' g) eqn:Hg'; [|done]. apply Hj in Hg'. congruence.
    + intros g. by rewrite holds_wrote.
    + split; [by eapply knows_wrote|done].
  - intros [= <-]. eapply (ok_goes p i _ (Some (k _)) K _ []); try done; simpl. split; [done|apply Hkeep].
  - intros [= <-]. by eapply (ok_goes p i _ (Some k) K _ []).
  - destruct (holder p g) eqn:Hg; [done|]. intros [= <-]. destruct Hkeep as [Hfree Hk].
    eapply (ok_goes p i _ (Some k) (acquired g (lastState (happened p)) K) _ []); try done; simpl.
    + intros g' j Hne. unfold hold. case_decide; [|done]. subst. rewrite Hg. naive_solver.
    + intros g'. rewrite holds_acquired. unfold hold. case_decide as Hd.
      * rewrite bool_decide_true by done. naive_solver.
      * rewrite bool_decide_false by done. apply Hh.
    + split; [by apply knows_acquired|by apply Hk].
  - intros [= <-]. destruct Hkeep as [Hgate Hk].
    eapply (ok_goes p i _ (Some k) (released g K) _ []); try done; simpl.
    + intros g' j Hne. unfold hold. case_decide; [|done]. subst. apply Hh in Hgate. naive_solver.
    + intros g'. rewrite holds_released. unfold hold. case_decide as Hd.
      * rewrite bool_decide_true by done. naive_solver.
      * rewrite bool_decide_false by done. apply Hh.
    + split; [by apply knows_released|done].
Qed.

(** Nothing of a process that is not there is taken away. *)
Lemma ok_interrupted_none p i : ok p -> (forall proc, processes p !! i <> Some (Some proc)) ->
  ok (mkPool (workerState p) (cards p) (dropped i (holder p)) (<[i := None]> (processes p)) (happened p)).
Proof.
  intros [Hlaw Hstate Hlive Hproc] Hi.
  assert (forall j, (<[i := None]> (processes p)) !! j = processes p !! j \/
    j = i /\ (<[i := None]> (processes p)) !! j = Some None) as Hps.
  { intros j. destruct (decide (j = i)) as [->|]; [|left; by rewrite list_lookup_insert_ne].
    destruct (decide (i < length (processes p))%nat); [right|left].
    - split; [done|by apply list_lookup_insert_eq].
    - by rewrite list_insert_ge by lia. }
  assert (forall g, dropped i (holder p) g = holder p g) as Hd.
  { intros g. unfold dropped. case_decide as Hg; [|done]. destruct (Hlive _ _ Hg) as [proc Hp].
    by destruct (Hi proc). }
  split; [done..| |]; simpl.
  - intros g j. rewrite Hd. intros [proc Hp]%Hlive. exists proc.
    destruct (Hps j) as [->|[-> _]]; [done|by destruct (Hi proc)].
  - intros j proc Hp. destruct (Hps j) as [Heq|[-> Heq]]; rewrite Heq in Hp; [|done].
    destruct (Hproc _ _ Hp) as (K & Hk & Hkeep & Hh). exists K. split; [done|]. split; [done|].
    intros g. by rewrite Hd.
Qed.
Lemma ok_move p m : ok p -> ok (move p m).
Proof.
  intros Hok. destruct m as [turn|i answers|i]; simpl.
  - destruct Hok as [Hlaw Hstate Hlive Hproc]. split; [done..| |]; simpl.
    + intros g i Hg. destruct (Hlive g i Hg) as [proc Hp]. exists proc. by apply lookup_app_l_Some.
    + intros i proc [Hp|[Hlen Hp]]%lookup_app_Some; [by apply Hproc|].
      apply list_lookup_singleton_Some in Hp as [Hi [= <-]]. exists nothing.
      split; [done|]. split; [apply started_fits|]. intros g. split; [|by destruct g].
      intros [proc Hp]%Hlive. apply lookup_lt_Some in Hp. lia.
  - destruct (stepProcess i answers p) eqn:Hs; [by eapply ok_step|done].
  - destruct (processes p !! i) as [[proc|]|] eqn:Hi.
    + eapply (ok_goes p i _ None nothing _ []); try done; simpl; try apply Hok.
      * intros g j Hne. unfold dropped. case_decide as Hd; [|done]. rewrite Hd. naive_solver.
      * intros g. unfold dropped. case_decide as Hd; [by destruct g|]. by destruct g.
    + apply ok_interrupted_none; [done|congruence].
    + apply ok_interrupted_none; [done|congruence].
Qed.
Lemma ok_runMoves moves cards : ok (runMoves moves cards).
Proof.
  unfold Worker.runMoves. induction moves as [|m moves IH] using rev_ind; [apply ok_start|].
  rewrite foldl_snoc. by apply ok_move.
Qed.

(** ** No schedule blocks *)

Definition rank (g : Gate) : nat := match g with pollGate => 0 | recoveryGate => 1 | stateGate => 2 end.
Lemma free_rank K g g' : free K g -> holdsGate K g' = true -> (rank g' < rank g)%nat.
Proof.
  unfold free. intros [Hs Hg] Hh. destruct g'; simpl; [|congruence|]; destruct g; simpl; try lia;
    intuition congruence.
Qed.
Lemma steps_or_waits p i proc : ok p -> processes p !! i = Some (Some proc) ->
  (forall answers, is_Some (stepProcess i answers p)) \/
  exists g j, holder p g = Some j /\ forall g', holder p g' = Some i -> (rank g' < rank g)%nat.
Proof.
  intros Hok Hi. destruct (knows_now p i proc Hok Hi) as (K & _ & _ & Hkeep & Hh). unfold stepProcess.
  rewrite Hi. destruct proc as [e|c k|k|s k|k|a c k|g k|g k]; try (left; intros answers; by eexists).
  destruct (holder p g) as [j|] eqn:Hg; [right|left; intros answers; by eexists].
  exists g, j. split; [done|]. intros g' Hg'%Hh. destruct Hkeep as [Hfree _]. by eapply free_rank.
Qed.
Lemma holder_steps p n g j : ok p -> (2 <= n + rank g)%nat -> holder p g = Some j ->
  exists i, forall answers, is_Some (stepProcess i answers p).
Proof.
  intros Hok. revert g j. induction n as [|n IH]; intros g j Hn Hg;
    destruct (ok_live p Hok g j Hg) as [proc Hp];
    (destruct (steps_or_waits p j proc Hok Hp) as [Hs|(g' & j' & Hg' & Hrank)]; [by exists j|]);
    specialize (Hrank g Hg).
  - destruct g, g'; simpl in *; lia.
  - apply (IH g' j'); [lia|done].
Qed.
Lemma ended_or_steps p : ok p ->
  (exists i, forall answers, is_Some (stepProcess i answers p)) \/
  Forall (eq None) (processes p) /\ forall g, holder p g = None.
Proof.
  intros Hok. destruct (decide (Exists is_Some (processes p))) as [He|Hn].
  - left. apply Exists_exists in He as (x & Hx & [proc ->]). apply list_elem_of_lookup in Hx as [i Hi].
    destruct (steps_or_waits p i proc Hok Hi) as [Hs|(g & j & Hg & _)]; [by exists i|].
    by apply (holder_steps p 2 g j); [|lia|].
  - right. split.
    + apply not_Exists_Forall in Hn; [|apply _]. eapply Forall_impl; [exact Hn|].
      intros [proc|] Hx; [by destruct Hx|done].
    + intros g. destruct (holder p g) as [j|] eqn:Hg; [|done].
      destruct (ok_live p Hok g j Hg) as [proc Hp]. destruct Hn. apply Exists_exists.
      exists (Some proc). split; [by eapply list_elem_of_lookup_2|done].
Qed.

(** ** No schedule goes on for ever *)

(** What is left of a process after one step. *)
Definition remains (x y : option (Proc unit)) : Prop :=
  match y with
  | None => False
  | Some (Exits e) => x = None
  | Some (Calls c k) => exists a, x = Some (k a)
  | Some (Reads k) => exists s, x = Some (k s)
  | Some (ReadsCards k) => exists known, x = Some (k known)
  | Some (Writes _ k | WritesCard _ _ k | Acquires _ k | Releases _ k) => x = Some k
  end.
Lemma remains_wf : well_founded remains.
Proof.
  assert (Acc remains None) as Hnone by by split.
  intros [p|]; [|exact Hnone].
  induction p as [e|c k IH|k IH|s k IH|k IH|a c k IH|g k IH|g k IH]; constructor; simpl.
  - intros y ->. exact Hnone.
  - intros y [a ->]. apply IH.
  - intros y [s ->]. apply IH.
  - intros y ->. exact IH.
  - intros y [known ->]. apply IH.
  - intros y ->. exact IH.
  - intros y ->. exact IH.
  - intros y ->. exact IH.
Qed.
Definition oneRemains (l' l : list (option (Proc unit))) : Prop :=
  exists i x y, l !! i = Some y /\ remains x y /\ l' = <[i := x]> l.
Lemma oneRemains_wf : well_founded oneRemains.
Proof.
  intros l. induction l as [|y l IH]; [split; intros l' (i & x & y & Hl & _); by rewrite lookup_nil in Hl|].
  revert l IH. induction (remains_wf y) as [y _ IHy]. intros l Hl.
  induction Hl as [l Hacc IHl]. split. intros l' ([|i] & x & z & Hz & Hr & ->); simpl in *.
  - injection Hz as <-. apply IHy; [done|by split].
  - apply IHl. by exists i, x, z.
Qed.
Definition stepsTo (p' p : Pool) : Prop := exists i answers, stepProcess i answers p = Some p'.
Lemma stepsTo_wf : well_founded stepsTo.
Proof.
  eapply wf_incl; [|apply (wf_inverse_image _ _ oneRemains processes), oneRemains_wf].
  intros p' p (i & answers & Hs). exists i. unfold stepProcess in Hs.
  destruct (processes p !! i) as [[proc|]|] eqn:Hi; [|done..].
  destruct proc; try destruct (holder p g); simplify_eq/=; eexists _, _;
    (split; [reflexivity|]); (split; [|done]); simpl; eauto.
Qed.

(** ** Before a worker is active *)

Definition attachedAt (log : list Event) (g : nat) (instance : string) : Prop :=
  exists s, Wrote s ∈ log /\ phase s = Attached g instance.
(** The recovery of [g] gave up the volatile folds and brought the engine to
    the tail of the instance; it was a restart if the generation before was
    attached to another. *)
Definition recoveredAs (log : list Event) (g : nat) (instance : string) : Prop :=
  exists reason anchor, an_routerInstanceId anchor = instance /\
    during g (Called (AbandonVolatileFolds reason) tt) log /\
    during g (Called (RecoverHistory reason anchor) true) log /\
    forall before prior, g = S before -> attachedAt log before prior -> prior <> instance ->
      reason = router_restarted.
Definition recalls (log : list Event) (s : RouterWorkerState) : Prop :=
  match s with
  | Active g anchor | Detached g anchor _ =>
      recoveredAs log g (an_routerInstanceId anchor) /\
      forall instance, attachedAt log g instance -> instance = an_routerInstanceId anchor
  | Recovering r =>
      (forall instance, ~ attachedAt log (rc_generation r) instance) /\
      (forall before prior, rc_generation r = S before -> attachedAt log before prior ->
         rc_priorRouterInstanceId r = Some prior) /\
      (forall anchor prior, rc_anchor r = Some anchor -> rc_priorRouterInstanceId r = Some prior ->
         prior <> an_routerInstanceId anchor -> rc_reason r = router_restarted) /\
      (rc_volatileFoldsAbandoned r = true ->
         during (rc_generation r) (Called (AbandonVolatileFolds (rc_reason r)) tt) log)
  end.

Lemma attachedAt_called log c a g instance :
  attachedAt (Called c a :: log) g instance -> attachedAt log g instance.
Proof. intros (s & [He|Hs]%elem_of_cons & Hp); [done|]. by exists s. Qed.
Lemma attachedAt_wrote log s g instance : attachedAt (Wrote s :: log) g instance ->
  phase s = Attached g instance \/ attachedAt log g instance.
Proof.
  intros (s' & [He|Hs]%elem_of_cons & Hp); [left; by injection He as ->|right; by exists s'].
Qed.
Lemma recalls_called log c a s : recalls log s -> recalls (Called c a :: log) s.
Proof.
  assert (log `suffix_of` Called c a :: log) as Hl by by eexists [_].
  assert (forall g anchor, recalls log (Active g anchor) -> recalls (Called c a :: log) (Active g anchor))
    as Hactive.
  { intros g anchor [(reason & tail & Hi & Ha & Hr & Hb) Hg]. split; [|intros i Hi'; by eapply Hg, attachedAt_called].
    exists reason, tail. split; [done|]. split; [by eapply during_later|]. split; [by eapply during_later|].
    intros before prior Hs Hat. by eapply Hb, attachedAt_called. }
  destruct s as [g anchor|g anchor t|r]; [apply Hactive..|]. intros (Hn & Hp & Hr & Hv).
  split; [intros i Hi; by eapply Hn, attachedAt_called|].
  split; [intros before prior Hs Hi; by eapply Hp, attachedAt_called|]. split; [done|].
  intros Ha. by eapply during_later, Hv.
Qed.

Lemma transition_later past s s' : transition past s s' -> (generationOf s <= generationOf s')%nat.
Proof.
  destruct 1 as [| | |s g instance reason Hp|r r' Hc| | | |]; simpl; try lia.
  - destruct s; simplify_eq/=; lia.
  - injection Hc. lia.
Qed.
Lemma written_before log s : lawful log -> Wrote s ∈ log ->
  (generationOf s <= generationOf (lastState log))%nat.
Proof.
  induction log as [|[c a|s'] log IH]; simpl; [by intros _ Hs%elem_of_nil| |].
  - intros [_ Hl] [He|Hs]%elem_of_cons; [done|by apply IH].
  - intros [Ht Hl] [He|Hs]%elem_of_cons; [by injection He as ->|].
    etrans; [by apply IH|]. by eapply transition_later.
Qed.
Lemma attachedAt_before log g instance : lawful log -> attachedAt log g instance ->
  (g <= generationOf (lastState log))%nat.
Proof.
  intros Hl (s & Hs & Hp). replace g with (generationOf s); [by apply written_before|].
  destruct s; by simplify_eq/=.
Qed.

(** A write within the attachment. *)
Lemma recalls_attached log s g anchor :
  recoveredAs log g (an_routerInstanceId anchor) /\
    (forall instance, attachedAt log g instance -> instance = an_routerInstanceId anchor) ->
  phase s = Attached g (an_routerInstanceId anchor) ->
  recoveredAs (Wrote s :: log) g (an_routerInstanceId anchor) /\
    (forall instance, attachedAt (Wrote s :: log) g instance -> instance = an_routerInstanceId anchor).
Proof.
  intros [(reason & tail & Hi & Ha & Hr & Hb) Hg] Hs.
  assert (log `suffix_of` Wrote s :: log) as Hl by by eexists [_]. split.
  - exists reason, tail. split; [done|]. split; [by eapply during_later|]. split; [by eapply during_later|].
    intros before prior Hgen [Hat|Hat]%attachedAt_wrote; [|by eapply Hb].
    rewrite Hs in Hat. injection Hat as ? ?. lia.
  - intros instance [Hat|Hat]%attachedAt_wrote; [|by apply Hg].
    rewrite Hs in Hat. by injection Hat as ?.
Qed.
(** A write within the recovery. *)
Lemma recalls_recovering log r r' :
  recalls log (Recovering r) -> rc_generation r' = rc_generation r ->
  (forall prior, rc_priorRouterInstanceId r = Some prior -> rc_priorRouterInstanceId r' = Some prior) ->
  (forall anchor prior, rc_anchor r' = Some anchor -> rc_priorRouterInstanceId r' = Some prior ->
    prior <> an_routerInstanceId anchor -> rc_reason r' = router_restarted) ->
  (rc_volatileFoldsAbandoned r' = true ->
    during (rc_generation r') (Called (AbandonVolatileFolds (rc_reason r')) tt) log) ->
  recalls (Wrote (Recovering r') :: log) (Recovering r').
Proof.
  intros (Hn & Hp & _) Hg Hprior Hr Hv.
  assert (forall g instance, attachedAt (Wrote (Recovering r') :: log) g instance -> attachedAt log g instance)
    as Hat by (by intros g instance [Ha|Ha]%attachedAt_wrote).
  simpl. rewrite Hg. split; [intros instance Ha; by eapply Hn, Hat|].
  split; [intros before prior Hb Ha; by eapply Hprior, Hp, Hat|]. split; [done|].
  intros Ha. rewrite <- Hg. eapply during_later; [|by apply Hv]. by eexists [_].
Qed.
Lemma recalls_wrote log s : lawful log -> recalls log (lastState log) ->
  transition log (lastState log) s -> recalls (Wrote s :: log) s.
Proof.
  intros Hlaw Hs Ht. pose proof (fun g i => attachedAt_before log g i Hlaw) as Hbefore.
  remember (lastState log) as s0. clear Heqs0.
  destruct Ht as [g anchor messages c _ _|g anchor t|g anchor t|s g instance reason Hph|r r' Hc|s
    |r tail reason Hp Hreason Hrestart|r Hd|r anchor Ha Hv Hd]; simpl in Hs.
  - by apply (recalls_attached _ (Active g (mkAnchor (an_routerInstanceId anchor) c)) g anchor).
  - by apply (recalls_attached _ (Detached g anchor t)).
  - by apply (recalls_attached _ (Active g anchor)).
  - assert (generationOf s = g /\ forall i, attachedAt log g i -> i = instance) as [<- Hg].
    { destruct s as [? anchor|? anchor ?|r]; simplify_eq/=; (split; [done|]); apply Hs. }
    assert (forall n i, attachedAt (Wrote (Recovering (mkRecovering (S (generationOf s)) reason
      (Some instance) false None None)) :: log) n i -> attachedAt log n i) as Hat
      by (by intros n i [Ha|Ha]%attachedAt_wrote).
    split; [|split; [|by split]]; simpl.
    + intros i Hi%Hat%Hbefore. lia.
    + intros before prior [= <-] Hi%Hat%Hg. by subst.
  - injection Hc as Hg Hreason Hpr Hv Ha. apply (recalls_recovering _ r); [done|done|congruence|..].
    { intros anchor prior. rewrite <- Ha, <- Hpr, <- Hreason. apply Hs. }
    intros Hvo. rewrite <- Hg, <- Hreason. apply Hs. congruence.
  - destruct s as [g anchor|g anchor t|r]; [by apply recalls_attached|by apply (recalls_attached _ (Detached g anchor t))|].
    apply (recalls_recovering _ r); try done; apply Hs.
  - apply (recalls_recovering _ r); simpl; try done.
    + by intros prior ->.
    + intros anchor prior [= <-] [= <-] Hne. destruct (rc_priorRouterInstanceId r) eqn:Hpr; [|done].
      by eapply Hrestart.
    + intros [Hr Hvo]%andb_true_iff. case_bool_decide as Hrr; [|done]. rewrite <- Hrr. by apply Hs.
  - apply (recalls_recovering _ r); simpl; try done. apply Hs.
  - destruct Hs as (Hn & Hp & Hr & Hvo). assert (log `suffix_of` Wrote (Active (rc_generation r) anchor) :: log)
      as Hl by by eexists [_]. split.
    + exists (rc_reason r), anchor. split; [done|]. split; [by eapply during_later, Hvo|].
      split; [by eapply during_later|]. intros before prior Hg [Hat|Hat]%attachedAt_wrote Hne.
      * simpl in Hat. injection Hat as ? ?. lia.
      * by eapply Hr, Hne; [|eapply Hp].
    + intros instance [Hat|Hat]%attachedAt_wrote; [by injection Hat|by destruct (Hn instance)].
Qed.
Lemma recalls_lawful log : lawful log -> recalls log (lastState log).
Proof.
  induction log as [|[c a|s] log IH]; simpl; intros Hl.
  - split; [by intros i (s & Hs%elem_of_nil & _)|]. split; [by intros before prior|]. by split.
  - destruct Hl as [_ Hl]. by apply recalls_called, IH.
  - destruct Hl as [Ht Hl]. by apply recalls_wrote; [|apply IH|].
Qed.

(** ** How often a send transmits *)

Definition isSend (c : Call) : bool := match c with SendRouter _ => true | _ => false end.
(** Whatever it is answered, the process calls the Router's send [n] times at
    most. *)
Fixpoint transmits {A} (n : nat) (p : Proc A) : Prop :=
  match p with
  | Exits _ => True
  | Calls c k => (isSend c = true -> (0 < n)%nat) /\
      forall a, transmits (if isSend c then pred n else n) (k a)
  | Reads k => forall s, transmits n (k s)
  | ReadsCards k => forall known, transmits n (k known)
  | Writes _ k | WritesCard _ _ k | Acquires _ k | Releases _ k => transmits n k
  end.
Lemma transmits_more {A} n n' (p : Proc A) : (n <= n')%nat -> transmits n p -> transmits n' p.
Proof.
  revert n n'. induction p as [e|c k IH|k IH|s k IH|k IH|a c k IH|g k IH|g k IH]; intros n n' Hn; simpl;
    eauto.
  intros [Hs Hk]. split; [intros Hc; specialize (Hs Hc); lia|]. intros a. eapply IH; [|apply Hk].
  destruct (isSend c); lia.
Qed.
Lemma transmits_onExit {A B} n n' (m : Proc A) (k : Exit WorkerError A -> Proc B) :
  transmits n m -> (forall e, transmits n' (k e)) -> transmits (n + n') (onExit m k).
Proof.
  intros Hm Hk. revert n Hm.
  induction m as [e|c next IH|next IH|s next IH|next IH|a c next IH|g next IH|g next IH]; intros n; simpl;
    eauto.
  - intros _. eapply transmits_more; [|apply Hk]. lia.
  - intros [Hs Hn]. split; [intros Hc; specialize (Hs Hc); lia|]. intros a.
    destruct (isSend c); [|by apply IH].
    replace (pred (n + n')) with (pred n + n')%nat by (specialize (Hs eq_refl); lia). by apply IH.
Qed.
Lemma transmits_bind {A B} n n' (m : Proc A) (f : A -> Proc B) :
  transmits n m -> (forall a, transmits n' (f a)) -> transmits (n + n') (m ≫= f).
Proof. intros Hm Hf. apply transmits_onExit; [done|]. by intros [a|e]. Qed.
Lemma transmits_permit {A} n g (m : Proc A) : transmits n m -> transmits n (withPermit g m).
Proof.
  intros Hm. simpl. replace n with (n + 0)%nat by lia. by apply transmits_onExit.
Qed.

(** A process that calls no send. *)
Abbreviation silent p := (transmits 0 p).
Ltac silently :=
  repeat match goal with
  | |- silent (withPermit _ _) => apply transmits_permit
  | |- silent (onExit _ _) => apply (transmits_onExit 0 0); [|intros [?|?]]
  | |- silent (_ ≫= _) => apply (transmits_bind 0 0); [|intros ?]
  | |- silent (let _ := _ in _) => cbv zeta
  | |- silent (failing _) => exact I
  | |- silent (mret _) => exact I
  | |- silent (Exits _) => exact I
  | |- silent read => by intros ?
  | |- silent (write _) => exact I
  | |- silent (call _) => by split
  | |- silent (Calls _ _) => split; [by intros [=]|intros ?; simpl]
  | |- silent (succeeded _ ?ok) => by destruct ok
  | |- silent (ReadsCards _) => intros ?; simpl
  | |- silent (WritesCard _ _ _) => simpl
  | |- silent (match ?x with _ => _ end) => destruct x
  end; try assumption; auto.

Lemma silent_pollRetrying cursor n : silent (pollRetrying cursor n).
Proof. induction n; (apply (transmits_bind 0 0); [by split|]); intros [error|result]; silently. Qed.
Lemma silent_finishRouterRecovery r : silent (finishRouterRecovery r).
Proof.
  unfold finishRouterRecovery, pollRouterTail, anchorRecovery, prepareRecovery, anchorFromOmittedResult.
  pose proof silent_pollRetrying. silently.
Qed.
Lemma silent_triggerDiscontinuity reason g : silent (triggerDiscontinuity reason g).
Proof.
  unfold triggerDiscontinuity, enterRecovery. pose proof silent_finishRouterRecovery. silently.
Qed.
Lemma silent_verifyBatch messages : silent (verifyBatch messages).
Proof.
  induction messages as [|m ms IH]; [exact I|]. apply (transmits_bind 0 0); [|intros ?; by silently].
  unfold verifyOuter, resolveSenderCard. silently.
Qed.
Lemma silent_acceptAll verified instance : silent (acceptAll verified instance).
Proof.
  induction verified as [|x xs IH]; [exact I|]. apply (transmits_bind 0 0); [|by intros ?].
  unfold acceptVerified. silently.
Qed.
Lemma silent_runOnce : silent runOnce.
Proof.
  unfold runOnce, pollOnce, pollActiveOnce, probeDetached, detach, reattached, noteRunFailure, commitBatch,
    pollRouterTail, anchorFromOmittedResult.
  pose proof silent_pollRetrying. pose proof silent_finishRouterRecovery.
  pose proof silent_triggerDiscontinuity. pose proof silent_verifyBatch. pose proof silent_acceptAll.
  silently.
Qed.

(** One transmission, and then one more at a lower or the same number of
    attempts left. *)
Lemma transmits_transmitOnce n outbound message instance mode attempts again initially conflicting :
  ((2 <= attempts)%nat -> transmits n again) ->
  ((2 <= attempts)%nat -> mode = Feed.Retry -> transmits n initially) ->
  (mode = Feed.Initial -> transmits n conflicting) ->
  transmits (S n) (transmitOnce outbound message instance mode attempts again initially conflicting).
Proof.
  intros Ha Hi Hc. split; [lia|]. intros [error|[]]; simpl; try done.
  - case_bool_decide; [by rewrite orb_true_r|]. rewrite orb_false_r. destruct (negb _); [done|]. apply Ha. lia.
  - unfold completeAcceptedOutbound. apply (transmits_more 0); [lia|]. silently.
  - unfold resendInMode. destruct mode; simpl; [|done]. case_decide; [done|by apply Hc].
  - unfold resendInMode. destruct mode; simpl; [done|]. case_decide; [done|]. apply Hi; [lia|done].
Qed.
Lemma transmits_transmitOuter outbound message instance n mode : (1 <= n)%nat ->
  transmits (match mode with Feed.Initial => 2 * n | Feed.Retry => 2 * n - 1 end)
    (transmitOuter outbound message instance n mode).
Proof.
  revert mode. induction n as [|[|n] IH]; intros mode Hn; [lia| |].
  - assert (transmits 1 (transmitOuter outbound message instance 1 Feed.Retry)) as Hretry
      by (apply (transmits_transmitOnce 0); [lia..|done]).
    destruct mode; [|exact Hretry]. apply (transmits_transmitOnce 1); [lia|lia|done].
  - assert (transmits (S (2 * n + 2)) (transmitOuter outbound message instance (S (S n)) Feed.Retry)) as Hretry.
    { apply (transmits_transmitOnce (2 * n + 2)); [intros _|intros _ _|done].
      - eapply transmits_more; [|apply (IH Feed.Retry); lia]. lia.
      - eapply transmits_more; [|apply (IH Feed.Initial); lia]. lia. }
    destruct mode; [|eapply transmits_more; [|exact Hretry]; lia].
    eapply (transmits_more (S (2 * n + 3))); [lia|]. apply transmits_transmitOnce; [intros _|done|intros _].
    + eapply transmits_more; [|apply (IH Feed.Retry); lia]. lia.
    + eapply transmits_more; [|exact Hretry]. lia.
Qed.
Lemma transmits_transmitOutbound messageId instance :
  transmits 6 (transmitOutbound versions maximumEncodedBytes callerAgentId messageId instance).
Proof.
  split; [done|]. intros [[|mode outbound]|]; [exact I| |exact I].
  change (transmits 6 (match Worker.decodeStoredOutbound versions maximumEncodedBytes outbound with
    | None => failing RouterWorkerProtocolError
    | Some message => if decide (SignedMessages.senderAgentId message <> callerAgentId)
        then failing RouterWorkerProtocolError
        else transmitOuter outbound message instance routerWorkerRetryAttempts (attemptMode mode)
    end)).
  destruct (Worker.decodeStoredOutbound _ _ outbound) as [message|]; [|exact I].
  case_decide; [exact I|]. eapply transmits_more; [|apply transmits_transmitOuter; unfold routerWorkerRetryAttempts; lia].
  unfold routerWorkerRetryAttempts. by destruct mode; simpl; lia.
Qed.

(** ** The properties *)

(** C11: However turns and sends of a worker interleave, are answered and are
    interrupted, what happened obeys the law: every change of its state is a
    transition of the abstract worker (a commit of the batch that continues
    its cursor, a detachment, a reattachment, a loss, a step of a recovery)
    and every call of the Router, the engine and the outbox is one the law
    allows: an envelope is sent only as it is stored, by its own agent and to
    the instance the worker is attached to; it is completed only when that
    instance accepted just its digest; a payload reaches the engine only
    verified, of a batch of the instance the worker is active on. *)
Theorem worker_refines_law moves known :
  let p := runMoves moves known in
  lawful (happened p) /\ lastState (happened p) = workerState p.
Proof. split; apply ok_runMoves. Qed.

(** C12: The feed is covered: an attached worker's cursor was reached from a
    tail of its instance by batches each polled at the cursor before, and of
    each the engine took every message, or it was no protocol value. *)
Theorem no_message_passed_over moves known :
  let p := runMoves moves known in
  match workerState p with
  | Active _ anchor | Detached _ anchor _ =>
      covered (happened p) (an_routerInstanceId anchor) (an_pollCursor anchor)
  | Recovering _ => True
  end.
Proof.
  cbv zeta. destruct (ok_runMoves moves known) as [Hl Hs _ _]. rewrite <- Hs. by apply (attached_covered versions
    maximumEncodedBytes callerAgentId).
Qed.

(** C13: Before the worker is active in a generation, and during that
    generation's recovery, the engine gave up its volatile folds and recovered
    its history up to an anchor of the instance the worker then polls; when
    the generation before was attached to another instance, as a restart. *)
Theorem recovered_before_active moves known :
  let p := runMoves moves known in
  match phase (workerState p) with
  | Attached g instance => recoveredAs (happened p) g instance
  | Recovery _ => True
  end.
Proof.
  cbv zeta. destruct (ok_runMoves moves known) as [Hl Hs _ _]. apply recalls_lawful in Hl.
  rewrite Hs in Hl. destruct (workerState _); [apply Hl..|done].
Qed.

(** C14: Turns and sends never block each other for good: in every reachable
    state some process can take a step whatever it is answered, or all have
    ended and every gate is free; and without new ones every schedule of
    steps ends. *)
Theorem every_turn_ends :
  well_founded stepsTo /\
  forall moves known, let p := runMoves moves known in
    (exists i, forall answers, is_Some (stepProcess i answers p)) \/
    Forall (eq None) (processes p) /\ forall g, holder p g = None.
Proof.
  split; [apply stepsTo_wf|]. intros moves known. apply ended_or_steps, ok_runMoves.
Qed.

(** C38: Whatever the Router answers, a send transmits its envelope six times
    at most (three attempts, each asked again once after a conflict), and some
    answers make it six; a polling turn transmits nothing. *)
Theorem send_transmits_six messageId outbound message instance :
  transmits 6 (send versions maximumEncodedBytes callerAgentId messageId) /\
  transmits 0 runOnce /\
  ~ transmits 5 (transmitOuter outbound message instance routerWorkerRetryAttempts Feed.Initial).
Proof.
  split; [|split; [apply silent_runOnce|]].
  - apply (transmits_bind 6 0).
    + apply transmits_permit. apply (transmits_bind 0 6); [by intros ?|]. intros [g anchor|g anchor t|r]; try exact I.
      apply (transmits_bind 6 0); [apply transmits_transmitOutbound|by intros ?].
    + intros [[|] g]; [exact I|]. apply (transmits_bind 0 0); [apply silent_triggerDiscontinuity|by intros ?].
  - intros [_ Ht]. specialize (Ht (inr Feed.IdempotencyConflict)). simpl in Ht.
    destruct Ht as [_ Ht]. specialize (Ht (inr Feed.RetryIdentityUnknown)). simpl in Ht.
    destruct Ht as [_ Ht]. specialize (Ht (inr Feed.IdempotencyConflict)). simpl in Ht.
    destruct Ht as [_ Ht]. specialize (Ht (inr Feed.RetryIdentityUnknown)). simpl in Ht.
    destruct Ht as [_ Ht]. specialize (Ht (inr Feed.IdempotencyConflict)). simpl in Ht.
    destruct Ht as [Ht _]. specialize (Ht eq_refl). lia.
Qed.
End runs.

(** ** A concrete worker: [a] is interrupted, recovers, takes a batch, sends
    an envelope and meets a restarted Router *)

Module Trial.
Import Hosts.
#[local] Existing Instances Hosts.base64url Hosts.json Hosts.digest Hosts.signatures.

Definition absent : SignedMessages.SignedMessage :=
  SignedMessages.mkMessage "" "" [] "" "" "" (mkJws "" "" "") (Wire.mkHeader "" "" "") 0.
Definition envelope : SignedMessages.SignedMessage :=
  default absent (signedBy "a"%char [agentIdOf "b"%char] ("msg_" ++ encode64 "mmmmmmmmmmmmmmmm") "hello").
Definition received : SignedMessages.SignedMessage :=
  default absent (signedBy "b"%char [agentIdOf "a"%char] ("msg_" ++ encode64 "nnnnnnnnnnnnnnnn") "reply").
Definition stored : OutboundMessageInput :=
  mkOutbound (SignedMessages.wireVersion envelope) "cnv" (SignedMessages.messageId envelope)
    (printJson (AgentKey.jwsJson (SignedMessages.representation envelope))).

(** The Router answers [instance]; its feed has the one batch after its tail. *)
Definition answered (instance : string) (c : Call) : Answer c :=
  match c with
  | PollRouter None => inr (Poll.Batch instance [] "c0")
  | PollRouter (Some _) => inr (Poll.Batch instance [received] "c1")
  | SendRouter _ => inr (Feed.Accepted instance
      (default "" (digestCanonicalSignedMessage (om_canonicalSignedMessage stored))))
  | LookUp _ => cardOf "b"%char
  | DecodePayload m => Some (OuterBody.Evidence m)
  | PinSenderCard _ | AcceptPayload _ | RecoverHistory _ _ | CompleteOutbound _ => true
  | AbandonVolatileFolds _ | Reattached => tt
  | BeginOutbound _ => Some (StoreQueues.PendingAttempt StoreQueues.InitialAttempt stored)
  | Clock => 0%Z
  end.
Definition goesOn (i : nat) (instance : string) : list Move :=
  repeat (Steps i (answered instance)) 40.
Definition moves : list Move :=
  [Starts None; Steps 0 (answered "R1"); Steps 0 (answered "R1"); Interrupts 0; Starts None] ++
  goesOn 1 "R1" ++ [Starts None] ++ goesOn 2 "R1" ++
  [Starts (Some (om_messageId stored))] ++ goesOn 3 "R1" ++ [Starts None] ++ goesOn 4 "R2".
Definition ran : Pool := Worker.runMoves None maximum (agentIdOf "a"%char) moves [].
Definition describe (e : Event) : string :=
  match e with
  | Called c _ => match c with
    | PollRouter _ => "poll" | SendRouter _ => "send" | LookUp _ => "lookUp" | PinSenderCard _ => "pin"
    | DecodePayload _ => "decode" | AcceptPayload _ => "accept" | AbandonVolatileFolds _ => "abandon"
    | RecoverHistory router_restarted _ => "recover restarted" | RecoverHistory _ _ => "recover"
    | Reattached => "reattached" | BeginOutbound _ => "begin" | CompleteOutbound _ => "complete"
    | Clock => "clock" end
  | Wrote (Active _ _) => "active" | Wrote (Detached _ _ _) => "detached"
  | Wrote (Recovering _) => "recovering"
  end.
Lemma ran_story :
  rev (describe <$> happened ran) =
    ["poll"; "recovering"; "abandon"; "recovering"; "recover restarted"; "active";
     "poll"; "lookUp"; "pin"; "decode"; "accept"; "active";
     "begin"; "send"; "complete";
     "poll"; "recovering"; "poll"; "recovering"; "abandon"; "recovering"; "recover restarted"; "active"] /\
  workerState ran = Active 1 (mkAnchor "R2" "c0") /\ jm_keys (cards ran) = [agentIdOf "b"%char].
Proof. vm_compute. done. Qed.

End Trial.
End WorkerRuns.
