(* ===== verification/Engine.v ===== *)
(** Engine: the assembly of the phases into one endpoint engine, from its
    start over the store a process left behind to the operations the daemon
    calls (packages/client/src/communication/conversations/index.ts).

    A process that dies leaves its database, and nothing else it held.  The
    drain a send waits for runs under a timeout outside the model, so it is a
    parameter. *)
From S2P Require Import Prelude JsMap Identifiers CollectivePart Json Address SignedMessages.
From S2P Require Import SealedBody StoredHistory StoreDatabase StoreQueues StoreAnchors.
From S2P Require Import StoreRecovery RecordSchemas Records OuterBody EngineRuntime HistoryBuild.
From S2P Require Import Outbox Send Certification Startup.
Local Open Scope string_scope.

Module Engine.
Import CollectivePart CanonicalJson ClientJson SendErrors StoreDatabase StoreRecovery RecordSchemas.
Import Records OuterBody EngineRuntime HistoryBuild Outbox Fences Send Startup.

(** ** Failures *)

(** The reasons of an [EngineInitializationError]. *)
Definition identityFailure : Failure := Refused "identity".
Definition persistenceInitializationFailure : Failure := Refused "persistence".
Definition representationInitializationFailure : Failure := Refused "representation".
Definition outboxTooOldFailure : Failure := Refused "outbox-too-old".
(** One of [persistence] and [representation]. *)
Definition unreadableFailure : Failure := Refused "unreadable".

Definition initializationReasonByStoreReason (reason : EndpointStoreFailure) : Failure :=
  match reason with
  | conflict => identityFailure
  | closed | corrupt | incompatible | pre_reset | newer_schema | invalid_continuation
  | invalid_input | not_found | persistence => persistenceInitializationFailure
  end.

Inductive ListenFailure := AlreadyListening | IncompatibleDaemon | TransportFailed | DecodeFailed.
Definition listenReasonByStoreReason (reason : EndpointStoreFailure) : ListenFailure :=
  match reason with
  | closed | persistence => TransportFailed
  | incompatible | pre_reset | newer_schema => IncompatibleDaemon
  | conflict | corrupt | invalid_continuation | invalid_input | not_found => DecodeFailed
  end.
Definition listenFailure (reason : ListenFailure) : Failure :=
  Refused match reason with
    | AlreadyListening => "already-listening" | IncompatibleDaemon => "incompatible-daemon"
    | TransportFailed => "transport-failed" | DecodeFailed => "decode-failed"
    end.

Inductive DeliveryAcknowledgeFailure :=
  UnknownDelivery | DeliveryConflict | AcknowledgePersistenceFailed | AcknowledgeTransportFailed.
Definition acknowledgeReasonByStoreReason (reason : EndpointStoreFailure) :
    DeliveryAcknowledgeFailure :=
  match reason with
  | conflict => DeliveryConflict
  | not_found => UnknownDelivery
  | closed | corrupt | incompatible | pre_reset | newer_schema | invalid_continuation
  | invalid_input | persistence => AcknowledgePersistenceFailed
  end.
Definition acknowledgeFailure (reason : DeliveryAcknowledgeFailure) : Failure :=
  Refused match reason with
    | UnknownDelivery => "unknown-delivery" | DeliveryConflict => "delivery-conflict"
    | AcknowledgePersistenceFailed => "persistence-failed"
    | AcknowledgeTransportFailed => "transport-failed"
    end.

Inductive ResumeIntentDisposition := fail_persistence | fail_representation | ignore.
Definition resumeDispositionBySendReason (reason : SendFailure) : ResumeIntentDisposition :=
  match reason with
  | CertificationUnavailable | NetworkUnavailable | DeliveryPending => ignore
  | PersistenceFailed => fail_persistence
  | OutcomeUnknown | ContentInvalid | InvalidAddress | MembershipInvalid | NotRegistered
  | UnknownAgent | VersionMismatch => fail_representation
  end.

Section engine.
Context `{Base64Url} `{HostJson} `{Jose} `{Sha256} `{JoseEncryption} `{!EngineHost} `{!SendHost}.
Context `{!RowOrder} (versions : option Wire.WireVersions) (maximumEncodedBytes : Z).
Context {R : Type} `{!RecoveryPhase R} (input : EndpointEngineInput).

#[local] Instance intent_i : JsonSchema PostIntent := intent_schema versions.
#[local] Instance inbound_i : JsonSchema InboundMessage := HistoryBuild.inbound_i.
#[local] Instance phases_i : EnginePhases R := sendPhases versions maximumEncodedBytes input.

#[local] Abbreviation World := (World R).
#[local] Abbreviation Engine := (@Engine R).

Definition resumeIntentFailure (error : SendError) : Engine unit :=
  match resumeDispositionBySendReason (reason error) with
  | fail_persistence => fail persistenceInitializationFailure
  | fail_representation => fail representationInitializationFailure
  | ignore => mret tt
  end.

(** ** Starting *)

(** What a new process finds: the database, the Router's anchor, and the
    counters of what the host drew, signed and was told. *)
Definition powerOn (recovery : R) (w : World) : World :=
  mkWorld R [] [] [] [] [] [] [] [] [] None [] [] [] 0 (database w) (router w) (draws w) (signed w)
    (storageFaults w) [] recovery.

Definition validateLocalIdentity : Engine unit :=
  if decide (sg_authorityPublicKey (signer input) = AgentCards.publicKey (localAgentCard input))
  then mret tt else fail identityFailure.

Definition storeFailing (f : EndpointStoreFailure -> Failure) {A} (m : Engine A) : Engine A :=
  mapError (fun e => match e with Store reason => f reason | _ => e end) m.

Definition bindLocalIdentity : Engine unit :=
  canonicalAgentCard ← ofOption representationInitializationFailure
    (canonicalize (AgentKey.jwsJson
      (AgentCards.c_representation (localAgentCard input))));
  storeFailing initializationReasonByStoreReason
    (store (StoreAnchors.writeIdentity (StoreDatabase.mkIdentity (localAgentId input) canonicalAgentCard))) ;;
  mret tt.

Definition recoveryInitializationFailure (failure : RecoveryFailure) : Failure :=
  match failure with unreadable => unreadableFailure | outboxTooOld => outboxTooOldFailure end.

(** [makeRuntime]: the recovered maps and objects, and an outbox that starts
    with a signal when it has messages. *)
Definition makeRuntime (recovered : RecoveredEngineState) : Engine unit :=
  let objects := rs_objects recovered in
  let queued := om_messageId <$> rs_outboundMessages recovered in
  sync (fun w => mkWorld R (rb_conversations objects) [] (rs_completedPosts recovered)
    (rb_actionFolds objects) (rb_recordFolds objects) (rb_conversationHeap objects)
    (rb_foldHeap objects) [] [] None [] [] queued (if decide (queued = []) then 0 else 1)
    (database w) (router w) (draws w) (signed w) (storageFaults w) [] (recovery w)).

Definition hydratePostIntent (stored : PostIntentRow) : Engine unit :=
  intent ← ofOption representationInitializationFailure
    (decodeCanonical (A := PostIntent) (pi_canonicalIntent stored));
  completion ← makeLatch;
  r ← newIntent (mkPostIntent intent (pi_canonicalIntent stored) completion None);
  sync (set_intents (fun m => jm_set m (postId intent) r)) ;;
  completed ← gets (fun w => jm_get (completedPosts w) (postId intent));
  match completed with
  | Some recordHash => settleLatch completion (Succeed recordHash)
  | None => mret tt
  end.

Definition hydratePostIntents (postIntents : list PostIntentRow) : Engine unit :=
  forEach hydratePostIntent postIntents.

Definition initializeRuntime : Engine unit :=
  validateLocalIdentity ;;
  bindLocalIdentity ;;
  stored ← storeFailing initializationReasonByStoreReason (store (recover None));
  recovered ← match recoverEngineState versions maximumEncodedBytes (localAgentId input)
                      (registrySignerPublicKey input) stored with
              | Succeed recovered => mret recovered
              | Fail_ failure => fail (recoveryInitializationFailure failure)
              end;
  makeRuntime recovered ;;
  hydratePostIntents (rs_postIntents recovered).

Definition resumeFolds {A} (m : Engine A) : Engine A :=
  mapError (fun _ => persistenceInitializationFailure) m.

Definition resumeIntent (r : Ref) : Engine unit :=
  i ← intentAt r;
  completed ← gets (fun w => jm_has (completedPosts w) (postId (ep_intent i)));
  if (completed : bool) then mret tt
  else catch (fun e => match e with SendFailed error => Some (resumeIntentFailure error) | _ => None end)
    (Send.proposeIntent versions maximumEncodedBytes input r ;; mret tt).

Definition resumeRuntime : Engine unit :=
  resumeFolds (Certification.Certification.resumeDisseminationObligations versions
    maximumEncodedBytes input None) ;;
  resumeFolds (Certification.Certification.resumeEngineFolds versions maximumEncodedBytes input None) ;;
  pending ← gets (fun w => (intents w).*2);
  forEach resumeIntent pending.

(** A process that starts over the database [w] left. *)
Definition makeEndpointEngine : Engine unit := initializeRuntime ;; resumeRuntime.

(** ** The engine's operations *)

(** [Deferred.await]. *)
Definition awaitLatch (r : Ref) : Engine string :=
  state ← gets (fun w => latches w !! r);
  match state with
  | Some (Some (Succeed recordHash)) => mret recordHash
  | Some (Some (Fail_ error)) => fail (SendFailed error)
  | Some None => never
  | None => deref None
  end.

Definition finishPreparedSend (drain : Engine unit) (prepared : PreparedSendHandle) :
    Engine (string * string) :=
  settled ← gets (fun w => latches w !! sh_completion prepared);
  (match settled with
   | Some (Some _) => mret tt
   | Some None => mapError (fun _ => SendFailed (sendError DeliveryPending)) drain
   | None => deref None
   end) ;;
  recordHash ← awaitLatch (sh_completion prepared);
  mret (sh_postId prepared, recordHash).

Definition send (outcome : CommitOutcome) (attaches : bool) (fuel : nat) (drain : Engine unit)
    (memberCards : list AgentCards.AgentCard) (content : PostContent) : Engine (string * string) :=
  prepared ← prepareSend versions maximumEncodedBytes input outcome attaches fuel memberCards content;
  finishPreparedSend drain prepared.

(** A delivery decoded for the daemon: its token, its record and its message. *)
Definition decodePending (delivery : PendingDelivery) : Engine (string * string * InboundMessage) :=
  ofOption (listenFailure DecodeFailed) (
    message ← decodeCanonical (A := InboundMessage) (pd_canonicalMessage delivery);
    if RecordHash (pd_recordHash delivery)
    then Some (pd_deliveryToken delivery, pd_recordHash delivery, message) else None).

Definition readPendingMessages : Engine (list (string * string * InboundMessage)) :=
  deliveries ← gets (fun w => StoreQueues.readPendingDeliveries (database w));
  mapEach decodePending deliveries.

Definition acknowledgeMessage (deliveryToken : string) : Engine unit :=
  storeFailing (fun reason => acknowledgeFailure (acknowledgeReasonByStoreReason reason))
    (store (StoreQueues.acknowledgeDelivery deliveryToken)) ;;
  mret tt.

Definition clear_queuedFlags (f : EngineActionFold) : EngineActionFold :=
  mkFold (fold_conversation f) (fold_action f) (fold_actionHash f) (fold_routerAnchor f)
    (fold_actionEvidence f) (fold_durabilityEvidence f) false false (fold_recordHash f) (certified f).

(** The folds of the runtime's map forget what they queued when the Router
    restarted. *)
Definition abandonVolatileFolds (routerRestarted : bool) : Engine unit :=
  installRecoveryBarrier ;;
  sync (fun w =>
    let w := set_queued (fun _ => []) w in
    if routerRestarted
    then foldl (fun w fold => updateFold fold clear_queuedFlags w) w (actionFolds w).*2
    else w).

End engine.
End Engine.
