(* ===== verification/EngineStore.v ===== *)
(** EngineStore: the engine changes what survives a crash only by the
    operations of the endpoint store and by signing.

    The durable machine has two kinds of step: an operation of the store, and a
    signature with the agent's key.  A re-anchor vote may be signed only while
    its candidate is staged at the conversation's position.  Each computation
    of the phases is a run of that machine however it ends, so what holds of
    every history of store operations holds of every history of an engine. *)
From S2P Require Import Prelude JsMap Identifiers CollectivePart Json Address SignedMessages.
From S2P Require Import SealedBody RecordSchemas Records OuterBody StoredHistory StoreDatabase.
From S2P Require Import StoreQueues StoreRecords StoreAnchors EndpointStore StoreVotes.
From S2P Require Import StoreScopes StoreRecovery EngineRuntime HistoryBuild Outbox Send.
From S2P Require Import Certification Startup Engine.

Module EngineStore.
Import RecordSchemas Records OuterBody StoreDatabase StoreRows StoreQueues StoreRecords StoreAnchors.
Import EndpointStore StoreRecovery EngineRuntime HistoryBuild Outbox Fences Send Certification.
Import Startup Engine.

(** ** The durable machine *)

(** What survives a crash, and the statements the agent's key has signed. *)
Record Durable := mkDurable { dur_database : Database; dur_signed : list EvidenceStatement }.
Definition durable {R} (w : World R) : Durable := mkDurable (database w) (signed w).

(** A re-anchor candidate is staged, and its conversation is at the head and
    the anchor it leaves. *)
Definition candidateHeld (db : Database) (anchorHash : string) (body : ReanchorBody) : Prop :=
  (exists r, r ∈ reanchors db /\
    inScope (rb_conversationId body) (rb_previousAnchorHash body) (rb_routerInstanceId body) r /\
    ra_anchorHash (rr_staged r) = anchorHash /\
    ra_selectedRecordHash (rr_staged r) = rb_selectedRecordHash body) /\
  exists p, conversation_state db !! rb_conversationId body = Some p /\
    ip_currentAnchorHash p = rb_previousAnchorHash body /\
    ip_headRecordHash p = Some (rb_selectedRecordHash body).

(** The hash a re-anchor body gives its anchor; an encoding does not depend on
    the versions that decode. *)
Definition hashes `{Base64Url, HostJson, Sha256} (body : ReanchorBody) (anchorHash : string) : Prop :=
  hashAnchor None (AnchorReanchor body) = Some anchorHash.

Section machine.
Context `{Base64Url} `{HostJson} `{Sha256}.

Definition signable (db : Database) (s : EvidenceStatement) : Prop :=
  match s with
  | ReanchorVote _ _ anchorHash body => candidateHeld db anchorHash body /\ hashes body anchorHash
  | _ => True
  end.

Inductive durableStep : Durable -> Durable -> Prop :=
  | stores operation db l :
      durableStep (mkDurable db l) (mkDurable (EndpointStore.perform operation db).2 l)
  | signs s db l : signable db s ->
      durableStep (mkDurable db l) (mkDurable db (l ++ [s])).

Lemma one_store operation db l d :
  d = (EndpointStore.perform operation db).2 ->
  rtc durableStep (mkDurable db l) (mkDurable d l).
Proof. intros ->. apply rtc_once, stores. Qed.

(** ** Computations that are runs of it *)

Section judgement.
Context {R : Type}.
#[local] Abbreviation World := (World R).
#[local] Abbreviation Engine := (@Engine R).

(** From a state with [P] the computation is a run, however it ends, and when
    it succeeds [Q] holds. *)
Definition drives {A} (P : World -> Prop) (m : Engine A) (Q : A -> World -> Prop) : Prop :=
  forall masked patience w, P w ->
    let '(outcome, _, w') := m masked patience w in
    rtc durableStep (durable w) (durable w') /\
    forall a, outcome = Done a -> Q a w'.

Definition moving {A} (m : Engine A) : Prop := drives (fun _ => True) m (fun _ _ => True).

Lemma drives_weaken {A} (P P' : World -> Prop) (m : Engine A) (Q Q' : A -> World -> Prop) :
  drives P' m Q' -> (forall w, P w -> P' w) -> (forall a w, Q' a w -> Q a w) -> drives P m Q.
Proof.
  intros Hm HP HQ masked patience w Hp. specialize (Hm masked patience w (HP w Hp)).
  destruct (m masked patience w) as [[o p] w']. naive_solver.
Qed.
Lemma drives_moving {A} (P : World -> Prop) (m : Engine A) :
  moving m -> drives P m (fun _ _ => True).
Proof. intros Hm. eapply drives_weaken; [exact Hm|done..]. Qed.

Lemma drives_ret {A} (P : World -> Prop) (a : A) (Q : A -> World -> Prop) :
  (forall w, P w -> Q a w) -> drives P (mret a) Q.
Proof. intros HQ masked patience w Hp. simpl. split; [done|]. intros ? [= <-]. auto. Qed.
Lemma drives_fail {A} (P : World -> Prop) e (Q : A -> World -> Prop) : drives P (fail e) Q.
Proof. by intros masked patience w Hp. Qed.
Lemma drives_gets {A} (P : World -> Prop) (f : World -> A) (Q : A -> World -> Prop) :
  (forall w, P w -> Q (f w) w) -> drives P (gets f) Q.
Proof. intros HQ masked patience w Hp. simpl. split; [done|]. intros ? [= <-]. auto. Qed.
Lemma drives_continue {B} (P : World -> Prop) (k : Engine B) Q :
  drives P k Q -> drives P (continue k) Q.
Proof.
  intros Hk masked patience w Hp. unfold continue.
  destruct masked; [by apply Hk|]. destruct patience as [[|n]|]; [done|by apply Hk..].
Qed.
Lemma drives_bind {A B} (P : World -> Prop) (m : Engine A) (k : A -> Engine B) Q S :
  drives P m Q -> (forall a, drives (Q a) (k a) S) -> drives P (m ≫= k) S.
Proof.
  intros Hm Hk masked patience w Hp. specialize (Hm masked patience w Hp).
  unfold mbind, engine_bind. destruct (m masked patience w) as [[[a|e| |] p] w']; try naive_solver.
  destruct Hm as [Hrun HQ]. pose proof (drives_continue _ _ _ (Hk a) masked p w' (HQ a eq_refl)) as Hc.
  destruct (continue (k a) masked p w') as [[o p'] w'']. destruct Hc. split; [by etrans|done].
Qed.
Lemma drives_catch {A} (P : World -> Prop) handler (m : Engine A) Q :
  drives P m Q -> (forall e k, handler e = Some k -> drives (fun _ => True) k Q) ->
  drives P (catch handler m) Q.
Proof.
  intros Hm Hh masked patience w Hp. specialize (Hm masked patience w Hp). unfold catch.
  destruct (m masked patience w) as [[[a|e| |] p] w']; try done.
  destruct (handler e) as [k|] eqn:He; [|done]. destruct Hm as [Hrun _].
  pose proof (drives_continue _ _ _ (Hh e k He) masked p w' I) as Hc.
  destruct (continue k masked p w') as [[o p'] w'']. destruct Hc. split; [by etrans|done].
Qed.
Lemma drives_mapError {A} (P : World -> Prop) f (m : Engine A) Q :
  drives P m Q -> drives P (mapError f m) Q.
Proof. intros Hm. apply drives_catch; [done|]. intros e k [= <-]. apply drives_fail. Qed.
Lemma drives_uninterruptible {A} (P : World -> Prop) (m : Engine A) Q :
  drives P m Q -> drives P (uninterruptible m) Q.
Proof. intros Hm masked patience w Hp. by apply (Hm true patience w). Qed.

(** *** Whatever the state *)

Lemma moving_ret {A} (a : A) : moving (mret a).
Proof. by apply drives_ret. Qed.
Lemma moving_fail {A} e : moving (fail (A := A) e).
Proof. apply drives_fail. Qed.
Lemma moving_never {A} : moving (never (A := A)).
Proof. by intros masked patience w _. Qed.
Lemma moving_gets {A} (f : World -> A) : moving (gets f).
Proof. by apply drives_gets. Qed.
Lemma moving_deref {A} (o : option A) : moving (deref o).
Proof. by destruct o; intros masked patience w _. Qed.
Lemma moving_ofOption {A} e (o : option A) : moving (ofOption e o).
Proof. destruct o; [apply moving_ret|apply moving_fail]. Qed.
Lemma moving_sync f : (forall w, durable (f w) = durable w) -> moving (sync f).
Proof. intros Hf masked patience w _. simpl. by rewrite Hf. Qed.
Lemma moving_syncWith {A} (f : World -> A * World) :
  (forall w, durable (f w).2 = durable w) -> moving (syncWith f).
Proof.
  intros Hf masked patience w _. specialize (Hf w). unfold syncWith.
  destruct (f w) as [a w']. simpl in *. by rewrite Hf.
Qed.
Lemma moving_bind {A B} (m : Engine A) (k : A -> Engine B) :
  moving m -> (forall a, moving (k a)) -> moving (m ≫= k).
Proof. intros Hm Hk. by eapply drives_bind. Qed.
Lemma moving_uninterruptible {A} (m : Engine A) : moving m -> moving (uninterruptible m).
Proof. apply drives_uninterruptible. Qed.
Lemma moving_catch {A} handler (m : Engine A) :
  moving m -> (forall e k, handler e = Some k -> moving k) -> moving (catch handler m).
Proof. intros Hm Hk. by apply drives_catch. Qed.
Lemma moving_mapError {A} f (m : Engine A) : moving m -> moving (mapError f m).
Proof. apply drives_mapError. Qed.
Lemma moving_onExit {A} (finalizer : Outcome A -> Engine unit) (m : Engine A) :
  moving m -> (forall outcome, moving (finalizer outcome)) -> moving (onExit finalizer m).
Proof.
  intros Hm Hf masked patience w _. specialize (Hm masked patience w I). unfold onExit.
  destruct (m masked patience w) as [[o p] w']. destruct Hm as [Hrun _].
  specialize (Hf o true p w' I). destruct o; try done;
    destruct (finalizer _ true p w') as [[[] ?] ?]; destruct Hf; (split; [by etrans|done]).
Qed.
Lemma moving_forEach {A} (f : A -> Engine unit) l :
  (forall a, moving (f a)) -> moving (forEach f l).
Proof. intros Hf. induction l; simpl; [apply moving_ret|]. apply moving_bind; auto. Qed.
Lemma moving_mapEach {A B} (f : A -> Engine B) l :
  (forall a, moving (f a)) -> moving (mapEach f l).
Proof.
  intros Hf. induction l; simpl; [apply moving_ret|]. apply moving_bind; [auto|].
  intros b. apply moving_bind; [auto|]. intros bs. apply moving_ret.
Qed.

Lemma moving_store {A} (operation : Database -> Exit EndpointStoreFailure A * Database) :
  (forall db l, rtc durableStep (mkDurable db l) (mkDurable (operation db).2 l)) ->
  moving (store operation).
Proof.
  intros Hop masked patience w _. unfold store. specialize (Hop (database w) (signed w)).
  by destruct (operation (database w)) as [[] db].
Qed.
Lemma moving_perform {A} operation (f : Database -> Exit EndpointStoreFailure A * Database) :
  (forall db, (f db).2 = (EndpointStore.perform operation db).2) -> moving (store f).
Proof. intros Hf. apply moving_store. intros db l. by eapply one_store. Qed.

End judgement.

Lemma recover_reads `{!RowOrder} only db : (recover only db).2 = db.
Proof.
  unfold recover, recoverStoredState.
  match goal with |- (transaction ?m db).2 = db =>
    assert (moves eq m) as Hm by (follow; apply readAllCertifiedRecords_reads);
    destruct (transaction_cases m db) as [(a & d & Hok & ->)|(e & _ & ->)] end; [|done].
  symmetry. by eapply Hm.
Qed.
Lemma moving_recover `{!RowOrder} {R} only : moving (R := R) (store (recover only)).
Proof. apply moving_store. intros db l. by rewrite recover_reads. Qed.

End machine.

(** ** The phases *)

Create HintDb moving discriminated.
#[export] Hint Resolve moving_ret moving_fail moving_never moving_gets moving_deref moving_ofOption
  moving_recover : moving.
(** A step that touches neither, and an operation of the store. *)
#[export] Hint Extern 1 (moving (sync _)) => (apply moving_sync; by intros ?) : moving.
#[export] Hint Extern 1 (moving (syncWith _)) => (apply moving_syncWith; intros ?; by repeat case_match) : moving.

(** Walk a computation to its primitive steps. *)
Ltac moving_walk :=
  repeat first
    [ progress intros
    | solve [eauto with moving]
    | match goal with
      | |- moving (_ ≫= _) => apply moving_bind
      | |- moving (uninterruptible _) => apply moving_uninterruptible
      | |- moving (mapError _ _) => apply moving_mapError
      | |- moving (catch _ _) => apply moving_catch
      | |- moving (onExit _ _) => apply moving_onExit
      | |- moving (forEach _ _) => apply moving_forEach
      | |- moving (mapEach _ _) => apply moving_mapEach
      end
    | progress simplify_eq
    | case_match ].

Section phases.
Context `{Base64Url} `{HostJson} `{Jose} `{Sha256} `{JoseEncryption} `{!EngineHost} `{!SendHost}.
Context `{!RowOrder} (versions : option Wire.WireVersions) (maximumEncodedBytes : Z).
Context {R : Type} (input : EndpointEngineInput).

#[local] Abbreviation Engine := (@Engine R).

Lemma moving_conversationAt r : moving (conversationAt (R := R) r).
Proof. unfold conversationAt. moving_walk. Qed.
Lemma moving_foldAt r : moving (foldAt (R := R) r).
Proof. unfold foldAt. moving_walk. Qed.
Lemma moving_intentAt r : moving (intentAt (R := R) r).
Proof. unfold intentAt. moving_walk. Qed.
Lemma moving_makeLatch : moving (makeLatch (R := R)).
Proof. unfold makeLatch. moving_walk. Qed.
Lemma moving_settleLatch r exit : moving (settleLatch (R := R) r exit).
Proof. unfold settleLatch. moving_walk. Qed.
Lemma moving_draw : moving (draw (R := R)).
Proof. unfold draw. moving_walk. Qed.
Lemma moving_evidenceTarget s : moving (evidenceTarget (R := R) s).
Proof. unfold evidenceTarget, foldAt, conversationAt. moving_walk. Qed.
Hint Resolve moving_conversationAt moving_foldAt moving_intentAt moving_makeLatch
  moving_settleLatch moving_draw moving_evidenceTarget : moving.

(** *** The store's operations *)

Lemma moving_enqueueOutbound m : moving (R := R) (store (enqueueOutbound m)).
Proof. by apply (moving_perform (EnqueueOutbound m)). Qed.
Lemma moving_enqueueDissemination c r m :
  moving (R := R) (store (enqueueDisseminationOutbound c r m)).
Proof. by apply (moving_perform (EnqueueDisseminationOutbound c r m)). Qed.
Lemma moving_lockProposal l : moving (R := R) (store (lockProposal l)).
Proof. by apply (moving_perform (LockProposal l)). Qed.
Lemma moving_lockGenesisProposal f l : moving (R := R) (store (lockGenesisProposal f l)).
Proof. by apply (moving_perform (LockGenesisProposal f l)). Qed.
Lemma moving_supersedeProposalLock l c : moving (R := R) (store (supersedeProposalLock l c)).
Proof. by apply (moving_perform (SupersedeProposalLock l c)). Qed.
Lemma moving_storeEvidence e : moving (R := R) (store (StoreRecords.mergeEvidence e)).
Proof. by apply (moving_perform (MergeEvidence e)). Qed.
Lemma moving_stageRecord r : moving (R := R) (store (stageRecordForDissemination r)).
Proof. by apply (moving_perform (StageRecordForDissemination r)). Qed.
Lemma moving_promoteRecord r d t : moving (R := R) (store (promoteRecord r d t)).
Proof. by apply (moving_perform (PromoteRecord r d t)). Qed.
Lemma moving_applyCertifiedRecord r d t : moving (R := R) (store (applyCertifiedRecord r d t)).
Proof. by apply (moving_perform (ApplyCertifiedRecord r d t)). Qed.
Lemma moving_acknowledge t : moving (R := R) (store (acknowledgeDelivery t)).
Proof. by apply (moving_perform (AcknowledgeDelivery t)). Qed.
Lemma moving_writeIdentity b : moving (R := R) (store (writeIdentity b)).
Proof. by apply (moving_perform (BindIdentity b)). Qed.
Lemma moving_stageReanchor r : moving (R := R) (store (stageReanchor r)).
Proof. by apply (moving_perform (StageReanchor r)). Qed.
Lemma moving_completeReanchor r : moving (R := R) (store (completeReanchor r)).
Proof. by apply (moving_perform (CompleteReanchor r)). Qed.
Lemma moving_applyCatchUpReanchor r : moving (R := R) (store (applyCatchUpReanchor r)).
Proof. by apply (moving_perform (ApplyCatchUpReanchor r)). Qed.
Lemma moving_restartEmptyConversation e r : moving (R := R) (store (restartEmptyConversation e r)).
Proof. by apply (moving_perform (RestartEmptyConversation e r)). Qed.
Lemma moving_discardOutbound l : moving (R := R) (store (discardOutbound l)).
Proof. by apply (moving_perform (DiscardOutbound l)). Qed.
Hint Resolve moving_enqueueOutbound moving_enqueueDissemination moving_lockProposal
  moving_lockGenesisProposal moving_supersedeProposalLock moving_storeEvidence moving_stageRecord
  moving_promoteRecord moving_applyCertifiedRecord moving_acknowledge moving_writeIdentity
  moving_stageReanchor moving_completeReanchor moving_applyCatchUpReanchor
  moving_restartEmptyConversation moving_discardOutbound : moving.

(** *** Signing *)

Lemma drives_signEvidence s (P : World R -> Prop) Q :
  (forall w, P w -> signable (database w) s) ->
  (forall message w, P w -> Q message (set_signed (fun l => (l ++ [s])%list) w)) ->
  drives P (signEvidence versions maximumEncodedBytes input s) Q.
Proof.
  intros Hs HQ masked patience w Hp. unfold signEvidence.
  destruct (signEvidenceMessage versions maximumEncodedBytes s _ _ _); [|done].
  split; [|intros ? [= <-]; auto]. apply rtc_once. unfold durable. simpl. apply signs. auto.
Qed.
Lemma moving_signEvidence s : (forall db, signable db s) ->
  moving (R := R) (signEvidence versions maximumEncodedBytes input s).
Proof. intros Hs. by apply drives_signEvidence. Qed.
Hint Extern 1 (moving (signEvidence _ _ _ _)) =>
  (apply moving_signEvidence; intros ?; exact I) : moving.

(** *** The outbox *)

Lemma moving_push ids : moving (push (R := R) ids).
Proof. unfold push. moving_walk. Qed.
Hint Resolve moving_push : moving.
Lemma moving_sign membership body :
  moving (Outbox.sign (R := R) versions maximumEncodedBytes input membership body).
Proof. unfold Outbox.sign. moving_walk. Qed.
Lemma moving_enqueueSigned c message obligation :
  moving (enqueueSigned (R := R) versions maximumEncodedBytes c message obligation).
Proof. unfold enqueueSigned. moving_walk. Qed.
Hint Resolve moving_sign moving_enqueueSigned : moving.
Lemma moving_queueBody c body obligation :
  moving (queueBody (R := R) versions maximumEncodedBytes input c body obligation).
Proof. unfold queueBody. moving_walk. Qed.
Hint Resolve moving_queueBody : moving.
Lemma moving_queuePacket c packet :
  moving (queuePacket (R := R) versions maximumEncodedBytes input c packet).
Proof. apply moving_queueBody. Qed.
Lemma moving_queueEvidence c message :
  moving (queueEvidence (R := R) versions maximumEncodedBytes input c message).
Proof. apply moving_queueBody. Qed.
Lemma moving_queueActionCertifiedRecord c record :
  moving (queueActionCertifiedRecord (R := R) versions maximumEncodedBytes input c record).
Proof. apply moving_queueBody. Qed.
Hint Resolve moving_queuePacket moving_queueEvidence moving_queueActionCertifiedRecord : moving.

(** *** Fences *)

Lemma moving_installRecoveryBarrier : moving (installRecoveryBarrier (R := R)).
Proof. unfold installRecoveryBarrier, makeFence. moving_walk. Qed.
Lemma moving_awaitFence fence : moving (awaitFence (R := R) fence).
Proof. unfold awaitFence. moving_walk. Qed.
Lemma moving_completeRecoveryBarrier barrier : moving (completeRecoveryBarrier (R := R) barrier).
Proof. unfold completeRecoveryBarrier, completeFence. moving_walk. Qed.
Lemma moving_fenceConversation c : moving (fenceConversation (R := R) c).
Proof. unfold fenceConversation, makeFence. moving_walk. Qed.
Lemma moving_releaseConversation c : moving (releaseConversation (R := R) c).
Proof. unfold releaseConversation, completeFence. moving_walk. Qed.
Hint Resolve moving_installRecoveryBarrier moving_awaitFence moving_completeRecoveryBarrier
  moving_fenceConversation moving_releaseConversation : moving.

(** *** Sending *)

Section sending.
Context `{!RecoveryPhase R} (Hrearm : forall c, moving (rearmCatchUp (R := R) c)).
#[local] Hint Resolve Hrearm : moving.

Lemma moving_proposeIntent i :
  moving (Send.proposeIntent (R := R) versions maximumEncodedBytes input i).
Proof.
  unfold Send.proposeIntent, queueLocalProposal, queueProposal, proposalAction, Send.represented,
    reportStorageFault. moving_walk.
Qed.
Hint Resolve moving_proposeIntent : moving.
Lemma moving_resendProposal proposal :
  moving (resendProposal (R := R) versions maximumEncodedBytes input proposal).
Proof. unfold resendProposal, queueProposal, reportStorageFault. moving_walk. Qed.

Definition admissionStores (admission : PostIntentBinding -> Database ->
    Exit EndpointStoreError FirewallCommit * Database) : Prop :=
  forall binding db l, rtc durableStep (mkDurable db l) (mkDurable (admission binding db).2 l).
Lemma admitIntent_stores outcome : admissionStores (admitIntent outcome).
Proof.
  intros binding db l.
  assert (rtc durableStep (mkDurable db l) (mkDurable (bindPostIntent binding db).2 l)) as Hbind.
  { apply (one_store (BindPostIntent binding)). simpl. by destruct (bindPostIntent binding db). }
  unfold admitIntent, committing. destruct (bindPostIntent binding db) as [[] db']; [|exact Hbind].
  destruct outcome as [| |[]]; first [exact Hbind|apply rtc_refl].
Qed.

Lemma moving_activateIntentOnce prepared admission : admissionStores admission ->
  moving (activateIntentOnce (R := R) versions maximumEncodedBytes input prepared admission).
Proof.
  intros Ha. assert (forall binding, moving (R := R) (store (attempted admission binding))) as Hb.
  { intros binding. apply moving_store. intros db l. specialize (Ha binding db l). unfold attempted.
    by destruct (admission binding db). }
  unfold activateIntentOnce, bindPreparedIntent, bindWith, createConversation, failBind,
    reportStorageFault, activateBoundIntent, pendingActivation, settleOrPropose, newIntent,
    Send.represented. moving_walk.
Qed.
End sending.

(** *** Certification *)

Section certifying.
Context `{!EnginePhases R}.
Context (Hpropose : forall i, moving (EngineRuntime.proposeIntent (R := R) i)).
Context (Hhead : forall c, moving (headAdvanced (R := R) c)).
#[local] Hint Resolve Hpropose Hhead : moving.

Lemma moving_verified {A} (o : option A) : moving (verified (R := R) o).
Proof. apply moving_ofOption. Qed.
Lemma moving_represented {A} (o : option A) : moving (Certification.Certification.represented (R := R) o).
Proof. apply moving_ofOption. Qed.
Hint Resolve moving_verified moving_represented : moving.
Lemma moving_gapFree c action : moving (gapFree (R := R) versions c action).
Proof. unfold gapFree, currentAnchorHash. moving_walk. Qed.
Lemma moving_mergeEvidence fold role message :
  moving (mergeEvidence (R := R) versions maximumEncodedBytes fold role message).
Proof. unfold mergeEvidence. moving_walk. Qed.
Hint Resolve moving_gapFree moving_mergeEvidence : moving.
Lemma moving_completeLocalEvidence fold role message :
  moving (completeLocalEvidence (R := R) versions maximumEncodedBytes input fold role message).
Proof. unfold completeLocalEvidence. moving_walk. Qed.
Hint Resolve moving_completeLocalEvidence : moving.
Lemma moving_localActionEvidence fold :
  moving (localActionEvidence (R := R) versions maximumEncodedBytes input fold).
Proof. unfold localActionEvidence, selectLocalActionEvidence, signLocalActionEvidence. moving_walk. Qed.
Lemma moving_localDurabilityEvidence fold :
  moving (localDurabilityEvidence (R := R) versions maximumEncodedBytes input fold).
Proof. unfold localDurabilityEvidence. moving_walk. Qed.
Hint Resolve moving_localActionEvidence moving_localDurabilityEvidence : moving.
Lemma moving_completePromotion fold record :
  moving (completePromotion (R := R) input fold record).
Proof. unfold completePromotion, applyPromotionState. moving_walk. Qed.
Lemma moving_rebasePendingIntents c : moving (rebasePendingIntents (R := R) c).
Proof. unfold rebasePendingIntents, reproposePendingIntent. moving_walk. Qed.
Lemma moving_certifiedRecordRows fold record votes :
  moving (certifiedRecordRows (R := R) versions maximumEncodedBytes input fold record votes).
Proof. unfold certifiedRecordRows. moving_walk. Qed.
Lemma moving_conversationIdOf fold : moving (Certification.Certification.conversationIdOf (R := R) fold).
Proof. unfold Certification.Certification.conversationIdOf. moving_walk. Qed.
Hint Resolve moving_completePromotion moving_rebasePendingIntents moving_certifiedRecordRows
  moving_conversationIdOf : moving.
Lemma moving_promote fold record :
  moving (promote (R := R) versions maximumEncodedBytes input fold record).
Proof. unfold promote. moving_walk. Qed.
Hint Resolve moving_promote : moving.
Lemma moving_maybePromote fold record :
  moving (maybePromote (R := R) versions maximumEncodedBytes input fold record).
Proof. unfold maybePromote. moving_walk. Qed.
Hint Resolve moving_maybePromote : moving.
Lemma moving_stageActionCertificate fold record :
  moving (stageActionCertificate (R := R) versions maximumEncodedBytes input fold record).
Proof. unfold stageActionCertificate. moving_walk. Qed.
Lemma moving_ownActionCertifiedRecord fold :
  moving (ownActionCertifiedRecord (R := R) versions fold).
Proof. unfold ownActionCertifiedRecord. moving_walk. Qed.
Hint Resolve moving_stageActionCertificate moving_ownActionCertifiedRecord : moving.
Lemma moving_maybeCertifyAction fold :
  moving (maybeCertifyAction (R := R) versions maximumEncodedBytes input fold).
Proof. unfold maybeCertifyAction. moving_walk. Qed.
Hint Resolve moving_maybeCertifyAction : moving.

Lemma durable_foldForIn r c action h (w : World R) : durable (foldForIn r c action h w).2 = durable w.
Proof. unfold foldForIn. by case_match. Qed.
Lemma moving_foldFor r action h : moving (foldFor (R := R) r action h).
Proof.
  unfold foldFor. apply moving_bind; [auto with moving|]. intros c. apply moving_syncWith.
  intros w. apply durable_foldForIn.
Qed.
Lemma moving_lockAction r action h : moving (lockAction (R := R) versions r action h).
Proof. unfold lockAction, proposalLock, genesisFoundation. moving_walk. Qed.
Hint Resolve moving_foldFor moving_lockAction : moving.
Lemma moving_acceptProposal ingress proposal :
  moving (acceptProposal (R := R) versions maximumEncodedBytes input ingress proposal).
Proof.
  unfold acceptProposal, prepareProposalFold, conversationForAction, newConversation. moving_walk.
Qed.
Lemma moving_acceptEvidence ingress message s :
  moving (acceptEvidence (R := R) versions maximumEncodedBytes input ingress message s).
Proof. unfold acceptEvidence, advanceEvidenceFold, advanceDurabilityFold. moving_walk. Qed.
Hint Resolve moving_acceptProposal moving_acceptEvidence : moving.

Lemma durable_foldl {A} (f : World R -> A -> World R) l w :
  (forall w a, durable (f w a) = durable w) -> durable (foldl f w l) = durable w.
Proof. intros Hf. revert w. induction l as [|a l IH]; intros w; simpl; [done|]. by rewrite IH. Qed.
Lemma durable_adoptCertificate r c action h signatures (w : World R) :
  durable (adoptCertificate r c action h signatures w) = durable w.
Proof.
  unfold adoptCertificate, dropFoldsAtPredecessor.
  match goal with |- context [foldForIn r c action h ?w] =>
    pose proof (durable_foldForIn r c action h w) as Hf; destruct (foldForIn r c action h w) as [a w1] end.
  simpl in Hf. rewrite durable_foldl by done. rewrite Hf. apply durable_foldl.
  intros w0 a0. by case_match.
Qed.
Lemma moving_supersedeLock r record :
  moving (supersedeLock (R := R) versions maximumEncodedBytes r record).
Proof.
  unfold supersedeLock, proposalLock. moving_walk. apply moving_sync. intros w.
  apply durable_adoptCertificate.
Qed.
Hint Resolve moving_supersedeLock : moving.
Lemma moving_prepareRecordFold ingress membership record :
  moving (prepareRecordFold (R := R) versions maximumEncodedBytes ingress membership record).
Proof.
  unfold prepareRecordFold, ensureConversation, newConversation, mergeActionCertificate. moving_walk.
Qed.
Hint Resolve moving_prepareRecordFold : moving.
Lemma moving_ingressMembership action :
  moving (ingressMembership (R := R) versions input action).
Proof. unfold ingressMembership. moving_walk. Qed.
Hint Resolve moving_ingressMembership : moving.
Lemma moving_acceptActionCertifiedRecord ingress record :
  moving (acceptActionCertifiedRecord (R := R) versions maximumEncodedBytes input ingress record).
Proof. unfold acceptActionCertifiedRecord, membershipForRecord. moving_walk. Qed.
Lemma moving_acceptCertifiedRecord ingress record :
  moving (acceptCertifiedRecord (R := R) versions maximumEncodedBytes input ingress record).
Proof.
  unfold acceptCertifiedRecord. moving_walk. apply moving_sync. intros w. by rewrite durable_foldl.
Qed.
Hint Resolve moving_acceptActionCertifiedRecord moving_acceptCertifiedRecord : moving.
Lemma moving_acceptEngineIngress ingress s :
  moving (acceptEngineIngress (R := R) versions maximumEncodedBytes input ingress s).
Proof.
  unfold acceptEngineIngress, Certification.Certification.ignoring,
    Certification.Certification.acceptPacket. moving_walk.
Qed.
Lemma moving_acceptEngineRecoveryIngress ingress :
  moving (acceptEngineRecoveryIngress (R := R) versions maximumEncodedBytes input ingress).
Proof. unfold acceptEngineRecoveryIngress, Certification.Certification.ignoring. moving_walk. Qed.
Lemma moving_resumeFold fold :
  moving (resumeFold (R := R) versions maximumEncodedBytes input fold).
Proof. unfold resumeFold. moving_walk. Qed.
Hint Resolve moving_resumeFold : moving.
Lemma moving_resumeEngineFolds c :
  moving (resumeEngineFolds (R := R) versions maximumEncodedBytes input c).
Proof. unfold resumeEngineFolds. moving_walk. Qed.
Lemma moving_resumeDissemination c :
  moving (resumeDisseminationObligations (R := R) versions maximumEncodedBytes input c).
Proof.
  unfold resumeDisseminationObligations, attachObligation, obligationFold, packetForObligation.
  moving_walk.
Qed.
End certifying.

(** *** The engine *)

Section starting.
Context `{!RecoveryPhase R}.
Context (Hrearm : forall c, moving (rearmCatchUp (R := R) c)).
Context (Hhead : forall c, moving (recoveryHeadAdvanced (R := R) c)).
#[local] Instance phases_i : EnginePhases R := sendPhases versions maximumEncodedBytes input.

Lemma moving_phases_propose i : moving (R := R) (EngineRuntime.proposeIntent i).
Proof. by apply moving_proposeIntent. Qed.
Hint Resolve moving_phases_propose : moving.

Lemma moving_initializeRuntime :
  moving (initializeRuntime (R := R) versions maximumEncodedBytes input).
Proof.
  unfold initializeRuntime, validateLocalIdentity, bindLocalIdentity, storeFailing, makeRuntime,
    hydratePostIntents, hydratePostIntent, newIntent. moving_walk.
Qed.
Lemma moving_resumeRuntime : moving (resumeRuntime (R := R) versions maximumEncodedBytes input).
Proof.
  unfold resumeRuntime, resumeFolds, resumeIntent, resumeIntentFailure. moving_walk.
  - apply moving_resumeDissemination.
  - by apply moving_resumeEngineFolds; auto with moving.
  - by apply moving_proposeIntent.
Qed.
Lemma moving_abandonVolatileFolds routerRestarted :
  moving (abandonVolatileFolds (R := R) routerRestarted).
Proof.
  unfold abandonVolatileFolds. moving_walk. apply moving_sync. intros w.
  by rewrite durable_foldl.
Qed.
Lemma moving_readPendingMessages : moving (readPendingMessages (R := R)).
Proof. unfold readPendingMessages, decodePending. moving_walk. Qed.
Lemma moving_acknowledgeMessage token : moving (acknowledgeMessage (R := R) token).
Proof. unfold acknowledgeMessage, storeFailing. moving_walk. Qed.
End starting.

End phases.
End EngineStore.

Module DurableRuns.
Import RecordSchemas Records StoreDatabase StoreAnchors EndpointStore StoreVotes StoreScopes.
Import EngineStore.

Section runs.
Context `{Base64Url} `{HostJson} `{Sha256} (identity : IdentityBinding).
(** The successor votes the endpoint holds at some moment: the head extended,
    the anchor and the action. *)
Context (F : string -> string -> string -> string -> Prop).

Definition leaves (db : Database) (c h a : string) : Prop :=
  leaving identity db c h a /\ forall act, ~ F c h a act.

(** What every run of the durable machine keeps from that moment on, of the
    store's rows and of the re-anchor votes signed so far. *)
Record sound (d : Durable) : Prop := {
  so_holds : holds identity F (fun _ _ _ => False) (dur_database d);
  so_scopes : scopes (dur_database d);
  so_rows : rowsLeave identity F (dur_database d);
  so_claimed : forall v s h b, ReanchorVote v s h b ∈ dur_signed d -> claimed (dur_database d)
    (rb_conversationId b) (rb_previousAnchorHash b) (rb_routerInstanceId b) h;
  so_leaving : forall v s h b, ReanchorVote v s h b ∈ dur_signed d ->
    leaves (dur_database d) (rb_conversationId b) (rb_selectedRecordHash b)
      (rb_previousAnchorHash b) \/ founding (dur_database d) (rb_conversationId b) h;
  so_hashes : forall v s h b, ReanchorVote v s h b ∈ dur_signed d -> hashes b h;
  so_once : forall v1 s1 h1 b1 v2 s2 h2 b2,
    ReanchorVote v1 s1 h1 b1 ∈ dur_signed d -> ReanchorVote v2 s2 h2 b2 ∈ dur_signed d ->
    rb_conversationId b1 = rb_conversationId b2 ->
    rb_previousAnchorHash b1 = rb_previousAnchorHash b2 ->
    rb_routerInstanceId b1 = rb_routerInstanceId b2 ->
    h1 = h2 \/ founding (dur_database d) (rb_conversationId b1) h1 \/
    founding (dur_database d) (rb_conversationId b1) h2;
}.

Lemma claimed_head db c p i h : scopes db -> claimed db c p i h -> headSome db c.
Proof. intros Hsc (row & Hrow & (<- & _) & _). by apply (sc_head _ Hsc). Qed.

Lemma sound_store operation db l :
  sound (mkDurable db l) -> sound (mkDurable (EndpointStore.perform operation db).2 l).
Proof.
  intros [Hh Hsc Hrl Hcl Hlv Hha Hon]. simpl in *.
  pose proof (perform_rows identity _ _ operation db Hh Hsc) as [Hsc' _ _ Hf].
  assert (forall v s h b h', ReanchorVote v s h b ∈ l -> founding db (rb_conversationId b) h' ->
    founding (EndpointStore.perform operation db).2 (rb_conversationId b) h') as Hfound.
  { intros v s h b h' Hin. apply Hf. by eapply claimed_head, Hcl. }
  constructor; simpl.
  - by apply perform_keeps.
  - done.
  - by eapply perform_rowsLeave.
  - intros v s h b Hin. eapply perform_claimed; eauto.
  - intros v s h b Hin. destruct (Hlv v s h b Hin) as [[Hl Hnot]|?]; [left|right; eauto].
    split; [by eapply leaving_persists|done].
  - done.
  - intros v1 s1 h1 b1 v2 s2 h2 b2 Hin1 Hin2 Hc Hp Hi.
    destruct (Hon _ _ _ _ _ _ _ _ Hin1 Hin2 Hc Hp Hi) as [?|[?|?]]; eauto.
Qed.

(** At the candidate's position its scope's earlier votes are for it. *)
Lemma held_once db c p i h r : scopes db -> claimed db c p i h ->
  r ∈ reanchors db -> inScope c p i r ->
  (exists q, conversation_state db !! c = Some q /\ ip_currentAnchorHash q = p) ->
  h = rowAnchor r \/ founding db c (rowAnchor r).
Proof.
  intros Hsc (row & Hrow & Hscope & Hor) Hr Hscope' (q & Hq & Hcur).
  assert (row = r) as ->.
  { apply (sc_one _ Hsc); [done..|]. unfold inScope, collides in *. split; [naive_solver|right].
    naive_solver. }
  destruct Hor as [->|[(q' & Hq' & _ & Hne & _)|Hf]]; [by left| |by right]. congruence.
Qed.

Lemma sound_sign s db l : signable db s -> sound (mkDurable db l) -> sound (mkDurable db (l ++ [s])).
Proof.
  intros Hs [Hh Hsc Hrl Hcl Hlv Hha Hon]. simpl in *.
  assert (forall v a h b, ReanchorVote v a h b ∈ (l ++ [s])%list ->
    ReanchorVote v a h b ∈ l \/ candidateHeld db h b /\ hashes b h) as Hcase.
  { intros v a h b [?|Heq%list_elem_of_singleton]%elem_of_app; [by left|right]. by subst s. }
  assert (forall h b, candidateHeld db h b ->
    claimed db (rb_conversationId b) (rb_previousAnchorHash b) (rb_routerInstanceId b) h /\
    (leaves db (rb_conversationId b) (rb_selectedRecordHash b) (rb_previousAnchorHash b) \/
     founding db (rb_conversationId b) h)) as Hheld.
  { intros h b [(r & Hr & Hscope & Ha & Hsel) (p & Hp & Hcur & _)]. split.
    - exists r. refine (conj Hr (conj Hscope (or_introl Ha))).
    - destruct Hscope as (Hc & Hprev & _). specialize (Hrl r Hr). unfold rowConversation, rowAnchor in Hrl.
      rewrite Hc, Hprev, Ha, Hsel in Hrl. destruct Hrl as [(q & Hq & _ & Hne & _)|[?|?]]; auto.
      congruence. }
  assert (forall v a h1 b1 h2 b2, ReanchorVote v a h1 b1 ∈ l -> candidateHeld db h2 b2 ->
    rb_conversationId b1 = rb_conversationId b2 ->
    rb_previousAnchorHash b1 = rb_previousAnchorHash b2 ->
    rb_routerInstanceId b1 = rb_routerInstanceId b2 ->
    h1 = h2 \/ founding db (rb_conversationId b2) h2) as Hnew.
  { intros v a h1 b1 h2 b2 Hin [(r & Hr & Hscope & Ha & _) (q & Hq & Hcur & _)] Hc Hp Hi.
    pose proof (Hcl _ _ _ _ Hin) as Hc1. rewrite Hc, Hp, Hi in Hc1. unfold rowAnchor in *.
    rewrite <- Ha. eapply held_once; eauto. }
  constructor; simpl; [done..| | | |].
  - intros v a h b [Hin|[Hheld' _]]%Hcase; [eauto|by apply Hheld].
  - intros v a h b [Hin|[Hheld' _]]%Hcase; [eauto|by apply Hheld].
  - intros v a h b [Hin|[_ ?]]%Hcase; [eauto|done].
  - intros v1 s1 h1 b1 v2 s2 h2 b2 Hin1 Hin2 Hc Hp Hi.
    apply elem_of_app in Hin1 as [Hin1|Hin1], Hin2 as [Hin2|Hin2]; [by eauto| | |].
    + apply list_elem_of_singleton in Hin2 as <-. destruct Hs as [Hs _]. rewrite Hc.
      destruct (Hnew _ _ _ _ _ _ Hin1 Hs Hc Hp Hi); auto.
    + apply list_elem_of_singleton in Hin1 as <-. destruct Hs as [Hs _].
      destruct (Hnew _ _ _ _ _ _ Hin2 Hs (eq_sym Hc) (eq_sym Hp) (eq_sym Hi)); auto.
    + apply list_elem_of_singleton in Hin1, Hin2. left. congruence.
Qed.

Lemma sound_run d d' : rtc durableStep d d' -> sound d -> sound d'.
Proof.
  induction 1 as [|d1 d2 d3 Hstep _ IH]; [done|]. intros Hs. apply IH.
  destruct Hstep; [by apply sound_store|by apply sound_sign].
Qed.

(** The store's part of a run is a history of its operations. *)
Lemma durable_operations d d' : rtc durableStep d d' ->
  exists operations, dur_database d' = runOperations operations (dur_database d).
Proof.
  induction 1 as [|d1 d2 d3 Hstep _ [ops IH]]; [by exists []|].
  destruct Hstep as [operation db l|]; [|by exists ops]. exists (operation :: ops). done.
Qed.
Lemma durable_grows d d' : rtc durableStep d d' -> dur_signed d `prefix_of` dur_signed d'.
Proof.
  induction 1 as [|d1 d2 d3 Hstep _ IH]; [done|]. etrans; [|exact IH].
  destruct Hstep; simpl; [done|by eexists].
Qed.

End runs.

Section moments.
Context `{Base64Url} `{HostJson} `{Sha256} (identity : IdentityBinding).

(** No vote is held before the store has one. *)
Definition unvoted (_ _ _ _ : string) : Prop := False.

Lemma sound_bound : sound identity unvoted (mkDurable (boundStore identity) []).
Proof.
  constructor; simpl; try (intros; match goal with Hin : _ ∈ [] |- _ => by apply not_elem_of_nil in Hin end).
  - apply holds_bound.
  - apply scopes_bound.
  - apply rowsLeave_bound.
Qed.

(** From any moment on, what the store's votes of that moment speak for. *)
Lemma sound_later F d : sound identity F d -> sound identity (votedIn identity (dur_database d)) d.
Proof.
  intros [Hh Hsc Hrl Hcl Hlv Hha Hon].
  assert (forall c h a act, leaving identity (dur_database d) c h a ->
    ~ votedIn identity (dur_database d) c h a act) as Hnot.
  { intros c h a act (_ & _ & Hno) (rh & r & Hv & Hp & Ha & _). by eapply Hno. }
  constructor; [by eapply holds_more|done| |done| |done..].
  - intros row Hrow. destruct (Hrl row Hrow) as [?|[?|[? _]]]; [auto..|]. right; right. eauto.
  - intros v s h b Hin. destruct (Hlv v s h b Hin) as [[? _]|?]; [left; split; eauto|auto].
Qed.
End moments.
End DurableRuns.
