(* ===== verification/RecoverySteps.v ===== *)
(** RecoverySteps: recovery, too, changes what survives a crash only by store
    operations and by signing, and signs a re-anchor vote only while the vote's
    candidate is staged at the conversation's position. *)
From S2P Require Import Prelude JsMap Identifiers CollectivePart Json Address SignedMessages.
From S2P Require Import SealedBody RecordSchemas Records OuterBody StoredHistory StoreDatabase.
From S2P Require Import StoreQueues StoreRecords StoreAnchors EndpointStore StoreVotes StoreRecovery.
From S2P Require Import EngineRuntime HistoryBuild Outbox Send Certification Startup Engine.
From S2P Require Import EngineQuiet EngineStore RecoveryState CatchUp Reanchor Recovery.

Module RecoverySteps.
Import EngineKeeps RecordSchemas Records OuterBody StoreDatabase StoreRows StoreQueues StoreRecords.
Import StoreAnchors.
Import EndpointStore StoreRecovery EngineRuntime HistoryBuild Outbox Fences Certification.
Import Startup EngineStore RecoveryState ReanchorVotes CatchUpRequests CatchUp EmptyRestart Reanchor.
Import Successor Recovery.

Section steps.
Context `{Base64Url} `{HostJson} `{Jose} `{Sha256} `{JoseEncryption} `{!EngineHost} `{!SendHost}.
Context `{!RowOrder} (versions : option Wire.WireVersions) (maximumEncodedBytes : Z).
Context (input : EndpointEngineInput).

(** ** The state of a run *)

Lemma moving_runAt r : moving (runAt r).
Proof. unfold runAt. moving_walk. Qed.
Lemma moving_currentRun : moving currentRun.
Proof. unfold currentRun. moving_walk. apply moving_runAt. Qed.
Lemma moving_successorAt p : moving (successorAt p).
Proof. unfold successorAt. moving_walk. Qed.
Lemma moving_recoverOne c : moving (recoverOne c).
Proof. unfold recoverOne. moving_walk. Qed.
Lemma moving_represented' {A} (o : option A) : moving (ReanchorVotes.represented o).
Proof. apply moving_ofOption. Qed.
Hint Resolve moving_runAt moving_currentRun moving_successorAt moving_recoverOne
  moving_represented' : moving.
Hint Resolve moving_conversationAt moving_foldAt moving_intentAt moving_draw moving_evidenceTarget
  moving_push moving_sign moving_enqueueSigned moving_queueBody moving_storeEvidence
  moving_stageReanchor moving_completeReanchor moving_applyCatchUpReanchor
  moving_restartEmptyConversation moving_discardOutbound moving_completeRecoveryBarrier
  moving_fenceConversation moving_releaseConversation moving_verified : moving.
Hint Extern 1 (moving (signEvidence _ _ _ _)) =>
  (apply moving_signEvidence; intros ?; exact I) : moving.

Lemma moving_onCatchUp {A} r (f : CatchUpState -> A * CatchUpState) : moving (onCatchUp r f).
Proof. unfold onCatchUp. moving_walk. Qed.
Lemma moving_ignoring m : moving m -> moving (ignoring m).
Proof. unfold ignoring. moving_walk. Qed.
Lemma moving_queueRecoveryEnvelope membership body :
  moving (queueRecoveryEnvelope versions maximumEncodedBytes input membership body).
Proof. unfold queueRecoveryEnvelope. moving_walk. Qed.
Hint Resolve moving_onCatchUp moving_queueRecoveryEnvelope : moving.
Ltac walk := repeat first [progress moving_walk | apply moving_ignoring].

(** ** Asking *)

Lemma moving_durablePosition c : moving (durablePosition c).
Proof. unfold durablePosition. moving_walk. Qed.
Hint Resolve moving_durablePosition : moving.
Lemma moving_queueCatchUpRequest r c held :
  moving (queueCatchUpRequest versions maximumEncodedBytes input r c held).
Proof.
  unfold queueCatchUpRequest, requestMatchesCurrentPosition, makeCatchUpRequest,
    decodeKnownRecordHash, decodeKnownAnchorHash. moving_walk.
Qed.
Hint Resolve moving_queueCatchUpRequest : moving.
Lemma moving_armCatchUp r c : moving (armCatchUp versions maximumEncodedBytes input r c).
Proof. unfold armCatchUp, requestCertifiedHistory. moving_walk. Qed.
Hint Resolve moving_armCatchUp : moving.
Lemma moving_rearmIfPaused c : moving (rearmIfPaused versions maximumEncodedBytes input c).
Proof. unfold rearmIfPaused. moving_walk. Qed.
Lemma moving_rearmPausedCatchUp c : moving (rearmPausedCatchUp c).
Proof. unfold rearmPausedCatchUp. moving_walk. Qed.
Lemma moving_recoveryHeadAdvanced c :
  moving (CatchUpRequests.recoveryHeadAdvanced versions maximumEncodedBytes input c).
Proof. unfold CatchUpRequests.recoveryHeadAdvanced. moving_walk. Qed.
Hint Resolve moving_rearmIfPaused moving_rearmPausedCatchUp moving_recoveryHeadAdvanced : moving.

#[local] Instance recovery_i : RecoveryPhase Recovery :=
  recoveryPhase versions maximumEncodedBytes input.
#[local] Instance phases_i : EnginePhases Recovery := sendPhases versions maximumEncodedBytes input.

Lemma moving_phase_rearm c : moving (rearmCatchUp (R := Recovery) c).
Proof. apply moving_rearmPausedCatchUp. Qed.
Lemma moving_phase_head c : moving (headAdvanced (R := Recovery) c).
Proof. apply moving_recoveryHeadAdvanced. Qed.
Lemma moving_phase_propose i : moving (EngineRuntime.proposeIntent (R := Recovery) i).
Proof. apply moving_proposeIntent. Qed.
Hint Resolve moving_phase_rearm moving_phase_head moving_phase_propose : moving.

Lemma moving_ingress ingress s :
  moving (R := Recovery) (Certification.Certification.acceptEngineIngress versions
    maximumEncodedBytes input ingress s).
Proof. apply moving_acceptEngineIngress; auto with moving. Qed.
Lemma moving_recoveryIngress ingress :
  moving (R := Recovery) (Certification.Certification.acceptEngineRecoveryIngress versions
    maximumEncodedBytes input ingress).
Proof. apply moving_acceptEngineRecoveryIngress; auto with moving. Qed.
Hint Resolve moving_ingress moving_recoveryIngress : moving.

(** ** Answering and taking answers *)

Lemma moving_respondToCatchUp membership request instance :
  moving (respondToCatchUp versions maximumEncodedBytes input membership request instance).
Proof.
  unfold respondToCatchUp, sendCatchUpPage, queueStagedSuccessor, sendCatchUpIncomplete,
    signCatchUpAttestation. moving_walk.
Qed.
Hint Resolve moving_respondToCatchUp : moving.
Lemma moving_acceptCatchUpRequest ingress request :
  moving (acceptCatchUpRequest versions maximumEncodedBytes input ingress request).
Proof. unfold acceptCatchUpRequest, responderMembership. walk. Qed.
Lemma moving_pendingCatchUpContext r request sender :
  moving (pendingCatchUpContext input r request sender).
Proof. unfold pendingCatchUpContext. walk. Qed.
Lemma moving_taken write : moving write -> moving (taken write).
Proof. unfold taken. walk. Qed.
Lemma durable_dropFolds dropped (w : World) : durable (dropFolds dropped w) = durable w.
Proof. apply durable_foldl. intros w0 entry. simpl. by case_match. Qed.
Lemma durable_adoptCompletedReanchor completed w :
  durable (adoptCompletedReanchor completed w) = durable w.
Proof. unfold adoptCompletedReanchor. rewrite durable_dropFolds. by case_match. Qed.
Hint Resolve moving_pendingCatchUpContext : moving.
Hint Extern 1 (moving (sync (adoptCompletedReanchor _))) =>
  (apply moving_sync, durable_adoptCompletedReanchor) : moving.
Lemma moving_applyCompletedReanchor completed :
  moving (applyCompletedReanchor versions completed).
Proof.
  apply moving_taken. unfold storeAndAdoptReanchor, completedRow. walk.
Qed.
Lemma moving_persistCompletedReanchor completed :
  moving (persistCompletedReanchor versions completed).
Proof. unfold persistCompletedReanchor, storeAndAdoptReanchor, completedRow. walk. Qed.
Hint Resolve moving_applyCompletedReanchor moving_persistCompletedReanchor : moving.
Lemma moving_acceptCatchUpPage r ingress page :
  moving (acceptCatchUpPage versions maximumEncodedBytes input r ingress page).
Proof. unfold acceptCatchUpPage, applyCatchUpPage, continueAfterPage, requestCertifiedHistory. walk. Qed.
Lemma moving_acceptCatchUpIncomplete onReady r ingress incomplete :
  (forall r c, moving (onReady r c)) ->
  moving (acceptCatchUpIncomplete versions maximumEncodedBytes input onReady r ingress incomplete).
Proof. intros Hready. unfold acceptCatchUpIncomplete. walk. Qed.
Lemma moving_waitBehindEarlierReanchor r vote m :
  moving m -> moving (waitBehindEarlierReanchor r vote m).
Proof. intros Hm. unfold waitBehindEarlierReanchor. walk. Qed.

(** ** Successors *)

Lemma moving_pendingFor r c position : moving (pendingFor r c position).
Proof. unfold pendingFor. walk. Qed.
Lemma moving_conversationOf c : moving (conversationOf c).
Proof. unfold conversationOf. walk. Qed.
Hint Resolve moving_pendingFor moving_conversationOf : moving.
Lemma moving_headExtendedBy r action : moving (headExtendedBy r action).
Proof. unfold headExtendedBy. walk. Qed.
Lemma moving_maybeConvert r membership :
  moving (maybeConvert versions maximumEncodedBytes input r membership).
Proof. unfold maybeConvert. walk. Qed.
Hint Resolve moving_headExtendedBy moving_maybeConvert : moving.
Lemma moving_holdTowardConversion r membership b hold :
  moving (sync hold) ->
  moving (holdTowardConversion versions maximumEncodedBytes input r membership b hold).
Proof. unfold holdTowardConversion. walk. Qed.
Lemma moving_acceptSuccessorRecord r ingress record :
  moving (acceptSuccessorRecord versions maximumEncodedBytes input r ingress record).
Proof.
  unfold acceptSuccessorRecord. walk. apply moving_holdTowardConversion. by apply moving_sync.
Qed.
Lemma moving_acceptSuccessorVote r ingress message s c recordHash signer :
  moving (acceptSuccessorVote versions maximumEncodedBytes input r ingress message s c recordHash signer).
Proof.
  unfold acceptSuccessorVote, acceptStagedSuccessorVote. walk. apply moving_holdTowardConversion.
  by apply moving_sync.
Qed.
Hint Resolve moving_acceptSuccessorRecord moving_acceptSuccessorVote moving_acceptCatchUpRequest
  moving_acceptCatchUpPage : moving.

(** ** Re-anchors *)

(** What reads the database leaves what it shows. *)
Lemma drives_reads {A} (P : Database -> Prop) (m : Engine A) :
  moving m -> keeps database m ->
  drives (fun w => P (database w)) m (fun _ w => P (database w)).
Proof.
  intros Hm Hk masked patience w Hp. specialize (Hm masked patience w I).
  specialize (Hk masked patience w). destruct (m masked patience w) as [[o p] w'].
  simpl in Hk. rewrite Hk. naive_solver.
Qed.
Lemma keeps_recover only : keeps (R := Recovery) database (store (recover only)).
Proof.
  intros masked patience w. unfold store. pose proof (recover_reads only (database w)).
  by destruct (recover only (database w)) as [[] db].
Qed.
Hint Resolve keeps_recover : keeps.
Lemma keeps_runAt r : keeps database (runAt r).
Proof. unfold runAt. keep. Qed.
Lemma keeps_recoverOne c : keeps database (recoverOne c).
Proof. unfold recoverOne. keep. Qed.
Hint Resolve keeps_runAt keeps_recoverOne : keeps.
Lemma keeps_decodeReanchorVotes membership body h :
  keeps database
    (decodeReanchorVotes versions maximumEncodedBytes membership body h).
Proof. unfold decodeReanchorVotes, ReanchorVotes.represented. keep. Qed.
Lemma moving_decodeReanchorVotes membership body h :
  moving (decodeReanchorVotes versions maximumEncodedBytes membership body h).
Proof. unfold decodeReanchorVotes. walk. Qed.
Hint Resolve moving_decodeReanchorVotes : moving.

(** *** Staging *)

(** The durable position of a conversation. *)
Definition positioned (db : Database) (position : ConversationPosition) : Prop :=
  exists p, conversation_state db !! po_conversationId position = Some p /\
    ip_currentAnchorHash p = po_currentAnchorHash position /\
    ip_headRecordHash p = po_headRecordHash position.

Lemma recover_positions only db stored db' :
  recover only db = (Succeed stored, db') -> db' = db /\
  forall position, position ∈ positions (st_history stored) -> positioned db position.
Proof.
  intros Hrec. pose proof (recover_reads only db) as Hdb. rewrite Hrec in Hdb. simpl in Hdb. subst db'.
  split; [done|]. unfold recover in Hrec.
  match type of Hrec with transaction ?m _ = _ =>
    destruct (transaction_cases m db) as [(a & d & Hok & Ht)|(e & _ & Ht)];
      rewrite Ht in Hrec; simplify_eq end.
  unfold recoverStoredState in Hok. tx. simpl.
  intros position (row & -> & Hin%orderBy_elem%ofConversation_sub)%list_elem_of_fmap.
  destruct row as [c p]. apply elem_of_map_to_list in Hin. by exists p.
Qed.

Lemma drives_recoverOne c P :
  drives (fun w => P (database w)) (recoverOne c) (fun stored w => P (database w) /\
    forall position, position ∈ positions (st_history stored) -> positioned (database w) position).
Proof.
  apply drives_mapError. intros masked patience w Hp. unfold store.
  destruct (recover (Some c) (database w)) as [[stored|e] db] eqn:Hrec; simpl.
  - apply recover_positions in Hrec as [-> Hpos]. split; [done|]. by intros ? [= <-].
  - pose proof (recover_reads (Some c) (database w)) as Hdb. rewrite Hrec in Hdb. simpl in Hdb.
    subst db. by split.
Qed.

Lemma drives_durablePosition c P :
  drives (fun w => P (database w)) (durablePosition c) (fun found w => P (database w) /\
    forall position, found.2 = Some position -> po_conversationId position = c /\
      positioned (database w) position).
Proof.
  eapply drives_bind; [apply drives_recoverOne|]. intros stored. apply drives_ret. intros w [Hp Hpos].
  split; [done|]. simpl. unfold findFirst. intros position [Hin%list_elem_of_In Hc]%find_some.
  apply bool_decide_eq_true in Hc. auto.
Qed.

Lemma stageReanchor_held staged db m db' position :
  stageReanchor staged db = (Succeed m, db') ->
  positioned db position -> po_conversationId position = ra_conversationId staged ->
  ra_previousAnchorHash staged = po_currentAnchorHash position ->
  Some (ra_selectedRecordHash staged) = po_headRecordHash position ->
  (exists r, r ∈ reanchors db' /\ rr_staged r = staged) /\
  exists p, conversation_state db' !! ra_conversationId staged = Some p /\
    ip_currentAnchorHash p = ra_previousAnchorHash staged /\
    ip_headRecordHash p = Some (ra_selectedRecordHash staged).
Proof.
  unfold stageReanchor. intros Hrun (p & Hp & Ha & Hh) Hc Hprev Hsel. rewrite Hc in Hp.
  match type of Hrun with transaction ?m _ = _ =>
    destruct (transaction_cases m db) as [(x & d & Hop & Ht)|(e & _ & Ht)];
      rewrite Ht in Hrun; simplify_eq end.
  unfold validateStagedReanchor, requireText, requireBytes, stageReanchorInTransaction,
    requireUnclaimedReanchorScope, requireNoStagedSuccessor, insert_reanchor, constraint in Hop.
  cbn match in Hop. tx. case_match eqn:Hf; tx.
  - match goal with H : requireSameReanchor _ _ _ = _ |- _ =>
      apply StoreVotes.requireSameReanchor_ok in H as [-> ->] end.
    apply StoreVotes.findStagedReanchor_some in Hf as (row & ? & ? & _).
    split; [by exists row|]. exists p. by rewrite Ha, Hh, Hprev, Hsel.
  - match goal with H : requireReanchorPosition _ _ = _ |- _ =>
      apply StoreVotes.requireReanchorPosition_ok in H as (-> & _) end.
    split; [exists (mkRecoveredReanchor staged None); simpl; set_solver|].
    exists p. by rewrite Ha, Hh, Hprev, Hsel.
Qed.

Definition heldFor (h : string) (body : ReanchorBody) (w : World) : Prop :=
  candidateHeld (database w) h body.

Lemma drives_persistReanchorCandidate body h position :
  po_conversationId position = rb_conversationId body ->
  rb_previousAnchorHash body = po_currentAnchorHash position ->
  Some (rb_selectedRecordHash body) = po_headRecordHash position ->
  drives (fun w => positioned (database w) position)
    (persistReanchorCandidate versions body h) (fun staged w => staged = true -> heldFor h body w).
Proof.
  intros Hc Hprev Hsel. unfold persistReanchorCandidate, taken. apply drives_mapError, drives_catch.
  - eapply (drives_bind _ _ _ (fun _ => heldFor h body)); [|intros []; by apply drives_ret].
    eapply drives_bind; [apply (drives_reads (fun db => positioned db position));
      [auto with moving|unfold ReanchorVotes.represented; keep]|]. intros canonical.
    eapply (drives_bind _ _ _ (fun _ => heldFor h body)); [|intros m; by apply drives_ret].
    intros masked patience w Hpos. unfold store.
    match goal with |- context [stageReanchor ?s ?d] => set (staged := s);
      destruct (stageReanchor staged d) as [[m|e] db'] eqn:Hstage end;
      (split; [eapply (one_store (StageReanchor staged)); simpl; by rewrite Hstage|]); [|done].
    intros ? [= <-]. unfold heldFor, candidateHeld. simpl.
    destruct (stageReanchor_held _ _ _ _ position Hstage Hpos) as [(r & Hr & Hs) Hp]; [done..|].
    split; [|done]. exists r. unfold inScope. by rewrite Hs.
  - intros e k Hk. destruct e; simplify_eq. case_match; [by apply drives_ret|apply drives_fail].
Qed.

Lemma drives_stageReanchorCandidate r membership body h :
  drives (fun _ => True) (stageReanchorCandidate versions r membership body h)
    (fun staged w => staged = true -> heldFor h body w).
Proof.
  unfold stageReanchorCandidate.
  eapply drives_bind; [apply (drives_durablePosition _ (fun _ => True))|]. intros [recovery position].
  eapply drives_bind.
  { eapply drives_weaken; [apply (drives_reads (fun db => forall p, position = Some p ->
      po_conversationId p = rb_conversationId body /\ positioned db p)); [|apply keeps_gets]|..].
    - auto with moving.
    - by intros w [_ Hpos].
    - intros active w Hpos. exact Hpos. }
  intros active. eapply drives_bind.
  { apply (drives_reads (fun db => forall p, position = Some p ->
      po_conversationId p = rb_conversationId body /\ positioned db p)); auto with moving keeps. }
  intros run. destruct position as [position|]; [|by apply drives_ret].
  case_match eqn:Hmatch; [by apply drives_ret|]. case_match; [by apply drives_ret|].
  unfold candidateMatchesPosition in Hmatch. apply orb_false_iff in Hmatch as [_ Hmatch].
  apply negb_false_iff in Hmatch. guards.
  assert (drives (fun w => forall p, Some position = Some p ->
      po_conversationId p = rb_conversationId body /\ positioned (database w) p)
    (persistReanchorCandidate versions body h) (fun staged w => staged = true -> heldFor h body w))
    as Hpersist.
  { intros masked patience w Hpos. destruct (Hpos position eq_refl) as [Hc Hp].
    by eapply (drives_persistReanchorCandidate body h position). }
  case_match; [|done]. case_match; [by apply drives_ret|done].
Qed.
(** *** Voting *)

(** The rows a candidate and its position are read from. *)
Definition candidateRows (w : World) : list RecoveredReanchor * gmap string InternalPosition :=
  (reanchors (database w), conversation_state (database w)).

Lemma drives_held {A} h body (m : Engine A) : moving m -> keeps candidateRows m ->
  drives (heldFor h body) m (fun _ => heldFor h body).
Proof.
  intros Hm Hk masked patience w Hp. specialize (Hm masked patience w I).
  specialize (Hk masked patience w). destruct (m masked patience w) as [[o p] w'].
  destruct Hm as [Hrun _]. split; [done|]. intros a _. unfold candidateRows in Hk. simpl in Hk.
  injection Hk as Hr Hs. unfold heldFor, candidateHeld. by rewrite Hr, Hs.
Qed.

Lemma keeps_database {X A} (obs : World -> X) (f : Database -> X) (m : Engine A) :
  (forall w, obs w = f (database w)) -> keeps database m -> keeps obs m.
Proof. intros Hf Hk masked patience w. by rewrite !Hf, (Hk masked patience w). Qed.

Lemma keeps_mergeEvidence e : keeps (R := Recovery) candidateRows (store (StoreRecords.mergeEvidence e)).
Proof.
  intros masked patience w. unfold store.
  set (sameRows (d d' : Database) :=
    reanchors d' = reanchors d /\ conversation_state d' = conversation_state d).
  assert (PreOrder sameRows) as Hpre.
  { split; [by intros ?|]. intros ??? [] []. split; congruence. }
  assert (moves sameRows (insert_evidence e)) as Hinsert.
  { unfold insert_evidence, constraint. follow. by apply moves_modify. }
  assert (moves eq (validateEvidence e)) as Hvalid by apply StoreReads.reads_validate_evidence.
  assert (sameRows (database w) (failure (StoreRecords.mergeEvidence e (database w))).2) as [Hr Hs].
  { apply (perform_transaction sameRows).
    unfold mergeEvidenceInTransaction, requireEvidenceSubject, requireMembership,
      requireLocalEvidenceLock, requireLocalDurabilityEvidenceLock, requireNoReanchorAwayFrom,
      requireSameBytes, requireEqual. follow. }
  simpl in Hr, Hs. destruct (StoreRecords.mergeEvidence e (database w)) as [[] db'];
    unfold candidateRows; simpl in *; by rewrite Hr, Hs.
Qed.
Hint Resolve keeps_mergeEvidence : keeps.

Lemma keeps_persistReanchorVote vote :
  keeps candidateRows (persistReanchorVote versions maximumEncodedBytes vote).
Proof. unfold persistReanchorVote, taken. keep. Qed.
Lemma moving_persistReanchorVote vote :
  moving (persistReanchorVote versions maximumEncodedBytes vote).
Proof. apply moving_taken. walk. Qed.
Hint Resolve moving_persistReanchorVote : moving.
Lemma moving_rememberReanchorVote r vote : moving (rememberReanchorVote r vote).
Proof. unfold rememberReanchorVote. walk. Qed.
Hint Resolve moving_rememberReanchorVote : moving.

Lemma drives_createLocalReanchorVote r membership body h : hashes body h ->
  drives (heldFor h body)
    (createLocalReanchorVote versions maximumEncodedBytes input r membership body h) (fun _ _ => True).
Proof.
  intros Hh. unfold createLocalReanchorVote. eapply (drives_bind _ _ _ (fun _ _ => True)).
  - apply drives_signEvidence; [|done]. intros w Hw. by split.
  - intros message. apply drives_moving. walk.
Qed.

Lemma drives_ensureLocalReanchorVote r membership body h : hashes body h ->
  drives (heldFor h body)
    (ensureLocalReanchorVote versions maximumEncodedBytes input r membership body h) (fun _ _ => True).
Proof.
  intros Hh. unfold ensureLocalReanchorVote.
  eapply drives_bind; [apply drives_held; auto with moving keeps|]. intros active.
  case_match; [by apply drives_ret|].
  eapply drives_bind.
  { apply drives_held; [auto with moving|].
    by eapply (keeps_database _ (fun db => (reanchors db, conversation_state db)));
      [|apply keeps_decodeReanchorVotes]. }
  intros stored. case_match; [|by apply drives_createLocalReanchorVote].
  apply drives_moving. walk.
Qed.

(** A value that a computation hashes. *)
Lemma moving_hashed {B} (o : option string) (k : string -> Engine B) :
  (forall h, o = Some h -> moving (k h)) -> moving (ReanchorVotes.represented o ≫= k).
Proof.
  intros Hk. eapply (drives_bind _ _ _ (fun h _ => o = Some h)).
  - destruct o; [by apply drives_ret|apply drives_fail].
  - intros h masked patience w Hh. by apply (Hk h Hh masked patience w).
Qed.

Section marking.
Context (markRecovered : Ref -> string -> Engine unit).
Context (Hmark : forall r c, moving (markRecovered r c)).
#[local] Hint Resolve Hmark : moving.

Lemma moving_completeReanchorAtThreshold r membership body h :
  moving (completeReanchorAtThreshold versions maximumEncodedBytes input markRecovered r membership
    body h).
Proof.
  unfold completeReanchorAtThreshold, isRecovered, assembleCompletedReanchor,
    finalizeCompletedReanchor. walk.
Qed.
Hint Resolve moving_completeReanchorAtThreshold : moving.

Lemma drives_voteAndComplete r membership body h : hashes body h ->
  drives (heldFor h body)
    (voteAndComplete versions maximumEncodedBytes input markRecovered r membership body h)
    (fun _ _ => True).
Proof.
  intros Hh. unfold voteAndComplete. eapply drives_bind; [by apply drives_ensureLocalReanchorVote|].
  intros ?. apply drives_moving. walk.
Qed.

Lemma moving_certifyReanchorVote r membership vote :
  hashes (rv_reanchor vote) (rv_anchorHash vote) ->
  moving (certifyReanchorVote versions maximumEncodedBytes input markRecovered r membership vote).
Proof.
  intros Hh. unfold certifyReanchorVote.
  eapply drives_bind; [apply drives_stageReanchorCandidate|]. intros staged.
  destruct staged.
  - eapply (drives_bind _ _ _ (fun _ => heldFor (rv_anchorHash vote) (rv_reanchor vote))).
    + eapply drives_weaken; [apply drives_held; [apply moving_persistReanchorVote|apply
        keeps_persistReanchorVote]|naive_solver..].
    + intros counts. destruct counts; [|by apply drives_ret].
      eapply drives_bind; [by apply drives_voteAndComplete|]. intros ?. by apply drives_ret.
  - eapply (drives_bind _ _ _ (fun counts _ => counts = false)); [by apply drives_ret|].
    intros []; [by intros masked patience w [=]|by apply drives_ret].
Qed.

Lemma moving_proposeReanchorCandidate r membership body h : hashes body h ->
  moving (proposeReanchorCandidate versions maximumEncodedBytes input markRecovered r membership body h).
Proof.
  intros Hh. unfold proposeReanchorCandidate.
  eapply drives_bind; [apply drives_stageReanchorCandidate|]. intros staged.
  destruct staged; [|by apply drives_ret].
  eapply drives_weaken; [by apply drives_voteAndComplete|naive_solver|done].
Qed.

Lemma moving_processReadyReanchorVote r membership vote :
  hashes (rv_reanchor vote) (rv_anchorHash vote) ->
  moving (processReadyReanchorVote versions maximumEncodedBytes input markRecovered r membership vote).
Proof.
  intros Hh. pose proof (moving_certifyReanchorVote r membership vote Hh) as Hcertify.
  unfold processReadyReanchorVote, reconcileCandidatePosition, selectedHeadAction,
    previousAnchorAction, headIsResolved, anchorIsResolved, resolved, requestCertifiedHistory. walk.
Qed.

Lemma moving_processReanchorVote r membership vote :
  moving (processReanchorVote versions maximumEncodedBytes input markRecovered r membership vote).
Proof.
  unfold processReanchorVote. do 3 (apply moving_bind; [auto with moving|intros ?]).
  case_match; [auto with moving|].
  apply (moving_hashed (hashAnchor versions (AnchorReanchor (rv_reanchor vote)))). intros h Hh.
  case_decide as Hne; [auto with moving|]. subst h.
  pose proof (moving_processReadyReanchorVote r membership vote Hh) as Hready. walk.
Qed.
Hint Resolve moving_processReanchorVote : moving.

Lemma moving_acceptReanchorVote r ingress message s :
  moving (acceptReanchorVote versions maximumEncodedBytes input markRecovered r ingress message s).
Proof. unfold acceptReanchorVote. walk. Qed.

(** *** A ready position *)

Lemma moving_proposeReanchor r membership position :
  moving (proposeReanchor versions maximumEncodedBytes input markRecovered r membership position).
Proof.
  unfold proposeReanchor, makeReanchorBody. do 2 (apply moving_bind; [auto with moving|intros ?]).
  case_match; [auto with moving|]. case_match; [|auto with moving]. case_match; [auto with moving|].
  apply moving_bind; [walk|]. intros body.
  apply (moving_hashed (hashAnchor versions (AnchorReanchor body))). intros h Hh.
  by apply moving_proposeReanchorCandidate.
Qed.
Hint Resolve moving_proposeReanchor : moving.
Lemma moving_replayReanchorVotes r membership c head :
  moving (replayReanchorVotes versions maximumEncodedBytes input markRecovered r membership c head).
Proof. unfold replayReanchorVotes, replayCandidateVotes. walk. Qed.
Lemma moving_finishAnchoredPosition r membership :
  moving (finishAnchoredPosition versions maximumEncodedBytes input markRecovered r membership).
Proof. unfold finishAnchoredPosition. walk. Qed.
Lemma moving_queueStagedSuccessor membership staged :
  moving (queueStagedSuccessor versions maximumEncodedBytes input membership staged).
Proof. unfold queueStagedSuccessor. walk. Qed.
Hint Resolve moving_replayReanchorVotes moving_finishAnchoredPosition moving_queueStagedSuccessor : moving.

Lemma durable_resetEmptyConversationRuntime c anchor postIntents (w : World) :
  durable (resetEmptyConversationRuntime c anchor postIntents w) = durable w.
Proof.
  unfold resetEmptyConversationRuntime, clearIntentProposals. rewrite durable_foldl.
  - unfold discardConversationFolds, replaceRuntimeAnchor. by case_match.
  - intros w0 stored. by case_match.
Qed.
Hint Extern 1 (moving (sync (resetEmptyConversationRuntime _ _ _))) =>
  (apply moving_sync; intros ?; apply durable_resetEmptyConversationRuntime) : moving.
Lemma moving_restartEmptyPosition instance membership recovery position :
  moving (restartEmptyPosition versions instance membership recovery position).
Proof. unfold restartEmptyPosition. walk. Qed.
Hint Resolve moving_restartEmptyPosition : moving.
Lemma moving_reanchorPositionReady r membership :
  moving (Reanchor.Reanchor.positionReady versions maximumEncodedBytes input markRecovered r membership).
Proof.
  unfold Reanchor.Reanchor.positionReady, finishRestartedPosition, advanceRestartedPosition,
    isRecovered. walk.
Qed.
End marking.

Lemma moving_acceptCompletedReanchor r ingress completed :
  moving (acceptCompletedReanchor versions maximumEncodedBytes input r ingress completed).
Proof. unfold acceptCompletedReanchor, requestCertifiedHistory. walk. Qed.
Hint Resolve moving_acceptCompletedReanchor : moving.

(** ** Runs *)

Lemma moving_endRun : moving endRun.
Proof. unfold endRun. walk. Qed.
Hint Resolve moving_endRun : moving.
Lemma moving_endRunOnceRecovered r : moving (endRunOnceRecovered r).
Proof. unfold endRunOnceRecovered. walk. Qed.
Lemma moving_resume ids : moving (R := Recovery) (Outbox.Outbox.resume ids).
Proof. apply moving_push. Qed.
Lemma moving_propose i :
  moving (R := Recovery) (Send.Send.proposeIntent versions maximumEncodedBytes input i).
Proof. apply moving_proposeIntent. Qed.
Lemma moving_resumeFolds c :
  moving (R := Recovery) (Certification.Certification.resumeEngineFolds versions maximumEncodedBytes input c).
Proof. apply moving_resumeEngineFolds; auto with moving. Qed.
Lemma moving_resumeObligations c : moving (R := Recovery)
  (Certification.Certification.resumeDisseminationObligations versions maximumEncodedBytes input c).
Proof. apply moving_resumeDissemination. Qed.
Hint Resolve moving_endRunOnceRecovered moving_resume moving_propose moving_resumeFolds
  moving_resumeObligations : moving.
Lemma moving_resumeConversation r c :
  moving (resumeConversation versions maximumEncodedBytes input r c).
Proof. unfold resumeConversation, resumeIntents. walk. Qed.
Hint Resolve moving_resumeConversation : moving.
Lemma moving_markRecovered r c : moving (markRecovered versions maximumEncodedBytes input r c).
Proof. unfold markRecovered. walk. Qed.
Hint Resolve moving_markRecovered : moving.
Lemma moving_ready r membership : moving (Reanchor.Reanchor.positionReady versions maximumEncodedBytes
  input (markRecovered versions maximumEncodedBytes input) r membership).
Proof. apply moving_reanchorPositionReady; auto with moving. Qed.
Lemma moving_reanchorVote r ingress message s : moving (acceptReanchorVote versions maximumEncodedBytes
  input (markRecovered versions maximumEncodedBytes input) r ingress message s).
Proof. apply moving_acceptReanchorVote; auto with moving. Qed.
Hint Resolve moving_ready moving_reanchorVote : moving.
Lemma moving_awaitReanchor r c : moving (awaitReanchor r c).
Proof.
  unfold awaitReanchor. apply moving_uninterruptible, moving_sync. intros w. by repeat case_match.
Qed.
Hint Resolve moving_awaitReanchor : moving.
Lemma moving_positionReady r c : moving (positionReady versions maximumEncodedBytes input r c).
Proof. unfold positionReady. walk. Qed.
Hint Resolve moving_positionReady : moving.
Lemma moving_retryCatchUp r c : moving (retryCatchUp versions maximumEncodedBytes input r c).
Proof.
  unfold retryCatchUp, warned, resendCertifiedHistoryRequest, settleOnQuorum, recoverOnQuorum. walk.
Qed.
Lemma moving_runTask index : moving (runTask versions maximumEncodedBytes input index).
Proof. unfold runTask, warned. walk. Qed.

(** ** Ingress *)

Lemma moving_rearmOnMemberTraffic ingress c :
  moving (rearmOnMemberTraffic versions maximumEncodedBytes input ingress c).
Proof. unfold rearmOnMemberTraffic. walk. Qed.
Hint Resolve moving_rearmOnMemberTraffic : moving.
Lemma moving_takeIncomplete r ingress incomplete :
  moving (acceptCatchUpIncomplete versions maximumEncodedBytes input
    (positionReady versions maximumEncodedBytes input) r ingress incomplete).
Proof. apply moving_acceptCatchUpIncomplete; auto with moving. Qed.
Hint Resolve moving_takeIncomplete : moving.
Lemma moving_noteEarlierReanchor r ingress message s h body :
  moving (noteEarlierReanchor versions maximumEncodedBytes r ingress message s h body).
Proof. unfold noteEarlierReanchor. walk. apply moving_waitBehindEarlierReanchor. walk. Qed.
Hint Resolve moving_noteEarlierReanchor : moving.
Lemma moving_acceptEngineIngressWithRecovery ingress :
  moving (acceptEngineIngressWithRecovery versions maximumEncodedBytes input ingress).
Proof.
  unfold acceptEngineIngressWithRecovery, acceptEvidence, routeEvidence, acceptPacket, routePacket,
    acceptRunPacket, acceptHistoryPacket. walk.
Qed.

(** ** The start of a run *)

Lemma moving_recoverCertifiedHistory discontinuity :
  moving (recoverCertifiedHistory versions maximumEncodedBytes input discontinuity).
Proof.
  unfold recoverCertifiedHistory, recoverMemberships, refused, reanchoringConversations,
    prepareRecoveryOutbox, newRun. walk.
Qed.
End steps.
End RecoverySteps.
