(* ===== verification/RecoveryRuns.v ===== *)
(** RecoveryRuns: histories of an endpoint engine with its recovery, and what
    they show of its re-anchor votes.

    A history interleaves the operations the engine's gate serializes, each
    interrupted anywhere or not, with the Router worker's steps and with
    crashes after which a process starts over the database. *)
From S2P Require Import Prelude JsMap Identifiers Json CollectivePart Address SignedMessages.
From S2P Require Import SealedBody RecordSchemas Records OuterBody StoredHistory StoreDatabase.
From S2P Require Import StoreQueues StoreRecords StoreAnchors EndpointStore StoreVotes StoreScopes.
From S2P Require Import StoreRecovery EngineRuntime HistoryBuild Outbox Send Certification Startup.
From S2P Require Import Engine EngineStore RecoveryState CatchUp Reanchor Recovery RecoverySteps.
From S2P Require Import Certificates Hosts SealedBodyRuns SendLaws.
From Stdlib Require Import Ascii.
Local Open Scope nat_scope.

Module RecoveryRuns.
Import RecordSchemas Records OuterBody StoreDatabase StoreQueues StoreAnchors EndpointStore StoreVotes.
Import StoreScopes EngineRuntime HistoryBuild Outbox Send Engine EngineStore DurableRuns RecoveryState.
Import RecoverySteps.

(** ** Histories *)

(** The engine's operations: an ingress, a Router discontinuity with the fence
    that precedes it, one resend of a retry fiber, a forked task, a send's
    activation and a resend of its proposal, the start's resume, the pending
    messages and their acknowledgement; and what the Router worker does: an
    envelope begun, completed and taken off the outbox, an anchor. *)
Inductive Operation :=
  | OnIngress (ingress : Ingress)
  | OnDiscontinuity (discontinuity : Recovery.Recovery.RouterWorkerRecovery)
  | OnAbandon (routerRestarted : bool)
  | OnRetry (run : Ref) (conversationId : string)
  | OnTask (index : nat)
  | OnActivate (prepared : PreparedSend) (admission : PostIntentBinding -> Database ->
      Exit EndpointStoreError FirewallCommit * Database)
  | OnResend (proposal : LocalProposal)
  | OnPending
  | OnAcknowledge (deliveryToken : string)
  | OnBegin (messageId : string)
  | OnComplete (message : OutboundMessageInput)
  | OnShift (messageId : string)
  | OnAnchored (routerInstanceId : option string).

Section runs.
Context `{Base64Url} `{HostJson} `{Jose} `{Sha256} `{JoseEncryption} `{!EngineHost} `{!SendHost}.
Context `{!StoreRecovery.RowOrder} (versions : option Wire.WireVersions) (maximumEncodedBytes : Z).
Context (input : EndpointEngineInput).

#[local] Instance recovery_i : RecoveryPhase Recovery :=
  CatchUpRequests.recoveryPhase versions maximumEncodedBytes input.

(** The admission of a send is a history of store operations. *)
Definition permitted (operation : Operation) : Prop :=
  match operation with
  | OnActivate _ admission => admissionStores admission
  | _ => True
  end.

Definition perform (operation : Operation) : RecoveryState.Engine unit :=
  match operation with
  | OnIngress ingress => Recovery.Recovery.acceptEngineIngressWithRecovery versions
      maximumEncodedBytes input ingress ;; mret tt
  | OnDiscontinuity discontinuity =>
      Recovery.Recovery.recoverCertifiedHistory versions maximumEncodedBytes input discontinuity
  | OnAbandon routerRestarted => abandonVolatileFolds routerRestarted
  | OnRetry run c => Recovery.Recovery.retryCatchUp versions maximumEncodedBytes input run c
  | OnTask index => Recovery.Recovery.runTask versions maximumEncodedBytes input index
  | OnActivate prepared admission =>
      uninterruptible (activateIntentOnce versions maximumEncodedBytes input prepared admission) ;;
      mret tt
  | OnResend proposal => resendProposal versions maximumEncodedBytes input proposal ;; mret tt
  | OnPending => readPendingMessages ;; mret tt
  | OnAcknowledge deliveryToken => acknowledgeMessage deliveryToken
  | OnBegin messageId => store (StoreQueues.StoreQueues.beginOutbound messageId) ;; mret tt
  | OnComplete message => store (StoreQueues.StoreQueues.completeOutbound message) ;; mret tt
  | OnShift messageId => shift messageId
  | OnAnchored routerInstanceId => sync (set_router (fun _ => routerInstanceId))
  end.

(** One entry of a history: an operation, with when its fiber is interrupted,
    or the start of a process over what the last one left. *)
Inductive Entry :=
  | Ran (operation : Operation) (patience : option nat)
  | Started (patience : option nat).

Definition allowed (entry : Entry) : Prop :=
  match entry with Ran operation _ => permitted operation | Started _ => True end.

Definition after (w : World) (entry : Entry) : World :=
  match entry with
  | Ran operation patience => (perform operation false patience w).2
  | Started patience => (makeEndpointEngine versions maximumEncodedBytes input false patience
      (powerOn idleRecovery w)).2
  end.

Definition runHistory (history : list Entry) (w : World) : World := foldl after w history.

(** ** Refinement *)

Lemma moving_run {A} (m : RecoveryState.Engine A) masked patience w :
  moving m -> rtc durableStep (durable w) (durable (m masked patience w).2).
Proof.
  intros Hm. specialize (Hm masked patience w I).
  destruct (m masked patience w) as [[o p] w']. by destruct Hm.
Qed.

Lemma moving_operation operation : permitted operation -> moving (perform operation).
Proof.
  intros Hp. assert (forall A (m : RecoveryState.Engine A), moving m -> moving (m ;; mret tt)) as Hthen.
  { intros A m Hm. apply moving_bind; [done|]. intros a. apply moving_ret. }
  destruct operation; unfold perform.
  - apply Hthen, moving_acceptEngineIngressWithRecovery.
  - apply moving_recoverCertifiedHistory.
  - apply moving_abandonVolatileFolds.
  - apply moving_retryCatchUp.
  - apply moving_runTask.
  - apply Hthen, moving_uninterruptible. by apply moving_activateIntentOnce.
  - apply Hthen, moving_resendProposal.
  - apply Hthen, moving_readPendingMessages.
  - apply moving_acknowledgeMessage.
  - apply Hthen. by apply (moving_perform (BeginOutbound messageId)).
  - apply Hthen. by apply (moving_perform (CompleteOutbound message)).
  - by apply moving_sync.
  - by apply moving_sync.
Qed.

Lemma moving_start : moving (makeEndpointEngine (R := Recovery) versions maximumEncodedBytes input).
Proof.
  unfold makeEndpointEngine. apply moving_bind; [apply moving_initializeRuntime|intros []].
  apply moving_resumeRuntime. intros c. apply moving_phase_head.
Qed.

Lemma history_durable history w : Forall allowed history ->
  rtc durableStep (durable w) (durable (runHistory history w)).
Proof.
  intros Hall. revert w. induction Hall as [|entry history Ha _ IH]; intros w; [done|].
  simpl. etrans; [|apply IH]. destruct entry; simpl.
  - apply moving_run. by apply moving_operation.
  - etrans; [|apply moving_run, moving_start]. done.
Qed.

(** A new endpoint: its store is bound, and it has signed nothing. *)
Definition fresh (identity : IdentityBinding) (w : World) : Prop :=
  durable w = mkDurable (boundStore identity) [].

(** What the database of a new endpoint holds is reached by operations of the
    store alone. *)
Lemma history_operations identity history w : fresh identity w -> Forall allowed history ->
  exists operations, database (runHistory history w) = runOperations operations (boundStore identity).
Proof.
  intros Hf Hall. pose proof (history_durable history w Hall) as Hrun. rewrite Hf in Hrun.
  by apply durable_operations in Hrun.
Qed.

Lemma history_sound identity history w : fresh identity w -> Forall allowed history ->
  sound identity unvoted (durable (runHistory history w)).
Proof.
  intros Hf Hall. eapply sound_run; [by apply history_durable|]. rewrite Hf. apply sound_bound.
Qed.

Lemma runHistory_app history1 history2 w :
  runHistory (history1 ++ history2) w = runHistory history2 (runHistory history1 w).
Proof. apply foldl_app. Qed.

Lemma history_signed history w : Forall allowed history ->
  signed w `prefix_of` signed (runHistory history w).
Proof. intros Hall. by apply (durable_grows _ _ (history_durable _ w Hall)). Qed.

(** From a moment of a history on, what was voted at that moment speaks. *)
Lemma history_sound_later identity history1 history2 w : fresh identity w ->
  Forall allowed history1 -> Forall allowed history2 ->
  sound identity (votedIn identity (database (runHistory history1 w)))
    (durable (runHistory (history1 ++ history2) w)).
Proof.
  intros Hf H1' H2'. rewrite runHistory_app. eapply sound_run; [by apply history_durable|].
  exact (sound_later _ _ _ (history_sound identity history1 w Hf H1')).
Qed.

(** C6: An endpoint gives each scope one vote: in the whole life of an endpoint,
    two re-anchor votes of its key that leave one anchor of a conversation for
    one Router instance are for one new anchor, unless one of them has the
    hash of the anchor the conversation was founded with. *)
Theorem one_reanchor_vote identity history w v1 s1 h1 b1 v2 s2 h2 b2 :
  fresh identity w -> Forall allowed history ->
  let w' := runHistory history w in
  ReanchorVote v1 s1 h1 b1 ∈ signed w' -> ReanchorVote v2 s2 h2 b2 ∈ signed w' ->
  rb_conversationId b1 = rb_conversationId b2 ->
  rb_previousAnchorHash b1 = rb_previousAnchorHash b2 ->
  rb_routerInstanceId b1 = rb_routerInstanceId b2 ->
  hashes b1 h1 /\ hashes b2 h2 /\
  (h1 = h2 \/ founding (database w') (rb_conversationId b1) h1 \/
   founding (database w') (rb_conversationId b1) h2).
Proof.
  intros Hf Hall w' Hin1 Hin2 Hc Hp Hi.
  destruct (history_sound identity history w Hf Hall) as [_ _ _ _ _ Hhashes Honce].
  split_and!; [by eapply Hhashes..|by eapply Honce].
Qed.

(** Votes held at two moments for one position are for one action. *)
Lemma voted_once identity history1 history2 w c head anchor action1 action2 :
  fresh identity w -> Forall allowed history1 -> Forall allowed history2 ->
  votedIn identity (database (runHistory history1 w)) c head anchor action1 ->
  votedIn identity (database (runHistory (history1 ++ history2) w)) c head anchor action2 ->
  action1 = action2.
Proof.
  intros Hf Ha1 Ha2 Hv1 (rh & r & Hv2 & Hp & Han & Hac).
  pose proof (history_sound_later identity history1 history2 w Hf Ha1 Ha2) as Hs.
  destruct (holds_spoken _ _ _ _ (so_holds _ _ _ Hs) _ _ _ _ Hv1) as [_ Hall].
  rewrite <- Hac. symmetry. by eapply Hall.
Qed.

(** A position the key voted to leave holds no vote, at any moment. *)
Lemma left_unvoted identity history1 history2 w v s h b action :
  fresh identity w -> Forall allowed history1 -> Forall allowed history2 ->
  let w2 := runHistory (history1 ++ history2) w in
  ReanchorVote v s h b ∈ signed w2 -> ~ founding (database w2) (rb_conversationId b) h ->
  ~ votedIn identity (database (runHistory history1 w)) (rb_conversationId b)
      (rb_selectedRecordHash b) (rb_previousAnchorHash b) action /\
  ~ votedIn identity (database w2) (rb_conversationId b)
      (rb_selectedRecordHash b) (rb_previousAnchorHash b) action.
Proof.
  intros Hf Ha1 Ha2 w2 Hin Hnf.
  assert (Forall allowed (history1 ++ history2)) as Ha by by apply Forall_app.
  pose proof (history_sound_later identity history1 history2 w Hf Ha1 Ha2) as Hs.
  pose proof (sound_later _ _ _ (history_sound identity _ w Hf Ha)) as Hs2.
  destruct (so_leaving _ _ _ Hs v s h b Hin) as [[_ Hno1]|?]; [|done].
  by destruct (so_leaving _ _ _ Hs2 v s h b Hin) as [[_ Hno2]|?].
Qed.

(** C5: An endpoint speaks once for a position.  Of the durability votes its
    store holds at any two moments of its life, those that extend one head
    under one anchor are for one action; and once its key has voted to leave
    that head and anchor, or before it does, there is no such vote at all. *)
Theorem position_spoken_once identity history1 history2 w c head anchor :
  fresh identity w -> Forall allowed history1 -> Forall allowed history2 ->
  let w1 := runHistory history1 w in
  let w2 := runHistory (history1 ++ history2) w in
  (forall action1 action2,
     votedIn identity (database w1) c head anchor action1 ->
     votedIn identity (database w2) c head anchor action2 -> action1 = action2) /\
  (forall v s h b, ReanchorVote v s h b ∈ signed w2 ->
     rb_conversationId b = c -> rb_selectedRecordHash b = head -> rb_previousAnchorHash b = anchor ->
     ~ founding (database w2) c h ->
     forall action, ~ votedIn identity (database w1) c head anchor action /\
       ~ votedIn identity (database w2) c head anchor action).
Proof.
  intros Hf Ha1 Ha2 w1 w2. split; [intros action1 action2; by apply voted_once|].
  intros v s h b Hin <- <- <- Hnf action. by eapply left_unvoted.
Qed.

End runs.

(** ** Agreement of the members *)

Section agreement.
Context `{Base64Url} `{HostJson} `{Jose} `{Sha256} `{JoseEncryption} `{!EngineHost} `{!SendHost}.
Context `{!StoreRecovery.RowOrder} (versions : option Wire.WireVersions) (maximumEncodedBytes : Z).
Context (membership : VerifiedMembership).
(** The re-anchor bodies in circulation, none of which collides with another. *)
Context (known : ReanchorBody -> Prop).
Definition knownBodies : Prop := forall b1 b2 h,
  known b1 -> known b2 -> hashes b1 h -> hashes b2 h -> b1 = b2.

(** A life of an endpoint, from its new store on. *)
Record Life := mkLife {
  li_input : EndpointEngineInput;
  li_identity : IdentityBinding;
  li_history : list Entry;
  li_start : World;
}.

(** The world after a stretch of it. *)
Definition worldAt (life : Life) (history : list Entry) : World :=
  runHistory versions maximumEncodedBytes (li_input life) history (li_start life).
Definition lived (life : Life) : Prop :=
  fresh (li_identity life) (li_start life) /\ Forall allowed (li_history life).

(** In this life of the member [a], nobody else signs re-anchor votes with its
    key, and no body in circulation has the hash of an anchor it holds a
    conversation founded with. *)
Definition leads (a : string) (life : Life) : Prop :=
  let w' := worldAt life (li_history life) in
  (forall v s h b, ReanchorVote v s h b ∈ signed w' -> known b) /\
  (forall v h b, Certificates.Certificates.attested versions maximumEncodedBytes membership a
     (ReanchorVote v a h b) -> ReanchorVote v a h b ∈ signed w') /\
  (forall c h b, founding (database w') c h -> known b -> ~ hashes b h).

(** The member [a] runs this engine, over its whole life. *)
Definition honest (a : string) : Prop := exists life, lived life /\ leads a life.

(** A vote an honest member cast for a completed re-anchor names its body. *)
Lemma vote_names_body a completed h v s votedHash body :
  knownBodies -> honest a -> known (cp_reanchor completed) ->
  verifyCompletedReanchor versions maximumEncodedBytes completed membership = Some h ->
  Certificates.Certificates.attested versions maximumEncodedBytes membership a
    (ReanchorVote v s votedHash body) -> votedHash = h -> body = cp_reanchor completed.
Proof.
  intros Hk ([input identity history w] & [Hf Hall] & Hb & Hs & _) Hkc Hv Hatt ->.
  unfold worldAt in *. cbn [li_input li_identity li_history li_start] in *.
  assert (s = a) as -> by (by destruct Hatt as (? & ? & ? & ? & _ & _ & ? & _)).
  specialize (Hs _ _ _ Hatt). apply (Hk _ _ h); [by eapply Hb|done| |].
  - by eapply (so_hashes _ _ _ (history_sound versions maximumEncodedBytes input identity history w Hf Hall)).
  - unfold verifyCompletedReanchor in Hv. apply bind_Some in Hv as (h' & Hh & Hv).
    case_match; [done|]. by apply bind_Some in Hv as (? & _ & [= <-]).
Qed.

(** What a verified completed re-anchor shows of its voters. *)
Lemma completed_votes completed h :
  verifyCompletedReanchor versions maximumEncodedBytes completed membership = Some h ->
  cp_anchorHash completed = h /\
  rb_conversationId (cp_reanchor completed) = md_conversationId (descriptor membership) /\
  exists matches evidence,
    Records.verifyEvidenceSet versions maximumEncodedBytes
      (rc_votes (cp_certificate completed)) membership
      (quorumThreshold (length (members membership))) matches = Some evidence /\
    forall s, matches s = Some true -> exists v signer body, s = ReanchorVote v signer h body.
Proof.
  unfold verifyCompletedReanchor. intros (h' & Hh & Hv)%bind_Some.
  destruct (_ || _ || _ || _) eqn:Hb in Hv; [done|]. apply bind_Some in Hv as (evs & Hevs & [= <-]).
  repeat apply orb_false_elim in Hb as [Hb ?]. repeat match goal with
    Hd : bool_decide (_ <> _) = false |- _ => apply bool_decide_eq_false, dec_stable in Hd end.
  split_and!; [congruence|congruence|]. eexists _, evs. split; [exact Hevs|].
  intros s Hm. destruct s; simpl in Hm; try done. apply bind_Some in Hm as (same & _ & [= Hm]).
  apply andb_true_iff in Hm as [_ ->%bool_decide_eq_true]. eauto.
Qed.

(** C3: A conversation leaves an anchor by one re-anchor.  Let at most a third
    of a verified membership be faulty, and let every other member run this
    engine with its recovery, handed anything, crashing and restarting as it
    may, its key used by nobody else.  Then two re-anchors that verify as
    completed under the membership, and leave one anchor for one Router
    instance, are one: the members continue from one selected record. *)
Theorem reanchors_agree d registry faulty completed1 completed2 h1 h2 :
  knownBodies -> verifyMembershipDescriptor versions d registry = Some membership ->
  length faulty <= (length (members membership) - 1) / 3 ->
  (forall a, a ∈ memberIds membership -> a ∉ faulty -> honest a) ->
  verifyCompletedReanchor versions maximumEncodedBytes completed1 membership = Some h1 ->
  verifyCompletedReanchor versions maximumEncodedBytes completed2 membership = Some h2 ->
  known (cp_reanchor completed1) -> known (cp_reanchor completed2) ->
  rb_previousAnchorHash (cp_reanchor completed1) = rb_previousAnchorHash (cp_reanchor completed2) ->
  rb_routerInstanceId (cp_reanchor completed1) = rb_routerInstanceId (cp_reanchor completed2) ->
  cp_anchorHash completed1 = cp_anchorHash completed2 /\
  cp_reanchor completed1 = cp_reanchor completed2.
Proof.
  intros Hk [Hnd Hn]%Certificates.Certificates.membership_ids Hf Hhonest Hv1 Hv2 Hk1 Hk2 Hp Hi.
  destruct (completed_votes _ _ Hv1) as (Ha1 & Hc1 & m1 & evs1 & Hs1 & Hm1).
  destruct (completed_votes _ _ Hv2) as (Ha2 & Hc2 & m2 & evs2 & Hs2 & Hm2).
  assert (Hshared := Certificates.Certificates.sets_intersect versions maximumEncodedBytes _ _ membership
    _ _ m1 m2 evs1 evs2 Hnd ltac:(lia) ltac:(done) ltac:(done) Hs1 Hs2).
  destruct Hshared as (shared & Hsnd & Hsub & Hthird & _ & Hboth).
  destruct (Certificates.Certificates.honest_among faulty shared Hsnd ltac:(lia)) as (a & Ha & Hna).
  pose proof (Hhonest a (Hsub a Ha) Hna) as Hho.
  destruct (Hboth a Ha) as [(s1 & Hmatch1 & Hatt1) (s2 & Hmatch2 & Hatt2)].
  destruct (Hm1 _ Hmatch1) as (v1 & x1 & b1 & ->), (Hm2 _ Hmatch2) as (v2 & x2 & b2 & ->).
  pose proof (vote_names_body _ _ _ _ _ _ _ Hk Hho Hk1 Hv1 Hatt1 eq_refl) as ->.
  pose proof (vote_names_body _ _ _ _ _ _ _ Hk Hho Hk2 Hv2 Hatt2 eq_refl) as ->.
  destruct Hho as ([input identity history w] & [Hfresh Hall] & _ & Hs & Hfound).
  unfold worldAt in *. cbn [li_input li_identity li_history li_start] in *.
  assert (x1 = a) as -> by (by destruct Hatt1 as (? & ? & ? & ? & _ & _ & ? & _)).
  assert (x2 = a) as -> by (by destruct Hatt2 as (? & ? & ? & ? & _ & _ & ? & _)).
  apply Hs in Hatt1, Hatt2.
  destruct (history_sound versions maximumEncodedBytes input identity history w Hfresh Hall)
    as [_ _ _ _ _ Hhashes Honce].
  pose proof (Hhashes _ _ _ _ Hatt1) as Hh1. pose proof (Hhashes _ _ _ _ Hatt2) as Hh2.
  assert (h1 = h2) as <-.
  { destruct (Honce _ _ _ _ _ _ _ _ Hatt1 Hatt2 ltac:(congruence) Hp Hi) as [?|[Hfo|Hfo]]; [done|..];
      exfalso; [exact (Hfound _ _ _ Hfo Hk1 Hh1)|exact (Hfound _ _ _ Hfo Hk2 Hh2)]. }
  split; [congruence|]. by eapply Hk.
Qed.

(** *** Quorums *)

(** The store of this life held, at some moment, the endpoint's durability vote
    for [action] to extend [head] under [anchor]. *)
Definition everVoted (life : Life) (c head anchor action : string) : Prop :=
  exists history later, li_history life = (history ++ later)%list /\
    votedIn (li_identity life) (database (worldAt life history)) c head anchor action.

(** A quorum of the members for [action]: all of them but the faulty voted for
    it in their lives. *)
Definition quorumVoted (lives : string -> Life) (faulty voters : list string)
    (c head anchor action : string) : Prop :=
  NoDup voters /\ voters ⊆ memberIds membership /\
  quorumThreshold (length (members membership)) <= length voters /\
  forall a, a ∈ voters -> a ∉ faulty -> everVoted (lives a) c head anchor action.

Lemma everVoted_once life c head anchor action1 action2 : lived life ->
  everVoted life c head anchor action1 -> everVoted life c head anchor action2 -> action1 = action2.
Proof.
  destruct life as [input identity history w]. intros [Hf Hall] (h1 & k1 & He1 & Hv1) (h2 & k2 & He2 & Hv2).
  unfold worldAt in *. cbn [li_input li_identity li_history li_start] in *. subst history.
  destruct (prefix_weak_total h1 h2 (h1 ++ k1)%list) as [[k ->]|[k ->]];
    [by exists k1|rewrite He2; by exists k2|..].
  - rewrite He2 in Hall. apply Forall_app in Hall as [[H1' H2']%Forall_app _].
    exact (voted_once _ _ _ identity h1 k w _ _ _ _ _ Hf H1' H2' Hv1 Hv2).
  - apply Forall_app in Hall as [[H1' H2']%Forall_app _]. symmetry.
    exact (voted_once _ _ _ identity h2 k w _ _ _ _ _ Hf H1' H2' Hv2 Hv1).
Qed.

(** A member whose vote completes a re-anchor never voted at the position it
    leaves. *)
Lemma completed_unvoted a life completed h s action : knownBodies -> lived life -> leads a life ->
  known (cp_reanchor completed) ->
  verifyCompletedReanchor versions maximumEncodedBytes completed membership = Some h ->
  (exists v signer body, s = ReanchorVote v signer h body) ->
  Certificates.Certificates.attested versions maximumEncodedBytes membership a s ->
  ~ everVoted life (rb_conversationId (cp_reanchor completed))
      (rb_selectedRecordHash (cp_reanchor completed))
      (rb_previousAnchorHash (cp_reanchor completed)) action.
Proof.
  intros Hk Hlived Hleads Hkc Hv (v & signer & body & ->) Hatt (h1 & k1 & He & Hvoted).
  pose proof (vote_names_body _ _ _ _ _ _ _ Hk (ex_intro _ life (conj Hlived Hleads)) Hkc Hv Hatt eq_refl)
    as ->.
  destruct life as [input identity history w], Hlived as [Hf Hall], Hleads as (_ & Hs & Hfound).
  unfold worldAt in *. cbn [li_input li_identity li_history li_start] in *. subst history.
  assert (signer = a) as -> by (by destruct Hatt as (? & ? & ? & ? & _ & _ & ? & _)).
  apply Hs in Hatt. apply Forall_app in Hall as [H1' H2'].
  destruct (left_unvoted versions maximumEncodedBytes input identity h1 k1 w _ _ _ _ action Hf H1' H2' Hatt)
    as [Hno _]; [|done].
  intros Hfo. apply (Hfound _ _ _ Hfo Hkc).
  eapply (so_hashes _ _ _ (history_sound versions maximumEncodedBytes input identity (h1 ++ k1) w Hf
    (Forall_app_2 _ _ _ H1' H2'))). exact Hatt.
Qed.

(** C4: A conversation continues a position once, re-anchors included.  Let at
    most a third of a verified membership be faulty, and let every other
    member run this engine with its recovery, handed anything, crashing,
    restarting and re-anchoring as it may.  Say a quorum votes for an action
    when each of its members but the faulty held, at some moment of its life,
    its own durability vote for it.  Then two quorums that vote to extend one
    record under one anchor vote for one action; and, no key being used by
    anybody else, where a quorum votes to extend a record under an anchor, no
    re-anchor that leaves that record and anchor completes. *)
Theorem position_continues_once d registry faulty lives :
  verifyMembershipDescriptor versions d registry = Some membership ->
  length faulty <= (length (members membership) - 1) / 3 ->
  (forall a, a ∈ memberIds membership -> a ∉ faulty ->
     lived (lives a) /\ ib_agentId (li_identity (lives a)) = a) ->
  (forall c head anchor voters1 voters2 action1 action2,
     quorumVoted lives faulty voters1 c head anchor action1 ->
     quorumVoted lives faulty voters2 c head anchor action2 -> action1 = action2) /\
  (knownBodies -> (forall a, a ∈ memberIds membership -> a ∉ faulty -> leads a (lives a)) ->
   forall completed h, known (cp_reanchor completed) ->
     verifyCompletedReanchor versions maximumEncodedBytes completed membership = Some h ->
     forall voters action,
       ~ quorumVoted lives faulty voters (rb_conversationId (cp_reanchor completed))
           (rb_selectedRecordHash (cp_reanchor completed))
           (rb_previousAnchorHash (cp_reanchor completed)) action).
Proof.
  intros [Hnd Hn]%Certificates.Certificates.membership_ids Hf Hlived.
  destruct (Certificates.Certificates.quorum_overlap (length (members membership)) ltac:(lia))
    as [Hthird _].
  assert (Hshared : forall l k, NoDup l -> NoDup k -> l ⊆ memberIds membership ->
    k ⊆ memberIds membership -> quorumThreshold (length (members membership)) <= length l ->
    quorumThreshold (length (members membership)) <= length k ->
    exists a, a ∈ l /\ a ∈ k /\ a ∉ faulty).
  { intros l k Hl Hk Hli Hki Hll Hkl.
    pose proof (Certificates.Certificates.overlap _ _ _ Hl Hk Hli Hki) as Hover.
    unfold memberIds in Hover at 1. rewrite length_fmap in Hover.
    destruct (Certificates.Certificates.honest_among faulty (filter (fun x => x ∈ k) l))
      as (a & [? ?]%list_elem_of_filter & ?); [by apply NoDup_filter|lia|by exists a]. }
  split.
  - intros c head anchor voters1 voters2 action1 action2 (Hn1 & Hs1 & Hq1 & Hv1) (Hn2 & Hs2 & Hq2 & Hv2).
    destruct (Hshared voters1 voters2) as (a & Ha1 & Ha2 & Hna); [done..|].
    eapply everVoted_once; [by apply Hlived; [apply Hs1|]|by apply Hv1|by apply Hv2].
  - intros Hk Hleads completed h Hkc Hv voters action (Hn1 & Hs1 & Hq1 & Hv1).
    destruct (completed_votes _ _ Hv) as (_ & _ & matches & evs & Hset & Hm).
    apply Certificates.Certificates.evidence_set_spec in Hset as (Hn2 & Hq2 & Hs2 & Hatt).
    destruct (Hshared voters _ Hn1 Hn2 Hs1 Hs2 Hq1 Hq2) as (a & Ha1 & Ha2 & Hna).
    destruct (Hatt a Ha2) as (s & Hmatch & Ha).
    eapply (completed_unvoted a (lives a)); [done|by apply Hlived; [apply Hs1|]|by apply Hleads; [apply Hs1|]
      |done|exact Hv|by apply Hm|exact Ha|by apply Hv1].
Qed.

End agreement.
End RecoveryRuns.
