(* ===== verification/RecoveryTrials.v ===== *)
(** RecoveryTrials: the theorems of RecoveryRuns on a conversation of two.

    Both members certify the first record; then the Router restarts.  Each asks
    the other for history, is told there is none, finds its position ready, and
    signs its vote to re-anchor the conversation.  A signature verifies when it
    is one of those made in the trial. *)
From S2P Require Import Prelude JsMap Identifiers Json CollectivePart Address SignedMessages.
From S2P Require Import SealedBody RecordSchemas Records OuterBody StoredHistory StoreDatabase.
From S2P Require Import StoreQueues StoreRecords StoreAnchors EndpointStore StoreVotes StoreScopes.
From S2P Require Import StoreRecovery EngineRuntime HistoryBuild Outbox Send Certification Startup.
From S2P Require Import Engine EngineStore RecoveryState CatchUp Reanchor Recovery RecoverySteps.
From S2P Require Import Certificates Hosts SealedBodyRuns SendLaws RecoveryRuns.
From Stdlib Require Import Ascii.
Local Open Scope string_scope.

Module RecoveryTrials.
Import RecordSchemas Records OuterBody StoreDatabase StoreQueues StoreAnchors EndpointStore StoreVotes.
Import StoreScopes EngineRuntime HistoryBuild Outbox Send Engine EngineStore DurableRuns RecoveryState.
Import RecoveryRuns RecordRuns.

#[local] Existing Instances Hosts.base64url Hosts.json Hosts.digest SealedBodyRuns.jwe.
#[local] Existing Instance SendLaws.sending.
#[local] Instance asStored : StoreRecovery.RowOrder := {|
  StoreRecovery.rowOrder := fun l => l; StoreRecovery.rowOrder_perm := fun l => reflexivity l |}.

(** ** What the members sign *)

Section signing.
#[local] Existing Instance Hosts.signatures.

Definition envelopeOf (c : ascii) (n : nat) : SignedMessages.SignedMessage :=
  default SealedBodyRuns.envelope (Hosts.signedBy c [idA; idB]
    ("msg_" ++ Hosts.encode64 (Hosts.bytesOf 16 (Z.of_nat n))) "body").
Definition envelopes : list (ascii * nat * SignedMessages.SignedMessage) := Eval vm_compute in
  (fun at_ : ascii * nat => (at_, envelopeOf at_.1 at_.2)) <$>
    [("a"%char, 40%nat); ("a"%char, 41%nat); ("a"%char, 42%nat); ("b"%char, 41%nat); ("b"%char, 42%nat)].

Definition router2 : string := Eval vm_compute in "rti_" ++ Hosts.encode64 "ssssssssssssssss".
Definition firstRecordHash : string := Eval vm_compute in recordHash (actionCertifiedRecord first).

(** What each asks, and the body that leaves the first Router instance. *)
Definition asking (agentId : string) : CatchUpRequest :=
  mkCatchUpRequest V conversation mbr agentId (Some firstRecordHash) (Some anchorHash).
Definition leavingBody : ReanchorBody := Eval vm_compute in
  RecordSchemas.mkReanchor V conversation mbr anchorHash firstRecordHash router2.
Definition leavingHash : string := Eval vm_compute in
  orEmpty (hashAnchor None (AnchorReanchor leavingBody)).
(** One that would leave it by another record. *)
Definition otherBody : ReanchorBody := Eval vm_compute in
  RecordSchemas.mkReanchor V conversation mbr anchorHash (recordHash (actionCertifiedRecord next)) router2.
Definition otherHash : string := Eval vm_compute in
  orEmpty (hashAnchor None (AnchorReanchor otherBody)).

Definition attestationOf (c : ascii) (agentId other : string) : Jws :=
  evidenceOf c (CatchUpAttestation V agentId (asking other) IncompleteKind None false).
Definition attestations : list Jws := Eval vm_compute in
  [attestationOf "a"%char idA idB; attestationOf "b"%char idB idA].
Definition voteJws : list Jws := Eval vm_compute in
  both (fun a => ReanchorVote V a leavingHash leavingBody).

Definition identityOf (card : AgentCards.AgentCard) : IdentityBinding :=
  StoreDatabase.mkIdentity (AgentCards.agentId card)
    (orEmpty (Json.canonicalize (AgentKey.jwsJson (AgentCards.c_representation card)))).
Definition identityA : IdentityBinding := Eval vm_compute in identityOf SealedBodyRuns.cardA.
Definition identityB : IdentityBinding := Eval vm_compute in identityOf SealedBodyRuns.cardB.

Definition atHome (identity : IdentityBinding) : World :=
  mkWorld Recovery [] [] [] [] [] [] [] [] [] None [] [] [] 0 (boundStore identity) None 0 [] [] []
    idleRecovery.

Definition heldEnvelope (c : ascii) (n : nat) : SignedMessages.SignedMessage :=
  default SealedBodyRuns.envelope
    (snd <$> List.find (fun e => bool_decide (e.1 = (c, n))) envelopes).
Definition packet (c : ascii) (n : nat) (instance : string) (p : DirectPacket) : Operation :=
  OnIngress (mkIngress instance (heldEnvelope c n)
    (if bool_decide (c = "a"%char) then SealedBodyRuns.cardA else SealedBodyRuns.cardB) (Direct p)).

(** [a] sends the first post.  Each is handed its proposal, the acceptance
    interrupted once the action is signed, and then the record, certified by
    the other. *)
Definition sending : list Entry :=
  [Ran (OnAnchored (Some (ga_routerInstanceId anchor))) None;
   Ran (OnActivate (mkPrepared membership firstIntent
     (orEmpty (Json.ClientJson.encodeCanonical (H0 := intent_schema None) firstIntent))) (admitIntent commit_confirmed)) None].
Definition accepting : list Entry :=
  [Ran (packet "a"%char 40 (ga_routerInstanceId anchor)
     (PacketProposal (mkProposal V (GENESIS firstAction)))) (Some 40%nat)].
(** What [a] queues: the proposal, and its signature of the action. *)
Definition queuedJws (w : World) : list Jws :=
  omap (fun row => SignedMessages.representation <$>
    Json.ClientJson.decodeCanonical (H0 := OuterBody.message_schema None Hosts.maximum)
      (om_canonicalSignedMessage (ro_outbound row))) (outbound_messages (database w)).
Definition sentJws : list Jws := Eval vm_compute in
  queuedJws (runHistory (H4 := SendLaws.host) None Hosts.maximum SendLaws.sender
    (Started None :: sending ++ accepting) (atHome identityA)).

Definition issued : list Jws := Eval vm_compute in
  ([Hosts.cardJws "a"%char; Hosts.cardJws "b"%char] ++
   (SignedMessages.representation <$> envelopes.*2) ++
   ac_signatures (actionCertificate (actionCertifiedRecord first)) ++
   dc_votes (durabilityCertificate first) ++
   ac_signatures (actionCertificate (actionCertifiedRecord next)) ++
   dc_votes (durabilityCertificate next) ++ attestations ++ voteJws ++ sentJws)%list.
Definition sameJws (left right : Jws) : bool :=
  String.eqb (j_signature left) (j_signature right) &&
  String.eqb (j_protected left) (j_protected right) &&
  String.eqb (j_payload left) (j_payload right).
Definition wasIssued (jws : Jws) : bool := existsb (sameJws jws) issued.
End signing.

#[local] Instance issuing : Jose := {|
  CryptoKey := string;
  importJwk := Some;
  calculateJwkThumbprintUri := calculateJwkThumbprintUri (Jose := Hosts.signatures);
  generalVerify := fun jws key =>
    wasIssued jws && generalVerify (Jose := Hosts.signatures) jws key;
  generalSign := generalSign (Jose := Hosts.signatures) |}.

#[local] Instance host : EngineHost := {|
  randomness := randomness (EngineHost := SendLaws.host);
  tokenDraws := tokenDraws (EngineHost := SendLaws.host);
|}.

(** ** The trial *)

Definition agentOf (card : AgentCards.AgentCard) (c : ascii) : EndpointEngineInput :=
  mkInput (mkSigner card (Hosts.keyOf c) (Hosts.keyOf c)) Hosts.registryKey V.
Definition agentA : EndpointEngineInput := Eval vm_compute in agentOf SealedBodyRuns.cardA "a"%char.
Definition agentB : EndpointEngineInput := Eval vm_compute in agentOf SealedBodyRuns.cardB "b"%char.

Definition certifying (other : ascii) : list Entry :=
  [Ran (packet other 41 (ga_routerInstanceId anchor) (PacketCertified first)) None].
(** The Router restarts, and the other member has nothing further. *)
Definition restarting (other : ascii) (request : CatchUpRequest) (attestation : Jws) : list Entry :=
  [Ran (OnAbandon true) None;
   Ran (OnDiscontinuity (Recovery.Recovery.mkRouterRecovery router_restarted router2)) None;
   Ran (packet other 42 router2 (PacketIncomplete (mkIncomplete V request attestation))) None].

Definition noJws : Jws := mkJws "" "" "".
Definition certifyingA : list Entry := 
  (Started None :: sending ++ accepting ++ certifying "b"%char)%list.
Definition restartingA : list Entry := Eval vm_compute in
  restarting "b"%char (asking idA) (nth 1 attestations noJws).
Definition certifyingB : list Entry := 
  (Started None :: accepting ++ certifying "a"%char)%list.
Definition restartingB : list Entry := Eval vm_compute in
  restarting "a"%char (asking idB) (nth 0 attestations noJws).

Abbreviation runA := (runHistory None Hosts.maximum agentA).
Abbreviation runB := (runHistory None Hosts.maximum agentB).
Abbreviation trialA := (runA (certifyingA ++ restartingA) (atHome identityA)).
Abbreviation trialB := (runB (certifyingB ++ restartingB) (atHome identityB)).

(** ** What it ends in *)

Definition foundsOther (w : World) : bool :=
  forallb (fun a => bool_decide (sa_anchorHash a <> leavingHash /\ sa_anchorHash a <> otherHash))
    (anchors (database w)).
Definition actionHash : string := Eval vm_compute in core_actionHash (recordCore (actionCertifiedRecord first)).

Definition endsIn (w : World) : list EvidenceStatement * bool := (signed w, foundsOther w).
Lemma trialA_ends : endsIn trialA =
  ([ActionSignature V idA actionHash; ReanchorVote V idA leavingHash leavingBody], true).
Proof. vm_compute. reflexivity. Qed.
Lemma trialB_ends : endsIn trialB =
  ([ActionSignature V idB actionHash; ReanchorVote V idB leavingHash leavingBody], true).
Proof. vm_compute. reflexivity. Qed.
Lemma ends_both w l f : endsIn w = (l, f) -> signed w = l /\ foundsOther w = f.
Proof. by intros [= -> ->]. Qed.

(** Two bodies compete. *)
Definition competing (b : ReanchorBody) : Prop := b = leavingBody \/ b = otherBody.
Lemma competing_hashes b h : competing b -> hashes b h ->
  b = leavingBody /\ h = leavingHash \/ b = otherBody /\ h = otherHash.
Proof. intros [-> | ->] Hh; vm_compute in Hh; injection Hh as <-; auto. Qed.
Lemma founds_other w c h : foundsOther w = true -> h = leavingHash \/ h = otherHash ->
  ~ founding (database w) c h.
Proof.
  unfold foundsOther. rewrite forallb_forall. intros Hall Hh (a & Ha & _ & Heq & _).
  apply list_elem_of_In, Hall, bool_decide_eq_true in Ha. naive_solver.
Qed.

Lemma home_fresh identity : fresh identity (atHome identity).
Proof. done. Qed.
Lemma certifying_allowed : Forall (allowed) certifyingA /\ Forall allowed certifyingB.
Proof. split; repeat constructor. apply admitIntent_stores. Qed.
Lemma restarting_allowed : Forall allowed restartingA /\ Forall allowed restartingB.
Proof. split; repeat constructor. Qed.

Lemma trialB_allowed : Forall allowed (certifyingB ++ restartingB).
Proof. apply Forall_app. split; [apply certifying_allowed|apply restarting_allowed]. Qed.
Lemma trialB_voted : ReanchorVote V idB leavingHash leavingBody ∈ signed trialB.
Proof. rewrite (proj1 (ends_both _ _ _ trialB_ends)). right. left. Qed.
Lemma trialB_founds : foundsOther trialB = true.
Proof. exact (proj2 (ends_both _ _ _ trialB_ends)). Qed.

(** Whatever else it had voted for in this scope would be the same anchor. *)
Lemma one_reanchor_vote_witness :
  ReanchorVote V idB leavingHash leavingBody ∈ signed trialB /\
  forall v s h b, ReanchorVote v s h b ∈ signed trialB ->
    rb_conversationId b = conversation -> rb_previousAnchorHash b = anchorHash ->
    rb_routerInstanceId b = router2 ->
    h = leavingHash \/ founding (database trialB) conversation h.
Proof.
  split; [exact trialB_voted|]. intros v s h b Hin Hc Hp Hi.
  destruct (one_reanchor_vote None Hosts.maximum agentB identityB (certifyingB ++ restartingB)
    (atHome identityB) _ _ _ _ v s h b (home_fresh identityB) trialB_allowed trialB_voted Hin
    (eq_sym Hc) (eq_sym Hp) (eq_sym Hi)) as (_ & _ & [Heq|[Hf|Hf]]);
    [by left|by apply founds_other in Hf; [|exact trialB_founds|left]|by right].
Defined.

(** It holds no durability vote for the position it left, before or after. *)
Lemma position_spoken_once_witness :
  ReanchorVote V idB leavingHash leavingBody ∈ signed trialB /\
  forall action, ~ votedIn identityB (database trialB) conversation firstRecordHash anchorHash action.
Proof.
  split; [exact trialB_voted|].
  exact (fun action => proj2 (proj2 (position_spoken_once None Hosts.maximum agentB identityB
    certifyingB restartingB (atHome identityB) conversation firstRecordHash anchorHash
    (home_fresh identityB) (proj2 certifying_allowed) (proj2 restarting_allowed))
    _ _ _ _ trialB_voted eq_refl eq_refl eq_refl (founds_other _ _ _ trialB_founds (or_introl eq_refl)) action)).
Defined.

(** ** Their agreement *)

Definition completed : CompletedReanchor := Eval vm_compute in
  mkCompleted V leavingHash leavingBody (mkReanchorCertificate V leavingHash voteJws).

#[local] Instance ReanchorBody_eq_dec : EqDecision ReanchorBody.
Proof. solve_decision. Defined.
(** Every re-anchor vote that verifies is one of the two. *)
Definition votesOnce (jws : Jws) : bool :=
  match Records.verifyStableEvidence None Hosts.maximum jws membership None with
  | Some evidence =>
      match statement evidence with
      | ReanchorVote v s h b => bool_decide ((s = idA \/ s = idB) /\ v = V /\ h = leavingHash /\ b = leavingBody)
      | _ => true
      end
  | None => true
  end.
Lemma issued_once : forallb votesOnce issued = true.
Proof. vm_compute. reflexivity. Qed.

Lemma votes_issued a v h b :
  Certificates.Certificates.attested None Hosts.maximum membership a (ReanchorVote v a h b) ->
  (a = idA \/ a = idB) /\ v = V /\ h = leavingHash /\ b = leavingBody.
Proof.
  intros (rep & evidence & card & key & Hv & Hs & _ & _ & _ & _ & Hg).
  apply andb_true_iff in Hg as [(jws & Hin & Hsame)%existsb_exists _].
  unfold sameJws in Hsame. apply andb_true_iff in Hsame as [[E1 E2]%andb_true_iff E3].
  apply String.eqb_eq in E1, E2, E3. destruct rep as [payload protected signature], jws.
  simpl in E1, E2, E3. subst. apply (proj1 (forallb_forall _ _) issued_once) in Hin.
  unfold votesOnce in Hin. rewrite Hv, Hs in Hin. by apply bool_decide_eq_true in Hin.
Qed.

Definition lifeA : Life := mkLife agentA identityA (certifyingA ++ restartingA) (atHome identityA).
Definition lifeB : Life := mkLife agentB identityB (certifyingB ++ restartingB) (atHome identityB).
Definition lives (a : string) : Life := if decide (a = idA) then lifeA else lifeB.

Lemma lives_lived a : a ∈ memberIds membership ->
  (lived (lives a) /\ ib_agentId (li_identity (lives a)) = a) /\
  leads None Hosts.maximum membership competing a (lives a).
Proof.
  assert (memberIds membership = [idA; idB]) as -> by (vm_compute; reflexivity).
  assert (forall me w, endsIn w = ([ActionSignature V me actionHash; ReanchorVote V me leavingHash leavingBody], true) ->
    (forall v s h b, ReanchorVote v s h b ∈ signed w -> competing b) /\
    (forall v h b, Certificates.Certificates.attested None Hosts.maximum membership me
       (ReanchorVote v me h b) -> ReanchorVote v me h b ∈ signed w) /\
    (forall c h b, founding (database w) c h -> competing b -> ~ hashes b h)) as Hends.
  { intros me w [-> Hf]%ends_both. split_and!.
    - intros v s h b Hin. apply elem_of_cons in Hin as [[=]|Hin%list_elem_of_singleton]. left. congruence.
    - intros v h b (_ & -> & -> & ->)%votes_issued. right. left.
    - intros c h b Hfo Hb Hh. destruct (competing_hashes b h Hb Hh) as [[_ ->]|[_ ->]];
      apply founds_other in Hfo; auto. }
  intros Ha. apply elem_of_cons in Ha as [-> | ->%list_elem_of_singleton].
  - change (lives idA) with lifeA.
    refine (conj (conj (conj (home_fresh _) _) eq_refl) (Hends idA _ trialA_ends)).
    apply Forall_app. split; [apply certifying_allowed|apply restarting_allowed].
  - change (lives idB) with lifeB.
    exact (conj (conj (conj (home_fresh _) trialB_allowed) eq_refl) (Hends idB _ trialB_ends)).
Qed.

Lemma trial_honest a : a ∈ memberIds membership ->
  honest None Hosts.maximum membership competing a.
Proof. intros [[Hl _] Hs]%lives_lived. by exists (lives a). Qed.

Lemma competing_bodies_known : knownBodies competing.
Proof.
  assert (leavingHash <> otherHash) as Hne by (vm_compute; discriminate).
  intros b1 b2 h Hb1 Hb2 [[-> ->]|[-> ->]]%competing_hashes Hh2%competing_hashes; try done;
    naive_solver.
Qed.

(** The two votes complete the re-anchor, and the other one never completes. *)
Lemma reanchors_agree_witness :
  verifyCompletedReanchor None Hosts.maximum completed membership = Some leavingHash /\
  forall other h, competing (cp_reanchor other) ->
    verifyCompletedReanchor None Hosts.maximum other membership = Some h ->
    cp_reanchor other = leavingBody.
Proof.
  assert (verifyCompletedReanchor None Hosts.maximum completed membership = Some leavingHash) as Hc
    by (vm_compute; reflexivity).
  split; [exact Hc|]. intros other h Hk Hv.
  refine (proj2 (reanchors_agree None Hosts.maximum membership competing twoMembers
    Hosts.registryKey [] other completed h leavingHash competing_bodies_known _ _
    (fun a Ha _ => trial_honest a Ha) Hv Hc Hk (or_introl eq_refl) _ _));
    [vm_compute; reflexivity|simpl; lia|by destruct Hk as [-> | ->]..].
Defined.
(** ** A record continued

    Instead of the restart, [b] prepares the next post, and each is handed its
    record, certified by both. *)
Definition answering : list Entry :=
  [Ran (OnActivate (mkPrepared membership nextIntent
     (orEmpty (Json.ClientJson.encodeCanonical (H0 := intent_schema None) nextIntent))) (admitIntent commit_confirmed)) None].
Definition continuing (other : ascii) : list Entry :=
  [Ran (packet other 42 (ga_routerInstanceId anchor) (PacketCertified next)) None].
Definition continuedA : Life :=
  mkLife agentA identityA (certifyingA ++ continuing "b"%char) (atHome identityA).
Definition continuedB : Life :=
  mkLife agentB identityB (certifyingB ++ answering ++ continuing "a"%char) (atHome identityB).
Definition continued (a : string) : Life := if decide (a = idA) then continuedA else continuedB.

Definition nextRecordHash : string := Eval vm_compute in recordHash (actionCertifiedRecord next).
Definition nextActionHash : string := Eval vm_compute in
  core_actionHash (recordCore (actionCertifiedRecord next)).
Definition votedNext (me : string) (w : World) : bool :=
  match staged_records (database w) !! (conversation, nextRecordHash),
        protocol_evidence (database w) !! (conversation, DurabilityEvidence, nextRecordHash, me) with
  | Some r, Some _ => bool_decide (sr_previousRecordHash r = Some firstRecordHash /\
      sr_anchorHash r = anchorHash /\ sr_actionHash r = nextActionHash)
  | _, _ => false
  end.

Lemma votedNext_votedIn identity w : votedNext (ib_agentId identity) w = true ->
  votedIn identity (database w) conversation firstRecordHash anchorHash nextActionHash.
Proof.
  unfold votedNext. destruct (staged_records (database w) !! _) as [r|] eqn:Hr; [|done].
  destruct (protocol_evidence (database w) !! _) as [b|] eqn:Hb; [|done].
  intros (Hp & Ha & Hact)%bool_decide_eq_true. exists nextRecordHash, r.
  split_and!; [|done..]. split; [by exists b|done].
Qed.

Lemma continued_voted : votedNext idA (worldAt None Hosts.maximum continuedA (li_history continuedA)) &&
  votedNext idB (worldAt None Hosts.maximum continuedB (li_history continuedB)) = true.
Proof. vm_compute. reflexivity. Qed.

Lemma continued_lived a : a ∈ memberIds membership ->
  (lived (continued a) /\ ib_agentId (li_identity (continued a)) = a) /\
  everVoted None Hosts.maximum (continued a) conversation firstRecordHash anchorHash nextActionHash.
Proof.
  assert (memberIds membership = [idA; idB]) as -> by (vm_compute; reflexivity).
  pose proof continued_voted as [HA HB]%andb_true_iff.
  intros Ha. apply elem_of_cons in Ha as [-> | ->%list_elem_of_singleton].
  - change (continued idA) with continuedA. split.
    + refine (conj (conj (home_fresh _) _) eq_refl).
      apply Forall_app. split; [apply certifying_allowed|repeat constructor].
    + exists (li_history continuedA), []. split; [by rewrite app_nil_r|].
      exact (votedNext_votedIn identityA _ HA).
  - change (continued idB) with continuedB. split.
    + refine (conj (conj (home_fresh _) _) eq_refl).
      apply Forall_app. split; [apply certifying_allowed|].
      repeat constructor. apply admitIntent_stores.
    + exists (li_history continuedB), []. split; [by rewrite app_nil_r|].
      exact (votedNext_votedIn identityB _ HB).
Qed.

(** Both voted for the next record: no quorum votes for another.  And in the
    trial, whose re-anchor completed, no quorum votes for any. *)
Lemma position_continues_once_witness :
  (forall voters action,
     quorumVoted None Hosts.maximum membership continued [] voters conversation firstRecordHash
       anchorHash action -> action = nextActionHash) /\
  (forall voters action,
     ~ quorumVoted None Hosts.maximum membership lives [] voters conversation firstRecordHash
         anchorHash action).
Proof.
  assert (verifyMembershipDescriptor None twoMembers Hosts.registryKey = Some membership) as Hm
    by (vm_compute; reflexivity).
  split.
  - intros voters action Hq.
    refine (proj1 (position_continues_once None Hosts.maximum membership competing twoMembers
      Hosts.registryKey [] continued Hm _ (fun a Ha _ => proj1 (continued_lived a Ha)))
      conversation firstRecordHash anchorHash voters (memberIds membership) action nextActionHash Hq _);
      [simpl; lia|].
    split_and!; [|done| |intros a Ha _; exact (proj2 (continued_lived a Ha))].
    + apply (bool_decide_unpack _). vm_compute. exact I.
    + apply Nat.leb_le. vm_compute. reflexivity.
  - refine (proj2 (position_continues_once None Hosts.maximum membership competing twoMembers
      Hosts.registryKey [] lives Hm _ (fun a Ha _ => proj1 (lives_lived a Ha)))
      competing_bodies_known (fun a Ha _ => proj2 (lives_lived a Ha)) completed leavingHash
      (or_introl eq_refl) _); [simpl; lia|vm_compute; reflexivity].
Defined.
End RecoveryTrials.
