(* ===== verification/CertificationSafety.v ===== *)
(** CertificationSafety: what an endpoint's certification keeps true of its
    folds, its proposal locks and its signatures, and the state changes that
    keep it. *)
From S2P Require Import Prelude JsMap Identifiers Json SignedMessages RecordSchemas Records.
From S2P Require Import OuterBody StoredHistory StoreDatabase StoreQueues StoreVotes StoreLocks.
From S2P Require Import EngineRuntime EngineInvariants Certification.
Local Open Scope nat_scope.

Module CertificationSafety.
Import RecordSchemas Records StoreDatabase StoreRows StoreVotes StoreLocks.
Import EngineRuntime EngineLogic EngineInvariants Certification.

Section safety.
Context `{Base64Url} `{HostJson} `{Sha256}.
Context (versions : option Wire.WireVersions).
Context {R : Type}.
(** The actions an endpoint was handed. *)
Context (known : ActionCore -> Prop).

#[local] Abbreviation World := (World R).
#[local] Abbreviation hashAction := (hashAction versions).
#[local] Abbreviation locks w := (proposal_locks (database w)).

(** What is asked of those actions: none collides with another under the
    action hash, and none names an empty predecessor. *)
Record knownActions : Prop := {
  known_distinct a b h : known a -> known b -> hashAction a = Some h -> hashAction b = Some h ->
    a = b;
  known_predecessor a : known a -> previousRecordHash a <> Some GENESIS_PREDECESSOR;
}.

(** The predecessor an action competes for. *)
Definition keyOf (action : ActionCore) : string * string :=
  (conversationId action, predecessorKey (previousRecordHash action)).

(** The fold of a POST holds its whole action certificate. *)
Definition certificateHeld (f : EngineActionFold) (c : EngineConversation) : Prop :=
  isGenesis (fold_action f) = false /\
  quorumThreshold (length (members (ec_membership c))) <= length (fold_actionEvidence f) /\
  jm_has (fold_actionEvidence f) (authorAgentId (postIntent (fold_action f))) = true.

(** The signatures of [h]'s certificate, a POST [a] among [n] members, are
    durable. *)
Definition certificateStored (db : Database) (a : ActionCore) (h : string) (n : nat) : Prop :=
  exists signers, NoDup signers /\ quorumThreshold n <= length signers /\
    authorAgentId (postIntent a) ∈ signers /\
    forall agent, agent ∈ signers -> actionRow db (conversationId a) h agent.

Definition adopted (w : World) (h : string) : Prop :=
  exists r f c, registered h r w /\ foldHeap w !! r = Some f /\
    conversationHeap w !! fold_conversation f = Some c /\ certificateHeld f c /\
    certificateStored (database w) (fold_action f) h (length (members (ec_membership c))).

Lemma certificateStored_grows db db' a h n :
  rowsGrow db db' -> certificateStored db a h n -> certificateStored db' a h n.
Proof. intros Hg (l & ? & ? & ? & Hl). exists l. split_and!; [done..|]. intros s Hs. by apply Hg, Hl. Qed.

Definition signedAction (w : World) (h : string) : Prop :=
  exists version signer, ActionSignature version signer h ∈ signed w.

(** Each registered fold is of the action that holds its predecessor's lock,
    and each lock is of a known action. *)
Record based (w : World) : Prop := {
  safe_wellFormed : wellFormed w;
  safe_fold h r f : registered h r w -> foldHeap w !! r = Some f ->
    known (fold_action f) /\ hashAction (fold_action f) = Some h /\
    exists l, locks w !! keyOf (fold_action f) = Some l /\ pl_actionHash l = h;
  safe_lock k l : locks w !! k = Some l ->
    exists a, known a /\ hashAction a = Some (pl_actionHash l) /\ k = keyOf a /\
      pl_conversationId l = conversationId a;
}.

(** Each action the endpoint signed holds its predecessor's lock still, or
    lost it to an action whose certificate the endpoint holds; and no two
    signed actions share a predecessor. *)
Record safe (w : World) : Prop := {
  safe_based :> based w;
  safe_signed h : signedAction w h ->
    exists a l, known a /\ hashAction a = Some h /\ locks w !! keyOf a = Some l /\
      (pl_actionHash l = h \/ adopted w (pl_actionHash l));
  safe_unique a b h1 h2 : signedAction w h1 -> signedAction w h2 -> known a -> known b ->
    hashAction a = Some h1 -> hashAction b = Some h2 -> keyOf a = keyOf b -> h1 = h2;
}.

Lemma keyOf_predecessor a b : knownActions -> known a -> known b ->
  conversationId a = conversationId b -> previousRecordHash a = previousRecordHash b <->
  conversationId a = conversationId b /\ keyOf a = keyOf b.
Proof.
  intros Hk Ha Hb Hc. unfold keyOf. split; [intros ->; by rewrite Hc|].
  intros (_ & [= _ Hp]). pose proof (known_predecessor Hk _ Ha). pose proof (known_predecessor Hk _ Hb).
  unfold predecessorKey, GENESIS_PREDECESSOR in *.
  destruct (previousRecordHash a), (previousRecordHash b); simpl in *; congruence.
Qed.

(** ** Updates of objects *)

(** A fold keeps what it is and loses no action evidence. *)
Definition gathers (f f' : EngineActionFold) : Prop :=
  sameFold f f' /\ length (fold_actionEvidence f) <= length (fold_actionEvidence f') /\
  forall a, jm_has (fold_actionEvidence f) a = true -> jm_has (fold_actionEvidence f') a = true.

#[global] Instance gathers_preorder : PreOrder gathers.
Proof.
  split; [intros f; by split_and!|]. intros f1 f2 f3 (?&?&?) (?&?&?).
  split_and!; [by etrans|lia|auto].
Qed.

#[local] Hint Extern 0 (sameConversation _ _) => reflexivity : core.
#[local] Hint Extern 0 (sameFold _ _) => reflexivity : core.
#[local] Hint Extern 0 (gathers _ _) => reflexivity : core.
#[local] Hint Extern 0 (rowsGrow _ _) => reflexivity : core.

(** The maps of conversations and folds, the locks and the signatures are as
    they were; objects evolve; new conversations, latches and record entries
    may appear. *)
Record updates (w w' : World) : Prop := {
  upd_conversations : conversations w' = conversations w;
  upd_actionFolds : actionFolds w' = actionFolds w;
  upd_intents r : r ∈ (intents w').*2 -> r ∈ (intents w).*2 \/ is_Some (intentHeap w' !! r);
  upd_signed h : signedAction w' h -> signedAction w h;
  upd_locks : locks w' = locks w;
  upd_rows : rowsGrow (database w) (database w');
  upd_conversation r c : conversationHeap w !! r = Some c ->
    exists c', conversationHeap w' !! r = Some c' /\ sameConversation c c';
  upd_fold r f : foldHeap w !! r = Some f -> exists f', foldHeap w' !! r = Some f' /\ gathers f f';
  upd_foldBack r f' : foldHeap w' !! r = Some f' ->
    exists f, foldHeap w !! r = Some f /\ sameFold f f';
  upd_recordFolds r : r ∈ (recordFolds w').*2 ->
    r ∈ (recordFolds w).*2 \/ is_Some (foldHeap w !! r);
  upd_intentHeap r : is_Some (intentHeap w !! r) -> is_Some (intentHeap w' !! r);
  upd_resends p : p ∈ resends w' -> p ∈ resends w \/ is_Some (intentHeap w' !! lp_localIntent p);
}.

Lemma updates_grows w w' : updates w w' -> grows w w'.
Proof.
  intros []. constructor; [constructor|unfold registered; by rewrite upd_actionFolds0].
  - intros c r. by rewrite upd_conversations0.
  - done.
  - intros r f (f' & ? & ? & _)%upd_fold0. eauto.
  - done.
Qed.

Lemma updates_wellFormed w w' : updates w w' -> wellFormed w -> wellFormed w'.
Proof.
  intros [] [].
  assert (forall r c, conversationHeap w !! r = Some c ->
    exists c', conversationHeap w' !! r = Some c' /\ ec_conversationId c' = ec_conversationId c)
    as Hconv.
  { intros r c (c' & ? & ? & _)%upd_conversation0. eauto. }
  constructor; rewrite ?upd_conversations0, ?upd_actionFolds0.
  - intros c r (c0 & (c1 & ? & ?)%Hconv & <-)%wf_conversations0. eauto.
  - intros r f' (f & Hf & -> & -> & _)%upd_foldBack0.
    apply wf_fold0 in Hf as (c & (c' & ? & Heq)%Hconv & ?). exists c'. split; congruence.
  - intros r f' (f & Hf & -> & -> & _)%upd_foldBack0. eauto.
  - intros h r (f & (f' & ? & (_ & _ & <- & _) & _)%upd_fold0 & <-)%wf_actionFolds0. eauto.
  - done.
  - intros r [Hr%wf_recordFolds0|Hr]%upd_recordFolds0; destruct Hr as [f (f' & ? & _)%upd_fold0]; eauto.
  - intros r [?%wf_intents0|?]%upd_intents0; auto.
  - intros p [?%wf_resends0|?]%upd_resends0; auto.
Qed.

Lemma updates_adopted w w' h : updates w w' -> adopted w h -> adopted w' h.
Proof.
  intros [] (r & f & c & Hr & Hf & Hc & (Hg & Hq & Ha) & Hst). unfold adopted, registered.
  rewrite upd_actionFolds0. apply upd_fold0 in Hf as (f' & Hf' & (Hfc & Hfa & _) & Hlen & Hhas).
  apply upd_conversation0 in Hc as (c' & Hc' & _ & Hm). exists r, f', c'.
  unfold certificateHeld. rewrite Hfc, Hfa, Hm. split_and!; try done; [lia|auto|].
  by eapply certificateStored_grows.
Qed.

Lemma updates_based w w' : updates w w' -> based w -> based w'.
Proof.
  intros Hu [Hwf Hfold Hlock]. pose proof (updates_wellFormed _ _ Hu Hwf) as Hwf'.
  pose proof Hu as []. constructor; [done|..].
  - intros h r f' Hr Hf'. unfold registered in Hr. rewrite upd_actionFolds0 in Hr.
    apply upd_foldBack0 in Hf' as (f & Hf & _ & -> & _ & _). rewrite upd_locks0. eauto.
  - intros k l. rewrite upd_locks0. eauto.
Qed.

Lemma updates_safe w w' : updates w w' -> safe w -> safe w'.
Proof.
  intros Hu [Hbased Hsigned Huniq]. pose proof Hu as [].
  constructor; [by eapply updates_based|..].
  - intros h (a & l & Ha & Hh & Hl & Hor)%upd_signed0%Hsigned. exists a, l. rewrite upd_locks0.
    split_and!; [done..|]. destruct Hor as [|Had]; [by left|right; by eapply updates_adopted].
  - intros a b h1 h2 Hs1%upd_signed0 Hs2%upd_signed0. by apply Huniq.
Qed.

#[global] Instance updates_preorder : PreOrder updates.
Proof.
  split.
  - intros w. constructor; try done; eauto.
  - intros w1 w2 w3 [] []. constructor; try congruence; try solve [eauto].
    + intros r [[?|?]%upd_intents0|?]%upd_intents1; auto.
    + by etrans.
    + intros r c (c2 & (c3 & ? & ?)%upd_conversation1 & ?)%upd_conversation0. exists c3.
      split; [done|by etrans].
    + intros r f (f2 & (f3 & ? & ?)%upd_fold1 & ?)%upd_fold0. exists f3. split; [done|by etrans].
    + intros r f3 (f2 & (f1 & ? & ?)%upd_foldBack0 & ?)%upd_foldBack1. exists f1.
      split; [done|by etrans].
    + intros r [Hr%upd_recordFolds0|[f2 (f1 & ? & _)%upd_foldBack0]]%upd_recordFolds1; eauto.
    + intros p [[?|?]%upd_resends0|?]%upd_resends1; auto.
Qed.

Lemma quiet_updates w w' : quiet w w' -> updates w w'.
Proof.
  intros []. constructor; try done; unfold signedAction;
    rewrite ?quiet_conversationHeap0, ?quiet_foldHeap0, ?quiet_recordFolds0, ?quiet_signed0; eauto.
  rewrite quiet_intents0. auto.
Qed.

Lemma updates_fold r g w : (forall f, gathers f (g f)) -> updates w (updateFold r g w).
Proof.
  intros Hg. constructor; try done; simpl; eauto.
  - intros r' f Hf. destruct (decide (r = r')) as [->|].
    + rewrite list_lookup_alter_eq, Hf. eauto.
    + rewrite list_lookup_alter_ne by done. eauto.
  - intros r' f'. destruct (decide (r = r')) as [->|].
    + rewrite list_lookup_alter_eq. intros (f & Hf & ->)%fmap_Some. exists f. split; [done|].
      apply Hg.
    + rewrite list_lookup_alter_ne by done. eauto.
Qed.

Lemma updates_head r head w : updates w (updateConversation r (set_head head) w).
Proof.
  constructor; try done; simpl; eauto.
  intros r' c Hc. destruct (decide (r = r')) as [->|].
  - rewrite list_lookup_alter_eq, Hc. eexists. by split_and!.
  - rewrite list_lookup_alter_ne by done. eauto.
Qed.

Lemma updates_newConversation c w :
  updates w (set_conversationHeap (fun heap => (heap ++ [c])%list) w).
Proof.
  constructor; try done; simpl; eauto.
  intros r c0 Hc. exists c0. split; [by apply lookup_app_l_Some|done].
Qed.

Lemma jm_set_targets {V} (m : list (string * V)) k v v' :
  v' ∈ (jm_set m k v).*2 -> v' = v \/ v' ∈ m.*2.
Proof.
  induction m as [|[k0 v0] m IH]; simpl; [by intros ?%list_elem_of_singleton; left|].
  case_decide; rewrite !fmap_cons, !elem_of_cons; naive_solver.
Qed.

Lemma updates_recordFolds h r w : foldExists r w ->
  updates w (set_recordFolds (fun m => jm_set m h r) w).
Proof.
  intros Hr. constructor; try done; simpl; eauto.
  intros r' [->|?]%jm_set_targets; [by right|by left].
Qed.

(** ** Evidence *)

Lemma jm_set_length {K V} `{EqDecision K} (m : list (K * V)) k v : length m <= length (jm_set m k v).
Proof.
  rewrite <- (length_fmap fst m), <- (length_fmap fst (jm_set m k v)).
  change (length (jm_keys m) <= length (jm_keys (jm_set m k v))). rewrite jm_set_keys.
  case_match; rewrite ?length_app; lia.
Qed.

Lemma jm_has_set {K V} `{EqDecision K} (m : list (K * V)) k v a :
  jm_has (jm_set m k v) a = true <-> a = k \/ jm_has m a = true.
Proof.
  rewrite !jm_has_true, <- !jm_get_is_some, jm_get_set. case_decide; [naive_solver|].
  split; [by right|by intros [->|]].
Qed.

Lemma gathers_action message f : gathers f (set_actionEvidence (addEvidence message) f).
Proof.
  split_and!; [by split_and!|apply jm_set_length|]. intros a Ha. simpl.
  apply jm_has_set. by right.
Qed.

Lemma gathers_role role message f : gathers f (set_evidenceOf role (addEvidence message) f).
Proof. destruct role; simpl; [apply gathers_action|by split_and!]. Qed.
Lemma gathers_flag role f : gathers f (set_queuedFlag role f).
Proof. by destruct role; split_and!. Qed.
Lemma gathers_recordHash h f : gathers f (set_recordHash h f).
Proof. by split_and!. Qed.
Lemma gathers_certified f : gathers f (set_certified f).
Proof. by split_and!. Qed.
Lemma gathers_durability message f : gathers f (set_durabilityEvidence (addEvidence message) f).
Proof. by split_and!. Qed.

Lemma certificateHeld_threshold f c : certificateHeld f c -> hasActionThreshold f c = true.
Proof.
  intros (Hg & Hq & Ha). unfold hasActionThreshold. rewrite Hg, Ha.
  by rewrite bool_decide_eq_true_2.
Qed.

(** ** Taking a lock, holding a conversation, opening a fold, signing *)

Context (Hk : knownActions).

Lemma registered_lookup (w : World) h r : wellFormed w -> registered h r w -> jm_get (actionFolds w) h = Some r.
Proof. intros Hw. apply jm_get_elem, (wf_actionKeys w Hw). Qed.

(** The registered fold of an action is of that action. *)
Lemma registered_action w a h r f : safe w -> known a -> hashAction a = Some h ->
  registered h r w -> foldHeap w !! r = Some f -> fold_action f = a.
Proof.
  intros Hs Ha Hh Hr Hf. destruct (safe_fold w Hs _ _ _ Hr Hf) as (Hka & Hha & _).
  by eapply (known_distinct Hk).
Qed.

Lemma safe_locks_more (w : World) db' :
  safe w -> rowsGrow (database w) db' ->
  (forall k l, locks w !! k = Some l -> proposal_locks db' !! k = Some l) ->
  (forall k l, proposal_locks db' !! k = Some l -> locks w !! k = Some l \/
     exists a, known a /\ hashAction a = Some (pl_actionHash l) /\ k = keyOf a /\
       pl_conversationId l = conversationId a) ->
  safe (set_database (fun _ => db') w) /\ grows w (set_database (fun _ => db') w).
Proof.
  intros [[Hwf Hfold Hlock] Hsigned Huniq] Hrows Hkeep Hnew. split.
  - constructor; [constructor|..]; simpl; try done.
    + by destruct Hwf.
    + intros h r f Hr Hf. destruct (Hfold h r f Hr Hf) as (? & ? & l & ? & ?).
      split_and!; [done..|]. exists l. split; [by apply Hkeep|done].
    + intros k l [Hl|Hl]%Hnew; eauto.
    + intros h (a & l & ? & ? & ? & Hor)%Hsigned. exists a, l. split_and!; [done..|by apply Hkeep|].
      destruct Hor as [|(r & f & c & ? & ? & ? & ? & Hst)]; [by left|right].
      exists r, f, c. split_and!; [done..|]. by eapply certificateStored_grows.
  - constructor; [constructor|]; simpl; try done; eauto.
Qed.

Lemma safe_takes lock a (w : World) db' :
  safe w -> known a -> hashAction a = Some (pl_actionHash lock) -> lockKey lock = keyOf a ->
  takesLock lock (locks w) (proposal_locks db') -> rowsGrow (database w) db' ->
  let w' := set_database (fun _ => db') w in
  safe w' /\ grows w w' /\
  exists l, locks w' !! keyOf a = Some l /\ pl_actionHash l = pl_actionHash lock.
Proof.
  intros Hs Ha Hh Hkey Htake Hrows. simpl. rewrite <- Hkey.
  assert (pl_conversationId lock = conversationId a) as Hc by (by injection Hkey).
  destruct Htake as [(held & Hheld & Hact & Heq)|[Hnone Heq]].
  - destruct (safe_locks_more w db' Hs Hrows) as [? ?]; [by rewrite Heq|rewrite Heq; auto|].
    split_and!; [done..|]. exists held. by rewrite Heq.
  - destruct (safe_locks_more w db' Hs Hrows) as [? ?].
    + intros k l Hl. rewrite Heq. apply lookup_insert_Some. right. split; [congruence|done].
    + intros k l. rewrite Heq. intros [[<- <-]|[_ ?]]%lookup_insert_Some; [|by left].
      right. exists a. by split_and!.
    + split_and!; [done..|]. exists lock. by rewrite Heq, lookup_insert_eq.
Qed.

Lemma safe_holds c r (w : World) :
  safe w -> jm_get (conversations w) c = None ->
  (exists conversation, conversationHeap w !! r = Some conversation /\
     ec_conversationId conversation = c) ->
  let w' := set_conversations (fun m => jm_set m c r) w in safe w' /\ grows w w'.
Proof.
  intros [[Hwf Hfold Hlock] Hsigned Huniq] Hnone Hr. split.
  - constructor; [constructor|..]; simpl; try done. destruct Hwf. constructor; simpl; try done.
    + intros c' r'. rewrite jm_get_set. case_decide as Hc; [|eauto]. subst. by intros [= <-].
    + intros r' f Hf Hg. rewrite jm_get_set_ne; [eauto|]. intros ->.
      rewrite (wf_postFold0 _ _ Hf Hg) in Hnone. done.
  - constructor; [constructor|]; simpl; try done; eauto.
    intros c' r' Hc. rewrite jm_get_set_ne by congruence. done.
Qed.

Lemma jm_set_fresh_elem {V} (m : list (string * V)) k v k' v' : jm_get m k = None ->
  (k', v') ∈ jm_set m k v <-> (k' = k /\ v' = v) \/ (k', v') ∈ m.
Proof.
  intros Hnone. rewrite jm_set_fresh by done. rewrite elem_of_app, list_elem_of_singleton.
  naive_solver.
Qed.

(** What opening a fold leaves as it was, and what it adds. *)
Record opens (h : string) (a : ActionCore) (fold : Ref) (w w' : World) : Prop := {
  opens_conversations : conversations w' = conversations w;
  opens_conversationHeap : conversationHeap w' = conversationHeap w;
  opens_recordFolds : recordFolds w' = recordFolds w;
  opens_intents : intents w' = intents w;
  opens_intentHeap : intentHeap w' = intentHeap w;
  opens_resends : resends w' = resends w;
  opens_signed : signed w' = signed w;
  opens_database : database w' = database w;
  opens_registered h0 r0 : registered h0 r0 w' <->
    registered h0 r0 w \/ (h0 = h /\ r0 = fold);
  opens_keys : jm_wf (actionFolds w');
  opens_heap r0 f : foldHeap w !! r0 = Some f -> foldHeap w' !! r0 = Some f;
  opens_heapBack r0 f : foldHeap w' !! r0 = Some f -> foldHeap w !! r0 = Some f \/ r0 = fold;
  opens_fold : exists f, foldHeap w' !! fold = Some f /\ fold_action f = a /\ fold_actionHash f = h;
}.

(** The conversation a POST's fold is opened for is the held one. *)
Definition heldForPost (a : ActionCore) (r : Ref) (w : World) : Prop :=
  isGenesis a = false -> jm_get (conversations w) (conversationId a) = Some r.

Lemma foldForIn_opens r c a h (w : World) :
  based w -> known a -> hashAction a = Some h -> conversationHeap w !! r = Some c ->
  ec_conversationId c = conversationId a -> heldForPost a r w ->
  let '(fold, w') := foldForIn r c a h w in
  opens h a fold w w' /\
  (forall f, foldHeap w' !! fold = Some f -> exists c', conversationHeap w !! fold_conversation f = Some c' /\
     ec_conversationId c' = conversationId a /\ heldForPost a (fold_conversation f) w).
Proof.
  intros [Hwf Hfold Hlock] Ha Hh Hr Hc Hpost. unfold foldForIn.
  destruct (jm_get (actionFolds w) h) as [held|] eqn:Hget.
  - pose proof (jm_get_some_elem _ _ _ Hget) as Hreg.
    destruct (wf_actionFolds w Hwf _ _ Hreg) as (f & Hf & Hfh).
    destruct (Hfold _ _ _ Hreg Hf) as (Hka & Hha & _).
    assert (fold_action f = a) as Hfa by (by eapply (known_distinct Hk)). split.
    + constructor; try done; [|apply Hwf|by left|by exists f].
      intros h0 r0. split; [by left|]. intros [?|[-> ->]]; done.
    + intros f' Hf'. simplify_eq. destruct (wf_fold w Hwf _ _ Hf) as (c' & Hc' & Hid).
      exists c'. split_and!; [done|done|]. intros Hg. by apply (wf_postFold w Hwf _ _ Hf).
  - set (opened := makeActionFold _ _ _ _). split.
    + constructor; simpl; try done.
      * intros h0 r0. unfold registered; simpl.
        rewrite (jm_set_fresh_elem _ _ _ _ _ Hget). naive_solver.
      * apply jm_set_wf, Hwf.
      * intros r0 f Hf. by apply lookup_app_l_Some.
      * intros r0 f [[_ ?]|[-> _]]%lookup_snoc_Some; [by left|by right].
      * exists opened. split_and!; [|done|done]. apply lookup_snoc_Some. by right.
    + intros f [[Hlt _]|[_ <-]]%lookup_snoc_Some; [lia|]. by exists c.
Qed.

Lemma opens_grows h a fold w w' : opens h a fold w w' -> grows w w'.
Proof.
  intros []. constructor; [constructor|].
  - intros c r. by rewrite opens_conversations0.
  - intros r c Hc. rewrite opens_conversationHeap0. eauto.
  - intros r f Hf%opens_heap0. eauto.
  - by rewrite opens_intentHeap0.
  - intros h0 r0 Hr. apply opens_registered0. by left.
Qed.

Lemma opens_adopted h a fold w w' x : opens h a fold w w' -> adopted w x -> adopted w' x.
Proof.
  intros [] (r & f & c & Hr & Hf & Hc & Hcert & Hst). exists r, f, c.
  rewrite opens_database0.
  split_and!; [apply opens_registered0; by left|by apply opens_heap0|congruence|done..].
Qed.

(** Opening the fold of the action that holds the lock. *)
Lemma based_foldFor r conversation a h (w : World) :
  based w -> known a -> hashAction a = Some h -> conversationHeap w !! r = Some conversation ->
  ec_conversationId conversation = conversationId a -> heldForPost a r w ->
  (exists l, locks w !! keyOf a = Some l /\ pl_actionHash l = h) ->
  let '(fold, w') := foldForIn r conversation a h w in
  based w' /\ opens h a fold w w'.
Proof.
  intros Hs Ha Hh Hr Hc Hpost Hl.
  pose proof (foldForIn_opens r conversation a h w Hs Ha Hh Hr Hc Hpost) as Hopen.
  destruct (foldForIn r conversation a h w) as [fold w']. destruct Hopen as [Hopen Hconv].
  split; [|done]. pose proof Hopen as []. destruct Hs as [Hwf Hfold Hlock].
  destruct opens_fold0 as (f0 & Hf0 & Ha0 & Hh0). constructor.
  - destruct Hwf. constructor; rewrite ?opens_conversations0, ?opens_conversationHeap0,
      ?opens_recordFolds0, ?opens_intents0, ?opens_intentHeap0, ?opens_resends0; try done.
    + intros r0 f Hf. destruct (decide (r0 = fold)) as [->|Hne].
      * destruct (Hconv _ Hf) as (c' & ? & ? & _). simplify_eq. eauto.
      * destruct (opens_heapBack0 _ _ Hf); [eauto|done].
    + intros r0 f Hf Hg. destruct (decide (r0 = fold)) as [->|Hne].
      * destruct (Hconv _ Hf) as (c' & ? & ? & Hp). simplify_eq. by apply Hp.
      * destruct (opens_heapBack0 _ _ Hf); [eauto|done].
    + intros h1 r1 [Hr1|[-> ->]]%opens_registered0; [|eauto].
      destruct (wf_actionFolds0 _ _ Hr1) as (f & ?%opens_heap0 & ?). eauto.
    + intros r1 [f ?%opens_heap0]%wf_recordFolds0. eauto.
  - intros h1 r1 f Hr1%opens_registered0 Hf. rewrite opens_database0.
    destruct Hr1 as [Hr1|[-> ->]]; [|by simplify_eq].
    destruct (wf_actionFolds w Hwf _ _ Hr1) as (f1 & Hf1 & _).
    pose proof (opens_heap0 _ _ Hf1). simplify_eq. eauto.
  - rewrite opens_database0. apply Hlock.
Qed.

Lemma safe_foldFor r conversation a h (w : World) :
  safe w -> known a -> hashAction a = Some h -> conversationHeap w !! r = Some conversation ->
  ec_conversationId conversation = conversationId a -> heldForPost a r w ->
  (exists l, locks w !! keyOf a = Some l /\ pl_actionHash l = h) ->
  let '(fold, w') := foldForIn r conversation a h w in
  safe w' /\ grows w w' /\ registered h fold w'.
Proof.
  intros Hs Ha Hh Hr Hc Hpost Hl.
  pose proof (based_foldFor r conversation a h w Hs Ha Hh Hr Hc Hpost Hl) as Hnew.
  destruct (foldForIn r conversation a h w) as [fold w']. destruct Hnew as [Hbased Hopen].
  pose proof Hopen as []. split_and!; [|by eapply opens_grows|apply opens_registered0; by right].
  destruct Hs as [_ Hsigned Huniq]. constructor; [done|..]; unfold signedAction;
    rewrite opens_signed0; [|apply Huniq].
  intros h0 (a0 & l & ? & ? & Hl0 & Hor)%Hsigned. exists a0, l. rewrite opens_database0.
  split_and!; [done..|]. destruct Hor; [by left|right; by eapply opens_adopted].
Qed.

(** Signing the action of a registered fold that lacks its certificate. *)
Lemma safe_sign (w : World) h r f c version signer :
  safe w -> registered h r w -> foldHeap w !! r = Some f ->
  conversationHeap w !! fold_conversation f = Some c -> hasActionThreshold f c = false ->
  let w' := set_signed (fun l => (l ++ [ActionSignature version signer h])%list) w in
  safe w' /\ grows w w'.
Proof.
  intros Hs Hr Hf Hc Hthreshold. pose proof Hs as [[Hwf Hfold Hlock] Hsigned Huniq].
  destruct (Hfold _ _ _ Hr Hf) as (Hka & Hha & l & Hl & Hlh).
  set (w' := set_signed _ w). assert (forall x, signedAction w' x <-> signedAction w x \/ x = h) as Hsig.
  { intros x. unfold signedAction. subst w'; simpl.
    setoid_rewrite elem_of_app. setoid_rewrite list_elem_of_singleton. naive_solver. }
  assert (~ adopted w h) as Hnot.
  { intros (r' & f' & c' & Hr' & Hf' & Hc' & Hcert%certificateHeld_threshold & _).
    apply (registered_lookup w _ _ Hwf) in Hr, Hr'. simplify_eq. congruence. }
  assert (forall b x, signedAction w x -> known b -> hashAction b = Some x ->
    keyOf b = keyOf (fold_action f) -> x = h) as Hlocked.
  { intros b x (b' & l' & Hb' & Hx & Hl' & Hor)%Hsigned Hb Hbx Hkey.
    assert (b' = b) as -> by (by eapply (known_distinct Hk)).
    rewrite Hkey in Hl'. simplify_eq. by destruct Hor. }
  split; [constructor; [constructor|..]|constructor; [constructor|]]; try done; eauto.
  - by destruct Hwf.
  - intros x [Hx|Hx]%Hsig; [by apply Hsigned|]; subst x. exists (fold_action f), l. auto.
  - intros a b h1 h2 [Hs1|Hs1]%Hsig [Hs2|Hs2]%Hsig Ha Hb Hh1 Hh2 Hkey; subst; try done.
    + by apply (Huniq a b).
    + eapply (Hlocked a); try done. rewrite Hkey. f_equal. by eapply (known_distinct Hk).
    + symmetry. eapply (Hlocked b); try done. rewrite <- Hkey. f_equal.
      by eapply (known_distinct Hk).
Qed.


(** ** Superseding a lock *)

(** What dropping folds leaves as it was, and which it drops. *)
Record drops (dropped : string -> Ref -> Prop) (w w' : World) : Prop := {
  drops_conversations : conversations w' = conversations w;
  drops_conversationHeap : conversationHeap w' = conversationHeap w;
  drops_foldHeap : foldHeap w' = foldHeap w;
  drops_intents : intents w' = intents w;
  drops_intentHeap : intentHeap w' = intentHeap w;
  drops_resends : resends w' = resends w;
  drops_signed : signed w' = signed w;
  drops_database : database w' = database w;
  drops_registered h r : registered h r w' <-> registered h r w /\ ~ dropped h r;
  drops_keys : jm_wf (actionFolds w');
  drops_recordFolds r : r ∈ (recordFolds w').*2 -> r ∈ (recordFolds w).*2;
}.

Lemma jm_delete_elem {V} (m : list (string * V)) k k' v : jm_wf m ->
  (k', v) ∈ jm_delete m k <-> (k', v) ∈ m /\ k' <> k.
Proof.
  intros Hwf. rewrite jm_delete_filter by done. rewrite list_elem_of_filter. simpl. naive_solver.
Qed.

Lemma jm_delete_targets {V} (m : list (string * V)) k v :
  v ∈ (jm_delete m k).*2 -> v ∈ m.*2.
Proof.
  induction m as [|[k0 v0] m IH]; simpl; [done|].
  case_decide; rewrite ?fmap_cons, ?elem_of_cons; naive_solver.
Qed.

Lemma drops_each (entries : list (string * Ref)) (w : World) : jm_wf (actionFolds w) ->
  drops (fun h _ => h ∈ entries.*1) w
    (foldl (fun w entry =>
      let w := set_actionFolds (fun m => jm_delete m entry.1) w in
      match foldHeap w !! entry.2 ≫= fold_recordHash with
      | Some recordHash => set_recordFolds (fun m => jm_delete m recordHash) w
      | None => w
      end) w entries).
Proof.
  revert w. induction entries as [|[h r] entries IH]; intros w Hwf.
  { constructor; try done. intros h r. rewrite elem_of_nil. naive_solver. }
  simpl. set (w1 := set_actionFolds _ w).
  assert (jm_wf (actionFolds w1)) as Hwf1 by by apply jm_delete_wf.
  assert (forall h0 r0, registered h0 r0 w1 <-> registered h0 r0 w /\ h0 <> h) as Hreg
    by (intros; by apply jm_delete_elem).
  case_match; match goal with |- drops _ _ (foldl _ ?x _) => destruct (IH x Hwf1) end.
  all: constructor; try done.
  all: try (intros h0 r0; rewrite drops_registered0, elem_of_cons;
    specialize (Hreg h0 r0); unfold registered in *; simpl in *; naive_solver).
  intros r0 Hr0%drops_recordFolds0. simpl in Hr0. by apply jm_delete_targets in Hr0.
Qed.

Lemma dropFolds_drops c action kept (w : World) : jm_wf (actionFolds w) ->
  drops (fun h r => h <> kept /\ foldAtPredecessor w c action r = true) w
    (dropFoldsAtPredecessor c action kept w).
Proof.
  intros Hwf. unfold dropFoldsAtPredecessor. set (entries := filter _ _).
  destruct (drops_each entries w Hwf). constructor; try done.
  intros h r. rewrite drops_registered0. split; intros [Hr Hnot]; (split; [done|]).
  - intros Hd. apply Hnot, list_elem_of_fmap. exists (h, r). split; [done|].
    by apply list_elem_of_filter.
  - intros ([h' r'] & Heq & [Hd Hin]%list_elem_of_filter)%list_elem_of_fmap. simpl in *. subst h'.
    apply Hnot. assert (r' = r) as -> by (apply (jm_get_elem _ _ _ Hwf) in Hin, Hr; congruence).
    done.
Qed.


(** Adding a whole certificate to a fold. *)
Lemma addAll_spec (fold : Ref) signatures (w : World) f : foldHeap w !! fold = Some f ->
  let w' := foldl (fun w message => updateFold fold (set_actionEvidence (addEvidence message)) w)
    w signatures in
  updates w w' /\ signed w' = signed w /\ database w' = database w /\
  exists f', foldHeap w' !! fold = Some f' /\ sameFold f f' /\
    forall a, jm_has (fold_actionEvidence f') a = true <->
      a ∈ SignedMessages.senderAgentId <$> signatures \/ jm_has (fold_actionEvidence f) a = true.
Proof.
  revert w f. induction signatures as [|m signatures IH]; intros w f Hf; simpl.
  { split_and!; [done..|]. exists f. split_and!; [done..|]. intros a. rewrite elem_of_nil. naive_solver. }
  set (w1 := updateFold _ _ w).
  assert (updates w w1) as Hu by (apply updates_fold, gathers_action).
  assert (foldHeap w1 !! fold = Some (set_actionEvidence (addEvidence m) f)) as Hf1
    by (unfold w1; simpl; by rewrite list_lookup_alter_eq, Hf).
  destruct (IH w1 _ Hf1) as (Hu' & Hs & Hd & f' & Hf' & Hsame & Hhas).
  split_and!; [by etrans|done|done|]. exists f'. split_and!; [done|exact Hsame|].
  intros a. rewrite Hhas, elem_of_cons. simpl. unfold addEvidence. rewrite jm_has_set. naive_solver.
Qed.

Lemma takesLock_key lock locks locks' : takesLock lock locks locks' ->
  (exists l, locks' !! lockKey lock = Some l /\ pl_actionHash l = pl_actionHash lock) /\
  (forall k, k <> lockKey lock -> locks' !! k = locks !! k) /\
  forall k l, locks' !! k = Some l -> locks !! k = Some l \/ (k = lockKey lock /\ l = lock).
Proof.
  intros [(held & Hheld & Hact & ->)|[Hnone ->]]; split_and!.
  - eauto.
  - done.
  - eauto.
  - exists lock. by rewrite lookup_insert_eq.
  - intros k Hk0. by rewrite lookup_insert_ne.
  - intros k l [[<- <-]|[_ ?]]%lookup_insert_Some; eauto.
Qed.

(** The locks after [supersedeProposalLock]: only the action's own predecessor
    changes. *)
Lemma superseded_locks lock a (w : World) locks' :
  based w -> known a -> lockKey lock = keyOf a ->
  (takesLock lock (locks w) locks' \/
   exists held, locks w !! lockKey lock = Some held /\ pl_actionHash held <> pl_actionHash lock /\
     takesLock lock (released held (locks w)) locks') ->
  (exists l, locks' !! keyOf a = Some l /\ pl_actionHash l = pl_actionHash lock) /\
  (forall k, k <> keyOf a -> locks' !! k = locks w !! k) /\
  forall k l, locks' !! k = Some l -> locks w !! k = Some l \/ (k = keyOf a /\ l = lock).
Proof.
  intros Hs Ha Hkey. rewrite <- Hkey. intros [Ht|(held & Hheld & Hne & Ht)]; [by apply takesLock_key|].
  apply takesLock_key in Ht as (? & Hother & Hback). split_and!; [done| |].
  - intros k Hk0. rewrite Hother by done. apply option_eq. intros l. unfold released.
    rewrite map_lookup_filter_Some. split; [by intros []|]. intros Hl. split; [done|]. simpl.
    destruct (releases held l) eqn:Hrel; [|done]. exfalso. apply Hk0.
    unfold releases in Hrel. apply bool_decide_eq_true in Hrel as [_ Hact].
    destruct (safe_lock w Hs _ _ Hl) as (a1 & ? & Hh1 & -> & _).
    destruct (safe_lock w Hs _ _ Hheld) as (a2 & ? & Hh2 & -> & _).
    f_equal. rewrite Hact in Hh1. by eapply (known_distinct Hk).
  - intros k l [[? _]%map_lookup_filter_Some|]%Hback; auto.
Qed.

Lemma atPredecessor (w : World) a h r f c :
  based w -> known a -> registered h r w -> foldHeap w !! r = Some f ->
  c = conversationId a ->
  foldAtPredecessor w c a r = true <-> keyOf (fold_action f) = keyOf a.
Proof.
  intros Hs Ha Hr Hf ->. unfold foldAtPredecessor. rewrite Hf.
  destruct (wf_fold w (safe_wellFormed w Hs) _ _ Hf) as (c & -> & ->).
  destruct (safe_fold w Hs _ _ _ Hr Hf) as (Hkf & _).
  rewrite andb_true_iff, !bool_decide_eq_true. split.
  - intros [Hc Hp]. unfold keyOf. by rewrite Hc, Hp.
  - intros Heq. assert (conversationId (fold_action f) = conversationId a) as Hc by (by injection Heq).
    split; [done|]. apply (keyOf_predecessor (fold_action f) a Hk Hkf Ha Hc). by split.
Qed.

(** A certificate held for another predecessor outlives the drop. *)
Lemma drops_adopted c a kept db' w w' x :
  based w -> known a -> c = conversationId a ->
  (forall cv key, actionRow (database w) cv x key -> actionRow db' cv x key) ->
  let w1 := set_database (fun _ => db') w in
  drops (fun h r => h <> kept /\ foldAtPredecessor w1 c a r = true) w1 w' ->
  (forall b, known b -> hashAction b = Some x -> keyOf b <> keyOf a) ->
  adopted w x -> adopted w' x.
Proof.
  intros Hs Ha Hc Hrows w1 [] Hother (r & f & cv & Hr & Hf & Hcv & Hcert & Hst). exists r, f, cv.
  rewrite drops_foldHeap0, drops_conversationHeap0, drops_database0. split_and!; [|done..|].
  2: { destruct Hst as (l & ? & ? & ? & Hl). exists l. split_and!; [done..|]. auto. }
  apply drops_registered0. split; [done|]. intros [_ Hat].
  destruct (safe_fold w Hs _ _ _ Hr Hf) as (Hkf & Hhf & _). apply (Hother _ Hkf Hhf).
  by eapply (atPredecessor w a x r f c).
Qed.

(** The folds that are left rest on the new locks. *)
Lemma based_superseded lock c a w w2 db' :
  based w -> known a -> hashAction a = Some (pl_actionHash lock) -> lockKey lock = keyOf a ->
  c = conversationId a ->
  (takesLock lock (locks w) (proposal_locks db') \/
   exists held, locks w !! lockKey lock = Some held /\ pl_actionHash held <> pl_actionHash lock /\
     takesLock lock (released held (locks w)) (proposal_locks db')) ->
  let w1 := set_database (fun _ => db') w in
  drops (fun h r => h <> pl_actionHash lock /\ foldAtPredecessor w1 c a r = true) w1 w2 ->
  based w2.
Proof.
  intros Hs Ha Hh Hkey Hc Ht w1 Hd. pose proof Hd as [].
  destruct (superseded_locks lock a w _ Hs Ha Hkey Ht) as ((l1 & Hl1 & Hact1) & Hother & Hback).
  constructor.
  - destruct (safe_wellFormed w Hs). constructor; rewrite ?drops_conversations0,
      ?drops_conversationHeap0, ?drops_foldHeap0, ?drops_intents0, ?drops_intentHeap0, ?drops_resends0; simpl; auto.
    intros h r [Hr _]%drops_registered0. eauto.
  - intros h r f [Hr Hnot]%drops_registered0 Hf. rewrite drops_foldHeap0 in Hf. simpl in Hf.
    destruct (safe_fold w Hs _ _ _ Hr Hf) as (? & Hhf & l & Hl & Hlh). split_and!; [done..|].
    rewrite drops_database0. simpl. destruct (decide (keyOf (fold_action f) = keyOf a)) as [Heq|Hne].
    + rewrite Heq. exists l1. split; [done|]. rewrite Hact1.
      destruct (decide (h = pl_actionHash lock)) as [->|Hneh]; [done|]. exfalso. apply Hnot.
      split; [done|]. by apply (atPredecessor w a h r f c Hs Ha Hr Hf Hc).
    + exists l. by rewrite Hother.
  - intros k l. rewrite drops_database0. simpl. intros [Hl|[-> ->]]%Hback; [by apply Hs|].
    exists a. split_and!; [done..|]. by injection Hkey.
Qed.

(** Adopting a verified certificate over the lock of another action. *)
Lemma safe_adopt r conversation a lock signatures w db' :
  safe w -> known a -> hashAction a = Some (pl_actionHash lock) -> lockKey lock = keyOf a ->
  isGenesis a = false -> conversationHeap w !! r = Some conversation ->
  ec_conversationId conversation = conversationId a -> heldForPost a r w ->
  (takesLock lock (locks w) (proposal_locks db') \/
   exists held, locks w !! lockKey lock = Some held /\ pl_actionHash held <> pl_actionHash lock /\
     takesLock lock (released held (locks w)) (proposal_locks db')) ->
  (forall c h key, actionRow (database w) c h key ->
     (forall held, locks w !! lockKey lock = Some held -> pl_actionHash held <> pl_actionHash lock ->
        ~ (c = pl_conversationId held /\ h = pl_actionHash held)) -> actionRow db' c h key) ->
  let senders := SignedMessages.senderAgentId <$> signatures in
  (forall s, s ∈ senders -> actionRow db' (conversationId a) (pl_actionHash lock) s) ->
  NoDup senders -> quorumThreshold (length (members (ec_membership conversation))) <= length senders ->
  authorAgentId (postIntent a) ∈ senders ->
  let w' := adoptCertificate r conversation a (pl_actionHash lock) signatures
    (set_database (fun _ => db') w) in
  safe w' /\ extends w w' /\ exists l, locks w' !! keyOf a = Some l /\
    pl_actionHash l = pl_actionHash lock.
Proof.
  intros Hs Ha Hh Hkey Hg Hr Hc Hpost Ht Hrows senders Hstored Hnd Hq Hauthor.
  unfold adoptCertificate. set (w1 := set_database _ w).
  pose proof (dropFolds_drops (ec_conversationId conversation) a (pl_actionHash lock) w1
    (wf_actionKeys w (safe_wellFormed w Hs))) as Hd.
  set (w2 := dropFoldsAtPredecessor _ _ _ w1) in *.
  pose proof (based_superseded lock _ a w w2 db' Hs Ha Hh Hkey Hc Ht Hd) as Hb2.
  destruct (superseded_locks lock a w _ Hs Ha Hkey Ht) as ((l1 & Hl1 & Hact1) & Hother & Hback).
  assert (locks w2 = proposal_locks db') as Hlocks2 by (by rewrite (drops_database _ _ _ Hd)).
  pose proof (based_foldFor r conversation a _ w2 Hb2 Ha Hh) as Hopen.
  destruct (foldForIn r conversation a (pl_actionHash lock) w2) as [fold w3].
  destruct Hopen as [Hb3 Hopen]; [by destruct Hd as [_ -> _]|done
    |unfold heldForPost; by destruct Hd as [-> _]|rewrite Hlocks2; eauto|].
  destruct (opens_fold _ _ _ _ _ Hopen) as (f3 & Hf3 & Ha3 & Hh3).
  destruct (addAll_spec fold signatures w3 f3 Hf3) as (Hu & Hsig & Hdb & f4 & Hf4 & Hsame & Hhas).
  set (w4 := foldl _ w3 signatures) in *.
  assert (locks w4 = proposal_locks db') as Hlocks4
    by (rewrite Hdb, (opens_database _ _ _ _ _ Hopen); done).
  assert (extends w w4) as Hext.
  { trans w3; [|apply updates_grows, Hu]. trans w2; [|eapply opens_grows, Hopen].
    destruct Hd. constructor.
    - intros c0 r0. by rewrite drops_conversations0.
    - intros r0 c0 Hc0. rewrite drops_conversationHeap0. eauto.
    - intros r0 f0 Hf0. rewrite drops_foldHeap0. eauto.
    - by rewrite drops_intentHeap0. }
  assert (adopted w4 (pl_actionHash lock)) as Hadopted.
  { pose proof (wf_postFold w3 (safe_wellFormed w3 Hb3) _ _ Hf3) as Hheld. rewrite Ha3 in Hheld.
    specialize (Hheld Hg). rewrite (opens_conversations _ _ _ _ _ Hopen),
      (drops_conversations _ _ _ Hd) in Hheld. simpl in Hheld. rewrite (Hpost Hg) in Hheld.
    injection Hheld as Hr3. destruct Hsame as (Hfc & Hfa & _).
    assert (conversationHeap w3 !! r = Some conversation) as Hr3'
      by (rewrite (opens_conversationHeap _ _ _ _ _ Hopen), (drops_conversationHeap _ _ _ Hd); done).
    destruct (upd_conversation _ _ Hu _ _ Hr3') as (c4 & Hc4 & _ & Hm4).
    exists fold, f4, c4. split_and!; [|done|by rewrite Hfc, <- Hr3|..].
    - unfold registered. rewrite (upd_actionFolds _ _ Hu).
      apply (opens_registered _ _ _ _ _ Hopen). by right.
    - unfold certificateHeld. rewrite Hfa, Ha3, Hm4. split_and!; [done| |apply Hhas; by left].
      trans (length senders); [done|]. rewrite <- (length_fmap fst (fold_actionEvidence f4)).
      apply submseteq_length, NoDup_submseteq; [done|]. intros x Hx.
      apply jm_has_true, Hhas. by left.
    - rewrite Hdb, (opens_database _ _ _ _ _ Hopen), (drops_database _ _ _ Hd), Hfa, Ha3, Hm4.
      by exists senders. }
  split_and!; [|done|exists l1; by rewrite Hlocks4].
  constructor; [by eapply updates_based|..].
  - intros h (v & sg & Hin). rewrite Hsig, (opens_signed _ _ _ _ _ Hopen), (drops_signed _ _ _ Hd) in Hin.
    destruct (safe_signed w Hs h) as (a0 & l & Ha0 & Hh0 & Hl & Hor); [by exists v, sg|].
    exists a0. rewrite Hlocks4. destruct (decide (keyOf a0 = keyOf a)) as [->|Hne].
    + exists l1. split_and!; [done..|]. right. by rewrite Hact1.
    + exists l. split_and!; [done|done|by rewrite Hother|]. destruct Hor as [|Had]; [by left|right].
      eapply updates_adopted; [exact Hu|]. eapply opens_adopted; [exact Hopen|].
      assert (forall b, known b -> hashAction b = Some (pl_actionHash l) -> keyOf b <> keyOf a)
        as Hother_key.
      { intros b Hb Hhb. destruct (safe_lock w Hs _ _ Hl) as (a' & ? & ? & Heq & _).
        rewrite Heq in Hne. by assert (b = a') as -> by (by eapply (known_distinct Hk)). }
      apply (drops_adopted _ a (pl_actionHash lock) db' w w2 _ Hs Ha Hc); [|exact Hd|done|done].
      intros cv key Hrow. apply Hrows; [done|]. intros held Hheld _ [_ Hact].
      destruct (safe_lock w Hs _ _ Hheld) as (b & Hb & Hhb & Heq & _).
      apply (Hother_key b); [done|by rewrite Hact|]. by rewrite <- Heq, <- Hkey.
  - unfold signedAction. rewrite Hsig, (opens_signed _ _ _ _ _ Hopen), (drops_signed _ _ _ Hd).
    apply (safe_unique w Hs).
Qed.

End safety.
End CertificationSafety.
