(* ===== verification/CertificationSteps.v ===== *)
(** CertificationSteps: every operation of certification keeps what
    CertificationSafety states, however it ends, and reads no object that does
    not exist. *)
From S2P Require Import Prelude JsMap Identifiers Json Address SignedMessages SealedBody.
From S2P Require Import RecordSchemas Records OuterBody StoredHistory StoreDatabase StoreQueues.
From S2P Require Import StoreRecords StoreAnchors StoreLocks EngineRuntime EngineInvariants.
From S2P Require Import HistoryBuild Outbox EngineQuiet Certificates Certification.
From S2P Require Import CertificationSafety.
Local Open Scope nat_scope.

(** What certification asks of the phases it starts others in: proposing an
    intent and telling recovery of a new head change nothing it rests on. *)
Class QuietPhases (R : Type) `{!EnginePhases R} : Prop := {
  proposeIntent_quiet intent masked patience w :
    EngineInvariants.EngineInvariants.wellFormed w ->
    is_Some (EngineRuntime.intentHeap w !! intent) ->
    EngineInvariants.EngineInvariants.quietly w (proposeIntent intent masked patience w);
  headAdvanced_quiet conversation masked patience w :
    EngineInvariants.EngineInvariants.wellFormed w ->
    EngineInvariants.EngineInvariants.quietly w (headAdvanced conversation masked patience w);
}.

Module CertificationSteps.
Import RecordSchemas Records OuterBody StoreDatabase StoreRows StoreQueues StoreLocks.
Import EngineRuntime EngineLogic EngineInvariants HistoryBuild Outbox EngineQuiet Certification.
Import CertificationSafety.

Section steps.
Context `{Base64Url} `{HostJson} `{Jose} `{Sha256} `{JoseEncryption} `{!EngineHost}.
Context (versions : option Wire.WireVersions) (maximumEncodedBytes : Z).
Context {R : Type} `{!EnginePhases R} `{!QuietPhases R}.
Context (input : EndpointEngineInput).
Context (known : ActionCore -> Prop) (Hk : knownActions versions known).

#[local] Abbreviation World := (World R).
#[local] Abbreviation Engine := (@Engine R).
#[local] Abbreviation safe := (safe (R := R) versions known).
#[local] Abbreviation step P m Q := (step safe grows P m Q).
#[local] Hint Extern 0 (rowsGrow _ _) => reflexivity : core.

Lemma safe_wf (w : World) : safe w -> wellFormed w.
Proof. intros Hs. apply Hs. Qed.

(** ** Facts that last *)

Create HintDb lasting discriminated.
Lemma lasting_and (P Q : World -> Prop) :
  stable grows P -> stable grows Q -> stable grows (fun w => P w /\ Q w).
Proof. apply stable_and. Qed.
Lemma lasting_true : stable grows (fun _ : World => True).
Proof. by intros ???. Qed.
Lemma lasting_pure (phi : Prop) : stable grows (fun _ : World => phi).
Proof. by intros ???. Qed.
Lemma lasting_fold r : stable grows (@foldExists R r).
Proof. apply stable_extends, stable_foldExists. Qed.
Lemma lasting_foldIs r f : stable grows (@foldIs R r f).
Proof. apply stable_extends, stable_foldIs. Qed.
Lemma lasting_conversation r : stable grows (@conversationExists R r).
Proof. apply stable_extends, stable_conversationExists. Qed.
Lemma lasting_registered h r : stable grows (@registered R h r).
Proof. apply stable_registered. Qed.
Lemma lasting_conversationIs r c m : stable grows (@conversationIs R r c m).
Proof. apply stable_extends, stable_conversationIs. Qed.
Hint Resolve lasting_and lasting_true lasting_pure lasting_fold lasting_foldIs
  lasting_conversation lasting_registered lasting_conversationIs : lasting.

(** ** Steps that update objects or nothing *)

Lemma step_updates (f : World -> World) (P : World -> Prop) :
  (forall w, safe w -> P w -> updates w (f w)) -> step P (sync f) (fun _ _ => True).
Proof.
  intros Hf. apply step_sync. intros w Hs Hp. specialize (Hf w Hs Hp).
  split_and!; [by eapply updates_safe|by apply updates_grows|done].
Qed.

Lemma safe_quiet (w w' : World) : quiet w w' -> safe w -> safe w' /\ grows w w'.
Proof.
  intros Hq Hs. split; [by eapply updates_safe, Hs; apply quiet_updates|by apply quiet_grows].
Qed.

Lemma step_quiet (f : World -> World) (P : World -> Prop) :
  (forall w, quiet w (f w)) -> step P (sync f) (fun _ _ => True).
Proof. intros Hf. apply step_updates. intros w _ _. by apply quiet_updates. Qed.

Lemma step_keepsLocks {A} (operation : Database -> Exit EndpointStoreFailure A * Database) P :
  keepsLocks operation -> step P (store operation) (fun _ _ => True).
Proof.
  intros [Hfail Hkeep Hrows]. apply step_store; [apply _|intros w; apply Hfail|].
  intros w a db Hs _ Hop. specialize (Hkeep (database w)). specialize (Hrows (database w)).
  rewrite Hop in Hkeep, Hrows.
  destruct (safe_quiet w (set_database (fun _ => db) w)) as [? ?]; [|done|by split_and!].
  by constructor; auto.
Qed.

Lemma step_then {A B} (P : World -> Prop) (m : Engine A) (k : A -> Engine B) Q S :
  stable grows P -> step P m Q -> (forall a, step P (k a) S) -> step P (m ≫= k) S.
Proof.
  intros HP Hm Hk'. eapply step_seq; [apply _|done|exact Hm|]. intros a.
  eapply step_pre; [apply Hk'|naive_solver].
Qed.

Lemma step_any {A} (f : World -> A) P : step P (gets f) (fun _ _ => True).
Proof. by apply step_gets; [apply _|]. Qed.
Lemma step_done P : step P (mret tt) (fun _ _ => True).
Proof. by apply step_ret; [apply _|]. Qed.
Lemma step_option {A} e (o : option A) P : step P (ofOption e o) (fun a _ => o = Some a).
Proof. apply step_ofOption; [apply _|]. naive_solver. Qed.

(** Take the first computation of a sequence; what lasted is kept. *)
Ltac after := eapply step_then; [by eauto with lasting| |].
(** Read an object, which keeps everything. *)
Ltac read_fold f := eapply step_bind;
  [apply _|apply step_foldAt; [apply _|]|intros f].
Ltac read_conversation c := eapply step_bind;
  [apply _|apply step_conversationAt; [apply _|]|intros c].
Ltac read_intent i := eapply step_bind;
  [apply _|apply step_intentAt; [apply _|]|intros i].
(** Go on from the part of what is known that lasts. *)
Ltac keeping P := apply (step_pre _ _ P); [|solve [naive_solver]].

(** ** The outbox *)

Lemma step_phase {A} (m : Engine A) (P : World -> Prop) :
  (forall w, wellFormed w -> P w -> forall masked patience, quietly w (m masked patience w)) ->
  step P m (fun _ _ => True).
Proof.
  intros Hm. apply step_quietly.
  - intros w w' Hq Hs. by apply safe_quiet.
  - intros w Hs Hp. apply Hm; [by apply safe_wf|done].
Qed.

(** What another phase ensures quietly. *)
Lemma step_calmly {A} (m : Engine A) (P : World -> Prop) Q :
  EngineLogic.step wellFormed quiet P m Q -> step P m Q.
Proof.
  intros Hm masked patience w Hs Hp. specialize (Hm masked patience w (safe_wf w Hs) Hp).
  destruct (m masked patience w) as [[[] ?] w']; simpl in *; destruct_and?;
    try destruct (safe_quiet w w'); by split_and?.
Qed.

Lemma step_calm {A} (m : Engine A) (P : World -> Prop) Q :
  EngineLogic.step wellFormed quiet (fun _ => True) m Q -> step P m (fun _ _ => True).
Proof. intros Hm. eapply step_true, step_pre; [by apply step_calmly|done]. Qed.

Lemma step_draw P : step P draw (fun _ _ => True).
Proof. by eapply step_calm, calm_draw. Qed.

Lemma step_sign membership body P :
  step P (Outbox.sign versions maximumEncodedBytes input membership body) (fun _ _ => True).
Proof. by eapply step_calm, calm_sign. Qed.

Lemma step_push ids P : step P (push ids) (fun _ _ => True).
Proof. by eapply step_calm, calm_push. Qed.

Lemma step_enqueueSigned c message obligation P :
  step P (enqueueSigned versions maximumEncodedBytes c message obligation) (fun _ _ => True).
Proof. by eapply step_calm, calm_enqueueSigned. Qed.

Lemma step_queueBody c body obligation P :
  step P (queueBody versions maximumEncodedBytes input c body obligation) (fun _ _ => True).
Proof. by eapply step_calm, calm_queueBody. Qed.

(** ** Evidence *)

Lemma fold_conversation_lasts (w : World) r f : safe w -> foldHeap w !! r = Some f ->
  conversationExists (fold_conversation f) w.
Proof.
  intros Hs Hf. eapply fold_conversation_exists; [by apply safe_wf|]. exists f. by split.
Qed.

Lemma step_updateFold r g P : (forall f, gathers f (g f)) ->
  step P (sync (updateFold r g)) (fun _ _ => True).
Proof. intros Hg. apply step_updates. intros w _ _. by apply updates_fold. Qed.

Lemma step_mergeEvidence fold role message :
  step (foldExists fold) (mergeEvidence versions maximumEncodedBytes fold role message)
    (fun _ _ => True).
Proof.
  unfold mergeEvidence. read_fold f; [done|]. destruct (subjectId role f); [|apply step_done].
  read_conversation c; [intros w Hs [_ Hf]; by eapply fold_conversation_lasts|].
  keeping (fun _ : World => True). after; [apply step_option|]. intros row.
  after; [apply step_keepsLocks, mergeEvidence_keepsLocks|]. intros ?.
  apply step_updateFold. intros f'. apply gathers_role.
Qed.

Lemma step_completeLocalEvidence fold role evidence :
  step (foldExists fold)
    (completeLocalEvidence versions maximumEncodedBytes input fold role evidence) (fun _ _ => True).
Proof.
  unfold completeLocalEvidence. read_fold f; [done|]. keeping (@foldExists R fold).
  after; [case_match; [apply step_done|apply step_mergeEvidence]|]. intros [].
  apply step_uninterruptible. read_fold f'; [done|].
  read_conversation c; [intros w Hs [_ Hf]; by eapply fold_conversation_lasts|].
  keeping (@foldExists R fold).
  after; [apply step_mapError; [apply _|by eauto with lasting|apply step_queueBody]|].
  intros [].
  apply step_updateFold. intros f0. apply gathers_flag.
Qed.

(** ** Signing *)

Lemma step_signEvidence s P :
  (forall version signer h, s = ActionSignature version signer h -> False) ->
  step P (signEvidence versions maximumEncodedBytes input s) (fun _ _ => True).
Proof.
  intros Hs masked patience w Hw _. unfold signEvidence. case_match; [|by split].
  assert (updates w (set_signed (fun l => (l ++ [s])%list) w)) as Hu.
  { constructor; try done; simpl; eauto.
    - intros h (v & sg & [Hin|Heq%list_elem_of_singleton]%elem_of_app); [by exists v, sg|].
      exfalso. by eapply Hs.
    - intros r c Hc. exists c. by split.
    - intros r f Hf. exists f. by split.
    - intros r f Hf. exists f. by split. }
  simpl. split_and!; [by eapply updates_safe|by apply updates_grows|done].
Qed.

(** The one place an action is signed: for a registered fold without its
    certificate. *)
Lemma step_selectLocalActionEvidence h fold :
  step (registered h fold)
    (selectLocalActionEvidence versions maximumEncodedBytes input fold) (fun _ _ => True).
Proof.
  unfold selectLocalActionEvidence.
  read_fold f; [intros w Hs Hr; by eapply registered_exists, Hr; apply safe_wf|].
  case_match; [by apply step_ret; [apply _|]|].
  read_conversation c; [intros w Hs [_ Hf]; by eapply fold_conversation_lasts|].
  destruct (hasActionThreshold f c) eqn:Ht; [by apply step_ret; [apply _|]|].
  eapply (step_bind _ _ _ _ _ (fun _ _ => True)); [|intros m; by apply step_ret; [apply _|]].
  intros masked patience w Hs [[Hr Hf] Hc]. unfold signLocalActionEvidence, signEvidence.
  case_match; [|by split].
  destruct (wf_actionFolds w (safe_wf w Hs) _ _ Hr) as (f' & Hf' & Hh). simplify_eq.
  destruct (safe_sign versions known Hk w _ fold f c (wireVersion input) (localAgentId input)
    Hs Hr Hf Hc Ht).
  simpl. by split_and!.
Qed.

Lemma step_localActionEvidence h fold :
  step (registered h fold)
    (localActionEvidence versions maximumEncodedBytes input fold) (fun _ _ => True).
Proof.
  unfold localActionEvidence.
  read_fold f; [intros w Hs Hr; by eapply registered_exists, Hr; apply safe_wf|].
  case_match; [apply step_done|]. keeping (@registered R h fold).
  after; [apply step_selectLocalActionEvidence|]. intros [message|]; [|apply step_done].
  intros masked patience w Hs Hr. apply step_completeLocalEvidence; [done|].
  by eapply registered_exists, Hr; apply safe_wf.
Qed.

Lemma step_localDurabilityEvidence fold :
  step (foldExists fold)
    (localDurabilityEvidence versions maximumEncodedBytes input fold) (fun _ _ => True).
Proof.
  unfold localDurabilityEvidence. read_fold f; [done|].
  destruct (fold_recordHash f); [|apply step_done].
  case_match; [apply step_done|]. case_match.
  { keeping (@foldExists R fold). apply step_completeLocalEvidence. }
  case_match; [apply step_done|].
  read_conversation c; [intros w Hs [_ Hf]; by eapply fold_conversation_lasts|].
  keeping (@foldExists R fold). after; [by apply step_signEvidence|]. intros message.
  apply step_completeLocalEvidence.
Qed.

(** ** Promotion *)

Lemma quiet_latches g (w : World) : quiet w (set_latches g w).
Proof. by constructor; auto. Qed.

Lemma step_settleLatch r exit P : step P (settleLatch r exit) (fun _ _ => True).
Proof. apply step_quiet. intros w. apply quiet_latches. Qed.

Lemma lasting_intent r : stable grows (fun w : World => is_Some (intentHeap w !! r)).
Proof. apply stable_extends, stable_intent. Qed.
Hint Resolve lasting_intent : lasting.

Lemma jm_get_target {V} (m : list (string * V)) k v : jm_get m k = Some v -> v ∈ m.*2.
Proof. intros Hin%jm_get_some_elem. apply list_elem_of_fmap. by exists (k, v). Qed.

Lemma step_applyPromotionState fold record :
  step (foldExists fold) (applyPromotionState input fold record)
    (fun waiting w => forall i, waiting = Some i -> is_Some (intentHeap w !! i)).
Proof.
  unfold applyPromotionState. read_fold f; [done|]. apply step_syncWith.
  intros w Hs _. simpl.
  match goal with |- _ /\ grows w ?x /\ _ => assert (updates w x) as Hu; [|set (w' := x) in *] end.
  { etrans; [apply updates_fold, gathers_certified|]. etrans; [apply updates_head|].
    apply quiet_updates. by constructor; auto. }
  split_and!; [by eapply updates_safe|by apply updates_grows|].
  intros i. case_decide; [|done]. intros Hi%jm_get_target. by apply (wf_intents w' (safe_wf w'
    (updates_safe versions known w w' Hu Hs))).
Qed.

Lemma step_completePromotion fold record :
  step (foldExists fold) (completePromotion input fold record) (fun _ _ => True).
Proof.
  unfold completePromotion.
  eapply step_bind; [apply _|apply step_applyPromotionState|]. intros [i|]; [|apply step_done].
  read_intent ep; [eauto|]. apply step_settleLatch.
Qed.

Lemma step_headAdvanced c P : step P (headAdvanced c) (fun _ _ => True).
Proof. apply step_phase. intros w Hw _ masked patience. by apply headAdvanced_quiet. Qed.

Lemma step_proposeIntent i :
  step (fun w => is_Some (intentHeap w !! i)) (proposeIntent i) (fun _ _ => True).
Proof. apply step_phase. intros w Hw Hi masked patience. by apply proposeIntent_quiet. Qed.

Lemma step_reproposePendingIntent i :
  step (fun w => is_Some (intentHeap w !! i)) (reproposePendingIntent i) (fun _ _ => True).
Proof.
  unfold reproposePendingIntent. apply step_catch; [apply _|by eauto with lasting| |].
  - after; [apply step_proposeIntent|]. intros ?. apply step_done.
  - intros [] k; try done. injection 1 as <-. case_decide; [apply step_done|].
    apply step_fail. apply _.
Qed.

Lemma lasting_intents (l : list Ref) :
  stable grows (fun w : World => forall i, i ∈ l -> is_Some (intentHeap w !! i)).
Proof. intros w w' Hg Hl i Hi. eapply lasting_intent; eauto. Qed.
Hint Resolve lasting_intents : lasting.

Lemma step_rebasePendingIntents c P : step P (rebasePendingIntents c) (fun _ _ => True).
Proof.
  unfold rebasePendingIntents. keeping (fun _ : World => True). after; [apply step_any|].
  intros []; [apply step_done|].
  eapply step_bind; [apply _| |intros pending].
  { apply (step_gets _ _ _ _ (fun l w => forall i, i ∈ l -> is_Some (intentHeap w !! i))).
    intros w Hs _ i. apply (wf_intents w (safe_wf w Hs)). }
  apply step_forEach; [apply _|by eauto with lasting|]. intros i Hi.
  keeping (fun w : World => is_Some (intentHeap w !! i)).
  read_intent ep; [done|]. keeping (fun w : World => is_Some (intentHeap w !! i)).
  after; [apply step_any|]. intros completed. case_match; [|apply step_done].
  apply step_reproposePendingIntent.
Qed.

Lemma step_certifiedRecordRows fold record votes :
  step (foldExists fold)
    (certifiedRecordRows versions maximumEncodedBytes input fold record votes) (fun _ _ => True).
Proof.
  unfold certifiedRecordRows. read_fold f; [done|].
  eapply step_bind; [apply _|by apply step_known; apply _|intros stored].
  case_decide; [by apply step_ret; [apply _|]|].
  read_conversation c; [intros w Hs [[_ Hf] _]; by eapply fold_conversation_lasts|].
  keeping (fun _ : World => True). after; [apply step_option|]. intros ?.
  by apply step_ret; [apply _|].
Qed.

Lemma step_conversationIdOf fold :
  step (foldExists fold) (conversationIdOf (R := R) fold) (fun _ _ => True).
Proof.
  unfold conversationIdOf. read_fold f; [done|].
  read_conversation c; [intros w Hs [_ Hf]; by eapply fold_conversation_lasts|].
  by apply step_ret; [apply _|].
Qed.

(** The end of both promotions. *)
Lemma step_announce fold :
  step (foldExists fold) (c ← conversationIdOf fold; rebasePendingIntents c ;; headAdvanced c)
    (fun _ _ => True).
Proof.
  after; [apply step_conversationIdOf|]. intros c.
  after; [apply step_rebasePendingIntents|]. intros []. apply step_headAdvanced.
Qed.

Lemma step_promote fold record :
  step (foldExists fold) (promote versions maximumEncodedBytes input fold record) (fun _ _ => True).
Proof.
  unfold promote. read_fold f; [done|]. keeping (@foldExists R fold).
  after; [apply step_certifiedRecordRows|]. intros [stored delivery].
  after; [|intros []; apply step_announce]. apply step_uninterruptible.
  after; [apply step_draw; by eauto with lasting|]. intros n.
  after; [apply step_keepsLocks, promoteRecord_keepsLocks|]. intros ?.
  apply step_completePromotion.
Qed.

Lemma step_maybePromote fold acr :
  step (foldExists fold) (maybePromote versions maximumEncodedBytes input fold acr) (fun _ _ => True).
Proof.
  unfold maybePromote. read_fold f; [done|].
  read_conversation c; [intros w Hs [_ Hf]; by eapply fold_conversation_lasts|].
  keeping (@foldExists R fold). case_match; [apply step_done|].
  after; [apply step_option|]. intros record. after; [apply step_option|]. intros ?.
  apply step_promote.
Qed.

(** ** Action certificates *)

Lemma step_stageActionCertificate fold record :
  step (foldExists fold)
    (stageActionCertificate versions maximumEncodedBytes input fold record) (fun _ _ => True).
Proof.
  unfold stageActionCertificate. read_fold f; [done|].
  apply (step_pre _ _ (fun w => foldExists fold w /\ conversationExists (fold_conversation f) w));
    [|intros w Hs [? Hf]; split; [done|by eapply fold_conversation_lasts]].
  after.
  - case_decide; [|apply step_done]. after; [apply step_option|]. intros stored.
    after; [apply step_keepsLocks, stageRecordForDissemination_keepsLocks|]. intros ?.
    apply step_uninterruptible. read_conversation c; [naive_solver|].
    keeping (@foldExists R fold).
    after; [apply step_mapError; [apply _|by eauto with lasting|
      by apply step_queueBody; eauto with lasting]|]. intros [].
    apply step_updates. intros w Hs Hf.
    etrans; [apply updates_fold, (gathers_recordHash (recordHash record))|].
    apply updates_recordFolds. eapply lasting_fold; [|exact Hf].
    apply updates_grows, updates_fold, gathers_recordHash.
  - intros []. keeping (@foldExists R fold).
    after; [apply step_localDurabilityEvidence|]. intros []. apply step_maybePromote.
Qed.

Lemma step_ownActionCertifiedRecord fold :
  step (foldExists fold) (ownActionCertifiedRecord versions fold) (fun _ _ => True).
Proof.
  unfold ownActionCertifiedRecord. read_fold f; [done|].
  read_conversation c; [intros w Hs [_ Hf]; by eapply fold_conversation_lasts|].
  keeping (fun _ : World => True). after; [apply step_option|]. intros anchorHash.
  eapply step_true, step_option.
Qed.

Lemma step_maybeCertifyAction fold :
  step (foldExists fold)
    (maybeCertifyAction versions maximumEncodedBytes input fold) (fun _ _ => True).
Proof.
  unfold maybeCertifyAction. read_fold f; [done|].
  read_conversation c; [intros w Hs [_ Hf]; by eapply fold_conversation_lasts|].
  case_match; [apply step_done|]. keeping (@foldExists R fold).
  after; [apply step_ownActionCertifiedRecord|]. intros record. apply step_stageActionCertificate.
Qed.

Lemma registered_fold h fold (w : World) : safe w -> registered h fold w -> foldExists fold w.
Proof. intros Hs. apply registered_exists, safe_wf, Hs. Qed.

(** ** Resume *)

Lemma step_resumeFold h fold :
  step (registered h fold)
    (resumeFold versions maximumEncodedBytes input fold) (fun _ _ => True).
Proof.
  unfold resumeFold. apply step_catch; [apply _|by eauto with lasting| |].
  - after; [apply step_localActionEvidence|]. intros [].
    apply (step_pre _ _ (foldExists fold)); [|intros w; apply registered_fold].
    after; [apply step_maybeCertifyAction|]. intros [].
    read_fold f; [done|]. case_match; [|apply step_done]. keeping (@foldExists R fold).
    after; [apply step_localDurabilityEvidence|]. intros [].
    after; [apply step_ownActionCertifiedRecord|]. intros record. apply step_maybePromote.
  - intros [] k; try done. injection 1 as <-. case_match; [apply step_done|].
    apply step_fail. apply _.
Qed.

Lemma lasting_all_registered (folds : list Ref) :
  stable grows (fun w : World => forall r, r ∈ folds -> exists h, registered h r w).
Proof. intros w w' Hg Hr r [h ?]%Hr. exists h. by eapply lasting_registered. Qed.
Hint Resolve lasting_all_registered : lasting.

Lemma step_resumeEngineFolds c :
  step (fun _ => True) (resumeEngineFolds versions maximumEncodedBytes input c) (fun _ _ => True).
Proof.
  unfold resumeEngineFolds.
  eapply step_bind; [apply _| |intros folds].
  { apply (step_gets _ _ _ _ (fun l w => forall r, r ∈ l -> exists h, registered h r w)).
    intros w Hs _ r [_ ([h r'] & -> & Hr)%list_elem_of_fmap]%list_elem_of_filter. by exists h. }
  apply step_forEach; [apply _|by eauto with lasting|]. intros r Hr.
  intros masked patience w Hs Hall. destruct (Hall r Hr) as [h Hreg].
  by apply (step_resumeFold h r).
Qed.

Lemma step_obligationFold obligation :
  step (fun _ => True) (obligationFold (R := R) obligation) (fun r w => foldExists r w).
Proof.
  unfold obligationFold. case_match; [apply step_fail; apply _|].
  eapply step_bind; [apply _| |intros found].
  { apply (step_gets _ _ _ _ (fun r w => forall x, r = Some x -> foldExists x w)).
    intros w Hs _ x. apply recordFold_exists, safe_wf, Hs. }
  destruct found as [r|]; [|apply step_fail; apply _].
  read_fold f; [eauto|].
  read_conversation c; [intros w Hs [_ Hf]; by eapply fold_conversation_lasts|].
  case_match; [|apply step_fail; apply _]. apply step_ret; [apply _|]. naive_solver.
Qed.

Lemma step_packetForObligation fold :
  step (foldExists fold) (packetForObligation versions fold) (fun _ _ => True).
Proof.
  unfold packetForObligation. after; [apply step_ownActionCertifiedRecord|]. intros record.
  read_fold f; [done|]. case_decide; [by apply step_ret; [apply _|]|apply step_fail; apply _].
Qed.

Lemma step_attachObligation obligation :
  step (fun _ => True)
    (attachObligation versions maximumEncodedBytes input obligation) (fun _ _ => True).
Proof.
  unfold attachObligation. eapply step_bind; [apply _|apply step_obligationFold|intros fold].
  after; [apply step_packetForObligation|]. intros packet. read_fold f; [done|].
  read_conversation c; [intros w Hs [_ Hf]; by eapply fold_conversation_lasts|].
  keeping (fun _ : World => True). apply step_uninterruptible.
  apply step_mapError; [apply _|by eauto with lasting|]. apply step_queueBody; by eauto with lasting.
Qed.

Lemma step_resumeDisseminationObligations c :
  step (fun _ => True)
    (resumeDisseminationObligations versions maximumEncodedBytes input c) (fun _ _ => True).
Proof.
  unfold resumeDisseminationObligations. after; [apply step_any|]. intros obligations.
  apply step_forEach; [apply _|by eauto with lasting|]. intros o _. apply step_attachObligation.
Qed.

(** ** Proposals *)

(** The conversation of an action, the held one when the action is a POST. *)
Definition handles (a : ActionCore) (r : Ref) (w : World) : Prop :=
  (exists c, conversationHeap w !! r = Some c /\ ec_conversationId c = conversationId a) /\
  heldForPost a r w.

Lemma stable_handles a r : stable extends (handles a r).
Proof.
  intros w w' Hext [(c & Hc & Hid) Hpost]. split.
  - destruct (ext_conversation _ _ Hext _ _ Hc) as (c' & ? & ? & _). exists c'. split; congruence.
  - intros Hg. apply (ext_conversations _ _ Hext), Hpost, Hg.
Qed.
Lemma lasting_handles a r : stable grows (handles a r).
Proof. apply stable_extends, stable_handles. Qed.
Hint Resolve lasting_handles : lasting.

Lemma handles_held a r (w : World) : safe w ->
  jm_get (conversations w) (conversationId a) = Some r -> handles a r w.
Proof.
  intros Hs Hr. split; [by apply (wf_conversations w (safe_wf w Hs))|by intros _].
Qed.
Lemma handles_exists a r (w : World) : handles a r w -> conversationExists r w.
Proof. intros [(c & ? & _) _]. by exists c. Qed.

Lemma step_newConversation c P :
  step P (newConversation c) (fun r w => conversationHeap w !! r = Some c).
Proof.
  unfold newConversation. eapply step_bind; [apply _|by apply step_reads; apply _|intros r].
  apply (step_bind _ _ _ _ _ (fun _ w => conversationHeap w !! r = Some c));
    [|intros []; by apply step_ret; [apply _|]].
  apply step_sync. intros w Hs [_ ->]. pose proof (updates_newConversation c w).
  split_and!; [by eapply updates_safe|by apply updates_grows|].
  simpl. apply lookup_snoc_Some. by right.
Qed.

Lemma step_conversationForAction a instance_ P :
  step P (conversationForAction versions input a instance_)
    (fun found w => forall r, found = Some r -> handles a r w).
Proof.
  unfold conversationForAction.
  eapply step_bind; [apply _|by apply step_reads; apply _|intros [r|]].
  { apply step_ret; [apply _|]. intros w Hs [_ Hr] r'. injection 1 as <-. by apply handles_held. }
  destruct a as [genesis|post]; [|by apply step_ret; [apply _|]].
  eapply step_bind; [apply _|apply step_option|intros m].
  case_decide; [by apply step_ret; [apply _|]|].
  eapply step_bind; [apply _|apply step_newConversation|intros r].
  apply step_ret; [apply _|]. intros w Hs Hr r'. injection 1 as <-. split; [|done]. eauto.
Qed.

Lemma step_gapFree c a P : step P (gapFree versions c a) (fun _ w => P w).
Proof.
  assert (forall A e (o : option A), step P (ofOption e o) (fun _ w => P w)) as Hoption.
  { intros A e o. by apply step_ofOption; [apply _|]. }
  unfold gapFree, currentAnchorHash. destruct a.
  - repeat case_match; first [apply Hoption|by apply step_ret; [apply _|]].
  - case_match; [|by apply step_ret; [apply _|]].
    eapply step_bind; [apply _| |intros ?; by apply step_ret; [apply _|]; intros ?? HP; apply HP].
    case_match; [apply Hoption|by apply step_ret; [apply _|]].
Qed.

(** The action holds its predecessor's lock. *)
Definition locks (a : ActionCore) (h : string) (w : World) : Prop :=
  exists l, proposal_locks (database w) !! keyOf a = Some l /\ pl_actionHash l = h.

Lemma step_takeLock {A} (operation : Database -> Exit EndpointStoreFailure A * Database) lock a P :
  known a -> Records.hashAction versions a = Some (pl_actionHash lock) -> lockKey lock = keyOf a ->
  failsClean operation ->
  (forall db x db', operation db = (Succeed x, db') ->
     takesLock lock (proposal_locks db) (proposal_locks db') /\ rowsGrow db db') ->
  (forall w db, P w -> P (set_database (fun _ => db) w)) ->
  step P (store operation) (fun _ w => P w /\ locks a (pl_actionHash lock) w).
Proof.
  intros Ha Hh Hkey Hfail Htake HP. apply step_store; [apply _|intros w; apply Hfail|].
  intros w x db Hs Hp [Hop Hrows]%Htake.
  destruct (safe_takes versions known lock a w db Hs Ha Hh Hkey Hop Hrows) as (? & ? & ?).
  split_and!; auto.
Qed.

Lemma step_genesisFoundation c g P :
  step P (genesisFoundation versions c g) (fun _ w => P w).
Proof.
  unfold genesisFoundation.
  do 3 (eapply step_bind; [apply _|by apply step_known; apply _|intros ?]).
  apply step_ret; [apply _|]. naive_solver.
Qed.

Lemma step_proposalLock c a h (P : World -> Prop) :
  step P (proposalLock versions c a h)
    (fun lock w => P w /\ (ec_conversationId c = conversationId a -> lockKey lock = keyOf a) /\
       pl_actionHash lock = h).
Proof.
  unfold proposalLock. eapply step_bind; [apply _|by apply step_known; apply _|intros core].
  apply step_ret; [apply _|]. intros w _ [Hp _]. split_and!; try done.
  unfold lockKey, keyOf. simpl. by intros ->.
Qed.

Lemma step_lockAction r a h :
  known a -> Records.hashAction versions a = Some h ->
  step (handles a r) (lockAction versions r a h) (fun _ w => handles a r w /\ locks a h w).
Proof.
  intros Ha Hh. unfold lockAction.
  read_conversation c; [intros w _; apply handles_exists|].
  eapply step_bind; [apply _|apply step_proposalLock|intros lock].
  eapply step_bind; [apply _|by apply step_reads; apply _|intros held].
  assert (forall w, (((handles a r w /\ conversationHeap w !! r = Some c) /\
      (ec_conversationId c = conversationId a -> lockKey lock = keyOf a) /\ pl_actionHash lock = h) /\
      held = jm_has (conversations w) (conversationId a)) ->
    lockKey lock = keyOf a /\ pl_actionHash lock = h) as Hlock.
  { intros w (((((c' & Hc' & Hid) & _) & Hc) & Hkey & Hact) & _). simplify_eq. auto. }
  set (unheld := fun w => handles a r w /\
    (held = false -> jm_get (conversations w) (conversationId a) = None)).
  apply (step_pre _ _ (fun w => unheld w /\ (lockKey lock = keyOf a /\ pl_actionHash lock = h)));
    [|intros w _ Hw; split; [split; [apply Hw|]|by apply (Hlock w)]].
  2: { destruct Hw as [_ ->]. unfold jm_has. by destruct (jm_get _ _). }
  apply step_assume. intros [Hkey <-].
  assert (step unheld (store (StoreAnchors.lockProposal lock) ;; mret tt)
    (fun _ w => handles a r w /\ locks a (pl_actionHash lock) w)) as Hplain.
  { eapply step_bind; [apply _|eapply (step_takeLock _ lock a unheld); try done|].
    - apply transaction_failed.
    - apply lockProposal_takes.
    - intros ?. apply step_ret; [apply _|]. intros w _ [[]]. auto. }
  destruct a as [genesis|post]; [destruct held|]; [exact Hplain| |exact Hplain].
  eapply step_bind; [apply _|apply step_genesisFoundation|intros foundation].
  eapply step_bind; [apply _|eapply (step_takeLock _ lock (GENESIS genesis) unheld); try done|].
  - apply transaction_failed.
  - apply lockGenesisProposal_takes.
  - intros ?. apply step_sync. intros w Hs [[Hr Hnone] Hl].
    destruct (safe_holds versions known (conversationId (GENESIS genesis)) r w Hs)
      as [? Hg]; [by apply Hnone|apply Hr|].
    split_and!; [done|done| |exact Hl]. by eapply lasting_handles, Hr.
Qed.


Lemma step_foldFor r a h :
  known a -> Records.hashAction versions a = Some h ->
  step (fun w => handles a r w /\ locks a h w) (foldFor (R := R) r a h) (fun fold w => registered h fold w).
Proof.
  intros Ha Hh. unfold foldFor. read_conversation c; [intros w _ [? _]; by eapply handles_exists|].
  apply step_syncWith. intros w Hs [[[(c' & Hc' & Hid) Hpost] Hl] Hc]. simplify_eq.
  pose proof (safe_foldFor versions known Hk r c' a h w Hs Ha Hh Hc' Hid Hpost Hl) as Hf.
  by destruct (foldForIn r c' a h w).
Qed.

Lemma action_core_hash a m va : verifyActionCore versions a m = Some va ->
  Records.hashAction versions a = Some (va_actionHash va).
Proof.
  unfold verifyActionCore. case_match; [done|].
  intros (ih & _ & Hv)%bind_Some. case_decide; [done|]. destruct a.
  - apply bind_Some in Hv as (same & _ & Hv). case_match; [done|].
    apply bind_Some in Hv as (ah & Hah & Hv). by apply bind_Some in Hv as (? & _ & [= <-]).
  - case_decide; [done|]. by apply bind_Some in Hv as (ah & Hah & [= <-]).
Qed.

Lemma proposal_hash a m sender va : verifyActionProposal versions a m sender = Some va ->
  Records.hashAction versions a = Some (va_actionHash va).
Proof.
  unfold verifyActionProposal. intros (va' & Hv & Heq)%bind_Some. case_decide; [done|].
  injection Heq as ->. by eapply action_core_hash.
Qed.

Lemma step_prepareProposalFold ingress a P : known a ->
  step P (prepareProposalFold versions input ingress a)
    (fun found w => forall fold, found = Some fold -> exists h, registered h fold w).
Proof.
  intros Ha. unfold prepareProposalFold.
  eapply step_bind; [apply _|apply step_conversationForAction|intros [r|]];
    [|by apply step_ret; [apply _|]].
  apply (step_pre _ _ (handles a r)); [|eauto].
  read_conversation c; [intros w _; apply handles_exists|]. keeping (handles a r).
  eapply step_bind; [apply _|apply step_gapFree|intros free].
  case_match; [by apply step_ret; [apply _|]|].
  after; [apply step_option|]. intros outer_.
  eapply step_bind; [apply _|by apply step_known; apply _|intros va].
  intros masked patience w Hs [Hr Hv%proposal_hash].
  match goal with |- ends _ _ _ ?Q (?m _ _ _) => cut (step (handles a r) m Q); [by eauto|] end.
  eapply step_bind; [apply _|by apply step_lockAction|intros []].
  eapply step_bind; [apply _|by apply step_foldFor|intros fold].
  apply step_ret; [apply _|]. intros w' _ Hreg fold'. injection 1 as <-. eauto.
Qed.

Lemma step_acceptProposal ingress proposal P : known (ap_action proposal) ->
  step P (acceptProposal versions maximumEncodedBytes input ingress proposal) (fun _ _ => True).
Proof.
  intros Ha. unfold acceptProposal.
  eapply step_bind; [apply _|by apply step_prepareProposalFold|intros [fold|]];
    [|by apply step_ret; [apply _|]].
  intros masked patience w Hs Hreg. destruct (Hreg fold eq_refl) as [h Hr].
  match goal with |- ends _ _ _ ?Q (?m _ _ _) => cut (step (registered h fold) m Q); [by eauto|] end.
  after; [apply step_localActionEvidence|]. intros [].
  after; [eapply step_pre; [apply step_maybeCertifyAction|]; intros w'; apply registered_fold|].
  intros []. by apply step_ret; [apply _|].
Qed.

(** ** Evidence *)

Lemma step_evidenceTarget s P :
  step P (evidenceTarget (R := R) s)
    (fun target w => forall route, target.2 = Some route -> foldExists (route_fold route) w).
Proof.
  destruct s; simpl; try by apply step_ret; [apply _|].
  - eapply step_bind; [apply _|by apply step_reads; apply _|intros [fold|]];
      [|by apply step_ret; [apply _|]].
    apply (step_pre _ _ (foldExists fold)).
    2: { intros w Hs [_ Hr]. eapply registered_exists; [by apply safe_wf|].
         symmetry in Hr. by eapply jm_get_some_elem. }
    read_fold f; [done|].
    read_conversation c; [intros w Hs [_ Hf]; by eapply fold_conversation_lasts|].
    apply step_ret; [apply _|]. intros w _ [[? _] _] route. by injection 1 as <-.
  - eapply step_bind; [apply _|by apply step_reads; apply _|intros found].
    apply step_ret; [apply _|]. intros w Hs [_ Hr] route. simpl. rewrite fmap_Some.
    intros (fold & -> & ->). eapply recordFold_exists; [by apply safe_wf|done].
Qed.

Lemma step_advanceDurabilityFold fold :
  step (foldExists fold)
    (advanceDurabilityFold versions maximumEncodedBytes input fold) (fun _ _ => True).
Proof.
  unfold advanceDurabilityFold. read_fold f; [done|]. case_match; [|apply step_done].
  eapply step_bind; [apply _|by apply step_reads; apply _|intros [record|]]; [|apply step_done].
  apply (step_pre _ _ (foldExists record)).
  2: { intros w Hs [_ Hr]. eapply recordFold_exists; [by apply safe_wf|done]. }
  read_fold g; [done|].
  read_conversation c; [intros w Hs [_ Hf]; by eapply fold_conversation_lasts|].
  keeping (@foldExists R record). case_match; [apply step_done|].
  after; [apply step_ownActionCertifiedRecord|]. intros acr. apply step_maybePromote.
Qed.

Lemma step_acceptEvidence ingress message s P :
  step P (acceptEvidence versions maximumEncodedBytes input ingress message s) (fun _ _ => True).
Proof.
  unfold acceptEvidence.
  eapply step_bind; [apply _|apply step_evidenceTarget|intros [? [route|]]];
    [|by apply step_ret; [apply _|]].
  apply (step_pre _ _ (foldExists (route_fold route))); [|naive_solver].
  read_fold f; [done|].
  read_conversation c; [intros w Hs [_ Hf]; by eapply fold_conversation_lasts|].
  keeping (@foldExists R (route_fold route)). after; [apply step_option|]. intros evidence.
  case_match; [by apply step_ret; [apply _|]|]. after; [apply step_mergeEvidence|]. intros [].
  after; [unfold advanceEvidenceFold; case_match;
    [apply step_maybeCertifyAction|apply step_advanceDurabilityFold]|].
  intros []. by apply step_ret; [apply _|].
Qed.

End steps.
End CertificationSteps.
