(* ===== verification/CertificationRecords.v ===== *)
(** CertificationRecords: accepting a certified record, which may take a lock
    from another action, and the ingress of the engine, keep what
    CertificationSafety states. *)
From S2P Require Import Prelude JsMap Identifiers Json Address SignedMessages SealedBody.
From S2P Require Import RecordSchemas Records OuterBody StoredHistory StoreDatabase StoreQueues.
From S2P Require Import StoreRecords StoreAnchors StoreLocks EngineRuntime EngineInvariants.
From S2P Require Import HistoryBuild Outbox Certificates Certification CertificationSafety.
From S2P Require Import CertificationSteps.
Local Open Scope nat_scope.

Module CertificationRecords.
Import RecordSchemas Records OuterBody StoreDatabase StoreRows StoreQueues StoreLocks.
Import EngineRuntime EngineLogic EngineInvariants HistoryBuild Outbox Certification.
Import CertificationSafety CertificationSteps.

Section records.
Context `{Base64Url} `{HostJson} `{Jose} `{Sha256} `{JoseEncryption} `{!EngineHost}.
Context (versions : option Wire.WireVersions) (maximumEncodedBytes : Z).
Context {R : Type} `{!EnginePhases R} `{!QuietPhases R}.
Context (input : EndpointEngineInput).
Context (known : ActionCore -> Prop) (Hk : knownActions versions known).

#[local] Abbreviation World := (World R).
#[local] Abbreviation Engine := (@Engine R).
#[local] Abbreviation safe := (safe (R := R) versions known).
(** A fold may be dropped here, so only the objects are kept. *)
#[local] Abbreviation step P m Q := (EngineLogic.step safe extends P m Q).

Lemma lift {A} (P : World -> Prop) (m : Engine A) Q :
  EngineLogic.step safe grows P m Q -> step P m Q.
Proof. apply step_weaken_relation, grows_extends. Qed.

Hint Resolve stable_and stable_handles stable_foldExists stable_conversationExists : lasting.
Lemma keeps_true : stable extends (fun _ : World => True).
Proof. by intros ???. Qed.
Hint Resolve keeps_true : lasting.

Ltac after := eapply step_seq; [apply _|by eauto with lasting| |].

(** ** What a record's certificate says *)

Definition certifies (record : ActionCertifiedRecord) (m : VerifiedMembership) : Prop :=
  exists h, verifyActionCertifiedRecord versions maximumEncodedBytes record m = Some h.

Lemma certifies_hash record m : certifies record m ->
  Records.hashAction versions (core_action (recordCore record)) =
    Some (core_actionHash (recordCore record)).
Proof.
  intros [h (rh & Hcore & _)%bind_Some]. unfold verifyRecordCore in Hcore.
  apply bind_Some in Hcore as (? & _ & (va & Hva%action_core_hash & Hcore)%bind_Some).
  rewrite Hva. destruct (_ || _) eqn:Hb; [done|].
  apply orb_false_elim in Hb as [Hb%bool_decide_eq_false%dec_stable _]. by f_equal.
Qed.

(** The message of a verified evidence is its signer's. *)
Lemma stable_sender representation m supplied evidence :
  verifyStableEvidence versions maximumEncodedBytes representation m supplied = Some evidence ->
  SignedMessages.senderAgentId (ev_message evidence) = signerAgentId (statement evidence).
Proof.
  unfold verifyStableEvidence. intros (message & _ & Hv)%bind_Some.
  apply bind_Some in Hv as (card & _ & Hv). case_decide; [done|].
  apply bind_Some in Hv as (verified & Hver & Hv).
  apply bind_Some in Hv as (st & _ & Hv). apply bind_Some in Hv as (bytes & _ & Hv).
  case_match; [done|]. apply bind_Some in Hv as (expected & _ & Hv).
  destruct (_ || _) eqn:Hb; [done|]. injection Hv as <-.
  apply orb_false_elim in Hb as [Hb%bool_decide_eq_false%dec_stable _].
  apply SignedMessages.verify_inv in Hver as (-> & _). by symmetry.
Qed.

(** The messages of a verified action certificate, as adopting it reads them. *)
Definition read_as (m : VerifiedMembership) (representation : Jws)
    (message : SignedMessages.SignedMessage) : Prop :=
  exists evidence, verifyStableEvidence versions maximumEncodedBytes representation m None =
    Some evidence /\ message = ev_message evidence.

Lemma evidence_set_mapM representations m required matches verified :
  verifyEvidenceSet versions maximumEncodedBytes representations m required matches = Some verified ->
  Forall2 (fun r e => verifyStableEvidence versions maximumEncodedBytes r m None = Some e)
    representations verified.
Proof.
  unfold verifyEvidenceSet. do 2 (case_decide; [done|]). intros (evs & Hevs & Hv)%bind_Some.
  cbv zeta in Hv. case_match; [done|]. apply bind_Some in Hv as (ms & _ & Hv).
  case_match; [done|]. injection Hv as <-. by apply mapM_Some.
Qed.

Lemma certificate_senders record m messages :
  certifies record m -> isGenesis (core_action (recordCore record)) = false ->
  Forall2 (read_as m) (ac_signatures (actionCertificate record)) messages ->
  let senders := SignedMessages.senderAgentId <$> messages in
  NoDup senders /\ quorumThreshold (length (members m)) <= length senders /\
  authorAgentId (postIntent (core_action (recordCore record))) ∈ senders.
Proof.
  intros [h Hv] Hg Hm. unfold verifyActionCertifiedRecord in Hv.
  apply bind_Some in Hv as (rh & _ & Hv). case_decide; [done|].
  apply bind_Some in Hv as (ah & Hcert & _). unfold verifyActionCertificateEvidence in Hcert.
  case_decide; [done|]. rewrite Hg in Hcert.
  apply bind_Some in Hcert as (evs & Hset & Hauthor). case_match eqn:Hex; [|done].
  assert (SignedMessages.senderAgentId <$> messages =
    (fun e => signerAgentId (statement e)) <$> evs) as ->.
  { apply evidence_set_mapM in Hset. clear Hauthor Hex. revert messages Hm.
    induction Hset as [|r e l evs He _ IH]; intros ms; inversion 1 as [|? message ? ms' Hr Hms];
      [done|]. simplify_eq. destruct Hr as (e' & He' & ->). simplify_eq. rewrite !fmap_cons.
    f_equal; [by eapply stable_sender|by apply IH]. }
  apply Certificates.Certificates.evidence_set_spec in Hset as (Hnd & Hlen & _). split_and!; [done|done|].
  apply existsb_exists in Hex as (e & He%list_elem_of_In & <-%bool_decide_eq_true).
  apply list_elem_of_fmap. by exists e.
Qed.

(** ** Superseding *)

(** The verified membership of a POST is its conversation's. *)
Definition memberOf (a : ActionCore) (m : VerifiedMembership) (w : World) : Prop :=
  isGenesis a = false -> exists r, jm_get (conversations w) (conversationId a) = Some r /\
    conversationIs r (conversationId a) m w.
Definition handlesAs (a : ActionCore) (m : VerifiedMembership) (r : Ref) (w : World) : Prop :=
  handles a r w /\ memberOf a m w.

Lemma stable_memberOf a m : stable extends (memberOf a m).
Proof.
  intros w w' Hext Hm Hg. destruct (Hm Hg) as (r & Hr & Hc). exists r.
  split; [by apply (ext_conversations _ _ Hext)|by eapply stable_conversationIs].
Qed.
Lemma stable_handlesAs a m r : stable extends (handlesAs a m r).
Proof. apply stable_and; [apply stable_handles|apply stable_memberOf]. Qed.
Hint Resolve stable_memberOf stable_handlesAs : lasting.

Lemma handlesAs_membership a m r c (w : World) :
  handlesAs a m r w -> conversationHeap w !! r = Some c -> isGenesis a = false ->
  ec_conversationId c = conversationId a /\ ec_membership c = m /\ heldForPost a r w.
Proof.
  intros [[(c0 & Hc0 & Hid) Hpost] Hm] Hc Hg. destruct (Hm Hg) as (r' & Hr' & c' & Hc' & _ & Hm').
  specialize (Hpost Hg) as Hr. simplify_eq. done.
Qed.

Lemma step_readCertificate m representation (S : World -> Prop) :
  step S (evidence ← verified (R := R) (verifyStableEvidence versions maximumEncodedBytes
      representation m None); mret (ev_message evidence))
    (fun message w => S w /\ read_as m representation message).
Proof.
  eapply step_bind; [apply _|by apply step_known; apply _|intros evidence].
  apply step_ret; [apply _|]. intros w _ [? ?]. split; [done|by exists evidence].
Qed.

Lemma step_supersedeLock r record m :
  let a := core_action (recordCore record) in
  known a -> certifies record m -> isGenesis a = false ->
  step (handlesAs a m r) (supersedeLock versions maximumEncodedBytes r record)
    (fun _ w => handles a r w /\ locks a (core_actionHash (recordCore record)) w).
Proof.
  intros a Ha Hcert Hg. unfold supersedeLock. fold a.
  eapply step_bind; [apply _|apply step_conversationAt; [apply _|]|intros c].
  { intros w _ [Hr _]. by eapply handles_exists. }
  eapply step_bind; [apply _|apply lift, step_proposalLock|intros lock].
  eapply step_bind; [apply _|apply step_mapReads; [apply _|intros]; apply step_readCertificate|].
  intros messages.
  eapply step_bind; [apply _| |intros certificate].
  { apply (step_mapReads _ _ _ _ _ (fun message e => evidence_identity e =
      (ec_conversationId c, ActionEvidence, core_actionHash (recordCore record),
        SignedMessages.senderAgentId message))). intros message S.
    eapply step_weaken; [by apply step_known; apply _|done|].
    by intros e w _ [HS (? & _ & [= <-])%bind_Some]. }
  apply step_atomic; [apply _|intros w; apply transaction_failed|].
  intros w ? db Hs (([[Hh Hc] [Hkey Hact]] & Hms) & Hrows)
    (Hop & Hkept & Hstored)%supersedeProposalLock_takes.
  destruct (handlesAs_membership a m r c w Hh Hc Hg) as (Hid & <- & Hpost).
  destruct (certificate_senders record _ messages Hcert Hg Hms) as (Hnd & Hq & Hau).
  destruct (safe_adopt versions known Hk r c a lock messages w db) as (Hs' & Hext & Hl);
    try done; [rewrite Hact; by eapply certifies_hash|by apply Hkey| |].
  { intros s (message & -> & [i Hi]%list_elem_of_lookup)%list_elem_of_fmap.
    destruct (Forall2_lookup_l _ _ _ _ _ Hrows Hi) as (e & He%list_elem_of_lookup_2 & Heq).
    rewrite Forall_forall in Hstored. specialize (Hstored _ He). rewrite Heq, Hid in Hstored.
    by rewrite Hact. }
  rewrite Hact in Hs', Hext, Hl. split_and!; [done|done| |done].
  eapply stable_handles; [done|apply Hh].
Qed.

(** ** Records *)

Lemma step_ingressMembership a P :
  step P (ingressMembership (R := R) versions input a) (fun m w => memberOf a m w).
Proof.
  unfold ingressMembership.
  eapply step_bind; [apply _|by apply step_reads; apply _|intros [r|]].
  - apply (step_pre _ _ (fun w => jm_get (conversations w) (conversationId a) = Some r));
      [|naive_solver].
    eapply step_bind; [apply _|apply step_conversationAt; [apply _|]|intros c].
    { intros w Hs Hr. destruct (wf_conversations w (safe_wf _ _ w Hs) _ _ Hr) as (c & ? & _).
      by exists c. }
    apply step_ret; [apply _|]. intros w Hs [Hr Hc] _.
    destruct (wf_conversations w (safe_wf _ _ w Hs) _ _ Hr) as (c' & Hc' & Hid). simplify_eq.
    exists r. split; [done|by exists c].
  - destruct a; [|apply step_fail; apply _]. eapply step_weaken; [by apply step_known; apply _|done|done].
Qed.

Lemma step_ensureConversation m record P :
  let a := core_action (recordCore record) in
  step P (ensureConversation (R := R) m record)
    (fun found w => forall r, found = Some r -> handles a r w).
Proof.
  intros a. unfold ensureConversation. fold a.
  eapply step_bind; [apply _|by apply step_reads; apply _|intros [r|]].
  { apply step_ret; [apply _|]. intros w Hs [_ Hr] r'. injection 1 as <-.
    by apply (handles_held versions known). }
  destruct a as [genesis|post]; [destruct (routerAnchor record)|]; try by apply step_ret; [apply _|].
  eapply step_bind; [apply _|eapply lift, step_newConversation|intros r].
  apply step_ret; [apply _|]. intros w Hs Hr r'. injection 1 as <-. split; [|done].
  eexists. by split.
Qed.

Lemma step_mergeActionCertificate fold signatures :
  step (foldExists fold) (mergeActionCertificate versions maximumEncodedBytes fold signatures)
    (fun _ _ => True).
Proof.
  apply lift. unfold mergeActionCertificate.
  apply step_forEach; [apply _|apply lasting_fold|]. intros representation _.
  eapply step_bind; [apply _|apply step_foldAt; [apply _|done]|intros f].
  eapply step_bind; [apply _|apply step_conversationAt; [apply _|]|intros c].
  { intros w Hs [_ Hf]. by eapply fold_conversation_lasts. }
  eapply step_bind; [apply _|by apply step_known; apply _|intros evidence].
  apply (step_pre _ _ (foldExists fold)); [|naive_solver].
  case_match; [by apply step_mergeEvidence|apply step_fail; apply _].
Qed.

Lemma step_recordLock r record m :
  let a := core_action (recordCore record) in
  known a -> certifies record m ->
  step (handlesAs a m r)
    (catch (fun e =>
       match e with
       | Store reason =>
           if negb (isGenesis a) && bool_decide (reason = StoreDatabase.conflict)
           then Some (supersedeLock versions maximumEncodedBytes r record) else None
       | _ => None
       end) (lockAction versions r a (core_actionHash (recordCore record))))
    (fun _ w => handles a r w /\ locks a (core_actionHash (recordCore record)) w).
Proof.
  intros a Ha Hcert. apply step_catch; [apply _|by eauto with lasting| |].
  - eapply step_pre; [apply lift, step_lockAction; [done..|by eapply certifies_hash]|].
    by intros w _ [].
  - intros [] k; try done. case_match eqn:Hb; [|done]. injection 1 as <-.
    apply andb_true_iff in Hb as [Hg%negb_true_iff _]. by apply step_supersedeLock.
Qed.

Lemma step_prepareRecordFold ingress m record :
  let a := core_action (recordCore record) in
  known a -> certifies record m ->
  step (memberOf a m) (prepareRecordFold versions maximumEncodedBytes ingress m record)
    (fun found w => forall fold, found = Some fold -> foldExists fold w).
Proof.
  intros a Ha Hcert. unfold prepareRecordFold. fold a.
  after; [apply lift, step_option|]. intros outer_.
  apply (step_pre _ _ (memberOf a m)); [|naive_solver].
  after; [apply step_ensureConversation|]. intros [r|]; [|by apply step_ret; [apply _|]].
  apply (step_pre _ _ (handlesAs a m r)); [|intros w _ (Hr & Hm); split; [by apply Hr|done]].
  eapply step_bind; [apply _|apply step_conversationAt; [apply _|]|intros c].
  { intros w _ [Hr _]. by eapply handles_exists. }
  eapply step_bind; [apply _|apply lift, step_gapFree|intros free].
  apply (step_pre _ _ (handlesAs a m r)); [|naive_solver].
  case_match; [by apply step_ret; [apply _|]|].
  eapply step_bind; [apply _|by apply step_recordLock|intros []].
  eapply step_bind; [apply _|apply lift, (step_foldFor _ _ Hk); [done|by eapply certifies_hash]|].
  intros fold. apply (step_pre _ _ (foldExists fold));
    [|intros w Hs; eapply registered_exists, Hs].
  after; [apply step_mergeActionCertificate|]. intros [].
  apply step_ret; [apply _|]. intros w _ [_ ?] fold'. by injection 1 as <-.
Qed.

(** *** Accepting *)

Lemma step_stage fold record :
  step (foldExists fold) (stageActionCertificate versions maximumEncodedBytes input fold record ;;
    mret accepted) (fun _ _ => True).
Proof.
  eapply step_bind; [apply _|by apply lift, step_stageActionCertificate|intros []].
  by apply step_ret; [apply _|].
Qed.

Lemma step_acceptActionCertifiedRecord ingress record :
  known (core_action (recordCore record)) ->
  step (fun _ => True)
    (acceptActionCertifiedRecord versions maximumEncodedBytes input ingress record)
    (fun _ _ => True).
Proof.
  intros Ha. unfold acceptActionCertifiedRecord.
  apply (step_bind _ _ _ _ _ (fun m w => memberOf (core_action (recordCore record)) m w /\
    certifies record m)).
  { unfold membershipForRecord.
    eapply step_bind; [apply _|apply step_ingressMembership|intros m].
    eapply step_bind; [apply _|by apply step_known; apply _|intros h].
    apply step_ret; [apply _|]. intros w _ [? ?]. split; [done|by exists h]. }
  intros m. apply step_assume. intros Hcert.
  eapply step_bind; [apply _|by apply step_prepareRecordFold|intros [fold|]];
    [|by apply step_ret; [apply _|]].
  eapply step_pre; [apply step_stage|eauto].
Qed.

(** The promotion of a record another member certified. *)
Lemma step_applyRecord fold record stored delivery (votes : list SignedMessages.SignedMessage) h :
  step (foldExists fold)
    (uninterruptible (
      n ← draw;
      store (StoreRecords.applyCertifiedRecord stored delivery (tokenDraws n)) ;;
      sync (fun w => foldl (fun w vote =>
          updateFold fold (set_durabilityEvidence (addEvidence vote)) w)
        (set_recordFolds (fun m => jm_set m h fold)
          (updateFold fold (set_recordHash h) w)) votes) ;;
      completePromotion input fold record)) (fun _ _ => True).
Proof.
  apply lift, step_uninterruptible.
  eapply step_then; [apply lasting_fold|apply step_draw|intros n].
  eapply step_then; [apply lasting_fold|apply step_keepsLocks, applyCertifiedRecord_keepsLocks|].
  intros ?. eapply step_then; [apply lasting_fold| |intros []; by apply step_completePromotion].
  apply step_updates. intros w Hs Hf.
  trans (set_recordFolds (fun m => jm_set m h fold) (updateFold fold (set_recordHash h) w)).
  - etrans; [apply updates_fold, (gathers_recordHash h)|]. apply updates_recordFolds.
    eapply lasting_fold; [|exact Hf]. apply updates_grows, updates_fold, gathers_recordHash.
  - generalize (set_recordFolds (fun m => jm_set m h fold) (updateFold fold (set_recordHash h) w)).
    induction votes as [|vote votes IH]; intros w'; simpl; [reflexivity|].
    etrans; [apply updates_fold, (gathers_durability vote)|apply IH].
Qed.

Lemma step_acceptCertifiedRecord ingress record :
  known (core_action (recordCore (actionCertifiedRecord record))) ->
  step (fun _ => True) (acceptCertifiedRecord versions maximumEncodedBytes input ingress record)
    (fun _ _ => True).
Proof.
  intros Ha. unfold acceptCertifiedRecord.
  eapply step_bind; [apply _|apply step_ingressMembership|intros m].
  eapply step_bind; [apply _|by apply step_known; apply _|intros evidence].
  apply step_assume. intros Hv.
  assert (certifies (actionCertifiedRecord record) m) as Hcert.
  { unfold verifyCertifiedRecord in Hv. apply bind_Some in Hv as (h & Hh & _). by exists h. }
  eapply step_bind; [apply _|by apply step_prepareRecordFold|intros [fold|]];
    [|by apply step_ret; [apply _|]].
  apply (step_pre _ _ (foldExists fold)); [|eauto].
  after; [by apply lift, step_certifiedRecordRows|]. intros [stored delivery].
  apply (step_pre _ _ (foldExists fold)); [|naive_solver].
  after; [apply step_applyRecord|]. intros [].
  apply (step_pre _ _ (foldExists fold)); [|naive_solver].
  eapply step_bind; [apply _|by apply lift, step_conversationIdOf|intros c].
  eapply step_bind; [apply _|by apply lift, step_rebasePendingIntents|intros []].
  eapply step_bind; [apply _|by apply lift, step_headAdvanced|intros []].
  by apply step_ret; [apply _|].
Qed.

(** ** Ingress *)

(** The actions an ingress hands over. *)
Definition handed (packet : DirectPacket) : option ActionCore :=
  match packet with
  | PacketProposal proposal => Some (ap_action proposal)
  | PacketActionCertified record => Some (core_action (recordCore record))
  | PacketCertified record => Some (core_action (recordCore (actionCertifiedRecord record)))
  | PacketRequest _ | PacketPage _ | PacketIncomplete _ | PacketReanchor _ => None
  end.
Definition handedBy (ingress : Ingress) : option ActionCore :=
  match payload ingress with Direct packet => handed packet | Evidence _ => None end.

Lemma step_ignoring m : step (fun _ => True) m (fun _ _ => True) ->
  step (fun _ => True) (ignoring (R := R) m) (fun _ _ => True).
Proof.
  intros Hm. unfold ignoring. apply step_catch; [apply _|by eauto with lasting| |].
  - apply step_catch; [apply _|by eauto with lasting|done|].
    intros e k. case_decide; [|done]. injection 1 as <-. by apply step_ret; [apply _|].
  - intros [] k; try done. injection 1 as <-.
    case_match; [by apply step_ret; [apply _|]|apply step_fail; apply _].
Qed.

Lemma step_acceptPacket ingress packet :
  (forall a, handed packet = Some a -> known a) ->
  step (fun _ => True) (acceptPacket versions maximumEncodedBytes input ingress packet)
    (fun _ _ => True).
Proof.
  intros Ha. destruct packet; simpl in *; try by apply step_ret; [apply _|].
  - apply lift, (step_acceptProposal _ _ _ _ Hk); eauto.
  - apply step_acceptActionCertifiedRecord; eauto.
  - apply step_acceptCertifiedRecord; eauto.
Qed.

Lemma step_acceptEngineIngress ingress supplied :
  (forall a, handedBy ingress = Some a -> known a) ->
  step (fun _ => True) (acceptEngineIngress versions maximumEncodedBytes input ingress supplied)
    (fun _ _ => True).
Proof.
  unfold handedBy, acceptEngineIngress. intros Ha. apply step_ignoring.
  destruct (payload ingress); [by apply step_acceptPacket|].
  eapply (step_bind _ _ _ _ _ (fun _ _ => True)); [|intros s; by apply lift, step_acceptEvidence].
  case_match; [by apply step_ret; [apply _|]|].
  by eapply step_true; apply step_known; apply _.
Qed.

Lemma step_acceptEngineRecoveryIngress ingress :
  (forall a, handedBy ingress = Some a -> known a) ->
  step (fun _ => True)
    (acceptEngineRecoveryIngress versions maximumEncodedBytes input ingress) (fun _ _ => True).
Proof.
  unfold handedBy, acceptEngineRecoveryIngress. intros Ha. apply step_ignoring.
  destruct (payload ingress) as [[]|]; try by apply step_ret; [apply _|].
  apply step_acceptCertifiedRecord; eauto.
Qed.

End records.
End CertificationRecords.
