(* ===== verification/SendSteps.v ===== *)
(** SendSteps: preparing, binding and activating an intent keep what
    CertificationSafety states, however they end. *)
From S2P Require Import Prelude JsMap Json Identifiers CollectivePart Address SignedMessages.
From S2P Require Import SealedBody StoreDatabase StoreQueues StoreLocks RecordSchemas Records.
From S2P Require Import OuterBody StoredHistory StoreRecords StoreAnchors EngineRuntime.
From S2P Require Import EngineInvariants HistoryBuild Outbox Send EngineQuiet Certification.
From S2P Require Import CertificationSafety CertificationSteps.
Local Open Scope nat_scope.

Module SendSteps.
Import Json Identifiers CanonicalJson StoreDatabase StoreRows StoreLocks RecordSchemas Records OuterBody.
Import EngineRuntime EngineLogic EngineInvariants HistoryBuild Outbox Fences Send EngineQuiet.
Import CertificationSafety CertificationSteps.

(** ** Prepared intents *)

(** A prepared intent is of the conversation of its membership. *)
Definition isPrepared (prepared : PreparedSend) : Prop :=
  pi_conversationId (ps_intent prepared) = md_conversationId (descriptor (ps_membership prepared)).

Lemma filtered_keyword p (o : list (string * JsonValue)) k s :
  keyword (filtered p) o k = Some s -> jm_get o k = Some (JString s).
Proof.
  unfold keyword, filtered. intros (v & Hv & (t & Ht & Hp)%bind_Some)%bind_Some.
  destruct v; simplify_eq/=. by destruct (p _); simplify_eq.
Qed.

Lemma decodeIntent_conversation `{Base64Url} `{HostJson} versions i i' :
  decodeIntent versions (intentJson i) = Some i' -> pi_conversationId i' = pi_conversationId i.
Proof.
  unfold decodeIntent, versioned. intros ([? o] & (o' & Ho & (? & _ & (? & _ & [= <- <-])%bind_Some)
    %bind_Some)%bind_Some & (c & Hc%filtered_keyword & Hd)%bind_Some)%bind_Some.
  repeat apply bind_Some in Hd as (? & _ & Hd). simplify_eq/=.
  unfold exactStruct in Ho. apply bind_Some in Ho as (o & [= <-] & Ho).
  destruct (forallb _ _); [|done]. injection Ho as <-. vm_compute in Hc. by injection Hc.
Qed.

Lemma decodeGenesisAnchor_conversation `{Base64Url} `{HostJson} versions a a' :
  decodeGenesisAnchor versions (genesisAnchorJson a) = Some a' ->
  ga_conversationId a' = ga_conversationId a.
Proof.
  unfold decodeGenesisAnchor, versioned. intros ([? o] & (o' & Ho & (? & _ & (? & _ & [= <- <-])
    %bind_Some)%bind_Some)%bind_Some & (c & Hc%filtered_keyword & Hd)%bind_Some)%bind_Some.
  repeat apply bind_Some in Hd as (? & _ & Hd). simplify_eq/=.
  unfold exactStruct in Ho. apply bind_Some in Ho as (o & [= <-] & Ho).
  destruct (forallb _ _); [|done]. injection Ho as <-. vm_compute in Hc. by injection Hc.
Qed.

Section send_steps.
Context `{Base64Url} `{HostJson} `{Jose} `{Sha256} `{JoseEncryption} `{!EngineHost} `{!SendHost}.
Context (versions : option Wire.WireVersions) (maximumEncodedBytes : Z).
Context {R : Type} `{!RecoveryPhase R} (input : EndpointEngineInput).
Context (known : ActionCore -> Prop).

#[local] Abbreviation World := (World R).
#[local] Abbreviation Engine := (@Engine R).
#[local] Abbreviation safe := (safe (R := R) versions known).
#[local] Abbreviation step P m Q := (EngineLogic.step safe grows P m Q).
#[local] Hint Extern 0 (rowsGrow _ _) => reflexivity : core.
#[local] Abbreviation calm P m Q := (EngineLogic.step (@wellFormed R) quiet P m Q).

(** Reading, and checking what was read. *)
Lemma any_represented {A} Inv G (o : option A) (P : World -> Prop) `{!PreOrder G} :
  EngineLogic.step Inv G P (represented o) (fun a _ => o = Some a).
Proof. apply step_ofOption; [apply _|]. naive_solver. Qed.

Lemma calm_membershipFor memberCards P : stable quiet P ->
  calm P (membershipFor versions input memberCards) (fun _ _ => True).
Proof.
  intros HP. unfold membershipFor, conversationIdOf.
  eapply calm_then; [done|by eapply step_true, any_represented; apply _|]. intros c.
  eapply step_bind; [apply _|by apply step_reads; apply _|intros [r|]].
  - eapply step_bind; [apply _|apply step_conversationAt; [apply _|]|intros ?; apply calm_ret].
    intros w Hw [_ Hr]. symmetry in Hr. apply (wf_conversations w Hw) in Hr as (c' & Hc & _).
    by exists c'.
  - apply (step_pre _ _ P); [|naive_solver].
    eapply calm_then; [done|by eapply step_true, any_represented; apply _|]. intros ?.
    eapply calm_then; [done|by eapply step_true, any_represented; apply _|]. intros ?.
    by eapply step_true, any_represented; apply _.
Qed.

Lemma prepareIntent_prepared memberCards content P : stable quiet P ->
  calm P (prepareIntent versions input memberCards content)
    (fun prepared _ => isPrepared prepared).
Proof.
  intros HP. unfold prepareIntent.
  eapply calm_then; [done|by apply calm_membershipFor|intros m].
  eapply calm_then; [done| |intros id].
  { unfold mintPostId. eapply calm_then; [done|by apply calm_draw|intros n].
    by eapply step_true, any_represented; apply _. }
  eapply step_bind; [apply _|by apply any_represented; apply _|]. intros i.
  eapply step_pre with (P := fun _ => True /\ pi_conversationId i = md_conversationId (descriptor m));
    [|by intros w _ Hi%decodeIntent_conversation].
  apply step_assume. intros Hi.
  eapply step_bind; [apply _|by apply any_represented; apply _|]. intros canonical.
  by apply step_ret; [apply _|].
Qed.

(** ** Binding *)

Lemma calm_createConversation m (P : World -> Prop) : stable quiet P ->
  calm P (createConversation versions m)
    (fun made _ => ec_conversationId made.1 = md_conversationId (descriptor m)).
Proof.
  intros HP. unfold createConversation. do 6 (eapply calm_then; [done| |intros ?];
    [first [apply calm_gets|apply calm_option]|]).
  by apply step_ret; [apply _|].
Qed.

Lemma calm_failBind {A} e (P : World -> Prop) Q :
  calm P (failBind (A := A) e) Q.
Proof.
  unfold failBind. case_match; [apply step_fail; apply _|]. case_match; [|apply step_fail; apply _].
  eapply step_bind; [apply _|by apply calm_reportStorageFault|].
  intros []. apply step_fail; apply _.
Qed.

Lemma calm_bindWith admission binding (P : World -> Prop) : keepsLocks (attempted admission binding) ->
  stable quiet P -> calm P (bindWith admission binding) (fun _ _ => True).
Proof.
  intros Ha HP. unfold bindWith. eapply calm_then; [done|by apply calm_store|].
  intros [d|e]; [by apply step_ret; [apply _|]|apply calm_failBind].
Qed.

(** What a quiet computation keeps holds after it. *)
Lemma step_calmThen {A B} (P : World -> Prop) (m : Engine A) (k : A -> Engine B) Q S :
  stable quiet P -> calm P m Q -> (forall a, step (fun w => Q a w /\ P w) (k a) S) ->
  step P (m ≫= k) S.
Proof.
  intros HP Hm Hk. eapply step_bind; [apply _| |exact Hk].
  apply step_calmly. eapply step_pre; [by apply (step_frame _ _ P P)|]. naive_solver.
Qed.

Lemma step_assumeFirst {A} (phi : Prop) (P : World -> Prop) (m : Engine A) Q :
  (phi -> step P m Q) -> step (fun w => phi /\ P w) m Q.
Proof. intros Hm masked patience w Hs [Hphi Hp]. by apply Hm. Qed.

Lemma stable_unheld c : stable quiet (fun w : World => jm_get (conversations w) c = None).
Proof. intros w w' []. congruence. Qed.

(** Holding a new conversation. *)
Lemma step_holdConversation {A} c (a : A) :
  step (fun w => jm_get (conversations w) (ec_conversationId c) = None)
    (r ← gets (fun w => length (conversationHeap w));
     sync (fun w => set_conversations (fun m => jm_set m (ec_conversationId c) r)
       (set_conversationHeap (fun h => (h ++ [c])%list) w)) ;;
     mret a)
    (fun _ _ => True).
Proof.
  eapply step_bind; [apply _|by apply step_reads; apply _|intros r].
  eapply (step_bind _ _ _ _ _ (fun _ _ => True)); [|intros []; by apply step_ret; [apply _|]].
  apply step_sync. intros w Hs [Hnone ->].
  assert (safe (set_conversationHeap (fun h => (h ++ [c])%list) w)) as Hs'.
  { eapply updates_safe, Hs. apply updates_newConversation. }
  destruct (safe_holds versions known (ec_conversationId c) (length (conversationHeap w)) _ Hs')
    as [Hs2 Hg]; [done| |].
  { exists c. split; [|done]. simpl. by rewrite lookup_app_r, Nat.sub_diag by lia. }
  split_and!; [done| |done]. etrans; [|exact Hg]. apply updates_grows, updates_newConversation.
Qed.

(** A conversation that is new when its first intent binds. *)
Lemma step_bindPreparedIntent prepared admission :
  isPrepared prepared -> (forall binding, keepsLocks (attempted admission binding)) ->
  step (fun _ => True) (bindPreparedIntent versions prepared admission) (fun _ _ => True).
Proof.
  intros Hp Ha. unfold bindPreparedIntent.
  eapply step_bind; [apply _|by apply step_reads; apply _|intros [r|]].
  - eapply step_bind; [apply _|apply step_conversationAt; [apply _|]|intros c].
    { intros w Hs [_ Hr]. symmetry in Hr.
      destruct (wf_conversations w (safe_wf _ _ w Hs) _ _ Hr) as (c & ? & _). by exists c. }
    case_decide; [apply step_fail; apply _|].
    eapply step_calm. by apply calm_bindWith.
  - apply (step_pre _ _ (fun w => jm_get (conversations w) (pi_conversationId (ps_intent prepared)) = None));
      [|naive_solver].
    eapply step_calmThen; [apply stable_unheld|apply calm_createConversation|intros [c foundation]].
    { apply stable_unheld. }
    apply step_assumeFirst. intros Hc.
    eapply step_calmThen; [apply stable_unheld|by apply calm_bindWith, stable_unheld|intros disposition].
    case_decide; [|by apply step_ret; [apply _|]].
    eapply step_pre; [apply step_holdConversation|]. simpl in Hc. intros w _ [_ Hn].
    by rewrite Hc, <- Hp.
Qed.

(** ** Activation *)

Lemma calm_settleOrPropose i completion completed :
  calm (fun w => is_Some (intentHeap w !! i))
    (settleOrPropose versions maximumEncodedBytes input i completion completed) (fun _ _ => True).
Proof.
  unfold settleOrPropose. destruct completed; [apply calm_settleLatch|].
  eapply (step_bind _ _ _ _ _ (fun _ _ => True)); [apply calm_proposeIntent|].
  intros ?. apply calm_ret.
Qed.

Lemma calm_pendingActivation (P : World -> Prop) : stable quiet P ->
  calm P pendingActivation (fun _ _ => True).
Proof.
  intros HP. unfold pendingActivation. eapply calm_then; [done|by apply calm_makeLatch|intros r].
  eapply calm_then; [done|by apply calm_settleLatch|intros []]. apply calm_ret.
Qed.

Lemma step_newIntent intent (P : World -> Prop) :
  step P (newIntent intent) (fun i w => is_Some (intentHeap w !! i)).
Proof.
  unfold newIntent. eapply step_bind; [apply _|by apply step_reads; apply _|intros i].
  eapply (step_bind _ _ _ _ _ (fun _ w => is_Some (intentHeap w !! i)));
    [|intros []; by apply step_ret; [apply _|]].
  apply step_sync. intros w Hs [_ ->].
  destruct (safe_quiet versions known w (set_intentHeap (fun h => (h ++ [intent])%list) w)); auto.
  { constructor; auto. intros i [ep Hi]. exists ep. by apply lookup_app_l_Some. }
  split_and!; [done..|]. simpl. by rewrite lookup_app_r, Nat.sub_diag by lia.
Qed.

Lemma step_retainIntent post i :
  step (fun w => is_Some (intentHeap w !! i)) (sync (set_intents (fun m => jm_set m post i)))
    (fun _ w => is_Some (intentHeap w !! i)).
Proof.
  eapply (step_weaken _ _ _ _ _ (fun _ w => True /\ is_Some (intentHeap w !! i)));
    [|intros w _ Hi; exact (conj Hi Hi)|by intros ? w _ [_ Hi]].
  apply (step_frame _ _ _ (fun w => is_Some (intentHeap w !! i))).
  { apply stable_extends, stable_intent. }
  apply step_updates. intros w _ Hi. constructor; try done; simpl; eauto.
  - intros j [->|?]%jm_set_targets; auto.
  - intros r c ?. by exists c.
  - intros r f ?. by exists f.
  - intros r f ?. by exists f.
Qed.

Lemma step_activateBoundIntent prepared :
  step (fun _ => True) (activateBoundIntent versions maximumEncodedBytes input prepared)
    (fun _ _ => True).
Proof.
  unfold activateBoundIntent. apply step_catch; [apply _|done| |].
  2: { intros e k. injection 1 as <-. by apply step_calmly, calm_pendingActivation. }
  eapply step_bind; [apply _|by apply step_reads; apply _|intros [i|]].
  - apply (step_pre _ _ (fun w => is_Some (intentHeap w !! i))).
    2: { intros w Hs [_ Hi]. symmetry in Hi. apply (wf_intents w (safe_wf _ _ w Hs)).
         by eapply jm_get_target. }
    eapply step_bind; [apply _|apply step_intentAt; [apply _|done]|intros ep].
    apply (step_pre _ _ (fun w => is_Some (intentHeap w !! i))); [|naive_solver].
    eapply step_then; [apply lasting_intent|apply step_any|intros completed].
    eapply step_then; [apply lasting_intent|apply step_calmly, calm_settleOrPropose|intros []].
    by apply step_ret; [apply _|].
  - apply (step_pre _ _ (fun _ => True)); [|done].
    eapply step_then; [done|by apply step_calmly, calm_makeLatch|intros completion].
    eapply step_bind; [apply _|apply step_newIntent|intros i].
    eapply step_then; [apply lasting_intent|apply step_any|intros completed].
    eapply step_bind; [apply _|apply step_retainIntent|intros []].
    eapply step_then; [apply lasting_intent|apply step_calmly, calm_settleOrPropose|intros ?].
    by apply step_ret; [apply _|].
Qed.

Lemma step_activateIntentOnce prepared admission :
  isPrepared prepared -> (forall binding, keepsLocks (attempted admission binding)) ->
  step (fun _ => True) (activateIntentOnce versions maximumEncodedBytes input prepared admission)
    (fun _ _ => True).
Proof.
  intros Hp Ha. unfold activateIntentOnce.
  eapply step_then; [done|apply step_any|intros [barrier|]]; [by apply step_ret; [apply _|]|].
  eapply step_then; [done|by apply step_bindPreparedIntent|intros disposition].
  case_decide; [apply step_activateBoundIntent|by apply step_ret; [apply _|]].
Qed.

Lemma admitIntent_keepsLocks outcome binding : keepsLocks (attempted (admitIntent outcome) binding).
Proof.
  destruct (bindPostIntent_keepsLocks binding) as [Hfail Hkeep Hrows].
  split; unfold attempted, admitIntent, committing; intros db;
    specialize (Hfail db); specialize (Hkeep db); specialize (Hrows db);
    destruct (StoreAnchors.bindPostIntent binding db) as [[r|e] db'], outcome as [| |[]]; simpl in *;
    done.
Qed.

End send_steps.
End SendSteps.

(** Recovery, as certification sees it, is quiet: it changes no fold, head,
    lock or signature.  So no re-anchor is completed and no conversation without
    a record is restarted: both would release locks and let the endpoint sign
    another action for the same predecessor under another anchor. *)
Class QuietRecovery (R : Type) `{!RecoveryPhase R} : Prop := {
  recoveryHeadAdvanced_quiet conversation masked patience w :
    EngineInvariants.EngineInvariants.wellFormed w ->
    EngineInvariants.EngineInvariants.quietly w (recoveryHeadAdvanced conversation masked patience w);
}.

(** The proposals of certification's rebases are sends, which are quiet. *)
Lemma sendPhases_quiet `{Base64Url} `{HostJson} `{Jose} `{Sha256} `{JoseEncryption}
    `{!EngineHost} `{!SendHost} versions maximumEncodedBytes {R} `{!RecoveryPhase R}
    `{!QuietRecovery R} input :
  QuietPhases R (EnginePhases0 := sendPhases versions maximumEncodedBytes input).
Proof.
  split.
  - intros i masked patience w Hw Hi.
    by apply (EngineQuiet.EngineQuiet.calm_quietly _ _ _
      (EngineQuiet.EngineQuiet.calm_proposeIntent versions maximumEncodedBytes input i)).
  - apply recoveryHeadAdvanced_quiet.
Qed.
