(* ===== verification/StartupLaws.v ===== *)
(** StartupLaws: what a rebuilt state is made of.  Every fold is of the action
    a proposal lock names, and holds every durable signature of it. *)
From S2P Require Import Prelude JsMap Identifiers CollectivePart Json SignedMessages StoredHistory.
From S2P Require Import StoreDatabase StoreQueues StoreLocks StoreRecovery RecordSchemas Records.
From S2P Require Import OuterBody EngineRuntime EngineInvariants Certification CertificationSafety.
From S2P Require Import CertificationSteps CertificationRecords Startup.
Local Open Scope nat_scope.

Module StartupLaws.
Import StoreDatabase StoreRows StoreLocks StoreRecovery RecordSchemas Records OuterBody StoredHistory.
Import EngineRuntime EngineLogic EngineInvariants Certification CertificationSafety.
Import CertificationSteps CertificationRecords Startup.

(** ** Maps of objects *)

Lemma foldl_set_get {A V} (key : A -> string) (f : A -> V) l (m : list (string * V)) k v :
  jm_get (foldl (fun m a => jm_set m (key a) (f a)) m l) k = Some v ->
  (exists a, a ∈ l /\ key a = k /\ f a = v) \/ jm_get m k = Some v.
Proof.
  revert m. induction l as [|a l IH]; intros m; simpl; [by right|].
  intros [(b & ? & ? & ?)|Hm]%IH; [left; exists b; split_and!; [by right|done..]|].
  rewrite jm_get_set in Hm. case_decide; [|by right]. simplify_eq. left. exists a.
  split_and!; [by left|done..].
Qed.

Lemma foldl_set_wf {A V} (key : A -> string) (f : A -> V) l (m : list (string * V)) :
  jm_wf m -> jm_wf (foldl (fun m a => jm_set m (key a) (f a)) m l).
Proof. revert m. induction l as [|a l IH]; intros m Hm; simpl; [done|]. by apply IH, jm_set_wf. Qed.

Lemma foldl_set_has {A V} (key : A -> string) (f : A -> V) l (m : list (string * V)) k :
  k ∈ (key <$> l) \/ is_Some (jm_get m k) ->
  is_Some (jm_get (foldl (fun m a => jm_set m (key a) (f a)) m l) k).
Proof.
  revert m. induction l as [|a l IH]; intros m; simpl.
  { by intros [?%elem_of_nil|]. }
  intros [[->|?]%elem_of_cons|[v Hv]]; apply IH; [right| |right].
  - rewrite jm_get_set_eq. eauto.
  - by left.
  - rewrite jm_get_set. case_decide; eauto.
Qed.

Lemma keyed_foldl {A} (entries : list (string * A)) : keyed entries =
  foldl (fun m a => jm_set m a.2 a.1) [] (imap (fun i entry => (i, entry.1)) entries).
Proof.
  unfold keyed. generalize (imap (fun i (entry : string * A) => (i, entry.1)) entries) (@nil (string * Ref)).
  intros l. induction l as [|[i k] l IH]; intros m; simpl; [done|]. apply IH.
Qed.

Lemma keyed_get {A} (entries : list (string * A)) k r : jm_get (keyed entries) k = Some r ->
  exists a, entries !! r = Some (k, a).
Proof.
  rewrite keyed_foldl. intros [([i k'] & Hin & Hk & Hi)|?]%foldl_set_get; [|done]. simpl in *. subst.
  apply elem_of_lookup_imap in Hin as (j & [k' a] & Heq & Hj). simplify_eq/=. by exists a.
Qed.

Lemma keyed_has {A} (entries : list (string * A)) k a : (k, a) ∈ entries ->
  is_Some (jm_get (keyed entries) k).
Proof.
  intros [i Hi]%list_elem_of_lookup. rewrite keyed_foldl. apply foldl_set_has. left.
  apply list_elem_of_fmap. exists (i, k). split; [done|]. apply elem_of_lookup_imap.
  by exists i, (k, a).
Qed.

Lemma keyed_wf {A} (entries : list (string * A)) : jm_wf (keyed entries).
Proof. rewrite keyed_foldl. apply foldl_set_wf, jm_wf_nil. Qed.

(** ** Developing a rebuilt state *)

Record develops (s s' : Rebuilt) : Prop := {
  dev_conversations : rb_conversations s' = rb_conversations s;
  dev_actionFolds : rb_actionFolds s' = rb_actionFolds s;
  dev_conversationHeap : Forall2 sameConversation (rb_conversationHeap s) (rb_conversationHeap s');
  dev_foldHeap : Forall2 gathers (rb_foldHeap s) (rb_foldHeap s');
  dev_recordFolds r : r ∈ (rb_recordFolds s').*2 ->
    r ∈ (rb_recordFolds s).*2 \/ is_Some (rb_foldHeap s !! r);
}.

#[global] Instance develops_preorder : PreOrder develops.
Proof.
  split.
  - intros s. constructor; try done. by left.
  - intros s1 s2 s3 [] []. constructor; [congruence|congruence|by etrans|by etrans|].
    intros r [?%dev_recordFolds0|Hr]%dev_recordFolds1; [done|right].
    apply lookup_lt_is_Some. apply lookup_lt_is_Some in Hr.
    by rewrite (Forall2_length _ _ _ dev_foldHeap0).
Qed.

Lemma alter_Forall2 {A} (P : relation A) `{!Reflexive P} (g : A -> A) i l :
  (forall a, P a (g a)) -> Forall2 P l (alter g i l).
Proof.
  intros Hg. apply Forall2_same_length_lookup_2; [by rewrite length_alter|].
  intros j x y Hx. destruct (decide (i = j)) as [->|].
  - rewrite list_lookup_alter_eq, Hx. by intros [= <-].
  - rewrite list_lookup_alter_ne by done. by intros; simplify_eq.
Qed.

Lemma develops_fold fold g s : (forall f, gathers f (g f)) -> develops s (rebuildFold fold g s).
Proof.
  intros Hg. constructor; simpl; try done; [by apply alter_Forall2; [apply _|]|by left].
Qed.

Lemma develops_record h fold s : is_Some (rb_foldHeap s !! fold) -> develops s (nameRecord h fold s).
Proof.
  intros Hf. constructor; simpl; try done.
  intros r [->|?]%jm_set_targets; [by right|by left].
Qed.

Lemma develops_head r head s : develops s (rebuildHead r head s).
Proof.
  constructor; simpl; try done; [by apply alter_Forall2; [apply _|]|by left].
Qed.

Lemma develops_has s s' fold : develops s s' -> is_Some (rb_foldHeap s !! fold) ->
  is_Some (rb_foldHeap s' !! fold).
Proof.
  intros [] Hf%lookup_lt_is_Some. apply lookup_lt_is_Some. by rewrite <- (Forall2_length _ _ _ dev_foldHeap0).
Qed.

Lemma develops_lookup s s' fold f : develops s s' -> rb_foldHeap s !! fold = Some f ->
  exists f', rb_foldHeap s' !! fold = Some f' /\ gathers f f'.
Proof. intros [] Hf. by eapply Forall2_lookup_l. Qed.

Lemma foldM_ind {A S} (f : S -> A -> option S) (l : list A) (R : relation S) `{!PreOrder R} s s' :
  foldM f s l = Some s' -> (forall a s1 s2, a ∈ l -> R s s1 -> f s1 a = Some s2 -> R s1 s2) -> R s s'.
Proof.
  revert s. induction l as [|a l IH]; intros s; simpl; [by intros [= ->]|].
  intros (s1 & Hs1 & Hrest)%bind_Some Hf.
  assert (R s s1) as Hone by (eapply Hf; [by left|done|done]).
  etrans; [exact Hone|]. apply IH; [done|]. intros b s2 s3 Hb H2 H3. eapply Hf; [by right|by etrans|done].
Qed.

(** Each element of the list was handled in a state that develops into the
    last. *)
Lemma foldM_each {A S} (f : S -> A -> option S) (l : list A) (R : relation S) `{!PreOrder R} s s' a :
  foldM f s l = Some s' -> (forall b s1 s2, b ∈ l -> R s s1 -> f s1 b = Some s2 -> R s1 s2) -> a ∈ l ->
  exists s1 s2, R s s1 /\ f s1 a = Some s2 /\ R s2 s'.
Proof.
  revert s. induction l as [|b l IH]; intros s; simpl; [by intros _ _ ?%elem_of_nil|].
  intros (s1 & Hs1 & Hrest)%bind_Some Hf Ha.
  assert (R s s1) as Hone by (eapply Hf; [by left|done|done]).
  apply elem_of_cons in Ha as [->|Ha].
  - exists s, s1. split_and!; [done|done|]. eapply foldM_ind; [apply _|done|].
    intros c s2 s3 Hc H2 H3. eapply Hf; [by right|by etrans|done].
  - destruct (IH s1 Hrest) as (s2 & s3 & ? & ? & ?); [|done|].
    { intros c s2 s3 Hc H2 H3. eapply Hf; [by right|by etrans|done]. }
    exists s2, s3. split_and!; [by etrans|done|done].
Qed.

Section laws.
Context `{Base64Url} `{HostJson} `{Jose} `{Sha256}.
Context (versions : option Wire.WireVersions) (maximumEncodedBytes : Z).

(** ** Soundness *)

(** The rebuilt objects name each other as an engine's do, and each fold is of
    the action of a lock. *)
Record sound (locks : list ProposalLock) (s : Rebuilt) : Prop := {
  sound_conversation c r : jm_get (rb_conversations s) c = Some r ->
    exists x, rb_conversationHeap s !! r = Some x /\ ec_conversationId x = c;
  sound_fold r f : rb_foldHeap s !! r = Some f ->
    jm_get (rb_conversations s) (conversationId (fold_action f)) = Some (fold_conversation f) /\
    hashAction versions (fold_action f) = Some (fold_actionHash f) /\
    exists l, l ∈ locks /\ pl_actionHash l = fold_actionHash f;
  sound_action h r : (h, r) ∈ rb_actionFolds s ->
    exists f, rb_foldHeap s !! r = Some f /\ fold_actionHash f = h;
  sound_keys : jm_wf (rb_actionFolds s);
  sound_record r : r ∈ (rb_recordFolds s).*2 -> is_Some (rb_foldHeap s !! r);
}.

Lemma sound_develops locks s s' : develops s s' -> sound locks s -> sound locks s'.
Proof.
  intros Hd []. pose proof Hd as []. constructor; rewrite ?dev_conversations0, ?dev_actionFolds0.
  - intros c r (x & Hx & <-)%sound_conversation0.
    destruct (Forall2_lookup_l _ _ _ _ _ dev_conversationHeap0 Hx) as (x' & Hx' & Hid & _). by exists x'.
  - intros r f' Hf'. destruct (Forall2_lookup_r _ _ _ _ _ dev_foldHeap0 Hf') as (f & Hf & (-> & -> & -> & _) & _).
    eauto.
  - intros h r (f & (f' & ? & (_ & _ & <- & _) & _)%(develops_lookup s s' _ _ Hd) & <-)%sound_action0.
    by exists f'.
  - done.
  - intros r [?%sound_record0|?]%dev_recordFolds0; by eapply develops_has.
Qed.

(** ** Memberships and conversations *)

Lemma memberships_named rows key ms c m :
  verifyStoredMemberships versions rows key = Some ms -> jm_get ms c = Some m ->
  md_conversationId (descriptor m) = c.
Proof.
  unfold verifyStoredMemberships. intros (verified & _ & [= <-])%bind_Some.
  intros [(m' & _ & Hc & Hm)|?]%(foldl_set_get _ id); [by subst|done].
Qed.

Lemma recovered_conversations recovery ms current entries :
  (forall c m, jm_get ms c = Some m -> md_conversationId (descriptor m) = c) ->
  recoverConversations recovery ms current = Some entries ->
  forall c x, (c, x) ∈ entries ->
    ec_conversationId x = c /\ md_conversationId (descriptor (ec_membership x)) = c.
Proof.
  intros Hms He%mapM_Some c x [i Hi]%list_elem_of_lookup.
  destruct (Forall2_lookup_r _ _ _ _ _ He Hi) as (p & _ & Hp).
  unfold recoverConversation in Hp. apply bind_Some in Hp as (c' & _ & Hp).
  apply bind_Some in Hp as (m & Hm & Hp). apply bind_Some in Hp as (a & _ & [= <- <-]).
  split; [done|]. by apply Hms.
Qed.

(** ** Folds of the locks *)

Lemma recovered_fold conversations byHash lock h f :
  (forall c x, (c, x) ∈ conversations ->
    ec_conversationId x = c /\ md_conversationId (descriptor (ec_membership x)) = c) ->
  recoverActionFold versions conversations byHash lock = Some (h, f) ->
  h = pl_actionHash lock /\ fold_actionHash f = h /\
  hashAction versions (fold_action f) = Some h /\
  jm_get (keyed conversations) (conversationId (fold_action f)) = Some (fold_conversation f).
Proof.
  intros Hcs Hl. unfold recoverActionFold in Hl.
  apply bind_Some in Hl as (c & _ & Hl). apply bind_Some in Hl as (r & Hr & Hl).
  apply bind_Some in Hl as (x & Hx & Hl). apply bind_Some in Hl as (a & _ & Hl).
  apply bind_Some in Hl as (h' & Hh' & Hl). apply bind_Some in Hl as (va & Hva & Hl).
  case_decide as Heq; [done|].
  apply bind_Some in Hl as (anchor & _ & [= <- <-]). simpl.
  unfold checked in Hh'. case_match; [|done]. injection Hh' as <-.
  split_and!; [done|done|rewrite <- Heq; by eapply action_core_hash|].
  pose proof (keyed_get _ _ _ Hr) as (x' & Hx').
  rewrite list_lookup_fmap, Hx' in Hx. injection Hx as <-.
  destruct (Hcs c x') as [_ Hm]; [by eapply list_elem_of_lookup_2|].
  unfold verifyActionCore in Hva. destruct (negb _) eqn:Href; [done|].
  apply negb_false_iff in Href. unfold actionReferencesMembership in Href.
  destruct (_ || _) eqn:Hb in Href; [done|].
  apply orb_false_elim in Hb as [Hb%bool_decide_eq_false%dec_stable _]. by rewrite Hb, Hm.
Qed.

Lemma recovered_folds locks conversations byHash s :
  (forall c x, (c, x) ∈ conversations ->
    ec_conversationId x = c /\ md_conversationId (descriptor (ec_membership x)) = c) ->
  recoverActionFolds versions locks conversations byHash = Some s ->
  sound locks s /\ forall l, l ∈ locks -> is_Some (jm_get (rb_actionFolds s) (pl_actionHash l)).
Proof.
  intros Hcs (entries & He%mapM_Some & [= <-])%bind_Some. split; [constructor; simpl|].
  - intros c r (x & Hx)%keyed_get. exists x. rewrite list_lookup_fmap, Hx. split; [done|].
    by eapply Hcs, list_elem_of_lookup_2.
  - intros r f Hf. apply list_lookup_fmap_Some in Hf as ([h f'] & -> & Hf').
    destruct (Forall2_lookup_r _ _ _ _ _ He Hf') as (l & Hl%list_elem_of_lookup_2 & Hr).
    destruct (recovered_fold _ _ _ _ _ Hcs Hr) as (-> & Hh & ? & ?). simpl.
    split_and!; [done|by rewrite Hh|]. by exists l.
  - intros h r Hin. apply (jm_get_elem _ _ _ (keyed_wf _)) in Hin.
    apply keyed_get in Hin as (f & Hf). exists f. rewrite list_lookup_fmap, Hf. split; [done|].
    destruct (Forall2_lookup_r _ _ _ _ _ He Hf) as (l & _ & Hr).
    by destruct (recovered_fold _ _ _ _ _ Hcs Hr) as (_ & ? & _).
  - apply keyed_wf.
  - by intros r ?%elem_of_nil.
  - simpl. intros l [i Hi]%list_elem_of_lookup.
    destruct (Forall2_lookup_l _ _ _ _ _ He Hi) as ([h f] & Hf & Hr).
    destruct (recovered_fold _ _ _ _ _ Hcs Hr) as (-> & _).
    by eapply keyed_has, list_elem_of_lookup_2.
Qed.

(** ** Staged records, evidence and certified records *)

Lemma checked_value p value v : checked p value = Some v -> v = value.
Proof. unfold checked. case_match; [|done]. by injection 1. Qed.

Lemma foldOf_some s fold f c : foldOf s fold = Some (f, c) ->
  rb_foldHeap s !! fold = Some f /\ rb_conversationHeap s !! fold_conversation f = Some c.
Proof. unfold foldOf. intros (f' & ? & (c' & ? & [= <- <-])%bind_Some)%bind_Some. done. Qed.

Lemma develops_staged s staged s' : recoverStagedFold versions s staged = Some s' ->
  develops s s' /\ is_Some (jm_get (rb_actionFolds s) (sr_actionHash staged)).
Proof.
  unfold recoverStagedFold. intros (h & ->%checked_value & (rh & _ & Hs)%bind_Some)%bind_Some.
  apply bind_Some in Hs as (fold & Hfold & ([f c] & Hf & Hs)%bind_Some).
  apply bind_Some in Hs as (core & _ & (vh & _ & Hs)%bind_Some). case_match; [|done].
  injection Hs as <-. split; [|by exists fold]. apply foldOf_some in Hf as [Hf _].
  etrans; [apply develops_fold; intros; apply gathers_recordHash|]. apply develops_record.
  simpl. apply lookup_lt_is_Some. rewrite length_alter. by eapply lookup_lt_Some.
Qed.

(** An action's row is held by its fold afterwards. *)
Lemma develops_evidence s row s' :
  recoverEvidenceRow versions maximumEncodedBytes s row = Some s' ->
  develops s s' /\ (pe_kind row = ActionEvidence -> exists fold f',
    jm_get (rb_actionFolds s) (pe_subjectId row) = Some fold /\ rb_foldHeap s' !! fold = Some f' /\
    jm_has (fold_actionEvidence f') (evidenceKey row) = true).
Proof.
  unfold recoverEvidenceRow, foldForEvidence. intros (target & Ht & Hs)%bind_Some.
  destruct target as [[fold kind]|]; [|injection Hs as <-; split; [done|]].
  2: { intros Hk. rewrite Hk in Ht. apply bind_Some in Ht as (? & _ & Ht).
       by apply bind_Some in Ht as (? & _ & [=]). }
  unfold restoreFoldEvidence in Hs. apply bind_Some in Hs as (message & _ & ([f c] & Hf & Hs)%bind_Some).
  apply bind_Some in Hs as (verified & Hv & Hs). destruct (foldEvidenceMatches _ _ _ _ _) eqn:Hm; [|done].
  injection Hs as <-. split; [apply develops_fold; intros; apply gathers_role|].
  intros Hk. rewrite Hk in Ht. apply bind_Some in Ht as (subject & ->%checked_value & Ht).
  apply bind_Some in Ht as (fold' & Hfold & [= <- <-]). apply foldOf_some in Hf as [Hf _].
  exists fold', (set_actionEvidence (addEvidence (ev_message verified)) f). split_and!; [done|..].
  - simpl. by rewrite list_lookup_alter_eq, Hf.
  - simpl. apply jm_has_set. left. unfold foldEvidenceMatches in Hm.
    apply andb_true_iff in Hm as [[[_ Hkey%bool_decide_eq_true]%andb_true_iff _]%andb_true_iff _].
    rewrite Hkey. symmetry. by eapply stable_sender.
Qed.

Lemma gathers_messages messages f : gathers f (set_actionEvidence (addAll messages) f).
Proof.
  revert f. induction messages as [|m messages IH]; intros f; [by split_and!|].
  etrans; [apply (gathers_action m)|]. apply IH.
Qed.

Lemma develops_certified byHash s stored s' :
  is_Some (jm_get (rb_actionFolds s) (sr_actionHash (row stored))) ->
  (forall h r, (h, r) ∈ rb_actionFolds s -> is_Some (rb_foldHeap s !! r)) ->
  recoverCertifiedFold versions maximumEncodedBytes byHash s stored = Some s' -> develops s s'.
Proof.
  intros [fold Hfold] Hheap. unfold recoverCertifiedFold.
  intros ([[r c] anchor] & _ & (record & Hrecord & Hs)%bind_Some)%bind_Some.
  apply bind_Some in Hs as (ae & _ & (de & _ & Hs)%bind_Some).
  assert (core_actionHash (recordCore (actionCertifiedRecord record)) = sr_actionHash (row stored)) as Hact.
  { unfold recordFromStore in Hrecord. apply bind_Some in Hrecord as (record' & _ & Hrecord).
    apply bind_Some in Hrecord as (? & _ & Hrecord).
    destruct (storedRowMatchesCore _ _ _) eqn:Hmatch; [|done]. injection Hrecord as <-. unfold storedRowMatchesCore in Hmatch.
    repeat (apply andb_true_iff in Hmatch as [Hmatch ?]). by eapply symmetry, bool_decide_eq_true_1. }
  unfold certifiedFold in Hs. rewrite Hact, Hfold in Hs. injection Hs as <-.
  assert (is_Some (rb_foldHeap s !! fold)) as Hf by (eapply Hheap, jm_get_some_elem, Hfold).
  trans (nameAction (sr_actionHash (row stored)) fold s).
  { unfold nameAction. rewrite jm_set_same by done. by destruct s. }
  etrans; [apply (develops_fold fold (completeRecoveredFold
    (recordHash (actionCertifiedRecord record)) ae de))|].
  { intros f. unfold completeRecoveredFold. etrans; [apply (gathers_messages ae)|]. by split_and!. }
  etrans; [apply (develops_record (recordHash (actionCertifiedRecord record)) fold)|apply develops_head].
  simpl. apply lookup_lt_is_Some. rewrite length_alter. by apply lookup_lt_is_Some.
Qed.

(** ** The recovered state *)

Lemma readable_some {A} (o : option A) a : readable o = Succeed a -> o = Some a.
Proof. destruct o; [|done]. by injection 1 as ->. Qed.

Lemma recovered_sound agent key stored recovered :
  recoverEngineState versions maximumEncodedBytes agent key stored = Succeed recovered ->
  (forall r, r ∈ certifiedRecords (st_history stored) ->
     row r ∈ stagedRecords (st_history stored)) ->
  let s := rs_objects recovered in
  sound (st_proposalLocks stored) s /\
  (forall l, l ∈ st_proposalLocks stored -> is_Some (jm_get (rb_actionFolds s) (pl_actionHash l))) /\
  (forall e, e ∈ st_evidence stored -> pe_kind e = ActionEvidence -> exists fold f,
     jm_get (rb_actionFolds s) (pe_subjectId e) = Some fold /\ rb_foldHeap s !! fold = Some f /\
     jm_has (fold_actionEvidence f) (evidenceKey e) = true).
Proof.
  intros Hr Hrows. unfold recoverEngineState in Hr.
  apply bind_succeed in Hr as ([[ms ans] s2] & H12%readable_some & Hr).
  apply bind_Some in H12 as (ms' & Hms & H12). apply bind_Some in H12 as (ans' & _ & H12).
  apply bind_Some in H12 as (cs & Hcs & H12). apply bind_Some in H12 as (s1 & Hs1 & H12).
  apply bind_Some in H12 as (s2' & Hs2 & [= -> -> ->]).
  apply bind_succeed in Hr as (outs & _ & Hr%readable_some).
  apply bind_Some in Hr as (s3 & Hs3 & Hr). apply bind_Some in Hr as (s4 & Hs4 & Hr).
  apply bind_Some in Hr as (posts & _ & [= <-]). simpl.
  destruct (recovered_folds (st_proposalLocks stored) cs (an_byHash ans) s1) as [Hsound Hlocked];
    [|exact Hs1|].
  { eapply recovered_conversations, Hcs. intros c m. by eapply memberships_named. }
  assert (develops s1 s2) as H12.
  { eapply foldM_ind; [apply _|exact Hs2|]. intros a t t' _ _ Ht%develops_staged. by destruct Ht. }
  assert (develops s2 s3) as H23.
  { eapply foldM_ind; [apply _|exact Hs3|]. intros a t t' _ _ Ht%develops_evidence. by destruct Ht. }
  assert (forall t, develops s1 t -> forall r, r ∈ certifiedRecords (st_history stored) ->
    is_Some (jm_get (rb_actionFolds t) (sr_actionHash (row r)))) as Hstaged.
  { intros t Ht r Hin%Hrows. rewrite (dev_actionFolds _ _ Ht).
    destruct (foldM_each _ _ develops s1 s2 (row r) Hs2) as (t1 & t2 & Hd & Hone & _); [|done|].
    - intros a u u' _ _ Hu%develops_staged. by destruct Hu.
    - rewrite <- (dev_actionFolds _ _ Hd). by apply develops_staged in Hone as [_ ?]. }
  assert (develops s3 s4) as H34.
  { eapply (foldM_ind _ _ develops); [exact Hs4|]. intros r t t' Hin Hd Ht.
    assert (develops s1 t) as Hd' by (etrans; [exact H12|]; by etrans).
    eapply develops_certified; [by apply Hstaged|..|exact Ht].
    intros h fold Hf. destruct (sound_action _ _ (sound_develops _ _ _ Hd' Hsound) _ _ Hf)
      as (f & ? & _). by exists f. }
  assert (develops s1 s4) as H14 by (etrans; [exact H12|]; by etrans).
  split_and!; [by eapply sound_develops|intros l Hl; rewrite (dev_actionFolds _ _ H14); auto|].
  intros e He Hkind. destruct (foldM_each _ _ develops s2 s3 e Hs3) as (t1 & t2 & Hd & Hone & Hd2); [|done|].
  { intros a u u' _ _ Hu%develops_evidence. by destruct Hu. }
  apply develops_evidence in Hone as [Hd12 Hone]. destruct (Hone Hkind) as (fold & f & Hfold & Hf & Hhas).
  assert (develops t2 s4) as Hd24 by by etrans.
  destruct (develops_lookup _ _ _ _ Hd24 Hf) as (f' & Hf' & _ & _ & Hkeep).
  exists fold, f'. split_and!; [|done|by apply Hkeep].
  by rewrite (dev_actionFolds _ _ Hd24), (dev_actionFolds _ _ Hd12).
Qed.

End laws.
End StartupLaws.
