(* ===== verification/Restarts.v ===== *)
(** Restarts: an engine that starts over the database a process left keeps
    what CertificationSafety states, wherever the process died.

    EngineSteps: resuming what a process left, abandoning what the Router
    forgot and acknowledging a delivery keep what CertificationSafety states. *)
From S2P Require Import Prelude JsMap Identifiers Address CollectivePart Json SignedMessages.
From S2P Require Import SealedBody RecordSchemas Records OuterBody StoredHistory StoreDatabase.
From S2P Require Import StoreQueues StoreAnchors EndpointStore StoreLocks StoreRecovery.
From S2P Require Import EngineRuntime EngineInvariants HistoryBuild Outbox Send EngineQuiet.
From S2P Require Import Certification Startup Engine CertificationSafety CertificationSteps.
From S2P Require Import SendSteps StartupLaws.

Module Restarts.
Local Open Scope nat_scope.
Import StoreDatabase StoreRows StoreAnchors StoreReads StoreLocks StoreRecovery RecordSchemas Records.
Import OuterBody EngineRuntime EngineLogic EngineInvariants Certification CertificationSafety.
Import CertificationSteps Send Startup StartupLaws Engine.

Section restarts.
Context `{Base64Url} `{HostJson} `{Jose} `{Sha256} `{JoseEncryption} `{!EngineHost} `{!SendHost}.
Context `{!RowOrder} (versions : option Wire.WireVersions) (maximumEncodedBytes : Z).
Context {R : Type} `{!RecoveryPhase R} (input : EndpointEngineInput).

#[local] Abbreviation World := (World R).
#[local] Abbreviation Engine := (@Engine R).

(** ** What a start leaves as it was *)

Record survives (w w' : World) : Prop := {
  survives_locks : proposal_locks (database w') = proposal_locks (database w);
  survives_rows : rowsGrow (database w) (database w');
  survives_signed : signed w' = signed w;
}.
#[global] Instance survives_preorder : PreOrder survives.
Proof. split; [by intros w|intros w1 w2 w3 [] []]. constructor; [congruence|by etrans|congruence]. Qed.

(** The runtime's objects are rebuilt from the locks and signatures of [w]. *)
Definition rebuiltFrom (w w' : World) : Prop :=
  exists locks s, sound versions locks s /\
    (forall l, l ∈ locks <-> exists k, proposal_locks (database w) !! k = Some l) /\
    (forall l, l ∈ locks -> is_Some (jm_get (rb_actionFolds s) (pl_actionHash l))) /\
    (forall c h key, actionRow (database w) c h key -> exists fold f,
       jm_get (rb_actionFolds s) h = Some fold /\ rb_foldHeap s !! fold = Some f /\
       jm_has (fold_actionEvidence f) key = true) /\
    conversations w' = rb_conversations s /\ conversationHeap w' = rb_conversationHeap s /\
    actionFolds w' = rb_actionFolds s /\ foldHeap w' = rb_foldHeap s /\
    recordFolds w' = rb_recordFolds s /\
    (forall r, r ∈ (intents w').*2 -> is_Some (intentHeap w' !! r)) /\ resends w' = [].

(** A conversation's id is a hash of its members' ids, so the conversations the
    two processes hold under one id have the same members. *)
Definition sameGroups (w w' : World) : Prop := forall c r x r' x',
  jm_get (conversations w) c = Some r -> conversationHeap w !! r = Some x ->
  jm_get (conversations w') c = Some r' -> conversationHeap w' !! r' = Some x' ->
  memberIds (ec_membership x) = memberIds (ec_membership x').

Section safety.
Context (known : ActionCore -> Prop) (Hk : knownActions versions known).
#[local] Abbreviation safe := (safe (R := R) versions known).

Lemma rebuilt_wellFormed w w' : rebuiltFrom w w' -> wellFormed w'.
Proof.
  intros (locks & s & [Hconv Hfold Hact Hkeys Hrec] & _ & _ & _ & Hc & Hch & Ha & Hf & Hr & Hi & He).
  constructor; rewrite ?Hc, ?Hch, ?Ha, ?Hf, ?Hr, ?He; eauto.
  - intros r f Hf'. destruct (Hfold r f Hf') as (Hin & _).
    destruct (Hconv _ _ Hin) as (x & ? & ?). by exists x.
  - intros r f Hf' _. by destruct (Hfold r f Hf').
  - by intros p ?%elem_of_nil.
Qed.

(** The rebuilt fold of a stored certificate holds it. *)
Lemma rebuilt_adopted w w' x : safe w -> survives w w' -> rebuiltFrom w w' -> sameGroups w w' ->
  (forall r f, foldHeap w' !! r = Some f -> known (fold_action f)) ->
  (exists k l, proposal_locks (database w) !! k = Some l /\ pl_actionHash l = x) ->
  adopted w x -> adopted w' x.
Proof.
  intros Hs Hsurv Hreb Hgroups Hknown (k & l & Hl & Hx) (r0 & f0 & c0 & Hr0 & Hf0 & Hc0 & Hheld & Hstored).
  pose proof (rebuilt_wellFormed w w' Hreb) as Hwf'.
  destruct Hreb as (locks & s & Hsound & Hlocks & Hlocked & Hrows & Hc & Hch & Ha & Hf & _).
  destruct (Hlocked l) as [fold Hfold]; [apply Hlocks; eauto|]. rewrite Hx in Hfold.
  destruct (sound_action _ _ _ Hsound x fold) as (f & Hheap & Hhash); [by apply jm_get_some_elem|].
  destruct (sound_fold _ _ _ Hsound _ _ Hheap) as (Hin & Hact & _). rewrite Hhash in Hact.
  destruct (safe_fold _ _ w Hs _ _ _ Hr0 Hf0) as (Hk0 & Hh0 & _).
  assert (fold_action f = fold_action f0) as Hsame.
  { eapply (known_distinct _ _ Hk); [|done..]. apply (Hknown fold). by rewrite Hf. }
  destruct (sound_conversation _ _ _ Hsound _ _ Hin) as (c & Hcv & _).
  destruct Hheld as (Hg & Hq & Hau).
  assert (length (members (ec_membership c0)) = length (members (ec_membership c))) as Hlen.
  { rewrite <- (length_fmap AgentCards.agentId (members (ec_membership c0))),
      <- (length_fmap AgentCards.agentId (members (ec_membership c))). f_equal.
    eapply (Hgroups (conversationId (fold_action f0))); [|exact Hc0|..].
    - by apply (wf_postFold w (safe_wf _ _ w Hs) r0).
    - rewrite Hc, <- Hsame. exact Hin.
    - by rewrite Hch. }
  exists fold, f, c. split_and!.
  - unfold registered. rewrite Ha. by apply jm_get_some_elem.
  - by rewrite Hf.
  - by rewrite Hch.
  - destruct Hstored as (signers & Hnd & Hn & Hauthor & Hall).
    assert (forall agent, agent ∈ signers -> jm_has (fold_actionEvidence f) agent = true) as Hhas.
    { intros agent (fold' & f' & Hfold' & Hf' & ?)%Hall%Hrows. by simplify_eq. }
    split_and!; [by rewrite Hsame| |rewrite Hsame; auto].
    rewrite <- Hlen. trans (length signers); [done|].
    rewrite <- (length_fmap fst (fold_actionEvidence f)).
    apply submseteq_length, NoDup_submseteq; [done|]. intros agent Hag. by apply jm_has_true, Hhas.
  - rewrite Hsame, <- Hlen. eapply certificateStored_grows, Hstored. apply Hsurv.
Qed.

Lemma safe_restart w w' : safe w -> survives w w' -> rebuiltFrom w w' -> sameGroups w w' ->
  (forall r f, foldHeap w' !! r = Some f -> known (fold_action f)) -> safe w'.
Proof.
  intros Hs Hsurv Hreb Hgroups Hknown. pose proof (rebuilt_wellFormed w w' Hreb) as Hwf'.
  pose proof Hreb as (locks & s & Hsound & Hlocks & _ & _ & _ & _ & Ha & Hf & _).
  pose proof Hsurv as [Hl Hrows Hsig].
  constructor; [constructor|..]; unfold signedAction; rewrite ?Hl, ?Hsig; try done.
  - intros h r f Hr Hfr. unfold registered in Hr. rewrite Ha in Hr.
    destruct (sound_action _ _ _ Hsound _ _ Hr) as (f' & Hf' & Hh).
    pose proof Hfr as Hfr'. rewrite Hf in Hfr'. simplify_eq.
    destruct (sound_fold _ _ _ Hsound _ _ Hf') as (_ & Hact & l & [k Hk0]%Hlocks & Hhash).
    split_and!; [by eapply Hknown|done|].
    destruct (safe_lock _ _ w Hs _ _ Hk0) as (a & Hka & Hha & -> & _). exists l. split; [|done].
    assert (fold_action f' = a) as ->; [|done].
    eapply (known_distinct _ _ Hk); [by eapply Hknown|done..|by rewrite <- Hhash].
  - apply Hs.
  - intros h Hh. destruct (safe_signed _ _ w Hs h Hh) as (a & l & Hka & Hha & Hl0 & Hor).
    exists a, l. split_and!; [done..|]. destruct Hor as [|Had]; [by left|right].
    apply (rebuilt_adopted w w'); [done..|by exists (keyOf a), l|done].
  - apply Hs.
Qed.

End safety.

(** ** Starting *)

(** The processes that run after [w]'s died: starts that died in turn, and then
    one that rebuilt its runtime. *)
Inductive boots : World -> World -> Prop :=
  | boots_done w w' patience patience' recovery :
      initializeRuntime versions maximumEncodedBytes input false patience (powerOn recovery w) =
        (Done tt, patience', w') -> boots w w'
  | boots_again w w1 w' outcome patience patience' recovery :
      initializeRuntime versions maximumEncodedBytes input false patience (powerOn recovery w) =
        (outcome, patience', w1) -> boots w1 w' -> boots w w'.

Section start.
Context (w : World).
#[local] Abbreviation step P m Q := (EngineLogic.step (survives w) (fun _ _ => True) P m Q).

#[local] Instance anywhere : PreOrder (fun _ _ : World => True).
Proof. done. Qed.

Lemma writeIdentity_keepsLocks b : keepsLocks (writeIdentity b).
Proof.
  apply keepsLocks_transaction. unfold requireText, requireBytes, requireSameBytes, requireEqual.
  follow. apply locks_modify; by intros [].
Qed.

Lemma start_store {A} (operation : Database -> Exit EndpointStoreFailure A * Database) P :
  keepsLocks operation -> step P (store operation) (fun _ _ => True).
Proof.
  intros [Hfail Hkeep Hrows]. apply step_store; [apply _|intros w'; apply Hfail|].
  intros w' a db [] _ Hop. specialize (Hkeep (database w')). specialize (Hrows (database w')).
  rewrite Hop in Hkeep, Hrows. simpl in *.
  split_and!; [constructor; simpl; [congruence|by etrans|done]|done..].
Qed.

(** What the start reads of the store. *)
Definition reads (stored : StoredState) : Prop :=
  (forall l, l ∈ st_proposalLocks stored <-> exists k, proposal_locks (database w) !! k = Some l) /\
  (forall c h key, actionRow (database w) c h key -> exists e, e ∈ st_evidence stored /\
     pe_kind e = ActionEvidence /\ pe_subjectId e = h /\ evidenceKey e = key) /\
  (forall r, r ∈ StoredHistory.certifiedRecords (st_history stored) ->
     StoredHistory.row r ∈ StoredHistory.stagedRecords (st_history stored)).

Lemma start_recover P : step P (store (recover None)) (fun stored _ => reads stored).
Proof.
  apply step_store; [apply _|intros w' e db; apply transaction_failed|].
  intros w' stored db [Hl Hrows Hs] _ (-> & Hlocks & Hev & Hcert)%recover_spec.
  split_and!; [by constructor|done|]. split_and!; [by rewrite <- Hl| |done].
  intros c h key Hrow%Hrows. destruct (Hev _ _ _ _ Hrow) as (e & ? & ? & ? & ? & ?). by exists e.
Qed.

Lemma start_mapError {A} f (m : Engine A) P Q : step P m Q ->
  (forall w0 w1 : World, P w0 -> P w1) -> step P (mapError f m) Q.
Proof. intros Hm HP. apply step_mapError; [apply _|intros w0 w1 _; apply HP|done]. Qed.

End start.

Lemma reads_rebuilds w stored recovered (w' : World) :
  reads w stored ->
  recoverEngineState versions maximumEncodedBytes (localAgentId input)
    (registrySignerPublicKey input) stored = Succeed recovered ->
  conversations w' = rb_conversations (rs_objects recovered) ->
  conversationHeap w' = rb_conversationHeap (rs_objects recovered) ->
  actionFolds w' = rb_actionFolds (rs_objects recovered) ->
  foldHeap w' = rb_foldHeap (rs_objects recovered) ->
  recordFolds w' = rb_recordFolds (rs_objects recovered) ->
  (forall r, r ∈ (intents w').*2 -> is_Some (intentHeap w' !! r)) -> resends w' = [] ->
  rebuiltFrom w w'.
Proof.
  intros (Hlocks & Hrows & Hcert) Hrec ???????.
  destruct (recovered_sound versions maximumEncodedBytes _ _ _ _ Hrec Hcert) as (Hs & Hl & He).
  exists (st_proposalLocks stored), (rs_objects recovered). split_and!; try done.
  intros c h key (e & Hin & Hkind & <- & <-)%Hrows. by apply He.
Qed.

(** *** Hydrating the intents *)

Definition keepsIntents (w1 w2 : World) : Prop :=
  forall r, is_Some (intentHeap w1 !! r) -> is_Some (intentHeap w2 !! r).
#[local] Instance keepsIntents_preorder : PreOrder keepsIntents.
Proof. split; [by intros w r|]. intros w1 w2 w3 H12 H23 r ?. by apply H23, H12. Qed.

Definition running (w w' : World) : Prop := survives w w' /\ rebuiltFrom w w'.

(** What hydrating changes: latches, and intents whose objects exist. *)
Record hydrates (w1 w2 : World) : Prop := {
  hydrates_objects : conversations w2 = conversations w1 /\
    conversationHeap w2 = conversationHeap w1 /\ actionFolds w2 = actionFolds w1 /\
    foldHeap w2 = foldHeap w1 /\ recordFolds w2 = recordFolds w1 /\ resends w2 = resends w1;
  hydrates_kept : database w2 = database w1 /\ signed w2 = signed w1;
  hydrates_intents : keepsIntents w1 w2;
  hydrates_map r : r ∈ (intents w2).*2 -> r ∈ (intents w1).*2 \/ is_Some (intentHeap w2 !! r);
}.

Lemma running_hydrates w w1 w2 : hydrates w1 w2 -> running w w1 -> running w w2.
Proof.
  intros [(Hc & Hch & Ha & Hf & Hr & He) [Hd Hs] Hk Hm] [[Hl Hrows Hsig] (locks & s & Hreb)].
  destruct Hreb as (? & ? & ? & ? & ? & ? & ? & ? & ? & Hin & ?).
  split; [constructor; rewrite ?Hd, ?Hs; done|]. exists locks, s.
  rewrite Hc, Hch, Ha, Hf, Hr, He. split_and!; try done.
  intros r [Hold|?]%Hm; [|done]. by apply Hk, Hin.
Qed.

Lemma step_hydrates w (f : World -> World) (P : World -> Prop) (Q : unit -> World -> Prop) :
  (forall w1, P w1 -> hydrates w1 (f w1) /\ Q tt (f w1)) ->
  EngineLogic.step (running w) keepsIntents P (sync f) Q.
Proof.
  intros Hf. apply step_sync. intros w1 Hw HP. destruct (Hf w1 HP) as [Hh HQ].
  split_and!; [by eapply running_hydrates|apply Hh|done].
Qed.

Lemma hydrates_same w1 w2 : conversations w2 = conversations w1 ->
  conversationHeap w2 = conversationHeap w1 -> actionFolds w2 = actionFolds w1 ->
  foldHeap w2 = foldHeap w1 -> recordFolds w2 = recordFolds w1 -> resends w2 = resends w1 ->
  database w2 = database w1 -> signed w2 = signed w1 -> intents w2 = intents w1 ->
  keepsIntents w1 w2 -> hydrates w1 w2.
Proof. intros ???????? Hi Hk. constructor; [by split_and!..|done|]. intros r. rewrite Hi. auto. Qed.

Lemma hydrates_latches f w1 : hydrates w1 (set_latches f w1).
Proof. apply hydrates_same; try done. by intros r. Qed.

Lemma step_hydrate w stored :
  EngineLogic.step (running w) keepsIntents (fun _ => True) (hydratePostIntent versions stored)
    (fun _ _ => True).
Proof.
  assert (forall A (f : World -> A) (P : World -> Prop), EngineLogic.step (running w) keepsIntents P (gets f)
    (fun a w1 => P w1 /\ a = f w1)) as Hgets by (intros; apply step_gets; [apply _|auto]).
  eapply step_bind; [apply _|by apply (step_ofOption _ _ _ _ _ (fun _ _ => True))|]. intros intent.
  eapply step_bind; [apply _| |intros completion].
  { eapply step_bind; [apply _|apply Hgets|]. intros r. cbn beta.
    eapply (step_bind _ _ _ _ _ (fun _ _ => True)); [|intros []; by apply (step_ret _ _ _ _ (fun _ _ => True))].
    apply step_hydrates. intros w1 _. by split; [apply hydrates_latches|]. }
  eapply (step_bind _ _ _ _ _ (fun r w1 => is_Some (intentHeap w1 !! r))); [|intros r].
  { eapply step_bind; [apply _|apply Hgets|intros r].
    eapply (step_bind _ _ _ _ _ (fun _ w1 => is_Some (intentHeap w1 !! r)));
      [|intros []; apply step_ret; [apply _|auto]].
    apply step_hydrates. intros w1 [_ ->]. split; simpl.
    - apply hydrates_same; try done. intros r [ep Hr]. exists ep. by apply lookup_app_l_Some.
    - by rewrite lookup_app_r, Nat.sub_diag by lia. }
  eapply (step_bind _ _ _ _ _ (fun _ _ => True)).
  { apply step_hydrates. intros w1 Hr. split; [|done]. constructor; [done|done|by intros r'|].
    intros r' [->|?]%jm_set_targets; auto. }
  intros []. eapply step_bind; [apply _|apply Hgets|]. intros [recordHash|]; [|apply step_ret; [apply _|auto]].
  apply step_hydrates. intros w1 _. by split; [apply hydrates_latches|].
Qed.

Lemma step_narrow {A} (Inv Inv' : World -> Prop) (G G' : World -> World -> Prop) (P : World -> Prop)
    (m : Engine A) Q Q' :
  EngineLogic.step Inv' G' (fun _ => True) m Q -> (forall w, Inv w -> P w -> Inv' w) ->
  (forall w, Inv' w -> Inv w) -> (forall w1 w2, G' w1 w2 -> G w1 w2) ->
  (forall a w, Inv' w -> Q a w -> Q' a w) -> EngineLogic.step Inv G P m Q'.
Proof.
  intros Hm Hin Hout HG HQ masked patience w Hw Hp. specialize (Hm masked patience w (Hin w Hw Hp) I).
  destruct (m masked patience w) as [[[] ?] ?]; simpl in *; naive_solver.
Qed.

(** *** One start *)

Lemma start_initialize w :
  EngineLogic.step (survives w) (fun _ _ => True) (fun _ => True)
    (initializeRuntime versions maximumEncodedBytes input) (fun _ w' => rebuiltFrom w w').
Proof.
  pose proof anywhere. unfold initializeRuntime, storeFailing.
  eapply (step_bind _ _ _ _ _ (fun _ _ => True)); [|intros _].
  { unfold validateLocalIdentity. case_decide; [apply step_ret; [apply _|auto]|apply step_fail; apply _]. }
  eapply (step_bind _ _ _ _ _ (fun _ _ => True)); [|intros _].
  { unfold bindLocalIdentity.
    eapply step_bind; [apply _|by apply (step_ofOption _ _ _ _ _ (fun _ _ => True))|intros card].
    eapply (step_bind _ _ _ _ _ (fun _ _ => True)); [|intros _; apply step_ret; [apply _|auto]].
    apply start_mapError; [|done]. apply start_store, writeIdentity_keepsLocks. }
  eapply (step_bind _ _ _ _ _ (fun stored _ => reads w stored)); [|intros stored].
  { apply start_mapError; [|done]. apply start_recover. }
  destruct (recoverEngineState _ _ _ _ stored) as [recovered|failure] eqn:Hrec;
    [|by eapply (step_bind _ _ _ _ _ (fun _ _ => False)); [apply step_fail; apply _|intros ????? []]].
  eapply (step_bind _ _ _ _ _ (fun a _ => a = recovered /\ reads w stored));
    [apply step_ret; [apply _|auto]|intros a].
  eapply (step_bind _ _ _ _ _ (fun _ w' => a = recovered /\ rebuiltFrom w w')); [|intros _].
  - apply step_sync. intros w' [Hl Hrows Hs] [-> Hreads]. split_and!; [by constructor|done|done|].
    eapply reads_rebuilds; try done. simpl. by intros r ?%elem_of_nil.
  - eapply (step_narrow _ (running w) _ keepsIntents); [| |by intros w' []|done|by intros _ w' [_ ?] _].
    + eapply step_forEach; [apply _|by intros ???|]. intros row _. apply step_hydrate.
    + by intros w' Hw [_ Hr].
Qed.

Lemma survives_powerOn w recovery : survives w (powerOn recovery w).
Proof. by constructor. Qed.

(** Wherever the starts between died, the process that runs in the end keeps
    the locks, the evidence and the signatures of [w], and holds what they name. *)
Lemma boots_running w w' : boots w w' -> survives w w' /\ rebuiltFrom w w'.
Proof.
  enough (forall w0, survives w0 w -> boots w w' -> survives w0 w' /\ rebuiltFrom w0 w') as Hall
    by (intros Hb; by apply (Hall w)).
  intros w0 Hw0 Hb. induction Hb as [w w' p p' recovery Hrun|w w1 w' o p p' recovery Hrun Hb IH].
  all: pose proof (start_initialize w0 false p (powerOn recovery w)
         ltac:(etrans; [exact Hw0|apply survives_powerOn]) I) as Hstart; rewrite Hrun in Hstart.
  - simpl in Hstart. by destruct_and?.
  - apply IH. destruct o; simpl in Hstart; by destruct_and?.
Qed.

End restarts.
End Restarts.

Module EngineSteps.
Import RecordSchemas Records OuterBody StoreDatabase StoreRows StoreLocks StoreQueues EngineRuntime.
Import EngineLogic EngineInvariants Fences Send EngineQuiet Certification CertificationSafety.
Import CertificationSteps SendSteps Engine.

Section engine_steps.
Context `{Base64Url} `{HostJson} `{Jose} `{Sha256} `{JoseEncryption} `{!EngineHost} `{!SendHost}.
Context (versions : option Wire.WireVersions) (maximumEncodedBytes : Z).
Context {R : Type} `{!RecoveryPhase R} (input : EndpointEngineInput).
Context (known : ActionCore -> Prop) (Hk : knownActions versions known).

#[local] Instance phases_i : EnginePhases R := sendPhases versions maximumEncodedBytes input.
Context `{!QuietPhases R}.

#[local] Abbreviation World := (World R).
#[local] Abbreviation Engine := (@Engine R).
#[local] Abbreviation safe := (safe (R := R) versions known).
#[local] Abbreviation step P m Q := (EngineLogic.step safe grows P m Q).
#[local] Abbreviation calm P m Q := (EngineLogic.step (@wellFormed R) quiet P m Q).
#[local] Hint Extern 0 (rowsGrow _ _) => reflexivity : core.

Create HintDb lasting discriminated.
#[local] Hint Resolve lasting_true lasting_intent lasting_intents : lasting.
Ltac after := eapply step_then; [by eauto with lasting| |].
Ltac keeping P := apply (step_pre _ _ P); [|solve [naive_solver]].

(** ** Resuming *)

Lemma step_resumeIntent i :
  step (fun w => is_Some (intentHeap w !! i)) (resumeIntent versions maximumEncodedBytes input i)
    (fun _ _ => True).
Proof.
  unfold resumeIntent. eapply step_bind; [apply _|by apply step_intentAt; [apply _|]|intros ep].
  keeping (fun w : World => is_Some (intentHeap w !! i)).
  after; [apply step_any|]. intros []; [apply step_done|].
  apply step_catch; [apply _|by eauto with lasting| |].
  - after; [|intros ?; apply step_done]. apply step_calmly, calm_proposeIntent.
  - intros e k He. destruct e; try done. injection He as <-. unfold resumeIntentFailure.
    destruct (resumeDispositionBySendReason _); [apply step_fail; apply _|apply step_fail; apply _|apply step_done].
Qed.

Lemma step_resumeRuntime :
  step (fun _ => True) (resumeRuntime versions maximumEncodedBytes input) (fun _ _ => True).
Proof.
  unfold resumeRuntime, resumeFolds.
  after; [apply step_mapError; [apply _|by eauto with lasting|by apply step_resumeDisseminationObligations]|].
  intros []. after; [apply step_mapError; [apply _|by eauto with lasting|by apply step_resumeEngineFolds]|].
  intros []. eapply step_bind; [apply _| |intros pending].
  { apply (step_gets _ _ _ _ (fun l w => forall i, i ∈ l -> is_Some (intentHeap w !! i))).
    intros w Hs _ i. apply (wf_intents w (safe_wf _ _ w Hs)). }
  apply step_forEach; [apply _|by eauto with lasting|]. intros i Hi.
  eapply step_pre; [apply step_resumeIntent|]. cbn beta. auto.
Qed.

(** ** Abandoning what the Router forgot *)

Lemma calm_installRecoveryBarrier P : stable quiet P ->
  calm P installRecoveryBarrier (fun _ _ => True).
Proof.
  intros HP. unfold installRecoveryBarrier, makeFence.
  eapply calm_then; [done|apply calm_gets|intros [b|]; [apply calm_ret|]].
  eapply calm_then; [done| |intros r; by apply calm_sync; constructor; auto].
  eapply calm_then; [done|apply calm_gets|intros r].
  eapply calm_then; [done|by apply calm_sync; constructor; auto|intros []; apply calm_ret].
Qed.

Lemma gathers_flags f : gathers f (clear_queuedFlags f).
Proof. by split_and!. Qed.

Lemma updates_folds g (l : list Ref) (w : World) : (forall f, gathers f (g f)) ->
  updates w (foldl (fun w fold => updateFold fold g w) w l).
Proof.
  intros Hg. revert w. induction l as [|r l IH]; intros w; simpl; [reflexivity|].
  etrans; [by apply updates_fold|apply IH].
Qed.

Lemma step_abandonVolatileFolds routerRestarted :
  step (fun _ => True) (abandonVolatileFolds routerRestarted) (fun _ _ => True).
Proof.
  unfold abandonVolatileFolds.
  after; [eapply step_calmly, calm_installRecoveryBarrier, calm_true|]. intros [].
  apply step_updates. intros w _ _. trans (set_queued (fun _ => []) w).
  - constructor; try done; simpl; eauto.
    + intros r c ?. by exists c.
    + intros r f ?. by exists f.
    + intros r f ?. by exists f.
  - destruct routerRestarted; [|reflexivity]. apply updates_folds, gathers_flags.
Qed.

(** ** Deliveries *)

Lemma acknowledgeDelivery_keepsLocks token : keepsLocks (acknowledgeDelivery token).
Proof.
  unfold acknowledgeDelivery. destruct (Identifiers.isCanonicalIdentifier _ _).
  - apply keepsLocks_transaction. unfold acknowledgeInTransaction. follow. apply locks_modify; by intros [].
  - by constructor; [intros db e db' [= _ ->]|..].
Qed.

Lemma calm_acknowledgeMessage token :
  calm (fun _ => True) (acknowledgeMessage token) (fun _ _ => True).
Proof.
  unfold acknowledgeMessage, storeFailing.
  eapply calm_then; [apply calm_true| |intros ?; apply calm_ret].
  apply step_mapError; [apply _|apply calm_true|apply calm_store, acknowledgeDelivery_keepsLocks].
Qed.

Lemma calm_readPendingMessages :
  calm (fun _ => True) (readPendingMessages (R := R)) (fun _ _ => True).
Proof.
  unfold readPendingMessages. eapply calm_then; [apply calm_true|apply calm_gets|intros l].
  eapply step_true, (step_mapEach _ _ _ _ _ (fun _ _ => True)); [apply calm_true|].
  intros ? _. apply calm_option.
Qed.

End engine_steps.
End EngineSteps.
