(* ===== verification/CertificationRuns.v ===== *)
(** CertificationRuns: histories of an engine's operations, each interrupted
    anywhere or not, interleaved with what recovery does and with crashes after
    which the engine starts again over its database. *)
From S2P Require Import Prelude JsMap Identifiers Json Address SignedMessages SealedBody.
From S2P Require Import RecordSchemas Records OuterBody StoredHistory StoreDatabase StoreQueues.
From S2P Require Import StoreRecords StoreAnchors StoreLocks EngineRuntime EngineInvariants.
From S2P Require Import HistoryBuild Outbox Certificates Certification CertificationSafety.
From S2P Require Import CertificationSteps CertificationRecords CollectivePart StoreRecovery Send.
From S2P Require Import EngineQuiet SendSteps Startup Engine Restarts SendLaws Hosts SealedBodyRuns.
From Stdlib Require Import Ascii.
Local Open Scope nat_scope.

Module CertificationRuns.
Import RecordSchemas Records OuterBody StoreDatabase StoreRows StoreQueues StoreLocks.
Import EngineRuntime EngineLogic EngineInvariants HistoryBuild Outbox Certification.
Import StoreRecovery CertificationSafety CertificationSteps CertificationRecords Send EngineQuiet.
Import SendSteps Engine Restarts EngineSteps.

(** ** Histories *)

(** The operations the engine's gate serializes. *)
Inductive Operation :=
  | OnIngress (ingress : Ingress) (statement : option EvidenceStatement)
  | OnRecoveryIngress (ingress : Ingress)
  | OnResume (conversationId : option string)
  | OnDissemination (conversationId : option string)
  | OnActivate (prepared : PreparedSend) (admission : StoreDatabase.PostIntentBinding ->
      Database -> Exit EndpointStoreError StoreDatabase.FirewallCommit * Database)
  | OnResend (proposal : LocalProposal)
  | OnStart
  | OnAbandon (routerRestarted : bool)
  | OnPending
  | OnAcknowledge (deliveryToken : string).

(** What happens to an engine: an operation, with when its fiber is
    interrupted, or a crash and the start that follows it, with the actions the
    start found in the store. *)
Inductive Event :=
  | Ran (operation : Operation) (patience : option nat)
  | Restarted (recovered : list ActionCore).

(** What an activation is given: a prepared intent, and an admission that takes
    no lock; its commit may fail, or come out unconfirmed. *)
Definition permitted (operation : Operation) : Prop :=
  match operation with
  | OnActivate prepared admission =>
      isPrepared prepared /\ forall binding, keepsLocks (attempted admission binding)
  | _ => True
  end.

Definition operationAction (operation : Operation) : option ActionCore :=
  match operation with
  | OnIngress ingress _ | OnRecoveryIngress ingress => handedBy ingress
  | OnResume _ | OnDissemination _ | OnActivate _ _ | OnResend _ | OnStart | OnAbandon _
  | OnPending | OnAcknowledge _ => None
  end.
Definition eventActions (event : Event) : list ActionCore :=
  match event with
  | Ran operation _ => option_list (operationAction operation)
  | Restarted recovered => recovered
  end.

Section runs.
Context `{Base64Url} `{HostJson} `{Jose} `{Sha256} `{JoseEncryption} `{!EngineHost} `{!SendHost}.
Context `{!RowOrder} (versions : option Wire.WireVersions) (maximumEncodedBytes : Z).
Context {R : Type} `{!RecoveryPhase R} (input : EndpointEngineInput).

#[local] Instance phases_i : EnginePhases R := sendPhases versions maximumEncodedBytes input.

#[local] Abbreviation World := (World R).
#[local] Abbreviation Engine := (@Engine R).

Definition perform (operation : Operation) : Engine unit :=
  match operation with
  | OnIngress ingress s =>
      acceptEngineIngress versions maximumEncodedBytes input ingress s ;; mret tt
  | OnRecoveryIngress ingress =>
      acceptEngineRecoveryIngress versions maximumEncodedBytes input ingress ;; mret tt
  | OnResume c => resumeEngineFolds versions maximumEncodedBytes input c
  | OnDissemination c => resumeDisseminationObligations versions maximumEncodedBytes input c
  | OnActivate prepared admission =>
      uninterruptible (activateIntentOnce versions maximumEncodedBytes input prepared admission) ;;
      mret tt
  | OnResend proposal => resendProposal versions maximumEncodedBytes input proposal ;; mret tt
  | OnStart => resumeRuntime versions maximumEncodedBytes input
  | OnAbandon routerRestarted => abandonVolatileFolds routerRestarted
  | OnPending => readPendingMessages ;; mret tt
  | OnAcknowledge deliveryToken => acknowledgeMessage deliveryToken
  end.

(** One operation of a history, with when its fiber is interrupted. *)
Definition after (w : World) (entry : Operation * option nat) : World :=
  (perform entry.1 false entry.2 w).2.
Definition outcome (w : World) (entry : Operation * option nat) : Outcome unit :=
  (perform entry.1 false entry.2 w).1.1.

(** [reaches history w w']: the events of [history], oldest first, take [w] to
    [w'], recovery working quietly in between.  A crash may interrupt the start
    that follows it, and leads to the start that completes. *)
Inductive reaches : list Event -> World -> World -> Prop :=
  | reaches_start w : reaches [] w w
  | reaches_operation history w w' operation patience :
      permitted operation -> reaches history w w' ->
      reaches (history ++ [Ran operation patience])%list w (after w' (operation, patience))
  | reaches_restart history w w' w'' : reaches history w w' ->
      boots versions maximumEncodedBytes input w' w'' -> sameGroups w' w'' ->
      reaches (history ++ [Restarted (fold_action <$> foldHeap w'')])%list w w''
  | reaches_phase history w w' w'' : reaches history w w' -> quiet w' w'' ->
      reaches history w w''.

(** The actions the engine was handed, or found in its store at a start. *)
Definition handedIn (history : list Event) (a : ActionCore) : Prop :=
  exists event, event ∈ history /\ a ∈ eventActions event.

(** An engine that has opened no fold and holds no lock. *)
Record started (w : World) : Prop := {
  start_conversations c r : jm_get (conversations w) c = Some r ->
    exists conversation, conversationHeap w !! r = Some conversation /\
      ec_conversationId conversation = c;
  start_intents r : r ∈ (intents w).*2 -> is_Some (intentHeap w !! r);
  start_resends : resends w = [];
  start_folds : actionFolds w = [] /\ recordFolds w = [] /\ foldHeap w = [];
  start_signed : signed w = [];
  start_locks : proposal_locks (database w) = ∅;
}.

Lemma started_safe known w : started w -> safe versions known w.
Proof.
  intros [Hc Hi He (Ha & Hr & Hf) Hs Hl].
  constructor; [constructor; [constructor|..]|..]; unfold registered, signedAction;
    rewrite ?Ha, ?Hr, ?He, ?Hf, ?Hs, ?Hl; try done.
  all: intros *; rewrite ?lookup_nil, ?lookup_empty; try done.
  all: try by intros ?%elem_of_nil.
  all: first [by constructor|by intros (? & ? & ?%elem_of_nil)].
Qed.

Context `{!QuietRecovery R}.
#[local] Instance quiet_i : QuietPhases R := sendPhases_quiet versions maximumEncodedBytes input.

Lemma step_perform known (Hk : knownActions versions known) operation :
  permitted operation -> (forall a, operationAction operation = Some a -> known a) ->
  step (safe versions known) extends (fun _ => True) (perform operation) (fun _ _ => True).
Proof.
  assert (forall A (m : Engine A), step (safe versions known) extends (fun _ => True) m (fun _ _ => True) ->
    step (safe versions known) extends (fun _ => True) (m ;; mret tt) (fun _ _ => True)) as Hunit.
  { intros A m Hm. eapply step_bind; [apply _|exact Hm|]. intros ?. by apply step_ret; [apply _|]. }
  intros Hp Ha. pose proof quiet_i.
  destruct operation; cbn [permitted operationAction perform] in *.
  - by apply Hunit, step_acceptEngineIngress.
  - by apply Hunit, step_acceptEngineRecoveryIngress.
  - by apply lift, step_resumeEngineFolds.
  - by apply lift, step_resumeDisseminationObligations.
  - destruct Hp. by apply Hunit, lift, step_uninterruptible, step_activateIntentOnce.
  - by eapply Hunit, lift, step_calm, calm_resendProposal.
  - by apply lift, step_resumeRuntime.
  - by apply lift, step_abandonVolatileFolds.
  - by eapply Hunit, lift, step_calm, calm_readPendingMessages.
  - by eapply lift, step_calm, calm_acknowledgeMessage.
Qed.

Lemma reaches_safe known (Hk : knownActions versions known) history w w' :
  safe versions known w -> reaches history w w' ->
  (forall a, handedIn history a -> known a) -> safe versions known w'.
Proof.
  intros Hw Hr. induction Hr as [w|history w w' operation patience Hp Hr IH
    |history w w' w'' Hr IH Hb Hg|history w w' w'' Hr IH Hq]; intros Hin; [done| | |].
  - assert (safe versions known w') as Hs
      by (apply (IH Hw); intros a (e & He & Ha); apply Hin; exists e; set_solver).
    pose proof (step_perform known Hk operation Hp) as Hstep. unfold after.
    specialize (Hstep ltac:(intros a Ha; apply Hin; exists (Ran operation patience);
      simpl; rewrite Ha; set_solver) false patience w' Hs I).
    simpl. destruct (perform operation false patience w') as [[[] ?] ?]; simpl in *; by destruct_and?.
  - assert (safe versions known w') as Hs
      by (apply (IH Hw); intros a (e & He & Ha); apply Hin; exists e; set_solver).
    apply boots_running in Hb as [Hsurv Hreb]. eapply (safe_restart _ known Hk w' w''); [done..|].
    intros r f Hf. apply Hin. eexists. split; [apply elem_of_app; right; by apply list_elem_of_singleton|].
    apply list_elem_of_fmap. exists f. split; [done|by eapply list_elem_of_lookup_2].
  - eapply (safe_quiet versions known w'); [done|by apply IH].
Qed.

(** An engine's signatures, over any actions that include what it was handed. *)
Lemma engine_signs known (Hk : knownActions versions known) history w w' :
  started w -> reaches history w w' -> (forall a, handedIn history a -> known a) ->
  forall h, signedAction w' h -> exists a, known a /\ Records.hashAction versions a = Some h /\
    forall b h2, signedAction w' h2 -> known b -> Records.hashAction versions b = Some h2 ->
      conversationId b = conversationId a -> previousRecordHash b = previousRecordHash a -> b = a.
Proof.
  intros Hw Hr Hin h Hh.
  assert (safe versions known w') as Hs by (eapply reaches_safe; [done|by apply started_safe|done..]).
  destruct (safe_signed _ _ w' Hs h Hh) as (a & l & Ha & Hah & _). exists a. split_and!; [done..|].
  intros b h2 Hh2 Hb Hbh Hc Hp.
  assert (h = h2) as <-.
  { eapply (safe_unique _ _ w' Hs a b); try done. unfold keyOf. by rewrite Hc, Hp. }
  by eapply (known_distinct _ _ Hk).
Qed.

(** C8: an endpoint signs at most one action for a predecessor while no
    re-anchor completes, whatever it is handed and however often it crashes.
    Take an engine that starts without folds or locks, and any sequence of
    operations, each interrupted at any point or not, of crashes after which it
    starts again over the database the process left, and of quiet recovery in
    between: recovery that changes no fold, head, lock or signature, so that no
    re-anchor is completed and no empty conversation restarted.  If the action
    hash does not collide on the actions the engine was handed or recovered,
    every action
    whose signature the agent ever issued is one of them, and two that compete
    for the same predecessor of one conversation are the same action: a
    certificate for another action may take the lock, but the engine does not
    sign for that predecessor again. *)
Theorem signs_one_action history w w' :
  started w -> reaches history w w' -> knownActions versions (handedIn history) ->
  forall h, signedAction w' h -> exists a, handedIn history a /\
    Records.hashAction versions a = Some h /\
    forall b h2, signedAction w' h2 -> handedIn history b ->
      Records.hashAction versions b = Some h2 ->
      conversationId b = conversationId a -> previousRecordHash b = previousRecordHash a -> b = a.
Proof. intros Hw Hr Hk. by apply (engine_signs _ Hk history w). Qed.

(** The heap of the model stands in for JavaScript's references, which cannot
    dangle: in these histories no operation reads an index that names nothing,
    so none ends [Dangling]; and every reference of the engine's maps names an
    object of that key, every fold is in a conversation of its action, and every
    fold of a POST in the conversation the engine holds. *)
Lemma operations_never_dangle history w w' operation patience :
  started w -> permitted operation -> reaches history w w' ->
  knownActions versions (handedIn (history ++ [Ran operation patience])) ->
  outcome w' (operation, patience) <> Dangling /\ wellFormed (after w' (operation, patience)).
Proof.
  intros Hw Hpe Hr Hk.
  assert (safe versions (handedIn (history ++ [Ran operation patience])) w') as Hs.
  { eapply (reaches_safe _ Hk); [by apply started_safe|done|].
    intros a (e & He & Ha). exists e. split; [set_solver|done]. }
  pose proof (step_perform _ Hk operation Hpe ltac:(intros a Ha; exists (Ran operation patience);
    simpl; rewrite Ha; set_solver) false patience w' Hs I) as Hp. unfold outcome, after. simpl.
  destruct (perform operation false patience w') as [[[] ?] w2]; simpl in *; destruct_and?;
    (split; [done|by apply (safe_wf versions (handedIn (history ++ [Ran operation patience])))]).
Qed.

End runs.

(** ** A concrete history

    The agent [b] of a conversation of two is handed [a]'s proposal of the
    first action, the same proposal again, a proposal of another first action,
    and the certified record of the first; the first resume is interrupted. *)

#[local] Existing Instances Hosts.base64url Hosts.json Hosts.digest Hosts.signatures.
#[local] Existing Instances SealedBodyRuns.jwe SendLaws.host SendLaws.sending.
Import RecordRuns.

(** A host that lists the rows a query does not order as they are stored. *)
#[local] Instance asStored : RowOrder := {| rowOrder := fun l => l; rowOrder_perm := fun l => reflexivity l |}.

(** Recovery that does nothing. *)
#[local] Instance idle : RecoveryPhase unit := {|
  rearmCatchUp := fun _ => mret tt;
  recoveryHeadAdvanced := fun _ => mret tt;
|}.
#[local] Instance idle_quiet : QuietRecovery unit.
Proof. by split. Qed.

Definition agentB : EndpointEngineInput := Eval vm_compute in
  mkInput (mkSigner SealedBodyRuns.cardB (Hosts.keyOf "b"%char) (Hosts.keyOf "b"%char))
    Hosts.registryKey V.

Definition proposalOf (action : ActionCore) : Ingress :=
  mkIngress (ga_routerInstanceId anchor)
    (match Hosts.signedBy "a"%char [idA; idB] (SealedBody.messageId SealedBodyRuns.letter) "body"%string with
     | Some message => message
     | None => SealedBodyRuns.envelope
     end) SealedBodyRuns.cardA (Direct (PacketProposal (mkProposal V action))).

Definition otherIntent : PostIntent := Eval vm_compute in
  intentOf idA (hash32 "pst_" "o"%char) "another".
Definition otherFirst : GenesisActionCore := Eval vm_compute in
  mkGenesis V conversation twoMembers anchor otherIntent
    (orEmpty (hashPostIntent None otherIntent)).


Definition start : World unit := mkWorld unit [] [] [] [] [] [] [] [] [] None [] [] [] 0
  StoreDatabase.createStore None 0 [] [] [] tt.

(** The proposal, interrupted once the action is signed, and then another. *)
Definition firstEntry : Operation * option nat := Eval vm_compute in
  (OnIngress (proposalOf (GENESIS firstAction)) None, Some 40).
Definition otherEntry : Operation * option nat := Eval vm_compute in
  (OnIngress (proposalOf (GENESIS otherFirst)) None, None).
Definition afterFirst : World unit := Eval vm_compute in
  after None Hosts.maximum agentB start firstEntry.
(** The process dies there, and the next starts over its database. *)
Definition restarted : World unit := Eval vm_compute in
  (initializeRuntime None Hosts.maximum agentB false None (powerOn tt afterFirst)).2.
Definition afterTrial : World unit := Eval vm_compute in
  after None Hosts.maximum agentB restarted otherEntry.
Definition recoveredActions : list ActionCore := Eval vm_compute in
  fold_action <$> foldHeap restarted.
Definition trial : list Event :=
  [Ran firstEntry.1 firstEntry.2; Restarted recoveredActions; Ran otherEntry.1 otherEntry.2].
Definition firstHash : string := Eval vm_compute in
  orEmpty (Records.hashAction None (GENESIS firstAction)).

Lemma start_started : started start.
Proof. split; try done; simpl; intros *; by intros ?%elem_of_nil. Qed.

Lemma trial_handed a : handedIn trial a -> a = GENESIS firstAction \/ a = GENESIS otherFirst.
Proof.
  intros (event & Hin & Ha). apply elem_of_cons in Hin as [->|Hin];
    [|apply elem_of_cons in Hin as [->|Hin%list_elem_of_singleton]];
    [left|left|subst event; right]; vm_compute in Ha; by apply list_elem_of_singleton in Ha.
Qed.

Lemma trial_known : knownActions None (handedIn trial).
Proof.
  assert (Records.hashAction None (GENESIS firstAction) <> Records.hashAction None (GENESIS otherFirst))
    as Hne by (vm_compute; discriminate).
  split.
  - intros a b h [-> | ->]%trial_handed [-> | ->]%trial_handed; congruence.
  - by intros a [-> | ->]%trial_handed.
Qed.

Lemma two_members (w : World unit) r x :
  conversationHeap w !! r = Some x ->
  (fun x => memberIds (ec_membership x)) <$> conversationHeap w = [[idA; idB]] ->
  memberIds (ec_membership x) = [idA; idB].
Proof.
  intros Hx%list_elem_of_lookup_2 Hw.
  apply list_elem_of_singleton. rewrite <- Hw. apply list_elem_of_fmap. by exists x.
Qed.

Lemma crash_reached : reaches None Hosts.maximum agentB
  [Ran firstEntry.1 firstEntry.2; Restarted recoveredActions] start restarted.
Proof.
  refine (reaches_restart _ _ _ [Ran firstEntry.1 firstEntry.2] start afterFirst restarted _ _ _).
  - by refine (reaches_operation _ _ _ [] start start _ _ _ _); [|apply reaches_start].
  - eapply (boots_done _ _ _ _ _ None _ tt). vm_compute. reflexivity.
  - intros c r x r' x' _ Hx _ Hx'. rewrite (two_members _ _ _ Hx), (two_members _ _ _ Hx'); done.
Qed.

Lemma trial_reached : reaches None Hosts.maximum agentB trial start afterTrial.
Proof.
  by refine (reaches_operation _ _ _ [Ran firstEntry.1 firstEntry.2; Restarted recoveredActions]
    start restarted _ _ _ _); [|apply crash_reached].
Qed.

Lemma signs_one_action_witness : exists a, handedIn trial a /\
  Records.hashAction None a = Some firstHash /\
  forall b h2, signedAction afterTrial h2 -> handedIn trial b ->
    Records.hashAction None b = Some h2 -> conversationId b = conversationId a ->
    previousRecordHash b = previousRecordHash a -> b = a.
Proof.
  apply (signs_one_action None Hosts.maximum agentB trial start afterTrial
    start_started trial_reached trial_known firstHash).
  exists V, (localAgentId agentB). vm_compute. left.
Defined.


End CertificationRuns.
