(* ===== verification/Agreement.v ===== *)
(** Agreement: what the engines of a conversation's members decide together.
    Under one anchor an engine signs one action for a predecessor
    (CertificationRuns), and two certificates share an honest signer
    (Certificates), so the conversation has one history until it re-anchors;
    RecoveryRuns has what holds across re-anchors. *)
From S2P Require Import Prelude JsMap Identifiers CollectivePart Json Address SignedMessages.
From S2P Require Import SealedBody StoreDatabase StoreRecovery RecordSchemas Records OuterBody.
From S2P Require Import StoredHistory EngineRuntime EngineInvariants Outbox Send SendSteps.
From S2P Require Import Certificates Certification CertificationSafety CertificationRecords.
From S2P Require Import CertificationRuns Hosts SealedBodyRuns SendLaws.
From Stdlib Require Import Ascii.
Local Open Scope nat_scope.

Module Agreement.
Import RecordSchemas Records OuterBody StoredHistory EngineRuntime EngineInvariants.
Import Outbox Send SendSteps CertificationSafety CertificationRecords CertificationRuns.

Section agreement.
Context `{Base64Url} `{HostJson} `{Jose} `{Sha256} `{JoseEncryption} `{!EngineHost} `{!SendHost}.
Context `{!RowOrder} (versions : option Wire.WireVersions) (maximumEncodedBytes : Z).
Context {R : Type} `{!RecoveryPhase R} `{!QuietRecovery R}.
(** The actions in circulation, none of which collides with another. *)
Context (known : ActionCore -> Prop) (Hk : knownActions versions known).
Context (membership : VerifiedMembership).

(** The member [a] runs this engine, over its whole life, with quiet recovery,
    and nobody else signs with its key. *)
Definition honest (a : string) : Prop :=
  exists (input : EndpointEngineInput) history (w w' : World R),
    started w /\ reaches versions maximumEncodedBytes input history w w' /\
    (forall action, handedIn history action -> known action) /\
    (forall h, Certificates.signedAction versions maximumEncodedBytes membership a h ->
       CertificationSafety.signedAction w' h).

Lemma honest_signs a b1 b2 h1 h2 : honest a -> known b1 -> known b2 ->
  Records.hashAction versions b1 = Some h1 -> Records.hashAction versions b2 = Some h2 ->
  Certificates.signedAction versions maximumEncodedBytes membership a h1 ->
  Certificates.signedAction versions maximumEncodedBytes membership a h2 ->
  conversationId b1 = conversationId b2 -> previousRecordHash b1 = previousRecordHash b2 -> b1 = b2.
Proof.
  intros (input & history & w & w' & Hw & Hr & Hin & Hsign) Hk1 Hk2 Hh1 Hh2 Hs1%Hsign Hs2%Hsign Hc Hp.
  destruct (engine_signs versions maximumEncodedBytes input known Hk history w w' Hw Hr Hin h2 Hs2)
    as (b & Hb & Hhb & Honly).
  assert (b = b2) as -> by (by eapply (known_distinct _ _ Hk)).
  by eapply (Honly b1 h1).
Qed.

Lemma certified_conversation record h :
  verifyActionCertifiedRecord versions maximumEncodedBytes record membership = Some h ->
  conversationId (core_action (recordCore record)) = md_conversationId (descriptor membership).
Proof.
  unfold verifyActionCertifiedRecord, verifyRecordCore. intros (h' & Hc & _)%bind_Some.
  apply bind_Some in Hc as (? & _ & (va & Hva & _)%bind_Some). unfold verifyActionCore in Hva.
  destruct (actionReferencesMembership _ _) eqn:Ha; [|done]. unfold actionReferencesMembership in Ha.
  destruct (_ || _) eqn:Hb in Ha; [done|]. apply orb_false_elim in Hb as [Hb _].
  by apply bool_decide_eq_false, dec_stable in Hb.
Qed.

(** Two certified records of one predecessor, most members being honest. *)
Lemma certified_once d registry faulty record1 record2 :
  verifyMembershipDescriptor versions d registry = Some membership ->
  length faulty <= (length (members membership) - 1) / 3 ->
  (forall a, a ∈ memberIds membership -> a ∉ faulty -> honest a) ->
  certifies versions maximumEncodedBytes record1 membership ->
  certifies versions maximumEncodedBytes record2 membership ->
  known (core_action (recordCore record1)) -> known (core_action (recordCore record2)) ->
  previousRecordHash (core_action (recordCore record1)) =
    previousRecordHash (core_action (recordCore record2)) ->
  core_action (recordCore record1) = core_action (recordCore record2).
Proof.
  intros Hd Hf Hhonest Hc1 Hc2 Hk1 Hk2 Hp.
  pose proof (certifies_hash _ _ _ _ Hc1) as Hh1. pose proof (certifies_hash _ _ _ _ Hc2) as Hh2.
  destruct Hc1 as [h1 Hc1], Hc2 as [h2 Hc2].
  destruct (Certificates.both_signed versions maximumEncodedBytes _ _ _ _ _ _ _ Hd Hc1 Hc2)
    as (shared & Hnd & Hsub & Hthird & _ & Hsigned).
  destruct (Certificates.honest_among faulty shared Hnd ltac:(lia)) as (a & Ha & Hna).
  destruct (Hsigned a Ha) as [Hs1 Hs2].
  apply (honest_signs a _ _ _ _ (Hhonest a (Hsub a Ha) Hna) Hk1 Hk2 Hh1 Hh2 Hs1 Hs2); [|done].
  by rewrite (certified_conversation _ _ Hc1), (certified_conversation _ _ Hc2).
Qed.

(** ** Histories *)

(** Records that continue one another from the record [previous], all of one
    wire version. *)
Fixpoint continues (version previous : string) (records : list ActionCertifiedRecord) : Prop :=
  match records with
  | [] => True
  | r :: rest =>
      certifies versions maximumEncodedBytes r membership /\ known (core_action (recordCore r)) /\
      core_version (recordCore r) = version /\
      previousRecordHash (core_action (recordCore r)) = Some previous /\
      continues version (recordHash r) rest
  end.

(** A continuing record's hash is a function of its action. *)
Lemma certified_core record version previous :
  certifies versions maximumEncodedBytes record membership ->
  core_version (recordCore record) = version ->
  previousRecordHash (core_action (recordCore record)) = Some previous ->
  exists action, core_action (recordCore record) = POST action /\
    recordCore record = PostRecordCore version (hash membership) (pa_anchorHash action) action
      (core_actionHash (recordCore record)) /\
    Records.hashRecord versions (recordCore record) = Some (recordHash record).
Proof.
  intros [h Hc] <- Hp. unfold verifyActionCertifiedRecord in Hc.
  apply bind_Some in Hc as (h' & Hc & Hrest). destruct (decide _) as [|Hh%dec_stable]; [done|].
  rewrite Hh. clear Hrest. unfold verifyRecordCore, verifyRecordMembership in Hc.
  destruct (recordCore record) as [|version mh anchorHash action actionHash]; [done|].
  apply bind_Some in Hc as ([] & (same & [= <-] & Hsame)%bind_Some & Hc).
  case_bool_decide; [subst mh|done]. apply bind_Some in Hc as (va & Hva & Hc).
  destruct (_ || _) eqn:Hb; [done|]. apply orb_false_elim in Hb as [_ Hb%bool_decide_eq_false%dec_stable].
  simpl in Hb. exists action. split_and!; [done| |done]. cbn. f_equal. rewrite Hb.
  unfold verifyActionCore in Hva. destruct (negb _); [done|]. apply bind_Some in Hva as (? & _ & Hva).
  case_decide; [done|]. cbn in Hva. case_decide; [done|].
  by apply bind_Some in Hva as (? & _ & [= <-]).
Qed.

Lemma same_record version previous r1 r2 :
  certifies versions maximumEncodedBytes r1 membership ->
  certifies versions maximumEncodedBytes r2 membership ->
  core_version (recordCore r1) = version -> core_version (recordCore r2) = version ->
  previousRecordHash (core_action (recordCore r1)) = Some previous ->
  core_action (recordCore r1) = core_action (recordCore r2) -> recordHash r1 = recordHash r2.
Proof.
  intros Hc1 Hc2 Hv1 Hv2 Hp Ha.
  destruct (certified_core _ _ _ Hc1 Hv1 Hp) as (a1 & Ha1 & Hr1 & Hh1). rewrite Ha in Hp.
  destruct (certified_core _ _ _ Hc2 Hv2 Hp) as (a2 & Ha2 & Hr2 & Hh2).
  pose proof (certifies_hash _ _ _ _ Hc1) as Hx1. pose proof (certifies_hash _ _ _ _ Hc2) as Hx2.
  assert (a1 = a2) as -> by congruence. rewrite Ha, Hx2 in Hx1.
  rewrite Hr1 in Hh1. rewrite Hr2 in Hh2. congruence.
Qed.

(** C7: a conversation never forks under one anchor.  Let at most a third of a
    verified membership be faulty, and let every other member run this engine,
    handed anything, crashing and restarting as it may, its key used by nobody
    else, while no re-anchor completes and no empty conversation is restarted
    (its recovery is quiet: it changes no fold, head, lock or signature), and
    let no two actions in circulation have one hash.  Then two certified
    records of the conversation that name the same predecessor, or none,
    certify the same action; and of two chains of certified records of one wire
    version that continue from the same record, one is the beginning of the
    other. *)
Theorem anchor_never_forks d registry faulty :
  verifyMembershipDescriptor versions d registry = Some membership ->
  length faulty <= (length (members membership) - 1) / 3 ->
  (forall a, a ∈ memberIds membership -> a ∉ faulty -> honest a) ->
  (forall record1 record2,
     certifies versions maximumEncodedBytes record1 membership ->
     certifies versions maximumEncodedBytes record2 membership ->
     known (core_action (recordCore record1)) -> known (core_action (recordCore record2)) ->
     previousRecordHash (core_action (recordCore record1)) =
       previousRecordHash (core_action (recordCore record2)) ->
     core_action (recordCore record1) = core_action (recordCore record2)) /\
  (forall version previous chain1 chain2,
     continues version previous chain1 -> continues version previous chain2 ->
     (recordHash <$> chain1) `prefix_of` (recordHash <$> chain2) \/
     (recordHash <$> chain2) `prefix_of` (recordHash <$> chain1)).
Proof.
  intros Hd Hf Hhonest. split; [intros record1 record2; by apply (certified_once d registry faulty)|].
  intros version previous chain1. revert previous.
  induction chain1 as [|r1 chain1 IH]; intros previous chain2 Hr1 Hr2; [left; apply prefix_nil|].
  destruct chain2 as [|r2 chain2]; [right; apply prefix_nil|].
  destruct Hr1 as (Hc1 & Hk1 & Hv1 & Hp1 & Hr1), Hr2 as (Hc2 & Hk2 & Hv2 & Hp2 & Hr2).
  assert (core_action (recordCore r1) = core_action (recordCore r2)) as Ha
    by (apply (certified_once d registry faulty); try done; congruence).
  assert (recordHash r1 = recordHash r2) as Heq by (by eapply same_record).
  rewrite <- Heq in Hr2. rewrite !fmap_cons, Heq.
  by destruct (IH _ _ Hr1 Hr2); [left|right]; apply prefix_cons.
Qed.

End agreement.

(** ** A conversation of two

    Both members sign the first action.  A signature verifies when it is one of
    those ever made: the Registry's over the two cards, the first member's over
    the proposal, and each member's over that action. *)

#[local] Existing Instances Hosts.base64url Hosts.json Hosts.digest SealedBodyRuns.jwe.
#[local] Existing Instance SendLaws.sending.
#[local] Existing Instances CertificationRuns.asStored CertificationRuns.idle.
#[local] Existing Instance CertificationRuns.idle_quiet.
Import RecordRuns.

Definition firstRecord : ActionCertifiedRecord := Eval vm_compute in actionCertifiedRecord first.
Definition issued : list Jws := Eval vm_compute in
  ([Hosts.cardJws "a"%char; Hosts.cardJws "b"%char;
    SignedMessages.representation (outer (proposalOf (GENESIS firstAction)))] ++
   ac_signatures (actionCertificate firstRecord))%list.

#[local] Instance issuing : Jose := {|
  CryptoKey := string;
  importJwk := Some;
  calculateJwkThumbprintUri := calculateJwkThumbprintUri (Jose := Hosts.signatures);
  generalVerify := fun jws key =>
    bool_decide (jws ∈ issued) && generalVerify (Jose := Hosts.signatures) jws key;
  generalSign := generalSign (Jose := Hosts.signatures) |}.

#[local] Instance host : EngineHost := {|
  randomness := randomness (EngineHost := SendLaws.host);
  tokenDraws := tokenDraws (EngineHost := SendLaws.host);
|}.

Definition agentOf (card : AgentCards.AgentCard) (c : ascii) : EndpointEngineInput :=
  mkInput (mkSigner card (Hosts.keyOf c) (Hosts.keyOf c)) Hosts.registryKey V.
Definition agentA : EndpointEngineInput := Eval vm_compute in agentOf SealedBodyRuns.cardA "a"%char.
Definition agentB : EndpointEngineInput := Eval vm_compute in agentOf SealedBodyRuns.cardB "b"%char.

(** Each is handed the proposal, and stops when it has signed. *)
Definition signedBy (agent : EndpointEngineInput) : World unit :=
  after None Hosts.maximum agent start firstEntry.
Definition worldA : World unit := Eval vm_compute in signedBy agentA.
Definition worldB : World unit := Eval vm_compute in signedBy agentB.

(** Two first actions compete. *)
Definition competing (action : ActionCore) : Prop :=
  action = GENESIS firstAction \/ action = GENESIS otherFirst.

Lemma competing_known : knownActions None competing.
Proof.
  assert (Records.hashAction None (GENESIS firstAction) <> Records.hashAction None (GENESIS otherFirst))
    as Hne by (vm_compute; discriminate).
  split.
  - intros a b h [-> | ->] [-> | ->]; congruence.
  - by intros a [-> | ->].
Qed.

Lemma issued_actions a h : Certificates.signedAction None Hosts.maximum membership a h ->
  (a = idA \/ a = idB) /\ h = firstHash.
Proof.
  intros (version & rep & evidence & card & key & Hv & Hs & <- & _ & _ & _ & Hg).
  apply andb_true_iff in Hg as [Hin%bool_decide_eq_true _].
  repeat (apply elem_of_cons in Hin as [->|Hin]); [..|by apply elem_of_nil in Hin];
    vm_compute in Hv; first [discriminate|injection Hv as <-; injection Hs as <- <-; auto].
Qed.

Lemma issued_honest a : a ∈ memberIds membership -> honest (R := unit) None Hosts.maximum competing membership a.
Proof.
  assert (memberIds membership = [idA; idB]) as -> by (vm_compute; reflexivity).
  intros Ha. apply elem_of_cons in Ha as [-> | ->%list_elem_of_singleton];
    [exists agentA, [Ran firstEntry.1 firstEntry.2], start, worldA
    |exists agentB, [Ran firstEntry.1 firstEntry.2], start, worldB].
  all: split_and!; [apply start_started
    |by refine (reaches_operation _ _ _ [] start start _ _ _ _); [|apply reaches_start]
    |intros action (event & ->%list_elem_of_singleton & Ha); vm_compute in Ha;
       by apply list_elem_of_singleton in Ha; left
    |intros h [_ ->]%issued_actions; eexists _, _; vm_compute; left].
Qed.

(** So the other one is never certified. *)
Lemma anchor_never_forks_witness :
  certifies None Hosts.maximum firstRecord membership /\
  forall record, certifies None Hosts.maximum record membership ->
    competing (core_action (recordCore record)) -> core_action (recordCore record) = GENESIS firstAction.
Proof.
  assert (certifies None Hosts.maximum firstRecord membership) as Hfirst
    by (eexists; vm_compute; reflexivity).
  split; [exact Hfirst|]. intros record Hc Hk.
  refine (proj1 (anchor_never_forks None Hosts.maximum (R := unit) competing competing_known
    membership twoMembers Hosts.registryKey [] _ _ (fun a Ha _ => issued_honest a Ha))
    record firstRecord Hc Hfirst Hk (or_introl eq_refl) _);
    [vm_compute; reflexivity|simpl; lia|by destruct Hk as [-> | ->]].
Defined.

End Agreement.
